(* ===== verification/_CoqProject ===== *)
-Q . S2P
Prelude.v
PromisesCalls.v
Promises.v
PromisesRun.v
PromisesCorrect.v
PromisesFilter.v
Texts.v
Utf8.v
JsonPath.v
JsonBuffer.v
JsonString.v
JsonNumber.v
JsonCanonical.v
JsonTree.v
Lua.v
JsonEncode.v
JsonEncodeCorrect.v
JsonEncodeTheorems.v
JsonDecode.v
JsonDecodeCorrect.v
JsonDecodeBuild.v
JsonRead.v
JsonFormat.v
JsonFormatTheorems.v
JsonPosition.v
JsonRoundTrip.v
ReadAt.v
Portable.v
PortableSpec.v
PortableCorrect.v
PortableTheorems.v
Html.v
HtmlCorrect.v
HtmlUrls.v
HtmlCss.v
Vfs.v
VfsCorrect.v
Crypto.v
CryptoCorrect.v
Hash.v
HashSip.v
Rand.v
Vector.v
VectorHeap.v
VectorBits.v
VectorSearch.v
VectorAnswers.v
Codecs.v
Compress.v
CompressSteps.v
CompressInflate.v
CompressGzip.v
CompressDecode.v
CompressRoundTrip.v
CompressStreams.v
CompressWitness.v
CompressOnce.v
Startup.v
StartupCorrect.v
StartupStamps.v
Store.v
StoreCorrect.v
HttpTrust.v
Http.v
HttpCorrect.v
HttpTheorems.v
HttpSafety.v
Xml.v
XmlCorrect.v
Bpf.v
Connector.v
ConnectorFilter.v
NumericHost.v
ConnectorPlan.v
ConnectorTable.v
ConnectorPublic.v
ConnectorServe.v
ConnectorServeCorrect.v
ConnectorServeTheorems.v
ConnectorEntry.v
