(* ===== verification/Prelude.v ===== *)
(** * The core of cosmic, verified

    cosmic is one executable: Lua and its standard modules in C ([src/core]),
    programs in Teal, and a launcher's artifact that carries both.  This library
    models the C of the core that is more than a call of another library, and
    proves what it promises.  A file holds one component, or the theorems of
    one; each names the C file and functions it translates, and definitions
    keep the C's names.

    ** Conventions

    A byte is a [Z], a C string a [list Z] ([bytes]); an integer of a machine's
    width is a [Z] whose wrapping is written out ([u8], [u32], [u64]).  C that
    changes a [struct] takes and gives a [Record]; where a function has many
    ways out it answers a sum, an [option] or the [answer] of [Lua.v] ([Answers],
    [Refuses] for nil and a message, [Raises]).  Lua's values and tables are
    those of [Lua.v], tables at addresses of a heap.  A library, the kernel, the
    allocator and Lua's own C functions are classes of operations, and what is
    documented of them and used is a second class, of laws, named for the first
    ([Kernel] and [KernelLaws]); each has an instance that satisfies its laws,
    at which the theorems' witnesses are computed.

    A loop that drops a byte at each turn is recursive on its bytes.  Another
    has fuel: that it is enough is proved with what the loop does, from the
    bytes left, from a capacity that doubles
    ([inflate_turns], 66, past [SIZE_MAX]; [room_loop] and [want_loop], 64), from
    an interruption that may recur only so often ([patience] in [Kernel] and
    [Net]: [read_fuel] is a turn of it for each byte), or, where a decoder may
    go on for as long as it has input, from a binary number that bounds its
    turns ([run_turns] of [Codecs.v]).  Waits for the network have no bound of their own: the
    theorem is that they end where a signal comes.

    ** The parts

    - The promises filter ([src/core/promises.c], [promises_calls.h]):
      [PromisesCalls.v] the tables of calls; [Promises.v] the rules and the
      builder of the classic BPF program; [PromisesRun.v] an interpreter of it
      and the policy; [PromisesCorrect.v] that a rule's block runs the same
      wherever it is and that the program decides the policy; [PromisesFilter.v]
      the calls Lua makes, the installation, and C1 to C3.
    - JSON ([src/core/json.c]): [Utf8.v], [JsonPath.v], [JsonBuffer.v],
      [JsonString.v], [JsonNumber.v], [JsonCanonical.v] its parts; [JsonTree.v]
      values, the text a layout writes and a parser of it; [JsonEncode.v] and
      its two files of theorems (C4); [JsonDecode.v], [JsonRead.v] and theirs
      (C5); [JsonFormat.v] and its (C6); [JsonPosition.v]; and [JsonRoundTrip.v],
      which joins them (C7).  yyjson reads and writes numbers.
    - HTML's doors ([src/core/html.c]): [Html.v], [HtmlCorrect.v] (C8),
      [HtmlUrls.v] (C9), [HtmlCss.v].
    - Portable artifacts ([src/core/portable.c]): [ReadAt.v] the reads of a file;
      [Portable.v] the decoder; [PortableSpec.v] the format, said as what a file
      is; [PortableCorrect.v], [PortableTheorems.v] (C10).
    - The artifact's database as a file ([src/core/vfs.c]): [Vfs.v],
      [VfsCorrect.v] (C11, C12).
    - Digests, SipHash and random numbers ([src/core/crypto.c], [hash.c],
      [rand.c]): [Crypto.v], [CryptoCorrect.v] (C13), [Hash.v] (C14), [HashSip.v]
      (C15), [Rand.v].
    - The connector ([src/core/connector.c]): [Bpf.v], [Connector.v] and
      [ConnectorFilter.v] its filter, [NumericHost.v] the hosts of
      [src/core/socket.c], [ConnectorPlan.v] and [ConnectorTable.v] the endpoints
      and the table the filter points at, [ConnectorPublic.v] the lists of a
      public one (C20), [ConnectorServe.v] the loop over its sockets as a monad
      of the process's state, with [ConnectorServeCorrect.v] and
      [ConnectorServeTheorems.v] (C17 to C19), [ConnectorEntry.v] the doors
      (C16, C21).
    - Vector search ([src/core/vector.c]): [Vector.v] the corpus, the heap and
      the search; [VectorHeap.v], [VectorBits.v], [VectorSearch.v],
      [VectorAnswers.v] (C22).
    - Compression ([src/core/compress.c]): [Codecs.v] a step of each codec,
      [Compress.v] the streams; [CompressSteps.v], [CompressInflate.v],
      [CompressGzip.v], [CompressDecode.v] what a member decodes to, however it
      is cut; [CompressStreams.v] (C23, C24), [CompressRoundTrip.v] (C25),
      [CompressWitness.v] codecs the laws hold of; [CompressOnce.v] the raw
      deflate of whole texts (C32).
    - XML ([src/core/xml.c]): [Xml.v], [XmlCorrect.v] (C26).
    - HTTP transfers ([src/core/http.c]): [HttpTrust.v] the store of roots,
      [Http.v] the transfers, [HttpCorrect.v], [HttpTheorems.v] (C27 to C29),
      [HttpSafety.v] (C30, C31).
    - The store of modules ([src/core/store.c]): [Store.v], [StoreCorrect.v] (C33
      to C36).
    - The start of a program ([src/core/startup.c], [environment.c],
      [executable.c]): [Startup.v], [StartupCorrect.v] (C39, C40),
      [StartupStamps.v] (C37, C38).
    - [Texts.v] the decimal and hexadecimal texts, and this file the notation,
      tactics and lemmas on lists and integers that all share.

    The parts meet where the program's do.  [Startup.v] decodes an artifact with
    [Portable.v] and hashes its core with [Crypto.v]; [Store.v] reads its parts
    through [ReadAt.v] and inflates them with [CompressOnce.v]; [Vfs.v] reads
    the same artifact; the connector's doors read numeric hosts and run filters
    with the interpreter of [PromisesRun.v].

    ** What the theorems show

    C1 to C3 and C16, C19 to C21: a process that promised, or a connector, may
    do what its policy says and no more, decided of the BPF program itself.  C4
    to C9, C25: what is written reads back, by readers that are not the code's.
    C10 to C15, C20, C22 to C24, C26, C31, C32: what is answered is what a
    declarative specification says, on every branch, refusals included.  C17,
    C18, C27 to C29: invariants, answers and ends over every run of a loop that
    waits.  C30, C33 to C40: what is trusted is checked, whole, and left as it
    was.

    C37 and C38 are over any sequence of processes that share a cache
    ([history] of [StartupStamps.v]): each has a world of its own, and only the
    files they leave pass from one to the next, where any may be removed.

    ** What is a parameter

    yyjson, the codecs (bzlib, liblzma, zstd, miniz), expat, curl, mbedtls and
    PSA, SQLite, the kernel's calls, [malloc], [qsort], and Lua's conversions,
    borders and loading of chunks.  In [Http.v] what a server sends and when is
    an oracle of curl's calls.  miniz is held in [CompressOnce.v] to no more than
    it does: asked for a stored block that stops short it may say more output
    comes where none does, and of a damaged stream which refusal is answered is
    not said, beyond the limit's wherever the limit is passed.  A scalar product or a
    quantized coordinate is a parameter of [Vector.v]: its order is what is
    used.

    ** What is not modelled

    The connector's fork, the confinement of its child and the probes that
    attack it; the samplers of the normal and gamma distributions; vector
    search's SQL functions, stored blocks, [kmeans] and the texts of vectors;
    the fault the checked core injects into the decompressor and its allocator
    callbacks; the HTTP transport scripted for tests, [public_key] and
    [check_certificate]; [store_databases]; the bindings of SQLite
    ([sqlite.c]), of system calls ([syscalls.c] and its like) and of sockets;
    the embedding of Lua ([main.c], [boot.c], [entry.c]), coverage's hook, and
    most of [surface.c]: each is a sequence of calls of code that is not here,
    or floating-point arithmetic.  Registration of modules and metatables, and
    the growth of Lua's stack, are left out throughout; so are the branches for
    macOS.  The vendored libraries and the Teal programs are not C of the
    core. *)

From stdpp Require Export base tactics list strings gmap sorting.
From Stdlib Require Export ZArith Lia.
#[export] Set Default Goal Selector "!".
Open Scope Z_scope.

(** ** Machine integers and bytes *)

(** A C [unsigned char] is a [Z] from 0 to 255, a C string a list of them. *)
Abbreviation bytes := (list Z).

Definition is_byte (b : Z) : Prop := 0 ≤ b < 256.
Abbreviation all_bytes := (Forall is_byte).

(** The bytes of a C string literal. *)
Definition lit (s : string) : bytes :=
  (λ a, Z.of_N (Ascii.N_of_ascii a)) <$> String.list_ascii_of_string s.

(** Wrap-around of the fixed-width unsigned integers. *)
Definition u8 (x : Z) : Z := x mod 2 ^ 8.
Definition u32 (x : Z) : Z := x mod 2 ^ 32.
Definition u64 (x : Z) : Z := x mod 2 ^ 64.

(** A conversion to the signed 64-bit integer. *)
Definition s64 (x : Z) : Z := if u64 x <? 2 ^ 63 then u64 x else u64 x - 2 ^ 64.

(** The allocator the core is built with: whether it refuses the [n]th
    request it is made. *)
Class Allocator := refused : nat → bool.

(** Arithmetic is not unfolded by simplification. *)
#[global] Arguments Nat.mul : simpl never.
#[global] Arguments Nat.div : simpl never.
#[global] Arguments Nat.modulo : simpl never.
#[global] Arguments Z.div : simpl never.
#[global] Arguments Z.modulo : simpl never.
#[global] Arguments Z.pow : simpl never.

(** ** Lists *)

Lemma find_app {X} (f : X → bool) l1 l2 :
  List.find f (l1 ++ l2)
  = match List.find f l1 with Some x => Some x | None => List.find f l2 end.
Proof. induction l1 as [|x l1 IH]; simpl; [done|]. by destruct (f x). Qed.

Lemma find_none {X} (f : X → bool) l : (∀ x, x ∈ l → f x = false) → List.find f l = None.
Proof.
  induction l as [|x l IH]; intros Hf; simpl; [done|].
  rewrite Hf by apply list_elem_of_here. apply IH. intros y Hy. by apply Hf, list_elem_of_further.
Qed.

Lemma find_some_iff {X} (f : X → bool) l x :
  List.find f l = Some x → x ∈ l ∧ f x = true.
Proof. intros H. apply List.find_some in H as [? ?]. by rewrite list_elem_of_In. Qed.

Lemma filter_keep {X} (P : X → Prop) `{∀ x, Decision (P x)} l : Forall P l → filter P l = l.
Proof. induction 1; [done|]. rewrite filter_cons_True by done. by f_equal. Qed.

Lemma length_omap_le {X Y} (f : X → option Y) l : (length (omap f l) ≤ length l)%nat.
Proof. unfold omap. induction l as [|x l IH]; simpl; [done|]. destruct (f x); simpl; lia. Qed.

(** ** Bits of integers *)

Lemma land_low x n m : m = Z.ones n → 0 ≤ n → Z.land x m = x mod 2 ^ n.
Proof. intros -> Hn. by apply Z.land_ones. Qed.

(** Disjoint bits are added by an or. *)
Lemma lor_add a b n : 0 ≤ n → 0 ≤ b < 2 ^ n → Z.lor (a * 2 ^ n) b = a * 2 ^ n + b.
Proof.
  intros Hn Hb. rewrite <- Z.lxor_lor.
  { symmetry. apply Z.add_nocarry_lxor. apply Z.bits_inj'. intros i Hi.
    rewrite Z.land_spec, Z.bits_0. destruct (Z_lt_le_dec i n) as [Hlt|Hge].
    - by rewrite Z.mul_pow2_bits_low.
    - replace b with (b mod 2 ^ n) by (by apply Z.mod_small).
      by rewrite Z.mod_pow2_bits_high, andb_false_r by lia. }
  apply Z.bits_inj'. intros i Hi. rewrite Z.land_spec, Z.bits_0.
  destruct (Z_lt_le_dec i n) as [Hlt|Hge].
  - by rewrite Z.mul_pow2_bits_low.
  - replace b with (b mod 2 ^ n) by (by apply Z.mod_small).
    by rewrite Z.mod_pow2_bits_high, andb_false_r by lia.
Qed.

Lemma lor_low a b n : 0 ≤ n → a mod 2 ^ n = 0 → 0 ≤ b < 2 ^ n → Z.lor a b = a + b.
Proof.
  intros Hn Ha Hb. rewrite (Z.div_mod a (2 ^ n)), Ha, Z.add_0_r, (Z.mul_comm (2 ^ n)) by lia.
  by apply lor_add.
Qed.

Lemma shiftl_lor x y n : 0 ≤ n → 0 ≤ y < 2 ^ n → Z.lor (Z.shiftl x n) y = x * 2 ^ n + y.
Proof. intros Hn Hy. rewrite Z.shiftl_mul_pow2 by done. by apply lor_add. Qed.

Lemma bits_above x n i : 0 ≤ x < 2 ^ n → 0 ≤ n ≤ i → Z.testbit x i = false.
Proof.
  intros Hx Hi. rewrite <-(Z.mod_small x (2 ^ n)) by done. apply Z.mod_pow2_bits_high. lia.
Qed.

(** Words are equal that have the same bits. *)
Lemma word_bits n x y :
  0 ≤ n → 0 ≤ x < 2 ^ n → 0 ≤ y < 2 ^ n → (∀ i, 0 ≤ i < n → Z.testbit x i = Z.testbit y i) → x = y.
Proof.
  intros Hn Hx Hy Hbits. apply Z.bits_inj'. intros i Hi. destruct (Z_lt_le_dec i n).
  - by apply Hbits.
  - by rewrite !(bits_above _ n) by done.
Qed.

(** Bits of words below a power of two stay below it. *)
Lemma below_lxor n x y : 0 ≤ n → 0 ≤ x < 2 ^ n → 0 ≤ y < 2 ^ n → 0 ≤ Z.lxor x y < 2 ^ n.
Proof.
  intros Hn Hx Hy. split; [apply Z.lxor_nonneg; lia|].
  rewrite <-(Z.mod_small x (2 ^ n)), <-(Z.mod_small y (2 ^ n)) by done. rewrite <-!Z.land_ones by done.
  assert (Z.lxor (Z.land x (Z.ones n)) (Z.land y (Z.ones n)) = Z.land (Z.lxor x y) (Z.ones n)) as ->.
  { apply Z.bits_inj'. intros i Hi. rewrite Z.lxor_spec, !Z.land_spec, Z.lxor_spec.
    by destruct (Z.testbit x i), (Z.testbit y i), (Z.testbit (Z.ones n) i). }
  rewrite Z.land_ones by done. apply Z.mod_pos_bound. lia.
Qed.

Lemma below_lor n x y : 0 ≤ n → 0 ≤ x < 2 ^ n → 0 ≤ y < 2 ^ n → 0 ≤ Z.lor x y < 2 ^ n.
Proof.
  intros Hn Hx Hy. split; [apply Z.lor_nonneg; lia|].
  rewrite <-(Z.mod_small x (2 ^ n)), <-(Z.mod_small y (2 ^ n)) by done. rewrite <-!Z.land_ones by done.
  rewrite <-Z.land_lor_distr_l. rewrite Z.land_ones by done. apply Z.mod_pos_bound. lia.
Qed.

Lemma lxor_byte x y : is_byte x → is_byte y → is_byte (Z.lxor x y).
Proof. by apply (below_lxor 8). Qed.

Lemma lor_byte x y : is_byte x → is_byte y → is_byte (Z.lor x y).
Proof. by apply (below_lor 8). Qed.

(** ** Automation *)

(** Splits on each comparison of integers that decides a goal. *)
Ltac zcases :=
  repeat match goal with
  | |- context [?a <? ?b] => destruct (Z.ltb_spec a b)
  | |- context [?a <=? ?b] => destruct (Z.leb_spec a b)
  | |- context [?a =? ?b] => destruct (Z.eqb_spec a b)
  end.

(** The same for a hypothesis. *)
Ltac zcases_in H :=
  repeat match type of H with
  | context [?a <? ?b] => destruct (Z.ltb_spec a b)
  | context [?a <=? ?b] => destruct (Z.leb_spec a b)
  | context [?a =? ?b] => destruct (Z.eqb_spec a b)
  end.

(** Equalities of exclusive ors, bit by bit. *)
Ltac zxor :=
  apply Z.bits_inj'; intros ? _; rewrite !Z.lxor_spec;
  repeat match goal with |- context [Z.testbit ?x ?i] => destruct (Z.testbit x i) end; done.

(** Linear arithmetic with division and remainder by constants. *)
Ltac zdiv := Z.to_euclidean_division_equations; lia.

(** Decides the comparisons of a goal that arithmetic decides. *)
Ltac ztest :=
  repeat match goal with
  | |- context [?a <? ?b] =>
      first [rewrite (proj2 (Z.ltb_lt a b)) by zdiv | rewrite (proj2 (Z.ltb_ge a b)) by zdiv]
  | |- context [?a <=? ?b] =>
      first [rewrite (proj2 (Z.leb_le a b)) by zdiv | rewrite (proj2 (Z.leb_gt a b)) by zdiv]
  | |- context [?a =? ?b] =>
      first [rewrite (proj2 (Z.eqb_eq a b)) by zdiv | rewrite (proj2 (Z.eqb_neq a b)) by zdiv]
  end.

Lemma forallb_Forall {X} (f : X → bool) l : forallb f l = true ↔ Forall (λ x, f x = true) l.
Proof.
  induction l as [|x l IH]; simpl; [by split|]. by rewrite andb_true_iff, Forall_cons, IH.
Qed.
