(* ===== verification/Promises.v ===== *)
(** * The promises filter: its tables and the program it writes

    [core/promises.c].  [program_for] writes the classic BPF program a
    sandboxed process is held to: a check of the architecture, a bound on
    the call number, a binary decision tree over the allowed numbers and,
    after it, a block for each argument rule.  The builder is passed as
    state; a jump is patched where the C code patches it.  What a written
    program decides is in [PromisesRun.v], the proof that it decides it in
    [PromisesCorrect.v]. *)

From S2P Require Import Prelude.
From S2P Require Import PromisesCalls.

Local Open Scope string_scope.
Local Open Scope Z_scope.

(** The architectures a filter is written for. *)
Inductive cosmic_arch := COSMIC_ARCH_X86_64 | COSMIC_ARCH_AARCH64.

#[export] Instance cosmic_arch_eq_dec : EqDecision cosmic_arch.
Proof. solve_decision. Defined.

(** One instruction: 16-bit code, two 8-bit jumps, a 32-bit operand. *)
Record cosmic_insn := Insn {
  insn_code : Z; insn_jt : Z; insn_jf : Z; insn_k : Z
}.

Definition COSMIC_PROMISE_INSNS : Z := 4096.
Definition PROMISE_CALLS_REVIEWED : Z := 472.

(** [enum call], by name, in the order of the X-macro. *)
Definition calls : list string := X86_64_CALLS.*1.

(** A call's number plus one; 0 where the architecture has none. *)
Fixpoint numbered (table : list (string * Z)) (call : string) : Z :=
  match table with
  | [] => 0
  | (name, number) :: rest =>
      if String.eqb name call then number + 1 else numbered rest call
  end.

Definition x86_64_numbers : string → Z := numbered X86_64_CALLS.
Definition aarch64_numbers : string → Z := numbered AARCH64_CALLS.

(** How a call is granted, ordered by how much it allows. *)
Inductive rule :=
  | RULE_NONE | RULE_ENOSYS
  | RULE_MMAP | RULE_MPROTECT | RULE_MEMFD
  | RULE_CLONE_THREAD | RULE_CLONE_FORK | RULE_CLONE_NEST
  | RULE_SIGNAL
  | RULE_PID_SELF_OR_ZERO | RULE_PRLIMIT | RULE_PRLIMIT_NEST | RULE_PRIORITY
  | RULE_SCHED_POLICY | RULE_MADVISE | RULE_FCNTL
  | RULE_IOCTL | RULE_IOCTL_NEST | RULE_PRCTL | RULE_PRCTL_NEST
  | RULE_UNSHARE_NEST
  | RULE_SOCKET_UNIX | RULE_SOCKET_INET | RULE_SOCKET_UNIX_INET
  | RULE_OPEN | RULE_OPENAT | RULE_MODE1 | RULE_MODE2 | RULE_MKNOD1 | RULE_MKNOD2
  | RULE_ALLOW.

#[export] Instance rule_eq_dec : EqDecision rule.
Proof. solve_decision. Defined.

(** Every rule, in the order of the enumeration. *)
Definition rules_in_order : list rule := [
  RULE_NONE; RULE_ENOSYS; RULE_MMAP; RULE_MPROTECT; RULE_MEMFD; RULE_CLONE_THREAD;
  RULE_CLONE_FORK; RULE_CLONE_NEST; RULE_SIGNAL; RULE_PID_SELF_OR_ZERO; RULE_PRLIMIT;
  RULE_PRLIMIT_NEST; RULE_PRIORITY; RULE_SCHED_POLICY; RULE_MADVISE; RULE_FCNTL;
  RULE_IOCTL; RULE_IOCTL_NEST; RULE_PRCTL; RULE_PRCTL_NEST; RULE_UNSHARE_NEST;
  RULE_SOCKET_UNIX; RULE_SOCKET_INET; RULE_SOCKET_UNIX_INET; RULE_OPEN; RULE_OPENAT;
  RULE_MODE1; RULE_MODE2; RULE_MKNOD1; RULE_MKNOD2; RULE_ALLOW ].

(** The integer value of a rule: its place in the enumeration. *)
Fixpoint place (r : rule) (l : list rule) : Z :=
  match l with
  | [] => 0
  | x :: rest => if decide (x = r) then 0 else 1 + place r rest
  end.
Definition rank (r : rule) : Z := place r rules_in_order.

Record grant := Grant { grant_call : string; grant_rule : rule }.

#[local] Abbreviation A name := (Grant name RULE_ALLOW).
#[local] Abbreviation R name r := (Grant name r).

(** What every program has. *)
Definition basics : list grant := [
  (* Memory. mmap and mprotect refuse executable memory that is anonymous or writable,
     which `jit` grants. *)
  R "mmap" RULE_MMAP; R "mprotect" RULE_MPROTECT; A "munmap"; A "mremap"; A "brk";
  R "madvise" RULE_MADVISE; A "mlock"; A "mlock2"; A "munlock"; A "mlockall";
  A "munlockall"; A "mincore"; A "msync"; A "membarrier"; A "mseal"; A "map_shadow_stack";
  A "cachestat"; R "memfd_create" RULE_MEMFD;
  (* Time. *)
  A "clock_gettime"; A "clock_getres"; A "clock_nanosleep"; A "gettimeofday";
  A "nanosleep"; A "time"; A "times"; A "getitimer"; A "setitimer"; A "alarm";
  A "timer_create"; A "timer_settime"; A "timer_gettime"; A "timer_getoverrun";
  A "timer_delete"; A "timerfd_create"; A "timerfd_settime"; A "timerfd_gettime";
  (* Signals, to itself or, where the scope holds, anywhere in the domain. *)
  A "rt_sigaction"; A "rt_sigprocmask"; A "rt_sigreturn"; A "rt_sigpending";
  A "rt_sigsuspend"; A "rt_sigtimedwait"; A "sigaltstack"; A "signalfd"; A "signalfd4";
  A "pause"; A "restart_syscall"; R "kill" RULE_SIGNAL; R "tgkill" RULE_SIGNAL;
  R "tkill" RULE_SIGNAL; R "rt_sigqueueinfo" RULE_SIGNAL;
  R "rt_tgsigqueueinfo" RULE_SIGNAL;
  (* Threads, and who it is. *)
  R "clone" RULE_CLONE_THREAD; R "clone3" RULE_ENOSYS; A "set_tid_address";
  A "set_robust_list"; R "get_robust_list" RULE_PID_SELF_OR_ZERO; A "futex";
  A "futex_waitv"; A "futex_wake"; A "futex_wait"; A "futex_requeue"; A "gettid";
  A "getpid"; A "getppid"; R "getpgid" RULE_PID_SELF_OR_ZERO; A "getpgrp";
  R "getsid" RULE_PID_SELF_OR_ZERO; A "setsid"; R "setpgid" RULE_PID_SELF_OR_ZERO;
  A "exit"; A "exit_group"; A "sched_yield"; R "sched_getaffinity" RULE_PID_SELF_OR_ZERO;
  R "sched_setaffinity" RULE_PID_SELF_OR_ZERO; R "sched_getparam" RULE_PID_SELF_OR_ZERO;
  R "sched_setparam" RULE_PID_SELF_OR_ZERO; R "sched_getscheduler" RULE_PID_SELF_OR_ZERO;
  R "sched_setscheduler" RULE_SCHED_POLICY;
  R "sched_rr_get_interval" RULE_PID_SELF_OR_ZERO;
  R "sched_getattr" RULE_PID_SELF_OR_ZERO; A "sched_get_priority_max";
  A "sched_get_priority_min"; A "getcpu"; R "getpriority" RULE_PRIORITY;
  R "setpriority" RULE_PRIORITY; A "getuid"; A "geteuid"; A "getgid"; A "getegid";
  A "getgroups"; A "getresuid"; A "getresgid"; A "umask"; A "uname"; A "sysinfo";
  A "getrusage"; A "getrlimit"; R "prlimit64" RULE_PRLIMIT; R "prctl" RULE_PRCTL;
  A "arch_prctl"; A "rseq"; A "getrandom"; A "wait4"; A "waitid";
  (* Filters and rulesets, which only narrow what the process may do. *)
  A "seccomp"; A "landlock_create_ruleset"; A "landlock_add_rule";
  A "landlock_restrict_self"; A "execve"; A "execveat";
  (* Descriptors it has: handed in, or made by the calls below. *)
  A "read"; A "write"; A "readv"; A "writev"; A "pread64"; A "pwrite64"; A "preadv";
  A "pwritev"; A "preadv2"; A "pwritev2"; A "close"; A "close_range"; A "dup"; A "dup2";
  A "dup3"; R "fcntl" RULE_FCNTL; R "ioctl" RULE_IOCTL; A "lseek"; A "pipe"; A "pipe2";
  A "poll"; A "ppoll"; A "select"; A "pselect6"; A "epoll_create"; A "epoll_create1";
  A "epoll_ctl"; A "epoll_wait"; A "epoll_pwait"; A "epoll_pwait2"; A "eventfd";
  A "eventfd2"; A "sendfile"; A "splice"; A "tee"; A "copy_file_range"; A "readahead";
  A "fadvise64"; A "fallocate"; A "fsync"; A "fdatasync"; A "sync_file_range"; A "sync";
  A "syncfs"; A "flock"; A "ftruncate"; A "truncate"; A "inotify_init"; A "inotify_init1";
  A "inotify_add_watch"; A "inotify_rm_watch";
  (* Sockets: a socketpair of unix sockets, and the calls on a socket it already has.
     `socket` itself is granted only where a unix socket may be made (`collect`). A
     descriptor handed in is the grant that lets it reach where its owner meant. *)
  R "socketpair" RULE_SOCKET_UNIX; A "bind"; A "connect"; A "listen"; A "accept";
  A "accept4"; A "getsockname"; A "getpeername"; A "sendto"; A "recvfrom"; A "sendmsg";
  A "recvmsg"; A "sendmmsg"; A "recvmmsg"; A "shutdown"; A "setsockopt"; A "getsockopt";
  (* Files: Landlock holds the paths, and the filter holds a mode to none with a setuid,
     setgid or sticky bit. *)
  R "open" RULE_OPEN; R "openat" RULE_OPENAT; R "creat" RULE_MODE1;
  R "openat2" RULE_ENOSYS; A "stat"; A "fstat"; A "lstat"; A "newfstatat"; A "statx";
  A "statfs"; A "fstatfs"; A "access"; A "faccessat"; A "faccessat2"; A "readlink";
  A "readlinkat"; A "getcwd"; A "chdir"; A "fchdir"; A "rename"; A "renameat";
  A "renameat2"; R "mkdir" RULE_MODE1; R "mkdirat" RULE_MODE2; A "rmdir"; A "link";
  A "linkat"; A "unlink"; A "unlinkat"; A "symlink"; A "symlinkat"; R "mknod" RULE_MKNOD1;
  R "mknodat" RULE_MKNOD2; A "getdents"; A "getdents64"; A "getxattr"; A "lgetxattr";
  A "fgetxattr"; A "listxattr"; A "llistxattr"; A "flistxattr"; A "getxattrat";
  A "listxattrat"; A "file_getattr"
].

(** [nest]: what a program needs to build a sandbox of its own. *)
Definition nest_calls : list grant := [
  R "unshare" RULE_UNSHARE_NEST; A "mount"; A "umount2"; A "pivot_root";
  A "mount_setattr"; A "open_tree"; A "move_mount"; A "setrlimit";
  R "prlimit64" RULE_PRLIMIT_NEST; R "prctl" RULE_PRCTL_NEST; A "kill"; A "tgkill";
  A "tkill"; A "rt_sigqueueinfo"; A "rt_tgsigqueueinfo"; R "ioctl" RULE_IOCTL_NEST
].

(** [fork]: a process of its own, and the descriptor to wait for it on. *)
Definition fork_calls : list grant := [
  A "fork"; A "vfork"; R "clone" RULE_CLONE_FORK; A "pidfd_open"
].

(** [jit]: memory that is executable and not a file's, and what makes it. *)
Definition jit_calls : list grant := [
  A "mmap"; A "mprotect"; A "pkey_mprotect"; A "pkey_alloc"; A "pkey_free";
  A "memfd_create"
].

(** [fattr]: a file's mode, times, owner and extended attributes. *)
Definition fattr_calls : list grant := [
  R "chmod" RULE_MODE1; R "fchmod" RULE_MODE1; R "fchmodat" RULE_MODE2;
  R "fchmodat2" RULE_MODE2; A "chown"; A "fchown"; A "lchown"; A "fchownat"; A "utime";
  A "utimes"; A "futimesat"; A "utimensat"; A "setxattr"; A "lsetxattr"; A "fsetxattr";
  A "removexattr"; A "lremovexattr"; A "fremovexattr"; A "setxattrat"; A "removexattrat"
].


(** ** The classic BPF an instruction is made of *)

Definition OP_LOAD : Z := 0x20.
Definition OP_AND : Z := 0x54.
Definition OP_JUMP : Z := 0x05.
Definition OP_EQ : Z := 0x15.
Definition OP_GREATER : Z := 0x25.
Definition OP_AT_LEAST : Z := 0x35.
Definition OP_ANY_SET : Z := 0x45.
Definition OP_RETURN : Z := 0x06.

Definition DATA_NUMBER : Z := 0.
Definition DATA_ARCH : Z := 4.
Definition DATA_ARGUMENT (n : Z) : Z := 16 + 8 * n.
Definition DATA_LOW : Z := 0.
Definition DATA_HIGH : Z := 4.

Definition RETURN_ALLOW : Z := 0x7fff0000.
Definition RETURN_KILL_PROCESS : Z := 0x80000000.
Definition RETURN_ERRNO (number : Z) : Z := Z.lor 0x00050000 number.
Definition LINUX_EPERM : Z := 1.
Definition LINUX_ENOTTY : Z := 25.
Definition LINUX_ENOSYS : Z := 38.

Definition AUDIT_X86_64 : Z := 0xc000003e.
Definition AUDIT_AARCH64 : Z := 0xc00000b7.

(** ** The flags and options the rules read *)

(** [~x] on a 32-bit unsigned. *)
Definition not32 (x : Z) : Z := Z.lxor x 0xffffffff.

Definition PROT_WRITE_BIT : Z := 0x2.
Definition PROT_EXEC_BIT : Z := 0x4.
Definition PROT_BTI_BIT : Z := 0x10.
Definition MAP_ANONYMOUS_BIT : Z := 0x20.
Definition MFD_NOEXEC_SEAL_BIT : Z := 0x8.
Definition O_CREAT_BIT : Z := 0x40.
Definition O_TMPFILE_BIT : Z := 0x400000.
Definition SPECIAL_MODE_BITS : Z := 0xe00.
Definition FILE_TYPE_BITS : Z := 0xf000.
Definition TYPE_REGULAR : Z := 0x8000.
Definition TYPE_FIFO : Z := 0x1000.
Definition TYPE_SOCKET : Z := 0xc000.
Definition AF_UNIX_FAMILY : Z := 1.
Definition AF_INET_FAMILY : Z := 2.
Definition AF_INET6_FAMILY : Z := 10.
Definition SCHED_RESET_ON_FORK_BIT : Z := 0x40000000.

Definition CLONE_NAMESPACES : Z := 0x7e020000.
Definition CLONE_FORBIDDEN : Z := Z.lor (Z.lor CLONE_NAMESPACES 0x2000) 0x8000.
Definition NEST_NAMESPACES : Z := 0x78020000.
Definition CLONE_FORBIDDEN_NEST : Z :=
  Z.lor (Z.land CLONE_NAMESPACES (not32 NEST_NAMESPACES)) 0x2000.
Definition CLONE_THREAD_REQUIRED : Z :=
  Z.lor (Z.lor (Z.lor 0x100 0x400) 0x800) 0x10000.

(** ** The builder *)

(** What a program is built with: the instructions appended so far, whose
    number is the C code's [length], and whether one did not fit. *)
Record builder := Builder { b_code : list cosmic_insn; b_full : bool }.

Definition b_length (b : builder) : nat := length (b_code b).

(** Appends one instruction, answers where it went (0 when it did not). *)
Definition emit (b : builder) (op t f operand : Z) : builder * nat :=
  if COSMIC_PROMISE_INSNS <=? Z.of_nat (b_length b) then
    (Builder (b_code b) true, 0%nat)
  else (Builder (b_code b ++ [Insn op t f operand]) (b_full b), b_length b).

Definition with_k (i : cosmic_insn) (operand : Z) : cosmic_insn :=
  Insn (insn_code i) (insn_jt i) (insn_jf i) operand.
Definition with_jt (i : cosmic_insn) (t : Z) : cosmic_insn :=
  Insn (insn_code i) t (insn_jf i) (insn_k i).
Definition with_jf (i : cosmic_insn) (f : Z) : cosmic_insn :=
  Insn (insn_code i) (insn_jt i) f (insn_k i).

(** [b->code[at].k = operand]. *)
Definition patch_k (b : builder) (at_ : nat) (operand : Z) : builder :=
  Builder (alter (λ i, with_k i operand) at_ (b_code b)) (b_full b).

(** Where a jump in a block goes. *)
Inductive target := JUMP_NEXT | JUMP_SKIP | JUMP_ALLOW | JUMP_DENY.

#[export] Instance target_eq_dec : EqDecision target.
Proof. solve_decision. Defined.

Record patch := Patch { p_at : nat; p_when_false : bool; p_target : target }.

(** A rule's block, whose jumps to its end are patched once it has one;
    the array of patches has room for 32. *)
Record block := Block { k_b : builder; k_patches : list patch }.

Definition MAX_PATCHES : nat := 32.

Definition jump_to (k : block) (at_ : nat) (when_false : bool) (t : target) : block * Z :=
  match t with
  | JUMP_NEXT => (k, 0)
  | JUMP_SKIP => (k, 1)
  | _ =>
      if (length (k_patches k) <? MAX_PATCHES)%nat then
        (Block (k_b k) (k_patches k ++ [Patch at_ when_false t]), 0)
      else (Block (Builder (b_code (k_b k)) true) (k_patches k), 0)
  end.

(** A comparison of the accumulator with [value]. *)
Definition test (k : block) (op value : Z) (yes no : target) : block :=
  let at_ := b_length (k_b k) in
  let '(k, t) := jump_to k at_ false yes in
  let '(k, f) := jump_to k at_ true no in
  Block (emit (k_b k) op t f value).1 (k_patches k).

Definition load (k : block) (offset : Z) : block :=
  Block (emit (k_b k) OP_LOAD 0 0 offset).1 (k_patches k).

Definition mask (k : block) (value : Z) : block :=
  Block (emit (k_b k) OP_AND 0 0 value).1 (k_patches k).

(** One jump of a block pointed at the block's end; a distance that does
    not fit a byte fills the builder. *)
Definition apply_patch (deny allow : nat) (b : builder) (p : patch) : builder :=
  let to := match p_target p with JUMP_ALLOW => allow | _ => deny end in
  let distance := u64 (Z.of_nat to - (Z.of_nat (p_at p) + 1)) in
  if 255 <? distance then Builder (b_code b) true
  else
    Builder
      (alter (λ i, if p_when_false p then with_jf i (u8 distance) else with_jt i (u8 distance))
         (p_at p) (b_code b))
      (b_full b).

(** Closes the block with a denial, then an allowance, and points its
    jumps at them. *)
Definition finish (k : block) (denial : Z) : builder :=
  let '(b, deny) := emit (k_b k) OP_RETURN 0 0 denial in
  let '(b, allow) := emit b OP_RETURN 0 0 RETURN_ALLOW in
  foldl (apply_patch deny allow) b (k_patches k).

(** Allowed when the accumulator is one of [values]. *)
Definition allow_one_of (k : block) (values : list Z) : block :=
  foldl (λ k v, test k OP_EQ v JUMP_ALLOW JUMP_NEXT) k values.

(** ** The rules *)

Definition fcntl_commands : list Z :=
  [0; 1; 2; 3; 4; 5; 6; 7; 9; 36; 37; 38; 1030; 1031; 1032; 1033; 1034].

Definition ioctl_commands : list Z :=
  [0x541b; 0x5421; 0x5451; 0x5450; 0x5401; 0x5405; 0x802c542a; 0x5413; 0x540f;
   0x5429; 0x5411].

Definition nest_ioctl_commands : list Z := [0x8913; 0x8914].

Definition prctl_options : list Z :=
  [1; 2; 3; 4; 15; 16; 21; 22; 23; 29; 30; 36; 37; 38; 39; 40; 41; 42; 65; 66;
   0x53564d41].

Definition nest_prctl_options : list Z := [24; 47].

Definition sched_policies : list Z := [0; 3; 5].

Definition madvise_advice : list Z :=
  [0; 1; 2; 3; 4; 8; 10; 11; 14; 15; 16; 17; 18; 19; 20; 21; 22; 23].

(** The body of [rule]'s block: the [switch] of [rule_block], answering the
    block and the denial its end returns. *)
Definition rule_body (k : block) (r : rule) (pid : Z) (arch : cosmic_arch) : block * Z :=
  let denial := RETURN_ERRNO LINUX_EPERM in
  let arg n := DATA_ARGUMENT n + DATA_LOW in
  match r with
  | RULE_MMAP =>
      let k := load k (arg 2) in
      let k := test k OP_ANY_SET PROT_EXEC_BIT JUMP_NEXT JUMP_ALLOW in
      let k := test k OP_ANY_SET PROT_WRITE_BIT JUMP_DENY JUMP_NEXT in
      let k := load k (arg 3) in
      let k := test k OP_ANY_SET MAP_ANONYMOUS_BIT JUMP_DENY JUMP_ALLOW in
      (k, denial)
  | RULE_MPROTECT =>
      let k := load k (arg 2) in
      if decide (arch = COSMIC_ARCH_AARCH64) then
        let k := test k OP_ANY_SET PROT_EXEC_BIT JUMP_NEXT JUMP_ALLOW in
        let k := test k OP_ANY_SET PROT_WRITE_BIT JUMP_DENY JUMP_NEXT in
        let k := test k OP_ANY_SET PROT_BTI_BIT JUMP_ALLOW JUMP_DENY in
        (k, denial)
      else
        let k := test k OP_ANY_SET PROT_EXEC_BIT JUMP_DENY JUMP_ALLOW in
        (k, denial)
  | RULE_MEMFD =>
      let k := load k (arg 1) in
      let k := mask k MFD_NOEXEC_SEAL_BIT in
      let k := test k OP_EQ MFD_NOEXEC_SEAL_BIT JUMP_ALLOW JUMP_DENY in
      (k, denial)
  | RULE_CLONE_THREAD =>
      let k := load k (arg 0) in
      let k := test k OP_ANY_SET CLONE_FORBIDDEN JUMP_DENY JUMP_NEXT in
      let k := mask k CLONE_THREAD_REQUIRED in
      let k := test k OP_EQ CLONE_THREAD_REQUIRED JUMP_ALLOW JUMP_DENY in
      (k, denial)
  | RULE_CLONE_FORK =>
      let k := load k (arg 0) in
      let k := test k OP_ANY_SET CLONE_FORBIDDEN JUMP_DENY JUMP_ALLOW in
      (k, denial)
  | RULE_CLONE_NEST =>
      let k := load k (arg 0) in
      let k := test k OP_ANY_SET CLONE_FORBIDDEN_NEST JUMP_DENY JUMP_ALLOW in
      (k, denial)
  | RULE_UNSHARE_NEST =>
      let k := load k (arg 0) in
      let k := mask k (not32 NEST_NAMESPACES) in
      let k := test k OP_EQ 0 JUMP_ALLOW JUMP_DENY in
      (k, denial)
  | RULE_SIGNAL =>
      let k := load k (arg 0) in
      let k := test k OP_EQ pid JUMP_ALLOW JUMP_DENY in
      (k, denial)
  | RULE_PID_SELF_OR_ZERO =>
      let k := load k (arg 0) in
      let k := test k OP_EQ 0 JUMP_ALLOW JUMP_NEXT in
      let k := test k OP_EQ pid JUMP_ALLOW JUMP_DENY in
      (k, denial)
  | RULE_PRLIMIT =>
      let k := load k (arg 0) in
      let k := test k OP_EQ 0 JUMP_SKIP JUMP_NEXT in
      let k := test k OP_EQ pid JUMP_NEXT JUMP_DENY in
      let k := load k (arg 2) in
      let k := test k OP_EQ 0 JUMP_NEXT JUMP_DENY in
      let k := load k (DATA_ARGUMENT 2 + DATA_HIGH) in
      let k := test k OP_EQ 0 JUMP_ALLOW JUMP_DENY in
      (k, denial)
  | RULE_PRLIMIT_NEST =>
      let k := load k (arg 0) in
      let k := test k OP_EQ 0 JUMP_ALLOW JUMP_NEXT in
      let k := test k OP_EQ pid JUMP_ALLOW JUMP_DENY in
      (k, denial)
  | RULE_PRIORITY =>
      let k := load k (arg 0) in
      let k := test k OP_EQ 0 JUMP_NEXT JUMP_DENY in
      let k := load k (arg 1) in
      let k := test k OP_EQ 0 JUMP_ALLOW JUMP_DENY in
      (k, denial)
  | RULE_SCHED_POLICY =>
      let k := load k (arg 0) in
      let k := test k OP_EQ 0 JUMP_SKIP JUMP_NEXT in
      let k := test k OP_EQ pid JUMP_NEXT JUMP_DENY in
      let k := load k (arg 1) in
      let k := mask k (not32 SCHED_RESET_ON_FORK_BIT) in
      let k := allow_one_of k sched_policies in
      (k, denial)
  | RULE_MADVISE => (allow_one_of (load k (arg 2)) madvise_advice, denial)
  | RULE_FCNTL => (allow_one_of (load k (arg 1)) fcntl_commands, denial)
  | RULE_IOCTL =>
      (allow_one_of (load k (arg 1)) ioctl_commands, RETURN_ERRNO LINUX_ENOTTY)
  | RULE_IOCTL_NEST =>
      let k := load k (arg 1) in
      let k := allow_one_of k ioctl_commands in
      let k := allow_one_of k nest_ioctl_commands in
      (k, RETURN_ERRNO LINUX_ENOTTY)
  | RULE_PRCTL => (allow_one_of (load k (arg 0)) prctl_options, denial)
  | RULE_PRCTL_NEST =>
      let k := load k (arg 0) in
      let k := allow_one_of k prctl_options in
      let k := allow_one_of k nest_prctl_options in
      (k, denial)
  | RULE_SOCKET_UNIX =>
      let k := load k (arg 0) in
      let k := test k OP_EQ AF_UNIX_FAMILY JUMP_ALLOW JUMP_DENY in
      (k, denial)
  | RULE_SOCKET_INET | RULE_SOCKET_UNIX_INET =>
      let k := load k (arg 0) in
      let k := if decide (r = RULE_SOCKET_UNIX_INET)
               then test k OP_EQ AF_UNIX_FAMILY JUMP_ALLOW JUMP_NEXT else k in
      let k := test k OP_EQ AF_INET_FAMILY JUMP_ALLOW JUMP_NEXT in
      let k := test k OP_EQ AF_INET6_FAMILY JUMP_ALLOW JUMP_DENY in
      (k, denial)
  | RULE_OPEN | RULE_OPENAT =>
      let flags := if decide (r = RULE_OPEN) then 1 else 2 in
      let k := load k (arg flags) in
      let k := test k OP_ANY_SET (Z.lor O_CREAT_BIT O_TMPFILE_BIT) JUMP_NEXT JUMP_ALLOW in
      let k := load k (arg (flags + 1)) in
      let k := test k OP_ANY_SET SPECIAL_MODE_BITS JUMP_DENY JUMP_ALLOW in
      (k, denial)
  | RULE_MODE1 | RULE_MODE2 =>
      let k := load k (arg (if decide (r = RULE_MODE1) then 1 else 2)) in
      let k := test k OP_ANY_SET SPECIAL_MODE_BITS JUMP_DENY JUMP_ALLOW in
      (k, denial)
  | RULE_MKNOD1 | RULE_MKNOD2 =>
      let k := load k (arg (if decide (r = RULE_MKNOD1) then 1 else 2)) in
      let k := test k OP_ANY_SET SPECIAL_MODE_BITS JUMP_DENY JUMP_NEXT in
      let k := mask k FILE_TYPE_BITS in
      let k := test k OP_EQ 0 JUMP_ALLOW JUMP_NEXT in
      let k := test k OP_EQ TYPE_REGULAR JUMP_ALLOW JUMP_NEXT in
      let k := test k OP_EQ TYPE_FIFO JUMP_ALLOW JUMP_NEXT in
      let k := test k OP_EQ TYPE_SOCKET JUMP_ALLOW JUMP_DENY in
      (k, denial)
  | _ => (k, denial)
  end.

(** The block of [rule], entered with a call's arguments in the data. *)
Definition rule_block (b : builder) (r : rule) (pid : Z) (arch : cosmic_arch) : builder :=
  let '(k, denial) := rule_body (Block b []) r pid arch in finish k denial.

(** ** The decision tree *)

(** One call that is allowed, by its number, and how. *)
Record entry := Entry { e_number : Z; e_rule : rule }.

(** A call's jump to a rule's block, to be pointed at it later. *)
Record pending := Pending { pend_at : nat; pend_rule : rule }.

Definition LEAF_RUN : nat := 4.

(** The comparisons of a run of at most [LEAF_RUN] entries. *)
Fixpoint leaf (b : builder) (entries : list entry) (ps : list pending)
    : builder * list pending :=
  match entries with
  | [] => (b, ps)
  | e :: rest =>
      let '(b, _) := emit b OP_EQ 0 1 (e_number e) in
      match e_rule e with
      | RULE_ALLOW => leaf (emit b OP_RETURN 0 0 RETURN_ALLOW).1 rest ps
      | RULE_ENOSYS => leaf (emit b OP_RETURN 0 0 (RETURN_ERRNO LINUX_ENOSYS)).1 rest ps
      | r =>
          let '(b, at_) := emit b OP_JUMP 0 0 0 in
          leaf b rest (ps ++ [Pending at_ r])
      end
  end.

(** The decision tree over [entries], sorted by number.  [fuel] bounds the
    recursion: each half is shorter, so [S (length entries)] is enough. *)
Fixpoint tree (fuel : nat) (b : builder) (entries : list entry) (ps : list pending)
    : builder * list pending :=
  match fuel with
  | O => (b, ps)
  | S fuel =>
      if (length entries <=? LEAF_RUN)%nat then
        let '(b, ps) := leaf b entries ps in
        ((emit b OP_RETURN 0 0 (RETURN_ERRNO LINUX_EPERM)).1, ps)
      else
        let middle := (length entries / 2)%nat in
        let number := default 0 (e_number <$> entries !! middle) in
        let '(b, _) := emit b OP_AT_LEAST 0 1 number in
        let '(b, over) := emit b OP_JUMP 0 0 0 in
        let '(b, ps) := tree fuel b (take middle entries) ps in
        let b := patch_k b over (u32 (Z.of_nat (b_length b) - Z.of_nat over - 1)) in
        tree fuel b (drop middle entries) ps
  end.

(** ** The grants and the program *)

(** [rules[call]], whose entries start as [RULE_NONE]. *)
Definition rules_at (rules : gmap string rule) (call : string) : rule :=
  default RULE_NONE (rules !! call).

(** Adds each call of [table], the more allowing of two grants winning. *)
Definition add (rules : gmap string rule) (table : list grant) : gmap string rule :=
  foldl (λ rules g,
    if rank (rules_at rules (grant_call g)) <? rank (grant_rule g)
    then <[grant_call g := grant_rule g]> rules else rules) rules table.

Definition COSMIC_PROMISE_FORK : Z := 0x1.
Definition COSMIC_PROMISE_JIT : Z := 0x2.
Definition COSMIC_PROMISE_FATTR : Z := 0x4.
Definition COSMIC_PROMISE_NEST : Z := 0x8.
Definition COSMIC_SOCKETS_UNIX : Z := 0x1.
Definition COSMIC_SOCKETS_INET : Z := 0x2.
Definition COSMIC_HELD_SIGNALS : Z := 0x1.
Definition COSMIC_HELD_UNIX : Z := 0x2.
Definition COSMIC_HELD_LIMITS : Z := 0x4.
Definition COSMIC_HELD_PIDS : Z := 0x8.

(** [set & bit] as a condition. *)
Definition has (set bit : Z) : bool := negb (Z.land set bit =? 0).

(** The rule of each call: the first half of [program_for]. *)
Definition rules_for (promises sockets held : Z) : gmap string rule :=
  let rules := add ∅ basics in
  let sockets :=
    if has held COSMIC_HELD_UNIX then Z.lor sockets COSMIC_SOCKETS_UNIX else sockets in
  let rules :=
    if sockets =? COSMIC_SOCKETS_UNIX then <["socket" := RULE_SOCKET_UNIX]> rules
    else if sockets =? COSMIC_SOCKETS_INET then <["socket" := RULE_SOCKET_INET]> rules
    else if sockets =? Z.lor COSMIC_SOCKETS_UNIX COSMIC_SOCKETS_INET
    then <["socket" := RULE_SOCKET_UNIX_INET]> rules else rules in
  let rules := if has promises COSMIC_PROMISE_FORK then add rules fork_calls else rules in
  let rules := if has promises COSMIC_PROMISE_JIT then add rules jit_calls else rules in
  let rules := if has promises COSMIC_PROMISE_FATTR then add rules fattr_calls else rules in
  let rules :=
    if has promises COSMIC_PROMISE_NEST then
      let rules := add rules nest_calls in
      if has promises COSMIC_PROMISE_FORK then <["clone" := RULE_CLONE_NEST]> rules
      else rules
    else rules in
  let rules :=
    if has held COSMIC_HELD_SIGNALS then
      let rules :=
        foldl (λ rules c,
          if decide (rules_at rules c = RULE_SIGNAL) then <[c := RULE_ALLOW]> rules
          else rules) rules calls in
      <["pidfd_send_signal" := RULE_ALLOW]> rules
    else rules in
  let rules :=
    if has held COSMIC_HELD_LIMITS then
      let rules := <["setrlimit" := RULE_ALLOW]> rules in
      if rank (rules_at rules "prlimit64") <? rank RULE_PRLIMIT_NEST
      then <["prlimit64" := RULE_PRLIMIT_NEST]> rules else rules
    else rules in
  if has held COSMIC_HELD_PIDS then
    <["capget" := RULE_ALLOW]> (<["setpgid" := RULE_ALLOW]>
      (<["getsid" := RULE_ALLOW]> (<["getpgid" := RULE_ALLOW]> rules)))
  else rules.

(** The insertion of an entry before the trailing ones of a higher
    number, the array read from its end. *)
Fixpoint insert_rev (e : entry) (backwards : list entry) : list entry :=
  match backwards with
  | x :: rest => if e_number e <? e_number x then x :: insert_rev e rest else e :: x :: rest
  | [] => [e]
  end.
Definition insert_entry (e : entry) (entries : list entry) : list entry :=
  reverse (insert_rev e (reverse entries)).

Definition numbers_of (arch : cosmic_arch) : string → Z :=
  match arch with COSMIC_ARCH_X86_64 => x86_64_numbers | _ => aarch64_numbers end.
Definition audit_of (arch : cosmic_arch) : Z :=
  match arch with COSMIC_ARCH_X86_64 => AUDIT_X86_64 | _ => AUDIT_AARCH64 end.

(** One call of the loop that collects the entries. *)
Definition entries_step (arch : cosmic_arch) (rules : gmap string rule)
    (entries : list entry) (c : string) : list entry :=
  if decide (rules_at rules c = RULE_NONE) then entries
  else if numbers_of arch c =? 0 then entries
  else insert_entry (Entry (numbers_of arch c - 1) (rules_at rules c)) entries.

(** The calls the architecture has a number for, in number order. *)
Definition entries_for (arch : cosmic_arch) (rules : gmap string rule) : list entry :=
  foldl (entries_step arch rules) [] calls.

(** The block of one rule, where some pending jump needs it. *)
Definition emit_block (ps : list pending) (pid : Z) (arch : cosmic_arch)
    (st : builder * (rule → nat)) (r : rule) : builder * (rule → nat) :=
  let '(b, blocks) := st in
  if decide (r ∈ pend_rule <$> ps) then
    (rule_block b r pid arch, λ r', if decide (r' = r) then b_length b else blocks r')
  else (b, blocks).

(** The blocks of the rules some call needs, and where each starts. *)
Definition emit_blocks (b : builder) (ps : list pending) (pid : Z) (arch : cosmic_arch)
    : builder * (rule → nat) :=
  foldl (emit_block ps pid arch) (b, λ _, 0%nat) rules_in_order.

(** Points each pending jump at its rule's block. *)
Definition patch_pending (b : builder) (ps : list pending) (blocks : rule → nat) : builder :=
  foldl (λ b p,
    patch_k b (pend_at p)
      (u32 (Z.of_nat (blocks (pend_rule p)) - Z.of_nat (pend_at p) - 1))) b ps.

(** What a program begins with: a call of another architecture ends the
    process, and a number above the reviewed table is answered ENOSYS. *)
Definition prologue (arch : cosmic_arch) : builder :=
  let b := Builder [] false in
  let b := (emit b OP_LOAD 0 0 DATA_ARCH).1 in
  let b := (emit b OP_EQ 1 0 (audit_of arch)).1 in
  let b := (emit b OP_RETURN 0 0 RETURN_KILL_PROCESS).1 in
  let b := (emit b OP_LOAD 0 0 DATA_NUMBER).1 in
  let b := (emit b OP_GREATER 0 1 (PROMISE_CALLS_REVIEWED - 1)).1 in
  (emit b OP_RETURN 0 0 (RETURN_ERRNO LINUX_ENOSYS)).1.

(** The program that holds a process of [arch] and pid [pid] to
    [promises]; [None] is the C code's 0, a program that did not fit. *)
Definition program_for (arch : cosmic_arch) (promises sockets pid held : Z)
    : option (list cosmic_insn) :=
  let entries := entries_for arch (rules_for promises sockets held) in
  let '(b, ps) := tree (S (length entries)) (prologue arch) entries [] in
  let '(b, blocks) := emit_blocks b ps pid arch in
  let b := patch_pending b ps blocks in
  if b_full b then None else Some (b_code b).

(** ** Naming and applying promises *)

(** The promise [name] names, as one bit, or 0 for a name that is none. *)
Definition cosmic_promise_named (name : string) : Z :=
  if String.eqb name "fork" then COSMIC_PROMISE_FORK
  else if String.eqb name "jit" then COSMIC_PROMISE_JIT
  else if String.eqb name "fattr" then COSMIC_PROMISE_FATTR
  else if String.eqb name "nest" then COSMIC_PROMISE_NEST
  else 0.

(** The options table of [promise_filter]: a [pid] that is absent, no
    integer or an integer, and which flags are true. *)
Record filter_options := FilterOptions {
  o_pid : option (option Z);
  o_unix : bool; o_inet : bool;
  o_scoped : bool; o_unix_held : bool; o_limits_held : bool; o_pids_held : bool
}.

Definition INT32_MAX : Z := 2 ^ 31 - 1.

(** The bits of the promises a list names; [None] where an element is no
    string ([None]) or names no promise. *)
Fixpoint promises_listed (listed : list (option string)) (promises : Z) : option Z :=
  match listed with
  | [] => Some promises
  | element :: rest =>
      let bit := match element with Some name => cosmic_promise_named name | None => 0 end in
      if bit =? 0 then None else promises_listed rest (Z.lor promises bit)
  end.

Definition flag (b : bool) (bit set : Z) : Z := if b then Z.lor set bit else set.

(** [promise_filter(promises, arch, options)]: the program's instructions,
    or the argument the call raises about and why. *)
Definition promise_filter (listed : list (option string)) (name : string)
    (options : option filter_options) : string + list cosmic_insn :=
  match promises_listed listed 0 with
  | None => inl "a promise is 'fork', 'jit', 'fattr' or 'nest'"
  | Some promises =>
      let arch :=
        if String.eqb name "x86_64" then Some COSMIC_ARCH_X86_64
        else if String.eqb name "aarch64" then Some COSMIC_ARCH_AARCH64 else None in
      match arch with
      | None => inl "an architecture is 'x86_64' or 'aarch64'"
      | Some arch =>
          let '(pid, sockets, held) :=
            match options with
            | None => (1, 0, 0)
            | Some o =>
                (match o_pid o with None => 1 | Some p => default (-1) p end,
                 flag (o_inet o) COSMIC_SOCKETS_INET (flag (o_unix o) COSMIC_SOCKETS_UNIX 0),
                 flag (o_pids_held o) COSMIC_HELD_PIDS
                   (flag (o_limits_held o) COSMIC_HELD_LIMITS
                     (flag (o_unix_held o) COSMIC_HELD_UNIX
                       (flag (o_scoped o) COSMIC_HELD_SIGNALS 0))))
            end in
          if (pid <? 1) || (INT32_MAX <? pid) then inl "pid must be a positive integer"
          else
            match program_for arch promises sockets (u32 pid) held with
            | None => inl "the filter does not fit"
            | Some program => inr program
            end
      end
  end.

(** What the kernel answers the calls [cosmic_promises_apply] makes: an
    errno, 0 for success; the permitted capabilities hold CAP_SYS_RESOURCE
    or not. *)
Record kernel := Kernel {
  set_no_new_privs : Z;
  capget : Z + bool;
  getrlimit_ok : bool;
  setrlimit_ok : bool;
  set_seccomp : list cosmic_insn → Z
}.

Definition EPERM : Z := 1.
Definition ENOSPC : Z := 28.

(** Whether the process can never raise a hard limit. *)
Definition lacks_resource_capability (kern : kernel) : bool :=
  match capget kern with
  | inl errno =>
      if negb (errno =? EPERM) || negb (getrlimit_ok kern) then false
      else setrlimit_ok kern
  | inr permitted => negb permitted
  end.

(** [cosmic_promises_apply] on Linux: its errno, and the program it
    installed, if it did. *)
Definition cosmic_promises_apply (kern : kernel) (arch : cosmic_arch)
    (promises sockets held pid : Z) : Z * option (list cosmic_insn) :=
  if negb (set_no_new_privs kern =? 0) then (set_no_new_privs kern, None)
  else
    let held := if lacks_resource_capability kern then Z.lor held COSMIC_HELD_LIMITS else held in
    match program_for arch promises sockets (u32 pid) held with
    | None => (ENOSPC, None)
    | Some program =>
        if negb (set_seccomp kern program =? 0) then (set_seccomp kern program, None)
        else (0, Some program)
    end.
