(* ===== verification/PromisesRun.v ===== *)
(** * What the promises filter promises

    The interpreter a written program is run by, as [run] of
    [core/promises_test.tl] gives it (the classic BPF subset the filter is
    made of), and [policy], the decision a sandboxed process is held to,
    stated over calls and arguments with no program in it. *)

From S2P Require Import Prelude.
From S2P Require Import PromisesCalls.
From S2P Require Import Promises.

Local Open Scope string_scope.
Local Open Scope Z_scope.

(** ** seccomp's data and the interpreter *)

Record seccomp_data := Data { d_number : Z; d_arch : Z; d_args : list Z }.

(** The 32-bit word of the data at [offset]; [None] outside it. *)
Definition word (d : seccomp_data) (offset : Z) : option Z :=
  if offset =? 0 then Some (Z.land (d_number d) 0xffffffff)
  else if offset =? 4 then Some (d_arch d)
  else if (16 <=? offset) && (offset mod 4 =? 0) && (offset <? 64) then
    let value := default 0 (d_args d !! Z.to_nat ((offset - 16) / 8)) in
    if offset mod 8 =? 0 then Some (Z.land value 0xffffffff)
    else Some (Z.land (Z.shiftr value 32) 0xffffffff)
  else None.

Definition taken (b : bool) (i : cosmic_insn) : nat :=
  Z.to_nat (if b then insn_jt i else insn_jf i).

(** What the interpreter does with [insns] from [pc], the accumulator [a]:
    the program's return value, [None] where it runs off the program, loads
    outside the data or meets an instruction it does not have.  Every
    instruction steps or jumps forward, so [length insns] steps are enough. *)
Fixpoint run (fuel : nat) (insns : list cosmic_insn) (d : seccomp_data) (a : Z) (pc : nat)
    : option Z :=
  match fuel with
  | O => None
  | S fuel =>
      i ← insns !! pc;
      let op := insn_code i in
      let operand := insn_k i in
      if op =? 0x20 then a ← word d operand; run fuel insns d a (pc + 1)
      else if op =? 0x54 then run fuel insns d (Z.land a operand) (pc + 1)
      else if op =? 0x05 then run fuel insns d a (pc + 1 + Z.to_nat operand)
      else if op =? 0x15 then run fuel insns d a (pc + 1 + taken (a =? operand) i)
      else if op =? 0x25 then run fuel insns d a (pc + 1 + taken (operand <? a) i)
      else if op =? 0x35 then run fuel insns d a (pc + 1 + taken (operand <=? a) i)
      else if op =? 0x45 then
        run fuel insns d a (pc + 1 + taken (negb (Z.land a operand =? 0)) i)
      else if op =? 0x06 then Some operand
      else None
  end.

(** What a program returns for one call, from its first instruction. *)
Definition verdict (insns : list cosmic_insn) (d : seccomp_data) : option Z :=
  run (length insns) insns d 0 0.

(** ** The policy *)

(** The low and the high 32 bits of an argument. *)
Definition low (d : seccomp_data) (n : nat) : Z :=
  Z.land (default 0 (d_args d !! n)) 0xffffffff.
Definition high (d : seccomp_data) (n : nat) : Z :=
  Z.land (Z.shiftr (default 0 (d_args d !! n)) 32) 0xffffffff.

Definition one_of (v : Z) (values : list Z) : bool := existsb (Z.eqb v) values.

(** Whether a call under [r] is let through with these arguments. *)
Definition rule_allows (r : rule) (pid : Z) (arch : cosmic_arch) (d : seccomp_data) : bool :=
  match r with
  | RULE_NONE | RULE_ENOSYS => false
  | RULE_ALLOW => true
  | RULE_MMAP =>
      negb (has (low d 2) PROT_EXEC_BIT)
      || negb (has (low d 2) PROT_WRITE_BIT) && negb (has (low d 3) MAP_ANONYMOUS_BIT)
  | RULE_MPROTECT =>
      negb (has (low d 2) PROT_EXEC_BIT)
      || bool_decide (arch = COSMIC_ARCH_AARCH64)
         && negb (has (low d 2) PROT_WRITE_BIT) && has (low d 2) PROT_BTI_BIT
  | RULE_MEMFD => Z.land (low d 1) MFD_NOEXEC_SEAL_BIT =? MFD_NOEXEC_SEAL_BIT
  | RULE_CLONE_THREAD =>
      negb (has (low d 0) CLONE_FORBIDDEN)
      && (Z.land (low d 0) CLONE_THREAD_REQUIRED =? CLONE_THREAD_REQUIRED)
  | RULE_CLONE_FORK => negb (has (low d 0) CLONE_FORBIDDEN)
  | RULE_CLONE_NEST => negb (has (low d 0) CLONE_FORBIDDEN_NEST)
  | RULE_UNSHARE_NEST => negb (has (low d 0) (not32 NEST_NAMESPACES))
  | RULE_SIGNAL => low d 0 =? pid
  | RULE_PID_SELF_OR_ZERO | RULE_PRLIMIT_NEST => one_of (low d 0) [0; pid]
  | RULE_PRLIMIT => one_of (low d 0) [0; pid] && (low d 2 =? 0) && (high d 2 =? 0)
  | RULE_PRIORITY => (low d 0 =? 0) && (low d 1 =? 0)
  | RULE_SCHED_POLICY =>
      one_of (low d 0) [0; pid]
      && one_of (Z.land (low d 1) (not32 SCHED_RESET_ON_FORK_BIT)) sched_policies
  | RULE_MADVISE => one_of (low d 2) madvise_advice
  | RULE_FCNTL => one_of (low d 1) fcntl_commands
  | RULE_IOCTL => one_of (low d 1) ioctl_commands
  | RULE_IOCTL_NEST => one_of (low d 1) (ioctl_commands ++ nest_ioctl_commands)
  | RULE_PRCTL => one_of (low d 0) prctl_options
  | RULE_PRCTL_NEST => one_of (low d 0) (prctl_options ++ nest_prctl_options)
  | RULE_SOCKET_UNIX => low d 0 =? AF_UNIX_FAMILY
  | RULE_SOCKET_INET => one_of (low d 0) [AF_INET_FAMILY; AF_INET6_FAMILY]
  | RULE_SOCKET_UNIX_INET => one_of (low d 0) [AF_UNIX_FAMILY; AF_INET_FAMILY; AF_INET6_FAMILY]
  | RULE_OPEN =>
      negb (has (low d 1) (Z.lor O_CREAT_BIT O_TMPFILE_BIT))
      || negb (has (low d 2) SPECIAL_MODE_BITS)
  | RULE_OPENAT =>
      negb (has (low d 2) (Z.lor O_CREAT_BIT O_TMPFILE_BIT))
      || negb (has (low d 3) SPECIAL_MODE_BITS)
  | RULE_MODE1 => negb (has (low d 1) SPECIAL_MODE_BITS)
  | RULE_MODE2 => negb (has (low d 2) SPECIAL_MODE_BITS)
  | RULE_MKNOD1 =>
      negb (has (low d 1) SPECIAL_MODE_BITS)
      && one_of (Z.land (low d 1) FILE_TYPE_BITS) [0; TYPE_REGULAR; TYPE_FIFO; TYPE_SOCKET]
  | RULE_MKNOD2 =>
      negb (has (low d 2) SPECIAL_MODE_BITS)
      && one_of (Z.land (low d 2) FILE_TYPE_BITS) [0; TYPE_REGULAR; TYPE_FIFO; TYPE_SOCKET]
  end.

(** What a call refused under [r] is answered. *)
Definition rule_denial (r : rule) : Z :=
  match r with
  | RULE_ENOSYS => RETURN_ERRNO LINUX_ENOSYS
  | RULE_IOCTL | RULE_IOCTL_NEST => RETURN_ERRNO LINUX_ENOTTY
  | _ => RETURN_ERRNO LINUX_EPERM
  end.

Definition decision (r : rule) (pid : Z) (arch : cosmic_arch) (d : seccomp_data) : Z :=
  if rule_allows r pid arch d then RETURN_ALLOW else rule_denial r.

(** The call the architecture numbers [number], if it has one. *)
Definition call_numbered (arch : cosmic_arch) (number : Z) : option string :=
  List.find (λ c, numbers_of arch c =? number + 1) calls.

(** The decision of a process of [arch] and [pid] held to [promises]. *)
Definition policy (arch : cosmic_arch) (promises sockets pid held : Z) (d : seccomp_data) : Z :=
  if negb (d_arch d =? audit_of arch) then RETURN_KILL_PROCESS
  else if PROMISE_CALLS_REVIEWED <=? Z.land (d_number d) 0xffffffff then
    RETURN_ERRNO LINUX_ENOSYS
  else
    match call_numbered arch (Z.land (d_number d) 0xffffffff) with
    | Some c => decision (rules_at (rules_for promises sockets held) c) pid arch d
    | None => RETURN_ERRNO LINUX_EPERM
    end.

(** ** What the policy must keep *)

(** The calls a process never has, whatever it promised ([NEVER] of
    [core/promises_test.tl], less [pidfd_send_signal], which the signal
    scope allows). *)
Definition never : list string := [
  "ptrace"; "process_vm_readv"; "process_vm_writev"; "fsopen"; "fsmount"; "fsconfig";
  "fspick"; "bpf"; "perf_event_open"; "kexec_load"; "kexec_file_load"; "init_module";
  "finit_module"; "delete_module"; "add_key"; "request_key"; "keyctl"; "io_uring_setup";
  "io_uring_enter"; "io_uring_register"; "userfaultfd"; "setns"; "name_to_handle_at";
  "open_by_handle_at"; "pidfd_getfd"; "process_madvise"; "vmsplice"; "setuid"; "setgid";
  "setresuid"; "chroot"; "sethostname"; "reboot"; "sched_setattr" ].

(** The calls that reach namespaces and mounts, which only [nest] grants. *)
Definition nested : list string := [
  "mount"; "umount2"; "pivot_root"; "move_mount"; "open_tree"; "mount_setattr"; "unshare" ].

(** The calls that signal a process the first argument names. *)
Definition signal_calls : list string := [
  "kill"; "tgkill"; "tkill"; "rt_sigqueueinfo"; "rt_tgsigqueueinfo" ].

(** A call of [arch] by its name. *)
Definition call_data (arch : cosmic_arch) (c : string) (args : list Z) : seccomp_data :=
  Data (numbers_of arch c - 1) (audit_of arch) args.

(** What the program for these options answers a call of [arch]. *)
Definition answer (arch : cosmic_arch) (promises sockets pid held : Z) (c : string)
    (args : list Z) : option Z :=
  code ← program_for arch promises sockets pid held; verdict code (call_data arch c args).

(** * Running the filter: the interpreter and a rule's block

    Lemmas that step [run] of [PromisesRun.v] one instruction at a time,
    embed a piece of a program in a larger one and bound its steps, and the
    correctness of every rule's block as a program of its own. *)

(** ** The interpreter *)

Section Interpreter.
Context (d : seccomp_data).

Lemma run_mono n m c a pc r :
  (n ≤ m)%nat → run n c d a pc = Some r → run m c d a pc = Some r.
Proof.
  revert m a pc. induction n as [|n IH]; intros m a pc Hle Hrun; [done|].
  destruct m as [|m]; [lia|]. simpl in *.
  destruct (c !! pc) as [i|]; simpl in *; [|done].
  repeat case_match; try done; try (eapply IH; [lia|done]).
  destruct (word d _); simpl in *; [eapply IH; [lia|done] | done].
Qed.

(** Jumps go forward only, so the distance to the end bounds the steps. *)
Lemma run_bound n c a pc r :
  run n c d a pc = Some r → run (length c - pc) c d a pc = Some r.
Proof.
  revert a pc. induction n as [|n IH]; intros a pc Hrun; [done|]. simpl in Hrun.
  destruct (c !! pc) as [i|] eqn:Hpc; simpl in *; [|done].
  pose proof (lookup_lt_Some _ _ _ Hpc) as Hlt.
  destruct (length c - pc)%nat as [|m] eqn:Hm; [lia|]. simpl. rewrite Hpc. simpl.
  assert (∀ a pc', (pc + 1 ≤ pc')%nat → run n c d a pc' = Some r →
    run m c d a pc' = Some r) as Hnext.
  { intros a' pc' ? ?. eapply run_mono; [|by apply IH]. lia. }
  repeat case_match; try done; try (apply Hnext; [lia|done]).
  destruct (word d _); simpl in *; [apply Hnext; [lia|done] | done].
Qed.

(** A piece of a program runs as it does alone, wherever it stands. *)
Lemma run_embed n pre c post a pc r :
  run n c d a pc = Some r → run n (pre ++ c ++ post) d a (length pre + pc) = Some r.
Proof.
  revert a pc. induction n as [|n IH]; intros a pc Hrun; [done|]. simpl in *.
  destruct (c !! pc) as [i|] eqn:Hpc; simpl in *; [|done].
  rewrite lookup_app_r by lia.
  replace (length pre + pc - length pre)%nat with pc by lia.
  rewrite (lookup_app_l_Some _ _ _ _ Hpc). simpl.
  assert (∀ a j, run n c d a (pc + 1 + j) = Some r →
    run n (pre ++ c ++ post) d a (length pre + pc + 1 + j) = Some r) as Hnext.
  { intros a' j Hj. apply IH in Hj.
    by replace (length pre + pc + 1 + j)%nat with (length pre + (pc + 1 + j))%nat by lia. }
  repeat case_match; try done; try (by apply Hnext).
  - destruct (word d _); simpl in *; [|done].
    specialize (Hnext z 0%nat). rewrite !Nat.add_0_r in Hnext. by apply Hnext.
  - specialize (Hnext (Z.land a (insn_k i)) 0%nat). rewrite !Nat.add_0_r in Hnext.
    by apply Hnext.
Qed.

(** The instructions, one lemma each, for stepping through a program. *)
Lemma run_load n c a pc t f o v r :
  c !! pc = Some (Insn OP_LOAD t f o) → word d o = Some v →
  run n c d v (pc + 1) = r → run (S n) c d a pc = r.
Proof. intros Hpc Hw Hr. simpl. rewrite Hpc. simpl. by rewrite Hw. Qed.

Lemma run_and n c a pc t f o r :
  c !! pc = Some (Insn OP_AND t f o) →
  run n c d (Z.land a o) (pc + 1) = r → run (S n) c d a pc = r.
Proof. intros Hpc Hr. simpl. by rewrite Hpc. Qed.

Lemma run_jump n c a pc t f o r :
  c !! pc = Some (Insn OP_JUMP t f o) →
  run n c d a (pc + 1 + Z.to_nat o) = r → run (S n) c d a pc = r.
Proof. intros Hpc Hr. simpl. by rewrite Hpc. Qed.

Lemma run_eq n c a pc t f o r :
  c !! pc = Some (Insn OP_EQ t f o) →
  run n c d a (pc + 1 + Z.to_nat (if a =? o then t else f)) = r →
  run (S n) c d a pc = r.
Proof. intros Hpc Hr. simpl. by rewrite Hpc. Qed.

Lemma run_greater n c a pc t f o r :
  c !! pc = Some (Insn OP_GREATER t f o) →
  run n c d a (pc + 1 + Z.to_nat (if o <? a then t else f)) = r →
  run (S n) c d a pc = r.
Proof. intros Hpc Hr. simpl. by rewrite Hpc. Qed.

Lemma run_at_least n c a pc t f o r :
  c !! pc = Some (Insn OP_AT_LEAST t f o) →
  run n c d a (pc + 1 + Z.to_nat (if o <=? a then t else f)) = r →
  run (S n) c d a pc = r.
Proof. intros Hpc Hr. simpl. by rewrite Hpc. Qed.

Lemma run_any_set n c a pc t f o r :
  c !! pc = Some (Insn OP_ANY_SET t f o) →
  run n c d a (pc + 1 + Z.to_nat (if Z.land a o =? 0 then f else t)) = r →
  run (S n) c d a pc = r.
Proof.
  intros Hpc Hr. simpl. rewrite Hpc. simpl. unfold taken. simpl.
  by destruct (Z.land a o =? 0).
Qed.

Lemma run_return n c a pc t f o :
  c !! pc = Some (Insn OP_RETURN t f o) → run (S n) c d a pc = Some o.
Proof. intros Hpc. simpl. by rewrite Hpc. Qed.
End Interpreter.

(** ** A rule's block, alone *)

(** The block of a rule as a program of its own. *)
Definition block_code (r : rule) (pid : Z) (arch : cosmic_arch) : list cosmic_insn :=
  b_code (rule_block (Builder [] false) r pid arch).

(** One step of a concrete block, its comparison decided both ways. *)
Ltac block_test :=
  match goal with
  | |- run _ _ _ _ (_ + Z.to_nat (if ?x =? ?y then _ else _)) = _ =>
      destruct (x =? y) eqn:?
  end.
Ltac block_step :=
  first
    [ eapply run_load; [reflexivity | reflexivity |]
    | eapply run_and; [reflexivity |]
    | eapply run_eq; [reflexivity |]; block_test
    | eapply run_any_set; [reflexivity |]; block_test
    | erewrite run_return by reflexivity ].

(** The decision of a block, the comparisons on its path known. *)
Ltac block_decide :=
  unfold decision, rule_allows, rule_denial, one_of, has, DATA_ARGUMENT in *;
  cbn [existsb app ioctl_commands nest_ioctl_commands prctl_options nest_prctl_options
       sched_policies madvise_advice fcntl_commands];
  repeat match goal with
  | H : (?x =? ?y) = ?b |- context [?x' =? ?y'] =>
      change (x =? y) with (x' =? y') in H; rewrite H; clear H
  end;
  reflexivity.

(** The rules a call is granted under with no block of their own. *)
Definition plain (r : rule) : bool :=
  match r with RULE_NONE | RULE_ENOSYS | RULE_ALLOW => true | _ => false end.

Lemma block_runs r pid arch d a :
  plain r = false →
  run (length (block_code r pid arch)) (block_code r pid arch) d a 0
    = Some (decision r pid arch d).
Proof.
  intros Hr. destruct r; try discriminate Hr; clear Hr.
  2: destruct arch.
  all: match goal with |- context [block_code ?r ?p ?a] =>
      let x := eval vm_compute in (block_code r p a) in
      replace (block_code r p a) with x by (vm_compute; reflexivity) end.
  all: cbn [length].
  all: repeat block_step; block_decide.
Qed.
