(* ===== verification/PromisesCorrect.v ===== *)
(** * A rule's block, wherever it is written

    The builder's operations commute with what was written before them, so
    a rule's block is the same instructions at any place of a program
    ([rule_block_reloc]): its jumps are relative and patched within it. So the
    whole program decides its policy. *)

From S2P Require Import Prelude.
From S2P Require Import PromisesCalls.
From S2P Require Import Promises.
From S2P Require Import PromisesRun.

Local Open Scope Z_scope.

(** ** A rule's block, appended *)

Lemma emit_room b op t f o :
  b_full b = false → (b_length b < 4096)%nat →
  emit b op t f o = (Builder (b_code b ++ [Insn op t f o]) false, b_length b).
Proof.
  intros Hf Hr. unfold emit, COSMIC_PROMISE_INSNS.
  destruct (Z.leb_spec 4096 (Z.of_nat (b_length b))); [lia|]. by rewrite Hf.
Qed.

(** [k] is the block [k0] begun on an empty builder, after [pre]. *)
Definition shift (n : nat) (p : patch) : patch :=
  Patch (n + p_at p) (p_when_false p) (p_target p).
Record reloc (pre : list cosmic_insn) (k k0 : block) : Prop := Reloc {
  reloc_code : k_b k = Builder (pre ++ b_code (k_b k0)) false;
  reloc_full : b_full (k_b k0) = false;
  reloc_patches : k_patches k = shift (length pre) <$> k_patches k0
}.

(** The room [k0] still has after [pre], for [n] more instructions. *)
Definition room (pre : list cosmic_insn) (k0 : block) : Prop :=
  (length pre + length (b_code (k_b k0)) < 4096)%nat ∧ (length (k_patches k0) < 31)%nat.

Lemma emit_reloc pre b0 op t f o :
  b_full b0 = false → (length pre + length (b_code b0) < 4096)%nat →
  emit (Builder (pre ++ b_code b0) false) op t f o
    = (Builder (pre ++ b_code (emit b0 op t f o).1) false, (length pre + b_length b0)%nat)
  ∧ b_full (emit b0 op t f o).1 = false.
Proof.
  intros Hf Hr. rewrite (emit_room b0) by (done || unfold b_length; lia).
  rewrite emit_room by (done || unfold b_length; simpl; rewrite ?length_app; lia).
  unfold b_length; simpl. by rewrite length_app, <- app_assoc.
Qed.

Lemma jump_to_reloc pre k k0 at_ w t :
  reloc pre k k0 → (length (k_patches k0) < 32)%nat →
  reloc pre (jump_to k (length pre + at_) w t).1 (jump_to k0 at_ w t).1
  ∧ (jump_to k (length pre + at_) w t).2 = (jump_to k0 at_ w t).2
  ∧ b_code (k_b (jump_to k0 at_ w t).1) = b_code (k_b k0)
  ∧ (length (k_patches (jump_to k0 at_ w t).1) ≤ S (length (k_patches k0)))%nat.
Proof.
  intros [Hc Hf Hp] Hr. unfold jump_to, MAX_PATCHES. rewrite Hp, length_fmap.
  destruct (Nat.ltb_spec (length (k_patches k0)) 32); [|lia].
  destruct t; simpl; (split; [split; simpl; try done|]); simpl; try (split_and!; done || lia).
  1,3: by rewrite fmap_app.
  all: split_and!; rewrite ?length_app; simpl; done || lia.
Qed.

Lemma load_reloc pre k k0 o :
  reloc pre k k0 → room pre k0 → reloc pre (load k o) (load k0 o).
Proof.
  intros [Hc Hf Hp] [Hr _]. unfold load. rewrite Hc.
  destruct (emit_reloc pre (k_b k0) OP_LOAD 0 0 o) as [-> ?]; [done..|]. by split.
Qed.

Lemma mask_reloc pre k k0 o :
  reloc pre k k0 → room pre k0 → reloc pre (mask k o) (mask k0 o).
Proof.
  intros [Hc Hf Hp] [Hr _]. unfold mask. rewrite Hc.
  destruct (emit_reloc pre (k_b k0) OP_AND 0 0 o) as [-> ?]; [done..|]. by split.
Qed.

Lemma test_reloc pre k k0 op v yes no :
  reloc pre k k0 → room pre k0 → reloc pre (test k op v yes no) (test k0 op v yes no).
Proof.
  intros Hk [Hr Hn]. unfold test.
  assert (b_length (k_b k) = length pre + b_length (k_b k0))%nat as ->.
  { rewrite (reloc_code _ _ _ Hk). unfold b_length. simpl. by rewrite length_app. }
  set (a := b_length (k_b k0)).
  destruct (jump_to_reloc pre k k0 a false yes Hk) as (H1 & E1 & C1 & L1); [lia|].
  destruct (jump_to k _ false yes) as [k1 t1], (jump_to k0 a false yes) as [k01 t01].
  simpl in *. subst t1.
  destruct (jump_to_reloc pre k1 k01 a true no H1) as (H2 & E2 & C2 & L2); [lia|].
  destruct (jump_to k1 _ true no) as [k2 t2], (jump_to k01 a true no) as [k02 t02].
  simpl in *. subst t2. destruct H2 as [Hc Hf Hp]. rewrite Hc.
  destruct (emit_reloc pre (k_b k02) op t01 t02 v) as [-> ?]; [done|congruence|]. by split.
Qed.

Lemma apply_patch_reloc pre deny allow c p :
  b_full (apply_patch deny allow (Builder c false) p) = false →
  apply_patch (length pre + deny) (length pre + allow) (Builder (pre ++ c) false)
    (shift (length pre) p)
  = Builder (pre ++ b_code (apply_patch deny allow (Builder c false) p)) false.
Proof.
  unfold apply_patch. destruct p as [at_ w t]. simpl.
  set (to := match t with JUMP_ALLOW => allow | _ => deny end).
  replace (match t with JUMP_ALLOW => (length pre + allow)%nat
           | _ => (length pre + deny)%nat end) with (length pre + to)%nat by (by destruct t).
  replace (Z.of_nat (length pre + to) - (Z.of_nat (length pre + at_) + 1))
    with (Z.of_nat to - (Z.of_nat at_ + 1)) by lia.
  destruct (255 <? _); [done|]. simpl. intros _. f_equal.
  by rewrite alter_app_r.
Qed.

Lemma apply_patch_full deny allow c p :
  b_full (apply_patch deny allow (Builder c true) p) = true.
Proof. unfold apply_patch. by destruct (255 <? _). Qed.

Lemma apply_patches_full deny allow c ps :
  b_full (foldl (apply_patch deny allow) (Builder c true) ps) = true.
Proof.
  revert c. induction ps as [|p ps IH]; intros c; [done|]. simpl.
  pose proof (apply_patch_full deny allow c p) as Hf.
  destruct (apply_patch _ _ _ p) as [c' f]. simpl in Hf. subst f. apply IH.
Qed.

Lemma apply_patches_reloc pre deny allow c ps :
  b_full (foldl (apply_patch deny allow) (Builder c false) ps) = false →
  foldl (apply_patch (length pre + deny) (length pre + allow)) (Builder (pre ++ c) false)
    (shift (length pre) <$> ps)
  = Builder (pre ++ b_code (foldl (apply_patch deny allow) (Builder c false) ps)) false.
Proof.
  revert c. induction ps as [|p ps IH]; intros c Hf; simpl in *; [done|].
  destruct (apply_patch deny allow (Builder c false) p) as [c' f] eqn:E.
  destruct f; [by rewrite apply_patches_full in Hf|].
  rewrite apply_patch_reloc by (by rewrite E). rewrite E. by apply IH.
Qed.

Lemma finish_reloc pre k k0 denial :
  reloc pre k k0 → (length pre + length (b_code (k_b k0)) < 4094)%nat →
  b_full (finish k0 denial) = false →
  finish k denial = Builder (pre ++ b_code (finish k0 denial)) false.
Proof.
  intros [Hc Hf Hp] Hr Hfull. unfold finish in *. rewrite Hc, Hp.
  destruct (k_b k0) as [c0 f0]. simpl in *. subst f0.
  rewrite (emit_room (Builder c0 false)) in * by (done || unfold b_length; simpl; lia).
  rewrite (emit_room (Builder (pre ++ c0) false))
    by (done || unfold b_length; simpl; rewrite ?length_app; lia).
  unfold b_length in *. simpl in *.
  rewrite (emit_room (Builder (c0 ++ _) false)) in *
    by (done || unfold b_length; simpl; rewrite ?length_app; simpl; lia).
  rewrite emit_room by (done || unfold b_length; simpl; rewrite ?length_app; simpl; lia).
  unfold b_length in *. simpl in *. rewrite <- !app_assoc in *. simpl in *.
  rewrite !(length_app pre). by apply apply_patches_reloc.
Qed.

(** The room of a concrete block, counted. *)
Ltac count_block :=
  repeat match goal with
  | |- context [length (?f ?x)] =>
      let n := eval vm_compute in (length (f x)) in
      replace (length (f x)) with n by (vm_compute; reflexivity)
  end; lia.

Lemma rule_body_reloc pre r pid arch :
  (length pre ≤ 4000)%nat →
  reloc pre (rule_body (Block (Builder pre false) []) r pid arch).1
            (rule_body (Block (Builder [] false) []) r pid arch).1
  ∧ (rule_body (Block (Builder pre false) []) r pid arch).2
    = (rule_body (Block (Builder [] false) []) r pid arch).2.
Proof.
  intros Hpre.
  assert (reloc pre (Block (Builder pre false) []) (Block (Builder [] false) [])) as H0.
  { split; simpl; [by rewrite app_nil_r|done|done]. }
  destruct r; unfold rule_body, allow_one_of;
    cbn [foldl app ioctl_commands nest_ioctl_commands prctl_options nest_prctl_options
         sched_policies madvise_advice fcntl_commands];
    repeat case_decide; try done; split; try reflexivity; cbn [fst];
    repeat first
      [ apply H0 | apply test_reloc | apply load_reloc | apply mask_reloc
      | unfold room; split; count_block ].
Qed.

(** A rule's block is the same instructions wherever it is written. *)
Lemma rule_block_reloc c r pid arch :
  (length c ≤ 4000)%nat →
  rule_block (Builder c false) r pid arch = Builder (c ++ block_code r pid arch) false.
Proof.
  intros Hc. unfold block_code, rule_block.
  destruct (rule_body_reloc c r pid arch Hc) as [Hk Hd].
  destruct (rule_body (Block (Builder c false) []) r pid arch) as [k denial].
  destruct (rule_body (Block (Builder [] false) []) r pid arch) as [k0 denial0] eqn:E.
  simpl in *. subst denial0.
  assert (∃ n, n = length (b_code (k_b k0)) ∧ n < 32 ∧ b_full (finish k0 denial) = false)%nat
    as (n & Hn & Hlt & Hfull).
  { replace k0 with (rule_body (Block (Builder [] false) []) r pid arch).1 by (by rewrite E).
    replace denial with (rule_body (Block (Builder [] false) []) r pid arch).2
      by (by rewrite E).
    clear. eexists; split; [reflexivity|].
    destruct r, arch; vm_compute; split; (reflexivity || lia). }
  apply finish_reloc; [done|lia|done].
Qed.

Lemma block_code_length r pid arch : (length (block_code r pid arch) ≤ 32)%nat.
Proof. destruct r, arch; vm_compute; lia. Qed.

(** * The promises filter decides its policy

    [program_for] always fits, and the program it writes, run by the
    interpreter, answers [policy] for every call, argument, architecture
    and option.  The proof follows the code: the decision tree and its
    patches, the rules' blocks after it, the grants, then the whole
    program. *)

(** ** The decision tree, unpatched and patched *)

(** The tree's instructions, a jump to a rule's block still by its rule. *)
Abbreviation symbolic := (list (cosmic_insn + rule)).

Fixpoint sym_leaf (entries : list entry) : symbolic :=
  match entries with
  | [] => [inl (Insn OP_RETURN 0 0 (RETURN_ERRNO LINUX_EPERM))]
  | e :: rest =>
      inl (Insn OP_EQ 0 1 (e_number e)) ::
      match e_rule e with
      | RULE_ALLOW => inl (Insn OP_RETURN 0 0 RETURN_ALLOW)
      | RULE_ENOSYS => inl (Insn OP_RETURN 0 0 (RETURN_ERRNO LINUX_ENOSYS))
      | r => inr r
      end :: sym_leaf rest
  end.

Fixpoint sym_tree (fuel : nat) (entries : list entry) : symbolic :=
  match fuel with
  | O => []
  | S fuel =>
      if (length entries <=? LEAF_RUN)%nat then sym_leaf entries
      else
        let middle := (length entries / 2)%nat in
        let lower := sym_tree fuel (take middle entries) in
        inl (Insn OP_AT_LEAST 0 1 (default 0 (e_number <$> entries !! middle))) ::
        inl (Insn OP_JUMP 0 0 (Z.of_nat (length lower))) ::
        lower ++ sym_tree fuel (drop middle entries)
  end.

Definition strip (s : cosmic_insn + rule) : cosmic_insn :=
  match s with inl i => i | inr _ => Insn OP_JUMP 0 0 0 end.

(** The pending jumps of a tree that starts at [o]. *)
Fixpoint pends (o : nat) (s : symbolic) : list pending :=
  match s with
  | [] => []
  | inl _ :: s => pends (S o) s
  | inr r :: s => Pending o r :: pends (S o) s
  end.

(** The tree with its jumps pointed at the blocks. *)
Fixpoint resolve (blocks : rule → nat) (o : nat) (s : symbolic) : list cosmic_insn :=
  match s with
  | [] => []
  | inl i :: s => i :: resolve blocks (S o) s
  | inr r :: s =>
      Insn OP_JUMP 0 0 (u32 (Z.of_nat (blocks r) - Z.of_nat o - 1))
        :: resolve blocks (S o) s
  end.

Lemma pends_app o s s' : pends o (s ++ s') = pends o s ++ pends (o + length s) s'.
Proof.
  revert o. induction s as [|[i|r] s IH]; intros o; simpl; [by rewrite Nat.add_0_r| |];
    rewrite IH; by rewrite Nat.add_succ_r.
Qed.

Lemma resolve_app blocks o s s' :
  resolve blocks o (s ++ s') = resolve blocks o s ++ resolve blocks (o + length s) s'.
Proof.
  revert o. induction s as [|[i|r] s IH]; intros o; simpl; [by rewrite Nat.add_0_r| |];
    rewrite IH; by rewrite Nat.add_succ_r.
Qed.

Lemma length_resolve blocks o s : length (resolve blocks o s) = length s.
Proof. revert o. induction s as [|[i|r] s IH]; intros o; simpl; auto. Qed.

Lemma length_sym_leaf entries : length (sym_leaf entries) = (2 * length entries + 1)%nat.
Proof. induction entries as [|e rest IH]; simpl; [done|]. rewrite IH. lia. Qed.

Lemma halves {X} (l : list X) :
  (4 < length l)%nat →
  (2 ≤ length (take (length l / 2) l) < length l)%nat ∧
  (2 ≤ length (drop (length l / 2) l) < length l)%nat ∧
  (length (take (length l / 2) l) + length (drop (length l / 2) l) = length l)%nat.
Proof.
  intros Hl. rewrite length_take, length_drop.
  pose proof (Nat.div_mod_eq (length l) 2). pose proof (Nat.mod_upper_bound (length l) 2). lia.
Qed.

Lemma length_sym_tree fuel entries :
  (length (sym_tree fuel entries) ≤ 4 * length entries + 1)%nat ∧
  (2 ≤ length entries → length (sym_tree fuel entries) ≤ 4 * length entries - 2)%nat.
Proof.
  revert entries. induction fuel as [|fuel IH]; intros entries; simpl; [lia|].
  unfold LEAF_RUN. destruct (Nat.leb_spec (length entries) 4).
  - rewrite length_sym_leaf. lia.
  - destruct (halves entries) as (? & ? & ?); [lia|]. simpl. rewrite length_app.
    destruct (IH (take (length entries / 2) entries)) as [_ Hlow].
    destruct (IH (drop (length entries / 2) entries)) as [_ Hup].
    specialize (Hlow ltac:(lia)). specialize (Hup ltac:(lia)). lia.
Qed.

Lemma leaf_sym b entries ps :
  b_full b = false → (b_length b + length (sym_leaf entries) ≤ 4096)%nat →
  let '(b', ps') := leaf b entries ps in
  (emit b' OP_RETURN 0 0 (RETURN_ERRNO LINUX_EPERM)).1
    = Builder (b_code b ++ (strip <$> sym_leaf entries)) false ∧
  ps' = ps ++ pends (b_length b) (sym_leaf entries).
Proof.
  revert b ps. induction entries as [|e rest IH]; intros b ps Hf Hr; simpl in *.
  { rewrite emit_room by (done || lia). by rewrite app_nil_r. }
  rewrite emit_room by (done || lia). set (b1 := Builder _ false).
  assert (b_length b1 = S (b_length b)) as Hl1.
  { unfold b1, b_length. simpl. rewrite length_app. simpl. lia. }
  assert (∀ op t f o ps1, let i := Insn op t f o in
    let '(b', ps') := leaf (emit b1 op t f o).1 rest ps1 in
    (emit b' OP_RETURN 0 0 (RETURN_ERRNO LINUX_EPERM)).1
      = Builder (b_code b ++ Insn OP_EQ 0 1 (e_number e) :: i :: (strip <$> sym_leaf rest)) false
    ∧ ps' = ps1 ++ pends (S (S (b_length b))) (sym_leaf rest)) as Hnext.
  { intros op t f o ps1 i. rewrite emit_room by (done || lia). simpl.
    specialize (IH (Builder (b_code b1 ++ [Insn op t f o]) false) ps1 eq_refl).
    assert (b_length (Builder (b_code b1 ++ [Insn op t f o]) false) = S (S (b_length b)))
      as Hl2 by (unfold b_length in *; simpl in *; rewrite !length_app in *; simpl; lia).
    rewrite Hl2 in IH. specialize (IH ltac:(lia)).
    destruct (leaf _ rest ps1) as [b' ps']. destruct IH as [-> ->]. split; [|done].
    simpl. by rewrite <- !app_assoc. }
  assert (∀ r, let '(b', ps') :=
      (let '(b2, at_) := emit b1 OP_JUMP 0 0 0 in leaf b2 rest (ps ++ [Pending at_ r])) in
    (emit b' OP_RETURN 0 0 (RETURN_ERRNO LINUX_EPERM)).1
      = Builder (b_code b ++ Insn OP_EQ 0 1 (e_number e) :: Insn OP_JUMP 0 0 0
                   :: (strip <$> sym_leaf rest)) false
    ∧ ps' = ps ++ Pending (S (b_length b)) r :: pends (S (S (b_length b))) (sym_leaf rest))
    as Hjump.
  { intros r. specialize (Hnext OP_JUMP 0 0 0 (ps ++ [Pending (b_length b1) r])).
    rewrite emit_room in Hnext |- * by (done || lia). simpl in *. rewrite Hl1 in *.
    destruct (leaf _ rest _) as [b' ps']. destruct Hnext as [-> ->].
    by rewrite <- app_assoc. }
  destruct (e_rule e); first
    [ exact (Hjump _) | exact (Hnext _ _ _ _ ps) ].
Qed.

Lemma tree_sym fuel b entries ps :
  (length entries ≤ fuel)%nat → (0 < fuel)%nat →
  b_full b = false → (b_length b + length (sym_tree fuel entries) ≤ 4096)%nat →
  tree fuel b entries ps
    = (Builder (b_code b ++ (strip <$> sym_tree fuel entries)) false,
       ps ++ pends (b_length b) (sym_tree fuel entries)).
Proof.
  revert b entries ps. induction fuel as [|fuel IH]; intros b entries ps Hle H0 Hf Hr; [lia|].
  simpl in *. unfold LEAF_RUN in *. destruct (Nat.leb_spec (length entries) 4).
  { pose proof (leaf_sym b entries ps Hf Hr) as Hl. destruct (leaf b entries ps) as [b' ps'].
    by destruct Hl as [-> ->]. }
  destruct (halves entries) as (Hlo & Hup & _); [lia|].
  set (m := (length entries / 2)%nat) in *.
  set (lower := sym_tree fuel (take m entries)) in *.
  set (upper := sym_tree fuel (drop m entries)) in *.
  set (least := Insn OP_AT_LEAST 0 1 _) in *.
  simpl in Hr. rewrite length_app in Hr.
  rewrite emit_room by (done || lia). fold least.
  assert (b_length (Builder (b_code b ++ [least]) false) = S (b_length b)) as Hl1
    by (unfold b_length; simpl; rewrite length_app; simpl; lia).
  rewrite emit_room, Hl1 by (done || lia).
  assert (∀ o, b_length (Builder (b_code (Builder (b_code b ++ [least]) false)
      ++ [Insn OP_JUMP 0 0 o]) false) = S (S (b_length b))) as Hl2
    by (intros o; unfold b_length; simpl; rewrite !length_app; simpl; lia).
  rewrite IH; [|lia|lia|done|rewrite Hl2; fold lower; lia].
  rewrite Hl2. fold lower. simpl.
  set (b2 := patch_k _ _ _).
  assert (b2 = Builder (b_code b ++ least :: Insn OP_JUMP 0 0 (Z.of_nat (length lower))
      :: (strip <$> lower)) false) as ->.
  { unfold b2, patch_k, b_length. simpl. f_equal. rewrite <- !app_assoc. simpl.
    rewrite length_app. simpl. rewrite length_fmap.
    replace (S (length (b_code b))) with (length (b_code b) + 1)%nat by lia.
    rewrite alter_app_r. simpl. do 4 f_equal. unfold with_k. simpl. f_equal.
    unfold u32. rewrite Z.mod_small; unfold b_length in *; lia. }
  rewrite IH; [|lia|lia|done|].
  - fold upper. unfold b_length. simpl. rewrite <- app_assoc. simpl. f_equal.
    + by rewrite fmap_app.
    + rewrite <- app_assoc, pends_app. do 2 f_equal. rewrite length_app. simpl.
      rewrite length_fmap. f_equal. unfold b_length. lia.
  - fold upper. unfold b_length in *. simpl. rewrite length_app. simpl. rewrite length_fmap. lia.
Qed.

Lemma patch_pending_sym pre s post blocks :
  patch_pending (Builder (pre ++ (strip <$> s) ++ post) false) (pends (length pre) s) blocks
  = Builder (pre ++ resolve blocks (length pre) s ++ post) false.
Proof.
  revert pre. induction s as [|[i|r] s IH]; intros pre; simpl; [done| |].
  - specialize (IH (pre ++ [i])). rewrite length_app, Nat.add_1_r in IH. simpl in IH.
    by rewrite <- !app_assoc in IH.
  - unfold patch_pending. simpl. set (o := u32 _).
    specialize (IH (pre ++ [Insn OP_JUMP 0 0 o])).
    rewrite length_app, Nat.add_1_r in IH. simpl in IH. rewrite <- !app_assoc in IH.
    simpl in IH. rewrite <- IH. unfold patch_pending, patch_k at 2. f_equal. simpl. f_equal.
    rewrite <- (Nat.add_0_r (length pre)) at 1. by rewrite alter_app_r.
Qed.

(** ** The tree decides *)

(** What the tree decides of a number, by the entry it finds. *)
Definition tree_decision (entries : list entry) (pid : Z) (arch : cosmic_arch)
    (d : seccomp_data) (n : Z) : Z :=
  match List.find (λ e, e_number e =? n) entries with
  | Some e => decision (e_rule e) pid arch d
  | None => RETURN_ERRNO LINUX_EPERM
  end.

(** Strictly ordered by number. *)
Abbreviation ordered := (StronglySorted (λ e e' : entry, e_number e < e_number e')).

(** The half that cannot hold a number has no say in it. *)
Lemma tree_decision_upper lo up pid arch d n :
  (∀ e, e ∈ lo → e_number e < n) →
  tree_decision (lo ++ up) pid arch d n = tree_decision up pid arch d n.
Proof.
  intros Hlo. unfold tree_decision. rewrite find_app, (find_none _ lo); [done|].
  intros e He. apply Z.eqb_neq. specialize (Hlo e He). lia.
Qed.

Lemma tree_decision_lower lo up pid arch d n :
  (∀ e, e ∈ up → n < e_number e) →
  tree_decision (lo ++ up) pid arch d n = tree_decision lo pid arch d n.
Proof.
  intros Hup. unfold tree_decision. rewrite find_app, (find_none _ up).
  - by destruct (List.find _ lo).
  - intros e He. apply Z.eqb_neq. specialize (Hup e He). lia.
Qed.

Section TreeRuns.
Context (pid : Z) (arch : cosmic_arch) (d : seccomp_data).
Context (c : list cosmic_insn) (blocks : rule → nat).

(** Every rule with a block has it in [c] where [blocks] says. *)
Definition placed (r : rule) : Prop :=
  ∃ pre post, c = pre ++ block_code r pid arch ++ post ∧ length pre = blocks r.

(** [c] returns [v] from [pc] with [a] in the accumulator. *)
Definition returns (a : Z) (pc : nat) (v : Z) : Prop := ∃ n, run n c d a pc = Some v.

Lemma placed_returns r a :
  plain r = false → placed r → returns a (blocks r) (decision r pid arch d).
Proof.
  intros Hp (pre & post & Hc & Hl). eexists.
  rewrite <- (Nat.add_0_r (blocks r)), <- Hl. subst c. by apply run_embed, block_runs.
Qed.

Lemma returns_return a pc t f o : c !! pc = Some (Insn OP_RETURN t f o) → returns a pc o.
Proof. intros H. exists 1%nat. by eapply run_return. Qed.

Lemma returns_load a pc t f o v r :
  c !! pc = Some (Insn OP_LOAD t f o) → word d o = Some v →
  returns v (pc + 1) r → returns a pc r.
Proof. intros H Hw [n Hn]. exists (S n). by eapply run_load. Qed.

Lemma returns_jump a pc t f o r :
  c !! pc = Some (Insn OP_JUMP t f o) → returns a (pc + 1 + Z.to_nat o) r → returns a pc r.
Proof. intros H [n Hn]. exists (S n). by eapply run_jump. Qed.

Lemma returns_eq a pc t f o r :
  c !! pc = Some (Insn OP_EQ t f o) →
  returns a (pc + 1 + Z.to_nat (if a =? o then t else f)) r → returns a pc r.
Proof. intros H [n Hn]. exists (S n). by eapply run_eq. Qed.

Lemma returns_greater a pc t f o r :
  c !! pc = Some (Insn OP_GREATER t f o) →
  returns a (pc + 1 + Z.to_nat (if o <? a then t else f)) r → returns a pc r.
Proof. intros H [n Hn]. exists (S n). by eapply run_greater. Qed.

Lemma returns_at_least a pc t f o r :
  c !! pc = Some (Insn OP_AT_LEAST t f o) →
  returns a (pc + 1 + Z.to_nat (if o <=? a then t else f)) r → returns a pc r.
Proof. intros H [n Hn]. exists (S n). by eapply run_at_least. Qed.

(** The rules of [entries] are granted, and their blocks stand past
    [least]. *)
Definition ready (least : nat) (entries : list entry) : Prop :=
  Forall (λ e, e_rule e ≠ RULE_NONE ∧
    (plain (e_rule e) = false →
     placed (e_rule e) ∧ (least ≤ blocks (e_rule e) ≤ 4096)%nat)) entries.

(** A leaf's jump to a block, or its return. *)
Lemma answer_returns e a pc least pre post :
  c = pre ++ resolve blocks (length pre) [match e_rule e with
    | RULE_ALLOW => inl (Insn OP_RETURN 0 0 RETURN_ALLOW)
    | RULE_ENOSYS => inl (Insn OP_RETURN 0 0 (RETURN_ERRNO LINUX_ENOSYS))
    | r => inr r end] ++ post →
  length pre = pc → (pc < least)%nat → ready least [e] →
  returns a pc (decision (e_rule e) pid arch d).
Proof.
  intros Hc Hpc Hlt Hr. apply Forall_singleton in Hr as [Hnone Hplaced].
  destruct (plain (e_rule e)) eqn:Hp.
  - destruct (e_rule e); try discriminate Hp; try done; eapply returns_return;
      rewrite Hc, lookup_app_r, Hpc, Nat.sub_diag by lia; reflexivity.
  - destruct (Hplaced eq_refl) as [Hpl Hb].
    pose proof (placed_returns _ a Hp Hpl) as Hret.
    replace (blocks (e_rule e)) with (pc + 1 + Z.to_nat
      (u32 (Z.of_nat (blocks (e_rule e)) - Z.of_nat pc - 1)))%nat in Hret
      by (unfold u32; rewrite Z.mod_small; lia).
    eapply returns_jump; [|exact Hret].
    rewrite Hc, lookup_app_r, Hpc, Nat.sub_diag by lia.
    by destruct (e_rule e); try discriminate Hp.
Qed.

Lemma leaf_returns least entries a pre post :
  c = pre ++ resolve blocks (length pre) (sym_leaf entries) ++ post →
  (length pre + length (sym_leaf entries) ≤ least)%nat → ready least entries →
  returns a (length pre) (tree_decision entries pid arch d a).
Proof.
  revert pre. induction entries as [|e rest IH]; intros pre Hc Hle Hr; simpl in *.
  { eapply returns_return. rewrite Hc, lookup_app_r, Nat.sub_diag by lia. reflexivity. }
  inversion Hr as [|? ? He Hrest]; subst.
  eapply returns_eq.
  { rewrite Hc at 1. rewrite lookup_app_r, Nat.sub_diag by lia. reflexivity. }
  unfold tree_decision. simpl. rewrite (Z.eqb_sym (e_number e)).
  set (i := Insn OP_EQ 0 1 _) in *.
  set (s := match e_rule e with RULE_ALLOW => _ | RULE_ENOSYS => _ | _ => _ end) in *.
  assert (c = (pre ++ [i]) ++ resolve blocks (length (pre ++ [i])) [s]
    ++ resolve blocks (S (S (length pre))) (sym_leaf rest) ++ post) as Hc1.
  { rewrite Hc at 1. rewrite <- app_assoc, length_app, Nat.add_1_r.
    by destruct s; simpl. }
  destruct (a =? e_number e) eqn:E.
  - eapply (answer_returns e _ _ least (pre ++ [i])); [exact Hc1| | |by apply Forall_singleton].
    + rewrite length_app. simpl. lia.
    + lia.
  - replace (length pre + 1 + Z.to_nat 1)%nat
      with (length ((pre ++ [i]) ++ resolve blocks (length (pre ++ [i])) [s]))
      by (rewrite !length_app, length_resolve; simpl; lia).
    assert (length ((pre ++ [i]) ++ resolve blocks (length (pre ++ [i])) [s])
      = S (S (length pre))) as Hl
      by (rewrite !length_app, length_resolve; simpl; lia).
    apply IH; rewrite ?Hl; [|lia|done]. rewrite Hc1 at 1. apply app_assoc.
Qed.
Lemma ready_mono least least' entries entries' :
  ready least entries → (least' ≤ least)%nat → entries' ⊆ entries → ready least' entries'.
Proof.
  unfold ready. rewrite !Forall_forall. intros Hr Hle Hsub e He.
  destruct (Hr e) as [Hn Hp]; [by apply Hsub|]. split; [done|].
  intros Hpl. destruct (Hp Hpl) as [? ?]. split; [done|lia].
Qed.

Lemma tree_returns fuel entries a pre post least :
  c = pre ++ resolve blocks (length pre) (sym_tree fuel entries) ++ post →
  (length pre + length (sym_tree fuel entries) ≤ least)%nat → ready least entries →
  (length entries ≤ fuel)%nat → (0 < fuel)%nat → ordered entries →
  returns a (length pre) (tree_decision entries pid arch d a).
Proof.
  revert entries pre post. induction fuel as [|fuel IH];
    intros entries pre post Hc Hle Hr Hfuel H0 Hord; [lia|].
  simpl in *. unfold LEAF_RUN in *. destruct (Nat.leb_spec (length entries) 4).
  { by eapply leaf_returns. }
  destruct (halves entries) as (Hlo & Hup & _); [lia|].
  set (m := (length entries / 2)%nat) in *.
  destruct (lookup_lt_is_Some_2 entries m) as [e He]; [by apply Nat.div_lt; lia|].
  rewrite He in *. simpl in *. rewrite length_app in Hle. rewrite resolve_app in Hc.
  pose proof (take_drop m entries) as Hsplit.
  assert (ordered (take m entries ++ drop m entries)) as Hord' by by rewrite Hsplit.
  apply StronglySorted_app in Hord' as (Hcross & Hord1 & Hord2).
  pose proof (drop_S entries e m He) as Hdrop.
  set (lower := sym_tree fuel (take m entries)) in *.
  set (upper := sym_tree fuel (drop m entries)) in *.
  set (i := Insn OP_AT_LEAST 0 1 _) in *. set (j := Insn OP_JUMP 0 0 _) in *.
  set (pre2 := pre ++ [i; j]).
  assert (length pre2 = S (S (length pre))) as Hl2
    by (unfold pre2; rewrite length_app; simpl; lia).
  assert (c = pre2 ++ resolve blocks (length pre2) lower
    ++ resolve blocks (S (S (length pre)) + length lower) upper ++ post) as Hc2.
  { rewrite Hc at 1. rewrite Hl2. unfold pre2. by rewrite <- !app_assoc. }
  eapply returns_at_least.
  { rewrite Hc at 1. rewrite lookup_app_r, Nat.sub_diag by lia. reflexivity. }
  rewrite <- Hsplit. destruct (Z.leb_spec (e_number e) a) as [Hge|Hlt].
  - eapply returns_jump.
    { rewrite Hc at 1. rewrite lookup_app_r by lia.
      replace (length pre + 1 + Z.to_nat 0 - length pre)%nat with 1%nat by lia. reflexivity. }
    rewrite tree_decision_upper.
    2: { intros e' He'. specialize (Hcross e' e He'). rewrite Hdrop in Hcross.
         specialize (Hcross ltac:(apply list_elem_of_here)). lia. }
    set (pre3 := pre2 ++ resolve blocks (length pre2) lower).
    assert (length pre3 = S (S (length pre)) + length lower)%nat as Hl3
      by (unfold pre3; rewrite length_app, length_resolve; lia).
    replace (_ + Z.to_nat (Z.of_nat (length lower)))%nat with (length pre3) by lia.
    eapply IH; [|rewrite Hl3; fold upper; lia| |lia|lia|done].
    + rewrite Hl3. unfold pre3. rewrite Hc2 at 1. fold upper. apply app_assoc.
    + eapply ready_mono; [done|lia|].
      intros x Hx. rewrite <- Hsplit. apply elem_of_app. auto.
  - rewrite tree_decision_lower.
    2: { intros e' He'. rewrite Hdrop in He', Hord2. apply elem_of_cons in He' as [->|He'];
         [done|]. apply StronglySorted_inv in Hord2 as [_ Hall].
         rewrite Forall_forall in Hall. specialize (Hall e' He'). lia. }
    replace (length pre + 1 + Z.to_nat 1)%nat with (length pre2) by lia.
    eapply IH; [exact Hc2|rewrite Hl2; fold lower; lia| |lia|lia|done].
    eapply ready_mono; [done|lia|].
    intros x Hx. rewrite <- Hsplit. apply elem_of_app. auto.
Qed.
End TreeRuns.

(** ** The entries *)

#[local] Opaque calls.

(** The entry a call gives, if any. *)
Definition granted (arch : cosmic_arch) (rules : gmap string rule) (c : string)
    : option entry :=
  if decide (rules_at rules c = RULE_NONE) then None
  else if numbers_of arch c =? 0 then None
  else Some (Entry (numbers_of arch c - 1) (rules_at rules c)).

#[local] Abbreviation before := (λ e e' : entry, e_number e <= e_number e').

Lemma insert_rev_perm e l : insert_rev e l ≡ₚ e :: l.
Proof.
  induction l as [|x l IH]; simpl; [done|]. destruct (_ <? _); [|done].
  rewrite IH. apply Permutation_swap.
Qed.

Lemma insert_rev_sorted e l :
  Sorted (flip before) l → Sorted (flip before) (insert_rev e l).
Proof.
  induction 1 as [|x l Hs IH Hd]; simpl; [by repeat constructor|].
  destruct (Z.ltb_spec (e_number e) (e_number x)) as [Hlt|Hge].
  - constructor; [done|]. destruct l as [|y l]; simpl; [constructor; simpl; lia|].
    inversion Hd; subst. destruct (_ <? _); constructor; simpl in *; lia.
  - repeat constructor; done || (simpl; lia).
Qed.

Lemma insert_entry_perm e l : insert_entry e l ≡ₚ e :: l.
Proof. unfold insert_entry. by rewrite reverse_Permutation, insert_rev_perm, reverse_Permutation. Qed.

Lemma insert_entry_sorted e l : Sorted before l → Sorted before (insert_entry e l).
Proof.
  intros Hs. unfold insert_entry. change before with (flip (flip before)).
  apply Sorted_reverse, insert_rev_sorted. by apply Sorted_reverse.
Qed.

Lemma entries_step_spec arch rules l acc :
  Sorted before acc →
  foldl (entries_step arch rules) acc l ≡ₚ acc ++ omap (granted arch rules) l ∧
  Sorted before (foldl (entries_step arch rules) acc l).
Proof.
  revert acc. induction l as [|c l IH]; intros acc Hs; simpl; [by rewrite app_nil_r|].
  assert (entries_step arch rules acc c ≡ₚ acc ++ option_list (granted arch rules c) ∧
    Sorted before (entries_step arch rules acc c)) as [Hp Hs'].
  { unfold entries_step, granted. destruct (decide _); [by rewrite app_nil_r|].
    destruct (_ =? 0); [by rewrite app_nil_r|].
    split; [|by apply insert_entry_sorted]. by rewrite insert_entry_perm, Permutation_cons_append. }
  destruct (IH _ Hs') as [Hp' ?]. split; [|done]. rewrite Hp', Hp, <- app_assoc.
  by destruct (granted arch rules c).
Qed.

Lemma entries_for_spec arch rules :
  entries_for arch rules ≡ₚ omap (granted arch rules) calls ∧
  Sorted before (entries_for arch rules).
Proof. apply (entries_step_spec arch rules calls []). constructor. Qed.

(** No two calls of an architecture share a number. *)
Definition numbered_calls (arch : cosmic_arch) (l : list string) : list Z :=
  omap (λ c, if numbers_of arch c =? 0 then None else Some (numbers_of arch c)) l.

Lemma numbered_calls_nodup arch : NoDup (numbered_calls arch calls).
Proof. apply (bool_decide_unpack _). destruct arch; vm_compute; exact I. Qed.

Lemma granted_sublist arch rules l :
  sublist ((λ e, e_number e + 1) <$> omap (granted arch rules) l) (numbered_calls arch l).
Proof.
  induction l as [|c l IH]; [done|]. unfold numbered_calls in *. cbn [omap list_omap].
  unfold granted at 1. destruct (Z.eqb_spec (numbers_of arch c) 0) as [E|E].
  - by destruct (decide _).
  - destruct (decide _); [by constructor|]. simpl.
    replace (numbers_of arch c - 1 + 1) with (numbers_of arch c) by lia. by constructor.
Qed.

Lemma numbered_calls_inj arch l c c' :
  NoDup (numbered_calls arch l) → c ∈ l → c' ∈ l →
  numbers_of arch c ≠ 0 → numbers_of arch c = numbers_of arch c' → c = c'.
Proof.
  induction l as [|x l IH]; intros Hnd Hc Hc' Hnz Heq; [by apply not_elem_of_nil in Hc|].
  unfold numbered_calls in Hnd. cbn [omap list_omap] in Hnd.
  assert (∀ y, y ∈ l → numbers_of arch y = numbers_of arch c →
    numbers_of arch c ∈ numbered_calls arch l) as Hin.
  { intros y Hy Hey. apply list_elem_of_omap. exists y. split; [done|].
    rewrite Hey. destruct (Z.eqb_spec (numbers_of arch c) 0); [lia|done]. }
  apply elem_of_cons in Hc as [->|Hc]; apply elem_of_cons in Hc' as [->|Hc']; [done| | |].
  - destruct (Z.eqb_spec (numbers_of arch x) 0); [lia|].
    apply NoDup_cons in Hnd as [Hn _]. exfalso. apply Hn. by apply (Hin c').
  - rewrite <- Heq in Hnd. destruct (Z.eqb_spec (numbers_of arch c) 0); [lia|].
    apply NoDup_cons in Hnd as [Hn _]. exfalso. apply Hn. by apply (Hin c).
  - apply IH; try done. destruct (_ =? 0); [done|]. by apply NoDup_cons in Hnd as [_ ?].
Qed.

Lemma entries_for_ordered arch rules : ordered (entries_for arch rules).
Proof.
  destruct (entries_for_spec arch rules) as [Hp Hs].
  assert (NoDup (e_number <$> entries_for arch rules)) as Hnd.
  { apply (NoDup_fmap_1 (Z.add 1)). rewrite Hp, <- list_fmap_compose.
    eapply sublist_NoDup; [apply (numbered_calls_nodup arch)|].
    erewrite list_fmap_ext; [apply (granted_sublist arch rules calls)|].
    intros i e _. simpl. lia. }
  assert (Transitive before) as Htr by (intros x y z ? ?; simpl in *; lia).
  apply Sorted_StronglySorted in Hs; [|done]. clear Hp Htr.
  induction Hs as [|e l Hs IH Hall]; simpl in *; constructor.
  - apply IH. by apply NoDup_cons in Hnd as [_ ?].
  - apply NoDup_cons in Hnd as [Hn _]. rewrite Forall_forall in Hall |- *. intros e' He'.
    specialize (Hall e' He'). simpl in *.
    enough (e_number e ≠ e_number e') by lia. intros Heq. apply Hn. rewrite Heq.
    by apply list_elem_of_fmap_2.
Qed.

(** The tree over the entries decides by the rule of the numbered call. *)
Lemma entries_decide arch rules pid d n :
  0 <= n →
  tree_decision (entries_for arch rules) pid arch d n
  = match call_numbered arch n with
    | Some c => decision (rules_at rules c) pid arch d
    | None => RETURN_ERRNO LINUX_EPERM
    end.
Proof.
  intros Hn. destruct (entries_for_spec arch rules) as [Hp _].
  unfold tree_decision, call_numbered.
  destruct (List.find _ (entries_for arch rules)) as [e|] eqn:He;
    destruct (List.find _ calls) as [c|] eqn:Hc.
  - apply find_some_iff in He as [He Hne], Hc as [Hc Hnc]. apply Z.eqb_eq in Hne, Hnc.
    rewrite Hp in He. apply list_elem_of_omap in He as (c' & Hc' & Hg).
    unfold granted in Hg. destruct (decide _); [done|].
    destruct (Z.eqb_spec (numbers_of arch c') 0); [done|]. injection Hg as <-. simpl in *.
    replace c' with c; [done|].
    apply (numbered_calls_inj arch calls); [apply numbered_calls_nodup|done|done|lia|lia].
  - apply find_some_iff in He as [He Hne]. apply Z.eqb_eq in Hne.
    rewrite Hp in He. apply list_elem_of_omap in He as (c' & Hc' & Hg).
    unfold granted in Hg. destruct (decide _); [done|].
    destruct (Z.eqb_spec (numbers_of arch c') 0); [done|]. injection Hg as <-. simpl in *.
    apply list_elem_of_In in Hc'.
    pose proof (List.find_none _ _ Hc c' Hc') as Hf. simpl in Hf. apply Z.eqb_neq in Hf. lia.
  - apply find_some_iff in Hc as [Hc Hnc]. apply Z.eqb_eq in Hnc.
    destruct (decide (rules_at rules c = RULE_NONE)) as [->|Hr]; [done|]. exfalso.
    assert (Entry n (rules_at rules c) ∈ entries_for arch rules) as Hin.
    { rewrite Hp. apply list_elem_of_omap. exists c. split; [done|]. unfold granted.
      destruct (decide _); [done|]. destruct (Z.eqb_spec (numbers_of arch c) 0); [lia|].
      do 2 f_equal. lia. }
    apply list_elem_of_In in Hin.
    pose proof (List.find_none _ _ He _ Hin) as Hf. simpl in Hf. by rewrite Z.eqb_refl in Hf.
  - done.
Qed.
