(* ===== verification/PromisesFilter.v ===== *)
(** * The promises filter: the theorems

    [program_for] fits whatever is promised, and the program it writes is
    the policy of [PromisesRun.v].  Then what that policy means: which
    calls no promise grants, what stays refused without a promise, and that
    a promise only adds. *)

From S2P Require Import Prelude.
From S2P Require Import PromisesCalls.
From S2P Require Import Promises.
From S2P Require Import PromisesRun.
From S2P Require Import PromisesCorrect.

Local Open Scope Z_scope.

#[local] Opaque calls basics fork_calls jit_calls fattr_calls nest_calls.
#[local] Arguments emit_block : simpl never.

(** ** The blocks after the tree *)

(** [x], which starts at [base], holds the block of [r] where [blocks] says. *)
Definition located (pid : Z) (arch : cosmic_arch) (base : nat) (x : list cosmic_insn)
    (blocks : rule → nat) (r : rule) : Prop :=
  ∃ pre post, x = pre ++ block_code r pid arch ++ post ∧ blocks r = (base + length pre)%nat.

Lemma emit_blocks_spec ps pid arch l c x blocks :
  (length c + length x + 32 * length l ≤ 4000)%nat →
  ∃ x' blocks',
    foldl (emit_block ps pid arch) (Builder (c ++ x) false, blocks) l
      = (Builder (c ++ x ++ x') false, blocks') ∧
    (length x' ≤ 32 * length l)%nat ∧
    (∀ r, r ∈ pend_rule <$> ps → r ∈ l ∨ located pid arch (length c) x blocks r →
      located pid arch (length c) (x ++ x') blocks' r).
Proof.
  revert x blocks. induction l as [|r l IH]; intros x blocks Hroom; simpl in *.
  { exists [], blocks. rewrite app_nil_r. split_and!; [done|simpl; lia|].
    intros r _ [Hr|Hr]; [by apply not_elem_of_nil in Hr|done]. }
  destruct (decide (r ∈ pend_rule <$> ps)) as [Hin|Hout].
  - set (blk := block_code r pid arch).
    set (blocks1 := λ r', if decide (r' = r) then (length c + length x)%nat else blocks r').
    assert (emit_block ps pid arch (Builder (c ++ x) false, blocks) r
      = (Builder (c ++ x ++ blk) false, blocks1)) as ->.
    { unfold emit_block. rewrite decide_True by done.
      rewrite rule_block_reloc by (rewrite length_app; lia).
      unfold b_length. simpl. by rewrite length_app, <- app_assoc. }
    pose proof (block_code_length r pid arch) as Hlen. fold blk in Hlen.
    destruct (IH (x ++ blk) blocks1) as (x' & blocks' & Hf & Hl & Hr);
      [rewrite length_app; lia|].
    exists (blk ++ x'), blocks'. rewrite <- !app_assoc in *. split_and!.
    + by rewrite Hf.
    + rewrite length_app. lia.
    + intros r' Hneed Hcase. apply Hr; [done|].
      destruct (decide (r' = r)) as [->|Hne].
      { right. exists x, []. rewrite app_nil_r. split; [done|]. unfold blocks1.
        by rewrite decide_True. }
      destruct Hcase as [[?|?]%elem_of_cons|(pre & post & -> & Hpos)]; [done|by left|].
      right. exists pre, (post ++ blk). rewrite <- !app_assoc. split; [done|].
      unfold blocks1. by rewrite decide_False.
  - assert (emit_block ps pid arch (Builder (c ++ x) false, blocks) r
      = (Builder (c ++ x) false, blocks)) as -> by by (unfold emit_block; rewrite decide_False).
    destruct (IH x blocks) as (x' & blocks' & Hf & Hl & Hr); [lia|].
    exists x', blocks'. split_and!; [done|lia|]. intros r' Hneed Hcase. apply Hr; [done|].
    destruct Hcase as [[->|?]%elem_of_cons|?]; [done|by left|by right].
Qed.

(** ** The whole program *)

Lemma prologue_code arch :
  prologue arch = Builder [
    Insn OP_LOAD 0 0 DATA_ARCH; Insn OP_EQ 1 0 (audit_of arch);
    Insn OP_RETURN 0 0 RETURN_KILL_PROCESS; Insn OP_LOAD 0 0 DATA_NUMBER;
    Insn OP_GREATER 0 1 (PROMISE_CALLS_REVIEWED - 1);
    Insn OP_RETURN 0 0 (RETURN_ERRNO LINUX_ENOSYS) ] false.
Proof. reflexivity. Qed.

Lemma pends_rules o s r : r ∈ pend_rule <$> pends o s ↔ inr r ∈ s.
Proof.
  revert o. induction s as [|[i|r'] s IH]; intros o; simpl.
  - by split; intros ?%not_elem_of_nil.
  - rewrite IH, elem_of_cons. split; [by right | by intros [H|H]].
  - rewrite !elem_of_cons, IH. by split; (intros [H|H]; [left; congruence|by right]).
Qed.

Lemma sym_leaf_rules entries r :
  plain r = false → inr r ∈ sym_leaf entries ↔ r ∈ e_rule <$> entries.
Proof.
  intros Hp. induction entries as [|e entries IH]; simpl.
  { by split; [intros [H|H%not_elem_of_nil]%elem_of_cons | intros H%not_elem_of_nil]. }
  rewrite !elem_of_cons, IH.
  match goal with |- _ ∨ inr r = ?x ∨ _ ↔ _ => assert (inr r = x ↔ r = e_rule e) as -> end.
  { destruct (e_rule e); split; intros H; try discriminate H; subst; try discriminate Hp;
      try done; by injection H. }
  split; [intros [H|H]; [discriminate H|done] | by right].
Qed.

Lemma sym_tree_rules fuel entries r :
  (length entries ≤ fuel)%nat → (0 < fuel)%nat → plain r = false →
  inr r ∈ sym_tree fuel entries ↔ r ∈ e_rule <$> entries.
Proof.
  revert entries. induction fuel as [|fuel IH]; intros entries Hle H0 Hp; [lia|]. simpl.
  unfold LEAF_RUN. destruct (Nat.leb_spec (length entries) 4); [by apply sym_leaf_rules|].
  destruct (halves entries) as (Hlo & Hup & _); [lia|].
  rewrite !elem_of_cons, elem_of_app, !IH by (done || lia).
  rewrite <- elem_of_app, <- fmap_app, take_drop.
  split; [intros [Hd|[Hd|Hd]]; [discriminate Hd..|done] | by right; right].
Qed.

Lemma length_entries_for arch rules : (length (entries_for arch rules) ≤ 385)%nat.
Proof.
  destruct (entries_for_spec arch rules) as [Hp _]. apply Permutation_length in Hp.
  rewrite Hp. etransitivity; [apply length_omap_le|]. by vm_compute.
Qed.

Lemma entries_granted arch rules :
  Forall (λ e, e_rule e ≠ RULE_NONE) (entries_for arch rules).
Proof.
  destruct (entries_for_spec arch rules) as [Hp _]. rewrite Hp.
  apply Forall_forall. intros e He. apply list_elem_of_omap in He as (c & _ & Hg).
  unfold granted in Hg. destruct (decide _); [done|]. destruct (_ =? 0); [done|].
  by injection Hg as <-.
Qed.

(** The code [program_for] writes: the prologue, the tree with its jumps
    pointed at the blocks, and the blocks. *)
Lemma program_layout arch promises sockets pid held :
  let entries := entries_for arch (rules_for promises sockets held) in
  let s := sym_tree (S (length entries)) entries in
  let pre := b_code (prologue arch) in
  ∃ x blocks,
    program_for arch promises sockets pid held
      = Some (pre ++ resolve blocks (length pre) s ++ x) ∧
    (length (pre ++ resolve blocks (length pre) s ++ x) ≤ 4000)%nat ∧
    (∀ r, plain r = false → r ∈ e_rule <$> entries →
      located pid arch (length pre + length s) x blocks r).
Proof.
  intros entries s pre. unfold program_for. fold entries.
  pose proof (length_entries_for arch (rules_for promises sockets held)) as Hlen.
  fold entries in Hlen.
  destruct (length_sym_tree (S (length entries)) entries) as [Hs _]. fold s in Hs.
  assert (length pre = 6)%nat as Hpre by by unfold pre; rewrite prologue_code.
  rewrite (tree_sym (S (length entries)) (prologue arch) entries []);
    [|lia|lia|by rewrite prologue_code|unfold b_length; fold pre s; lia].
  fold s pre. cbn [app]. unfold emit_blocks, b_length. fold pre.
  destruct (emit_blocks_spec (pends (length pre) s) pid arch rules_in_order
    (pre ++ (strip <$> s)) [] (λ _, 0%nat)) as (x & blocks & Hf & Hx & Hloc).
  { rewrite length_app, length_fmap. simpl. lia. }
  rewrite app_nil_r in Hf. cbn [app] in Hf, Hloc. rewrite Hf. rewrite <- app_assoc.
  rewrite patch_pending_sym. cbn [b_full b_code]. exists x, blocks. split_and!; [done| |].
  { rewrite !length_app, length_resolve. change (length rules_in_order) with 31%nat in Hx. lia. }
  intros r Hp Hr. rewrite length_app, length_fmap in Hloc. apply Hloc.
  - rewrite pends_rules. by apply sym_tree_rules; [lia|lia| |].
  - left. destruct r; vm_compute; repeat constructor.
Qed.

Lemma program_returns arch promises sockets pid held d code :
  program_for arch promises sockets pid held = Some code →
  returns d code 0 0 (policy arch promises sockets pid held d).
Proof.
  destruct (program_layout arch promises sockets pid held) as (x & blocks & -> & Hlen & Hloc).
  set (rules := rules_for promises sockets held) in *.
  set (entries := entries_for arch rules) in *.
  set (s := sym_tree (S (length entries)) entries) in *.
  set (pre := b_code (prologue arch)) in *. intros [= <-].
  set (code := pre ++ resolve blocks (length pre) s ++ x).
  rewrite !length_app, length_resolve in Hlen.
  assert (length pre = 6)%nat as Hpre by by unfold pre; rewrite prologue_code.
  assert (∀ n i, pre !! n = Some i → code !! n = Some i) as Hat
    by (intros n i Hi; unfold code; by apply lookup_app_l_Some).
  unfold pre in Hat. rewrite prologue_code in Hat. cbn [b_code] in Hat.
  eapply returns_load; [by apply Hat|reflexivity|].
  eapply returns_eq; [by apply Hat|]. unfold policy.
  destruct (d_arch d =? audit_of arch); cbn [negb].
  2: { eapply returns_return. by apply Hat. }
  eapply returns_load; [by apply Hat|reflexivity|].
  eapply returns_greater; [by apply Hat|]. set (n := Z.land (d_number d) 0xffffffff).
  assert (0 <= n) as Hn by (apply Z.land_nonneg; lia).
  assert ((PROMISE_CALLS_REVIEWED - 1 <? n) = (PROMISE_CALLS_REVIEWED <=? n)) as ->.
  { unfold PROMISE_CALLS_REVIEWED. destruct (Z.ltb_spec (472 - 1) n), (Z.leb_spec 472 n); lia. }
  destruct (PROMISE_CALLS_REVIEWED <=? n).
  { eapply returns_return. by apply Hat. }
  fold rules. rewrite <- (entries_decide arch rules pid d n) by done. fold entries.
  change (0 + 1 + Z.to_nat 1 + 1 + 1 + Z.to_nat 1)%nat with 6%nat. rewrite <- Hpre.
  eapply (tree_returns pid arch d code blocks (S (length entries)) entries n pre x
    (length pre + length s)); [done|done| |lia|lia|apply entries_for_ordered].
  pose proof (entries_granted arch rules) as Hg. fold entries in Hg.
  unfold ready. rewrite Forall_forall in Hg |- *. intros e He. split; [by apply Hg|].
  intros Hp. destruct (Hloc (e_rule e) Hp) as (a & b & Hx & Hb);
    [by apply list_elem_of_fmap_2|].
  split; [|rewrite Hb; subst x; rewrite !length_app in Hlen; lia].
  exists (pre ++ resolve blocks (length pre) s ++ a), b. split.
  - unfold code. rewrite Hx, <- !app_assoc. done.
  - rewrite Hb, !length_app, length_resolve. lia.
Qed.

Lemma program_verdict arch promises sockets pid held :
  ∃ code, program_for arch promises sockets pid held = Some code ∧
    (length code ≤ 4000)%nat ∧
    ∀ d, verdict code d = Some (policy arch promises sockets pid held d).
Proof.
  destruct (program_layout arch promises sockets pid held) as (x & blocks & Hc & Hlen & _).
  eexists. split_and!; [exact Hc|exact Hlen|].
  intros d. destruct (program_returns _ _ _ _ _ d _ Hc) as [n Hn].
  apply run_bound in Hn. by rewrite Nat.sub_0_r in Hn.
Qed.

(** C1: whatever is promised and whatever else holds the process, the
    filter's program fits the kernel's limit of 4096 instructions, and run
    on any call, with any number, architecture and arguments, it returns
    what the policy decides of that call. *)
Theorem program_decides_policy arch promises sockets pid held :
  ∃ code, program_for arch promises sockets pid held = Some code ∧
    Z.of_nat (length code) <= COSMIC_PROMISE_INSNS ∧
    ∀ d, verdict code d = Some (policy arch promises sockets pid held d).
Proof.
  destruct (program_verdict arch promises sockets pid held) as (code & Hc & Hlen & Hd).
  exists code. split_and!; [done|unfold COSMIC_PROMISE_INSNS; lia|done].
Qed.

(** ** What the policy keeps *)

(** The program answers a call by the rule the options give it. *)
Lemma answer_rule arch promises sockets pid held c args :
  c ∈ calls → numbers_of arch c ≠ 0 →
  answer arch promises sockets pid held c args
  = Some (decision (rules_at (rules_for promises sockets held) c) pid arch
      (call_data arch c args)).
Proof.
  intros Hc Hn. unfold answer.
  destruct (program_verdict arch promises sockets pid held) as (code & -> & _ & Hd).
  simpl. rewrite Hd. unfold policy, call_data. cbn [d_arch d_number].
  rewrite Z.eqb_refl. cbn [negb].
  assert (Forall (λ c, numbers_of arch c = 0 ∨ 0 < numbers_of arch c <= 472) calls) as Hall.
  { apply (bool_decide_unpack _). clear. destruct arch; vm_compute; exact I. }
  rewrite Forall_forall in Hall. specialize (Hall c Hc).
  change 0xffffffff with (Z.ones 32). rewrite Z.land_ones, Z.mod_small by lia.
  unfold PROMISE_CALLS_REVIEWED. destruct (Z.leb_spec 472 (numbers_of arch c - 1)); [lia|].
  unfold call_numbered. replace (numbers_of arch c - 1 + 1) with (numbers_of arch c) by lia.
  destruct (List.find _ calls) as [c'|] eqn:Hf.
  - apply find_some_iff in Hf as [Hc' He]. apply Z.eqb_eq in He.
    by rewrite (numbered_calls_inj arch calls c c' (numbered_calls_nodup arch)).
  - apply list_elem_of_In in Hc. pose proof (List.find_none _ _ Hf c Hc) as He. simpl in He.
    by rewrite Z.eqb_refl in He.
Qed.

Lemma rules_at_insert_ne rules c c' r :
  c ≠ c' → rules_at (<[c' := r]> rules) c = rules_at rules c.
Proof. intros Hne. unfold rules_at. by rewrite lookup_insert_ne. Qed.

Lemma add_untouched rules table c :
  c ∉ (grant_call <$> table) → rules_at (add rules table) c = rules_at rules c.
Proof.
  unfold add. revert rules. induction table as [|g table IH]; intros rules Hc; simpl; [done|].
  simpl in Hc. apply not_elem_of_cons in Hc as [Hne Hc]. rewrite IH by done.
  destruct (_ <? _); [by apply rules_at_insert_ne|done].
Qed.

Lemma signals_untouched l rules c :
  rules_at rules c ≠ RULE_SIGNAL →
  rules_at (foldl (λ rules c,
    if decide (rules_at rules c = RULE_SIGNAL) then <[c := RULE_ALLOW]> rules
    else rules) rules l) c = rules_at rules c.
Proof.
  revert rules. induction l as [|x l IH]; intros rules Hc; simpl; [done|].
  case_decide as Hx; [|by apply IH].
  assert (c ≠ x) as Hne by congruence. rewrite IH; by rewrite rules_at_insert_ne.
Qed.

(** The calls an option beside the promises' own tables may change. *)
Definition overridden : list string := [
  "socket"; "clone"; "pidfd_send_signal"; "setrlimit"; "prlimit64"; "getpgid"; "getsid";
  "setpgid"; "capget" ].

(** A call keeps the basics' rule unless a promised table names it, the
    signal scope frees it or an option overrides it. *)
Lemma rules_for_basics promises sockets held c :
  c ∉ overridden → c ∉ (grant_call <$> fork_calls) →
  (has promises COSMIC_PROMISE_JIT = false ∨ c ∉ (grant_call <$> jit_calls)) →
  (has promises COSMIC_PROMISE_FATTR = false ∨ c ∉ (grant_call <$> fattr_calls)) →
  (has promises COSMIC_PROMISE_NEST = false ∨ c ∉ (grant_call <$> nest_calls)) →
  (has held COSMIC_HELD_SIGNALS = false ∨ rules_at (add ∅ basics) c ≠ RULE_SIGNAL) →
  rules_at (rules_for promises sockets held) c = rules_at (add ∅ basics) c.
Proof.
  intros Ho Hfork Hjit Hfattr Hnest Hsig. unfold rules_for.
  generalize dependent (add ∅ basics). intros rules Hsig.
  assert (∀ rules x r, x ∈ overridden → rules_at (<[x := r]> rules) c = rules_at rules c)
    as Hins by (intros ? x ? Hx; apply rules_at_insert_ne; congruence).
  set (sk := if has held COSMIC_HELD_UNIX then _ else _).
  set (r1 := if sk =? _ then _ else _).
  assert (rules_at r1 c = rules_at rules c) as E1.
  { unfold r1. repeat case_match; try done; apply Hins; repeat constructor. }
  set (r2 := if has promises COSMIC_PROMISE_FORK then add r1 _ else _).
  assert (rules_at r2 c = rules_at r1 c) as E2.
  { unfold r2. case_match; [by apply add_untouched|done]. }
  set (r3 := if has promises COSMIC_PROMISE_JIT then _ else _).
  assert (rules_at r3 c = rules_at r2 c) as E3.
  { unfold r3. destruct Hjit as [->|?]; [done|]. case_match; [by apply add_untouched|done]. }
  set (r4 := if has promises COSMIC_PROMISE_FATTR then _ else _).
  assert (rules_at r4 c = rules_at r3 c) as E4.
  { unfold r4. destruct Hfattr as [->|?]; [done|]. case_match; [by apply add_untouched|done]. }
  set (r5 := if has promises COSMIC_PROMISE_NEST then _ else _).
  assert (rules_at r5 c = rules_at r4 c) as E5.
  { unfold r5. destruct Hnest as [->|?]; [done|].
    repeat case_match; try done; rewrite ?Hins by (repeat constructor); by apply add_untouched. }
  rewrite <- E1, <- E2, <- E3, <- E4, <- E5 in *. clear E1 E2 E3 E4 E5.
  set (r6 := if has held COSMIC_HELD_SIGNALS then _ else _).
  assert (rules_at r6 c = rules_at r5 c) as <-.
  { unfold r6. destruct Hsig as [->|?]; [done|]. case_match; [|done].
    rewrite Hins by (repeat constructor). by apply signals_untouched. }
  set (r7 := if has held COSMIC_HELD_LIMITS then _ else _).
  assert (rules_at r7 c = rules_at r6 c) as <-.
  { unfold r7. repeat case_match; try done; by rewrite ?Hins by (repeat constructor). }
  case_match; [|done]. by rewrite !Hins by (repeat constructor).
Qed.

(** Membership in a concrete table, decided. *)
Ltac decide_here := apply (bool_decide_unpack _); vm_compute; exact I.

(** C2: no promise, socket family or hold grants a call of the
    never-allowed set: each is refused with EPERM, whatever its arguments,
    on every architecture that has it. *)
Theorem never_granted arch promises sockets pid held c args :
  c ∈ never → numbers_of arch c ≠ 0 →
  answer arch promises sockets pid held c args = Some (RETURN_ERRNO LINUX_EPERM).
Proof.
  intros Hc Hn.
  assert (Forall (λ c, (c ∈ calls) ∧ (c ∉ overridden) ∧ (c ∉ (grant_call <$> fork_calls)) ∧
    (c ∉ (grant_call <$> jit_calls)) ∧ (c ∉ (grant_call <$> fattr_calls)) ∧
    (c ∉ (grant_call <$> nest_calls)) ∧ rules_at (add ∅ basics) c = RULE_NONE) never) as Hall.
  { decide_here. }
  rewrite Forall_forall in Hall. destruct (Hall c Hc) as (Hcalls & Ho & Hf & Hj & Ha & Hne & Hr).
  rewrite (answer_rule _ _ _ _ _ _ _ Hcalls Hn).
  rewrite (rules_for_basics _ _ _ _ Ho Hf (or_intror Hj) (or_intror Ha) (or_intror Hne)).
  - by rewrite Hr.
  - right. by rewrite Hr.
Qed.

Lemma never_granted_witness :
  answer COSMIC_ARCH_X86_64 15 3 77 15 "ptrace" [16; 1] = Some (RETURN_ERRNO LINUX_EPERM).
Proof. apply never_granted; [decide_here | discriminate]. Defined.

(** Without [jit], no mapping is writable and executable at once, and no
    executable one is anonymous; every other mapping is allowed. *)
Theorem without_jit_no_writable_code arch promises sockets pid held addr len prot flags rest :
  has promises COSMIC_PROMISE_JIT = false →
  answer arch promises sockets pid held "mmap" (addr :: len :: prot :: flags :: rest)
  = Some (if has prot PROT_EXEC_BIT && (has prot PROT_WRITE_BIT || has flags MAP_ANONYMOUS_BIT)
          then RETURN_ERRNO LINUX_EPERM else RETURN_ALLOW).
Proof.
  intros Hjit. rewrite answer_rule; [|decide_here|destruct arch; by vm_compute].
  rewrite rules_for_basics;
    [|decide_here|decide_here|by left|right; decide_here|right; decide_here|right; decide_here].
  replace (rules_at (add ∅ basics) "mmap") with RULE_MMAP by by vm_compute.
  unfold decision, rule_allows, rule_denial.
  assert (∀ x b, In b [PROT_EXEC_BIT; PROT_WRITE_BIT; MAP_ANONYMOUS_BIT] →
    has (Z.land x 0xffffffff) b = has x b) as Hlow.
  { intros x b Hb. unfold has. rewrite <- Z.land_assoc. do 2 f_equal.
    repeat (destruct Hb as [<-|Hb]; [done|]). done. }
  unfold low, call_data; cbn [d_args].
  change ((addr :: len :: prot :: flags :: rest) !! 2%nat) with (Some prot).
  change ((addr :: len :: prot :: flags :: rest) !! 3%nat) with (Some flags). simpl.
  rewrite !Hlow by (simpl; auto).
  by destruct (has prot PROT_EXEC_BIT), (has prot PROT_WRITE_BIT), (has flags MAP_ANONYMOUS_BIT).
Qed.

Lemma without_jit_no_writable_code_witness :
  answer COSMIC_ARCH_AARCH64 5 0 77 0 "mmap" [0; 4096; 7; 34; 0; 0]
  = Some (RETURN_ERRNO LINUX_EPERM).
Proof. rewrite without_jit_no_writable_code; reflexivity. Defined.

(** unless it promises [nest] or Landlock's signal scope holds it, a
    process signals no process but itself: a signal call is allowed exactly
    when its first argument, as the kernel truncates it, is the process's
    own pid. *)
Theorem signals_stay_inside arch promises sockets pid held c target rest :
  c ∈ signal_calls →
  has promises COSMIC_PROMISE_NEST = false → has held COSMIC_HELD_SIGNALS = false →
  answer arch promises sockets pid held c (target :: rest)
  = Some (if u32 target =? pid then RETURN_ALLOW else RETURN_ERRNO LINUX_EPERM).
Proof.
  intros Hc Hnest Hsig.
  assert (Forall (λ c, (c ∈ calls) ∧ numbers_of arch c ≠ 0 ∧ (c ∉ overridden) ∧
    (c ∉ (grant_call <$> fork_calls)) ∧ (c ∉ (grant_call <$> jit_calls)) ∧
    (c ∉ (grant_call <$> fattr_calls)) ∧ rules_at (add ∅ basics) c = RULE_SIGNAL) signal_calls)
    as Hall by (destruct arch; decide_here).
  rewrite Forall_forall in Hall. destruct (Hall c Hc) as (Hcalls & Hn & Ho & Hf & Hj & Ha & Hr).
  rewrite (answer_rule _ _ _ _ _ _ _ Hcalls Hn).
  rewrite (rules_for_basics _ _ _ _ Ho Hf (or_intror Hj) (or_intror Ha) (or_introl Hnest)
    (or_introl Hsig)), Hr.
  unfold decision, rule_allows, low, call_data, u32. simpl.
  change 0xffffffff with (Z.ones 32). by rewrite Z.land_ones by lia.
Qed.

Lemma signals_stay_inside_witness :
  answer COSMIC_ARCH_X86_64 7 3 77 14 "kill" [78; 9] = Some (RETURN_ERRNO LINUX_EPERM).
Proof. rewrite signals_stay_inside; [reflexivity | decide_here | reflexivity..]. Defined.

(** C3: a process that applied its promises with no error runs, under
    no_new_privs, held to the policy of those promises, its own pid and what
    holds it; setting its limits is granted only where the caller says it is
    held or it lacks the capability to raise them. *)
Theorem applied_promises_hold kern arch promises sockets held pid :
  let held' :=
    if lacks_resource_capability kern then Z.lor held COSMIC_HELD_LIMITS else held in
  let '(errno, installed) := cosmic_promises_apply kern arch promises sockets held pid in
  (errno = 0 ↔ ∃ program, installed = Some program) ∧
  ∀ program, installed = Some program →
    set_no_new_privs kern = 0 ∧ set_seccomp kern program = 0 ∧
    ∀ d, verdict program d = Some (policy arch promises sockets (u32 pid) held' d).
Proof.
  intros held'. unfold cosmic_promises_apply. fold held'.
  destruct (program_verdict arch promises sockets (u32 pid) held') as (code & -> & _ & Hd).
  destruct (Z.eqb_spec (set_no_new_privs kern) 0) as [E|E]; cbn [negb].
  2: { split; [|done]. split; [done|by intros [? ?]]. }
  destruct (Z.eqb_spec (set_seccomp kern code) 0) as [E'|E']; cbn [negb].
  2: { split; [|done]. split; [done|by intros [? ?]]. }
  split; [by split; [eauto|]|]. by intros ? [= <-].
Qed.
