(* ===== verification/Texts.v ===== *)
(** * Numbers as text

    The decimal and hexadecimal digits the core writes with [snprintf],
    [lua_pushfstring] or a table of digits, and reads back. *)

From stdpp Require Import pretty.
From S2P Require Import Prelude.

Local Open Scope Z_scope.

(** What [printf] writes for an integer. *)
Definition decimal (n : Z) : bytes := lit (pretty n).

(** The lower-case hexadecimal digit of a value below 16. *)
Definition hex_digit (d : Z) : Z := if d <? 10 then 0x30 + d else 0x57 + d.

(** The value of a hexadecimal digit of either case, or -1. *)
Definition hex_value (c : Z) : Z :=
  if (0x30 <=? c) && (c <=? 0x39) then c - 0x30
  else if (0x61 <=? c) && (c <=? 0x66) then c - 0x61 + 10
  else if (0x41 <=? c) && (c <=? 0x46) then c - 0x41 + 10
  else -1.

Lemma lit_cons a s : lit (String a s) = Z.of_N (Ascii.N_of_ascii a) :: lit s.
Proof. done. Qed.

Definition digit (c : Z) : Prop := 0x30 ≤ c ≤ 0x39.

Lemma pretty_char_digit n : digit (Z.of_N (Ascii.N_of_ascii (pretty_N_char n))).
Proof. unfold digit. destruct n as [|[[[|[]|]|[|[]|]|]|[[|[]|]|[|[]|]|]|]]; simpl; lia. Qed.

Lemma pretty_go_digits n s : Forall digit (lit s) → Forall digit (lit (pretty_N_go n s)).
Proof.
  revert s. induction (N.lt_wf_0 n) as [n _ IH]; intros s Hs.
  destruct (decide (n = 0%N)) as [->|Hn]; [by rewrite pretty_N_go_0|].
  rewrite pretty_N_go_step by lia. apply IH; [apply N.div_lt; lia|].
  constructor; [apply pretty_char_digit|done].
Qed.

Lemma pretty_N_digits (n : N) : Forall digit (lit (pretty n)).
Proof.
  unfold pretty, pretty_N. case_decide; [by repeat constructor|].
  apply pretty_go_digits. constructor.
Qed.

Lemma decimal_digits n : 0 ≤ n → Forall digit (decimal n).
Proof.
  intros Hn. unfold decimal, pretty, pretty_Z. destruct n as [|p|p]; [|apply pretty_N_digits|lia].
  by repeat constructor.
Qed.

Lemma decimal_bytes n : Forall (λ c, digit c ∨ c = 0x2d) (decimal n).
Proof.
  unfold decimal, pretty, pretty_Z. destruct n as [|p|p].
  - repeat constructor; simpl; unfold digit; lia.
  - eapply Forall_impl; [apply pretty_N_digits|by left].
  - constructor; [by right|]. eapply Forall_impl; [apply pretty_N_digits|by left].
Qed.

Lemma pretty_go_length n k s :
  (n < 10 ^ N.of_nat k)%N →
  (length (lit (pretty_N_go n s)) ≤ k + length (lit s))%nat.
Proof.
  revert n s. induction k as [|k IH]; intros n s Hn.
  { assert (n = 0%N) as -> by (simpl in Hn; lia). by rewrite pretty_N_go_0. }
  destruct (decide (n = 0%N)) as [->|Hz]; [rewrite pretty_N_go_0; lia|].
  rewrite pretty_N_go_step by lia. 
  assert (n / 10 < 10 ^ N.of_nat k)%N as Hd.
  { apply N.Div0.div_lt_upper_bound. rewrite Nat2N.inj_succ, N.pow_succ_r' in Hn. lia. }
  specialize (IH _ (String (pretty_N_char (n mod 10)) s) Hd).
  rewrite lit_cons in IH. cbn [length] in IH. lia.
Qed.

Lemma pretty_N_length (n : N) : (n < 2 ^ 64)%N → (length (lit (pretty n)) ≤ 20)%nat.
Proof.
  intros Hn. unfold pretty, pretty_N. case_decide; [simpl; lia|].
  apply (pretty_go_length _ 20 ""). change (N.of_nat 20) with 20%N. lia.
Qed.

Lemma decimal_length i : 0 ≤ i < 2 ^ 64 → (length (decimal i) ≤ 20)%nat.
Proof.
  intros Hi. unfold decimal, pretty, pretty_Z. destruct i as [|p|p]; [simpl; lia| |lia].
  apply pretty_N_length. lia.
Qed.

Lemma hex_value_digit d : 0 ≤ d < 16 → hex_value (hex_digit d) = d.
Proof. intros Hd. unfold hex_value, hex_digit. zcases; simpl; lia. Qed.

(** ** Reading a text piece by piece *)

Create HintDb reading.

(** What [step] reads at the head of a text and what is left, until nothing
    is; every step of a reader takes a byte at least, so the length is fuel
    enough for one. *)
Fixpoint decode_loop (step : bytes → option (bytes * bytes)) (fuel : nat) (s : bytes) : option bytes :=
  match s, fuel with
  | [], _ => Some []
  | _, O => None
  | _, S fuel =>
      match step s with
      | Some (out, rest) => app out <$> decode_loop step fuel rest
      | None => None
      end
  end.

Definition decode (step : bytes → option (bytes * bytes)) (s : bytes) : option bytes :=
  decode_loop step (length s) s.

(** The piece [p] reads as [out] whatever follows it. *)
Definition reads_as (step : bytes → option (bytes * bytes)) (p out : bytes) : Prop :=
  ∀ rest t, decode step rest = Some t → decode step (p ++ rest) = Some (out ++ t).

Section reader.
Context (step : bytes → option (bytes * bytes)).

Lemma decode_loop_more n m s t :
  (n ≤ m)%nat → decode_loop step n s = Some t → decode_loop step m s = Some t.
Proof.
  revert m s t. induction n as [|n IH]; intros m s t Hm; [by destruct s, m|].
  destruct m as [|m]; [lia|]. destruct s as [|c s]; [done|]. cbn [decode_loop].
  destruct (step (c :: s)) as [[out rest]|]; [|done].
  destruct (decode_loop step n rest) as [t'|] eqn:E; [|done].
  by rewrite (IH m rest t' ltac:(lia) E).
Qed.

Lemma reads_as_step p out :
  p ≠ [] → (∀ rest, step (p ++ rest) = Some (out, rest)) → reads_as step p out.
Proof.
  intros Hp Hstep rest t Ht. unfold decode. destruct p as [|c p]; [done|].
  cbn [app length decode_loop]. specialize (Hstep rest). cbn [app] in Hstep. rewrite Hstep.
  by rewrite (decode_loop_more (length rest) _ _ t) by (rewrite ?length_app; first [lia|done]).
Qed.

Lemma reads_as_nil : reads_as step [] [].
Proof. by intros rest t. Qed.

Lemma reads_as_app p q a b : reads_as step p a → reads_as step q b → reads_as step (p ++ q) (a ++ b).
Proof. intros Hp Hq rest t Ht. rewrite <-!app_assoc. by apply Hp, Hq. Qed.

Lemma reads_as_bind {X} (piece out : X → bytes) l :
  Forall (λ x, reads_as step (piece x) (out x)) l → reads_as step (l ≫= piece) (l ≫= out).
Proof.
  induction 1; [apply reads_as_nil|]. rewrite !bind_cons. by apply reads_as_app.
Qed.

Lemma reads_as_decode p out : reads_as step p out → decode step p = Some out.
Proof. intros Hp. rewrite <-(app_nil_r p), <-(app_nil_r out). by apply Hp. Qed.

End reader.

#[export] Hint Resolve reads_as_nil reads_as_app : reading.

Lemma bind_single (s : bytes) : (s ≫= λ c, [c]) = s.
Proof. induction s as [|c s IH]; [done|]. rewrite bind_cons. by rewrite IH. Qed.

(** The first bytes of a text that pass a test, and what is left. *)
Fixpoint span (f : Z → bool) (s : bytes) : bytes * bytes :=
  match s with
  | c :: s' => if f c then let '(a, b) := span f s' in (c :: a, b) else ([], s)
  | [] => ([], [])
  end.

Lemma span_app f a b :
  forallb f a = true → match b with c :: _ => f c = false | [] => True end → span f (a ++ b) = (a, b).
Proof.
  induction a as [|c a IH]; simpl; intros Ha Hb.
  - destruct b as [|c b]; [done|]. simpl. by rewrite Hb.
  - apply andb_true_iff in Ha as [-> Ha]. by rewrite IH.
Qed.

(** What [p] leaves of a text it opens. *)
Fixpoint strip_prefix (p s : bytes) : option bytes :=
  match p, s with
  | [], _ => Some s
  | x :: p, y :: s => if x =? y then strip_prefix p s else None
  | _ :: _, [] => None
  end.

(** A claim of every byte is checked at each. *)
Lemma byte_check (f : Z → bool) : forallb f (seqZ 0 256) = true → ∀ c, is_byte c → f c = true.
Proof.
  intros Hall%forallb_Forall c Hc. rewrite Forall_forall in Hall.
  apply Hall, elem_of_seqZ. unfold is_byte in Hc. lia.
Qed.

(** ** URLs *)

(** Percent-encoding (RFC 3986). *)
Definition percent_step (s : bytes) : option (bytes * bytes) :=
  match s with
  | [] => None
  | c :: rest =>
      if negb (c =? 0x25) then Some ([c], rest)
      else
        match rest with
        | a :: b :: rest =>
            if (hex_value a <? 0) || (hex_value b <? 0) then None
            else Some ([hex_value a * 16 + hex_value b], rest)
        | _ => None
        end
  end.

(** A piece that is a byte, or the escape of one. *)
Lemma percent_piece_step p c :
  match p with
  | [x] => negb (x =? 0x25) && (x =? c)
  | [q; a; b] => (q =? 0x25) && (0 <=? hex_value a) && (0 <=? hex_value b) && (hex_value a * 16 + hex_value b =? c)
  | _ => false
  end = true → reads_as percent_step p [c].
Proof.
  intros Hp. destruct p as [|x [|a [|b []]]]; try done.
  - apply andb_true_iff in Hp as [Hx ->%Z.eqb_eq]. apply reads_as_step; [done|].
    intros rest. simpl. by rewrite Hx.
  - apply andb_true_iff in Hp as [[[->%Z.eqb_eq Ha%Z.leb_le]%andb_true_iff Hb%Z.leb_le]%andb_true_iff Hab%Z.eqb_eq].
    apply reads_as_step; [done|]. intros rest. simpl.
    by rewrite !(proj2 (Z.ltb_ge _ _)), Hab by done.
Qed.

Fixpoint split_on (c : Z) (s : bytes) : list bytes :=
  match s with
  | [] => [[]]
  | x :: s =>
      if x =? c then [] :: split_on c s
      else match split_on c s with p :: ps => (x :: p) :: ps | [] => [[x]] end
  end.

Definition parse_pair (p : bytes) : option (bytes * bytes) :=
  let '(name, rest) := span (λ c, negb (c =? 0x3d)) p in
  match rest with
  | _ :: value => n ← decode percent_step name; v ← decode percent_step value; Some (n, v)
  | [] => None
  end.

(** A query's pairs: none in an empty one. *)
Definition parse_query (s : bytes) : option (list (bytes * bytes)) :=
  if bool_decide (s = []) then Some [] else mapM parse_pair (split_on 0x26 s).

Lemma split_on_app c p s :
  forallb (λ x, negb (x =? c)) p = true →
  split_on c (p ++ s) = match split_on c s with q :: qs => (p ++ q) :: qs | [] => [p] end.
Proof.
  assert (∀ s, split_on c s ≠ []) as Hne.
  { intros [|x s']; [done|]. simpl. destruct (x =? c); [done|]. by destruct (split_on c s'). }
  induction p as [|x p IH]; intros Hp; csimpl.
  - specialize (Hne s). by destruct (split_on c s).
  - apply andb_true_iff in Hp as [Hx%negb_true_iff Hp]. rewrite Hx, IH by done.
    by destruct (split_on c s).
Qed.
