(* ===== verification/Utf8.v ===== *)
(** * UTF-8 and UTF-16: [core/json.c]

    [is_utf8], [code_point] and [compare_utf16] over the bytes of a string,
    and what they are to mean: a string is UTF-8 when it is the encoding of
    some scalar values, and RFC 8785 orders keys by their UTF-16 code units. *)

From S2P Require Import Prelude.

Local Open Scope Z_scope.

(** ** The code *)

(** What [is_utf8] learns from a lead byte: how many bytes follow it, and
    the least and greatest the first of them may be. *)
Definition lead (c : Z) : option (nat * Z * Z) :=
  let lo := 0x80 in
  let hi := 0xbf in
  if (0xc2 <=? c) && (c <=? 0xdf) then Some (1%nat, lo, hi)
  else if (0xe0 <=? c) && (c <=? 0xef) then
    Some (2%nat, if c =? 0xe0 then 0xa0 else lo, if c =? 0xed then 0x9f else hi)
  else if (0xf0 <=? c) && (c <=? 0xf4) then
    Some (3%nat, if c =? 0xf0 then 0x90 else lo, if c =? 0xf4 then 0x8f else hi)
  else None.

(** One turn of [is_utf8]'s loop at the bytes [s] that are left: the length
    of the sequence they open with, or [None] where it is malformed. *)
Definition sequence (s : bytes) : option nat :=
  let c := s !!! 0%nat in
  if c <? 0x80 then Some 1%nat
  else
    match lead c with
    | None => None
    | Some (need, lo, hi) =>
        if (length s <=? need)%nat then None
        else if ((s !!! 1%nat) <? lo) || (hi <? (s !!! 1%nat)) then None
        else if existsb (λ k : nat, ((s !!! k) <? 0x80) || (0xbf <? (s !!! k))) (seq 2 (need - 1)) then None
        else Some (need + 1)%nat
    end.

(** The loop; every turn drops a byte, so the length is fuel enough. *)
Fixpoint is_utf8_loop (fuel : nat) (s : bytes) : bool :=
  match s, fuel with
  | [], _ => true
  | _, O => false
  | _, S fuel =>
      match sequence s with
      | Some step => is_utf8_loop fuel (drop step s)
      | None => false
      end
  end.

Definition is_utf8 (s : bytes) : bool := is_utf8_loop (length s) s.

(** The code point of the sequence [s] opens with, which is well formed. *)
Definition code_point (s : bytes) : Z :=
  if (s !!! 0%nat) <? 0x80 then s !!! 0%nat
  else if (s !!! 0%nat) <? 0xe0 then
    Z.lor (Z.shiftl (Z.land (s !!! 0%nat) 0x1f) 6) (Z.land (s !!! 1%nat) 0x3f)
  else if (s !!! 0%nat) <? 0xf0 then
    Z.lor (Z.lor (Z.shiftl (Z.land (s !!! 0%nat) 0x0f) 12)
                 (Z.shiftl (Z.land (s !!! 1%nat) 0x3f) 6))
          (Z.land (s !!! 2%nat) 0x3f)
  else
    Z.lor (Z.lor (Z.lor (Z.shiftl (Z.land (s !!! 0%nat) 0x07) 18)
                        (Z.shiftl (Z.land (s !!! 1%nat) 0x3f) 12))
                 (Z.shiftl (Z.land (s !!! 2%nat) 0x3f) 6))
          (Z.land (s !!! 3%nat) 0x3f).

(** The sign C's [(x > y) - (x < y)] gives. *)
Definition sign_of (x y : Z) : Z := Z.b2z (y <? x) - Z.b2z (x <? y).

(** How many of the first bytes two strings share. *)
Fixpoint shared (a b : bytes) : nat :=
  match a, b with
  | x :: a, y :: b => if x =? y then S (shared a b) else O
  | _, _ => O
  end.

(** Back from [i] to where its character starts. *)
Fixpoint char_start (a : bytes) (i : nat) : nat :=
  match i with
  | O => O
  | S j => if Z.land (a !!! i) 0xc0 =? 0x80 then char_start a j else i
  end.

Definition compare_utf16 (a b : bytes) : Z :=
  let i := shared a b in
  if (i =? length a `min` length b)%nat then
    sign_of (Z.of_nat (length a)) (Z.of_nat (length b))
  else
    let i := char_start a i in
    let x := code_point (drop i a) in
    let y := code_point (drop i b) in
    if xorb (0xffff <? x) (0xffff <? y) then
      let bmp := if 0xffff <? x then y else x in
      let pair_first := if 0xe000 <=? bmp then -1 else 1 in
      if 0xffff <? x then pair_first else - pair_first
    else sign_of x y.

(** ** What it means *)

(** A Unicode scalar value: a code point that is no surrogate. *)
Definition scalar (c : Z) : Prop := 0 ≤ c < 0xd800 ∨ 0xe000 ≤ c < 0x110000.

(** RFC 3629: the bytes of a scalar value. *)
Definition utf8_char (c : Z) : bytes :=
  if c <? 0x80 then [c]
  else if c <? 0x800 then [0xc0 + c / 0x40; 0x80 + c mod 0x40]
  else if c <? 0x10000 then
    [0xe0 + c / 0x1000; 0x80 + c / 0x40 mod 0x40; 0x80 + c mod 0x40]
  else
    [0xf0 + c / 0x40000; 0x80 + c / 0x1000 mod 0x40; 0x80 + c / 0x40 mod 0x40; 0x80 + c mod 0x40].

Definition utf8_encode (cs : list Z) : bytes := cs ≫= utf8_char.

(** A scalar value's UTF-16 code units: past U+FFFF, a surrogate pair. *)
Definition utf16_units (c : Z) : list Z :=
  if c <? 0x10000 then [c]
  else [0xd800 + (c - 0x10000) / 0x400; 0xdc00 + (c - 0x10000) mod 0x400].

(** Lexicographic order, as a sign. *)
Fixpoint lex_sign (a b : list Z) : Z :=
  match a, b with
  | [], [] => 0
  | [], _ :: _ => -1
  | _ :: _, [] => 1
  | x :: a, y :: b => if x =? y then lex_sign a b else sign_of x y
  end.

(** ** Sequences *)

Lemma utf8_char_bytes c : scalar c → all_bytes (utf8_char c).
Proof.
  unfold scalar, utf8_char, is_byte. intros Hc. zcases; repeat constructor; zdiv.
Qed.

Lemma utf8_char_length c : scalar c → (1 ≤ length (utf8_char c) ≤ 4)%nat.
Proof. unfold utf8_char. intros _. zcases; simpl; lia. Qed.

(** A byte that continues a character is known by its top bits. *)
Lemma continues_iff b : is_byte b → (Z.land b 0xc0 =? 0x80) = (0x80 <=? b) && (b <? 0xc0).
Proof.
  unfold is_byte. intros Hb.
  assert (Forall (λ b, (Z.land b 0xc0 =? 0x80) = (0x80 <=? b) && (b <? 0xc0)) (seqZ 0 256)) as H.
  { apply (bool_decide_unpack _). vm_compute. exact I. }
  rewrite Forall_forall in H. apply H, elem_of_seqZ. lia.
Qed.

(** The code point of a scalar value's bytes, whatever follows them. *)
Lemma code_point_char c rest : scalar c → code_point (utf8_char c ++ rest) = c.
Proof.
  intros Hc. unfold utf8_char, scalar in *.
  zcases; unfold code_point; simpl; ztest; [done|..].
  all: rewrite ?(land_low _ 5 0x1f), ?(land_low _ 6 0x3f), ?(land_low _ 4 0x0f),
    ?(land_low _ 3 0x07), ?Z.shiftl_mul_pow2 by done.
  - rewrite (lor_low _ _ 6) by zdiv. zdiv.
  - rewrite (lor_low (_ * _) (_ * _) 12), (lor_low _ _ 6) by zdiv. zdiv.
  - rewrite (lor_low (_ * _) (_ * _) 18), (lor_low (_ + _) (_ * _) 12), (lor_low _ _ 6) by zdiv. zdiv.
Qed.

Lemma sequence_2 b0 b1 s :
  0xc2 ≤ b0 ≤ 0xdf → 0x80 ≤ b1 ≤ 0xbf → sequence (b0 :: b1 :: s) = Some 2%nat.
Proof.
  intros H0 H1. unfold sequence, lead. simpl.
  rewrite (proj2 (Z.ltb_ge b0 0x80)), !(proj2 (Z.leb_le _ _)) by lia. simpl.
  by rewrite !(proj2 (Z.ltb_ge _ _)) by lia.
Qed.

Lemma sequence_3 b0 b1 b2 s :
  0xe0 ≤ b0 ≤ 0xef → (if b0 =? 0xe0 then 0xa0 else 0x80) ≤ b1 ≤ (if b0 =? 0xed then 0x9f else 0xbf) →
  0x80 ≤ b2 ≤ 0xbf → sequence (b0 :: b1 :: b2 :: s) = Some 3%nat.
Proof.
  intros H0 H1 H2. unfold sequence, lead. simpl.
  rewrite (proj2 (Z.ltb_ge b0 0x80)), (proj2 (Z.leb_gt b0 0xdf)), andb_false_r by lia.
  rewrite !(proj2 (Z.leb_le _ _)) by lia. simpl.
  by rewrite !(proj2 (Z.ltb_ge _ _)) by lia.
Qed.

Lemma sequence_4 b0 b1 b2 b3 s :
  0xf0 ≤ b0 ≤ 0xf4 → (if b0 =? 0xf0 then 0x90 else 0x80) ≤ b1 ≤ (if b0 =? 0xf4 then 0x8f else 0xbf) →
  0x80 ≤ b2 ≤ 0xbf → 0x80 ≤ b3 ≤ 0xbf → sequence (b0 :: b1 :: b2 :: b3 :: s) = Some 4%nat.
Proof.
  intros H0 H1 H2 H3. unfold sequence, lead. simpl.
  rewrite (proj2 (Z.ltb_ge b0 0x80)), (proj2 (Z.leb_gt b0 0xdf)), (proj2 (Z.leb_gt b0 0xef)),
    !andb_false_r by lia.
  rewrite !(proj2 (Z.leb_le _ _)) by lia. simpl.
  by rewrite !(proj2 (Z.ltb_ge _ _)) by lia.
Qed.

Lemma sequence_char c rest :
  scalar c → sequence (utf8_char c ++ rest) = Some (length (utf8_char c)).
Proof.
  intros Hc. unfold utf8_char, scalar in *. zcases; simpl.
  - unfold sequence. simpl. by rewrite (proj2 (Z.ltb_lt _ _)).
  - apply sequence_2; zdiv.
  - apply sequence_3; [zdiv| |zdiv]. zcases; zdiv.
  - apply sequence_4; [zdiv| |zdiv..]. zcases; zdiv.
Qed.

(** The bytes of a sequence the loop takes. *)
Lemma sequence_inv b0 s k :
  is_byte b0 → sequence (b0 :: s) = Some k →
  (k = 1%nat ∧ b0 < 0x80) ∨
  (k = 2%nat ∧ 0xc2 ≤ b0 ≤ 0xdf ∧ ∃ b1 r, s = b1 :: r ∧ 0x80 ≤ b1 ≤ 0xbf) ∨
  (k = 3%nat ∧ 0xe0 ≤ b0 ≤ 0xef ∧ ∃ b1 b2 r, s = b1 :: b2 :: r ∧
    (if b0 =? 0xe0 then 0xa0 else 0x80) ≤ b1 ≤ (if b0 =? 0xed then 0x9f else 0xbf) ∧
    0x80 ≤ b2 ≤ 0xbf) ∨
  (k = 4%nat ∧ 0xf0 ≤ b0 ≤ 0xf4 ∧ ∃ b1 b2 b3 r, s = b1 :: b2 :: b3 :: r ∧
    (if b0 =? 0xf0 then 0x90 else 0x80) ≤ b1 ≤ (if b0 =? 0xf4 then 0x8f else 0xbf) ∧
    0x80 ≤ b2 ≤ 0xbf ∧ 0x80 ≤ b3 ≤ 0xbf).
Proof.
  intros Hb0 H. unfold sequence in H. change ((b0 :: s) !!! 0%nat) with b0 in H.
  destruct (Z.ltb_spec b0 0x80); [left; by injection H as <-|right].
  destruct (lead b0) as [[[need lo] hi]|] eqn:Hl; [|done].
  destruct (Nat.leb_spec (length (b0 :: s)) need) as [|Hlen]; [done|].
  destruct (_ || _) eqn:H1 in H; [done|]. apply orb_false_iff in H1 as [Hlo Hhi].
  destruct (existsb _ _) eqn:Hx in H; [done|]. injection H as <-.
  apply Z.ltb_ge in Hlo, Hhi.
  unfold lead in Hl.
  destruct (Z.leb_spec 0xc2 b0), (Z.leb_spec b0 0xdf); simpl in Hl; try done.
  { injection Hl as <- <- <-. left. destruct s as [|b1 s]; [simpl in Hlen; lia|]. simpl in *.
    split_and!; [done..|]. eauto with lia. }
  all: right; destruct (Z.leb_spec 0xe0 b0), (Z.leb_spec b0 0xef); simpl in Hl; try lia; try done.
  { injection Hl as <- <- <-. left. destruct s as [|b1 [|b2 s]]; simpl in Hlen; [lia..|]. simpl in *.
    rewrite orb_false_r in Hx. apply orb_false_iff in Hx as [? ?]. rewrite !Z.ltb_ge in *.
    split_and!; [done..|]. exists b1, b2, s. done. }
  all: right; destruct (Z.leb_spec 0xf0 b0), (Z.leb_spec b0 0xf4); simpl in Hl; try lia; try done.
  injection Hl as <- <- <-. destruct s as [|b1 [|b2 [|b3 s]]]; simpl in Hlen; [lia..|]. simpl in *.
  rewrite orb_false_r, !orb_false_iff, !Z.ltb_ge in Hx.
  split_and!; [done..|]. destruct Hx as [[? ?] [? ?]]. exists b1, b2, b3, s. split_and!; done || lia.
Qed.

Lemma sequence_some s k :
  all_bytes s → s ≠ [] → sequence s = Some k →
  ∃ c rest, scalar c ∧ s = utf8_char c ++ rest ∧ k = length (utf8_char c).
Proof.
  intros Hs Hne H. destruct s as [|b0 s]; [done|]. apply Forall_cons in Hs as [Hb0 _].
  destruct (sequence_inv _ _ _ Hb0 H) as
    [[-> ?]|[(-> & ? & b1 & r & -> & ?)|[(-> & ? & b1 & b2 & r & -> & H1 & ?)|
     (-> & ? & b1 & b2 & b3 & r & -> & H1 & ? & ?)]]]; unfold is_byte in Hb0.
  - exists b0, s. unfold scalar, utf8_char. rewrite (proj2 (Z.ltb_lt _ _)) by lia.
    split_and!; [lia|done..].
  - exists ((b0 - 0xc0) * 0x40 + (b1 - 0x80)), r. unfold scalar, utf8_char.
    ztest. split_and!; [lia| |done]. simpl. repeat f_equal; zdiv.
  - exists ((b0 - 0xe0) * 0x1000 + (b1 - 0x80) * 0x40 + (b2 - 0x80)), r. unfold scalar, utf8_char.
    zcases_in H1; try lia; ztest;
      (split_and!; [lia| |done]); simpl; repeat f_equal; zdiv.
  - exists ((b0 - 0xf0) * 0x40000 + (b1 - 0x80) * 0x1000 + (b2 - 0x80) * 0x40 + (b3 - 0x80)), r.
    unfold scalar, utf8_char.
    zcases_in H1; try lia; ztest;
      (split_and!; [lia| |done]); simpl; repeat f_equal; zdiv.
Qed.

(** ** The whole string *)

Lemma utf8_encode_cons c cs : utf8_encode (c :: cs) = utf8_char c ++ utf8_encode cs.
Proof. done. Qed.

Lemma is_utf8_loop_encode cs fuel :
  Forall scalar cs → (length (utf8_encode cs) ≤ fuel)%nat →
  is_utf8_loop fuel (utf8_encode cs) = true.
Proof.
  revert fuel. induction cs as [|c cs IH]; intros fuel Hcs Hf; [by destruct fuel|].
  apply Forall_cons in Hcs as [Hc Hcs]. rewrite utf8_encode_cons in *.
  rewrite length_app in Hf. pose proof (utf8_char_length c Hc) as Hl.
  destruct fuel as [|fuel]; [lia|]. destruct (utf8_char c ++ utf8_encode cs) as [|b s] eqn:E.
  { apply (f_equal length) in E. rewrite length_app in E. simpl in E. lia. }
  simpl. rewrite <- E, sequence_char, drop_app_length by done. apply IH; [done|lia].
Qed.

Lemma is_utf8_loop_some fuel s :
  all_bytes s → is_utf8_loop fuel s = true → ∃ cs, Forall scalar cs ∧ s = utf8_encode cs.
Proof.
  revert s. induction fuel as [|fuel IH]; intros s Hs H.
  { destruct s; [by exists []|done]. }
  destruct s as [|b s']; [by exists []|]. remember (b :: s') as s eqn:E.
  assert (∃ step, sequence s = Some step ∧ is_utf8_loop fuel (drop step s) = true) as (k & Hk & Hd).
  { subst s. simpl in H. destruct (sequence _); eauto; done. }
  apply sequence_some in Hk as (c & rest & Hc & -> & ->); [|done|by subst].
  rewrite drop_app_length in Hd. apply Forall_app in Hs as [_ Hs].
  destruct (IH _ Hs Hd) as (cs & Hcs & ->). exists (c :: cs). by split; [constructor|].
Qed.

Lemma is_utf8_encode cs : Forall scalar cs → is_utf8 (utf8_encode cs) = true.
Proof. intros H. by apply is_utf8_loop_encode. Qed.

Lemma is_utf8_some s :
  all_bytes s → is_utf8 s = true → ∃ cs, Forall scalar cs ∧ s = utf8_encode cs.
Proof. apply is_utf8_loop_some. Qed.

(** ** Comparison *)

Lemma shared_app x a b : shared (x ++ a) (x ++ b) = (length x + shared a b)%nat.
Proof. induction x as [|c x IH]; simpl; [done|]. by rewrite Z.eqb_refl, IH. Qed.

Lemma shared_sym a b : shared a b = shared b a.
Proof.
  revert b. induction a as [|x a IH]; intros [|y b]; simpl; try done.
  rewrite Z.eqb_sym, IH. done.
Qed.

Lemma shared_le a b : (shared a b ≤ length a `min` length b)%nat.
Proof.
  revert b. induction a as [|x a IH]; intros [|y b]; simpl; try lia.
  specialize (IH b). case_match; simpl; lia.
Qed.

(** What one string shares all of opens the other. *)
Lemma shared_prefix p a q : (length p ≤ shared (p ++ a) q)%nat → ∃ r, q = p ++ r.
Proof.
  revert q. induction p as [|c p IH]; intros q H; [by exists q|].
  destruct q as [|d q]; simpl in H; [lia|]. destruct (Z.eqb_spec c d) as [->|]; [|simpl in H; lia].
  destruct (IH q) as [r ->]; [lia|]. by exists r.
Qed.

Lemma utf8_char_cons c : utf8_char c ≠ [].
Proof. unfold utf8_char. by zcases. Qed.

(** No byte but a character's first continues one. *)
Lemma utf8_char_first c rest :
  scalar c → (Z.land ((utf8_char c ++ rest) !!! 0%nat) 0xc0 =? 0x80) = false.
Proof.
  intros Hc. pose proof (utf8_char_bytes c Hc) as Hb. unfold scalar in Hc.
  destruct (utf8_char c) as [|b0 r] eqn:E; [by destruct (utf8_char_cons c)|].
  apply Forall_cons in Hb as [Hb _]. simpl. rewrite continues_iff by done.
  unfold utf8_char in E. zcases_in E; injection E as <- ?; zcases; simpl; done || zdiv.
Qed.

Lemma utf8_char_rest c rest i :
  scalar c → (0 < i < length (utf8_char c))%nat →
  (Z.land ((utf8_char c ++ rest) !!! i) 0xc0 =? 0x80) = true.
Proof.
  intros Hc Hi. pose proof (utf8_char_bytes c Hc) as Hb.
  rewrite lookup_total_app_l by lia.
  assert (∃ x, utf8_char c !! i = Some x) as [x Hx] by (apply lookup_lt_is_Some; lia).
  rewrite (list_lookup_total_correct _ _ _ Hx).
  rewrite Forall_lookup in Hb. rewrite continues_iff by (by eapply Hb).
  unfold scalar, utf8_char in *. apply andb_true_iff. rewrite Z.leb_le, Z.ltb_lt.
  zcases_in Hx; simpl in Hi; destruct i as [|[|[|[|i]]]]; try lia; injection Hx as <-; zdiv.
Qed.

Lemma char_start_char c rest i :
  scalar c → (i < length (utf8_char c))%nat → char_start (utf8_char c ++ rest) i = O.
Proof.
  intros Hc. induction i as [|i IH]; intros Hi; [done|].
  cbn [char_start]. rewrite utf8_char_rest by (done || lia). apply IH. lia.
Qed.

Lemma char_start_app x a i :
  (i < length a)%nat → (Z.land (a !!! 0%nat) 0xc0 =? 0x80) = false →
  char_start (x ++ a) (length x + i) = (length x + char_start a i)%nat.
Proof.
  intros Hi Ha. induction i as [|i IH].
  - rewrite Nat.add_0_r. destruct (length x) as [|n] eqn:E; [done|]. cbn [char_start].
    rewrite lookup_total_app_r by lia. rewrite E, Nat.sub_diag, Ha. simpl. lia.
  - rewrite Nat.add_succ_r. cbn [char_start]. rewrite lookup_total_app_r by lia.
    replace (S (length x + i) - length x)%nat with (S i) by lia.
    case_match; [apply IH; lia|lia].
Qed.

Lemma utf8_encode_first cs :
  Forall scalar cs → (0 < length (utf8_encode cs))%nat →
  (Z.land (utf8_encode cs !!! 0%nat) 0xc0 =? 0x80) = false.
Proof.
  intros Hcs Hl. destruct cs as [|c cs]; [simpl in Hl; lia|].
  apply Forall_cons in Hcs as [Hc _]. by apply utf8_char_first.
Qed.

(** Where the first characters differ, so does one of their bytes. *)
Lemma shared_chars c d a b :
  scalar c → scalar d → c ≠ d →
  (shared (utf8_char c ++ a) (utf8_char d ++ b) < length (utf8_char c) `min` length (utf8_char d))%nat.
Proof.
  intros Hc Hd Hne. set (k := shared _ _).
  assert (¬ (length (utf8_char c) ≤ k))%nat as Hk.
  { intros Hk. apply shared_prefix in Hk as [r Hr]. apply (f_equal code_point) in Hr.
    by rewrite !code_point_char in Hr. }
  assert (¬ (length (utf8_char d) ≤ k))%nat as Hk'.
  { unfold k. rewrite shared_sym. intros Hk'. apply shared_prefix in Hk' as [r Hr].
    apply (f_equal code_point) in Hr. by rewrite !code_point_char in Hr. }
  lia.
Qed.

(** A character both keys open with says nothing of their order. *)
Lemma compare_utf16_same x a b :
  ((0 < length a)%nat → (Z.land (a !!! 0%nat) 0xc0 =? 0x80) = false) →
  compare_utf16 (x ++ a) (x ++ b) = compare_utf16 a b.
Proof.
  intros Ha. unfold compare_utf16. rewrite shared_app, !length_app.
  pose proof (shared_le a b).
  destruct (Nat.eqb_spec (length x + shared a b) ((length x + length a) `min` (length x + length b))),
    (Nat.eqb_spec (shared a b) (length a `min` length b)); try lia.
  - unfold sign_of. zcases; simpl; lia.
  - rewrite char_start_app by (lia || apply Ha; lia).
    by rewrite !drop_app_add'.
Qed.

(** The order of two different characters is that of their units. *)
Lemma units_order c d cs ds :
  scalar c → scalar d → c ≠ d →
  lex_sign (utf16_units c ++ cs) (utf16_units d ++ ds)
  = if xorb (0xffff <? c) (0xffff <? d) then
      let bmp := if 0xffff <? c then d else c in
      let pair_first := if 0xe000 <=? bmp then -1 else 1 in
      if 0xffff <? c then pair_first else - pair_first
    else sign_of c d.
Proof.
  unfold scalar, utf16_units. intros Hc Hd Hne.
  destruct (Z.ltb_spec c 0x10000), (Z.ltb_spec d 0x10000); simpl; ztest; simpl; [done|..].
  - unfold sign_of. zcases; simpl; zdiv.
  - unfold sign_of. zcases; simpl; zdiv.
  - unfold sign_of. zcases; simpl; zdiv.
Qed.

(** Where two strings first differ, their code units do. *)
Lemma compare_units cs ds :
  Forall scalar cs → Forall scalar ds →
  compare_utf16 (utf8_encode cs) (utf8_encode ds)
  = lex_sign (cs ≫= utf16_units) (ds ≫= utf16_units).
Proof.
  intros Hcs. revert ds. induction Hcs as [|c cs Hc Hcs IH]; intros ds Hds.
  { destruct Hds as [|d ds Hd Hds]; [done|]. rewrite utf8_encode_cons.
    unfold compare_utf16. pose proof (utf8_char_length d Hd).
    destruct (utf8_char d) eqn:E; [simpl in *; lia|]. simpl. unfold utf16_units. by zcases. }
  destruct Hds as [|d ds Hd Hds].
  { rewrite utf8_encode_cons. unfold compare_utf16. pose proof (utf8_char_length c Hc).
    destruct (utf8_char c) eqn:E; [simpl in *; lia|]. simpl. unfold utf16_units. by zcases. }
  rewrite !utf8_encode_cons, !bind_cons. destruct (decide (c = d)) as [<-|Hne].
  { rewrite compare_utf16_same by (intros; by apply utf8_encode_first). rewrite IH by done.
    unfold utf16_units at 3 5. zcases; simpl; by rewrite ?Z.eqb_refl. }
  pose proof (shared_chars c d (utf8_encode cs) (utf8_encode ds) Hc Hd Hne) as Hk.
  unfold compare_utf16. rewrite !length_app.
  destruct (Nat.eqb_spec (shared (utf8_char c ++ utf8_encode cs) (utf8_char d ++ utf8_encode ds))
    ((length (utf8_char c) + length (utf8_encode cs)) `min`
     (length (utf8_char d) + length (utf8_encode ds)))); [lia|].
  rewrite char_start_char by (done || lia). rewrite !drop_0, !code_point_char by done.
  by rewrite units_order.
Qed.

Lemma units_some c : ∃ x l, utf16_units c = x :: l.
Proof. unfold utf16_units. case_match; eauto. Qed.

(** A string's code units name it. *)
Lemma units_inj cs ds :
  Forall scalar cs → Forall scalar ds → cs ≫= utf16_units = ds ≫= utf16_units → cs = ds.
Proof.
  intros Hcs. revert ds. induction Hcs as [|c cs Hc Hcs IH]; intros ds Hds E.
  { destruct Hds as [|d ds Hd Hds]; [done|]. rewrite bind_cons in E. by destruct (units_some d) as (x & l & Hx); rewrite Hx in E. }
  destruct Hds as [|d ds Hd Hds].
  { rewrite bind_cons in E. by destruct (units_some c) as (x & l & Hx); rewrite Hx in E. }
  rewrite !bind_cons in E. unfold scalar in Hc, Hd.
  specialize (IH ds Hds). revert E IH. generalize (cs ≫= utf16_units) (ds ≫= utf16_units). intros l l' E IH.
  unfold utf16_units in E.
  destruct (Z.ltb_spec c 0x10000), (Z.ltb_spec d 0x10000); simpl in E.
  - injection E as -> E. f_equal. by apply IH.
  - injection E as E1 E. zdiv.
  - injection E as E1 E. zdiv.
  - injection E as E1 E2 E. f_equal; [zdiv|by apply IH].
Qed.

Lemma compare_utf16_zero a b :
  all_bytes a → all_bytes b → is_utf8 a = true → is_utf8 b = true → compare_utf16 a b = 0 → a = b.
Proof.
  intros Ha Hb (cs & Hcs & ->)%is_utf8_some (ds & Hds & ->)%is_utf8_some; [|done..].
  rewrite compare_units by done. intros E. f_equal. apply units_inj; [done..|].
  revert E. generalize (cs ≫= utf16_units) (ds ≫= utf16_units). clear.
  induction l as [|x l IH]; intros [|y l']; simpl; try done.
  destruct (Z.eqb_spec x y) as [->|]; [intros E; f_equal; by apply IH|].
  unfold sign_of. zcases; simpl; lia.
Qed.

(** Two keys are compared by their UTF-16 code units, as RFC 8785 sorts
    an object's members. *)
Theorem compare_utf16_units cs ds :
  Forall scalar cs → Forall scalar ds →
  compare_utf16 (utf8_encode cs) (utf8_encode ds)
  = lex_sign (cs ≫= utf16_units) (ds ≫= utf16_units).
Proof. apply compare_units. Qed.

Lemma compare_utf16_units_witness :
  compare_utf16 (utf8_encode [0x1f600]) (utf8_encode [0xe000]) = -1.
Proof. rewrite compare_utf16_units; [reflexivity|constructor; [right; lia|constructor]..]. Defined.

(** [is_utf8] accepts exactly the encodings of scalar values: no overlong
    form, no surrogate, nothing past U+10FFFF, nothing cut short. *)
Theorem is_utf8_scalars s :
  all_bytes s → is_utf8 s = true ↔ ∃ cs, Forall scalar cs ∧ s = utf8_encode cs.
Proof.
  intros Hs. split; [by apply is_utf8_some|]. intros (cs & Hcs & ->). by apply is_utf8_encode.
Qed.

Lemma is_utf8_scalars_witness :
  is_utf8 [0xed; 0xa0; 0x80] = false ∧
  (is_utf8 [0xf0; 0x9f; 0x98; 0x80] = true ↔
   ∃ cs, Forall scalar cs ∧ [0xf0; 0x9f; 0x98; 0x80] = utf8_encode cs).
Proof.
  split; [reflexivity|]. apply is_utf8_scalars.
  repeat constructor; discriminate.
Defined.
