(* ===== verification/JsonPath.v ===== *)
(** * Where in a value a failure is: [core/json.c], paths

    A JSON Pointer (RFC 6901) of at most 199 bytes, written from the
    innermost segment out: what is in front is cut when it does not fit. *)

From S2P Require Import Prelude.
From S2P Require Import Texts.
From S2P Require Import Utf8.

Local Open Scope Z_scope.

Definition SLASH : Z := 0x2f.
Definition TILDE : Z := 0x7e.

(** ** The code *)

(** [text[0..len)] and [cut] of [struct path]. *)
Record path := Path { p_text : bytes; p_cut : bool }.

(** [sizeof p->text]. *)
Definition PATH_TEXT : nat := 200.

Definition empty_path : path := Path [] false.

(** Room for [n] bytes in front of [p], or the path cut. *)
Definition path_room (p : path) (n : nat) : path * bool :=
  if p_cut p || (PATH_TEXT - length (p_text p) <=? n)%nat then (Path (p_text p) true, false)
  else (p, true).

(** The bytes [s] copied to where [path_room] answers they go. *)
Definition prepend (p : path) (s : bytes) : path :=
  match path_room p (length s) with
  | (p, true) => Path (s ++ p_text p) (p_cut p)
  | (p, false) => p
  end.

Definition prepend_index (p : path) (i : Z) : path := prepend p (SLASH :: decimal i).

Definition KEPT_KEY : nat := 40.

Definition escaped (c : Z) : bool := (c =? TILDE) || (c =? SLASH).

(** One byte of a key as a pointer writes it. *)
Definition escape_byte (c : Z) : bytes :=
  if escaped c then [TILDE; if c =? TILDE then 0x30 else 0x31] else [c].

(** How many bytes a character of lead byte [c] has. *)
Definition width (c : Z) : nat := if 0xf0 <=? c then 4 else if 0xe0 <=? c then 3 else 2.

(** The bytes of the key [s] a cut path keeps after [used] of them; every
    turn drops a byte of [s], so its length is fuel enough. *)
Fixpoint kept (fuel : nat) (s : bytes) (used : nat) : bytes :=
  match s, fuel with
  | [], _ | _, O => []
  | c :: rest, S fuel =>
      if (1 + KEPT_KEY <=? used)%nat then []
      else if escaped c then
        if (1 + KEPT_KEY <? used + 2)%nat then []
        else escape_byte c ++ kept fuel rest (used + 2)
      else if (0x80 <=? c) && (Z.land c 0xc0 =? 0xc0) then
        let w := width c in
        if (length s <? w)%nat || (1 + KEPT_KEY <? used + w)%nat then []
        else take w s ++ kept fuel (drop w s) (used + w)
      else c :: kept fuel rest (used + 1)
  end.

Definition prepend_key (p : path) (s : bytes) : path :=
  let escapes := length (filter (λ c, escaped c = true) s) in
  if bool_decide (p_text p = []) && negb (p_cut p) && (PATH_TEXT <=? 1 + length s + escapes)%nat
  then Path (SLASH :: kept (length s) s 1 ++ lit "...") true
  else
    match path_room p (1 + length s + escapes) with
    | (p, true) => Path (SLASH :: (s ≫= escape_byte) ++ p_text p) (p_cut p)
    | (p, false) => p
    end.

(** [push_pointer_text]: the slash the segment that ends at [start] has in
    front, or the text's start. *)
Fixpoint back_to_slash (s : bytes) (start : nat) : nat :=
  match start with
  | O => O
  | S j => if s !!! j =? SLASH then j else back_to_slash s j
  end.

(** The bytes of a pointer's last segment that are kept: whole escapes and
    whole characters. *)
Fixpoint kept_text (fuel : nat) (s : bytes) (used : nat) : bytes :=
  match s, fuel with
  | [], _ | _, O => []
  | c :: _, S fuel =>
      let step := if c =? TILDE then 2%nat else if c <? 0x80 then 1%nat else width c in
      if (1 + KEPT_KEY <=? used)%nat then []
      else if (length s <? step)%nat || (1 + KEPT_KEY <? used + step)%nat then []
      else take step s ++ kept_text fuel (drop step s) (used + step)
  end.

(** Its loop, with [s[0..fin)] left to put in front of [p]; a segment is
    never empty, so the text's length is fuel enough. *)
Fixpoint pointer_loop (fuel : nat) (s : bytes) (fin : nat) (p : path) : path :=
  match fuel with
  | O => p
  | S fuel =>
      if (fin =? 0)%nat || p_cut p then p
      else
        let slash := back_to_slash s fin in
        let w := (fin - slash)%nat in
        if bool_decide (p_text p = []) && (PATH_TEXT <=? w)%nat then
          Path (SLASH :: kept_text w (take (w - 1) (drop (slash + 1) s)) 1 ++ lit "...") true
        else
          match path_room p w with
          | (p, true) => pointer_loop fuel s slash (Path (take w (drop slash s) ++ p_text p) (p_cut p))
          | (p, false) => p
          end
  end.

Definition pointer_path (s : bytes) : path := pointer_loop (length s) s (length s) empty_path.

Definition QUOTE : Z := 0x22.
Definition BACKSLASH : Z := 0x5c.

Definition u_escape (c : Z) : bytes :=
  [BACKSLASH; 0x75; hex_digit (c / 0x1000 mod 0x10); hex_digit (c / 0x100 mod 0x10);
   hex_digit (c / 0x10 mod 0x10); hex_digit (c mod 0x10)].

Definition message_byte (c : Z) : bytes :=
  if (c =? QUOTE) || (c =? BACKSLASH) then [BACKSLASH; c]
  else if (c <? 0x20) || (c =? 0x7f) then u_escape c
  else [c].

(** The message [push_path] pushes. *)
Definition push_path (p : path) : bytes :=
  (if p_cut p then lit "pointer ending " else lit "pointer ") ++ [QUOTE]
  ++ (p_text p ≫= message_byte) ++ [QUOTE].

Definition push_pointer_text (s : bytes) : bytes := push_path (pointer_path s).

(** [push_placed_path]: under the prefix of the layout, when it has one. *)
Definition push_placed_path (prefix : option bytes) (p : path) : bytes :=
  match prefix with
  | None => push_path p
  | Some prefix => if p_cut p then push_path p else push_pointer_text (prefix ++ p_text p)
  end.

(** ** What a path is to be *)

(** A step from a value into one it holds. *)
Inductive segment := Index (i : Z) | Key (s : bytes).

Definition prepend_segment (g : segment) (p : path) : path :=
  match g with
  | Index i => prepend_index p i
  | Key s => prepend_key p s
  end.

(** The path a walk that fails under [segs], outermost first, is left with:
    each level it returns through puts its own in front. *)
Definition path_of (segs : list segment) : path := foldr prepend_segment empty_path segs.

(** RFC 6901. *)
Definition segment_text (g : segment) : bytes :=
  SLASH :: match g with Index i => decimal i | Key s => s ≫= escape_byte end.

Definition pointer (segs : list segment) : bytes := segs ≫= segment_text.

#[global] Arguments segment_text : simpl never.
#[global] Arguments pointer : simpl never.

(** What a pointer's evaluation reads: the tokens it names, unescaped.
    [tokens_from] answers what is left of the token it is in, and those
    after it. *)
Fixpoint tokens_from (s : bytes) : option (bytes * list bytes) :=
  match s with
  | [] => Some ([], [])
  | c :: s =>
      if c =? SLASH then '(t, ts) ← tokens_from s; Some ([], t :: ts)
      else if c =? TILDE then
        match s with
        | x :: s =>
            '(t, ts) ← tokens_from s;
            if x =? 0x30 then Some (TILDE :: t, ts)
            else if x =? 0x31 then Some (SLASH :: t, ts)
            else None
        | [] => None
        end
      else '(t, ts) ← tokens_from s; Some (c :: t, ts)
  end.

Definition tokens (s : bytes) : option (list bytes) :=
  '(t, ts) ← tokens_from s; if bool_decide (t = []) then Some ts else None.

Definition token (g : segment) : bytes := match g with Index i => decimal i | Key s => s end.

(** ** Decimal text *)

(** ** Pointers *)

Lemma tokens_from_plain s rest t ts :
  Forall (λ c, escaped c = false) s → tokens_from rest = Some (t, ts) →
  tokens_from (s ++ rest) = Some (s ++ t, ts).
Proof.
  intros Hs Hrest. induction Hs as [|c s Hc Hs IH]; [done|]. simpl.
  unfold escaped in Hc. apply orb_false_iff in Hc as [-> ->]. by rewrite IH.
Qed.

Lemma tokens_from_escaped s rest t ts :
  tokens_from rest = Some (t, ts) →
  tokens_from ((s ≫= escape_byte) ++ rest) = Some (s ++ t, ts).
Proof.
  intros Hrest. induction s as [|c s IH]; [done|]. rewrite bind_cons, <- app_assoc.
  remember ((s ≫= escape_byte) ++ rest) as r eqn:Er. clear Er. unfold escape_byte, escaped. destruct (Z.eqb_spec c TILDE) as [->|]; simpl.
  { by rewrite IH. }
  destruct (Z.eqb_spec c SLASH) as [->|]; simpl; [by rewrite IH|].
  rewrite (proj2 (Z.eqb_neq c SLASH)), (proj2 (Z.eqb_neq c TILDE)) by done. by rewrite IH.
Qed.

Lemma tokens_from_pointer segs :
  tokens_from (pointer segs) = Some ([], token <$> segs).
Proof.
  induction segs as [|g segs IH]; [done|]. unfold pointer. rewrite bind_cons. fold (pointer segs).
  simpl. destruct g as [i|s]; simpl.
  - rewrite (tokens_from_plain _ _ [] (token <$> segs)), app_nil_r; [done| |done].
    eapply Forall_impl; [apply decimal_bytes|]. unfold digit, escaped, TILDE, SLASH.
    intros c Hc. simpl in Hc. zcases; simpl; lia || done.
  - by rewrite (tokens_from_escaped _ _ _ _ IH), app_nil_r.
Qed.

(** Evaluating the pointer of a place, as RFC 6901 reads one, names the
    keys and indices that lead to it, whatever bytes the keys hold. *)
Theorem pointer_names_place segs : tokens (pointer segs) = Some (token <$> segs).
Proof. unfold tokens. by rewrite tokens_from_pointer. Qed.

(** ** Paths *)

Lemma length_escaped s :
  length (s ≫= escape_byte) = (length s + length (filter (λ c, escaped c = true) s))%nat.
Proof.
  induction s as [|c s IH]; [done|]. rewrite bind_cons, length_app, IH, filter_cons.
  unfold escape_byte. case_decide as H; [rewrite H|apply not_true_is_false in H; rewrite H];
    simpl; lia.
Qed.

Lemma prepend_key_eq p s :
  prepend_key p s =
  if bool_decide (p_text p = []) && negb (p_cut p)
     && (PATH_TEXT <=? length (segment_text (Key s)))%nat
  then Path (SLASH :: kept (length s) s 1 ++ lit "...") true
  else prepend p (segment_text (Key s)).
Proof.
  unfold prepend_key, prepend, segment_text. cbn [length]. rewrite length_escaped.
  by destruct (_ && _).
Qed.

Lemma kept_length fuel s used :
  (used ≤ 1 + KEPT_KEY → length (kept fuel s used) + used ≤ 1 + KEPT_KEY)%nat.
Proof.
  revert s used. induction fuel as [|fuel IH]; intros s used Hu;
    destruct s as [|c s]; cbn [kept]; [simpl; lia|simpl; lia|simpl; lia|].
  destruct (Nat.leb_spec (1 + KEPT_KEY) used); [simpl; lia|].
  destruct (escaped c) eqn:He.
  { destruct (Nat.ltb_spec (1 + KEPT_KEY) (used + 2)); [simpl; lia|].
    unfold escape_byte. rewrite He. simpl. specialize (IH s (used + 2)%nat). lia. }
  destruct (_ && _).
  { cbn zeta. destruct (_ || _) eqn:Hf; [simpl; lia|]. apply orb_false_iff in Hf as [Hl Hw].
    apply Nat.ltb_ge in Hl, Hw. rewrite length_app, length_take.
    specialize (IH (drop (width c) (c :: s)) (used + width c)%nat). lia. }
  cbn [length]. specialize (IH s (used + 1)%nat). lia.
Qed.

Lemma prepend_spec p s :
  prepend p s =
  if p_cut p || (PATH_TEXT - length (p_text p) <=? length s)%nat then Path (p_text p) true
  else Path (s ++ p_text p) false.
Proof.
  unfold prepend, path_room. destruct p as [t cut]; simpl.
  destruct cut; simpl; [done|]. by destruct (_ <=? _)%nat.
Qed.

Lemma prepend_segment_spec g p :
  prepend_segment g p =
  match g with
  | Key s =>
      if bool_decide (p_text p = []) && negb (p_cut p) && (PATH_TEXT <=? length (segment_text g))%nat
      then Path (SLASH :: kept (length s) s 1 ++ lit "...") true
      else prepend p (segment_text g)
  | Index _ => prepend p (segment_text g)
  end.
Proof. destruct g; [done|apply prepend_key_eq]. Qed.

Lemma pointer_cons g segs : pointer (g :: segs) = segment_text g ++ pointer segs.
Proof. done. Qed.

(** The bounds, the whole pointer and the cuts of a path together. *)
Lemma path_of_shape segs :
  (length (p_text (path_of segs)) < PATH_TEXT)%nat ∧
  if p_cut (path_of segs) then
    (∃ outer g inner, segs = outer ++ g :: inner ∧ p_text (path_of segs) = pointer inner ∧
       (PATH_TEXT ≤ length (pointer (g :: inner)))%nat) ∨
    (∃ outer s, segs = outer ++ [Key s] ∧ (PATH_TEXT ≤ length (pointer [Key s]))%nat ∧
       p_text (path_of segs) = SLASH :: kept (length s) s 1 ++ lit "...")
  else p_text (path_of segs) = pointer segs.
Proof.
  induction segs as [|g segs [Hlen IH]]; [by split; [unfold PATH_TEXT; simpl; lia|]|].
  change (path_of (g :: segs)) with (prepend_segment g (path_of segs)).
  rewrite prepend_segment_spec, prepend_spec. destruct (p_cut (path_of segs)) eqn:Hcut.
  { assert (∀ b, b && negb true && (PATH_TEXT <=? length (segment_text g))%nat = false) as Hb.
    { intros b. by rewrite andb_false_r. }
    replace (match g with Index _ => _ | Key s => _ end)
      with (Path (p_text (path_of segs)) true) by (destruct g; by rewrite ?Hb).
    simpl. split; [done|]. destruct IH as [(outer & g' & inner & -> & ? & ?)|(outer & s & -> & ? & ?)].
    - left. by exists (g :: outer), g', inner.
    - right. by exists (g :: outer), s. }
  rewrite IH, orb_false_l, andb_true_r.
  assert (∀ b : bool, (length (if b then pointer segs else segment_text g ++ pointer segs) < PATH_TEXT)%nat →
    b = (PATH_TEXT - length (pointer segs) <=? length (segment_text g))%nat →
    let p := if b then Path (pointer segs) true else Path (segment_text g ++ pointer segs) false in
    (length (p_text p) < PATH_TEXT)%nat ∧
    if p_cut p then
      (∃ outer g' inner, g :: segs = outer ++ g' :: inner ∧ p_text p = pointer inner ∧
         (PATH_TEXT ≤ length (pointer (g' :: inner)))%nat) ∨
      (∃ outer s, g :: segs = outer ++ [Key s] ∧ (PATH_TEXT ≤ length (pointer [Key s]))%nat ∧
         p_text p = SLASH :: kept (length s) s 1 ++ lit "...")
    else p_text p = pointer (g :: segs)) as Hplain.
  { intros [] Hb Eb; cbn [p_text p_cut]; (split; [done|]); [|done].
    left. exists [], g, segs. split_and!; [done..|]. symmetry in Eb. apply Nat.leb_le in Eb.
    rewrite pointer_cons, length_app. lia. }
  rewrite IH in Hlen.
  assert (∀ b, b = (PATH_TEXT - length (pointer segs) <=? length (segment_text g))%nat →
    (length (if b then pointer segs else segment_text g ++ pointer segs) < PATH_TEXT)%nat) as Hb.
  { intros [] Eb; [done|]. symmetry in Eb. apply Nat.leb_gt in Eb. rewrite length_app. lia. }
  destruct g as [i|s]; [by apply Hplain; [apply Hb|]|].
  destruct (bool_decide (pointer segs = []) && _) eqn:Hs; [|by apply Hplain; [apply Hb|]].
  apply andb_true_iff in Hs as [Hs Hl]. apply bool_decide_eq_true in Hs. apply Nat.leb_le in Hl.
  assert (segs = []) as -> by (by destruct segs).
  cbn [p_text p_cut]. split.
  - cbn [length]. rewrite length_app. pose proof (kept_length (length s) s 1). unfold KEPT_KEY, PATH_TEXT in *.
    simpl. lia.
  - right. exists [], s. split_and!; [done| |done]. rewrite pointer_cons, length_app. lia.
Qed.

(** ** Cut keys *)

(** The characters of a key that are kept. *)
Fixpoint kept_chars (cs : list Z) (used : nat) : list Z :=
  match cs with
  | [] => []
  | c :: cs =>
      let used := (used + length (utf8_char c ≫= escape_byte))%nat in
      if (1 + KEPT_KEY <? used)%nat then [] else c :: kept_chars cs used
  end.

Lemma escape_plain s : Forall (λ c, 0x80 ≤ c) s → (s ≫= escape_byte) = s.
Proof.
  intros Hs. induction Hs as [|c s Hc Hs IH]; [done|]. rewrite bind_cons, IH.
  unfold escape_byte, escaped, TILDE, SLASH. by ztest.
Qed.

Lemma utf8_char_wide c :
  scalar c → 0x80 ≤ c →
  Forall (λ b, 0x80 ≤ b) (utf8_char c) ∧
  ∃ b0 r, utf8_char c = b0 :: r ∧ 0xc0 ≤ b0 < 0x100 ∧ width b0 = length (utf8_char c).
Proof.
  intros Hc H. unfold scalar, utf8_char, width in *. zcases; (split; [repeat constructor; zdiv|]).
  { lia. }
  all: eexists _, _; (split; [reflexivity|]); (split; [zdiv|]); simpl; by ztest.
Qed.

Lemma utf8_char_narrow c : 0 ≤ c < 0x80 → utf8_char c = [c].
Proof. intros H. unfold utf8_char. by ztest. Qed.

Lemma lead_byte_top b : 0xc0 ≤ b < 0x100 → Z.land b 0xc0 = 0xc0.
Proof.
  intros H.
  assert (Forall (λ b, Z.land b 0xc0 = 0xc0) (seqZ 0xc0 0x40)) as Hall.
  { apply (bool_decide_unpack _). vm_compute. exact I. }
  rewrite Forall_forall in Hall. apply Hall, elem_of_seqZ. lia.
Qed.

Lemma length_escape_byte c : length (escape_byte c) = if escaped c then 2%nat else 1%nat.
Proof. unfold escape_byte. by destruct (escaped c). Qed.

Lemma kept_encode fuel cs used :
  Forall scalar cs → (length (utf8_encode cs) ≤ fuel)%nat →
  kept fuel (utf8_encode cs) used = (utf8_encode (kept_chars cs used) ≫= escape_byte).
Proof.
  revert cs used. induction fuel as [|fuel IH]; intros cs used Hcs Hf.
  { destruct cs as [|c cs]; [done|]. apply Forall_cons in Hcs as [Hc _].
    rewrite utf8_encode_cons, length_app in Hf. pose proof (utf8_char_length c Hc). lia. }
  destruct cs as [|c cs]; [done|]. apply Forall_cons in Hcs as [Hc Hcs].
  rewrite utf8_encode_cons in *. rewrite length_app in Hf. cbn [kept_chars].
  destruct (Z_lt_le_dec c 0x80) as [Hlow|Hhigh].
  - rewrite utf8_char_narrow in * by (unfold scalar in Hc; lia). simpl app.
    cbn [kept]. rewrite bind_cons, app_nil_r. cbn [length] in *.
    replace (0x80 <=? c) with false by (by symmetry; apply Z.leb_gt).
    rewrite andb_false_l, length_escape_byte.
    assert (∀ n, (utf8_encode (c :: kept_chars cs n) ≫= escape_byte)
      = escape_byte c ++ (utf8_encode (kept_chars cs n) ≫= escape_byte)) as Hcons.
    { intros n. rewrite utf8_encode_cons, bind_app, utf8_char_narrow, bind_cons, app_nil_r
        by (unfold scalar in Hc; lia). done. }
    destruct (Nat.leb_spec (1 + KEPT_KEY) used).
    { rewrite (proj2 (Nat.ltb_lt _ _)); [done|destruct (escaped c); lia]. }
    destruct (escaped c) eqn:He.
    + destruct (_ <? _)%nat; [done|]. by rewrite IH, Hcons by (done || lia).
    + rewrite (proj2 (Nat.ltb_ge _ _)) by lia. rewrite IH, Hcons by (done || lia).
      unfold escape_byte at 2. by rewrite He.
  - destruct (utf8_char_wide c Hc Hhigh) as (Hall & b0 & r & Eb & Hb0 & Hw).
    rewrite (escape_plain _ Hall).
    pose proof (utf8_char_length c Hc) as Hlen.
    rewrite Eb at 1. simpl app. cbn [kept].
    destruct (Nat.leb_spec (1 + KEPT_KEY) used).
    { by rewrite (proj2 (Nat.ltb_lt _ _)) by lia. }
    unfold escaped at 1. unfold TILDE, SLASH.
    replace ((b0 =? 0x7e) || (b0 =? 0x2f)) with false
      by (symmetry; apply orb_false_iff; rewrite !Z.eqb_neq; lia).
    rewrite lead_byte_top, Z.eqb_refl, (proj2 (Z.leb_le _ _)) by lia. simpl andb. cbn zeta.
    change (b0 :: r ++ utf8_encode cs) with ((b0 :: r) ++ utf8_encode cs). rewrite <- Eb, Hw.
    rewrite length_app, (proj2 (Nat.ltb_ge _ _)) by lia. rewrite orb_false_l.
    destruct (_ <? _)%nat; [done|].
    rewrite take_app_length, drop_app_length, IH by (done || lia).
    by rewrite utf8_encode_cons, bind_app, (escape_plain _ Hall).
Qed.

Lemma kept_text_encode fuel cs used :
  Forall scalar cs → (length (utf8_encode cs ≫= escape_byte) ≤ fuel)%nat →
  kept_text fuel (utf8_encode cs ≫= escape_byte) used
  = (utf8_encode (kept_chars cs used) ≫= escape_byte).
Proof.
  revert cs used. induction fuel as [|fuel IH]; intros cs used Hcs Hf.
  { destruct cs as [|c cs]; [done|]. apply Forall_cons in Hcs as [Hc _].
    rewrite utf8_encode_cons, bind_app, length_app, length_escaped in Hf.
    pose proof (utf8_char_length c Hc). lia. }
  destruct cs as [|c cs]; [done|]. apply Forall_cons in Hcs as [Hc Hcs].
  rewrite utf8_encode_cons, bind_app in *. rewrite length_app in Hf. cbn [kept_chars].
  set (t := utf8_char c ≫= escape_byte) in *.
  assert (∃ b0 r, t = b0 :: r ∧
    length t = if b0 =? TILDE then 2%nat else if b0 <? 0x80 then 1%nat else width b0)
    as (b0 & r & Et & Hstep).
  { unfold t, TILDE. destruct (Z_lt_le_dec c 0x80) as [Hlow|Hhigh].
    - rewrite utf8_char_narrow, bind_cons, app_nil_r by (unfold scalar in Hc; lia).
      unfold escape_byte. destruct (escaped c) eqn:He; [by eexists _, _|].
      unfold escaped, TILDE in He. apply orb_false_iff in He as [He _].
      exists c, []. rewrite He. by ztest.
    - destruct (utf8_char_wide c Hc Hhigh) as (Hall & b & r & Eb & Hb & Hw).
      rewrite escape_plain by done. exists b, r. split; [done|]. rewrite <- Hw. by ztest. }
  rewrite Et at 1. simpl app. cbn [kept_text]. cbn zeta.
  change (b0 :: r ++ ?x) with ((b0 :: r) ++ x). rewrite <- Et, <- Hstep.
  assert (0 < length t)%nat by (rewrite Et; simpl; lia).
  destruct (Nat.leb_spec (1 + KEPT_KEY) used).
  { by rewrite (proj2 (Nat.ltb_lt _ _)) by lia. }
  rewrite length_app, (proj2 (Nat.ltb_ge _ _)), orb_false_l by lia.
  destruct (_ <? _)%nat; [done|].
  rewrite take_app_length, drop_app_length, IH by (done || lia).
  by rewrite utf8_encode_cons, bind_app.
Qed.

(** ** The same rule for a pointer's text *)

Lemma back_to_slash_token a t rest :
  Forall (λ c, c ≠ SLASH) t →
  back_to_slash (a ++ SLASH :: t ++ rest) (length a + 1 + length t) = length a.
Proof.
  revert rest. induction t as [|x t IH] using rev_ind; intros rest Ht.
  - rewrite Nat.add_0_r, Nat.add_1_r. cbn [back_to_slash].
    by rewrite lookup_total_app_r, Nat.sub_diag, Z.eqb_refl by lia.
  - apply Forall_app in Ht as [Ht Hx]. apply Forall_inv in Hx.
    rewrite length_app, (Nat.add_comm (length t)), Nat.add_assoc.
    replace (length a + 1 + length [x] + length t)%nat with (S (length a + 1 + length t))
      by (simpl; lia).
    cbn [back_to_slash].
    replace ((a ++ SLASH :: (t ++ [x]) ++ rest) !!! (length a + 1 + length t)%nat) with x.
    2: { replace (a ++ SLASH :: (t ++ [x]) ++ rest) with ((a ++ SLASH :: t) ++ x :: rest)
           by (by rewrite <- !app_assoc).
         rewrite lookup_total_app_r by (rewrite length_app; simpl; lia).
         rewrite length_app. simpl. by replace (_ - _)%nat with O by lia. }
    apply Z.eqb_neq in Hx as ->. rewrite <- app_assoc. by apply IH.
Qed.

(** What a key must be for the two shortenings to agree: UTF-8, as every
    key of a document read is, and an index's text short. *)
Definition placeable (g : segment) : Prop :=
  match g with
  | Index i => 0 ≤ i < 2 ^ 64
  | Key s => ∃ cs, Forall scalar cs ∧ s = utf8_encode cs
  end.

Lemma escape_no_slash s : Forall (λ c, c ≠ SLASH) (s ≫= escape_byte).
Proof.
  induction s as [|c s IH]; [constructor|]. rewrite bind_cons. apply Forall_app. split; [|done].
  unfold escape_byte, escaped, TILDE, SLASH.
  destruct (Z.eqb_spec c 0x7e) as [->|]; [by repeat constructor|].
  destruct (Z.eqb_spec c 0x2f) as [->|]; simpl; by repeat constructor.
Qed.

Lemma segment_text_token g :
  placeable g → ∃ t, segment_text g = SLASH :: t ∧ Forall (λ c, c ≠ SLASH) t.
Proof.
  intros Hg. destruct g as [i|s]; unfold segment_text; eexists; (split; [done|]).
  - eapply Forall_impl; [apply decimal_digits, Hg|]. unfold digit, SLASH. simpl. lia.
  - apply escape_no_slash.
Qed.

Lemma path_of_cut outer p :
  p_cut p = true → foldr prepend_segment p outer = p.
Proof.
  intros Hp. induction outer as [|g outer IH]; [done|]. simpl.
  rewrite IH, prepend_segment_spec, prepend_spec, Hp.
  assert (Path (p_text p) true = p) as E by (destruct p; simpl in *; by subst).
  destruct g; [done|]. by rewrite andb_false_r.
Qed.

(** The key of a placeable segment is cut to the same text either way. *)
Lemma kept_text_key s :
  placeable (Key s) → kept_text (S (length (s ≫= escape_byte))) (s ≫= escape_byte) 1 = kept (length s) s 1.
Proof.
  intros (cs & Hcs & ->). rewrite kept_text_encode by (done || lia). by rewrite kept_encode.
Qed.

Lemma pointer_loop_path fuel outer rest p :
  Forall placeable outer → (length (pointer outer) ≤ fuel)%nat →
  pointer_loop fuel (pointer outer ++ rest) (length (pointer outer)) p
  = foldr prepend_segment p outer.
Proof.
  revert outer rest p. induction fuel as [|fuel IH]; intros outer rest p Hall Hf.
  { destruct outer as [|g outer]; [done|]. rewrite pointer_cons in Hf.
    unfold segment_text in Hf. simpl in Hf. lia. }
  destruct outer as [|g outer _] using rev_ind; [done|].
  apply Forall_app in Hall as [Hall Hg]. apply Forall_inv in Hg.
  destruct (segment_text_token g Hg) as (t & Et & Ht).
  assert (pointer (outer ++ [g]) = pointer outer ++ segment_text g) as Ep.
  { unfold pointer. by rewrite bind_app, bind_cons, app_nil_r. }
  rewrite Ep in *. rewrite length_app in *. cbn [pointer_loop].
  assert (0 < length (segment_text g))%nat as Hpos by (rewrite Et; simpl; lia).
  rewrite (proj2 (Nat.eqb_neq _ _)) by lia. rewrite orb_false_l.
  destruct (p_cut p) eqn:Hcut; [by rewrite path_of_cut|].
  assert (back_to_slash ((pointer outer ++ segment_text g) ++ rest)
    (length (pointer outer) + length (segment_text g)) = length (pointer outer)) as ->.
  { rewrite Et, <- app_assoc. etrans; [|by apply (back_to_slash_token _ t rest)].
    simpl app. f_equal. cbn [length]. lia. }
  cbn zeta. rewrite Nat.add_comm, Nat.add_sub.
  rewrite <- !app_assoc, drop_app_length, take_app_length, foldr_app. simpl foldr at 2.
  rewrite prepend_segment_spec, prepend_spec, Hcut, andb_true_r, orb_false_l.
  destruct (bool_decide (p_text p = []) && _) eqn:Hs.
  { apply andb_true_iff in Hs as [_ Hs]. apply Nat.leb_le in Hs. destruct g as [i|s].
    { pose proof (decimal_length i Hg). unfold segment_text, PATH_TEXT in Hs. simpl in Hs. lia. }
    rewrite path_of_cut by done.
    assert (∀ b, take (length (segment_text (Key s)) - 1)
      (drop (length (pointer outer) + 1) (pointer outer ++ segment_text (Key s) ++ b))
      = s ≫= escape_byte) as ->.
    { intros b. rewrite <- drop_drop, drop_app_length. unfold segment_text. simpl.
      by rewrite drop_0, Nat.sub_0_r, take_app_length. }
    change (length (segment_text (Key s))) with (S (length (s ≫= escape_byte))).
    by rewrite kept_text_key. }
  unfold path_room. rewrite Hcut, orb_false_l.
  replace (match g with Index _ => _ | Key _ => _ end) with
    (if (PATH_TEXT - length (p_text p) <=? length (segment_text g))%nat
     then Path (p_text p) true else Path (segment_text g ++ p_text p) false) by (by destruct g).
  destruct (PATH_TEXT - length (p_text p) <=? length (segment_text g))%nat.
  { by rewrite path_of_cut. }
  rewrite Hcut. apply IH; [done|lia].
Qed.

(** A failure's message bounds its pointer and never misplaces it.  The
    text is under 200 bytes; uncut, it is the whole pointer; cut, it is the
    whole pointer of the innermost segments that fit, or the innermost key
    alone shortened. *)
Theorem path_is_pointer segs :
  (length (p_text (path_of segs)) < 200)%nat ∧
  if p_cut (path_of segs) then
    (∃ outer g inner, segs = outer ++ g :: inner ∧ p_text (path_of segs) = pointer inner ∧
       (200 ≤ length (pointer (g :: inner)))%nat) ∨
    (∃ outer s, segs = outer ++ [Key s] ∧ (200 ≤ length (pointer [Key s]))%nat ∧
       p_text (path_of segs) = SLASH :: kept (length s) s 1 ++ lit "...")
  else p_text (path_of segs) = pointer segs.
Proof. apply path_of_shape. Qed.

(** [push_pointer_text] shortens a pointer's text as a failing walk
    shortens the segments themselves. *)
Theorem pointer_path_agrees segs :
  Forall placeable segs → pointer_path (pointer segs) = path_of segs.
Proof.
  intros Hall. unfold pointer_path, path_of.
  rewrite <- (pointer_loop_path (length (pointer segs)) segs []) by (done || lia).
  by rewrite app_nil_r.
Qed.

Lemma pointer_path_agrees_witness :
  pointer_path (pointer [Key [0x61; 0x2f]; Index 3]) = path_of [Key [0x61; 0x2f]; Index 3].
Proof.
  apply pointer_path_agrees. repeat constructor; simpl; try lia.
  exists [0x61; 0x2f]. split; [|reflexivity]. repeat constructor; unfold scalar; lia.
Defined.

(** The part of a UTF-8 key a cut path keeps is at most 41 bytes with its
    slash and is UTF-8 itself: whole escapes, whole characters. *)
Theorem kept_key_whole cs :
  Forall scalar cs →
  let s := utf8_encode cs in
  (length (kept (length s) s 1) ≤ 40)%nat ∧ is_utf8 (kept (length s) s 1) = true ∧
  ∃ n, kept (length s) s 1 = (utf8_encode (take n cs) ≫= escape_byte).
Proof.
  intros Hcs s. pose proof (kept_length (length s) s 1) as Hl.
  assert (∀ l u, ∃ n, kept_chars l u = take n l) as Hpre.
  { induction l as [|c l IH]; intros u; [by exists O|]. cbn [kept_chars]. cbn zeta.
    destruct (_ <? _)%nat; [by exists O|]. destruct (IH (u + length (utf8_char c ≫= escape_byte))%nat)
      as [n ->]. by exists (S n). }
  unfold s in *. rewrite kept_encode in * by (done || lia).
  destruct (Hpre cs 1%nat) as [n En]. rewrite En in *.
  split; [unfold KEPT_KEY in *; lia|]. split; [|by exists n].
  assert (∀ l, Forall scalar l → ∃ l', Forall scalar l' ∧ (utf8_encode l ≫= escape_byte) = utf8_encode l')
    as Hesc.
  { intros l Hl'. induction Hl' as [|c l Hc Hl' (l' & Hl1 & IH)]; [by exists []|].
    rewrite utf8_encode_cons, bind_app, IH. destruct (Z_lt_le_dec c 0x80) as [Hlow|Hhigh].
    - exists (escape_byte c ++ l'). rewrite utf8_char_narrow, bind_cons, app_nil_r
        by (unfold scalar in Hc; lia). unfold escape_byte.
      destruct (escaped c); [destruct (c =? TILDE)|].
      all: split; [repeat (apply Forall_cons; split); (done || unfold scalar, TILDE; lia)|].
      all: unfold utf8_encode; simpl; rewrite ?utf8_char_narrow by (unfold scalar, TILDE in *; lia); done.
    - exists (c :: l'). split; [by constructor|].
      by rewrite utf8_encode_cons, escape_plain by (by apply utf8_char_wide). }
  destruct (Hesc (take n cs)) as (l' & Hl' & ->); [by apply Forall_take|]. by apply is_utf8_encode.
Qed.

Lemma kept_key_whole_witness :
  (length (kept 4 (utf8_encode [0x1f600%Z]) 1) ≤ 40)%nat.
Proof.
  apply (kept_key_whole [0x1f600]). constructor; [right; lia|constructor].
Defined.
