(* ===== verification/JsonBuffer.v ===== *)
(** * The text being encoded: [core/json.c], [struct encoding] and [put]

    Every function that writes answers a status, 0 or -1, and leaves what it
    wrote, or why it could not and where, in the [struct encoding].  Here a
    status is a [bool] and such a function a state transformer.

    What such a function is to do is an [ideal]: the text it writes and,
    where it refuses the value, why and where.  [implements] relates the two:
    the function does what its ideal says, or ran out of memory, and it runs
    out only where an allocation was refused or the text passes 2^63 bytes. *)

From S2P Require Import Prelude.
From S2P Require Import Utf8.
From S2P Require Import JsonPath.

Local Open Scope Z_scope.

Definition SIZE_MAX : Z := 2 ^ 64 - 1.

(** ** The code *)

(** [struct encoding], less what never changes while encoding (see
    [layout]); [e_asked] counts what the allocator was asked. *)
Record encoding := Encoding {
  e_text : bytes;
  e_cap : Z;
  e_failure : bytes;
  e_path : path;
  e_out_of_memory : bool;
  e_asked : nat }.

(** Its settings. *)
Record layout := Layout { e_pretty : bool; e_max_depth : nat; e_ascii : bool }.

Definition new_encoding : encoding := Encoding [] 0 [] empty_path false 0.

Definition writer := encoding → encoding * bool.

Definition set_failure (why : bytes) (e : encoding) : encoding :=
  Encoding (e_text e) (e_cap e) why (e_path e) (e_out_of_memory e) (e_asked e).
Definition set_path (p : path) (e : encoding) : encoding :=
  Encoding (e_text e) (e_cap e) (e_failure e) p (e_out_of_memory e) (e_asked e).

(** What [snprintf] leaves of a message in [failure], which holds 160. *)
Definition fit (why : bytes) : bytes := take 159 why.

Definition refuse (why : bytes) : writer := λ e, (set_failure (fit why) e, false).

Definition refuse_memory : writer := λ e,
  refuse (lit "out of memory")
    (Encoding (e_text e) (e_cap e) (e_failure e) (e_path e) true (e_asked e)).

(** The room doubled until [n] bytes more fit; 64 doublings pass any
    [size_t], so the fuel never runs out. *)
Fixpoint grow (fuel : nat) (room len n : Z) : option Z :=
  if room - len <? n then
    match fuel with
    | O => None
    | S fuel => if SIZE_MAX / 2 <? room then None else grow fuel (room * 2) len n
    end
  else Some room.

Definition append (s : bytes) (e : encoding) : encoding :=
  Encoding (e_text e ++ s) (e_cap e) (e_failure e) (e_path e) (e_out_of_memory e) (e_asked e).

Definition put `{Allocator} (s : bytes) : writer := λ e,
  let n := Z.of_nat (length s) in
  let len := Z.of_nat (length (e_text e)) in
  if n =? 0 then (e, true)
  else if e_cap e - len <? n then
    match grow 64 (if e_cap e =? 0 then 256 else e_cap e) len n with
    | None => refuse_memory e
    | Some room =>
        let asked := Encoding (e_text e) (e_cap e) (e_failure e) (e_path e) (e_out_of_memory e)
                       (S (e_asked e)) in
        if refused (e_asked e) then refuse_memory asked
        else
          (append s (Encoding (e_text e) room (e_failure e) (e_path e) (e_out_of_memory e)
                       (S (e_asked e))), true)
    end
  else (append s e, true).

(** Nothing more to write. *)
Definition done_ok : writer := λ e, (e, true).

(** [if (f < 0) return -1; g]. *)
Definition andthen (f g : writer) : writer := λ e,
  let '(e, ok) := f e in if ok then g e else (e, false).

Declare Scope json_scope.
Notation "f ;; g" := (andthen f g) (at level 100, g at level 200, right associativity) : json_scope.
Delimit Scope json_scope with json.
Local Open Scope json_scope.

(** [if (f < 0) { prepend; return -1; }]. *)
Definition under (g : segment) (f : writer) : writer := λ e,
  let '(e, ok) := f e in
  if ok then (e, true) else (set_path (prepend_segment g (e_path e)) e, false).

(** One writer after another. *)
Fixpoint each {X} (f : nat → X → writer) (i : nat) (l : list X) : writer :=
  match l with
  | [] => done_ok
  | x :: l => f i x ;; each f (S i) l
  end.

Definition SPACE : Z := 0x20.
Definition NEWLINE : Z := 0x0a.

(** A newline and [depth] levels of indentation, when laying out. *)
Definition put_break `{Allocator} (st : layout) (depth : nat) : writer :=
  if e_pretty st then put [NEWLINE] ;; each (λ _ _, put [SPACE; SPACE]) 0 (replicate depth ())
  else done_ok.

(** ** What a writer is to do *)

(** The text written and, where the value is refused, why and under which
    segments of it. *)
Definition ideal : Type := bytes * option (bytes * list segment).

Definition says (s : bytes) : ideal := (s, None).
Definition denies (why : bytes) : ideal := ([], Some (fit why, [])).

Definition then_ideal (v w : ideal) : ideal :=
  match v.2 with
  | None => (v.1 ++ w.1, w.2)
  | Some _ => v
  end.

Definition under_ideal (g : segment) (v : ideal) : ideal :=
  match v.2 with
  | None => v
  | Some (why, segs) => (v.1, Some (why, g :: segs))
  end.

Fixpoint each_ideal {X} (f : nat → X → ideal) (i : nat) (l : list X) : ideal :=
  match l with
  | [] => says []
  | x :: l => then_ideal (f i x) (each_ideal f (S i) l)
  end.

(** An encoding nothing has gone wrong in: its text fits its buffer. *)
Definition sound (e : encoding) : Prop :=
  Z.of_nat (length (e_text e)) ≤ e_cap e ∧ (e_cap e = 0 ∨ 256 ≤ e_cap e ≤ SIZE_MAX) ∧
  e_failure e = [] ∧ e_path e = empty_path ∧ e_out_of_memory e = false.

(** Memory enough: no request is refused, and the text stays within [limit],
    itself no more than the 2^63 bytes the buffer can grow to. *)
Class Room (limit : Z) := room_ok : limit ≤ 2 ^ 63.
#[export] Instance room_62 : Room (2 ^ 62).
Proof. done. Qed.
#[export] Instance room_63 : Room (2 ^ 63).
Proof. done. Qed.

Definition plenty_within `{Allocator} (limit : Z) (e : encoding) (out : bytes) : Prop :=
  (∀ k, refused k = false) ∧ Z.of_nat (length (e_text e) + length out) ≤ limit.

Definition outcome_within `{Allocator} (limit : Z) (e : encoding) (r : encoding * bool) (v : ideal) : Prop :=
  let '(e', ok) := r in
  if ok then v.2 = None ∧ sound e' ∧ e_text e' = e_text e ++ v.1
  else
    (e_out_of_memory e' = true ∧ e_failure e' = lit "out of memory" ∧ ¬ plenty_within limit e v.1) ∨
    (∃ why segs, v.2 = Some (why, segs) ∧ e_out_of_memory e' = false ∧
       e_failure e' = why ∧ e_path e' = path_of segs).

Definition implements_within `{Allocator} (limit : Z) (f : writer) (v : ideal) : Prop :=
  ∀ e, sound e → outcome_within limit e (f e) v.

Abbreviation plenty := (plenty_within (2 ^ 62)).
Abbreviation outcome := (outcome_within (2 ^ 62)).
Abbreviation implements := (implements_within (2 ^ 62)).

(** ** The laws *)

Lemma grow_spec fuel room len n :
  256 ≤ room ≤ SIZE_MAX → 2 ^ 64 ≤ room * 2 ^ Z.of_nat fuel → 0 ≤ len →
  match grow fuel room len n with
  | Some r => room ≤ r ≤ SIZE_MAX ∧ n ≤ r - len
  | None => 2 ^ 63 < len + n
  end.
Proof.
  revert room. induction fuel as [|fuel IH]; intros room Hroom Hf Hlen.
  { unfold SIZE_MAX in Hroom. simpl in Hf. lia. }
  cbn [grow]. destruct (Z.ltb_spec (room - len) n); [|lia].
  change (SIZE_MAX / 2) with (2 ^ 63 - 1). destruct (Z.ltb_spec (2 ^ 63 - 1) room); [lia|].
  specialize (IH (room * 2)). destruct (grow fuel (room * 2) len n).
  - destruct IH; unfold SIZE_MAX in *; [lia| |lia|lia].
    rewrite Nat2Z.inj_succ, Z.pow_succ_r in Hf by lia. lia.
  - apply IH; unfold SIZE_MAX in *; [lia| |lia].
    rewrite Nat2Z.inj_succ, Z.pow_succ_r in Hf by lia. lia.
Qed.

Lemma says_app s t : then_ideal (says s) (says t) = says (s ++ t).
Proof. done. Qed.

Section laws.
Context {limit : Z} `{A : Allocator, R : !Room limit}.

Lemma implements_done : implements_within limit done_ok (says []).
Proof. intros e He. simpl. by rewrite app_nil_r. Qed.

Lemma refuse_memory_outcome e v :
  ¬ plenty_within limit e v.1 → outcome_within limit e (refuse_memory e) v.
Proof. intros Hp. by left. Qed.

Lemma implements_put s : implements_within limit (put s) (says s).
Proof.
  intros e He. pose proof He as (Hcap & Hroom & Hfail & Hpath & Hoom). unfold put.
  destruct (Z.eqb_spec (Z.of_nat (length s)) 0) as [Hs|Hs].
  { destruct s; [|simpl in Hs; lia]. simpl. by rewrite app_nil_r. }
  destruct (Z.ltb_spec (e_cap e - Z.of_nat (length (e_text e))) (Z.of_nat (length s))) as [Hlt|Hge].
  2: { split_and!; [done| |done]. split_and!; try done. simpl. rewrite length_app. lia. }
  set (room := if e_cap e =? 0 then 256 else e_cap e).
  assert (256 ≤ room ≤ SIZE_MAX ∧ e_cap e ≤ room) as [Hr Hcr].
  { unfold room. destruct (Z.eqb_spec (e_cap e) 0) as [->|]; unfold SIZE_MAX in *; lia. }
  pose proof (grow_spec 64 room (Z.of_nat (length (e_text e))) (Z.of_nat (length s)) Hr) as Hg.
  destruct (grow _ _ _ _) as [r|].
  - destruct Hg as [Hg1 Hg2]; [simpl; lia|lia|].
    destruct (refused (e_asked e)) eqn:Href.
    { left. split_and!; [done..|]. intros [Hno _]. by rewrite Hno in Href. }
    split_and!; [done| |done]. split_and!; try done; simpl; [rewrite length_app|]; lia.
  - apply refuse_memory_outcome. intros [_ Hfit]. simpl in Hfit.
    specialize (Hg ltac:(simpl; lia) ltac:(lia)). unfold Room in R. lia.
Qed.

Lemma implements_refuse why : implements_within limit (refuse why) (denies why).
Proof. intros e (_ & _ & _ & Hpath & Hoom). right. by exists (fit why), []. Qed.

Lemma plenty_app e s t : plenty_within limit e (s ++ t) → plenty_within limit e s.
Proof. intros [? H]. split; [done|]. rewrite length_app in H. lia. Qed.

Lemma implements_andthen f g v w :
  implements_within limit f v → implements_within limit g w → implements_within limit (andthen f g) (then_ideal v w).
Proof.
  intros Hf Hg e He. specialize (Hf e He). unfold andthen, outcome_within, then_ideal in *.
  destruct (f e) as [e1 ok1]. destruct ok1.
  - destruct Hf as (-> & He1 & Ht1). specialize (Hg e1 He1). unfold outcome_within in Hg.
    destruct (g e1) as [e2 ok2]. simpl. destruct ok2.
    + destruct Hg as (? & ? & ->). by rewrite Ht1, app_assoc.
    + destruct Hg as [(? & ? & Hno)|?]; [left|by right]. split_and!; [done..|].
      intros [? Hfit]. apply Hno. split; [done|]. rewrite Ht1, !length_app in *. lia.
  - destruct Hf as [(? & ? & Hno)|(why & segs & Hv & Hrest)].
    + left. split_and!; [done..|]. intros Hp. apply Hno.
      destruct v.2; [done|]. by eapply plenty_app.
    + right. exists why, segs. by rewrite Hv.
Qed.

Lemma implements_under g f v : implements_within limit f v → implements_within limit (under g f) (under_ideal g v).
Proof.
  intros Hf e He. specialize (Hf e He). unfold under, outcome_within, under_ideal in *.
  destruct (f e) as [e1 ok1]. destruct ok1.
  - destruct Hf as (Hv & ? & ?). by rewrite Hv.
  - destruct Hf as [(? & ? & Hno)|(why & segs & -> & Hoom & Hwhy & Hpath)].
    + left. split_and!; [done..|]. by destruct v.2 as [[??]|].
    + right. exists why, (g :: segs). split_and!; [done..|]. simpl. by rewrite Hpath.
Qed.

Lemma implements_each {X} (f : nat → X → writer) v i l :
  (∀ k x, l !! k = Some x → implements_within limit (f (i + k)%nat x) (v (i + k)%nat x)) →
  implements_within limit (each f i l) (each_ideal v i l).
Proof.
  revert i. induction l as [|x l IH]; intros i H; simpl; [apply implements_done|].
  apply implements_andthen.
  - specialize (H O x eq_refl). by rewrite Nat.add_0_r in H.
  - apply IH. intros k y Hk. specialize (H (S k) y Hk). by rewrite Nat.add_succ_r in H.
Qed.

Lemma implements_eq f v w : v = w → implements_within limit f v → implements_within limit f w.
Proof. by intros ->. Qed.

End laws.

Create HintDb writer discriminated.
#[export] Hint Extern 1 (implements_within _ (put _) _) => apply implements_put : writer.
#[export] Hint Resolve implements_done implements_refuse implements_andthen
  implements_under : writer.

(** ** Text laid out *)

Definition break_text (st : layout) (depth : nat) : bytes :=
  if e_pretty st then NEWLINE :: mjoin (replicate depth [SPACE; SPACE]) else [].

Lemma each_says {X} (f : nat → X → bytes) i l :
  each_ideal (λ k x, says (f k x)) i l = says (mjoin (imap (λ k, f (i + k)%nat) l)).
Proof.
  revert i. induction l as [|x l IH]; intros i; simpl; [done|].
  rewrite IH. unfold then_ideal, says. simpl. rewrite Nat.add_0_r. do 3 f_equal.
  apply imap_ext. intros k y _. simpl. by rewrite Nat.add_succ_r.
Qed.

Lemma put_break_implements {limit : Z} `{Allocator, !Room limit} st depth :
  implements_within limit (put_break st depth) (says (break_text st depth)).
Proof.
  unfold put_break, break_text. destruct (e_pretty st); [|apply implements_done].
  eapply implements_eq; [|apply implements_andthen; [apply implements_put|]].
  2: { apply (implements_each _ (λ _ _, says [SPACE; SPACE])). intros. apply implements_put. }
  rewrite (each_says (λ _ _, [SPACE; SPACE])). unfold then_ideal, says. simpl. do 3 f_equal.
  induction depth as [|d IH]; [done|]. exact (f_equal (cons [SPACE; SPACE]) IH).
Qed.

#[export] Hint Extern 1 (implements_within _ (put_break _ _) _) => apply put_break_implements : writer.
