(* ===== verification/JsonString.v ===== *)
(** * Strings as JSON text: [core/json.c], [put_string]

    What [put_string] writes for a UTF-8 string, character by character, and
    that a reader of RFC 8259 strings reads the same string back. *)

From S2P Require Import Prelude.
From S2P Require Import Texts.
From S2P Require Import Utf8.
From S2P Require Import JsonPath.
From S2P Require Import JsonBuffer.

Local Open Scope Z_scope.
Local Open Scope json_scope.

(** ** The code *)

(** The escape of a byte below 0x20, a quote or a backslash: its letter
    after a backslash, or [\u00] and two digits. *)
Definition byte_escape (c : Z) : bytes :=
  if c =? QUOTE then [BACKSLASH; QUOTE]
  else if c =? BACKSLASH then [BACKSLASH; BACKSLASH]
  else if c =? 0x08 then [BACKSLASH; 0x62]
  else if c =? 0x0c then [BACKSLASH; 0x66]
  else if c =? 0x0a then [BACKSLASH; 0x6e]
  else if c =? 0x0d then [BACKSLASH; 0x72]
  else if c =? 0x09 then [BACKSLASH; 0x74]
  else [BACKSLASH; 0x75; 0x30; 0x30; hex_digit (Z.shiftr c 4); hex_digit (Z.land c 0xf)].

(** How many bytes follow a lead byte of 0x80 or more. *)
Definition extra_bytes (c : Z) : nat := if 0xf0 <=? c then 3 else if 0xe0 <=? c then 2 else 1.

(** The code point, its bytes accumulated six bits at a time. *)
Definition gather (c : Z) (extra : nat) (following : bytes) : Z :=
  foldl (λ code b, Z.lor (Z.shiftl code 6) (Z.land b 0x3f))
    (Z.land c (Z.shiftr 0x3f (Z.of_nat extra))) (take extra following).

(** [put_string]'s loop: [run] is [s[start..i)], what is not yet written;
    [rest] is [s[i..n)], whose first [skip] bytes belong to a character that
    is written already ([i += extra]). *)
Fixpoint put_string_from `{Allocator} (st : layout) (skip : nat) (run rest : bytes) : writer :=
  match rest with
  | [] => put run ;; put [QUOTE]
  | c :: rest =>
      match skip with
      | S skip => put_string_from st skip run rest
      | O =>
          if e_ascii st && (0x80 <=? c) then
            let extra := extra_bytes c in
            let code := gather c extra rest in
            put run ;;
            (if 0x10000 <=? code then
               put (u_escape (0xd800 + Z.shiftr (code - 0x10000) 10)) ;;
               put (u_escape (0xdc00 + Z.land (code - 0x10000) 0x3ff))
             else put (u_escape code)) ;;
            put_string_from st extra [] rest
          else if (0x20 <=? c) && negb (c =? QUOTE) && negb (c =? BACKSLASH) then
            put_string_from st 0 (run ++ [c]) rest
          else
            put run ;; put (byte_escape c) ;; put_string_from st 0 [] rest
      end
  end.

Definition not_utf8 : bytes := lit "cannot encode a string that is not UTF-8".

Definition put_string `{Allocator} (st : layout) (s : bytes) : writer :=
  if negb (is_utf8 s) then refuse not_utf8
  else put [QUOTE] ;; put_string_from st 0 [] s.

(** [hex4]: the value of four hex digits, or -1. *)
Fixpoint hex_run (v : Z) (digits : bytes) : Z :=
  match digits with
  | [] => v
  | c :: digits => if hex_value c <? 0 then -1 else hex_run (v * 16 + hex_value c) digits
  end.

Definition hex4 (s : bytes) : Z := hex_run 0 (take 4 s).

(** ** What it means *)

(** The text of one character. *)
Definition char_text (ascii : bool) (c : Z) : bytes :=
  if ascii && (0x80 <=? c) then utf16_units c ≫= u_escape
  else if (0x20 <=? c) && negb (c =? QUOTE) && negb (c =? BACKSLASH) then utf8_char c
  else byte_escape c.

(** The scalar values of a UTF-8 string. *)
Fixpoint scalars_loop (fuel : nat) (s : bytes) : list Z :=
  match s, fuel with
  | [], _ | _, O => []
  | _, S fuel => code_point s :: scalars_loop fuel (drop (default 1%nat (sequence s)) s)
  end.
Definition scalars (s : bytes) : list Z := scalars_loop (length s) s.

Definition string_text (ascii : bool) (s : bytes) : bytes :=
  QUOTE :: (scalars s ≫= char_text ascii) ++ [QUOTE].

(** A reader of RFC 8259 strings, past the opening quote: the string's bytes
    in UTF-8, and the text after its closing quote.  A lone surrogate is no
    character, and an unescaped control character no JSON. *)
Definition simple_escape (c : Z) : option Z :=
  if c =? QUOTE then Some QUOTE else if c =? BACKSLASH then Some BACKSLASH
  else if c =? SLASH then Some SLASH else if c =? 0x62 then Some 0x08
  else if c =? 0x66 then Some 0x0c else if c =? 0x6e then Some 0x0a
  else if c =? 0x72 then Some 0x0d else if c =? 0x74 then Some 0x09 else None.

Fixpoint read_string (s : bytes) : option (bytes * bytes) :=
  match s with
  | [] => None
  | c :: s =>
      if c =? QUOTE then Some ([], s)
      else if c =? BACKSLASH then
        match s with
        | [] => None
        | x :: s =>
            if x =? 0x75 then
              match s with
              | a :: b :: c :: d :: s =>
                  let unit := hex4 [a; b; c; d] in
                  if unit <? 0 then None
                  else if (0xdc00 <=? unit) && (unit <=? 0xdfff) then None
                  else if (0xd800 <=? unit) && (unit <=? 0xdbff) then
                    match s with
                    | e :: f :: a :: b :: c :: d :: s =>
                        let low := hex4 [a; b; c; d] in
                        if (e =? BACKSLASH) && (f =? 0x75) && (0xdc00 <=? low) && (low <=? 0xdfff)
                        then
                          '(t, r) ← read_string s;
                          Some (utf8_char (0x10000 + (unit - 0xd800) * 0x400 + (low - 0xdc00)) ++ t, r)
                        else None
                    | _ => None
                    end
                  else '(t, r) ← read_string s; Some (utf8_char unit ++ t, r)
              | _ => None
              end
            else
              match simple_escape x with
              | Some b => '(t, r) ← read_string s; Some (b :: t, r)
              | None => None
              end
        end
      else if c <? 0x20 then None
      else '(t, r) ← read_string s; Some (c :: t, r)
  end.

(** ** Characters *)

Lemma scalars_loop_encode fuel cs :
  Forall scalar cs → (length (utf8_encode cs) ≤ fuel)%nat →
  scalars_loop fuel (utf8_encode cs) = cs.
Proof.
  revert fuel. induction cs as [|c cs IH]; intros fuel Hcs Hf; [by destruct fuel|].
  apply Forall_cons in Hcs as [Hc Hcs]. rewrite utf8_encode_cons in *.
  rewrite length_app in Hf. pose proof (utf8_char_length c Hc) as Hl.
  destruct fuel as [|fuel]; [lia|].
  assert (∀ s, s ≠ [] → scalars_loop (S fuel) s
    = code_point s :: scalars_loop fuel (drop (default 1%nat (sequence s)) s)) as Hstep.
  { by intros []. }
  rewrite Hstep, sequence_char, code_point_char by (done || by intros [? _]%app_nil; destruct (utf8_char_cons c)).
  cbn [from_option id]. rewrite drop_app_length, IH; [done|done|lia].
Qed.

Lemma scalars_encode cs : Forall scalar cs → scalars (utf8_encode cs) = cs.
Proof. intros H. by apply scalars_loop_encode. Qed.

Lemma gather_char c rest :
  scalar c → 0x80 ≤ c →
  ∃ b0 r, utf8_char c = b0 :: r ∧ 0x80 ≤ b0 ∧ extra_bytes b0 = length r ∧
    gather b0 (length r) (r ++ rest) = c.
Proof.
  intros Hc H. unfold scalar, utf8_char in *. zcases; [lia|..].
  all: eexists _, _; (split; [reflexivity|]); (split; [zdiv|]).
  all: unfold extra_bytes; (split; [simpl; by ztest|]).
  all: unfold gather; rewrite take_app_length; simpl.
  all: rewrite ?(land_low _ 5 0x1f), ?(land_low _ 6 0x3f), ?(land_low _ 4 0x0f), ?(land_low _ 3 0x07),
    ?Z.shiftl_mul_pow2 by done.
  all: rewrite ?(lor_low _ _ 6) by zdiv; zdiv.
Qed.

Lemma hex4_u_escape c s :
  0 ≤ c < 0x10000 → ∃ h1 h2 h3 h4, u_escape c ++ s = BACKSLASH :: 0x75 :: h1 :: h2 :: h3 :: h4 :: s ∧
    hex4 [h1; h2; h3; h4] = c.
Proof.
  intros Hc. do 4 eexists. split; [reflexivity|]. unfold hex4. simpl.
  rewrite !hex_value_digit by (apply Z.mod_pos_bound; lia).
  repeat match goal with |- context [?x mod 16 <? 0] =>
    rewrite (proj2 (Z.ltb_ge (x mod 16) 0)) by (apply Z.mod_pos_bound; lia) end. zdiv.
Qed.

(** ** Reading a character's text back *)

Lemma read_plain b s t r :
  0x20 ≤ b → b ≠ QUOTE → b ≠ BACKSLASH → read_string s = Some (t, r) →
  read_string (b :: s) = Some (b :: t, r).
Proof.
  intros Hb Hq Hs H. simpl. rewrite (proj2 (Z.eqb_neq _ _) Hq), (proj2 (Z.eqb_neq _ _) Hs).
  by rewrite (proj2 (Z.ltb_ge _ _) Hb), H.
Qed.

Lemma read_plains bs s t r :
  Forall (λ b, 0x80 ≤ b) bs → read_string s = Some (t, r) →
  read_string (bs ++ s) = Some (bs ++ t, r).
Proof.
  intros Hbs H. induction Hbs as [|b bs Hb Hbs IH]; [done|]. simpl app.
  apply read_plain; unfold QUOTE, BACKSLASH; try lia. done.
Qed.

Lemma read_u_escape c s t r :
  0 ≤ c < 0x10000 → ¬ (0xd800 ≤ c ≤ 0xdfff) → read_string s = Some (t, r) →
  read_string (u_escape c ++ s) = Some (utf8_char c ++ t, r).
Proof.
  intros Hc Hno H. destruct (hex4_u_escape c s Hc) as (h1 & h2 & h3 & h4 & -> & Hh).
  cbn [read_string]. change (BACKSLASH =? QUOTE) with false. change (BACKSLASH =? BACKSLASH) with true.
  change (0x75 =? 0x75) with true. cbn iota zeta. rewrite Hh.
  rewrite (proj2 (Z.ltb_ge c 0)) by lia.
  destruct (Z.leb_spec 0xdc00 c), (Z.leb_spec c 0xdfff); simpl; try lia; try by rewrite H.
  all: destruct (Z.leb_spec 0xd800 c), (Z.leb_spec c 0xdbff); simpl; try lia; by rewrite H.
Qed.

Lemma read_pair c s t r :
  0x10000 ≤ c < 0x110000 → read_string s = Some (t, r) →
  read_string (u_escape (0xd800 + (c - 0x10000) / 0x400) ++
               u_escape (0xdc00 + (c - 0x10000) mod 0x400) ++ s) = Some (utf8_char c ++ t, r).
Proof.
  intros Hc H. set (hi := 0xd800 + _). set (lo := 0xdc00 + _).
  assert (0xd800 ≤ hi ≤ 0xdbff) by (unfold hi; zdiv).
  assert (0xdc00 ≤ lo ≤ 0xdfff) by (unfold lo; zdiv).
  destruct (hex4_u_escape lo s ltac:(lia)) as (l1 & l2 & l3 & l4 & -> & Hl).
  destruct (hex4_u_escape hi (BACKSLASH :: 0x75 :: l1 :: l2 :: l3 :: l4 :: s) ltac:(lia))
    as (h1 & h2 & h3 & h4 & -> & Hh).
  cbn [read_string]. change (BACKSLASH =? QUOTE) with false. change (BACKSLASH =? BACKSLASH) with true.
  change (0x75 =? 0x75) with true. cbn iota zeta. rewrite Hh, Hl.
  rewrite (proj2 (Z.ltb_ge hi 0)), (proj2 (Z.leb_gt 0xdc00 hi)) by lia. rewrite andb_false_l.
  rewrite !(proj2 (Z.leb_le _ _)) by lia. simpl. rewrite H. simpl. do 4 f_equal.
  unfold hi, lo. zdiv.
Qed.

(** The bytes [put_string] escapes. *)
Definition special (c : Z) : Prop := 0 ≤ c < 0x20 ∨ c = QUOTE ∨ c = BACKSLASH.

Lemma read_byte_escape c s t r :
  special c → read_string s = Some (t, r) →
  read_string (byte_escape c ++ s) = Some (c :: t, r).
Proof.
  intros Hc H.
  assert (c ∈ QUOTE :: BACKSLASH :: seqZ 0 0x20) as Hin.
  { rewrite !elem_of_cons, elem_of_seqZ. unfold special in Hc. lia. }
  clear Hc. revert c Hin. apply Forall_forall.
  repeat (constructor; [simpl; rewrite H; reflexivity|]). constructor.
Qed.

Lemma char_plain_or_special c :
  scalar c → c < 0x80 →
  ((0x20 <=? c) && negb (c =? QUOTE) && negb (c =? BACKSLASH)) = true ∧ ¬ special c ∨
  ((0x20 <=? c) && negb (c =? QUOTE) && negb (c =? BACKSLASH)) = false ∧ special c.
Proof. intros Hc H. unfold special, scalar in *. zcases; simpl; lia. Qed.

Lemma read_char_text ascii c s t r :
  scalar c → read_string s = Some (t, r) →
  read_string (char_text ascii c ++ s) = Some (utf8_char c ++ t, r).
Proof.
  intros Hc H. unfold char_text. destruct (Z.leb_spec 0x80 c) as [Hhigh|Hlow].
  - destruct ascii; simpl.
    + unfold utf16_units. destruct (Z.ltb_spec c 0x10000).
      * rewrite bind_cons, app_nil_r. apply read_u_escape; [| |done]; unfold scalar in Hc; lia.
      * rewrite !bind_cons, app_nil_r, <- app_assoc. apply read_pair; [|done].
        unfold scalar in Hc; lia.
    + rewrite (proj2 (Z.leb_le 0x20 c)), !(proj2 (Z.eqb_neq c _))
        by (unfold QUOTE, BACKSLASH; lia). simpl.
      apply read_plains; [|done]. by apply utf8_char_wide.
  - rewrite andb_false_r. rewrite utf8_char_narrow by (unfold scalar in Hc; lia).
    destruct (char_plain_or_special c Hc Hlow) as [[-> Hno]|[-> Hs]].
    + apply read_plain; [| | |done]; unfold special, scalar in *; lia.
    + by apply read_byte_escape.
Qed.

Lemma read_chars ascii cs rest :
  Forall scalar cs →
  read_string ((cs ≫= char_text ascii) ++ QUOTE :: rest) = Some (utf8_encode cs, rest).
Proof.
  intros Hcs. induction Hcs as [|c cs Hc Hcs IH]; [done|].
  rewrite bind_cons, <- app_assoc, utf8_encode_cons. by apply read_char_text.
Qed.

(** ** Writing *)

Section writing.
Context `{A : Allocator} (st : layout).

Lemma put_string_skip skipped run rest :
  put_string_from st (length skipped) run (skipped ++ rest) = put_string_from st 0 run rest.
Proof. induction skipped as [|b bs IH]; [done|]. simpl. apply IH. Qed.

Lemma put_string_plains bs run rest :
  e_ascii st = false → Forall (λ b, 0x80 ≤ b) bs →
  put_string_from st 0 run (bs ++ rest) = put_string_from st 0 (run ++ bs) rest.
Proof.
  intros Hno Hbs. revert run. induction Hbs as [|b bs Hb Hbs IH]; intros run; [by rewrite app_nil_r|].
  simpl. rewrite Hno, andb_false_l.
  rewrite (proj2 (Z.leb_le 0x20 b)), !(proj2 (Z.eqb_neq b _)) by (unfold QUOTE, BACKSLASH; lia).
  simpl. rewrite IH, <- app_assoc. done.
Qed.

Lemma put_string_from_implements run cs :
  Forall scalar cs →
  implements (put_string_from st 0 run (utf8_encode cs))
    (says (run ++ (cs ≫= char_text (e_ascii st)) ++ [QUOTE])).
Proof.
  intros Hcs. revert run. induction Hcs as [|c cs Hc Hcs IH]; intros run.
  { simpl. rewrite <- says_app. auto with writer. }
  rewrite utf8_encode_cons, bind_cons. unfold char_text at 1.
  destruct (Z.leb_spec 0x80 c) as [Hhigh|Hlow].
  - destruct (e_ascii st) eqn:Hascii.
    + destruct (gather_char c (utf8_encode cs) Hc Hhigh) as (b0 & r & Eb & Hb0 & Hx & Hg).
      rewrite Eb. simpl. rewrite Hascii, Hx, Hg, (proj2 (Z.leb_le _ _) Hb0), put_string_skip. simpl.
      rewrite <- !app_assoc, <- says_app. apply implements_andthen; [auto with writer|].
      rewrite <- says_app. apply implements_andthen; [|apply (IH [])].
      unfold utf16_units. destruct (Z.leb_spec 0x10000 c).
      * rewrite (proj2 (Z.ltb_ge _ _)), !bind_cons, app_nil_r, <- says_app by lia.
        rewrite Z.shiftr_div_pow2, (land_low _ 10 0x3ff) by done.
        apply implements_andthen; apply implements_put.
      * rewrite (proj2 (Z.ltb_lt _ _)), bind_cons, app_nil_r by lia. apply implements_put.
    + rewrite put_string_plains by (done || by apply utf8_char_wide).
      rewrite andb_false_l, (proj2 (Z.leb_le 0x20 c)), !(proj2 (Z.eqb_neq c _))
        by (unfold QUOTE, BACKSLASH; lia). simpl.
      specialize (IH (run ++ utf8_char c)). by rewrite <- !app_assoc in *.
  - rewrite utf8_char_narrow by (unfold scalar in Hc; lia). simpl app. cbn [put_string_from].
    rewrite (proj2 (Z.leb_gt _ _) Hlow), !andb_false_r.
    destruct (char_plain_or_special c Hc Hlow) as [[-> Hno]|[-> Hs]].
    + specialize (IH (run ++ [c])). rewrite <- app_assoc in IH. apply IH.
    + rewrite <- !app_assoc, <- says_app. apply implements_andthen; [auto with writer|].
      rewrite <- says_app. apply implements_andthen; [auto with writer|apply (IH [])].
Qed.

Definition string_ideal (s : bytes) : ideal :=
  if is_utf8 s then says (string_text (e_ascii st) s) else denies not_utf8.

Lemma put_string_implements s : all_bytes s → implements (put_string st s) (string_ideal s).
Proof.
  intros Hs. unfold put_string, string_ideal. destruct (is_utf8 s) eqn:Hu; simpl.
  2: { apply implements_refuse. }
  apply is_utf8_some in Hu as (cs & Hcs & ->); [|done]. unfold string_text.
  rewrite scalars_encode by done. change (QUOTE :: ?x) with ([QUOTE] ++ x). rewrite <- says_app.
  apply implements_andthen; [auto with writer|]. by apply (put_string_from_implements []).
Qed.

End writing.

#[export] Hint Resolve put_string_implements : writer.

(** ** What is written is the string *)

Lemma string_text_read ascii s rest :
  all_bytes s → is_utf8 s = true →
  read_string (drop 1 (string_text ascii s) ++ rest) = Some (s, rest).
Proof.
  intros Hs Hu. apply is_utf8_some in Hu as (cs & Hcs & ->); [|done].
  unfold string_text. rewrite scalars_encode by done. simpl.
  rewrite drop_0, <- app_assoc. by apply read_chars.
Qed.

(** The bytes of a text: no control character, and in ASCII where asked. *)
Definition text_byte (ascii : bool) (b : Z) : Prop := 0x20 ≤ b < if ascii then 0x80 else 0x100.

Lemma u_escape_bytes ascii c : Forall (text_byte ascii) (u_escape c).
Proof.
  assert (∀ x, text_byte ascii (hex_digit (x mod 16))) as Hhex.
  { intros x. pose proof (Z.mod_pos_bound x 16 ltac:(lia)). unfold text_byte, hex_digit.
    destruct ascii; zcases; lia. }
  unfold u_escape. repeat (apply Forall_cons; split); try apply Hhex; [..|constructor];
    unfold text_byte, BACKSLASH; destruct ascii; lia.
Qed.

Lemma char_text_bytes ascii c : scalar c → Forall (text_byte ascii) (char_text ascii c).
Proof.
  intros Hc. unfold char_text. destruct (Z.leb_spec 0x80 c) as [Hhigh|Hlow].
  - destruct ascii; simpl.
    + unfold utf16_units. destruct (_ <? _); rewrite !bind_cons, ?Forall_app, ?app_nil_r;
        auto using u_escape_bytes.
    + rewrite (proj2 (Z.leb_le 0x20 c)), !(proj2 (Z.eqb_neq c _)) by (unfold QUOTE, BACKSLASH; lia).
      simpl. pose proof (utf8_char_bytes c Hc) as Hb. destruct (utf8_char_wide c Hc Hhigh) as [Hw _].
      rewrite Forall_forall in *. intros b Hin. unfold text_byte, is_byte in *.
      specialize (Hb b Hin). specialize (Hw b Hin). lia.
  - rewrite andb_false_r. destruct (char_plain_or_special c Hc Hlow) as [[-> Hno]|[-> Hs]].
    + rewrite utf8_char_narrow by (unfold scalar in Hc; lia). apply Forall_cons. split; [|constructor].
      unfold special, text_byte, scalar in *. destruct ascii; lia.
    + assert (c ∈ QUOTE :: BACKSLASH :: seqZ 0 0x20) as Hin.
      { rewrite !elem_of_cons, elem_of_seqZ. unfold special in Hs. lia. }
      clear Hc Hlow Hs. revert c Hin. apply Forall_forall. unfold text_byte.
      destruct ascii; apply (bool_decide_unpack _); vm_compute; exact I.
Qed.

Lemma string_text_bytes ascii s :
  all_bytes s → is_utf8 s = true → Forall (text_byte ascii) (string_text ascii s).
Proof.
  intros Hs Hu. apply is_utf8_some in Hu as (cs & Hcs & ->); [|done]. unfold string_text.
  rewrite scalars_encode by done.
  assert (text_byte ascii QUOTE) as Hq by (unfold text_byte, QUOTE; destruct ascii; lia).
  apply Forall_cons; split; [done|]. apply Forall_app; split; [|by apply Forall_singleton].
  induction Hcs as [|c cs Hc Hcs IH]; [constructor|]. rewrite bind_cons. apply Forall_app.
  split; [by apply char_text_bytes|]. apply IH.
  rewrite utf8_encode_cons in Hs. by apply Forall_app in Hs as [_ Hs].
Qed.

(** [put_string] writes a UTF-8 string as JSON text a reader of RFC 8259
    reads the same string back from, with no control character raw and, where
    asked, in ASCII throughout; it refuses a string exactly when it is not
    UTF-8, and fails otherwise only short of memory. *)
Theorem put_string_round_trips `{A : Allocator} st s e :
  sound e → all_bytes s →
  let '(e', ok) := put_string st s e in
  if ok then
    is_utf8 s = true ∧ ∃ body, e_text e' = e_text e ++ QUOTE :: body ∧
      Forall (text_byte (e_ascii st)) body ∧
      ∀ rest, read_string (body ++ rest) = Some (s, rest)
  else
    if e_out_of_memory e' then ¬ plenty e (string_text (e_ascii st) s) ∨ is_utf8 s = false
    else is_utf8 s = false ∧ e_failure e' = not_utf8.
Proof.
  intros He Hs. pose proof (put_string_implements st s Hs e He) as H.
  unfold outcome_within, string_ideal in H. destruct (put_string st s e) as [e' [|]].
  - destruct H as (Hv & _ & ->). destruct (is_utf8 s) eqn:Hu; [|done]. split; [done|].
    pose proof (string_text_bytes (e_ascii st) s Hs Hu) as Hb. unfold string_text in *.
    apply Forall_cons in Hb as [_ Hb]. eexists. split_and!; [done|done|]. intros rest.
    pose proof (string_text_read (e_ascii st) s rest Hs Hu) as Hr. unfold string_text in Hr.
    simpl in Hr. by rewrite drop_0 in Hr.
  - destruct H as [(-> & _ & Hno)|(why & segs & Hv & -> & Hwhy & _)].
    + destruct (is_utf8 s); [by left|by right].
    + destruct (is_utf8 s); [done|]. injection Hv as <- <-. split; [done|]. by rewrite Hwhy.
Qed.

Lemma put_string_round_trips_witness :
  ∃ body, read_string (body ++ [0x2c]) = Some ([0x61; 0x22; 0xc3; 0xa9], [0x2c]).
Proof.
  pose proof (@put_string_round_trips (λ _, false) (Layout false 64 true) [0x61; 0x22; 0xc3; 0xa9]
    new_encoding) as H.
  destruct H as (_ & body & _ & _ & Hr).
  - repeat split; try reflexivity; try discriminate. left. reflexivity.
  - repeat constructor; discriminate.
  - exists body. apply Hr.
Defined.
