(* ===== verification/JsonNumber.v ===== *)
(** * Numbers as JSON text: [core/json.c]

    [is_json_number], [put_number], [put_raw_number] and
    [put_canonical_number].  The digits of a double are yyjson's to find
    ([yyjson_write_number]): here a parameter. *)

From Stdlib Require Import SpecFloat.
From S2P Require Import Prelude.
From S2P Require Import Texts.
From S2P Require Import Utf8.
From S2P Require Import JsonPath.
From S2P Require Import JsonBuffer.

Local Open Scope Z_scope.
Local Open Scope json_scope.

Definition MINUS : Z := 0x2d.
Definition PLUS : Z := 0x2b.
Definition POINT : Z := 0x2e.
Definition ZERO : Z := 0x30.

(** ** The code *)

Definition is_digit (c : Z) : bool := (0x30 <=? c) && (c <=? 0x39).
Definition is_exponent (c : Z) : bool := (c =? 0x65) || (c =? 0x45).

(** [while (i < n && s[i] is a digit) i++], on what is left of the text. *)
Fixpoint skip_digits (s : bytes) : bytes :=
  match s with
  | c :: r => if is_digit c then skip_digits r else s
  | [] => []
  end.

(** At least one digit, then what is left. *)
Definition some_digits (s : bytes) : option bytes :=
  let r := skip_digits s in if (length r =? length s)%nat then None else Some r.

Definition number_integer (s : bytes) : option bytes :=
  match s with
  | c :: r =>
      if c =? ZERO then Some r
      else if (0x31 <=? c) && (c <=? 0x39) then Some (skip_digits s)
      else None
  | [] => None
  end.

Definition number_fraction (s : bytes) : option bytes :=
  match s with
  | c :: r => if c =? POINT then some_digits r else Some s
  | [] => Some s
  end.

Definition skip_sign (s : bytes) : bytes :=
  match s with
  | c :: r => if (c =? PLUS) || (c =? MINUS) then r else s
  | [] => s
  end.

Definition number_exponent (s : bytes) : option bytes :=
  match s with
  | c :: r => if is_exponent c then some_digits (skip_sign r) else Some s
  | [] => Some s
  end.

Definition skip_minus (s : bytes) : bytes :=
  match s with
  | c :: r => if c =? MINUS then r else s
  | [] => s
  end.

Definition is_json_number (s : bytes) : bool :=
  match (r ← number_integer (skip_minus s); r ← number_fraction r; number_exponent r) with
  | Some r => bool_decide (r = [])
  | None => false
  end.

(** ** RFC 8259's grammar *)

Definition grammar_int (s : bytes) : Prop :=
  s = [ZERO] ∨ ∃ d ds, s = d :: ds ∧ 0x31 ≤ d ≤ 0x39 ∧ Forall digit ds.
Definition grammar_frac (s : bytes) : Prop :=
  s = [] ∨ ∃ ds, s = POINT :: ds ∧ ds ≠ [] ∧ Forall digit ds.
Definition grammar_exp (s : bytes) : Prop :=
  s = [] ∨ ∃ e sign ds, s = e :: sign ++ ds ∧ (e = 0x65 ∨ e = 0x45) ∧
    (sign = [] ∨ sign = [PLUS] ∨ sign = [MINUS]) ∧ ds ≠ [] ∧ Forall digit ds.

Definition grammar_number (s : bytes) : Prop :=
  ∃ minus int frac exp, s = minus ++ int ++ frac ++ exp ∧
    (minus = [] ∨ minus = [MINUS]) ∧ grammar_int int ∧ grammar_frac frac ∧ grammar_exp exp.

(** ** The two agree *)

Lemma is_digit_iff c : is_digit c = true ↔ digit c.
Proof. unfold is_digit, digit. rewrite andb_true_iff, !Z.leb_le. done. Qed.

(** What does not go on with a digit. *)
Definition no_digit (s : bytes) : Prop := match s with c :: _ => ¬ digit c | [] => True end.

Lemma skip_digits_app ds r : Forall digit ds → no_digit r → skip_digits (ds ++ r) = r.
Proof.
  intros Hds Hr. induction Hds as [|d ds Hd Hds IH]; simpl.
  - destruct r as [|c r]; [done|]. simpl. destruct (is_digit c) eqn:E; [|done].
    by apply is_digit_iff in E.
  - by rewrite (proj2 (is_digit_iff d) Hd).
Qed.

Lemma skip_digits_split s : ∃ ds, s = ds ++ skip_digits s ∧ Forall digit ds ∧ no_digit (skip_digits s).
Proof.
  induction s as [|c s (ds & E & Hds & Hr)]; [by exists []|]. simpl.
  destruct (is_digit c) eqn:Ec.
  - apply is_digit_iff in Ec. exists (c :: ds). simpl. rewrite <- E. by split; [|split; [constructor|]].
  - exists []. split_and!; [done..|]. simpl. intros Hc. apply is_digit_iff in Hc. congruence.
Qed.

Lemma some_digits_app ds r :
  ds ≠ [] → Forall digit ds → no_digit r → some_digits (ds ++ r) = Some r.
Proof.
  intros Hne Hds Hr. unfold some_digits. rewrite skip_digits_app by done.
  rewrite length_app. destruct ds; [done|]. simpl. by rewrite (proj2 (Nat.eqb_neq _ _)) by lia.
Qed.

Lemma some_digits_inv s r :
  some_digits s = Some r → ∃ ds, s = ds ++ r ∧ ds ≠ [] ∧ Forall digit ds ∧ no_digit r.
Proof.
  unfold some_digits. destruct (skip_digits_split s) as (ds & E & Hds & Hr).
  destruct (Nat.eqb_spec (length (skip_digits s)) (length s)) as [|Hne]; [done|].
  intros [= <-]. exists ds. split_and!; [done| |done..]. intros ->. apply Hne. simpl in E. congruence.
Qed.

Lemma grammar_exp_no_digit s : grammar_exp s → no_digit s.
Proof.
  intros [->|(e & sign & ds & -> & [->| ->] & _)]; unfold no_digit, digit; lia || done.
Qed.

Lemma grammar_frac_no_digit s t : grammar_frac s → grammar_exp t → no_digit (s ++ t).
Proof.
  intros [->|(ds & -> & _)] Ht; [by apply grammar_exp_no_digit|]. simpl.
  unfold digit, POINT. lia.
Qed.

Lemma number_exponent_grammar s : grammar_exp s → number_exponent s = Some [].
Proof.
  intros [->|(e & sign & ds & -> & He & Hsign & Hne & Hds)]; [done|]. unfold number_exponent.
  replace (is_exponent e) with true by (by destruct He as [->| ->]).
  assert (skip_sign (sign ++ ds) = ds) as ->.
  { destruct Hsign as [->|[->| ->]]; [|done..]. destruct Hds as [|d ds Hd _]; [done|]. simpl.
    unfold digit, PLUS, MINUS in *. by ztest. }
  rewrite <- (app_nil_r ds). by apply some_digits_app.
Qed.

Lemma number_fraction_grammar s t :
  grammar_frac s → grammar_exp t → number_fraction (s ++ t) = Some t.
Proof.
  intros [->|(ds & -> & Hne & Hds)] Ht; simpl.
  - destruct Ht as [->|(e & sign & ds & -> & [->| ->] & _)]; done.
  - apply some_digits_app; [done..|by apply grammar_exp_no_digit].
Qed.

Lemma number_integer_grammar s t :
  grammar_int s → no_digit t → number_integer (s ++ t) = Some t.
Proof.
  intros [->|(d & ds & -> & Hd & Hds)] Ht; [done|]. unfold number_integer. simpl app. cbn iota.
  unfold ZERO. rewrite (proj2 (Z.eqb_neq d 0x30)), !(proj2 (Z.leb_le _ _)) by lia. simpl andb. cbn iota.
  f_equal. change (d :: ds ++ t) with ((d :: ds) ++ t). apply skip_digits_app; [|done].
  constructor; [unfold digit; lia|done].
Qed.

Lemma is_json_number_of_grammar s : grammar_number s → is_json_number s = true.
Proof.
  intros (minus & int & frac & exp & -> & Hminus & Hint & Hfrac & Hexp). unfold is_json_number.
  assert (skip_minus (minus ++ int ++ frac ++ exp) = int ++ frac ++ exp) as ->.
  { destruct Hminus as [->| ->]; [|done].
    destruct Hint as [->|(d & ds & -> & Hd & _)]; [done|]. simpl. unfold MINUS. by ztest. }
  rewrite number_integer_grammar by (done || by apply grammar_frac_no_digit). simpl.
  rewrite number_fraction_grammar by done. simpl. by rewrite number_exponent_grammar.
Qed.

Lemma grammar_of_is_json_number s : is_json_number s = true → grammar_number s.
Proof.
  unfold is_json_number.
  destruct (number_integer (skip_minus s)) as [r1|] eqn:Hi; simpl; [|done].
  destruct (number_fraction r1) as [r2|] eqn:Hf; simpl; [|done].
  destruct (number_exponent r2) as [r3|] eqn:He; [|done].
  intros ->%bool_decide_eq_true.
  assert (grammar_exp r2) as Hexp.
  { unfold number_exponent in He. destruct r2 as [|e r2]; [by left|].
    destruct (is_exponent e) eqn:Ee; [|done]. right.
    apply some_digits_inv in He as (ds & Eds & Hne & Hds & _). rewrite app_nil_r in Eds.
    unfold is_exponent in Ee. apply orb_true_iff in Ee. rewrite !Z.eqb_eq in Ee.
    unfold skip_sign in Eds. destruct r2 as [|c r2]; [by subst|].
    destruct ((c =? PLUS) || (c =? MINUS)) eqn:Ec.
    - exists e, [c], ds. subst r2. split_and!; [done..| |done|done].
      apply orb_true_iff in Ec. rewrite !Z.eqb_eq in Ec. destruct Ec as [->| ->]; auto.
    - exists e, [], ds. rewrite Eds. auto. }
  assert (∃ frac, r1 = frac ++ r2 ∧ grammar_frac frac) as (frac & -> & Hfrac).
  { unfold number_fraction in Hf. destruct r1 as [|c r1]; [injection Hf as <-; exists []; by split; [|left]|].
    destruct (Z.eqb_spec c POINT) as [->|].
    - apply some_digits_inv in Hf as (ds & -> & Hne & Hds & _).
      exists (POINT :: ds). split; [done|]. right. eauto.
    - injection Hf as <-. exists []. by split; [|left]. }
  assert (∃ int, skip_minus s = int ++ frac ++ r2 ∧ grammar_int int) as (int & Es & Hint).
  { unfold number_integer in Hi. destruct (skip_minus s) as [|d r]; [done|].
    destruct (Z.eqb_spec d ZERO) as [->|]; [injection Hi as <-; exists [ZERO]; by split; [|left]|].
    destruct (Z.leb_spec 0x31 d), (Z.leb_spec d 0x39); simpl in Hi; try done.
    injection Hi as Hi. destruct (skip_digits_split (d :: r)) as (ds & E & Hds & _).
    exists ds. split; [by rewrite <- Hi|]. right.
    destruct ds as [|d' ds].
    2: { injection E as <- _. apply Forall_cons in Hds as [_ Hds]. by exists d, ds. }
    simpl in E. exfalso. assert (is_digit d = true) as Hd.
    { unfold is_digit. by ztest. }
    rewrite Hd in E. apply (f_equal length) in E.
    destruct (skip_digits_split r) as (ds' & E' & _). apply (f_equal length) in E'.
    rewrite length_app in E'. simpl in E. lia. }
  unfold skip_minus in Es. destruct s as [|c s]; [by exists [], int, frac, r2; auto|].
  destruct (Z.eqb_spec c MINUS) as [->|].
  - exists [MINUS], int, frac, r2. rewrite Es. auto.
  - exists [], int, frac, r2. rewrite Es. auto.
Qed.

(** [is_json_number] accepts exactly RFC 8259's numbers. *)
Theorem is_json_number_grammar s : is_json_number s = true ↔ grammar_number s.
Proof. split; [apply grammar_of_is_json_number|apply is_json_number_of_grammar]. Qed.

(** ** Writing numbers: the code *)

(** What yyjson's value holds of a number. *)
Inductive number := SInt (z : Z) | UInt (z : Z) | Real (f : spec_float).

(** What reading a number's text as JSON5 answers. *)
Inductive number_read := NumberIs (v : number) | NumberRefused | NumberMemory.

(** yyjson, as far as these functions use it: [yyjson_write_number], and
    [yyjson_read_opts] of one number. *)
Class NumberText := {
  write_number : number → option bytes;
  read_number : bytes → number_read }.

Definition is_nan (f : spec_float) : bool := match f with S754_nan => true | _ => false end.
Definition is_finite (f : spec_float) : bool :=
  match f with S754_zero _ | S754_finite _ _ _ => true | _ => false end.
Definition is_zero (f : spec_float) : bool := match f with S754_zero _ => true | _ => false end.
(** [f < 0], for a finite [f]. *)
Definition is_negative (f : spec_float) : bool :=
  match f with S754_finite s _ _ => s | _ => false end.

(** [yyjson_get_num]'s double is finite for every integer. *)
Definition number_finite (v : number) : bool := match v with Real f => is_finite f | _ => true end.
Definition number_nan (v : number) : bool := match v with Real f => is_nan f | _ => false end.

Definition put_written `{Allocator} (text : option bytes) (otherwise : bytes) : writer :=
  match text with
  | Some text => put text
  | None => refuse otherwise
  end.

(** [put_number], of a Lua integer or float. *)
Definition put_number `{Allocator, NumberText} (v : number) : writer :=
  if negb (number_finite v) then
    refuse (if number_nan v then lit "cannot encode NaN" else lit "cannot encode an infinite number")
  else put_written (write_number v) (lit "cannot encode a number").

(** The place of the first point in [s], or its length. *)
Fixpoint point_of (s : bytes) : nat :=
  match s with
  | [] => O
  | c :: s => if c =? POINT then O else S (point_of s)
  end.

(** A number's digits with no digit left out around its point: what
    [put_raw_number] writes after the sign. *)
Definition put_completed `{Allocator} (s : bytes) : writer :=
  (match s with c :: _ => if c =? POINT then put [ZERO] else done_ok | [] => done_ok end) ;;
  (let point := point_of s in
   if (point <? length s)%nat
      && match drop (point + 1) s with [] => true | c :: _ => is_exponent c end
   then put (take point s) ;; put [POINT; ZERO] ;; put (drop (point + 1) s)
   else put s).

Definition set_text (s : bytes) (e : encoding) : encoding :=
  Encoding s (e_cap e) (e_failure e) (e_path e) (e_out_of_memory e) (e_asked e).

Definition put_rewritten `{Allocator} (s : bytes) : writer :=
  match s with
  | c :: r =>
      if c =? PLUS then put_completed r
      else if c =? MINUS then put [MINUS] ;; put_completed r
      else put_completed s
  | [] => put_completed s
  end.

Definition put_raw_number `{Allocator, NumberText} (s : bytes) : writer := λ e,
  if is_json_number s then put s e
  else
    let start := length (e_text e) in
    let '(e1, ok) := put_rewritten s e in
    if negb ok then (e1, false)
    else if is_json_number (drop start (e_text e1)) then (e1, true)
    else
      let e2 := set_text (take start (e_text e1)) e1 in
      match read_number s with
      | NumberMemory => refuse_memory e2
      | NumberRefused => refuse (lit "cannot format a number") e2
      | NumberIs v =>
          put_written (if number_finite v then write_number v else None)
            (if number_nan v then lit "cannot format NaN" else lit "cannot format an infinite number") e2
      end.

(** [sizeof digits] of [put_canonical_number]. *)
Definition DIGITS : nat := 24.

(** Its loop over [shortest] up to an exponent: the digits kept, the point
    counted from them, and what is left. *)
Fixpoint scan (s digits : bytes) (point : Z) (seen_point : bool) : bytes * Z * bytes :=
  match s with
  | [] => (digits, point, [])
  | c :: r =>
      if is_exponent c then (digits, point, s)
      else if c =? POINT then scan r digits point true
      else if bool_decide (digits = []) && (c =? ZERO) then
        scan r digits (if seen_point then point - 1 else point) seen_point
      else
        scan r (if (length digits <? DIGITS)%nat then digits ++ [c] else digits)
          (if seen_point then point else point + 1) seen_point
  end.

Definition digits_value (v : Z) (ds : bytes) : Z := foldl (λ v d, v * 10 + (d - ZERO)) v ds.

Fixpoint take_digits (s : bytes) : bytes :=
  match s with
  | c :: r => if is_digit c then c :: take_digits r else []
  | [] => []
  end.

(** [atoi] of a text that opens with no white space. *)
Definition atoi (s : bytes) : Z :=
  let v := digits_value 0 (take_digits (skip_sign s)) in
  match s with c :: _ => if c =? MINUS then - v else v | [] => v end.

(** [while (count > 1 && digits[count - 1] == '0') count--], on the digits
    in reverse. *)
Fixpoint strip_zeros (backwards : bytes) : bytes :=
  match backwards with
  | c :: (_ :: _) as r => if c =? ZERO then strip_zeros r else backwards
  | _ => backwards
  end.

Definition zeros (n : Z) : bytes := replicate (Z.to_nat n) ZERO.

(** The layout of the digits 0.<digits> times ten to the [point]. *)
Definition lay_out (digits : bytes) (point : Z) : bytes :=
  let count := Z.of_nat (length digits) in
  if (count <=? point) && (point <=? 21) then digits ++ zeros (point - count)
  else if (0 <? point) && (point <=? 21) then
    take (Z.to_nat point) digits ++ [POINT] ++ drop (Z.to_nat point) digits
  else if (-6 <? point) && (point <=? 0) then [ZERO; POINT] ++ zeros (- point) ++ digits
  else
    take 1 digits ++ (if 1 <? count then POINT :: drop 1 digits else [])
    ++ [0x65; if point - 1 <? 0 then MINUS else PLUS] ++ decimal (Z.abs (point - 1)).

(** What is written for a number but zero whose shortest text is [shortest],
    less its sign. *)
Definition canonical (shortest : bytes) : option bytes :=
  let '(digits, point, tail) := scan (skip_minus shortest) [] 0 false in
  let point := match tail with [] => point | _ :: tail => point + atoi tail end in
  if bool_decide (digits = []) then None
  else Some (lay_out (rev (strip_zeros (rev digits))) point).

Definition put_canonical_number `{Allocator, NumberText} (f : spec_float) : writer :=
  if is_zero f then put [ZERO]
  else
    match (shortest ← write_number (Real f); canonical shortest) with
    | None => refuse (lit "cannot format a number")
    | Some text => put ((if is_negative f then [MINUS] else []) ++ text)
    end.

(** ** The value of a number's text *)

(** The mantissa and the power of ten a decimal text names. *)
Definition number_value (s : bytes) : Z * Z :=
  let body := skip_sign s in
  let rest := skip_digits body in
  let '(frac, rest) :=
    match rest with
    | c :: r => if c =? POINT then (take_digits r, skip_digits r) else ([], rest)
    | [] => ([], [])
    end in
  let exp := match rest with c :: r => if is_exponent c then atoi r else 0 | [] => 0 end in
  let m := digits_value 0 (take_digits body ++ frac) in
  (match s with c :: _ => if c =? MINUS then - m else m | [] => m end,
   exp - Z.of_nat (length frac)).

(** Two such name one number. *)
Definition same_number (x y : Z * Z) : Prop :=
  ∃ k, 0 ≤ x.2 + k ∧ 0 ≤ y.2 + k ∧ x.1 * 10 ^ (x.2 + k) = y.1 * 10 ^ (y.2 + k).

#[export] Instance same_number_equivalence : Equivalence same_number.
Proof.
  split.
  - intros [m e]. exists (Z.abs e). simpl. lia.
  - intros [m e] [n f] (k & ? & ? & H). exists k. by rewrite H.
  - intros [m e] [n f] [p g] (k & ? & ? & H) (l & ? & ? & H'). simpl in *.
    exists (k + l + Z.abs e + Z.abs f + Z.abs g). simpl. split_and!; [lia..|].
    assert (∀ m n e f k j, 0 ≤ e + k → 0 ≤ f + k → 0 ≤ j → m * 10 ^ (e + k) = n * 10 ^ (f + k) →
      m * 10 ^ (e + (k + j)) = n * 10 ^ (f + (k + j))) as Hup.
    { intros m' n' e' f' k' j ? ? ? E. rewrite !Z.add_assoc, !(Z.pow_add_r _ _ j), !Z.mul_assoc by lia.
      by rewrite E. }
    pose proof (Hup m n e f k (l + Z.abs e + Z.abs f + Z.abs g) ltac:(lia) ltac:(lia) ltac:(lia) H) as E1.
    pose proof (Hup n p f g l (k + Z.abs e + Z.abs f + Z.abs g) ltac:(lia) ltac:(lia) ltac:(lia) H') as E2.
    replace (k + (l + Z.abs e + Z.abs f + Z.abs g)) with (k + l + Z.abs e + Z.abs f + Z.abs g) in E1 by lia.
    replace (l + (k + Z.abs e + Z.abs f + Z.abs g)) with (k + l + Z.abs e + Z.abs f + Z.abs g) in E2 by lia.
    congruence.
Qed.

(** A mantissa times a power of ten, the exponent that much less. *)
Lemma same_number_scale m e n : 0 ≤ n → same_number (m * 10 ^ n, e - n) (m, e).
Proof.
  intros Hn. exists (Z.abs e + n). simpl. split_and!; [lia..|].
  rewrite <- Z.mul_assoc, <- Z.pow_add_r by lia. do 2 f_equal. lia.
Qed.

Lemma take_digits_app ds r : Forall digit ds → no_digit r → take_digits (ds ++ r) = ds.
Proof.
  intros Hds Hr. induction Hds as [|d ds Hd Hds IH]; simpl.
  - destruct r as [|c r]; [done|]. simpl. destruct (is_digit c) eqn:E; [|done].
    by apply is_digit_iff in E.
  - by rewrite (proj2 (is_digit_iff d) Hd), IH.
Qed.

Lemma digits_value_app v a b : digits_value v (a ++ b) = digits_value (digits_value v a) b.
Proof. unfold digits_value. by rewrite foldl_app. Qed.

Lemma digits_value_from v ds :
  digits_value v ds = v * 10 ^ Z.of_nat (length ds) + digits_value 0 ds.
Proof.
  induction ds as [|d ds IH] using rev_ind; [simpl; lia|].
  rewrite !digits_value_app, IH, length_app. simpl.
  rewrite Nat2Z.inj_add, Z.pow_add_r by lia. change (10 ^ Z.of_nat (length [d])) with 10. lia.
Qed.

(** The value of an exponent's text. *)
Definition exp_value (s : bytes) : Z := match s with _ :: r => atoi r | [] => 0 end.

Definition signs (s : bytes) : Prop := s = [] ∨ s = [PLUS] ∨ s = [MINUS].

Definition signed (sign : bytes) (m : Z) : Z := if bool_decide (sign = [MINUS]) then - m else m.

Lemma digit_no_sign c : digit c → (c =? PLUS) || (c =? MINUS) = false.
Proof. unfold digit, PLUS, MINUS. intros H. apply orb_false_iff. rewrite !Z.eqb_neq. lia. Qed.

Lemma exponent_value exp :
  grammar_exp exp →
  match exp with c :: r => if is_exponent c then atoi r else 0 | [] => 0 end = exp_value exp.
Proof. by intros [->|(e & sign & ds & -> & [->| ->] & _)]. Qed.

Lemma skip_sign_app sign s :
  signs sign → (match s with c :: _ => (c =? PLUS) || (c =? MINUS) = false | [] => True end) →
  skip_sign (sign ++ s) = s.
Proof.
  intros [->|[->| ->]] Hs; [|done..]. simpl. destruct s as [|c s]; [done|]. simpl. by rewrite Hs.
Qed.

(** A text's value, from its parts; [point] says whether it has a point. *)
Lemma number_value_parts sign int (point : bool) frac exp :
  signs sign → Forall digit int → Forall digit frac → grammar_exp exp →
  (point = false → frac = [] ∧ int ≠ []) →
  number_value (sign ++ int ++ (if point then POINT :: frac else []) ++ exp)
  = (signed sign (digits_value 0 (int ++ frac)), exp_value exp - Z.of_nat (length frac)).
Proof.
  intros Hsign Hint Hfrac Hexp Hpoint. unfold number_value.
  assert (∃ tail, tail = (if point then POINT :: frac else []) ++ exp ∧ no_digit tail) as (tail & Et & Htail).
  { eexists. split; [done|]. destruct point; [|by apply grammar_exp_no_digit]. simpl.
    unfold digit, POINT. lia. }
  rewrite <- Et.
  assert (match int ++ tail with c :: _ => (c =? PLUS) || (c =? MINUS) = false | [] => True end) as Hhead.
  { destruct Hint as [|d ds Hd _]; [|by apply digit_no_sign]. rewrite Et. destruct point; [done|].
    by destruct (Hpoint eq_refl). }
  rewrite skip_sign_app, skip_digits_app, take_digits_app by done.
  assert (match sign ++ int ++ tail with c :: _ => if c =? MINUS then - digits_value 0 (int ++ frac)
    else digits_value 0 (int ++ frac) | [] => digits_value 0 (int ++ frac) end
    = signed sign (digits_value 0 (int ++ frac))) as Hsigned.
  { destruct Hsign as [->|[->| ->]]; [|done..]. simpl. destruct (int ++ tail) as [|c r]; [done|].
    apply orb_false_iff in Hhead as [_ ->]. done. }
  destruct point.
  - subst tail. simpl. rewrite skip_digits_app, take_digits_app by (done || by apply grammar_exp_no_digit).
    rewrite (exponent_value _ Hexp). f_equal. exact Hsigned.
  - destruct (Hpoint eq_refl) as [-> _]. simpl in Et. subst tail.
    replace (match exp with c :: r => if c =? POINT then (take_digits r, skip_digits r) else ([], exp)
             | [] => ([], []) end) with ([] : bytes, exp).
    2: { by destruct Hexp as [->|(e & sign' & ds & -> & [->| ->] & _)]. }
    rewrite (exponent_value _ Hexp). f_equal. exact Hsigned.
Qed.

(** ** JSON5's decimal numbers *)

(** The parts of a decimal JSON5 writes: RFC 8259's, but with a leading
    plus, no digit before the point or none after it. *)
Record decimal_parts := Parts {
  d_sign : bytes; d_int : bytes; d_point : bool; d_frac : bytes; d_exp : bytes }.

Definition json5_parts (p : decimal_parts) : Prop :=
  signs (d_sign p) ∧ (d_int p = [] ∨ grammar_int (d_int p)) ∧ Forall digit (d_frac p) ∧
  grammar_exp (d_exp p) ∧ (d_point p = false → d_frac p = [] ∧ d_int p ≠ []) ∧
  (d_int p ≠ [] ∨ d_frac p ≠ []).

Definition parts_body (p : decimal_parts) : bytes :=
  d_int p ++ (if d_point p then POINT :: d_frac p else []) ++ d_exp p.
Definition parts_text (p : decimal_parts) : bytes := d_sign p ++ parts_body p.

(** The same number, with every digit RFC 8259 asks for. *)
Definition complete (p : decimal_parts) : decimal_parts :=
  Parts (if bool_decide (d_sign p = [MINUS]) then [MINUS] else [])
    (if bool_decide (d_int p = []) then [ZERO] else d_int p) (d_point p)
    (if d_point p && bool_decide (d_frac p = []) then [ZERO] else d_frac p) (d_exp p).

Lemma point_of_app a r : Forall (λ c, c ≠ POINT) a → point_of (a ++ POINT :: r) = length a.
Proof.
  intros Ha. induction Ha as [|c a Hc Ha IH]; [done|]. simpl.
  by rewrite (proj2 (Z.eqb_neq _ _) Hc), IH.
Qed.

Lemma point_of_none a : Forall (λ c, c ≠ POINT) a → point_of a = length a.
Proof.
  intros Ha. induction Ha as [|c a Hc Ha IH]; [done|]. simpl.
  by rewrite (proj2 (Z.eqb_neq _ _) Hc), IH.
Qed.

Lemma digits_no_point ds : Forall digit ds → Forall (λ c, c ≠ POINT) ds.
Proof. intros H. eapply Forall_impl; [exact H|]. unfold digit, POINT. simpl. lia. Qed.

Lemma exp_no_point s : grammar_exp s → Forall (λ c, c ≠ POINT) s.
Proof.
  intros [->|(e & sign & ds & -> & He & Hsign & _ & Hds)]; [constructor|].
  constructor; [destruct He as [->| ->]; done|]. apply Forall_app. split; [|by apply digits_no_point].
  destruct Hsign as [->|[->| ->]]; repeat constructor; done.
Qed.

Lemma grammar_int_digits s : grammar_int s → Forall digit s.
Proof.
  intros [->|(d & ds & -> & Hd & Hds)]; constructor; try done; unfold digit, ZERO; lia.
Qed.

Lemma parts_int_digits p : json5_parts p → Forall digit (d_int p).
Proof. intros (_ & [->|Hi] & _); [constructor|by apply grammar_int_digits]. Qed.

Lemma put_completed_implements `{Allocator} p :
  json5_parts p → implements (put_completed (parts_body p)) (says (parts_body (complete p))).
Proof.
  intros Hp. pose proof (parts_int_digits p Hp) as Hid. destruct Hp as (Hs & Hi & Hf & He & Hnp & Hd).
  set (rest := (if d_point p then POINT :: (if bool_decide (d_frac p = []) then [ZERO] else d_frac p)
    else []) ++ d_exp p).
  assert (parts_body (complete p)
    = (if bool_decide (d_int p = []) then [ZERO] else []) ++ d_int p ++ rest) as ->.
  { unfold parts_body, complete, rest. simpl. case_bool_decide as E; [rewrite E|]; simpl;
      destruct (d_point p); simpl; done. }
  unfold put_completed. rewrite <- says_app. apply implements_andthen.
  { unfold parts_body. case_bool_decide as E; [rewrite E|].
    - destruct (d_point p); [|by destruct (Hnp eq_refl)]. simpl. apply implements_put.
    - destruct Hid as [|d ds Hd' _]; [done|]. simpl.
      replace (d =? POINT) with false; [apply implements_done|].
      symmetry. apply Z.eqb_neq. unfold digit, POINT in *. lia. }
  cbn zeta. unfold parts_body, rest. destruct (d_point p) eqn:Hpt; simpl app.
  - rewrite point_of_app by (by apply digits_no_point).
    assert ((length (d_int p) <? length (d_int p ++ POINT :: d_frac p ++ d_exp p))%nat = true) as ->.
    { apply Nat.ltb_lt. rewrite length_app. simpl. lia. }
    rewrite <- drop_drop, drop_app_length, take_app_length. simpl drop. rewrite drop_0.
    case_bool_decide as E.
    + rewrite E. simpl app.
      replace (match d_exp p with [] => true | c :: _ => is_exponent c end) with true.
      2: { by destruct He as [->|(e & sign & ds & -> & [->| ->] & _)]. }
      cbn [andb]. rewrite <- says_app. apply implements_andthen; [auto with writer|].
      change (POINT :: ZERO :: d_exp p) with ([POINT; ZERO] ++ d_exp p). rewrite <- says_app.
      apply implements_andthen; auto with writer.
    + destruct Hf as [|d ds Hd' _]; [done|]. simpl app. cbn iota.
      replace (is_exponent d) with false; [apply implements_put|].
      unfold is_exponent, digit in *. symmetry. apply orb_false_iff. rewrite !Z.eqb_neq. lia.
  - rewrite point_of_none by (apply Forall_app; split; [by apply digits_no_point|by apply exp_no_point]).
    rewrite Nat.ltb_irrefl. apply implements_put.
Qed.

Lemma parts_body_head p c r :
  json5_parts p → parts_body p = c :: r → (c =? PLUS) || (c =? MINUS) = false.
Proof.
  intros Hp. pose proof (parts_int_digits p Hp) as Hid. destruct Hp as (Hs & Hi & Hf & He & Hnp & Hd).
  unfold parts_body. destruct Hid as [|d ds Hdig _].
  - destruct (d_point p); [|by destruct (Hnp eq_refl)]. by intros [= <- _].
  - intros [= <- _]. by apply digit_no_sign.
Qed.

Lemma put_rewritten_implements `{Allocator} p :
  json5_parts p → implements (put_rewritten (parts_text p)) (says (parts_text (complete p))).
Proof.
  intros Hp. pose proof (put_completed_implements p Hp) as Hb. unfold parts_text, put_rewritten.
  pose proof Hp as (Hs & _). unfold complete at 1. cbn [d_sign].
  destruct Hs as [->|[->| ->]]; [|exact Hb|]; simpl.
  - destruct (parts_body p) as [|c r] eqn:E; [exact Hb|].
    apply parts_body_head in E as E'; [|done]. apply orb_false_iff in E' as [-> ->]. exact Hb.
  - change (MINUS :: parts_body (complete p)) with ([MINUS] ++ parts_body (complete p)).
    rewrite <- says_app. apply implements_andthen; [auto with writer|exact Hb].
Qed.

Lemma complete_grammar p : json5_parts p → is_json_number (parts_text (complete p)) = true.
Proof.
  intros (Hs & Hi & Hf & He & Hnp & Hd). apply is_json_number_of_grammar.
  unfold parts_text, parts_body, complete. cbn [d_sign d_int d_point d_frac d_exp].
  eexists _, _, _, _. split; [reflexivity|]. split_and!.
  - case_bool_decide; auto.
  - case_bool_decide as E; [by left|]. by destruct Hi.
  - destruct (d_point p); [|by left]. right. eexists. split; [done|]. simpl.
    case_bool_decide; [split; [done|]|by split].
    apply Forall_singleton. unfold digit, ZERO. lia.
  - done.
Qed.

Lemma complete_value p :
  json5_parts p →
  same_number (number_value (parts_text (complete p))) (number_value (parts_text p)).
Proof.
  intros Hp. pose proof (parts_int_digits p Hp) as Hid. destruct Hp as (Hs & Hi & Hf & He & Hnp & Hd).
  assert (Forall digit [ZERO]) as Hz by (apply Forall_singleton; unfold digit, ZERO; lia).
  unfold parts_text, parts_body.
  rewrite (number_value_parts (d_sign p)) by done.
  rewrite number_value_parts; cbn [complete d_sign d_int d_point d_frac d_exp].
  2: { case_bool_decide; [right; by right|by left]. }
  2: { by case_bool_decide. }
  2: { by destruct (d_point p && _). }
  2: { done. }
  2: { intros E. rewrite E. simpl. destruct (Hnp E). case_bool_decide; done. }
  replace (signed (if bool_decide (d_sign p = [MINUS]) then [MINUS] else []))
    with (signed (d_sign p)).
  2: { unfold signed. by case_bool_decide. }
  assert (∀ f, digits_value 0 ((if bool_decide (d_int p = []) then [ZERO] else d_int p) ++ f)
    = digits_value 0 (d_int p ++ f)) as ->.
  { intros f. case_bool_decide as E; [by rewrite E|done]. }
  destruct (d_point p && bool_decide (d_frac p = [])) eqn:E; [|reflexivity].
  apply andb_true_iff in E as [_ ->%bool_decide_eq_true]. rewrite app_nil_r, digits_value_app. simpl.
  transitivity (signed (d_sign p) (digits_value 0 (d_int p)) * 10 ^ 1, exp_value (d_exp p) - 1).
  2: { etransitivity; [by apply same_number_scale|]. by rewrite Z.sub_0_r. }
  replace (signed _ (_ * 10 + _)) with (signed (d_sign p) (digits_value 0 (d_int p)) * 10 ^ 1);
    [reflexivity|]. unfold signed, ZERO. change (10 ^ 1) with 10. case_bool_decide; lia.
Qed.

(** A number JSON5 writes in decimal is written as RFC 8259 writes it,
    with the same digits: the text is a JSON number of the same value, and
    the number's own text where that is one already. *)
Theorem put_raw_number_keeps_value `{Allocator, NumberText} p :
  json5_parts p →
  ∃ t, implements (put_raw_number (parts_text p)) (says t) ∧
    is_json_number t = true ∧ same_number (number_value t) (number_value (parts_text p)) ∧
    (is_json_number (parts_text p) = true → t = parts_text p).
Proof.
  intros Hp. destruct (is_json_number (parts_text p)) eqn:Hj.
  { exists (parts_text p). split_and!; [|done|reflexivity|done].
    intros e He. unfold put_raw_number. rewrite Hj. by apply implements_put. }
  exists (parts_text (complete p)).
  split_and!; [|by apply complete_grammar|by apply complete_value|done].
  intros e He. unfold put_raw_number. rewrite Hj. cbn zeta.
  pose proof (put_rewritten_implements p Hp e He) as Ho. unfold outcome_within in *.
  destruct (put_rewritten (parts_text p) e) as [e1 [|]]; simpl; [|exact Ho].
  destruct Ho as (_ & Hs & Ht). rewrite Ht, drop_app_length. cbn [says fst snd].
  by rewrite complete_grammar.
Qed.

Lemma put_raw_number_keeps_value_witness :
  ∃ t, is_json_number t = true ∧
    same_number (number_value t) (number_value [0x2b; 0x2e; 0x35; 0x65; 0x33]).
Proof.
  destruct (@put_raw_number_keeps_value (λ _, false)
    {| write_number := λ _, None; read_number := λ _, NumberRefused |}
    (Parts [PLUS] [] true [0x35] [0x65; 0x33])) as (t & _ & Ht & Hv & _).
  - split_and!; simpl; auto; try discriminate.
    + right. by left.
    + repeat constructor; discriminate.
    + right. exists 0x65, [], [0x33]. split_and!; auto; try discriminate.
      repeat constructor; discriminate.
  - exists t. by split.
Defined.
