(* ===== verification/JsonCanonical.v ===== *)
(** * Canonical numbers: [core/json.c], [put_canonical_number]

    RFC 8785's number: the digits yyjson found, laid out as ECMAScript lays
    them out.  The text is a JSON number of the value yyjson's was, and
    depends on that value alone. *)

From stdpp Require Import pretty.
From Stdlib Require Import SpecFloat.
From S2P Require Import Prelude.
From S2P Require Import Texts.
From S2P Require Import Utf8.
From S2P Require Import JsonPath.
From S2P Require Import JsonBuffer.
From S2P Require Import JsonNumber.

Local Open Scope Z_scope.

(** ** Canonical numbers *)

Fixpoint strip_leading (ds : bytes) : bytes :=
  match ds with
  | d :: r => if d =? ZERO then strip_leading r else ds
  | [] => []
  end.

(** The digits kept once [ds] are read after [digits]. *)
Definition kept_digits (digits ds : bytes) : bytes :=
  match digits with [] => strip_leading ds | _ => digits ++ ds end.

Lemma kept_digits_cons digits d ds :
  kept_digits digits (d :: ds)
  = kept_digits (if bool_decide (digits = []) && (d =? ZERO) then digits else digits ++ [d]) ds.
Proof.
  destruct digits as [|x digits]; simpl; [by destruct (d =? ZERO)|]. by rewrite <- app_assoc.
Qed.

Lemma kept_digits_length digits ds : (length digits ≤ length (kept_digits digits ds))%nat.
Proof. destruct digits; simpl; [lia|]. rewrite length_app. lia. Qed.

(** Reading digits keeps count and point apart by the digits past the point. *)
Lemma scan_digits ds rest digits point seen :
  Forall digit ds → (length (kept_digits digits ds) ≤ DIGITS)%nat →
  ∃ point', scan (ds ++ rest) digits point seen = scan rest (kept_digits digits ds) point' seen ∧
    Z.of_nat (length (kept_digits digits ds)) - point'
    = Z.of_nat (length digits) - point + (if seen then Z.of_nat (length ds) else 0).
Proof.
  intros Hds. revert digits point. induction Hds as [|d ds Hd Hds IH]; intros digits point Hl.
  { exists point. destruct digits; simpl; rewrite ?app_nil_r; (split; [done|]); destruct seen; lia. }
  simpl app. cbn [scan].
  replace (is_exponent d) with false
    by (symmetry; unfold is_exponent, digit in *; apply orb_false_iff; rewrite !Z.eqb_neq; lia).
  replace (d =? POINT) with false by (symmetry; unfold POINT, digit in *; apply Z.eqb_neq; lia).
  rewrite kept_digits_cons in *.
  destruct (bool_decide (digits = []) && (d =? ZERO)) eqn:E.
  - destruct (IH digits (if seen then point - 1 else point) Hl) as (p' & -> & Hp). exists p'.
    split; [done|]. rewrite Hp. cbn [length]. destruct seen; lia.
  - pose proof (kept_digits_length (digits ++ [d]) ds) as Hk. rewrite length_app in Hk. simpl in Hk.
    rewrite (proj2 (Nat.ltb_lt _ _)) by lia.
    destruct (IH (digits ++ [d]) (if seen then point else point + 1) Hl) as (p' & -> & Hp). exists p'.
    split; [done|]. rewrite Hp, length_app. cbn [length]. destruct seen; lia.
Qed.

Lemma kept_digits_app digits a b : kept_digits (kept_digits digits a) b = kept_digits digits (a ++ b).
Proof.
  revert digits. induction a as [|d a IH]; intros digits.
  { destruct digits; simpl; by rewrite ?app_nil_r. }
  simpl app. by rewrite !kept_digits_cons, IH.
Qed.

Lemma strip_leading_value ds : digits_value 0 (strip_leading ds) = digits_value 0 ds.
Proof.
  induction ds as [|d ds IH]; simpl; [done|]. destruct (Z.eqb_spec d ZERO) as [->|]; [|done].
  rewrite IH. done.
Qed.

Lemma strip_leading_digits ds : Forall digit ds → Forall digit (strip_leading ds).
Proof.
  intros Hds. induction Hds as [|d ds Hd Hds IH]; simpl; [constructor|].
  destruct (d =? ZERO); [done|by constructor].
Qed.

Lemma strip_leading_head ds : head (strip_leading ds) ≠ Some ZERO.
Proof.
  induction ds as [|d ds IH]; simpl; [done|]. destruct (Z.eqb_spec d ZERO); [done|].
  simpl. congruence.
Qed.

(** The digits of a grammatical number, and its point. *)
Lemma scan_number int (point : bool) frac exp :
  Forall digit int → Forall digit frac → grammar_exp exp → (point = false → frac = []) →
  (length (strip_leading (int ++ frac)) ≤ DIGITS)%nat →
  ∃ p, scan (int ++ (if point then POINT :: frac else []) ++ exp) [] 0 false
    = (strip_leading (int ++ frac), p, exp) ∧
    Z.of_nat (length (strip_leading (int ++ frac))) - p = Z.of_nat (length frac).
Proof.
  intros Hint Hfrac Hexp Hpoint Hl.
  change (strip_leading (int ++ frac)) with (kept_digits [] (int ++ frac)) in *.
  assert (∀ ds p seen, scan exp ds p seen = (ds, p, exp)) as Hstop.
  { intros ds p seen. destruct Hexp as [->|(e & sign & ds' & -> & [->| ->] & _)]; done. }
  rewrite <- kept_digits_app in *.
  destruct (scan_digits int ((if point then POINT :: frac else []) ++ exp) [] 0 false Hint)
    as (p & -> & Hp).
  { etrans; [|exact Hl]. apply kept_digits_length. }
  destruct point.
  - simpl app. cbn [scan]. change (is_exponent POINT) with false. change (POINT =? POINT) with true.
    cbn iota. destruct (scan_digits frac exp (kept_digits [] int) p true Hfrac Hl) as (p' & -> & Hp').
    exists p'. rewrite Hstop. split; [done|]. change (length ([] : bytes)) with O in Hp. lia.
  - rewrite (Hpoint eq_refl) in *. exists p. simpl app. rewrite Hstop.
    assert (∀ ds, kept_digits ds [] = ds) as -> by (intros []; simpl; by rewrite ?app_nil_r).
    split; [done|]. simpl length in *. lia.
Qed.

(** Zeros at the end are taken off, but for a lone one. *)
Lemma strip_zeros_spec ds :
  ds ≠ [] →
  ∃ n, ds = rev (strip_zeros (rev ds)) ++ replicate n ZERO ∧ rev (strip_zeros (rev ds)) ≠ [] ∧
    (head ds ≠ Some ZERO → last (rev (strip_zeros (rev ds))) ≠ Some ZERO).
Proof.
  induction ds as [|x ds IH] using rev_ind; [done|]. intros _. rewrite rev_app_distr. simpl.
  destruct ds as [|y ds _] using rev_ind.
  { simpl. exists O. split_and!; done. }
  rewrite rev_app_distr in *. simpl app in *. cbn [strip_zeros].
  destruct (Z.eqb_spec x ZERO) as [->|Hx].
  - destruct IH as (n & E & Hne & Hlast); [by destruct ds|]. exists (n + 1)%nat.
    split_and!; [|done|].
    + rewrite E at 1. rewrite <- app_assoc, replicate_add. done.
    + intros Hh. apply Hlast. by destruct ds.
  - exists O. simpl. rewrite !rev_involutive, app_nil_r. split_and!; [done|by destruct ds|].
    intros _. rewrite last_snoc. congruence.
Qed.

(** *** [%d] reads back *)

Lemma digit_char_value n :
  (n < 10)%N → Z.of_N (Ascii.N_of_ascii (pretty.pretty_N_char n)) - ZERO = Z.of_N n.
Proof. intros Hn. destruct n as [|[[[|[]|]|[|[]|]|]|[[|[]|]|[|[]|]|]|]]; try done; lia. Qed.

Lemma pretty_go_value n s :
  digits_value 0 (lit (pretty.pretty_N_go n s))
  = Z.of_N n * 10 ^ Z.of_nat (length (lit s)) + digits_value 0 (lit s).
Proof.
  revert s. induction (N.lt_wf_0 n) as [n _ IH]; intros s.
  destruct (decide (n = 0%N)) as [->|Hn]; [rewrite pretty.pretty_N_go_0; lia|].
  rewrite pretty.pretty_N_go_step by lia. rewrite IH by (apply N.div_lt; lia).
  rewrite lit_cons. cbn [length]. rewrite Nat2Z.inj_succ, Z.pow_succ_r by lia.
  change (digits_value 0 (?c :: ?l)) with (digits_value (0 * 10 + (c - ZERO)) l).
  rewrite (digits_value_from (0 * 10 + _)), digit_char_value by (apply N.mod_lt; lia).
  rewrite (N.div_mod n 10) at 3 by lia. lia.
Qed.

Lemma decimal_value n : 0 ≤ n → digits_value 0 (decimal n) = n.
Proof.
  assert (∀ n : N, digits_value 0 (lit (pretty.pretty n)) = Z.of_N n) as HN.
  { intros k. unfold pretty.pretty, pretty.pretty_N. case_decide as E; [by rewrite E|].
    rewrite pretty_go_value. simpl. lia. }
  intros Hn. unfold decimal, pretty.pretty, pretty.pretty_Z.
  destruct n as [|p|p]; [done|apply (HN (N.pos p))|lia].
Qed.

Lemma decimal_nonempty n : decimal n ≠ [].
Proof.
  assert (∀ k : N, lit (pretty.pretty k) ≠ []) as HN.
  { intros k. unfold pretty.pretty, pretty.pretty_N. case_decide; [done|].
    rewrite pretty.pretty_N_go_step by lia. intros E.
    assert (∀ m s, s ≠ "" → lit (pretty.pretty_N_go m s) ≠ []) as Hgo.
    { intros m. induction (N.lt_wf_0 m) as [m _ IH]; intros s Hs.
      destruct (decide (m = 0%N)) as [->|Hm]; [rewrite pretty.pretty_N_go_0; by destruct s|].
      rewrite pretty.pretty_N_go_step by lia. apply IH; [apply N.div_lt; lia|done]. }
    by eapply Hgo; [|exact E]. }
  unfold decimal, pretty.pretty, pretty.pretty_Z. destruct n as [|p|p]; [done|apply (HN (N.pos p))|done].
Qed.

(** *** The layout *)

Lemma zeros_digits n : Forall digit (zeros n).
Proof. apply Forall_replicate. unfold digit, ZERO. lia. Qed.

Lemma digits_value_zeros v n :
  0 ≤ n → digits_value v (zeros n) = v * 10 ^ n.
Proof.
  intros Hn. rewrite digits_value_from. unfold zeros. rewrite length_replicate, Z2Nat.id by done.
  replace (digits_value 0 (replicate (Z.to_nat n) ZERO)) with 0; [lia|].
  induction (Z.to_nat n) as [|k IH]; [done|]. exact IH.
Qed.

(** The parts of [lay_out]'s text. *)
Definition lay_out_parts (sign digits : bytes) (point : Z) : decimal_parts :=
  let count := Z.of_nat (length digits) in
  if (count <=? point) && (point <=? 21) then Parts sign (digits ++ zeros (point - count)) false [] []
  else if (0 <? point) && (point <=? 21) then
    Parts sign (take (Z.to_nat point) digits) true (drop (Z.to_nat point) digits) []
  else if (-6 <? point) && (point <=? 0) then Parts sign [ZERO] true (zeros (- point) ++ digits) []
  else Parts sign (take 1 digits) (1 <? count) (drop 1 digits)
         (0x65 :: [if point - 1 <? 0 then MINUS else PLUS] ++ decimal (Z.abs (point - 1))).

Lemma lay_out_text sign digits point :
  sign ++ lay_out digits point = parts_text (lay_out_parts sign digits point).
Proof.
  unfold lay_out, lay_out_parts, parts_text, parts_body.
  destruct (_ && _); [simpl; by rewrite !app_nil_r|].
  destruct (_ && _); [simpl; by rewrite !app_nil_r|].
  destruct (_ && _); [simpl; by rewrite !app_nil_r|]. simpl.
  by destruct (1 <? _).
Qed.

(** Digits with no zero in front: those of a canonical number. *)
Definition leads (ds : bytes) : Prop := Forall digit ds ∧ ds ≠ [] ∧ head ds ≠ Some ZERO.

Lemma leads_int ds r : leads ds → Forall digit r → grammar_int (ds ++ r).
Proof.
  intros (Hds & Hne & Hh) Hr. destruct ds as [|d ds]; [done|]. right. exists d, (ds ++ r).
  apply Forall_cons in Hds as [Hd Hds]. split_and!; [done| |apply Hd|by apply Forall_app].
  unfold digit, ZERO in *. simpl in Hh. assert (d ≠ 0x30) by congruence. lia.
Qed.

Lemma lay_out_exp_grammar e :
  grammar_exp (0x65 :: [if e <? 0 then MINUS else PLUS] ++ decimal (Z.abs e)).
Proof.
  right. exists 0x65, [if e <? 0 then MINUS else PLUS], (decimal (Z.abs e)). split_and!; [done|by left| |
    apply decimal_nonempty|apply decimal_digits; lia].
  destruct (e <? 0); auto.
Qed.

Lemma lay_out_exp_value e :
  exp_value (0x65 :: [if e <? 0 then MINUS else PLUS] ++ decimal (Z.abs e)) = e.
Proof.
  unfold exp_value. simpl app.
  assert (∀ c, (c =? PLUS) || (c =? MINUS) = true →
    atoi (c :: decimal (Z.abs e)) = if c =? MINUS then - Z.abs e else Z.abs e) as Ha.
  { intros c Hc. unfold atoi, skip_sign. rewrite Hc.
    rewrite <- (app_nil_r (decimal _)), take_digits_app, decimal_value; [done|lia|apply decimal_digits; lia|done]. }
  destruct (Z.ltb_spec e 0); rewrite Ha by done; simpl; lia.
Qed.

(** What each of the four layouts is made of. *)
Lemma lay_out_parts_spec sign ds point :
  leads ds →
  let P := lay_out_parts sign ds point in
  d_sign P = sign ∧ grammar_int (d_int P) ∧ Forall digit (d_frac P) ∧ grammar_exp (d_exp P) ∧
  (d_point P = true → d_frac P ≠ []) ∧ (d_point P = false → d_frac P = []) ∧
  ∃ n, 0 ≤ n ∧ digits_value 0 (d_int P ++ d_frac P) = digits_value 0 ds * 10 ^ n ∧
    exp_value (d_exp P) - Z.of_nat (length (d_frac P)) = point - Z.of_nat (length ds) - n.
Proof.
  intros Hds. pose proof Hds as (Hdig & Hne & Hhead).
  assert (0 < length ds)%nat as Hlen by (destruct ds; simpl; [done|lia]).
  assert (∀ n, 0 < n → leads (take (Z.to_nat n) ds)) as Htake.
  { intros n Hn. split_and!; [by apply Forall_take| |].
    - destruct ds; [done|]. by replace (Z.to_nat n) with (S (Z.to_nat (n - 1))) by lia.
    - destruct ds; [done|]. by replace (Z.to_nat n) with (S (Z.to_nat (n - 1))) by lia. }
  assert (∀ n, Forall digit (drop n ds)) as Hdrop by (intros; by apply Forall_drop).
  unfold lay_out_parts.
  destruct ((Z.of_nat (length ds) <=? point) && (point <=? 21)) eqn:C1.
  { apply andb_true_iff in C1 as [C1 C1']. apply Z.leb_le in C1.
    cbn [d_sign d_int d_point d_frac d_exp].
    split_and!; try done; [apply leads_int; [done|apply zeros_digits]|by left|].
    exists (point - Z.of_nat (length ds)). rewrite app_nil_r, digits_value_app, digits_value_zeros by lia.
    simpl. split_and!; [lia|done|lia]. }
  destruct ((0 <? point) && (point <=? 21)) eqn:C2.
  { apply andb_true_iff in C2 as [C2 C2']. rewrite C2', andb_true_r in C1.
    apply Z.ltb_lt in C2. apply Z.leb_gt in C1.
    cbn [d_sign d_int d_point d_frac d_exp]. split_and!; [done| |done|by left| |done|].
    - rewrite <- (app_nil_r (take _ _)). by apply leads_int; [apply Htake|constructor].
    - intros _ E. apply (f_equal length) in E. rewrite length_drop in E. simpl in E. lia.
    - exists 0. rewrite take_drop, length_drop. simpl. split_and!; [lia|lia|lia]. }
  destruct ((-6 <? point) && (point <=? 0)) eqn:C3.
  { apply andb_true_iff in C3 as [_ C3]. apply Z.leb_le in C3.
    cbn [d_sign d_int d_point d_frac d_exp]. split_and!; [done|by left| |by left| |done|].
    - apply Forall_app. by split; [apply zeros_digits|].
    - intros _ E. apply app_nil in E as [_ E]. done.
    - exists 0. change ([ZERO] ++ zeros (- point) ++ ds) with (ZERO :: zeros (- point) ++ ds).
      change (digits_value 0 (ZERO :: ?l)) with (digits_value 0 l).
      rewrite digits_value_app, digits_value_zeros, length_app by lia. unfold zeros.
      rewrite length_replicate. simpl. split_and!; [lia| |lia]. by rewrite Z.mul_1_r. }
  cbn [d_sign d_int d_point d_frac d_exp]. split_and!; [done| |done|apply lay_out_exp_grammar| | |].
  - rewrite <- (app_nil_r (take _ _)). apply leads_int; [|constructor]. by apply (Htake 1).
  - intros C. apply Z.ltb_lt in C. intros E. apply (f_equal length) in E.
    rewrite length_drop in E. simpl in E. lia.
  - intros C. apply Z.ltb_ge in C. apply length_zero_iff_nil. rewrite length_drop. lia.
  - exists 0. rewrite take_drop, length_drop, lay_out_exp_value. split_and!; [lia|lia|lia].
Qed.

Lemma signed_scale sign m n : signed sign (m * n) = signed sign m * n.
Proof. unfold signed. case_bool_decide; lia. Qed.

(** What is laid out is a JSON number of the digits' value. *)
Lemma lay_out_number sign ds point :
  sign = [] ∨ sign = [MINUS] → leads ds →
  is_json_number (sign ++ lay_out ds point) = true ∧
  same_number (number_value (sign ++ lay_out ds point))
    (signed sign (digits_value 0 ds), point - Z.of_nat (length ds)).
Proof.
  intros Hsign Hds. rewrite lay_out_text.
  pose proof (lay_out_parts_spec sign ds point Hds) as H. cbn zeta in H.
  set (P := lay_out_parts sign ds point) in *.
  destruct H as (E1 & E2 & E3 & E4 & E5 & E6 & n & Hn & Hv & He).
  unfold parts_text, parts_body. split.
  - apply is_json_number_of_grammar. exists (d_sign P), (d_int P), (if d_point P then POINT :: d_frac P else []),
      (d_exp P). split_and!; [done|by rewrite E1|done| |done].
    destruct (d_point P); [|by left]. right. exists (d_frac P). by split_and!; [|apply E5|].
  - rewrite number_value_parts; [|rewrite E1; by destruct Hsign as [->| ->]; [left|right; right]|
      by apply grammar_int_digits|done|done|].
    + rewrite Hv, He, E1, signed_scale. by apply same_number_scale.
    + intros Hp. split; [by apply E6|]. destruct E2 as [->|(? & ? & -> & _)]; done.
Qed.

(** ** What the shortest text is *)

(** A number's text as yyjson writes a double: a JSON number whose digits,
    but for zeros in front, are no more than [digits] holds, and are not
    all zero. *)
Definition shortest (P : decimal_parts) : Prop :=
  (d_sign P = [] ∨ d_sign P = [MINUS]) ∧ grammar_int (d_int P) ∧ Forall digit (d_frac P) ∧
  grammar_exp (d_exp P) ∧ (d_point P = false → d_frac P = []) ∧
  strip_leading (d_int P ++ d_frac P) ≠ [] ∧
  (length (strip_leading (d_int P ++ d_frac P)) ≤ DIGITS)%nat.

(** The magnitude a text's parts name. *)
Definition magnitude (P : decimal_parts) : Z * Z :=
  (digits_value 0 (d_int P ++ d_frac P), exp_value (d_exp P) - Z.of_nat (length (d_frac P))).

Lemma shortest_value P :
  shortest P → number_value (parts_text P) = (signed (d_sign P) (magnitude P).1, (magnitude P).2).
Proof.
  intros (Hs & Hi & Hf & He & Hp & _). unfold parts_text, parts_body. apply number_value_parts; try done.
  - destruct Hs as [->| ->]; [by left|by right; right].
  - by apply grammar_int_digits.
  - intros E. split; [by apply Hp|]. destruct Hi as [->|(? & ? & -> & _)]; done.
Qed.

Lemma rev_ne_nil {X} (l : list X) : l ≠ [] → rev l ≠ [].
Proof. intros Hl E. apply Hl. by rewrite <- (rev_involutive l), E. Qed.

(** Digits that neither open nor end with a zero. *)
Definition trimmed (ds : bytes) : Prop := leads ds ∧ last ds ≠ Some ZERO.

Lemma canonical_trimmed P :
  shortest P →
  ∃ ds p, canonical (parts_text P) = Some (lay_out ds p) ∧ trimmed ds ∧
    same_number (digits_value 0 ds, p - Z.of_nat (length ds)) (magnitude P).
Proof.
  intros (Hs & Hi & Hf & He & Hp & Hne & Hl).
  assert (skip_minus (parts_text P) = parts_body P) as Eb.
  { unfold parts_text. destruct Hs as [->| ->]; [|done]. unfold parts_body.
    destruct Hi as [->|(d & ds & -> & Hd & _)]; [done|]. simpl. unfold MINUS. by ztest. }
  unfold canonical. rewrite Eb. unfold parts_body.
  destruct (scan_number (d_int P) (d_point P) (d_frac P) (d_exp P)) as (p & -> & Hc); try done.
  { by apply grammar_int_digits. }
  rewrite bool_decide_eq_false_2 by done.
  set (ds := strip_leading (d_int P ++ d_frac P)) in *.
  destruct (strip_zeros_spec ds Hne) as (n & En & Hne' & Hlast).
  set (ds' := rev (strip_zeros (rev ds))) in *.
  assert (Forall digit ds) as Hds.
  { apply strip_leading_digits, Forall_app. by split; [apply grammar_int_digits|]. }
  assert (head ds ≠ Some ZERO) as Hh by apply strip_leading_head.
  exists ds', (p + exp_value (d_exp P)). split_and!.
  - f_equal. f_equal. destruct (d_exp P); simpl; lia.
  - split; [|by apply Hlast]. rewrite En in Hds, Hh. apply Forall_app in Hds as [Hds _].
    split_and!; [done..|]. by destruct ds'.
  - unfold magnitude. rewrite <- (strip_leading_value (d_int P ++ d_frac P)). fold ds.
    rewrite <- Hc. rewrite En at 1. rewrite digits_value_app.
    replace (replicate n ZERO) with (zeros (Z.of_nat n)) by (unfold zeros; by rewrite Nat2Z.id).
    rewrite digits_value_zeros by lia.
    etransitivity; [symmetry; apply (same_number_scale _ _ (Z.of_nat n)); lia|].
    replace (p + exp_value (d_exp P) - Z.of_nat (length ds') - Z.of_nat n)
      with (exp_value (d_exp P) - (Z.of_nat (length ds) - p)); [reflexivity|].
    rewrite En at 1. rewrite length_app, length_replicate. lia.
Qed.

(** ** Digits are their value *)

Lemma digits_value_bounds ds :
  Forall digit ds → 0 ≤ digits_value 0 ds < 10 ^ Z.of_nat (length ds).
Proof.
  induction ds as [|d ds IH] using rev_ind; intros Hds; [simpl; lia|].
  apply Forall_app in Hds as [Hds Hd]. apply Forall_inv in Hd. specialize (IH Hds).
  rewrite digits_value_app, length_app, Nat2Z.inj_add, Z.pow_add_r by lia.
  change (10 ^ Z.of_nat (length [d])) with 10. simpl. unfold digit, ZERO in *. lia.
Qed.

Lemma leads_value ds : leads ds → 10 ^ (Z.of_nat (length ds) - 1) ≤ digits_value 0 ds.
Proof.
  intros (Hds & Hne & Hh). destruct ds as [|d ds]; [done|].
  apply Forall_cons in Hds as [Hd Hds]. pose proof (digits_value_bounds ds Hds).
  change (digits_value 0 (d :: ds)) with (digits_value (0 * 10 + (d - ZERO)) ds).
  rewrite digits_value_from. cbn [length]. replace (Z.of_nat (S (length ds)) - 1) with (Z.of_nat (length ds)) by lia.
  assert (1 ≤ d - ZERO) as Hd1.
  { unfold digit, ZERO in *. simpl in Hh. assert (d ≠ 0x30) by congruence. lia. }
  assert (0 ≤ 10 ^ Z.of_nat (length ds)) by lia. nia.
Qed.

Lemma digits_value_inj a b :
  Forall digit a → Forall digit b → length a = length b →
  digits_value 0 a = digits_value 0 b → a = b.
Proof.
  revert b. induction a as [|x a IH] using rev_ind; intros b Ha Hb Hl Hv.
  { by destruct b. }
  destruct b as [|y b _] using rev_ind; [rewrite length_app in Hl; simpl in Hl; lia|].
  apply Forall_app in Ha as [Ha Hx], Hb as [Hb Hy]. apply Forall_inv in Hx, Hy.
  rewrite !digits_value_app in Hv. simpl in Hv. rewrite !length_app in Hl. simpl in Hl.
  unfold digit in *. assert (x = y) as -> by lia. f_equal. apply IH; [done|done|lia|lia].
Qed.

Lemma trimmed_not_tens ds : trimmed ds → digits_value 0 ds mod 10 ≠ 0.
Proof.
  intros [(Hds & Hne & _) Hlast]. destruct ds as [|d ds _] using rev_ind; [done|].
  rewrite last_snoc in Hlast. apply Forall_app in Hds as [_ Hd]. apply Forall_inv in Hd.
  rewrite digits_value_app. simpl. assert (d ≠ ZERO) by congruence.
  unfold digit, ZERO in *. zdiv.
Qed.

Lemma not_tens_unique m n e f :
  m mod 10 ≠ 0 → n mod 10 ≠ 0 → same_number (m, e) (n, f) → m = n ∧ e = f.
Proof.
  assert (∀ m n e f k, n mod 10 ≠ 0 → 0 ≤ e + k → 0 ≤ f + k → e < f ∨ e = f → m mod 10 ≠ 0 →
    m * 10 ^ (e + k) = n * 10 ^ (f + k) → m = n ∧ e = f) as Hle.
  { intros m' n' e' f' k Hn He Hf [Hlt| ->] Hm H.
    - exfalso. apply Hm. replace (f' + k) with ((e' + k) + ((f' - e' - 1) + 1)) in H by lia.
      rewrite (Z.pow_add_r _ (e' + k)), (Z.pow_add_r _ _ 1) in H by lia.
      assert (0 < 10 ^ (e' + k)) by lia.
      assert (m' = n' * 10 ^ (f' - e' - 1) * 10) as -> by nia. apply Z.mod_mul. lia.
    - split; [|done]. assert (0 < 10 ^ (f' + k)) by lia. nia. }
  intros Hm Hn (k & He & Hf & H). simpl in *. destruct (Z.lt_total e f) as [Hlt|[->|Hgt]].
  - by apply (Hle m n e f k); auto.
  - by apply (Hle m n f f k); auto.
  - destruct (Hle n m f e k) as [-> ->]; auto.
Qed.

Lemma trimmed_unique ds ds' p p' :
  trimmed ds → trimmed ds' →
  same_number (digits_value 0 ds, p - Z.of_nat (length ds)) (digits_value 0 ds', p' - Z.of_nat (length ds')) →
  ds = ds' ∧ p = p'.
Proof.
  intros Ht Ht' Hs.
  apply not_tens_unique in Hs as [Hv Hp]; [|by apply trimmed_not_tens..].
  destruct Ht as [Hl _], Ht' as [Hl' _].
  pose proof (leads_value _ Hl). pose proof (leads_value _ Hl').
  destruct Hl as (Hd & ? & _), Hl' as (Hd' & ? & _).
  pose proof (digits_value_bounds _ Hd). pose proof (digits_value_bounds _ Hd').
  assert (length ds = length ds') as Hlen.
  { assert (∀ a b, 10 ^ (a - 1) < 10 ^ b → 0 ≤ b → a ≤ b) as Hpow.
    { intros a b Hab Hb. destruct (Z.le_gt_cases a b); [done|].
      assert (10 ^ b ≤ 10 ^ (a - 1)) by (apply Z.pow_le_mono_r; lia). lia. }
    assert (Z.of_nat (length ds) ≤ Z.of_nat (length ds')) by (apply Hpow; lia).
    assert (Z.of_nat (length ds') ≤ Z.of_nat (length ds)) by (apply Hpow; lia). lia. }
  split; [|lia]. by apply digits_value_inj.
Qed.

(** A canonical number is a JSON number of exactly the value of the
    shortest text yyjson wrote for the double. *)
Theorem canonical_number_exact `{A : Allocator, N : NumberText} f P :
  is_zero f = false → write_number (Real f) = Some (parts_text P) → shortest P →
  d_sign P = (if is_negative f then [MINUS] else []) →
  ∃ out, implements (put_canonical_number f) (says out) ∧ is_json_number out = true ∧
    same_number (number_value out) (number_value (parts_text P)).
Proof.
  intros Hz Hw HP Hsign. destruct (canonical_trimmed P HP) as (ds & p & Hc & [Hds _] & Hv).
  assert (d_sign P = [] ∨ d_sign P = [MINUS]) as Hs by (rewrite Hsign; destruct (is_negative f); auto).
  exists (d_sign P ++ lay_out ds p). destruct (lay_out_number (d_sign P) ds p Hs Hds) as [Hj Hn].
  split_and!; [|done|].
  - unfold put_canonical_number. rewrite Hz, Hw. simpl. rewrite Hc, <- Hsign. apply implements_put.
  - rewrite Hn, shortest_value by done. destruct (magnitude P) as [m e] eqn:Em. simpl.
    destruct Hv as (k & ? & ? & Hk). exists k. simpl in *. split_and!; [done..|].
    unfold signed. case_bool_decide; lia.
Qed.

Lemma canonical_number_exact_witness :
  ∃ out, is_json_number out = true ∧
    same_number (number_value out) (number_value [0x31; 0x65; 0x32; 0x31]).
Proof.
  destruct (@canonical_number_exact (λ _, false)
    {| write_number := λ _, Some [0x31; 0x65; 0x32; 0x31]; read_number := λ _, NumberRefused |}
    (S754_finite false 7 3) (Parts [] [0x31] false [] [0x65; 0x32; 0x31])) as (out & _ & Hj & Hv).
  - reflexivity.
  - reflexivity.
  - split_and!; simpl; auto; try discriminate; [| |unfold DIGITS; lia].
    + right. exists 0x31, []. split_and!; auto; lia.
    + right. exists 0x65, [], [0x32; 0x31]. split_and!; auto; try discriminate.
      repeat constructor; discriminate.
  - reflexivity.
  - exists out. by split.
Defined.

(** A canonical number's text depends on its value alone: two texts of one
    magnitude, however they are laid out, are written the same. *)
Theorem canonical_number_unique P Q :
  shortest P → shortest Q → same_number (magnitude P) (magnitude Q) →
  canonical (parts_text P) = canonical (parts_text Q).
Proof.
  intros HP HQ Hs. destruct (canonical_trimmed P HP) as (ds & p & -> & Ht & Hv).
  destruct (canonical_trimmed Q HQ) as (ds' & p' & -> & Ht' & Hv').
  destruct (trimmed_unique ds ds' p p' Ht Ht') as [-> ->]; [|done].
  by rewrite Hv, Hs, Hv'.
Qed.

Lemma canonical_number_unique_witness :
  canonical [0x31; 0x30; 0x2e; 0x30] = canonical [0x31; 0x65; 0x31].
Proof.
  apply (canonical_number_unique (Parts [] [0x31; 0x30] true [0x30] [])
    (Parts [] [0x31] false [] [0x65; 0x31])).
  - split_and!; simpl; auto; try discriminate; [|repeat constructor; discriminate|by left|unfold DIGITS; lia].
    right. exists 0x31, [0x30]. split_and!; auto; try lia. repeat constructor; discriminate.
  - split_and!; simpl; auto; try discriminate; [| |unfold DIGITS; lia].
    + right. exists 0x31, []. split_and!; auto; lia.
    + right. exists 0x65, [], [0x31]. split_and!; auto; try discriminate.
      repeat constructor; discriminate.
  - exists 1. vm_compute. split_and!; try discriminate. reflexivity.
Defined.
