(* ===== verification/JsonTree.v ===== *)
(** * JSON values and their text

    The abstract side of [core/json.c]: a JSON value as a tree, the text of
    one as the encoder lays it out ([print]), and a reader of RFC 8259
    ([parse]).  Reading what is printed gives the value back. *)

From S2P Require Import Prelude.
From S2P Require Import Texts.
From S2P Require Import Utf8.
From S2P Require Import JsonPath.
From S2P Require Import JsonBuffer.
From S2P Require Import JsonString.
From S2P Require Import JsonNumber.

Local Open Scope Z_scope.

#[local] Unset Elimination Schemes.

(** A value; a number is its text, an object its members in order. *)
Inductive json :=
  | JNull
  | JBool (b : bool)
  | JNumber (text : bytes)
  | JString (s : bytes)
  | JArray (items : list json)
  | JObject (members : list (bytes * json)).

#[local] Set Elimination Schemes.

Fixpoint json_ind' (P : json → Prop)
    (Hnull : P JNull) (Hbool : ∀ b, P (JBool b)) (Hnum : ∀ t, P (JNumber t))
    (Hstr : ∀ s, P (JString s)) (Harr : ∀ l, Forall P l → P (JArray l))
    (Hobj : ∀ m, Forall (λ kv, P kv.2) m → P (JObject m)) (j : json) : P j :=
  match j with
  | JNull => Hnull
  | JBool b => Hbool b
  | JNumber t => Hnum t
  | JString s => Hstr s
  | JArray l => Harr l ((fix items l : Forall P l := match l return Forall P l with
      | [] => Forall_nil_2 _
      | j :: l => Forall_cons_2 P j l (json_ind' P Hnull Hbool Hnum Hstr Harr Hobj j) (items l)
      end) l)
  | JObject m => Hobj m ((fix members m : Forall (λ kv : bytes * json, P kv.2) m := match m return Forall (λ kv : bytes * json, P kv.2) m with
      | [] => Forall_nil_2 _
      | (k, j) :: m => Forall_cons_2 (λ kv : bytes * json, P kv.2) (k, j) m (json_ind' P Hnull Hbool Hnum Hstr Harr Hobj j) (members m)
      end) m)
  end.

Definition COMMA : Z := 0x2c.
Definition COLON : Z := 0x3a.
Definition OPEN_ARRAY : Z := 0x5b.
Definition CLOSE_ARRAY : Z := 0x5d.
Definition OPEN_OBJECT : Z := 0x7b.
Definition CLOSE_OBJECT : Z := 0x7d.

Definition null_text : bytes := lit "null".
Definition true_text : bytes := lit "true".
Definition false_text : bytes := lit "false".

(** ** The text of a value *)

Definition separator (first : bool) : bytes := if first then [] else [COMMA].

(** What a member has in front of its value. *)
Definition key_text (st : layout) (k : bytes) : bytes :=
  string_text (e_ascii st) k ++ [COLON] ++ (if e_pretty st then [SPACE] else []).

Section texts.
Context (st : layout) (depth : nat) (text : json → bytes).

Fixpoint items_text (first : bool) (l : list json) : bytes :=
  match l with
  | [] => []
  | j :: l => separator first ++ break_text st depth ++ text j ++ items_text false l
  end.

Fixpoint members_text (first : bool) (m : list (bytes * json)) : bytes :=
  match m with
  | [] => []
  | kv :: m =>
      separator first ++ break_text st depth ++ key_text st kv.1 ++ text kv.2
      ++ members_text false m
  end.

End texts.

Fixpoint print (st : layout) (depth : nat) (j : json) : bytes :=
  match j with
  | JNull => null_text
  | JBool b => if b then true_text else false_text
  | JNumber t => t
  | JString s => string_text (e_ascii st) s
  | JArray [] => [OPEN_ARRAY; CLOSE_ARRAY]
  | JArray l =>
      [OPEN_ARRAY] ++ items_text st (S depth) (print st (S depth)) true l
      ++ break_text st depth ++ [CLOSE_ARRAY]
  | JObject [] => [OPEN_OBJECT; CLOSE_OBJECT]
  | JObject m =>
      [OPEN_OBJECT] ++ members_text st (S depth) (print st (S depth)) true m
      ++ break_text st depth ++ [CLOSE_OBJECT]
  end.

(** ** Reading *)

Definition is_space (c : Z) : bool := (c =? SPACE) || (c =? NEWLINE) || (c =? 0x0d) || (c =? 0x09).

Fixpoint skip_space (s : bytes) : bytes :=
  match s with
  | c :: r => if is_space c then skip_space r else s
  | [] => []
  end.

(** A byte a number's text may hold. *)
Definition number_byte (c : Z) : bool :=
  is_digit c || is_exponent c || (c =? POINT) || (c =? MINUS) || (c =? PLUS).

Fixpoint number_run (s : bytes) : bytes * bytes :=
  match s with
  | c :: r => if number_byte c then let '(t, r) := number_run r in (c :: t, r) else ([], s)
  | [] => ([], [])
  end.

(** [s] without the text [t] it opens with. *)
Fixpoint strip (t s : bytes) : option bytes :=
  match t, s with
  | [], _ => Some s
  | c :: t, d :: s => if c =? d then strip t s else None
  | _, [] => None
  end.

Definition read_key (s : bytes) : option (bytes * bytes) :=
  match skip_space s with
  | c :: s =>
      if c =? QUOTE then
        '(k, s) ← read_string s;
        match skip_space s with
        | c :: s => if c =? COLON then Some (k, s) else None
        | [] => None
        end
      else None
  | [] => None
  end.

(** A value, and the text after it.  [READ_ITEMS] and [READ_MEMBERS] read
    what follows an item or a member: the container's end, or a comma and
    the next.  Every call reads a byte at least, so the length of the text
    is fuel enough. *)
Inductive reading_state := READ_VALUE | READ_ITEMS (l : list json) | READ_MEMBERS (m : list (bytes * json)).

Fixpoint read (fuel : nat) (state : reading_state) (s : bytes) : option (json * bytes) :=
  match fuel with
  | O => None
  | S fuel =>
      match state with
      | READ_VALUE =>
          match skip_space s with
          | [] => None
          | c :: r =>
              if c =? OPEN_ARRAY then
                match skip_space r with
                | c' :: r' =>
                    if c' =? CLOSE_ARRAY then Some (JArray [], r')
                    else '(j, r) ← read fuel READ_VALUE r; read fuel (READ_ITEMS [j]) r
                | [] => None
                end
              else if c =? OPEN_OBJECT then
                match skip_space r with
                | c' :: r' =>
                    if c' =? CLOSE_OBJECT then Some (JObject [], r')
                    else
                      '(k, r) ← read_key r;
                      '(j, r) ← read fuel READ_VALUE r;
                      read fuel (READ_MEMBERS [(k, j)]) r
                | [] => None
                end
              else if c =? QUOTE then '(t, r) ← read_string r; Some (JString t, r)
              else if is_digit c || (c =? MINUS) then
                let '(t, r) := number_run (c :: r) in
                if is_json_number t then Some (JNumber t, r) else None
              else
                match strip null_text (c :: r), strip true_text (c :: r), strip false_text (c :: r) with
                | Some r, _, _ => Some (JNull, r)
                | _, Some r, _ => Some (JBool true, r)
                | _, _, Some r => Some (JBool false, r)
                | _, _, _ => None
                end
          end
      | READ_ITEMS l =>
          match skip_space s with
          | c :: r =>
              if c =? CLOSE_ARRAY then Some (JArray (rev l), r)
              else if c =? COMMA then '(j, r) ← read fuel READ_VALUE r; read fuel (READ_ITEMS (j :: l)) r
              else None
          | [] => None
          end
      | READ_MEMBERS m =>
          match skip_space s with
          | c :: r =>
              if c =? CLOSE_OBJECT then Some (JObject (rev m), r)
              else if c =? COMMA then
                '(k, r) ← read_key r;
                '(j, r) ← read fuel READ_VALUE r;
                read fuel (READ_MEMBERS ((k, j) :: m)) r
              else None
          | [] => None
          end
      end
  end.

(** One value, with nothing but space around it. *)
Definition parse (s : bytes) : option json :=
  '(j, r) ← read (length s) READ_VALUE s;
  if bool_decide (skip_space r = []) then Some j else None.

(** ** Values that have a text *)

Definition byte_ok (b : Z) : bool := (0 <=? b) && (b <? 256).
Definition text_ok (s : bytes) : bool := forallb byte_ok s && is_utf8 s.

(** Strings and keys UTF-8, numbers RFC 8259's. *)
Fixpoint json_ok (j : json) : bool :=
  match j with
  | JNull | JBool _ => true
  | JNumber t => is_json_number t
  | JString s => text_ok s
  | JArray l => forallb json_ok l
  | JObject m => forallb (λ kv, text_ok kv.1 && json_ok kv.2) m
  end.

Lemma text_ok_iff s : text_ok s = true ↔ all_bytes s ∧ is_utf8 s = true.
Proof.
  unfold text_ok. rewrite andb_true_iff, forallb_forall, Forall_forall.
  split; intros [H ?]; (split; [|done]); intros b Hb; specialize (H b).
  - rewrite list_elem_of_In in Hb. specialize (H Hb). unfold byte_ok, is_byte in *.
    rewrite andb_true_iff, Z.leb_le, Z.ltb_lt in H. done.
  - rewrite list_elem_of_In in H. specialize (H Hb). unfold byte_ok, is_byte in *.
    by rewrite andb_true_iff, Z.leb_le, Z.ltb_lt.
Qed.

(** ** Reading what is printed *)

Definition spaces (s : bytes) : Prop := Forall (λ c, is_space c = true) s.

Lemma skip_space_app sp s : spaces sp → skip_space (sp ++ s) = skip_space s.
Proof. intros Hsp. induction Hsp as [|c sp Hc Hsp IH]; [done|]. simpl. by rewrite Hc. Qed.

Lemma skip_space_stop c r : is_space c = false → skip_space (c :: r) = c :: r.
Proof. intros Hc. simpl. by rewrite Hc. Qed.

Lemma break_spaces st depth : spaces (break_text st depth).
Proof.
  unfold break_text. destruct (e_pretty st); [|constructor]. constructor; [done|].
  induction depth as [|d IH]; simpl; [constructor|]. by repeat constructor.
Qed.

(** A text a value's reader stops at the end of. *)
Definition stops (s : bytes) : Prop := match s with c :: _ => number_byte c = false | [] => True end.

Lemma stops_space c s : is_space c = true → stops (c :: s).
Proof.
  unfold is_space, stops, number_byte, is_digit, is_exponent, SPACE, NEWLINE, POINT, MINUS, PLUS.
  rewrite !orb_true_iff, !Z.eqb_eq. intros [[[->| ->]| ->]| ->]; done.
Qed.

Lemma stops_app sp s : spaces sp → stops s → stops (sp ++ s).
Proof. intros [|c l Hc _]; [done|]. intros _. by apply stops_space. Qed.

Lemma number_byte_digit c : digit c → number_byte c = true.
Proof. intros Hc. unfold number_byte. by rewrite (proj2 (is_digit_iff c) Hc). Qed.

Lemma number_bytes t : grammar_number t → Forall (λ c, number_byte c = true) t.
Proof.
  intros (minus & int & frac & exp & -> & Hm & Hi & Hf & He).
  assert (∀ ds, Forall digit ds → Forall (λ c, number_byte c = true) ds) as Hdig.
  { intros ds Hds. eapply Forall_impl; [exact Hds|apply number_byte_digit]. }
  rewrite !Forall_app. split_and!.
  - destruct Hm as [->| ->]; by repeat constructor.
  - by apply Hdig, grammar_int_digits.
  - destruct Hf as [->|(ds & -> & _ & Hds)]; [constructor|]. constructor; [done|by apply Hdig].
  - destruct He as [->|(e & sign & ds & -> & Hexp & Hsign & _ & Hds)]; [constructor|].
    constructor; [by destruct Hexp as [->| ->]|]. apply Forall_app. split; [|by apply Hdig].
    destruct Hsign as [->|[->| ->]]; by repeat constructor.
Qed.

Lemma number_run_app t rest :
  Forall (λ c, number_byte c = true) t → stops rest → number_run (t ++ rest) = (t, rest).
Proof.
  intros Ht Hr. induction Ht as [|c t Hc Ht IH]; simpl; [|by rewrite Hc, IH].
  destruct rest as [|c rest]; [done|]. simpl in *. by rewrite Hr.
Qed.

Lemma number_head t :
  grammar_number t → ∃ c r, t = c :: r ∧ (digit c ∨ c = MINUS).
Proof.
  intros (minus & int & frac & exp & -> & [->| ->] & Hi & _); [|eauto].
  destruct Hi as [->|(d & ds & -> & Hd & _)]; simpl; eexists _, _; (split; [done|]); left;
    unfold digit, ZERO; lia.
Qed.

(** What a value's text opens with. *)
Definition opens (c : Z) : Prop :=
  is_space c = false ∧ c ≠ CLOSE_ARRAY ∧ c ≠ CLOSE_OBJECT ∧ c ≠ COMMA.

Lemma print_opens st depth j : json_ok j = true → ∃ c r, print st depth j = c :: r ∧ opens c.
Proof.
  unfold opens, CLOSE_ARRAY, CLOSE_OBJECT, COMMA.
  destruct j as [|[]|t|s|[|j l]|[|[k j] m]]; simpl; intros H;
    try (eexists _, _; split; [reflexivity|by split_and!]).
  apply grammar_of_is_json_number, number_head in H as (c & r & -> & Hc). exists c, r.
  split; [done|]. unfold is_space, digit, MINUS, SPACE, NEWLINE in *. split_and!; lia.
Qed.

Lemma read_value_skip fuel s s' :
  skip_space s = skip_space s' → read fuel READ_VALUE s = read fuel READ_VALUE s'.
Proof. intros E. destruct fuel; [done|]. cbn [read]. by rewrite E. Qed.

Lemma read_string_text ascii s rest :
  text_ok s = true →
  ∃ body, string_text ascii s ++ rest = QUOTE :: body ∧ read_string body = Some (s, rest).
Proof.
  intros [Hs Hu]%text_ok_iff. eexists. split; [reflexivity|].
  pose proof (string_text_read ascii s rest Hs Hu) as H. unfold string_text in H.
  simpl in H. by rewrite drop_0 in H.
Qed.

Lemma read_key_text st k rest :
  text_ok k = true →
  ∃ sp, spaces sp ∧ read_key (key_text st k ++ rest) = Some (k, sp ++ rest).
Proof.
  intros Hk. unfold key_text. rewrite <- !app_assoc.
  exists (if e_pretty st then [SPACE] else []). split; [destruct (e_pretty st); by repeat constructor|].
  destruct (read_string_text (e_ascii st) k
    ([COLON] ++ (if e_pretty st then [SPACE] else []) ++ rest) Hk) as (body & -> & Hr).
  unfold read_key. rewrite skip_space_stop by done. change (QUOTE =? QUOTE) with true. cbn iota.
  rewrite Hr. reflexivity.
Qed.

(** What [read] is shown to do on a value: the statement carried through
    the items and members of a container. *)
Definition reads (st : layout) (depth : nat) (j : json) : Prop :=
  ∀ fuel rest, (length (print st depth j) ≤ fuel)%nat → stops rest →
    read fuel READ_VALUE (print st depth j ++ rest) = Some (j, rest).

Lemma read_items st depth outer l acc fuel rest :
  Forall (λ j, json_ok j = true ∧ reads st depth j) l →
  (length (items_text st depth (print st depth) false l) < fuel)%nat →
  read fuel (READ_ITEMS acc)
    (items_text st depth (print st depth) false l ++ break_text st outer ++ CLOSE_ARRAY :: rest)
  = Some (JArray (rev acc ++ l), rest).
Proof.
  intros Hl. revert acc fuel. induction Hl as [|j l [Hj Hread] Hl IH]; intros acc fuel Hf.
  { destruct fuel; [simpl in Hf; lia|]. cbn [items_text read]. simpl app.
    rewrite skip_space_app by apply break_spaces. rewrite skip_space_stop by done.
    change (CLOSE_ARRAY =? CLOSE_ARRAY) with true. by rewrite app_nil_r. }
  cbn [items_text] in *. unfold separator in *. rewrite !length_app in Hf. cbn [length] in Hf.
  destruct fuel as [|fuel]; [lia|].
  cbn [read]. rewrite <- !app_assoc. cbn [app]. rewrite skip_space_stop by done.
  change (COMMA =? CLOSE_ARRAY) with false. change (COMMA =? COMMA) with true. cbn iota.
  rewrite (read_value_skip fuel _ (print st depth j ++ items_text st depth (print st depth) false l ++
    break_text st outer ++ CLOSE_ARRAY :: rest)) by (apply skip_space_app, break_spaces).
  rewrite Hread; [|lia|].
  2: { destruct l; [simpl app; apply stops_app; [apply break_spaces|done]|done]. }
  simpl mbind. rewrite IH by lia. simpl. by rewrite <- app_assoc.
Qed.

Lemma read_members st depth outer m acc fuel rest :
  Forall (λ kv, text_ok kv.1 = true ∧ json_ok kv.2 = true ∧ reads st depth kv.2) m →
  (length (members_text st depth (print st depth) false m) < fuel)%nat →
  read fuel (READ_MEMBERS acc)
    (members_text st depth (print st depth) false m ++ break_text st outer ++ CLOSE_OBJECT :: rest)
  = Some (JObject (rev acc ++ m), rest).
Proof.
  intros Hm. revert acc fuel. induction Hm as [|[k j] m (Hk & Hj & Hread) Hm IH]; intros acc fuel Hf.
  { destruct fuel; [simpl in Hf; lia|]. cbn [members_text read]. simpl app.
    rewrite skip_space_app by apply break_spaces. rewrite skip_space_stop by done.
    change (CLOSE_OBJECT =? CLOSE_OBJECT) with true. by rewrite app_nil_r. }
  cbn [members_text fst snd] in *. unfold separator in *. rewrite !length_app in Hf. cbn [length] in Hf.
  destruct fuel as [|fuel]; [lia|].
  cbn [read]. rewrite <- !app_assoc. cbn [app]. rewrite skip_space_stop by done.
  change (COMMA =? CLOSE_OBJECT) with false. change (COMMA =? COMMA) with true. cbn iota.
  set (tail := print st depth j ++ _).
  destruct (read_key_text st k tail Hk) as (sp & Hsp & Hrk).
  assert (read_key (break_text st depth ++ key_text st k ++ tail) = Some (k, sp ++ tail)) as ->.
  { rewrite <- Hrk. unfold read_key. by rewrite skip_space_app by apply break_spaces. }
  simpl mbind. rewrite (read_value_skip fuel _ tail) by (by apply skip_space_app). unfold tail.
  rewrite Hread; [|lia|].
  2: { destruct m; [simpl app; apply stops_app; [apply break_spaces|done]|done]. }
  simpl mbind. rewrite IH by lia. simpl. by rewrite <- app_assoc.
Qed.

Lemma reads_all st depth j : json_ok j = true → reads st depth j.
Proof.
  revert depth. induction j as [|b|t|s|l IH|m IH] using json_ind'; intros depth Hj fuel rest Hf Hr.
  - destruct fuel; [simpl in Hf; lia|]. reflexivity.
  - destruct fuel; [destruct b; simpl in Hf; lia|]. by destruct b.
  - apply grammar_of_is_json_number in Hj as Hg. pose proof (number_bytes t Hg) as Hb.
    destruct (number_head t Hg) as (c & r & -> & Hc). cbn [print] in *.
    destruct fuel; [simpl in Hf; lia|]. cbn [read]. cbn [app].
    assert (is_space c = false ∧ c ≠ OPEN_ARRAY ∧ c ≠ OPEN_OBJECT ∧ c ≠ QUOTE) as (Hsp & Ha & Ho & Hq).
    { unfold is_space, digit, MINUS, SPACE, NEWLINE, OPEN_ARRAY, OPEN_OBJECT, QUOTE in *.
      rewrite !orb_false_iff, !Z.eqb_neq. lia. }
    rewrite skip_space_stop by done. rewrite !(proj2 (Z.eqb_neq _ _)) by done.
    replace (is_digit c || (c =? MINUS)) with true.
    2: { symmetry. apply orb_true_iff. rewrite Z.eqb_eq. destruct Hc as [Hc| ->]; [left|by right].
         by apply is_digit_iff. }
    change (c :: r ++ rest) with ((c :: r) ++ rest). rewrite number_run_app by done.
    cbn [json_ok] in Hj. by rewrite Hj.
  - destruct (read_string_text (e_ascii st) s rest Hj) as (body & E & Hrs). cbn [print] in *. rewrite E.
    destruct fuel; [unfold string_text in Hf; simpl in Hf; lia|]. cbn [read].
    rewrite skip_space_stop by done. change (QUOTE =? OPEN_ARRAY) with false.
    change (QUOTE =? OPEN_OBJECT) with false. change (QUOTE =? QUOTE) with true. cbn iota.
    by rewrite Hrs.
  - destruct l as [|j l].
    { destruct fuel; [simpl in Hf; lia|]. reflexivity. }
    cbn [print] in *. cbn [items_text separator] in *. rewrite !length_app in Hf. cbn [length] in Hf.
    destruct fuel as [|fuel]; [lia|].
    cbn [json_ok forallb] in Hj. apply andb_true_iff in Hj as [Hj Hl].
    apply Forall_cons in IH as [IHj IHl].
    cbn [app]. rewrite <- !app_assoc. cbn [read]. rewrite skip_space_stop by done.
    change (OPEN_ARRAY =? OPEN_ARRAY) with true. cbn iota.
    destruct (print_opens st (S depth) j Hj) as (c & r & Ec & Hsp & Hc & _).
    rewrite skip_space_app by apply break_spaces. rewrite Ec. cbn [app]. rewrite skip_space_stop by done.
    rewrite (proj2 (Z.eqb_neq _ _) Hc).
    change (c :: r ++ ?x) with ((c :: r) ++ x). rewrite <- Ec.
    rewrite (read_value_skip fuel _ (print st (S depth) j ++
      items_text st (S depth) (print st (S depth)) false l ++ break_text st depth ++ CLOSE_ARRAY :: rest))
      by (apply skip_space_app, break_spaces).
    rewrite IHj; [|done|lia|].
    2: { destruct l; [cbn [items_text app]; apply stops_app; [apply break_spaces|done]|done]. }
    simpl mbind. rewrite read_items; [done| |lia].
    apply forallb_Forall in Hl. apply Forall_and. split; [done|].
    rewrite Forall_forall in *. intros x Hx. apply IHl; [done|]. by apply Hl.
  - destruct m as [|[k j] m].
    { destruct fuel; [simpl in Hf; lia|]. reflexivity. }
    cbn [print] in *. cbn [members_text separator fst snd] in *. rewrite !length_app in Hf.
    cbn [length] in Hf. destruct fuel as [|fuel]; [lia|].
    cbn [json_ok forallb fst snd] in Hj. rewrite !andb_true_iff in Hj. destruct Hj as [[Hk Hj] Hm].
    apply Forall_cons in IH as [IHj IHm].
    cbn [app]. rewrite <- !app_assoc. cbn [read]. rewrite skip_space_stop by done.
    change (OPEN_OBJECT =? OPEN_ARRAY) with false. change (OPEN_OBJECT =? OPEN_OBJECT) with true.
    cbn iota. set (tail := print st (S depth) j ++ _).
    destruct (read_key_text st k tail Hk) as (sp & Hsp & Hrk).
    assert (∃ body, skip_space (break_text st (S depth) ++ key_text st k ++ tail) = QUOTE :: body)
      as [body Eb].
    { rewrite skip_space_app by apply break_spaces. unfold key_text, string_text. cbn [app].
      eexists. reflexivity. }
    rewrite Eb. change (QUOTE =? CLOSE_OBJECT) with false. cbn iota.
    assert (read_key (break_text st (S depth) ++ key_text st k ++ tail) = Some (k, sp ++ tail)) as ->.
    { rewrite <- Hrk. unfold read_key. by rewrite skip_space_app by apply break_spaces. }
    simpl mbind. rewrite (read_value_skip fuel _ tail) by (by apply skip_space_app). unfold tail.
    cbn [fst snd] in IHj. rewrite IHj; [|done|lia|].
    2: { destruct m; [cbn [members_text app]; apply stops_app; [apply break_spaces|done]|done]. }
    simpl mbind. rewrite read_members; [done| |lia].
    apply forallb_Forall in Hm. rewrite Forall_forall in *. intros x Hx.
    specialize (Hm x Hx). apply andb_true_iff in Hm as [? ?]. split_and!; [done..|]. by apply IHm.
Qed.

Lemma print_reads st j : json_ok j = true → parse (print st 0 j) = Some j.
Proof.
  intros Hj. unfold parse. pose proof (reads_all st 0 j Hj (length (print st 0 j)) []) as H.
  rewrite app_nil_r in H. by rewrite H.
Qed.

(** The text of a value, compact or laid out, in ASCII or not, is RFC 8259
    JSON: a reader reads the same value back, members in order and numbers
    by their text. *)
Theorem print_parse st j : json_ok j = true → parse (print st 0 j) = Some j.
Proof. apply print_reads. Qed.

Lemma print_parse_witness :
  let j := JObject [([0x61], JArray [JNumber [0x31]; JNull]); ([0xc3; 0xa9], JString [0x22])] in
  parse (print (Layout true 64 true) 0 j) = Some j.
Proof. apply print_parse. reflexivity. Defined.
