(* ===== verification/Lua.v ===== *)
(** * Lua values, as the core's C sees them

    The values a C function is handed, and the heap the tables among them
    live in: a table is known by its address, so two values may share one and
    one may hold itself.  A table's pairs are in the order [lua_next] visits
    them, which is any order; strings are their bytes. *)

From Stdlib Require Import SpecFloat.
From S2P Require Import Prelude.

Local Open Scope Z_scope.

Abbreviation addr := positive.

(** [lua_type]'s cases; [LOther] is a value of another type by its name
    ([lua_typename]): a function, a thread or a light userdata. *)
Inductive lua_value :=
  | LNil
  | LBool (b : bool)
  | LInt (z : Z)
  | LFloat (f : spec_float)
  | LString (s : bytes)
  | LTable (a : addr)
  | LUserdata (a : addr)
  | LOther (typename : bytes).

#[export] Instance spec_float_eq_dec : EqDecision spec_float.
Proof. solve_decision. Defined.

#[export] Instance lua_value_eq_dec : EqDecision lua_value.
Proof. solve_decision. Defined.

(** A table: its metatable and its pairs. *)
Record table := Table { t_meta : option addr; t_pairs : list (lua_value * lua_value) }.

Abbreviation heap := (gmap addr table).

Definition empty_table : table := Table None [].

(** The table at [a]; a C function is only handed addresses that are live. *)
Definition table_at (h : heap) (a : addr) : table := default empty_table (h !! a).

(** [lua_rawget]: the value of a key, nil where there is none. *)
Fixpoint pairs_get (pairs : list (lua_value * lua_value)) (k : lua_value) : lua_value :=
  match pairs with
  | [] => LNil
  | (k', v) :: pairs => if decide (k' = k) then v else pairs_get pairs k
  end.

Definition rawget (t : table) (k : lua_value) : lua_value := pairs_get (t_pairs t) k.

(** [lua_rawset]: a nil value takes the key out; a new key goes last. *)
Fixpoint pairs_set (pairs : list (lua_value * lua_value)) (k v : lua_value) :
    list (lua_value * lua_value) :=
  match pairs with
  | [] => if decide (v = LNil) then [] else [(k, v)]
  | (k', v') :: pairs =>
      if decide (k' = k) then if decide (v = LNil) then pairs else (k, v) :: pairs
      else (k', v') :: pairs_set pairs k v
  end.

Definition rawset (t : table) (k v : lua_value) : table :=
  Table (t_meta t) (pairs_set (t_pairs t) k v).

Definition type_name (v : lua_value) : bytes :=
  match v with
  | LNil => lit "nil"
  | LBool _ => lit "boolean"
  | LInt _ | LFloat _ => lit "number"
  | LString _ => lit "string"
  | LTable _ => lit "table"
  | LUserdata _ => lit "userdata"
  | LOther name => name
  end.

(** [lua_toboolean]. *)
Definition to_boolean (v : lua_value) : bool :=
  match v with LNil | LBool false => false | _ => true end.

(** [lua_tointegerx]: the integer a value is or converts to, by Lua's own
    conversions of floats and strings. *)
Class LuaIntegers := lua_tointegerx : lua_value → option Z.
Class LuaIntegersLaws `{LuaIntegers} := tointeger_int : ∀ z, lua_tointegerx (LInt z) = Some z.

(** [lua_tolstring]: the bytes of a string, or the text Lua writes a number
    as. *)
Class LuaStrings := lua_tolstring : lua_value → option bytes.
Class LuaStringsLaws `{LuaStrings} := tolstring_string : ∀ s, lua_tolstring (LString s) = Some s.

(** [luaL_optinteger] and [luaL_optlstring]: the argument or a default, or
    [None] where the argument is neither. *)
Definition opt_integer `{LuaIntegers} (arg : lua_value) (dflt : Z) : option Z :=
  if decide (arg = LNil) then Some dflt else lua_tointegerx arg.

(** [cosmic_optint]: the integer or the default, or why it is none. *)
Definition cosmic_optint `{LuaIntegers} (arg : lua_value) (otherwise : Z) : Z + bytes :=
  if decide (arg = LNil) then inl otherwise
  else
    match lua_tointegerx arg with
    | Some value => if (- 2 ^ 31 <=? value) && (value <=? 2 ^ 31 - 1) then inl value else inr (lit "does not fit in an int")
    | None => inr (lit "number expected")
    end.

Definition opt_string `{LuaStrings} (arg : lua_value) : option (option bytes) :=
  if decide (arg = LNil) then Some None else Some <$> lua_tolstring arg.

(** [lua_getfield], which may run a metamethod. *)
Class LuaFields := lua_getfield : heap → lua_value → bytes → lua_value.

(** Whether a guard caught a signal, by the number of times it was asked. *)
Class Signals := cosmic_signal_caught : nat → bool.

(** Keys are distinct and not nil, and no value is nil. *)
Definition table_ok (t : table) : Prop :=
  NoDup (t_pairs t).*1 ∧ Forall (λ kv, kv.1 ≠ LNil ∧ kv.2 ≠ LNil) (t_pairs t).

(** [lua_rawlen] of a table: some border of it, as the manual has it. *)
Class RawLen := lua_rawlen : table → Z.

Definition border (t : table) (n : Z) : Prop :=
  0 ≤ n ∧ (n = 0 ∨ rawget t (LInt n) ≠ LNil) ∧
  (rawget t (LInt (n + 1)) = LNil ∨ n = 2 ^ 63 - 1).

Class RawLenLaws `{RawLen} := rawlen_border : ∀ t, table_ok t → border t (lua_rawlen t).

(** [lua_rawgeti]. *)
Definition rawgeti (t : table) (i : Z) : lua_value := rawget t (LInt i).

(** What C's string functions read of a string: up to its first zero. *)
Fixpoint c_string (s : bytes) : bytes :=
  match s with
  | [] => []
  | c :: s => if c =? 0 then [] else c :: c_string s
  end.

(** What a call answers: a value and the empty string, nil and a message, or
    a raised error. *)
Inductive answer (X : Type) := Answers (x : X) | Refuses (message : bytes) | Raises (message : bytes).
Arguments Answers {X} x.
Arguments Refuses {X} message.
Arguments Raises {X} message.

(** ** What holds of every table *)

Definition heap_ok (h : heap) : Prop := ∀ a t, h !! a = Some t → table_ok t.

Lemma table_at_ok h a : heap_ok h → table_ok (table_at h a).
Proof.
  intros Hh. unfold table_at. destruct (h !! a) eqn:E; [by apply (Hh a)|].
  split; constructor.
Qed.

Lemma pairs_get_in pairs k v :
  NoDup pairs.*1 → (k, v) ∈ pairs → pairs_get pairs k = v.
Proof.
  induction pairs as [|[k' v'] pairs IH]; intros Hnd Hin; [by apply not_elem_of_nil in Hin|].
  simpl in *. apply NoDup_cons in Hnd as [Hk Hnd]. apply elem_of_cons in Hin as [[= -> ->]|Hin].
  - by rewrite decide_True.
  - rewrite decide_False; [by apply IH|]. intros ->. apply Hk.
    apply list_elem_of_fmap. by exists (k, v).
Qed.

Lemma pairs_get_some pairs k : pairs_get pairs k ≠ LNil → (k, pairs_get pairs k) ∈ pairs.
Proof.
  induction pairs as [|[k' v'] pairs IH]; simpl; [done|].
  destruct (decide (k' = k)) as [->|]; intros Hv.
  - apply elem_of_cons. by left.
  - apply elem_of_cons. right. by apply IH.
Qed.

Lemma pairs_get_nil pairs k : k ∉ pairs.*1 → pairs_get pairs k = LNil.
Proof.
  induction pairs as [|[k' v'] pairs IH]; simpl; [done|]. intros Hk.
  apply not_elem_of_cons in Hk as [Hne Hk]. rewrite decide_False by done. by apply IH.
Qed.

Lemma rawget_rawset t k v : table_ok t → k ≠ LNil → rawget (rawset t k v) k = v.
Proof.
  intros [Hnd _] Hk. unfold rawget, rawset. simpl. revert Hnd.
  induction (t_pairs t) as [|[k' v'] pairs IH]; simpl; intros Hnd.
  - case_decide; simpl; [by subst|by rewrite decide_True].
  - apply NoDup_cons in Hnd as [Hk' Hnd]. case_decide as E; simpl.
    + subst k'. case_decide; [subst v; by apply pairs_get_nil|]. simpl. by rewrite decide_True.
    + rewrite decide_False by done. by apply IH.
Qed.

Lemma rawget_rawset_ne t k k' v : k ≠ k' → rawget (rawset t k v) k' = rawget t k'.
Proof.
  intros Hne. unfold rawget, rawset. simpl.
  induction (t_pairs t) as [|[k0 v0] pairs IH]; simpl.
  - case_decide; simpl; [done|by rewrite decide_False].
  - destruct (decide (k0 = k)) as [->|]; simpl.
    + rewrite (decide_False (P := k = k')) by done. case_decide; [done|]. simpl. by rewrite decide_False.
    + case_decide; [done|]. apply IH.
Qed.

Lemma pairs_set_keys pairs k v x : x ∈ (pairs_set pairs k v).*1 → x = k ∨ x ∈ pairs.*1.
Proof.
  induction pairs as [|[k0 v0] pairs IH]; simpl.
  - case_decide; simpl; [by intros ?%not_elem_of_nil|]. rewrite list_elem_of_singleton. by left.
  - destruct (decide (k0 = k)) as [->|]; simpl.
    + case_decide; simpl; rewrite ?elem_of_cons; tauto.
    + rewrite !elem_of_cons. tauto.
Qed.

Lemma rawset_ok t k v : table_ok t → k ≠ LNil → table_ok (rawset t k v).
Proof.
  intros [Hnd Hall] Hk. unfold table_ok, rawset. simpl. revert Hnd Hall.
  induction (t_pairs t) as [|[k0 v0] pairs IH]; simpl; intros Hnd Hall.
  - case_decide; (split; [|by repeat constructor]); simpl; [constructor|apply NoDup_singleton].
  - apply NoDup_cons in Hnd as [Hk0 Hnd]. apply Forall_cons in Hall as [Hkv Hall].
    destruct (decide (k0 = k)) as [->|Hne]; simpl.
    + case_decide; [done|]. split; [by constructor|by constructor].
    + destruct (IH Hnd Hall) as [IH1 IH2]. split; simpl; [|by constructor].
      constructor; [|done]. intros [->|Hin]%pairs_set_keys; done.
Qed.

Lemma heap_ok_none : heap_ok ∅.
Proof. by intros a t. Qed.

Lemma heap_ok_put h a t : table_ok t → heap_ok h → heap_ok (<[a := t]> h).
Proof. intros Ht Hh b t' [[_ <-]|[_ Hb]]%lookup_insert_Some; [done|by apply (Hh b)]. Qed.

(** ** One implementation of what Lua leaves open *)

Module Plain.

(** Strings alone are text. *)
#[export] Instance strings : LuaStrings := λ v, match v with LString s => Some s | _ => None end.

#[export] Instance strings_laws : LuaStringsLaws.
Proof. done. Qed.

(** Integers alone are integers. *)
#[export] Instance integers : LuaIntegers := λ v, match v with LInt z => Some z | _ => None end.

#[export] Instance integers_laws : LuaIntegersLaws.
Proof. done. Qed.

(** The least border. *)
Fixpoint least_border (t : table) (fuel : nat) (n : Z) : Z :=
  match fuel with
  | O => n
  | S fuel => if decide (rawget t (LInt (n + 1)) = LNil) then n else least_border t fuel (n + 1)
  end.

#[export] Instance rawlen : RawLen := λ t, least_border t (S (length (t_pairs t))) 0.

Lemma least_border_spec t fuel n :
  0 ≤ n → (∀ i, 1 ≤ i ≤ n → rawget t (LInt i) ≠ LNil) →
  let b := least_border t fuel n in
  n ≤ b ∧ (∀ i, 1 ≤ i ≤ b → rawget t (LInt i) ≠ LNil) ∧
  (rawget t (LInt (b + 1)) = LNil ∨ b = n + Z.of_nat fuel).
Proof.
  revert n. induction fuel as [|fuel IH]; intros n Hn Hall; simpl.
  { split_and!; [lia|done|right; lia]. }
  case_decide as E; [by split_and!; [lia|done|left]|].
  destruct (IH (n + 1)) as (H1 & H2 & H3); [lia| |].
  - intros i Hi. destruct (decide (i = n + 1)) as [->|]; [done|]. apply Hall. lia.
  - split_and!; [lia|done|]. destruct H3; [by left|right; lia].
Qed.

(** A table has no more keys than pairs. *)
Lemma keys_bound t n : 0 ≤ n → (∀ i, 1 ≤ i ≤ n → rawget t (LInt i) ≠ LNil) → n ≤ Z.of_nat (length (t_pairs t)).
Proof.
  intros Hn Hall.
  assert (LInt <$> seqZ 1 n ⊆+ (t_pairs t).*1) as Hsub%submseteq_length.
  { apply NoDup_submseteq.
    - apply NoDup_fmap_2_strong; [by intros ???? [= ->]|apply NoDup_seqZ].
    - intros k (i & -> & Hi)%list_elem_of_fmap. apply elem_of_seqZ in Hi.
      apply list_elem_of_fmap. eexists (LInt i, _). split; [done|].
      apply pairs_get_some, (Hall i). lia. }
  rewrite !length_fmap, length_seqZ in Hsub. lia.
Qed.

#[export] Instance rawlen_laws : RawLenLaws.
Proof.
  intros t _. destruct (least_border_spec t (S (length (t_pairs t))) 0) as (H1 & H2 & H3); [done|lia|].
  change (lua_rawlen t) with (least_border t (S (length (t_pairs t))) 0).
  set (b := least_border _ _ _) in *. pose proof (keys_bound t b ltac:(lia) H2).
  split_and!; [lia| |left; destruct H3 as [?|?]; [done|lia]].
  destruct (decide (b = 0)); [by left|right]. apply H2. lia.
Qed.

End Plain.
