(* ===== verification/JsonEncode.v ===== *)
(** * Encoding a Lua value: [core/json.c], [put_value] to [json_encode]

    The walk over a Lua value in its heap that writes its JSON text, what JSON
    value a Lua value is ([encodes]), and that the walk writes the text of
    that value or names the place nothing can be encoded at. *)

From Stdlib Require Import SpecFloat.
From S2P Require Import Prelude.
From S2P Require Import Texts.
From S2P Require Import Utf8.
From S2P Require Import JsonPath.
From S2P Require Import JsonBuffer.
From S2P Require Import JsonString.
From S2P Require Import JsonNumber.
From S2P Require Import JsonTree.
From S2P Require Import Lua.

Local Open Scope Z_scope.
Local Open Scope json_scope.

(** What [cosmic_open_json] makes: the metatables that mark an array and an
    array with holes, and the value that stands for [null]. *)
Class JsonModule := {
  ARRAY_TYPE : addr;
  HOLES_TYPE : addr;
  null_value : lua_value }.

(** [qsort], by a comparison of two elements. *)
Class Qsort := qsort : ∀ {X : Type}, (X → X → Z) → list X → list X.

Definition DEFAULT_DEPTH : nat := 64.
Definition MAX_DEPTH : nat := 1000.
Definition MAX_HOLES : Z := 1048576.

(** ** The code *)

(** [memcmp] of the first bytes of two strings, as many as the shorter has. *)
Fixpoint memcmp (a b : bytes) : Z :=
  match a, b with
  | x :: a, y :: b => if x =? y then memcmp a b else x - y
  | _, _ => 0
  end.

Definition compare_sorted (x y : bytes) : Z :=
  let c := memcmp x y in
  if negb (c =? 0) then c else sign_of (Z.of_nat (length x)) (Z.of_nat (length y)).

(** Whether [put_table] finds a table to be an array, an array that may have
    holes, or neither marked. *)
Definition array_mark `{JsonModule} (t : table) : Z :=
  match t_meta t with
  | Some m => if decide (m = ARRAY_TYPE) then 1 else if decide (m = HOLES_TYPE) then 2 else 0
  | None => 0
  end.

(** What [put_table] learns of a table's keys. *)
Record keys_found := Keys {
  k_count : Z; k_strings : Z; k_top : Z; k_other : option bytes }.

Definition key_step (k : keys_found) (key : lua_value) : keys_found :=
  let count := k_count k + 1 in
  match key with
  | LString _ => Keys count (k_strings k + 1) (k_top k) (k_other k)
  | LInt i =>
      if 1 <=? i then Keys count (k_strings k) (if k_top k <? i then i else k_top k) (k_other k)
      else Keys count (k_strings k) (k_top k)
             (match k_other k with None => Some (lit "an integer key below 1") | o => o end)
  | LFloat _ =>
      Keys count (k_strings k) (k_top k)
        (match k_other k with None => Some (lit "a fractional number key") | o => o end)
  | key =>
      Keys count (k_strings k) (k_top k)
        (match k_other k with None => Some (type_name key) | o => o end)
  end.

Definition find_keys (t : table) : keys_found :=
  foldl key_step (Keys 0 0 0 None) (t_pairs t).*1.

Definition LOWER_A : Z := 0x61.

(** The refusal of a key no table of JSON's has. *)
Definition other_message (other : bytes) : bytes :=
  let phrase := bool_decide (head other = Some LOWER_A) in
  lit "cannot encode a table with " ++ (if phrase then [] else lit "a ") ++ other
  ++ (if phrase then [] else lit " key").

(** The lowest index of 1 to [top] that holds nothing, from [i] up. *)
Fixpoint first_hole (t : table) (fuel : nat) (i top : Z) : Z :=
  match fuel with
  | O => i
  | S fuel =>
      if top <? i then i
      else if decide (rawget t (LInt i) = LNil) then i
      else first_hole t fuel (i + 1) top
  end.

Definition string_keys (t : table) : list bytes :=
  omap (λ key, match key with LString s => Some s | _ => None end) (t_pairs t).*1.

Section walk.
Context `{Allocator, NumberText, JsonModule, Qsort} (st : layout) (h : heap).

(** The elements 1 to [top] of an array. *)
Definition put_array (value : nat → lua_value → writer) (t : table) (top : Z) (depth : nat) : writer :=
  put [OPEN_ARRAY] ;;
  each (λ k i,
    (if (k =? 0)%nat then done_ok else put [COMMA]) ;;
    put_break st (depth + 1) ;;
    under (Index (i - 1)) (value (depth + 1)%nat (rawget t (LInt i)))) 0 (seqZ 1 top) ;;
  put_break st depth ;;
  put [CLOSE_ARRAY].

Definition bad_key : bytes := lit "cannot encode a key that is not UTF-8".

(** A key's string, refused as a key's. *)
Definition put_key (s : bytes) : writer := λ e,
  let '(e, ok) := put_string st s e in
  if ok then (e, true) else if e_out_of_memory e then (e, false) else refuse bad_key e.

Definition put_member (value : nat → lua_value → writer) (key : bytes) (v : lua_value)
    (first : bool) (depth : nat) : writer :=
  (if first then done_ok else put [COMMA]) ;;
  put_break st (depth + 1) ;;
  put_key key ;;
  put [COLON] ;;
  (if e_pretty st then put [SPACE] else done_ok) ;;
  under (Key key) (value (depth + 1)%nat v).

(** Its members in byte order of their keys. *)
Definition put_object (value : nat → lua_value → writer) (t : table) (count : Z) (depth : nat) : writer :=
  put [OPEN_OBJECT] ;;
  each (λ i key, put_member value key (rawget t (LString key)) (i =? 0)%nat depth) 0
    (qsort compare_sorted (string_keys t)) ;;
  (if 0 <? count then put_break st depth else done_ok) ;;
  put [CLOSE_OBJECT].

Definition too_deep_message : bytes :=
  lit "cannot encode a value nested deeper than " ++ decimal (Z.of_nat (e_max_depth st))
  ++ lit " levels (does it contain itself?)".

Definition holes_message (top count : Z) : bytes :=
  lit "cannot encode an array with more than " ++ decimal MAX_HOLES
  ++ lit " holes (its highest key is " ++ decimal top ++ lit " and it holds " ++ decimal count
  ++ lit " items); use an object, or fill the holes".

Definition hole_message (i : Z) : bytes :=
  lit "cannot encode an array with a hole (index " ++ decimal i ++ lit " is nil)".

Definition put_table (value : nat → lua_value → writer) (t : table) (depth : nat) : writer :=
  if (e_max_depth st <=? depth)%nat then refuse too_deep_message
  else
    let mark := array_mark t in
    let marked := negb (mark =? 0) in
    let '(Keys count strings top other) := find_keys t in
    match other with
    | Some other => refuse (other_message other)
    | None =>
        if 0 <? strings then
          if marked then refuse (lit "cannot encode an array with a string key")
          else if strings <? count then
            refuse (lit "cannot encode a table with both string and integer keys")
          else put_object value t count depth
        else if (mark =? 2) && (0 <? top) then
          if MAX_HOLES <? top - count then refuse (holes_message top count)
          else put_array value t top depth
        else if count =? 0 then
          put (if marked then [OPEN_ARRAY; CLOSE_ARRAY] else [OPEN_OBJECT; CLOSE_OBJECT])
        else if count <? top then
          refuse (hole_message (first_hole t (Z.to_nat top) 1 top))
        else put_array value t top depth
    end.

(** The fuel is the depth left: a table at [max_depth] is refused before the
    walk goes into it, so [max_depth + 1] is enough. *)
Fixpoint put_value (fuel : nat) (depth : nat) (v : lua_value) : writer :=
  match v with
  | LNil => put null_text
  | LBool b => put (if b then true_text else false_text)
  | LInt z => put_number (SInt z)
  | LFloat f => put_number (Real f)
  | LString s => put_string st s
  | LTable a =>
      match fuel with
      | O => refuse too_deep_message
      | S fuel => put_table (put_value fuel) (table_at h a) depth
      end
  | v =>
      if decide (v = null_value) then put null_text
      else refuse (lit "cannot encode a " ++ type_name v)
  end.

End walk.

(** [checked_depth] of the option: absent, or an integer from 1 to
    [MAX_DEPTH]; [None] is the raise. *)
Definition checked_depth `{LuaIntegers} (arg : lua_value) : option nat :=
  if decide (arg = LNil) then Some DEFAULT_DEPTH
  else
    match lua_tointegerx arg with
    | Some depth => if (depth <? 1) || (Z.of_nat MAX_DEPTH <? depth) then None else Some (Z.to_nat depth)
    | None => None
    end.

Definition depth_message : bytes :=
  lit "json: max_depth must be an integer from 1 to " ++ decimal (Z.of_nat MAX_DEPTH).

(** The message of a walk that failed. *)
Definition failure_message (e : encoding) : bytes :=
  if bool_decide (p_text (e_path e) = []) || e_out_of_memory e then e_failure e
  else e_failure e ++ lit " at " ++ push_path (e_path e).

Definition json_encode `{Allocator, NumberText, JsonModule, Qsort, LuaIntegers} (h : heap)
    (value pretty max_depth ascii : lua_value) : answer bytes :=
  match checked_depth max_depth with
  | None => Raises depth_message
  | Some depth =>
      let st := Layout (to_boolean pretty) depth (to_boolean ascii) in
      let '(e, ok) := put_value st h (S depth) 0 value new_encoding in
      if ok then Answers (e_text e) else Refuses (failure_message e)
  end.

(** [json_array]: a table marked as an array, a new one at [fresh] when none
    is given. *)
Definition json_array `{JsonModule} (h : heap) (fresh : addr) (v : lua_value) : heap * answer lua_value :=
  match v with
  | LNil => (<[fresh := Table (Some ARRAY_TYPE) []]> h, Answers (LTable fresh))
  | LTable a =>
      let t := table_at h a in
      match t_meta t with
      | Some m =>
          if decide (m = ARRAY_TYPE) then (h, Answers v)
          else (h, Raises (lit "the table already has another metatable"))
      | None => (<[a := Table (Some ARRAY_TYPE) (t_pairs t)]> h, Answers v)
      end
  | v => (h, Raises (lit "table expected, got " ++ type_name v))
  end.

Definition json_with_holes `{JsonModule} (h : heap) (v holey : lua_value) : heap * answer lua_value :=
  match v with
  | LTable a =>
      (<[a := Table (Some (if to_boolean holey then HOLES_TYPE else ARRAY_TYPE)) (t_pairs (table_at h a))]> h,
       Answers v)
  | v => (h, Raises (lit "table expected, got " ++ type_name v))
  end.

Definition json_is_array `{JsonModule} (h : heap) (v : lua_value) : bool :=
  match v with
  | LTable a => negb (array_mark (table_at h a) =? 0)
  | _ => false
  end.

(** * What encoding is to do

    [encodes] says which JSON value a Lua value is, for tables nested so deep
    at most; [failing] which place in a value keeps it from being one.  The
    walk of [JsonEncode.v] is shown to write the one or to name the other. *)

(** A comparison that orders the elements of a list. *)
Definition orders {X} (cmp : X → X → Z) (l : list X) : Prop :=
  (∀ x y z, x ∈ l → y ∈ l → z ∈ l → cmp x y ≤ 0 → cmp y z ≤ 0 → cmp x z ≤ 0) ∧
  (∀ x y, x ∈ l → y ∈ l → cmp x y ≤ 0 ∨ cmp y x ≤ 0).

(** C's [qsort], of elements its comparison orders. *)
Class QsortLaws `{Qsort} := {
  qsort_perm {X} (cmp : X → X → Z) l : orders cmp l → qsort cmp l ≡ₚ l;
  qsort_sorted {X} (cmp : X → X → Z) l :
    orders cmp l → Sorted (λ x y, cmp x y ≤ 0) (qsort cmp l) }.

(** [yyjson_write_number] has a JSON number for every finite one. *)
Class NumberTextLaws `{NumberText} :=
  write_finite v : number_finite v = true → ∃ t, write_number v = Some t ∧ is_json_number t = true.

(** The null of cosmic's JSON module is a userdata. *)
Class JsonModuleLaws `{JsonModule} := null_userdata : ∃ a, null_value = LUserdata a.

(** ** Byte order *)

(** Strictly before, byte by byte and the shorter first. *)
Definition key_lt (x y : bytes) : Prop := lex_sign x y < 0.

Lemma compare_sorted_lex x y : compare_sorted x y ≤ 0 ↔ lex_sign x y ≤ 0.
Proof.
  unfold compare_sorted, sign_of. revert y.
  induction x as [|a x IH]; intros [|b y]; simpl; [done|zcases; simpl; lia|zcases; simpl; lia|].
  destruct (Z.eqb_spec a b) as [->|Hne].
  - rewrite <- IH. zcases; simpl; lia.
  - unfold sign_of. zcases; simpl; lia.
Qed.

Lemma lex_sign_flip x y : lex_sign y x = - lex_sign x y.
Proof.
  revert y. induction x as [|a x IH]; intros [|b y]; simpl; try done.
  rewrite (Z.eqb_sym b a). destruct (Z.eqb_spec a b); [done|]. unfold sign_of. zcases; simpl; lia.
Qed.

Lemma lex_sign_zero x y : lex_sign x y = 0 → x = y.
Proof.
  revert y. induction x as [|a x IH]; intros [|b y]; simpl; try done.
  destruct (Z.eqb_spec a b) as [->|]; [intros H; f_equal; by apply IH|].
  unfold sign_of. zcases; simpl; lia.
Qed.

Lemma lex_sign_trans x y z : lex_sign x y ≤ 0 → lex_sign y z ≤ 0 → lex_sign x z ≤ 0.
Proof.
  revert y z. induction x as [|a x IH]; intros [|b y] [|c z]; simpl; try lia; try done.
  destruct (Z.eqb_spec a b) as [->|], (Z.eqb_spec b c) as [->|].
  - apply IH.
  - done.
  - rewrite (proj2 (Z.eqb_neq _ _)) by done. done.
  - unfold sign_of. destruct (Z.eqb_spec a c) as [->|]; zcases; simpl; lia.
Qed.

Lemma compare_sorted_trans x y z :
  compare_sorted x y ≤ 0 → compare_sorted y z ≤ 0 → compare_sorted x z ≤ 0.
Proof. rewrite !compare_sorted_lex. apply lex_sign_trans. Qed.

Lemma compare_sorted_total x y : compare_sorted x y ≤ 0 ∨ compare_sorted y x ≤ 0.
Proof. rewrite !compare_sorted_lex, (lex_sign_flip x y). lia. Qed.

Lemma compare_sorted_orders l : orders compare_sorted l.
Proof. split; eauto using compare_sorted_trans, compare_sorted_total. Qed.

#[export] Instance key_lt_trans : Transitive key_lt.
Proof.
  intros x y z. unfold key_lt. intros Hxy Hyz.
  pose proof (lex_sign_trans x y z ltac:(lia) ltac:(lia)).
  destruct (decide (lex_sign x z = 0)) as [E|]; [|lia].
  apply lex_sign_zero in E as <-. rewrite lex_sign_flip in Hyz. lia.
Qed.

(** Sorted distinct strings, and so in one order only. *)
Lemma sorted_strictly `{QsortLaws} l :
  NoDup l → StronglySorted key_lt (qsort compare_sorted l).
Proof.
  intros Hnd. apply Sorted_StronglySorted; [apply key_lt_trans|].
  pose proof (qsort_sorted compare_sorted l (compare_sorted_orders l)) as Hs.
  assert (NoDup (qsort compare_sorted l)) as Hnd'.
  { by rewrite (qsort_perm compare_sorted l (compare_sorted_orders l)). }
  induction Hs as [|x l' Hs IH Hx]; [constructor|]. apply NoDup_cons in Hnd' as [Hnx Hnd'].
  constructor; [by apply IH|]. destruct Hx as [|y l'' Hxy]; constructor.
  unfold key_lt. rewrite compare_sorted_lex in Hxy.
  assert (lex_sign x y ≠ 0); [|lia]. intros E%lex_sign_zero. subst. by apply Hnx, list_elem_of_here.
Qed.

(** ** The value a Lua value is *)

Section values.
Context `{NumberText, JsonModule} (h : heap).

(** A table whose keys are strings is an object, in byte order. *)
Definition object_of (enc : lua_value → json → Prop) (t : table) (j : json) : Prop :=
  array_mark t = 0 ∧ ∃ m, j = JObject m ∧ (t_pairs t).*1 ≡ₚ (λ kv : bytes * json, LString kv.1) <$> m ∧
    StronglySorted key_lt m.*1 ∧
    Forall (λ kv : bytes * json, is_utf8 kv.1 = true ∧ enc (rawget t (LString kv.1)) kv.2) m.

(** One whose keys are 1 to its length is an array, where it is not empty or
    is marked. *)
Definition array_of (enc : lua_value → json → Prop) (t : table) (j : json) : Prop :=
  ∃ l, j = JArray l ∧ (l = [] → array_mark t ≠ 0) ∧
    (t_pairs t).*1 ≡ₚ LInt <$> seqZ 1 (Z.of_nat (length l)) ∧
    Forall2 (λ i j, enc (rawget t (LInt i)) j) (seqZ 1 (Z.of_nat (length l))) l.

(** One marked for holes is an array as long as its highest key, with [null]
    at each hole, of which there are only so many. *)
Definition holes_of (enc : lua_value → json → Prop) (t : table) (j : json) : Prop :=
  array_mark t = 2 ∧ ∃ l, j = JArray l ∧
    let top := Z.of_nat (length l) in
    Forall (λ k, ∃ i, k = LInt i ∧ 1 ≤ i ≤ top) (t_pairs t).*1 ∧ LInt top ∈ (t_pairs t).*1 ∧
    top - Z.of_nat (length (t_pairs t)) ≤ MAX_HOLES ∧
    Forall2 (λ i j, enc (rawget t (LInt i)) j) (seqZ 1 top) l.

Definition table_encodes (enc : lua_value → json → Prop) (t : table) (j : json) : Prop :=
  object_of enc t j ∨ array_of enc t j ∨ holes_of enc t j.

(** The JSON value of a Lua value, with at most [n] tables in one another. *)
Fixpoint encodes (n : nat) (v : lua_value) (j : json) : Prop :=
  match v with
  | LNil => j = JNull
  | LBool b => j = JBool b
  | LInt z => ∃ t, write_number (SInt z) = Some t ∧ j = JNumber t
  | LFloat f => is_finite f = true ∧ ∃ t, write_number (Real f) = Some t ∧ j = JNumber t
  | LString s => is_utf8 s = true ∧ j = JString s
  | LTable a => match n with O => False | S n => table_encodes (encodes n) (table_at h a) j end
  | v => v = null_value ∧ j = JNull
  end.

(** ** The place one is not *)

(** The value a place names. *)
Fixpoint follow (v : lua_value) (segs : list segment) : option lua_value :=
  match segs with
  | [] => Some v
  | g :: segs =>
      match v with
      | LTable a =>
          follow (rawget (table_at h a) (match g with Index i => LInt (i + 1) | Key k => LString k end)) segs
      | _ => None
      end
  end.

(** Nothing below the value is to blame for it. *)
Definition to_blame (n : nat) (v : lua_value) : Prop :=
  match v with
  | LTable a => n = O ∨ ∀ enc j, ¬ table_encodes enc (table_at h a) j
  | v => ∀ j, ¬ encodes n v j
  end.

Definition failing (n : nat) (v : lua_value) (segs : list segment) : Prop :=
  (∀ j, ¬ encodes n v j) ∧
  ∃ v', follow v segs = Some v' ∧ (length segs ≤ n)%nat ∧ to_blame (n - length segs) v'.

End values.
