(* ===== verification/JsonEncodeCorrect.v ===== *)
(** * Encoding is correct

    The walk over a Lua value implements, in the sense of [JsonBuffer.v],
    the text of the JSON value the Lua value is, or a refusal that names a
    place to blame.  The theorems about [json_encode] follow. *)

From Stdlib Require Import SpecFloat.
From S2P Require Import Prelude.
From S2P Require Import Utf8.
From S2P Require Import JsonPath.
From S2P Require Import JsonBuffer.
From S2P Require Import JsonString.
From S2P Require Import JsonNumber.
From S2P Require Import JsonTree.
From S2P Require Import Lua.
From S2P Require Import JsonEncode.

Local Open Scope Z_scope.

(** ** What a scan of the keys finds *)

Definition good_key (k : lua_value) : Prop :=
  (∃ s, k = LString s) ∨ ∃ i, k = LInt i ∧ 1 ≤ i.

Definition key_string (k : lua_value) : option bytes :=
  match k with LString s => Some s | _ => None end.

Lemma find_keys_spec t :
  let '(Keys count strings top other) := find_keys t in
  count = Z.of_nat (length (t_pairs t)) ∧
  strings = Z.of_nat (length (omap key_string (t_pairs t).*1)) ∧
  (other = None ↔ Forall good_key (t_pairs t).*1) ∧ 0 ≤ top ∧
  (∀ i, LInt i ∈ (t_pairs t).*1 → i ≤ top) ∧ (top = 0 ∨ LInt top ∈ (t_pairs t).*1).
Proof.
  unfold find_keys. rewrite <- (length_fmap fst (t_pairs t)). generalize (t_pairs t).*1. clear t.
  induction l as [|k l IH] using rev_ind.
  { simpl. split_and!; [done|done|by split; [constructor|]|lia| |by left]. by intros i ?%not_elem_of_nil. }
  rewrite foldl_snoc. destruct (foldl key_step (Keys 0 0 0 None) l) as [count strings top other].
  destruct IH as (-> & -> & Ho & Htop & Hle & Hin).
  assert (∀ x, omap key_string (l ++ [x]) = omap key_string l ++ omap key_string [x]) as Homap.
  { intros x. apply omap_app. }
  assert (∀ i, good_key k ∧ k ≠ LInt i → LInt i ∈ l ++ [k] → LInt i ∈ l) as Hnot.
  { intros i [_ Hne] [?|Hk]%elem_of_app; [done|]. apply list_elem_of_singleton in Hk. congruence. }
  assert (∀ i, LInt i ∈ l → LInt i ∈ l ++ [k]) as Hgrow by (intros; apply elem_of_app; by left).
  unfold key_step. cbn [k_count k_strings k_top k_other].
  rewrite length_app, Homap, length_app.
  assert (∀ o : option bytes, o ≠ None → ¬ good_key k → o = None ↔ Forall good_key (l ++ [k])) as Hbad.
  { intros o Hne Hk. split; [done|]. intros Hall. apply Forall_app in Hall as [_ Hall].
    by apply Forall_inv in Hall. }
  assert (∀ o, (match other with None => Some o | Some x => Some x end : option bytes) ≠ None) as Hsome
    by (intros; by destruct other).
  assert (good_key k → other = None ↔ Forall good_key (l ++ [k])) as Hgood.
  { intros Hk. rewrite Ho, Forall_app. split; [intros; split; [done|by constructor]|by intros []]. }
  assert (∀ i, (∀ z, k ≠ LInt z) → LInt i ∈ l ++ [k] → i ≤ top) as Hother.
  { intros i Hk [Hi|Hi]%elem_of_app; [by apply Hle|]. apply list_elem_of_singleton in Hi. by destruct (Hk i). }
  assert (top = 0 ∨ LInt top ∈ l ++ [k]) as Hin' by (destruct Hin; [by left|right; by apply Hgrow]).
  destruct k as [|b|z|f|s|a|a|name]; simpl.
  3: { destruct (Z.leb_spec 1 z).
    - assert (∀ i, LInt i ∈ l ++ [LInt z] → i ≤ top ∨ i = z) as Hi.
      { intros i [Hi|Hi]%elem_of_app; [left; by apply Hle|].
        apply list_elem_of_singleton in Hi. right. congruence. }
      split_and!; [lia|lia|apply Hgood; right; by exists z|zcases; lia| |].
      + intros i [?|?]%Hi; zcases; lia.
      + destruct (Z.ltb_spec top z); [|done]. right. apply elem_of_app. right. by apply list_elem_of_singleton.
    - split_and!; [lia|lia|apply Hbad; [apply Hsome|]|done| |done].
      + intros [[? ?]|(? & [= <-] & ?)]; [done|lia].
      + intros i [Hi|Hi]%elem_of_app; [by apply Hle|]. apply list_elem_of_singleton in Hi.
        injection Hi as ->. lia. }
  4: { split_and!; [lia|lia|apply Hgood; left; by exists s|done| |done]. intros i. by apply Hother. }
  all: split_and!; [lia|lia|apply Hbad; [apply Hsome|by intros [[? ?]|(? & ? & _)]]|done| |done].
  all: intros i; by apply Hother.
Qed.

(** ** One writer after another, each with some ideal *)

Section lists.
Context `{A : Allocator} {X : Type}.

(** Each element's text, or the refusal of one of them. *)
Lemma each_exists (f : nat → X → writer) (Q : nat → X → ideal → Prop) i l :
  (∀ k x, l !! k = Some x → ∃ w, implements (f (i + k)%nat x) w ∧ Q (i + k)%nat x w) →
  ∃ w, implements (each f i l) w ∧
    match w.2 with
    | None => ∃ texts, w.1 = mjoin texts ∧ length texts = length l ∧
        ∀ k x t, l !! k = Some x → texts !! k = Some t → Q (i + k)%nat x (says t)
    | Some refusal => ∃ k x before, l !! k = Some x ∧ Q (i + k)%nat x (before, Some refusal)
    end.
Proof.
  revert i. induction l as [|x l IH]; intros i H.
  { exists (says []). split; [apply implements_done|]. exists []. by split_and!. }
  destruct (H O x eq_refl) as (w & Hw & HQ). rewrite Nat.add_0_r in *.
  destruct (IH (S i)) as (w' & Hw' & Hspec).
  { intros k y Hk. destruct (H (S k) y Hk) as (v & ? & ?). exists v. by rewrite Nat.add_succ_r in *. }
  exists (then_ideal w w'). split; [by apply implements_andthen|].
  unfold then_ideal. destruct w as [t [refusal|]]; simpl in *.
  { exists O, x, t. by rewrite Nat.add_0_r. }
  destruct w' as [t' [refusal|]]; simpl in *.
  - destruct Hspec as (k & y & before & Hk & HQ'). exists (S k), y, before. by rewrite Nat.add_succ_r.
  - destruct Hspec as (texts & -> & Hlen & Hall). exists (t :: texts). split_and!; [done|simpl; lia|].
    intros [|k] y u Hk Hu; simpl in *.
    + injection Hk as <-. injection Hu as <-. by rewrite Nat.add_0_r.
    + rewrite Nat.add_succ_r. by apply (Hall k y u).
Qed.

End lists.

(** The texts of the items of an array, and of the members of an object, put
    together. *)
Lemma texts_items {X} st depth (text : json → bytes) (R : X → json → Prop) i xs texts :
  length texts = length xs →
  (∀ k x t, xs !! k = Some x → texts !! k = Some t →
    ∃ j, R x j ∧ t = separator (i + k =? 0)%nat ++ break_text st depth ++ text j) →
  ∃ l, Forall2 R xs l ∧ mjoin texts = items_text st depth text (i =? 0)%nat l.
Proof.
  revert i texts. induction xs as [|x xs IH]; intros i [|t texts] Hlen H; try done.
  { exists []. by split; [constructor|]. }
  destruct (H O x t eq_refl eq_refl) as (j & HR & ->). rewrite Nat.add_0_r.
  destruct (IH (S i) texts) as (l & HF & E); [simpl in Hlen; lia| |].
  { intros k y u Hk Hu. destruct (H (S k) y u Hk Hu) as (j' & ? & E). exists j'.
    by rewrite Nat.add_succ_r in E. }
  exists (j :: l). split; [by constructor|]. cbn [items_text].
  change (mjoin (?t :: texts)) with (t ++ mjoin texts). by rewrite E, <- !app_assoc.
Qed.

Lemma texts_members {X} st depth (text : json → bytes) (R : X → bytes * json → Prop) i xs texts :
  length texts = length xs →
  (∀ k x t, xs !! k = Some x → texts !! k = Some t →
    ∃ kv, R x kv ∧
      t = separator (i + k =? 0)%nat ++ break_text st depth ++ key_text st kv.1 ++ text kv.2) →
  ∃ m, Forall2 R xs m ∧ mjoin texts = members_text st depth text (i =? 0)%nat m.
Proof.
  revert i texts. induction xs as [|x xs IH]; intros i [|t texts] Hlen H; try done.
  { exists []. by split; [constructor|]. }
  destruct (H O x t eq_refl eq_refl) as (kv & HR & ->). rewrite Nat.add_0_r.
  destruct (IH (S i) texts) as (m & HF & E); [simpl in Hlen; lia| |].
  { intros k y u Hk Hu. destruct (H (S k) y u Hk Hu) as (kv' & ? & E). exists kv'.
    by rewrite Nat.add_succ_r in E. }
  exists (kv :: m). split; [by constructor|]. cbn [members_text].
  change (mjoin (?t :: texts)) with (t ++ mjoin texts). by rewrite E, <- !app_assoc.
Qed.

(** ** The walk *)

Definition value_bytes (v : lua_value) : Prop :=
  match v with LString s => all_bytes s | _ => True end.

(** Every string of the heap is bytes. *)
Definition heap_bytes (h : heap) : Prop :=
  ∀ a, Forall (λ kv, value_bytes kv.1 ∧ value_bytes kv.2) (t_pairs (table_at h a)).

Lemma rawget_bytes h a k : heap_bytes h → value_bytes (rawget (table_at h a) k).
Proof.
  intros Hh. unfold rawget. destruct (decide (pairs_get (t_pairs (table_at h a)) k = LNil)) as [->|Hne]; [done|].
  apply pairs_get_some in Hne. specialize (Hh a). rewrite Forall_forall in Hh. by apply Hh in Hne as [].
Qed.

Section walk.
Context `{A : Allocator, N : NumberText, JM : JsonModule, Q : Qsort} `{!JsonModuleLaws, !QsortLaws}.
Context (st : layout) (h : heap) (Hbytes : heap_bytes h).

(** What a writer of the value [v] is to do. *)
Definition value_spec (n depth : nat) (v : lua_value) (w : ideal) : Prop :=
  match w.2 with
  | None => ∃ j, encodes h n v j ∧ w.1 = print st depth j
  | Some (_, segs) => failing h n v segs
  end.

Definition value_writer (n depth : nat) (value : lua_value → writer) : Prop :=
  ∀ v, value_bytes v → ∃ w, implements (value v) w ∧ value_spec n depth v w.

Lemma put_array_spec n depth value a top :
  0 < top → value_writer n (S depth) (value (S depth)) →
  ∃ w, implements (put_array st value (table_at h a) top depth) w ∧
    match w.2 with
    | None => ∃ l, Forall2 (λ i j, encodes h n (rawget (table_at h a) (LInt i)) j) (seqZ 1 top) l ∧
        w.1 = print st depth (JArray l)
    | Some (_, segs) => ∃ i segs', 1 ≤ i ≤ top ∧ segs = Index (i - 1) :: segs' ∧
        failing h n (rawget (table_at h a) (LInt i)) segs'
    end.
Proof.
  intros Htop Hvalue.
  destruct (each_exists (λ k i,
    ((if (k =? 0)%nat then done_ok else put [COMMA]) ;;
     put_break st (depth + 1) ;;
     under (Index (i - 1)) (value (depth + 1)%nat (rawget (table_at h a) (LInt i)))))%json
    (λ k i w, match w.2 with
      | None => ∃ j, encodes h n (rawget (table_at h a) (LInt i)) j ∧
          w.1 = separator (k =? 0)%nat ++ break_text st (S depth) ++ print st (S depth) j
      | Some (_, segs) => ∃ segs', segs = Index (i - 1) :: segs' ∧
          failing h n (rawget (table_at h a) (LInt i)) segs' end) 0 (seqZ 1 top))
    as (w & Hw & Hspec).
  { intros k i _. simpl. rewrite Nat.add_1_r.
    destruct (Hvalue (rawget (table_at h a) (LInt i))) as (v & Hv & Hvs); [by apply rawget_bytes|].
    exists (then_ideal (says (separator (k =? 0)%nat)) (then_ideal (says (break_text st (S depth)))
      (under_ideal (Index (i - 1)) v))). split.
    - apply implements_andthen; [destruct (k =? 0)%nat; auto with writer|]. auto with writer.
    - unfold value_spec in Hvs. unfold under_ideal, then_ideal. simpl. destruct v as [t [[why segs]|]]; simpl in *.
      + by exists segs.
      + destruct Hvs as (j & ? & ->). by exists j. }
  exists (then_ideal (says [OPEN_ARRAY]) (then_ideal w
    (then_ideal (says (break_text st depth)) (says [CLOSE_ARRAY])))). split.
  { unfold put_array. auto with writer. }
  unfold then_ideal. destruct w as [t [[why segs]|]]; simpl in *.
  - destruct Hspec as (k & i & before & Hk & segs' & -> & Hf). exists i, segs'. split_and!; try done.
    all: apply list_elem_of_lookup_2, elem_of_seqZ in Hk; lia.
  - destruct Hspec as (texts & -> & Hlen & Hall).
    destruct (texts_items st (S depth) (print st (S depth))
      (λ i j, encodes h n (rawget (table_at h a) (LInt i)) j) 0 (seqZ 1 top) texts Hlen) as (l & Hl & ->).
    { intros k i u Hk Hu. apply (Hall k i u Hk Hu). }
    exists l. split; [done|]. destruct l; [|done].
    apply Forall2_length in Hl. rewrite length_seqZ in Hl. simpl in Hl. lia.
Qed.

Lemma put_key_spec k :
  all_bytes k →
  implements (put_key st k) (if is_utf8 k then says (string_text (e_ascii st) k) else denies bad_key).
Proof.
  intros Hk e He. pose proof (put_string_implements st k Hk e He) as Ho. unfold put_key, string_ideal in *.
  unfold outcome_within in *. destruct (put_string st k e) as [e' [|]].
  - destruct (is_utf8 k); [done|]. by destruct Ho.
  - destruct Ho as [(Hoom & ? & ?)|(why & segs & Hv & Hoom & ? & Hp)]; rewrite Hoom.
    + left. by destruct (is_utf8 k).
    + right. destruct (is_utf8 k); [done|]. injection Hv as <- <-. by exists (fit bad_key), [].
Qed.

Lemma put_member_spec n depth value a key first :
  all_bytes key → value_writer n (S depth) (value (S depth)) →
  ∃ w, implements (put_member st value key (rawget (table_at h a) (LString key)) first depth) w ∧
    match w.2 with
    | None => is_utf8 key = true ∧ ∃ j, encodes h n (rawget (table_at h a) (LString key)) j ∧
        w.1 = separator first ++ break_text st (S depth) ++ key_text st key ++ print st (S depth) j
    | Some (_, segs) => (segs = [] ∧ is_utf8 key = false) ∨
        ∃ segs', segs = Key key :: segs' ∧ failing h n (rawget (table_at h a) (LString key)) segs'
    end.
Proof.
  intros Hkey Hvalue. unfold put_member. rewrite Nat.add_1_r.
  destruct (Hvalue (rawget (table_at h a) (LString key))) as (v & Hv & Hvs); [by apply rawget_bytes|].
  pose proof (put_key_spec key Hkey) as Hk.
  exists (then_ideal (says (separator first)) (then_ideal (says (break_text st (S depth)))
    (then_ideal (if is_utf8 key then says (string_text (e_ascii st) key) else denies bad_key)
      (then_ideal (says [COLON]) (then_ideal (says (if e_pretty st then [SPACE] else []))
        (under_ideal (Key key) v)))))). split.
  { apply implements_andthen; [destruct first; auto with writer|].
    apply implements_andthen; [auto with writer|]. apply implements_andthen; [done|].
    apply implements_andthen; [auto with writer|].
    apply implements_andthen; [destruct (e_pretty st); auto with writer|]. auto with writer. }
  unfold then_ideal, value_spec, under_ideal in *. simpl. destruct (is_utf8 key); simpl; [|by left].
  destruct v as [t [[why segs]|]]; simpl in *.
  - right. by exists segs.
  - split; [done|]. destruct Hvs as (j & ? & ->). exists j. split; [done|].
    unfold key_text. by rewrite <- !app_assoc.
Qed.

Lemma put_object_spec n depth value a count :
  0 < count → string_keys (table_at h a) ≠ [] → value_writer n (S depth) (value (S depth)) →
  ∃ w, implements (put_object st value (table_at h a) count depth) w ∧
    match w.2 with
    | None => ∃ m, m.*1 = qsort compare_sorted (string_keys (table_at h a)) ∧
        Forall (λ kv : bytes * json, is_utf8 kv.1 = true ∧
          encodes h n (rawget (table_at h a) (LString kv.1)) kv.2) m ∧
        w.1 = print st depth (JObject m)
    | Some (_, segs) => ∃ key, key ∈ string_keys (table_at h a) ∧
       ((segs = [] ∧ is_utf8 key = false) ∨
        ∃ segs', segs = Key key :: segs' ∧ failing h n (rawget (table_at h a) (LString key)) segs')
    end.
Proof.
  intros Hcount Hne Hvalue. set (keys := qsort compare_sorted (string_keys (table_at h a))).
  assert (keys ≡ₚ string_keys (table_at h a)) as Hperm.
  { apply qsort_perm, compare_sorted_orders. }
  assert (∀ key, key ∈ keys → all_bytes key) as Hkb.
  { intros key. rewrite Hperm. unfold string_keys. rewrite list_elem_of_omap.
    intros (k & Hk & E). destruct k; try done. injection E as <-.
    apply list_elem_of_fmap in Hk as ([k v] & [= <-] & Hin). specialize (Hbytes a).
    rewrite Forall_forall in Hbytes. by apply Hbytes in Hin as []. }
  destruct (each_exists (λ i key,
    put_member st value key (rawget (table_at h a) (LString key)) (i =? 0)%nat depth)
    (λ i key w, match w.2 with
    | None => is_utf8 key = true ∧ ∃ j, encodes h n (rawget (table_at h a) (LString key)) j ∧
        w.1 = separator (i =? 0)%nat ++ break_text st (S depth) ++ key_text st key ++ print st (S depth) j
    | Some (_, segs) => (segs = [] ∧ is_utf8 key = false) ∨
        ∃ segs', segs = Key key :: segs' ∧ failing h n (rawget (table_at h a) (LString key)) segs'
    end) 0 keys) as (w & Hw & Hspec).
  { intros k key Hk. apply put_member_spec; [|done]. by eapply Hkb, list_elem_of_lookup_2. }
  exists (then_ideal (says [OPEN_OBJECT]) (then_ideal w
    (then_ideal (says (break_text st depth)) (says [CLOSE_OBJECT])))). split.
  { unfold put_object. rewrite (proj2 (Z.ltb_lt _ _) Hcount). auto with writer. }
  unfold then_ideal. destruct w as [t [[why segs]|]]; simpl in *.
  - destruct Hspec as (k & key & before & Hk & Hf). exists key. split; [|done].
    rewrite <- Hperm. by eapply list_elem_of_lookup_2.
  - destruct Hspec as (texts & -> & Hlen & Hall).
    destruct (texts_members st (S depth) (print st (S depth))
      (λ key kv, kv.1 = key ∧ is_utf8 kv.1 = true ∧ encodes h n (rawget (table_at h a) (LString kv.1)) kv.2)
      0 keys texts Hlen) as (m & Hm & ->).
    { intros k key u Hk Hu. destruct (Hall k key u Hk Hu) as (Hu8 & j & Hj & ->). by exists (key, j). }
    exists m. split_and!.
    + clear -Hm. clearbody keys. induction Hm as [|key kv l m (E & _) _ IH]; [done|].
      rewrite fmap_cons, E. by f_equal.
    + apply Forall_forall. intros kv Hin. apply list_elem_of_lookup in Hin as [i Hi].
      destruct (Forall2_lookup_r _ _ _ _ _ Hm Hi) as (key & _ & _ & ?). done.
    + destruct m; [|done]. apply Forall2_length in Hm. rewrite Hperm in Hm. by destruct (string_keys _).
Qed.

End walk.

(** ** What a table's keys leave it to be *)

Section tables.
Context `{N : NumberText, JM : JsonModule} (h : heap).
Implicit Types (enc : lua_value → json → Prop) (t : table) (j : json).

Lemma encodes_good_keys enc t j : table_encodes enc t j → Forall good_key (t_pairs t).*1.
Proof.
  intros [(_ & m & _ & -> & _)|[(l & _ & _ & -> & _)|(_ & l & _ & Hk & _)]].
  - apply Forall_fmap, Forall_forall. intros kv _. left. by eexists.
  - apply Forall_fmap, Forall_forall. intros i Hi%elem_of_seqZ. right. exists i. split; [done|lia].
  - eapply Forall_impl; [exact Hk|]. intros k (i & -> & Hi). right. exists i. split; [done|lia].
Qed.

(** With a string key it can only be an object. *)
Lemma encodes_object_inv enc t j s :
  LString s ∈ (t_pairs t).*1 → table_encodes enc t j → object_of enc t j.
Proof.
  intros Hs [Ho|[(l & _ & _ & Hk & _)|(_ & l & _ & Hk & _)]]; [done| |].
  - rewrite Hk in Hs. by apply list_elem_of_fmap in Hs as (? & ? & _).
  - rewrite Forall_forall in Hk. by destruct (Hk _ Hs) as (? & ? & _).
Qed.

(** With an integer key it can only be an array as long as its highest. *)
Lemma encodes_array_inv enc t j top :
  (∀ i, LInt i ∈ (t_pairs t).*1 → i ≤ top) → LInt top ∈ (t_pairs t).*1 →
  table_encodes enc t j →
  ∃ l, j = JArray l ∧ Forall2 (λ i j, enc (rawget t (LInt i)) j) (seqZ 1 top) l ∧
    top - Z.of_nat (length (t_pairs t)) ≤ MAX_HOLES ∧
    (array_mark t ≠ 2 → Z.of_nat (length (t_pairs t)) = top).
Proof.
  intros Hle Htop [(_ & m & _ & Hk & _)|[(l & -> & _ & Hk & Hl)|(Hm & l & -> & Hk & Hin & Hh & Hl)]].
  - rewrite Hk in Htop. by apply list_elem_of_fmap in Htop as (? & ? & _).
  - assert (length (t_pairs t) = length l) as Hlen.
    { apply Permutation_length in Hk. rewrite !length_fmap, length_seqZ in Hk. lia. }
    assert (Z.of_nat (length l) = top) as E.
    { pose proof Htop as Htop'. rewrite Hk in Htop'. apply list_elem_of_fmap in Htop' as (i & [= <-] & Hi).
      apply elem_of_seqZ in Hi.
      assert (LInt (Z.of_nat (length l)) ∈ (t_pairs t).*1) as Hl'.
      { rewrite Hk. apply list_elem_of_fmap. eexists. split; [done|]. apply elem_of_seqZ. lia. }
      apply Hle in Hl'. lia. }
    exists l. rewrite Hlen, E in *. split_and!; [done..| |done]. unfold MAX_HOLES. lia.
  - assert (Z.of_nat (length l) = top) as E.
    { apply Hle in Hin. rewrite Forall_forall in Hk. destruct (Hk _ Htop) as (i & [= <-] & ?). lia. }
    exists l. rewrite E in *. by split_and!.
Qed.

Lemma failing_here n a : (∀ enc j, ¬ table_encodes enc (table_at h a) j) → failing h (S n) (LTable a) [].
Proof.
  intros H. split; [intros j; apply H|]. exists (LTable a). split_and!; [done|simpl; lia|]. right. exact H.
Qed.

(** A place below a table, under the key [k] that every value of it would
    have to encode. *)
Lemma failing_under n a g k segs :
  (k = match g with Index i => LInt (i + 1) | Key s => LString s end) →
  (∀ j, table_encodes (encodes h n) (table_at h a) j → ∃ j', encodes h n (rawget (table_at h a) k) j') →
  failing h n (rawget (table_at h a) k) segs → failing h (S n) (LTable a) (g :: segs).
Proof.
  intros Ek Hall [Hno (v' & Hv & Hlen & Hb)]. split.
  - intros j Hj. destruct (Hall j Hj) as [j' Hj']. by apply (Hno j').
  - exists v'. split_and!; [|simpl; lia|exact Hb]. simpl. by rewrite <- Ek.
Qed.

Lemma int_keys t :
  Forall good_key (t_pairs t).*1 → omap key_string (t_pairs t).*1 = [] →
  Forall (λ k, ∃ i, k = LInt i ∧ 1 ≤ i) (t_pairs t).*1.
Proof.
  intros Hgood Hs. apply Forall_forall. intros k Hk. rewrite Forall_forall in Hgood.
  destruct (Hgood k Hk) as [[s ->]|?]; [|done]. exfalso.
  assert (s ∈ omap key_string (t_pairs t).*1) as Hin by (apply list_elem_of_omap; by exists (LString s)).
  rewrite Hs in Hin. by apply not_elem_of_nil in Hin.
Qed.

Lemma keys_all_strings (l : list lua_value) :
  length (omap key_string l) = length l → l = LString <$> omap key_string l.
Proof.
  induction l as [|k l IH]; [done|]. pose proof (length_omap_le key_string l) as Hle.
  destruct k; cbn [omap list_omap key_string length]; intros Hlen; try (change (list_omap _ _ key_string l) with (omap key_string l) in *; lia).
  rewrite fmap_cons. f_equal. apply IH. unfold omap in *. lia.
Qed.

Lemma keys_one_to_top t top :
  table_ok t → Forall (λ k, ∃ i, k = LInt i ∧ 1 ≤ i) (t_pairs t).*1 →
  (∀ i, LInt i ∈ (t_pairs t).*1 → i ≤ top) → 0 ≤ top → top ≤ Z.of_nat (length (t_pairs t)) →
  (t_pairs t).*1 ≡ₚ LInt <$> seqZ 1 top ∧ Z.of_nat (length (t_pairs t)) = top.
Proof.
  intros [Hnd _] Hall Hle Htop Hlen.
  assert ((t_pairs t).*1 ⊆+ LInt <$> seqZ 1 top) as Hsub.
  { apply NoDup_submseteq; [done|]. intros k Hk. rewrite Forall_forall in Hall.
    destruct (Hall k Hk) as (i & -> & Hi). apply list_elem_of_fmap. exists i. split; [done|].
    apply elem_of_seqZ. specialize (Hle i Hk). lia. }
  pose proof (submseteq_length _ _ Hsub) as Hl. rewrite !length_fmap, length_seqZ in Hl.
  split; [|lia]. apply submseteq_length_Permutation; [done|].
  rewrite !length_fmap, length_seqZ. lia.
Qed.

End tables.

Section values.
Context `{A : Allocator, N : NumberText, JM : JsonModule, Q : Qsort} `{!JsonModuleLaws, !QsortLaws}.
Context (st : layout) (h : heap) (Hheap : heap_ok h) (Hbytes : heap_bytes h).

#[local] Abbreviation spec := (value_spec st h).

Lemma refused_table n depth a why :
  (∀ enc j, ¬ table_encodes enc (table_at h a) j) →
  ∃ w, implements (refuse why) w ∧ spec (S n) depth (LTable a) w.
Proof.
  intros Hno. exists (denies why). split; [apply implements_refuse|]. by apply failing_here.
Qed.

Lemma put_object_table n depth value a :
  let t := table_at h a in
  array_mark t = 0 → t_pairs t ≠ [] → length (omap key_string (t_pairs t).*1) = length (t_pairs t) →
  value_writer st h n (S depth) (value (S depth)) →
  ∃ w, implements (put_object st value t (Z.of_nat (length (t_pairs t))) depth) w ∧
    spec (S n) depth (LTable a) w.
Proof.
  intros t Hmark Hne Hlen Hvalue.
  assert ((t_pairs t).*1 = LString <$> string_keys t) as Hkeys.
  { apply keys_all_strings. by rewrite length_fmap. }
  assert (string_keys t ≠ []) as Hne'.
  { intros E. rewrite E in Hkeys. by destruct (t_pairs t). }
  destruct (put_object_spec st h Hbytes n depth value a (Z.of_nat (length (t_pairs t)))) as (w & Hw & Hs); try done.
  { destruct (t_pairs t); simpl; [done|lia]. }
  exists w. split; [done|]. unfold value_spec. destruct (table_at_ok h a Hheap) as [Hnd _]. fold t in Hnd, Hs.
  assert (∀ enc j key, key ∈ string_keys t → table_encodes enc t j →
    is_utf8 key = true ∧ ∃ j', enc (rawget t (LString key)) j') as Hany.
  { intros enc j key Hkey Hj.
    apply (encodes_object_inv enc t j key) in Hj as (_ & m & -> & Hperm & _ & Hall).
    2: { rewrite Hkeys. by apply list_elem_of_fmap_2. }
    assert (LString key ∈ (λ kv : bytes * json, LString kv.1) <$> m) as Hin.
    { rewrite <- Hperm, Hkeys. by apply list_elem_of_fmap_2. }
    apply list_elem_of_fmap in Hin as (kv & [= ->] & Hin). rewrite Forall_forall in Hall.
    destruct (Hall _ Hin). eauto. }
  destruct w as [out [[why segs]|]]; simpl in *.
  - destruct Hs as (key & Hkey & [[-> Hu]|(segs' & -> & Hf)]).
    + apply failing_here. intros enc j Hj. destruct (Hany enc j key Hkey Hj) as [Hu' _]. fold t in Hu'. congruence.
    + eapply failing_under; [done| |exact Hf]. intros j Hj. by apply (Hany _ j key Hkey Hj).
  - destruct Hs as (m & Hm & Hall & ->). exists (JObject m). split; [|done]. left. split; [done|].
    exists m. fold t. split_and!; [done| | |done].
    + assert ((λ kv : bytes * json, LString kv.1) <$> m = LString <$> m.*1) as ->
        by (by rewrite <- list_fmap_compose).
      rewrite Hkeys, Hm. apply fmap_Permutation.
      symmetry. apply qsort_perm, compare_sorted_orders.
    + rewrite Hm. apply sorted_strictly. rewrite Hkeys in Hnd. by apply NoDup_fmap_1 in Hnd.
Qed.

Lemma put_array_table n depth value a top :
  let t := table_at h a in
  Forall (λ k, ∃ i, k = LInt i ∧ 1 ≤ i) (t_pairs t).*1 →
  0 < top → (∀ i, LInt i ∈ (t_pairs t).*1 → i ≤ top) → LInt top ∈ (t_pairs t).*1 →
  (array_mark t = 2 ∧ top - Z.of_nat (length (t_pairs t)) ≤ MAX_HOLES ∨
   top ≤ Z.of_nat (length (t_pairs t))) →
  value_writer st h n (S depth) (value (S depth)) →
  ∃ w, implements (put_array st value t top depth) w ∧ spec (S n) depth (LTable a) w.
Proof.
  intros t Hints Htop Hle Hin Hkind Hvalue.
  destruct (put_array_spec st h Hbytes n depth value a top Htop Hvalue) as (w & Hw & Hs).
  exists w. split; [done|]. unfold value_spec. fold t in Hs.
  destruct w as [out [[why segs]|]]; simpl in *.
  - destruct Hs as (i & segs' & Hi & -> & Hf). eapply failing_under; [done| |].
    2: { replace (i - 1 + 1) with i by lia. exact Hf. }
    intros j Hj. replace (i - 1 + 1) with i by lia.
    destruct (encodes_array_inv _ t j top Hle Hin Hj) as (l & -> & Hl & _).
    destruct (Forall2_lookup_l _ _ _ (Z.to_nat (i - 1)) i Hl) as (j' & _ & Hj'); [|by exists j'].
    rewrite lookup_seqZ. split; lia.
  - destruct Hs as (l & Hl & ->). exists (JArray l). split; [|done].
    pose proof (Forall2_length _ _ _ Hl) as Hlen. rewrite length_seqZ in Hlen.
    assert (Z.of_nat (length l) = top) as E by lia. right. fold t.
    destruct Hkind as [[Hmark Hholes]|Hfull].
    + right. split; [done|]. exists l. split; [done|]. cbn zeta. rewrite E. split_and!; try done.
      apply Forall_forall. intros k Hk. rewrite Forall_forall in Hints.
      destruct (Hints k Hk) as (i & -> & ?). exists i. split_and!; [done..|by apply Hle].
    + left. exists l. rewrite E. split_and!; [done| | |done].
      * intros ->. simpl in E. lia.
      * apply keys_one_to_top; [by apply table_at_ok|done|done|lia|done].
Qed.

Lemma put_table_spec n depth value a :
  (e_max_depth st ≤ depth → n = O)%nat → (depth < e_max_depth st → n ≠ O)%nat →
  (∀ n', n = S n' → value_writer st h n' (S depth) (value (S depth))) →
  ∃ w, implements (put_table st value (table_at h a) depth) w ∧ spec n depth (LTable a) w.
Proof.
  intros Hdeep Hshallow Hvalue. unfold put_table.
  destruct (Nat.leb_spec (e_max_depth st) depth) as [Hd|Hd].
  { rewrite (Hdeep Hd). exists (denies (too_deep_message st)). split; [apply implements_refuse|].
    split; [by intros j []|]. exists (LTable a). split_and!; [done|simpl; lia|by left]. }
  destruct n as [|n]; [by destruct (Hshallow Hd)|]. specialize (Hvalue n eq_refl). clear Hdeep Hshallow.
  pose proof (find_keys_spec (table_at h a)) as Hkeys.
  destruct (find_keys (table_at h a)) as [count strings top other].
  set (t := table_at h a) in *. destruct Hkeys as (-> & -> & Hother & Htop & Hle & Hin).
  destruct other as [other|].
  { apply refused_table. intros enc j Hj%encodes_good_keys. by apply Hother in Hj. }
  assert (Forall good_key (t_pairs t).*1) as Hgood by (by apply Hother).
  pose proof (length_omap_le key_string (t_pairs t).*1) as Hsl. rewrite length_fmap in Hsl.
  assert (0 ≤ array_mark t) as Hmark0.
  { unfold array_mark. destruct (t_meta t); [|done]. repeat case_decide; lia. }
  destruct (Z.ltb_spec 0 (Z.of_nat (length (omap key_string (t_pairs t).*1)))) as [Hs|Hs].
  { destruct (omap key_string (t_pairs t).*1) as [|s ss] eqn:Eo; [simpl in Hs; lia|].
    assert (LString s ∈ (t_pairs t).*1) as Hsin.
    { assert (s ∈ omap key_string (t_pairs t).*1) as Hsin by (rewrite Eo; apply list_elem_of_here).
      apply list_elem_of_omap in Hsin as (k & Hk & E). destruct k; try done. by injection E as <-. }
    destruct (Z.eqb_spec (array_mark t) 0) as [Hm|Hm]; simpl negb; cbn iota.
    2: { apply refused_table. intros enc j Hj%(encodes_object_inv _ _ _ s); [|done]. by destruct Hj. }
    rewrite <- Eo in *. destruct (Z.ltb_spec (Z.of_nat (length (omap key_string (t_pairs t).*1)))
      (Z.of_nat (length (t_pairs t)))) as [Hlt|Hge].
    - apply refused_table. intros enc j Hj%(encodes_object_inv _ _ _ s); [|done].
      destruct Hj as (_ & m & _ & Hperm & _). fold t in Hperm.
      pose proof (Permutation_length Hperm) as Hl. rewrite !length_fmap in Hl.
      assert (∀ m : list (bytes * json), length (omap key_string ((λ kv, LString kv.1) <$> m)) = length m) as Hm'.
      { intros l. induction l as [|kv l IH]; [done|]. simpl. f_equal. exact IH. }
      specialize (Hm' m). rewrite <- Hperm in Hm'. lia.
    - apply put_object_table; fold t; [done| |lia|done]. intros E. rewrite E in Hsin.
      by apply not_elem_of_nil in Hsin. }
  assert (omap key_string (t_pairs t).*1 = []) as Eo.
  { destruct (omap key_string (t_pairs t).*1); [done|simpl in Hs; lia]. }
  pose proof (int_keys t Hgood Eo) as Hints.
  destruct ((array_mark t =? 2) && (0 <? top)) eqn:Hholes.
  { apply andb_true_iff in Hholes as [Hm Ht]. apply Z.eqb_eq in Hm. apply Z.ltb_lt in Ht.
    destruct Hin as [?|Hin]; [lia|].
    destruct (Z.ltb_spec MAX_HOLES (top - Z.of_nat (length (t_pairs t)))) as [Hlt|Hge].
    - apply refused_table. intros enc j Hj.
      destruct (encodes_array_inv enc t j top Hle Hin Hj) as (l & _ & _ & ? & _). lia.
    - apply put_array_table; try done. left. fold t. split; [done|lia]. }
  destruct (Z.eqb_spec (Z.of_nat (length (t_pairs t))) 0) as [Hc|Hc].
  { assert (t_pairs t = []) as E by (destruct (t_pairs t); [done|simpl in Hc; lia]).
    destruct (Z.eqb_spec (array_mark t) 0) as [Hm|Hm]; simpl negb; cbn iota.
    - exists (says [OPEN_OBJECT; CLOSE_OBJECT]). split; [apply implements_put|].
      exists (JObject []). split; [|done]. left. split; [done|]. exists []. fold t. rewrite E.
      split_and!; try done; constructor.
    - exists (says [OPEN_ARRAY; CLOSE_ARRAY]). split; [apply implements_put|].
      exists (JArray []). split; [|done]. right. left. exists []. fold t. rewrite E. by split_and!. }
  assert (LInt top ∈ (t_pairs t).*1 ∧ 0 < top) as [Hin' Htop'].
  { destruct (t_pairs t) as [|[k v] l] eqn:E; [done|]. rewrite <- E in *.
    assert (k ∈ (t_pairs t).*1) as Hk by (rewrite E; apply list_elem_of_here).
    rewrite Forall_forall in Hints. destruct (Hints k Hk) as (i & -> & Hi). apply Hle in Hk.
    destruct Hin as [->|Hin]; [lia|]. split; [done|lia]. }
  assert (array_mark t ≠ 2) as Hm2.
  { intros E. rewrite E, (proj2 (Z.ltb_lt _ _) Htop') in Hholes. done. }
  destruct (Z.ltb_spec (Z.of_nat (length (t_pairs t))) top) as [Hlt|Hge].
  - apply refused_table. intros enc j Hj.
    destruct (encodes_array_inv enc t j top Hle Hin' Hj) as (l & _ & _ & _ & E). specialize (E Hm2). fold t in E. lia.
  - apply put_array_table; try done. by right.
Qed.

Lemma put_number_spec n depth v x :
  (∀ j, encodes h n v j ↔ number_finite x = true ∧ ∃ t, write_number x = Some t ∧ j = JNumber t) →
  follow h v [] = Some v → to_blame h n v = (∀ j, ¬ encodes h n v j) →
  ∃ w, implements (put_number x) w ∧ spec n depth v w.
Proof.
  intros Henc Hf Hb. unfold put_number.
  assert (∀ why, (∀ j, ¬ encodes h n v j) → ∃ w, implements (refuse why) w ∧ spec n depth v w) as Href.
  { intros why Hno. exists (denies why). split; [apply implements_refuse|]. split; [done|].
    exists v. rewrite Nat.sub_0_r, Hb. split_and!; [done|simpl; lia|done]. }
  destruct (number_finite x) eqn:Hx; simpl; [|apply Href; by intros j [? _]%Henc].
  destruct (write_number x) as [t|] eqn:Ht; simpl.
  - exists (says t). split; [apply implements_put|]. exists (JNumber t). split; [|done].
    apply Henc. split; [done|]. by exists t.
  - apply Href. intros j (_ & t & ? & _)%Henc. congruence.
Qed.

Lemma put_other_spec n depth v :
  (∀ j, encodes h n v j ↔ v = null_value ∧ j = JNull) →
  to_blame h n v = (∀ j, ¬ encodes h n v j) →
  ∃ w, implements (if decide (v = null_value) then put null_text
                   else refuse (lit "cannot encode a " ++ type_name v)) w ∧ spec n depth v w.
Proof.
  intros Henc Hb. case_decide as E.
  - exists (says null_text). split; [apply implements_put|]. exists JNull. split; [|done]. by apply Henc.
  - exists (denies (lit "cannot encode a " ++ type_name v)). split; [apply implements_refuse|].
    assert (∀ j, ¬ encodes h n v j) as Hno by (by intros j [? _]%Henc). split; [done|].
    exists v. rewrite Nat.sub_0_r, Hb. split_and!; [done|simpl; lia|done].
Qed.

Lemma put_value_spec n depth :
  (depth + n = e_max_depth st)%nat → value_writer st h n depth (put_value st h (S n) depth).
Proof.
  revert depth. induction n as [n IH] using lt_wf_ind. intros depth Hd v Hv.
  destruct v as [|b|z|f|s|a|a|name]; cbn [put_value].
  - exists (says null_text). split; [apply implements_put|].
    by exists JNull; destruct n.
  - exists (says (if b then true_text else false_text)). split; [apply implements_put|].
    by exists (JBool b); destruct n.
  - apply (put_number_spec n depth (LInt z)); [|by destruct n..]. intros j. destruct n; simpl;
      (split; [intros Hx; split; [done|exact Hx]|intros [_ Hx]; exact Hx]).
  - apply (put_number_spec n depth (LFloat f)); [|by destruct n..]. by intros j; destruct n.
  - exists (string_ideal st s). split; [by apply put_string_implements|].
    unfold string_ideal. destruct (is_utf8 s) eqn:Hu.
    + exists (JString s). split; [by destruct n|done].
    + assert (∀ j, ¬ encodes h n (LString s) j) as Hno.
      { intros j. destruct n; intros [? _]; congruence. }
      split; [done|]. exists (LString s). split_and!; [done|simpl; lia|].
      rewrite Nat.sub_0_r. exact Hno.
  - apply put_table_spec; [lia|lia|]. intros n' ->. apply IH; lia.
  - apply (put_other_spec n depth (LUserdata a)); by destruct n.
  - apply (put_other_spec n depth (LOther name)); by destruct n.
Qed.

End values.

(** ** The value is one, and has a text *)

Section one_value.
Context `{N : NumberText, JM : JsonModule} (h : heap).

Lemma sorted_keys_unique (a b : list bytes) :
  a ≡ₚ b → StronglySorted key_lt a → StronglySorted key_lt b → a = b.
Proof.
  intros Hp Ha Hb. revert b Hp Hb. induction Ha as [|x a Ha IH Hx]; intros b Hp Hb.
  { by apply Permutation_nil_l in Hp. }
  destruct Hb as [|y b Hb Hy]; [by apply Permutation_nil_r in Hp|].
  assert (x = y) as ->.
  { assert (x ∈ y :: b) as Hxb by (rewrite <- Hp; apply list_elem_of_here).
    assert (y ∈ x :: a) as Hya by (rewrite Hp; apply list_elem_of_here).
    apply elem_of_cons in Hxb as [?|Hxb], Hya as [?|Hya]; try done.
    rewrite Forall_forall in Hx, Hy. specialize (Hx _ Hya). specialize (Hy _ Hxb).
    unfold key_lt in *. rewrite lex_sign_flip in Hy. lia. }
  f_equal. apply IH; [by apply Permutation_cons_inv in Hp|done].
Qed.

Lemma Forall2_functional {X Y} (R : X → Y → Prop) l a b :
  (∀ x y z, x ∈ l → R x y → R x z → y = z) → Forall2 R l a → Forall2 R l b → a = b.
Proof.
  intros HR Ha. revert b. induction Ha as [|x y l a Hxy Ha IH]; intros b Hb; inversion Hb; subst; [done|].
  f_equal; [by eapply HR; [apply list_elem_of_here| |]|].
  apply IH; [|done]. intros x' y' z' Hx'. apply HR. by apply list_elem_of_further.
Qed.

Lemma members_unique (enc : lua_value → json → Prop) t (m m' : list (bytes * json)) :
  (∀ v j j', enc v j → enc v j' → j = j') → m.*1 = m'.*1 →
  Forall (λ kv : bytes * json, is_utf8 kv.1 = true ∧ enc (rawget t (LString kv.1)) kv.2) m →
  Forall (λ kv : bytes * json, is_utf8 kv.1 = true ∧ enc (rawget t (LString kv.1)) kv.2) m' → m = m'.
Proof.
  intros Henc E Hm. revert m' E. induction Hm as [|[k j] m [_ Hj] Hm IH]; intros [|[k' j'] m'] E Hm'; try done.
  injection E as <- E. apply Forall_cons in Hm' as [[_ Hj'] Hm']. simpl in *.
  f_equal; [f_equal; by eapply Henc|by apply IH].
Qed.

Lemma encodes_unique n v j j' : encodes h n v j → encodes h n v j' → j = j'.
Proof.
  revert v j j'. induction n as [|n IH]; intros v j j'.
  { destruct v; simpl; try congruence; try done.
    - intros (? & ? & ->) (? & ? & ->). congruence.
    - intros (_ & ? & ? & ->) (_ & ? & ? & ->). congruence.
    - intros [_ ->] [_ ->]. done.
    - intros [_ ->] [_ ->]. done.
    - intros [_ ->] [_ ->]. done. }
  destruct v as [|b|z|f|s|a|a|name]; simpl; try congruence.
  1: intros (? & ? & ->) (? & ? & ->); congruence.
  1: intros (_ & ? & ? & ->) (_ & ? & ? & ->); congruence.
  1, 3, 4: by intros [_ ->] [_ ->].
  set (t := table_at h a). intros Hj Hj'.
  destruct (decide (Exists (λ k, is_Some (key_string k)) (t_pairs t).*1)) as [Hs|Hs].
  { apply Exists_exists in Hs as (k & Hk & [s Es]). destruct k; try done.
    apply (encodes_object_inv _ _ _ _ Hk) in Hj as (_ & m & -> & Hp & Hsort & Hall).
    apply (encodes_object_inv _ _ _ _ Hk) in Hj' as (_ & m' & -> & Hp' & Hsort' & Hall').
    f_equal. apply (members_unique (encodes h n) t); try done.
    apply sorted_keys_unique; [|done..].
    assert (∀ m : list (bytes * json), (λ kv, LString kv.1) <$> m = LString <$> m.*1) as E
      by (intros; by rewrite <- list_fmap_compose).
    assert (∀ l : list bytes, omap key_string (LString <$> l) = l) as Ek.
    { intros l. induction l as [|x l IHl]; [done|]. exact (f_equal (cons x) IHl). }
    rewrite !E in *. rewrite Hp in Hp'. apply (omap_Permutation key_string) in Hp'. by rewrite !Ek in Hp'. }
  destruct (t_pairs t) as [|kv l] eqn:Et.
  { assert (∀ j, table_encodes (encodes h n) t j →
      j = if decide (array_mark t = 0) then JObject [] else JArray []) as Hempty.
    { intros x [(Hm & m & -> & Hp & _)|[(l & -> & Hm & Hp & _)|(_ & l & _ & _ & Hin & _)]].
      - rewrite Et in Hp. apply Permutation_length in Hp. rewrite length_fmap in Hp.
        rewrite decide_True by done. by destruct m.
      - rewrite Et in Hp. apply Permutation_length in Hp. rewrite !length_fmap, length_seqZ in Hp.
        destruct l; [|simpl in Hp; lia]. rewrite decide_False; [done|by apply Hm].
      - rewrite Et in Hin. by apply not_elem_of_nil in Hin. }
    by rewrite (Hempty j), (Hempty j'). }
  pose proof (find_keys_spec t) as Hk. destruct (find_keys t) as [count strings top other].
  destruct Hk as (_ & _ & _ & _ & Hle & Htop). rewrite <- Et in Hs.
  assert (LInt top ∈ (t_pairs t).*1) as Hin.
  { destruct Htop as [->|?]; [|done]. exfalso. pose proof (encodes_good_keys _ _ _ Hj) as Hgood.
    rewrite Forall_forall in Hgood.
    assert (kv.1 ∈ (t_pairs t).*1) as Hkv by (rewrite Et; apply list_elem_of_here).
    destruct (Hgood _ Hkv) as [[s Es]|(i & Ei & Hi)].
    - apply Hs, Exists_exists. exists kv.1. split; [done|]. rewrite Es. by eexists.
    - rewrite Ei in Hkv. apply Hle in Hkv. lia. }
  destruct (encodes_array_inv _ _ _ _ Hle Hin Hj) as (a1 & -> & Ha1 & _).
  destruct (encodes_array_inv _ _ _ _ Hle Hin Hj') as (a2 & -> & Ha2 & _).
  f_equal. eapply Forall2_functional; [|done|done]. intros i x y _. apply IH.
Qed.

(** ** A value that holds itself has none *)

Lemma encodes_followed n v segs v' j :
  encodes h n v j → follow h v segs = Some v' → v' ≠ LNil →
  ∃ n' j', (n' + length segs ≤ n)%nat ∧ encodes h n' v' j'.
Proof.
  revert n v j. induction segs as [|g segs IH]; intros n v j Hj Hf Hv'.
  { injection Hf as <-. exists n, j. split; [simpl; lia|done]. }
  destruct v as [| | | | |a| |]; try done. simpl in Hf.
  destruct n as [|n]; [done|]. simpl in Hj. set (t := table_at h a) in *.
  set (k := match g with Index i => LInt (i + 1) | Key s => LString s end) in *.
  assert (∃ j', encodes h n (rawget t k) j') as [j' Hj'].
  { destruct (decide (rawget t k = LNil)) as [E|E].
    { exists JNull. rewrite E. by destruct n. }
    apply pairs_get_some in E as Hin.
    assert (k ∈ (t_pairs t).*1) as Hk by (apply list_elem_of_fmap; by eexists (_, _)).
    destruct Hj as [(_ & m & -> & Hp & _ & Hall)|Hj].
    - rewrite Hp in Hk. apply list_elem_of_fmap in Hk as (kv & Ek & Hkv).
      rewrite Forall_forall in Hall. rewrite Ek. destruct (Hall _ Hkv). eauto.
    - assert (∃ l, Forall2 (λ i j, encodes h n (rawget t (LInt i)) j) (seqZ 1 (Z.of_nat (length l))) l ∧
        ∃ i, k = LInt i ∧ i ∈ seqZ 1 (Z.of_nat (length l))) as (l & Hl & i & -> & Hi).
      { destruct Hj as [(l & _ & _ & Hp & Hl)|(_ & l & _ & Hall & _ & _ & Hl)]; exists l; (split; [done|]).
        - rewrite Hp in Hk. by apply list_elem_of_fmap in Hk as (i & -> & Hi); eauto.
        - rewrite Forall_forall in Hall. destruct (Hall _ Hk) as (i & -> & Hi). exists i.
          split; [done|]. apply elem_of_seqZ. lia. }
      apply list_elem_of_lookup in Hi as [p Hp].
      destruct (Forall2_lookup_l _ _ _ _ _ Hl Hp) as (j' & _ & ?). eauto. }
  destruct (IH n (rawget t k) j' Hj' Hf Hv') as (n' & j2 & Hle & ?). exists n', j2.
  split; [simpl; lia|done].
Qed.

Lemma holds_itself_encodes_not v segs :
  segs ≠ [] → follow h v segs = Some v → v ≠ LNil → ∀ n j, ¬ encodes h n v j.
Proof.
  intros Hs Hf Hv n. induction n as [n IH] using lt_wf_ind. intros j Hj.
  destruct (encodes_followed n v segs v j Hj Hf Hv) as (n' & j' & Hle & Hj').
  destruct segs; [done|]. eapply (IH n'); [simpl in Hle; lia|done].
Qed.

End one_value.
