(* ===== verification/JsonEncodeTheorems.v ===== *)
(** * The theorems about [json_encode]

    What a call of [encode] answers, whatever the value: the JSON text of the
    value, a message that names a place to blame, or the raise of a bad
    [max_depth].  At the end, an instance of every parameter, on which the
    theorems are tried. *)

From Stdlib Require Import SpecFloat.
From S2P Require Import Prelude.
From S2P Require Import Utf8.
From S2P Require Import JsonPath.
From S2P Require Import JsonBuffer.
From S2P Require Import JsonString.
From S2P Require Import JsonNumber.
From S2P Require Import JsonCanonical.
From S2P Require Import JsonTree.
From S2P Require Import Lua.
From S2P Require Import JsonEncode.
From S2P Require Import JsonEncodeCorrect.

Local Open Scope Z_scope.

Section theorems.
Context `{A : Allocator, N : NumberText, JM : JsonModule, Q : Qsort, I : LuaIntegers}.
Context `{!NumberTextLaws, !JsonModuleLaws, !QsortLaws}.

Lemma sound_new : sound new_encoding.
Proof. split_and!; try done. by left. Qed.

Lemma encodes_ok h n v j : heap_bytes h → value_bytes v → encodes h n v j → json_ok j = true.
Proof.
  intros Hh. revert v j. induction n as [n IH] using lt_wf_ind. intros v j Hv Hj.
  destruct v as [|b|z|f|s|a|a|name]; destruct n as [|n]; simpl in Hj; try done; try (by subst j).
  1, 2: destruct Hj as (t & Ht & ->); destruct (write_finite (SInt z) eq_refl) as (t' & Ht' & ?);
    simpl; congruence.
  1, 2: destruct Hj as (Hf & t & Ht & ->); destruct (write_finite (Real f) Hf) as (t' & Ht' & ?);
    simpl; congruence.
  1, 2: destruct Hj as [Hu ->]; by apply text_ok_iff.
  2, 3, 4, 5: by destruct Hj as [_ ->].
  assert (∀ l top, Forall2 (λ i j, encodes h n (rawget (table_at h a) (LInt i)) j) (seqZ 1 top) l →
    json_ok (JArray l) = true) as Harr.
  { intros l top Hl. simpl. apply forallb_Forall, Forall_forall. intros x Hx.
    apply list_elem_of_lookup in Hx as [i Hi].
    destruct (Forall2_lookup_r _ _ _ _ _ Hl Hi) as (k & _ & Hk). eapply (IH n); [lia| |done].
    by apply rawget_bytes. }
  destruct Hj as [(_ & m & -> & Hp & _ & Hall)|[(l & -> & _ & _ & Hl)|(_ & l & -> & _ & _ & _ & Hl)]];
    [|by eapply Harr..].
  simpl. apply forallb_Forall, Forall_forall. intros kv Hkv. rewrite Forall_forall in Hall.
  destruct (Hall kv Hkv) as [Hu Hj]. apply andb_true_iff. split.
  - apply text_ok_iff. split; [|done].
    assert (LString kv.1 ∈ (t_pairs (table_at h a)).*1) as Hk.
    { rewrite Hp. apply list_elem_of_fmap. by exists kv. }
    apply list_elem_of_fmap in Hk as ([k v] & E & Hin). simpl in E. subst k.
    specialize (Hh a). rewrite Forall_forall in Hh. by apply Hh in Hin as [].
  - eapply (IH n); [lia| |done]. by apply rawget_bytes.
Qed.

(** C4: a call of [encode] answers the text of the one JSON value the Lua
    value is, which reads back to it; or a message, when the value is none
    or memory ran short; and raises for a bad [max_depth] alone. *)
Theorem json_encode_writes_value h v pretty max_depth ascii :
  heap_ok h → heap_bytes h → value_bytes v →
  match json_encode h v pretty max_depth ascii with
  | Raises _ => checked_depth max_depth = None
  | Answers text =>
      ∃ n j, checked_depth max_depth = Some n ∧ encodes h n v j ∧ parse text = Some j ∧
        text = print (Layout (to_boolean pretty) n (to_boolean ascii)) 0 j
  | Refuses message =>
      ∃ n, checked_depth max_depth = Some n ∧
        ((∀ j, ¬ encodes h n v j) ∨
         message = lit "out of memory" ∧
         ∀ j, encodes h n v j →
           ¬ plenty new_encoding (print (Layout (to_boolean pretty) n (to_boolean ascii)) 0 j))
  end.
Proof.
  intros Hheap Hbytes Hv. unfold json_encode. destruct (checked_depth max_depth) as [n|]; [|done].
  set (st := Layout _ n _).
  destruct (put_value_spec st h Hheap Hbytes n 0 eq_refl v Hv) as (w & Hw & Hs).
  specialize (Hw _ sound_new). unfold outcome_within in Hw.
  destruct (put_value st h (S n) 0 v new_encoding) as [e [|]].
  - destruct Hw as (Hnone & _ & ->). unfold value_spec in Hs. rewrite Hnone in Hs.
    destruct Hs as (j & Hj & ->). exists n, j. split_and!; try done. apply print_reads.
    by eapply encodes_ok.
  - exists n. split; [done|]. unfold value_spec in Hs.
    destruct Hw as [(Hoom & Hwhy & Hno)|(why & segs & Hrefused & _)].
    + destruct w as [out [[why segs]|]]; [left; by destruct Hs|]. right. split.
      { unfold failure_message. by rewrite Hoom, orb_true_r. }
      destruct Hs as (j & Hj & Hout). intros j' Hj'. rewrite (encodes_unique h n v j' j Hj' Hj).
      cbn [fst] in Hout. unfold st in Hout. by rewrite <- Hout.
    + left. rewrite Hrefused in Hs. by destruct Hs.
Qed.

(** A message that is not about memory names where: its pointer is the
    path to a value that nothing below it is to blame for, the value itself
    where it names none. *)
Theorem json_encode_names_place h v pretty max_depth ascii message :
  heap_ok h → heap_bytes h → value_bytes v →
  json_encode h v pretty max_depth ascii = Refuses message →
  message = lit "out of memory" ∨
  ∃ n why segs v', checked_depth max_depth = Some n ∧ follow h v segs = Some v' ∧
    (length segs ≤ n)%nat ∧ to_blame h (n - length segs) v' ∧
    message = if bool_decide (p_text (path_of segs) = []) then why
              else why ++ lit " at " ++ push_path (path_of segs).
Proof.
  intros Hheap Hbytes Hv Hm. unfold json_encode in Hm.
  destruct (checked_depth max_depth) as [n|]; [|done]. set (st := Layout _ n _) in *.
  destruct (put_value_spec st h Hheap Hbytes n 0 eq_refl v Hv) as (w & Hw & Hs).
  specialize (Hw _ sound_new). unfold outcome_within in Hw.
  destruct (put_value st h (S n) 0 v new_encoding) as [e [|]]; [done|]. injection Hm as <-.
  unfold failure_message. destruct Hw as [(Hoom & Hwhy & _)|(why & segs & Hrefused & Hoom & Hwhy & Hpath)].
  { left. by rewrite Hoom, orb_true_r. }
  right. unfold value_spec in Hs. rewrite Hrefused in Hs. destruct Hs as (_ & v' & ? & ? & ?).
  exists n, why, segs, v'. split_and!; try done. by rewrite Hoom, orb_false_r, Hwhy, Hpath.
Qed.

(** A value that holds itself, however far down, is never encoded: the
    walk ends and answers a message. *)
Theorem json_encode_refuses_cycles h v segs pretty max_depth ascii :
  heap_ok h → heap_bytes h → value_bytes v →
  segs ≠ [] → follow h v segs = Some v → v ≠ LNil → checked_depth max_depth ≠ None →
  ∃ message, json_encode h v pretty max_depth ascii = Refuses message.
Proof.
  intros Hheap Hbytes Hv Hs Hf Hnil Hdepth. unfold json_encode.
  destruct (checked_depth max_depth) as [n|]; [|done]. set (st := Layout _ n _) in *.
  destruct (put_value_spec st h Hheap Hbytes n 0 eq_refl v Hv) as (w & Hw & Hspec).
  specialize (Hw _ sound_new). unfold outcome_within in Hw.
  destruct (put_value st h (S n) 0 v new_encoding) as [e [|]]; [|by eexists].
  destruct Hw as (Hnone & _). unfold value_spec in Hspec. rewrite Hnone in Hspec.
  destruct Hspec as (j & Hj & _). by destruct (holds_itself_encodes_not h v segs Hs Hf Hnil n j).
Qed.

End theorems.

(** ** An instance of the parameters *)

Module Example.

#[export] Instance allocator : Allocator := λ _, false.
#[export] Instance number_text : NumberText := {|
  write_number v := if number_finite v then Some [ZERO] else None;
  read_number _ := NumberRefused |}.
#[export] Instance json_module : JsonModule := {|
  ARRAY_TYPE := 1%positive; HOLES_TYPE := 2%positive; null_value := LUserdata 3%positive |}.
(** Insertion sort. *)
Fixpoint insert_by {X} (cmp : X → X → Z) (x : X) (l : list X) : list X :=
  match l with
  | [] => [x]
  | y :: r => if cmp x y <=? 0 then x :: l else y :: insert_by cmp x r
  end.

#[export] Instance sort : Qsort := λ X cmp l, foldr (insert_by cmp) [] l.
#[export] Instance integers : LuaIntegers := λ v, match v with LInt z => Some z | _ => None end.

#[export] Instance number_text_laws : NumberTextLaws.
Proof. intros v Hv. exists [ZERO]. simpl. by rewrite Hv. Defined.

#[export] Instance json_module_laws : JsonModuleLaws.
Proof. by exists 3%positive. Defined.

Lemma insert_by_perm {X} (cmp : X → X → Z) x l : insert_by cmp x l ≡ₚ x :: l.
Proof.
  induction l as [|y l IH]; [done|]. simpl. destruct (_ <=? _); [done|]. rewrite IH. constructor.
Qed.

Lemma sort_perm {X} (cmp : X → X → Z) l : foldr (insert_by cmp) [] l ≡ₚ l.
Proof. induction l as [|x l IH]; [done|]. simpl. by rewrite insert_by_perm, IH. Qed.

Lemma insert_by_sorted {X} (cmp : X → X → Z) x l :
  (∀ y, y ∈ l → cmp x y ≤ 0 ∨ cmp y x ≤ 0) → Sorted (λ x y, cmp x y ≤ 0) l →
  Sorted (λ x y, cmp x y ≤ 0) (insert_by cmp x l).
Proof.
  intros Ht Hs. induction Hs as [|y l Hs IH Hy]; simpl; [by repeat constructor|].
  destruct (Z.leb_spec (cmp x y) 0) as [Hle|Hgt]; [by repeat constructor|].
  assert (cmp y x ≤ 0) as Hyx by (destruct (Ht y); [apply list_elem_of_here|lia|done]).
  constructor; [apply IH; intros z Hz; by apply Ht, list_elem_of_further|].
  destruct Hy as [|z l Hyz]; simpl; [by constructor|]. destruct (_ <=? _); by constructor.
Qed.

#[export] Instance sort_laws : QsortLaws.
Proof.
  split; intros X cmp l [_ Htotal]; [apply sort_perm|]. unfold qsort, sort.
  induction l as [|x l IH]; simpl; [constructor|]. apply insert_by_sorted.
  - intros y Hy. rewrite sort_perm in Hy. apply Htotal; [apply list_elem_of_here|by apply list_elem_of_further].
  - apply IH. intros y z Hy Hz. by apply Htotal; apply list_elem_of_further.
Defined.

(** A table that holds an array, and one that holds itself. *)
Definition tables : heap :=
  <[10%positive := Table None [(LString [0x62], LTable 11%positive); (LString [0x61], LInt 7)]]>
  (<[11%positive := Table (Some 1%positive) [(LInt 1, LBool true); (LInt 2, LString [0x22])]]>
  (<[12%positive := Table None [(LString [0x73], LTable 12%positive)]]> ∅)).

Lemma tables_at a :
  table_at tables a = table_at tables 10%positive ∨ table_at tables a = table_at tables 11%positive ∨
  table_at tables a = table_at tables 12%positive ∨ table_at tables a = empty_table.
Proof.
  unfold table_at, tables. destruct (decide (a = 10%positive)) as [->|H1]; [by left|].
  destruct (decide (a = 11%positive)) as [->|H2]; [by right; left|].
  destruct (decide (a = 12%positive)) as [->|H3]; [by right; right; left|].
  right. right. right. by rewrite !lookup_insert_ne.
Qed.

Lemma tables_ok : heap_ok tables.
Proof.
  intros a t Ha.
  assert (t = table_at tables a) as -> by (unfold table_at; by rewrite Ha).
  unfold table_ok. destruct (tables_at a) as [->|[->|[->| ->]]].
  all: split; [|repeat constructor; done]; apply (bool_decide_unpack _); vm_compute; exact Logic.I.
Qed.

Lemma tables_bytes : heap_bytes tables.
Proof.
  intros a. destruct (tables_at a) as [->|[->|[->| ->]]]; repeat constructor; done.
Qed.

End Example.

Import Example.

Lemma json_encode_writes_value_witness :
  let text := lit "{" ++ [QUOTE; 0x61; QUOTE] ++ lit ":0," ++ [QUOTE; 0x62; QUOTE] ++ lit ":[true,"
    ++ [QUOTE; BACKSLASH; QUOTE; QUOTE] ++ lit "]}" in
  json_encode tables (LTable 10%positive) LNil LNil LNil = Answers text ∧ ∃ j, parse text = Some j.
Proof.
  assert (json_encode tables (LTable 10%positive) LNil LNil LNil = Answers (lit "{" ++
    [QUOTE; 0x61; QUOTE] ++ lit ":0," ++ [QUOTE; 0x62; QUOTE] ++ lit ":[true,"
    ++ [QUOTE; BACKSLASH; QUOTE; QUOTE] ++ lit "]}")) as E by (vm_compute; reflexivity).
  cbn zeta. split; [exact E|].
  pose proof (json_encode_writes_value tables (LTable 10%positive) LNil LNil LNil tables_ok tables_bytes
    Logic.I) as H.
  rewrite E in H. destruct H as (n & j & _ & _ & Hj & _). by exists j.
Defined.

Lemma json_encode_names_place_witness :
  ∃ n segs v', follow tables (LTable 12%positive) segs = Some v' ∧ to_blame tables (n - length segs) v'.
Proof.
  destruct (json_encode_names_place tables (LTable 12%positive) LNil (LInt 2) LNil
    (too_deep_message (Layout false 2 false) ++ lit " at " ++ push_path (Path (lit "/s/s") false))
    tables_ok tables_bytes Logic.I) as [H|(n & why & segs & v' & _ & Hf & _ & Hb & _)].
  - vm_compute. reflexivity.
  - vm_compute in H. discriminate.
  - by exists n, segs, v'.
Defined.

Lemma json_encode_refuses_cycles_witness :
  ∃ message, json_encode tables (LTable 12%positive) LNil LNil LNil = Refuses message.
Proof.
  apply (json_encode_refuses_cycles tables (LTable 12%positive) [Key [0x73]]);
    [apply tables_ok|apply tables_bytes|exact Logic.I|done|reflexivity|done|done].
Defined.
