(* ===== verification/JsonDecode.v ===== *)
(** * Decoding a document: [core/json.c], [repeated_member] to [first_problem]

    yyjson reads a text into a document; from there the core builds the Lua
    value ([push_value]) or only looks for what it would refuse
    ([first_problem]).  The document is a tree here, its keys with the place
    yyjson keeps their bytes at. *)

From Stdlib Require Import SpecFloat.
From S2P Require Import Prelude.
From S2P Require Import Texts.
From S2P Require Import Utf8.
From S2P Require Import JsonPath.
From S2P Require Import JsonNumber.
From S2P Require Import Lua.
From S2P Require Import JsonEncode.

Local Open Scope Z_scope.

(** ** The document *)

(** A member's key: its bytes, and where they are in the document's pool. *)
Record ykey := YKey { key_bytes : bytes; key_at : nat }.

(** A value of a document, by [yyjson_get_type]. *)
#[local] Unset Elimination Schemes.

Inductive yyval :=
  | YNull
  | YBool (b : bool)
  | YNum (v : number)
  | YRaw (text : bytes)
  | YStr (s : bytes)
  | YArr (items : list yyval)
  | YObj (members : list (ykey * yyval)).

#[local] Set Elimination Schemes.

Definition FEW_MEMBERS : nat := 8.
Definition SET_MEMBERS : nat := 64.

(** ** Keys twice *)

(** FNV-1a, in 32 bits. *)
Definition key_hash (s : bytes) : Z :=
  foldl (λ h c, u32 (Z.lxor h c * 16777619)) 2166136261 s.

(** How many slots the set has: a power of two, at least twice the members;
    seven doublings pass twice [SET_MEMBERS]. *)
Fixpoint slots_for (fuel slots count : nat) : nat :=
  match fuel with
  | O => slots
  | S fuel => if (slots <? 2 * count)%nat then slots_for fuel (2 * slots) count else slots
  end.

(** Where a key goes: the first free slot from [at_], or [None] where the
    key is met on the way.  The set is never full, so a turn for each slot
    is fuel enough. *)
Fixpoint probe (fuel : nat) (set : list (option bytes)) (at_ : nat) (s : bytes) : option nat :=
  match fuel with
  | O => Some at_
  | S fuel =>
      match set !!! at_ with
      | None => Some at_
      | Some k => if decide (k = s) then None else probe fuel set ((at_ + 1) mod length set)%nat s
      end
  end.

(** The walk over the keys, [idx] of them in the set. *)
Fixpoint set_walk (set : list (option bytes)) (idx : nat) (keys : list bytes) : nat :=
  match keys with
  | [] => idx
  | s :: keys =>
      match probe (length set) set (Z.to_nat (Z.land (key_hash s) (Z.of_nat (length set) - 1))) s with
      | None => idx
      | Some at_ => set_walk (<[at_ := Some s]> set) (S idx) keys
      end
  end.

Definition repeated_in_set (keys : list bytes) : nat :=
  set_walk (replicate (slots_for 7 4 (length keys)) None) 0 keys.

(** The pairs of a few keys, each with those before it. *)
Fixpoint pair_walk (before keys : list bytes) : nat :=
  match keys with
  | [] => length before
  | s :: keys => if decide (s ∈ before) then length before else pair_walk (before ++ [s]) keys
  end.

Definition repeated_member (keys : list bytes) : nat :=
  if (FEW_MEMBERS <? length keys)%nat then repeated_in_set keys else pair_walk [] keys.

(** A large object's keys, through a Lua table of those seen. *)
Fixpoint table_walk (t : table) (idx : nat) (keys : list bytes) : nat :=
  match keys with
  | [] => idx
  | s :: keys =>
      if decide (rawget t (LString s) = LNil) then
        table_walk (rawset t (LString s) (LBool true)) (S idx) keys
      else idx
  end.

Definition repeated_key_index (keys : list bytes) : nat :=
  if (length keys <=? SET_MEMBERS)%nat then repeated_member keys else table_walk empty_table 0 keys.

(** ** What decode refuses *)

Inductive problem := NO_PROBLEM | REPEATED_KEY | TOO_DEEP.

#[export] Instance problem_eq_dec : EqDecision problem.
Proof. solve_decision. Defined.

(** [struct decoding], less what it learns. *)
Record decoding := Decoding {
  d_null : option lua_value;
  d_max_depth : nat;
  d_big_as_string : bool;
  d_duplicate_keys : bool }.

(** What a walk learns: what it refuses, where, and the key that repeats. *)
Record found := Found { f_problem : problem; f_path : path; f_repeated : option ykey }.

Definition nothing_found : found := Found NO_PROBLEM empty_path None.

Definition found_under (g : segment) (f : found) : found :=
  Found (f_problem f) (prepend_segment g (f_path f)) (f_repeated f).

Definition repeats (key : ykey) : found :=
  Found REPEATED_KEY (prepend_key empty_path (key_bytes key)) (Some key).

Definition too_deep : found := Found TOO_DEEP empty_path None.

Section first_problem.
Context (max_depth : nat) (duplicate_keys : bool).

(** The walks over an array's items and an object's members, given the walk
    of a value; the first problem ends them. *)
Fixpoint first_in_items (walk : yyval → found) (idx : nat) (items : list yyval) : found :=
  match items with
  | [] => nothing_found
  | item :: items =>
      let f := walk item in
      if decide (f_problem f = NO_PROBLEM) then first_in_items walk (S idx) items
      else found_under (Index (Z.of_nat idx)) f
  end.

Fixpoint first_in_members (walk : yyval → found) (repeat idx : nat) (members : list (ykey * yyval)) : found :=
  match members with
  | [] => nothing_found
  | kv :: members =>
      if (idx =? repeat)%nat then repeats kv.1
      else
        let f := walk kv.2 in
        if decide (f_problem f = NO_PROBLEM) then first_in_members walk repeat (S idx) members
        else found_under (Key (key_bytes kv.1)) f
  end.

Fixpoint first_problem (depth : nat) (val : yyval) : found :=
  match val with
  | YArr items =>
      if (max_depth <=? depth)%nat then too_deep
      else first_in_items (first_problem (S depth)) 0 items
  | YObj members =>
      if (max_depth <=? depth)%nat then too_deep
      else
        let repeat :=
          if duplicate_keys then length members
          else repeated_key_index ((λ kv, key_bytes kv.1) <$> members) in
        first_in_members (first_problem (S depth)) repeat 0 members
  | _ => nothing_found
  end.

End first_problem.

(** ** Building the value *)

(** A walk that builds: the heap it leaves, and a value or what it found. *)
Definition built : Type := heap * (lua_value + found).

(** [yyjson_get_uint]'s double. *)
Definition float_of_integer (u : Z) : spec_float := binary_normalize 53 1024 u 0 false.

Definition LUA_MAXINTEGER : Z := 2 ^ 63 - 1.

Definition push_number (d : decoding) (v : number) : lua_value :=
  match v with
  | SInt z => LInt z
  | UInt u =>
      if u <=? LUA_MAXINTEGER then LInt u
      else if d_big_as_string d then LString (decimal u)
      else LFloat (float_of_integer u)
  | Real f => LFloat f
  end.

(** The mark of a member read as [null] while its object is built: a light
    userdata, which no other value is. *)
Definition null_member : lua_value := LOther (lit "null member").

Section building.
Context `{JsonModule} (d : decoding).

(** A new table. *)
Definition new_table (h : heap) (t : table) : heap * addr :=
  let a := fresh (dom h) in (<[a := t]> h, a).

Definition set_field (h : heap) (a : addr) (k v : lua_value) : heap :=
  <[a := rawset (table_at h a) k v]> h.

Fixpoint push_items (push : heap → yyval → built) (h : heap) (a : addr) (idx : nat)
    (items : list yyval) : built :=
  match items with
  | [] => (h, inl (LTable a))
  | item :: items =>
      match push h item with
      | (h, inr f) => (h, inr (found_under (Index (Z.of_nat idx)) f))
      | (h, inl v) => push_items push (set_field h a (LInt (Z.of_nat idx + 1)) v) a (S idx) items
      end
  end.

Definition is_null (val : yyval) : bool := match val with YNull => true | _ => false end.

(** The members' keys that held [null], taken out at the end. *)
Definition drop_nulls (h : heap) (a : addr) (members : list (ykey * yyval)) : heap :=
  foldl (λ h (kv : ykey * yyval),
    if is_null kv.2 then set_field h a (LString (key_bytes kv.1)) LNil else h) h members.

Fixpoint push_members (push : heap → yyval → built) (check : bool) (repeat : nat)
    (h : heap) (a : addr) (idx : nat) (held : bool) (members : list (ykey * yyval)) :
    heap * (bool + found) :=
  match members with
  | [] => (h, inl held)
  | kv :: members =>
      if (idx =? repeat)%nat then (h, inr (repeats kv.1))
      else
        let k := LString (key_bytes kv.1) in
        if check && negb (bool_decide (rawget (table_at h a) k = LNil)) then (h, inr (repeats kv.1))
        else
          match push h kv.2 with
          | (h, inr f) => (h, inr (found_under (Key (key_bytes kv.1)) f))
          | (h, inl v) =>
              let hold := check && bool_decide (v = LNil) in
              push_members push check repeat (set_field h a k (if hold then null_member else v)) a
                (S idx) (held || hold) members
          end
  end.

Fixpoint push_value (depth : nat) (h : heap) (val : yyval) : built :=
  match val with
  | YBool b => (h, inl (LBool b))
  | YNum v => (h, inl (push_number d v))
  | YRaw text => (h, inl (LString text))
  | YStr s => (h, inl (LString s))
  | YArr items =>
      if (d_max_depth d <=? depth)%nat then (h, inr too_deep)
      else
        let '(h, a) := new_table h (Table (Some ARRAY_TYPE) []) in
        push_items (push_value (S depth)) h a 0 items
  | YObj members =>
      if (d_max_depth d <=? depth)%nat then (h, inr too_deep)
      else
        let count := length members in
        let few := (count <=? SET_MEMBERS)%nat in
        let repeat :=
          if negb (d_duplicate_keys d) && few then
            repeated_member ((λ kv, key_bytes kv.1) <$> members)
          else count in
        let check := negb (d_duplicate_keys d) && negb few in
        let '(h, a) := new_table h empty_table in
        match push_members (push_value (S depth)) check repeat h a 0 false members with
        | (h, inr f) => (h, inr f)
        | (h, inl held) => (if held then drop_nulls h a members else h, inl (LTable a))
        end
  | YNull => (h, inl (default LNil (d_null d)))
  end.

End building.

(** * Keys twice

    The three ways [core/json.c] looks for a key an object holds twice -- each
    pair of a few, an open-addressed set on the stack, and a Lua table -- are
    one function: the index of the first member whose key an earlier one has,
    or the number of members. *)

Local Open Scope nat_scope.

(** What such a search is to answer. *)
Definition first_repeat (keys : list bytes) (r : nat) : Prop :=
  r ≤ length keys ∧ NoDup (take r keys) ∧
  (r < length keys → ∃ s, keys !! r = Some s ∧ s ∈ take r keys).

Lemma first_repeat_unique keys r r' : first_repeat keys r → first_repeat keys r' → r = r'.
Proof.
  assert (∀ r r', r < r' → first_repeat keys r → first_repeat keys r' → False) as Hlt.
  { intros a b Hab (_ & _ & Hr) (Hb & Hnd & _). destruct Hr as (s & Hs & Hin); [lia|].
    apply list_elem_of_lookup in Hin as [i Hi]. pose proof (lookup_lt_Some _ _ _ Hi) as Hlen.
    rewrite length_take in Hlen. rewrite lookup_take in Hi. case_decide; [|done].
    assert (i = a); [|lia]. eapply (NoDup_lookup _ i a s Hnd); rewrite lookup_take; case_decide; done || lia. }
  intros Hr Hr'. destruct (Nat.lt_total r r') as [?|[?|?]]; [|done|]; exfalso; eauto.
Qed.

(** A walk's turn at [s], with [seen] behind it. *)
Lemma first_repeat_here seen s keys :
  NoDup seen → s ∈ seen → first_repeat (seen ++ s :: keys) (length seen).
Proof.
  intros Hnd Hs. unfold first_repeat. rewrite take_app_length, length_app. simpl.
  split_and!; [lia|done|]. intros _. exists s. rewrite lookup_app_r, Nat.sub_diag by lia. done.
Qed.

Lemma first_repeat_none seen : NoDup seen → first_repeat (seen ++ []) (length seen).
Proof.
  intros Hnd. rewrite app_nil_r. split_and!; [lia|by rewrite take_ge|lia].
Qed.

Lemma seen_more seen (s : bytes) : NoDup seen → s ∉ seen → NoDup (seen ++ [s]).
Proof.
  intros Hnd Hs. apply NoDup_app. split_and!; [done| |apply NoDup_singleton].
  intros x Hx ->%list_elem_of_singleton. done.
Qed.

Lemma pair_walk_first before keys :
  NoDup before → first_repeat (before ++ keys) (pair_walk before keys).
Proof.
  revert before. induction keys as [|s keys IH]; intros before Hnd; simpl.
  { by apply first_repeat_none. }
  case_decide as Hs; [by apply first_repeat_here|].
  rewrite (cons_middle s before keys), app_assoc. by apply IH, seen_more.
Qed.

Lemma table_walk_first t seen keys :
  table_ok t → NoDup seen → (∀ s, rawget t (LString s) ≠ LNil ↔ s ∈ seen) →
  first_repeat (seen ++ keys) (table_walk t (length seen) keys).
Proof.
  revert t seen. induction keys as [|s keys IH]; intros t seen Ht Hnd Hseen; simpl.
  { by apply first_repeat_none. }
  case_decide as Hs.
  - assert (s ∉ seen) as Hns by (rewrite <- Hseen; tauto).
    rewrite (cons_middle s seen keys), app_assoc.
    replace (S (length seen)) with (length (seen ++ [s])) by (rewrite length_app; simpl; lia).
    apply IH; [by apply rawset_ok|by apply seen_more|]. intros s'.
    rewrite elem_of_app, list_elem_of_singleton, <- Hseen. destruct (decide (s' = s)) as [->|Hne].
    + rewrite rawget_rawset by done. split; [by right|done].
    + rewrite rawget_rawset_ne by congruence. tauto.
  - apply first_repeat_here; [done|]. by apply Hseen.
Qed.

(** ** The set *)

(** How many slots are taken. *)
Definition taken (set : list (option bytes)) : nat := length (filter is_Some set).

(** The slot [j] places after a key's own. *)
Definition home (set : list (option bytes)) (s : bytes) : nat :=
  Z.to_nat (Z.land (key_hash s) (Z.of_nat (length set) - 1)).
Definition place (set : list (option bytes)) (s : bytes) (j : nat) : nat :=
  (home set s + j) mod length set.

(** The keys seen are in the set, each where a search from its home finds it
    before it meets a free slot. *)
Definition holds (set : list (option bytes)) (seen : list bytes) : Prop :=
  (∀ p s, set !! p = Some (Some s) → s ∈ seen) ∧
  ∀ s, s ∈ seen → ∃ j, j < length set ∧ set !!! place set s j = Some s ∧
    ∀ i, i < j → set !!! place set s i ≠ None.

Lemma probe_walk set s k fuel :
  length set ≠ 0 → home set s < length set → k + fuel = length set →
  (∀ i, i < k → set !!! place set s i ≠ None ∧ set !!! place set s i ≠ Some s) →
  (∃ p, set !! p = Some None) →
  match probe fuel set (place set s k) s with
  | None => ∃ j, set !!! place set s j = Some s
  | Some at_ => ∃ j, j < length set ∧ at_ = place set s j ∧ set !!! place set s j = None ∧
      ∀ i, i < j → set !!! place set s i ≠ None ∧ set !!! place set s i ≠ Some s
  end.
Proof.
  intros Hn Hh. revert k. induction fuel as [|fuel IH]; intros k Hk Hbefore [p Hp]; simpl.
  { exfalso. pose proof (lookup_lt_Some _ _ _ Hp) as Hlt.
    destruct (Hbefore ((p + (length set - home set s)) mod length set)) as [Hno _].
    { rewrite Nat.add_0_r in Hk. subst k. apply Nat.mod_upper_bound. lia. }
    apply Hno. unfold place. rewrite Nat.Div0.add_mod_idemp_r.
    replace (home set s + (p + (length set - home set s))) with (p + 1 * length set) by lia.
    rewrite Nat.Div0.mod_add, Nat.mod_small by done. by apply list_lookup_total_correct. }
  destruct (set !!! place set s k) as [x|] eqn:Ex.
  - case_decide as E; [subst x; by exists k|].
    assert ((place set s k + 1) mod length set = place set s (S k)) as ->.
    { unfold place. rewrite Nat.Div0.add_mod_idemp_l. f_equal. lia. }
    apply IH; [lia| |by exists p]. intros i Hi. destruct (decide (i = k)) as [->|].
    + rewrite Ex. split; congruence.
    + apply Hbefore. lia.
  - exists k. split_and!; [lia|done..].
Qed.

Lemma taken_none n : taken (replicate n None) = 0.
Proof. unfold taken. induction n as [|n IH]; [done|]. simpl. rewrite filter_cons_False; [done|by intros []]. Qed.

Lemma free_slot set : taken set < length set → ∃ p, set !! p = Some None.
Proof.
  unfold taken. induction set as [|x set IH]; [simpl; lia|]. rewrite filter_cons.
  destruct x as [s|].
  - rewrite decide_True by (by eexists). simpl. intros H. destruct IH as [p Hp]; [lia|]. by exists (S p).
  - intros _. by exists 0.
Qed.

Lemma taken_insert set p s : set !! p = Some None → taken (<[p := Some s]> set) = S (taken set).
Proof.
  unfold taken. revert p. induction set as [|x set IH]; intros [|p] Hp; try done.
  - injection Hp as ->. change (<[0 := Some s]> (None :: set)) with (Some s :: set).
    rewrite filter_cons_True by (by eexists). rewrite filter_cons_False by (by intros []). done.
  - change (<[S p := Some s]> (x :: set)) with (x :: <[p := Some s]> set).
    rewrite !filter_cons. specialize (IH p Hp). destruct (decide (is_Some x)); simpl; lia.
Qed.

Lemma holds_insert set seen s j :
  length set ≠ 0 → holds set seen → j < length set → set !!! place set s j = None →
  (∀ i, i < j → set !!! place set s i ≠ None) →
  holds (<[place set s j := Some s]> set) (seen ++ [s]).
Proof.
  intros Hn [Hin Hfind] Hj Hfree Hbefore.
  assert (∀ x i, place (<[place set s j := Some s]> set) x i = place set x i) as Hplace.
  { intros x i. unfold place, home. by rewrite length_insert. }
  assert (place set s j < length set) as Hlt by (apply Nat.mod_upper_bound; lia).
  assert (∀ q, <[place set s j := Some s]> set !!! q
    = if decide (q = place set s j) then Some s else set !!! q) as Hlookup.
  { intros q. case_decide as E; [subst q; by apply list_lookup_total_insert_eq|].
    by rewrite list_lookup_total_insert_ne. }
  split.
  - intros p x Hp. apply elem_of_app. destruct (decide (p = place set s j)) as [->|Hne].
    + rewrite list_lookup_insert_eq in Hp by done. injection Hp as ->. right. by apply list_elem_of_singleton.
    + rewrite list_lookup_insert_ne in Hp by done. left. by eapply Hin.
  - intros x. rewrite length_insert. intros [Hx|Hx]%elem_of_app.
    + destruct (Hfind x Hx) as (k & Hk & Ek & Hb). exists k. rewrite Hplace, Hlookup.
      split_and!; [done| |].
      * rewrite decide_False; [done|]. intros E. rewrite E in Ek. congruence.
      * intros i Hi. rewrite Hplace, Hlookup. case_decide; [done|by apply Hb].
    + apply list_elem_of_singleton in Hx as ->. exists j. rewrite Hplace, Hlookup, decide_True by done.
      split_and!; [done..|]. intros i Hi. rewrite Hplace, Hlookup. case_decide; [done|by apply Hbefore].
Qed.

Lemma set_walk_first set seen keys :
  (∀ s, home set s < length set) → holds set seen → taken set = length seen → NoDup seen →
  length seen + length keys < length set →
  first_repeat (seen ++ keys) (set_walk set (length seen) keys).
Proof.
  revert set seen. induction keys as [|s keys IH]; intros set seen Hhome Hholds Htaken Hnd Hlen; simpl.
  { by apply first_repeat_none. }
  simpl in Hlen. assert (length set ≠ 0) as Hn by lia.
  pose proof (probe_walk set s 0 (length set) Hn (Hhome s) eq_refl ltac:(lia)
    (free_slot set ltac:(lia))) as Hp.
  assert (place set s 0 = home set s) as E0.
  { unfold place. rewrite Nat.add_0_r, Nat.mod_small by apply Hhome. done. }
  rewrite E0 in Hp. unfold home in Hp. destruct (probe _ _ _ _) as [at_|].
  - destruct Hp as (j & Hj & -> & Hfree & Hbefore).
    assert (s ∉ seen) as Hs.
    { intros Hs. destruct Hholds as [_ Hfind]. destruct (Hfind s Hs) as (k & _ & Hk & Hkb).
      destruct (Nat.lt_total j k) as [?|[->|?]]; [by eapply Hkb| |by eapply Hbefore]. congruence. }
    rewrite (cons_middle s seen keys), app_assoc.
    replace (S (length seen)) with (length (seen ++ [s])) by (rewrite length_app; simpl; lia).
    assert (place set s j < length set) as Hlt by (apply Nat.mod_upper_bound; lia).
    apply IH.
    + intros x. unfold home in *. rewrite length_insert. apply Hhome.
    + apply holds_insert; try done. intros i Hi. by apply Hbefore.
    + rewrite length_app. simpl. rewrite taken_insert; [lia|].
      apply list_lookup_lookup_total_lt in Hlt. by rewrite Hlt, Hfree.
    + by apply seen_more.
    + rewrite length_insert, length_app. simpl. lia.
  - destruct Hp as [j Hj]. apply first_repeat_here; [done|]. destruct Hholds as [Hin _].
    apply (Hin (place set s j)).
    assert (place set s j < length set) as Hlt by (apply Nat.mod_upper_bound; lia).
    apply list_lookup_lookup_total_lt in Hlt. by rewrite Hlt, Hj.
Qed.

(** The slots: a power of two past twice the members. *)
Lemma slots_for_spec count :
  count ≤ SET_MEMBERS →
  ∃ e, slots_for 7 4 count = 2 ^ e ∧ 2 * count ≤ slots_for 7 4 count ∧ 0 < slots_for 7 4 count ∧
    slots_for 7 4 count ≤ 2 * SET_MEMBERS.
Proof.
  intros Hc.
  assert (Forall (λ count, Exists (λ e, slots_for 7 4 count = 2 ^ e) (seq 2 6) ∧
    2 * count ≤ slots_for 7 4 count ∧ 0 < slots_for 7 4 count ∧
    slots_for 7 4 count ≤ 2 * SET_MEMBERS) (seq 0 65)) as H.
  { apply (bool_decide_unpack _). vm_compute. exact I. }
  rewrite Forall_forall in H. destruct (H count) as (He & ?); [apply elem_of_seq; unfold SET_MEMBERS in *; lia|].
  apply Exists_exists in He as (e & _ & He). by exists e.
Qed.

Lemma home_in_range set s e : length set = 2 ^ e → home set s < length set.
Proof.
  intros Hl. unfold home. rewrite Hl.
  replace (Z.of_nat (2 ^ e) - 1)%Z with (Z.ones (Z.of_nat e)).
  2: { rewrite Z.ones_equiv, Nat2Z.inj_pow. lia. }
  rewrite Z.land_ones by lia.
  pose proof (Z.mod_pos_bound (key_hash s) (2 ^ Z.of_nat e) ltac:(lia)).
  apply Nat2Z.inj_lt. rewrite Z2Nat.id, Nat2Z.inj_pow by lia. simpl. lia.
Qed.

Lemma repeated_in_set_first keys :
  length keys ≤ SET_MEMBERS → first_repeat keys (repeated_in_set keys).
Proof.
  intros Hk. destruct (slots_for_spec (length keys) Hk) as (e & He & Hroom & Hpos & _). unfold repeated_in_set.
  set (set := replicate (slots_for 7 4 (length keys)) (None : option bytes)). assert (length set = slots_for 7 4 (length keys)) as Hl by apply length_replicate.
  apply (set_walk_first set [] keys).
  - intros s. apply (home_in_range _ _ e). congruence.
  - split; [|by intros s ?%not_elem_of_nil]. intros p s Hp. apply lookup_replicate in Hp as [? _]. done.
  - unfold set. simpl. apply taken_none.
  - constructor.
  - simpl. lia.
Qed.

Lemma repeated_member_first keys : length keys ≤ SET_MEMBERS → first_repeat keys (repeated_member keys).
Proof.
  intros Hk. unfold repeated_member. destruct (_ <? _); [by apply repeated_in_set_first|].
  apply (pair_walk_first []). constructor.
Qed.

Lemma repeated_key_index_first keys : first_repeat keys (repeated_key_index keys).
Proof.
  unfold repeated_key_index. destruct (Nat.leb_spec (length keys) SET_MEMBERS).
  { by apply repeated_member_first. }
  apply (table_walk_first empty_table []); [split; constructor|constructor|].
  intros s. split; [done|by intros ?%not_elem_of_nil].
Qed.

(** whichever way an object's size has it searched, a key twice is found
    where it is first met: the keys before it are distinct, and it is one of
    them; the set on the stack never fills, and holds no more than its 128
    slots. *)
Theorem repeated_key_found keys :
  let r := repeated_key_index keys in
  r ≤ length keys ∧ NoDup (take r keys) ∧
  (r < length keys → ∃ s, keys !! r = Some s ∧ s ∈ take r keys) ∧
  (length keys ≤ SET_MEMBERS →
    repeated_in_set keys = pair_walk [] keys ∧
    2 * length keys ≤ slots_for 7 4 (length keys) ≤ 2 * SET_MEMBERS).
Proof.
  cbn zeta. destruct (repeated_key_index_first keys) as (? & ? & ?). split_and!; try done.
  intros Hk. destruct (slots_for_spec (length keys) Hk) as (e & _ & ? & _ & ?). split; [|done].
  eapply first_repeat_unique; [by apply repeated_in_set_first|].
  apply (pair_walk_first []). constructor.
Qed.
