(* ===== verification/JsonDecodeCorrect.v ===== *)
(** * What decoding builds, and what it refuses

    [represents] says which Lua value a document is; [accepted] and [refused]
    which documents are read at all.  The walk that builds and the walk that
    only checks come to one verdict, on every document. *)

From Stdlib Require Import SpecFloat.
From S2P Require Import Prelude.
From S2P Require Import Utf8.
From S2P Require Import JsonPath.
From S2P Require Import JsonNumber.
From S2P Require Import Lua.
From S2P Require Import JsonEncode.
From S2P Require Import JsonDecode.

Local Open Scope nat_scope.

(** ** Documents *)

Fixpoint yyval_ind' (P : yyval → Prop)
    (Hnull : P YNull) (Hbool : ∀ b, P (YBool b)) (Hnum : ∀ v, P (YNum v)) (Hraw : ∀ t, P (YRaw t))
    (Hstr : ∀ s, P (YStr s)) (Harr : ∀ l, Forall P l → P (YArr l))
    (Hobj : ∀ m, Forall (λ kv, P kv.2) m → P (YObj m)) (y : yyval) : P y :=
  match y with
  | YNull => Hnull
  | YBool b => Hbool b
  | YNum v => Hnum v
  | YRaw t => Hraw t
  | YStr s => Hstr s
  | YArr l => Harr l ((fix items l : Forall P l := match l return Forall P l with
      | [] => Forall_nil_2 _
      | y :: l => Forall_cons_2 P y l (yyval_ind' P Hnull Hbool Hnum Hraw Hstr Harr Hobj y) (items l)
      end) l)
  | YObj m => Hobj m ((fix members m : Forall (λ kv : ykey * yyval, P kv.2) m :=
      match m return Forall (λ kv : ykey * yyval, P kv.2) m with
      | [] => Forall_nil_2 _
      | (k, y) :: m => Forall_cons_2 (λ kv : ykey * yyval, P kv.2) (k, y) m
          (yyval_ind' P Hnull Hbool Hnum Hraw Hstr Harr Hobj y) (members m)
      end) m)
  end.

Definition keys_of (members : list (ykey * yyval)) : list bytes := (λ kv, key_bytes kv.1) <$> members.

(** How many arrays and objects nest in a value. *)
Fixpoint nests (val : yyval) : nat :=
  match val with
  | YArr items => S (foldr max 0 (nests <$> items))
  | YObj members => S (foldr max 0 ((λ kv, nests kv.2) <$> members))
  | _ => 0
  end.

(** No object of a value has a key twice. *)
Fixpoint distinct (val : yyval) : Prop :=
  match val with
  | YArr items => Forall id (distinct <$> items)
  | YObj members => NoDup (keys_of members) ∧ Forall id ((λ kv, distinct kv.2) <$> members)
  | _ => True
  end.

(** The documents decode reads, with [depth] open around them. *)
Definition accepted (max_depth : nat) (dup : bool) (depth : nat) (val : yyval) : Prop :=
  nests val ≤ max_depth - depth ∧ (dup = false → distinct val).

(** The one thing it refuses another for: the first, in the text's order. *)
Inductive refused (max_depth : nat) (dup : bool) : nat → yyval → found → Prop :=
  | refused_array depth items :
      max_depth ≤ depth → refused max_depth dup depth (YArr items) too_deep
  | refused_object depth members :
      max_depth ≤ depth → refused max_depth dup depth (YObj members) too_deep
  | refused_item depth items i item f :
      depth < max_depth → items !! i = Some item →
      Forall (accepted max_depth dup (S depth)) (take i items) →
      refused max_depth dup (S depth) item f →
      refused max_depth dup depth (YArr items) (found_under (Index (Z.of_nat i)) f)
  | refused_key depth members i kv :
      depth < max_depth → dup = false → members !! i = Some kv →
      key_bytes kv.1 ∈ take i (keys_of members) → NoDup (take i (keys_of members)) →
      Forall (λ kv, accepted max_depth dup (S depth) kv.2) (take i members) →
      refused max_depth dup depth (YObj members) (repeats kv.1)
  | refused_member depth members i kv f :
      depth < max_depth → members !! i = Some kv →
      (dup = false → NoDup (take (S i) (keys_of members))) →
      Forall (λ kv, accepted max_depth dup (S depth) kv.2) (take i members) →
      refused max_depth dup (S depth) kv.2 f →
      refused max_depth dup depth (YObj members) (found_under (Key (key_bytes kv.1)) f).

(** The value of a key: its last member's. *)
Fixpoint last_member (members : list (ykey * yyval)) (s : bytes) : option yyval :=
  match members with
  | [] => None
  | kv :: members =>
      match last_member members s with
      | Some item => Some item
      | None => if decide (key_bytes kv.1 = s) then Some kv.2 else None
      end
  end.

Section values.
Context `{JsonModule} (d : decoding).

(** What [null] is read as. *)
Definition null_read : lua_value := default LNil (d_null d).

(** The Lua value a document is, in the tables of [h]. *)
Inductive represents (h : heap) : yyval → lua_value → Prop :=
  | rep_null : represents h YNull null_read
  | rep_bool b : represents h (YBool b) (LBool b)
  | rep_num v : represents h (YNum v) (push_number d v)
  | rep_raw t : represents h (YRaw t) (LString t)
  | rep_str s : represents h (YStr s) (LString s)
  | rep_array items a t :
      h !! a = Some t → table_ok t → t_meta t = Some ARRAY_TYPE →
      (∀ k, (∀ i, i < length items → k ≠ LInt (Z.of_nat i + 1)) → rawget t k = LNil) →
      (∀ i item, items !! i = Some item → represents h item (rawget t (LInt (Z.of_nat i + 1)))) →
      represents h (YArr items) (LTable a)
  | rep_object members a t :
      h !! a = Some t → table_ok t → t_meta t = None →
      (∀ k, (∀ s, k ≠ LString s) → rawget t k = LNil) →
      (∀ s, last_member members s = None → rawget t (LString s) = LNil) →
      (∀ s item, last_member members s = Some item → represents h item (rawget t (LString s))) →
      represents h (YObj members) (LTable a).

Lemma represents_mono h h' val v : h ⊆ h' → represents h val v → represents h' val v.
Proof.
  intros Hsub. revert v. induction val as [| | | | |items IH|members IH] using yyval_ind'; intros w Hr;
    inversion Hr; subst; try by constructor.
  - eapply rep_array; [by eapply lookup_weaken|done..|]. intros i item Hi.
    rewrite Forall_forall in IH. eapply IH; [by eapply list_elem_of_lookup_2|auto].
  - eapply rep_object; [by eapply lookup_weaken|done..|]. intros s item Hs.
    assert (∃ k, (k, item) ∈ members) as [k Hk].
    { clear -Hs. induction members as [|kv members IH]; [done|]. simpl in Hs.
      destruct (last_member members s) eqn:E.
      - injection Hs as ->. destruct IH as [k Hk]; [done|]. exists k. apply elem_of_cons. by right.
      - case_decide; [|done]. injection Hs as <-. exists kv.1. apply elem_of_cons. left. by destruct kv. }
    rewrite Forall_forall in IH. by eapply (IH (k, item)); [|auto].
Qed.

Lemma represents_nil h val v : represents h val v → v = LNil → is_null val = true ∧ null_read = LNil.
Proof.
  intros Hr ->. inversion Hr as [Hn| |v Hv Hp| | | |]; subst; try done.
  unfold push_number in Hp. destruct v as [| |]; [done| |done]. repeat case_match; done.
Qed.

End values.

(** ** The first problem *)

(** A verdict on a value: none, or the refusal [ref] allows. *)
Definition verdict (ok : Prop) (ref : found → Prop) (f : found) : Prop :=
  (f = nothing_found ∧ ok) ∨ (f_problem f ≠ NO_PROBLEM ∧ ref f).

Lemma verdict_none ok ref f : verdict ok ref f → f_problem f = NO_PROBLEM → f = nothing_found ∧ ok.
Proof. intros [?|[? _]]; [done|by intros]. Qed.

Lemma items_verdict walk (ok : yyval → Prop) (ref : yyval → found → Prop) items : ∀ idx,
  Forall (λ item, verdict (ok item) (ref item) (walk item)) items →
  verdict (Forall ok items)
    (λ f, ∃ i item f', items !! i = Some item ∧ Forall ok (take i items) ∧ ref item f' ∧
      f = found_under (Index (Z.of_nat (idx + i))) f')
    (first_in_items walk idx items).
Proof.
  induction items as [|item items IH]; intros idx Hw; [by left|].
  apply Forall_cons in Hw as [Hi Hw]. simpl. case_decide as E.
  - destruct (verdict_none _ _ _ Hi E) as [_ Hok]. destruct (IH (S idx) Hw) as [[-> Hall]|[Hne Hf]].
    + left. split; [done|by constructor].
    + right. split; [done|]. destruct Hf as (i & item' & f' & Hl & Ht & Hr & ->).
      exists (S i), item', f'. split_and!; [done|by constructor|done|]. do 2 f_equal. lia.
  - right. destruct Hi as [[Hn _]|[Hne Hr]]; [by rewrite Hn in E|]. split; [done|].
    exists 0, item, (walk item). split_and!; [done|constructor|done|]. by rewrite Nat.add_0_r.
Qed.

Lemma members_verdict walk (ok : yyval → Prop) (ref : yyval → found → Prop) repeat members : ∀ idx,
  Forall (λ kv, verdict (ok kv.2) (ref kv.2) (walk kv.2)) members →
  verdict ((∀ j, j < length members → idx + j ≠ repeat) ∧ Forall (λ kv, ok kv.2) members)
    (λ f, ∃ i kv, members !! i = Some kv ∧ Forall (λ kv, ok kv.2) (take i members) ∧
      ((idx + i = repeat ∧ f = repeats kv.1) ∨
       ((∀ j, j ≤ i → idx + j ≠ repeat) ∧ ∃ f', ref kv.2 f' ∧ f = found_under (Key (key_bytes kv.1)) f')))
    (first_in_members walk repeat idx members).
Proof.
  induction members as [|kv members IH]; intros idx Hw.
  { left. split_and!; [done|simpl; lia|constructor]. }
  apply Forall_cons in Hw as [Hi Hw]. simpl. destruct (Nat.eqb_spec idx repeat) as [Hr|Hr].
  { right. split; [done|]. exists 0, kv. split_and!; [done|constructor|left; split; [lia|done]]. }
  case_decide as E.
  - destruct (verdict_none _ _ _ Hi E) as [_ Hok]. destruct (IH (S idx) Hw) as [[-> [Hj Hall]]|[Hne Hf]].
    + left. split_and!; [done| |by constructor]. intros [|j] Hj'; [lia|].
      specialize (Hj j ltac:(lia)). lia.
    + right. split; [done|]. destruct Hf as (i & kv' & Hl & Ht & Hcases).
      exists (S i), kv'. split_and!; [done|by constructor|].
      destruct Hcases as [[Heq Hf]|[Hj Hf]]; [left; split; [lia|done]|right; split; [|done]].
      intros [|j] Hji; [lia|]. specialize (Hj j ltac:(lia)). lia.
  - right. destruct Hi as [[Hn _]|[Hne Hrf]]; [by rewrite Hn in E|]. split; [done|].
    exists 0, kv. split_and!; [done|constructor|]. right. split; [intros j Hj; lia|].
    by exists (walk kv.2).
Qed.

Lemma nests_items items n : Forall (λ v, nests v ≤ n) items → foldr max 0 (nests <$> items) ≤ n.
Proof. induction 1; csimpl; lia. Qed.

Lemma accepted_items max_depth dup depth items :
  depth < max_depth → Forall (accepted max_depth dup (S depth)) items →
  accepted max_depth dup depth (YArr items).
Proof.
  intros Hd Hall. split.
  - simpl. pose proof (nests_items items (max_depth - S depth)) as Hn.
    ospecialize (Hn _); [|lia]. eapply Forall_impl; [exact Hall|]. by intros ? [? _].
  - intros Hdup. simpl. apply Forall_fmap. eapply Forall_impl; [exact Hall|].
    intros v [_ Hv]. by apply Hv.
Qed.

Lemma accepted_members max_depth dup depth members :
  depth < max_depth → (dup = false → NoDup (keys_of members)) →
  Forall (λ kv, accepted max_depth dup (S depth) kv.2) members →
  accepted max_depth dup depth (YObj members).
Proof.
  intros Hd Hnd Hall. split.
  - simpl. pose proof (nests_items members.*2 (max_depth - S depth)) as Hn.
    rewrite <- list_fmap_compose in Hn. unfold compose in Hn.
    ospecialize (Hn _); [|lia]. apply Forall_fmap. eapply Forall_impl; [exact Hall|]. by intros ? [? _].
  - intros Hdup. simpl. split; [by apply Hnd|]. apply Forall_fmap. eapply Forall_impl; [exact Hall|].
    intros kv [_ Hv]. by apply Hv.
Qed.

Lemma first_problem_verdict max_depth dup val : ∀ depth,
  verdict (accepted max_depth dup depth val) (refused max_depth dup depth val)
    (first_problem max_depth dup depth val).
Proof.
  induction val as [| | | | |items IH|members IH] using yyval_ind'; intros depth;
    try (left; split; [done|split; [simpl; lia|done]]); simpl;
    (destruct (Nat.leb_spec max_depth depth) as [Hd|Hd]; [right; split; [done|by constructor]|]).
  - destruct (items_verdict (first_problem max_depth dup (S depth)) (accepted max_depth dup (S depth))
      (refused max_depth dup (S depth)) items 0) as [[-> Hall]|[Hne Hf]].
    + eapply Forall_impl; [exact IH|]. intros v Hv. apply Hv.
    + left. split; [done|by apply accepted_items].
    + right. split; [done|]. destruct Hf as (i & item & f & Hi & Ht & Hr & ->).
      by apply refused_item with (item := item).
  - set (repeat := if dup then _ else _).
    assert (dup = false → first_repeat (keys_of members) repeat) as Hrepeat.
    { intros ->. apply repeated_key_index_first. }
    assert (dup = true → repeat = length members) as Hcount by (by intros ->).
    destruct (members_verdict (first_problem max_depth dup (S depth)) (accepted max_depth dup (S depth))
      (refused max_depth dup (S depth)) repeat members 0) as [[-> [Hj Hall]]|[Hne Hf]].
    + eapply Forall_impl; [exact IH|]. intros v Hv. apply Hv.
    + left. split; [done|]. apply accepted_members; [done| |done]. intros Hdup.
      destruct (Hrepeat Hdup) as (Hle & Hnd & _). unfold keys_of in *. rewrite length_fmap in Hle.
      rewrite take_ge in Hnd; [done|]. rewrite length_fmap.
      destruct (decide (repeat < length members)) as [Hlt|]; [|lia]. by destruct (Hj repeat Hlt).
    + right. split; [done|]. destruct Hf as (i & kv & Hi & Ht & [[Heq ->]|[Hj (f & Hr & ->)]]).
      * assert (dup = false) as Hdup.
        { destruct dup; [|done]. rewrite Hcount in Heq by done. apply lookup_lt_Some in Hi. lia. }
        destruct (Hrepeat Hdup) as (_ & Hnd & Hin). simpl in Heq. rewrite <- Heq in *.
        apply refused_key with (i := i); try done.
        destruct Hin as (s & Hs & Hin); [unfold keys_of; rewrite length_fmap; by eapply lookup_lt_Some|].
        unfold keys_of in Hs. rewrite list_lookup_fmap, Hi in Hs. by injection Hs as ->.
      * apply refused_member with (i := i); try done. intros Hdup.
        destruct (Hrepeat Hdup) as (Hle & Hnd & _).
        assert (S i ≤ repeat) as Hlt.
        { destruct (decide (S i ≤ repeat)); [done|]. destruct (Hj repeat); [lia|done]. }
        apply (sublist_NoDup _ (take repeat (keys_of members))); [done|].
        replace (take (S i) (keys_of members)) with (take (S i) (take repeat (keys_of members)))
          by (rewrite take_take; f_equal; lia). apply sublist_take.
Qed.

Lemma refused_not_accepted max_depth dup depth val f :
  refused max_depth dup depth val f → ¬ accepted max_depth dup depth val.
Proof.
  induction 1 as [depth items Hd|depth members Hd|depth items i item f Hd Hi Ht Hr IH
    |depth members i kv Hd Hdup Hi Hin Hnd Ht|depth members i kv f Hd Hi Hnd Ht Hr IH]; intros [Hn Hdist].
  - simpl in Hn. lia.
  - simpl in Hn. lia.
  - apply IH. apply list_elem_of_lookup_2 in Hi. split.
    + simpl in Hn. assert (nests item ≤ foldr max 0 (nests <$> items)); [|lia].
      clear -Hi. induction Hi; csimpl; lia.
    + intros Hdup. specialize (Hdist Hdup). simpl in Hdist. rewrite Forall_fmap, Forall_forall in Hdist.
      by apply Hdist.
  - destruct (Hdist Hdup) as [Hnd' _]. apply list_elem_of_lookup_1 in Hin as [j Hj].
    pose proof (lookup_lt_Some _ _ _ Hj) as Hlt. rewrite length_take in Hlt.
    rewrite lookup_take in Hj. case_decide; [|done].
    assert (keys_of members !! i = Some (key_bytes kv.1)) as Hk
      by (unfold keys_of; by rewrite list_lookup_fmap, Hi).
    pose proof (NoDup_lookup _ _ _ _ Hnd' Hj Hk). lia.
  - apply IH. apply list_elem_of_lookup_2 in Hi. split.
    + simpl in Hn. assert (nests kv.2 ≤ foldr max 0 ((λ kv, nests kv.2) <$> members)); [|lia].
      clear -Hi. induction Hi; csimpl; lia.
    + intros Hdup. destruct (Hdist Hdup) as [_ Hall]. rewrite Forall_fmap, Forall_forall in Hall.
      by apply (Hall kv).
Qed.
