(* ===== verification/JsonDecodeBuild.v ===== *)
(** * The value decode builds

    [push_value] of [core/json.c] against [JsonDecodeCorrect.v]: its tables
    are new, everything that was in the heap stays as it was, the value it
    answers represents the document, and it refuses what [first_problem]
    does, at the same place. *)

From Stdlib Require Import SpecFloat.
From S2P Require Import Prelude.
From S2P Require Import Utf8.
From S2P Require Import JsonPath.
From S2P Require Import JsonNumber.
From S2P Require Import Lua.
From S2P Require Import JsonEncode.
From S2P Require Import JsonDecode.
From S2P Require Import JsonDecodeCorrect.

Local Open Scope nat_scope.

Section build.
Context `{JsonModule} (d : decoding).

Let max_depth := d_max_depth d.
Let dup := d_duplicate_keys d.
Let nul := null_read d.

(** What a walk of a value is to do: to the heap [h] only add, and come to
    [first_problem]'s verdict [f]. *)
Definition builds (h : heap) (val : yyval) (f : found) (r : built) : Prop :=
  ∃ new, new ##ₘ h ∧ r.1 = h ∪ new ∧
  match r.2 with
  | inl v => f = nothing_found ∧ represents d new val v
  | inr g => f_problem g ≠ NO_PROBLEM ∧ f = g
  end.

(** A heap that is [h] but for the table being filled, and for new ones. *)
Definition fills (h : heap) (a : addr) (h' : heap) (new : heap) (t : table) : Prop :=
  new ##ₘ h ∧ h' = <[a := t]> (h ∪ new).

Lemma fills_at h a h' new t : fills h a h' new t → table_at h' a = t.
Proof. intros [_ ->]. unfold table_at. by rewrite lookup_insert_eq. Qed.

Lemma set_field_fills h a t new1 k v :
  h !! a = Some t → new1 ##ₘ h → fills h a (set_field (h ∪ new1) a k v) new1 (rawset t k v).
Proof.
  intros Ha Hd. split; [done|]. unfold set_field, table_at. by rewrite (lookup_union_Some_l h new1 a t).
Qed.

Lemma fills_trans h a h1 new1 t1 h2 new2 t2 :
  h !! a ≠ None → fills h a h1 new1 t1 → fills h1 a h2 new2 t2 → fills h a h2 (new1 ∪ new2) t2.
Proof.
  intros Ha [Hd1 ->] [Hd2 ->].
  apply map_disjoint_insert_r in Hd2 as [Hna Hd2]. apply map_disjoint_union_r in Hd2 as [Hd2h Hd2n].
  split; [by apply map_disjoint_union_l|].
  rewrite <- insert_union_l, insert_insert_eq, (assoc_L (∪)). done.
Qed.

(** ** An array's items *)

Lemma push_items_builds push walk items : ∀ h a t idx,
  Forall (λ item, ∀ h, builds h item (walk item) (push h item)) items →
  h !! a = Some t → table_ok t →
  let '(h', r) := push_items push h a idx items in
  ∃ new t', fills h a h' new t' ∧
    match r with
    | inl v =>
        first_in_items walk idx items = nothing_found ∧ v = LTable a ∧ table_ok t' ∧
        t_meta t' = t_meta t ∧
        (∀ k, (∀ i, i < length items → k ≠ LInt (Z.of_nat (idx + i) + 1)) → rawget t' k = rawget t k) ∧
        (∀ i item, items !! i = Some item → represents d new item (rawget t' (LInt (Z.of_nat (idx + i) + 1))))
    | inr g => f_problem g ≠ NO_PROBLEM ∧ first_in_items walk idx items = g
    end.
Proof.
  induction items as [|item items IH]; intros h a t idx Hall Ha Ht; simpl.
  { exists ∅, t. split; [split; [apply map_disjoint_empty_l|]|].
    - by rewrite (right_id_L ∅ (∪)), insert_id.
    - split_and!; done. }
  apply Forall_cons in Hall as [Hitem Hall]. specialize (Hitem h).
  destruct Hitem as (new1 & Hd1 & Hh1 & Hr). destruct (push h item) as [h1 [v|g]]; simpl in Hh1, Hr; subst h1.
  2: { destruct Hr as [Hg Hw]. exists new1, t. split.
    - split; [done|]. rewrite insert_id; [done|]. by apply lookup_union_Some_l.
    - rewrite Hw. by case_decide. }
  destruct Hr as [Hw Hrep]. rewrite Hw. simpl.
  set (k := LInt (Z.of_nat idx + 1)).
  pose proof (set_field_fills h a t new1 k v Ha Hd1) as Hfill.
  set (h1 := set_field (h ∪ new1) a k v) in *.
  assert (h1 !! a = Some (rawset t k v)) as Ha1 by (destruct Hfill as [_ ->]; by rewrite lookup_insert_eq).
  specialize (IH h1 a (rawset t k v) (S idx) Hall Ha1 ltac:(by apply rawset_ok)).
  destruct (push_items push h1 a (S idx) items) as [h2 r]. destruct IH as (new2 & t' & Hfill2 & IH).
  assert (h !! a ≠ None) as Hne by (by rewrite Ha).
  exists (new1 ∪ new2), t'. split; [by eapply fills_trans|].
  destruct r as [v'|g]; [|done]. destruct IH as (Hfirst & -> & Hok & Hmeta & Hframe & Hreps).
  assert (new1 ##ₘ new2) as Hdis.
  { destruct Hfill as [_ Hh1']. destruct Hfill2 as [Hd2 _]. rewrite Hh1' in Hd2.
    apply map_disjoint_insert_r in Hd2 as [_ Hd2]. apply map_disjoint_union_r in Hd2 as [_ Hd2]. done. }
  split_and!; [done|done|done|done| |].
  - intros k' Hk'. rewrite Hframe.
    + apply rawget_rawset_ne. intros E. apply (Hk' 0); [simpl; lia|]. rewrite <- E. unfold k. do 2 f_equal. lia.
    + intros i Hi. specialize (Hk' (S i) ltac:(simpl; lia)). by rewrite Nat.add_succ_r in Hk'.
  - intros [|i] item' Hi; simpl in Hi.
    + injection Hi as <-. rewrite Nat.add_0_r. fold k. rewrite Hframe.
      * rewrite rawget_rawset by done. eapply represents_mono; [|done]. by apply map_union_subseteq_l.
      * intros i Hi. unfold k. intros [= E]. lia.
    + rewrite Nat.add_succ_r. eapply represents_mono; [by apply map_union_subseteq_r|by apply Hreps].
Qed.

(** ** An object's members *)

(** What is in an object's table for a member, while the rest go in: the
    mark for a [null] read as nil, where keys are looked up. *)
Definition stored (check : bool) (new : heap) (item : yyval) (v : lua_value) : Prop :=
  if check && bool_decide (nul = LNil) && is_null item then v = null_member else represents d new item v.

Lemma stored_mono check new new' item v : new ⊆ new' → stored check new item v → stored check new' item v.
Proof. unfold stored. intros Hsub. case_match; [done|]. by apply represents_mono. Qed.

(** The two ways a key twice is watched for agree on when the walk stops. *)
Definition watching (check : bool) (pr fr : nat) (before members : list (ykey * yyval)) (t : table) : Prop :=
  (check = false ∧ pr = fr) ∨
  (check = true ∧ pr = length before + length members ∧
   first_repeat (keys_of (before ++ members)) fr ∧ NoDup (keys_of before) ∧
   ∀ s, rawget t (LString s) = LNil ↔ s ∉ keys_of before).

Lemma watching_stops check pr fr before kv members t :
  watching check pr fr before (kv :: members) t →
  (length before =? fr) = (length before =? pr)
    || (check && negb (bool_decide (rawget t (LString (key_bytes kv.1)) = LNil))).
Proof.
  intros [[-> ->]|(-> & -> & (Hle & Hnd & Hin) & Hnb & Hget)]; [by rewrite orb_false_r|].
  rewrite (proj2 (Nat.eqb_neq (length before) (length before + length (kv :: members)))) by (simpl; lia). simpl.
  set (s := key_bytes kv.1). assert (keys_of (before ++ kv :: members) !! length before = Some s) as Hs.
  { unfold keys_of. rewrite fmap_app, lookup_app_r, length_fmap, Nat.sub_diag by (by rewrite length_fmap). done. }
  assert (take (length before) (keys_of (before ++ kv :: members)) = keys_of before) as Htake.
  { unfold keys_of. by rewrite fmap_app, take_app_length' by (by rewrite length_fmap). }
  destruct (Nat.eqb_spec (length before) fr) as [<-|Hne].
  - rewrite bool_decide_eq_false_2; [done|]. rewrite Hget. intros Hn. apply Hn.
    destruct Hin as (s' & Hs' & Hin); [by eapply lookup_lt_Some|]. rewrite Hs in Hs'. injection Hs' as <-.
    by rewrite <- Htake.
  - destruct (decide (s ∈ keys_of before)) as [Hs'|Hs'].
    + exfalso. apply Hne. apply (first_repeat_unique (keys_of (before ++ kv :: members))); [|done].
      split_and!; [by eapply Nat.lt_le_incl, lookup_lt_Some|by rewrite Htake|]. intros _. exists s.
      by rewrite Htake.
    + rewrite bool_decide_eq_true_2; [done|]. by apply Hget.
Qed.

Lemma watching_step check pr fr before kv members t v :
  table_ok t → watching check pr fr before (kv :: members) t → (length before =? fr) = false →
  (check = true → v ≠ LNil) →
  watching check pr fr (before ++ [kv]) members (rawset t (LString (key_bytes kv.1)) v).
Proof.
  intros Ht Hw Hne Hv. pose proof (watching_stops _ _ _ _ _ _ _ Hw) as Hstop.
  destruct Hw as [?|(-> & -> & Hfirst & Hnd & Hget)]; [by left|]. right.
  rewrite Hne in Hstop. symmetry in Hstop. apply orb_false_iff in Hstop as [_ Hstop].
  apply andb_false_iff in Hstop as [|Hstop]; [done|]. apply negb_false_iff, bool_decide_eq_true in Hstop.
  assert (keys_of (before ++ [kv]) = keys_of before ++ [key_bytes kv.1]) as Hkeys
    by (unfold keys_of; by rewrite fmap_app).
  split_and!; [done|rewrite length_app; simpl; lia|by rewrite <- app_assoc| |].
  - rewrite Hkeys. apply NoDup_app. split_and!; [done| |apply NoDup_singleton].
    intros s Hs ->%list_elem_of_singleton. by apply Hget in Hstop.
  - intros s. rewrite Hkeys, not_elem_of_app, list_elem_of_singleton.
    destruct (decide (s = key_bytes kv.1)) as [->|Hs].
    + rewrite rawget_rawset by done. split; [|by intros [_ ?]]. intros ->. by destruct Hv.
    + rewrite rawget_rawset_ne by congruence. rewrite Hget. tauto.
Qed.

Lemma null_stored new item v check :
  represents d new item v →
  (check && bool_decide (v = LNil)) = (check && bool_decide (nul = LNil) && is_null item) ∧
  stored check new item (if check && bool_decide (v = LNil) then null_member else v).
Proof.
  intros Hr. assert (bool_decide (v = LNil) = bool_decide (nul = LNil) && is_null item) as E.
  { destruct (decide (v = LNil)) as [->|Hv].
    - destruct (represents_nil _ _ _ _ Hr eq_refl) as [-> Hn]. unfold nul. by rewrite Hn, andb_true_r.
    - rewrite bool_decide_eq_false_2 by done. destruct item; simpl; rewrite ?andb_false_r; try done.
      inversion Hr; subst. unfold nul. by rewrite bool_decide_eq_false_2. }
  rewrite E, andb_assoc. split; [done|]. unfold stored. by case_match.
Qed.

Lemma push_members_builds push walk check pr fr members : ∀ before h a t held,
  Forall (λ kv, ∀ h, builds h kv.2 (walk kv.2) (push h kv.2)) members →
  h !! a = Some t → table_ok t → watching check pr fr before members t →
  let '(h', r) := push_members push check pr h a (length before) held members in
  ∃ new t', fills h a h' new t' ∧
    match r with
    | inl held' =>
        first_in_members walk fr (length before) members = nothing_found ∧ table_ok t' ∧
        t_meta t' = t_meta t ∧ (check = true → NoDup (keys_of (before ++ members))) ∧
        held' = held || (check && bool_decide (nul = LNil) && existsb (λ kv, is_null kv.2) members) ∧
        (∀ k, (∀ s, k ≠ LString s) → rawget t' k = rawget t k) ∧
        (∀ s, last_member members s = None → rawget t' (LString s) = rawget t (LString s)) ∧
        (∀ s item, last_member members s = Some item → stored check new item (rawget t' (LString s)))
    | inr g => f_problem g ≠ NO_PROBLEM ∧ first_in_members walk fr (length before) members = g
    end.
Proof.
  induction members as [|kv members IH]; intros before h a t held Hall Ha Ht Hwatch; simpl.
  { exists ∅, t. split; [split; [apply map_disjoint_empty_l|]|].
    - by rewrite (right_id_L ∅ (∪)), insert_id.
    - rewrite app_nil_r, andb_false_r, orb_false_r. split_and!; try done.
      intros ->. by destruct Hwatch as [[? _]|(_ & _ & _ & ? & _)]. }
  apply Forall_cons in Hall as [Hitem Hall]. specialize (Hitem h).
  pose proof (watching_stops _ _ _ _ _ _ _ Hwatch) as Hstop.
  assert (table_at h a = t) as Hat by (unfold table_at; by rewrite Ha). rewrite Hat.
  destruct (length before =? pr) eqn:Epr; simpl in Hstop.
  { rewrite Hstop. exists ∅, t. split; [|done].
    split; [apply map_disjoint_empty_l|by rewrite (right_id_L ∅ (∪)), insert_id]. }
  set (k := LString (key_bytes kv.1)) in *.
  destruct (check && negb (bool_decide (rawget t k = LNil))) eqn:Echeck.
  { rewrite Hstop. exists ∅, t. split; [|done].
    split; [apply map_disjoint_empty_l|by rewrite (right_id_L ∅ (∪)), insert_id]. }
  rewrite Hstop.
  destruct Hitem as (new1 & Hd1 & Hh1 & Hr). destruct (push h kv.2) as [h1 [v|g]]; simpl in Hh1, Hr; subst h1.
  2: { destruct Hr as [Hg Hw]. exists new1, t. split.
    - split; [done|]. rewrite insert_id; [done|]. by apply lookup_union_Some_l.
    - rewrite Hw, decide_False by done. by split. }
  destruct Hr as [Hw Hrep]. rewrite Hw. simpl.
  destruct (null_stored new1 kv.2 v check Hrep) as [Ehold Hstored]. rewrite Ehold in Hstored |- *.
  set (hold := check && bool_decide (nul = LNil) && is_null kv.2) in *.
  set (v1 := if hold then null_member else v) in *.
  pose proof (set_field_fills h a t new1 k v1 Ha Hd1) as Hfill.
  set (h1 := set_field (h ∪ new1) a k v1) in *.
  assert (h1 !! a = Some (rawset t k v1)) as Ha1 by (destruct Hfill as [_ ->]; by rewrite lookup_insert_eq).
  assert (watching check pr fr (before ++ [kv]) members (rawset t k v1)) as Hwatch'.
  { apply watching_step; [done|done|done|]. intros ->. unfold v1. destruct hold eqn:E; [done|].
    intros ->. by simpl in Ehold. }
  specialize (IH (before ++ [kv]) h1 a (rawset t k v1) (held || hold) Hall Ha1 ltac:(by apply rawset_ok) Hwatch').
  replace (length (before ++ [kv])) with (S (length before)) in IH by (rewrite length_app; simpl; lia).
  destruct (push_members push check pr h1 a (S (length before)) (held || hold) members) as [h2 r].
  destruct IH as (new2 & t' & Hfill2 & IH).
  assert (h !! a ≠ None) as Hne by (by rewrite Ha).
  exists (new1 ∪ new2), t'. split; [by eapply fills_trans|].
  destruct r as [held'|g]; [|done].
  destruct IH as (Hfirst & Hok & Hmeta & Hnd & -> & Hother & Hnone & Hsome).
  assert (new1 ##ₘ new2) as Hdis.
  { destruct Hfill as [_ Hh1']. destruct Hfill2 as [Hd2 _]. rewrite Hh1' in Hd2.
    apply map_disjoint_insert_r in Hd2 as [_ Hd2]. apply map_disjoint_union_r in Hd2 as [_ Hd2]. done. }
  split_and!; [done|done|done|by rewrite <- app_assoc in Hnd| | | |].
  - unfold hold. by destruct held, (check && bool_decide (nul = LNil)), (is_null kv.2).
  - intros k' Hk'. rewrite Hother by done. apply rawget_rawset_ne. intros E. by apply (Hk' (key_bytes kv.1)).
  - intros s Hs. destruct (last_member members s) eqn:E; [done|]. case_decide; [done|].
    rewrite Hnone by done. apply rawget_rawset_ne. unfold k. congruence.
  - intros s item Hs. destruct (last_member members s) as [item'|] eqn:E.
    + injection Hs as <-. eapply stored_mono; [by apply map_union_subseteq_r|by apply Hsome].
    + case_decide as Es; [|done]. injection Hs as <-. rewrite Hnone by done. subst s. fold k.
      rewrite rawget_rawset by done. eapply stored_mono; [|done]. by apply map_union_subseteq_l.
Qed.

(** Taking the marks out again. *)
Lemma drop_nulls_spec members a : ∀ h t,
  h !! a = Some t → table_ok t →
  ∃ t', drop_nulls h a members = <[a := t']> h ∧ table_ok t' ∧ t_meta t' = t_meta t ∧
    (∀ k, (∀ s, k ≠ LString s) → rawget t' k = rawget t k) ∧
    (∀ s, rawget t' (LString s) =
      if existsb (λ kv, is_null kv.2 && bool_decide (key_bytes kv.1 = s)) members then LNil
      else rawget t (LString s)).
Proof.
  induction members as [|kv members IH]; intros h t Ha Ht.
  { exists t. split_and!; [by rewrite insert_id|done..]. }
  unfold drop_nulls in *. cbn [foldl existsb]. destruct (is_null kv.2); [|by apply IH].
  unfold set_field at 2, table_at. rewrite Ha. simpl.
  destruct (IH (<[a := rawset t (LString (key_bytes kv.1)) LNil]> h) (rawset t (LString (key_bytes kv.1)) LNil))
    as (t' & Hd & Hok & Hmeta & Hother & Hs); [by rewrite lookup_insert_eq|by apply rawset_ok|].
  exists t'. split_and!; [by rewrite Hd, insert_insert_eq|done|done| |].
  - intros k Hk. rewrite Hother by done. apply rawget_rawset_ne. intros E. by apply (Hk (key_bytes kv.1)).
  - intros s. rewrite Hs. case_bool_decide as E; simpl.
    + case_match; [done|]. subst s. by rewrite rawget_rawset.
    + case_match; [done|]. apply rawget_rawset_ne. congruence.
Qed.

(** With each key once, the member of a key is the one there is. *)
Lemma null_members members s :
  NoDup (keys_of members) →
  existsb (λ kv, is_null kv.2 && bool_decide (key_bytes kv.1 = s)) members =
  match last_member members s with Some item => is_null item | None => false end.
Proof.
  assert (∀ members, s ∉ keys_of members → last_member members s = None ∧
    existsb (λ kv, is_null kv.2 && bool_decide (key_bytes kv.1 = s)) members = false) as Hout.
  { clear members. induction members as [|kv members IH]; [done|]. unfold keys_of. csimpl.
    intros [Hne Hn]%not_elem_of_cons. destruct (IH Hn) as [-> ->].
    by rewrite decide_False, bool_decide_eq_false_2, andb_false_r by congruence. }
  induction members as [|kv members IH]; [done|]. unfold keys_of. csimpl. intros [Hk Hnd]%NoDup_cons.
  destruct (decide (key_bytes kv.1 = s)) as [<-|Hne].
  - destruct (Hout members Hk) as [-> ->]. rewrite bool_decide_eq_true_2 by done.
    by rewrite andb_true_r, orb_false_r.
  - rewrite bool_decide_eq_false_2, andb_false_r by done. simpl. rewrite IH by done. by case_match.
Qed.

(** ** The value *)

Lemma fresh_table h a t h' new t' :
  h !! a = None → fills (<[a := t]> h) a h' new t' →
  <[a := t']> new ##ₘ h ∧ h' = h ∪ <[a := t']> new ∧ new ⊆ <[a := t']> new.
Proof.
  intros Ha [Hd ->]. apply map_disjoint_insert_r in Hd as [Hna Hd].
  split_and!; [by apply map_disjoint_insert_l| |by apply insert_subseteq].
  rewrite <- insert_union_l, insert_insert_eq. by rewrite <- insert_union_r.
Qed.

Lemma stored_plain check new item v :
  check && bool_decide (nul = LNil) && is_null item = false → stored check new item v → represents d new item v.
Proof. unfold stored. by intros ->. Qed.

(** The table an object ends with, its marks taken out. *)
Lemma drop_nulls_settles check held members h a h' new t' :
  fills h a h' new t' → table_ok t' → t_meta t' = None →
  (check = true → NoDup (keys_of members)) →
  held = check && bool_decide (nul = LNil) && existsb (λ kv, is_null kv.2) members →
  (∀ k, (∀ s, k ≠ LString s) → rawget t' k = LNil) →
  (∀ s, last_member members s = None → rawget t' (LString s) = LNil) →
  (∀ s item, last_member members s = Some item → stored check new item (rawget t' (LString s))) →
  ∃ t'', fills h a (if held then drop_nulls h' a members else h') new t'' ∧
    table_ok t'' ∧ t_meta t'' = None ∧ (∀ k, (∀ s, k ≠ LString s) → rawget t'' k = LNil) ∧
    (∀ s, last_member members s = None → rawget t'' (LString s) = LNil) ∧
    (∀ s item, last_member members s = Some item → represents d new item (rawget t'' (LString s))).
Proof.
  intros Hfill Hok Hmeta Hnd Eheld Hother Hnone Hsome. destruct held.
  + symmetry in Eheld. apply andb_true_iff in Eheld as [Echeck Eex].
    apply andb_true_iff in Echeck as [Echeck Enul].
    destruct (drop_nulls_spec members a h' t') as (t'' & Hdrop & Hok'' & Hmeta'' & Hother'' & Hs).
    { destruct Hfill as [_ ->]. by rewrite lookup_insert_eq. }
    { done. }
    exists t''. split_and!; [|done|by rewrite Hmeta''| | |].
    * destruct Hfill as [Hd Hh]. split; [done|]. by rewrite Hdrop, Hh, insert_insert_eq.
    * intros k Hk. by rewrite Hother'', Hother.
    * intros s Hl. rewrite Hs, null_members, Hl by auto. by apply Hnone.
    * intros s item Hl. rewrite Hs, null_members, Hl by auto.
      destruct (is_null item) eqn:En.
      -- destruct item; try done. apply bool_decide_eq_true in Enul. rewrite <- Enul. constructor.
      -- eapply stored_plain; [|by apply Hsome]. by rewrite En, andb_false_r.
  + exists t'. split_and!; [done|done|done| |done|].
    * intros k Hk. by apply Hother.
    * intros s item Hl. eapply stored_plain; [|by apply Hsome].
      symmetry in Eheld. destruct (check && bool_decide (nul = LNil)); [|done].
      simpl in *. clear -Hl Eheld. induction members as [|kv members IH]; [done|]. simpl in *.
      apply orb_false_iff in Eheld as [Ekv Eheld]. destruct (last_member members s).
      -- injection Hl as ->. by apply IH.
      -- case_decide; [|done]. by injection Hl as <-.
Qed.

Lemma push_value_builds val : ∀ depth h,
  builds h val (first_problem max_depth dup depth val) (push_value d depth h val).
Proof.
  induction val as [| | | | |items IH|members IH] using yyval_ind'; intros depth h;
    try (exists ∅; split_and!; [apply map_disjoint_empty_l|simpl; by rewrite (right_id_L ∅ (∪))|];
         simpl; split; [done|constructor]); cbn [push_value first_problem]; fold max_depth dup;
    (destruct (max_depth <=? depth) eqn:Edepth;
      [exists ∅; split_and!; [apply map_disjoint_empty_l|simpl; by rewrite (right_id_L ∅ (∪))|done]|]);
    unfold new_table; set (a := fresh (dom h));
    assert (h !! a = None) as Ha by (apply not_elem_of_dom, is_fresh).
  - set (t := Table (Some ARRAY_TYPE) []).
    pose proof (push_items_builds (push_value d (S depth)) (first_problem max_depth dup (S depth)) items
      (<[a := t]> h) a t 0) as Hitems.
    destruct (push_items _ _ _ _ _) as [h' r]. destruct Hitems as (new & t' & Hfill & Hr).
    { eapply Forall_impl; [exact IH|]. intros item Hitem h0. apply Hitem. }
    { by rewrite lookup_insert_eq. }
    { split; constructor. }
    destruct (fresh_table h a t h' new t' Ha Hfill) as (Hd & Hh & Hsub).
    exists (<[a := t']> new). split_and!; [done|done|]. simpl.
    destruct r as [v|g]; [|by destruct Hr as [? ->]].
    destruct Hr as (-> & -> & Hok & Hmeta & Hother & Hreps). split; [done|].
    eapply rep_array; [by rewrite lookup_insert_eq|done|done| |].
    + intros k Hk. rewrite Hother; [done|]. intros i Hi. by apply Hk.
    + intros i item Hi. eapply represents_mono; [exact Hsub|]. by apply (Hreps i).
  - set (few := length members <=? SET_MEMBERS). set (check := negb (d_duplicate_keys d) && negb few).
    set (pr := if negb (d_duplicate_keys d) && few then repeated_member ((λ kv, key_bytes kv.1) <$> members)
      else length members).
    set (fr := if dup then length members else repeated_key_index ((λ kv, key_bytes kv.1) <$> members)).
    assert (watching check pr fr [] members empty_table) as Hwatch.
    { unfold watching, check, pr, fr, dup, few. destruct (d_duplicate_keys d); [by left|]. simpl.
      unfold repeated_key_index. rewrite length_fmap.
      destruct (length members <=? SET_MEMBERS) eqn:E; [by left|]. right. split_and!; try done.
      - pose proof (repeated_key_index_first (keys_of members)) as Hfirst.
        unfold repeated_key_index, keys_of in Hfirst. by rewrite length_fmap, E in Hfirst.
      - constructor.
      - intros s. split; [intros _; apply not_elem_of_nil|done]. }
    pose proof (push_members_builds (push_value d (S depth)) (first_problem max_depth dup (S depth)) check pr fr
      members [] (<[a := empty_table]> h) a empty_table false) as Hmembers.
    destruct (push_members _ _ _ _ _ _ _ _) as [h' r]. destruct Hmembers as (new & t' & Hfill & Hr).
    { eapply Forall_impl; [exact IH|]. intros kv Hkv h0. apply Hkv. }
    { by rewrite lookup_insert_eq. }
    { split; constructor. }
    { done. }
    cbn [length app] in Hr. destruct r as [held|g].
    2: { destruct (fresh_table h a empty_table h' new t' Ha Hfill) as (Hd & Hh & _).
         exists (<[a := t']> new). split_and!; [done|done|]. by destruct Hr as [? ->]. }
    destruct Hr as (Hfirst & Hok & Hmeta & Hnd & Eheld & Hother & Hnone & Hsome). cbn [orb] in Eheld.
    destruct (drop_nulls_settles check held members (<[a := empty_table]> h) a h' new t')
      as (t'' & Hfill' & Hok' & Hmeta' & Hother' & Hnone' & Hsome'); try done.
    destruct (fresh_table h a empty_table _ new t'' Ha Hfill') as (Hd & Hh & Hsub).
    exists (<[a := t'']> new). split_and!; [done|done|]. simpl. split; [done|].
    eapply rep_object; [by rewrite lookup_insert_eq|done..|]. intros s item Hs.
    eapply represents_mono; [exact Hsub|by apply Hsome'].
Qed.

End build.
