(* ===== verification/JsonRead.v ===== *)
(** * Reading a text: [core/json.c], [position] to [json_check]

    What surrounds the walks of [JsonDecode.v]: the options of a read, the
    repair of lone surrogates, the reader (yyjson's, a parameter here), and
    the messages, which say where in the text a failure is. *)

From Stdlib Require Import SpecFloat.
From S2P Require Import Prelude.
From S2P Require Import Texts.
From S2P Require Import Utf8.
From S2P Require Import JsonPath.
From S2P Require Import JsonString.
From S2P Require Import JsonNumber.
From S2P Require Import Lua.
From S2P Require Import JsonEncode.
From S2P Require Import JsonDecode.
From S2P Require Import JsonDecodeCorrect.
From S2P Require Import JsonDecodeBuild.

Local Open Scope Z_scope.

Definition CR : Z := 0x0d.
Definition LF : Z := 0x0a.
Definition APOSTROPHE : Z := 0x27.
Definition HASH : Z := 0x23.
Definition STAR : Z := 0x2a.
Definition LETTER_U : Z := 0x75.

(** [luaL_argerror]'s message, less the name of the function. *)
Definition argument_error (n : Z) (why : string) : bytes :=
  lit "bad argument #" ++ decimal n ++ lit " (" ++ lit why ++ lit ")".

(** ** Where in a text *)

(** [struct layout]. *)
Record text_layout := TextLayout {
  l_json5 : bool; l_record : Z; l_line : Z; l_column : Z; l_prefix : option bytes }.

(** U+2028 and U+2029, [E2 80 A8] and [E2 80 A9]. *)
Definition separator_bytes (a b c : Z) : bool :=
  (a =? 0xe2) && (b =? 0x80) && ((c =? 0xa8) || (c =? 0xa9)).

(** The loop of [position], over the bytes before [pos]. *)
Fixpoint position_loop (json5 : bool) (line column : Z) (s : bytes) : Z * Z :=
  match s with
  | [] => (line, column)
  | c :: rest =>
      let step :=
        if (c =? LF) || (c =? CR) then position_loop json5 (u64 (line + 1)) 1 rest
        else position_loop json5 line (u64 (column + 1)) rest in
      match rest with
      | [] => step
      | n :: rest2 =>
          if (c =? CR) && (n =? LF) then position_loop json5 (u64 (line + 1)) 1 rest2
          else
            match rest2 with
            | [] => step
            | n2 :: rest3 =>
                if json5 && separator_bytes c n n2 then position_loop json5 (u64 (line + 1)) 1 rest3
                else step
            end
      end
  end.

Definition position (text : bytes) (pos : nat) (l : text_layout) : Z * Z :=
  if 0 <? l_record l then (u64 (l_record l), u64 (Z.of_nat pos + 1))
  else position_loop (l_json5 l) (u64 (l_line l)) (u64 (l_column l)) (take pos text).

(** How many bytes the inner loops of [deep_offset] go past: a string up to
    its quote, a line comment to its line's end, a block comment to its
    [*/]. *)
Fixpoint skip_string (quote : Z) (s : bytes) : nat :=
  match s with
  | [] => 0
  | c :: s =>
      if c =? quote then 0
      else if c =? BACKSLASH then match s with [] => 2 | _ :: s => 2 + skip_string quote s end
      else 1 + skip_string quote s
  end.

Fixpoint skip_line (json5 : bool) (s : bytes) : nat :=
  match s with
  | [] => 0
  | c :: rest =>
      if (c =? LF) || (c =? CR) then 0
      else
        match rest with
        | n :: n2 :: _ => if json5 && separator_bytes c n n2 then 0 else S (skip_line json5 rest)
        | _ => S (skip_line json5 rest)
        end
  end.

Fixpoint skip_block (s : bytes) : nat :=
  match s with
  | c :: ((n :: _) as rest) => if (c =? STAR) && (n =? SLASH) then 0 else S (skip_block rest)
  | _ => 0
  end.

(** The walk of [deep_offset] from byte [i], [s] the text from there and
    [open_] the brackets open; every turn goes past a byte, so as much fuel
    as bytes is enough. *)
Fixpoint deep_loop (fuel : nat) (max_depth : Z) (json5 : bool) (open_ : Z) (i : nat) (s : bytes) : nat :=
  match fuel, s with
  | S fuel, c :: rest =>
      let walk n open_ := deep_loop fuel max_depth json5 open_ (i + n) (drop n s) in
      let next := head rest in
      if (c =? QUOTE) || (c =? APOSTROPHE) then walk (S (S (skip_string c rest))) open_
      else if (c =? HASH) || ((c =? SLASH) && bool_decide (next = Some SLASH)) then
        walk (S (skip_line json5 s)) open_
      else if (c =? SLASH) && bool_decide (next = Some STAR) then
        walk (S (S (S (S (skip_block (drop 1 rest)))))) open_
      else if (c =? 0x5b) || (c =? 0x7b) then
        if max_depth <=? open_ then i else walk 1%nat (open_ + 1)
      else if (c =? 0x5d) || (c =? 0x7d) then walk 1%nat (open_ - 1)
      else walk 1%nat open_
  | _, _ => (i + length s)%nat
  end.

Definition deep_offset (text : bytes) (max_depth : Z) (json5 : bool) : nat :=
  Nat.min (length text) (deep_loop (length text) max_depth json5 0 0 text).

(** ** Lone surrogates *)

(** [repair_surrogates] from byte [i], [s] the text from there: what it
    leaves of it, and how many escapes it wrote over. *)
Fixpoint repair_loop (fuel : nat) (s : bytes) : bytes * nat :=
  match fuel, s with
  | S fuel, a :: rest =>
      let keep n := let '(t, count) := repair_loop fuel (drop n s) in (take n s ++ t, count) in
      if negb (a =? BACKSLASH) || (length s <=? 1)%nat then keep 1%nat
      else if negb (bool_decide (s !! 1%nat = Some LETTER_U)) || (length s <? 6)%nat then keep 2%nat
      else
        let unit := hex4 (drop 2 s) in
        if (unit <? 0xd800) || (0xdfff <? unit) then keep 2%nat
        else
          let low := hex4 (drop 8 s) in
          if (unit <=? 0xdbff) && (12 <=? length s)%nat && bool_decide (s !! 6%nat = Some BACKSLASH)
             && bool_decide (s !! 7%nat = Some LETTER_U) && (0xdc00 <=? low) && (low <=? 0xdfff)
          then keep 12%nat
          else
            let '(t, count) := repair_loop fuel (drop 6 s) in
            (take 2 s ++ lit "fffd" ++ t, S count)
  | _, _ => (s, 0%nat)
  end.

Definition repair_surrogates (s : bytes) : bytes * nat := repair_loop (length s) s.

(** ** Messages *)

Inductive read_code := READ_MEMORY_ALLOCATION | READ_EMPTY_CONTENT | READ_OTHER.

#[export] Instance read_code_eq_dec : EqDecision read_code.
Proof. solve_decision. Defined.

(** [yyjson_read_err]. *)
Record read_err := ReadErr { err_code : read_code; err_msg : option bytes; err_pos : nat }.

Definition at_position (p : Z * Z) : bytes :=
  lit " at line " ++ decimal (s64 p.1) ++ lit ", column " ++ decimal (s64 p.2).

Definition read_failure (text : bytes) (l : text_layout) (err : read_err) : bytes :=
  if decide (err_code err = READ_MEMORY_ALLOCATION) then
    if 0 <? l_record l then lit "line " ++ decimal (l_record l) ++ lit ": out of memory"
    else lit "out of memory"
  else if decide (text = [] ∨ err_code err = READ_EMPTY_CONTENT) then
    if 0 <? l_record l then
      lit "invalid JSON at line " ++ decimal (l_record l) ++ lit ": the line holds no value"
    else lit "invalid JSON: the text is empty"
  else
    lit "invalid JSON" ++ at_position (position text (Nat.min (err_pos err) (length text)) l)
    ++ lit ": " ++ default (lit "(null)") (err_msg err).

(** Where a key that repeats is: its opening quote, when it has one. *)
Definition key_position (text : bytes) (at_ : nat) : nat :=
  if (0 <? at_)%nat && (at_ <=? length text)%nat
     && (bool_decide (text !! (at_ - 1)%nat = Some QUOTE)
         || bool_decide (text !! (at_ - 1)%nat = Some APOSTROPHE))
  then (at_ - 1)%nat else at_.

Definition repeat_failure (text : bytes) (l : text_layout) (key : ykey) (p : path) : bytes :=
  let pos := key_position text (key_at key) in
  lit "duplicate key" ++ at_position (position text (Nat.min pos (length text)) l) ++ lit " ("
  ++ push_placed_path (l_prefix l) p ++ lit ")".

Definition deep_failure (text : bytes) (l : text_layout) (max_depth opened : Z) (p : path) : bytes :=
  lit "JSON nests deeper than " ++ decimal max_depth ++ lit " level"
  ++ (if max_depth =? 1 then [] else lit "s")
  ++ at_position (position text (deep_offset text (max_depth - opened) (l_json5 l)) l) ++ lit " ("
  ++ push_placed_path (l_prefix l) p ++ lit ")".

(** ** Reading *)

(** yyjson's reader, its flags and the bytes it calls a text's. *)
Class JsonReader := {
  READ_NOFLAG : Z;
  READ_JSON5 : Z;
  READ_BIGNUM_AS_RAW : Z;
  READ_NUMBER_AS_RAW : Z;
  yyjson_read_opts : bytes → Z → yyval + read_err }.

Definition READ_ALLOW_HASH_COMMENTS : Z := Z.shiftl 1 14.

(** [struct reading]. *)
Record reading := Reading {
  r_text : bytes; r_layout : text_layout; r_flags : Z; r_lone_surrogates : bool;
  r_duplicate_keys : bool; r_max_depth : nat; r_opened : nat }.

Definition with_text (r : reading) (text : bytes) : reading :=
  Reading text (r_layout r) (r_flags r) (r_lone_surrogates r) (r_duplicate_keys r) (r_max_depth r)
    (r_opened r).

Definition with_flags (r : reading) (flags : Z) : reading :=
  Reading (r_text r) (r_layout r) flags (r_lone_surrogates r) (r_duplicate_keys r) (r_max_depth r)
    (r_opened r).

(** [strstr]: whether [s] holds [sub]. *)
Fixpoint holds_text (sub s : bytes) : bool :=
  bool_decide (take (length sub) s = sub) || match s with [] => false | _ :: s => holds_text sub s end.

(** The message of a problem a walk found. *)
Definition problem_failure (r : reading) (f : found) : option bytes :=
  match f_problem f with
  | NO_PROBLEM => None
  | REPEATED_KEY =>
      Some (repeat_failure (r_text r) (r_layout r) (default (YKey [] 0) (f_repeated f)) (f_path f))
  | TOO_DEEP =>
      Some (deep_failure (r_text r) (r_layout r) (Z.of_nat (r_max_depth r)) (Z.of_nat (r_opened r)) (f_path f))
  end.

Section reading.
Context `{JsonReader}.

(** The reader's first try, and the one it is given of a repaired copy. *)
Definition read_repaired (r : reading) : reading * (yyval + read_err) :=
  match yyjson_read_opts (r_text r) (r_flags r) with
  | inl doc => (r, inl doc)
  | inr err =>
      if r_lone_surrogates r
         && match err_msg err with Some msg => holds_text (lit "surrogate") msg | None => false end
      then
        let '(copy, count) := repair_surrogates (r_text r) in
        if (0 <? count)%nat then (with_text r copy, yyjson_read_opts copy (r_flags r)) else (r, inr err)
      else (r, inr err)
  end.

Definition read_text (r : reading) (walk : bool) : reading * (yyval + bytes) :=
  match read_repaired r with
  | (r, inr err) => (r, inr (read_failure (r_text r) (r_layout r) err))
  | (r, inl doc) =>
      if negb walk then (r, inl doc)
      else
        match problem_failure r
                (first_problem (r_max_depth r) (r_duplicate_keys r) (r_opened r) doc) with
        | Some message => (r, inr message)
        | None => (r, inl doc)
        end
  end.

(** [read_options], of the arguments from [max_depth] on; [None] is the
    raise. *)
Definition read_options `{LuaIntegers} (text : bytes)
    (max_depth json5 lone_surrogates hash_comments duplicate_keys : lua_value) : option reading :=
  depth ← checked_depth max_depth;
  let flags := if to_boolean json5 then READ_JSON5 else READ_NOFLAG in
  Some (Reading text (TextLayout (to_boolean json5) 0 1 1 None)
    (if to_boolean hash_comments then Z.lor flags READ_ALLOW_HASH_COMMENTS else flags)
    (to_boolean lone_surrogates) (to_boolean duplicate_keys) depth 0).

(** What a function that takes a text raises when it is given none. *)
Definition no_text : bytes := argument_error 1 "string expected".

(** [json_check]. *)
Definition json_check `{LuaIntegers, LuaStrings}
    (text max_depth json5 lone_surrogates hash_comments duplicate_keys big_as_string : lua_value) :
    answer unit :=
  match lua_tolstring text with
  | None => Raises no_text
  | Some text =>
      match read_options text max_depth json5 lone_surrogates hash_comments duplicate_keys with
      | None => Raises depth_message
      | Some r =>
          let r := if to_boolean big_as_string then with_flags r (Z.lor (r_flags r) READ_BIGNUM_AS_RAW)
                   else r in
          match read_text r true with
          | (_, inr message) => Refuses message
          | (_, inl _) => Answers ()
          end
      end
  end.

(** What [json_decode] reads its arguments to: the text's reading, and what
    [null] is. *)
Definition decode_options `{LuaIntegers, LuaStrings}
    (text null max_depth json5 big_as_string lone_surrogates record hash_comments duplicate_keys
     line column prefix opened : lua_value) : (reading * decoding) + bytes :=
  match lua_tolstring text with
  | None => inr no_text
  | Some text =>
  match checked_depth max_depth with
  | None => inr depth_message
  | Some depth =>
  match opt_integer record 0 with
  | None => inr (argument_error 7 "number expected")
  | Some record =>
  if record <? 0 then inr (argument_error 7 "a record's line is not negative") else
  match opt_integer line 1 with
  | None => inr (argument_error 10 "number expected")
  | Some line =>
  if line <? 1 then inr (argument_error 10 "a line is counted from 1") else
  match opt_integer column 1 with
  | None => inr (argument_error 11 "number expected")
  | Some column =>
  if column <? 1 then inr (argument_error 11 "a column is counted from 1") else
  match opt_string prefix with
  | None => inr (argument_error 12 "string expected")
  | Some prefix =>
  match opt_integer opened 0 with
  | None => inr (argument_error 13 "number expected")
  | Some opened =>
  if negb ((0 <=? opened) && (opened <? Z.of_nat depth)) then
    inr (argument_error 13 "fewer levels open than max_depth")
  else
    let flags := if to_boolean json5 then READ_JSON5 else READ_NOFLAG in
    let flags := if to_boolean big_as_string then Z.lor flags READ_BIGNUM_AS_RAW else flags in
    let flags := if to_boolean hash_comments then Z.lor flags READ_ALLOW_HASH_COMMENTS else flags in
    inl (Reading text (TextLayout (to_boolean json5) record line column (c_string <$> prefix)) flags
           (to_boolean lone_surrogates) (to_boolean duplicate_keys) depth (Z.to_nat opened),
         Decoding (if decide (null = LNil) then None else Some null) depth (to_boolean big_as_string)
           (to_boolean duplicate_keys))
  end end end end end end end.

(** [json_decode]. *)
Definition json_decode `{LuaIntegers, LuaStrings, JsonModule} (h : heap)
    (text null max_depth json5 big_as_string lone_surrogates record hash_comments duplicate_keys
     line column prefix opened : lua_value) : heap * answer lua_value :=
  match decode_options text null max_depth json5 big_as_string lone_surrogates record hash_comments
          duplicate_keys line column prefix opened with
  | inr message => (h, Raises message)
  | inl (r, d) =>
      match read_text r false with
      | (_, inr message) => (h, Refuses message)
      | (r, inl doc) =>
          match push_value d (r_opened r) h doc with
          | (h, inl v) => (h, Answers v)
          | (h, inr f) => (h, Refuses (default [] (problem_failure r f)))
          end
      end
  end.

End reading.

(** * Decoding and checking

    [json_check] and [json_decode] against each other and against what a
    document is: they come to one answer, and a value decode answers
    represents the document that was read. *)

Local Open Scope nat_scope.

(** ** Lone surrogates, as decode reads them *)

Section readings.
Context `{JsonReader}.

Lemma read_repaired_keeps r r' x :
  read_repaired r = (r', x) →
  r_layout r' = r_layout r ∧ r_flags r' = r_flags r ∧ r_max_depth r' = r_max_depth r ∧
  r_opened r' = r_opened r ∧ r_duplicate_keys r' = r_duplicate_keys r ∧
  (r_text r' = r_text r ∨ r_lone_surrogates r = true ∧ r_text r' = (repair_surrogates (r_text r)).1) ∧
  (∀ doc, x = inl doc → yyjson_read_opts (r_text r') (r_flags r) = inl doc) ∧
  (∀ err, x = inr err → yyjson_read_opts (r_text r') (r_flags r) = inr err).
Proof.
  unfold read_repaired. destruct (yyjson_read_opts (r_text r) (r_flags r)) as [doc|err] eqn:E.
  { intros [= <- <-]. split_and!; try done; [by left|by intros ? [= <-]]. }
  destruct (r_lone_surrogates r && _) eqn:Elone.
  2: { intros [= <- <-]. split_and!; try done; [by left|by intros ? [= <-]]. }
  apply andb_true_iff in Elone as [Elone _].
  destruct (repair_surrogates (r_text r)) as [copy count]. destruct (0 <? count).
  2: { intros [= <- <-]. split_and!; try done; [by left|by intros ? [= <-]]. }
  intros [= <- <-]. simpl. split_and!; try done; by right.
Qed.

(** What a problem's message says does not depend on the depth. *)
Lemma problem_failure_some r f : f_problem f ≠ NO_PROBLEM → is_Some (problem_failure r f).
Proof. unfold problem_failure. destruct (f_problem f); [done|by eexists..]. Qed.

Context `{LuaIntegers, LuaStrings, JsonModule}.

(** The reading [check] makes is [decode]'s. *)
Lemma options_agree text max_depth json5 big lone hash dup null :
  match decode_options text null max_depth json5 big lone LNil hash dup LNil LNil LNil LNil with
  | inr message => json_check text max_depth json5 lone hash dup big = Raises message
  | inl (r, d) =>
      d_max_depth d = r_max_depth r ∧ d_duplicate_keys d = r_duplicate_keys r ∧
      json_check text max_depth json5 lone hash dup big =
      match read_text r true with (_, inr message) => Refuses message | (_, inl _) => Answers () end
  end.
Proof.
  unfold decode_options, json_check, read_options. destruct (lua_tolstring text) as [s|]; [|done].
  destruct (checked_depth max_depth) as [n|] eqn:Edepth; [|done]. simpl.
  assert (1 ≤ n) as Hn.
  { unfold checked_depth in Edepth. case_decide; [injection Edepth as <-; unfold DEFAULT_DEPTH; lia|].
    destruct (lua_tointegerx max_depth); [|done]. case_match eqn:Eb; [done|]. injection Edepth as <-.
    apply orb_false_iff in Eb as [Eb _]. apply Z.ltb_ge in Eb. lia. }
  replace (0 <? Z.of_nat n)%Z with true by (symmetry; apply Z.ltb_lt; lia). simpl.
  split_and!; [done|done|]. f_equal. destruct (to_boolean big), (to_boolean hash); try done.
  unfold with_flags. simpl. by rewrite <- !Z.lor_assoc, (Z.lor_comm READ_ALLOW_HASH_COMMENTS).
Qed.

End readings.

Section theorems.
Context `{JsonReader, LuaIntegers, LuaStrings, JsonModule}.

(** [check] answers as [decode] does with the same options: it is done
    where decode has a value, and otherwise has decode's own message; what
    [null] decodes to makes no difference. *)
Theorem json_check_agrees h text null max_depth json5 big lone hash dup :
  json_check text max_depth json5 lone hash dup big =
  match (json_decode h text null max_depth json5 big lone LNil hash dup LNil LNil LNil LNil).2 with
  | Answers _ => Answers ()
  | Refuses message => Refuses message
  | Raises message => Raises message
  end.
Proof.
  pose proof (options_agree text max_depth json5 big lone hash dup null) as Ho. unfold json_decode.
  destruct (decode_options _ _ _ _ _ _ _ _ _ _ _ _ _) as [[r d]|message]; [|done].
  destruct Ho as (Hdepth & Hdup & ->). unfold read_text. simpl.
  destruct (read_repaired r) as [r' [doc|err]] eqn:Er; [|done]. simpl.
  destruct (read_repaired_keeps r r' _ Er) as (_ & _ & Hd & Hop & Hdk & _).
  destruct (push_value_builds d doc (r_opened r') h) as (new & _ & _ & Hb).
  rewrite Hd, Hdk, <- Hdepth, <- Hdup.
  destruct (push_value d (r_opened r') h doc) as [h' [v|g]]; simpl in *.
  - destruct Hb as [-> _]. done.
  - destruct Hb as [Hg ->]. by destruct (problem_failure_some r' g Hg) as [m ->].
Qed.

(** C5: what [decode] does. It raises for its arguments alone. A value it
    answers represents the document the reader read -- of the text, or with
    [lone_surrogates] of the text repaired -- in tables that are new, and the
    document nests no deeper than [max_depth] and has no key twice unless it
    may. A message is the reader's or names what is refused, the first such
    in the text's order. Either way every table there was is as it was. *)
Theorem json_decode_represents h text null max_depth json5 big lone record hash dup line column prefix opened :
  let opts := decode_options text null max_depth json5 big lone record hash dup line column prefix opened in
  match json_decode h text null max_depth json5 big lone record hash dup line column prefix opened with
  | (h', Raises message) => h' = h ∧ opts = inr message
  | (h', a) =>
      ∃ r d text' new, opts = inl (r, d) ∧ new ##ₘ h ∧ h' = h ∪ new ∧
        (text' = r_text r ∨ r_lone_surrogates r = true ∧ text' = (repair_surrogates (r_text r)).1) ∧
        match yyjson_read_opts text' (r_flags r) with
        | inr err => a = Refuses (read_failure text' (r_layout r) err)
        | inl doc =>
            (accepted (r_max_depth r) (r_duplicate_keys r) (r_opened r) doc ∧
             ∃ v, a = Answers v ∧ represents d new doc v) ∨
            (∃ f message, refused (r_max_depth r) (r_duplicate_keys r) (r_opened r) doc f ∧
             problem_failure (with_text r text') f = Some message ∧ a = Refuses message)
        end
  end.
Proof.
  cbn zeta. unfold json_decode.
  destruct (decode_options _ _ _ _ _ _ _ _ _ _ _ _ _) as [[r d]|message] eqn:Eo; [|done].
  assert (d_max_depth d = r_max_depth r ∧ d_duplicate_keys d = r_duplicate_keys r) as [Hdepth Hdup].
  { clear -Eo. unfold decode_options in Eo. repeat case_match; simplify_eq; done. }
  unfold read_text. destruct (read_repaired r) as [r' x] eqn:Er.
  destruct (read_repaired_keeps r r' x Er) as (Hl & Hf & Hmd & Hop & Hdk & Htext & Hok & Herr).
  assert (r' = with_text r (r_text r')) as Hr'.
  { clear -Er. destruct r. unfold read_repaired in Er. repeat case_match; by simplify_eq. }
  destruct x as [doc|err]; simpl.
  2: { exists r, d, (r_text r'), ∅. split_and!; [done|apply map_disjoint_empty_l|by rewrite (right_id_L ∅ (∪))|done|].
       by rewrite (Herr err eq_refl), Hl. }
  destruct (push_value_builds d doc (r_opened r') h) as (new & Hnew & Hh & Hb).
  destruct (push_value d (r_opened r') h doc) as [h' x]. simpl in Hh, Hb.
  rewrite Hdepth, Hdup, Hop in Hb.
  pose proof (first_problem_verdict (r_max_depth r) (r_duplicate_keys r) doc (r_opened r)) as Hv.
  destruct x as [v|g]; exists r, d, (r_text r'), new; (split_and!; [done|done|done|done|]); rewrite (Hok doc eq_refl).
  - left. destruct Hb as [Hnone Hrep]. split; [|by exists v].
    destruct Hv as [[_ ?]|[Hne _]]; [done|]. by rewrite Hnone in Hne.
  - right. destruct Hb as [Hg <-]. destruct Hv as [[Hn _]|[_ Href]]; [by rewrite Hn in Hg|].
    rewrite <- Hr'. destruct (problem_failure_some r' _ Hg) as [m Hm].
    eexists _, m. split_and!; [exact Href|done|]. by rewrite Hm.
Qed.

End theorems.
