(* ===== verification/JsonFormat.v ===== *)
(** * Formatting a text: [core/json.c], [compare_members] to [json_format]

    The document a text is read into, written again: as the text has it, or
    in RFC 8785's canonical form. *)

From Stdlib Require Import SpecFloat.
From S2P Require Import Prelude.
From S2P Require Import Utf8.
From S2P Require Import JsonPath.
From S2P Require Import JsonBuffer.
From S2P Require Import JsonString.
From S2P Require Import JsonNumber.
From S2P Require Import JsonTree.
From S2P Require Import Lua.
From S2P Require Import JsonEncode.
From S2P Require Import JsonDecode.
From S2P Require Import JsonRead.
From S2P Require Import Texts.
From S2P Require Import JsonDecodeCorrect.

Local Open Scope Z_scope.
Local Open Scope json_scope.

(** [compare_members]: of two members, by their keys. *)
Definition compare_members {X Y} (x y : (ykey * X) * Y) : Z :=
  compare_utf16 (key_bytes x.1.1) (key_bytes y.1.1).

(** [yyjson_get_num]: any number as a double. *)
Definition number_double (v : number) : spec_float :=
  match v with
  | SInt z | UInt z => float_of_integer z
  | Real f => f
  end.

Section walk.
Context `{Allocator, NumberText, Qsort} (st : layout) (canonical : bool).

(** [put_text_member], given the writer of its value. *)
Definition put_text_member (key : ykey) (value : writer) (first : bool) (depth : nat) : writer :=
  (if first then done_ok else put [COMMA]) ;;
  put_break st (depth + 1) ;;
  put_string st (key_bytes key) ;;
  put [COLON] ;;
  (if e_pretty st then put [SPACE] else done_ok) ;;
  under (Key (key_bytes key)) value.

(** [put_text_object]: each member with the writer of its value, so that
    sorting the members is sorting these. *)
Definition put_text_object (members : list ((ykey * yyval) * writer)) (depth : nat) : writer :=
  match members with
  | [] => put [OPEN_OBJECT; CLOSE_OBJECT]
  | _ =>
      put [OPEN_OBJECT] ;;
      each (λ i m, put_text_member m.1.1 m.2 (i =? 0)%nat depth) 0
        (if canonical then qsort compare_members members else members) ;;
      put_break st depth ;;
      put [CLOSE_OBJECT]
  end.

Fixpoint put_text_value (val : yyval) (depth : nat) : writer :=
  match val with
  | YNull => put null_text
  | YBool b => put (if b then true_text else false_text)
  | YRaw text => put_raw_number text
  | YNum v =>
      let f := number_double v in
      if negb (is_finite f) then
        refuse (if is_nan f then lit "cannot format NaN" else lit "cannot format an infinite number")
      else put_canonical_number f
  | YStr s => put_string st s
  | YArr [] => put [OPEN_ARRAY; CLOSE_ARRAY]
  | YArr items =>
      put [OPEN_ARRAY] ;;
      each (λ idx item,
        (if (0 <? idx)%nat then put [COMMA] else done_ok) ;;
        put_break st (depth + 1) ;;
        under (Index (Z.of_nat idx)) (put_text_value item (depth + 1))) 0 items ;;
      put_break st depth ;;
      put [CLOSE_ARRAY]
  | YObj members =>
      put_text_object ((λ kv, (kv, put_text_value kv.2 (depth + 1))) <$> members) depth
  end.

End walk.

(** [json_format]. *)
Definition json_format `{Allocator, NumberText, Qsort, JsonReader, LuaIntegers, LuaStrings}
    (text max_depth json5 lone_surrogates hash_comments duplicate_keys pretty canonical : lua_value) :
    answer bytes :=
  match lua_tolstring text with
  | None => Raises no_text
  | Some text =>
  match read_options text max_depth json5 lone_surrogates hash_comments duplicate_keys with
  | None => Raises depth_message
  | Some r =>
  match read_text r true with
  | (_, inr message) => Refuses message
  | (r, inl doc) =>
      let canonical := to_boolean canonical in
      let st := Layout (negb canonical && to_boolean pretty) 0 false in
      let again :=
        if canonical then inl doc
        else (read_text (with_flags r (Z.lor (r_flags r) READ_NUMBER_AS_RAW)) false).2 in
      match again with
      | inr message => Refuses message
      | inl doc =>
          let '(e, ok) := put_text_value st canonical doc 0 new_encoding in
          if ok then Answers (e_text e) else Refuses (failure_message e)
      end
  end end end.

(** * What formatting is to do

    The JSON value a document is, with its numbers' texts and its members in
    the order they are written in; which documents have one, and what keeps
    the others from it. *)

(** ** Numbers *)

(** A raw number with the digits RFC 8259 asks for. *)
Definition completed (s : bytes) : bytes :=
  (match s with c :: _ => if c =? POINT then [ZERO] else [] | [] => [] end) ++
  (let point := point_of s in
   if (point <? length s)%nat
      && match drop (point + 1) s with [] => true | c :: _ => is_exponent c end
   then take point s ++ [POINT; ZERO] ++ drop (point + 1) s
   else s).

Definition rewritten (s : bytes) : bytes :=
  match s with
  | c :: r =>
      if c =? PLUS then completed r
      else if c =? MINUS then [MINUS] ++ completed r
      else completed s
  | [] => completed s
  end.

Section spec.
Context `{NumberText}.

(** The text a raw number is written as: its own, its own completed, or that
    of the number it reads as -- a hexadecimal one. *)
Definition raw_text (s : bytes) : option bytes :=
  if is_json_number s then Some s
  else if is_json_number (rewritten s) then Some (rewritten s)
  else
    match read_number s with
    | NumberIs v => if number_finite v then write_number v else None
    | _ => None
    end.

(** The text of a double in the canonical form. *)
Definition canonical_text (f : spec_float) : option bytes :=
  if negb (is_finite f) then None
  else if is_zero f then Some [ZERO]
  else
    shortest ← write_number (Real f);
    text ← canonical shortest;
    Some ((if is_negative f then [MINUS] else []) ++ text).

(** ** Documents *)

(** What yyjson's documents are: their strings UTF-8, the texts of numbers
    short enough to be in memory. *)
Fixpoint doc_ok (val : yyval) : Prop :=
  match val with
  | YNull | YBool _ | YNum _ => True
  | YRaw t => Z.of_nat (length t) ≤ 2 ^ 61 ∧ read_number t ≠ NumberMemory
  | YStr s => text_ok s = true
  | YArr items => Forall id (doc_ok <$> items)
  | YObj members => Forall (λ kv, text_ok (key_bytes kv.1) = true) members ∧
                    Forall id ((λ kv, doc_ok kv.2) <$> members)
  end.

(** RFC 8785's order of keys: their UTF-16 code units'. *)
Definition code_units (s : bytes) : list Z := scalars s ≫= utf16_units.
Definition key_le (x y : bytes) : Prop := lex_sign (code_units x) (code_units y) ≤ 0.

(** The JSON value a document is written as. *)
Fixpoint formats (canonical : bool) (val : yyval) (j : json) : Prop :=
  match val with
  | YNull => j = JNull
  | YBool b => j = JBool b
  | YRaw s => ∃ t, raw_text s = Some t ∧ j = JNumber t
  | YNum v => ∃ t, canonical_text (number_double v) = Some t ∧ j = JNumber t
  | YStr s => j = JString s
  | YArr items => ∃ l, j = JArray l ∧ Forall2 (λ P j, P j) (formats canonical <$> items) l
  | YObj members =>
      ∃ m m', j = JObject m' ∧
        Forall2 (λ (P : bytes * json → Prop) kj, P kj)
          ((λ kv kj, kj.1 = key_bytes kv.1 ∧ formats canonical kv.2 kj.2) <$> members) m ∧
        (if canonical then m' ≡ₚ m ∧ StronglySorted key_le m'.*1 else m' = m)
  end.

(** A number in a document that has no JSON text, under the segments that
    lead to it. *)
Fixpoint unformattable (val : yyval) (segs : list segment) : Prop :=
  match val with
  | YRaw s => segs = [] ∧ raw_text s = None
  | YNum v => segs = [] ∧ canonical_text (number_double v) = None
  | YArr items =>
      ∃ i P segs', (unformattable <$> items) !! i = Some P ∧ segs = Index (Z.of_nat i) :: segs' ∧ P segs'
  | YObj members =>
      ∃ kP segs', kP ∈ (λ kv, (key_bytes kv.1, unformattable kv.2)) <$> members ∧
        segs = Key kP.1 :: segs' ∧ kP.2 segs'
  | _ => False
  end.

(** ** Numbers' texts *)

Context `{Allocator}.

Lemma put_completed_says limit `{!Room limit} s : implements_within limit (put_completed s) (says (completed s)).
Proof.
  unfold put_completed, completed. rewrite <- says_app. apply implements_andthen.
  - destruct s as [|c s]; [auto with writer|]. destruct (c =? POINT); auto with writer.
  - cbn zeta. case_match; [|auto with writer]. rewrite <- !says_app. auto with writer.
Qed.

Lemma put_rewritten_says limit `{!Room limit} s : implements_within limit (put_rewritten s) (says (rewritten s)).
Proof.
  unfold put_rewritten, rewritten. destruct s as [|c r]; [by apply put_completed_says|].
  destruct (c =? PLUS); [by apply put_completed_says|].
  destruct (c =? MINUS); [|by apply put_completed_says].
  rewrite <- says_app. apply implements_andthen; [auto with writer|by apply put_completed_says].
Qed.

Lemma completed_length s : (length (completed s) ≤ length s + 2)%nat.
Proof.
  unfold completed. cbn zeta. rewrite length_app.
  assert (length (match s with c :: _ => if (c =? POINT)%Z then [ZERO] else [] | [] => [] end) ≤ 1)%nat as H1.
  { destruct s as [|c r]; simpl; [lia|]. destruct (c =? POINT); simpl; lia. }
  destruct (Nat.ltb_spec (point_of s) (length s)); simpl andb; cbn iota; [|lia].
  destruct (match drop (point_of s + 1) s with [] => true | c :: _ => is_exponent c end); [|lia].
  rewrite !length_app, length_take, length_drop. simpl length. lia.
Qed.

Lemma rewritten_length s : (length (rewritten s) ≤ length s + 3)%nat.
Proof.
  unfold rewritten. destruct s as [|c r]; [pose proof (completed_length []); lia|].
  pose proof (completed_length r). pose proof (completed_length (c :: r)).
  destruct (c =? PLUS); [simpl; lia|]. destruct (c =? MINUS); simpl in *; lia.
Qed.

Lemma starved_rewriting s e w :
  Z.of_nat (length s) ≤ 2 ^ 61 → plenty e w → plenty_within (2 ^ 63) e (rewritten s).
Proof. intros Hlen [Hr Hfit]. split; [done|]. pose proof (rewritten_length s). lia. Qed.

Lemma implements_refuse_from why e e1 : sound e1 → outcome e (refuse why e1) (denies why).
Proof. intros (_ & _ & _ & Hpath & Hoom). right. by exists (fit why), []. Qed.

Lemma put_raw_number_spec s :
  Z.of_nat (length s) ≤ 2 ^ 61 → read_number s ≠ NumberMemory →
  ∃ w, implements (put_raw_number s) w ∧
    match w.2 with
    | None => raw_text s = Some w.1
    | Some (_, segs) => segs = [] ∧ raw_text s = None
    end.
Proof.
  intros Hlen Hmem. unfold raw_text. destruct (is_json_number s) eqn:Ej.
  { exists (says s). split; [|done]. intros e He. unfold put_raw_number. rewrite Ej. by apply implements_put. }
  destruct (is_json_number (rewritten s)) eqn:Er.
  { exists (says (rewritten s)). split; [|done]. intros e He. unfold put_raw_number. rewrite Ej. cbn zeta.
    pose proof (put_rewritten_says (2 ^ 63) s e He) as Ho. unfold outcome_within in *.
    destruct (put_rewritten s e) as [e1 [|]]; simpl.
    - destruct Ho as (_ & Hs & Ht). rewrite Ht, drop_app_length. cbn [says fst snd]. by rewrite Er.
    - destruct Ho as [(? & ? & Hno)|(? & ? & ? & _)]; [|done]. left. split_and!; [done..|].
      intros Hp. apply Hno. by eapply starved_rewriting. }
  assert (∀ w, (∀ e1, sound e1 → ∀ e, sound e → e_text e1 = e_text e → outcome e
      (match read_number s with
       | NumberMemory => refuse_memory e1
       | NumberRefused => refuse (lit "cannot format a number") e1
       | NumberIs v =>
          put_written (if number_finite v then write_number v else None)
            (if number_nan v then lit "cannot format NaN" else lit "cannot format an infinite number") e1
       end) w) → implements (put_raw_number s) w) as Hgo.
  { intros w Hw e He. unfold put_raw_number. rewrite Ej. cbn zeta.
    pose proof (put_rewritten_says (2 ^ 63) s e He) as Ho. unfold outcome_within in Ho.
    destruct (put_rewritten s e) as [e1 [|]]; simpl.
    - destruct Ho as (_ & Hs & Ht). rewrite Ht, drop_app_length, take_app_length. cbn [says fst snd].
      rewrite Er. apply Hw; [|done|done]. destruct Hs as (H1 & H2). split; [|done].
      simpl. rewrite Ht, length_app in H1. lia.
    - destruct Ho as [(? & ? & Hno)|(? & ? & ? & _)]; [|done]. left. split_and!; [done..|].
      intros Hp. apply Hno. by eapply starved_rewriting. }
  destruct (read_number s) as [v| |] eqn:Eread; [|exists (denies (lit "cannot format a number"))|done].
  2: { split; [|done]. apply Hgo. intros e1 He1 e He _. by apply implements_refuse_from. }
  destruct (if number_finite v then write_number v else None) as [t|]; unfold put_written in Hgo.
  - exists (says t). split; [|done]. apply Hgo. intros e1 He1 e He Ht.
    pose proof (implements_put (limit := 2 ^ 62) t e1 He1) as Ho. unfold outcome_within, plenty_within in *.
    by rewrite Ht in Ho.
  - eexists (denies _). split; [|done]. apply Hgo. intros e1 He1 e He _. by apply implements_refuse_from.
Qed.

End spec.
