(* ===== verification/JsonFormatTheorems.v ===== *)
(** * Formatting is correct

    The walk over a document implements, in the sense of [JsonBuffer.v], the
    text of the JSON value the document is, or a refusal that names a number
    with no text. *)

From Stdlib Require Import SpecFloat.
From S2P Require Import Prelude.
From S2P Require Import Utf8.
From S2P Require Import JsonPath.
From S2P Require Import JsonBuffer.
From S2P Require Import JsonString.
From S2P Require Import JsonNumber.
From S2P Require Import JsonTree.
From S2P Require Import Lua.
From S2P Require Import JsonEncode.
From S2P Require Import JsonEncodeCorrect.
From S2P Require Import JsonDecode.
From S2P Require Import JsonDecodeCorrect.
From S2P Require Import JsonFormat.
From S2P Require Import Texts.
From S2P Require Import JsonCanonical.
From S2P Require Import JsonEncodeTheorems.
From S2P Require Import JsonRead.

Local Open Scope Z_scope.

(** ** The order of keys *)

Lemma compare_units_of x y :
  text_ok x = true → text_ok y = true → compare_utf16 x y = lex_sign (code_units x) (code_units y).
Proof.
  intros [Hx Hux]%text_ok_iff [Hy Huy]%text_ok_iff.
  apply is_utf8_some in Hux as (cs & Hcs & ->); [|done].
  apply is_utf8_some in Huy as (ds & Hds & ->); [|done].
  unfold code_units. rewrite !scalars_encode by done. by apply compare_units.
Qed.

#[export] Instance key_le_trans : Transitive key_le.
Proof. intros x y z. apply lex_sign_trans. Qed.

Lemma key_le_antisym x y : text_ok x = true → text_ok y = true → key_le x y → key_le y x → x = y.
Proof.
  intros Hx Hy Hxy Hyx. unfold key_le in *. rewrite lex_sign_flip in Hyx.
  apply text_ok_iff in Hx as H1. apply text_ok_iff in Hy as H2. destruct H1, H2.
  apply compare_utf16_zero; [done..|]. rewrite compare_units_of by done. lia.
Qed.

Section sorting.
Context `{QsortLaws} {X Y : Type}.
Implicit Types l : list ((ykey * X) * Y).

Lemma compare_members_orders l :
  Forall (λ m, text_ok (key_bytes m.1.1) = true) l → orders compare_members l.
Proof.
  rewrite Forall_forall. intros Hl. split.
  - intros x y z Hx Hy Hz. unfold compare_members. rewrite !compare_units_of by auto. apply lex_sign_trans.
  - intros x y Hx Hy. unfold compare_members. rewrite !compare_units_of by auto.
    rewrite (lex_sign_flip (code_units (key_bytes x.1.1))). lia.
Qed.

Lemma members_sorted l :
  Forall (λ m, text_ok (key_bytes m.1.1) = true) l →
  StronglySorted key_le ((λ m, key_bytes m.1.1) <$> qsort compare_members l).
Proof.
  intros Hl. pose proof (compare_members_orders l Hl) as Ho.
  apply Sorted_StronglySorted; [apply key_le_trans|].
  pose proof (qsort_sorted compare_members l Ho) as Hs.
  assert (Forall (λ m, text_ok (key_bytes m.1.1) = true) (qsort compare_members l)) as Hq
    by (by rewrite (qsort_perm compare_members l Ho)).
  induction Hs as [|x q Hs IH Hx]; [constructor|]. apply Forall_cons in Hq as [Hxok Hq].
  rewrite fmap_cons. constructor; [by apply IH|]. destruct Hx as [|y q' Hxy]; [constructor|].
  apply Forall_cons in Hq as [Hyok _]. constructor. unfold compare_members in Hxy.
  by rewrite compare_units_of in Hxy.
Qed.

End sorting.

(** ** The walk *)

Section walk.
Context `{A : Allocator, N : NumberText, Q : Qsort} `{!QsortLaws} (st : layout) (canonical : bool).

Definition format_spec (val : yyval) (depth : nat) (w : ideal) : Prop :=
  match w.2 with
  | None => ∃ j, formats canonical val j ∧ w.1 = print st depth j
  | Some (_, segs) => unformattable val segs
  end.

Definition format_writer (val : yyval) : Prop :=
  ∀ depth, ∃ w, implements (put_text_value st canonical val depth) w ∧ format_spec val depth w.

Lemma put_canonical_spec f depth v :
  f = number_double v → is_finite f = true →
  ∃ w, implements (put_canonical_number f) w ∧ format_spec (YNum v) depth w.
Proof.
  intros -> Hf. unfold put_canonical_number, format_spec. simpl. unfold canonical_text. rewrite Hf. simpl.
  destruct (is_zero (number_double v)).
  { exists (says [ZERO]). split; [apply implements_put|]. by eexists (JNumber _); split; [eexists|]. }
  destruct (write_number (Real (number_double v))) as [s|]; simpl.
  2: { exists (denies (lit "cannot format a number")). split; [apply implements_refuse|done]. }
  destruct (JsonNumber.canonical s) as [t|]; simpl.
  - eexists (says _). split; [apply implements_put|]. by eexists (JNumber _); split; [eexists|].
  - exists (denies (lit "cannot format a number")). split; [apply implements_refuse|done].
Qed.

Lemma put_items_spec depth items :
  items ≠ [] → Forall format_writer items →
  ∃ w, implements (put_text_value st canonical (YArr items) depth) w ∧ format_spec (YArr items) depth w.
Proof.
  intros Hne Hall.
  destruct (each_exists (λ idx item,
      ((if (0 <? idx)%nat then put [COMMA] else done_ok) ;;
       put_break st (depth + 1) ;;
       under (Index (Z.of_nat idx)) (put_text_value st canonical item (depth + 1))))%json
    (λ idx item w, match w.2 with
      | None => ∃ j, formats canonical item j ∧
          w.1 = separator (idx =? 0)%nat ++ break_text st (S depth) ++ print st (S depth) j
      | Some (_, segs) => ∃ segs', segs = Index (Z.of_nat idx) :: segs' ∧ unformattable item segs'
      end) 0 items) as (w & Hw & Hspec).
  { intros idx item Hi. simpl. rewrite Nat.add_1_r. rewrite Forall_forall in Hall.
    destruct (Hall item (list_elem_of_lookup_2 _ _ _ Hi) (S depth)) as (v & Hv & Hvs).
    exists (then_ideal (says (separator (idx =? 0)%nat)) (then_ideal (says (break_text st (S depth)))
      (under_ideal (Index (Z.of_nat idx)) v))). split.
    - apply implements_andthen; [destruct idx; simpl; auto with writer|]. auto with writer.
    - unfold format_spec in Hvs. unfold under_ideal, then_ideal. simpl. destruct v as [t [[why segs]|]]; simpl in *.
      + by exists segs.
      + destruct Hvs as (j & ? & ->). by exists j. }
  exists (then_ideal (says [OPEN_ARRAY]) (then_ideal w
    (then_ideal (says (break_text st depth)) (says [CLOSE_ARRAY])))). split.
  { destruct items; [done|]. cbn [put_text_value]. auto with writer. }
  unfold then_ideal, format_spec. destruct w as [t [[why segs]|]]; cbn [fst snd says] in *.
  - destruct Hspec as (k & item & before & Hk & segs' & -> & Hf). simpl. exists k, (unformattable item), segs'.
    by rewrite list_lookup_fmap, Hk.
  - destruct Hspec as (texts & -> & Hlen & Htexts).
    destruct (texts_items st (S depth) (print st (S depth)) (formats canonical) 0 items texts Hlen) as (l & Hl & ->).
    { intros k item u Hk Hu. apply (Htexts k item u Hk Hu). }
    exists (JArray l). split.
    + exists l. split; [done|]. by apply Forall2_fmap_l.
    + destruct l; [|done]. apply Forall2_length in Hl. by destruct items.
Qed.

(** One member, given that its value's writer is right. *)
Lemma put_text_member_spec depth (kv : ykey * yyval) first :
  text_ok (key_bytes kv.1) = true → format_writer kv.2 →
  ∃ w, implements (put_text_member st kv.1 (put_text_value st canonical kv.2 (depth + 1)) first depth) w ∧
    match w.2 with
    | None => ∃ j, formats canonical kv.2 j ∧
        w.1 = separator first ++ break_text st (S depth) ++ key_text st (key_bytes kv.1) ++ print st (S depth) j
    | Some (_, segs) => ∃ segs', segs = Key (key_bytes kv.1) :: segs' ∧ unformattable kv.2 segs'
    end.
Proof.
  intros [Hk Hu]%text_ok_iff Hvalue. unfold put_text_member. rewrite Nat.add_1_r.
  destruct (Hvalue (S depth)) as (v & Hv & Hvs).
  pose proof (put_string_implements st (key_bytes kv.1) Hk) as Hs. unfold string_ideal in Hs. rewrite Hu in Hs.
  exists (then_ideal (says (separator first)) (then_ideal (says (break_text st (S depth)))
    (then_ideal (says (string_text (e_ascii st) (key_bytes kv.1)))
      (then_ideal (says [COLON]) (then_ideal (says (if e_pretty st then [SPACE] else []))
        (under_ideal (Key (key_bytes kv.1)) v)))))). split.
  { apply implements_andthen; [destruct first; auto with writer|].
    apply implements_andthen; [auto with writer|]. apply implements_andthen; [done|].
    apply implements_andthen; [auto with writer|].
    apply implements_andthen; [destruct (e_pretty st); auto with writer|]. auto with writer. }
  unfold then_ideal, format_spec, under_ideal in *. simpl. destruct v as [t [[why segs]|]]; simpl in *.
  - by exists segs.
  - destruct Hvs as (j & ? & ->). exists j. split; [done|]. unfold key_text. by rewrite <- !app_assoc.
Qed.

(** The members and writers [put_text_object] is handed, in its order. *)
Definition with_writers (depth : nat) (members : list (ykey * yyval)) : list ((ykey * yyval) * writer) :=
  (λ kv, (kv, put_text_value st canonical kv.2 (depth + 1))) <$> members.

Definition in_order (depth : nat) (members : list (ykey * yyval)) : list ((ykey * yyval) * writer) :=
  if canonical then qsort compare_members (with_writers depth members) else with_writers depth members.

Lemma in_order_perm depth members :
  Forall (λ kv, text_ok (key_bytes kv.1) = true) members →
  in_order depth members ≡ₚ with_writers depth members.
Proof.
  intros Hk. unfold in_order. destruct canonical; [|done]. apply qsort_perm, compare_members_orders.
  unfold with_writers. by apply Forall_fmap.
Qed.

(** The members written, as the value's. *)
Lemma written_members depth members (m : list (bytes * json)) :
  Forall (λ kv, text_ok (key_bytes kv.1) = true) members →
  Forall2 (λ (o : (ykey * yyval) * writer) kj, kj.1 = key_bytes o.1.1 ∧ formats canonical o.1.2 kj.2)
    (in_order depth members) m →
  formats canonical (YObj members) (JObject m).
Proof.
  intros Hk Hm. pose proof (in_order_perm depth members Hk) as Hperm.
  destruct (Permutation_Forall2 Hperm Hm) as (m0 & Hm0 & Hf).
  assert (m.*1 = (λ o, key_bytes o.1.1) <$> in_order depth members) as Hkeys.
  { clear -Hm. induction Hm as [|o kj l m (E & _) _ IH]; [done|]. rewrite !fmap_cons, E. by f_equal. }
  exists (if canonical then m0 else m), m. split_and!; [done| |].
  - apply Forall2_fmap_l. assert (Forall2 (λ (kv : ykey * yyval) kj, kj.1 = key_bytes kv.1 ∧
      formats canonical kv.2 kj.2) members (if canonical then m0 else m)) as HF.
    { unfold in_order, with_writers in Hm, Hf. destruct canonical.
      - by apply Forall2_fmap_l in Hf.
      - by apply Forall2_fmap_l in Hm. }
    exact HF.
  - unfold in_order in Hkeys. destruct canonical; [|done]. split; [done|]. rewrite Hkeys.
    apply members_sorted. unfold with_writers. by apply Forall_fmap.
Qed.

Lemma put_text_object_spec depth members :
  Forall (λ kv, text_ok (key_bytes kv.1) = true) members → Forall (λ kv, format_writer kv.2) members →
  ∃ w, implements (put_text_value st canonical (YObj members) depth) w ∧ format_spec (YObj members) depth w.
Proof.
  intros Hk Hall. cbn [put_text_value]. fold (with_writers depth members).
  destruct (decide (members = [])) as [->|Hne].
  { exists (says [OPEN_OBJECT; CLOSE_OBJECT]). split; [apply implements_put|]. exists (JObject []).
    split; [|done]. apply (written_members depth []); [constructor|].
    destruct (in_order depth []) eqn:E; [constructor|]. pose proof (in_order_perm depth [] Hk) as Hp.
    rewrite E in Hp. by apply Permutation_nil_r in Hp. }
  assert (∀ o, o ∈ in_order depth members → ∃ kv, kv ∈ members ∧
    o = (kv, put_text_value st canonical kv.2 (depth + 1))) as Hin.
  { intros o. rewrite in_order_perm by done. intros Ho. apply list_elem_of_fmap in Ho as (kv & -> & ?). eauto. }
  destruct (each_exists (λ i m, put_text_member st m.1.1 m.2 (i =? 0)%nat depth)
    (λ i m w, match w.2 with
      | None => ∃ j, formats canonical m.1.2 j ∧ w.1 = separator (i =? 0)%nat ++ break_text st (S depth)
          ++ key_text st (key_bytes m.1.1) ++ print st (S depth) j
      | Some (_, segs) => ∃ segs', segs = Key (key_bytes m.1.1) :: segs' ∧ unformattable m.1.2 segs'
      end) 0 (in_order depth members)) as (w & Hw & Hspec).
  { intros i o Ho. apply list_elem_of_lookup_2, Hin in Ho as (kv & Hkv & ->).
    rewrite Forall_forall in Hk, Hall. apply put_text_member_spec; [by apply Hk|by apply Hall]. }
  exists (then_ideal (says [OPEN_OBJECT]) (then_ideal w
    (then_ideal (says (break_text st depth)) (says [CLOSE_OBJECT])))). split.
  { unfold put_text_object. destruct (with_writers depth members) as [|o l] eqn:E;
      [by destruct members|]. rewrite <- E. fold (in_order depth members). auto with writer. }
  unfold then_ideal, format_spec. destruct w as [t [[why segs]|]]; cbn [fst snd says] in *.
  - destruct Hspec as (k & o & before & Ho & segs' & -> & Hf).
    apply list_elem_of_lookup_2, Hin in Ho as (kv & Hkv & ->).
    exists (key_bytes kv.1, unformattable kv.2), segs'. split_and!; [|done..].
    by apply (list_elem_of_fmap_2 (λ kv, (key_bytes kv.1, unformattable kv.2))).
  - destruct Hspec as (texts & -> & Hlen & Htexts).
    destruct (texts_members st (S depth) (print st (S depth))
      (λ (o : (ykey * yyval) * writer) kj, kj.1 = key_bytes o.1.1 ∧ formats canonical o.1.2 kj.2)
      0 (in_order depth members) texts Hlen) as (m & Hm & ->).
    { intros k o u Hko Hu. destruct (Htexts k o u Hko Hu) as (j & Hj & ->). by exists (key_bytes o.1.1, j). }
    exists (JObject m). split; [by eapply written_members|].
    destruct m; [|done]. apply Forall2_length in Hm. rewrite in_order_perm in Hm by done. by destruct members.
Qed.

Lemma put_text_value_spec val : doc_ok val → format_writer val.
Proof.
  induction val as [|b|v|t|s|items IH|members IH] using yyval_ind'; intros Hok depth.
  - exists (says null_text). split; [apply implements_put|]. by exists JNull.
  - eexists (says _). split; [apply implements_put|]. exists (JBool b). by destruct b.
  - cbn [put_text_value]. cbn zeta. destruct (is_finite (number_double v)) eqn:Ef; [by apply put_canonical_spec|].
    eexists (denies _). split; [apply implements_refuse|]. unfold format_spec, unformattable, canonical_text.
    simpl. by rewrite Ef.
  - destruct Hok as [Hlen Hmem]. destruct (put_raw_number_spec t Hlen Hmem) as (w & Hw & Hs). exists w.
    split; [done|]. unfold format_spec. destruct w as [out [[why segs]|]]; simpl in *; [done|].
    exists (JNumber out). split; [by exists out|done].
  - apply text_ok_iff in Hok as [Hb Hu]. exists (string_ideal st s). split; [by apply put_string_implements|].
    unfold string_ideal. rewrite Hu. by exists (JString s).
  - destruct (decide (items = [])) as [->|Hne].
    { exists (says [OPEN_ARRAY; CLOSE_ARRAY]). split; [apply implements_put|]. exists (JArray []).
      split; [|done]. exists []. by split; [|constructor]. }
    apply put_items_spec; [done|]. simpl in Hok. rewrite Forall_fmap in Hok.
    rewrite Forall_forall in IH, Hok |- *. intros v Hv. apply IH; [done|by apply Hok].
  - destruct Hok as [Hk Hall]. rewrite Forall_fmap in Hall. apply put_text_object_spec; [done|].
    rewrite Forall_forall in IH, Hall |- *. intros kv Hkv. apply (IH kv); [done|by apply (Hall kv)].
Qed.

End walk.

(** * What [format] answers

    Its text reads back to the value the document is; in the canonical form
    it depends on that value alone. *)

(** A double's text, as yyjson writes it: its shortest digits, signed. *)
Class ShortestLaws `{NumberText} :=
  write_shortest f t : is_finite f = true → is_zero f = false → write_number (Real f) = Some t →
    ∃ P, t = parts_text P ∧ shortest P ∧ d_sign P = (if is_negative f then [MINUS] else []).

(** What is in the documents yyjson reads. *)
Class JsonReaderLaws `{JsonReader, NumberText} :=
  reader_doc_ok text flags doc : yyjson_read_opts text flags = inl doc → doc_ok doc.

(** ** A document's JSON value has a text *)

Section values.
Context `{NumberText} `{!NumberTextLaws, !ShortestLaws}.

Lemma raw_text_number s t : raw_text s = Some t → is_json_number t = true.
Proof.
  unfold raw_text. destruct (is_json_number s) eqn:E1; [by intros [= <-]|].
  destruct (is_json_number (rewritten s)) eqn:E2; [by intros [= <-]|].
  destruct (read_number s) as [v| |]; try done. destruct (number_finite v) eqn:Ev; [|done].
  destruct (write_finite v Ev) as (t' & -> & ?). by intros [= <-].
Qed.

Lemma canonical_text_number f t : canonical_text f = Some t → is_json_number t = true.
Proof.
  unfold canonical_text. destruct (is_finite f) eqn:Ef; [|done]. simpl. destruct (is_zero f) eqn:Ez.
  { by intros [= <-]. }
  destruct (write_number (Real f)) as [s|] eqn:Ew; [|done]. simpl.
  destruct (write_shortest f s Ef Ez Ew) as (P & -> & HP & Hs).
  destruct (canonical_trimmed P HP) as (ds & p & -> & [Hds _] & _). simpl. intros [= <-].
  rewrite <- Hs. apply lay_out_number; [|done]. destruct HP as ([->| ->] & _); auto.
Qed.

Lemma formats_ok canonical val : ∀ j, doc_ok val → formats canonical val j → json_ok j = true.
Proof.
  induction val as [|b|v|t|s|items IH|members IH] using yyval_ind'; intros j Hok Hj; simpl in Hj.
  - by subst.
  - by subst.
  - destruct Hj as (t & Ht & ->). by eapply canonical_text_number.
  - destruct Hj as (t' & Ht & ->). by eapply raw_text_number.
  - by subst.
  - destruct Hj as (l & -> & Hl). simpl in Hok |- *. rewrite Forall_fmap in Hok.
    apply forallb_Forall, Forall_forall. intros j Hj. apply list_elem_of_lookup in Hj as [i Hi].
    apply Forall2_fmap_l in Hl. destruct (Forall2_lookup_r _ _ _ _ _ Hl Hi) as (v & Hv & Hf).
    rewrite Forall_forall in IH, Hok. apply list_elem_of_lookup_2 in Hv. apply (IH v); [done|by apply Hok|done].
  - destruct Hj as (m & m' & -> & Hm & Ho). destruct Hok as [Hk Hall]. rewrite Forall_fmap in Hall.
    apply Forall2_fmap_l in Hm. simpl. apply forallb_Forall, Forall_forall. intros kj Hkj.
    assert (kj ∈ m) as Hin by (destruct canonical; [destruct Ho as [<- _]|subst]; done).
    apply list_elem_of_lookup in Hin as [i Hi].
    destruct (Forall2_lookup_r _ _ _ _ _ Hm Hi) as (kv & Hkv & Hkey & Hf). apply list_elem_of_lookup_2 in Hkv.
    rewrite Forall_forall in IH, Hk, Hall. rewrite Hkey. apply andb_true_iff. split; [by apply (Hk kv)|].
    apply (IH kv); [done|by apply (Hall kv)|done].
Qed.

(** ** Values the same *)

(** Two documents of one value: numbers the same double, members in any
    order. *)
#[local] Unset Elimination Schemes.
Inductive same_value : yyval → yyval → Prop :=
  | same_null : same_value YNull YNull
  | same_bool b : same_value (YBool b) (YBool b)
  | same_num v w : number_double v = number_double w → same_value (YNum v) (YNum w)
  | same_zero v w : is_zero (number_double v) = true → is_zero (number_double w) = true →
      same_value (YNum v) (YNum w)
  | same_raw t : same_value (YRaw t) (YRaw t)
  | same_str s : same_value (YStr s) (YStr s)
  | same_arr l l' : Forall2 same_value l l' → same_value (YArr l) (YArr l')
  | same_obj m m1 m' : m ≡ₚ m1 →
      Forall2 (λ a b, key_bytes a.1 = key_bytes b.1 ∧ same_value a.2 b.2) m1 m' →
      same_value (YObj m) (YObj m').
#[local] Set Elimination Schemes.

Lemma is_zero_finite f : is_zero f = true → is_finite f = true.
Proof. by destruct f. Qed.

Lemma canonical_text_same v w : same_value (YNum v) (YNum w) →
  canonical_text (number_double v) = canonical_text (number_double w).
Proof.
  inversion 1 as [| |? ? E|? ? E1 E2| | | |]; subst; [by rewrite E|].
  unfold canonical_text. by rewrite (is_zero_finite _ E1), (is_zero_finite _ E2), E1, E2.
Qed.

(** Sorted members with distinct keys are in one order. *)
Lemma sorted_members_unique (m m' : list (bytes * json)) :
  m ≡ₚ m' → NoDup m.*1 → Forall (λ k, text_ok k = true) m.*1 →
  StronglySorted key_le m.*1 → StronglySorted key_le m'.*1 → m = m'.
Proof.
  intros Hperm Hnd Hok Hs Hs'.
  assert (∀ l : list (bytes * json), StronglySorted key_le l.*1 → StronglySorted (λ x y, key_le x.1 y.1) l) as Hpull.
  { clear. intros l. induction l as [|x l IH]; intros H; [constructor|].
    rewrite fmap_cons in H. apply StronglySorted_inv in H as [H Hx]. constructor; [by apply IH|].
    exact (proj1 (Forall_fmap fst _ _) Hx). }
  eapply (StronglySorted_unique_strong (λ x y : bytes * json, key_le x.1 y.1)); [|by apply Hpull..|done].
  intros x y Hx Hy Hxy Hyx. rewrite <- Hperm in Hy.
  rewrite Forall_forall in Hok.
  assert (x.1 = y.1) as E.
  { apply key_le_antisym; [apply Hok, list_elem_of_fmap_2, Hx|apply Hok, list_elem_of_fmap_2, Hy|done|done]. }
  apply list_elem_of_lookup in Hx as [i Hi]. apply list_elem_of_lookup in Hy as [k Hk].
  assert (i = k) as ->.
  { apply (NoDup_lookup m.*1 i k x.1 Hnd); [by rewrite list_lookup_fmap, Hi|by rewrite list_lookup_fmap, Hk, E]. }
  congruence.
Qed.

Lemma canonical_same val : ∀ val' j j',
  doc_ok val → distinct val → same_value val val' →
  formats true val j → formats true val' j' → j = j'.
Proof.
  induction val as [|b|v|t|s|items IH|members IH] using yyval_ind'; intros val' j j' Hok Hd Hsame Hj Hj'.
  - inversion Hsame; subst; simpl in *. congruence.
  - inversion Hsame; subst; simpl in *. congruence.
  - assert (∃ w, val' = YNum w) as [w ->] by (inversion Hsame; eauto).
    destruct Hj as (u & Hu & ->), Hj' as (u' & Hu' & ->). rewrite (canonical_text_same v w) in Hu by done.
    congruence.
  - inversion Hsame; subst. destruct Hj as (u & Hu & ->), Hj' as (u' & Hu' & ->). congruence.
  - inversion Hsame; subst; simpl in *. congruence.
  - inversion Hsame as [| | | | | |? items' Hs|]; subst. destruct Hj as (l & -> & Hl), Hj' as (l' & -> & Hl').
    f_equal. apply Forall2_fmap_l in Hl, Hl'. simpl in Hok, Hd. rewrite Forall_fmap in Hok, Hd. clear Hsame.
    revert l l' Hl Hl'. induction Hs as [|v w items items' Hvw Hs IHs]; intros l l' Hl Hl'.
    { apply Forall2_nil_inv_l in Hl, Hl'. by subst. }
    apply Forall2_cons_inv_l in Hl as (j & ls & Hvj & Hl & ->).
    apply Forall2_cons_inv_l in Hl' as (j' & ls' & Hwj & Hl' & ->).
    apply Forall_cons in IH as [IHv IH]. apply Forall_cons in Hok as [Hov Hok]. apply Forall_cons in Hd as [Hdv Hd].
    f_equal; [by apply (IHv w)|by apply IHs].
  - inversion Hsame as [| | | | | | |? m1 members' Hp Hs]; subst.
    destruct Hj as (m & o & -> & Hm & Ho & Hsort), Hj' as (m' & o' & -> & Hm' & Ho' & Hsort').
    apply Forall2_fmap_l in Hm, Hm'. destruct Hok as [Hk Hok], Hd as [Hnd Hd]. rewrite Forall_fmap in Hok, Hd.
    assert (m.*1 = keys_of members) as Hkeys.
    { clear -Hm. induction Hm as [|a b l l' [E _] _ IH]; [done|]. unfold keys_of in *. csimpl. by rewrite E, IH. }
    destruct (Permutation_Forall2 Hp Hm) as (n & Hmn & Hn).
    assert (n = m') as ->.
    { rewrite Hp in IH, Hok, Hd. clear -IH Hs Hn Hm' Hok Hd.
      revert n m' Hn Hm'. induction Hs as [|a b l l' [Eab Hab] Hs IHs]; intros n m' Hn Hm'.
      { apply Forall2_nil_inv_l in Hn, Hm'. by subst. }
      apply Forall2_cons_inv_l in Hn as ([k j] & ns & [Ek Hj] & Hn & ->).
      apply Forall2_cons_inv_l in Hm' as ([k' j'] & ms & [Ek' Hj'] & Hm' & ->). simpl in *.
      apply Forall_cons in IH as [IHa IH]. apply Forall_cons in Hok as [Hoa Hok]. apply Forall_cons in Hd as [Hda Hd].
      f_equal; [|by apply IHs]. f_equal; [congruence|by apply (IHa b.2)]. }
    f_equal. apply sorted_members_unique; [by rewrite Ho, Ho', Hmn| | |done|done].
    + rewrite Ho, Hkeys. exact Hnd.
    + rewrite Ho, Hkeys. unfold keys_of. by apply Forall_fmap.
Qed.

End values.

(** ** The theorems *)

Section theorems.
Context `{A : Allocator, N : NumberText, Q : Qsort, R : JsonReader, LI : LuaIntegers, LS : LuaStrings}.
Context `{!NumberTextLaws, !ShortestLaws, !QsortLaws, !JsonReaderLaws}.

(** What a walk that started on an empty encoding leaves. *)
Lemma put_text_value_outcome st canonical doc :
  doc_ok doc →
  match put_text_value st canonical doc 0 new_encoding with
  | (e, true) => ∃ j, formats canonical doc j ∧ e_text e = print st 0 j
  | (e, false) =>
      failure_message e = lit "out of memory" ∨
      ∃ why segs, unformattable doc segs ∧
        failure_message e = if bool_decide (p_text (path_of segs) = []) then why
                            else why ++ lit " at " ++ push_path (path_of segs)
  end.
Proof.
  intros Hok. destruct (put_text_value_spec st canonical doc Hok 0%nat) as (w & Hw & Hs).
  specialize (Hw _ sound_new). unfold outcome_within, format_spec in *.
  destruct (put_text_value st canonical doc 0 new_encoding) as [e [|]].
  - destruct Hw as (Hn & _ & ->). rewrite Hn in Hs. done.
  - unfold failure_message. destruct Hw as [(Hoom & Hwhy & _)|(why & segs & Hr & Hoom & Hwhy & Hpath)].
    + left. by rewrite Hoom, orb_true_r.
    + right. rewrite Hr in Hs. exists why, segs. split; [done|]. by rewrite Hoom, orb_false_r, Hwhy, Hpath.
Qed.

(** C6: the canonical form names the value: two documents of one value --
    their members in any order, their numbers the same doubles -- that have
    no key twice are written the same, byte for byte. *)
Theorem canonical_form_unique doc doc' e e' st :
  doc_ok doc → doc_ok doc' → distinct doc → same_value doc doc' →
  put_text_value st true doc 0 new_encoding = (e, true) →
  put_text_value st true doc' 0 new_encoding = (e', true) →
  e_text e = e_text e'.
Proof.
  intros Hok Hok' Hd Hsame He He'.
  pose proof (put_text_value_outcome st true doc Hok) as Ho. rewrite He in Ho.
  pose proof (put_text_value_outcome st true doc' Hok') as Ho'. rewrite He' in Ho'.
  destruct Ho as (j & Hj & ->), Ho' as (j' & Hj' & ->). by rewrite (canonical_same doc doc' j j').
Qed.

(** What [format] answers. It raises for its arguments alone; its text is
    that of the document read, its members in order, and reads back to that
    value; and it refuses what [check] refuses, with its message, or names
    the number that has no text. *)
Theorem json_format_writes text max_depth json5 lone hash dup pretty canonical :
  let c := to_boolean canonical in
  let checked := json_check text max_depth json5 lone hash dup LNil in
  match json_format text max_depth json5 lone hash dup pretty canonical with
  | Raises message => checked = Raises message
  | Answers out =>
      checked = Answers () ∧ ∃ text' flags doc j,
        yyjson_read_opts text' flags = inl doc ∧ formats c doc j ∧
        out = print (Layout (negb c && to_boolean pretty) 0 false) 0 j ∧ parse out = Some j
  | Refuses message =>
      checked = Refuses message ∨
      checked = Answers () ∧
      ((c = false ∧ ∃ text' flags l err, yyjson_read_opts text' flags = inr err ∧
          message = read_failure text' l err) ∨
       message = lit "out of memory" ∨
       ∃ text' flags doc why segs, yyjson_read_opts text' flags = inl doc ∧ unformattable doc segs ∧
         message = if bool_decide (p_text (path_of segs) = []) then why
                   else why ++ lit " at " ++ push_path (path_of segs))
  end.
Proof.
  cbn zeta. unfold json_format, json_check. destruct (lua_tolstring text) as [s|]; [|done].
  destruct (read_options s max_depth json5 lone hash dup) as [r|]; [|done]. simpl to_boolean. cbn iota.
  destruct (read_text r true) as [r' [doc|message]] eqn:Er; [|by left]. cbn zeta.
  set (st := Layout _ 0 false).
  set (again := if to_boolean canonical then _ else _).
  assert (match again with
    | inl doc => ∃ text' flags, yyjson_read_opts text' flags = inl doc
    | inr message => to_boolean canonical = false ∧ ∃ text' flags l err,
        yyjson_read_opts text' flags = inr err ∧ message = read_failure text' l err end) as Hagain.
  { unfold again. destruct (to_boolean canonical).
    - unfold read_text in Er. destruct (read_repaired r) as [r1 [doc1|err]] eqn:E1; [|done].
      apply read_repaired_keeps in E1 as (_ & _ & _ & _ & _ & _ & Hread & _). simpl in Er.
      case_match; [done|]. injection Er as <- <-. eauto.
    - unfold read_text. set (r2 := with_flags r' _). destruct (read_repaired r2) as [r1 [doc1|err]] eqn:E1; simpl.
      + apply read_repaired_keeps in E1 as (_ & _ & _ & _ & _ & _ & Hread & _). eauto.
      + apply read_repaired_keeps in E1 as (_ & _ & _ & _ & _ & _ & _ & Hread).
        split; [done|]. exists (r_text r1), (r_flags r2), (r_layout r1), err. by split; [apply Hread|]. }
  destruct again as [doc'|message].
  2: { right. split; [done|]. by left. }
  destruct Hagain as (text' & flags & Hread). pose proof (reader_doc_ok _ _ _ Hread) as Hok.
  pose proof (put_text_value_outcome st (to_boolean canonical) doc' Hok) as Ho.
  destruct (put_text_value st (to_boolean canonical) doc' 0 new_encoding) as [e [|]].
  - split; [done|]. destruct Ho as (j & Hj & ->). exists text', flags, doc', j. split_and!; [done..|].
    apply print_reads. by eapply formats_ok.
  - right. split; [done|]. right. destruct Ho as [->|(why & segs & Hu & ->)]; [by left|]. right.
    by exists text', flags, doc', why, segs.
Qed.

End theorems.

(** ** Witness *)

Import Example.

Lemma canonical_form_unique_witness :
  let key s := YKey s 0 in
  let doc := YObj [(key [0x62], YNum (SInt 0)); (key [0x61], YArr [YNull])] in
  let doc' := YObj [(key [0x61], YArr [YNull]); (key [0x62], YNum (Real (S754_zero true)))] in
  doc ≠ doc' ∧
  e_text (put_text_value (Layout false 0 false) true doc 0 new_encoding).1 =
  e_text (put_text_value (Layout false 0 false) true doc' 0 new_encoding).1.
Proof.
  cbn zeta. split; [discriminate|].
  set (doc := YObj [(YKey [0x62] 0, YNum (SInt 0)); (YKey [0x61] 0, YArr [YNull])]).
  set (doc' := YObj [(YKey [0x61] 0, YArr [YNull]); (YKey [0x62] 0, YNum (Real (S754_zero true)))]).
  destruct (put_text_value (Layout false 0 false) true doc 0 new_encoding) as [e ok] eqn:E.
  destruct (put_text_value (Layout false 0 false) true doc' 0 new_encoding) as [e' ok'] eqn:E'.
  assert (ok = true ∧ ok' = true) as [-> ->] by (split; [vm_compute in E|vm_compute in E']; congruence).
  apply (canonical_form_unique doc doc' e e' (Layout false 0 false)); [| | | |done|done].
  - repeat constructor.
  - repeat constructor.
  - split; [|repeat constructor]. apply (bool_decide_unpack _). vm_compute. exact Logic.I.
  - eapply same_obj; [apply Permutation_swap|].
    repeat constructor; by apply same_zero.
Defined.

(** A reader of one text, and a writer of one digit. *)
Module Reader.

#[export] Instance number_text : NumberText := {|
  write_number v :=
    if number_finite v then
      Some ((match v with Real f => if is_negative f then [MINUS] else [] | _ => [] end) ++ [0x31])
    else None;
  read_number _ := NumberRefused |}.

#[export] Instance number_text_laws : NumberTextLaws.
Proof.
  intros v Hv. eexists. simpl. rewrite Hv. split; [done|].
  destruct v as [| |f]; simpl; [done..|]. by destruct (is_negative f).
Defined.

#[export] Instance shortest_laws : ShortestLaws.
Proof.
  intros f t Hf _ Ht. simpl in Ht. rewrite Hf in Ht. injection Ht as <-.
  exists (Parts (if is_negative f then [MINUS] else []) [0x31] false [] []). split_and!; [done| |done].
  split_and!; simpl; [destruct (is_negative f); auto| |constructor|by left|done|done|unfold DIGITS; lia].
  right. exists 0x31, []. split_and!; auto; lia.
Defined.

#[export] Instance reader : JsonReader := {|
  READ_NOFLAG := 0; READ_JSON5 := 1; READ_BIGNUM_AS_RAW := 2; READ_NUMBER_AS_RAW := 4;
  yyjson_read_opts text flags :=
    if bool_decide (text = lit "{b:[2],a:2}") then
      let two := if Z.testbit flags 2 then YRaw [0x32] else YNum (SInt 2) in
      inl (YObj [(YKey [0x62] 1, YArr [two]); (YKey [0x61] 7, two)])
    else inr (ReadErr READ_OTHER (Some (lit "unexpected character")) 0) |}.

#[export] Instance reader_laws : JsonReaderLaws.
Proof.
  intros text flags doc. unfold yyjson_read_opts, reader. generalize (Z.testbit flags 2). intros raw.
  case_bool_decide; [|done]. intros [= <-].
  assert (∀ members, doc_ok (YObj [(YKey [0x62] 1, YArr [members]); (YKey [0x61] 7, members)]) ↔
    doc_ok members) as Hok.
  { intros two. split; [by intros [_ [_ [Hd _]%Forall_cons]%Forall_cons]|]. intros Hd.
    split; [by repeat constructor|]. repeat constructor; done. }
  apply Hok. destruct raw; [split; [simpl; lia|done]|exact Logic.I].
Defined.

#[export] Instance strings : LuaStrings := λ v, match v with LString s => Some s | _ => None end.

End Reader.

Import Reader.

Lemma json_format_writes_witness :
  json_format (LString (lit "{b:[2],a:2}")) LNil LNil LNil LNil LNil LNil (LBool true)
  = Answers (lit "{" ++ [QUOTE; 0x61; QUOTE] ++ lit ":1," ++ [QUOTE; 0x62; QUOTE] ++ lit ":[1]}") ∧
  ∃ j, formats true
    (YObj [(YKey [0x62] 1, YArr [YNum (SInt 2)]); (YKey [0x61] 7, YNum (SInt 2))]) j.
Proof.
  pose proof (json_format_writes (LString (lit "{b:[2],a:2}"))
    LNil LNil LNil LNil LNil LNil (LBool true)) as Hw. cbn zeta in Hw.
  assert (json_format (LString (lit "{b:[2],a:2}")) LNil LNil LNil LNil LNil LNil (LBool true)
    = Answers (lit "{" ++ [QUOTE; 0x61; QUOTE] ++ lit ":1," ++ [QUOTE; 0x62; QUOTE] ++ lit ":[1]}")) as E
    by (vm_compute; reflexivity).
  rewrite E in Hw. split; [exact E|]. destruct Hw as (_ & text' & flags & doc & j & Hread & Hj & _).
  revert Hread. unfold yyjson_read_opts, reader. generalize (Z.testbit flags 2). intros raw.
  case_bool_decide; [|discriminate]. intros [= <-]. destruct raw; [|by exists j].
  exists (JObject [([0x61], JNumber [0x31]); ([0x62], JArray [JNumber [0x31]])]).
  exists [([0x62], JArray [JNumber [0x31]]); ([0x61], JNumber [0x31])], [([0x61], JNumber [0x31]); ([0x62], JArray [JNumber [0x31]])].
  split; [done|]. split.
  - repeat constructor; simpl.
    + exists [JNumber [0x31]]. split; [done|]. repeat constructor. by exists [0x31].
    + by exists [0x31].
  - split; [apply Permutation_swap|]. repeat constructor. vm_compute. discriminate.
Defined.
