(* ===== verification/JsonPosition.v ===== *)
(** * Lines, columns and lone surrogates

    [position] and [repair_surrogates] of [core/json.c] against what they
    promise: a place in a text is counted in its lines, and a repaired text
    has no lone surrogate escape left. *)

From S2P Require Import Prelude.
From S2P Require Import Texts.
From S2P Require Import Utf8.
From S2P Require Import JsonPath.
From S2P Require Import JsonString.
From S2P Require Import JsonNumber.
From S2P Require Import Lua.
From S2P Require Import JsonEncode.
From S2P Require Import JsonDecode.
From S2P Require Import JsonRead.

Local Open Scope Z_scope.

(** ** Lines *)

(** What ends a line. *)
Definition line_end (json5 : bool) (e : bytes) : Prop :=
  e = [LF] ∨ e = [CR; LF] ∨ e = [CR] ∨
  (json5 = true ∧ ∃ c, (c = 0xa8 ∨ c = 0xa9) ∧ e = [0xe2; 0x80; c]).

(** A stretch of a text that holds no line's end. *)
Definition plain (json5 : bool) (l : bytes) : Prop :=
  ∀ a e b, l = a ++ e ++ b → ¬ line_end json5 e.

(** A text as its lines, their ends left out; [\r\n] is one end. *)
Inductive lines (json5 : bool) : bytes → list bytes → Prop :=
  | lines_last l : plain json5 l → lines json5 l [l]
  | lines_more l e s ls :
      plain json5 l → line_end json5 e → (e = [CR] → head s ≠ Some LF) → lines json5 s ls →
      lines json5 (l ++ e ++ s) (l :: ls).

Lemma plain_inv json5 c l : plain json5 (c :: l) → plain json5 l.
Proof. intros Hp a e b ->. by apply (Hp (c :: a) e b). Qed.

Lemma plain_head json5 c l : plain json5 (c :: l) → (c =? LF) || (c =? CR) = false.
Proof.
  intros Hp. apply orb_false_iff. rewrite !Z.eqb_neq.
  split; intros ->; [apply (Hp [] [LF] l)|apply (Hp [] [CR] l)]; try done; [by left|by right; right; left].
Qed.

Lemma plain_separator c n n2 l : plain true (c :: n :: n2 :: l) → separator_bytes c n n2 = false.
Proof.
  intros Hp. apply not_true_is_false. intros E. unfold separator_bytes in E.
  rewrite !andb_true_iff, orb_true_iff, !Z.eqb_eq in E.
  destruct E as [[-> ->] E]. apply (Hp [] [0xe2; 0x80; n2] l); [done|]. right. right. right. eauto.
Qed.

(** A separator does not start in a plain stretch, whatever end follows it. *)
Lemma no_separator json5 c l e s :
  plain json5 (c :: l) → line_end json5 e ∨ e = [] ∧ s = [] →
  match l ++ e ++ s with
  | n :: n2 :: _ => json5 && separator_bytes c n n2 = false
  | _ => True
  end.
Proof.
  intros Hp He. destruct json5; [|by repeat case_match]. simpl.
  assert (∀ x r, e ++ s = x :: r → x = LF ∨ x = CR ∨ x = 0xe2) as Hx.
  { intros x r E0. destruct He as [He|[-> ->]]; [|done].
    destruct He as [->|[->|[->|(_ & ? & _ & ->)]]]; injection E0 as <- _; auto. }
  destruct l as [|n [|n2 l]]; cbn [app].
  - destruct (e ++ s) as [|x [|y r]] eqn:E; [done|done|]. unfold separator_bytes.
    destruct (Hx x (y :: r) eq_refl) as [->|[->| ->]]; by rewrite ?andb_false_r.
  - destruct (e ++ s) as [|x r] eqn:E; [done|]. unfold separator_bytes.
    destruct (Hx x r eq_refl) as [->|[->| ->]]; by rewrite ?andb_false_r.
  - by eapply plain_separator.
Qed.

Lemma u64_add x y : u64 (u64 x + y) = u64 (x + y).
Proof. unfold u64. by rewrite Zplus_mod_idemp_l. Qed.

(** The loop over a plain stretch counts its bytes. *)
Lemma position_plain json5 line l : ∀ column e s,
  plain json5 l → line_end json5 e ∨ e = [] ∧ s = [] →
  position_loop json5 line (u64 column) (l ++ e ++ s)
  = position_loop json5 line (u64 (column + Z.of_nat (length l))) (e ++ s).
Proof.
  induction l as [|c l IH]; intros column e s Hp He; [by rewrite Z.add_0_r|].
  pose proof (plain_head _ _ _ Hp) as Hc. pose proof (no_separator _ _ _ e s Hp He) as Hsep.
  assert ((if (c =? LF) || (c =? CR) then position_loop json5 (u64 (line + 1)) 1 (l ++ e ++ s)
    else position_loop json5 line (u64 (u64 column + 1)) (l ++ e ++ s)) =
    position_loop json5 line (u64 (column + Z.of_nat (length (c :: l)))) (e ++ s)) as Hstep.
  { rewrite Hc, u64_add, (IH (column + 1)) by (by eapply plain_inv || done). do 2 f_equal. simpl. lia. }
  cbn [app position_loop]. apply orb_false_iff in Hc as [Hlf Hcr].
  destruct (l ++ e ++ s) as [|n [|n2 r]]; [exact Hstep| |]; rewrite Hcr in Hstep |- *; cbn [andb]; [exact Hstep|].
  rewrite Hsep. exact Hstep.
Qed.

(** An end of a line starts the next. *)
Lemma position_end json5 line column e s :
  line_end json5 e → (e = [CR] → head s ≠ Some LF) →
  position_loop json5 line column (e ++ s) = position_loop json5 (u64 (line + 1)) (u64 1) s.
Proof.
  intros [->|[->|[->|(-> & c & Hc & ->)]]] Hcr; cbn [app position_loop].
  - destruct s as [|n [|n2 r]]; [done|done|]. by destruct json5.
  - done.
  - specialize (Hcr eq_refl). destruct s as [|n r]; [done|].
    assert ((n =? LF) = false) as Hn by (apply Z.eqb_neq; simpl in Hcr; congruence).
    rewrite Hn. cbn [andb]. destruct r; [done|]. by destruct json5.
  - cbn. destruct Hc as [->| ->]; reflexivity.
Qed.

Lemma position_lines json5 s ls : lines json5 s ls → ∀ line column,
  position_loop json5 (u64 line) (u64 column) s =
  (u64 (line + Z.of_nat (length ls - 1)),
   u64 ((if (length ls =? 1)%nat then column else 1) + Z.of_nat (length (List.last ls [])))).
Proof.
  induction 1 as [l Hp|l e s ls Hp He Hcr Hls IH]; intros line column.
  - pose proof (position_plain json5 (u64 line) l column [] [] Hp ltac:(by right)) as E.
    rewrite !app_nil_r in E. rewrite E. simpl. by rewrite Z.add_0_r.
  - rewrite position_plain by (done || by left). rewrite position_end by done.
    rewrite u64_add, IH. assert (length ls ≠ 0)%nat as Hne by (by destruct Hls).
    destruct ls as [|l1 ls]; [done|]. simpl length.
    f_equal; [f_equal; lia|]. f_equal. replace (S (S (length ls)) =? 1)%nat with false by done.
    change (List.last (l :: l1 :: ls) []) with (List.last (l1 :: ls) []).
    destruct (S (length ls) =? 1)%nat; done.
Qed.


(** A byte that starts no end joins the line after it. *)
Lemma lines_cons json5 c s ls :
  (c =? LF) || (c =? CR) = false →
  match s with n :: n2 :: _ => json5 && separator_bytes c n n2 = false | _ => True end →
  lines json5 s ls → ∃ ls', lines json5 (c :: s) ls'.
Proof.
  intros Hc Hsep Hls. apply orb_false_iff in Hc as [Hlf%Z.eqb_neq Hcr%Z.eqb_neq].
  assert (∀ l r, s = l ++ r → plain json5 l → plain json5 (c :: l)) as Hplain.
  { intros l r -> Hp [|x a] e b E He.
    - destruct He as [->|[->|[->|(-> & x & Hx & ->)]]]; simpl in E; try (injection E; congruence).
      destruct l as [|n [|n2 l]]; [done|done|]. injection E as -> -> -> _. cbn in Hsep.
      by destruct Hx as [->| ->].
    - injection E as -> E. by apply (Hp a e b). }
  destruct Hls as [l Hp|l e s ls Hp He Hcrlf Hls].
  - exists [c :: l]. apply lines_last, (Hplain l []); [by rewrite app_nil_r|done].
  - exists ((c :: l) :: ls). apply (lines_more json5 (c :: l) e s); [by eapply Hplain|done..].
Qed.

Lemma plain_nil json5 : plain json5 [].
Proof.
  intros a e b E He. symmetry in E. apply app_eq_nil in E as [_ E]. apply app_eq_nil in E as [-> _].
  by destruct He as [|[|[|(_ & ? & _ & ?)]]].
Qed.

Lemma lines_exist json5 s : ∃ ls, lines json5 s ls.
Proof.
  remember (length s) as n eqn:Hn. revert s Hn. induction n as [n IH] using lt_wf_ind. intros s ->.
  assert (∀ e r, s = e ++ r → line_end json5 e → (e = [CR] → head r ≠ Some LF) → ∃ ls, lines json5 s ls) as Hend.
  { intros e r -> He Hcr. destruct (IH (length r)) with (s := r) as [ls Hls]; [|done|].
    - rewrite length_app. destruct He as [->|[->|[->|(_ & ? & _ & ->)]]]; simpl; lia.
    - exists ([] :: ls). by apply (lines_more json5 [] e r); [apply plain_nil|..]. }
  destruct s as [|c s]; [exists [[]]; apply lines_last, plain_nil|].
  destruct (Z.eqb_spec c LF) as [->|Hlf]; [apply (Hend [LF] s); [done|by left|done]|].
  destruct (Z.eqb_spec c CR) as [->|Hcr].
  { destruct (decide (head s = Some LF)) as [Hh|Hh].
    - destruct s as [|x s]; [done|]. injection Hh as ->. apply (Hend [CR; LF] s); [done|by right; left|done].
    - apply (Hend [CR] s); [done|by right; right; left|done]. }
  assert ((match s with n :: n2 :: _ => json5 && separator_bytes c n n2 = false | _ => True end) ∨
    ∃ n2 r, json5 = true ∧ (n2 = 0xa8 ∨ n2 = 0xa9) ∧ c :: s = [0xe2; 0x80; n2] ++ r) as [Hsep|(n2 & r & Hj & Hn2 & E)].
  { destruct s as [|n1 [|n2 r]]; [by left|by left|]. destruct (json5 && separator_bytes c n1 n2) eqn:E; [|by left].
    right. unfold separator_bytes in E. rewrite !andb_true_iff, orb_true_iff, !Z.eqb_eq in E.
    destruct E as [-> [[-> ->] E]]. by exists n2, r. }
  - destruct (IH (length s)) with (s := s) as [ls Hls]; [simpl; lia|done|].
    eapply lines_cons; [|done|done]. by apply orb_false_iff; rewrite !Z.eqb_neq.
  - apply (Hend [0xe2; 0x80; n2] r); [done| |by intros [=]]. right. right. right. eauto.
Qed.

(** Where a failure says it is. A record is its own line; anywhere else
    the line is counted in the ends of lines before the place -- [\n], [\r],
    [\r\n] as one, and in JSON5 U+2028 and U+2029 -- and the column in the
    bytes since the last, both from where the text itself starts. *)
Theorem position_counts_lines text pos l :
  (0 < l_record l → position text pos l = (u64 (l_record l), u64 (Z.of_nat pos + 1))) ∧
  (l_record l ≤ 0 →
    (∃ ls, lines (l_json5 l) (take pos text) ls) ∧
    ∀ ls, lines (l_json5 l) (take pos text) ls →
      position text pos l =
      (u64 (l_line l + Z.of_nat (length ls - 1)),
       u64 ((if (length ls =? 1)%nat then l_column l else 1) + Z.of_nat (length (List.last ls []))))).
Proof.
  unfold position. split; intros Hr.
  - by rewrite (proj2 (Z.ltb_lt _ _) Hr).
  - rewrite (proj2 (Z.ltb_ge _ _) Hr). split; [apply lines_exist|]. intros ls Hls. by apply position_lines.
Qed.

(** ** Lone surrogates *)

(** What a text's escapes and bytes are, in order: [\u] and four digits, any
    other two bytes after a backslash, or one byte. *)
Inductive piece := Unit (digits : bytes) | Escape (c : Z) | Plain (c : Z).

Definition piece_text (p : piece) : bytes :=
  match p with
  | Unit ds => BACKSLASH :: LETTER_U :: ds
  | Escape c => [BACKSLASH; c]
  | Plain c => [c]
  end.

Definition high (p : piece) : Prop :=
  match p with Unit ds => 0xd800 ≤ hex4 ds ≤ 0xdbff | _ => False end.
Definition low (p : piece) : Prop :=
  match p with Unit ds => 0xdc00 ≤ hex4 ds ≤ 0xdfff | _ => False end.

(** A replaced escape. *)
Definition replacement : piece := Unit (lit "fffd").

(** What becomes of a text's pieces: a high surrogate and a low one after it
    are left, any other surrogate is replaced; [count] of them. *)
Inductive repaired : list piece → list piece → nat → Prop :=
  | repaired_nil : repaired [] [] 0
  | repaired_keep p ps qs n : ¬ high p → ¬ low p → repaired ps qs n → repaired (p :: ps) (p :: qs) n
  | repaired_pair p q ps qs n : high p → low q → repaired ps qs n → repaired (p :: q :: ps) (p :: q :: qs) n
  | repaired_high p ps qs n :
      high p → (∀ q ps', ps = q :: ps' → ¬ low q) → repaired ps qs n →
      repaired (p :: ps) (replacement :: qs) (S n)
  | repaired_low p ps qs n : low p → repaired ps qs n → repaired (p :: ps) (replacement :: qs) (S n).

(** The pieces of a text, as its bytes are read from the left. *)
Inductive pieces : bytes → list piece → Prop :=
  | pieces_nil : pieces [] []
  | pieces_plain c s ps : c ≠ BACKSLASH ∨ s = [] → pieces s ps → pieces (c :: s) (Plain c :: ps)
  | pieces_unit d1 d2 d3 d4 s ps : 0 ≤ hex4 [d1; d2; d3; d4] →
      pieces s ps → pieces (BACKSLASH :: LETTER_U :: d1 :: d2 :: d3 :: d4 :: s) (Unit [d1; d2; d3; d4] :: ps)
  | pieces_escape c s ps :
      (c = LETTER_U → (length s < 4)%nat ∨ hex4 s < 0) → pieces s ps →
      pieces (BACKSLASH :: c :: s) (Escape c :: ps).

Lemma hex4_digits a b c d : 0 ≤ hex4 [a; b; c; d] →
  a ≠ BACKSLASH ∧ b ≠ BACKSLASH ∧ c ≠ BACKSLASH ∧ d ≠ BACKSLASH.
Proof.
  assert (∀ x, x = BACKSLASH → (hex_value x <? 0) = true) as Hx by (by intros x ->).
  unfold hex4. cbn [take hex_run]. intros H.
  split_and!; intros E; rewrite (Hx _ E) in H; repeat case_match; lia.
Qed.

Lemma hex4_take s : hex4 s = hex4 (take 4 s).
Proof. unfold hex4. by rewrite take_take. Qed.

(** One turn of the loop. *)
Definition emit (t : bytes) (r : bytes * nat) : bytes * nat := (t ++ r.1, r.2).

Lemma repair_plain fuel c s :
  c ≠ BACKSLASH ∨ s = [] → repair_loop (S fuel) (c :: s) = emit [c] (repair_loop fuel s).
Proof.
  intros Hc. cbn [repair_loop]. replace (negb (c =? BACKSLASH) || (length (c :: s) <=? 1)%nat) with true.
  - change (drop 1 (c :: s)) with s. change (take 1 (c :: s)) with [c]. unfold emit.
    by destruct (repair_loop fuel s).
  - destruct Hc as [Hc| ->]; [by rewrite (proj2 (Z.eqb_neq _ _) Hc)|by rewrite orb_true_r].
Qed.

Lemma repair_escape fuel c s :
  (c = LETTER_U → (length s < 4)%nat ∨ ¬ (0xd800 ≤ hex4 s ≤ 0xdfff)) →
  repair_loop (S fuel) (BACKSLASH :: c :: s) = emit [BACKSLASH; c] (repair_loop fuel s).
Proof.
  intros Hu. cbn [repair_loop]. replace (negb (BACKSLASH =? BACKSLASH) || (length (BACKSLASH :: c :: s) <=? 1)%nat)
    with false by done.
  change (drop 2 (BACKSLASH :: c :: s)) with s. change (take 2 (BACKSLASH :: c :: s)) with [BACKSLASH; c].
  change ((BACKSLASH :: c :: s) !! 1%nat) with (Some c). unfold emit.
  destruct (repair_loop fuel s) as [t n]. case_bool_decide as Ec; simpl orb; [|done].
  destruct (Nat.ltb_spec (S (S (length s))) 6); [done|]. injection Ec as ->.
  destruct (Hu eq_refl) as [?|Hno]; [lia|].
  destruct (Z.ltb_spec (hex4 s) 0xd800), (Z.ltb_spec 0xdfff (hex4 s)); simpl; done || lia.
Qed.

Lemma emit_emit a b r : emit a (emit b r) = emit (a ++ b) r.
Proof. unfold emit. simpl. by rewrite app_assoc. Qed.

(** A unit that is no surrogate: its digits are then plain. *)
Lemma repair_unit fuel d1 d2 d3 d4 s :
  0 ≤ hex4 [d1; d2; d3; d4] → ¬ (0xd800 ≤ hex4 [d1; d2; d3; d4] ≤ 0xdfff) →
  repair_loop (S (S (S (S (S fuel))))) (BACKSLASH :: LETTER_U :: d1 :: d2 :: d3 :: d4 :: s)
  = emit (piece_text (Unit [d1; d2; d3; d4])) (repair_loop fuel s).
Proof.
  intros H0 Hno. destruct (hex4_digits _ _ _ _ H0) as (H1 & H2 & H3 & H4).
  rewrite repair_escape by (intros _; right; by rewrite hex4_take).
  rewrite !repair_plain by auto. by rewrite !emit_emit.
Qed.

(** A surrogate, and what decides whether it stays. *)
Lemma repair_surrogate fuel d1 d2 d3 d4 s :
  0xd800 ≤ hex4 [d1; d2; d3; d4] ≤ 0xdfff →
  repair_loop (S fuel) (BACKSLASH :: LETTER_U :: d1 :: d2 :: d3 :: d4 :: s) =
  match s with
  | b :: u :: ds =>
      if (hex4 [d1; d2; d3; d4] <=? 0xdbff) && (4 <=? length ds)%nat && (b =? BACKSLASH) && (u =? LETTER_U)
         && (0xdc00 <=? hex4 ds) && (hex4 ds <=? 0xdfff)
      then emit (BACKSLASH :: LETTER_U :: d1 :: d2 :: d3 :: d4 :: b :: u :: take 4 ds) (repair_loop fuel (drop 4 ds))
      else let r := repair_loop fuel s in (piece_text replacement ++ r.1, S r.2)
  | _ => let r := repair_loop fuel s in (piece_text replacement ++ r.1, S r.2)
  end.
Proof.
  intros Hs. cbn [repair_loop].
  set (l := BACKSLASH :: LETTER_U :: d1 :: d2 :: d3 :: d4 :: s).
  change (negb (BACKSLASH =? BACKSLASH) || (length l <=? 1)%nat) with false.
  change (l !! 1%nat) with (Some LETTER_U). rewrite (bool_decide_eq_true_2 (Some LETTER_U = Some LETTER_U)) by done.
  change (negb true || (length l <? 6)%nat) with false. cbn iota.
  change (drop 2 l) with (d1 :: d2 :: d3 :: d4 :: s). rewrite (hex4_take (d1 :: d2 :: d3 :: d4 :: s)).
  change (take 4 (d1 :: d2 :: d3 :: d4 :: s)) with [d1; d2; d3; d4].
  set (unit := hex4 [d1; d2; d3; d4]) in *.
  rewrite (proj2 (Z.ltb_ge unit _)), (proj2 (Z.ltb_ge 0xdfff unit)) by lia. cbn [orb].
  change (drop 6 l) with s. change (take 2 l) with [BACKSLASH; LETTER_U].
  destruct s as [|b [|u ds]]; [| |].
  - rewrite andb_false_r. cbn [andb]. by destruct (repair_loop fuel []).
  - rewrite andb_false_r. cbn [andb]. by destruct (repair_loop fuel [b]).
  - replace (12 <=? length l)%nat with (4 <=? length ds)%nat by done.
    change (l !! 6%nat) with (Some b). change (l !! 7%nat) with (Some u). change (drop 8 l) with ds.
    change (drop 12 l) with (drop 4 ds).
    change (take 12 l) with (BACKSLASH :: LETTER_U :: d1 :: d2 :: d3 :: d4 :: b :: u :: take 4 ds).
    replace (bool_decide (Some b = Some BACKSLASH)) with (b =? BACKSLASH).
    2: { destruct (Z.eqb_spec b BACKSLASH) as [->|]; [by rewrite bool_decide_eq_true_2|].
         by rewrite bool_decide_eq_false_2 by congruence. }
    replace (bool_decide (Some u = Some LETTER_U)) with (u =? LETTER_U).
    2: { destruct (Z.eqb_spec u LETTER_U) as [->|]; [by rewrite bool_decide_eq_true_2|].
         by rewrite bool_decide_eq_false_2 by congruence. }
    destruct (_ && _).
    + unfold emit. by destruct (repair_loop fuel (drop 4 ds)).
    + by destruct (repair_loop fuel (b :: u :: ds)).
Qed.

Lemma repaired_left ps qs n : repaired ps qs n → repaired qs qs 0.
Proof.
  assert (¬ high replacement ∧ ¬ low replacement) as [Hh Hl] by (split; vm_compute; intros []; congruence).
  induction 1; [constructor|by apply repaired_keep|by apply repaired_pair|by apply repaired_keep..].
Qed.

Lemma piece_dec p : (high p ∨ low p) ∨ ¬ high p ∧ ¬ low p.
Proof. destruct p as [ds| |]; simpl; [|by right; split; intros []..]. lia. Qed.

(** The second piece of a pair, in the bytes. *)
Lemma pieces_low s ps q :
  pieces s (q :: ps) → low q →
  ∃ e1 e2 e3 e4 r, q = Unit [e1; e2; e3; e4] ∧ s = BACKSLASH :: LETTER_U :: e1 :: e2 :: e3 :: e4 :: r ∧ pieces r ps.
Proof. inversion 1; subst; simpl; intros Hl; [done| |done]. by repeat eexists. Qed.

Lemma pieces_pair b u ds ps :
  pieces (b :: u :: ds) ps → b = BACKSLASH → u = LETTER_U → (4 ≤ length ds)%nat → 0 ≤ hex4 ds →
  ∃ e1 e2 e3 e4 r qs, ds = e1 :: e2 :: e3 :: e4 :: r ∧ ps = Unit [e1; e2; e3; e4] :: qs.
Proof.
  inversion 1 as [|? ? ? [|]|? ? ? ? ? ? ? ?|? ? ? Hno]; subst; intros Hb Hu Hlen Hh; try done.
  - by repeat eexists.
  - destruct (Hno Hu); lia.
Qed.

(** The test for a pair, on a text's pieces. *)
Lemma repair_surrogate_pieces fuel d1 d2 d3 d4 s ps :
  let u := Unit [d1; d2; d3; d4] in
  pieces s ps → 0xd800 ≤ hex4 [d1; d2; d3; d4] ≤ 0xdfff →
  (∃ q ps' e1 e2 e3 e4 r, high u ∧ ps = q :: ps' ∧ low q ∧
     s = BACKSLASH :: LETTER_U :: e1 :: e2 :: e3 :: e4 :: r ∧ q = Unit [e1; e2; e3; e4] ∧ pieces r ps' ∧
     repair_loop (S fuel) (piece_text u ++ s) = emit (piece_text u ++ piece_text q) (repair_loop fuel r)) ∨
  ((low u ∨ high u ∧ ∀ q ps', ps = q :: ps' → ¬ low q) ∧
   repair_loop (S fuel) (piece_text u ++ s)
   = (piece_text replacement ++ (repair_loop fuel s).1, S (repair_loop fuel s).2)).
Proof.
  intros u Hs Hsur. change (piece_text u ++ s) with (BACKSLASH :: LETTER_U :: d1 :: d2 :: d3 :: d4 :: s).
  rewrite repair_surrogate by done. destruct (decide (hex4 [d1; d2; d3; d4] ≤ 0xdbff)) as [Hle|Hgt].
  2: { right. split; [left; unfold u, low; lia|]. rewrite (proj2 (Z.leb_gt _ _)) by lia.
       by destruct s as [|b [|x ds]]. }
  assert (high u) as Hh by (unfold u, high; lia).
  assert ((∃ q ps', ps = q :: ps' ∧ low q) ∨ ∀ q ps', ps = q :: ps' → ¬ low q) as [(q & ps' & -> & Hq)|Hno].
  { destruct ps as [|q ps']; [by right|]. destruct (piece_dec q) as [[Hq|Hq]|[_ Hq]].
    - right. intros q' ps'' [= <- <-]. destruct q; simpl in *; try done. lia.
    - left. eauto.
    - right. by intros q' ps'' [= <- <-]. }
  - left. destruct (pieces_low s ps' q Hs Hq) as (e1 & e2 & e3 & e4 & r & -> & -> & Hrs).
    exists (Unit [e1; e2; e3; e4]), ps', e1, e2, e3, e4, r. split_and!; try done.
    rewrite (hex4_take (e1 :: e2 :: e3 :: e4 :: r)). change (take 4 (e1 :: e2 :: e3 :: e4 :: r)) with [e1; e2; e3; e4].
    unfold low in Hq. rewrite !(proj2 (Z.leb_le _ _)) by lia.
    replace (4 <=? length (e1 :: e2 :: e3 :: e4 :: r))%nat with true by done. done.
  - right. split; [by right|]. destruct s as [|b [|x ds]]; [done|done|].
    destruct (_ && (hex4 ds <=? 0xdfff)) eqn:E; [|done]. exfalso.
    rewrite !andb_true_iff, !Z.leb_le, !Z.eqb_eq, Nat.leb_le in E.
    destruct E as (((((_ & Hlen) & Hb) & Hx) & H1) & H2).
    destruct (pieces_pair b x ds ps Hs Hb Hx Hlen ltac:(lia)) as (e1 & e2 & e3 & e4 & r & qs & -> & ->).
    apply (Hno _ _ eq_refl). rewrite hex4_take in H1, H2. exact (conj H1 H2).
Qed.

Lemma repair_pieces n : ∀ s ps fuel,
  pieces s ps → (length s ≤ n)%nat → (length s ≤ fuel)%nat →
  ∃ qs k, repaired ps qs k ∧ repair_loop fuel s = (qs ≫= piece_text, k).
Proof.
  induction n as [n IH] using lt_wf_ind. intros s ps fuel Hs Hn Hf.
  destruct Hs as [|c s ps Hc Hs|d1 d2 d3 d4 s ps H0 Hs|c s ps Hu Hs].
  - exists [], O. split; [constructor|]. by destruct fuel.
  - simpl in Hn, Hf. destruct fuel as [|fuel]; [lia|].
    destruct (IH (length s) ltac:(lia) s ps fuel Hs ltac:(lia) ltac:(lia)) as (qs & k & Hr & E).
    exists (Plain c :: qs), k. split; [apply repaired_keep; simpl; auto|].
    by rewrite repair_plain, E.
  - simpl in Hn, Hf. destruct (decide (0xd800 ≤ hex4 [d1; d2; d3; d4] ≤ 0xdfff)) as [Hsur|Hno].
    2: { do 5 (destruct fuel as [|fuel]; [lia|]).
         destruct (IH (length s) ltac:(lia) s ps fuel Hs ltac:(lia) ltac:(lia)) as (qs & k & Hr & E).
         exists (Unit [d1; d2; d3; d4] :: qs), k. split; [apply repaired_keep; simpl; [lia..|done]|].
         by rewrite repair_unit, E. }
    destruct fuel as [|fuel]; [lia|].
    destruct (IH (length s) ltac:(lia) s ps fuel Hs ltac:(lia) ltac:(lia)) as (qs & k & Hr & E).
    change (BACKSLASH :: LETTER_U :: d1 :: d2 :: d3 :: d4 :: s) with (piece_text (Unit [d1; d2; d3; d4]) ++ s).
    destruct (repair_surrogate_pieces fuel d1 d2 d3 d4 s ps Hs Hsur) as
      [(q & ps' & e1 & e2 & e3 & e4 & r & Hh & -> & Hq & -> & Eq & Hrs & ->)|[Hlone ->]].
    + simpl in Hn, Hf. destruct (IH (length r) ltac:(lia) r ps' fuel Hrs ltac:(lia) ltac:(lia)) as (qs' & k' & Hr' & E').
      exists (Unit [d1; d2; d3; d4] :: q :: qs'), k'. split; [by apply repaired_pair|]. by rewrite E', Eq.
    + rewrite E. exists (replacement :: qs), (S k). split; [|done].
      destruct Hlone as [Hl|[Hh Hl]]; [by apply repaired_low|by apply repaired_high].
  - simpl in Hn, Hf. destruct fuel as [|fuel]; [lia|].
    destruct (IH (length s) ltac:(lia) s ps fuel Hs ltac:(lia) ltac:(lia)) as (qs & k & Hr & E).
    exists (Escape c :: qs), k. split; [apply repaired_keep; simpl; auto|].
    rewrite repair_escape, E; [done|]. intros Ec. destruct (Hu Ec); [by left|right; lia].
Qed.

(** Every text has its pieces. *)
Lemma pieces_exist s : ∃ ps, pieces s ps.
Proof.
  remember (length s) as n eqn:Hn. revert s Hn. induction n as [n IH] using lt_wf_ind. intros s ->.
  destruct s as [|c s]; [exists []; constructor|].
  destruct (IH (length s)) with (s := s) as [ps Hps]; [simpl; lia|done|].
  destruct (Z.eqb_spec c BACKSLASH) as [->|Hc]; [|exists (Plain c :: ps); by apply pieces_plain; auto].
  destruct s as [|x s]; [exists (Plain BACKSLASH :: ps); by apply pieces_plain; auto|]. clear ps Hps.
  destruct (IH (length s)) with (s := s) as [ps Hps]; [simpl; lia|done|].
  destruct (decide (x = LETTER_U ∧ (4 ≤ length s)%nat ∧ 0 ≤ hex4 s)) as [(-> & Hlen & Hh)|Hno].
  - destruct s as [|d1 [|d2 [|d3 [|d4 s]]]]; try (simpl in Hlen; lia). clear ps Hps.
    destruct (IH (length s)) with (s := s) as [ps Hps]; [simpl; lia|done|].
    exists (Unit [d1; d2; d3; d4] :: ps). apply pieces_unit; [|done]. by rewrite hex4_take in Hh.
  - exists (Escape x :: ps). apply pieces_escape; [|done]. intros ->. destruct (decide (4 ≤ length s)%nat); [right|left; lia].
    destruct (decide (0 ≤ hex4 s)); [|lia]. by destruct Hno.
Qed.

Lemma repaired_length ps qs n s :
  repaired ps qs n → pieces s ps → length (qs ≫= piece_text) = length s.
Proof.
  intros Hr. revert s. induction Hr as [|p ps qs n _ _ Hr IH|p q ps qs n Hp Hq Hr IH|p ps qs n Hp _ Hr IH|p ps qs n Hp Hr IH];
    intros s Hs; inversion Hs; subst; rewrite ?bind_cons, ?length_app, ?(IH _ ltac:(eassumption)); simpl; try done.
  all: match goal with H : pieces _ (_ :: _) |- _ => apply pieces_low in H as (? & ? & ? & ? & ? & -> & -> & Hr'); [|done] end.
  all: by rewrite (IH _ Hr').
Qed.

(** The repair of a text leaves its pairs of surrogate escapes, its other
    escapes and its other bytes, and writes each lone surrogate over with
    [\ufffd], the text as long as it was and no lone surrogate left; it
    counts the ones it wrote. *)
Theorem repair_leaves_no_lone_surrogate s :
  ∃ ps qs n, pieces s ps ∧ repaired ps qs n ∧ repaired qs qs 0 ∧
    repair_surrogates s = (qs ≫= piece_text, n) ∧ length (repair_surrogates s).1 = length s.
Proof.
  destruct (pieces_exist s) as [ps Hps].
  destruct (repair_pieces (length s) s ps (length s) Hps) as (qs & n & Hr & E); [done..|].
  exists ps, qs, n. unfold repair_surrogates. rewrite E. split_and!; [done|done| |done|by eapply repaired_length].
  by eapply repaired_left.
Qed.
