(* ===== verification/JsonRoundTrip.v ===== *)
(** * Decoding, then encoding

    A text decoded with the module's own [null] and encoded again is the
    text of the same JSON value, its members sorted: the two halves of
    [core/json.c] meet on the Lua value between them. *)

From Stdlib Require Import SpecFloat.
From S2P Require Import Prelude.
From S2P Require Import Utf8.
From S2P Require Import JsonPath.
From S2P Require Import JsonBuffer.
From S2P Require Import JsonString.
From S2P Require Import JsonNumber.
From S2P Require Import JsonTree.
From S2P Require Import Lua.
From S2P Require Import JsonEncode.
From S2P Require Import JsonEncodeCorrect.
From S2P Require Import JsonEncodeTheorems.
From S2P Require Import JsonDecode.
From S2P Require Import JsonDecodeCorrect.
From S2P Require Import JsonDecodeBuild.
From S2P Require Import JsonRead.
From S2P Require Import JsonFormatTheorems.

Local Open Scope Z_scope.

(** ** A document's JSON value *)

(** The number Lua holds. *)
Definition lua_number (v : number) : number := match v with UInt u => SInt u | v => v end.

(** The documents that survive: no key twice, strings UTF-8, numbers that
    Lua holds exactly. *)
Fixpoint exact (val : yyval) : Prop :=
  match val with
  | YNull | YBool _ => True
  | YNum v => match v with SInt _ => True | UInt u => u ≤ LUA_MAXINTEGER | Real f => is_finite f = true end
  | YRaw _ => False
  | YStr s => text_ok s = true
  | YArr items => Forall id (exact <$> items)
  | YObj members =>
      NoDup (keys_of members) ∧ Forall (λ k, text_ok k = true) (keys_of members) ∧
      Forall id ((λ kv, exact kv.2) <$> members)
  end.

(** Its JSON value, members in byte order of their keys. *)
Fixpoint shows `{NumberText} (val : yyval) (j : json) : Prop :=
  match val with
  | YNull => j = JNull
  | YBool b => j = JBool b
  | YNum v => ∃ t, write_number (lua_number v) = Some t ∧ j = JNumber t
  | YRaw _ => False
  | YStr s => j = JString s
  | YArr items => ∃ l, j = JArray l ∧ Forall2 (λ P j, P j) (shows <$> items) l
  | YObj members =>
      ∃ m m', j = JObject m' ∧ m' ≡ₚ m ∧ StronglySorted key_lt m'.*1 ∧
        Forall2 (λ (P : bytes * json → Prop) kj, P kj)
          ((λ kv kj, kj.1 = key_bytes kv.1 ∧ shows kv.2 kj.2) <$> members) m
  end.

(** ** Lists *)

Lemma Forall2_choose {X Y} (R : X → Y → Prop) l :
  (∀ x, x ∈ l → ∃ y, R x y) → ∃ k, Forall2 R l k.
Proof.
  induction l as [|x l IH]; intros H; [by exists []|].
  destruct (H x) as [y Hy]; [apply list_elem_of_here|].
  destruct IH as [k Hk]; [intros z Hz; by apply H, list_elem_of_further|]. exists (y :: k). by constructor.
Qed.

(** ** Tables by what they hold *)

Lemma rawget_keys t k : table_ok t → k ∈ (t_pairs t).*1 ↔ rawget t k ≠ LNil.
Proof.
  intros [Hnd Hall]. split.
  - intros Hk. apply list_elem_of_fmap in Hk as ([k' v] & -> & Hin). unfold rawget. simpl.
    rewrite (pairs_get_in _ k' v Hnd Hin). rewrite Forall_forall in Hall. by apply (Hall (k', v)).
  - intros Hk. apply pairs_get_some in Hk. apply list_elem_of_fmap. by eexists (k, _).
Qed.

Lemma keys_perm t (ks : list lua_value) :
  table_ok t → NoDup ks → (∀ k, k ∈ ks ↔ rawget t k ≠ LNil) → (t_pairs t).*1 ≡ₚ ks.
Proof.
  intros Hok Hnd Hks. apply NoDup_Permutation; [by destruct Hok|done|]. intros k. by rewrite rawget_keys, Hks.
Qed.

Lemma last_member_distinct members s item :
  NoDup (keys_of members) →
  last_member members s = Some item ↔ ∃ k, (k, item) ∈ members ∧ key_bytes k = s.
Proof.
  assert (∀ members, s ∉ keys_of members → last_member members s = None) as Hout.
  { clear members. induction members as [|kv members IH]; [done|]. unfold keys_of. csimpl.
    intros [Hne Hn]%not_elem_of_cons. cbn [last_member]. rewrite (IH Hn). by rewrite decide_False by congruence. }
  induction members as [|[k v] members IH]; unfold keys_of; csimpl.
  { intros _. split; [done|]. by intros (? & ?%not_elem_of_nil & _). }
  intros [Hk Hnd]%NoDup_cons. destruct (decide (key_bytes k = s)) as [<-|Hne].
  - rewrite (Hout members Hk). split.
    + intros [= ->]. exists k. split; [apply list_elem_of_here|done].
    + intros (k' & Hin & Ek). apply elem_of_cons in Hin as [[= -> ->]|Hin]; [done|].
      exfalso. apply Hk. rewrite <- Ek. by apply (list_elem_of_fmap_2 (λ kv, key_bytes kv.1) _ (k', item)).
  - replace (match last_member members s with Some item => Some item | None => None end)
      with (last_member members s) by (by destruct (last_member members s)).
    rewrite IH by done. split; intros (k' & Hin & Ek); exists k'; (split; [|done]).
    + by apply list_elem_of_further.
    + apply elem_of_cons in Hin as [[= -> ->]|Hin]; done.
Qed.

Section roundtrip.
Context `{A : Allocator, N : NumberText, JM : JsonModule, Q : Qsort}.
Context `{!NumberTextLaws, !JsonModuleLaws, !QsortLaws}.
Context (d : decoding) (h : heap) (Hnull : d_null d = Some null_value).

Lemma represents_not_nil val v : represents d h val v → v ≠ LNil.
Proof.
  intros Hr Hv. destruct (represents_nil d h val v Hr Hv) as [_ Hn]. destruct null_userdata as [a Ha].
  unfold null_read in Hn. rewrite Hnull, Ha in Hn. done.
Qed.

Lemma sort_members (m : list (bytes * json)) :
  NoDup m.*1 → ∃ m', m' ≡ₚ m ∧ StronglySorted key_lt m'.*1.
Proof.
  intros Hnd. set (cmp := λ x y : bytes * json, compare_sorted x.1 y.1).
  assert (orders cmp m) as Ho.
  { split; unfold cmp; intros; eauto using compare_sorted_trans, compare_sorted_total. }
  exists (qsort cmp m). split; [by apply qsort_perm|].
  pose proof (qsort_sorted cmp m Ho) as Hs.
  apply Sorted_StronglySorted; [apply key_lt_trans|].
  assert (NoDup (qsort cmp m).*1) as Hnd' by (by rewrite (qsort_perm cmp m Ho)).
  induction Hs as [|x l Hs IH Hx]; [constructor|]. rewrite fmap_cons in *. apply NoDup_cons in Hnd' as [Hnx Hnd'].
  constructor; [by apply IH|]. destruct Hx as [|y l' Hxy]; constructor. unfold cmp in Hxy.
  rewrite compare_sorted_lex in Hxy. unfold key_lt.
  assert (lex_sign x.1 y.1 ≠ 0); [|lia]. intros E%lex_sign_zero. apply Hnx. rewrite E. apply list_elem_of_here.
Qed.

Lemma encodes_array n (items : list yyval) a t :
  h !! a = Some t → table_ok t → t_meta t = Some ARRAY_TYPE →
  (∀ k, (∀ i, (i < length items)%nat → k ≠ LInt (Z.of_nat i + 1)) → rawget t k = LNil) →
  Forall (λ v, v ≠ LNil) ((λ i, rawget t (LInt (Z.of_nat i + 1))) <$> seq 0 (length items)) →
  ∀ l, Forall2 (λ i j, encodes h n (rawget t (LInt (Z.of_nat i + 1))) j) (seq 0 (length items)) l →
  encodes h (S n) (LTable a) (JArray l).
Proof.
  intros Ha Hok Hmeta Hother Hne l Hl. right. left. unfold table_at. rewrite Ha. simpl.
  pose proof (Forall2_length _ _ _ Hl) as Hlen. rewrite length_seq in Hlen.
  exists l. split_and!; [done| | |].
  - intros _. unfold array_mark. by rewrite Hmeta, decide_True.
  - apply keys_perm; [done|apply NoDup_fmap_2; [by intros ? ? [=]|apply NoDup_seqZ]|].
    intros k. rewrite list_elem_of_fmap. split.
    + intros (i & -> & Hi%elem_of_seqZ). rewrite Forall_fmap, Forall_forall in Hne.
      specialize (Hne (Z.to_nat (i - 1))). simpl in Hne. rewrite Z2Nat.id in Hne by lia.
      replace (i - 1 + 1) with i in Hne by lia. apply Hne, elem_of_seq. lia.
    + intros Hk. destruct (decide (Exists (λ i, k = LInt (Z.of_nat i + 1)) (seq 0 (length items)))) as [Hex|Hno].
      * apply Exists_exists in Hex as (i & Hi%elem_of_seq & ->). eexists. split; [done|]. apply elem_of_seqZ. lia.
      * exfalso. apply Hk, Hother. intros i Hi ->. apply Hno, Exists_exists. exists i. split; [|done].
        apply elem_of_seq. lia.
  - replace (seqZ 1 (Z.of_nat (length l))) with ((λ i, Z.of_nat i + 1) <$> seq 0 (length items)).
    + by apply Forall2_fmap_l.
    + rewrite <- Hlen. unfold seqZ. rewrite Nat2Z.id. apply list_eq. intros i.
      rewrite !list_lookup_fmap. destruct (decide (i < length items)%nat).
      * by rewrite !lookup_seq_lt.
      * by rewrite !lookup_seq_ge by lia.
Qed.

Lemma encodes_object n members a t (m m' : list (bytes * json)) :
  h !! a = Some t → table_ok t → t_meta t = None →
  (∀ k, (∀ s, k ≠ LString s) → rawget t k = LNil) →
  (∀ s, last_member members s = None → rawget t (LString s) = LNil) →
  (∀ s item, last_member members s = Some item → rawget t (LString s) ≠ LNil) →
  NoDup (keys_of members) → m'.*1 ≡ₚ keys_of members → StronglySorted key_lt m'.*1 →
  Forall (λ kv : bytes * json, is_utf8 kv.1 = true ∧ encodes h n (rawget t (LString kv.1)) kv.2) m' →
  encodes h (S n) (LTable a) (JObject m').
Proof.
  intros Ha Hok Hmeta Hother Hnone Hsome Hnd Hkeys Hsort Hall. left. unfold table_at. rewrite Ha. simpl.
  split; [unfold array_mark; by rewrite Hmeta|]. exists m'. split_and!; [done| |done|done].
  assert ((λ kv : bytes * json, LString kv.1) <$> m' = LString <$> m'.*1) as -> by (by rewrite <- list_fmap_compose).
  rewrite Hkeys. apply keys_perm; [done|apply NoDup_fmap_2; [by intros ? ? [=]|done]|].
  assert (∀ s, s ∈ keys_of members ↔ ∃ item, last_member members s = Some item) as Hlast.
  { intros s. split.
    - intros Hs. apply list_elem_of_fmap in Hs as ([k item] & -> & Hin). exists item.
      apply last_member_distinct; [done|by exists k].
    - intros (item & Hs). apply last_member_distinct in Hs as (k & Hin & <-); [|done].
      by apply (list_elem_of_fmap_2 (λ kv, key_bytes kv.1) _ (k, item)). }
  intros k. rewrite list_elem_of_fmap. split.
  - intros (s & -> & Hs). apply Hlast in Hs as [item Hs]. by eapply Hsome.
  - intros Hk. destruct k as [| | | |s| | |]; try (exfalso; by apply Hk, Hother).
    exists s. split; [done|]. apply Hlast. destruct (last_member members s) as [item|] eqn:E; [by exists item|].
    exfalso. by apply Hk, Hnone.
Qed.

(** A value encodes as the JSON value of its document. *)
Definition shown (n : nat) (val : yyval) : Prop :=
  ∀ v, represents d h val v → ∃ j, shows val j ∧ encodes h n v j.

Lemma shown_array n items : Forall (shown n) items → shown (S n) (YArr items).
Proof.
  intros IH v Hr. inversion Hr as [| | | | |? a t Ha Hok Hmeta Hother Hreps|]; subst.
  assert (∃ l, Forall2 (λ k j, ∃ item, items !! k = Some item ∧ shows item j ∧
    encodes h n (rawget t (LInt (Z.of_nat k + 1))) j) (seq 0 (length items)) l) as [l Hl].
  { apply Forall2_choose. intros k Hk%elem_of_seq.
    destruct (lookup_lt_is_Some_2 items k ltac:(lia)) as [item Hi]. rewrite Forall_forall in IH.
    destruct (IH item (list_elem_of_lookup_2 _ _ _ Hi) _ (Hreps k item Hi)) as (j & ? & ?). by exists j, item. }
  exists (JArray l). split.
  - exists l. split; [done|]. apply Forall2_fmap_l. apply Forall2_same_length_lookup_2.
    { apply Forall2_length in Hl. by rewrite length_seq in Hl. }
    intros k item j Hk Hjk. destruct (Forall2_lookup_r _ _ _ _ _ Hl Hjk) as (k' & Hk' & item' & Hi & Hsh & _).
    apply lookup_seq in Hk' as [-> _]. simpl in Hi. rewrite Hi in Hk. by injection Hk as ->.
  - eapply (encodes_array n items); [done..| |].
    + apply Forall_fmap, Forall_forall. intros k Hk%elem_of_seq. simpl.
      destruct (lookup_lt_is_Some_2 items k ltac:(lia)) as [item Hi]. eapply represents_not_nil. eauto.
    + eapply Forall2_impl; [exact Hl|]. by intros k j (item & _ & _ & ?).
Qed.

Lemma shown_object n members :
  NoDup (keys_of members) → Forall (λ k, text_ok k = true) (keys_of members) →
  Forall (λ kv, shown n kv.2) members → shown (S n) (YObj members).
Proof.
  intros Hnd Hok IH v Hr. inversion Hr as [| | | | | |? a t Ha Htok Hmeta Hother Hnone Hreps]; subst.
  assert (∃ m, Forall2 (λ kv kj, kj.1 = key_bytes kv.1 ∧ shows kv.2 kj.2 ∧
    encodes h n (rawget t (LString kj.1)) kj.2) members m) as [m Hm].
  { apply Forall2_choose. intros [k item] Hin. rewrite Forall_forall in IH.
    destruct (IH (k, item) Hin (rawget t (LString (key_bytes k)))) as (j & ? & ?).
    - apply Hreps. apply last_member_distinct; [done|by exists k].
    - by exists (key_bytes k, j). }
  assert (m.*1 = keys_of members) as Hkeys.
  { clear -Hm. induction Hm as [|kv kj l m [E _] _ IHm]; [done|]. unfold keys_of in *. csimpl. by rewrite E, IHm. }
  destruct (sort_members m) as (m' & Hp & Hs); [by rewrite Hkeys|].
  exists (JObject m'). split.
  - exists m, m'. split_and!; [done..|]. apply Forall2_fmap_l. eapply Forall2_impl; [exact Hm|].
    by intros kv kj (? & ? & _).
  - eapply (encodes_object n members a t m m'); try done.
    + intros s item Hs'. eapply represents_not_nil. eauto.
    + by rewrite Hp, Hkeys.
    + rewrite Hp. apply Forall_forall. intros kj Hkj. apply list_elem_of_lookup in Hkj as [i Hi].
      destruct (Forall2_lookup_r _ _ _ _ _ Hm Hi) as (kv & Hkv & Ekey & _ & Henc). split; [|done].
      rewrite Forall_forall in Hok. apply list_elem_of_lookup_2 in Hkv.
      assert (text_ok kj.1 = true) as Ht by (rewrite Ekey; by apply Hok, (list_elem_of_fmap_2 (λ kv, key_bytes kv.1))).
      by apply text_ok_iff in Ht as [_ ?].
Qed.

Lemma nests_in items v n : v ∈ items → (S (foldr max 0 (nests <$> items)) ≤ S n)%nat → (nests v ≤ n)%nat.
Proof.
  intros Hin Hn. assert (nests v ≤ foldr max 0 (nests <$> items))%nat; [|lia]. clear -Hin.
  induction Hin; csimpl; lia.
Qed.

Lemma exact_shown val : ∀ n, exact val → (nests val ≤ n)%nat → shown n val.
Proof.
  induction val as [|b|x|t|s|items IH|members IH] using yyval_ind'; intros n Hex Hn.
  6: { destruct n as [|n]; [simpl in Hn; lia|]. apply shown_array. simpl in Hex. rewrite Forall_fmap in Hex.
       rewrite Forall_forall in IH, Hex |- *. intros v Hv.
       apply IH; [done|by apply Hex|by eapply (nests_in items)]. }
  6: { destruct n as [|n]; [simpl in Hn; lia|]. destruct Hex as (Hnd & Hok & Hex).
       rewrite Forall_fmap in Hex. apply shown_object; [done..|].
       rewrite Forall_forall in IH, Hex |- *. intros kv Hkv. apply IH; [done|by apply (Hex kv)|].
       apply (nests_in members.*2); [by apply list_elem_of_fmap_2|]. by rewrite <- list_fmap_compose. }
  all: intros v Hr; inversion Hr; subst.
  - exists JNull. split; [done|]. unfold null_read. rewrite Hnull. destruct null_userdata as [a Ha].
    simpl. rewrite Ha. destruct n; by split.
  - exists (JBool b). by destruct n.
  - assert (number_finite (lua_number x) = true ∧
      (push_number d x = match lua_number x with SInt z => LInt z | UInt z => LInt z | Real f => LFloat f end)) as [Hf ->].
    { destruct x as [z|u|f]; simpl in *; [done| |done]. by rewrite (proj2 (Z.leb_le _ _) Hex). }
    destruct (write_finite (lua_number x) Hf) as (t & Ht & _). exists (JNumber t). split; [by exists t|].
    destruct x as [z|u|f]; destruct n; simpl in *; eauto.
  - done.
  - exists (JString s). split; [done|]. apply text_ok_iff in Hex as [_ Hu]. by destruct n.
Qed.

End roundtrip.

Section theorem.
Context `{A : Allocator, N : NumberText, JM : JsonModule, Q : Qsort, R : JsonReader, LI : LuaIntegers, LS : LuaStrings}.
Context `{!NumberTextLaws, !JsonModuleLaws, !QsortLaws}.

(** The document behind a value [decode] answered: of the text, or of the text
    repaired where it may be and the reader refuses it as it is, under the
    flags of the call. *)
Definition document_of (r : reading) (doc : yyval) : Prop :=
  yyjson_read_opts (r_text r) (r_flags r) = inl doc
  ∨ r_lone_surrogates r = true ∧ (∃ err, yyjson_read_opts (r_text r) (r_flags r) = inr err)
    ∧ yyjson_read_opts (repair_surrogates (r_text r)).1 (r_flags r) = inl doc.

Lemma read_document r r' doc : read_repaired r = (r', inl doc) → document_of r doc.
Proof.
  unfold read_repaired. destruct (yyjson_read_opts (r_text r) (r_flags r)) as [doc'|err] eqn:E; [by intros [= _ <-]; left|].
  destruct (r_lone_surrogates r && _) eqn:El; [|done]. apply andb_true_iff in El as [El _].
  destruct (repair_surrogates (r_text r)) as [copy count] eqn:Er. destruct (0 <? count)%nat; [|done].
  intros [= _ Hread]. right. split; [done|]. split; [by exists err|]. by rewrite Er.
Qed.

Lemma decoded h text null max_depth json5 big lone record hash dup line column prefix opened h' v :
  null ≠ LNil →
  json_decode h text null max_depth json5 big lone record hash dup line column prefix opened = (h', Answers v) →
  ∃ r d doc, decode_options text null max_depth json5 big lone record hash dup line column prefix opened = inl (r, d) ∧
    document_of r doc ∧ d_null d = Some null ∧ represents d h' doc v.
Proof.
  intros Hnull. unfold json_decode.
  destruct (decode_options _ _ _ _ _ _ _ _ _ _ _ _ _) as [[r d]|message] eqn:Eo; [|done].
  assert (d_null d = Some null) as Hd.
  { clear -Eo Hnull. unfold decode_options in Eo. repeat case_match; simplify_eq; done. }
  unfold read_text. destruct (read_repaired r) as [r' [doc|err]] eqn:Er; simpl; [|done]. apply read_document in Er as Hdoc.
  destruct (push_value_builds d doc (r_opened r') h) as (new & Hnew & Hh & Hb).
  destruct (push_value d (r_opened r') h doc) as [h1 [v1|f]]; [|done]. simpl in Hh, Hb. intros [= <- <-].
  destruct Hb as [_ Hrep]. exists r, d, doc. split_and!; [done..|].
  subst h1. eapply represents_mono; [|exact Hrep]. by apply map_union_subseteq_r.
Qed.

(** C7: what decode reads, encode writes back. A value decoded with the
    module's own [null] represents the document of the text given under its
    flags; where that document's numbers are ones Lua holds exactly and its
    objects have no key twice, the value encodes -- nesting allowed and memory
    found -- as the document's JSON value, its members sorted, and the text
    reads back to that value. *)
Theorem decode_then_encode h h' text max_depth json5 big lone record hash dup line column prefix opened
    v pretty max_depth' ascii n :
  json_decode h text null_value max_depth json5 big lone record hash dup line column prefix opened
    = (h', Answers v) →
  heap_ok h' → heap_bytes h' → value_bytes v → checked_depth max_depth' = Some n →
  ∃ r d doc, decode_options text null_value max_depth json5 big lone record hash dup line column prefix opened = inl (r, d) ∧
    document_of r doc ∧ represents d h' doc v ∧
    (exact doc → (nests doc ≤ n)%nat →
     ∃ j, shows doc j ∧
       match json_encode h' v pretty max_depth' ascii with
       | Answers out => out = print (Layout (to_boolean pretty) n (to_boolean ascii)) 0 j ∧ parse out = Some j
       | Refuses message => message = lit "out of memory"
       | Raises _ => False
       end).
Proof.
  intros Hdec Hok Hbytes Hv Hdepth. destruct null_userdata as [a Ha].
  apply decoded in Hdec as (r & d & doc & Hopts & Hread & Hnull & Hrep); [|by rewrite Ha].
  exists r, d, doc. split; [done|]. split; [done|]. split; [done|]. intros Hex Hn.
  destruct (exact_shown d h' Hnull doc n Hex Hn v Hrep) as (j & Hsh & Henc). exists j. split; [done|].
  unfold json_encode. rewrite Hdepth. set (st := Layout _ n _).
  destruct (put_value_spec st h' Hok Hbytes n 0 eq_refl v Hv) as (w & Hw & Hs).
  specialize (Hw _ sound_new). unfold outcome_within in Hw. unfold value_spec in Hs.
  destruct (put_value st h' (S n) 0 v new_encoding) as [e [|]].
  - destruct Hw as (Hnone & _ & ->). rewrite Hnone in Hs. destruct Hs as (j' & Hj' & ->).
    rewrite (encodes_unique h' n v j' j Hj' Henc). split; [done|]. apply print_reads. by eapply encodes_ok.
  - destruct Hw as [(Hoom & Hwhy & _)|(why & segs & Hr & _)].
    + unfold failure_message. by rewrite Hoom, orb_true_r.
    + rewrite Hr in Hs. destruct Hs as [Hno _]. by destruct (Hno j).
Qed.

End theorem.

(** ** Witness *)

Import Example Reader.

(** What the witness's text decodes to. *)
Definition decoded_heap : heap :=
  (json_decode ∅ (LString (lit "{b:[2],a:2}")) null_value LNil LNil LNil LNil LNil LNil LNil LNil LNil LNil LNil).1.

(** The document of the witness's text. *)
Definition read_doc : yyval := YObj [(YKey [0x62] 1, YArr [YNum (SInt 2)]); (YKey [0x61] 7, YNum (SInt 2))].

Lemma decoded_tables :
  map_to_list decoded_heap = [(2%positive, Table (Some 1%positive) [(LInt 1, LInt 2)]);
    (1%positive, Table None [(LString [0x62], LTable 2%positive); (LString [0x61], LInt 2)])].
Proof. vm_compute. reflexivity. Qed.

Lemma decoded_tables_ok a t : decoded_heap !! a = Some t → table_ok t ∧ Forall (λ kv, value_bytes kv.1 ∧ value_bytes kv.2) (t_pairs t).
Proof.
  intros Ht. apply elem_of_map_to_list in Ht. rewrite decoded_tables in Ht.
  rewrite !elem_of_cons in Ht. destruct Ht as [[= -> ->]|[[= -> ->]|Ht]]; [| |by apply not_elem_of_nil in Ht].
  - split; [|repeat constructor; done]. split; [|repeat constructor; done].
    apply (bool_decide_unpack _). vm_compute. exact Logic.I.
  - split; [|repeat constructor; done]. split; [|repeat constructor; done].
    apply (bool_decide_unpack _). vm_compute. exact Logic.I.
Qed.

Lemma decode_then_encode_witness :
  exact read_doc ∧
  json_decode ∅ (LString (lit "{b:[2],a:2}")) null_value LNil LNil LNil LNil LNil LNil LNil LNil LNil LNil LNil
    = (decoded_heap, Answers (LTable 1)) ∧
  ∃ j, shows read_doc j ∧
    json_encode decoded_heap (LTable 1) LNil LNil LNil = Answers (print (Layout false 64 false) 0 j).
Proof.
  assert (exact read_doc) as Hex.
  { split; [apply (bool_decide_unpack _); vm_compute; exact Logic.I|]. repeat constructor. }
  split; [exact Hex|].
  assert (json_decode ∅ (LString (lit "{b:[2],a:2}")) null_value LNil LNil LNil LNil LNil LNil LNil LNil LNil LNil LNil
    = (decoded_heap, Answers (LTable 1))) as Er.
  { unfold decoded_heap. rewrite (surjective_pairing (json_decode _ _ _ _ _ _ _ _ _ _ _ _ _ _)) at 1. f_equal. }
  split; [exact Er|].
  destruct (decode_then_encode ∅ decoded_heap (LString (lit "{b:[2],a:2}")) LNil LNil LNil LNil LNil LNil LNil
    LNil LNil LNil LNil (LTable 1) LNil LNil LNil 64 Er) as (r & d & doc & Hopts & Hdoc & _ & Himp).
  - intros a t Ht. by apply (decoded_tables_ok a t).
  - intros a. unfold table_at. destruct (decoded_heap !! a) as [t|] eqn:E; [by apply (decoded_tables_ok a t)|constructor].
  - done.
  - reflexivity.
  - vm_compute in Hopts. injection Hopts as <- _.
    destruct Hdoc as [Hdoc|(_ & [err Hdoc] & _)]; [|vm_compute in Hdoc; discriminate Hdoc].
    vm_compute in Hdoc. injection Hdoc as <-.
    destruct (Himp Hex) as (j & Hsh & Hj); [simpl; lia|]. exists j. split; [exact Hsh|]. revert Hj.
    destruct (json_encode decoded_heap (LTable 1) LNil LNil LNil) as [out|m|m] eqn:E;
      [|vm_compute in E; discriminate..]. by intros [-> _].
Defined.
