(* ===== verification/ReadAt.v ===== *)
(** * Bytes read of a file: [cosmic_read_at] of [core/portable.c]

    The bytes of an integer, the greatest first, as the portable format and the
    connector's protocol and addresses have them; then the kernel's reads, and
    the loop that reads a range of a file whole. *)

From S2P Require Import Prelude.

Local Open Scope Z_scope.

(** The last [n] bytes of a value. *)
Fixpoint be (n : nat) (v : Z) : bytes :=
  match n with
  | O => []
  | S n => (v / 256 ^ Z.of_nat n) mod 256 :: be n v
  end.

Definition be_value (p : bytes) : Z := foldl (λ v b, v * 256 + b) 0 p.

Lemma be_length n v : length (be n v) = n.
Proof. induction n as [|n IH]; simpl; [done|by rewrite IH]. Qed.

Lemma be_bytes n v : all_bytes (be n v).
Proof. induction n as [|n IH]; constructor; [|done]. apply Z.mod_pos_bound. lia. Qed.

Lemma be_value_foldl v p : foldl (λ v b, v * 256 + b) v p = v * 256 ^ Z.of_nat (length p) + be_value p.
Proof.
  unfold be_value. revert v. induction p as [|b p IH]; intros v; cbn [foldl length]; [rewrite Z.pow_0_r; lia|].
  rewrite IH, (IH (0 * 256 + b)). rewrite Nat2Z.inj_succ, Z.pow_succ_r by lia. ring.
Qed.

Lemma be_value_cons b p : be_value (b :: p) = b * 256 ^ Z.of_nat (length p) + be_value p.
Proof. unfold be_value at 1. cbn [foldl]. rewrite be_value_foldl. by rewrite Z.mul_0_l, Z.add_0_l. Qed.

Lemma be_value_bounds p : all_bytes p → 0 ≤ be_value p < 256 ^ Z.of_nat (length p).
Proof.
  unfold is_byte. induction 1 as [|b p Hb Hp IH]; [by vm_compute|].
  rewrite be_value_cons. cbn [length]. rewrite Nat2Z.inj_succ, Z.pow_succ_r by lia. nia.
Qed.

Lemma be_add n a v : be n (a * 256 ^ Z.of_nat n + v) = be n v.
Proof.
  revert a. induction n as [|n IH]; intros a; [done|]. cbn [be].
  rewrite Nat2Z.inj_succ, Z.pow_succ_r by lia.
  replace (a * (256 * 256 ^ Z.of_nat n)) with (a * 256 * 256 ^ Z.of_nat n) by ring.
  rewrite IH. f_equal. rewrite Z.div_add_l by (apply Z.pow_nonzero; lia).
  by rewrite Z.add_comm, Z.mod_add.
Qed.

Lemma be_be_value p : all_bytes p → be (length p) (be_value p) = p.
Proof.
  induction 1 as [|b p Hb Hp IH]; [done|]. rewrite be_value_cons. cbn [length be].
  rewrite be_add, IH. f_equal. pose proof (be_value_bounds p Hp).
  rewrite Z.div_add_l, (Z.div_small (be_value p)), Z.add_0_r by lia. by apply Z.mod_small.
Qed.

Lemma be_value_be n v : be_value (be n v) = v mod 256 ^ Z.of_nat n.
Proof.
  induction n as [|n IH]; cbn [be]; [by rewrite Z.mod_1_r|].
  rewrite be_value_cons, IH, be_length, Nat2Z.inj_succ, Z.pow_succ_r, (Z.mul_comm 256), Z.rem_mul_r by
    (first [lia|apply Z.pow_nonzero; lia]). lia.
Qed.

Lemma be_value_small n v : 0 ≤ v < 256 ^ Z.of_nat n → be_value (be n v) = v.
Proof. intros. rewrite be_value_be. by apply Z.mod_small. Qed.

Lemma be_value_app a b : be_value (a ++ b) = be_value a * 256 ^ Z.of_nat (length b) + be_value b.
Proof. unfold be_value at 1. by rewrite foldl_app, be_value_foldl. Qed.

Lemma be_value_inj a b : all_bytes a → all_bytes b → length a = length b → be_value a = be_value b → a = b.
Proof. intros Ha Hb Hlen Hv. by rewrite <-(be_be_value a Ha), <-(be_be_value b Hb), Hlen, Hv. Qed.

(** ** Prefixes *)

(** The first [bits] bits of an address, as an integer. *)
Definition leading (bits : Z) (address : bytes) : Z := be_value address / 2 ^ (8 * Z.of_nat (length address) - bits).

Lemma leading_bytes a b : all_bytes b → leading (8 * Z.of_nat (length a)) (a ++ b) = be_value a.
Proof.
  intros Hb. unfold leading. rewrite be_value_app, length_app, Nat2Z.inj_add.
  replace (8 * (Z.of_nat (length a) + Z.of_nat (length b)) - 8 * Z.of_nat (length a))
    with (8 * Z.of_nat (length b)) by lia.
  rewrite Z.pow_mul_r by lia. change (2 ^ 8) with 256. pose proof (be_value_bounds b Hb).
  rewrite Z.div_add_l by lia. rewrite (Z.div_small (be_value b)) by lia. lia.
Qed.

(** Whole bytes, then the rest of a byte's bits. *)
Lemma leading_split a x b rest :
  0 ≤ rest ≤ 8 → is_byte x → all_bytes b →
  leading (8 * Z.of_nat (length a) + rest) (a ++ x :: b) = be_value a * 2 ^ rest + x / 2 ^ (8 - rest).
Proof.
  intros Hr Hx Hb. unfold leading. rewrite be_value_app, be_value_cons, length_app. cbn [length].
  set (m := Z.of_nat (length b)). replace (Z.of_nat (S (length b))) with (m + 1) by lia.
  replace (8 * Z.of_nat (length a + S (length b)) - (8 * Z.of_nat (length a) + rest)) with (8 * m + (8 - rest)) by lia.
  rewrite (Z.pow_add_r 2) by lia. rewrite (Z.pow_mul_r 2 8) by lia. change (2 ^ 8) with 256.
  pose proof (be_value_bounds b Hb) as Hv. fold m in Hv.
  assert (0 < 256 ^ m) by lia. rewrite <-Z.div_div by lia.
  rewrite (Z.pow_add_r 256) by lia. change (256 ^ 1) with (2 ^ 8).
  replace (be_value a * (256 ^ m * 2 ^ 8) + (x * 256 ^ m + be_value b))
    with ((be_value a * 2 ^ 8 + x) * 256 ^ m + be_value b) by ring.
  rewrite Z.div_add_l by lia. rewrite (Z.div_small (be_value b)), Z.add_0_r by lia.
  replace (2 ^ 8) with (2 ^ rest * 2 ^ (8 - rest)) by (rewrite <-Z.pow_add_r by lia; f_equal; lia).
  rewrite Z.mul_assoc, Z.div_add_l by (assert (0 < 2 ^ (8 - rest)) by lia; lia). done.
Qed.

(** * Reading a file: [cosmic_read_at] of [core/portable.c]

    One open file of the kernel, whose [pread] may be interrupted, may fail
    and may answer fewer bytes than it is asked; the loop over it reads all
    the bytes or none.  Calls are counted, so that each may answer as it
    likes. *)

Definition INT64_MAX : Z := 2 ^ 63 - 1.

(** [pread]: -1 with [EINTR], -1 with another error, or the bytes it put. *)
Inductive pread_result := Interrupted | Failed | Got (bs : bytes).

(** The file held open: [fstat], whether it is a regular file and its size;
    the [n]th call of [pread] of a length at an offset; and the most calls in
    a row that are interrupted. *)
Class Kernel := {
  fstat : option (bool * Z);
  pread : nat → Z → Z → pread_result;
  patience : nat }.

(** The bytes of [content] from [offset] on, [length] of them at most. *)
Definition slice (content : bytes) (offset length : Z) : bytes :=
  take (Z.to_nat length) (drop (Z.to_nat offset) content).

(** The file's bytes are [content] all along. *)
Class KernelLaws `{Kernel} (content : bytes) := {
  content_bytes : all_bytes content;
  fstat_size : ∀ size, fstat = Some (true, size) → size = Z.of_nat (length content);
  content_size : Z.of_nat (length content) ≤ INT64_MAX;
  pread_slice : ∀ n len offset bs, 0 ≤ offset → 0 < len → pread n len offset = Got bs →
    bs = slice content offset (Z.of_nat (length bs)) ∧ Z.of_nat (length bs) ≤ len;
  pread_patience : ∀ n, ∃ k, (k ≤ patience)%nat ∧ ∀ len offset, pread (n + k) len offset ≠ Interrupted }.

(** A regular file whose bytes can be read. *)
Class Readable `{Kernel} (content : bytes) := {
  readable_stat : fstat = Some (true, Z.of_nat (length content));
  readable : ∀ n len offset, 0 < len → 0 ≤ offset < Z.of_nat (length content) →
    match pread n len offset with Interrupted => True | Failed => False | Got bs => bs ≠ [] end }.

(** ** The code *)

Inductive read_end := ReadAll (bs : bytes) | ReadFails | ReadWaits.

Fixpoint read_loop `{Kernel} (fuel turn : nat) (len offset : Z) (into : bytes) : read_end * nat :=
  if 0 <? len then
    match fuel with
    | O => (ReadWaits, turn)
    | S fuel =>
        match pread turn len (s64 offset) with
        | Interrupted => read_loop fuel (S turn) len offset into
        | Failed => (ReadFails, S turn)
        | Got bs =>
            let got := Z.of_nat (length bs) in
            if got <=? 0 then (ReadFails, S turn)
            else read_loop fuel (S turn) (len - got) (u64 (offset + got)) (into ++ bs)
        end
    end
  else (ReadAll into, turn).

(** Enough turns: each byte may be read alone, after [patience] calls. *)
Definition read_fuel `{Kernel} (len : Z) : nat := S patience * S (Z.to_nat len).

Definition read_whole `{Kernel} (turn : nat) (len offset : Z) : read_end * nat :=
  if INT64_MAX <? offset then (ReadFails, turn)
  else read_loop (read_fuel len) turn len offset [].

(** The bytes where they can all be read; [read_ends] says the loop never
    runs out of fuel. *)
Definition cosmic_read_at `{Kernel} (len offset : Z) (turn : nat) : option bytes * nat :=
  match read_whole turn len offset with
  | (ReadAll bs, turn) => (Some bs, turn)
  | (_, turn) => (None, turn)
  end.

(** ** What it reads *)

Lemma slice_length content offset len :
  0 ≤ offset → 0 ≤ len → offset + len ≤ Z.of_nat (length content) →
  length (slice content offset len) = Z.to_nat len.
Proof. intros. unfold slice. rewrite length_take, length_drop. lia. Qed.

Lemma slice_app content offset a b :
  0 ≤ offset → 0 ≤ a → 0 ≤ b →
  slice content offset a ++ slice content (offset + a) b = slice content offset (a + b).
Proof.
  intros. unfold slice. rewrite !Z2Nat.inj_add by done. rewrite <-drop_drop. by rewrite take_take_drop.
Qed.

Lemma slice_join content a b c :
  0 ≤ a ≤ b → b ≤ c → slice content a (b - a) ++ slice content b (c - b) = slice content a (c - a).
Proof.
  intros. replace (c - a) with (b - a + (c - b)) by lia. rewrite <-slice_app by lia. do 2 f_equal. lia.
Qed.

Lemma slice_front content k n :
  0 ≤ k ≤ n → slice content 0 k ++ slice content k (n - k) = slice content 0 n.
Proof. intros Hk. pose proof (slice_join content 0 k n ltac:(lia) ltac:(lia)) as Hj. by rewrite !Z.sub_0_r in Hj. Qed.

Lemma slice_slice content o n o' n' :
  0 ≤ o → 0 ≤ o' → 0 ≤ n' → o' + n' ≤ n → slice (slice content o n) o' n' = slice content (o + o') n'.
Proof.
  intros. unfold slice. rewrite skipn_firstn_comm, take_take, drop_drop.
  f_equal; [lia|]. f_equal. lia.
Qed.

Lemma slice_bytes content offset len : all_bytes content → all_bytes (slice content offset len).
Proof. intros. by apply Forall_take, Forall_drop. Qed.

Section reads.
Context `{KernelLaws content}.

Lemma s64_small x : 0 ≤ x ≤ INT64_MAX → s64 x = x.
Proof. unfold INT64_MAX. intros Hx. unfold s64, u64. rewrite Z.mod_small by lia. zcases; lia. Qed.

Lemma got_within n len offset bs :
  0 ≤ offset → 0 < len → pread n len offset = Got bs → 0 < Z.of_nat (length bs) →
  bs = slice content offset (Z.of_nat (length bs)) ∧ Z.of_nat (length bs) ≤ len ∧
  offset + Z.of_nat (length bs) ≤ Z.of_nat (length content).
Proof.
  intros Ho Hlen0 Hp Hpos. destruct (pread_slice _ _ _ _ Ho Hlen0 Hp) as [Hbs Hlen]. split_and!; [done|done|].
  apply (f_equal length) in Hbs. unfold slice in Hbs. rewrite length_take, length_drop in Hbs. lia.
Qed.

Lemma read_loop_sound fuel turn len offset into bs turn' :
  0 ≤ offset ≤ INT64_MAX →
  read_loop fuel turn len offset into = (ReadAll bs, turn') →
  bs = into ++ slice content offset len ∧ (0 < len → offset + len ≤ Z.of_nat (length content)).
Proof.
  revert turn len offset into. induction fuel as [|fuel IH]; intros turn len offset into Ho; cbn [read_loop].
  - destruct (Z.ltb_spec 0 len); [done|]. intros [= <- <-]. split; [|lia].
    unfold slice. by rewrite Z2Nat.nonpos, app_nil_r by done.
  - destruct (Z.ltb_spec 0 len) as [Hlen|Hlen].
    2: { intros [= <- <-]. split; [|lia]. unfold slice. by rewrite Z2Nat.nonpos, app_nil_r by done. }
    destruct (pread turn len (s64 offset)) as [| |got] eqn:Hp; [by apply IH|done|].
    rewrite s64_small in Hp by done. destruct (Z.leb_spec (Z.of_nat (length got)) 0) as [|Hpos]; [done|].
    destruct (got_within _ _ _ _ (proj1 Ho) Hlen Hp Hpos) as (Hgot & Hle & Hend). pose proof content_size as Hsize.
    assert (u64 (offset + Z.of_nat (length got)) = offset + Z.of_nat (length got)) as ->.
    { unfold u64. apply Z.mod_small. unfold INT64_MAX in *. lia. }
    intros [-> Hlast]%IH; [|lia]. split.
    + rewrite <-app_assoc. f_equal. rewrite Hgot at 1. rewrite slice_app by lia. f_equal. lia.
    + intros _. destruct (decide (len = Z.of_nat (length got))) as [->|]; [done|]. lia.
Qed.

(** The loop ends: [k] calls from now one is not interrupted. *)
Lemma read_loop_ends fuel turn len offset into k :
  (k ≤ patience)%nat → (∀ len offset, pread (turn + k) len offset ≠ Interrupted) →
  (S k + S patience * Z.to_nat len ≤ fuel + S patience)%nat →
  (read_loop fuel turn len offset into).1 ≠ ReadWaits.
Proof.
  revert turn len offset into k. induction fuel as [|fuel IH]; intros turn len offset into k Hk Hnext Hfuel;
    cbn [read_loop]; (destruct (Z.ltb_spec 0 len) as [Hlen|]; [|done]).
  { assert (1 ≤ Z.to_nat len)%nat by lia. nia. }
  destruct (pread turn len (s64 offset)) as [| |got] eqn:Hp; [|done|].
  - destruct k as [|k]; [exfalso; apply (Hnext len (s64 offset)); by rewrite Nat.add_0_r|].
    apply (IH _ _ _ _ k); [lia| |lia]. intros l o. by rewrite Nat.add_succ_l, <-Nat.add_succ_r.
  - destruct (Z.leb_spec (Z.of_nat (length got)) 0) as [|Hpos]; [done|].
    destruct (pread_patience (S turn)) as (k' & Hk' & Hnext'). apply (IH _ _ _ _ k'); [done..|].
    assert (Z.to_nat (len - Z.of_nat (length got)) < Z.to_nat len)%nat by lia. nia.
Qed.

Lemma read_ends turn len offset : (read_whole turn len offset).1 ≠ ReadWaits.
Proof.
  unfold read_whole. destruct (_ <? _); [done|]. destruct (pread_patience turn) as (k & Hk & Hnext).
  apply (read_loop_ends _ _ _ _ _ k); [done..|]. unfold read_fuel. nia.
Qed.

Lemma read_loop_readable `{!Readable content} fuel turn len offset into :
  0 ≤ offset ≤ INT64_MAX → offset + len ≤ Z.of_nat (length content) →
  (read_loop fuel turn len offset into).1 ≠ ReadFails.
Proof.
  revert turn len offset into. induction fuel as [|fuel IH]; intros turn len offset into Ho Hend;
    cbn [read_loop]; (destruct (Z.ltb_spec 0 len) as [Hlen|]; [|done]); [done|].
  rewrite s64_small by done. assert (0 ≤ offset < Z.of_nat (length content)) as Hin by lia.
  pose proof (readable turn len offset Hlen Hin) as Hr.
  destruct (pread turn len offset) as [| |got] eqn:Hp; [by apply IH|done|].
  destruct got as [|b got]; [done|]. rewrite (proj2 (Z.leb_gt _ _)) by (simpl; lia).
  destruct (got_within _ _ _ _ (proj1 Ho) Hlen Hp ltac:(simpl; lia)) as (_ & Hle & Hend').
  pose proof content_size as Hsize. apply IH; unfold u64; rewrite Z.mod_small; unfold INT64_MAX in *; lia.
Qed.

(** What is read is the bytes asked for, every one inside the file. *)
Lemma read_at_sound turn len offset bs turn' :
  0 ≤ offset → 0 ≤ len → cosmic_read_at len offset turn = (Some bs, turn') →
  bs = slice content offset len ∧ (0 < len → offset + len ≤ Z.of_nat (length content)).
Proof.
  intros Ho Hlen. unfold cosmic_read_at, read_whole. destruct (Z.ltb_spec INT64_MAX offset) as [|Hmax]; [done|].
  destruct (read_loop _ _ _ _ _) as [[bs'| |] t] eqn:E; intros [= <- <-].
  by apply read_loop_sound in E as [-> ?].
Qed.

(** A file that can be read answers them. *)
Lemma read_at_readable `{!Readable content} turn len offset :
  0 ≤ offset → 0 ≤ len → offset + len ≤ Z.of_nat (length content) →
  ∃ turn', cosmic_read_at len offset turn = (Some (slice content offset len), turn').
Proof.
  intros Ho Hlen Hend. pose proof content_size as Hsize. pose proof (read_ends turn len offset) as Hends.
  unfold cosmic_read_at, read_whole in *. rewrite (proj2 (Z.ltb_ge INT64_MAX offset)) in * by lia.
  pose proof (read_loop_readable (read_fuel len) turn len offset [] ltac:(lia) Hend) as Hok.
  destruct (read_loop _ _ _ _ _) as [[bs| |] t] eqn:E; [|done..].
  apply read_loop_sound in E as [-> _]; [|lia]. by exists t.
Qed.

(** [cosmic_read_at] ends, however often it is interrupted, and answers
    exactly the bytes asked for, which lie in the file, or none; it answers
    them where the file can be read. *)
Theorem read_at_answers turn len offset :
  0 ≤ offset → 0 ≤ len →
  (read_whole turn len offset).1 ≠ ReadWaits ∧
  match (cosmic_read_at len offset turn).1 with
  | Some bs => bs = slice content offset len ∧ (0 < len → offset + len ≤ Z.of_nat (length content))
  | None => Readable content → Z.of_nat (length content) < offset + len
  end.
Proof.
  intros Ho Hlen. split; [apply read_ends|].
  destruct (cosmic_read_at len offset turn) as [[bs|] turn'] eqn:E; simpl.
  - by apply read_at_sound in E.
  - intros Hr. destruct (Z_lt_le_dec (Z.of_nat (length content)) (offset + len)); [done|].
    destruct (read_at_readable turn len offset Ho Hlen ltac:(done)) as [t Ht]. by rewrite Ht in E.
Qed.

End reads.

(** ** A file on a disk *)

Module Disk.
Section disk.
Context (content : bytes).

(** Every other call is interrupted, and none answers more than 1000 bytes. *)
#[export] Instance kernel : Kernel := {
  fstat := Some (true, Z.of_nat (length content));
  pread n len offset := if Nat.even n then Interrupted else Got (slice content offset (Z.min len 1000));
  patience := 1 }.

Lemma kernel_laws : all_bytes content → Z.of_nat (length content) ≤ INT64_MAX → KernelLaws content.
Proof.
  intros Hb Hs. split; [done|by intros ? [=]|done| |].
  - intros n len offset bs Ho Hlen. simpl. destruct (Nat.even n); [done|]. intros [= <-].
    unfold slice. rewrite length_take, Nat2Z.id. split; [|lia].
    set (rest := drop _ _). destruct (Nat.le_ge_cases (Z.to_nat (Z.min len 1000)) (length rest)).
    + by rewrite Nat.min_l.
    + by rewrite Nat.min_r, !take_ge.
  - intros n. exists (if Nat.even n then 1%nat else 0%nat). simpl. destruct (Nat.even n) eqn:E.
    + split; [done|]. intros len offset. by rewrite Nat.add_1_r, Nat.even_succ, <-Nat.negb_even, E.
    + split; [lia|]. intros len offset. by rewrite Nat.add_0_r, E.
Qed.

Lemma kernel_readable : Readable content.
Proof.
  split; [done|]. intros n len offset Hlen Ho. simpl. destruct (Nat.even n); [done|].
  intros Heq%(f_equal length). unfold slice in Heq. rewrite length_take, length_drop in Heq. simpl in Heq. lia.
Qed.

End disk.
End Disk.

Lemma read_at_answers_witness :
  let content := replicate 3000 7 in
  (@cosmic_read_at (Disk.kernel content) 2500 100 0).1 = Some (replicate 2500 7) ∧
  (@read_whole (Disk.kernel content) 0 2500 100).1 ≠ ReadWaits.
Proof.
  assert (@KernelLaws (Disk.kernel (replicate 3000 7)) (replicate 3000 7)) as Hlaws.
  { apply Disk.kernel_laws; [by apply Forall_replicate|by vm_compute]. }
  split; [by vm_compute|]. by apply (read_at_answers 0 2500 100).
Defined.
