(* ===== verification/Portable.v ===== *)
(** * Portable artifacts: [core/portable.c]

    The decoder of an artifact's trailer, manifest and database header, its
    checks of every range, identity and gap, and the choice of a core.  Each
    function that fails leaves its result all zero and names what it
    refused. *)

From S2P Require Import Prelude.
From S2P Require Import ReadAt.

Local Open Scope Z_scope.

(** ** The format *)

Definition COSMIC_PORTABLE_VERSION : Z := 2.
Definition COSMIC_PORTABLE_SHELL_LENGTH : Z := 16384.
Definition COSMIC_PORTABLE_CORE_ALIGNMENT : Z := 16384.
Definition COSMIC_PORTABLE_MANIFEST_LENGTH : Z := 4096.
Definition COSMIC_PORTABLE_MANIFEST_HEADER_LENGTH : Z := 32.
Definition COSMIC_PORTABLE_ENTRY_LENGTH : Z := 104.
Definition COSMIC_PORTABLE_TRAILER_LENGTH : Z := 48.
Definition COSMIC_PORTABLE_MAX_ENTRIES : Z := 8.
Definition COSMIC_PORTABLE_SHA256_LENGTH : Z := 32.
Definition COSMIC_PORTABLE_MANIFEST_MAGIC : bytes := lit "CosmicM1".
Definition COSMIC_PORTABLE_TRAILER_MAGIC : bytes := lit "CosmicT1".
Definition COSMIC_HOST_TRAILER_MAGIC : bytes := lit "CosmicH1".
Definition COSMIC_PORTABLE_MAGIC_LENGTH : Z := 8.
Definition COSMIC_PORTABLE_KIND_CORE : Z := 1.
Definition COSMIC_PORTABLE_KIND_STUB : Z := 2.
Definition COSMIC_PORTABLE_CODEC_RAW : Z := 0.
Definition COSMIC_PORTABLE_CODEC_ZSTD : Z := 1.
Definition SQLITE_HEADER : bytes := lit "SQLite format 3" ++ [0].
Definition SQLITE_HEADER_LENGTH : Z := 16.
Definition SHEBANG : bytes := lit "#!/bin/sh" ++ [0x0a].

(** What build.zig compiles in. *)
Class Build := {
  COSMIC_PORTABLE_REQUIRED_TARGET_MASK : Z;
  COSMIC_PORTABLE_RELEASE_CONFIGURATION_ID : Z }.

(** [struct cosmic_portable_entry]. *)
Record entry := Entry {
  target_id : Z;
  configuration_id : Z;
  kind : Z;
  codec : Z;
  offset : Z;
  stored_length : Z;
  stored_sha256 : bytes;
  core_length : Z;
  sha256 : bytes }.

#[export] Instance entry_eq_dec : EqDecision entry.
Proof. solve_decision. Defined.

Definition zero_entry : entry := Entry 0 0 0 0 0 0 (replicate 32 0) 0 (replicate 32 0).
#[export] Instance entry_inhabited : Inhabited entry := populate zero_entry.

(** [struct cosmic_portable]; of [entries] the first [entry_count], the rest
    being zero. *)
Record portable := Portable {
  prefix_length : Z;
  manifest_offset : Z;
  manifest_length : Z;
  database_offset : Z;
  database_length : Z;
  entry_count : Z;
  entries : list entry;
  selected : entry }.

Definition zero_portable : portable := Portable 0 0 0 0 0 0 [] zero_entry.

(** What a decoder leaves: whether it is done, [*out] and [*error]. *)
Definition decoded : Type := bool * portable * option bytes.

Definition reject (why : bytes) : decoded := (false, zero_portable, Some why).

(** A part of a decoder: it counts the calls of [pread] it makes and goes on
    with a value or stops for a reason. *)
Definition io (X : Type) : Type := nat → (X + bytes) * nat.

#[export] Instance io_ret : MRet io := λ X x turn, (inl x, turn).
#[export] Instance io_bind : MBind io := λ X Y f m turn,
  match m turn with
  | (inl x, turn) => f x turn
  | (inr why, turn) => (inr why, turn)
  end.

Definition reject_if (c : bool) (why : bytes) : io unit := λ turn, (if c then inr why else inl (), turn).

Definition read_or `{Kernel} (len offset : Z) (why : bytes) : io bytes := λ turn,
  match cosmic_read_at len offset turn with
  | (Some bs, turn) => (inl bs, turn)
  | (None, turn) => (inr why, turn)
  end.

(** Runs a decoder from call [turn] on. *)
Definition decoding (m : io portable) (turn : nat) : decoded :=
  match (m turn).1 with
  | inl p => (true, p, None)
  | inr why => reject why
  end.

(** ** The code *)

Definition be32 (p : bytes) : Z :=
  Z.lor (Z.lor (Z.lor (Z.shiftl (p !!! 0%nat) 24) (Z.shiftl (p !!! 1%nat) 16))
               (Z.shiftl (p !!! 2%nat) 8)) (p !!! 3%nat).

Definition be64 (p : bytes) : Z :=
  foldl (λ value i, Z.lor (u64 (Z.shiftl value 8)) (p !!! i)) 0 (seq 0 8).

Definition version_error (version : Z) : bytes :=
  if version =? 1 then lit "artifact format version 1; this release reads version 2"
  else lit "artifact format version is unsupported; this release reads version 2".

Definition range_ends_at_or_before (offset length limit : Z) : bool :=
  (offset <=? limit) && (length <=? limit - offset).

Definition align_core (value : Z) : option Z :=
  let remainder := value mod COSMIC_PORTABLE_CORE_ALIGNMENT in
  let padding := if remainder =? 0 then 0 else COSMIC_PORTABLE_CORE_ALIGNMENT - remainder in
  if 2 ^ 64 - 1 - padding <? value then None else Some (value + padding).

(** [zero_range]; each turn takes 4096 bytes or all that is left. *)
Fixpoint zero_loop `{Kernel} (fuel : nat) (offset length : Z) : io unit :=
  if 0 <? length then
    match fuel with
    | O => reject_if true []
    | S fuel =>
        let take := if length <? 4096 then length else 4096 in
        bytes ← read_or take offset [];
        reject_if (existsb (λ b, negb (b =? 0)) bytes) [];;
        zero_loop fuel (u64 (offset + take)) (length - take)
    end
  else mret ().

(** Whether it answers true, and the calls it makes. *)
Definition zero_range `{Kernel} (offset length : Z) (turn : nat) : bool * nat :=
  match zero_loop (S (Z.to_nat length)) offset length turn with
  | (inl _, turn) => (true, turn)
  | (inr _, turn) => (false, turn)
  end.

Definition zero_or `{Kernel} (offset length : Z) (why : bytes) : io unit := λ turn,
  match zero_range offset length turn with
  | (true, turn) => (inl (), turn)
  | (false, turn) => (inr why, turn)
  end.

Definition cosmic_host_trailer `{Kernel} (turn : nat) : bool * nat :=
  match fstat with
  | Some (true, size) =>
      if u64 size <? COSMIC_PORTABLE_TRAILER_LENGTH then (false, turn)
      else
        match cosmic_read_at COSMIC_PORTABLE_MAGIC_LENGTH (u64 size - COSMIC_PORTABLE_TRAILER_LENGTH) turn with
        | (Some magic, turn) => (bool_decide (magic = COSMIC_HOST_TRAILER_MAGIC), turn)
        | (None, turn) => (false, turn)
        end
  | _ => (false, turn)
  end.

(** The entry at [raw]. *)
Definition raw_entry (raw : bytes) : entry :=
  Entry (be32 raw) (be32 (drop 4 raw)) (be32 (drop 8 raw)) (be32 (drop 12 raw))
    (be64 (drop 16 raw)) (be64 (drop 24 raw)) (take 32 (drop 32 raw))
    (be64 (drop 64 raw)) (take 32 (drop 72 raw)).

(** The checks of one entry in [decode_blocks]. *)
Definition check_entry (first_core manifest_offset : Z) (e : entry) : io unit :=
  reject_if ((target_id e =? 0) || (configuration_id e =? 0)) (lit "manifest entry identity is zero");;
  reject_if (negb (kind e =? COSMIC_PORTABLE_KIND_CORE) && negb (kind e =? COSMIC_PORTABLE_KIND_STUB))
    (lit "manifest entry kind is unknown");;
  reject_if (negb (codec e =? COSMIC_PORTABLE_CODEC_RAW) && negb (codec e =? COSMIC_PORTABLE_CODEC_ZSTD))
    (lit "manifest entry codec is unknown");;
  reject_if ((kind e =? COSMIC_PORTABLE_KIND_STUB) && negb (codec e =? COSMIC_PORTABLE_CODEC_RAW))
    (lit "a decoder stub is stored raw");;
  reject_if ((codec e =? COSMIC_PORTABLE_CODEC_RAW)
             && (negb (stored_length e =? core_length e) || bool_decide (stored_sha256 e ≠ sha256 e)))
    (lit "a raw entry's stored bytes differ from its core");;
  reject_if ((offset e <? first_core) || negb (offset e mod COSMIC_PORTABLE_CORE_ALIGNMENT =? 0)
             || (stored_length e =? 0) || (core_length e =? 0)
             || negb (range_ends_at_or_before (offset e) (stored_length e) manifest_offset))
    (lit "core range is outside the aligned prefix").

(** The loop over the entries from the [i]th on. *)
Fixpoint decode_entries (first_core manifest_offset : Z) (manifest : bytes) (turns i : nat) : io (list entry) :=
  match turns with
  | O => mret []
  | S turns =>
      let e := raw_entry (drop (32 + i * 104) manifest) in
      check_entry first_core manifest_offset e;;
      es ← decode_entries first_core manifest_offset manifest turns (S i);
      mret (e :: es)
  end.

Definition decode_blocks `{Kernel} (trailer_magic : bytes) (first_core : Z) : io portable :=
  match fstat with
  | Some (true, file_length) =>
      reject_if (file_length <? 0) (lit "artifact size is unavailable");;
      reject_if (INT64_MAX <? file_length) (lit "artifact is too large");;
      reject_if (file_length <? u64 (first_core + COSMIC_PORTABLE_MANIFEST_LENGTH +
                                     SQLITE_HEADER_LENGTH + COSMIC_PORTABLE_TRAILER_LENGTH))
        (lit "artifact is truncated");;
      let trailer_offset := file_length - COSMIC_PORTABLE_TRAILER_LENGTH in
      trailer ← read_or COSMIC_PORTABLE_TRAILER_LENGTH trailer_offset (lit "trailer cannot be read");
      reject_if (bool_decide (take 8 trailer ≠ trailer_magic)) (lit "trailer magic differs");;
      reject_if (negb (be32 (drop 8 trailer) =? COSMIC_PORTABLE_VERSION)) (version_error (be32 (drop 8 trailer)));;
      reject_if (negb (be32 (drop 12 trailer) =? COSMIC_PORTABLE_TRAILER_LENGTH)) (lit "trailer length differs");;
      let manifest_offset := be64 (drop 16 trailer) in
      let manifest_length := be64 (drop 24 trailer) in
      let database_offset := be64 (drop 32 trailer) in
      let database_length := be64 (drop 40 trailer) in
      reject_if (negb (manifest_length =? COSMIC_PORTABLE_MANIFEST_LENGTH)) (lit "manifest block length differs");;
      reject_if (negb (range_ends_at_or_before manifest_offset manifest_length trailer_offset)
                 || negb (u64 (manifest_offset + manifest_length) =? database_offset))
        (lit "manifest range differs from database offset");;
      reject_if (negb (range_ends_at_or_before database_offset database_length trailer_offset)
                 || negb (u64 (database_offset + database_length) =? trailer_offset))
        (lit "database range differs from trailer offset");;
      reject_if ((manifest_offset <? first_core)
                 || negb (manifest_offset mod COSMIC_PORTABLE_CORE_ALIGNMENT =? 0))
        (lit "manifest offset is not aligned after the cores");;
      manifest ← read_or COSMIC_PORTABLE_MANIFEST_LENGTH manifest_offset (lit "manifest cannot be read");
      reject_if (bool_decide (take 8 manifest ≠ COSMIC_PORTABLE_MANIFEST_MAGIC)) (lit "manifest magic differs");;
      reject_if (negb (be32 (drop 8 manifest) =? COSMIC_PORTABLE_VERSION)) (version_error (be32 (drop 8 manifest)));;
      reject_if (negb (be32 (drop 12 manifest) =? COSMIC_PORTABLE_MANIFEST_LENGTH))
        (lit "manifest encoded length differs");;
      let prefix_length := be64 (drop 16 manifest) in
      let entry_count := be32 (drop 24 manifest) in
      reject_if (negb (be32 (drop 28 manifest) =? COSMIC_PORTABLE_ENTRY_LENGTH)) (lit "manifest entry length differs");;
      reject_if (negb (prefix_length =? database_offset)
                 || negb (prefix_length =? u64 (manifest_offset + manifest_length)))
        (lit "manifest prefix length differs");;
      reject_if ((entry_count =? 0) || (COSMIC_PORTABLE_MAX_ENTRIES <? entry_count))
        (lit "manifest entry count is outside its bound");;
      let used := COSMIC_PORTABLE_MANIFEST_HEADER_LENGTH + entry_count * COSMIC_PORTABLE_ENTRY_LENGTH in
      reject_if (manifest_length <? used) (lit "manifest entries exceed their block");;
      zero_or (u64 (manifest_offset + used)) (manifest_length - used) (lit "manifest padding is not zero");;
      es ← decode_entries first_core manifest_offset manifest (Z.to_nat entry_count) 0;
      let no_header := lit "database header differs from SQLite" in
      reject_if (database_length <? SQLITE_HEADER_LENGTH) no_header;;
      header ← read_or SQLITE_HEADER_LENGTH database_offset no_header;
      reject_if (bool_decide (header ≠ SQLITE_HEADER)) no_header;;
      mret (Portable prefix_length manifest_offset manifest_length database_offset database_length
              entry_count es zero_entry)
  | _ => λ turn, (inr (lit "artifact size is unavailable"), turn)
  end.

Definition decode_host `{Kernel} : io portable :=
  p ← decode_blocks COSMIC_HOST_TRAILER_MAGIC 0;
  reject_if (negb (entry_count p =? 1)) (lit "a host program carries exactly one core");;
  let e := entries p !!! 0%nat in
  reject_if (negb (kind e =? COSMIC_PORTABLE_KIND_CORE) || negb (codec e =? COSMIC_PORTABLE_CODEC_RAW))
    (lit "a host program carries one raw core");;
  let no_start := lit "host program core does not start the file" in
  reject_if (negb (offset e =? 0)) no_start;;
  match align_core (core_length e) with
  | None => λ turn, (inr no_start, turn)
  | Some expected =>
      reject_if (negb (manifest_offset p =? expected)) no_start;;
      zero_or (core_length e) (expected - core_length e) (lit "host program core padding is not zero");;
      mret p
  end.

(** Entry [e] against each of the entries before it. *)
Fixpoint check_others (e : entry) (others : list entry) : io unit :=
  match others with
  | [] => mret ()
  | other :: others =>
      reject_if ((target_id e =? target_id other) && (configuration_id e =? configuration_id other)
                 && (kind e =? kind other)) (lit "manifest has a duplicate core identity");;
      reject_if ((offset e <? u64 (offset other + stored_length other))
                 && (offset other <? u64 (offset e + stored_length e)))
        (lit "manifest core ranges overlap");;
      check_others e others
  end.

(** Whether some entry is the decoder stub of [e]. *)
Definition stubbed (es : list entry) (e : entry) : bool :=
  existsb (λ other, (kind other =? COSMIC_PORTABLE_KIND_STUB) && (target_id other =? target_id e)
                    && (configuration_id other =? configuration_id e)) es.

(** The first loop of [decode_portable], at entry [i]. *)
Fixpoint check_identities (es : list entry) (turns i : nat) : io unit :=
  match turns with
  | O => mret ()
  | S turns =>
      let e := es !!! i in
      check_others e (take i es);;
      reject_if ((kind e =? COSMIC_PORTABLE_KIND_CORE) && negb (codec e =? COSMIC_PORTABLE_CODEC_RAW)
                 && negb (stubbed es e)) (lit "a compressed core has no decoder stub");;
      check_identities es turns (S i)
  end.

(** The entry nearest after [after], by the loop that looks for it. *)
Definition nearer (es : list entry) (after : Z) (next : option nat) (i : nat) : option nat :=
  if (after <=? offset (es !!! i))
     && match next with None => true | Some n => offset (es !!! i) <? offset (es !!! n) end
  then Some i else next.

Definition next_core (es : list entry) (after : Z) : option nat :=
  foldl (nearer es after) None (seq 0 (length es)).

(** The second loop: the gap before each core in the order of the file. *)
Fixpoint check_gaps `{Kernel} (es : list entry) (turns : nat) (after : Z) : io Z :=
  match turns with
  | O => mret after
  | S turns =>
      match next_core es after with
      | None => λ turn, (inr (lit "core ranges cannot be ordered"), turn)
      | Some next =>
          let e := es !!! next in
          let unaligned := lit "core range does not use minimal alignment" in
          match align_core after with
          | None => λ turn, (inr unaligned, turn)
          | Some expected =>
              reject_if (negb (offset e =? expected)) unaligned;;
              zero_or after (expected - after) (lit "core alignment padding is not zero");;
              check_gaps es turns (u64 (offset e + stored_length e))
          end
      end
  end.

Definition decode_portable `{Kernel} : io portable :=
  p ← decode_blocks COSMIC_PORTABLE_TRAILER_MAGIC COSMIC_PORTABLE_SHELL_LENGTH;
  let no_shebang := lit "shell header has no portable shebang" in
  shebang ← read_or (Z.of_nat (length SHEBANG)) 0 no_shebang;
  reject_if (bool_decide (shebang ≠ SHEBANG)) no_shebang;;
  check_identities (entries p) (Z.to_nat (entry_count p)) 0;;
  after ← check_gaps (entries p) (Z.to_nat (entry_count p)) COSMIC_PORTABLE_SHELL_LENGTH;
  let no_manifest := lit "manifest does not follow minimal core padding" in
  match align_core after with
  | None => λ turn, (inr no_manifest, turn)
  | Some expected_manifest =>
      reject_if (negb (manifest_offset p =? expected_manifest)) no_manifest;;
      zero_or after (expected_manifest - after) (lit "final core padding is not zero");;
      mret p
  end.

(** [enum cosmic_artifact_format], and what is neither of its values. *)
Inductive artifact_format := COSMIC_ARTIFACT_PORTABLE | COSMIC_ARTIFACT_HOST | UNSUPPORTED_FORMAT.

Definition artifact_io `{Kernel} (format : artifact_format) : io portable :=
  match format with
  | COSMIC_ARTIFACT_HOST => decode_host
  | COSMIC_ARTIFACT_PORTABLE => decode_portable
  | UNSUPPORTED_FORMAT => λ turn, (inr (lit "artifact format is unsupported"), turn)
  end.

Definition cosmic_artifact_decode `{Kernel} (format : artifact_format) (turn : nat) : decoded :=
  decoding (artifact_io format) turn.

Definition select (p : portable) (e : entry) : portable :=
  Portable (prefix_length p) (manifest_offset p) (manifest_length p) (database_offset p)
    (database_length p) (entry_count p) (entries p) e.

Definition zero_identity : bytes := lit "compiled target or configuration is zero".

Definition cosmic_host_decode `{Kernel} (target configuration : Z) (turn : nat) : decoded :=
  if (target =? 0) || (configuration =? 0) then reject zero_identity
  else
    match cosmic_artifact_decode COSMIC_ARTIFACT_HOST turn with
    | (true, out, _) =>
        let e := entries out !!! 0%nat in
        if negb (target_id e =? target) || negb (configuration_id e =? configuration)
        then reject (lit "host program core differs from the compiled identity")
        else (true, select out e, None)
    | refused => refused
    end.

(** The loop over the entries: the release targets seen and the last core of
    the compiled identity. *)
Definition see_core `{Build} (target configuration : Z) (st : Z * option entry) (e : entry) : Z * option entry :=
  let '(required_seen, chosen) := st in
  if negb (kind e =? COSMIC_PORTABLE_KIND_CORE) then st
  else
    (if (configuration_id e =? COSMIC_PORTABLE_RELEASE_CONFIGURATION_ID) && (target_id e <? 64)
        && negb (Z.land COSMIC_PORTABLE_REQUIRED_TARGET_MASK (Z.shiftl 1 (target_id e)) =? 0)
     then Z.lor required_seen (Z.shiftl 1 (target_id e)) else required_seen,
     if (target_id e =? target) && (configuration_id e =? configuration) then Some e else chosen).

Definition cosmic_portable_decode `{Kernel, Build} (target configuration : Z) (turn : nat) : decoded :=
  if (target =? 0) || (configuration =? 0) then reject zero_identity
  else
    match cosmic_artifact_decode COSMIC_ARTIFACT_PORTABLE turn with
    | (true, out, _) =>
        let '(required_seen, chosen) := foldl (see_core target configuration) (0, None) (entries out) in
        if negb (required_seen =? COSMIC_PORTABLE_REQUIRED_TARGET_MASK)
        then reject (lit "manifest is missing a required release core")
        else
          match chosen with
          | None => reject (lit "manifest has no core for the compiled identity")
          | Some e => (true, select out e, None)
          end
    | refused => refused
    end.

(** ** Descriptors *)

(** [struct cosmic_artifact]. *)
Record artifact := Artifact {
  a_logical_path : bytes;
  a_fd : Z;
  a_device : Z;
  a_inode : Z;
  a_file_size : Z;
  a_portable : portable;
  a_host : Z;
  a_split : Z;
  a_core_checked : Z }.

Definition cosmic_artifact_init : artifact := Artifact [] (-1) 0 0 0 zero_portable 0 0 0.

(** The artifact closed, and the descriptor that was, if one was open. *)
Definition cosmic_artifact_close (a : option artifact) : option artifact * option Z :=
  match a with
  | Some a => (Some cosmic_artifact_init, if 0 <=? a_fd a then Some (a_fd a) else None)
  | None => (None, None)
  end.

Definition cosmic_artifact_read `{Kernel} (a : option artifact) (length offset : Z) (turn : nat) :
    option bytes * nat :=
  match a with
  | Some a => if 0 <=? a_fd a then cosmic_read_at length offset turn else (None, turn)
  | None => (None, turn)
  end.
