(* ===== verification/PortableSpec.v ===== *)
(** * What a portable artifact is

    The bytes of the format [core/portable.h] describes, as functions of what
    they say: an artifact is its shell or core, its padded cores, the manifest
    block, the database and the trailer, one after another. *)

From S2P Require Import Prelude.
From S2P Require Import ReadAt.
From S2P Require Import Portable.

Local Open Scope Z_scope.

(** ** Big-endian integers *)

(** The code reads them. *)
Lemma take_lookup (p : bytes) n : (n ≤ length p)%nat → take n p = (λ i, p !!! i) <$> seq 0 n.
Proof.
  intros Hn. induction n as [|n IH]; [done|]. rewrite seq_S, fmap_app, <-IH by lia.
  destruct (lookup_lt_is_Some_2 p n ltac:(lia)) as [b Hb].
  rewrite (take_S_r _ _ b) by done. csimpl. by rewrite (list_lookup_total_correct _ _ _ Hb).
Qed.

Lemma lookup_byte (p : bytes) i : all_bytes p → (i < length p)%nat → is_byte (p !!! i).
Proof.
  intros Hp Hi. destruct (lookup_lt_is_Some_2 p i Hi) as [b Hb].
  rewrite (list_lookup_total_correct _ _ _ Hb). by eapply Forall_lookup_1.
Qed.

Lemma be32_value p : all_bytes p → (4 ≤ length p)%nat → be32 p = be_value (take 4 p).
Proof.
  intros Hp Hl. rewrite take_lookup by done. unfold be32, be_value. cbn [seq fmap list_fmap foldl].
  pose proof (λ i, lookup_byte p i Hp) as Hb. unfold is_byte in Hb.
  pose proof (Hb 0%nat ltac:(lia)). pose proof (Hb 1%nat ltac:(lia)).
  pose proof (Hb 2%nat ltac:(lia)). pose proof (Hb 3%nat ltac:(lia)).
  rewrite !Z.shiftl_mul_pow2 by lia.
  rewrite (lor_low (_ * _) (_ * _) 24), (lor_low _ (_ * _) 16), (lor_low _ _ 8) by zdiv. lia.
Qed.

Lemma be64_value p : all_bytes p → (8 ≤ length p)%nat → be64 p = be_value (take 8 p).
Proof.
  intros Hp Hl. rewrite take_lookup by done. unfold be64, be_value. rewrite foldl_fmap.
  assert (∀ i, (i < 8)%nat → 0 ≤ p !!! i < 256) as Hb by (intros i Hi; apply (lookup_byte p i Hp); lia).
  assert (∀ n, (n ≤ 8)%nat →
    let v := foldl (λ v i, v * 256 + p !!! i) 0 (seq 0 n) in
    foldl (λ v i, Z.lor (u64 (Z.shiftl v 8)) (p !!! i)) 0 (seq 0 n) = v ∧ 0 ≤ v < 256 ^ Z.of_nat n) as Hn.
  { induction n as [|n IH]; intros Hn; [by vm_compute|]. cbv zeta. rewrite seq_S, !foldl_app. cbn [foldl].
    destruct (IH ltac:(lia)) as [-> Hv]. specialize (Hb n ltac:(lia)). set (v := foldl _ _ _) in *. rewrite Nat.add_0_l.
    assert (256 ^ Z.of_nat n * 256 ≤ 2 ^ 64) as Hmax.
    { rewrite <-(Z.pow_1_r 256) at 2. rewrite <-Z.pow_add_r by lia. change (2 ^ 64) with (256 ^ 8).
      apply Z.pow_le_mono_r; lia. }
    assert (u64 (Z.shiftl v 8) = v * 2 ^ 8) as ->.
    { unfold u64. rewrite Z.shiftl_mul_pow2 by lia. apply Z.mod_small. lia. }
    rewrite lor_add by lia. split; [done|]. rewrite Nat2Z.inj_succ, Z.pow_succ_r by lia. lia. }
  by destruct (Hn 8%nat ltac:(lia)).
Qed.

Lemma be32_take p : (4 ≤ length p)%nat → be32 p = be32 (take 4 p).
Proof. intros Hl. unfold be32. by rewrite !lookup_total_take by lia. Qed.

Lemma be64_take p : (8 ≤ length p)%nat → be64 p = be64 (take 8 p).
Proof.
  intros Hl. unfold be64. cbn [seq foldl]. by rewrite !lookup_total_take by lia.
Qed.

Lemma be32_app v rest : 0 ≤ v < 2 ^ 32 → be32 (be 4 v ++ rest) = v.
Proof.
  intros Hv. rewrite be32_take, take_app_length' by (rewrite ?length_app, ?be_length; lia).
  rewrite be32_value, take_ge by (first [apply be_bytes|rewrite be_length; lia]). by apply be_value_small.
Qed.

Lemma be64_app v rest : 0 ≤ v < 2 ^ 64 → be64 (be 8 v ++ rest) = v.
Proof.
  intros Hv. rewrite be64_take, take_app_length' by (rewrite ?length_app, ?be_length; lia).
  rewrite be64_value, take_ge by (first [apply be_bytes|rewrite be_length; lia]). by apply be_value_small.
Qed.

Lemma take_be32 p : all_bytes p → (4 ≤ length p)%nat → take 4 p = be 4 (be32 p).
Proof.
  intros Hp Hl. rewrite be32_value by done.
  pose proof (be_be_value (take 4 p) ltac:(by apply Forall_take)) as Hb.
  by rewrite length_take, Nat.min_l in Hb by done.
Qed.

Lemma take_be64 p : all_bytes p → (8 ≤ length p)%nat → take 8 p = be 8 (be64 p).
Proof.
  intros Hp Hl. rewrite be64_value by done.
  pose proof (be_be_value (take 8 p) ltac:(by apply Forall_take)) as Hb.
  by rewrite length_take, Nat.min_l in Hb by done.
Qed.

Lemma be32_fits (p : bytes) : all_bytes p → (4 ≤ length p)%nat → 0 ≤ be32 p < 2 ^ 32.
Proof.
  intros Hp Hl. rewrite be32_value by done.
  pose proof (be_value_bounds (take 4 p) ltac:(by apply Forall_take)) as Hb.
  by rewrite length_take, Nat.min_l in Hb by done.
Qed.

Lemma be64_fits (p : bytes) : all_bytes p → (8 ≤ length p)%nat → 0 ≤ be64 p < 2 ^ 64.
Proof.
  intros Hp Hl. rewrite be64_value by done.
  pose proof (be_value_bounds (take 8 p) ltac:(by apply Forall_take)) as Hb.
  by rewrite length_take, Nat.min_l in Hb by done.
Qed.

Lemma field32 (n : nat) bs : all_bytes bs → (n + 4 ≤ length bs)%nat → 0 ≤ be32 (drop n bs) < 2 ^ 32.
Proof. intros. apply be32_fits; [by apply Forall_drop|]. rewrite length_drop. lia. Qed.

Lemma field64 (n : nat) bs : all_bytes bs → (n + 8 ≤ length bs)%nat → 0 ≤ be64 (drop n bs) < 2 ^ 64.
Proof. intros. apply be64_fits; [by apply Forall_drop|]. rewrite length_drop. lia. Qed.

(** ** The format *)

Definition entry_bytes (e : entry) : bytes :=
  be 4 (target_id e) ++ be 4 (configuration_id e) ++ be 4 (kind e) ++ be 4 (codec e) ++
  be 8 (offset e) ++ be 8 (stored_length e) ++ stored_sha256 e ++ be 8 (core_length e) ++ sha256 e.

Definition zeros (n : Z) : bytes := replicate (Z.to_nat n) 0.

Definition header_bytes (prefix count : Z) : bytes :=
  lit "CosmicM1" ++ be 4 2 ++ be 4 4096 ++ be 8 prefix ++ be 4 count ++ be 4 104.

Definition manifest_bytes (p : portable) : bytes :=
  header_bytes (prefix_length p) (entry_count p) ++ (entries p ≫= entry_bytes)
  ++ zeros (4096 - 32 - 104 * entry_count p).

Definition trailer_bytes (magic : bytes) (p : portable) : bytes :=
  magic ++ be 4 2 ++ be 4 48 ++ be 8 (manifest_offset p) ++ be 8 (manifest_length p)
  ++ be 8 (database_offset p) ++ be 8 (database_length p).

(** An entry's fields are of their widths. *)
Definition entry_fits (e : entry) : Prop :=
  0 ≤ target_id e < 2 ^ 32 ∧ 0 ≤ configuration_id e < 2 ^ 32 ∧ 0 ≤ kind e < 2 ^ 32 ∧ 0 ≤ codec e < 2 ^ 32 ∧
  0 ≤ offset e < 2 ^ 64 ∧ 0 ≤ stored_length e < 2 ^ 64 ∧ 0 ≤ core_length e < 2 ^ 64 ∧
  length (stored_sha256 e) = 32%nat ∧ length (sha256 e) = 32%nat.

(** Its identity is one, its kind and codec are known, and its stored bytes
    lie whole and aligned in the file from [first] to [limit]. *)
Record entry_ok (first limit : Z) (e : entry) : Prop := {
  ok_identity : target_id e ≠ 0 ∧ configuration_id e ≠ 0;
  ok_kind : kind e = 1 ∨ kind e = 2;
  ok_codec : codec e = 0 ∨ codec e = 1;
  ok_stub : kind e = 2 → codec e = 0;
  ok_raw : codec e = 0 → stored_length e = core_length e ∧ stored_sha256 e = sha256 e;
  ok_range : first ≤ offset e ∧ offset e mod 16384 = 0 ∧ 0 < stored_length e ∧ 0 < core_length e ∧
             offset e + stored_length e ≤ limit }.

(** What both formats share: [content] is [front], the manifest block, a
    SQLite database and the trailer, and [p] says where each is. *)
Record framed (magic : bytes) (first : Z) (content front : bytes) (p : portable) : Prop := {
  fr_content : ∃ database, content = front ++ manifest_bytes p ++ database ++ trailer_bytes magic p ∧
                 database_length p = Z.of_nat (length database) ∧ SQLITE_HEADER `prefix_of` database;
  fr_front : manifest_offset p = Z.of_nat (length front) ∧ first ≤ manifest_offset p ∧
             manifest_offset p mod 16384 = 0;
  fr_ranges : manifest_length p = 4096 ∧ database_offset p = manifest_offset p + 4096 ∧
              prefix_length p = database_offset p;
  fr_entries : entry_count p = Z.of_nat (length (entries p)) ∧ (1 ≤ length (entries p) ≤ 8)%nat ∧
               Forall entry_fits (entries p) ∧ Forall (entry_ok first (manifest_offset p)) (entries p);
  fr_selected : selected p = zero_entry }.

(** The bytes from [at] to the next place a core may start. *)
Definition aligned (at_ : Z) : Z := (at_ + 16383) / 16384 * 16384.
Definition padding (at_ : Z) : bytes := zeros (aligned at_ - at_).

(** A host program: its core, padded, is the front. *)
Definition host_program (content : bytes) (p : portable) : Prop :=
  ∃ core e, entries p = [e] ∧ kind e = 1 ∧ codec e = 0 ∧ offset e = 0 ∧
    core_length e = Z.of_nat (length core) ∧
    framed COSMIC_HOST_TRAILER_MAGIC 0 content (core ++ padding (core_length e)) p.

(** Cores laid one after another from [at_], each at the least aligned place. *)
Inductive placed : Z → list (entry * bytes) → bytes → Prop :=
  | placed_none at_ : placed at_ [] (padding at_)
  | placed_core at_ e stored cores area :
      offset e = aligned at_ → stored_length e = Z.of_nat (length stored) →
      placed (offset e + stored_length e) cores area →
      placed at_ ((e, stored) :: cores) (padding at_ ++ stored ++ area).

Definition identity (e : entry) : Z * Z * Z := (target_id e, configuration_id e, kind e).

(** A portable artifact: the shell, then every entry's stored bytes, in some
    order; no identity twice, and a stub for each compressed core. *)
Definition portable_artifact (content : bytes) (p : portable) : Prop :=
  ∃ shell cores area,
    Z.of_nat (length shell) = COSMIC_PORTABLE_SHELL_LENGTH ∧ SHEBANG `prefix_of` shell ∧
    cores.*1 ≡ₚ entries p ∧ placed COSMIC_PORTABLE_SHELL_LENGTH cores area ∧
    NoDup (identity <$> entries p) ∧
    (∀ e, e ∈ entries p → kind e = 1 → codec e = 1 →
       ∃ stub, stub ∈ entries p ∧ identity stub = (target_id e, configuration_id e, 2)) ∧
    framed COSMIC_PORTABLE_TRAILER_MAGIC COSMIC_PORTABLE_SHELL_LENGTH content (shell ++ area) p.

(** ** Fields *)

(** Goes past the fields in front of a place of a block. *)
Ltac seek :=
  repeat (rewrite drop_app_ge by (rewrite ?be_length; simpl; lia); rewrite ?be_length; cbn [length Nat.sub]);
  rewrite ?drop_0.

(** Fields next to each other. *)
Lemma take_join (k a b k' n : nat) (l : bytes) :
  k' = (k + a)%nat → n = (a + b)%nat → take a (drop k l) ++ take b (drop k' l) = take n (drop k l).
Proof. intros -> ->. rewrite <-drop_drop. by rewrite take_take_drop. Qed.

Lemma raw_entry_bytes e rest : entry_fits e → raw_entry (entry_bytes e ++ rest) = e.
Proof.
  intros (H1 & H2 & H3 & H4 & H5 & H6 & H7 & H8 & H9). unfold raw_entry, entry_bytes.
  destruct e as [ti ci ki co off sl ssha cl sha]. cbn [target_id configuration_id kind codec offset stored_length
    stored_sha256 core_length sha256] in *.
  rewrite <-!(assoc_L app). f_equal; seek; rewrite ?H8; cbn [Nat.sub]; seek; rewrite ?be32_app, ?be64_app by done; try done.
  - by rewrite take_app_length'.
  - by rewrite take_app_length'.
Qed.

Lemma entry_bytes_length e : entry_fits e → length (entry_bytes e) = 104%nat.
Proof.
  intros (_ & _ & _ & _ & _ & _ & _ & H8 & H9). unfold entry_bytes. rewrite !length_app, !be_length, H8, H9. done.
Qed.

Lemma entry_bytes_raw raw : all_bytes raw → (104 ≤ length raw)%nat → entry_bytes (raw_entry raw) = take 104 raw.
Proof.
  intros Hraw Hl. unfold entry_bytes, raw_entry. cbn [target_id configuration_id kind codec offset stored_length
    stored_sha256 core_length sha256].
  assert (∀ n, all_bytes (drop n raw)) as Hd by (intros; by apply Forall_drop).
  rewrite <-!take_be32, <-!take_be64 by (first [done|apply Hd|rewrite ?length_drop; lia]).
  rewrite <-(drop_0 raw) at 1 10.
  rewrite (take_join 64 8 32 72 40), (take_join 32 32 40 64 72), (take_join 24 8 72 32 80),
    (take_join 16 8 80 24 88), (take_join 12 4 88 16 92), (take_join 8 4 92 12 96), (take_join 4 4 96 8 100) by done.
  by rewrite (take_join 0 4 100 4 104).
Qed.

Lemma trailer_read magic p T :
  length magic = 8%nat → all_bytes T → length T = 48%nat →
  T = trailer_bytes magic p ∧ 0 ≤ manifest_offset p < 2 ^ 64 ∧ 0 ≤ manifest_length p < 2 ^ 64 ∧
    0 ≤ database_offset p < 2 ^ 64 ∧ 0 ≤ database_length p < 2 ^ 64 ↔
  (take 8 T = magic ∧ be32 (drop 8 T) = 2 ∧ be32 (drop 12 T) = 48) ∧
  (be64 (drop 16 T) = manifest_offset p ∧ be64 (drop 24 T) = manifest_length p ∧
   be64 (drop 32 T) = database_offset p ∧ be64 (drop 40 T) = database_length p).
Proof.
  intros Hmagic Hb Hl. unfold trailer_bytes. split.
  - intros (-> & H1 & H2 & H3 & H4). split; split_and!; seek; rewrite ?Hmagic; cbn [Nat.sub]; seek;
      rewrite ?be32_app, ?be64_app by done; try done; [by rewrite take_app_length'|].
    by rewrite <-(app_nil_r (be 8 _)), be64_app.
  - intros ((<- & H1 & H2) & (<- & <- & <- & <-)). rewrite <-H1, <-H2 at 1.
    assert (∀ n, all_bytes (drop n T)) as Hd by (intros; by apply Forall_drop).
    split; [|do 3 (split; [apply field64; [done|lia]|]); apply field64; [done|lia]].
    rewrite <-!take_be32, <-!take_be64 by (first [done|apply Hd|rewrite ?length_drop; lia]).
    change (take 8 T) with (take 8 (drop 0 T)).
    rewrite (take_join 32 8 8 40 16), (take_join 24 8 16 32 24), (take_join 16 8 24 24 32),
      (take_join 12 4 32 16 36), (take_join 8 4 36 12 40), (take_join 0 8 40 8 48) by done.
    by rewrite drop_0, take_ge by lia.
Qed.

Lemma header_read prefix count M :
  all_bytes M → (32 ≤ length M)%nat →
  take 32 M = header_bytes prefix count ∧ 0 ≤ prefix < 2 ^ 64 ∧ 0 ≤ count < 2 ^ 32 ↔
  take 8 M = COSMIC_PORTABLE_MANIFEST_MAGIC ∧ be32 (drop 8 M) = 2 ∧ be32 (drop 12 M) = 4096 ∧
    be64 (drop 16 M) = prefix ∧ be32 (drop 24 M) = count ∧ be32 (drop 28 M) = 104.
Proof.
  intros Hb Hl. unfold header_bytes. fold COSMIC_PORTABLE_MANIFEST_MAGIC.
  assert (length COSMIC_PORTABLE_MANIFEST_MAGIC = 8%nat) as Hmagic by done. split.
  - intros (HM & H1 & H2). rewrite <-(take_drop 32 M), HM.
    rewrite <-!(assoc_L app). split_and!; seek; rewrite ?Hmagic; cbn [Nat.sub]; seek;
      rewrite ?be32_app, ?be64_app by done; done || by rewrite take_app_length'.
  - intros (<- & H2 & H3 & <- & <- & H6). rewrite <-H2, <-H3, <-H6 at 1.
    assert (∀ n, all_bytes (drop n M)) as Hd by (intros; by apply Forall_drop).
    split; [|split; [apply field64|apply field32]; [done|lia|done|lia]].
    rewrite <-!take_be32, <-!take_be64 by (first [done|apply Hd|rewrite ?length_drop; lia]).
    change (take 8 M) with (take 8 (drop 0 M)).
    rewrite (take_join 24 4 4 28 8), (take_join 16 8 8 24 16), (take_join 12 4 16 16 20),
      (take_join 8 4 20 12 24), (take_join 0 8 24 8 32) by done.
    by rewrite drop_0.
Qed.
