(* ===== verification/PortableCorrect.v ===== *)
(** * The decoder accepts artifacts and nothing else

    Each part of the decoders of [core/portable.c] is characterised by what
    it accepts ([exact]): what it answers satisfies the characterisation,
    whatever [pread] did, and where the file can be read everything that
    satisfies it is answered. *)

From S2P Require Import Prelude.
From S2P Require Import ReadAt.
From S2P Require Import Portable.
From S2P Require Import PortableSpec.

Local Open Scope Z_scope.

Section exact.
Context `{KernelLaws content}.

Definition exact {X} (m : io X) (P : X → Prop) : Prop :=
  (∀ turn turn' x, m turn = (inl x, turn') → P x) ∧
  (Readable content → ∀ x, P x → ∀ turn, ∃ turn', m turn = (inl x, turn')).

Lemma exact_iff {X} (m : io X) P Q : (∀ x, P x ↔ Q x) → exact m P → exact m Q.
Proof.
  intros Heq [Hsound Hcomplete]. split.
  - intros turn turn' x Hm. apply Heq. by eapply Hsound.
  - intros Hr x Hx. by apply Hcomplete, Heq.
Qed.

Lemma exact_ret {X} (x : X) : exact (mret x) (λ y, y = x).
Proof. split; [by intros ??? [= ->]|]. intros _ y -> turn. by exists turn. Qed.

Lemma exact_fail {X} why : exact (λ turn, (inr why, turn) : (X + bytes) * nat) (λ _, False).
Proof. by split. Qed.

Lemma exact_bind {X Y} (m : io X) (f : X → io Y) P Q :
  exact m P → (∀ x, P x → exact (f x) (Q x)) → exact (m ≫= f) (λ y, ∃ x, P x ∧ Q x y).
Proof.
  intros [Hm1 Hm2] Hf. unfold mbind, io_bind. split.
  - intros turn turn' y. destruct (m turn) as [[x|why] t] eqn:E; [|done]. intros Hy.
    pose proof (Hm1 _ _ _ E) as Hx. exists x. split; [done|]. by eapply (Hf x Hx).
  - intros Hr y (x & Hx & Hy) turn. destruct (Hm2 Hr x Hx turn) as [t ->]. by apply (Hf x Hx).
Qed.

Lemma exact_then {X} (m : io unit) (f : unit → io X) (P : Prop) Q :
  exact m (λ _, P) → (P → exact (f ()) Q) → exact (m ≫= f) (λ x, P ∧ Q x).
Proof.
  intros Hm Hf. eapply exact_iff, (exact_bind _ _ (λ _, P) (λ _, Q)); [|done|by intros []].
  intros x. split; [by intros ([] & ? & ?)|by intros []; exists ()].
Qed.

Lemma exact_reject_last c why : exact (reject_if c why) (λ _, c = false).
Proof. unfold reject_if. split; [by destruct c|]. intros _ [] -> turn. by exists turn. Qed.

Lemma exact_reject {X} c why (f : unit → io X) Q :
  (c = false → exact (f ()) Q) → exact (reject_if c why ≫= f) (λ x, c = false ∧ Q x).
Proof.
  intros Hf. by apply exact_then; [apply exact_reject_last|].
Qed.

Lemma exact_read {X} len offset why (f : bytes → io X) Q :
  0 ≤ offset → 0 < len →
  (offset + len ≤ Z.of_nat (length content) → exact (f (slice content offset len)) Q) →
  exact (read_or len offset why ≫= f) (λ x, offset + len ≤ Z.of_nat (length content) ∧ Q x).
Proof.
  intros Ho Hlen Hf.
  eapply exact_iff, (exact_bind _ _
    (λ bs, bs = slice content offset len ∧ offset + len ≤ Z.of_nat (length content)) (λ _, Q)).
  - intros x. split; [by intros (? & [_ ?] & ?)|intros []; by eexists].
  - unfold read_or. split.
    + intros turn turn' bs. destruct (cosmic_read_at len offset turn) as [[bs'|] t] eqn:E; intros [= <- <-].
      apply read_at_sound in E as [-> Hend]; [|lia..]. auto.
    + intros Hr bs [-> Hend] turn. destruct (read_at_readable turn len offset) as [t ->]; [lia..|]. by exists t.
  - intros bs [-> Hend]. by apply Hf.
Qed.

(** A range of the file that is zero. *)
Definition zero_slice (offset length_ : Z) : Prop :=
  (0 < length_ → offset + length_ ≤ Z.of_nat (length content)) ∧
  Forall (λ b, b = 0) (slice content offset length_).

Lemma not_zero_bytes (bs : bytes) : existsb (λ b, negb (b =? 0)) bs = false ↔ Forall (λ b, b = 0) bs.
Proof.
  induction bs as [|b bs IH]; [by split|]. simpl. rewrite orb_false_iff, negb_false_iff, Z.eqb_eq, IH.
  by rewrite Forall_cons.
Qed.

Lemma zero_loop_exact fuel offset len :
  0 ≤ offset → (Z.to_nat len < fuel)%nat → exact (zero_loop fuel offset len) (λ _, zero_slice offset len).
Proof.
  revert offset len. induction fuel as [|fuel IH]; intros offset len Ho Hfuel; [lia|]. cbn [zero_loop].
  destruct (Z.ltb_spec 0 len) as [Hlen|Hlen].
  2: { eapply exact_iff, exact_ret. intros []. split; [|done]. intros _. split; [lia|].
       unfold slice. by rewrite Z2Nat.nonpos. }
  set (take_ := if len <? 4096 then len else 4096).
  assert (0 < take_ ≤ len) as Htake by (unfold take_; zcases; lia).
  pose proof content_size as Hsize.
  eapply exact_iff, exact_read; [|done|lia|].
  2: { intros Hend. apply exact_reject. intros _. unfold u64. rewrite Z.mod_small by (unfold INT64_MAX in *; lia).
       apply IH; lia. }
  intros []. cbv beta. rewrite not_zero_bytes. unfold zero_slice.
  assert (slice content offset len = slice content offset take_ ++ slice content (offset + take_) (len - take_)) as ->.
  { rewrite slice_app by lia. f_equal. lia. }
  rewrite Forall_app. split.
  - intros (H1 & H2 & H3 & H4). split; [|done]. intros _. destruct (decide (0 < len - take_)); [|lia]. lia.
  - intros (H1 & H2 & H3). split_and!; [lia|done|lia|done].
Qed.

Lemma exact_zero {X} offset len why (f : unit → io X) Q :
  0 ≤ offset → (zero_slice offset len → exact (f ()) Q) →
  exact (zero_or offset len why ≫= f) (λ x, zero_slice offset len ∧ Q x).
Proof.
  intros Ho Hf. destruct (zero_loop_exact (S (Z.to_nat len)) offset len Ho ltac:(lia)) as [Hs Hc].
  apply exact_then; [|done]. unfold zero_or, zero_range. split.
  - intros turn turn' []. destruct (zero_loop _ _ _ _) as [[[]|] t] eqn:E; [|done]. intros _. by eapply Hs.
  - intros Hr [] Hz turn. destruct (Hc Hr () Hz turn) as [t ->]. by exists t.
Qed.

(** ** Entries *)

Lemma check_entry_exact first limit e :
  entry_fits e → 0 ≤ limit → exact (check_entry first limit e) (λ _, entry_ok first limit e).
Proof.
  intros Hfits Hlimit. eapply exact_iff; [|by repeat (eapply exact_reject; intros _); apply exact_reject_last].
  intros []. cbv beta. destruct Hfits as (_ & _ & Hk & Hc & Ho & Hs & Hl & _).
  unfold COSMIC_PORTABLE_KIND_CORE, COSMIC_PORTABLE_KIND_STUB, COSMIC_PORTABLE_CODEC_RAW,
    COSMIC_PORTABLE_CODEC_ZSTD, COSMIC_PORTABLE_CORE_ALIGNMENT, range_ends_at_or_before.
  rewrite !orb_false_iff, !andb_false_iff, !negb_false_iff, !orb_false_iff, !andb_true_iff, !bool_decide_eq_false,
    !Z.eqb_neq, !Z.eqb_eq, !Z.leb_le, Z.ltb_ge. split.
  - intros (H1 & H2 & H3 & H4 & H5 & H6). split; [lia..| |lia].
    intros Hraw. by destruct H5 as [?|[?%negb_false_iff%Z.eqb_eq ?%dec_stable]].
  - intros [H1 H2 H3 H4 H5 H6]. split_and!; try lia. destruct (decide (codec e = 0)) as [Hr|]; [right|by left].
    destruct (H5 Hr) as [-> ->]. rewrite Z.eqb_refl. split; [done|]. by intros ?.
Qed.

Lemma raw_entry_fits raw : all_bytes raw → (104 ≤ length raw)%nat → entry_fits (raw_entry raw).
Proof.
  intros Hraw Hl. unfold entry_fits, raw_entry. simpl.
  do 8 (split; [first [apply be32_fits|apply be64_fits|idtac]; try (by try apply Forall_drop);
    rewrite ?length_take, ?length_drop; lia|]).
  rewrite length_take, length_drop. lia.
Qed.

(** The raw entries of a manifest block. *)
Definition raw_entries (manifest : bytes) (i turns : nat) : list entry :=
  (λ i, raw_entry (drop (32 + i * 104) manifest)) <$> seq i turns.

Lemma decode_entries_exact first limit manifest turns i :
  all_bytes manifest → 0 ≤ limit → (32 + (i + turns) * 104 ≤ length manifest)%nat →
  exact (decode_entries first limit manifest turns i)
    (λ es, es = raw_entries manifest i turns ∧ Forall (entry_ok first limit) es).
Proof.
  intros Hm Hlimit. revert i. induction turns as [|turns IH]; intros i Hl; cbn [decode_entries].
  { eapply exact_iff, exact_ret. intros es. split; [by intros ->|by intros [-> _]]. }
  set (e := raw_entry _).
  assert (entry_fits e) as Hfits.
  { apply raw_entry_fits; [by apply Forall_drop|]. rewrite length_drop. lia. }
  eapply exact_iff; [|eapply exact_then; [by apply check_entry_exact|]; intros He; eapply exact_bind;
                      [apply IH; lia|intros es Hes; apply exact_ret]].
  intros es. cbv beta. change (raw_entries manifest i (S turns)) with (e :: raw_entries manifest (S i) turns). split.
  - intros (He & es' & [-> Hes] & ->). split; [done|]. by constructor.
  - intros [-> [He Hes]%Forall_cons]. split; [done|]. by eexists.
Qed.

(** ** Blocks *)

(** What [decode_blocks] reads and checks, of the trailer [T] and the manifest
    block [M]. *)
Record read_blocks (magic : bytes) (first : Z) (T M : bytes) (p : portable) : Prop := {
  rb_size : first + 4096 + 16 + 48 ≤ Z.of_nat (length content);
  rb_trailer : take 8 T = magic ∧ be32 (drop 8 T) = 2 ∧ be32 (drop 12 T) = 48;
  rb_offsets : be64 (drop 16 T) = manifest_offset p ∧ be64 (drop 24 T) = manifest_length p ∧
               be64 (drop 32 T) = database_offset p ∧ be64 (drop 40 T) = database_length p;
  rb_ranges : manifest_length p = 4096 ∧ manifest_offset p + 4096 = database_offset p ∧
              database_offset p + database_length p = Z.of_nat (length content) - 48 ∧
              first ≤ manifest_offset p ∧ manifest_offset p mod 16384 = 0;
  rb_manifest : take 8 M = COSMIC_PORTABLE_MANIFEST_MAGIC ∧ be32 (drop 8 M) = 2 ∧ be32 (drop 12 M) = 4096 ∧
                be64 (drop 16 M) = prefix_length p ∧ be32 (drop 24 M) = entry_count p ∧ be32 (drop 28 M) = 104;
  rb_prefix : prefix_length p = database_offset p;
  rb_count : 1 ≤ entry_count p ≤ 8;
  rb_padding : zero_slice (manifest_offset p + (32 + entry_count p * 104)) (4096 - (32 + entry_count p * 104));
  rb_entries : entries p = raw_entries M 0 (Z.to_nat (entry_count p)) ∧
               Forall (entry_ok first (manifest_offset p)) (entries p);
  rb_database : 16 ≤ database_length p ∧ slice content (database_offset p) 16 = SQLITE_HEADER;
  rb_selected : selected p = zero_entry }.

Definition trailer_of : bytes := slice content (Z.of_nat (length content) - 48) 48.
Definition manifest_at (offset : Z) : bytes := slice content offset 4096.

#[local] Opaque be32 be64 slice raw_entries zero_or read_or decode_entries.

Lemma decode_blocks_reads magic first :
  0 ≤ first ≤ 16384 →
  exact (decode_blocks magic first)
    (λ p, read_blocks magic first trailer_of (manifest_at (manifest_offset p)) p).
Proof.
  intros Hfirst. unfold decode_blocks. destruct fstat as [[[] size]|] eqn:Hstat.
  2-3: split; [done|]; intros Hr; pose proof readable_stat as Hs; congruence.
  rewrite (fstat_size size Hstat). pose proof content_size as Hmax. pose proof content_bytes as Hbytes.
  unfold COSMIC_PORTABLE_MANIFEST_LENGTH, SQLITE_HEADER_LENGTH, COSMIC_PORTABLE_TRAILER_LENGTH,
    COSMIC_PORTABLE_VERSION, COSMIC_PORTABLE_ENTRY_LENGTH, COSMIC_PORTABLE_MAX_ENTRIES,
    COSMIC_PORTABLE_MANIFEST_HEADER_LENGTH, COSMIC_PORTABLE_CORE_ALIGNMENT.
  assert (u64 (first + 4096 + 16 + 48) = first + 4096 + 16 + 48) as -> by (apply Z.mod_small; lia).
  eapply exact_iff.
  2: {
    do 2 (apply exact_reject; intros _). apply exact_reject; intros Hsize%Z.ltb_ge. cbv zeta.
    eapply exact_read; [lia|done|intros _]. change (slice content _ 48) with trailer_of.
    assert (all_bytes trailer_of) as Ht by (by apply slice_bytes).
    assert (length trailer_of = 48%nat) as Htl by (apply slice_length; lia).
    destruct (field64 16 trailer_of Ht ltac:(lia)) as [Hmo _].
    destruct (field64 32 trailer_of Ht ltac:(lia)) as [Hdo _].
    do 3 (apply exact_reject; intros _). apply exact_reject; intros Hml%negb_false_iff%Z.eqb_eq.
    do 3 (apply exact_reject; intros _).
    eapply exact_read; [done|done|intros Hm].
    set (M := slice content (be64 (drop 16 trailer_of)) 4096).
    assert (all_bytes M) as Hmb by (by apply slice_bytes).
    assert (length M = 4096%nat) as HM by (by apply slice_length).
    destruct (field32 24 M Hmb ltac:(lia)) as [Hec _].
    do 6 (apply exact_reject; intros _). apply exact_reject; intros Hused%Z.ltb_ge.
    apply exact_zero; [apply Z.mod_pos_bound; lia|intros _].
    eapply exact_bind; [apply (decode_entries_exact _ _ _ _ _ Hmb Hmo); rewrite Hml in Hused; clear -HM Hused Hec; lia|intros es Hes].
    apply exact_reject; intros _. eapply exact_read; [done|done|intros _].
    apply exact_reject; intros _. apply exact_ret. }
  intros p. cbv beta. unfold range_ends_at_or_before, COSMIC_PORTABLE_MAGIC_LENGTH.
  rewrite !orb_false_iff, !negb_false_iff, !andb_true_iff, !bool_decide_eq_false, !Z.eqb_eq, !Z.leb_le, !Z.ltb_ge, !Z.eqb_neq.
  split.
  - intros (_ & _ & Hsize & _ & Hmagic%dec_stable & Hv & Htl & Hml & [[Hm1 Hm2] Hm3] & [[Hd1 Hd2] Hd3] & [Hf Hal]
      & Hmend & Hmm%dec_stable & Hmv & Hmlen & Hel & [Hp1 Hp2] & [Hc1 Hc2] & Hu & Hz & es & [Hes Hok]
      & Hdl%Z.ltb_ge & Hdend & Hdb%bool_decide_eq_false%dec_stable & ->).
    assert (all_bytes trailer_of) as Ht by (by apply slice_bytes).
    assert (length trailer_of = 48%nat) as Htl' by (apply slice_length; lia).
    pose proof (field64 16 trailer_of Ht ltac:(lia)) as F1. pose proof (field64 32 trailer_of Ht ltac:(lia)) as F2.
    pose proof (field64 40 trailer_of Ht ltac:(lia)) as F3.
    assert (all_bytes (slice content (be64 (drop 16 trailer_of)) 4096)) as Hmb by (by apply slice_bytes).
    assert (length (slice content (be64 (drop 16 trailer_of)) 4096) = 4096%nat) as HM by (apply slice_length; clear -F1 Hmend; lia).
    pose proof (field32 24 _ Hmb ltac:(lia)) as F4.
    rewrite Hml in *. unfold INT64_MAX in Hmax.
    remember (be64 (drop 16 trailer_of)) as mo eqn:Emo. fold (manifest_at mo) in *.
    remember (be64 (drop 32 trailer_of)) as doff eqn:Edo. remember (be64 (drop 40 trailer_of)) as dlen eqn:Edl.
    remember (be32 (drop 24 (manifest_at mo))) as count eqn:Ec.
    remember (be64 (drop 16 (manifest_at mo))) as prefix eqn:Ep.
    clear Ht Htl' Hmb HM. unfold u64 in *.
    rewrite Z.mod_small in Hm3 by lia. rewrite Z.mod_small in Hd3 by lia.
    rewrite Z.mod_small in Hz by lia.
    split; cbn [prefix_length manifest_offset manifest_length database_offset database_length entry_count
                entries selected]; auto with lia.
    all: split_and!; auto with lia.
  - intros [Hsize (Hmagic & Hv & Htl) (Emo & Eml & Edo & Edl) (Hml & Hm & Hd & Hf & Hal)
      (Hmm & Hmv & Hmlen & Ep & Ec & Hel) Hp Hcount Hz [Hes Hok] [Hdl Hdb] Hsel].
    assert (all_bytes trailer_of) as Ht by (by apply slice_bytes).
    assert (length trailer_of = 48%nat) as Htl' by (apply slice_length; lia).
    pose proof (field64 16 trailer_of Ht ltac:(lia)) as F1. clear Ht Htl'.
    destruct p as [prefix mo ml doff dlen count es sel]. cbn [prefix_length manifest_offset manifest_length
      database_offset database_length entry_count entries selected] in *.
    unfold manifest_at in *. rewrite Emo, Eml, Edo, Edl, Ep, Ec in *. subst ml prefix sel.
    unfold INT64_MAX, u64 in *. rewrite !Z.mod_small by lia.
    split_and!; auto with lia.
    { by rewrite Hml, Z.mod_small by lia. }
    exists es. split_and!; [done|done|by apply Z.ltb_ge|lia|by apply bool_decide_eq_false; intros []|].
    done.
Qed.

#[local] Transparent be32 be64 slice raw_entries zero_or read_or decode_entries.

End exact.

Arguments read_blocks content magic first T M p : clear implicits.
Arguments trailer_of content : clear implicits.
Arguments manifest_at content offset : clear implicits.
Arguments zero_slice content offset length_ : clear implicits.
Arguments exact {_} content {X} m P.

(** ** The manifest block *)

Fixpoint raw_list (n : nat) (body : bytes) : list entry :=
  match n with O => [] | S n => raw_entry body :: raw_list n (drop 104 body) end.

Lemma raw_entries_list M i n : raw_entries M i n = raw_list n (drop (32 + i * 104) M).
Proof.
  revert i. induction n as [|n IH]; intros i; [done|]. unfold raw_entries in *. cbn [seq fmap list_fmap raw_list].
  f_equal. rewrite IH, drop_drop. do 2 f_equal. lia.
Qed.

Lemma raw_list_bytes es rest : Forall entry_fits es → raw_list (length es) ((es ≫= entry_bytes) ++ rest) = es.
Proof.
  induction 1 as [|e es He Hes IH]; [done|]. cbn [length raw_list]. rewrite bind_cons, <-app_assoc.
  rewrite raw_entry_bytes by done. by rewrite drop_app_length', IH by (by rewrite entry_bytes_length).
Qed.

Lemma raw_list_length n body : length (raw_list n body) = n.
Proof. revert body. induction n as [|n IH]; intros body; simpl; [done|by rewrite IH]. Qed.

Lemma bytes_raw_list n body :
  all_bytes body → (n * 104 ≤ length body)%nat →
  (raw_list n body ≫= entry_bytes) = take (n * 104) body ∧ Forall entry_fits (raw_list n body).
Proof.
  revert body. induction n as [|n IH]; intros body Hb Hl; [done|]. cbn [raw_list]. rewrite bind_cons.
  destruct (IH (drop 104 body)) as [-> Hfits]; [by apply Forall_drop|rewrite length_drop; lia|].
  rewrite entry_bytes_raw by (done || lia). split; [|constructor; [apply raw_entry_fits; [done|lia]|done]].
  by rewrite take_take_drop.
Qed.

Lemma entries_length es : Forall entry_fits es → length (es ≫= entry_bytes) = (length es * 104)%nat.
Proof.
  induction 1 as [|e es He Hes IH]; [done|]. rewrite bind_cons, length_app, IH, entry_bytes_length by done. done.
Qed.

Lemma all_zero (bs : bytes) : Forall (λ b, b = 0) bs ↔ bs = replicate (length bs) 0.
Proof.
  split; [|intros ->; by apply Forall_replicate].
  induction 1 as [|b bs -> Hbs IH]; [done|]. cbn [length replicate]. by f_equal.
Qed.

Lemma header_length prefix count : length (header_bytes prefix count) = 32%nat.
Proof. unfold header_bytes. by rewrite !length_app, !be_length. Qed.

(** A block of 4096 bytes is the encoding of what is read of it. *)
Lemma manifest_read M p :
  all_bytes M → length M = 4096%nat → 1 ≤ entry_count p ≤ 8 →
  M = manifest_bytes p ∧ 0 ≤ prefix_length p < 2 ^ 64 ∧ entry_count p = Z.of_nat (length (entries p)) ∧
    Forall entry_fits (entries p) ↔
  (take 8 M = COSMIC_PORTABLE_MANIFEST_MAGIC ∧ be32 (drop 8 M) = 2 ∧ be32 (drop 12 M) = 4096 ∧
   be64 (drop 16 M) = prefix_length p ∧ be32 (drop 24 M) = entry_count p ∧ be32 (drop 28 M) = 104) ∧
  entries p = raw_entries M 0 (Z.to_nat (entry_count p)) ∧
  Forall (λ b, b = 0) (drop (Z.to_nat (32 + entry_count p * 104)) M).
Proof.
  intros Hb Hl Hcount. rewrite <-header_read, raw_entries_list by (done || lia). split.
  - intros (-> & Hprefix & Hn & Hfits). unfold manifest_bytes. split_and!; try lia.
    + by rewrite take_app_length' by (by rewrite header_length).
    + rewrite Nat.mul_0_l, Nat.add_0_r, drop_app_length' by (by rewrite header_length).
      by rewrite Hn, Nat2Z.id, raw_list_bytes.
    + rewrite app_assoc, drop_app_length' by (rewrite length_app, header_length, entries_length by done; lia).
      by apply Forall_replicate.
  - intros ((Hhead & Hprefix & _) & Hes & Hz). rewrite Nat.mul_0_l, Nat.add_0_r in Hes.
    destruct (bytes_raw_list (Z.to_nat (entry_count p)) (drop 32 M)) as [Hbody Hfits];
      [by apply Forall_drop|rewrite length_drop; lia|].
    rewrite <-Hes in Hbody, Hfits. split_and!; try lia; [|by rewrite Hes, raw_list_length; lia|done].
    unfold manifest_bytes. rewrite <-Hhead, Hbody. apply all_zero in Hz. rewrite length_drop, Hl in Hz.
    rewrite <-(take_drop 32 M) at 1. f_equal. rewrite <-(take_drop (Z.to_nat (entry_count p) * 104) (drop 32 M)) at 1.
    f_equal. rewrite drop_drop. unfold zeros.
    replace (32 + Z.to_nat (entry_count p) * 104)%nat with (Z.to_nat (32 + entry_count p * 104)) by lia.
    rewrite Hz. f_equal. lia.
Qed.

Lemma trailer_length magic p : length magic = 8%nat → length (trailer_bytes magic p) = 48%nat.
Proof. intros Hm. unfold trailer_bytes. by rewrite !length_app, !be_length, Hm. Qed.

Lemma manifest_length_4096 p :
  entry_count p = Z.of_nat (length (entries p)) → (length (entries p) ≤ 8)%nat → Forall entry_fits (entries p) →
  length (manifest_bytes p) = 4096%nat.
Proof.
  intros Hn Hle Hfits. unfold manifest_bytes, zeros.
  rewrite !length_app, header_length, entries_length, length_replicate by done. lia.
Qed.

Lemma slice_drop content o n k : 0 ≤ o → 0 ≤ k → drop (Z.to_nat k) (slice content o n) = slice content (o + k) (n - k).
Proof. intros. unfold slice. rewrite skipn_firstn_comm, drop_drop. f_equal; [lia|]. f_equal. lia. Qed.

(** Four parts of the file, one after another. *)
Lemma slice_four content a b c :
  0 ≤ a ≤ b → b ≤ c ≤ Z.of_nat (length content) →
  content = slice content 0 a ++ slice content a (b - a) ++ slice content b (c - b)
            ++ slice content c (Z.of_nat (length content) - c).
Proof.
  intros Ha Hc. replace (slice content b (c - b)) with (slice content (a + (b - a)) (c - b)) by (f_equal; lia).
  replace (slice content c (Z.of_nat (length content) - c))
    with (slice content (0 + c) (Z.of_nat (length content) - c)) by (f_equal; lia).
  rewrite (app_assoc (slice content a (b - a))), slice_app by lia. rewrite app_assoc.
  replace (slice content a (b - a + (c - b))) with (slice content (0 + a) (c - a)) by (f_equal; lia).
  rewrite slice_app by lia. replace (a + (c - a)) with c by lia. rewrite slice_app by lia.
  unfold slice. by rewrite take_ge by (rewrite length_drop; lia).
Qed.

Lemma slice_part (front mid back : bytes) o n :
  o = Z.of_nat (length front) → n = Z.of_nat (length mid) → slice (front ++ mid ++ back) o n = mid.
Proof. intros -> ->. unfold slice. by rewrite !Nat2Z.id, drop_app_length, take_app_length. Qed.

Section framed.
Context `{KernelLaws content}.

Lemma framed_of_read magic first p :
  length magic = 8%nat → 0 ≤ first →
  read_blocks content magic first (trailer_of content) (manifest_at content (manifest_offset p)) p →
  framed magic first content (slice content 0 (manifest_offset p)) p.
Proof.
  intros Hmagic Hfirst [Hsize Ht Ho (Hml & Hmo & Hdo & Hf & Hal) Hm Hprefix Hcount [_ Hz] [Hes Hok] [Hdl Hdb] Hsel].
  pose proof content_bytes as Hbytes.
  destruct (proj2 (trailer_read magic p (trailer_of content) Hmagic ltac:(by apply slice_bytes) ltac:(apply slice_length; lia)))
    as (HT & F1 & _ & F2 & F3); [done|].
  destruct (proj2 (manifest_read (manifest_at content (manifest_offset p)) p ltac:(by apply slice_bytes)
    ltac:(apply slice_length; lia) Hcount)) as (HM & _ & Hn & Hfits).
  { split_and!; [by apply Hm..|done|]. unfold manifest_at. by rewrite slice_drop by lia. }
  split; [|split_and!; [|done|done]|split_and!; [done|lia|done]|split_and!; [done|lia|lia|done|done]|done].
  - exists (slice content (database_offset p) (database_length p)). split_and!.
    + rewrite <-HT, <-HM. unfold trailer_of, manifest_at.
      etrans; [apply (slice_four content (manifest_offset p) (database_offset p) (Z.of_nat (length content) - 48)); lia|].
      replace (database_offset p - manifest_offset p) with 4096 by lia.
      replace (Z.of_nat (length content) - 48 - database_offset p) with (database_length p) by lia.
      by replace (Z.of_nat (length content) - (Z.of_nat (length content) - 48)) with 48 by lia.
    + rewrite slice_length by lia. lia.
    + rewrite <-Hdb. unfold slice. exists (drop 16 (slice content (database_offset p) (database_length p))).
      unfold slice. rewrite <-(take_drop 16 (take _ (drop _ content))) at 1. f_equal.
      rewrite take_take. f_equal. lia.
  - rewrite slice_length by lia. lia.
Qed.

Lemma read_of_framed magic first front p :
  length magic = 8%nat → 0 ≤ first →
  framed magic first content front p →
  front = slice content 0 (manifest_offset p) ∧
  read_blocks content magic first (trailer_of content) (manifest_at content (manifest_offset p)) p.
Proof.
  intros Hmagic Hfirst [(database & Hc & Hdl & Hdb) (Hmo & Hf & Hal) (Hml & Hdo & Hprefix) (Hn & Hle & Hfits & Hok) Hsel].
  pose proof content_bytes as Hbytes. pose proof content_size as Hmax. unfold INT64_MAX in Hmax.
  pose proof (trailer_length magic p Hmagic) as LT.
  pose proof (manifest_length_4096 p Hn ltac:(lia) Hfits) as LM.
  assert (Z.of_nat (length content) = manifest_offset p + 4096 + database_length p + 48) as Hlen.
  { rewrite Hc, !length_app, LT, LM. lia. }
  assert (16 ≤ database_length p) as Hd16.
  { destruct Hdb as [rest Hdb]. apply (f_equal length) in Hdb. rewrite length_app in Hdb. change (length SQLITE_HEADER) with 16%nat in Hdb. lia. }
  assert (front = slice content 0 (manifest_offset p)) as Hfront.
  { rewrite Hc. symmetry. by apply (slice_part []). }
  assert (manifest_at content (manifest_offset p) = manifest_bytes p) as HM.
  { unfold manifest_at. rewrite Hc. apply slice_part; lia. }
  assert (trailer_of content = trailer_bytes magic p) as HT.
  { unfold trailer_of. rewrite Hlen, Hc, !app_assoc.
    rewrite <-(app_nil_r (trailer_bytes magic p)) at 1. apply slice_part; rewrite ?length_app; lia. }
  assert (slice content (database_offset p) 16 = SQLITE_HEADER) as HD.
  { destruct Hdb as [rest ->]. rewrite Hc.
    replace (front ++ _) with ((front ++ manifest_bytes p) ++ SQLITE_HEADER ++ rest ++ trailer_bytes magic p)
      by (by rewrite <-!app_assoc).
    apply slice_part; [rewrite length_app; lia|done]. }
  assert (1 ≤ entry_count p ≤ 8) as Hcount by lia.
  destruct (proj1 (trailer_read magic p (trailer_of content) Hmagic ltac:(by apply slice_bytes) ltac:(by rewrite HT)))
    as [Ht Ho]; [split_and!; [done|lia..]|].
  destruct (proj1 (manifest_read (manifest_at content (manifest_offset p)) p ltac:(by apply slice_bytes)
    ltac:(by rewrite HM) Hcount)) as (Hm & Hes & Hz); [split_and!; [done|lia|lia|done|done]|].
  split; [done|]. split; try done; try lia; split_and!; try done; try lia.
  unfold manifest_at in Hz. by rewrite slice_drop in Hz by lia.
Qed.

End framed.
