(* ===== verification/PortableTheorems.v ===== *)
(** * What the decoders of an artifact accept

    [decode_host] and [decode_portable] of [core/portable.c] against the
    format, and the choice of a core. *)

From S2P Require Import Prelude.
From S2P Require Import ReadAt.
From S2P Require Import Portable.
From S2P Require Import PortableSpec.
From S2P Require Import PortableCorrect.

Local Open Scope Z_scope.

(** ** Alignment *)

Lemma align_core_aligned at_ :
  0 ≤ at_ ≤ INT64_MAX → align_core at_ = Some (aligned at_) ∧ at_ ≤ aligned at_ < at_ + 16384 ∧ aligned at_ mod 16384 = 0.
Proof.
  unfold align_core, aligned, COSMIC_PORTABLE_CORE_ALIGNMENT, INT64_MAX. intros Hat.
  assert (at_ + (if at_ mod 16384 =? 0 then 0 else 16384 - at_ mod 16384) = (at_ + 16383) / 16384 * 16384
          ∧ 0 ≤ (if at_ mod 16384 =? 0 then 0 else 16384 - at_ mod 16384) < 16384) as [-> Hp] by (zcases; zdiv).
  rewrite (proj2 (Z.ltb_ge _ _)) by lia. split; [done|]. split; [zdiv|]. apply Z.mod_mul. lia.
Qed.

Lemma zeros_length n : Z.of_nat (length (zeros n)) = Z.max 0 n.
Proof. unfold zeros. rewrite length_replicate. lia. Qed.

Section theorems.
Context `{KernelLaws content}.

(** A gap that lies in the file is zero exactly when its bytes are zeros. *)
Lemma zero_slice_zeros offset len :
  0 ≤ offset → 0 ≤ len → offset + len ≤ Z.of_nat (length content) →
  zero_slice content offset len ↔ slice content offset len = zeros len.
Proof.
  intros Ho Hlen Hend. unfold zero_slice. rewrite all_zero, slice_length by lia. unfold zeros.
  split; [by intros []|]. intros Hz. by split; [lia|].
Qed.

(** What [decode_blocks] accepts is framed. *)
Lemma decode_blocks_exact magic first :
  length magic = 8%nat → 0 ≤ first ≤ 16384 →
  exact content (decode_blocks magic first)
    (λ p, framed magic first content (slice content 0 (manifest_offset p)) p).
Proof.
  intros Hmagic Hfirst. eapply exact_iff, decode_blocks_reads; [|done]. intros p. split.
  - by apply framed_of_read; [|lia].
  - intros Hf. by eapply read_of_framed in Hf as [_ ?]; [| |lia].
Qed.

Lemma framed_offset magic first front p :
  framed magic first content front p → 0 ≤ manifest_offset p ∧ manifest_offset p + 4096 ≤ Z.of_nat (length content) ≤ INT64_MAX.
Proof.
  intros [(database & Hc & _) (Hmo & _) _ (Hn & Hle & Hfits & _) _]. pose proof content_size. split; [lia|]. split; [|done].
  apply (f_equal length) in Hc. rewrite !length_app, manifest_length_4096 in Hc by (done || lia). lia.
Qed.

Lemma framed_entry magic first front p i e :
  framed magic first content front p → entries p !! i = Some e →
  entry_fits e ∧ entry_ok first (manifest_offset p) e.
Proof.
  intros [_ _ _ (_ & _ & Hfits & Hok) _] He. rewrite Forall_lookup in Hfits, Hok. split; [by eapply Hfits|by eapply Hok].
Qed.

(** The zeros after a part of the front that ends at [len]. *)
Lemma front_padded len limit :
  0 ≤ len ≤ INT64_MAX → limit = aligned len → limit ≤ Z.of_nat (length content) →
  zero_slice content len (limit - len) ↔ slice content 0 limit = slice content 0 len ++ padding len.
Proof.
  intros Hlen -> Hend. destruct (align_core_aligned len Hlen) as (_ & Hal & _).
  rewrite zero_slice_zeros by lia. unfold padding.
  assert (slice content 0 (aligned len) = slice content 0 len ++ slice content len (aligned len - len)) as ->.
  { change (slice content len) with (slice content (0 + len)). rewrite slice_app by lia. f_equal. lia. }
  split; [by intros ->|]. apply app_inv_head.
Qed.

Lemma decode_host_exact : exact content decode_host (host_program content).
Proof.
  unfold decode_host. eapply exact_iff.
  2: {
    eapply exact_bind; [by apply decode_blocks_exact|]. intros p Hp.
    apply exact_reject; intros Hcount%negb_false_iff%Z.eqb_eq. cbv zeta. set (e := entries p !!! 0%nat).
    apply exact_reject; intros [_ Hcodec%negb_false_iff%Z.eqb_eq]%orb_false_iff.
    apply exact_reject; intros Ho%negb_false_iff%Z.eqb_eq.
    pose proof (framed_offset _ _ _ _ Hp) as Hmo. pose proof Hp as [_ _ _ (Hn & Hle & _) _].
    assert (entries p !! 0%nat = Some e) as He by (apply list_lookup_lookup_total_lt; lia).
    destruct (framed_entry _ _ _ _ _ _ Hp He) as [_ [_ _ _ _ Hraw Hrange]]. destruct (Hraw Hcodec) as [Hsl _].
    assert (0 ≤ core_length e ≤ INT64_MAX) as Hcl by lia.
    rewrite (proj1 (align_core_aligned _ Hcl)).
    apply exact_reject; intros _. apply exact_zero; [lia|]. intros _. apply exact_ret. }
  intros p. cbv beta. split.
  - intros (p' & Hp & Hcount%negb_false_iff%Z.eqb_eq & [Hkind%negb_false_iff%Z.eqb_eq Hcodec%negb_false_iff%Z.eqb_eq]%orb_false_iff
      & Ho%negb_false_iff%Z.eqb_eq & Hmo%negb_false_iff%Z.eqb_eq & Hz & ->).
    pose proof (framed_offset _ _ _ _ Hp) as Hend. pose proof Hp as [_ _ _ (Hn & Hle & _) _].
    destruct (entries p') as [|e [|]] eqn:Hes; try (simpl in *; lia). simpl in *.
    destruct (framed_entry _ _ _ _ 0 e Hp) as [_ [_ _ _ _ Hraw Hrange]]; [by rewrite Hes|]. destruct (Hraw Hcodec) as [Hsl _].
    exists (slice content 0 (core_length e)), e. split_and!; try done; [rewrite slice_length; lia|].
    rewrite <-Hmo in Hz.
    rewrite <-(proj1 (front_padded (core_length e) (manifest_offset p') ltac:(lia) Hmo ltac:(lia)) Hz). done.
  - intros (core & e & Hes & Hkind & Hcodec & Ho & Hcl & Hp).
    pose proof (framed_offset _ _ _ _ Hp) as Hend. pose proof Hp as [_ (Hmo & _) _ (Hn & Hle & _) _].
    destruct (read_of_framed COSMIC_HOST_TRAILER_MAGIC 0 _ _ eq_refl ltac:(lia) Hp) as [Hfront _].
    destruct (align_core_aligned (core_length e) ltac:(unfold INT64_MAX in *; rewrite length_app in Hmo; lia)) as (_ & Hal & _).
    assert (manifest_offset p = aligned (core_length e)) as Haligned.
    { rewrite Hmo, length_app, Nat2Z.inj_add. unfold padding. rewrite zeros_length. lia. }
    exists p. rewrite Hes. simpl. rewrite Hkind, Hcodec, <-Hfront. split_and!; try done.
    + by rewrite Hn, Hes.
    + by rewrite Ho.
    + by rewrite Haligned, Z.eqb_refl.
    + rewrite <-Haligned.
      apply (front_padded (core_length e) (manifest_offset p) ltac:(unfold INT64_MAX in *; lia) Haligned ltac:(lia)).
      assert (slice content 0 (core_length e) = core) as ->; [|done].
      etrans; [symmetry; apply (slice_slice content 0 (manifest_offset p) 0 (core_length e)); lia|]. rewrite <-Hfront.
      by apply (slice_part []).
Qed.

(** ** Identities *)

(** Entries whose ranges end where 63 bits do. *)
Definition in_range (e : entry) : Prop :=
  0 ≤ offset e ∧ offset e mod 16384 = 0 ∧ 0 < stored_length e ∧ offset e + stored_length e ≤ INT64_MAX.

Definition disjoint (e other : entry) : Prop :=
  offset other + stored_length other ≤ offset e ∨ offset e + stored_length e ≤ offset other.

Lemma check_others_exact e others :
  in_range e → Forall in_range others →
  exact content (check_others e others) (λ _, Forall (λ other, identity e ≠ identity other ∧ disjoint e other) others).
Proof.
  intros He. induction 1 as [|other others Ho Hothers IH]; cbn [check_others].
  { eapply exact_iff, exact_ret. intros []. by split. }
  eapply exact_iff; [|do 2 (apply exact_reject; intros _); apply IH]. intros []. cbv beta.
  unfold in_range, disjoint, identity, u64, INT64_MAX in *. rewrite !Z.mod_small by lia.
  rewrite Forall_cons, !andb_false_iff, !Z.eqb_neq, !Z.ltb_ge. split.
  - intros (H1 & H2 & H3). split; [|done]. split; [intros [= ? ? ?]; tauto|tauto].
  - intros ([H1 H2] & H3). split_and!; [|tauto|done].
    destruct (decide (target_id e = target_id other)) as [E1|]; [|tauto].
    destruct (decide (configuration_id e = configuration_id other)) as [E2|]; [|tauto].
    right. intros E3. apply H1. by rewrite E1, E2, E3.
Qed.

(** What the first loop asks of entry [k]. *)
Definition entry_checked (es : list entry) (k : nat) : Prop :=
  Forall (λ other, identity (es !!! k) ≠ identity other ∧ disjoint (es !!! k) other) (take k es) ∧
  (kind (es !!! k) = 1 → codec (es !!! k) ≠ 0 → stubbed es (es !!! k) = true).

Lemma check_identities_exact es turns i :
  Forall in_range es → (i + turns ≤ length es)%nat →
  exact content (check_identities es turns i) (λ _, ∀ k, (i ≤ k < i + turns)%nat → entry_checked es k).
Proof.
  intros Hes. revert i. induction turns as [|turns IH]; intros i Hi; cbn [check_identities].
  { eapply exact_iff, exact_ret. intros []. split; [intros _; lia|done]. }
  assert (in_range (es !!! i)) as He.
  { destruct (lookup_lt_is_Some_2 es i ltac:(lia)) as [e Hl]. rewrite (list_lookup_total_correct _ _ _ Hl).
    by eapply Forall_lookup_1. }
  eapply exact_iff; [|eapply exact_then; [apply check_others_exact; [done|by apply Forall_take]|intros _;
                      apply exact_reject; intros _; apply IH; lia]].
  intros []. cbv beta. rewrite !andb_false_iff, !negb_false_iff, Z.eqb_neq, Z.eqb_eq.
  change COSMIC_PORTABLE_KIND_CORE with 1. change COSMIC_PORTABLE_CODEC_RAW with 0. split.
  - intros (H1 & H2 & H3) k Hk. destruct (decide (k = i)) as [->|]; [|apply H3; lia].
    split; [done|]. intros. destruct H2 as [[?|?]|?]; done.
  - intros Hall. destruct (Hall i ltac:(lia)) as [H1 H2]. split_and!; [done| |intros k Hk; apply Hall; lia].
    destruct (decide (kind (es !!! i) = 1)); [|tauto]. destruct (decide (codec (es !!! i) = 0)); [tauto|auto].
Qed.

(** ** Gaps *)

Lemma nearer_spec es after n :
  match foldl (nearer es after) None (seq 0 n) with
  | None => ∀ j, (j < n)%nat → offset (es !!! j) < after
  | Some i => (i < n)%nat ∧ after ≤ offset (es !!! i) ∧
      ∀ j, (j < n)%nat → after ≤ offset (es !!! j) → offset (es !!! i) ≤ offset (es !!! j)
  end.
Proof.
  induction n as [|n IH]; [by intros j ?%Nat.nlt_0_r|]. rewrite seq_S, foldl_app. cbn [foldl].
  destruct (foldl _ _ _) as [i|]; unfold nearer; rewrite Nat.add_0_l.
  - destruct IH as (Hi & Ha & Hmin).
    destruct (Z.leb_spec after (offset (es !!! n))), (Z.ltb_spec (offset (es !!! n)) (offset (es !!! i))); simpl.
    1: split_and!; [lia|lia|intros j Hj Hja; destruct (decide (j = n)) as [->|]; [lia|specialize (Hmin j ltac:(lia) Hja); lia]].
    all: split_and!; [lia|lia|intros j Hj Hja; destruct (decide (j = n)) as [->|]; [lia|apply Hmin; [lia|done]]].
  - destruct (Z.leb_spec after (offset (es !!! n))); simpl.
    + split_and!; [lia|done|]. intros j Hj Hja. destruct (decide (j = n)) as [->|]; [lia|].
      specialize (IH j ltac:(lia)). lia.
    + intros j Hj. destruct (decide (j = n)) as [->|]; [done|]. apply IH. lia.
Qed.

(** The cores from [a] on in the order of the file, to the end [b] of the
    last, with what is between them zero. *)
Fixpoint chain (a : Z) (order : list entry) (b : Z) : Prop :=
  match order with
  | [] => b = a
  | e :: order =>
      offset e = aligned a ∧ zero_slice content a (aligned a - a) ∧ chain (offset e + stored_length e) order b
  end.

Lemma check_gaps_exact es turns a :
  Forall in_range es → (∀ e e', e ∈ es → e' ∈ es → offset e = offset e' → e = e') → 0 ≤ a ≤ INT64_MAX →
  exact content (check_gaps es turns a)
    (λ b, ∃ order, length order = turns ∧ Forall (λ e, e ∈ es) order ∧ chain a order b).
Proof.
  intros Hes Hinj. revert a. induction turns as [|turns IH]; intros a Ha; cbn [check_gaps].
  { eapply exact_iff, exact_ret. intros b. split; [by intros ->; exists []|].
    by intros ([|] & ? & _ & ?). }
  pose proof (nearer_spec es a (length es)) as Hnear. fold (next_core es a) in Hnear.
  destruct (align_core_aligned a Ha) as (Halign & Hal & Hal0).
  destruct (next_core es a) as [i|] eqn:Hnext.
  - destruct Hnear as (Hi & Hai & Hmin). destruct (lookup_lt_is_Some_2 es i Hi) as [e He].
    rewrite (list_lookup_total_correct _ _ _ He) in *. assert (e ∈ es) as Hin by (by eapply list_elem_of_lookup_2).
    assert (in_range e) as (H1 & H2 & H3 & H4) by (by eapply Forall_lookup_1).
    rewrite Halign. eapply exact_iff.
    2: { apply exact_reject; intros _. apply exact_zero; [lia|intros _].
         unfold u64. rewrite Z.mod_small by (unfold INT64_MAX in *; lia). apply IH. lia. }
    intros b. cbv beta. rewrite negb_false_iff, Z.eqb_eq. split.
    + intros (Ho & Hz & order & Hlen & Hall & Hchain). exists (e :: order).
      split_and!; [by rewrite <-Hlen|by constructor|]. simpl. by split_and!.
    + intros ([|e' order] & Hlen & Hall & Hchain); [done|]. apply Forall_cons in Hall as [He' Hall].
      destruct Hchain as (Ho & Hz & Hchain). destruct (proj1 (list_elem_of_lookup _ _) He') as [j Hj].
      specialize (Hmin j ltac:(by eapply lookup_lt_Some)). rewrite (list_lookup_total_correct _ _ _ Hj) in Hmin.
      assert (offset e = offset e') as Heq.
      { specialize (Hmin ltac:(lia)). clear -Hmin Ho Hal Hal0 H2 Hai. rewrite Ho in *. unfold aligned in *. zdiv. }
      rewrite (Hinj e e' Hin He' Heq). split_and!; [done|done|]. exists order. split_and!; [by injection Hlen|done|done].
  - eapply exact_iff, exact_fail. intros b. split; [done|].
    intros ([|e order] & Hlen & Hall & Hchain); [done|]. apply Forall_cons in Hall as [He Hall].
    destruct (proj1 (list_elem_of_lookup _ _) He) as [j Hj].
    specialize (Hnear j ltac:(by eapply lookup_lt_Some)). rewrite (list_lookup_total_correct _ _ _ Hj) in Hnear.
    destruct Hchain as [Ho _]. lia.
Qed.

(** ** Placement *)

Lemma chain_end a order b :
  0 ≤ a → Forall in_range order → chain a order b → a ≤ b ∧ (order ≠ [] → b ≤ INT64_MAX) ∧ Forall (λ e, a ≤ offset e) order.
Proof.
  intros Ha Hall. revert a Ha. induction Hall as [|e order He Hall IH]; intros a Ha; simpl.
  { intros ->. split_and!; [lia|done|constructor]. }
  destruct He as (H1 & H2 & H3 & H4). intros (Ho & _ & Hchain).
  destruct (IH (offset e + stored_length e) ltac:(lia) Hchain) as (Hle & Hmax & Hfrom).
  assert (a ≤ offset e) by (rewrite Ho; unfold aligned; zdiv). split_and!; [lia| |].
  - intros _. destruct order; [simpl in Hchain; lia|by apply Hmax].
  - constructor; [done|]. eapply Forall_impl; [done|]. simpl. lia.
Qed.

Lemma chain_disjoint a order b e e' :
  0 ≤ a → Forall in_range order → chain a order b → e ∈ order → e' ∈ order → e = e' ∨ disjoint e e'.
Proof.
  intros Ha Hall. revert a Ha. induction Hall as [|x order Hx Hall IH]; intros a Ha; simpl.
  { by intros _ ?%not_elem_of_nil. }
  destruct Hx as (H1 & H2 & H3 & H4). intros (Ho & _ & Hchain).
  destruct (chain_end (offset x + stored_length x) order b ltac:(lia) Hall Hchain) as (_ & _ & Hfrom). rewrite Forall_forall in Hfrom.
  rewrite !elem_of_cons. unfold disjoint.
  intros [->|He] [->|He']; [by left|right; right; by apply Hfrom|right; left; by apply Hfrom|].
  apply (IH (offset x + stored_length x)); [lia|done..].
Qed.

(** The stored bytes of an entry. *)
Definition stored_of (e : entry) : entry * bytes := (e, slice content (offset e) (stored_length e)).

Lemma gap_padding a :
  0 ≤ a ≤ INT64_MAX → aligned a ≤ Z.of_nat (length content) →
  zero_slice content a (aligned a - a) ↔ slice content a (aligned a - a) = padding a.
Proof.
  intros Ha Hend. destruct (align_core_aligned a Ha) as (_ & Hal & _). by apply zero_slice_zeros; lia.
Qed.

(** The gap before a core, the core, and the rest. *)
Lemma front_three a limit e :
  0 ≤ a ≤ aligned a → offset e = aligned a → 0 ≤ stored_length e → offset e + stored_length e ≤ limit →
  slice content a (aligned a - a) ++ slice content (offset e) (stored_length e)
  ++ slice content (offset e + stored_length e) (limit - (offset e + stored_length e))
  = slice content a (limit - a).
Proof.
  intros Ha Ho Hs Hl. rewrite Ho, <-(slice_join content a (aligned a) limit) by lia. f_equal.
  rewrite <-(slice_join content (aligned a) (aligned a + stored_length e) limit) by lia. do 2 f_equal. lia.
Qed.

Lemma chain_placed a order b limit :
  0 ≤ a ≤ INT64_MAX → Forall in_range order → Forall (λ e, offset e + stored_length e ≤ limit) order →
  limit ≤ Z.of_nat (length content) → limit = aligned b →
  chain a order b → zero_slice content b (limit - b) →
  placed a (stored_of <$> order) (slice content a (limit - a)).
Proof.
  intros Ha Hall. revert a Ha. pose proof content_size as Hmax.
  induction Hall as [|e order He Hall IH]; intros a Ha Hin Hlimit Hb; simpl.
  { intros -> Hz. rewrite Hb in *. rewrite (proj1 (gap_padding a Ha Hlimit) Hz). constructor. }
  destruct He as (H1 & H2 & H3 & H4). apply Forall_cons in Hin as [Hei Hin].
  intros (Ho & Hgap & Hchain) Hz. destruct (align_core_aligned a Ha) as (_ & Hal & _).
  assert (slice content a (limit - a) = padding a ++ slice content (offset e) (stored_length e)
          ++ slice content (offset e + stored_length e) (limit - (offset e + stored_length e))) as ->.
  { rewrite <-(proj1 (gap_padding a Ha ltac:(lia)) Hgap). symmetry. apply (front_three _ _ e); lia. }
  constructor; [done| |].
  - rewrite slice_length by lia. lia.
  - apply IH; [lia|done..].
Qed.

Lemma placed_chain a cores area limit :
  0 ≤ a ≤ INT64_MAX → Forall in_range cores.*1 → placed a cores area →
  area = slice content a (limit - a) → a ≤ limit ≤ Z.of_nat (length content) →
  ∃ b, a ≤ b ≤ INT64_MAX ∧ chain a cores.*1 b ∧ limit = aligned b ∧ zero_slice content b (limit - b).
Proof.
  intros Ha Hall Hp Harea Hlimit.
  induction Hp as [a|a e stored cores area Ho Hs Hp IH]; csimpl; destruct (align_core_aligned a Ha) as (_ & Hal & _).
  - assert (limit = aligned a) as ->.
    { apply (f_equal length), (f_equal Z.of_nat) in Harea. unfold padding in Harea.
      rewrite zeros_length, slice_length in Harea by lia. lia. }
    exists a. split_and!; [lia|lia|done|done|]. by apply gap_padding; [|lia|].
  - apply Forall_cons in Hall as [He Hall]. destruct He as (H1 & H2 & H3 & H4). cbn [fst] in *.
    assert (Z.of_nat (length area) = limit - (offset e + stored_length e)) as Hlen.
    { apply (f_equal length), (f_equal Z.of_nat) in Harea. rewrite !length_app in Harea. unfold padding in Harea.
      rewrite !Nat2Z.inj_add, zeros_length, slice_length in Harea by lia. lia. }
    assert (slice content a (limit - a) = slice content a (aligned a - a) ++ slice content (offset e) (stored_length e)
          ++ slice content (offset e + stored_length e) (limit - (offset e + stored_length e))) as Hsplit.
    { symmetry. apply (front_three _ _ e); lia. }
    rewrite Hsplit in Harea. apply app_inj_1 in Harea as [Hpad Harea].
    2: { apply Nat2Z.inj. unfold padding. rewrite zeros_length, slice_length by lia. lia. }
    apply app_inj_1 in Harea as [Hstored Harea]; [|apply Nat2Z.inj; rewrite slice_length by lia; lia].
    destruct IH as (b & Hb & Hchain & Hlb & Hz); [lia|done|done|lia|].
    exists b. split_and!; [lia|lia|done| |done|done|done]. by apply gap_padding; [|lia|].
Qed.

Lemma chain_NoDup a order b : 0 ≤ a → Forall in_range order → chain a order b → NoDup order.
Proof.
  intros Ha Hall. revert a Ha. induction Hall as [|e order He Hall IH]; intros a Ha; simpl; [constructor|].
  destruct He as (H1 & H2 & H3 & H4). intros (_ & _ & Hchain). constructor; [|apply (IH (offset e + stored_length e)); [lia|done]].
  destruct (chain_end (offset e + stored_length e) order b ltac:(lia) Hall Hchain) as (_ & _ & Hfrom).
  intros Hin. rewrite Forall_forall in Hfrom. specialize (Hfrom e Hin). lia.
Qed.

(** ** What the first loop lets through *)

Lemma stubbed_iff es e :
  stubbed es e = true ↔ ∃ stub, stub ∈ es ∧ identity stub = (target_id e, configuration_id e, 2).
Proof.
  unfold stubbed, identity. rewrite existsb_exists. setoid_rewrite <-list_elem_of_In.
  split; intros (stub & Hin & Hs); exists stub; (split; [done|]).
  - apply andb_true_iff in Hs as [[Hk%Z.eqb_eq Ht%Z.eqb_eq]%andb_true_iff Hc%Z.eqb_eq]. by rewrite Hk, Ht, Hc.
  - injection Hs as -> -> ->. by rewrite !Z.eqb_refl.
Qed.

(** No identity twice, no two ranges that meet, a stub for each compressed
    core. *)
Definition identities_ok (es : list entry) : Prop :=
  NoDup (identity <$> es) ∧ (∀ e e', e ∈ es → e' ∈ es → e = e' ∨ disjoint e e') ∧
  (∀ e, e ∈ es → kind e = 1 → codec e = 1 → ∃ stub, stub ∈ es ∧ identity stub = (target_id e, configuration_id e, 2)).

Lemma disjoint_sym e e' : disjoint e e' → disjoint e' e.
Proof. unfold disjoint. tauto. Qed.

Lemma checked_pair es j k e e' :
  (∀ k, (k < length es)%nat → entry_checked es k) → (j < k)%nat → es !! j = Some e → es !! k = Some e' →
  identity e' ≠ identity e ∧ disjoint e' e.
Proof.
  intros Hall Hjk Hj Hk. pose proof (lookup_lt_Some _ _ _ Hk). destruct (Hall k ltac:(done)) as [Hothers _].
  rewrite (list_lookup_total_correct _ _ _ Hk), Forall_lookup in Hothers. apply (Hothers j).
  by rewrite lookup_take_lt.
Qed.

Lemma checked_iff es :
  Forall (λ e, codec e = 0 ∨ codec e = 1) es →
  (∀ k, (k < length es)%nat → entry_checked es k) ↔ identities_ok es.
Proof.
  intros Hcodec. rewrite Forall_forall in Hcodec. split.
  - intros Hall. split_and!.
    + apply NoDup_alt. intros j k x (e & -> & Hj)%list_lookup_fmap_Some (e' & He & Hk)%list_lookup_fmap_Some.
      destruct (Nat.lt_trichotomy j k) as [Hjk|[->|Hjk]]; [|done|].
      * by destruct (checked_pair es j k e e').
      * by destruct (checked_pair es k j e' e).
    + intros e e' [j Hj]%list_elem_of_lookup [k Hk]%list_elem_of_lookup.
      destruct (Nat.lt_trichotomy j k) as [Hjk|[->|Hjk]]; [right|left; congruence|right].
      * by apply disjoint_sym, (checked_pair es j k e e').
      * by apply (checked_pair es k j e' e).
    + intros e [k Hk]%list_elem_of_lookup Hkind Hc. pose proof (lookup_lt_Some _ _ _ Hk).
      destruct (Hall k ltac:(done)) as [_ Hstub]. rewrite (list_lookup_total_correct _ _ _ Hk) in Hstub.
      apply stubbed_iff, Hstub; [done|by rewrite Hc].
  - intros (Hnd & Hdisj & Hstub) k Hk. destruct (lookup_lt_is_Some_2 es k Hk) as [e He].
    unfold entry_checked. rewrite (list_lookup_total_correct _ _ _ He).
    assert (e ∈ es) as Hin by (by eapply list_elem_of_lookup_2). split.
    + apply Forall_lookup. intros j e' [Hj Hjk]%lookup_take_Some.
      assert (identity e ≠ identity e') as Hne.
      { intros Heq. assert (k = j); [|lia]. rewrite NoDup_alt in Hnd. apply (Hnd k j (identity e)).
        - by rewrite list_lookup_fmap, He.
        - by rewrite list_lookup_fmap, Hj, Heq. }
      split; [done|]. destruct (Hdisj e e') as [->|?]; [done|by eapply list_elem_of_lookup_2|done|done].
    + intros Hkind Hc. apply stubbed_iff, Hstub; [done|done|]. by destruct (Hcodec e Hin).
Qed.

Lemma identities_offset es e e' :
  Forall in_range es → identities_ok es → e ∈ es → e' ∈ es → offset e = offset e' → e = e'.
Proof.
  intros Hall (_ & Hdisj & _) He He' Ho. rewrite Forall_forall in Hall.
  destruct (Hdisj e e' He He') as [?|Hd]; [done|]. unfold disjoint in Hd.
  destruct (Hall e He) as (_ & _ & ? & _). destruct (Hall e' He') as (_ & _ & ? & _). lia.
Qed.

(** ** The two formats *)

Lemma framed_in_range magic first front p :
  framed magic first content front p → 0 ≤ first →
  Forall in_range (entries p) ∧ Forall (λ e, offset e + stored_length e ≤ manifest_offset p) (entries p) ∧
  Forall (λ e, codec e = 0 ∨ codec e = 1) (entries p).
Proof.
  intros Hp Hfirst. pose proof (framed_offset _ _ _ _ Hp) as Hmo. pose proof Hp as [_ _ _ (_ & _ & _ & Hok) _].
  split_and!; (eapply Forall_impl; [done|]); intros e [_ _ Hcodec _ _ Hrange]; simpl; [|lia|done].
  unfold in_range. lia.
Qed.

Lemma order_in_range es order :
  Forall in_range es → Forall (λ e, e ∈ es) order → Forall in_range order.
Proof. rewrite !Forall_forall. auto. Qed.

(** The end of a chain over all the entries. *)
Lemma order_end es order b :
  Forall in_range es → (1 ≤ length es)%nat → length order = length es → Forall (λ e, e ∈ es) order →
  chain COSMIC_PORTABLE_SHELL_LENGTH order b → 0 ≤ b ≤ INT64_MAX.
Proof.
  intros Hin Hle Hlen Hall Hchain.
  destruct (chain_end COSMIC_PORTABLE_SHELL_LENGTH order b ltac:(done) ltac:(by eapply order_in_range) Hchain)
    as (Hb & Hmax & _).
  unfold COSMIC_PORTABLE_SHELL_LENGTH in Hb. split; [lia|]. apply Hmax. by destruct order; simpl in *; [lia|].
Qed.

Lemma shell_shebang shell rest :
  content = shell ++ rest → SHEBANG `prefix_of` shell → slice content 0 (Z.of_nat (length SHEBANG)) = SHEBANG.
Proof. intros Hc [tail ->]. rewrite Hc, <-(assoc_L app). by apply (slice_part []). Qed.

Lemma slice_prefix n k : 0 ≤ k ≤ n → slice content 0 k `prefix_of` slice content 0 n.
Proof.
  intros Hk. exists (slice content k (n - k)). by rewrite slice_front.
Qed.

Lemma portable_of_checked p order b :
  framed COSMIC_PORTABLE_TRAILER_MAGIC COSMIC_PORTABLE_SHELL_LENGTH content (slice content 0 (manifest_offset p)) p →
  slice content 0 (Z.of_nat (length SHEBANG)) = SHEBANG → identities_ok (entries p) →
  length order = length (entries p) → Forall (λ e, e ∈ entries p) order →
  chain COSMIC_PORTABLE_SHELL_LENGTH order b → manifest_offset p = aligned b →
  zero_slice content b (aligned b - b) → portable_artifact content p.
Proof.
  intros Hp Hshebang (Hnd & Hdisj & Hstub) Hlen Hall Hchain Hmo Hz.
  destruct (framed_in_range _ _ _ _ Hp ltac:(done)) as (Hin & Hlim & _).
  pose proof (framed_offset _ _ _ _ Hp) as Hend. pose proof Hp as [_ (_ & Hf & _) _ _ _].
  assert (Forall in_range order) as Hino by (by eapply order_in_range).
  unfold COSMIC_PORTABLE_SHELL_LENGTH in *.
  exists (slice content 0 16384), (stored_of <$> order), (slice content 16384 (manifest_offset p - 16384)).
  split_and!; [rewrite slice_length by lia; done| | | |done|done|].
  - rewrite <-Hshebang. apply slice_prefix. simpl. lia.
  - rewrite <-list_fmap_compose. rewrite (list_fmap_ext _ id) by done. rewrite list_fmap_id.
    apply submseteq_length_Permutation; [|lia]. apply NoDup_submseteq; [by eapply (chain_NoDup 16384)|].
    by rewrite Forall_forall in Hall.
  - apply (chain_placed _ _ b); [done|done| |lia|done|done|by rewrite Hmo].
    rewrite !Forall_forall in *. auto.
  - by rewrite slice_front by lia.
Qed.

Lemma checked_of_portable p :
  portable_artifact content p →
  framed COSMIC_PORTABLE_TRAILER_MAGIC COSMIC_PORTABLE_SHELL_LENGTH content (slice content 0 (manifest_offset p)) p ∧
  slice content 0 (Z.of_nat (length SHEBANG)) = SHEBANG ∧ identities_ok (entries p) ∧
  ∃ order b, length order = length (entries p) ∧ Forall (λ e, e ∈ entries p) order ∧
    chain COSMIC_PORTABLE_SHELL_LENGTH order b ∧ manifest_offset p = aligned b ∧
    zero_slice content b (aligned b - b).
Proof.
  intros (shell & cores & area & Hshell & Hshebang & Hperm & Hplaced & Hnd & Hstub & Hp).
  destruct (framed_in_range _ _ _ _ Hp ltac:(done)) as (Hin & Hlim & _).
  pose proof (framed_offset _ _ _ _ Hp) as Hend. pose proof Hp as [(database & Hc & _) (Hmo & Hf & _) _ (Hn & Hle & _) _].
  destruct (read_of_framed COSMIC_PORTABLE_TRAILER_MAGIC COSMIC_PORTABLE_SHELL_LENGTH _ _ eq_refl ltac:(done) Hp) as [Hfront _].
  unfold COSMIC_PORTABLE_SHELL_LENGTH in *.
  assert (Forall in_range cores.*1) as Hino by (by rewrite Hperm).
  assert (area = slice content 16384 (manifest_offset p - 16384)) as Harea.
  { rewrite <-(slice_front content 16384 (manifest_offset p)) in Hfront by lia.
    apply app_inj_1 in Hfront as [_ ?]; [done|]. apply Nat2Z.inj. rewrite slice_length by lia. lia. }
  destruct (placed_chain 16384 cores area (manifest_offset p)) as (b & Hb & Hchain & Hab & Hz); [done|done|done|done|lia|].
  split_and!.
  - by rewrite <-Hfront.
  - rewrite <-(assoc_L app) in Hc. by eapply shell_shebang.
  - split_and!; [done| |done]. intros e e'. rewrite <-Hperm. by eapply (chain_disjoint 16384).
  - exists cores.*1, b. split_and!; [by rewrite Hperm| |done|done|by rewrite <-Hab].
    apply Forall_forall. intros e. by rewrite Hperm.
Qed.

Lemma decode_portable_exact : exact content decode_portable (portable_artifact content).
Proof.
  unfold decode_portable. eapply exact_iff.
  2: {
    eapply exact_bind; [by apply decode_blocks_exact|]. intros p Hp. cbv zeta.
    destruct (framed_in_range _ _ _ _ Hp ltac:(done)) as (Hin & Hlim & Hcodec).
    pose proof (framed_offset _ _ _ _ Hp) as Hmo. pose proof Hp as [_ _ _ (Hn & Hle & _) _].
    assert (Z.to_nat (entry_count p) = length (entries p)) as -> by lia.
    eapply exact_read; [done|done|intros _]. apply exact_reject; intros _.
    eapply exact_then; [by apply check_identities_exact|]. intros Hids.
    eapply exact_bind.
    { apply check_gaps_exact; [done| |by vm_compute].
      intros e e'. apply identities_offset; [done|]. apply checked_iff; [done|]. intros k Hk. apply Hids. lia. }
    intros b (order & Hlen & Hall & Hchain).
    assert (0 ≤ b ≤ INT64_MAX) as Hb.
    { apply (order_end (entries p) order); [done|lia|done|done|done]. }
    rewrite (proj1 (align_core_aligned b Hb)). apply exact_reject; intros _.
    apply exact_zero; [lia|intros _]. apply exact_ret. }
  intros p. cbv beta. split.
  - intros (p' & Hp & _ & Hs%bool_decide_eq_false%dec_stable & Hids & b & (order & Hlen & Hall & Hchain)
      & Hmo%negb_false_iff%Z.eqb_eq & Hz & ->).
    eapply portable_of_checked; [done|done| |done..].
    apply checked_iff; [by eapply framed_in_range|]. intros k Hk. apply Hids. lia.
  - intros (Hp & Hs & Hids & order & b & Hlen & Hall & Hchain & Hmo & Hz)%checked_of_portable.
    pose proof (framed_offset _ _ _ _ Hp) as Hend. pose proof Hp as [_ (_ & Hf & _) _ _ _].
    unfold COSMIC_PORTABLE_SHELL_LENGTH in Hf.
    exists p. split_and!; [done|simpl; lia|by apply bool_decide_eq_false; intros []| |].
    + intros k Hk. apply checked_iff; [by eapply framed_in_range|done|lia].
    + exists b. split_and!; [by exists order|by rewrite Hmo, Z.eqb_refl|done|done].
Qed.

(** ** The decoders *)

Definition artifact_of (format : artifact_format) (p : portable) : Prop :=
  match format with
  | COSMIC_ARTIFACT_HOST => host_program content p
  | COSMIC_ARTIFACT_PORTABLE => portable_artifact content p
  | UNSUPPORTED_FORMAT => False
  end.

Lemma artifact_exact format : exact content (artifact_io format) (artifact_of format).
Proof. destruct format; [apply decode_portable_exact|apply decode_host_exact|apply exact_fail]. Qed.

(** A decoder's result: done with no error, or all zero with one. *)
Definition all_or_nothing (r : decoded) : Prop :=
  (∃ p, r = (true, p, None)) ∨ (∃ why, r = (false, zero_portable, Some why)).

Lemma artifact_decode_exact format turn :
  all_or_nothing (cosmic_artifact_decode format turn) ∧
  (∀ p err, cosmic_artifact_decode format turn = (true, p, err) → artifact_of format p) ∧
  (Readable content → ∀ p, artifact_of format p → cosmic_artifact_decode format turn = (true, p, None)).
Proof.
  destruct (artifact_exact format) as [Hsound Hcomplete]. unfold cosmic_artifact_decode, decoding. split_and!.
  - destruct (artifact_io format turn).1 as [p|why]; [left|right]; by eexists.
  - intros p err. destruct (artifact_io format turn) as [[q|why] t] eqn:E; intros [= <- <-]. by eapply Hsound.
  - intros Hr p Hp. by destruct (Hcomplete Hr p Hp turn) as [t ->].
Qed.

(** C10: [cosmic_artifact_decode] accepts the files of the format and no other:
    what it answers says where each part of the file is, whatever [pread] did
    on the way; a file of the format that can be read is decoded; and a
    refusal leaves every byte of the result zero and a reason. *)
Theorem artifact_decode_accepts format turn :
  all_or_nothing (cosmic_artifact_decode format turn) ∧
  (∀ p err, cosmic_artifact_decode format turn = (true, p, err) → artifact_of format p) ∧
  (Readable content → ∀ p, artifact_of format p → cosmic_artifact_decode format turn = (true, p, None)).
Proof. apply artifact_decode_exact. Qed.

(** ** The choice of a core *)

Section choice.
Context `{Build}.
Hypothesis mask_fits : 0 ≤ COSMIC_PORTABLE_REQUIRED_TARGET_MASK < 2 ^ 64.

(** The entry is the release core of target [t]. *)
Definition release_core (t : Z) (e : entry) : Prop :=
  identity e = (t, COSMIC_PORTABLE_RELEASE_CONFIGURATION_ID, 1).

Definition required (t : Z) : Prop := Z.testbit COSMIC_PORTABLE_REQUIRED_TARGET_MASK t = true.

Lemma required_range t : required t → 0 ≤ t < 64.
Proof.
  unfold required. intros Ht. destruct (Z_lt_le_dec t 0); [by rewrite Z.testbit_neg_r in Ht|].
  destruct (Z_lt_le_dec t 64); [done|]. rewrite <-(Z.mod_small _ _ mask_fits), Z.mod_pow2_bits_high in Ht by lia. done.
Qed.

Lemma land_bit m t : 0 ≤ t → (Z.land m (Z.shiftl 1 t) =? 0) = negb (Z.testbit m t).
Proof.
  intros Ht. rewrite Z.shiftl_1_l. destruct (Z.testbit m t) eqn:E; simpl.
  - apply Z.eqb_neq. intros Hz. apply (f_equal (λ x, Z.testbit x t)) in Hz.
    rewrite Z.land_spec, E, Z.pow2_bits_true, Z.bits_0 in Hz by done. done.
  - apply Z.eqb_eq, Z.bits_inj'. intros i Hi. rewrite Z.land_spec, Z.bits_0.
    destruct (decide (i = t)) as [->|]; [by rewrite E|]. rewrite Z.pow2_bits_false by done. by rewrite andb_false_r.
Qed.

(** The targets seen are the required ones with a release core. *)
Lemma seen_bits target configuration es seen chosen i :
  Forall entry_fits es →
  Z.testbit (foldl (see_core target configuration) (seen, chosen) es).1 i = true ↔
  Z.testbit seen i = true ∨ (required i ∧ ∃ e, e ∈ es ∧ release_core i e).
Proof.
  intros Hes. revert seen chosen. induction Hes as [|e es He Hes IH]; intros seen chosen; cbn [foldl].
  { split; [by left|]. intros [?|(_ & e & []%not_elem_of_nil & _)]; done. }
  destruct (see_core target configuration (seen, chosen) e) as [seen' chosen'] eqn:E.
  rewrite IH. setoid_rewrite elem_of_cons.
  assert (Z.testbit seen' i = true ↔ Z.testbit seen i = true ∨ required i ∧ release_core i e) as ->.
  2: { split; [intros [[?|[? ?]]|(? & x & ? & ?)]; eauto 10|]. intros [?|(? & x & [->|?] & ?)]; eauto 10. }
  unfold see_core in E. destruct He as (Ht & _). unfold required, release_core, identity.
  change COSMIC_PORTABLE_KIND_CORE with 1 in E.
  destruct (Z.eqb_spec (kind e) 1) as [Hk|Hk]; simpl in E; injection E as <- <-.
  2: { split; [by left|]. intros [?|[_ [= ? ?]]]; done. }
  rewrite land_bit, negb_involutive by lia.
  destruct (Z.eqb_spec (configuration_id e) COSMIC_PORTABLE_RELEASE_CONFIGURATION_ID) as [Hc|Hc]; simpl.
  2: { split; [by left|]. intros [?|[_ [= ? ?]]]; done. }
  destruct (Z.ltb_spec (target_id e) 64) as [Hlt|Hlt]; simpl.
  2: { split; [by left|]. intros [?|[Hr%required_range [= Heq _]]]; [done|lia]. }
  destruct (Z.testbit _ (target_id e)) eqn:Hbit.
  - rewrite Z.lor_spec, orb_true_iff, Z.shiftl_1_l, Z.pow2_bits_eqb, Z.eqb_eq by lia.
    split; [intros [?|<-]; [by left|right; by rewrite Hc, Hk]|]. intros [?|[_ [= <- _]]]; [by left|by right].
  - split; [by left|]. intros [?|[Hr [= Heq _]]]; [done|]. rewrite Heq in Hbit. congruence.
Qed.

Lemma seen_all es target configuration :
  Forall entry_fits es →
  (foldl (see_core target configuration) (0, None) es).1 = COSMIC_PORTABLE_REQUIRED_TARGET_MASK ↔
  ∀ t, required t → ∃ e, e ∈ es ∧ release_core t e.
Proof.
  intros Hes. pose proof (λ i, seen_bits target configuration es 0 None i Hes) as Hbits. split.
  - intros Heq t Ht. specialize (Hbits t). rewrite Heq, Z.bits_0 in Hbits. by apply Hbits in Ht as [?|[_ ?]].
  - intros Hall. apply Z.bits_inj'. intros i _. apply eq_true_iff_eq. rewrite Hbits, Z.bits_0. unfold required in *. split.
    + by intros [?|[? _]].
    + intros Hr. right. auto.
Qed.

Lemma chosen_app target configuration es st e :
  identity e = (target, configuration, 1) → (foldl (see_core target configuration) st (es ++ [e])).2 = Some e.
Proof.
  intros [= <- <- Hk]. rewrite foldl_app. cbn [foldl]. destruct (foldl _ _ _) as [seen chosen]. unfold see_core.
  change COSMIC_PORTABLE_KIND_CORE with 1. rewrite Hk. simpl. by rewrite !Z.eqb_refl.
Qed.

Lemma chosen_skip target configuration es st :
  Forall (λ e, identity e ≠ (target, configuration, 1)) es →
  (foldl (see_core target configuration) st es).2 = st.2.
Proof.
  intros Hes. revert st. induction Hes as [|e es He Hes IH]; intros [seen chosen]; cbn [foldl]; [done|].
  rewrite IH. unfold see_core. change COSMIC_PORTABLE_KIND_CORE with 1.
  destruct (Z.eqb_spec (kind e) 1) as [Hk|]; simpl; [|done].
  destruct (Z.eqb_spec (target_id e) target) as [Ht|]; simpl; [|done].
  destruct (Z.eqb_spec (configuration_id e) configuration) as [Hc|]; simpl; [|done].
  exfalso. apply He. unfold identity. by rewrite Ht, Hc, Hk.
Qed.

(** The core chosen is the one of the identity asked for. *)
Lemma chosen_iff target configuration es e :
  NoDup (identity <$> es) →
  (foldl (see_core target configuration) (0, None) es).2 = Some e ↔ e ∈ es ∧ identity e = (target, configuration, 1).
Proof.
  intros Hnd. destruct (decide (Forall (λ e, identity e ≠ (target, configuration, 1)) es)) as [Hall|Hex].
  - rewrite chosen_skip by done. simpl. split; [done|]. intros [Hin Hid]. rewrite Forall_forall in Hall. by destruct (Hall e Hin).
  - apply not_Forall_Exists in Hex; [|apply _]. apply Exists_exists in Hex as (x & Hx & Hid%dec_stable).
    apply list_elem_of_split in Hx as (l1 & l2 & ->).
    assert (Forall (λ e, identity e ≠ (target, configuration, 1)) l2) as Hl2.
    { apply Forall_forall. intros y Hy Heq. rewrite fmap_app, fmap_cons in Hnd.
      apply NoDup_app in Hnd as (_ & _ & [Hn _]%NoDup_cons). apply Hn. rewrite Hid, <-Heq. by apply list_elem_of_fmap_2. }
    assert ((foldl (see_core target configuration) (0, None) (l1 ++ x :: l2)).2 = Some x) as ->.
    { change (l1 ++ x :: l2) with (l1 ++ [x] ++ l2). rewrite app_assoc, foldl_app.
      destruct (foldl _ (0, None) _) as [seen chosen] eqn:E. rewrite chosen_skip by done. simpl.
      pose proof (chosen_app target configuration l1 (0, None) x Hid) as Hc. by rewrite E in Hc. }
    split; [intros [= <-]; split; [|done]; rewrite elem_of_app, elem_of_cons; auto|].
    intros [Hin Heq]. f_equal. rewrite <-Heq in Hid.
    apply list_elem_of_lookup in Hin as [j Hj]. rewrite NoDup_alt in Hnd.
    assert ((l1 ++ x :: l2) !! length l1 = Some x) as Hx by (by apply list_lookup_middle).
    assert (length l1 = j) as <-; [|congruence].
    apply (Hnd _ _ (identity e)); rewrite list_lookup_fmap; [by rewrite Hx, <-Hid|by rewrite Hj].
Qed.

(** A portable program that runs as [target] and [configuration]: an artifact
    with every required release core, whose core of that identity is [e]. *)
Definition runs_as (target configuration : Z) (p : portable) (e : entry) : Prop :=
  target ≠ 0 ∧ configuration ≠ 0 ∧ portable_artifact content p ∧
  e ∈ entries p ∧ identity e = (target, configuration, 1) ∧
  ∀ t, required t → ∃ core, core ∈ entries p ∧ release_core t core.

Lemma portable_chosen p target configuration e :
  portable_artifact content p →
  let '(seen, chosen) := foldl (see_core target configuration) (0, None) (entries p) in
  seen = COSMIC_PORTABLE_REQUIRED_TARGET_MASK ∧ chosen = Some e ↔
  e ∈ entries p ∧ identity e = (target, configuration, 1) ∧
  ∀ t, required t → ∃ core, core ∈ entries p ∧ release_core t core.
Proof.
  intros (shell & cores & area & _ & _ & _ & _ & Hnd & _ & [_ _ _ (_ & _ & Hfits & _) _]).
  pose proof (seen_all (entries p) target configuration Hfits) as Hseen.
  pose proof (chosen_iff target configuration (entries p) e Hnd) as Hchosen.
  destruct (foldl _ _ _) as [seen chosen]. simpl in *. rewrite Hseen, Hchosen. tauto.
Qed.

Lemma portable_decode_exact target configuration turn :
  all_or_nothing (cosmic_portable_decode target configuration turn) ∧
  (∀ q err, cosmic_portable_decode target configuration turn = (true, q, err) →
     ∃ p e, runs_as target configuration p e ∧ q = select p e) ∧
  (Readable content → ∀ p e, runs_as target configuration p e →
     cosmic_portable_decode target configuration turn = (true, select p e, None)).
Proof.
  unfold cosmic_portable_decode, runs_as.
  destruct (Z.eqb_spec target 0) as [->|Ht]; [simpl; split_and!; [right; by eexists|done|by intros _ p e [? _]]|].
  destruct (Z.eqb_spec configuration 0) as [->|Hc]; [simpl; split_and!; [right; by eexists|done|by intros _ p e (_ & ? & _)]|].
  simpl. destruct (artifact_decode_exact COSMIC_ARTIFACT_PORTABLE turn) as (Hform & Hsound & Hcomplete).
  destruct Hform as [[p Hp]|[why Hwhy]].
  - rewrite Hp. pose proof (Hsound p None Hp) as Hart. simpl in Hart.
    pose proof (λ e, portable_chosen p target configuration e Hart) as Hchosen.
    destruct (foldl _ _ _) as [seen chosen].
    split_and!.
    + destruct (negb _); [right; by eexists|]. destruct chosen; [left|right]; by eexists.
    + intros q err. destruct (Z.eqb_spec seen COSMIC_PORTABLE_REQUIRED_TARGET_MASK) as [Hs|]; simpl; [|done].
      destruct chosen as [e|]; [|done]. intros [= <- <-]. exists p, e. split; [|done].
      destruct (proj1 (Hchosen e) (conj Hs eq_refl)) as (? & ? & ?). by split_and!.
    + intros Hr p' e (_ & _ & Hart' & Hin & Hid & Hreq). pose proof (Hcomplete Hr p' Hart') as Heq.
      rewrite Heq in Hp. injection Hp as ->. destruct (proj2 (Hchosen e)) as [-> ->]; [done|]. by rewrite Z.eqb_refl.
  - rewrite Hwhy. split_and!; [right; by eexists|done|]. intros Hr p e (_ & _ & Hart & _).
    by rewrite (Hcomplete Hr p Hart) in Hwhy.
Qed.

(** [cosmic_portable_decode] selects the one core of the compiled target
    and configuration, of an artifact that carries every required release
    core, and refuses everything else; two cores never share an identity. *)
Theorem portable_decode_selects target configuration turn :
  all_or_nothing (cosmic_portable_decode target configuration turn) ∧
  (∀ q err, cosmic_portable_decode target configuration turn = (true, q, err) →
     ∃ p e, runs_as target configuration p e ∧ q = select p e) ∧
  (Readable content → ∀ p e, runs_as target configuration p e →
     cosmic_portable_decode target configuration turn = (true, select p e, None)).
Proof. apply portable_decode_exact. Qed.

End choice.

(** [cosmic_host_decode] does the same of a host program's one core. *)
Lemma host_decode_exact target configuration turn :
  let runs p e := target ≠ 0 ∧ configuration ≠ 0 ∧ host_program content p ∧ entries p = [e] ∧
                  identity e = (target, configuration, 1) in
  all_or_nothing (cosmic_host_decode target configuration turn) ∧
  (∀ q err, cosmic_host_decode target configuration turn = (true, q, err) → ∃ p e, runs p e ∧ q = select p e) ∧
  (Readable content → ∀ p e, runs p e → cosmic_host_decode target configuration turn = (true, select p e, None)).
Proof.
  unfold cosmic_host_decode. cbv zeta.
  destruct (Z.eqb_spec target 0) as [->|Ht]; [simpl; split_and!; [right; by eexists|done|by intros _ p e [? _]]|].
  destruct (Z.eqb_spec configuration 0) as [->|Hc]; [simpl; split_and!; [right; by eexists|done|by intros _ p e (_ & ? & _)]|].
  simpl. destruct (artifact_decode_exact COSMIC_ARTIFACT_HOST turn) as (Hform & Hsound & Hcomplete).
  destruct Hform as [[p Hp]|[why Hwhy]].
  - rewrite Hp. pose proof (Hsound p None Hp) as Hart. simpl in Hart. pose proof Hart as (core & e & Hes & Hkind & _).
    rewrite Hes. simpl. split_and!.
    + destruct (_ || _); [right|left]; by eexists.
    + intros q err. destruct (Z.eqb_spec (target_id e) target) as [H1|]; simpl; [|done].
      destruct (Z.eqb_spec (configuration_id e) configuration) as [H2|]; simpl; [|done].
      intros [= <- <-]. exists p, e. unfold identity. rewrite H1, H2, Hkind. by split_and!.
    + intros Hr p' e' (_ & _ & Hart' & Hes' & Hid). pose proof (Hcomplete Hr p' Hart') as Heq.
      rewrite Heq in Hp. injection Hp as ->. rewrite Hes in Hes'. injection Hes' as ->.
      injection Hid as -> -> _. by rewrite !Z.eqb_refl.
  - rewrite Hwhy. split_and!; [right; by eexists|done|]. intros Hr p e (_ & _ & Hart & _).
    by rewrite (Hcomplete Hr p Hart) in Hwhy.
Qed.

End theorems.

(** * An artifact, decoded

    A host program and a portable artifact of one core, as files of a disk:
    the theorems of [PortableTheorems] at files that satisfy their
    hypotheses. *)

Definition digest : bytes := replicate 32 9.
Definition core : bytes := [1; 2; 3].

(** The core of target 1 and configuration 5, at [at_]. *)
Definition core_at (at_ : Z) : entry := Entry 1 5 1 0 at_ 3 digest 3 digest.

Definition database : bytes := SQLITE_HEADER ++ lit "pages".

(** A file of one core: where its manifest is, and its front. *)
Definition file_of (at_ manifest : Z) : portable :=
  Portable (manifest + 4096) manifest 4096 (manifest + 4096) (Z.of_nat (length database)) 1 [core_at at_] zero_entry.

Definition file_bytes (magic front : bytes) (p : portable) : bytes :=
  front ++ manifest_bytes p ++ database ++ trailer_bytes magic p.

Lemma manifest_all_bytes at_ manifest : all_bytes (manifest_bytes (file_of at_ manifest)).
Proof.
  unfold manifest_bytes, header_bytes, zeros. rewrite !Forall_app, !Forall_bind.
  split_and!; try apply be_bytes; [by repeat constructor| |by apply Forall_replicate].
  apply Forall_singleton. unfold compose, entry_bytes. rewrite !Forall_app.
  split_and!; first [apply be_bytes|by apply Forall_replicate].
Qed.

Lemma trailer_all_bytes magic p : all_bytes magic → all_bytes (trailer_bytes magic p).
Proof. intros Hm. unfold trailer_bytes. repeat (apply Forall_app; split); try apply be_bytes; done. Qed.

Lemma file_all_bytes magic front at_ manifest :
  all_bytes magic → all_bytes front → all_bytes (file_bytes magic front (file_of at_ manifest)).
Proof.
  intros Hm Hf. unfold file_bytes. rewrite !(Forall_app _ front), !(Forall_app _ (manifest_bytes _)), (Forall_app _ database).
  split_and!; [done|apply manifest_all_bytes| |by apply trailer_all_bytes].
  by repeat constructor.
Qed.

Lemma core_fits at_ : 0 ≤ at_ < 2 ^ 64 → entry_fits (core_at at_).
Proof. intros Hat. unfold entry_fits, core_at. simpl. split_and!; lia || done. Qed.

Lemma file_framed magic first front at_ manifest :
  0 ≤ first ≤ at_ → at_ mod 16384 = 0 → at_ + 3 ≤ manifest → manifest mod 16384 = 0 → manifest < 2 ^ 63 →
  manifest = Z.of_nat (length front) →
  framed magic first (file_bytes magic front (file_of at_ manifest)) front (file_of at_ manifest).
Proof.
  intros Hfirst Hat Hm Hal Hmax Hlen. split; simpl.
  - exists database. split_and!; [done|done|]. by exists (lit "pages").
  - split_and!; [done|lia|done].
  - done.
  - split_and!; [done|lia|lia| |]; constructor; [apply core_fits; lia|done| |done].
    split; simpl; auto; lia.
  - done.
Qed.

(** ** A host program *)

Definition host_front : bytes := core ++ padding 3.
Definition host : portable := file_of 0 16384.
Definition host_file : bytes := file_bytes COSMIC_HOST_TRAILER_MAGIC host_front host.

Lemma front_bytes (pad : Z) : all_bytes (core ++ padding pad).
Proof. apply Forall_app. split; [by repeat constructor|]. by apply Forall_replicate. Qed.

Lemma host_is_program : host_program host_file host.
Proof.
  exists core, (core_at 0). split_and!; [done..|]. by apply file_framed.
Qed.

Lemma host_laws : @KernelLaws (Disk.kernel host_file) host_file.
Proof.
  apply Disk.kernel_laws; [|by vm_compute]. apply file_all_bytes; [by repeat constructor|]. apply (front_bytes 3).
Qed.

Lemma artifact_decode_accepts_witness :
  @cosmic_artifact_decode (Disk.kernel host_file) COSMIC_ARTIFACT_HOST 0 = (true, host, None).
Proof.
  apply (proj2 (proj2 (@artifact_decode_accepts _ _ host_laws COSMIC_ARTIFACT_HOST 0))).
  - apply Disk.kernel_readable.
  - apply host_is_program.
Defined.

(** ** A portable artifact *)

Definition shell : bytes := SHEBANG ++ replicate (Z.to_nat 16374) 0x20.
Definition portable_front : bytes := shell ++ core ++ padding 16387.
Definition whole : portable := file_of 16384 32768.
Definition portable_file : bytes := file_bytes COSMIC_PORTABLE_TRAILER_MAGIC portable_front whole.

Lemma shell_length : Z.of_nat (length shell) = 16384.
Proof. by vm_compute. Qed.

Lemma whole_is_artifact : portable_artifact portable_file whole.
Proof.
  exists shell, [(core_at 16384, core)], (core ++ padding 16387). split_and!.
  - apply shell_length.
  - by eexists.
  - done.
  - apply (placed_core 16384 (core_at 16384) core [] (padding 16387)); [by vm_compute|done|]. apply (placed_none 16387).
  - simpl. apply NoDup_singleton.
  - intros e ->%list_elem_of_singleton _ [=].
  - apply file_framed; try done; lia.
Qed.

Lemma portable_laws : @KernelLaws (Disk.kernel portable_file) portable_file.
Proof.
  apply Disk.kernel_laws; [|by vm_compute]. apply file_all_bytes; [by repeat constructor|].
  apply Forall_app. split; [|apply front_bytes]. apply Forall_app. split; [by repeat constructor|by apply Forall_replicate].
Qed.

(** A build whose release is configuration 5 of target 1. *)
Definition build : Build := {| COSMIC_PORTABLE_REQUIRED_TARGET_MASK := 2; COSMIC_PORTABLE_RELEASE_CONFIGURATION_ID := 5 |}.

Lemma portable_decode_selects_witness :
  @cosmic_portable_decode (Disk.kernel portable_file) build 1 5 0 = (true, select whole (core_at 16384), None).
Proof.
  apply (proj2 (proj2 (@portable_decode_selects _ _ portable_laws build ltac:(done) 1 5 0))).
  - apply Disk.kernel_readable.
  - split_and!; [done|done|apply whole_is_artifact|apply list_elem_of_here|done|].
    intros t Ht. exists (core_at 16384). split; [apply list_elem_of_here|].
    unfold required in Ht. simpl in Ht. unfold release_core, identity. simpl.
    change 2 with (2 ^ 1) in Ht. rewrite Z.pow2_bits_eqb, Z.eqb_eq in Ht by done.
    by rewrite <-Ht.
Defined.
