(* ===== verification/Html.v ===== *)
(** * Safe values: [core/html.c]

    The escapers that make a safe value of a string, the doors that take one
    as it is, and the readers that give the string back.  A safe value is a
    userdata whose metatable names its type and whose one user value is the
    string; the userdata are kept in a store by their addresses. *)

From S2P Require Import Prelude.
From S2P Require Import Texts.
From S2P Require Import Lua.

Local Open Scope Z_scope.

(** ** Safe values *)

Record safe := Safe { safe_type : bytes; safe_string : bytes }.

Abbreviation safes := (gmap addr safe).

Definition SAFE_HTML_TYPE : bytes := lit "cosmic.html.SafeHtml".
Definition SAFE_ATTR_TYPE : bytes := lit "cosmic.html.SafeAttr".
Definition SAFE_URL_TYPE : bytes := lit "cosmic.html.SafeUrl".
Definition SAFE_URL_PART_TYPE : bytes := lit "cosmic.html.SafeUrlPart".
Definition SAFE_JSON_TYPE : bytes := lit "cosmic.html.SafeJson".

(** A new userdata that holds [s]. *)
Definition wrap (u : safes) (type_name s : bytes) : safes * answer lua_value :=
  let a := fresh (dom u) in (<[a := Safe type_name s]> u, Answers (LUserdata a)).

(** [luaL_testudata] of one of the module's types, with its user value. *)
Definition test_safe (u : safes) (v : lua_value) (type_name : bytes) : option bytes :=
  match v with
  | LUserdata a =>
      match u !! a with
      | Some x => if decide (safe_type x = type_name) then Some (safe_string x) else None
      | None => None
      end
  | _ => None
  end.

Definition push_string_of (u : safes) (v : lua_value) (type_name : bytes) : answer bytes :=
  match test_safe u v type_name with
  | Some s => Answers s
  | None => Raises (type_name ++ lit " expected")
  end.

Definition no_string (v : lua_value) : bytes := lit "string expected, got " ++ type_name v.

(** ** Text and attributes *)

Definition text_entity (c : Z) : option bytes :=
  if c =? 0x26 then Some (lit "&amp;")
  else if c =? 0x3c then Some (lit "&lt;")
  else if c =? 0x3e then Some (lit "&gt;")
  else if c =? 0x22 then Some (lit "&quot;")
  else if c =? 0x27 then Some (lit "&#39;")
  else None.

(** The loop [html_escape], [html_escape_attr] and [push_url_escaped] share:
    at [i] the bytes before [kept] are in the buffer [b], as they came or as
    what stands for them. *)
Fixpoint splice (stands : Z → option bytes) (s : bytes) (turns i kept : nat) (b : bytes) : bytes :=
  match turns with
  | O => b ++ take (length s - kept) (drop kept s)
  | S turns =>
      match stands (s !!! i) with
      | Some text => splice stands s turns (S i) (S i) (b ++ take (i - kept) (drop kept s) ++ text)
      | None => splice stands s turns (S i) kept b
      end
  end.

(** The test loop before it: a string nothing stands for is left alone. *)
Definition spliced (stands : Z → option bytes) (s : bytes) : bytes :=
  if forallb (λ c, bool_decide (stands c = None)) s then s
  else splice stands s (length s) 0 0 [].

Definition html_escape `{LuaStrings} (u : safes) (arg : lua_value) : safes * answer lua_value :=
  match lua_tolstring arg with
  | Some s => wrap u SAFE_HTML_TYPE (spliced text_entity s)
  | None => (u, Raises (no_string arg))
  end.

Definition is_ascii_digit (c : Z) : bool := (0x30 <=? c) && (c <=? 0x39).
Definition is_ascii_alpha (c : Z) : bool :=
  ((0x41 <=? c) && (c <=? 0x5a)) || ((0x61 <=? c) && (c <=? 0x7a)).
Definition is_ascii_alphanumeric (c : Z) : bool :=
  ((0x30 <=? c) && (c <=? 0x39)) || ((0x41 <=? c) && (c <=? 0x5a)) || ((0x61 <=? c) && (c <=? 0x7a)).

(** The digits of [v], the last in front of [digits]; three turns are enough
    for a byte. *)
Fixpoint last_digits (turns : nat) (v : Z) (digits : bytes) : bytes :=
  match turns with
  | O => digits
  | S turns => if 0 <? v then last_digits turns (v / 10) (0x30 + v mod 10 :: digits) else digits
  end.

Definition reference (c : Z) : bytes :=
  let digits := last_digits 3 c [] in
  lit "&#" ++ (if bool_decide (digits = []) then [0x30] else digits) ++ lit ";".

Definition attr_reference (c : Z) : option bytes :=
  if (0x80 <=? c) || is_ascii_alphanumeric c then None else Some (reference c).

Definition html_escape_attr `{LuaStrings} (u : safes) (arg : lua_value) : safes * answer lua_value :=
  match lua_tolstring arg with
  | Some s => wrap u SAFE_ATTR_TYPE (spliced attr_reference s)
  | None => (u, Raises (no_string arg))
  end.

(** ** URLs *)

Definition is_slash (c : Z) : bool := (c =? 0x2f) || (c =? 0x5c).

Definition fold_case (c : Z) : Z := if (0x41 <=? c) && (c <=? 0x5a) then c - 0x41 + 0x61 else c.

Definition equals_ignoring_case (s word : bytes) : bool :=
  if negb (Z.of_nat (length word) =? Z.of_nat (length s)) then false
  else forallb (λ cw : Z * Z, fold_case cw.1 =? cw.2) (combine s word).

(** The bytes before the first colon, slash, question mark or hash. *)
Fixpoint colon_at (s : bytes) : nat :=
  match s with
  | [] => 0
  | c :: s =>
      if negb (c =? 0x3a) && negb (c =? 0x2f) && negb (c =? 0x3f) && negb (c =? 0x23) then S (colon_at s)
      else 0
  end.

Definition is_scheme_byte (c : Z) : bool :=
  is_ascii_alphanumeric c || (c =? 0x2b) || (c =? 0x2d) || (c =? 0x2e).

Definition url_allowed (s : bytes) (schemes : list bytes) : bool :=
  let len := length s in
  if (0 <? Z.of_nat len) && ((s !!! 0%nat =? 0x20) || (s !!! (len - 1)%nat =? 0x20)) then false
  else if existsb (λ c, (c <? 0x20) || (c =? 0x7f)) s then false
  else
    let colon := colon_at s in
    if (Z.of_nat colon <? Z.of_nat len) && (s !!! colon =? 0x3a) then
      if negb (is_ascii_alpha (s !!! 0%nat)) then false
      else if existsb (λ c, negb (is_scheme_byte c)) (drop 1 (take colon s)) then false
      else existsb (equals_ignoring_case (take colon s)) schemes
    else
      negb ((2 <=? Z.of_nat len) && is_slash (s !!! 0%nat) && is_slash (s !!! 1%nat)).

Definition INVALID : bytes := lit "about:invalid".

Definition wrap_allowed_url `{LuaStrings} (u : safes) (arg : lua_value) (schemes : list bytes) :
    safes * answer lua_value :=
  match lua_tolstring arg with
  | Some s => wrap u SAFE_URL_TYPE (if url_allowed s schemes then s else INVALID)
  | None => (u, Raises (no_string arg))
  end.

Definition href_schemes : list bytes := [lit "http"; lit "https"; lit "mailto"].

Definition html_href `{LuaStrings} (u : safes) (arg : lua_value) : safes * answer lua_value :=
  wrap_allowed_url u arg href_schemes.

Definition html_local_href `{LuaStrings} (u : safes) (arg : lua_value) : safes * answer lua_value :=
  wrap_allowed_url u arg [].

(** ** The doors that do not escape, and the ways back *)

Definition trusted (type_name : bytes) (u : safes) (arg : lua_value) : safes * answer lua_value :=
  match arg with
  | LString s => wrap u type_name s
  | _ => (u, Raises (no_string arg))
  end.

Definition html_trust := trusted SAFE_HTML_TYPE.
Definition html_trust_attr := trusted SAFE_ATTR_TYPE.
Definition html_trust_url := trusted SAFE_URL_TYPE.
Definition html_trust_json := trusted SAFE_JSON_TYPE.

Definition html_raw (u : safes) (v : lua_value) : answer bytes := push_string_of u v SAFE_HTML_TYPE.
Definition html_raw_attr (u : safes) (v : lua_value) : answer bytes := push_string_of u v SAFE_ATTR_TYPE.
Definition html_raw_url (u : safes) (v : lua_value) : answer bytes := push_string_of u v SAFE_URL_TYPE.
Definition html_raw_url_part (u : safes) (v : lua_value) : answer bytes :=
  push_string_of u v SAFE_URL_PART_TYPE.
Definition html_raw_json (u : safes) (v : lua_value) : answer bytes := push_string_of u v SAFE_JSON_TYPE.

(** ** Sequences *)

Definition not_sequence (what : bytes) : bytes := lit "html: " ++ what ++ lit " is not a sequence".

(** The walk over a table's keys: how many, or [None] at one that is no
    integer from 1 to [count]. *)
Fixpoint count_keys (count : Z) (pairs : list (lua_value * lua_value)) (keys : Z) : option Z :=
  match pairs with
  | [] => Some keys
  | (LInt k, _) :: pairs => if (k <? 1) || (count <? k) then None else count_keys count pairs (keys + 1)
  | _ :: _ => None
  end.

Definition check_sequence `{RawLen} (h : heap) (v : lua_value) (what : bytes) : table * Z + bytes :=
  match v with
  | LTable a =>
      let t := table_at h a in
      let count := lua_rawlen t in
      match count_keys count (t_pairs t) 0 with
      | Some keys => if negb (keys =? count) then inr (not_sequence what) else inl (t, count)
      | None => inr (not_sequence what)
      end
  | v => inr (lit "table expected, got " ++ type_name v)
  end.

(** The loop of [html_concat] at element [i]. *)
Fixpoint concat_loop (u : safes) (t : table) (turns : nat) (i : Z) (b : bytes) : bytes + bytes :=
  match turns with
  | O => inl b
  | S turns =>
      match test_safe u (rawgeti t i) SAFE_HTML_TYPE with
      | Some s => concat_loop u t turns (i + 1) (b ++ s)
      | None => inr (lit "html: element " ++ decimal i ++ lit " is not a SafeHtml")
      end
  end.

Definition html_concat `{RawLen} (h : heap) (u : safes) (arg : lua_value) : safes * answer lua_value :=
  match check_sequence h arg (lit "parts") with
  | inr why => (u, Raises why)
  | inl (t, count) =>
      match concat_loop u t (Z.to_nat count) 1 [] with
      | inr why => (u, Raises why)
      | inl b => wrap u SAFE_HTML_TYPE b
      end
  end.

(** ** Parts of URLs *)

Definition is_url_unreserved (c : Z) : bool :=
  is_ascii_alphanumeric c || (c =? 0x2d) || (c =? 0x2e) || (c =? 0x5f) || (c =? 0x7e).

(** [hex[d]] of the upper-case digits. *)
Definition upper_hex_digit (d : Z) : Z := if d <? 10 then 0x30 + d else 0x37 + d.

Definition percent (c : Z) : option bytes :=
  if is_url_unreserved c then None
  else Some [0x25; upper_hex_digit (Z.shiftr c 4); upper_hex_digit (Z.land c 15)].

Definition url_escaped (s : bytes) (dot_rule : bool) : bytes :=
  let len := Z.of_nat (length s) in
  if dot_rule && (0 <? len) && (len <=? 2) && (s !!! (length s - 1)%nat =? 0x2e)
     && ((len =? 1) || (s !!! 0%nat =? 0x2e))
  then lit (if len =? 1 then "%252E" else "%252E%252E")
  else spliced percent s.

(** [check_text]: a string, or the text of a number. *)
Definition check_text `{LuaStrings} (arg : lua_value) : option bytes :=
  match arg with
  | LString _ | LInt _ | LFloat _ => lua_tolstring arg
  | _ => None
  end.

Definition no_text (v : lua_value) : bytes := lit "string or number expected, got " ++ type_name v.

Definition html_url_part `{LuaStrings} (u : safes) (arg : lua_value) : safes * answer lua_value :=
  match check_text arg with
  | Some s => wrap u SAFE_URL_PART_TYPE (url_escaped s true)
  | None => (u, Raises (no_text arg))
  end.

(** The pair at [i]: two strings in a table of length two. *)
Definition pair_at `{RawLen} (h : heap) (t : table) (i : Z) : option (bytes * bytes) :=
  match rawgeti t i with
  | LTable a =>
      let p := table_at h a in
      if lua_rawlen p =? 2 then
        match rawgeti p 1, rawgeti p 2 with
        | LString name, LString value => Some (name, value)
        | _, _ => None
        end
      else None
  | _ => None
  end.

(** The first loop of [html_url_query], at pair [i]. *)
Fixpoint check_pairs `{RawLen} (h : heap) (t : table) (turns : nat) (i : Z) : option bytes :=
  match turns with
  | O => None
  | S turns =>
      match pair_at h t i with
      | Some _ => check_pairs h t turns (i + 1)
      | None => Some (lit "html: pair " ++ decimal i ++ lit " is not two strings")
      end
  end.

(** The second; what [lua_tolstring] answers for no string is never added,
    as the first loop has let through strings alone. *)
Fixpoint put_pairs `{RawLen} (h : heap) (t : table) (turns : nat) (i : Z) (b : bytes) : bytes :=
  match turns with
  | O => b
  | S turns =>
      let '(name, value) := default ([], []) (pair_at h t i) in
      let b := if 1 <? i then b ++ [0x26] else b in
      let b := b ++ url_escaped name false in
      let b := b ++ [0x3d] in
      put_pairs h t turns (i + 1) (b ++ url_escaped value false)
  end.

Definition html_url_query `{RawLen} (h : heap) (u : safes) (arg : lua_value) : safes * answer lua_value :=
  match check_sequence h arg (lit "pairs") with
  | inr why => (u, Raises why)
  | inl (t, count) =>
      match check_pairs h t (Z.to_nat count) 1 with
      | Some why => (u, Refuses why)
      | None => wrap u SAFE_URL_PART_TYPE (put_pairs h t (Z.to_nat count) 1 [])
      end
  end.

(** ** Identifiers of CSS *)

Definition add_css_escape (c : Z) : bytes :=
  lit "&#92;" ++ (if 16 <=? c then [hex_digit (Z.shiftr c 4)] else [])
  ++ [hex_digit (Z.land c 15)] ++ lit "&#32;".

(** One turn of the loop at byte [i] of [s]. *)
Definition css_byte (s : bytes) (i : nat) : bytes :=
  let c := s !!! i in
  let leads_identifier := (i =? 0)%nat || ((i =? 1)%nat && (s !!! 0%nat =? 0x2d)) in
  if c =? 0 then [0xef; 0xbf; 0xbd]
  else if c =? 0x5f then lit "&#95;"
  else if (c =? 0x2d) && (1 <? Z.of_nat (length s)) then lit "&#45;"
  else if (0x80 <=? c) || (is_ascii_alphanumeric c && negb (is_ascii_digit c && leads_identifier)) then [c]
  else add_css_escape c.

Fixpoint css_loop (s : bytes) (turns i : nat) (b : bytes) : bytes :=
  match turns with
  | O => b
  | S turns => css_loop s turns (S i) (b ++ css_byte s i)
  end.

Definition css_plain (s : bytes) : bool :=
  forallb (λ c, (0x80 <=? c) || is_ascii_alphanumeric c) s
  && negb ((0 <? Z.of_nat (length s)) && is_ascii_digit (s !!! 0%nat)).

Definition html_escape_css_attr `{LuaStrings} (u : safes) (arg : lua_value) : safes * answer lua_value :=
  match check_text arg with
  | Some s => wrap u SAFE_ATTR_TYPE (if css_plain s then s else css_loop s (length s) 0 [])
  | None => (u, Raises (no_text arg))
  end.
