(* ===== verification/HtmlCorrect.v ===== *)
(** * What escaped text reads as

    A reader of HTML's character references, and that [escape] and
    [escape_attr] of [core/html.c] make text it reads as what they were
    given.  The safe values the calls make are known by their readers. *)

From S2P Require Import Prelude.
From S2P Require Import Texts.
From S2P Require Import Lua.
From S2P Require Import Html.

Local Open Scope Z_scope.

(** ** Readers *)

(** U+FFFD. *)
Definition REPLACEMENT : bytes := [0xef; 0xbf; 0xbd].

(** What the code of a character in ASCII stands for, in HTML and in CSS. *)
Definition ascii_char (n : Z) : bytes := if n =? 0 then REPLACEMENT else [n].

Definition named_references : list (bytes * Z) :=
  [(lit "amp;", 0x26); (lit "lt;", 0x3c); (lit "gt;", 0x3e); (lit "quot;", 0x22)].

Fixpoint named (names : list (bytes * Z)) (s : bytes) : option (bytes * bytes) :=
  match names with
  | [] => None
  | (name, c) :: names =>
      match strip_prefix name s with
      | Some rest => Some ([c], rest)
      | None => named names s
      end
  end.

Definition decimal_value (ds : bytes) : Z := foldl (λ v d, v * 10 + (d - 0x30)) 0 ds.

(** HTML's character references in text and in attribute values; one of a
    name not above or past ASCII is not read at all. *)
Definition html_step (s : bytes) : option (bytes * bytes) :=
  match s with
  | [] => None
  | c :: rest =>
      if negb (c =? 0x26) then Some ([c], rest)
      else
        match strip_prefix [0x23] rest with
        | None => named named_references rest
        | Some rest =>
            let '(ds, rest) := span is_ascii_digit rest in
            if bool_decide (ds = []) || (0x7f <? decimal_value ds) then None
            else option_map (pair (ascii_char (decimal_value ds))) (strip_prefix [0x3b] rest)
        end
  end.

Definition no_nul (s : bytes) : bytes := s ≫= ascii_char.

(** ** The splicing loop *)

Definition piece (stands : Z → option bytes) (c : Z) : bytes := default [c] (stands c).

Lemma splice_bind stands s turns i kept b :
  (kept ≤ i)%nat → (i + turns = length s)%nat →
  splice stands s turns i kept b
  = b ++ take (i - kept) (drop kept s) ++ (drop i s ≫= piece stands).
Proof.
  revert i kept b. induction turns as [|turns IH]; intros i kept b Hk Hi; cbn [splice].
  - replace (i - kept)%nat with (length s - kept)%nat by lia. rewrite (drop_ge s i) by lia.
    csimpl. by rewrite app_nil_r.
  - destruct (lookup_lt_is_Some_2 s i ltac:(lia)) as [c Hc].
    rewrite (list_lookup_total_correct _ _ _ Hc), (drop_S _ _ _ Hc), bind_cons.
    assert (piece stands c = default [c] (stands c)) as -> by done.
    destruct (stands c) as [text|]; cbn [default id].
    + rewrite IH by lia. rewrite Nat.sub_diag, take_0, <-!app_assoc. done.
    + rewrite IH by lia. f_equal.
      replace (S i - kept)%nat with (S (i - kept)) by lia.
      rewrite (take_S_r _ _ c), <-app_assoc; [done|].
      rewrite lookup_drop. by replace (kept + (i - kept))%nat with i by lia.
Qed.

Lemma spliced_bind stands s : spliced stands s = s ≫= piece stands.
Proof.
  unfold spliced. destruct (forallb _ s) eqn:E.
  - rewrite forallb_Forall in E. induction E as [|c s Hc Hs IH]; [done|].
    apply bool_decide_eq_true in Hc. rewrite bind_cons, <-IH. unfold piece. by rewrite Hc.
  - rewrite splice_bind by lia. by rewrite Nat.sub_diag, take_0, drop_0.
Qed.

(** ** Text and attributes *)

(** Bytes that neither end nor open markup in text or in a quoted value. *)
Definition markup_byte (c : Z) : bool :=
  (c =? 0x3c) || (c =? 0x3e) || (c =? 0x22) || (c =? 0x27).

(** Bytes an attribute's value may hold: references of letters and digits. *)
Definition attr_byte (c : Z) : bool :=
  (0x80 <=? c) || is_ascii_alphanumeric c || (c =? 0x26) || (c =? 0x23) || (c =? 0x3b).

Lemma html_plain c : c ≠ 0x26 → reads_as html_step [c] [c].
Proof.
  intros Hc. apply reads_as_step; [done|]. intros rest. simpl. by rewrite (proj2 (Z.eqb_neq _ _)).
Qed.

Definition text_references : list (bytes * Z) :=
  [(lit "&amp;", 0x26); (lit "&lt;", 0x3c); (lit "&gt;", 0x3e); (lit "&quot;", 0x22)].

Lemma html_named name c : (name, c) ∈ text_references → reads_as html_step name [c].
Proof.
  unfold text_references. rewrite !elem_of_cons, elem_of_nil. intros Hn.
  apply reads_as_step; [by destruct_or! Hn; simplify_eq|].
  intros rest. by destruct_or! Hn; simplify_eq.
Qed.

Lemma html_step_reference rest :
  html_step (lit "&#" ++ rest)
  = let '(ds, rest) := span is_ascii_digit rest in
    if bool_decide (ds = []) || (0x7f <? decimal_value ds) then None
    else option_map (pair (ascii_char (decimal_value ds))) (strip_prefix [0x3b] rest).
Proof. done. Qed.

Lemma html_reference ds n :
  ds ≠ [] → forallb is_ascii_digit ds = true → decimal_value ds = n → n <= 0x7f →
  reads_as html_step (lit "&#" ++ ds ++ lit ";") (ascii_char n).
Proof.
  intros Hne Hds <- Hn. apply reads_as_step; [done|]. intros rest.
  rewrite <-!(assoc_L app), html_step_reference, span_app by done.
  by rewrite bool_decide_eq_false_2, (proj2 (Z.ltb_ge _ _)) by done.
Qed.

Lemma text_piece_reads c : reads_as html_step (piece text_entity c) [c].
Proof.
  unfold piece, text_entity.
  repeat match goal with |- context [?a =? ?b] => destruct (Z.eqb_spec a b) as [->|] end; cbn [default id].
  1-4: by apply html_named, (bool_decide_unpack _).
  - by apply (html_reference (lit "39") 39).
  - by apply html_plain.
Qed.

(** The digits [html_escape_attr] writes for [c]. *)
Definition byte_digits (c : Z) : bytes :=
  let digits := last_digits 3 c [] in if bool_decide (digits = []) then [0x30] else digits.

Lemma reference_digits c : is_byte c →
  byte_digits c ≠ [] ∧ forallb is_ascii_digit (byte_digits c) = true ∧ decimal_value (byte_digits c) = c.
Proof.
  intros Hc.
  assert (bool_decide (byte_digits c ≠ []) && forallb is_ascii_digit (byte_digits c)
          && (decimal_value (byte_digits c) =? c) = true) as Hall.
  { revert c Hc. apply byte_check. by vm_compute. }
  apply andb_true_iff in Hall as [[H1%bool_decide_eq_true H2]%andb_true_iff H3%Z.eqb_eq]. done.
Qed.

Lemma attr_piece_reads c : is_byte c → reads_as html_step (piece attr_reference c) (ascii_char c).
Proof.
  intros Hc. unfold piece, attr_reference. destruct (_ || _) eqn:E; cbn [default id].
  - assert (ascii_char c = [c]) as ->.
    { unfold ascii_char. destruct (Z.eqb_spec c 0) as [->|]; done. }
    apply html_plain. by intros ->.
  - apply orb_false_iff in E as [E _]. apply Z.leb_gt in E. destruct (reference_digits c Hc) as (?&?&?).
    apply html_reference; [done..|lia].
Qed.

Lemma piece_bytes (stands : Z → option bytes) (ok : Z → bool) s :
  (∀ c, is_byte c → forallb ok (piece stands c) = true) → all_bytes s →
  forallb ok (s ≫= piece stands) = true.
Proof.
  intros Hok. induction 1; [done|]. rewrite bind_cons, forallb_app. by rewrite Hok, IHForall.
Qed.

Lemma text_piece_safe c : is_byte c → forallb (λ c, negb (markup_byte c)) (piece text_entity c) = true.
Proof. revert c. apply byte_check. by vm_compute. Qed.

Lemma attr_piece_safe c : is_byte c → forallb attr_byte (piece attr_reference c) = true.
Proof. revert c. apply byte_check. by vm_compute. Qed.

(** ** Safe values *)

(** A call made a new safe value: its string is [t] to the reader of its own
    type and no other reader's, and the values there were are as they were. *)
Definition made (u : safes) (ty t : bytes) (r : safes * answer lua_value) : Prop :=
  ∃ v, r.2 = Answers v ∧
    (∀ ty', push_string_of r.1 v ty' = if decide (ty = ty') then Answers t else Raises (ty' ++ lit " expected")) ∧
    (∀ w ty' s, test_safe u w ty' = Some s → test_safe r.1 w ty' = Some s).

Lemma wrap_made u ty t : made u ty t (wrap u ty t).
Proof.
  assert (u !! fresh (dom u) = None) as Hfresh by apply not_elem_of_dom, is_fresh.
  eexists. split; [done|]. unfold wrap, push_string_of. simpl. split.
  - intros ty'. rewrite lookup_insert_eq. simpl. by case_decide.
  - intros [| | | | | |w|] ty' x; simpl; try done. intros Hw.
    rewrite lookup_insert_ne; [done|]. intros <-. by rewrite Hfresh in Hw.
Qed.

Lemma html_escape_made `{LuaStrings} u arg s :
  lua_tolstring arg = Some s → made u SAFE_HTML_TYPE (s ≫= piece text_entity) (html_escape u arg).
Proof. intros Hs. unfold html_escape. rewrite Hs, spliced_bind. apply wrap_made. Qed.

Lemma html_escape_attr_made `{LuaStrings} u arg s :
  lua_tolstring arg = Some s → made u SAFE_ATTR_TYPE (s ≫= piece attr_reference) (html_escape_attr u arg).
Proof. intros Hs. unfold html_escape_attr. rewrite Hs, spliced_bind. apply wrap_made. Qed.


Import Plain.

