(* ===== verification/HtmlUrls.v ===== *)
(** * What the URL doors make

    A reader of percent-encoding and of queries, and a browser's reading of a
    URL's scheme as the URL standard has it: what [url_part], [url_query],
    [href] and [local_href] answer is to them.  [concat] is here, with the
    sequences it shares with [url_query]. *)

From S2P Require Import Prelude.
From S2P Require Import Texts.
From S2P Require Import Lua.
From S2P Require Import Html.
From S2P Require Import HtmlCorrect.

Local Open Scope Z_scope.

(** ** Parts of URLs *)

Definition unreserved_or_percent (c : Z) : bool := is_url_unreserved c || (c =? 0x25).

Lemma percent_piece_reads c : is_byte c → reads_as percent_step (piece percent c) [c].
Proof.
  intros Hc.
  assert (match piece percent c with
          | [x] => negb (x =? 0x25) && (x =? c)
          | [p; a; b] => (p =? 0x25) && (0 <=? hex_value a) && (0 <=? hex_value b)
                         && (hex_value a * 16 + hex_value b =? c)
          | _ => false end = true) as Hp.
  { revert c Hc. apply byte_check. by vm_compute. }
  by apply percent_piece_step.
Qed.

Lemma percent_piece_bytes c : is_byte c → forallb unreserved_or_percent (piece percent c) = true.
Proof. revert c. apply byte_check. by vm_compute. Qed.

Lemma percent_reads s : all_bytes s → reads_as percent_step (s ≫= piece percent) s.
Proof.
  intros Hs. rewrite <-(bind_single s) at 2. apply reads_as_bind.
  eapply Forall_impl; [done|apply percent_piece_reads].
Qed.

(** What a browser takes for a dot segment, once percent-decoded. *)
Definition dots : list bytes := [lit "."; lit ".."].

Lemma url_escaped_dots s : s ∈ dots → url_escaped s true = if bool_decide (s = lit ".") then lit "%252E" else lit "%252E%252E".
Proof. unfold dots. rewrite !elem_of_cons, elem_of_nil. intros [->|[->|[]]]; by vm_compute. Qed.

Lemma url_escaped_plain s dot_rule : dot_rule = false ∨ s ∉ dots → url_escaped s dot_rule = s ≫= piece percent.
Proof.
  intros Hs. unfold url_escaped. destruct (_ && _) eqn:E; [|apply spliced_bind].
  exfalso. destruct Hs as [->|Hs]; [done|]. apply Hs. unfold dots.
  apply andb_true_iff in E as [[[[_ E1%Z.ltb_lt]%andb_true_iff E2%Z.leb_le]%andb_true_iff E3%Z.eqb_eq]%andb_true_iff E4].
  destruct s as [|a [|b [|c s]]]; cbn [length] in *; try lia.
  - simpl in *. subst a. apply list_elem_of_here.
  - simpl in *. apply Z.eqb_eq in E4 as ->. subst b. apply list_elem_of_further, list_elem_of_here.
Qed.

(** A piece of a URL is of unreserved bytes and percent signs, is decoded
    to the string it was made of, and is no dot segment in any spelling: for
    the two strings that are one, it is decoded to text that is not. *)
Theorem url_part_reads_back `{LuaStrings} u arg s :
  check_text arg = Some s → all_bytes s →
  ∃ t d, made u SAFE_URL_PART_TYPE t (html_url_part u arg) ∧
    forallb unreserved_or_percent t = true ∧
    decode percent_step t = Some d ∧ (d ∉ dots) ∧ (s ∉ dots → d = s).
Proof.
  intros Harg Hs. unfold html_url_part. rewrite Harg.
  destruct (decide (s ∈ dots)) as [Hd|Hd].
  - rewrite url_escaped_dots by done. unfold dots in Hd. rewrite !elem_of_cons, elem_of_nil in Hd.
    destruct Hd as [->|[->|[]]]; [exists (lit "%252E"), (lit "%2E")|exists (lit "%252E%252E"), (lit "%2E%2E")].
    all: split; [apply wrap_made|]; do 2 (split; [by vm_compute|]); split.
    all: first [by apply (bool_decide_unpack _)|intros []; by apply (bool_decide_unpack _)].
  - rewrite url_escaped_plain by auto. eexists _, s. split; [apply wrap_made|]. split.
    + apply piece_bytes; [apply percent_piece_bytes|done].
    + split; [|done]. by apply reads_as_decode, percent_reads.
Qed.

(** ** Sequences *)

(** The keys of a table are the integers from 1 to [n] and no others. *)
Definition is_sequence (t : table) (n : Z) : Prop :=
  0 ≤ n ∧ ∀ k, k ∈ (t_pairs t).*1 ↔ ∃ i, k = LInt i ∧ 1 ≤ i ≤ n.

(** Whether a key is an integer from 1 to [count]. *)
Definition counted (count : Z) (k : lua_value) : bool :=
  match k with LInt i => (1 <=? i) && (i <=? count) | _ => false end.

Lemma counted_iff count k : counted count k = true ↔ ∃ i, k = LInt i ∧ 1 ≤ i ≤ count.
Proof.
  split.
  - destruct k; simpl; try done. intros [?%Z.leb_le ?%Z.leb_le]%andb_true_iff. eauto.
  - intros (i & -> & Hi). simpl. by rewrite !(proj2 (Z.leb_le _ _)) by lia.
Qed.

Lemma count_keys_spec count pairs keys :
  count_keys count pairs keys
  = if forallb (counted count) pairs.*1 then Some (keys + Z.of_nat (length pairs)) else None.
Proof.
  revert keys. induction pairs as [|[k v] pairs IH]; intros keys; cbn [count_keys length fmap list_fmap forallb fst].
  - simpl. by rewrite Z.add_0_r.
  - destruct k as [| |i| | | | |]; try done. simpl. rewrite Z.ltb_antisym, (Z.ltb_antisym i).
    destruct (1 <=? i), (i <=? count); simpl; try done.
    rewrite IH. csimpl. destruct (forallb _ _); [f_equal; lia|done].
Qed.

Lemma seq_keys_length n : length (LInt <$> seqZ 1 n) = Z.to_nat n.
Proof. by rewrite length_fmap, length_seqZ. Qed.

Lemma seq_keys_NoDup n : NoDup (LInt <$> seqZ 1 n).
Proof. apply NoDup_fmap_2_strong; [by intros ???? [= ->]|apply NoDup_seqZ]. Qed.

Lemma elem_of_seq_keys n k : k ∈ LInt <$> seqZ 1 n ↔ ∃ i, k = LInt i ∧ 1 ≤ i ≤ n.
Proof.
  rewrite list_elem_of_fmap. setoid_rewrite elem_of_seqZ. split; intros (i & -> & Hi); eexists; (split; [done|lia]).
Qed.

Lemma rawget_not_key t k : rawget t k ≠ LNil → k ∈ (t_pairs t).*1.
Proof. intros Hk%pairs_get_some. apply list_elem_of_fmap. by eexists (k, _). Qed.

Lemma rawget_key t k : table_ok t → k ∈ (t_pairs t).*1 → rawget t k ≠ LNil.
Proof.
  intros [Hnd Hall] ([k' v] & -> & Hin)%list_elem_of_fmap. simpl. unfold rawget.
  rewrite (pairs_get_in _ _ v) by done. rewrite Forall_forall in Hall. by apply (Hall (k', v)).
Qed.

Section sequences.
Context `{RawLenLaws}.

(** A sequence has one border. *)
Lemma rawlen_sequence t n : table_ok t → is_sequence t n → n < 2 ^ 63 - 1 → lua_rawlen t = n.
Proof.
  intros Hok [Hn Hkeys] Hmax. destruct (rawlen_border t Hok) as (Hb & Hlast & Hnext).
  set (b := lua_rawlen t) in *.
  assert (∀ i, 1 ≤ i ≤ n → rawget t (LInt i) ≠ LNil) as Hin.
  { intros i Hi. apply rawget_key; [done|]. apply Hkeys. eauto. }
  destruct (Z.lt_trichotomy b n) as [Hlt|[Heq|Hgt]]; [|done|].
  - destruct Hnext as [Hnext|]; [|lia]. exfalso. apply (Hin (b + 1)); [lia|done].
  - destruct Hlast as [|Hlast]; [lia|]. apply rawget_not_key, Hkeys in Hlast as (i & [= <-] & Hi). lia.
Qed.

Lemma check_sequence_accepts h a what n :
  heap_ok h → is_sequence (table_at h a) n → n < 2 ^ 63 - 1 →
  check_sequence h (LTable a) what = inl (table_at h a, n).
Proof.
  intros Hh Hseq Hn. pose proof (table_at_ok h a Hh) as Hok. unfold check_sequence.
  rewrite (rawlen_sequence _ n) by done. rewrite count_keys_spec.
  destruct Hseq as [Hpos Hkeys].
  assert (forallb (counted n) (t_pairs (table_at h a)).*1 = true) as ->.
  { apply forallb_Forall, Forall_forall. intros k Hk%Hkeys. by apply counted_iff. }
  assert ((t_pairs (table_at h a)).*1 ≡ₚ LInt <$> seqZ 1 n) as Hperm.
  { apply NoDup_Permutation; [apply Hok|apply seq_keys_NoDup|]. intros k. by rewrite Hkeys, elem_of_seq_keys. }
  apply Permutation_length in Hperm. rewrite length_fmap, seq_keys_length in Hperm.
  rewrite Hperm, Z2Nat.id, Z.add_0_l, Z.eqb_refl by done. done.
Qed.

Lemma check_sequence_inv h a what t n :
  heap_ok h → check_sequence h (LTable a) what = inl (t, n) → t = table_at h a ∧ is_sequence t n.
Proof.
  intros Hh. pose proof (table_at_ok h a Hh) as Hok. unfold check_sequence.
  rewrite count_keys_spec, Z.add_0_l. destruct (forallb _ _) eqn:E; [|done].
  destruct (Z.eqb_spec (Z.of_nat (length (t_pairs (table_at h a)))) (lua_rawlen (table_at h a))) as [Hlen|]; [|done].
  intros [= <- <-]. split; [done|]. destruct (rawlen_border _ Hok) as (Hb & _ & _). split; [lia|].
  apply forallb_Forall in E. rewrite Forall_forall in E.
  assert ((t_pairs (table_at h a)).*1 ≡ₚ LInt <$> seqZ 1 (lua_rawlen (table_at h a))) as Hperm.
  { apply submseteq_length_Permutation.
    - apply NoDup_submseteq; [apply Hok|]. intros k Hk%E. by apply elem_of_seq_keys, counted_iff.
    - rewrite seq_keys_length, length_fmap. lia. }
  intros k. by rewrite Hperm, elem_of_seq_keys.
Qed.

(** A table is taken for a sequence exactly when it is one. *)
Lemma check_sequence_iff h a what n :
  heap_ok h → n < 2 ^ 63 - 1 →
  check_sequence h (LTable a) what = inl (table_at h a, n) ↔ is_sequence (table_at h a) n.
Proof.
  intros Hh Hn. split; [by intros [_ ?]%check_sequence_inv|]. intros. by apply check_sequence_accepts.
Qed.

End sequences.

(** ** Joining *)

Lemma seqZ_turns i n : 0 < n → seqZ i n = i :: seqZ (i + 1) (n - 1).
Proof. intros Hn. rewrite seqZ_cons by done. by rewrite <-Z.add_1_r, <-Z.sub_1_r. Qed.

Lemma seqZ_next i turns : seqZ i (Z.of_nat (S turns)) = i :: seqZ (i + 1) (Z.of_nat turns).
Proof. rewrite seqZ_turns by lia. do 2 f_equal. lia. Qed.

Lemma concat_loop_all u t turns i b ss :
  mapM (λ i, test_safe u (rawgeti t i) SAFE_HTML_TYPE) (seqZ i (Z.of_nat turns)) = Some ss →
  concat_loop u t turns i b = inl (b ++ concat ss).
Proof.
  revert i b ss. induction turns as [|turns IH]; intros i b ss; cbn [concat_loop].
  { intros [= <-]. csimpl. by rewrite app_nil_r. }
  rewrite seqZ_next. csimpl. destruct (test_safe u (rawgeti t i) SAFE_HTML_TYPE) as [s|]; csimpl; [|done].
  destruct (mapM _ _) as [ss'|] eqn:E; csimpl; [|done]. intros [= <-].
  rewrite (IH _ _ ss') by done. csimpl. by rewrite <-app_assoc.
Qed.

Lemma concat_loop_none u t turns i b j :
  i ≤ j < i + Z.of_nat turns →
  test_safe u (rawgeti t j) SAFE_HTML_TYPE = None →
  (∀ k, i ≤ k < j → test_safe u (rawgeti t k) SAFE_HTML_TYPE ≠ None) →
  concat_loop u t turns i b = inr (lit "html: element " ++ decimal j ++ lit " is not a SafeHtml").
Proof.
  revert i b. induction turns as [|turns IH]; intros i b Hj Hnone Hsome; [lia|]. cbn [concat_loop].
  destruct (decide (i = j)) as [->|Hne]; [by rewrite Hnone|].
  destruct (test_safe u (rawgeti t i) SAFE_HTML_TYPE) eqn:E; [|by destruct (Hsome i ltac:(lia))].
  apply IH; [lia|done|]. intros k Hk. apply Hsome. lia.
Qed.

Lemma check_pairs_all `{RawLen} h t turns i ps :
  mapM (pair_at h t) (seqZ i (Z.of_nat turns)) = Some ps → check_pairs h t turns i = None.
Proof.
  revert i ps. induction turns as [|turns IH]; intros i ps; cbn [check_pairs]; [done|].
  rewrite seqZ_next. csimpl. destruct (pair_at h t i) as [p|]; csimpl; [|done].
  destruct (mapM _ _) as [ps'|] eqn:E; csimpl; [|done]. intros _. by apply (IH _ ps').
Qed.

Lemma check_pairs_none `{RawLen} h t turns i j :
  i ≤ j < i + Z.of_nat turns → pair_at h t j = None → (∀ k, i ≤ k < j → pair_at h t k ≠ None) →
  check_pairs h t turns i = Some (lit "html: pair " ++ decimal j ++ lit " is not two strings").
Proof.
  revert i. induction turns as [|turns IH]; intros i Hj Hnone Hsome; [lia|]. cbn [check_pairs].
  destruct (decide (i = j)) as [->|Hne]; [by rewrite Hnone|].
  destruct (pair_at h t i) eqn:E; [|by destruct (Hsome i ltac:(lia))].
  apply IH; [lia|done|]. intros k Hk. apply Hsome. lia.
Qed.

(** [name=value]. *)
Definition pair_text (p : bytes * bytes) : bytes :=
  (p.1 ≫= piece percent) ++ [0x3d] ++ (p.2 ≫= piece percent).

Fixpoint query_text (i : Z) (ps : list (bytes * bytes)) : bytes :=
  match ps with
  | [] => []
  | p :: ps => (if 1 <? i then [0x26] else []) ++ pair_text p ++ query_text (i + 1) ps
  end.

Lemma put_pairs_all `{RawLen} h t turns i b ps :
  mapM (pair_at h t) (seqZ i (Z.of_nat turns)) = Some ps →
  put_pairs h t turns i b = b ++ query_text i ps.
Proof.
  revert i b ps. induction turns as [|turns IH]; intros i b ps; cbn [put_pairs].
  { intros [= <-]. by rewrite app_nil_r. }
  rewrite seqZ_next. csimpl. destruct (pair_at h t i) as [[name value]|]; csimpl; [|done].
  destruct (mapM _ _) as [ps'|] eqn:E; csimpl; [|done]. intros [= <-].
  rewrite (IH _ _ ps') by done. rewrite !url_escaped_plain by auto.
  cbn [query_text]. change (pair_text (name, value)) with ((name ≫= piece percent) ++ [0x3d] ++ (value ≫= piece percent)).
  by destruct (1 <? i); rewrite <-!app_assoc.
Qed.

(** ** Reading a query *)

Lemma percent_without c s :
  (c =? 0x26) || (c =? 0x3d) = true → all_bytes s →
  forallb (λ x, negb (x =? c)) (s ≫= piece percent) = true.
Proof.
  intros Hc Hs. apply piece_bytes; [|done]. intros x Hx.
  pose proof (percent_piece_bytes x Hx) as Hb. rewrite forallb_Forall in Hb |- *.
  eapply Forall_impl; [done|]. intros y Hy. apply negb_true_iff.
  destruct (Z.eqb_spec y c) as [->|]; [|done].
  apply orb_true_iff in Hc as [->%Z.eqb_eq| ->%Z.eqb_eq]; by vm_compute in Hy.
Qed.

Definition pair_bytes (p : bytes * bytes) : Prop := all_bytes p.1 ∧ all_bytes p.2.

Lemma pair_text_without p : pair_bytes p → forallb (λ x, negb (x =? 0x26)) (pair_text p) = true.
Proof.
  intros [H1 H2]. unfold pair_text. rewrite !forallb_app. by rewrite !percent_without by done.
Qed.

Lemma parse_pair_text p : pair_bytes p → parse_pair (pair_text p) = Some p.
Proof.
  destruct p as [name value]. intros [H1 H2]. unfold parse_pair, pair_text. simpl in *.
  rewrite span_app by (first [by apply percent_without|done]).
  rewrite (reads_as_decode _ _ _ (percent_reads name H1)). simpl.
  by rewrite (reads_as_decode _ _ _ (percent_reads value H2)).
Qed.

Lemma split_query i ps :
  1 < i → Forall pair_bytes ps → split_on 0x26 (query_text i ps) = [] :: (pair_text <$> ps).
Proof.
  intros Hi Hps. revert i Hi. induction Hps as [|p ps Hp Hps IH]; intros i Hi; [done|].
  cbn [query_text]. rewrite (proj2 (Z.ltb_lt 1 i)) by done. cbn [app split_on]. rewrite Z.eqb_refl.
  rewrite split_on_app by (by apply pair_text_without). rewrite IH by (done || lia).
  by rewrite app_nil_r.
Qed.

Lemma parse_query_text ps : Forall pair_bytes ps → parse_query (query_text 1 ps) = Some ps.
Proof.
  destruct ps as [|p ps]; [done|]. intros Hall. pose proof Hall as [Hp Hps]%Forall_cons.
  unfold parse_query. cbn [query_text]. simpl. rewrite bool_decide_eq_false_2.
  2: { unfold pair_text. intros [[_ [=]]%app_eq_nil _]%app_eq_nil. }
  rewrite split_on_app by (by apply pair_text_without). rewrite split_query by (done || lia).
  rewrite app_nil_r. apply mapM_Some_2, Forall2_cons. split; [by apply parse_pair_text|].
  clear -Hps. induction Hps; csimpl; constructor; [by apply parse_pair_text|done].
Qed.

Section sequence_theorems.
Context `{RawLenLaws}.

(** [concat] of a sequence of [SafeHtml] is their strings one after
    another; the first element that is none is named in what it raises. *)
Theorem concat_joins h u a n :
  heap_ok h → n < 2 ^ 63 - 1 → is_sequence (table_at h a) n →
  let element i := test_safe u (rawgeti (table_at h a) i) SAFE_HTML_TYPE in
  (∀ ss, mapM element (seqZ 1 n) = Some ss → made u SAFE_HTML_TYPE (concat ss) (html_concat h u (LTable a))) ∧
  (∀ i, 1 ≤ i ≤ n → element i = None → (∀ k, 1 ≤ k < i → element k ≠ None) →
     html_concat h u (LTable a) = (u, Raises (lit "html: element " ++ decimal i ++ lit " is not a SafeHtml"))).
Proof.
  intros Hh Hn Hseq element. pose proof Hseq as [Hpos _].
  assert (seqZ 1 n = seqZ 1 (Z.of_nat (Z.to_nat n))) as Hz by (by rewrite Z2Nat.id).
  unfold html_concat. rewrite (check_sequence_accepts _ _ _ n) by done. split.
  - intros ss Hss. rewrite Hz in Hss. rewrite (concat_loop_all _ _ _ _ _ ss) by done. apply wrap_made.
  - intros i Hi Hnone Hsome. rewrite (concat_loop_none _ _ _ _ _ i); [done|lia|done|done].
Qed.

(** [url_query] of a sequence of pairs of strings is a query that parses
    to those pairs in order; the first element that is no pair of strings is
    named in what it answers with [nil]. *)
Theorem url_query_reads_back h u a n :
  heap_ok h → n < 2 ^ 63 - 1 → is_sequence (table_at h a) n →
  let pair i := pair_at h (table_at h a) i in
  (∀ ps, mapM pair (seqZ 1 n) = Some ps → Forall pair_bytes ps →
     ∃ t, made u SAFE_URL_PART_TYPE t (html_url_query h u (LTable a)) ∧ parse_query t = Some ps) ∧
  (∀ i, 1 ≤ i ≤ n → pair i = None → (∀ k, 1 ≤ k < i → pair k ≠ None) →
     html_url_query h u (LTable a) = (u, Refuses (lit "html: pair " ++ decimal i ++ lit " is not two strings"))).
Proof.
  intros Hh Hn Hseq pair. pose proof Hseq as [Hpos _].
  assert (seqZ 1 n = seqZ 1 (Z.of_nat (Z.to_nat n))) as Hz by (by rewrite Z2Nat.id).
  unfold html_url_query. rewrite (check_sequence_accepts _ _ _ n) by done. split.
  - intros ps Hps Hb. rewrite Hz in Hps. rewrite (check_pairs_all _ _ _ _ ps) by done.
    rewrite (put_pairs_all _ _ _ _ _ ps) by done. eexists. split; [apply wrap_made|]. by apply parse_query_text.
  - intros i Hi Hnone Hsome. by rewrite (check_pairs_none _ _ _ _ i) by (done || lia).
Qed.

End sequence_theorems.

(** ** What a browser makes of a URL *)

(** The URL standard: leading and trailing C0 controls and spaces go, then
    every tab, newline and carriage return. *)
Fixpoint strip_front (s : bytes) : bytes :=
  match s with c :: s' => if c <=? 0x20 then strip_front s' else s | [] => [] end.

Definition browser_text (s : bytes) : bytes :=
  filter (λ c, c ∉ [0x09; 0x0a; 0x0d]) (reverse (strip_front (reverse (strip_front s)))).

(** The scheme-start and scheme states: a letter, scheme bytes and a colon,
    the scheme in lower case. *)
Definition browser_scheme (s : bytes) : option bytes :=
  match s with
  | c :: _ =>
      if is_ascii_alpha c then
        let '(scheme, rest) := span is_scheme_byte s in
        if decide (head rest = Some 0x3a) then Some (fold_case <$> scheme) else None
      else None
  | [] => None
  end.

(** A reference that a browser reads as a host's: of a page's special
    scheme a backslash is a slash. *)
Definition names_host (s : bytes) : bool :=
  match s with a :: b :: _ => is_slash a && is_slash b | _ => false end.

(** ** What the allowlist lets through *)

(** No byte a browser drops. *)
Definition clean (s : bytes) : Prop :=
  Forall (λ c, 0x20 ≤ c ∧ c ≠ 0x7f) s ∧ head s ≠ Some 0x20 ∧ last s ≠ Some 0x20.

Definition ends_scheme (c : Z) : bool := (c =? 0x3a) || (c =? 0x2f) || (c =? 0x3f) || (c =? 0x23).

(** [s] is [scheme ":" rest] of one of the schemes. *)
Definition of_scheme (schemes : list bytes) (s : bytes) : Prop :=
  ∃ c scheme rest, s = c :: scheme ++ 0x3a :: rest ∧ is_ascii_alpha c = true ∧
    forallb is_scheme_byte scheme = true ∧ fold_case <$> c :: scheme ∈ schemes.

(** No colon comes before the first slash, question mark or hash. *)
Definition relative (s : bytes) : Prop :=
  head (span (λ c, negb (ends_scheme c)) s).2 ≠ Some 0x3a.

Definition safe_url (schemes : list bytes) (s : bytes) : Prop :=
  clean s ∧ (of_scheme schemes s ∨ relative s ∧ names_host s = false).

Lemma equals_ignoring_case_iff s word : equals_ignoring_case s word = true ↔ fold_case <$> s = word.
Proof.
  unfold equals_ignoring_case. destruct (Z.eqb_spec (Z.of_nat (length word)) (Z.of_nat (length s))) as [Hl|Hl]; simpl.
  - apply Nat2Z.inj in Hl. revert word Hl. induction s as [|c s IH]; intros [|w word] Hl; csimpl; try done.
    simpl in Hl. rewrite andb_true_iff, Z.eqb_eq, IH by lia. split; [by intros [-> ->]|by intros [= -> ->]].
  - split; [done|]. intros <-. by rewrite length_fmap in Hl.
Qed.

Lemma span_split f s : s = (span f s).1 ++ (span f s).2 ∧ forallb f (span f s).1 = true ∧
  match (span f s).2 with c :: _ => f c = false | [] => True end.
Proof.
  induction s as [|c s IH]; [done|]. simpl. destruct (f c) eqn:E; [|by simpl; rewrite E].
  destruct (span f s) as [a b]. simpl in *. destruct IH as (-> & Ha & Hb). by rewrite E, Ha.
Qed.

Lemma colon_at_span s : colon_at s = length (span (λ c, negb (ends_scheme c)) s).1.
Proof.
  induction s as [|c s IH]; [done|]. simpl. unfold ends_scheme at 1. rewrite !negb_orb.
  destruct (_ && _); [|done]. rewrite IH. by destruct (span _ s).
Qed.

Lemma clean_iff s :
  clean s ↔
  (0 <? Z.of_nat (length s)) && ((s !!! 0%nat =? 0x20) || (s !!! (length s - 1)%nat =? 0x20)) = false ∧
  existsb (λ c, (c <? 0x20) || (c =? 0x7f)) s = false.
Proof.
  assert (existsb (λ c, (c <? 0x20) || (c =? 0x7f)) s = false ↔ Forall (λ c, 0x20 ≤ c ∧ c ≠ 0x7f) s) as ->.
  { induction s as [|c s IH]; [by split|]. simpl.
    rewrite !orb_false_iff, IH, Forall_cons, Z.ltb_ge, Z.eqb_neq. tauto. }
  unfold clean. destruct s as [|c s]; [split; [done|by intros; split_and!]|].
  rewrite last_lookup. simpl. rewrite Nat.sub_0_r.
  rewrite orb_false_iff, !Z.eqb_neq. destruct ((c :: s) !! length s) as [d|] eqn:E.
  - rewrite (list_lookup_total_correct _ _ _ E). split.
    + intros (Hf & Hc & Hd). split; [split; congruence|done].
    + intros [[Hc Hd] Hf]. split_and!; [done|congruence..].
  - apply lookup_ge_None in E. simpl in E. lia.
Qed.

Lemma scheme_byte_no_end c : is_scheme_byte c = true → ends_scheme c = false.
Proof.
  unfold is_scheme_byte, is_ascii_alphanumeric, ends_scheme. intros Hc. zcases; subst; simpl in *; try done.
Qed.

Lemma alpha_scheme_byte c : is_ascii_alpha c = true → is_scheme_byte c = true.
Proof.
  unfold is_scheme_byte, is_ascii_alphanumeric, is_ascii_alpha.
  by intros [-> | ->]%orb_true_iff; rewrite ?orb_true_r.
Qed.

(** The bytes a scheme may end with, and what follows, decide [of_scheme]. *)
Lemma of_scheme_span schemes s p r :
  span (λ c, negb (ends_scheme c)) s = (p, r) →
  of_scheme schemes s ↔
  (∃ rest, r = 0x3a :: rest) ∧ is_ascii_alpha (p !!! 0%nat) = true ∧
  forallb is_scheme_byte (drop 1 p) = true ∧ fold_case <$> p ∈ schemes.
Proof.
  intros Hspan. split.
  - intros (c & scheme & rest & -> & Hc & Hscheme & Hin).
    change (c :: scheme ++ 0x3a :: rest) with ((c :: scheme) ++ 0x3a :: rest) in Hspan.
    rewrite span_app in Hspan; [|cbn [forallb]|done].
    + simplify_eq. simpl. eauto.
    + rewrite (scheme_byte_no_end c) by (by apply alpha_scheme_byte). simpl.
      rewrite forallb_Forall in Hscheme |- *. eapply Forall_impl; [done|].
      intros x Hx. simpl. by rewrite scheme_byte_no_end.
  - intros ((rest & ->) & Hc & Hscheme & Hin). pose proof (span_split (λ c, negb (ends_scheme c)) s) as (Hs & _ & _).
    rewrite Hspan in Hs. simpl in Hs. destruct p as [|c p]; [done|].
    exists c, p, rest. by split_and!.
Qed.

Lemma existsb_negb (f : Z → bool) l : existsb (λ c, negb (f c)) l = negb (forallb f l).
Proof. induction l as [|c l IH]; [done|]. simpl. by rewrite IH, negb_andb. Qed.

Lemma url_allowed_clean s schemes : ¬ clean s → url_allowed s schemes = false.
Proof.
  rewrite clean_iff. unfold url_allowed. destruct (_ && _); [done|]. destruct (existsb _ s); [done|]. tauto.
Qed.

Lemma existsb_equals s schemes : existsb (equals_ignoring_case s) schemes = true ↔ fold_case <$> s ∈ schemes.
Proof.
  rewrite existsb_exists. setoid_rewrite <-list_elem_of_In. split.
  - by intros (w & Hw & <-%equals_ignoring_case_iff).
  - intros Hw. eexists. split; [done|]. by apply equals_ignoring_case_iff.
Qed.

Lemma names_host_iff s :
  (2 <=? Z.of_nat (length s)) && is_slash (s !!! 0%nat) && is_slash (s !!! 1%nat) = names_host s.
Proof.
  destruct s as [|a [|b s]]; [done|done|]. rewrite (proj2 (Z.leb_le _ _)) by (simpl; lia). done.
Qed.

Lemma colon_found s p r :
  span (λ c, negb (ends_scheme c)) s = (p, r) →
  (Z.of_nat (colon_at s) <? Z.of_nat (length s)) && (s !!! colon_at s =? 0x3a)
  = bool_decide (head r = Some 0x3a) ∧ take (colon_at s) s = p.
Proof.
  intros Hspan. pose proof (span_split (λ c, negb (ends_scheme c)) s) as (Hs & _ & _).
  rewrite Hspan in Hs. simpl in Hs. rewrite colon_at_span, Hspan. simpl.
  split; [|by rewrite Hs, take_app_length]. rewrite Hs, length_app. destruct r as [|c r].
  { simpl. by rewrite Nat.add_0_r, Z.ltb_irrefl. }
  rewrite (proj2 (Z.ltb_lt _ _)) by (simpl; lia). rewrite list_lookup_total_middle by done. simpl.
  destruct (Z.eqb_spec c 0x3a) as [->|Hc]; [done|]. symmetry. apply bool_decide_eq_false. congruence.
Qed.

Lemma url_allowed_iff s schemes : url_allowed s schemes = true ↔ safe_url schemes s.
Proof.
  unfold safe_url. destruct (span (λ c, negb (ends_scheme c)) s) as [p r] eqn:Hspan.
  rewrite (of_scheme_span _ _ _ _ Hspan). unfold relative. rewrite Hspan. simpl.
  destruct (colon_found s p r Hspan) as [Hcolon Htake].
  rewrite clean_iff. unfold url_allowed. rewrite names_host_iff, Hcolon, Htake, existsb_negb.
  destruct (_ && (_ || _)); [by split; [|intros [[? _] _]]|].
  destruct (existsb (λ c, (c <? 0x20) || (c =? 0x7f)) s); [by split; [|intros [[_ ?] _]]|].
  case_bool_decide as Hr.
  - destruct r as [|c r]; [done|]. injection Hr as ->.
    assert (s !!! 0%nat = (p ++ 0x3a :: r) !!! 0%nat) as Hs0.
    { f_equal. pose proof (span_split (λ c, negb (ends_scheme c)) s) as (Hs & _ & _). by rewrite Hspan in Hs. }
    assert (is_ascii_alpha (s !!! 0%nat) = is_ascii_alpha (p !!! 0%nat)) as ->.
    { rewrite Hs0. by destruct p. }
    trans (is_ascii_alpha (p !!! 0%nat) && forallb is_scheme_byte (drop 1 p)
           && existsb (equals_ignoring_case p) schemes = true).
    { by destruct (is_ascii_alpha _), (forallb _ (drop 1 p)). }
    rewrite !andb_true_iff, existsb_equals. split.
    + intros [[??]?]. split; [done|]. left. by split_and!; [exists r|..].
    + by intros [_ [(_ & ? & ? & ?)|[? _]]].
  - rewrite negb_true_iff. split; [by auto|]. intros [_ [[[rest ->] _]|[_ ?]]]; done.
Qed.

(** ** A browser agrees *)

Lemma strip_front_clean s : Forall (λ c, 0x20 ≤ c ∧ c ≠ 0x7f) s → head s ≠ Some 0x20 → strip_front s = s.
Proof.
  destruct s as [|c s]; [done|]. simpl. intros [[Hc _] _]%Forall_cons Hh.
  destruct (Z.leb_spec c 0x20); [|done]. assert (c = 0x20) as -> by lia. done.
Qed.

(** A browser drops nothing of a clean text. *)
Lemma browser_text_clean s : clean s → browser_text s = s.
Proof.
  intros (Hall & Hh & Hl). unfold browser_text. rewrite (strip_front_clean s) by done.
  rewrite strip_front_clean.
  - rewrite reverse_involutive. apply filter_keep. eapply Forall_impl; [done|].
    intros c [Hc _]. simpl. rewrite !not_elem_of_cons. split_and!; [lia..|apply not_elem_of_nil].
  - by apply Forall_reverse.
  - by rewrite head_reverse.
Qed.

(** A browser takes the text for a URL of one of the schemes, or for a
    reference with no scheme and no host of its own. *)
Definition browser_agrees (schemes : list bytes) (t : bytes) : Prop :=
  match browser_scheme (browser_text t) with
  | Some scheme => scheme ∈ schemes
  | None => names_host (browser_text t) = false
  end.

Lemma safe_url_browser schemes s : safe_url schemes s → browser_agrees schemes s.
Proof.
  intros [Hclean Hs]. unfold browser_agrees. rewrite browser_text_clean by done.
  destruct Hs as [(c & scheme & rest & -> & Hc & Hscheme & Hin)|[Hrel Hhost]].
  - unfold browser_scheme. simpl. rewrite Hc, (alpha_scheme_byte c Hc), span_app by done.
    by rewrite decide_True.
  - unfold browser_scheme. destruct s as [|c s]; [done|]. destruct (is_ascii_alpha c); [|done].
    destruct (span_split is_scheme_byte (c :: s)) as (Hs & Hp & _).
    destruct (span is_scheme_byte (c :: s)) as [p r]. cbn [fst snd] in Hs, Hp.
    case_decide as Hr; [|done]. destruct r as [|x r]; [done|]. injection Hr as ->.
    exfalso. apply Hrel. rewrite Hs, span_app; [done| |done].
    rewrite forallb_Forall in Hp |- *. eapply Forall_impl; [done|].
    intros x Hx. simpl. by rewrite scheme_byte_no_end.
Qed.

(** What is made of a string under [schemes]: itself where it is safe, and
    [about:invalid] where it is not. *)
Definition let_through (schemes : list bytes) (s t : bytes) : Prop :=
  (safe_url schemes s ∧ t = s ∧ browser_agrees schemes t) ∨ (¬ safe_url schemes s ∧ t = INVALID).

Lemma wrap_allowed_url_made `{LuaStrings} u arg schemes s :
  lua_tolstring arg = Some s →
  ∃ t, made u SAFE_URL_TYPE t (wrap_allowed_url u arg schemes) ∧ let_through schemes s t.
Proof.
  intros Hs. unfold wrap_allowed_url. rewrite Hs. eexists. split; [apply wrap_made|].
  pose proof (url_allowed_iff s schemes) as Hiff. unfold let_through.
  destruct (url_allowed s schemes); [left|right].
  - split_and!; [by apply Hiff|done|]. by apply safe_url_browser, Hiff.
  - split; [|done]. by intros ?%Hiff.
Qed.

(** C9: [href] lets through exactly the clean texts that are of the schemes
    [http], [https] or [mailto] or are relative and name no host, and
    [local_href] the second alone; anything else is [about:invalid].  What is
    let through a browser reads the same way, after what it drops. *)
Theorem hrefs_let_through `{LuaStrings} u arg s :
  lua_tolstring arg = Some s →
  (∃ t, made u SAFE_URL_TYPE t (html_href u arg) ∧ let_through href_schemes s t) ∧
  (∃ t, made u SAFE_URL_TYPE t (html_local_href u arg) ∧ let_through [] s t).
Proof. intros Hs. split; by apply wrap_allowed_url_made. Qed.

(** ** At inputs of their own *)

Import Plain.

Lemma url_part_reads_back_witness :
  let s := lit "a b/.." in
  ∃ t d, made ∅ SAFE_URL_PART_TYPE t (html_url_part ∅ (LString s)) ∧
    forallb unreserved_or_percent t = true ∧ decode percent_step t = Some d ∧ (d ∉ dots) ∧ (s ∉ dots → d = s).
Proof. apply (@url_part_reads_back Plain.strings); [done|by repeat constructor]. Defined.

Lemma hrefs_let_through_witness :
  let s := lit "HTTP://h/" in
  (∃ t, made ∅ SAFE_URL_TYPE t (html_href ∅ (LString s)) ∧ let_through href_schemes s t) ∧
  (∃ t, made ∅ SAFE_URL_TYPE t (html_local_href ∅ (LString s)) ∧ let_through [] s t).
Proof. by apply (@hrefs_let_through Plain.strings). Defined.

(** A list of two safe values, the second of another type. *)
Definition two_parts : heap := {[1%positive := Table None [(LInt 1, LUserdata 1); (LInt 2, LUserdata 2)]]}.
Definition parts : safes :=
  <[1%positive := Safe SAFE_HTML_TYPE (lit "<b>")]> {[2%positive := Safe SAFE_ATTR_TYPE (lit "x")]}.

(** A list of one pair. *)
Definition one_pair : heap :=
  <[1%positive := Table None [(LInt 1, LTable 2)]]>
    {[2%positive := Table None [(LInt 1, LString (lit "a")); (LInt 2, LString (lit "b&c"))]]}.

Lemma two_parts_ok : heap_ok two_parts.
Proof. apply heap_ok_put; [by apply (bool_decide_unpack _)|apply heap_ok_none]. Qed.

Lemma one_pair_ok : heap_ok one_pair.
Proof. do 2 (apply heap_ok_put; [by apply (bool_decide_unpack _)|]). apply heap_ok_none. Qed.

Lemma concat_joins_witness :
  html_concat two_parts parts (LTable 1) = (parts, Raises (lit "html: element 2 is not a SafeHtml")).
Proof.
  refine (proj2 (concat_joins two_parts parts 1 2 two_parts_ok _ _) 2 _ _ _); [lia| |lia|done|].
  - by apply (check_sequence_iff _ 1%positive (lit "parts") 2 two_parts_ok).
  - intros k Hk. assert (k = 1) as -> by lia. by vm_compute.
Defined.

Lemma url_query_reads_back_witness :
  ∃ t, made ∅ SAFE_URL_PART_TYPE t (html_url_query one_pair ∅ (LTable 1)) ∧
    parse_query t = Some [(lit "a", lit "b&c")].
Proof.
  refine (proj1 (url_query_reads_back one_pair ∅ 1 1 one_pair_ok _ _) _ _ _); [lia| |done|].
  - by apply (check_sequence_iff _ 1%positive (lit "pairs") 1 one_pair_ok).
  - by repeat constructor.
Defined.
