(* ===== verification/HtmlCss.v ===== *)
(** * What the CSS door makes

    A reader of CSS identifiers as CSS Syntax has it, and that what
    [escape_css_attr] answers, read as an attribute's value, is one that it
    reads as the string given. *)

From S2P Require Import Prelude.
From S2P Require Import Texts.
From S2P Require Import Lua.
From S2P Require Import Html.
From S2P Require Import HtmlCorrect.

Local Open Scope Z_scope.

(** ** The reader *)

(** CSS Syntax: the code points of an identifier, escapes among them. *)
Definition css_name_start (c : Z) : bool := (0x80 <=? c) || is_ascii_alpha c || (c =? 0x5f).
Definition css_name (c : Z) : bool := css_name_start c || is_ascii_digit c || (c =? 0x2d).
Definition css_whitespace (c : Z) : bool :=
  (c =? 0x20) || (c =? 0x09) || (c =? 0x0a) || (c =? 0x0c) || (c =? 0x0d).
Definition hex_number (ds : bytes) : Z := foldl (λ v d, v * 16 + hex_value d) 0 ds.

Definition css_step (s : bytes) : option (bytes * bytes) :=
  match s with
  | [] => None
  | c :: rest =>
      if css_name c then Some ([c], rest)
      else if negb (c =? 0x5c) then None
      else
        let '(ds, rest) := span (λ c, 0 <=? hex_value c) rest in
        if bool_decide (ds = []) || (6 <? length ds)%nat || (0x7f <? hex_number ds) then None
        else
          Some (ascii_char (hex_number ds),
                match rest with c :: rest' => if css_whitespace c then rest' else rest | [] => [] end)
  end.

Definition css_escape_at (s : bytes) : bool :=
  match s with 0x5c :: c :: _ => negb (c =? 0x0a) | _ => false end.

(** Would the text start an identifier? *)
Definition css_starts (s : bytes) : bool :=
  match s with
  | [] => false
  | c :: rest =>
      if c =? 0x2d then
        match rest with d :: _ => css_name_start d || (d =? 0x2d) | [] => false end || css_escape_at rest
      else css_name_start c || css_escape_at s
  end.

(** ** Identifiers of CSS *)

(** The hexadecimal digits of a byte, without a leading zero. *)
Definition hex_digits (c : Z) : bytes :=
  (if 16 <=? c then [hex_digit (Z.shiftr c 4)] else []) ++ [hex_digit (Z.land c 15)].

(** Whether a byte stands for itself in CSS, in a string of more bytes than
    one or not, leading an identifier or not. *)
Definition css_itself (many leads : bool) (c : Z) : bool :=
  (c =? 0x5f) || ((c =? 0x2d) && many) || (0x80 <=? c)
  || (is_ascii_alphanumeric c && negb (is_ascii_digit c && leads)).

(** The CSS text of a byte, before it is attribute text. *)
Definition css_out (many leads : bool) (c : Z) : bytes :=
  if c =? 0 then REPLACEMENT
  else if css_itself many leads c then [c]
  else [0x5c] ++ hex_digits c ++ [0x20].

Definition css_text (s : bytes) (i : nat) : bytes :=
  css_out (1 <? Z.of_nat (length s)) ((i =? 0)%nat || ((i =? 1)%nat && (s !!! 0%nat =? 0x2d))) (s !!! i).

Lemma html_digits (ds : bytes) n :
  ds ≠ [] → forallb is_ascii_digit ds = true → decimal_value ds = n → 0 < n ≤ 0x7f →
  reads_as html_step (lit "&#" ++ ds ++ lit ";") [n].
Proof.
  intros Hne Hds Hv Hn. assert ([n] = ascii_char n) as ->.
  { unfold ascii_char. by rewrite (proj2 (Z.eqb_neq _ _)) by lia. }
  apply html_reference; [done..|lia].
Qed.

Lemma html_plains p : Forall (λ c, c ≠ 0x26) p → reads_as html_step p p.
Proof.
  intros Hp. rewrite <-(bind_single p). apply reads_as_bind. eapply Forall_impl; [done|]. apply html_plain.
Qed.

Lemma hex_digits_facts c : is_byte c →
  forallb (λ d, 0 <=? hex_value d) (hex_digits c) = true ∧ (length (hex_digits c) ≤ 2)%nat ∧
  hex_number (hex_digits c) = c ∧ Forall (λ d, d ≠ 0x26) (hex_digits c) ∧ forallb attr_byte (hex_digits c) = true.
Proof.
  intros Hc.
  assert (forallb (λ d, 0 <=? hex_value d) (hex_digits c) && (length (hex_digits c) <=? 2)%nat
          && (hex_number (hex_digits c) =? c) && forallb (λ d, negb (d =? 0x26)) (hex_digits c)
          && forallb attr_byte (hex_digits c) = true) as Hall.
  { revert c Hc. apply byte_check. by vm_compute. }
  apply andb_true_iff in Hall as [[[[H1 H2%Nat.leb_le]%andb_true_iff H3%Z.eqb_eq]%andb_true_iff H4]%andb_true_iff H5].
  split_and!; try done. apply forallb_Forall in H4. eapply Forall_impl; [done|].
  intros d Hd%negb_true_iff%Z.eqb_neq. done.
Qed.

Lemma add_css_escape_html c : is_byte c →
  reads_as html_step (add_css_escape c) ([0x5c] ++ hex_digits c ++ [0x20]).
Proof.
  intros Hc. unfold add_css_escape. rewrite (app_assoc (if 16 <=? c then _ else _)).
  fold (hex_digits c). destruct (hex_digits_facts c Hc) as (_ & _ & _ & H4 & _).
  apply reads_as_app; [by apply (html_digits (lit "92") 0x5c)|].
  apply reads_as_app; [by apply html_plains|]. by apply (html_digits (lit "32") 0x20).
Qed.

(** The attribute text of a byte reads as its CSS text. *)
Lemma css_byte_html s i : is_byte (s !!! i) → reads_as html_step (css_byte s i) (css_text s i).
Proof.
  intros Hc. unfold css_byte, css_text, css_out, css_itself. set (c := s !!! i) in *. cbv zeta.
  destruct (Z.eqb_spec c 0); [by apply html_plains, (bool_decide_unpack _)|].
  destruct (Z.eqb_spec c 0x5f) as [->|]; [by apply (html_digits (lit "95") 0x5f)|].
  destruct (Z.eqb_spec c 0x2d) as [->|]; cbn [andb orb].
  - destruct (1 <? _); cbn [orb].
    + by apply (html_digits (lit "45") 0x2d).
    + by apply add_css_escape_html.
  - destruct (_ || _) eqn:E.
    + apply html_plain. intros Heq. rewrite Heq in E. by vm_compute in E.
    + by apply add_css_escape_html.
Qed.

Lemma css_name_reads c : css_name c = true → reads_as css_step [c] [c].
Proof. intros Hc. apply reads_as_step; [done|]. intros rest. simpl. by rewrite Hc. Qed.

Lemma css_escape_reads c : is_byte c → c < 0x80 → reads_as css_step ([0x5c] ++ hex_digits c ++ [0x20]) (ascii_char c).
Proof.
  intros Hc Hlt. destruct (hex_digits_facts c Hc) as (H1 & H2 & H3 & _).
  apply reads_as_step; [done|]. intros rest. rewrite <-!app_assoc. cbn [app css_step].
  change (css_name 0x5c) with false. change (negb (0x5c =? 0x5c)) with false. cbn [app].
  rewrite span_app by done. rewrite H3.
  rewrite bool_decide_eq_false_2 by (unfold hex_digits; by destruct (16 <=? c)).
  rewrite (proj2 (Nat.ltb_ge _ _)) by lia. by rewrite (proj2 (Z.ltb_ge _ _)) by lia.
Qed.

Lemma css_itself_name many leads c : css_itself many leads c = true → css_name c = true.
Proof.
  unfold css_itself, css_name, css_name_start, is_ascii_alphanumeric, is_ascii_alpha, is_ascii_digit.
  destruct (c =? 0x5f), (c =? 0x2d), (0x80 <=? c), ((0x30 <=? c) && (c <=? 0x39)),
    ((0x41 <=? c) && (c <=? 0x5a)), ((0x61 <=? c) && (c <=? 0x7a)); try done; by rewrite ?andb_false_r.
Qed.

Lemma css_out_reads many leads c : is_byte c → reads_as css_step (css_out many leads c) (ascii_char c).
Proof.
  intros Hc. unfold css_out, ascii_char. destruct (Z.eqb_spec c 0) as [->|Hne].
  - unfold REPLACEMENT. do 2 (apply (reads_as_app _ [_] _ [_]); [by apply css_name_reads|]). by apply css_name_reads.
  - destruct (css_itself many leads c) eqn:E.
    + by eapply css_name_reads, css_itself_name.
    + assert (c < 0x80).
      { unfold css_itself in E. apply orb_false_iff in E as [[_ E%Z.leb_gt]%orb_false_iff _]. done. }
      pose proof (css_escape_reads c Hc ltac:(done)) as Hr. unfold ascii_char in Hr.
      by rewrite (proj2 (Z.eqb_neq _ _)) in Hr.
Qed.

(** The attribute text of a byte, by what [css_byte] asks of its place. *)
Definition css_attr (many leads : bool) (c : Z) : bytes :=
  if c =? 0 then [0xef; 0xbf; 0xbd]
  else if c =? 0x5f then lit "&#95;"
  else if (c =? 0x2d) && many then lit "&#45;"
  else if (0x80 <=? c) || (is_ascii_alphanumeric c && negb (is_ascii_digit c && leads)) then [c]
  else add_css_escape c.

Lemma css_byte_attr s i :
  css_byte s i = css_attr (1 <? Z.of_nat (length s)) ((i =? 0)%nat || ((i =? 1)%nat && (s !!! 0%nat =? 0x2d))) (s !!! i).
Proof. done. Qed.

Lemma css_attr_bytes many leads c : is_byte c → forallb attr_byte (css_attr many leads c) = true.
Proof. revert c. apply byte_check. destruct many, leads; by vm_compute. Qed.

Lemma css_loop_bind s turns i b : css_loop s turns i b = b ++ (seq i turns ≫= css_byte s).
Proof.
  revert i b. induction turns as [|turns IH]; intros i b; cbn [css_loop seq]; [by rewrite app_nil_r|].
  rewrite IH. by rewrite bind_cons, app_assoc.
Qed.

(** A loop over the places of a string, by its bytes. *)
Lemma seq_bind (g : nat → bytes) (f : Z → bytes) s :
  (∀ i c, s !! i = Some c → g i = f c) → (seq 0 (length s) ≫= g) = s ≫= f.
Proof.
  intros Hg. rewrite <-(take_ge s (length s)) at 2 by lia.
  assert (length s ≤ length s)%nat as Hn by lia. revert Hn. generalize (length s) at 1 3 4 as n.
  induction n as [|n IH]; intros Hn; [done|].
  destruct (lookup_lt_is_Some_2 s n ltac:(lia)) as [c Hc].
  rewrite seq_S, bind_app, IH, (take_S_r _ _ c), bind_app by (done || lia).
  csimpl. by rewrite !app_nil_r, (Hg _ c).
Qed.

(** A plain string is what the loop would make of it. *)
Lemma css_plain_loop s : css_plain s = true → css_loop s (length s) 0 [] = s.
Proof.
  intros [Hall Hfirst]%andb_true_iff. rewrite css_loop_bind. cbn [app].
  rewrite forallb_Forall, Forall_lookup in Hall.
  assert (∀ i c, s !! i = Some c → css_byte s i = [c]) as Hbyte.
  { intros i c Hi. rewrite css_byte_attr, (list_lookup_total_correct _ _ _ Hi).
    pose proof (Hall i c Hi) as Hc. unfold css_attr.
    destruct (Z.eqb_spec c 0) as [->|]; [done|]. destruct (Z.eqb_spec c 0x5f) as [->|]; [done|].
    destruct (Z.eqb_spec c 0x2d) as [->|]; [done|]. cbn [andb].
    destruct (Z.leb_spec 0x80 c); [done|]. simpl in Hc |- *. rewrite Hc. simpl.
    destruct i as [|[|i]]; simpl.
    - destruct s as [|d s]; [done|]. injection Hi as ->. simpl in Hfirst.
      by rewrite andb_true_r, Hfirst.
    - destruct s as [|d s]; [done|]. simpl. destruct (Z.eqb_spec d 0x2d) as [->|].
      + by pose proof (Hall 0%nat 0x2d eq_refl).
      + by rewrite andb_false_r.
    - by rewrite andb_false_r. }
  by rewrite (seq_bind _ (λ c, [c]) s Hbyte), bind_single.
Qed.

Definition css_result (s : bytes) : bytes := seq 0 (length s) ≫= css_byte s.

Lemma html_escape_css_attr_made `{LuaStrings} u arg s :
  check_text arg = Some s → made u SAFE_ATTR_TYPE (css_result s) (html_escape_css_attr u arg).
Proof.
  intros Hs. unfold html_escape_css_attr. rewrite Hs.
  assert ((if css_plain s then s else css_loop s (length s) 0 []) = css_result s) as ->.
  { rewrite <-(app_nil_l (css_result s)). unfold css_result. rewrite <-css_loop_bind.
    destruct (css_plain s) eqn:E; [by rewrite css_plain_loop|done]. }
  apply wrap_made.
Qed.

(** What an identifier opens with: a byte that starts a name, a hyphen of a
    longer one, or an escape. *)
Definition css_opens (many : bool) (t : bytes) : bool :=
  match t with
  | c :: rest =>
      css_name_start c || ((c =? 0x2d) && many)
      || ((c =? 0x5c) && match rest with d :: _ => negb (d =? 0x0a) | [] => false end)
  | [] => false
  end.

Lemma css_out_opens many c : is_byte c → css_opens many (css_out many true c) = true.
Proof. revert c. apply byte_check. destruct many; by vm_compute. Qed.

Lemma css_opens_starts many t rest :
  css_opens many t = true → head t ≠ Some 0x2d → css_starts (t ++ rest) = true.
Proof.
  destruct t as [|c t]; [done|]. cbn [css_opens app head css_starts]. intros Hc Hne.
  destruct (Z.eqb_spec c 0x2d) as [->|]; [done|]. cbn [andb orb] in Hc. rewrite orb_false_r in Hc.
  apply orb_true_iff in Hc as [->|[->%Z.eqb_eq Hd]%andb_true_iff]; [done|].
  destruct t as [|d t]; [done|]. simpl in *. by rewrite Hd.
Qed.

Lemma css_starts_hyphen t rest :
  css_opens true t = true → css_starts (0x2d :: t ++ rest) = true.
Proof.
  destruct t as [|c t]; [done|]. cbn [css_opens app css_starts]. rewrite andb_true_r. intros Hc.
  change (0x2d =? 0x2d) with true. cbv iota.
  apply orb_true_iff in Hc as [->|[->%Z.eqb_eq Hd]%andb_true_iff]; [done|].
  destruct t as [|d t]; [done|]. simpl in *. by rewrite Hd.
Qed.

(** The CSS text of a string that is not empty starts an identifier. *)
Lemma css_text_starts s : s ≠ [] → all_bytes s → css_starts (seq 0 (length s) ≫= css_text s) = true.
Proof.
  destruct s as [|c s]; [done|]. intros _ [Hc Hs]%Forall_cons. cbn [length seq]. rewrite bind_cons.
  set (many := 1 <? Z.of_nat (length (c :: s))).
  change (css_text (c :: s) 0) with (css_out many true c).
  destruct (decide (c = 0x2d ∧ many = true)) as [[-> Hmany]|Hplain].
  - rewrite Hmany. change (css_out true true 0x2d) with [0x2d].
    destruct s as [|d s]; [done|]. apply Forall_cons in Hs as [Hd _]. cbn [length seq]. rewrite bind_cons.
    change (css_text (0x2d :: d :: s) 1) with (css_out many true d). rewrite Hmany.
    by apply (css_starts_hyphen (css_out true true d)), css_out_opens.
  - apply (css_opens_starts many); [by apply css_out_opens|].
    unfold css_out. destruct (c =? 0); [done|]. destruct (css_itself many true c) eqn:E; [|done].
    simpl. intros [= ->]. apply Hplain. split; [done|]. by destruct many.
Qed.

(** What [escape_css_attr] answers is of letters, digits and references
    alone, or bytes past ASCII; the attribute's value is CSS that reads as
    the string it was given, with U+FFFD for NUL, and starts an identifier
    wherever that string is not empty. *)
Theorem css_attr_reads_back `{LuaStrings} u arg s :
  check_text arg = Some s → all_bytes s →
  ∃ t css, made u SAFE_ATTR_TYPE t (html_escape_css_attr u arg) ∧ forallb attr_byte t = true ∧
    decode html_step t = Some css ∧ decode css_step css = Some (no_nul s) ∧
    (s ≠ [] → css_starts css = true).
Proof.
  intros Harg Hs. exists (css_result s), (seq 0 (length s) ≫= css_text s).
  assert (Forall (λ i, is_byte (s !!! i)) (seq 0 (length s))) as Hi.
  { apply Forall_forall. intros i [_ Hi]%elem_of_seq. destruct (lookup_lt_is_Some_2 s i Hi) as [c Hc].
    rewrite (list_lookup_total_correct _ _ _ Hc). by eapply Forall_lookup_1. }
  split_and!; [by apply html_escape_css_attr_made| | | |].
  - unfold css_result. clear -Hi. induction Hi as [|i l Hi _ IH]; [done|].
    by rewrite bind_cons, forallb_app, css_byte_attr, css_attr_bytes, IH.
  - apply reads_as_decode, reads_as_bind. eapply Forall_impl; [done|]. intros i. apply css_byte_html.
  - assert (no_nul s = seq 0 (length s) ≫= λ i, ascii_char (s !!! i)) as ->.
    { symmetry. apply seq_bind. intros i c Hc. by rewrite (list_lookup_total_correct _ _ _ Hc). }
    apply reads_as_decode, reads_as_bind. eapply Forall_impl; [done|]. intros i. apply css_out_reads.
  - intros Hne. by apply css_text_starts.
Qed.

Import Plain.

Lemma css_attr_reads_back_witness :
  let s := lit "-1.x" in
  ∃ t css, made ∅ SAFE_ATTR_TYPE t (html_escape_css_attr ∅ (LString s)) ∧ forallb attr_byte t = true ∧
    decode html_step t = Some css ∧ decode css_step css = Some (no_nul s) ∧ (s ≠ [] → css_starts css = true).
Proof. apply (@css_attr_reads_back Plain.strings); [done|by repeat constructor]. Defined.
