(* ===== verification/Vfs.v ===== *)
(** * The artifact's database as a file of SQLite: [core/vfs.c]

    The VFS that reads the database from its range of the retained
    descriptor: it opens that range once for each registration, refuses every
    write, and hands everything else to the VFS it wraps. *)

From S2P Require Import Prelude.
From S2P Require Import Texts.
From S2P Require Import Lua.
From S2P Require Import ReadAt.

Local Open Scope Z_scope.

(** ** SQLite *)

(** Its result codes and flags, of [sqlite3.h]. *)
Definition SQLITE_OK : Z := 0.
Definition SQLITE_ERROR : Z := 1.
Definition SQLITE_READONLY : Z := 8.
Definition SQLITE_NOTFOUND : Z := 12.
Definition SQLITE_CANTOPEN : Z := 14.
Definition SQLITE_IOERR_READ : Z := 266.
Definition SQLITE_IOERR_SHORT_READ : Z := 522.
Definition SQLITE_OPEN_READONLY : Z := 0x1.
Definition SQLITE_OPEN_MAIN_DB : Z := 0x100.
Definition SQLITE_LOCK_SHARED : Z := 1.
Definition SQLITE_FCNTL_VFSNAME : Z := 12.
Definition SQLITE_IOCAP_IMMUTABLE : Z := 0x2000.

(** A name SQLite opens: its path, and [sqlite3_uri_parameter] of it. *)
Record filename := Filename { fn_path : bytes; fn_parameter : bytes → option bytes }.

(** The VFS this one wraps, by what it answers: a status and what it puts
    where it is told to. *)
Record sqlite3_vfs := Vfs {
  iVersion : Z;
  has_current_time : bool;
  xOpen : option filename → Z → Z * option Z;
  xDelete : option bytes → Z → Z;
  xAccess : option bytes → Z → Z * Z;
  xFullPathname : option bytes → Z → Z * bytes;
  xRandomness : Z → Z * bytes;
  xSleep : Z → Z;
  xCurrentTimeInt64 : Z * Z;
  xGetLastError : Z → Z * bytes }.

(** SQLite's default VFS, if it has one, and what registering another
    answers. *)
Class Sqlite := {
  default_vfs : option sqlite3_vfs;
  sqlite3_vfs_register : Z }.

(** The file each descriptor holds open. *)
Class Descriptors := descriptor : Z → Kernel.

(** ** A file of the range *)

Record cosmic_file := CosmicFile { f_offset : Z; f_length : Z; f_fd : Z }.

(** [retained_read]: the status, the bytes read and the calls made; what a
    failed read leaves in the buffer is not known. *)
Definition retained_read `{Descriptors} (fd amount at_ : Z) (turn : nat) : Z * option bytes * nat :=
  match @cosmic_read_at (descriptor fd) amount (u64 at_) turn with
  | (Some bs, turn) => (SQLITE_OK, Some bs, turn)
  | (None, turn) => (SQLITE_IOERR_READ, None, turn)
  end.

Definition file_read `{Descriptors} (f : cosmic_file) (amount at_ : Z) (turn : nat) : Z * option bytes * nat :=
  if (at_ <? 0) || (f_length f <? at_) then
    (SQLITE_IOERR_SHORT_READ, Some (replicate (Z.to_nat amount) 0), turn)
  else
    let room := f_length f - at_ in
    if room <? amount then
      let have := room in
      match retained_read (f_fd f) have (f_offset f + at_) turn with
      | (rc, Some bs, turn) =>
          (if rc =? SQLITE_OK then SQLITE_IOERR_SHORT_READ else rc,
           Some (bs ++ replicate (Z.to_nat (amount - have)) 0), turn)
      | (rc, None, turn) => (if rc =? SQLITE_OK then SQLITE_IOERR_SHORT_READ else rc, None, turn)
      end
    else retained_read (f_fd f) amount (f_offset f + at_) turn.

Definition file_close (f : cosmic_file) : Z := SQLITE_OK.
Definition file_write (f : cosmic_file) (buf : bytes) (at_ : Z) : Z := SQLITE_READONLY.
Definition file_truncate (f : cosmic_file) (size : Z) : Z := SQLITE_READONLY.
Definition file_sync (f : cosmic_file) (flags : Z) : Z := SQLITE_OK.
Definition file_size (f : cosmic_file) : Z * Z := (SQLITE_OK, f_length f).
Definition file_lock (f : cosmic_file) (level : Z) : Z :=
  if SQLITE_LOCK_SHARED <? level then SQLITE_READONLY else SQLITE_OK.
Definition file_unlock (f : cosmic_file) (level : Z) : Z := SQLITE_OK.
Definition file_check_reserved (f : cosmic_file) : Z * Z := (SQLITE_OK, 0).
Definition file_control (f : cosmic_file) (op : Z) : Z * option bytes :=
  if op =? SQLITE_FCNTL_VFSNAME then (SQLITE_OK, Some (lit "cosmic(" ++ decimal (f_offset f) ++ lit ")"))
  else (SQLITE_NOTFOUND, None).
Definition file_sector_size (f : cosmic_file) : Z := 4096.
Definition file_characteristics (f : cosmic_file) : Z := SQLITE_IOCAP_IMMUTABLE.

(** ** The door *)

(** The four registered, and the VFS registered with SQLite over [base]. *)
Record vfs_state := VfsState {
  registered_path : bytes;
  registered_offset : Z;
  registered_length : Z;
  registered_fd : Z;
  in_registry : option sqlite3_vfs }.

(** A process that starts. *)
Definition vfs_start : vfs_state := VfsState [] 0 0 (-1) None.

(** A file that was opened: of the range, or of the VFS wrapped. *)
Inductive opened := Ranged (f : cosmic_file) | Lower | Unopened.

(** [vfs_open] of the VFS over [base]: the status, the file, and the flags it
    puts out. *)
Definition vfs_open (base : sqlite3_vfs) (st : vfs_state) (name : option filename) (flags : Z) :
    vfs_state * (Z * opened * option Z) :=
  let parameter key := match name with Some n => bool_decide (fn_parameter n key ≠ None) | None => false end in
  if parameter (lit "off") || parameter (lit "len") then (st, (SQLITE_CANTOPEN, Unopened, None))
  else if Z.land flags SQLITE_OPEN_MAIN_DB =? 0 then
    let '(rc, out_flags) := xOpen base name flags in (st, (rc, Lower, out_flags))
  else
    match name with
    | None => (st, (SQLITE_CANTOPEN, Unopened, None))
    | Some n =>
        if bool_decide (registered_path st = []) || negb (bool_decide (c_string (fn_path n) = registered_path st))
        then (st, (SQLITE_CANTOPEN, Unopened, None))
        else
          let f := CosmicFile (registered_offset st) (registered_length st) (registered_fd st) in
          if (f_fd f <? 0) || (f_offset f <=? 0) || (f_length f <=? 0)
          then (st, (SQLITE_CANTOPEN, Unopened, None))
          else (VfsState [] 0 0 (-1) (in_registry st), (SQLITE_OK, Ranged f, Some SQLITE_OPEN_READONLY))
    end.

Definition vfs_full_pathname (base : sqlite3_vfs) (st : vfs_state) (name : option bytes) (room : Z) : Z * bytes :=
  match name with
  | Some n =>
      if negb (bool_decide (registered_path st = [])) && bool_decide (c_string n = registered_path st) then
        let length_ := Z.of_nat (length (c_string n)) in
        if room <? length_ + 1 then (SQLITE_CANTOPEN, []) else (SQLITE_OK, c_string n)
      else xFullPathname base name room
  | None => xFullPathname base name room
  end.

Definition vfs_delete (base : sqlite3_vfs) (name : option bytes) (sync : Z) : Z := xDelete base name sync.
Definition vfs_access (base : sqlite3_vfs) (name : option bytes) (flags : Z) : Z * Z := xAccess base name flags.
Definition vfs_randomness (base : sqlite3_vfs) (amount : Z) : Z * bytes := xRandomness base amount.
Definition vfs_sleep (base : sqlite3_vfs) (micros : Z) : Z := xSleep base micros.
Definition vfs_current_time (base : sqlite3_vfs) : Z * Z := xCurrentTimeInt64 base.
Definition vfs_last_error (base : sqlite3_vfs) (room : Z) : Z * bytes := xGetLastError base room.

(** [sizeof registered_path]. *)
Definition PATH_ROOM : Z := 4096.

Definition cosmic_vfs_register `{Sqlite} (st : vfs_state) (path : bytes) (fd offset length_ : Z) : vfs_state * Z :=
  let path := c_string path in
  if PATH_ROOM <=? Z.of_nat (length path) then (st, SQLITE_ERROR)
  else
    let st := VfsState path offset length_ fd (in_registry st) in
    match in_registry st with
    | Some _ => (st, SQLITE_OK)
    | None =>
        match default_vfs with
        | Some base =>
            if (iVersion base <? 2) || negb (has_current_time base) then (st, SQLITE_ERROR)
            else
              (VfsState path offset length_ fd (if sqlite3_vfs_register =? SQLITE_OK then Some base else None),
               sqlite3_vfs_register)
        | None => (st, SQLITE_ERROR)
        end
    end.

(** ** URIs *)

Definition plain_byte (c : Z) : bool :=
  ((0x61 <=? c) && (c <=? 0x7a)) || ((0x41 <=? c) && (c <=? 0x5a)) || ((0x30 <=? c) && (c <=? 0x39))
  || (c =? 0x2f) || (c =? 0x2d) || (c =? 0x5f) || (c =? 0x2e) || (c =? 0x7e).

(** [hex[d]] of the upper-case digits. *)
Definition uri_hex (d : Z) : Z := if d <? 10 then 0x30 + d else 0x37 + d.

(** The loop over the bytes of a C string, [into] being what is written. *)
Fixpoint append_escaped (room : Z) (into s : bytes) : option bytes :=
  match s with
  | [] => Some into
  | c :: s =>
      let at_ := Z.of_nat (length into) in
      if plain_byte c then
        if room <=? at_ + 1 then None else append_escaped room (into ++ [c]) s
      else if room <=? at_ + 3 then None
      else append_escaped room (into ++ [0x25; uri_hex (Z.shiftr c 4); uri_hex (Z.land c 15)]) s
  end.

Definition vfs_tail : bytes := lit "?vfs=cosmic&mode=ro&immutable=1".
Definition database_tail : bytes := lit "?mode=ro&immutable=1".
Definition scheme : bytes := lit "file:".

Definition cosmic_vfs_uri (room : Z) (path : bytes) : option bytes :=
  if room <=? Z.of_nat (length scheme) + 1 then None
  else
    match append_escaped room scheme (c_string path) with
    | None => None
    | Some into =>
        let written := Z.of_nat (length vfs_tail) in
        if room <? Z.of_nat (length into) + written + 1 then None else Some (into ++ vfs_tail)
    end.

Definition cosmic_database_uri (room : Z) (path : bytes) : option bytes :=
  if room <=? Z.of_nat (length scheme) + 1 then None
  else
    match append_escaped room scheme (c_string path) with
    | None => None
    | Some into =>
        if room <? Z.of_nat (length into) + (Z.of_nat (length database_tail) + 1) then None
        else Some (into ++ database_tail)
    end.
