(* ===== verification/VfsCorrect.v ===== *)
(** * What the artifact's VFS promises

    A registration opens one file, of its range alone, and is over; a read of
    the file answers its range's bytes and zeros past them; the URIs are read
    back as the path they were made of. *)

From S2P Require Import Prelude.
From S2P Require Import Texts.
From S2P Require Import Lua.
From S2P Require Import ReadAt.
From S2P Require Import Vfs.

Local Open Scope Z_scope.

(** ** The door *)

Section door.
Context `{Sqlite}.

(** What the process did, the latest first: a registration, and an open with
    the status and the file it answered. *)
Inductive event :=
  | Registers (path : bytes) (fd offset length_ : Z)
  | Opens (name : option filename) (flags : Z) (rc : Z) (file : opened).

Inductive history : list event → vfs_state → Prop :=
  | history_start : history [] vfs_start
  | history_register h st path fd offset length_ st' rc :
      history h st → cosmic_vfs_register st path fd offset length_ = (st', rc) →
      history (Registers path fd offset length_ :: h) st'
  | history_open h st base name flags st' rc file out_flags :
      history h st → in_registry st = Some base →
      vfs_open base st name flags = (st', (rc, file, out_flags)) →
      history (Opens name flags rc file :: h) st'.

(** The registration a history leaves to be opened: the last one of a path
    that fits, if no file of it was opened since. *)
Fixpoint door (h : list event) : option (bytes * cosmic_file) :=
  match h with
  | [] => None
  | Registers path fd offset length_ :: h =>
      if PATH_ROOM <=? Z.of_nat (length (c_string path)) then door h
      else Some (c_string path, CosmicFile offset length_ fd)
  | Opens _ _ _ (Ranged _) :: _ => None
  | Opens _ _ _ _ :: h => door h
  end.

(** The state holds the door's registration. *)
Definition holds_door (st : vfs_state) (d : option (bytes * cosmic_file)) : Prop :=
  match d with
  | Some (path, f) =>
      registered_path st = path ∧
      CosmicFile (registered_offset st) (registered_length st) (registered_fd st) = f
  | None => registered_path st = []
  end.

Lemma register_door st d path fd offset length_ st' rc :
  holds_door st d → cosmic_vfs_register st path fd offset length_ = (st', rc) →
  holds_door st' (if PATH_ROOM <=? Z.of_nat (length (c_string path)) then d
                  else Some (c_string path, CosmicFile offset length_ fd)).
Proof.
  intros Hd. unfold cosmic_vfs_register. destruct (_ <=? _); [by intros [= <- <-]|].
  repeat case_match; intros [= <- <-]; done.
Qed.

(** What an open answers in terms of the door alone. *)
Definition opens_range (d : option (bytes * cosmic_file)) (name : option filename) (flags : Z) (f : cosmic_file) : Prop :=
  ∃ n path, name = Some n ∧ d = Some (path, f) ∧ c_string (fn_path n) = path ∧ path ≠ [] ∧
    fn_parameter n (lit "off") = None ∧ fn_parameter n (lit "len") = None ∧
    Z.land flags SQLITE_OPEN_MAIN_DB ≠ 0 ∧ 0 ≤ f_fd f ∧ 0 < f_offset f ∧ 0 < f_length f.

Lemma open_door base st d name flags st' rc file out_flags :
  holds_door st d → vfs_open base st name flags = (st', (rc, file, out_flags)) →
  match file with
  | Ranged f => opens_range d name flags f ∧ rc = SQLITE_OK ∧ out_flags = Some SQLITE_OPEN_READONLY ∧ holds_door st' None
  | Lower => Z.land flags SQLITE_OPEN_MAIN_DB = 0 ∧ (∀ f, ¬ opens_range d name flags f) ∧ st' = st
  | Unopened => (∀ f, ¬ opens_range d name flags f) ∧ rc = SQLITE_CANTOPEN ∧ st' = st
  end.
Proof.
  intros Hd. unfold vfs_open. destruct (_ || _) eqn:Eparam.
  { intros [= <- <- <- <-]. split; [|done]. intros f (n & path & -> & _ & _ & _ & Hoff & Hlen & _).
    by rewrite Hoff, Hlen in Eparam. }
  destruct (Z.eqb_spec (Z.land flags SQLITE_OPEN_MAIN_DB) 0) as [Hmain|Hmain].
  { destruct (xOpen base name flags). intros [= <- <- <- <-]. split_and!; [done| |done].
    intros f (n & path & Hr). by destruct_and! Hr. }
  destruct name as [n|].
  2: { intros [= <- <- <- <-]. split; [|done]. by intros f (n & path & ? & _). }
  apply orb_false_iff in Eparam as [Hoff%bool_decide_eq_false Hlen%bool_decide_eq_false].
  apply dec_stable in Hoff, Hlen.
  destruct (_ || _) eqn:Epath.
  { intros [= <- <- <- <-]. split; [|done]. intros f (n' & path & [= <-] & -> & Hp & Hne & _).
    destruct Hd as [Hreg _]. rewrite Hreg, bool_decide_eq_false_2, bool_decide_eq_true_2 in Epath by done. done. }
  apply orb_false_iff in Epath as [Hne%bool_decide_eq_false Heq%negb_false_iff%bool_decide_eq_true].
  destruct d as [[path f]|]; [|done]. destruct Hd as [Hreg Hf]. rewrite Hf.
  destruct (_ || _) eqn:Erange.
  - intros [= <- <- <- <-]. split; [|done].
    intros f' (n' & path' & [= <-] & [= <- <-] & _ & _ & _ & _ & _ & Hfd & Ho & Hl).
    rewrite (proj2 (Z.ltb_ge _ _) Hfd), (proj2 (Z.leb_gt _ _) Ho), (proj2 (Z.leb_gt _ _) Hl) in Erange. done.
  - apply orb_false_iff in Erange as [[Hfd%Z.ltb_ge Ho%Z.leb_gt]%orb_false_iff Hl%Z.leb_gt].
    intros [= <- <- <- <-]. split_and!; try done. exists n, path. subst path. by split_and!.
Qed.

Lemma history_door h st : history h st → holds_door st (door h).
Proof.
  induction 1 as [|h st path fd offset length_ st' rc Hh IH Hreg|h st base name flags st' rc file out_flags Hh IH Hbase Hopen];
    [done|by eapply register_door|].
  pose proof (open_door _ _ _ _ _ _ _ _ _ IH Hopen) as Ho. simpl.
  destruct file; [by destruct Ho as (_ & _ & _ & ?)|by destruct Ho as (_ & _ & ->)..].
Qed.

(** C11: whatever was registered and opened before, an open answers a file of a
    range exactly when it asks for the main database under the path of the
    registration the door still holds, with no range in its URI; the file is
    then that registration's, the door holds none from there on, and
    every other open of a main database fails. *)
Theorem door_opens_once h st base name flags st' rc file out_flags :
  history h st → in_registry st = Some base →
  vfs_open base st name flags = (st', (rc, file, out_flags)) →
  (∀ f, file = Ranged f ↔ opens_range (door h) name flags f) ∧
  (∀ f, file = Ranged f → rc = SQLITE_OK ∧ out_flags = Some SQLITE_OPEN_READONLY ∧
     ∀ base' name' flags' st'' rc' file' o,
       vfs_open base' st' name' flags' = (st'', (rc', file', o)) → ∀ f', file' ≠ Ranged f') ∧
  (Z.land flags SQLITE_OPEN_MAIN_DB ≠ 0 → (∀ f, file ≠ Ranged f) → rc = SQLITE_CANTOPEN ∧ st' = st).
Proof.
  intros Hh Hbase Hopen. pose proof (open_door _ _ _ _ _ _ _ _ _ (history_door _ _ Hh) Hopen) as Ho. split_and!.
  - intros f. split; [by intros ->; destruct Ho|]. intros Hr. destruct file as [f'| |].
    + destruct Ho as [(n' & p' & -> & Hd & _) _], Hr as (n & p & _ & Hd' & _). by simplify_eq.
    + by destruct Ho as (_ & []%(λ Hno, Hno f Hr) & _).
    + by destruct Ho as ([]%(λ Hno, Hno f Hr) & _).
  - intros f ->. destruct Ho as (_ & -> & -> & Hclosed). split_and!; [done..|].
    intros base' name' flags' st'' rc' file' o Hnext f' ->.
    pose proof (open_door _ _ None _ _ _ _ _ _ Hclosed Hnext) as [(n & p & _ & [=] & _) _].
  - intros Hmain Hno. destruct file as [f| |]; [by edestruct Hno|by destruct Ho|by destruct Ho].
Qed.

End door.

(** ** Reading the range *)

Section reading.
Context `{Descriptors}.
Context (f : cosmic_file) (content : bytes).
Context `{!@KernelLaws (descriptor (f_fd f)) content}.

(** The range lies inside the file, as the decoder of the artifact found. *)
Definition inside : Prop :=
  0 ≤ f_offset f ∧ 0 ≤ f_length f ∧ f_offset f + f_length f ≤ Z.of_nat (length content).

(** The database: the bytes of the range. *)
Definition database : bytes := slice content (f_offset f) (f_length f).

(** What a read of it is to answer: the bytes there are, and zeros. *)
Definition padded (amount at_ : Z) : bytes :=
  let have := if at_ <? 0 then [] else slice database at_ amount in
  have ++ replicate (Z.to_nat amount - length have) 0.

Lemma database_length : inside → Z.of_nat (length database) = f_length f.
Proof. intros (Ho & Hl & Hend). unfold database. rewrite slice_length by done. lia. Qed.

Lemma retained_read_answers amount at_ turn :
  0 ≤ at_ → 0 ≤ amount → at_ + amount ≤ Z.of_nat (length content) →
  match retained_read (f_fd f) amount at_ turn with
  | (rc, Some bs, _) => rc = SQLITE_OK ∧ bs = slice content at_ amount
  | (rc, None, _) => rc = SQLITE_IOERR_READ ∧ ¬ @Readable (descriptor (f_fd f)) content
  end.
Proof.
  intros Ha Hn Hend. pose proof (@content_size (descriptor (f_fd f)) content _) as Hsize. unfold retained_read.
  replace (u64 at_) with at_ by (unfold u64; rewrite Z.mod_small; unfold INT64_MAX in *; lia).
  destruct (cosmic_read_at amount at_ turn) as [[bs|] t] eqn:E.
  - split; [done|]. eapply (@read_at_sound (descriptor (f_fd f)) content _); [..|exact E]; done.
  - split; [done|]. intros Hr. destruct (@read_at_readable (descriptor (f_fd f)) content _ Hr turn amount at_ Ha Hn Hend) as [t' Ht]. congruence.
Qed.

Lemma padded_whole amount at_ :
  inside → 0 ≤ at_ → 0 ≤ amount → at_ + amount ≤ f_length f →
  padded amount at_ = slice content (f_offset f + at_) amount.
Proof.
  intros Hin Ha Hn Hend. pose proof (database_length Hin) as Hd. destruct Hin as (Ho & Hl & Hfile).
  unfold padded. rewrite (proj2 (Z.ltb_ge at_ 0)) by done. rewrite slice_length by lia.
  rewrite Nat.sub_diag, app_nil_r. unfold database. by rewrite slice_slice.
Qed.

Lemma padded_short amount at_ :
  inside → 0 ≤ at_ ≤ f_length f → f_length f < at_ + amount →
  padded amount at_ = slice content (f_offset f + at_) (f_length f - at_) ++
    replicate (Z.to_nat (amount - (f_length f - at_))) 0.
Proof.
  intros Hin Ha Hend. pose proof (database_length Hin) as Hd. destruct Hin as (Ho & Hl & Hfile).
  unfold padded. rewrite (proj2 (Z.ltb_ge at_ 0)) by lia.
  replace (slice database at_ amount) with (slice database at_ (f_length f - at_)).
  2: { unfold slice. rewrite !take_ge; [done|rewrite length_drop; lia..]. }
  rewrite slice_length by lia. unfold database. rewrite slice_slice by lia. f_equal. f_equal. lia.
Qed.

(** C12: a read of the file answers exactly its range's bytes from the place
    asked on, zeros past the range's end and a short read there, whatever
    [pread] answers to each call; it never answers another byte of the
    artifact, and fails only where the artifact cannot be read. *)
Theorem file_read_confined amount at_ turn :
  inside → 0 ≤ amount →
  match file_read f amount at_ turn with
  | (rc, Some bs, _) =>
      bs = padded amount at_ ∧
      rc = (if (0 <=? at_) && (at_ + amount <=? f_length f) then SQLITE_OK else SQLITE_IOERR_SHORT_READ)
  | (rc, None, _) => rc = SQLITE_IOERR_READ ∧ ¬ @Readable (descriptor (f_fd f)) content
  end.
Proof.
  intros Hin Hn. pose proof (database_length Hin) as Hd. pose proof Hin as (Ho & Hl & Hfile). unfold file_read.
  destruct (Z.ltb_spec at_ 0) as [Hneg|Hpos]; cbn [orb].
  { rewrite (proj2 (Z.leb_gt 0 at_)) by done. split; [|done].
    unfold padded. rewrite (proj2 (Z.ltb_lt at_ 0)) by done. simpl. f_equal. lia. }
  rewrite (proj2 (Z.leb_le 0 at_)) by done. cbn [andb].
  destruct (Z.ltb_spec (f_length f) at_) as [Hpast|Hwithin].
  { rewrite (proj2 (Z.leb_gt _ _)) by lia. split; [|done]. unfold padded. rewrite (proj2 (Z.ltb_ge at_ 0)) by done.
    unfold slice. rewrite drop_ge, take_nil by lia. simpl. f_equal. lia. }
  destruct (Z.ltb_spec (f_length f - at_) amount) as [Hshort|Hwhole].
  - pose proof (retained_read_answers (f_length f - at_) (f_offset f + at_) turn ltac:(lia) ltac:(lia) ltac:(lia)) as Hr.
    destruct (retained_read _ _ _ _) as [[rc [bs|]] t]; destruct Hr as [-> Hr]; [|done].
    rewrite Hr, padded_short by (done || lia). rewrite (proj2 (Z.leb_gt _ _)) by lia. done.
  - pose proof (retained_read_answers amount (f_offset f + at_) turn ltac:(lia) ltac:(lia) ltac:(lia)) as Hr.
    destruct (retained_read _ _ _ _) as [[rc [bs|]] t]; destruct Hr as [-> Hr]; [|done].
    rewrite Hr, padded_whole by (done || lia). rewrite (proj2 (Z.leb_le _ _)) by lia. done.
Qed.

End reading.

(** ** The URIs *)

(** A [file:] URI as SQLite reads one: an authority, empty or [localhost], is
    left out; the path is up to [?] or [#]; the query is of pairs. *)
Definition read_uri (u : bytes) : option (bytes * list (bytes * bytes)) :=
  s ← strip_prefix (lit "file:") u;
  s ← match strip_prefix (lit "//") s with
      | None => Some s
      | Some s =>
          let '(authority, s) := span (λ c, negb (c =? 0x2f)) s in
          if bool_decide (authority = []) || bool_decide (authority = lit "localhost") then Some s else None
      end;
  let '(path, s) := span (λ c, negb (c =? 0x3f) && negb (c =? 0x23)) s in
  path ← decode percent_step path;
  query ← match s with
          | c :: s => if c =? 0x3f then parse_query (span (λ c, negb (c =? 0x23)) s).1 else Some []
          | [] => Some []
          end;
  Some (path, query).

(** What a byte of a path is written as. *)
Definition uri_piece (c : Z) : bytes :=
  if plain_byte c then [c] else [0x25; uri_hex (Z.shiftr c 4); uri_hex (Z.land c 15)].

Lemma append_escaped_fits room into s :
  Z.of_nat (length into) < room →
  append_escaped room into s
  = if Z.of_nat (length (into ++ (s ≫= uri_piece))) <? room then Some (into ++ (s ≫= uri_piece)) else None.
Proof.
  revert into. induction s as [|c s IH]; intros into Hin.
  - csimpl. rewrite app_nil_r. by rewrite (proj2 (Z.ltb_lt _ _)).
  - rewrite bind_cons. cbn [append_escaped]. unfold uri_piece at 1 2 3. destruct (plain_byte c).
    + destruct (Z.leb_spec room (Z.of_nat (length into) + 1)).
      * rewrite (proj2 (Z.ltb_ge _ _)); [done|]. rewrite !length_app. simpl. lia.
      * rewrite IH by (rewrite length_app; simpl; lia). by rewrite <-!app_assoc.
    + destruct (Z.leb_spec room (Z.of_nat (length into) + 3)).
      * rewrite (proj2 (Z.ltb_ge _ _)); [done|]. rewrite !length_app. simpl. lia.
      * rewrite IH by (rewrite length_app; simpl; lia). by rewrite <-!app_assoc.
Qed.

(** The bytes of a path's text in a URI. *)
Definition uri_byte (c : Z) : bool := plain_byte c || (c =? 0x25).

Lemma uri_piece_reads c : is_byte c → reads_as percent_step (uri_piece c) [c].
Proof.
  intros Hc.
  assert (match uri_piece c with
          | [x] => negb (x =? 0x25) && (x =? c)
          | [p; a; b] => (p =? 0x25) && (0 <=? hex_value a) && (0 <=? hex_value b)
                         && (hex_value a * 16 + hex_value b =? c)
          | _ => false end = true) as Hp.
  { revert c Hc. apply byte_check. by vm_compute. }
  by apply percent_piece_step.
Qed.

Lemma uri_text_bytes s : all_bytes s → forallb uri_byte (s ≫= uri_piece) = true.
Proof.
  induction 1 as [|c s Hc Hs IH]; [done|]. rewrite bind_cons, forallb_app, IH, andb_true_r.
  revert c Hc. apply byte_check. by vm_compute.
Qed.

Lemma c_string_bytes s : all_bytes s → all_bytes (c_string s).
Proof. induction 1; simpl; [done|]. case_match; by constructor. Qed.

(** The path's text and what follows it. *)
Lemma read_uri_text s tail query :
  all_bytes s → strip_prefix (lit "//") s = None → forallb (λ c, negb (c =? 0x23)) tail = true →
  parse_query tail = Some query →
  read_uri (lit "file:" ++ (s ≫= uri_piece) ++ 0x3f :: tail) = Some (s, query).
Proof.
  intros Hs Hslash Htail Hq.
  assert (strip_prefix (lit "//") ((s ≫= uri_piece) ++ 0x3f :: tail) = None) as Hnone.
  { change (lit "//") with [47; 47] in *. destruct s as [|a s]; [done|].
    rewrite bind_cons. unfold uri_piece at 1. destruct (Z.eqb_spec 47 a) as [<-|Ha].
    2: { destruct (plain_byte a); cbn [app strip_prefix]; [by rewrite (proj2 (Z.eqb_neq _ _) Ha)|done]. }
    destruct s as [|b s]; [done|]. rewrite bind_cons. unfold uri_piece at 1.
    cbn [strip_prefix] in Hslash. destruct (Z.eqb_spec 47 b) as [|Hb]; [done|].
    destruct (plain_byte b); [|done]. change (plain_byte 47) with true.
    cbn [app strip_prefix]. by rewrite (proj2 (Z.eqb_neq _ _) Hb). }
  unfold read_uri. set (rest := (_ ≫= _) ++ _) in *.
  assert (strip_prefix (lit "file:") (lit "file:" ++ rest) = Some rest) as -> by done.
  cbn [mbind option_bind]. rewrite Hnone. cbn [mbind option_bind]. unfold rest.
  rewrite span_app; [|eapply forallb_forall; intros c Hc|done].
  2: { pose proof (uri_text_bytes s Hs) as Hall. rewrite forallb_forall in Hall. specialize (Hall c Hc).
       destruct (Z.eqb_spec c 0x3f) as [->|]; [by vm_compute in Hall|].
       by destruct (Z.eqb_spec c 0x23) as [->|]; [vm_compute in Hall|]. }
  rewrite (reads_as_decode _ _ s).
  2: { rewrite <-(bind_single s) at 2. apply reads_as_bind. eapply Forall_impl; [done|apply uri_piece_reads]. }
  cbn [mbind option_bind]. rewrite <-(app_nil_r tail), span_app by done. simpl. by rewrite Hq.
Qed.

(** Each URI is one text, written wherever it fits with its terminating
    zero and nowhere else; SQLite reads it as the path it was made of and
    the parameters of its kind, unless the path opens with two slashes. *)
Theorem uris_read_back path :
  all_bytes path →
  ∃ u v,
    (∀ room, cosmic_vfs_uri room path = if Z.of_nat (length u) <? room then Some u else None) ∧
    (∀ room, cosmic_database_uri room path = if Z.of_nat (length v) <? room then Some v else None) ∧
    (strip_prefix (lit "//") (c_string path) = None →
     read_uri u = Some (c_string path, [(lit "vfs", lit "cosmic"); (lit "mode", lit "ro"); (lit "immutable", lit "1")]) ∧
     read_uri v = Some (c_string path, [(lit "mode", lit "ro"); (lit "immutable", lit "1")])).
Proof.
  intros Hb%c_string_bytes. set (s := c_string path) in *. set (text := scheme ++ (s ≫= uri_piece)).
  exists (text ++ vfs_tail), (text ++ database_tail). split_and!.
  1,2: intros room; unfold cosmic_vfs_uri, cosmic_database_uri; rewrite length_app; fold s;
    destruct (Z.leb_spec room (Z.of_nat (length scheme) + 1)) as [Hr|Hr];
    [rewrite (proj2 (Z.ltb_ge _ _)); [done|unfold text; rewrite length_app;
      change (Z.of_nat (length scheme)) with 5 in *; simpl; lia]|];
    rewrite append_escaped_fits by lia; fold text; destruct (Z.ltb_spec (Z.of_nat (length text)) room).
  1,3: zcases; first [done|lia].
  1,2: rewrite (proj2 (Z.ltb_ge _ _)); [done|lia].
  intros Hslash. unfold text, vfs_tail, database_tail. rewrite <-!app_assoc.
  split; (apply read_uri_text; [done..|by vm_compute|by vm_compute]).
Qed.

(** A path that opens with two slashes is not read as the path it is: its
    first segment is taken for the URI's authority, though it is written
    out where it fits. *)
Theorem uri_takes_authority :
  (u ← cosmic_database_uri 8192 (lit "//localhost/tmp/cosmic.db"); read_uri u)
  = Some (lit "/tmp/cosmic.db", [(lit "mode", lit "ro"); (lit "immutable", lit "1")]) ∧
  is_Some (cosmic_vfs_uri 8192 (lit "//usr/bin/cosmic")) ∧
  (u ← cosmic_vfs_uri 8192 (lit "//usr/bin/cosmic"); read_uri u) = None.
Proof. split_and!; [by vm_compute| |by vm_compute]. by apply (bool_decide_unpack _). Qed.

(** ** A process with SQLite's VFS *)

Module Stock.

Definition base : sqlite3_vfs := {|
  iVersion := 3;
  has_current_time := true;
  xOpen _ flags := (SQLITE_OK, Some flags);
  xDelete _ _ := SQLITE_OK;
  xAccess _ _ := (SQLITE_OK, 0);
  xFullPathname name _ := match name with Some n => (SQLITE_OK, n) | None => (SQLITE_CANTOPEN, []) end;
  xRandomness n := (n, replicate (Z.to_nat n) 7);
  xSleep n := n;
  xCurrentTimeInt64 := (SQLITE_OK, 0);
  xGetLastError _ := (0, []) |}.

#[export] Instance sqlite : Sqlite := { default_vfs := Some base; sqlite3_vfs_register := SQLITE_OK }.

Definition program : filename := Filename (lit "/opt/cosmic") (λ _, None).

Definition content : bytes := replicate 50 1 ++ replicate 40 2 ++ replicate 10 3.

#[export] Instance descriptors : Descriptors := λ _, Disk.kernel content.

End Stock.

Import Stock.

Lemma door_opens_once_witness :
  let f := CosmicFile 50 40 3 in
  let h := [Registers (fn_path Stock.program) 3 50 40] in
  let st := VfsState (fn_path Stock.program) 50 40 3 (Some Stock.base) in
  history h st ∧ opens_range (door h) (Some Stock.program) SQLITE_OPEN_MAIN_DB f ∧
  (vfs_open Stock.base st (Some Stock.program) SQLITE_OPEN_MAIN_DB).2.1 = (SQLITE_OK, Ranged f).
Proof.
  assert (history [Registers (fn_path Stock.program) 3 50 40]
            (VfsState (fn_path Stock.program) 50 40 3 (Some Stock.base))) as Hh.
  { by eapply (history_register [] vfs_start); [apply history_start|]. }
  split; [exact Hh|].
  destruct (door_opens_once _ _ Stock.base (Some Stock.program) SQLITE_OPEN_MAIN_DB _ _ _ _ Hh eq_refl eq_refl)
    as (Hiff & _ & _).
  split; [|by vm_compute]. by apply Hiff.
Defined.

Lemma file_read_confined_witness :
  let f := CosmicFile 50 40 3 in
  file_read f 8 36 0 = (SQLITE_IOERR_SHORT_READ, Some [2; 2; 2; 2; 0; 0; 0; 0], 2%nat) ∧
  padded f Stock.content 8 36 = [2; 2; 2; 2; 0; 0; 0; 0].
Proof.
  assert (@KernelLaws (Disk.kernel Stock.content) Stock.content) as Hlaws.
  { apply Disk.kernel_laws; [|by vm_compute]. by apply (bool_decide_unpack _). }
  split; [by vm_compute|].
  pose proof (file_read_confined (CosmicFile 50 40 3) Stock.content 8 36 0) as Hr.
  assert (inside (CosmicFile 50 40 3) Stock.content) as Hin by (by vm_compute).
  specialize (Hr Hin ltac:(done)). by destruct Hr as [<- _].
Defined.

Lemma uris_read_back_witness :
  read_uri (lit "file:/opt/a%20b%3F?mode=ro&immutable=1")
  = Some (lit "/opt/a b?", [(lit "mode", lit "ro"); (lit "immutable", lit "1")]).
Proof.
  destruct (uris_read_back (lit "/opt/a b?")) as (u & v & _ & Hv & Hread); [by apply (bool_decide_unpack _)|].
  destruct (Hread eq_refl) as [_ Hr].
  assert (Some v = Some (lit "file:/opt/a%20b%3F?mode=ro&immutable=1")) as [= ->]; [|exact Hr].
  specialize (Hv 8192). destruct (Z.of_nat (length v) <? 8192); [|by vm_compute in Hv].
  transitivity (cosmic_database_uri 8192 (lit "/opt/a b?")); [done|by vm_compute].
Defined.
