(* ===== verification/Crypto.v ===== *)
(** * Digests and keyed digests: [core/crypto.c]

    The table of algorithms, digests of bytes and of a range of a file, HMAC
    under a key of any length, and bytes of entropy.  The cryptography
    library is a parameter: what its calls answer, and what they promise. *)

From S2P Require Import Prelude.
From S2P Require Import Texts.
From S2P Require Import Lua.
From S2P Require Import ReadAt.

Local Open Scope Z_scope.

(** ** The library *)

(** Its statuses and algorithms, of [psa/crypto_values.h]. *)
Definition PSA_SUCCESS : Z := 0.
Definition PSA_ERROR_INVALID_ARGUMENT : Z := -135.
Definition PSA_ERROR_INSUFFICIENT_ENTROPY : Z := -148.
Definition PSA_ERROR_DATA_CORRUPT : Z := -152.
Definition PSA_ALG_NONE : Z := 0.
Definition PSA_ALG_MD5 : Z := 0x02000003.
Definition PSA_ALG_SHA_1 : Z := 0x02000005.
Definition PSA_ALG_SHA_224 : Z := 0x02000008.
Definition PSA_ALG_SHA_256 : Z := 0x02000009.
Definition PSA_ALG_SHA_384 : Z := 0x0200000a.
Definition PSA_ALG_SHA_512 : Z := 0x0200000b.
Definition PSA_ALG_SHA3_224 : Z := 0x02000010.
Definition PSA_ALG_SHA3_256 : Z := 0x02000011.
Definition PSA_ALG_SHA3_384 : Z := 0x02000012.
Definition PSA_ALG_SHA3_512 : Z := 0x02000013.
Definition PSA_ALG_HMAC (alg : Z) : Z := Z.lor 0x03800000 (Z.land alg 0xff).

(** [PSA_HASH_BLOCK_LENGTH], of [psa/crypto_sizes.h]. *)
Definition PSA_HASH_BLOCK_LENGTH (alg : Z) : Z :=
  if (alg =? PSA_ALG_SHA_384) || (alg =? PSA_ALG_SHA_512) then 128
  else if alg =? PSA_ALG_SHA3_224 then 144
  else if alg =? PSA_ALG_SHA3_256 then 136
  else if alg =? PSA_ALG_SHA3_384 then 104
  else if alg =? PSA_ALG_SHA3_512 then 72
  else if (alg =? PSA_ALG_MD5) || (alg =? PSA_ALG_SHA_1) || (alg =? PSA_ALG_SHA_224) || (alg =? PSA_ALG_SHA_256) then 64
  else 0.

(** What each call answers: its status, what it writes, and the operation or
    the store of keys it leaves. *)
Class Psa := {
  psa_crypto_init : Z;
  psa_hash_operation_t : Type;
  PSA_HASH_OPERATION_INIT : psa_hash_operation_t;
  psa_hash_setup : psa_hash_operation_t → Z → Z * psa_hash_operation_t;
  psa_hash_update : psa_hash_operation_t → bytes → Z * psa_hash_operation_t;
  psa_hash_finish : psa_hash_operation_t → Z * bytes * psa_hash_operation_t;
  psa_hash_abort : psa_hash_operation_t → psa_hash_operation_t;
  psa_hash_compute : Z → bytes → Z * bytes;
  key_store : Type;
  psa_import_key : key_store → Z → bytes → Z * Z * key_store;
  psa_destroy_key : key_store → Z → key_store;
  psa_mac_compute : key_store → Z → Z → bytes → Z * bytes;
  psa_mac_operation_t : Type;
  PSA_MAC_OPERATION_INIT : psa_mac_operation_t;
  psa_mac_sign_setup : key_store → psa_mac_operation_t → Z → Z → Z * psa_mac_operation_t;
  psa_mac_update : psa_mac_operation_t → bytes → Z * psa_mac_operation_t;
  psa_mac_sign_finish : psa_mac_operation_t → Z * bytes * psa_mac_operation_t;
  psa_mac_abort : psa_mac_operation_t → psa_mac_operation_t }.

(** [getentropy], by call: an errno, or the bytes asked for. *)
Class Entropy := getentropy : nat → Z → Z + bytes.

(** ** The code *)

Definition EIO : Z := 5.

(** The loop of [cosmic_entropy]: each turn draws a byte at least, so [len]
    turns are enough. *)
Fixpoint entropy_loop `{Entropy} (fuel turn : nat) (len : Z) (out : bytes) : Z * bytes :=
  let got := Z.of_nat (length out) in
  if got <? len then
    match fuel with
    | O => (0, out)
    | S fuel =>
        let want := len - got in
        let want := if 256 <? want then 256 else want in
        match getentropy turn want with
        | inl errno => (if negb (errno =? 0) then errno else EIO, out)
        | inr bs => entropy_loop fuel (S turn) len (out ++ bs)
        end
    end
  else (0, out).

Definition cosmic_entropy `{Entropy} (len : Z) : Z * bytes := entropy_loop (Z.to_nat len) 0 len [].

Definition mbedtls_psa_external_get_random `{Entropy} (output_size : Z) : Z * bytes :=
  let '(errno, out) := cosmic_entropy output_size in
  if negb (errno =? 0) then (PSA_ERROR_INSUFFICIENT_ENTROPY, out) else (PSA_SUCCESS, out).

Definition algorithms : list (bytes * Z) := [
  (lit "md5", PSA_ALG_MD5); (lit "sha1", PSA_ALG_SHA_1);
  (lit "sha224", PSA_ALG_SHA_224); (lit "sha256", PSA_ALG_SHA_256);
  (lit "sha384", PSA_ALG_SHA_384); (lit "sha512", PSA_ALG_SHA_512);
  (lit "sha3-224", PSA_ALG_SHA3_224); (lit "sha3-256", PSA_ALG_SHA3_256);
  (lit "sha3-384", PSA_ALG_SHA3_384); (lit "sha3-512", PSA_ALG_SHA3_512)].

Definition cosmic_hash_algorithm (name : bytes) : Z :=
  match List.find (λ a, bool_decide (a.1 = c_string name)) algorithms with
  | Some a => a.2
  | None => PSA_ALG_NONE
  end.

Definition COSMIC_SHA256_LENGTH : Z := 32.

(** The lower-case hexadecimal digits of [cosmic_hex]. *)
Definition cosmic_hex (bs : bytes) : bytes := bs ≫= λ b, [hex_digit (Z.shiftr b 4); hex_digit (Z.land b 15)].

Section psa.
Context `{Psa}.

Definition cosmic_crypto_init : Z := psa_crypto_init.

Definition cosmic_digest (name data : bytes) : Z * bytes :=
  let alg := cosmic_hash_algorithm name in
  if alg =? PSA_ALG_NONE then (-1, []) else psa_hash_compute alg data.

(** The bytes of [digest_fd]'s buffer. *)
Definition DIGEST_CHUNK : Z := 64 * 1024.

(** [digest_fd]'s two loops as one: an interrupted read is made again. *)
Fixpoint digest_loop `{Kernel} (fuel turn : nat) (offset length_ consumed status : Z) (operation : psa_hash_operation_t) :
    option (Z * psa_hash_operation_t) * nat :=
  if (status =? PSA_SUCCESS) && (consumed <? length_) then
    match fuel with
    | O => (None, turn)
    | S fuel =>
        let take := if length_ - consumed <? DIGEST_CHUNK then length_ - consumed else DIGEST_CHUNK in
        match pread turn take (s64 (u64 (offset + consumed))) with
        | Interrupted => digest_loop fuel (S turn) offset length_ consumed status operation
        | Failed => (Some (PSA_ERROR_DATA_CORRUPT, operation), S turn)
        | Got bs =>
            let got := Z.of_nat (length bs) in
            if got <=? 0 then (Some (PSA_ERROR_DATA_CORRUPT, operation), S turn)
            else
              let '(status, operation) := psa_hash_update operation bs in
              digest_loop fuel (S turn) offset length_ (u64 (consumed + got)) status operation
        end
    end
  else (Some (status, operation), turn).

Definition digest_fd `{Kernel} (name : bytes) (offset length_ : Z) (turn : nat) : option (Z * bytes) * nat :=
  let alg := cosmic_hash_algorithm name in
  if alg =? PSA_ALG_NONE then (Some (-1, []), turn)
  else if (INT64_MAX <? offset) || (INT64_MAX - offset <? length_) then (Some (PSA_ERROR_INVALID_ARGUMENT, []), turn)
  else
    let '(status, operation) := psa_hash_setup PSA_HASH_OPERATION_INIT alg in
    match digest_loop (read_fuel length_) turn offset length_ 0 status operation with
    | (None, turn) => (None, turn)
    | (Some (status, operation), turn) =>
        if status =? PSA_SUCCESS then
          let '(status, out, _) := psa_hash_finish operation in (Some (status, out), turn)
        else (Some (status, []), turn)
    end.

(** [import_hmac_key]: the status, the key's identifier and the store. *)
Definition import_hmac_key (keys : key_store) (alg : Z) (key : bytes) : Z * Z * key_store :=
  let '(status, key) :=
    if Z.of_nat (length key) =? 0 then (PSA_SUCCESS, [0])
    else if PSA_HASH_BLOCK_LENGTH alg <? Z.of_nat (length key) then psa_hash_compute alg key
    else (PSA_SUCCESS, key) in
  if status =? PSA_SUCCESS then psa_import_key keys (PSA_ALG_HMAC alg) key else (status, 0, keys).

Definition cosmic_hmac (keys : key_store) (name key data : bytes) : key_store * (Z * bytes) :=
  let alg := cosmic_hash_algorithm name in
  if alg =? PSA_ALG_NONE then (keys, (-1, []))
  else
    let '(status, id, keys) := import_hmac_key keys alg key in
    if negb (status =? PSA_SUCCESS) then (keys, (status, []))
    else
      let result := psa_mac_compute keys id (PSA_ALG_HMAC alg) data in
      (psa_destroy_key keys id, result).

Definition cosmic_hmac_setup (keys : key_store) (operation : psa_mac_operation_t) (alg : Z) (key : bytes) :
    key_store * (Z * psa_mac_operation_t) :=
  let '(status, id, keys) := import_hmac_key keys alg key in
  if negb (status =? PSA_SUCCESS) then (keys, (status, operation))
  else
    let result := psa_mac_sign_setup keys operation id (PSA_ALG_HMAC alg) in
    (psa_destroy_key keys id, result).

(** [None] is a loop that never ends. *)
Definition cosmic_sha256_range_matches `{Kernel} (offset length_ : Z) (want : bytes) (turn : nat) : option bool * nat :=
  match digest_fd (lit "sha256") offset length_ turn with
  | (None, turn) => (None, turn)
  | (Some (status, digest), turn) =>
      (Some ((status =? 0) && (Z.of_nat (length digest) =? COSMIC_SHA256_LENGTH) && bool_decide (digest = want)), turn)
  end.

End psa.
