(* ===== verification/CryptoCorrect.v ===== *)
(** * What digests and keyed digests promise

    The library's promises, as its manual has them; that HMAC under a key of
    any length is RFC 2104's, with no key left in the store; and that a
    range of a file matches its digest alone. *)

From S2P Require Import Prelude.
From S2P Require Import Texts.
From S2P Require Import Lua.
From S2P Require Import ReadAt.
From S2P Require Import Crypto.

Local Open Scope Z_scope.

(** ** The promises of the library *)

(** RFC 2104's HMAC over [digest], of blocks of [block] bytes. *)
Definition block_key (block : Z) (key : bytes) : bytes := key ++ replicate (Z.to_nat block - length key) 0.

Definition padded_hmac (digest : bytes → bytes) (block : Z) (key data : bytes) : bytes :=
  let pad x := Z.lxor x <$> block_key block key in
  digest (pad 0x5c ++ digest (pad 0x36 ++ data)).

Definition rfc2104 (digest : bytes → bytes) (block : Z) (key data : bytes) : bytes :=
  padded_hmac digest block (if block <? Z.of_nat (length key) then digest key else key) data.

(** The digest each algorithm is, and what the operations and the store of
    keys hold.  A key is imported whole, and an HMAC under one that is not
    empty and no longer than a block is RFC 2104's. *)
Class PsaLaws `{Psa} (digest : Z → bytes → bytes) := {
  digest_fits : ∀ name data, cosmic_hash_algorithm name ≠ PSA_ALG_NONE →
    0 < Z.of_nat (length (digest (cosmic_hash_algorithm name) data))
      ≤ PSA_HASH_BLOCK_LENGTH (cosmic_hash_algorithm name);
  compute_digest : ∀ alg data out, psa_hash_compute alg data = (PSA_SUCCESS, out) → out = digest alg data;
  hash_holds : psa_hash_operation_t → Z → bytes → Prop;
  setup_holds : ∀ alg op, psa_hash_setup PSA_HASH_OPERATION_INIT alg = (PSA_SUCCESS, op) → hash_holds op alg [];
  update_holds : ∀ op alg data more op', hash_holds op alg data →
    psa_hash_update op more = (PSA_SUCCESS, op') → hash_holds op' alg (data ++ more);
  finish_digest : ∀ op alg data out op', hash_holds op alg data →
    psa_hash_finish op = (PSA_SUCCESS, out, op') → out = digest alg data;
  key_held : key_store → Z → option (Z * bytes);
  import_held : ∀ keys alg key status id keys', psa_import_key keys alg key = (status, id, keys') →
    if status =? PSA_SUCCESS
    then key_held keys id = None ∧ ∀ i, key_held keys' i = (if i =? id then Some (alg, key) else key_held keys i)
    else ∀ i, key_held keys' i = key_held keys i;
  destroy_held : ∀ keys id i,
    key_held (psa_destroy_key keys id) i = if i =? id then None else key_held keys i;
  mac_compute_hmac : ∀ keys id alg key data out,
    key_held keys id = Some (PSA_ALG_HMAC alg, key) → 0 < Z.of_nat (length key) ≤ PSA_HASH_BLOCK_LENGTH alg →
    psa_mac_compute keys id (PSA_ALG_HMAC alg) data = (PSA_SUCCESS, out) →
    out = padded_hmac (digest alg) (PSA_HASH_BLOCK_LENGTH alg) key data;
  mac_holds : psa_mac_operation_t → Z → bytes → bytes → Prop;
  mac_setup_holds : ∀ keys id alg key op, key_held keys id = Some (PSA_ALG_HMAC alg, key) →
    0 < Z.of_nat (length key) ≤ PSA_HASH_BLOCK_LENGTH alg →
    psa_mac_sign_setup keys PSA_MAC_OPERATION_INIT id (PSA_ALG_HMAC alg) = (PSA_SUCCESS, op) → mac_holds op alg key [];
  mac_update_holds : ∀ op alg key data more op', mac_holds op alg key data →
    psa_mac_update op more = (PSA_SUCCESS, op') → mac_holds op' alg key (data ++ more);
  mac_finish_hmac : ∀ op alg key data out op', mac_holds op alg key data →
    psa_mac_sign_finish op = (PSA_SUCCESS, out, op') →
    out = padded_hmac (digest alg) (PSA_HASH_BLOCK_LENGTH alg) key data }.

(** A library that has the memory it needs. *)
Class PsaWorks `{Psa} := {
  setup_works : ∀ name, cosmic_hash_algorithm name ≠ PSA_ALG_NONE →
    (psa_hash_setup PSA_HASH_OPERATION_INIT (cosmic_hash_algorithm name)).1 = PSA_SUCCESS;
  update_works : ∀ op more, (psa_hash_update op more).1 = PSA_SUCCESS;
  finish_works : ∀ op, (psa_hash_finish op).1.1 = PSA_SUCCESS }.

Section hmac.
Context `{PsaLaws digest}.

(** ** HMAC *)

(** What is imported for a key: RFC 2104's key for it, not empty. *)
Definition imported_key (alg : Z) (key : bytes) : bytes :=
  if Z.of_nat (length key) =? 0 then [0]
  else if PSA_HASH_BLOCK_LENGTH alg <? Z.of_nat (length key) then digest alg key else key.

Lemma block_positive name :
  cosmic_hash_algorithm name ≠ PSA_ALG_NONE → 0 < PSA_HASH_BLOCK_LENGTH (cosmic_hash_algorithm name).
Proof. intros Hn. pose proof (digest_fits name [] Hn). lia. Qed.

Lemma imported_key_fits name key :
  cosmic_hash_algorithm name ≠ PSA_ALG_NONE →
  0 < Z.of_nat (length (imported_key (cosmic_hash_algorithm name) key))
    ≤ PSA_HASH_BLOCK_LENGTH (cosmic_hash_algorithm name).
Proof.
  intros Hn. pose proof (block_positive name Hn). unfold imported_key.
  destruct (Z.eqb_spec (Z.of_nat (length key)) 0); [simpl; lia|].
  destruct (Z.ltb_spec (PSA_HASH_BLOCK_LENGTH (cosmic_hash_algorithm name)) (Z.of_nat (length key))); [|lia].
  by apply digest_fits.
Qed.

(** It is the key RFC 2104 pads. *)
Lemma imported_key_hmac name key data :
  let alg := cosmic_hash_algorithm name in alg ≠ PSA_ALG_NONE →
  padded_hmac (digest alg) (PSA_HASH_BLOCK_LENGTH alg) (imported_key alg key) data
  = rfc2104 (digest alg) (PSA_HASH_BLOCK_LENGTH alg) key data.
Proof.
  intros alg Hn. pose proof (block_positive name Hn) as Hb. fold alg in Hb. unfold imported_key, rfc2104.
  destruct (Z.eqb_spec (Z.of_nat (length key)) 0) as [Hk|Hk]; [|done].
  rewrite (proj2 (Z.ltb_ge _ _)) by lia. destruct key; [|done].
  assert (block_key (PSA_HASH_BLOCK_LENGTH alg) [0] = block_key (PSA_HASH_BLOCK_LENGTH alg) []) as Hkey.
  { unfold block_key. simpl. rewrite Nat.sub_0_r. destruct (Z.to_nat (PSA_HASH_BLOCK_LENGTH alg)) as [|n] eqn:E; [lia|].
    simpl. by rewrite Nat.sub_0_r. }
  unfold padded_hmac. by rewrite Hkey.
Qed.

Lemma import_hmac_key_held keys alg key status id keys' :
  import_hmac_key keys alg key = (status, id, keys') →
  if status =? PSA_SUCCESS
  then key_held keys id = None ∧
       ∀ i, key_held keys' i = (if i =? id then Some (PSA_ALG_HMAC alg, imported_key alg key) else key_held keys i)
  else ∀ i, key_held keys' i = key_held keys i.
Proof.
  unfold import_hmac_key, imported_key.
  destruct (Z.of_nat (length key) =? 0); [by apply import_held|].
  destruct (_ <? _); [|by apply import_held].
  destruct (psa_hash_compute alg key) as [rc out] eqn:Ec.
  destruct (Z.eqb_spec rc PSA_SUCCESS) as [->|Hrc].
  - apply compute_digest in Ec as ->. by apply import_held.
  - intros [= <- <- <-]. by rewrite (proj2 (Z.eqb_neq _ _) Hrc).
Qed.

(** The key is gone once it was used. *)
Lemma destroyed keys keys' id entry :
  key_held keys id = None → (∀ i, key_held keys' i = if i =? id then entry else key_held keys i) →
  ∀ i, key_held (psa_destroy_key keys' id) i = key_held keys i.
Proof.
  intros Hnone Hheld i. rewrite destroy_held, Hheld. by destruct (Z.eqb_spec i id) as [->|].
Qed.

(** C13: HMAC under a key of any length, an empty one and one longer than the
    library takes included, is RFC 2104's over the digest named; an unknown
    name is answered -1; and whatever happens the store of keys is left with
    the keys it held. *)
Theorem hmac_is_rfc2104 keys name key data keys' status out :
  cosmic_hmac keys name key data = (keys', (status, out)) →
  let alg := cosmic_hash_algorithm name in
  (alg = PSA_ALG_NONE → status = -1) ∧
  (alg ≠ PSA_ALG_NONE → status = PSA_SUCCESS →
   out = rfc2104 (digest alg) (PSA_HASH_BLOCK_LENGTH alg) key data) ∧
  (∀ i, key_held keys' i = key_held keys i).
Proof.
  unfold cosmic_hmac. set (alg := cosmic_hash_algorithm name). cbv zeta.
  destruct (Z.eqb_spec alg PSA_ALG_NONE) as [Halg|Halg]; [by intros [= <- <- <-]|].
  destruct (import_hmac_key keys alg key) as [[rc id] held] eqn:Eimport.
  apply import_hmac_key_held in Eimport.
  destruct (Z.eqb_spec rc PSA_SUCCESS) as [->|Hrc]; cbn [negb].
  2: { intros [= <- <- <-]. by split_and!. }
  destruct Eimport as [Hnone Hheld]. destruct (psa_mac_compute _ _ _ _) as [rc' out'] eqn:Emac.
  intros [= <- <- <-]. split_and!; [done| |by eapply destroyed].
  intros _ ->. eapply mac_compute_hmac in Emac as ->.
  - by apply imported_key_hmac.
  - by rewrite Hheld, Z.eqb_refl.
  - by apply imported_key_fits.
Qed.

(** The operation of a hasher under a key, and the store it leaves. *)
Lemma hmac_setup_holds keys name key keys' op :
  let alg := cosmic_hash_algorithm name in alg ≠ PSA_ALG_NONE →
  cosmic_hmac_setup keys PSA_MAC_OPERATION_INIT alg key = (keys', (PSA_SUCCESS, op)) →
  mac_holds op alg (imported_key alg key) [].
Proof.
  intros alg Halg. unfold cosmic_hmac_setup.
  destruct (import_hmac_key keys alg key) as [[rc id] held] eqn:Eimport.
  apply import_hmac_key_held in Eimport.
  destruct (Z.eqb_spec rc PSA_SUCCESS) as [->|Hrc]; cbn [negb]; [|by intros [= <- -> <-]].
  destruct Eimport as [Hnone Hheld]. intros [= <- Hsetup].
  eapply mac_setup_holds; [|by apply imported_key_fits|exact Hsetup]. by rewrite Hheld, Z.eqb_refl.
Qed.

Lemma hmac_setup_keys keys alg key keys' r :
  cosmic_hmac_setup keys PSA_MAC_OPERATION_INIT alg key = (keys', r) → ∀ i, key_held keys' i = key_held keys i.
Proof.
  unfold cosmic_hmac_setup. destruct (import_hmac_key keys alg key) as [[rc id] held] eqn:Eimport.
  apply import_hmac_key_held in Eimport. destruct (Z.eqb_spec rc PSA_SUCCESS); cbn [negb].
  - destruct Eimport as [Hnone Hheld]. intros [= <- _]. by eapply destroyed.
  - by intros [= <- _].
Qed.

End hmac.

(** ** A range of a file *)

Section range.
Context `{PsaLaws digest} `{KernelLaws content}.

Lemma chunk_positive n : 0 < n → 0 < (if n <? DIGEST_CHUNK then n else DIGEST_CHUNK) ≤ n.
Proof. unfold DIGEST_CHUNK. intros. zcases; lia. Qed.

Lemma u64_small x : 0 ≤ x ≤ INT64_MAX → u64 x = x.
Proof. unfold INT64_MAX. intros Hx. apply Z.mod_small. lia. Qed.

(** What the loop keeps: the bytes consumed are in the operation. *)
Lemma digest_loop_holds fuel turn alg offset length_ consumed status op status' op' turn' :
  0 ≤ offset → offset + length_ ≤ INT64_MAX → 0 ≤ consumed ≤ length_ →
  (0 < consumed → offset + consumed ≤ Z.of_nat (length content)) →
  (status = PSA_SUCCESS → hash_holds op alg (slice content offset consumed)) →
  digest_loop fuel turn offset length_ consumed status op = (Some (status', op'), turn') →
  status' = PSA_SUCCESS →
  hash_holds op' alg (slice content offset length_) ∧ (0 < length_ → offset + length_ ≤ Z.of_nat (length content)).
Proof.
  intros Ho Hmax. revert turn consumed status op.
  induction fuel as [|fuel IH]; intros turn consumed status op Hc Hend Hholds; cbn [digest_loop].
  - destruct (_ && _) eqn:E; [done|]. intros [= <- <- <-] ->. simpl in E. apply Z.ltb_ge in E.
    assert (consumed = length_) as -> by lia. by split; [apply Hholds|].
  - destruct (Z.eqb_spec status PSA_SUCCESS) as [->|]; cbn [andb]; [|by intros [= <- <- <-]].
    destruct (Z.ltb_spec consumed length_) as [Hlt|].
    2: { intros [= <- <- <-] _. assert (consumed = length_) as -> by lia. by split; [apply Hholds|]. }
    set (take := if length_ - consumed <? DIGEST_CHUNK then length_ - consumed else DIGEST_CHUNK).
    pose proof (chunk_positive (length_ - consumed) ltac:(lia)) as Htake. fold take in Htake.
    rewrite u64_small, s64_small by lia.
    destruct (pread _ _ _) as [| |bs] eqn:Hp; [by apply IH|by intros [= <- <- <-]|].
    destruct (Z.leb_spec (Z.of_nat (length bs)) 0) as [|Hpos]; [by intros [= <- <- <-]|].
    assert (0 ≤ offset + consumed) as Hat by lia.
    destruct (got_within _ _ _ _ Hat (proj1 Htake) Hp Hpos) as (Hbs & Hle & Hin).
    destruct (psa_hash_update op bs) as [rc op2] eqn:Eu.
    rewrite u64_small by lia. apply IH; [lia|lia|]. intros ->. rewrite <-slice_app by lia. rewrite <-Hbs.
    eapply update_holds; [by apply Hholds|done].
Qed.

Lemma digest_loop_ends fuel turn offset length_ consumed status op k :
  0 ≤ offset → offset + length_ ≤ INT64_MAX → 0 ≤ consumed →
  (k ≤ patience)%nat → (∀ len offset, pread (turn + k) len offset ≠ Interrupted) →
  (S k + S patience * Z.to_nat (length_ - consumed) ≤ fuel + S patience)%nat →
  is_Some (digest_loop fuel turn offset length_ consumed status op).1.
Proof.
  intros Ho Hmax Hc. revert turn consumed Hc status op k.
  induction fuel as [|fuel IH]; intros turn consumed Hc status op k Hk Hnext Hfuel; cbn [digest_loop].
  - destruct (_ && _) eqn:E; [|done]. apply andb_true_iff in E as [_ E%Z.ltb_lt].
    assert (1 ≤ Z.to_nat (length_ - consumed))%nat by lia. nia.
  - destruct (_ && _) eqn:E; [|done]. apply andb_true_iff in E as [_ E%Z.ltb_lt].
    set (take := if length_ - consumed <? DIGEST_CHUNK then length_ - consumed else DIGEST_CHUNK).
    pose proof (chunk_positive (length_ - consumed) ltac:(lia)) as Htake. fold take in Htake.
    rewrite u64_small, s64_small by lia.
    destruct (pread turn take _) as [| |bs] eqn:Hp; [|done|].
    + destruct k as [|k]; [exfalso; apply (Hnext take (offset + consumed)); by rewrite Nat.add_0_r|].
      apply (IH _ _ Hc _ _ k); [lia| |lia]. intros l o. by rewrite Nat.add_succ_l, <-Nat.add_succ_r.
    + destruct (Z.leb_spec (Z.of_nat (length bs)) 0) as [|Hpos]; [done|].
      destruct (psa_hash_update op bs) as [rc op2]. destruct (pread_patience (S turn)) as (k' & Hk' & Hnext').
      assert (0 ≤ offset + consumed) as Hat by lia.
      destruct (pread_slice _ _ _ _ Hat (proj1 Htake) Hp) as [_ Hle]. rewrite u64_small by lia.
      assert (0 ≤ consumed + Z.of_nat (length bs)) as Hc' by lia. apply (IH _ _ Hc' _ _ k'); [done..|].
      assert (Z.to_nat (length_ - (consumed + Z.of_nat (length bs))) < Z.to_nat (length_ - consumed))%nat by lia. nia.
Qed.

Lemma digest_fd_ends name turn offset length_ :
  0 ≤ offset → 0 ≤ length_ → is_Some (digest_fd name offset length_ turn).1.
Proof.
  intros Ho Hl. unfold digest_fd. destruct (_ =? _); [done|].
  destruct (_ || _) eqn:E; [done|]. apply orb_false_iff in E as [Hmax%Z.ltb_ge Hend%Z.ltb_ge].
  destruct (psa_hash_setup _ _) as [rc op]. destruct (pread_patience turn) as (k & Hk & Hnext).
  assert (is_Some (digest_loop (read_fuel length_) turn offset length_ 0 rc op).1) as [[rc' op'] Hsome].
  { apply (digest_loop_ends _ _ _ _ _ _ _ k); [lia..|done|done|]. unfold read_fuel. nia. }
  destruct (digest_loop _ _ _ _ _ _ _) as [[[]|] t]; [|done].
  destruct (_ =? _); [|done]. by destruct (psa_hash_finish _) as [[? ?] ?].
Qed.

(** A success is the digest of the range. *)
Lemma digest_fd_sound name turn offset length_ out turn' :
  0 ≤ offset → 0 ≤ length_ →
  digest_fd name offset length_ turn = (Some (PSA_SUCCESS, out), turn') →
  out = digest (cosmic_hash_algorithm name) (slice content offset length_) ∧
  (0 < length_ → offset + length_ ≤ Z.of_nat (length content)).
Proof.
  intros Ho Hl. unfold digest_fd. destruct (_ =? _); [done|].
  destruct (_ || _) eqn:E; [done|]. apply orb_false_iff in E as [Hmax%Z.ltb_ge Hend%Z.ltb_ge].
  destruct (psa_hash_setup _ _) as [rc op] eqn:Es.
  destruct (digest_loop _ _ _ _ _ _ _) as [[[rc' op']|] t] eqn:El; [|done].
  destruct (Z.eqb_spec rc' PSA_SUCCESS) as [->|Hrc]; [|by intros [= ? _]].
  destruct (psa_hash_finish op') as [[rc2 out'] op2] eqn:Ef. intros [= -> -> <-].
  eapply (digest_loop_holds _ _ (cosmic_hash_algorithm name)) in El as [Hh Hin]; [|lia..| |done].
  - split; [|done]. by eapply finish_digest.
  - intros ->. unfold slice. by eapply setup_holds.
Qed.

Lemma range_matches_sound offset length_ want turn turn' :
  0 ≤ offset → 0 ≤ length_ → cosmic_sha256_range_matches offset length_ want turn = (Some true, turn') →
  want = digest PSA_ALG_SHA_256 (slice content offset length_) ∧ (0 < length_ → offset + length_ ≤ Z.of_nat (length content)).
Proof.
  intros Ho Hl. unfold cosmic_sha256_range_matches. destruct (digest_fd _ _ _ _) as [[[status out]|] t] eqn:E; [|done].
  intros [= Hb _]. apply andb_prop in Hb as [Hb ->%bool_decide_eq_true]. apply andb_prop in Hb as [->%Z.eqb_eq _].
  change PSA_ALG_SHA_256 with (cosmic_hash_algorithm (lit "sha256")). by eapply digest_fd_sound.
Qed.

Lemma digest_loop_works `{!PsaWorks} `{!Readable content} fuel turn offset length_ consumed op :
  0 ≤ offset → offset + length_ ≤ Z.of_nat (length content) → 0 ≤ consumed →
  match (digest_loop fuel turn offset length_ consumed PSA_SUCCESS op).1 with
  | Some (status, _) => status = PSA_SUCCESS
  | None => True
  end.
Proof.
  intros Ho Hend. pose proof content_size as Hsize. revert turn consumed op.
  induction fuel as [|fuel IH]; intros turn consumed op Hc; cbn [digest_loop]; cbn [andb Z.eqb PSA_SUCCESS].
  - by destruct (_ <? _).
  - destruct (Z.ltb_spec consumed length_) as [Hlt|]; [|done].
    set (take := if length_ - consumed <? DIGEST_CHUNK then length_ - consumed else DIGEST_CHUNK).
    pose proof (chunk_positive (length_ - consumed) ltac:(lia)) as Htake. fold take in Htake.
    rewrite u64_small, s64_small by lia.
    assert (0 ≤ offset + consumed < Z.of_nat (length content)) as Hin by lia.
    pose proof (readable turn take (offset + consumed) (proj1 Htake) Hin) as Hr.
    destruct (pread turn take _) as [| |bs] eqn:Hp; [by apply IH|done|].
    destruct (Z.leb_spec (Z.of_nat (length bs)) 0); [by destruct bs|].
    pose proof (update_works op bs) as Hu. destruct (psa_hash_update op bs) as [rc op2]. simpl in Hu. subst rc.
    destruct (pread_slice _ _ _ _ (proj1 Hin) (proj1 Htake) Hp) as [_ Hle]. rewrite u64_small by lia. apply IH. lia.
Qed.

(** The check of a range against a digest ends, however often its reads
    are interrupted; it passes only a range that lies in the file and whose
    bytes have that SHA-256 digest; and it passes every such range of a file
    that can be read where the library does not fail. *)
Theorem range_matches_digest offset length_ want turn :
  0 ≤ offset → 0 ≤ length_ → Z.of_nat (length want) = COSMIC_SHA256_LENGTH →
  ∃ b, (cosmic_sha256_range_matches offset length_ want turn).1 = Some b ∧
    (b = true → want = digest PSA_ALG_SHA_256 (slice content offset length_) ∧
                (0 < length_ → offset + length_ ≤ Z.of_nat (length content))) ∧
    (PsaWorks → Readable content → offset + length_ ≤ Z.of_nat (length content) →
     want = digest PSA_ALG_SHA_256 (slice content offset length_) → b = true).
Proof.
  intros Ho Hl Hw. unfold cosmic_sha256_range_matches.
  destruct (digest_fd_ends (lit "sha256") turn offset length_ Ho Hl) as [[status out] Hsome].
  destruct (digest_fd _ _ _ _) as [r t] eqn:E. simpl in Hsome. subst r. eexists. split; [done|]. split.
  - intros [[->%Z.eqb_eq _]%andb_true_iff ->%bool_decide_eq_true]%andb_true_iff.
    change PSA_ALG_SHA_256 with (cosmic_hash_algorithm (lit "sha256")). by eapply digest_fd_sound.
  - intros Hworks Hread Hend Hwant. pose proof content_size as Hsize.
    assert (status = PSA_SUCCESS) as ->.
    { revert E. unfold digest_fd. simpl (_ =? PSA_ALG_NONE). cbv iota.
      rewrite !(proj2 (Z.ltb_ge _ _)) by lia. cbn [orb].
      pose proof (setup_works (lit "sha256") ltac:(done)) as Hs.
      destruct (psa_hash_setup _ _) as [rc op]. simpl in Hs. subst rc.
      pose proof (digest_loop_works (read_fuel length_) turn offset length_ 0 op Ho Hend ltac:(done)) as Hloop.
      destruct (digest_loop _ _ _ _ _ _ _) as [[[rc' op']|] t']; [|done]. simpl in Hloop. subst rc'.
      rewrite Z.eqb_refl. pose proof (finish_works op') as Hf.
      destruct (psa_hash_finish op') as [[rc2 out'] op2]. simpl in Hf. subst rc2. by intros [= <- _ _]. }
    apply digest_fd_sound in E as [-> _]; [|done..].
    change (cosmic_hash_algorithm (lit "sha256")) with PSA_ALG_SHA_256. rewrite <-Hwant, Hw.
    by rewrite bool_decide_eq_true_2.
Qed.

End range.

(** ** Entropy *)

(** A call that succeeds puts what it was asked for, of which it takes 256
    bytes at most. *)
Class EntropyLaws `{Entropy} :=
  getentropy_length : ∀ turn want bs, 0 < want ≤ 256 → getentropy turn want = inr bs → Z.of_nat (length bs) = want.

Lemma entropy_loop_fills `{EntropyLaws} fuel turn len out status bs :
  (Z.to_nat (len - Z.of_nat (length out)) ≤ fuel)%nat → Z.of_nat (length out) ≤ len →
  entropy_loop fuel turn len out = (status, bs) →
  (status = 0 → Z.of_nat (length bs) = len) ∧ (status ≠ 0 → ∃ n want e, 0 < want ≤ 256 ∧ getentropy n want = inl e).
Proof.
  revert turn out. induction fuel as [|fuel IH]; intros turn out Hfuel Hout; cbn [entropy_loop].
  - rewrite (proj2 (Z.ltb_ge _ _)) by lia. intros [= <- <-]. split; [lia|done].
  - destruct (Z.ltb_spec (Z.of_nat (length out)) len) as [Hlt|]; [|intros [= <- <-]; split; [lia|done]].
    set (want := if 256 <? len - Z.of_nat (length out) then 256 else len - Z.of_nat (length out)).
    assert (0 < want ≤ 256 ∧ want ≤ len - Z.of_nat (length out)) as [Hw Hle] by (unfold want; zcases; lia).
    destruct (getentropy turn want) as [e|more] eqn:Eg.
    + intros [= <- <-]. split; [|by exists turn, want, e]. destruct (Z.eqb_spec e 0) as [|He]; simpl; [done|by intros ->].
    + pose proof (getentropy_length _ _ _ Hw Eg) as Hl. apply IH; rewrite length_app; lia.
Qed.

(** Entropy is drawn whole or an errno that is not 0 is answered. *)
Lemma cosmic_entropy_fills `{EntropyLaws} len status out :
  0 ≤ len → cosmic_entropy len = (status, out) →
  (status = 0 → Z.of_nat (length out) = len) ∧ (status ≠ 0 → ∃ n want e, 0 < want ≤ 256 ∧ getentropy n want = inl e).
Proof. intros Hl Hc. eapply (entropy_loop_fills _ _ _ [] status out); [|done|exact Hc]. simpl. lia. Qed.

(** ** A library that sums *)

Module Sums.

(** Thirty-two bytes, each the sum of the data's. *)
Definition digest (alg : Z) (data : bytes) : bytes := replicate 32 (foldr Z.add alg data mod 256).

(** The digest an HMAC algorithm is over. *)
Definition hash_of (alg : Z) : Z := Z.lor 0x02000000 (Z.land alg 0xff).

Definition mac (alg : Z) (key data : bytes) : bytes :=
  padded_hmac (digest (hash_of alg)) (PSA_HASH_BLOCK_LENGTH (hash_of alg)) key data.

(** An identifier no key has. *)
Definition next_id (keys : list (Z * (Z * bytes))) : Z := foldr Z.max 0 keys.*1 + 1.

Fixpoint held (keys : list (Z * (Z * bytes))) (id : Z) : option (Z * bytes) :=
  match keys with
  | [] => None
  | (i, k) :: keys => if id =? i then Some k else held keys id
  end.

#[export] Instance psa : Psa := {|
  psa_crypto_init := 0;
  psa_hash_operation_t := Z * bytes;
  PSA_HASH_OPERATION_INIT := (0, []);
  psa_hash_setup _ alg := (0, (alg, []));
  psa_hash_update op more := (0, (op.1, op.2 ++ more));
  psa_hash_finish op := (0, digest op.1 op.2, op);
  psa_hash_abort _ := (0, []);
  psa_hash_compute alg data := (0, digest alg data);
  key_store := list (Z * (Z * bytes));
  psa_import_key keys alg key :=
    if (Z.of_nat (length key) =? 0) || (8192 <=? Z.of_nat (length key)) then (-135, 0, keys)
    else (0, next_id keys, (next_id keys, (alg, key)) :: keys);
  psa_destroy_key keys id := filter (λ k, k.1 ≠ id) keys;
  psa_mac_compute keys id alg data :=
    match held keys id with Some (_, key) => (0, mac alg key data) | None => (-136, []) end;
  psa_mac_operation_t := Z * bytes * bytes;
  PSA_MAC_OPERATION_INIT := (0, [], []);
  psa_mac_sign_setup keys op id alg :=
    match held keys id with Some (_, key) => (0, (alg, key, [])) | None => (-136, op) end;
  psa_mac_update op more := (0, (op.1, op.2 ++ more));
  psa_mac_sign_finish op := (0, mac op.1.1 op.1.2 op.2, op);
  psa_mac_abort _ := (0, [], []) |}.

Lemma hash_of_hmac alg : 0 < PSA_HASH_BLOCK_LENGTH alg → hash_of (PSA_ALG_HMAC alg) = alg.
Proof.
  intros Hb. assert (alg ∈ algorithms.*2) as Hin.
  { revert Hb. unfold PSA_HASH_BLOCK_LENGTH.
    repeat match goal with
    | |- context [alg =? ?b] => destruct (Z.eqb_spec alg b) as [->|]; [intros _; by apply (bool_decide_unpack _)|]
    end. simpl. lia. }
  assert (Forall (λ a, hash_of (PSA_ALG_HMAC a) = a) algorithms.*2) as Hall by (by apply (bool_decide_unpack _)).
  rewrite Forall_forall in Hall. by apply Hall.
Qed.

Lemma held_below keys id : foldr Z.max 0 keys.*1 < id → held keys id = None.
Proof.
  induction keys as [|[i k] keys IH]; [done|]. csimpl. intros Hid.
  rewrite (proj2 (Z.eqb_neq id i)) by lia. apply IH. lia.
Qed.

Lemma held_destroy keys id i : held (filter (λ k, k.1 ≠ id) keys) i = if i =? id then None else held keys i.
Proof.
  induction keys as [|[j k] keys IH]; [by destruct (i =? id)|]. rewrite filter_cons. simpl. case_decide as Hj; simpl.
  - rewrite IH. destruct (Z.eqb_spec i j) as [->|]; [|done]. by rewrite (proj2 (Z.eqb_neq _ _) Hj).
  - assert (j = id) as -> by (destruct (decide (j = id)); [done|by destruct Hj]).
    rewrite IH. by destruct (i =? id).
Qed.

Definition no_keys : @key_store psa := nil.

(** Every algorithm's block holds thirty-two bytes. *)
Lemma blocks name : cosmic_hash_algorithm name ≠ PSA_ALG_NONE → 32 ≤ PSA_HASH_BLOCK_LENGTH (cosmic_hash_algorithm name).
Proof.
  unfold cosmic_hash_algorithm. destruct (List.find _ _) as [a|] eqn:E; [|done]. intros _.
  apply find_some_iff in E as [Hin _].
  assert (Forall (λ a, 32 ≤ PSA_HASH_BLOCK_LENGTH a.2) algorithms) as Hall by (by apply (bool_decide_unpack _)).
  rewrite Forall_forall in Hall. by apply Hall.
Qed.

#[export] Instance psa_laws : PsaLaws digest.
Proof.
  refine {| hash_holds op alg data := op = (alg, data); key_held := held;
            mac_holds op alg key data := op = (PSA_ALG_HMAC alg, key, data) ∧ 0 < PSA_HASH_BLOCK_LENGTH alg |}; simpl.
  - intros name data Hn. pose proof (blocks name Hn). simpl. lia.
  - by intros alg data out [= <-].
  - by intros alg op [= <-].
  - by intros op alg data more op' -> [= <-].
  - by intros op alg data out op' -> [= <- _].
  - intros keys alg key status id keys'. destruct (_ || _); intros [= <- <- <-]; [done|]. simpl. split; [|done].
    apply held_below. unfold next_id. lia.
  - apply held_destroy.
  - intros keys id alg key data out -> Hk [= <-]. unfold mac. by rewrite hash_of_hmac by lia.
  - intros keys id alg key op -> Hk [= <-]. split; [done|lia].
  - by intros op alg key data more op' [-> Hb] [= <-].
  - intros op alg key data out op' [-> Hb] [= <- _]. unfold mac. simpl. by rewrite hash_of_hmac.
Defined.

#[export] Instance psa_works : PsaWorks.
Proof. by split. Qed.

End Sums.

Import Sums.

Lemma hmac_is_rfc2104_witness :
  let alg := PSA_ALG_SHA_256 in
  (cosmic_hmac Sums.no_keys (lit "sha256") (replicate 100 7) [1; 2; 3]).2 =
    (0, rfc2104 (Sums.digest alg) 64 (replicate 100 7) [1; 2; 3]) ∧
  (cosmic_hmac Sums.no_keys (lit "sha256") [] [1; 2; 3]).2 = (0, rfc2104 (Sums.digest alg) 64 [] [1; 2; 3]).
Proof.
  split.
  - destruct (cosmic_hmac Sums.no_keys (lit "sha256") (replicate 100 7) [1; 2; 3]) as [keys [status out]] eqn:E.
    destruct (hmac_is_rfc2104 _ _ _ _ _ _ _ E) as (_ & Hout & _).
    assert (status = 0) as -> by (by vm_compute in E; injection E).
    change (PSA_SUCCESS, out) with (0, out). cbn [snd]. rewrite Hout by done. done.
  - destruct (cosmic_hmac Sums.no_keys (lit "sha256") [] [1; 2; 3]) as [keys [status out]] eqn:E.
    destruct (hmac_is_rfc2104 _ _ _ _ _ _ _ E) as (_ & Hout & _).
    assert (status = 0) as -> by (by vm_compute in E; injection E).
    change (PSA_SUCCESS, out) with (0, out). cbn [snd]. rewrite Hout by done. done.
Defined.

Lemma range_matches_digest_witness :
  let content := replicate 3000 7 in let want := Sums.digest PSA_ALG_SHA_256 (replicate 2500 7) in
  (@cosmic_sha256_range_matches _ (Disk.kernel content) 100 2500 want 0).1 = Some true.
Proof.
  assert (@KernelLaws (Disk.kernel (replicate 3000 7)) (replicate 3000 7)) as Hlaws.
  { apply Disk.kernel_laws; [by apply Forall_replicate|by vm_compute]. }
  destruct (@range_matches_digest _ _ _ (Disk.kernel (replicate 3000 7)) _ Hlaws 100 2500 (Sums.digest PSA_ALG_SHA_256 (replicate 2500 7)) 0)
    as (b & Hb & _ & Hpass); [done|done|done|].
  cbv zeta. rewrite Hb. f_equal. apply Hpass; [exact _|apply Disk.kernel_readable|by vm_compute|by vm_compute].
Defined.
