(* ===== verification/Hash.v ===== *)
(** * The hash module: [core/hash.c]

    Hashers, that take data piece by piece, digests at once, sums of bytes,
    the comparison of two strings in a time of their length, and SipHash. *)

From S2P Require Import Prelude.
From S2P Require Import Texts.
From S2P Require Import Lua.
From S2P Require Import Crypto.
From S2P Require Import CryptoCorrect.

Local Open Scope Z_scope.

Section hash.
Context `{Psa} `{LuaStrings} `{LuaIntegers}.

(** ** Hashers *)

(** The union of operations; its tag is [keyed]. *)
Inductive operation := Hashing (hash : psa_hash_operation_t) | Keyed (mac : psa_mac_operation_t).

Record hasher := Hasher { h_operation : operation; h_finished : bool }.

Definition expected : bytes := lit "string expected".
Definition is_finished : bytes := lit "hash: the hasher is finished".
Definition no_algorithm : bytes := lit "hash: no such digest algorithm".
Definition no_start : bytes := lit "hash: the hasher failed to start".
Definition hasher_failed : bytes := lit "hash: the hasher failed".
Definition no_finish : bytes := lit "hash: the hasher failed to finish".

Definition new_hasher (keyed : bool) : hasher :=
  Hasher (if keyed then Keyed PSA_MAC_OPERATION_INIT else Hashing PSA_HASH_OPERATION_INIT) false.

Definition abort_hasher (h : hasher) : hasher :=
  Hasher (match h_operation h with
          | Keyed mac => Keyed (psa_mac_abort mac)
          | Hashing hash => Hashing (psa_hash_abort hash)
          end) true.

(** The hasher that is answered, or the one left for the collector. *)
Definition started (h : hasher) (status : Z) : answer hasher :=
  if negb (status =? PSA_SUCCESS) then Refuses no_start else Answers h.

Definition hash_hasher (name : lua_value) : answer hasher :=
  match lua_tolstring name with
  | None => Raises expected
  | Some name =>
      let alg := cosmic_hash_algorithm name in
      if alg =? PSA_ALG_NONE then Raises no_algorithm
      else
        let h := new_hasher false in
        match h_operation h with
        | Hashing hash =>
            let '(status, hash) := psa_hash_setup hash alg in
            started (Hasher (Hashing hash) (h_finished h)) status
        | Keyed _ => Answers h
        end
  end.

Definition hash_hmac_hasher (keys : key_store) (name key : lua_value) : key_store * answer hasher :=
  match lua_tolstring name, lua_tolstring key with
  | Some name, Some key =>
      let alg := cosmic_hash_algorithm name in
      if alg =? PSA_ALG_NONE then (keys, Raises no_algorithm)
      else
        let h := new_hasher true in
        match h_operation h with
        | Keyed mac =>
            let '(keys, (status, mac)) := cosmic_hmac_setup keys mac alg key in
            (keys, started (Hasher (Keyed mac) (h_finished h)) status)
        | Hashing _ => (keys, Answers h)
        end
  | _, _ => (keys, Raises expected)
  end.

Definition hasher_update (h : hasher) (arg : lua_value) : hasher * answer unit :=
  if h_finished h then (h, Raises is_finished)
  else
    match lua_tolstring arg with
    | None => (h, Raises expected)
    | Some data =>
        let '(status, op) :=
          match h_operation h with
          | Keyed mac => let '(status, mac) := psa_mac_update mac data in (status, Keyed mac)
          | Hashing hash => let '(status, hash) := psa_hash_update hash data in (status, Hashing hash)
          end in
        let h := Hasher op (h_finished h) in
        if negb (status =? PSA_SUCCESS) then (abort_hasher h, Raises hasher_failed) else (h, Answers ())
    end.

Definition hasher_digest (h : hasher) : hasher * answer bytes :=
  if h_finished h then (h, Raises is_finished)
  else
    let '(status, out, op) :=
      match h_operation h with
      | Keyed mac => let '(status, out, mac) := psa_mac_sign_finish mac in (status, out, Keyed mac)
      | Hashing hash => let '(status, out, hash) := psa_hash_finish hash in (status, out, Hashing hash)
      end in
    let h := Hasher op true in
    if negb (status =? PSA_SUCCESS) then (h, Refuses no_finish) else (h, Answers out).

Definition hasher_gc (h : hasher) : hasher := if h_finished h then h else abort_hasher h.

(** ** At once *)

Definition hashed (status : Z) (digest : bytes) : answer bytes :=
  if status =? -1 then Raises no_algorithm
  else if negb (status =? 0) then Raises (lit "hash: the digest failed with status " ++ decimal status)
  else Answers digest.

Definition hash_digest (name data : lua_value) : answer bytes :=
  match lua_tolstring name, lua_tolstring data with
  | Some name, Some data => let '(status, digest) := cosmic_digest name data in hashed status digest
  | _, _ => Raises expected
  end.

Definition hash_hmac (keys : key_store) (name key data : lua_value) : key_store * answer bytes :=
  match lua_tolstring name, lua_tolstring key, lua_tolstring data with
  | Some name, Some key, Some data =>
      let '(keys, (status, mac)) := cosmic_hmac keys name key data in (keys, hashed status mac)
  | _, _, _ => (keys, Raises expected)
  end.

(** ** Bytes *)

(** The loop of [hash_byte_sum] from [first] on. *)
Fixpoint sum_loop (count : nat) (first : Z) (data : bytes) (sum : Z) : Z :=
  match count with
  | O => sum
  | S count => sum_loop count (first + 1) data (s64 (sum + default 0 (data !! Z.to_nat (first - 1))))
  end.

Definition hash_byte_sum (data first last_ : lua_value) : answer Z :=
  match lua_tolstring data with
  | None => Raises expected
  | Some data =>
      let len := Z.of_nat (length data) in
      match opt_integer first 1, opt_integer last_ len with
      | Some first, Some last_ =>
          if first <? 1 then Raises (lit "first must be at least 1")
          else if (last_ <? 0) || (len <? last_) then Raises (lit "last must be within the string")
          else if last_ + 1 <? first then Raises (lit "first is past last")
          else Answers (sum_loop (Z.to_nat (last_ + 1 - first)) first data 0)
      | _, _ => Raises (lit "number expected")
      end
  end.

(** The differences of the bytes, gathered to the last. *)
Fixpoint difference (a b : bytes) (d : Z) : Z :=
  match a, b with
  | x :: a, y :: b => difference a b (u8 (Z.lor d (Z.lxor x y)))
  | _, _ => d
  end.

Definition hash_equal (a b : lua_value) : answer bool :=
  match a, b with
  | LString a, LString b =>
      if bool_decide (length a ≠ length b) then Answers false else Answers (difference a b 0 =? 0)
  | _, _ => Raises expected
  end.

End hash.

Arguments Hasher {_} h_operation h_finished.

(** ** SipHash *)

Definition load_le64 (p : bytes) : Z := foldr (λ b x, Z.lor (u64 (Z.shiftl x 8)) b) 0 (take 8 p).

Fixpoint store_bytes (count : nat) (x : Z) : bytes :=
  match count with
  | O => []
  | S count => Z.land x 0xff :: store_bytes count (Z.shiftr x 8)
  end.

Definition store_le64 (x : Z) : bytes := store_bytes 8 x.

Definition rotl64 (x b : Z) : Z := Z.lor (u64 (Z.shiftl x b)) (Z.shiftr x (64 - b)).

(** The four words of the state. *)
Record sip := Sip { v0 : Z; v1 : Z; v2 : Z; v3 : Z }.

(** The body of [sip_rounds]'s loop. *)
Definition sip_round (v : sip) : sip :=
  let '(Sip v0 v1 v2 v3) := v in
  let v0 := u64 (v0 + v1) in let v1 := rotl64 v1 13 in let v1 := Z.lxor v1 v0 in let v0 := rotl64 v0 32 in
  let v2 := u64 (v2 + v3) in let v3 := rotl64 v3 16 in let v3 := Z.lxor v3 v2 in
  let v0 := u64 (v0 + v3) in let v3 := rotl64 v3 21 in let v3 := Z.lxor v3 v0 in
  let v2 := u64 (v2 + v1) in let v1 := rotl64 v1 17 in let v1 := Z.lxor v1 v2 in let v2 := rotl64 v2 32 in
  Sip v0 v1 v2 v3.

Definition sip_rounds (v : sip) (rounds : Z) : sip := Nat.iter (Z.to_nat rounds) sip_round v.

(** A word mixed in. *)
Definition mix (c : Z) (v : sip) (m : Z) : sip :=
  let v := Sip (v0 v) (v1 v) (v2 v) (Z.lxor (v3 v) m) in
  let v := sip_rounds v c in
  Sip (Z.lxor (v0 v) m) (v1 v) (v2 v) (v3 v).

(** The loop over the whole words. *)
Fixpoint sip_words (count : nat) (c : Z) (v : sip) (data : bytes) : sip :=
  match count with
  | O => v
  | S count => sip_words count c (mix c v (load_le64 data)) (drop 8 data)
  end.

(** The loop over the bytes left. *)
Fixpoint last_word (i : Z) (b : Z) (rest : bytes) : Z :=
  match rest with
  | [] => b
  | x :: rest => last_word (i + 1) (Z.lor b (Z.shiftl x (8 * i))) rest
  end.

Definition sip_tag (v : sip) : bytes := store_le64 (Z.lxor (Z.lxor (Z.lxor (v0 v) (v1 v)) (v2 v)) (v3 v)).

(** [hash_siphash] past its checks. *)
Definition siphash (key data : bytes) (c d size : Z) : bytes :=
  let k0 := load_le64 key in
  let k1 := load_le64 (drop 8 key) in
  let v := Sip (Z.lxor k0 0x736f6d6570736575) (Z.lxor k1 0x646f72616e646f6d)
               (Z.lxor k0 0x6c7967656e657261) (Z.lxor k1 0x7465646279746573) in
  let v := if size =? 16 then Sip (v0 v) (Z.lxor (v1 v) 0xee) (v2 v) (v3 v) else v in
  let len := Z.of_nat (length data) in
  let whole := len - len mod 8 in
  let v := sip_words (Z.to_nat (whole / 8)) c v data in
  let b := last_word 0 (u64 (Z.shiftl len 56)) (drop (Z.to_nat whole) data) in
  let v := mix c v b in
  let v := Sip (v0 v) (v1 v) (Z.lxor (v2 v) (if size =? 16 then 0xee else 0xff)) (v3 v) in
  let v := sip_rounds v d in
  let tag := sip_tag v in
  if size =? 16 then
    let v := Sip (v0 v) (Z.lxor (v1 v) 0xdd) (v2 v) (v3 v) in
    tag ++ sip_tag (sip_rounds v d)
  else tag.

Definition hash_siphash `{LuaStrings, LuaIntegers} (key data c d size : lua_value) : answer bytes :=
  match lua_tolstring key, lua_tolstring data with
  | Some key, Some data =>
      match cosmic_optint c 2, cosmic_optint d 4, cosmic_optint size 8 with
      | inr why, _, _ => Raises why
      | _, inr why, _ => Raises why
      | _, _, inr why => Raises why
      | inl c, inl d, inl size =>
          if negb (Z.of_nat (length key) =? 16) then Raises (lit "the key must be 16 bytes")
          else if (c <? 1) || (64 <? c) then Raises (lit "compression rounds must be 1 to 64")
          else if (d <? 1) || (64 <? d) then Raises (lit "finalization rounds must be 1 to 64")
          else if negb ((size =? 8) || (size =? 16)) then Raises (lit "the tag must be 8 or 16 bytes")
          else Answers (siphash key data c d size)
      end
  | _, _ => Raises (lit "string expected")
  end.

(** * What hashers promise

    A hasher answers the digest of all it was given, once; two strings are
    equal when their differences gather to nothing; the sum of bytes. *)

(** ** Hashers *)

Section hashers.
Context `{PsaLaws digest} `{LuaStringsLaws}.

(** What is done with a hasher. *)
Inductive call := Update (data : bytes) | Digest | Close.

(** What a call answers: nothing, the digest, or a failure. *)
Definition call_hasher (h : hasher) (c : call) : hasher * answer bytes :=
  match c with
  | Update data =>
      match hasher_update h (LString data) with
      | (h, Answers _) => (h, Answers [])
      | (h, Refuses m) => (h, Refuses m)
      | (h, Raises m) => (h, Raises m)
      end
  | Digest => hasher_digest h
  | Close => (hasher_gc h, Answers [])
  end.

Fixpoint call_all (h : hasher) (calls : list call) : list (answer bytes) :=
  match calls with
  | [] => []
  | c :: calls => let '(h, a) := call_hasher h c in a :: call_all h calls
  end.

(** What a hasher of the function [f] is to answer: [data] is what it was
    given so far, until it is finished. *)
Fixpoint answers_of (f : bytes → bytes) (data : option bytes) (calls : list call) (answers : list (answer bytes)) : Prop :=
  match calls, answers with
  | [], [] => True
  | Close :: calls, a :: answers => a = Answers [] ∧ answers_of f None calls answers
  | Update more :: calls, a :: answers =>
      match data with
      | None => a = Raises is_finished ∧ answers_of f None calls answers
      | Some data =>
          (a = Answers [] ∧ answers_of f (Some (data ++ more)) calls answers) ∨
          (a = Raises hasher_failed ∧ answers_of f None calls answers)
      end
  | Digest :: calls, a :: answers =>
      match data with
      | None => a = Raises is_finished ∧ answers_of f None calls answers
      | Some data => (a = Answers (f data) ∨ a = Refuses no_finish) ∧ answers_of f None calls answers
      end
  | _, _ => False
  end.

(** A hasher that holds [data], or is finished. *)
Definition holds (keyed : option bytes) (alg : Z) (h : hasher) (data : option bytes) : Prop :=
  match data with
  | None => h_finished h = true
  | Some data =>
      h_finished h = false ∧
      match keyed, h_operation h with
      | None, Hashing hash => hash_holds hash alg data
      | Some key, Keyed mac => mac_holds mac alg key data
      | _, _ => False
      end
  end.

Definition function_of (keyed : option bytes) (alg : Z) : bytes → bytes :=
  match keyed with
  | None => digest alg
  | Some key => padded_hmac (digest alg) (PSA_HASH_BLOCK_LENGTH alg) key
  end.

Lemma finished_answers keyed alg f h calls :
  holds keyed alg h None → answers_of f None calls (call_all h calls).
Proof.
  simpl. revert h. induction calls as [|[more| |] calls IH]; intros h Hf; simpl; [done|..].
  - unfold hasher_update. rewrite Hf. split; [done|]. by apply IH.
  - unfold hasher_digest. rewrite Hf. split; [done|]. by apply IH.
  - unfold hasher_gc. rewrite Hf. split; [done|]. by apply IH.
Qed.

Lemma holds_answers keyed alg h data calls :
  holds keyed alg h (Some data) → answers_of (function_of keyed alg) (Some data) calls (call_all h calls).
Proof.
  revert h data. induction calls as [|[more| |] calls IH]; intros h data [Hf Hop]; cbn [call_all call_hasher]; [done|..].
  - unfold hasher_update. rewrite Hf, tolstring_string.
    destruct keyed as [key|], (h_operation h) as [op|op]; try done.
    + destruct (psa_mac_update op more) as [rc op'] eqn:E. destruct (Z.eqb_spec rc PSA_SUCCESS) as [->|]; simpl.
      * left. split; [done|]. apply IH. split; [done|]. by eapply mac_update_holds.
      * right. split; [done|]. by apply (finished_answers None 0).
    + destruct (psa_hash_update op more) as [rc op'] eqn:E. destruct (Z.eqb_spec rc PSA_SUCCESS) as [->|]; simpl.
      * left. split; [done|]. apply IH. split; [done|]. by eapply update_holds.
      * right. split; [done|]. by apply (finished_answers None 0).
  - unfold hasher_digest. rewrite Hf.
    destruct keyed as [key|], (h_operation h) as [op|op]; try done.
    + destruct (psa_mac_sign_finish op) as [[rc out] op'] eqn:E. destruct (Z.eqb_spec rc PSA_SUCCESS) as [->|]; simpl.
      * split; [left|by apply (finished_answers None 0)]. f_equal. by eapply mac_finish_hmac.
      * split; [by right|by apply (finished_answers None 0)].
    + destruct (psa_hash_finish op) as [[rc out] op'] eqn:E. destruct (Z.eqb_spec rc PSA_SUCCESS) as [->|]; simpl.
      * split; [left|by apply (finished_answers None 0)]. f_equal. by eapply finish_digest.
      * split; [by right|by apply (finished_answers None 0)].
  - simpl. split; [done|]. unfold hasher_gc. rewrite Hf. by apply (finished_answers None 0).
Qed.

Lemma answers_of_ext f g data calls answers :
  (∀ d, f d = g d) → answers_of f data calls answers → answers_of g data calls answers.
Proof.
  intros Hfg. revert data answers. induction calls as [|[more| |] calls IH]; intros data [|a answers]; simpl; try done.
  - destruct data; [|by intros [? ?%IH]]. intros [[? ?%IH]|[? ?%IH]]; [by left|by right].
  - destruct data; [|by intros [? ?%IH]]. rewrite Hfg. by intros [? ?%IH].
  - by intros [? ?%IH].
Qed.

(** C14: a hasher, whatever is done with it and in whatever order, answers as
    the digest named of all the data it was given, or as RFC 2104's HMAC of
    it under the key it was made with: once, each call after that, after a
    failure or after it was closed raising that it is finished. *)
Theorem hashers_digest name key keys calls :
  let alg := cosmic_hash_algorithm name in
  (∀ h, hash_hasher (LString name) = Answers h → answers_of (digest alg) (Some []) calls (call_all h calls)) ∧
  (∀ keys' h, hash_hmac_hasher keys (LString name) (LString key) = (keys', Answers h) →
     answers_of (rfc2104 (digest alg) (PSA_HASH_BLOCK_LENGTH alg) key) (Some []) calls (call_all h calls) ∧
     ∀ i, key_held keys' i = key_held keys i).
Proof.
  intros alg. split.
  - intros h. unfold hash_hasher. rewrite tolstring_string. fold alg. destruct (_ =? _); [done|]. simpl.
    destruct (psa_hash_setup _ _) as [rc op] eqn:E. unfold started.
    destruct (Z.eqb_spec rc PSA_SUCCESS) as [->|]; [|done]. intros [= <-].
    apply (holds_answers None alg). split; [done|]. by apply setup_holds.
  - intros keys' h. unfold hash_hmac_hasher. rewrite !tolstring_string. fold alg.
    destruct (Z.eqb_spec alg PSA_ALG_NONE) as [|Halg]; [done|]. simpl.
    destruct (cosmic_hmac_setup keys PSA_MAC_OPERATION_INIT alg key) as [k [rc op]] eqn:E. unfold started.
    destruct (Z.eqb_spec rc PSA_SUCCESS) as [->|]; [|done]. intros [= <- <-]. split; [|by eapply hmac_setup_keys].
    eapply (answers_of_ext (function_of (Some (imported_key alg key)) alg)).
    { intros d. by apply imported_key_hmac. }
    apply holds_answers. split; [done|]. simpl. by eapply hmac_setup_holds.
Qed.

End hashers.

(** ** Bytes *)

Lemma difference_zero a b d :
  length a = length b → all_bytes a → all_bytes b → 0 ≤ d < 256 →
  difference a b d = 0 ↔ d = 0 ∧ a = b.
Proof.
  intros Hl Ha. revert b d Hl. induction Ha as [|x a Hx Ha IH]; intros [|y b] d Hl Hb Hd; simpl; try done.
  { split; [by intros ->|by intros [-> _]]. }
  apply Forall_cons in Hb as [Hy Hb].
  assert (0 ≤ Z.lxor x y < 256) as Hxy by (by apply lxor_byte). assert (0 ≤ Z.lor d (Z.lxor x y) < 256) as Hor by (by apply lor_byte).
  unfold u8. rewrite Z.mod_small by done. rewrite IH by (done || by injection Hl).
  rewrite Z.lor_eq_0_iff, Z.lxor_eq_0_iff. split; [by intros [[-> ->] ->]|by intros [-> [= -> ->]]].
Qed.

Theorem hash_equal_equality `{Psa} a b :
  all_bytes a → all_bytes b → hash_equal (LString a) (LString b) = Answers (bool_decide (a = b)).
Proof.
  intros Ha Hb. unfold hash_equal. destruct (decide (length a = length b)) as [Hl|Hl].
  - rewrite bool_decide_eq_false_2 by tauto. f_equal. apply eq_bool_prop_intro.
    rewrite !Is_true_true, Z.eqb_eq, bool_decide_eq_true, difference_zero by done. tauto.
  - rewrite bool_decide_eq_true_2 by done. by rewrite bool_decide_eq_false_2 by (by intros ->).
Qed.

Definition sum_of (data : bytes) : Z := foldr Z.add 0 data.

Lemma sum_of_bounds data : all_bytes data → 0 ≤ sum_of data ≤ 255 * Z.of_nat (length data).
Proof. unfold sum_of, is_byte. induction 1; simpl; lia. Qed.

Lemma sum_loop_sums count first data sum :
  all_bytes data → Z.of_nat (length data) < 2 ^ 55 → 1 ≤ first → first + Z.of_nat count ≤ Z.of_nat (length data) + 1 →
  0 ≤ sum ≤ 255 * (first - 1) →
  sum_loop count first data sum = sum + sum_of (ReadAt.slice data (first - 1) (Z.of_nat count)).
Proof.
  intros Hb Hlen. revert first sum. induction count as [|count IH]; intros first sum Hf Hend Hsum; simpl; [lia|].
  destruct (lookup_lt_is_Some_2 data (Z.to_nat (first - 1))) as [x Hx]; [lia|]. rewrite Hx. simpl.
  pose proof (proj1 (Forall_lookup _ _) Hb _ _ Hx) as Hxb. unfold is_byte in Hxb.
  assert (s64 (sum + x) = sum + x) as ->.
  { unfold s64, u64. rewrite Z.mod_small by lia. zcases; lia. }
  rewrite IH by lia. unfold ReadAt.slice. rewrite (drop_S data x (Z.to_nat (first - 1))) by done.
  replace (Z.to_nat (Z.of_nat (S count))) with (S count) by lia. simpl.
  replace (Z.to_nat (first + 1 - 1)) with (S (Z.to_nat (first - 1))) by lia.
  rewrite Nat2Z.id. unfold sum_of. simpl. lia.
Qed.

Theorem byte_sum_sums `{LuaStringsLaws} `{LuaIntegersLaws} data first last_ :
  all_bytes data → Z.of_nat (length data) < 2 ^ 55 →
  hash_byte_sum (LString data) (LInt first) (LInt last_)
  = if first <? 1 then Raises (lit "first must be at least 1")
    else if (last_ <? 0) || (Z.of_nat (length data) <? last_) then Raises (lit "last must be within the string")
    else if last_ + 1 <? first then Raises (lit "first is past last")
    else Answers (sum_of (ReadAt.slice data (first - 1) (last_ + 1 - first))).
Proof.
  intros Hb Hlen. unfold hash_byte_sum, opt_integer. rewrite tolstring_string.
  rewrite !decide_False by done. rewrite !tointeger_int.
  destruct (Z.ltb_spec first 1); [done|]. destruct (_ || _) eqn:E; [done|].
  apply orb_false_iff in E as [E1%Z.ltb_ge E2%Z.ltb_ge].
  destruct (Z.ltb_spec (last_ + 1) first); [done|]. f_equal.
  rewrite sum_loop_sums by (done || lia). by rewrite Z2Nat.id by lia.
Qed.

Import Plain.
Import Sums.

Lemma hashers_digest_witness :
  ∃ h, hash_hasher (LString (lit "sha256")) = Answers h ∧
    call_all h [Update [1; 2]; Update [3]; Digest; Digest]
    = [Answers []; Answers []; Answers (Sums.digest PSA_ALG_SHA_256 [1; 2; 3]); Raises is_finished] ∧
    answers_of (Sums.digest PSA_ALG_SHA_256) (Some []) [Update [1; 2]; Update [3]; Digest; Digest]
      (call_all h [Update [1; 2]; Update [3]; Digest; Digest]).
Proof.
  eexists. split; [reflexivity|]. split; [by vm_compute|].
  by apply (proj1 (hashers_digest (lit "sha256") [] Sums.no_keys [Update [1; 2]; Update [3]; Digest; Digest])).
Defined.
