(* ===== verification/HashSip.v ===== *)
(** * SipHash

    The function of Aumasson and Bernstein's paper, with the longer tag of
    their reference implementation, and that [hash_siphash] is it. *)

From S2P Require Import Prelude.
From S2P Require Import Lua.
From S2P Require Import Hash.

Local Open Scope Z_scope.

(** ** The function *)

(** The number a word's bytes are, the least first, and its bytes. *)
Definition le (bs : bytes) : Z := foldr (λ b x, b + 256 * x) 0 bs.

Fixpoint le_bytes (count : nat) (x : Z) : bytes :=
  match count with O => [] | S count => x mod 256 :: le_bytes count (x / 256) end.

Definition add64 (x y : Z) : Z := u64 (x + y).
Definition rotate (x b : Z) : Z := (x * 2 ^ b) mod 2 ^ 64 + x / 2 ^ (64 - b).

(** The paper's figure: two half rounds, each of two columns. *)
Definition SipRound (v : sip) : sip :=
  let '(Sip a b c d) := v in
  let '(a, c) := (add64 a b, add64 c d) in
  let '(b, d) := (Z.lxor (rotate b 13) a, Z.lxor (rotate d 16) c) in
  let a := rotate a 32 in
  let '(c, a) := (add64 c b, add64 a d) in
  let '(b, d) := (Z.lxor (rotate b 17) c, Z.lxor (rotate d 21) a) in
  let c := rotate c 32 in
  Sip a b c d.

(** The words of a message: it is padded with zeros and its length to a
    multiple of eight bytes. *)
Definition padded_message (data : bytes) : bytes :=
  data ++ replicate (7 - length data `mod` 8) 0 ++ [Z.of_nat (length data) mod 256].

Fixpoint words (count : nat) (bs : bytes) : list Z :=
  match count with O => [] | S count => le (take 8 bs) :: words count (drop 8 bs) end.

Definition rounds (n : Z) (v : sip) : sip := Nat.iter (Z.to_nat n) SipRound v.

Definition compress (c : Z) (v : sip) (m : Z) : sip :=
  let '(Sip a b e d) := rounds c (Sip (v0 v) (v1 v) (v2 v) (Z.lxor (v3 v) m)) in Sip (Z.lxor a m) b e d.

Definition tag_word (v : sip) : Z := Z.lxor (Z.lxor (Z.lxor (v0 v) (v1 v)) (v2 v)) (v3 v).

Definition SipHash (c d : Z) (long : bool) (key data : bytes) : bytes :=
  let k0 := le (take 8 key) in
  let k1 := le (drop 8 key) in
  let v := Sip (Z.lxor k0 0x736f6d6570736575)
               (Z.lxor (Z.lxor k1 0x646f72616e646f6d) (if long then 0xee else 0))
               (Z.lxor k0 0x6c7967656e657261) (Z.lxor k1 0x7465646279746573) in
  let v := foldl (compress c) v (words (S (length data `div` 8)) (padded_message data)) in
  let v := rounds d (Sip (v0 v) (v1 v) (Z.lxor (v2 v) (if long then 0xee else 0xff)) (v3 v)) in
  le_bytes 8 (tag_word v) ++
  (if long then le_bytes 8 (tag_word (rounds d (Sip (v0 v) (Z.lxor (v1 v) 0xdd) (v2 v) (v3 v)))) else []).

(** ** Words *)

Abbreviation is_word x := (0 ≤ x < 2 ^ 64).

Lemma le_app a b : le (a ++ b) = le a + 256 ^ Z.of_nat (length a) * le b.
Proof.
  unfold le. induction a as [|x a IH]; cbn [app foldr length]; [lia|].
  rewrite IH, Nat2Z.inj_succ, Z.pow_succ_r by lia. lia.
Qed.

Lemma le_bounds bs : all_bytes bs → 0 ≤ le bs < 256 ^ Z.of_nat (length bs).
Proof.
  unfold le, is_byte. induction 1 as [|x bs Hx Hbs IH]; cbn [foldr length]; [done|].
  rewrite Nat2Z.inj_succ, Z.pow_succ_r by lia. lia.
Qed.

Lemma le_zeros n : le (replicate n 0) = 0.
Proof. unfold le. induction n as [|n IH]; cbn [replicate foldr]; lia. Qed.

Lemma le_word bs : all_bytes bs → (length bs ≤ 8)%nat → is_word (le bs).
Proof.
  intros Hb Hl. pose proof (le_bounds bs Hb).
  assert (256 ^ Z.of_nat (length bs) ≤ 256 ^ 8) by (apply Z.pow_le_mono_r; lia). lia.
Qed.

Lemma load_le64_le p : all_bytes p → load_le64 p = le (take 8 p).
Proof.
  intros Hp. unfold load_le64.
  assert (∀ bs, all_bytes bs → (length bs ≤ 8)%nat →
    foldr (λ b x, Z.lor (u64 (Z.shiftl x 8)) b) 0 bs = le bs) as Hgen.
  { induction 1 as [|b bs Hb Hbs IH]; cbn [foldr length]; intros Hl; [done|].
    rewrite IH by lia. pose proof (le_bounds bs Hbs) as Hle.
    assert (256 ^ Z.of_nat (length bs) ≤ 256 ^ 7) by (apply Z.pow_le_mono_r; lia).
    unfold u64. rewrite Z.shiftl_mul_pow2, Z.mod_small by lia. rewrite (lor_add _ _ 8) by (unfold is_byte in *; lia).
    change (le (b :: bs)) with (b + 256 * le bs). lia. }
  apply Hgen; [by apply Forall_take|]. rewrite length_take. lia.
Qed.

Lemma store_le64_le x : store_le64 x = le_bytes 8 x.
Proof.
  unfold store_le64. generalize 8%nat. intros n. revert x. induction n as [|n IH]; intros x; simpl; [done|].
  rewrite IH, Z.shiftr_div_pow2 by lia. f_equal. by apply (land_low _ 8).
Qed.

Lemma rotl64_rotate x b : is_word x → 0 < b < 64 → rotl64 x b = rotate x b.
Proof.
  intros Hx Hb. unfold rotl64, rotate, u64. rewrite Z.shiftl_mul_pow2, Z.shiftr_div_pow2 by lia.
  replace (2 ^ 64) with (2 ^ (64 - b) * 2 ^ b) by (rewrite <-Z.pow_add_r by lia; f_equal; lia).
  rewrite Z.mul_mod_distr_r by lia. apply lor_add; [lia|].
  split; [apply Z.div_pos; lia|]. apply Z.div_lt_upper_bound; [lia|].
  rewrite <-Z.pow_add_r by lia. replace (64 - b + b) with 64 by lia. lia.
Qed.

Lemma rotl64_word x b : is_word x → 0 < b < 64 → is_word (rotl64 x b).
Proof.
  intros Hx Hb. unfold rotl64. apply below_lor; [lia| |].
  - apply Z.mod_pos_bound. lia.
  - rewrite Z.shiftr_div_pow2 by lia. split; [apply Z.div_pos; lia|].
    apply Z.div_lt_upper_bound; [lia|]. assert (2 ^ 1 ≤ 2 ^ (64 - b)) by (apply Z.pow_le_mono_r; lia). nia.
Qed.

Lemma rotate_word x b : is_word x → 0 < b < 64 → is_word (rotate x b).
Proof. intros. rewrite <-rotl64_rotate by done. by apply rotl64_word. Qed.

Lemma lxor_word x y : is_word x → is_word y → is_word (Z.lxor x y).
Proof. by apply below_lxor. Qed.

Lemma add64_word x y : is_word (add64 x y).
Proof. by apply Z.mod_pos_bound. Qed.

Create HintDb word.
#[export] Hint Resolve add64_word lxor_word : word.
#[export] Hint Extern 2 (0 ≤ rotl64 _ _ < _) => apply rotl64_word; [|lia] : word.
#[export] Hint Extern 2 (0 ≤ rotate _ _ < _) => apply rotate_word; [|lia] : word.
#[export] Hint Extern 3 (0 ≤ _ < _) => lia : word.
#[export] Hint Extern 3 (0 < _ < _) => lia : word.

Record sip_ok (v : sip) : Prop := {
  ok_v0 : is_word (v0 v); ok_v1 : is_word (v1 v); ok_v2 : is_word (v2 v); ok_v3 : is_word (v3 v) }.

#[export] Hint Resolve ok_v0 ok_v1 ok_v2 ok_v3 : word.

(** ** The code is the function *)

Lemma sip_round_ok v : sip_ok v → sip_ok (sip_round v).
Proof.
  destruct v as [a b c d]. intros [? ? ? ?]; simpl in *. unfold sip_round.
  repeat change (u64 (?x + ?y)) with (add64 x y). constructor; simpl; auto 9 with word.
Qed.

Lemma sip_round_reference v : sip_ok v → sip_round v = SipRound v.
Proof.
  destruct v as [a b c d]. intros [? ? ? ?]; simpl in *. unfold sip_round, SipRound.
  repeat change (u64 (?x + ?y)) with (add64 x y). rewrite !rotl64_rotate by auto 9 with word. done.
Qed.

Lemma sip_rounds_reference v n : sip_ok v → sip_rounds v n = rounds n v ∧ sip_ok (sip_rounds v n).
Proof.
  intros Hv. unfold sip_rounds, rounds. induction (Z.to_nat n) as [|k [IH1 IH2]]; [done|]. simpl.
  split; [|by apply sip_round_ok]. by rewrite sip_round_reference, IH1.
Qed.

Lemma mix_reference c v m : sip_ok v → is_word m → mix c v m = compress c v m ∧ sip_ok (mix c v m).
Proof.
  intros Hv Hm. unfold mix, compress.
  destruct (sip_rounds_reference (Sip (v0 v) (v1 v) (v2 v) (Z.lxor (v3 v) m)) c) as [Heq Hok].
  { constructor; simpl; auto with word. }
  rewrite <-Heq. destruct (sip_rounds _ _) as [a b e d]. destruct Hok. simpl in *. split; [done|].
  constructor; simpl; auto with word.
Qed.

(** The bytes left, gathered above the [i] there are and under the length. *)
Lemma last_word_le i high low rest :
  0 ≤ i → i + Z.of_nat (length rest) ≤ 7 → 0 ≤ low < 2 ^ (8 * i) → all_bytes rest →
  last_word i (high * 2 ^ 56 + low) rest = high * 2 ^ 56 + low + 2 ^ (8 * i) * le rest.
Proof.
  intros Hi Hl Hlow Hrest. revert i Hi low Hl Hlow. induction Hrest as [|x rest Hx Hrest IH]; intros i Hi low Hl Hlow.
  { unfold le. simpl. lia. }
  cbn [last_word length] in *. unfold is_byte in Hx. rewrite Z.shiftl_mul_pow2 by lia.
  assert (Z.lor (high * 2 ^ 56 + low) (x * 2 ^ (8 * i)) = high * 2 ^ 56 + (low + x * 2 ^ (8 * i))) as ->.
  { replace (high * 2 ^ 56) with (high * 2 ^ (56 - 8 * i - 8) * 2 ^ 8 * 2 ^ (8 * i)).
    2: { rewrite <-!Z.mul_assoc. f_equal. rewrite <-!Z.pow_add_r by lia. f_equal. lia. }
    rewrite <-(lor_add _ low (8 * i)) by lia. rewrite <-Z.lor_assoc, (Z.lor_comm low), Z.lor_assoc.
    rewrite <-!Z.shiftl_mul_pow2 by lia. rewrite <-Z.shiftl_lor. rewrite !Z.shiftl_mul_pow2 by lia.
    rewrite (lor_add _ x 8) by lia. rewrite (lor_add _ low) by lia. lia. }
  rewrite IH.
  - rewrite Z.mul_add_distr_l, Z.pow_add_r by lia. unfold le. cbn [foldr]. lia.
  - lia.
  - lia.
  - rewrite Z.mul_add_distr_l, Z.pow_add_r by lia. nia.
Qed.

Lemma last_word_padded (data rest : bytes) :
  all_bytes rest → Z.of_nat (length rest) = Z.of_nat (length data) mod 8 →
  last_word 0 (u64 (Z.shiftl (Z.of_nat (length data)) 56)) rest
  = le (rest ++ replicate (7 - length rest) 0 ++ [Z.of_nat (length data) mod 256]).
Proof.
  intros Hb Hl. set (len := Z.of_nat (length data)) in *. pose proof (Z.mod_pos_bound len 8 ltac:(lia)).
  rewrite Z.shiftl_mul_pow2 by lia. unfold u64. change (2 ^ 64) with (2 ^ 8 * 2 ^ 56).
  rewrite Z.mul_mod_distr_r by lia. rewrite <-(Z.add_0_r (_ * _)).
  rewrite last_word_le by (done || lia). rewrite le_app, le_app, le_zeros, length_replicate.
  change (2 ^ (8 * 0)) with 1. change (2 ^ 8) with 256. change 256 with (2 ^ 8) at 2 3.
  rewrite <-!Z.pow_mul_r by lia. change (le [len mod 256]) with (len mod 256 + 256 * 0).
  rewrite Z.add_0_l, Z.mul_assoc, <-Z.pow_add_r by lia.
  replace (8 * Z.of_nat (length rest) + 8 * Z.of_nat (7 - length rest)) with 56 by lia. lia.
Qed.

Lemma sip_words_reference count c v data :
  sip_ok v → all_bytes data →
  sip_words count c v data = foldl (compress c) v (words count data) ∧ sip_ok (sip_words count c v data).
Proof.
  revert v data. induction count as [|count IH]; intros v data Hv Hb; [done|]. cbn [sip_words words foldl].
  rewrite load_le64_le by done.
  destruct (mix_reference c v (le (take 8 data)) Hv) as [Heq Hok].
  { apply le_word; [by apply Forall_take|rewrite length_take; lia]. }
  rewrite <-Heq. apply IH; [done|by apply Forall_drop].
Qed.

Lemma words_last count data pad :
  (8 * count ≤ length data)%nat → (length data + length pad = 8 * S count)%nat →
  words (S count) (data ++ pad) = words count data ++ [le (drop (8 * count) data ++ pad)].
Proof.
  revert data. induction count as [|count IH]; intros data Hc Hp.
  - cbn [words app]. rewrite Nat.mul_0_r, drop_0, take_ge; [done|]. rewrite length_app. lia.
  - replace (words (S (S count)) (data ++ pad))
      with (le (take 8 (data ++ pad)) :: words (S count) (drop 8 (data ++ pad))) by done.
    rewrite take_app_le, drop_app_le by lia. rewrite IH by (rewrite length_drop; lia).
    cbn [words]. rewrite drop_drop. by replace (8 * S count)%nat with (8 + 8 * count)%nat by lia.
Qed.

(** The loops over the words and over the bytes left take in the message's
    words. *)
Lemma sip_message c v data :
  sip_ok v → all_bytes data →
  let len := Z.of_nat (length data) in
  let whole := len - len mod 8 in
  let v' := mix c (sip_words (Z.to_nat (whole / 8)) c v data)
              (last_word 0 (u64 (Z.shiftl len 56)) (drop (Z.to_nat whole) data)) in
  v' = foldl (compress c) v (words (S (length data `div` 8)) (padded_message data)) ∧ sip_ok v'.
Proof.
  intros Hv Hb len whole. set (n := (length data `div` 8)%nat).
  pose proof (Nat.div_mod_eq (length data) 8) as Hdiv. fold n in Hdiv.
  pose proof (Nat.mod_upper_bound (length data) 8 ltac:(lia)) as Hmod.
  assert (len mod 8 = Z.of_nat (length data `mod` 8)) as Hrest by (unfold len; by rewrite Nat2Z.inj_mod).
  assert (whole = 8 * Z.of_nat n) as Hwhole by (unfold whole, len in *; lia).
  replace (Z.to_nat (whole / 8)) with n by (rewrite Hwhole, Z.mul_comm, Z.div_mul; lia).
  replace (Z.to_nat whole) with (8 * n)%nat by lia.
  assert (length (drop (8 * n) data) = length data `mod` 8)%nat as Hlen by (rewrite length_drop; lia).
  pose proof (Forall_drop _ (8 * n) _ Hb) as Hbr.
  assert (padded_message data = data ++ (replicate (7 - length (drop (8 * n) data)) 0 ++ [len mod 256])) as ->.
  { unfold padded_message. by rewrite Hlen. }
  destruct (sip_words_reference n c v data Hv Hb) as [Hw Hok].
  pose proof (last_word_padded data (drop (8 * n) data) Hbr) as Hlast. fold len in Hlast.
  rewrite Hlast by (by rewrite Hlen).
  rewrite words_last by (rewrite ?length_app, ?length_replicate, ?Hlen; simpl; lia).
  rewrite foldl_app, <-Hw. cbn [foldl].
  apply mix_reference; [done|]. apply le_word.
  - apply Forall_app. split; [done|]. apply Forall_app. split; [by apply Forall_replicate|].
    constructor; [by apply Z.mod_pos_bound|constructor].
  - rewrite !length_app, length_replicate, Hlen. simpl. lia.
Qed.

Lemma siphash_is_reference c d size key data :
  all_bytes key → all_bytes data → Z.of_nat (length key) = 16 →
  siphash key data c d size = SipHash c d (size =? 16) key data.
Proof.
  intros Hk Hdata Hlen. unfold siphash, SipHash.
  rewrite !load_le64_le by (by try apply Forall_drop). rewrite (take_ge (drop 8 key)) by (rewrite length_drop; lia).
  set (k0 := le (take 8 key)). set (k1 := le (drop 8 key)).
  assert (is_word k0) as Hk0 by (apply le_word; [by apply Forall_take|rewrite length_take; lia]).
  assert (is_word k1) as Hk1 by (apply le_word; [by apply Forall_drop|rewrite length_drop; lia]).
  set (v := if size =? 16 then Sip _ _ _ _ else Sip _ _ _ _).
  set (w := Sip _ (Z.lxor (Z.lxor k1 _) _) _ _).
  assert (v = w) as Hvw by (unfold v, w; destruct (size =? 16); simpl; by rewrite ?Z.lxor_0_r).
  assert (sip_ok v) as Hv.
  { rewrite Hvw. unfold w. constructor; simpl; [auto with word| |auto with word..].
    destruct (size =? 16); auto with word. }
  destruct (sip_message c v data Hv Hdata) as [Hm Hok]. rewrite Hvw in Hm at 2. cbv zeta in Hm, Hok |- *.
  rewrite <-Hm. set (u := mix c _ _) in *. clear Hm.
  destruct (sip_rounds_reference (Sip (v0 u) (v1 u) (Z.lxor (v2 u) (if size =? 16 then 0xee else 0xff)) (v3 u)) d) as [Hr Hro].
  { destruct Hok. constructor; simpl; auto with word. destruct (size =? 16); auto with word. }
  rewrite <-Hr. set (t := sip_rounds _ d) in *. unfold sip_tag. rewrite !store_le64_le. fold (tag_word t).
  destruct (size =? 16); [|by rewrite app_nil_r]. f_equal. f_equal.
  destruct (sip_rounds_reference (Sip (v0 t) (Z.lxor (v1 t) 0xdd) (v2 t) (v3 t)) d) as [Hr2 _].
  { destruct Hro. constructor; simpl; auto with word. }
  by rewrite <-Hr2.
Qed.

(** C15: [siphash] computes SipHash-c-d of the paper and, of 16 bytes, of its
    reference implementation, for every key of 16 bytes, data and numbers of
    rounds it takes, and raises for every other. *)
Theorem siphash_reference `{LuaStringsLaws} `{LuaIntegersLaws} key data c d size :
  all_bytes key → all_bytes data →
  - 2 ^ 31 ≤ c < 2 ^ 31 → - 2 ^ 31 ≤ d < 2 ^ 31 → - 2 ^ 31 ≤ size < 2 ^ 31 →
  let asked := Z.of_nat (length key) = 16 ∧ 1 ≤ c ≤ 64 ∧ 1 ≤ d ≤ 64 ∧ (size = 8 ∨ size = 16) in
  let tag := hash_siphash (LString key) (LString data) (LInt c) (LInt d) (LInt size) in
  (asked → tag = Answers (SipHash c d (size =? 16) key data)) ∧
  (¬ asked → ∃ why, tag = Raises why).
Proof.
  intros Hk Hdata Hc Hd Hs asked tag. unfold tag, hash_siphash, cosmic_optint. clear tag.
  rewrite !tolstring_string. rewrite !decide_False by done. rewrite !tointeger_int.
  rewrite !(proj2 (Z.leb_le _ _)) by lia. cbn [andb].
  destruct (Z.eqb_spec (Z.of_nat (length key)) 16) as [Hlen|Hlen]; cbn [negb].
  2: { split; [by intros [? _]|by eauto]. }
  destruct ((c <? 1) || (64 <? c)) eqn:Ec.
  { split; [|by eauto]. intros (_ & Hc' & _). zcases_in Ec; simpl in Ec; lia. }
  destruct ((d <? 1) || (64 <? d)) eqn:Ed.
  { split; [|by eauto]. intros (_ & _ & Hd' & _). zcases_in Ed; simpl in Ed; lia. }
  destruct (negb _) eqn:Es.
  { split; [|by eauto]. intros (_ & _ & _ & [-> | ->]); by simpl in Es. }
  split; [intros _|intros Hno; exfalso; apply Hno].
  - f_equal. by apply siphash_is_reference.
  - apply negb_false_iff in Es. zcases_in Ec; zcases_in Ed; zcases_in Es; simpl in *; try done; split_and!; lia.
Qed.

(** The test vector of the paper's appendix. *)
Example siphash_paper :
  siphash (seqZ 0 16) (seqZ 0 15) 2 4 8 = [0xe5; 0x45; 0xbe; 0x49; 0x61; 0xca; 0x29; 0xa1].
Proof. by vm_compute. Qed.

Import Plain.

Lemma siphash_reference_witness :
  hash_siphash (LString (seqZ 0 16)) (LString (seqZ 0 15)) (LInt 2) (LInt 4) (LInt 8)
  = Answers (SipHash 2 4 false (seqZ 0 16) (seqZ 0 15)) ∧
  SipHash 2 4 false (seqZ 0 16) (seqZ 0 15) = [0xe5; 0x45; 0xbe; 0x49; 0x61; 0xca; 0x29; 0xa1].
Proof.
  split; [|by vm_compute].
  apply (siphash_reference (seqZ 0 16) (seqZ 0 15) 2 4 8).
  1,2: by apply (bool_decide_unpack _).
  1,2,3: by vm_compute.
  split; [done|lia].
Defined.
