(* ===== verification/Rand.v ===== *)
(** * Random numbers: [core/rand.c]

    The generator of [cosmic/rand.tl] in C: xoshiro256** and the floats on
    [0, 1) drawn from it.  Its samplers of the normal and the gamma
    distribution, which are floating-point arithmetic over these, are left
    out. *)

From S2P Require Import Prelude.

Local Open Scope Z_scope.

(** ** The code *)

Definition rotl (x k : Z) : Z := Z.lor (u64 (Z.shiftl x k)) (Z.shiftr x (64 - k)).

(** [struct cosmic_rand]: the four words of the state. *)
Record cosmic_rand := Rand { s0 : Z; s1 : Z; s2 : Z; s3 : Z }.

Definition next64 (g : cosmic_rand) : Z * cosmic_rand :=
  let '(Rand s0 s1 s2 s3) := g in
  let result := u64 (rotl (u64 (s1 * 5)) 7 * 9) in
  let t := u64 (Z.shiftl s1 17) in
  let s2 := Z.lxor s2 s0 in
  let s3 := Z.lxor s3 s1 in
  let s1 := Z.lxor s1 s2 in
  let s0 := Z.lxor s0 s3 in
  let s2 := Z.lxor s2 t in
  let s3 := rotl s3 45 in
  (result, Rand s0 s1 s2 s3).

(** The float is [n] over 2^53, which a double holds for every [n] up to it:
    both the conversion and the product are exact. *)
Definition unit (g : cosmic_rand) : Z * cosmic_rand :=
  let '(x, g) := next64 g in (Z.shiftr x 11, g).

(** ** What it keeps *)

Abbreviation is_word x := (0 ≤ x < 2 ^ 64).

Record rand_ok (g : cosmic_rand) : Prop := {
  ok_s0 : is_word (s0 g); ok_s1 : is_word (s1 g); ok_s2 : is_word (s2 g); ok_s3 : is_word (s3 g) }.

(** The bits of a rotation and of a shift. *)
Lemma rotl_bits x k i :
  is_word x → 0 < k < 64 → 0 ≤ i < 64 →
  Z.testbit (rotl x k) i = if i <? k then Z.testbit x (i + 64 - k) else Z.testbit x (i - k).
Proof.
  intros Hx Hk Hi. unfold rotl, u64. rewrite Z.lor_spec, Z.mod_pow2_bits_low, Z.shiftl_spec, Z.shiftr_spec by lia.
  destruct (Z.ltb_spec i k).
  - rewrite Z.testbit_neg_r by lia. simpl. f_equal. lia.
  - rewrite (bits_above x 64 (i + (64 - k))) by lia. by rewrite orb_false_r.
Qed.

Lemma rotl_word x k : is_word x → 0 < k < 64 → is_word (rotl x k).
Proof.
  intros Hx Hk. unfold rotl. apply below_lor; [lia|by apply Z.mod_pos_bound|].
  rewrite Z.shiftr_div_pow2 by lia. split; [apply Z.div_pos; lia|].
  apply Z.div_lt_upper_bound; [lia|]. assert (2 ^ 1 ≤ 2 ^ (64 - k)) by (apply Z.pow_le_mono_r; lia). nia.
Qed.

Lemma rotl_back x k : is_word x → 0 < k < 64 → rotl (rotl x k) (64 - k) = x.
Proof.
  intros Hx Hk. pose proof (rotl_word x k Hx Hk). apply (word_bits 64); [lia|apply rotl_word; lia|done|].
  intros i Hi. rewrite rotl_bits by lia. destruct (Z.ltb_spec i (64 - k)).
  - rewrite rotl_bits by lia. rewrite (proj2 (Z.ltb_ge _ _)) by lia. f_equal. lia.
  - rewrite rotl_bits by lia. rewrite (proj2 (Z.ltb_lt _ _)) by lia. f_equal. lia.
Qed.

(** What [b ^ (b << 17)] is of. *)
Definition unshift (y : Z) : Z :=
  let sh k := u64 (Z.shiftl y k) in Z.lxor (Z.lxor y (sh 17)) (Z.lxor (sh 34) (sh 51)).

Lemma shl_word x k : is_word (u64 (Z.shiftl x k)).
Proof. by apply Z.mod_pos_bound. Qed.

Lemma shl_bits x k i : 0 ≤ k → 0 ≤ i < 64 → Z.testbit (u64 (Z.shiftl x k)) i = if i <? k then false else Z.testbit x (i - k).
Proof.
  intros Hk Hi. unfold u64. rewrite Z.mod_pow2_bits_low, Z.shiftl_spec by lia.
  destruct (Z.ltb_spec i k); [|done]. by rewrite Z.testbit_neg_r by lia.
Qed.

Lemma unshift_shift b : is_word b → unshift (Z.lxor b (u64 (Z.shiftl b 17))) = b.
Proof.
  intros Hb. unfold unshift. cbv zeta. set (y := Z.lxor b _).
  assert (is_word y) as Hy by (apply below_lxor; [lia|done|apply shl_word]).
  assert (∀ k, is_word (u64 (Z.shiftl y k))) as Hsh by (intros; apply shl_word).
  apply (word_bits 64); [lia| |done|].
  { apply below_lxor; [lia|apply below_lxor|apply below_lxor]; done || lia. }
  intros i Hi. rewrite !Z.lxor_spec, !shl_bits by lia. unfold y. rewrite !Z.lxor_spec.
  destruct (Z.ltb_spec i 17); [|destruct (Z.ltb_spec i 34); [|destruct (Z.ltb_spec i 51)]];
    ztest; cbv iota; rewrite !shl_bits by lia; ztest; cbv iota;
    rewrite <-?Z.sub_add_distr; change (17 + 17) with 34; change (34 + 17) with 51;
    repeat match goal with |- context [Z.testbit b ?j] => destruct (Z.testbit b j) end; done.
Qed.

(** The state before [next64], of the state after. *)
Definition previous (g : cosmic_rand) : cosmic_rand :=
  let e := rotl (s3 g) 19 in
  let a := Z.lxor (s0 g) e in
  let b := unshift (Z.lxor (s1 g) (s2 g)) in
  Rand a b (Z.lxor (Z.lxor (s1 g) b) a) (Z.lxor e b).

Lemma previous_next g : rand_ok g → previous (next64 g).2 = g.
Proof.
  destruct g as [a b c d]. intros [Ha Hb Hc Hd]. simpl in *. unfold previous. simpl.
  assert (is_word (Z.lxor d b)) as Hdb by (by apply below_lxor).
  rewrite (rotl_back _ 45) by (done || lia).
  assert (Z.lxor (Z.lxor b (Z.lxor c a)) (Z.lxor (Z.lxor c a) (u64 (Z.shiftl b 17))) = Z.lxor b (u64 (Z.shiftl b 17))) as ->.
  { zxor. }
  rewrite unshift_shift by done.
  assert (Z.lxor (Z.lxor a (Z.lxor d b)) (Z.lxor d b) = a) as ->.
  { zxor. }
  f_equal; zxor.
Qed.

Lemma next_ok g : rand_ok g → rand_ok (next64 g).2.
Proof.
  destruct g as [a b c d]. intros [Ha Hb Hc Hd]. simpl in *.
  assert (∀ x y, is_word x → is_word y → is_word (Z.lxor x y)) as Hx by (intros; by apply below_lxor).
  pose proof (shl_word b 17). constructor; simpl; auto 9. apply rotl_word; auto. lia.
Qed.

Definition rand_zero : cosmic_rand := Rand 0 0 0 0.

(** The states from [g] on. *)
Fixpoint state_after (n : nat) (g : cosmic_rand) : cosmic_rand :=
  match n with O => g | S n => state_after n (next64 g).2 end.

Lemma state_after_ok n g : rand_ok g → rand_ok (state_after n g).
Proof. revert g. induction n as [|n IH]; intros g Hg; simpl; [done|]. by apply IH, next_ok. Qed.

Lemma state_after_injective n g h : rand_ok g → rand_ok h → state_after n g = state_after n h → g = h.
Proof.
  revert g h. induction n as [|n IH]; intros g h Hg Hh; simpl; [done|]. intros Heq%IH; [|by apply next_ok..].
  by rewrite <-(previous_next g), Heq, previous_next.
Qed.

Lemma state_after_zero n : state_after n rand_zero = rand_zero.
Proof. induction n as [|n IH]; [done|]. simpl. change (next64 rand_zero).2 with rand_zero. done. Qed.

(** The words of the state stay words of 64 bits; no two states are led to
    one, after however many draws, so a generator that does not start at zero
    never comes to it, where it would answer zero for ever; and the float
    each draw is made of is the 53 high bits of its number, below one. *)
Theorem generator_never_degenerates n g h :
  rand_ok g → rand_ok h →
  rand_ok (state_after n g) ∧
  (state_after n g = state_after n h → g = h) ∧
  (g ≠ rand_zero → state_after n g ≠ rand_zero) ∧
  let k := (unit (state_after n g)).1 in
  k = (next64 (state_after n g)).1 / 2 ^ 11 ∧ 0 ≤ k < 2 ^ 53 ∧
  (unit (state_after n g)).2 = state_after (S n) g.
Proof.
  intros Hg Hh. split; [by apply state_after_ok|]. split; [by apply state_after_injective|]. split.
  - intros Hne Hz. apply Hne. apply (state_after_injective n); [done|by constructor|].
    by rewrite state_after_zero.
  - unfold unit. destruct (next64 (state_after n g)) as [x g'] eqn:E. simpl.
    assert (is_word x) as Hx.
    { destruct (state_after n g) as [a b c d]. injection E as <- <-. by apply Z.mod_pos_bound. }
    rewrite Z.shiftr_div_pow2 by lia. split; [done|]. split; [zdiv|].
    assert (∀ n g, (next64 (state_after n g)).2 = state_after n (next64 g).2) as Hcomm.
    { clear. induction n as [|n IH]; intros g; simpl; [done|]. apply IH. }
    rewrite <-Hcomm. by rewrite E.
Qed.

Lemma generator_never_degenerates_witness :
  rand_ok (Rand 1 2 3 4) ∧ state_after 100 (Rand 1 2 3 4) ≠ rand_zero ∧ (next64 (Rand 1 2 3 4)).1 = 11520.
Proof.
  assert (rand_ok (Rand 1 2 3 4)) as Hok by (by constructor).
  split; [exact Hok|]. split; [|by vm_compute].
  by apply (generator_never_degenerates 100 (Rand 1 2 3 4) (Rand 1 2 3 4) Hok Hok).
Defined.
