(* ===== verification/Vector.v ===== *)
(** * Vector search: [core/vector.c]

    The heap of a search's hits, the mask of the rows it may answer, the bits
    of its first pass and the search of a corpus. The floating-point keys the
    rows are ranked by are a parameter. *)

From S2P Require Import Prelude.
From S2P Require Import Lua.

Local Open Scope Z_scope.

(** ** Numbers and keys *)

Inductive storage := F32 | F16 | INT8.
Inductive metric := INNER_PRODUCT | COSINE | L2.

#[export] Instance storage_eq_dec : EqDecision storage.
Proof. solve_decision. Defined.

(** What floating-point arithmetic does for a corpus. A row of an [F32] corpus
    is its floats, one of another what [store_row] made of them. [row_key] is
    the key of a row for a query, [None] where it is not a number; doubles that
    are numbers are totally ordered, equal zeros together, which [key_rank]
    says. [score] is what a key is answered as. *)
Class Numbers := {
  float : Type;
  float_of : bytes → float;
  is_finite : float → bool;
  above_zero : float → bool;
  under_half_limit : float → bool;
  stored : Type;
  quantized_row : storage → list float → stored;
  key : Type;
  key_none : key;
  key_rank : key → Z;
  row_key : list float + stored → list float → metric → option key;
  score : metric → key → key }.

(** ** The heap *)

Section heap.
Context `{Numbers}.

Record hit := Hit { h_key : key; h_row : nat }.

#[export] Instance hit_inhabited : Inhabited hit := populate (Hit key_none 0).

Definition better (ids : list Z) (a b : hit) : bool :=
  if negb (key_rank (h_key a) =? key_rank (h_key b)) then key_rank (h_key b) <? key_rank (h_key a)
  else (ids !!! h_row a) <? (ids !!! h_row b).

(** The two items change places. *)
Definition swap (i j : nat) (items : list hit) : list hit :=
  <[j := items !!! i]> (<[i := items !!! j]> items).

(** The worst of an item and its two children. *)
Definition worst_of (ids : list Z) (items : list hit) (at_ : nat) : nat :=
  let l := (2 * at_ + 1)%nat in
  let r := S l in
  let worst := if bool_decide (l < length items)%nat && better ids (items !!! at_) (items !!! l) then l else at_ in
  if bool_decide (r < length items)%nat && better ids (items !!! worst) (items !!! r) then r else worst.

Fixpoint sift_loop (ids : list Z) (fuel : nat) (at_ : nat) (items : list hit) : list hit :=
  match fuel with
  | O => items
  | S fuel =>
      let worst := worst_of ids items at_ in
      if bool_decide (worst = at_) then items else sift_loop ids fuel worst (swap at_ worst items)
  end.

(** Each turn is one level further down. *)
Definition sift_down (ids : list Z) (at_ : nat) (items : list hit) : list hit := sift_loop ids (length items) at_ items.

(** The loop that lifts a new item. *)
Fixpoint lift_loop (ids : list Z) (fuel : nat) (at_ : nat) (items : list hit) : list hit :=
  match fuel, at_ with
  | S fuel, S below =>
      let parent := (below / 2)%nat in
      if better ids (items !!! parent) (items !!! at_) then lift_loop ids fuel parent (swap parent at_ items) else items
  | _, _ => items
  end.

Definition offer (ids : list Z) (limit : nat) (h : hit) (items : list hit) : list hit :=
  if bool_decide (length items < limit)%nat then lift_loop ids (length items) (length items) (items ++ [h])
  else if bool_decide (0 < limit)%nat && better ids h (items !!! 0%nat) then sift_down ids 0 (<[0%nat := h]> items)
  else items.

(** The loop that takes the worst hit off again and again, the answer being
    filled from its end. *)
Fixpoint pop_loop (ids : list Z) (n : nat) (items answer : list hit) : list hit :=
  match n with
  | O => answer
  | S n =>
      let worst := items !!! 0%nat in
      let items := take (length items - 1) (<[0%nat := items !!! (length items - 1)%nat]> items) in
      pop_loop ids n (sift_down ids 0 items) (worst :: answer)
  end.

End heap.

(** ** Bits *)

(** [__builtin_popcountll]. *)
Fixpoint popcount (n : nat) (x : Z) : Z :=
  match n with
  | O => 0
  | S n => Z.b2z (Z.odd x) + popcount n (Z.div2 x)
  end.
Definition popcount64 (x : Z) : Z := popcount 64 x.

(** [memcpy] into a [uint64_t], low byte first. *)
Definition load_word (bs : bytes) : Z := foldr (λ b v, b + 256 * v) 0 bs.

(** The two loops, a word at a time and then a byte, over what two bit
    vectors' bits make together. *)
Fixpoint count_words (fuel : nat) (op : Z → Z → Z) (a b : bytes) (total : Z) : Z * bytes * bytes :=
  match fuel with
  | O => (total, a, b)
  | S fuel =>
      if bool_decide (8 ≤ length a)%nat
      then count_words fuel op (drop 8 a) (drop 8 b) (total + popcount64 (op (load_word (take 8 a)) (load_word (take 8 b))))
      else (total, a, b)
  end.

Definition count_bits (op : Z → Z → Z) (a b : bytes) : Z :=
  let '(total, a, b) := count_words (S (length a)) op a b 0 in
  foldl (λ (total : Z) (p : Z * Z), total + popcount64 (op p.1 p.2)) total (zip a b).

Definition hamming (a b : bytes) : Z := count_bits Z.lxor a b.

(** The bits set in both, in either and in one of two vectors. *)
Definition bit_counts (a b : bytes) : Z * Z * Z :=
  (count_bits Z.land a b, count_bits Z.lor a b, count_bits Z.lxor a b).

(** The loop over the dimensions, of whether each number is above zero. *)
Definition sign_bits (above : list bool) : bytes :=
  let dims := length above in
  foldl (λ (bits : bytes) (i : nat),
      if (above !!! i : bool)
      then <[(i / 8)%nat := Z.lor (bits !!! (i / 8)%nat) (Z.shiftr 0x80 (Z.of_nat (i mod 8)))]> bits
      else bits)
    (replicate ((dims + 7) / 8) 0) (seq 0 dims).

Definition quantize `{Numbers} (v : list float) : bytes := sign_bits (above_zero <$> v).

(** ** The mask *)

Definition slot_of (id slots : Z) : Z :=
  Z.land (Z.shiftr (u64 (u64 id * 0x9E3779B97F4A7C15)) 20) (slots - 1).

(** The loop that doubles the slots. *)
Fixpoint slots_for (fuel : nat) (slots n : Z) : Z :=
  match fuel with
  | O => slots
  | S fuel => if slots <? 2 * n then slots_for fuel (slots * 2) n else slots
  end.

(** The loop from a slot to the id's or a free one. *)
Fixpoint probe (fuel : nat) (keys : list (option Z)) (id at_ : Z) : Z :=
  match fuel with
  | O => at_
  | S fuel =>
      match keys !!! Z.to_nat at_ with
      | Some k => if k =? id then at_ else probe fuel keys id (Z.land (at_ + 1) (Z.of_nat (length keys) - 1))
      | None => at_
      end
  end.

Definition find_slot (keys : list (option Z)) (id : Z) : Z :=
  probe (length keys) keys id (slot_of id (Z.of_nat (length keys))).

(** The loop over the allowed ids. *)
Fixpoint keys_loop `{LuaIntegers} (items : list lua_value) (keys : list (option Z)) : option (list (option Z)) :=
  match items with
  | [] => Some keys
  | item :: items =>
      id ← lua_tointegerx item;
      keys_loop items (<[Z.to_nat (find_slot keys id) := Some id]> keys)
  end.

(** The mask, or [None] where an entry is no integer. *)
Definition allow_mask `{LuaIntegers} (items : list lua_value) (ids : list Z) : option (list bool) :=
  let slots := slots_for 64 16 (Z.of_nat (length items)) in
  keys ← keys_loop items (replicate (Z.to_nat slots) None);
  Some ((λ id, bool_decide (is_Some (keys !!! Z.to_nat (find_slot keys id)))) <$> ids).

(** ** A corpus *)

Definition MAX_DIMS : Z := 16000.
Definition SIZE_MAX : Z := 2 ^ 64 - 1.

(** The rows' [data], with what else is kept of them, in one list; [c_bits]
    holds the bit vectors built, of the first rows. *)
Record corpus `{Numbers} := Corpus {
  c_dims : nat; c_storage : storage; c_capacity : Z;
  c_ids : list Z; c_data : list (list float + stored); c_bits : list bytes }.
Arguments Corpus {_}.

Section corpus.
Context `{Numbers, Signals, LuaIntegers, LuaStrings, RawLen}.

Definition c_count (c : corpus) : nat := length (c_ids c).
Definition with_capacity (n : Z) (c : corpus) : corpus := Corpus (c_dims c) (c_storage c) n (c_ids c) (c_data c) (c_bits c).
Definition with_bits (bits : list bytes) (c : corpus) : corpus :=
  Corpus (c_dims c) (c_storage c) (c_capacity c) (c_ids c) (c_data c) bits.

(** The loop that copies a string's bytes out as floats. *)
Fixpoint floats_of (n : nat) (s : bytes) : list float :=
  match n with
  | O => []
  | S n => float_of (take 4 s) :: floats_of n (drop 4 s)
  end.

Definition check_floats (dims : nat) (arg : lua_value) : list float + bytes :=
  match lua_tolstring arg with
  | None => inr (lit "string expected")
  | Some s =>
      if negb (Z.of_nat (length s) =? Z.of_nat dims * 4) then inr (lit "the vector's length is not the corpus's dimensions")
      else
        let v := floats_of dims s in
        if forallb is_finite v then inl v else inr (lit "a vector holds finite numbers")
  end.

Definition vector_corpus (dims name : lua_value) : answer corpus :=
  match lua_tointegerx dims with
  | None => Raises (lit "number expected")
  | Some dims =>
      if negb ((1 <=? dims) && (dims <=? MAX_DIMS)) then Raises (lit "dimensions are from 1 to 16000")
      else
        match opt_string name with
        | None => Raises (lit "string expected")
        | Some name =>
            let name := c_string (default (lit "f32") name) in
            let made s := Answers (Corpus (Z.to_nat dims) s 0 [] [] []) in
            if decide (name = lit "f32") then made F32
            else if decide (name = lit "f16") then made F16
            else if decide (name = lit "int8") then made INT8
            else Raises (lit "a storage is f32, f16 or int8")
        end
  end.

Definition store_row (s : storage) (v : list float) : list float + stored :=
  match s with F32 => inl v | _ => inr (quantized_row s v) end.

Definition fits (n size : Z) : bool := n <=? SIZE_MAX / size.

(** The capacity that holds [extra] more rows, or [None] where it raises. *)
Definition reserve (c : corpus) (extra : Z) : option corpus :=
  let count := Z.of_nat (c_count c) in
  if extra <=? c_capacity c - count then Some c
  else if SIZE_MAX / 2 - count <? extra then None
  else
    let grown := if c_capacity c =? 0 then 64 else u64 (c_capacity c * 2) in
    let grown := if grown <? count + extra then count + extra else grown in
    if fits grown ((Z.of_nat (c_dims c) + 2) * 8) then Some (with_capacity grown c) else None.

Definition append_row (id : Z) (v : list float) (c : corpus) : corpus :=
  Corpus (c_dims c) (c_storage c) (c_capacity c) (c_ids c ++ [id]) (c_data c ++ [store_row (c_storage c) v])
    (match c_storage c with F32 => c_bits c | _ => c_bits c ++ [quantize v] end).

Definition corpus_add (c : corpus) (id v : lua_value) : answer corpus :=
  match lua_tointegerx id with
  | None => Raises (lit "number expected")
  | Some id =>
      match check_floats (c_dims c) v with
      | inr why => Raises why
      | inl v =>
          if bool_decide (c_storage c = F16) && negb (forallb under_half_limit v)
          then Raises (lit "a half-precision vector holds numbers under 65520 in magnitude")
          else
            match reserve c 1 with
            | None => Raises (lit "not enough memory")
            | Some c => Answers (append_row id v c)
            end
      end
  end.

(** A loop over rows that asks every 256 whether a signal was caught: the
    times asked so far, and what the loop made unless one was. *)
Fixpoint each_row {X} (f : nat → X → X) (n row asked : nat) (x : X) : nat * option X :=
  match n with
  | O => (asked, Some x)
  | S n =>
      if bool_decide (row mod 256 = 0)%nat then
        if cosmic_signal_caught asked then (S asked, None) else each_row f n (S row) (S asked) (f row x)
      else each_row f n (S row) asked (f row x)
  end.

Definition row_floats (r : list float + stored) : list float := match r with inl v => v | inr _ => [] end.

Definition ensure_bits (asked : nat) (c : corpus) : nat * option corpus :=
  let built := length (c_bits c) in
  if bool_decide (built = c_count c) then (asked, Some c)
  else
    let '(asked, bits) :=
      each_row (λ i bits, bits ++ [quantize (row_floats (c_data c !!! i))]) (c_count c - built) built asked (c_bits c) in
    (asked, (λ bits, with_bits bits c) <$> bits).

(** ** The search *)

Definition interrupted {X} : answer X := Refuses (lit "interrupted").

Definition skipped (mask : option (list bool)) (row : nat) : bool :=
  match mask with Some mask => negb (mask !!! row) | None => false end.

(** One row of the loop that measures the distances. *)
Definition measure (c : corpus) (qbits : bytes) (mask : option (list bool)) (row : nat) (s : list Z * list Z) : list Z * list Z :=
  let '(distance, histogram) := s in
  if skipped mask row then s
  else
    let d := hamming (c_bits c !!! row) qbits in
    (<[row := d mod 2 ^ 16]> distance, <[Z.to_nat d := u32 (histogram !!! Z.to_nat d + 1)]> histogram).

(** The loop to the distance at which there are enough candidates. *)
Fixpoint threshold_loop (fuel : nat) (histogram : list Z) (candidates below : Z) (threshold : nat) : Z * nat :=
  match fuel with
  | O => (below, threshold)
  | S fuel =>
      if below + (histogram !!! threshold) <? candidates
      then threshold_loop fuel histogram candidates (below + (histogram !!! threshold)) (S threshold)
      else (below, threshold)
  end.

(** The loop that takes the rows: all below the threshold, the first ones of
    those at it. *)
Fixpoint take_loop (mask : option (list bool)) (distance : list Z) (threshold : Z) (rows : list nat) (tied : Z) : list nat :=
  match rows with
  | [] => []
  | row :: rows =>
      if skipped mask row then take_loop mask distance threshold rows tied
      else if (distance !!! row) <? threshold then row :: take_loop mask distance threshold rows tied
      else if ((distance !!! row) =? threshold) && (0 <? tied) then row :: take_loop mask distance threshold rows (tied - 1)
      else take_loop mask distance threshold rows tied
  end.

(** The rows of the first pass. *)
Definition first_pass (asked : nat) (c : corpus) (q : list float) (mask : option (list bool)) (candidates : Z) :
    nat * option (list nat) :=
  let '(asked, made) :=
    each_row (measure c (quantize q) mask) (c_count c) 0 asked (replicate (c_count c) 0, replicate (c_dims c + 1) 0) in
  (asked,
   '(distance, histogram) ← made;
   let '(below, threshold) := threshold_loop (c_dims c) histogram candidates 0 0 in
   Some (take_loop mask distance (Z.of_nat threshold) (seq 0 (c_count c)) (candidates - below))).

(** One row of the loop that scores. *)
Definition consider (c : corpus) (q : list float) (m : metric) (mask : option (list bool)) (rows : option (list nat))
    (limit at_ : nat) (items : list hit) : list hit :=
  let row := match rows with Some rows => rows !!! at_ | None => at_ end in
  if bool_decide (rows = None) && skipped mask row then items
  else
    match row_key (c_data c !!! row) q m with
    | Some k => offer (c_ids c) limit (Hit k row) items
    | None => items
    end.

(** The rows scored, their best taken off the heap, and answered. *)
Definition ranked (asked : nat) (c : corpus) (q : list float) (m : metric) (mask : option (list bool))
    (rows : option (list nat)) (limit : nat) : nat * answer (list (Z * key)) :=
  let row_count := match rows with Some rows => length rows | None => c_count c end in
  let '(asked, items) := each_row (consider c q m mask rows limit) row_count 0 asked [] in
  (asked,
   match items with
   | None => interrupted
   | Some items => Answers ((λ h, (c_ids c !!! h_row h, score m (h_key h))) <$> pop_loop (c_ids c) (length items) items [])
   end).

Definition searched (asked : nat) (c : corpus) (q : list float) (k : Z) (m : metric) (candidates : Z)
    (mask : option (list bool)) : nat * corpus * answer (list (Z * key)) :=
  let eligible := match mask with Some mask => length (List.filter id mask) | None => c_count c end in
  let limit := if k <? Z.of_nat eligible then Z.to_nat k else eligible in
  if (0 <? candidates) && (candidates <? Z.of_nat eligible) then
    match ensure_bits asked c with
    | (asked, None) => (asked, c, interrupted)
    | (asked, Some c) =>
        match first_pass asked c q mask candidates with
        | (asked, None) => (asked, c, interrupted)
        | (asked, Some rows) => let '(asked, a) := ranked asked c q m mask (Some rows) limit in (asked, c, a)
        end
    end
  else let '(asked, a) := ranked asked c q m mask None limit in (asked, c, a).

Definition metric_of (name : bytes) : option metric :=
  let name := c_string name in
  if decide (name = lit "inner_product") then Some INNER_PRODUCT
  else if decide (name = lit "cosine") then Some COSINE
  else if decide (name = lit "l2") then Some L2
  else None.

(** The optional candidates, 0 where there are none. *)
Definition candidates_of (arg : lua_value) : Z + bytes :=
  if decide (arg = LNil) then inl 0
  else
    match lua_tointegerx arg with
    | None => inr (lit "number expected")
    | Some n => if 1 <=? n then inl n else inr (lit "candidates is at least 1")
    end.

(** The optional mask. *)
Definition mask_of (h : heap) (arg : lua_value) (ids : list Z) : option (list bool) + bytes :=
  match arg with
  | LNil => inl None
  | LTable a =>
      let t := table_at h a in
      match allow_mask (rawgeti t ∘ Z.of_nat <$> seq 1 (Z.to_nat (lua_rawlen t))) ids with
      | Some mask => inl (Some mask)
      | None => inr (lit "allow holds integers")
      end
  | v => inr (lit "table expected, got " ++ type_name v)
  end.

Definition corpus_search (h : heap) (asked : nat) (c : corpus) (q k name candidates allow : lua_value) :
    nat * corpus * answer (list (Z * key)) :=
  let raises why := (asked, c, Raises why) in
  match check_floats (c_dims c) q with
  | inr why => raises why
  | inl q =>
      match lua_tointegerx k with
      | None => raises (lit "number expected")
      | Some k =>
          if k <? 1 then raises (lit "k is at least 1")
          else
            match lua_tolstring name with
            | None => raises (lit "string expected")
            | Some name =>
                match metric_of name with
                | None => raises (lit "a metric is inner_product, cosine or l2")
                | Some m =>
                    match candidates_of candidates with
                    | inr why => raises why
                    | inl candidates =>
                        match mask_of h allow (c_ids c) with
                        | inr why => raises why
                        | inl mask => searched asked c q k m candidates mask
                        end
                    end
                end
            end
      end
  end.

End corpus.
