(* ===== verification/VectorHeap.v ===== *)
(** * The heap keeps the best hits

    [offer] keeps the best hits offered to it, however many are, and taking the
    worst off again and again leaves them best first. *)

From S2P Require Import Prelude.
From S2P Require Import Lua.
From S2P Require Import Vector.

Local Open Scope Z_scope.

Section order.
Context `{Numbers} (ids : list Z).

(** [a] is no better than [b]. *)
Definition atmost (a b : hit) : Prop := better ids a b = false.

Lemma better_iff a b :
  better ids a b = true ↔
  key_rank (h_key b) < key_rank (h_key a) ∨ key_rank (h_key a) = key_rank (h_key b) ∧ ids !!! h_row a < ids !!! h_row b.
Proof. unfold better. zcases; simpl; split; intros; try done; lia. Qed.

Lemma atmost_iff a b :
  atmost a b ↔
  key_rank (h_key a) < key_rank (h_key b) ∨ key_rank (h_key a) = key_rank (h_key b) ∧ ids !!! h_row b ≤ ids !!! h_row a.
Proof.
  unfold atmost. rewrite <- not_true_iff_false, better_iff. lia.
Qed.

#[export] Instance atmost_preorder : PreOrder atmost.
Proof. split; [intros a|intros a b c]; rewrite ?atmost_iff; lia. Qed.

Lemma better_atmost a b : better ids a b = true → atmost b a.
Proof. rewrite better_iff, atmost_iff. lia. Qed.

Lemma atmost_total a b : atmost a b ∨ atmost b a.
Proof. rewrite !atmost_iff. lia. Qed.

(** ** Places *)

Definition parent (j : nat) : nat := ((j - 1) / 2)%nat.

Lemma parent_child i j : (0 < j)%nat → parent j = i ↔ j = (2 * i + 1)%nat ∨ j = S (2 * i + 1).
Proof.
  intros Hj. unfold parent. pose proof (Nat.div_mod_eq (j - 1) 2). pose proof (Nat.mod_upper_bound (j - 1) 2). lia.
Qed.

Lemma parent_below j : (0 < j)%nat → (parent j < j)%nat.
Proof. intros Hj. unfold parent. apply Nat.Div0.div_lt_upper_bound; lia. Qed.

Lemma length_swap i j (l : list hit) : length (swap i j l) = length l.
Proof. unfold swap. by rewrite !length_insert. Qed.

Lemma swap_lookup i j k (l : list hit) :
  (i < length l)%nat → (j < length l)%nat →
  swap i j l !!! k = if decide (k = i) then l !!! j else if decide (k = j) then l !!! i else l !!! k.
Proof.
  intros Hi Hj. unfold swap. repeat case_decide; subst.
  - destruct (decide (i = j)) as [->|Hne].
    + by rewrite list_lookup_total_insert_eq by (rewrite length_insert; lia).
    + rewrite list_lookup_total_insert_ne by done. by rewrite list_lookup_total_insert_eq.
  - by rewrite list_lookup_total_insert_eq by (rewrite length_insert; lia).
  - by rewrite !list_lookup_total_insert_ne.
Qed.

Lemma swap_perm i j (l : list hit) : (i < length l)%nat → (j < length l)%nat → swap i j l ≡ₚ l.
Proof.
  intros Hi Hj. unfold swap. apply Permutation_insert_swap; by apply list_lookup_lookup_total_lt.
Qed.

(** ** The order of the heap *)

(** Each item but [i]'s children is at least as good as its parent, and [i]'s
    children are as good as [i]'s. *)
Definition heap_but (i : nat) (l : list hit) : Prop :=
  (∀ j, (0 < j < length l)%nat → parent j ≠ i → atmost (l !!! parent j) (l !!! j)) ∧
  ((0 < i)%nat → ∀ j, (0 < j < length l)%nat → parent j = i → atmost (l !!! parent i) (l !!! j)).

Definition heaped (l : list hit) : Prop := ∀ j, (0 < j < length l)%nat → atmost (l !!! parent j) (l !!! j).

Lemma worst_of_spec l i :
  let w := worst_of ids l i in
  (w = i ∨ (0 < w < length l)%nat ∧ parent w = i ∧ atmost (l !!! w) (l !!! i)) ∧
  ∀ j, (0 < j < length l)%nat → parent j = i → atmost (l !!! w) (l !!! j).
Proof.
  unfold worst_of. set (a := (2 * i + 1)%nat).
  assert (Hchild : ∀ j, (0 < j)%nat → parent j = i ↔ j = a ∨ j = S a) by apply parent_child.
  assert (parent a = i) by (apply Hchild; lia). assert (parent (S a) = i) by (apply Hchild; lia).
  destruct (bool_decide (a < length l)%nat && _) eqn:Ha; rewrite ?andb_true_iff, ?andb_false_iff, ?bool_decide_eq_true, ?bool_decide_eq_false in Ha;
    destruct (bool_decide (S a < length l)%nat && _) eqn:Hb; rewrite ?andb_true_iff, ?andb_false_iff, ?bool_decide_eq_true, ?bool_decide_eq_false in Hb;
    simpl; (split; [|intros j Hj Hp; apply (Hchild j (proj1 Hj)) in Hp]).
  - right. split; [lia|]. split; [done|]. transitivity (l !!! a); apply better_atmost; [apply Hb|apply Ha].
  - destruct Hp as [-> | ->]; [apply better_atmost, Hb|done].
  - right. split; [lia|]. split; [done|]. apply better_atmost, Ha.
  - destruct Hp as [-> | ->]; [done|]. destruct Hb as [?|Hb]; [lia|exact Hb].
  - right. split; [lia|]. split; [done|]. apply better_atmost, Hb.
  - destruct Hp as [-> | ->]; [|done]. destruct Ha as [?|Ha]; [lia|].
    transitivity (l !!! i); [apply better_atmost, Hb|exact Ha].
  - by left.
  - destruct Hp as [-> | ->]; [destruct Ha as [?|Ha]; [lia|exact Ha]|destruct Hb as [?|Hb]; [lia|exact Hb]].
Qed.

Lemma heap_but_swap l i w :
  heap_but i l → (i < length l)%nat → (0 < w < length l)%nat → parent w = i → atmost (l !!! w) (l !!! i) →
  (∀ j, (0 < j < length l)%nat → parent j = i → atmost (l !!! w) (l !!! j)) →
  heap_but w (swap i w l).
Proof.
  intros [H1 H2] Hi Hw Hp Hle Hall. pose proof (parent_below w) as Hlt.
  split; rewrite length_swap.
  - intros j Hj Hne. pose proof (parent_below j) as Hjlt. rewrite !swap_lookup by lia.
    destruct (decide (parent j = i)) as [Hpi|Hpi].
    + destruct (decide (j = i)); [lia|]. destruct (decide (j = w)) as [->|]; [done|]. by apply Hall.
    + destruct (decide (parent j = w)); [done|]. destruct (decide (j = i)) as [->|].
      * apply H2; [lia|done|done].
      * destruct (decide (j = w)); [congruence|]. by apply H1.
  - intros _ j Hj Hjw. pose proof (parent_below j) as Hjlt. rewrite !swap_lookup by lia. rewrite Hp.
    rewrite decide_True by done. rewrite decide_False by lia. rewrite decide_False by lia.
    rewrite <- Hjw at 1. apply H1; [done|lia].
Qed.

Lemma sift_loop_heap fuel i l :
  heap_but i l → (i < length l)%nat → (length l ≤ fuel + i)%nat →
  heaped (sift_loop ids fuel i l) ∧ sift_loop ids fuel i l ≡ₚ l.
Proof.
  revert i l. induction fuel as [|fuel IH]; intros i l Hh Hi Hf; [lia|]. simpl.
  pose proof (worst_of_spec l i) as [Hw Hall]. set (w := worst_of ids l i) in *.
  case_bool_decide as Hwi.
  - split; [|done]. intros j Hj. destruct (decide (parent j = i)) as [Hp|Hp].
    + rewrite Hp. rewrite <- Hwi at 1. by apply Hall.
    + by apply Hh.
  - destruct Hw as [|(Hlt & Hp & Hle)]; [done|].
    pose proof (parent_below w). destruct (IH w (swap i w l)) as [IH1 IH2].
    + by apply heap_but_swap.
    + rewrite length_swap. lia.
    + rewrite length_swap. lia.
    + split; [done|]. rewrite IH2. apply swap_perm; lia.
Qed.

Lemma sift_down_heap l :
  (∀ j, (0 < j < length l)%nat → parent j ≠ 0%nat → atmost (l !!! parent j) (l !!! j)) →
  heaped (sift_down ids 0 l) ∧ sift_down ids 0 l ≡ₚ l.
Proof.
  intros Hl. unfold sift_down. destruct l as [|x l].
  - simpl. split; [|done]. intros j Hj. simpl in Hj. lia.
  - apply sift_loop_heap; [|simpl; lia|lia]. split; [exact Hl|lia].
Qed.

(** Each item but [i] is at least as good as its parent, and [i]'s children
    are as good as [i]'s parent. *)
Definition heap_above (i : nat) (l : list hit) : Prop :=
  (∀ j, (0 < j < length l)%nat → j ≠ i → atmost (l !!! parent j) (l !!! j)) ∧
  ((0 < i)%nat → ∀ j, (0 < j < length l)%nat → parent j = i → atmost (l !!! parent i) (l !!! j)).

Lemma lift_loop_heap fuel i l :
  heap_above i l → (i < length l)%nat → (i ≤ fuel)%nat →
  heaped (lift_loop ids fuel i l) ∧ lift_loop ids fuel i l ≡ₚ l.
Proof.
  revert i l. induction fuel as [|fuel IH]; intros [|below] l [H1 H2] Hi Hf; try lia.
  1, 2: (split; [|done]; intros j Hj; apply H1; [done|lia]).
  simpl. set (i := S below) in *. replace (below / 2)%nat with (parent i) by (unfold parent, i; f_equal; lia).
  pose proof (parent_below i ltac:(lia)) as Hpi. set (p := parent i) in *.
  destruct (better ids (l !!! p) (l !!! i)) eqn:Hb.
  - pose proof (better_atmost _ _ Hb) as Hle. destruct (IH p (swap p i l)) as [IH1 IH2].
    + split; rewrite length_swap.
      * intros j Hj Hne. pose proof (parent_below j) as Hjlt. rewrite !swap_lookup by lia.
        rewrite (decide_False (P := j = p)) by done.
        destruct (decide (j = i)) as [->|Hji].
        -- fold p. rewrite decide_True by done. exact Hle.
        -- destruct (decide (parent j = p)) as [Hpp|].
           ++ transitivity (l !!! p); [exact Hle|]. rewrite <- Hpp at 1. by apply H1.
           ++ destruct (decide (parent j = i)) as [Hpj|]; [apply H2; [lia|done|done]|by apply H1].
      * intros Hp0 j Hj Hpj. pose proof (parent_below p Hp0) as Hpp. pose proof (parent_below j).
        rewrite !swap_lookup by lia.
        rewrite (decide_False (P := parent p = p)), (decide_False (P := parent p = i)), (decide_False (P := j = p)) by lia.
        assert (Hup : atmost (l !!! parent p) (l !!! p)) by (apply H1; lia).
        destruct (decide (j = i)) as [->|]; [done|].
        transitivity (l !!! p); [done|]. rewrite <- Hpj at 1. by apply H1.
    + rewrite length_swap. lia.
    + lia.
    + split; [done|]. rewrite IH2. apply swap_perm; lia.
  - split; [|done]. intros j Hj. destruct (decide (j = i)) as [->|]; [exact Hb|by apply H1].
Qed.

Lemma heap_root l j : heaped l → (j < length l)%nat → atmost (l !!! 0%nat) (l !!! j).
Proof.
  intros Hl. induction (lt_wf j) as [j _ IH]. intros Hj. destruct j as [|j]; [done|].
  pose proof (parent_below (S j) ltac:(lia)). transitivity (l !!! parent (S j)); [apply IH; lia|apply Hl; lia].
Qed.

Lemma heap_root_elem l x : heaped l → x ∈ l → atmost (l !!! 0%nat) x.
Proof.
  intros Hl (j & Hj)%list_elem_of_lookup. rewrite <- (list_lookup_total_correct _ _ _ Hj).
  apply heap_root; [done|]. by apply lookup_lt_Some in Hj.
Qed.

(** ** Offering and taking off *)

(** The heap holds the best of what it was offered, up to its limit. *)
Definition best_of (limit : nat) (items offered : list hit) : Prop :=
  heaped items ∧ length items = (limit `min` length offered)%nat ∧
  ∃ out, offered ≡ₚ items ++ out ∧ ∀ x y, x ∈ out → y ∈ items → atmost x y.

Lemma lift_best l h : heaped l → heaped (lift_loop ids (length l) (length l) (l ++ [h])) ∧
  lift_loop ids (length l) (length l) (l ++ [h]) ≡ₚ h :: l.
Proof.
  intros Hl. destruct (lift_loop_heap (length l) (length l) (l ++ [h])) as [H1 H2].
  - split; rewrite length_app; simpl.
    + intros j Hj Hne. pose proof (parent_below j). rewrite !lookup_total_app_l by lia. apply Hl. lia.
    + intros _ j Hj Hp. pose proof (parent_below j). lia.
  - rewrite length_app. simpl. lia.
  - lia.
  - split; [done|]. rewrite H2. by rewrite Permutation_app_comm.
Qed.

Lemma sift_best l h : l ≠ [] → heaped l →
  heaped (sift_down ids 0 (<[0%nat := h]> l)) ∧ l !!! 0%nat :: sift_down ids 0 (<[0%nat := h]> l) ≡ₚ h :: l.
Proof.
  intros Hne Hl. destruct (sift_down_heap (<[0%nat := h]> l)) as [H1 H2].
  - intros j Hj Hp. rewrite length_insert in Hj. pose proof (parent_below j).
    rewrite !list_lookup_total_insert_ne by lia. by apply Hl.
  - split; [done|]. rewrite H2. destruct l as [|x l]; [done|]. simpl. apply Permutation_swap.
Qed.

Lemma offer_best limit h items offered :
  best_of limit items offered → best_of limit (offer ids limit h items) (h :: offered).
Proof.
  intros (Hheap & Hlen & out & Hperm & Hout). unfold offer.
  pose proof (Permutation_length Hperm) as Hl. rewrite length_app in Hl.
  case_bool_decide as Hroom.
  - destruct (lift_best items h Hheap) as [H1 H2]. split; [done|]. split.
    + rewrite H2. simpl. lia.
    + exists []. rewrite app_nil_r, H2. split; [|by intros x y ?%elem_of_nil].
      destruct out as [|x out]; [|simpl in Hl; lia]. by rewrite Hperm, app_nil_r.
  - destruct (bool_decide (0 < limit)%nat && better ids h (items !!! 0%nat)) eqn:Hb.
    + apply andb_true_iff in Hb as [Hpos%bool_decide_eq_true Hb].
      assert (Hne : items ≠ []) by (intros ->; simpl in *; lia).
      destruct (sift_best items h Hne Hheap) as [H1 H2]. pose proof (Permutation_length H2) as H2l. simpl in H2l.
      split; [done|]. split; [simpl; lia|]. exists (items !!! 0%nat :: out). split.
      { rewrite <- Permutation_middle, app_comm_cons, H2. simpl. by rewrite Hperm. }
      assert (Hroot : ∀ y, y ∈ sift_down ids 0 (<[0%nat := h]> items) → atmost (items !!! 0%nat) y).
      { intros y Hy. assert (y ∈ h :: items) as [-> | Hin]%elem_of_cons by (rewrite <- H2; by right).
        - by apply better_atmost. - by apply heap_root_elem. }
      intros x y [-> | Hx]%elem_of_cons Hy; [by apply Hroot|].
      transitivity (items !!! 0%nat); [|by apply Hroot]. apply Hout; [done|].
      apply list_elem_of_lookup_total_2. destruct items; [done|simpl; lia].
    + split; [done|]. split; [simpl; lia|]. exists (h :: out). split.
      { rewrite <- Permutation_middle. by rewrite Hperm. }
      intros x y [-> | Hx]%elem_of_cons Hy; [|by apply Hout].
      apply andb_false_iff in Hb as [Hz%bool_decide_eq_false|Hb].
      * destruct items; [by apply elem_of_nil in Hy|simpl in *; lia].
      * transitivity (items !!! 0%nat); [exact Hb|by apply heap_root_elem].
Qed.

Lemma best_of_nil limit : best_of limit [] [].
Proof.
  split; [intros j Hj; simpl in Hj; lia|]. split; [simpl; lia|]. exists []. split; [done|]. by intros x y ?%elem_of_nil.
Qed.

(** The heap without its root, the last item in its place. *)
Lemma pop_root l :
  l ≠ [] → heaped l →
  let l' := take (length l - 1) (<[0%nat := l !!! (length l - 1)%nat]> l) in
  heaped (sift_down ids 0 l') ∧ l !!! 0%nat :: sift_down ids 0 l' ≡ₚ l.
Proof.
  intros Hne Hl. destruct l as [|x l _] using rev_ind; [done|]. rewrite length_app. simpl.
  replace (length l + 1 - 1)%nat with (length l) by lia. rewrite lookup_total_app_r, Nat.sub_diag by lia. simpl.
  destruct l as [|y l]; simpl.
  { split; [|done]. intros j Hj. simpl in Hj. lia. }
  rewrite take_app_length.
  destruct (sift_down_heap (x :: l)) as [H1 H2].
  - intros j Hj Hp. pose proof (parent_below j). simpl in Hj.
    specialize (Hl j). rewrite length_app in Hl. simpl in Hl.
    destruct j as [|j]; [lia|]. destruct (parent (S j)) as [|p] eqn:Hpj; [done|]. simpl.
    simpl in Hl. rewrite !lookup_total_app_l in Hl by lia. apply Hl. lia.
  - split; [done|]. rewrite H2. apply perm_skip. by rewrite Permutation_app_comm.
Qed.

Definition best_first : list hit → Prop := StronglySorted (λ a b, atmost b a).

Lemma pop_loop_sorted n l answer :
  heaped l → length l = n →
  ∃ sorted, pop_loop ids n l answer = sorted ++ answer ∧ sorted ≡ₚ l ∧ best_first sorted.
Proof.
  revert l answer. induction n as [|n IH]; intros l answer Hl Hn; simpl.
  { exists []. destruct l; [|done]. split; [done|]. split; [done|constructor]. }
  assert (Hne : l ≠ []) by (intros ->; done).
  destruct (pop_root l Hne Hl) as [H1 H2]. set (l' := sift_down ids 0 _) in *.
  pose proof (Permutation_length H2) as Hlen. simpl in Hlen.
  destruct (IH l' (l !!! 0%nat :: answer) H1 ltac:(lia)) as (sorted & -> & Hp & Hs).
  exists (sorted ++ [l !!! 0%nat]). split; [by rewrite <- app_assoc|]. split.
  - rewrite Hp, Permutation_app_comm. exact H2.
  - apply StronglySorted_app. split; [|split; [done|by repeat constructor]].
    intros x y Hx ->%list_elem_of_singleton. apply heap_root_elem; [done|]. rewrite <- H2. right. by rewrite <- Hp.
Qed.

(** What is taken off a heap is the best of what it was offered, best first. *)
Lemma popped_best limit items offered :
  best_of limit items offered →
  let answer := pop_loop ids (length items) items [] in
  best_first answer ∧ length answer = (limit `min` length offered)%nat ∧
  ∃ out, offered ≡ₚ answer ++ out ∧ ∀ x y, x ∈ out → y ∈ answer → atmost x y.
Proof.
  intros (Hheap & Hlen & out & Hperm & Hout).
  destruct (pop_loop_sorted (length items) items [] Hheap eq_refl) as (sorted & -> & Hp & Hs).
  rewrite app_nil_r. simpl. split; [done|]. split; [by rewrite Hp|]. exists out. split; [by rewrite Hp|].
  intros x y Hx Hy. apply Hout; [done|]. by rewrite <- Hp.
Qed.

End order.
