(* ===== verification/VectorBits.v ===== *)
(** * The bits of a vector, and their distance

    The bits counted of two bit vectors a word at a time are those of their
    bytes one by one, so the distance between two vectors' sign bits is the
    number of dimensions whose signs differ; then the mask of the rows a search
    may answer, and the first pass, which keeps the nearest by those bits. *)

From S2P Require Import Prelude.
From S2P Require Import Lua.
From S2P Require Import Vector.

Local Open Scope Z_scope.

(** ** Counts of numbers below a bound *)

Fixpoint bsum (f : nat → bool) (n : nat) : Z :=
  match n with
  | O => 0
  | S n => bsum f n + Z.b2z (f n)
  end.

Lemma bsum_ext f g n : (∀ i, (i < n)%nat → f i = g i) → bsum f n = bsum g n.
Proof. induction n as [|n IH]; intros Hfg; simpl; [done|]. rewrite IH by auto. by rewrite Hfg by lia. Qed.

Lemma bsum_add f n m : bsum f (n + m) = bsum f n + bsum (λ i, f (n + i)%nat) m.
Proof.
  induction m as [|m IH]; simpl; [rewrite Nat.add_0_r; lia|]. rewrite Nat.add_succ_r. simpl. rewrite IH. lia.
Qed.

Lemma bsum_bounds f n : 0 ≤ bsum f n ≤ Z.of_nat n.
Proof. induction n as [|n IH]; simpl; [done|]. destruct (f n); simpl; lia. Qed.

Lemma bsum_false f n : (∀ i, (i < n)%nat → f i = false) → bsum f n = 0.
Proof. induction n as [|n IH]; intros Hf; simpl; [done|]. rewrite IH by auto. by rewrite Hf by lia. Qed.

Lemma bsum_list {X} (p : X → bool) `{Inhabited X} (l : list X) :
  bsum (λ i, p (l !!! i)) (length l) = Z.of_nat (length (List.filter p l)).
Proof.
  induction l as [|x l IH] using rev_ind; [done|].
  rewrite length_app, Nat.add_1_r, List.filter_app, length_app. simpl.
  rewrite lookup_total_app_r, Nat.sub_diag by lia. simpl.
  rewrite (bsum_ext _ (λ i, p (l !!! i))) by (intros i Hi; by rewrite lookup_total_app_l).
  rewrite IH. destruct (p x); simpl; lia.
Qed.

(** The bits of bytes, counted in either order of a byte's bits. *)
Lemma bsum_flip (g : nat → nat → bool) n :
  bsum (λ i, g (i / 8) (i mod 8))%nat (8 * n) = bsum (λ i, g (i / 8) (7 - i mod 8))%nat (8 * n).
Proof.
  induction n as [|n IH]; [done|]. replace (8 * S n)%nat with (8 * n + 8)%nat by lia. rewrite !bsum_add, IH. f_equal.
  rewrite (bsum_ext _ (g n)).
  - rewrite (bsum_ext (λ i, g _ (7 - _)%nat) (λ i, g n (7 - i)%nat)); [simpl; lia|].
    intros i Hi. rewrite (Nat.mul_comm 8), Nat.div_add_l, Nat.div_small, Nat.add_0_r by lia. f_equal.
    rewrite Nat.add_comm, Nat.Div0.mod_add, Nat.mod_small by lia. done.
  - intros i Hi. rewrite (Nat.mul_comm 8), Nat.div_add_l, Nat.div_small, Nat.add_0_r by lia. f_equal.
    rewrite Nat.add_comm, Nat.Div0.mod_add, Nat.mod_small by lia. done.
Qed.

(** ** Words *)

Lemma popcount_bits n x : 0 ≤ x → popcount n x = bsum (λ i, Z.testbit x (Z.of_nat i)) n.
Proof.
  revert x. induction n as [|n IH]; intros x Hx; [done|]. change (S n) with (1 + n)%nat. rewrite bsum_add. simpl popcount.
  rewrite IH by (rewrite Z.div2_div; apply Z.div_pos; lia). f_equal.
  apply bsum_ext. intros i _. rewrite Nat2Z.inj_succ, Z.div2_spec, Z.shiftr_spec by lia. by f_equal.
Qed.

Lemma load_word_bound bs : all_bytes bs → 0 ≤ load_word bs.
Proof. induction 1 as [|b bs Hb _ IH]; simpl; [done|]. unfold is_byte in Hb. lia. Qed.

Lemma load_word_bit bs i :
  all_bytes bs → (i < 8 * length bs)%nat →
  Z.testbit (load_word bs) (Z.of_nat i) = Z.testbit (bs !!! (i / 8)%nat) (Z.of_nat (i mod 8)).
Proof.
  intros Hbs. revert i. induction Hbs as [|b bs Hb Hbs IH]; intros i Hi; [simpl in Hi; lia|].
  change (load_word (b :: bs)) with (b + 256 * load_word bs).
  rewrite Z.add_comm, Z.mul_comm. rewrite <- (lor_add _ b 8) by (done || lia).
  rewrite Z.lor_spec, <- Z.shiftl_mul_pow2 by lia.
  destruct (decide (i < 8)%nat) as [Hlt|Hge].
  - rewrite Nat.div_small, Nat.mod_small by done. rewrite Z.shiftl_spec_low by lia. done.
  - rewrite (bits_above b 8) by (done || lia). rewrite orb_false_r, Z.shiftl_spec by lia.
    replace (Z.of_nat i - 8) with (Z.of_nat (i - 8)) by lia. simpl in Hi. rewrite IH by lia.
    assert (Hs : i = (i - 8 + 1 * 8)%nat) by lia. rewrite Hs at 3 4. rewrite Nat.div_add, Nat.Div0.mod_add by lia.
    by rewrite Nat.add_1_r.
Qed.

(** An operation that works bit by bit. *)
Definition bitwise (op : Z → Z → Z) (f : bool → bool → bool) : Prop :=
  ∀ x y, 0 ≤ x → 0 ≤ y → 0 ≤ op x y ∧ ∀ i, 0 ≤ i → Z.testbit (op x y) i = f (Z.testbit x i) (Z.testbit y i).

Section count.
Context (op : Z → Z → Z) (f : bool → bool → bool) (Hop : bitwise op f) (Hff : f false false = false).

(** The bits of two bit vectors. *)
Definition bit_pair (a b : bytes) (i : nat) : bool :=
  f (Z.testbit (a !!! (i / 8)%nat) (Z.of_nat (i mod 8))) (Z.testbit (b !!! (i / 8)%nat) (Z.of_nat (i mod 8))).

Lemma bit_pair_drop a b n i : bit_pair (drop n a) (drop n b) i = bit_pair a b (8 * n + i).
Proof.
  unfold bit_pair. rewrite !list_lookup_total_alt, !lookup_drop.
  rewrite (Nat.mul_comm 8), Nat.div_add_l by lia. by rewrite (Nat.add_comm (n * 8) i), Nat.Div0.mod_add.
Qed.

Lemma word_counts a b :
  all_bytes a → all_bytes b → length a = length b → (8 ≤ length a)%nat →
  popcount64 (op (load_word (take 8 a)) (load_word (take 8 b))) = bsum (bit_pair a b) 64.
Proof.
  intros Ha Hb Hlen H8.
  assert (Hw : ∀ l, all_bytes l → (8 ≤ length l)%nat → ∀ i, (i < 64)%nat →
    Z.testbit (load_word (take 8 l)) (Z.of_nat i) = Z.testbit (l !!! (i / 8)%nat) (Z.of_nat (i mod 8))).
  { intros l Hl Hl8 i Hi. rewrite load_word_bit; [|by apply Forall_take|rewrite length_take; lia].
    f_equal. rewrite !list_lookup_total_alt, lookup_take_lt; [done|]. apply Nat.Div0.div_lt_upper_bound. lia. }
  destruct (Hop (load_word (take 8 a)) (load_word (take 8 b))) as [Hpos Hbit];
    try (apply load_word_bound; by apply Forall_take).
  unfold popcount64. rewrite popcount_bits by done. apply bsum_ext. intros i Hi.
  rewrite Hbit by lia. rewrite !Hw by (done || lia). done.
Qed.

Lemma count_words_bits fuel a b total :
  all_bytes a → all_bytes b → length a = length b → (length a < fuel)%nat →
  ∃ n a' b', count_words fuel op a b total = (total + bsum (bit_pair a b) (8 * n), a', b') ∧
    a' = drop n a ∧ b' = drop n b ∧ (n ≤ length a)%nat.
Proof.
  revert a b total. induction fuel as [|fuel IH]; intros a b total Ha Hb Hlen Hf; [lia|]. simpl.
  case_bool_decide as H8.
  - rewrite word_counts by done.
    destruct (IH (drop 8 a) (drop 8 b) (total + bsum (bit_pair a b) 64)) as (n & a' & b' & -> & -> & -> & Hn);
      rewrite ?length_drop; try (by apply Forall_drop); try lia.
    rewrite length_drop in Hn. exists (8 + n)%nat. eexists _, _. split; [|split; [|split; [|lia]]]; rewrite ?drop_drop; try done.
    f_equal. f_equal. replace (8 * (8 + n))%nat with (64 + 8 * n)%nat by lia. rewrite bsum_add.
    rewrite (bsum_ext (bit_pair (drop 8 a) (drop 8 b)) (λ i, bit_pair a b (64 + i))); [lia|].
    intros i _. apply bit_pair_drop.
  - exists 0%nat. eexists _, _. rewrite Z.add_0_r. split; [done|]. split; [done|]. split; [done|lia].
Qed.

Lemma rest_counts a b total :
  all_bytes a → all_bytes b → length a = length b →
  foldl (λ (total : Z) (p : Z * Z), total + popcount64 (op p.1 p.2)) total (zip a b)
  = total + bsum (bit_pair a b) (8 * length a).
Proof.
  intros Ha. revert b total. induction Ha as [|x a Hx Ha IH]; intros b total Hb Hlen; [simpl; lia|].
  destruct b as [|y b]; [done|]. apply Forall_cons in Hb as [Hy Hb]. simpl in Hlen.
  replace (8 * length (x :: a))%nat with (8 + 8 * length a)%nat by (simpl; lia).
  set (all := bsum _ (8 + _)). simpl. rewrite IH by (done || lia). unfold all. clear all.
  rewrite (bsum_add (bit_pair (x :: a) (y :: b)) 8 (8 * length a)).
  rewrite (bsum_ext (λ i, bit_pair (x :: a) (y :: b) (8 + i)) (bit_pair a b)).
  2:{ intros i _. by rewrite <- (bit_pair_drop (x :: a) (y :: b) 1). }
  unfold is_byte in *. destruct (Hop x y) as [Hpos Hbit]; [lia|lia|].
  unfold popcount64. rewrite popcount_bits by done.
  rewrite (bsum_ext _ (λ i, f (Z.testbit x (Z.of_nat i)) (Z.testbit y (Z.of_nat i)))) by (intros i _; apply Hbit; lia).
  rewrite (bsum_add _ 8 56).
  rewrite (bsum_ext (bit_pair (x :: a) (y :: b)) (λ i, f (Z.testbit x (Z.of_nat i)) (Z.testbit y (Z.of_nat i)))).
  2:{ intros i Hi. unfold bit_pair. by rewrite Nat.div_small, Nat.mod_small by done. }
  rewrite (bsum_false (λ i, f _ (Z.testbit y (Z.of_nat (8 + i))))); [lia|].
  intros i Hi. by rewrite (bits_above x 8), (bits_above y 8) by lia.
Qed.

Lemma count_bits_sum a b :
  all_bytes a → all_bytes b → length a = length b → count_bits op a b = bsum (bit_pair a b) (8 * length a).
Proof.
  intros Ha Hb Hlen. unfold count_bits.
  destruct (count_words_bits (S (length a)) a b 0 Ha Hb Hlen ltac:(lia)) as (n & a' & b' & -> & -> & -> & Hn).
  rewrite rest_counts by (rewrite ?length_drop; first [by apply Forall_drop|lia]).
  rewrite (bsum_ext (bit_pair (drop n a) (drop n b)) (λ i, bit_pair a b (8 * n + i))) by (intros i _; apply bit_pair_drop).
  rewrite length_drop. replace (8 * length a)%nat with (8 * n + 8 * (length a - n))%nat by lia. rewrite bsum_add. lia.
Qed.
End count.

(** Counted one way or another, the bits of two vectors are those of their
    bytes. *)
Lemma land_bitwise : bitwise Z.land andb.
Proof. intros x y Hx Hy. split; [apply Z.land_nonneg; by left|intros i _; apply Z.land_spec]. Qed.

Lemma lor_bitwise : bitwise Z.lor orb.
Proof. intros x y Hx Hy. split; [by apply Z.lor_nonneg|intros i _; apply Z.lor_spec]. Qed.

Lemma lxor_bitwise : bitwise Z.lxor xorb.
Proof. intros x y Hx Hy. split; [apply Z.lxor_nonneg; lia|intros i _; apply Z.lxor_spec]. Qed.

(** ** Sign bits *)

Lemma sign_step above n bits :
  (n < length above)%nat → length bits = ((length above + 7) / 8)%nat →
  let bits' := if (above !!! n : bool)
    then <[(n / 8)%nat := Z.lor (bits !!! (n / 8)%nat) (Z.shiftr 0x80 (Z.of_nat (n mod 8)))]> bits else bits in
  length bits' = length bits ∧ (all_bytes bits → all_bytes bits') ∧
  ∀ k j, (k < length bits)%nat → (j < 8)%nat →
    Z.testbit (bits' !!! k) (7 - Z.of_nat j) = Z.testbit (bits !!! k) (7 - Z.of_nat j) || (bool_decide (8 * k + j = n)%nat && (above !!! n)).
Proof.
  intros Hn Hlen. pose proof (Nat.div_mod_eq n 8). pose proof (Nat.mod_upper_bound n 8 ltac:(lia)).
  assert (Hk : (n / 8 < length bits)%nat).
  { rewrite Hlen. pose proof (Nat.div_mod_eq (length above + 7) 8).
    pose proof (Nat.mod_upper_bound (length above + 7) 8 ltac:(lia)). lia. }
  destruct (above !!! n); simpl.
  2:{ split; [done|]. split; [done|]. intros k j _ _. by rewrite andb_false_r, orb_false_r. }
  assert (Hmask : 0 ≤ Z.shiftr 0x80 (Z.of_nat (n mod 8)) < 2 ^ 8).
  { rewrite Z.shiftr_div_pow2 by lia. split; [apply Z.div_pos; lia|].
    apply Z.div_lt_upper_bound; [lia|]. change (2 ^ 8) with 256. nia. }
  split; [by rewrite length_insert|]. split.
  - intros Hb. apply Forall_insert; [done|]. apply lor_byte; [|done]. by apply Forall_lookup_total_1.
  - intros k j Hkl Hj. rewrite andb_true_r. rewrite list_lookup_total_insert.
    destruct (decide (n / 8 = k ∧ n / 8 < length bits)%nat) as [[<- _]|Hne].
    + rewrite Z.lor_spec. f_equal. rewrite Z.shiftr_spec by lia. change 0x80 with (2 ^ 7).
      rewrite Z.pow2_bits_eqb by lia. case_bool_decide; [apply Z.eqb_eq|apply Z.eqb_neq]; lia.
    + rewrite bool_decide_eq_false_2 by (intros <-; apply Hne; split; [|lia]; lia). by rewrite orb_false_r.
Qed.

Lemma sign_bits_spec above :
  length (sign_bits above) = ((length above + 7) / 8)%nat ∧ all_bytes (sign_bits above) ∧
  ∀ k j, (k < (length above + 7) / 8)%nat → (j < 8)%nat →
    Z.testbit (sign_bits above !!! k) (7 - Z.of_nat j) = bool_decide (8 * k + j < length above)%nat && (above !!! (8 * k + j)%nat).
Proof.
  unfold sign_bits. set (N := ((length above + 7) / 8)%nat). set (step := λ (bits : bytes) (i : nat), _).
  enough (Hgen : ∀ n, (n ≤ length above)%nat → let bits := foldl step (replicate N 0) (seq 0 n) in
    length bits = N ∧ all_bytes bits ∧ ∀ k j, (k < N)%nat → (j < 8)%nat →
    Z.testbit (bits !!! k) (7 - Z.of_nat j) = bool_decide (8 * k + j < n)%nat && (above !!! (8 * k + j)%nat)) by by apply Hgen.
  induction n as [|n IH]; intros Hn.
  - simpl. rewrite length_replicate. split; [done|]. split; [by apply Forall_replicate|].
    intros k j Hk Hj. rewrite lookup_total_replicate_2 by done. apply Z.bits_0.
  - specialize (IH ltac:(lia)). destruct IH as (Hlen & Hb & Hbits).
    rewrite seq_S, foldl_app. simpl foldl. set (bits := foldl step _ _) in *.
    destruct (sign_step above n bits) as (H1 & H2 & H3); [lia|done|]. fold (step bits n) in H1, H2, H3.
    split; [congruence|]. split; [by apply H2|]. intros k j Hk Hj. rewrite H3 by lia. rewrite Hbits by done.
    repeat case_bool_decide; try lia; simpl; try done; [by rewrite orb_false_r|].
    by replace (8 * k + j)%nat with n by lia.
Qed.

Lemma quantize_length `{Numbers} v : length (quantize v) = ((length v + 7) / 8)%nat.
Proof. unfold quantize. by rewrite (proj1 (sign_bits_spec _)), length_fmap. Qed.

(** ** The distance *)

(** The dimensions in which two vectors' signs differ. *)
Definition differing (a b : list bool) : nat := length (List.filter (λ p, xorb p.1 p.2) (zip a b)).

Lemma hamming_signs a b : length a = length b → hamming (sign_bits a) (sign_bits b) = Z.of_nat (differing a b).
Proof.
  intros Hlen. destruct (sign_bits_spec a) as (Hla & Ha & Hba). destruct (sign_bits_spec b) as (Hlb & Hb & Hbb).
  rewrite <- Hlen in Hlb, Hbb. unfold hamming.
  rewrite (count_bits_sum Z.lxor xorb lxor_bitwise eq_refl) by congruence. rewrite Hla.
  set (N := ((length a + 7) / 8)%nat) in *. unfold bit_pair.
  rewrite (bsum_flip (λ k j, xorb (Z.testbit (sign_bits a !!! k) (Z.of_nat j)) (Z.testbit (sign_bits b !!! k) (Z.of_nat j)))).
  assert (HN : (length a ≤ 8 * N)%nat).
  { unfold N. pose proof (Nat.div_mod_eq (length a + 7) 8). pose proof (Nat.mod_upper_bound (length a + 7) 8 ltac:(lia)). lia. }
  rewrite (bsum_ext _ (λ i, bool_decide (i < length a)%nat && xorb (a !!! i) (b !!! i))).
  - replace (8 * N)%nat with (length a + (8 * N - length a))%nat by lia. rewrite bsum_add.
    rewrite (bsum_false (λ i, bool_decide (length a + i < length a)%nat && _)) by (intros i _; by rewrite bool_decide_eq_false_2 by lia).
    rewrite Z.add_0_r. unfold differing. rewrite <- (bsum_list (λ p : bool * bool, xorb p.1 p.2)).
    rewrite length_zip, <- Hlen, Nat.min_id.
    apply bsum_ext. intros i Hi. rewrite bool_decide_eq_true_2 by done. simpl.
    rewrite (list_lookup_total_correct (zip a b) i (a !!! i, b !!! i)); [done|].
    apply lookup_zip_with_Some. eexists _, _. split; [done|]. split; apply list_lookup_lookup_total_lt; lia.
  - intros i Hi. pose proof (Nat.div_mod_eq i 8). pose proof (Nat.mod_upper_bound i 8 ltac:(lia)).
    replace (Z.of_nat (7 - i mod 8)) with (7 - Z.of_nat (i mod 8)) by lia.
    assert (Hk : (i / 8 < N)%nat) by lia. rewrite Hba, Hbb by done. rewrite <- H.
    by case_bool_decide.
Qed.

Lemma differing_bound a b : (differing a b ≤ length a)%nat.
Proof.
  unfold differing. etransitivity; [apply List.filter_length_le|]. rewrite length_zip. lia.
Qed.

(** * The mask of the rows a search may answer

    The allowed ids are put in a table at least twice as large, so each search
    for one ends, at its slot or at a free one, and the mask keeps exactly the
    rows whose ids are allowed. *)

(** The number of slots is a power of two with room for twice the ids. *)
Lemma mask_slots_spec fuel n e :
  0 ≤ e → n ≤ 2 ^ (e + Z.of_nat fuel) / 2 →
  ∃ e', slots_for fuel (2 ^ e) n = 2 ^ e' ∧ e ≤ e' ∧ 2 * n ≤ 2 ^ e'.
Proof.
  revert e. induction fuel as [|fuel IH]; intros e He Hn; cbn [slots_for].
  - exists e. rewrite Z.add_0_r in Hn. split; [done|]. split; [done|].
    pose proof (Z.mul_div_le (2 ^ e) 2 ltac:(lia)). lia.
  - destruct (Z.ltb_spec (2 ^ e) (2 * n)) as [Hlt|]; [|by exists e].
    replace (2 ^ e * 2) with (2 ^ (e + 1)) by (rewrite Z.pow_add_r by lia; lia).
    destruct (IH (e + 1)) as (e' & H1 & H2 & H3); [lia| |by exists e'; eauto with lia].
    by replace (e + 1 + Z.of_nat fuel) with (e + Z.of_nat (S fuel)) by lia.
Qed.

Section table.
Context (e : Z) (He : 0 ≤ e).
Let m : Z := 2 ^ e.

Lemma m_pos : 0 < m.
Proof. apply Z.pow_pos_nonneg; lia. Qed.

Lemma m_mask x : Z.land x (m - 1) = x mod m.
Proof. apply land_low; [|done]. unfold m. rewrite Z.ones_equiv. lia. Qed.

Lemma slot_range id : 0 ≤ slot_of id m < m.
Proof. unfold slot_of. rewrite m_mask. apply Z.mod_pos_bound, m_pos. Qed.

(** The place [d] turns after an id's slot. *)
Definition path (id d : Z) : Z := (slot_of id m + d) mod m.

Lemma path_range id d : 0 ≤ path id d < m.
Proof. apply Z.mod_pos_bound, m_pos. Qed.

Lemma path_0 id : path id 0 = slot_of id m.
Proof. unfold path. rewrite Z.add_0_r. apply Z.mod_small, slot_range. Qed.

Lemma path_next id d : Z.land (path id d + 1) (m - 1) = path id (d + 1).
Proof. rewrite m_mask. unfold path. rewrite Zplus_mod_idemp_l. f_equal. lia. Qed.

(** Every place is on every path. *)
Lemma path_onto id j : 0 ≤ j < m → ∃ d, 0 ≤ d < m ∧ path id d = j.
Proof.
  intros Hj. exists ((j - slot_of id m) mod m). split; [apply Z.mod_pos_bound, m_pos|].
  unfold path. rewrite Zplus_mod_idemp_r. replace (slot_of id m + (j - slot_of id m)) with j by lia.
  by apply Z.mod_small.
Qed.

#[local] Opaque slot_of.

Definition at_key (keys : list (option Z)) (j : Z) : option Z := keys !!! Z.to_nat j.

(** Whether the search for an id ends at a place. *)
Definition stops (keys : list (option Z)) (id j : Z) : Prop := at_key keys j = None ∨ at_key keys j = Some id.

#[local] Instance stops_dec keys id j : Decision (stops keys id j).
Proof. unfold stops. solve_decision. Defined.

Lemma probe_finds keys id d n :
  Z.of_nat (length keys) = m → 0 ≤ d →
  (∃ k, 0 ≤ k < Z.of_nat n ∧ stops keys id (path id (d + k))) →
  ∃ k, 0 ≤ k ∧ probe n keys id (path id d) = path id (d + k) ∧ stops keys id (path id (d + k)) ∧
    ∀ k', 0 ≤ k' < k → ¬ stops keys id (path id (d + k')).
Proof.
  intros Hm. revert d. induction n as [|n IH]; intros d Hd (k & Hk & Hstop); [lia|]. cbn [probe].
  fold (at_key keys (path id d)).
  destruct (decide (stops keys id (path id d))) as [Hs|Hs].
  - exists 0. rewrite Z.add_0_r. split; [done|]. split; [|split; [done|lia]].
    destruct Hs as [-> | ->]; [done|]. by rewrite Z.eqb_refl.
  - assert (k ≠ 0) by (intros ->; by rewrite Z.add_0_r in Hstop).
    destruct (at_key keys (path id d)) as [x|] eqn:Hx; [|by destruct Hs; left].
    destruct (Z.eqb_spec x id) as [->|]; [by destruct Hs; right|].
    rewrite Hm, path_next. destruct (IH (d + 1)) as (k1 & H1 & H2 & H3 & H4); [lia| |].
    { exists (k - 1). split; [lia|]. by replace (d + 1 + (k - 1)) with (d + k) by lia. }
    exists (k1 + 1). replace (d + (k1 + 1)) with (d + 1 + k1) by lia. split; [lia|]. split; [done|]. split; [done|].
    intros k' Hk'. destruct (decide (k' = 0)) as [->|]; [by rewrite Z.add_0_r|].
    replace (d + k') with (d + 1 + (k' - 1)) by lia. apply H4. lia.
Qed.

(** The table's state once [ids] are in it. *)
Definition holds_ids (ids : list Z) (keys : list (option Z)) : Prop :=
  Z.of_nat (length keys) = m ∧
  (∀ j k, 0 ≤ j < m → at_key keys j = Some k → k ∈ ids) ∧
  (∀ k, k ∈ ids → ∃ d, 0 ≤ d < m ∧ at_key keys (path k d) = Some k ∧ ∀ d', 0 ≤ d' < d → ¬ stops keys k (path k d')) ∧
  (length (List.filter (λ o, bool_decide (is_Some o)) keys) ≤ length ids)%nat.

(** A table not full has a free place. *)
Lemma free_place ids keys : holds_ids ids keys → Z.of_nat (length ids) < m → ∃ j, 0 ≤ j < m ∧ at_key keys j = None.
Proof.
  intros (Hm & _ & _ & Hcount) Hn.
  destruct (decide (Exists (λ o, o = None) keys)) as [Hex|Hall].
  - apply Exists_exists in Hex as (o & Hin & ->). apply list_elem_of_lookup in Hin as [j Hj].
    exists (Z.of_nat j). pose proof (lookup_lt_Some _ _ _ Hj). split; [lia|].
    unfold at_key. rewrite Nat2Z.id. by apply list_lookup_total_correct.
  - exfalso. enough (length (List.filter (λ o, bool_decide (is_Some o)) keys) = length keys) by lia.
    clear -Hall. induction keys as [|o keys IH]; [done|]. simpl. rewrite Exists_cons in Hall.
    rewrite bool_decide_eq_true_2; [simpl; rewrite IH; tauto|]. apply not_eq_None_Some. tauto.
Qed.

Lemma find_slot_spec ids keys id :
  holds_ids ids keys → Z.of_nat (length ids) < m →
  ∃ d, 0 ≤ d < m ∧ find_slot keys id = path id d ∧ stops keys id (path id d) ∧ ∀ d', 0 ≤ d' < d → ¬ stops keys id (path id d').
Proof.
  intros Hk Hn. destruct (free_place ids keys Hk Hn) as (j & Hj & Hfree). destruct (path_onto id j Hj) as (k & Hkm & Hpath).
  destruct Hk as (Hm & _).
  destruct (probe_finds keys id 0 (length keys) Hm ltac:(lia)) as (d & Hd & Heq & Hs & Hall).
  { exists k. split; [lia|]. left. by rewrite Z.add_0_l, Hpath. }
  rewrite Z.add_0_l in *. exists d. split.
  - split; [done|]. destruct (Z.lt_ge_cases d m); [done|]. exfalso. apply (Hall k); [lia|].
    rewrite Z.add_0_l. left. by rewrite Hpath.
  - unfold find_slot. rewrite Hm, <- path_0. done.
Qed.

Lemma find_slot_used ids keys id :
  holds_ids ids keys → Z.of_nat (length ids) < m → is_Some (at_key keys (find_slot keys id)) ↔ id ∈ ids.
Proof.
  intros Hk Hn. destruct (find_slot_spec ids keys id Hk Hn) as (d & Hd & -> & Hs & Hall). destruct Hk as (Hm & H1 & H2 & _).
  split.
  - intros [k Hkey]. destruct Hs as [Hs|Hs]; [congruence|]. apply (H1 (path id d)); [apply path_range|done].
  - intros Hin. destruct (H2 id Hin) as (d' & Hd' & Hkey & Hall'). destruct Hs as [Hs|Hs]; [|by rewrite Hs].
    destruct (Z.lt_trichotomy d d') as [Hlt|[->|Hlt]].
    + exfalso. apply (Hall' d); [lia|by left].
    + by rewrite Hkey.
    + exfalso. apply (Hall d'); [lia|by right].
Qed.

Lemma filter_insert {X} (p : X → bool) (l : list X) i x :
  (length (List.filter p (<[i:=x]> l)) ≤ S (length (List.filter p l)))%nat.
Proof.
  revert i. induction l as [|y l IH]; intros [|i]; simpl; try lia.
  - destruct (p x), (p y); simpl; lia.
  - specialize (IH i). destruct (p y); simpl; lia.
Qed.

Lemma mask_holds_insert ids keys id :
  holds_ids ids keys → Z.of_nat (length ids) < m →
  holds_ids (ids ++ [id]) (<[Z.to_nat (find_slot keys id) := Some id]> keys).
Proof.
  intros Hk Hn. destruct (find_slot_spec ids keys id Hk Hn) as (d & Hd & -> & Hs & Hall). destruct Hk as (Hm & H1 & H2 & Hc).
  pose proof (path_range id d) as Hr.
  assert (Hat : ∀ j, 0 ≤ j < m → at_key (<[Z.to_nat (path id d) := Some id]> keys) j = if decide (j = path id d) then Some id else at_key keys j).
  { intros j Hj. unfold at_key. case_decide as Hjd.
    - subst j. rewrite list_lookup_total_insert_eq; [done|lia].
    - rewrite list_lookup_total_insert_ne; [done|lia]. }
  assert (Hstay : ∀ k j, 0 ≤ j < m → k ≠ id → ¬ stops keys k j → ¬ stops (<[Z.to_nat (path id d) := Some id]> keys) k j).
  { intros k j Hj Hne Hns. unfold stops. rewrite Hat by done. case_decide; [intros [?|?]; congruence|exact Hns]. }
  split; [by rewrite length_insert|]. split; [|split].
  - intros j k Hj. rewrite Hat by done. rewrite elem_of_app, list_elem_of_singleton. case_decide.
    + intros [= ->]. by right.
    + intros Hkey. left. by apply (H1 j).
  - intros k Hin. destruct (decide (k = id)) as [->|Hne].
    + exists d. split; [done|]. rewrite Hat by apply path_range. rewrite decide_True by done. split; [done|].
      intros d' Hd'. unfold stops. rewrite Hat by apply path_range. case_decide as Heq; [|by apply Hall].
      exfalso. apply (Hall d'); [done|]. by rewrite Heq.
    + assert (Hink : k ∈ ids) by (apply elem_of_app in Hin as [?|Heq%list_elem_of_singleton]; done).
      destruct (H2 k Hink) as (d' & Hd' & Hkey & Hall'). exists d'. split; [done|].
      rewrite Hat by apply path_range. rewrite decide_False.
      * split; [done|]. intros d'' Hd''. apply Hstay; [apply path_range|done|by apply Hall'].
      * intros Heq. rewrite Heq in Hkey. destruct Hs as [Hs|Hs]; congruence.
  - rewrite length_app. simpl. etransitivity; [apply filter_insert|]. lia.
Qed.

Context `{LuaIntegers}.

Lemma keys_loop_holds items ids keys :
  holds_ids ids keys → Z.of_nat (length ids + length items) < m →
  match keys_loop items keys with
  | Some keys' => ∃ added, mapM lua_tointegerx items = Some added ∧ holds_ids (ids ++ added) keys'
  | None => mapM lua_tointegerx items = None
  end.
Proof.
  revert ids keys. induction items as [|item items IH]; intros ids keys Hk Hn; simpl.
  - exists []. by rewrite app_nil_r.
  - destruct (lua_tointegerx item) as [id|]; simpl; [|done]. simpl in Hn.
    specialize (IH (ids ++ [id]) _ (mask_holds_insert ids keys id Hk ltac:(lia))). rewrite length_app in IH. simpl in IH.
    specialize (IH ltac:(lia)). destruct (keys_loop items _) as [keys'|].
    + destruct IH as (added & -> & Hh). exists (id :: added). split; [done|]. by rewrite <- app_assoc in Hh.
    + by rewrite IH.
Qed.

Lemma empty_holds n : Z.of_nat n = m → holds_ids [] (replicate n None).
Proof.
  intros Hn. split; [by rewrite length_replicate|]. split; [|split].
  - intros j k Hj. unfold at_key. rewrite lookup_total_replicate_2 by lia. done.
  - intros k ?%elem_of_nil. done.
  - clear. induction n as [|n IH]; simpl; [done|exact IH].
Qed.

End table.

(** The mask keeps a row exactly when its id is allowed; there is none when an
    entry is no integer. *)
Lemma allow_mask_spec `{LuaIntegers} items ids :
  Z.of_nat (length items) ≤ 2 ^ 62 →
  allow_mask items ids = (λ allowed, (λ id, bool_decide (id ∈ allowed)) <$> ids) <$> mapM lua_tointegerx items.
Proof.
  intros Hn. unfold allow_mask.
  destruct (mask_slots_spec 64 (Z.of_nat (length items)) 4) as (e & Hs & He & H2n); [lia| |].
  { etransitivity; [exact Hn|]. vm_compute. discriminate. }
  change 16 with (2 ^ 4). rewrite Hs.
  assert (Hm : 0 < 2 ^ e) by (apply Z.pow_pos_nonneg; lia).
  assert (H16 : 2 ^ 4 ≤ 2 ^ e) by (apply Z.pow_le_mono_r; lia). change (2 ^ 4) with 16 in H16.
  assert (Hlt : Z.of_nat (length items) < 2 ^ e) by lia.
  pose proof (keys_loop_holds e ltac:(lia) items [] (replicate (Z.to_nat (2 ^ e)) None)) as Hloop.
  specialize (Hloop (empty_holds e ltac:(lia) _ (Z2Nat.id _ (Z.lt_le_incl _ _ Hm))) Hlt).
  destruct (keys_loop items _) as [keys|]; [|by rewrite Hloop].
  destruct Hloop as (allowed & Hall & Hk). rewrite Hall. simpl. f_equal. apply list_fmap_ext. intros i id _.
  apply bool_decide_ext. apply (find_slot_used e ltac:(lia) allowed keys id); [done|].
  apply length_mapM in Hall. lia.
Qed.

(** * The first pass

    The histogram of distances gives the distance at which there are enough
    candidates, and the rows taken are exactly the nearest ones, the earliest
    among equals, as many as were asked for. *)

(** ** Counts *)

Definition cnt {X} (p : X → bool) (l : list X) : nat := length (List.filter p l).

Section cnt.
Context {X : Type}.
Implicit Types (p q : X → bool) (l : list X).

Lemma cnt_app p l1 l2 : cnt p (l1 ++ l2) = (cnt p l1 + cnt p l2)%nat.
Proof. unfold cnt. by rewrite List.filter_app, length_app. Qed.

Lemma cnt_cons p x l : cnt p (x :: l) = (Nat.b2n (p x) + cnt p l)%nat.
Proof. unfold cnt. simpl. by destruct (p x). Qed.

Lemma cnt_snoc p l x : cnt p (l ++ [x]) = (cnt p l + Nat.b2n (p x))%nat.
Proof. rewrite cnt_app, cnt_cons. change (cnt p []) with 0%nat. lia. Qed.

Lemma cnt_none p l : (∀ x, x ∈ l → p x = false) → cnt p l = 0%nat.
Proof.
  induction l as [|x l IH]; intros Hp; [done|]. rewrite cnt_cons, IH by (intros y Hy; apply Hp; by right).
  by rewrite Hp by apply list_elem_of_here.
Qed.

Lemma cnt_le p q l : (∀ x, x ∈ l → p x = true → q x = true) → (cnt p l ≤ cnt q l)%nat.
Proof.
  induction l as [|x l IH]; intros Hpq; [done|]. rewrite !cnt_cons.
  specialize (IH (λ y Hy, Hpq y (list_elem_of_further _ _ _ Hy))). specialize (Hpq x (list_elem_of_here _ _)).
  destruct (p x); [rewrite Hpq by done|]; simpl; lia.
Qed.

Lemma cnt_ext p q l : (∀ x, x ∈ l → p x = q x) → cnt p l = cnt q l.
Proof. intros Hpq. apply Nat.le_antisymm; apply cnt_le; intros x Hx; by rewrite Hpq. Qed.

Lemma cnt_lt p q l x :
  (∀ y, y ∈ l → p y = true → q y = true) → x ∈ l → p x = false → q x = true → (cnt p l < cnt q l)%nat.
Proof.
  intros Hpq (l1 & l2 & ->)%list_elem_of_split Hp Hq. rewrite !cnt_app, !cnt_cons, Hp, Hq. simpl.
  assert (cnt p l1 ≤ cnt q l1)%nat by (apply cnt_le; intros y Hy; apply Hpq, elem_of_app; by left).
  assert (cnt p l2 ≤ cnt q l2)%nat by (apply cnt_le; intros y Hy; apply Hpq, elem_of_app; right; by right).
  lia.
Qed.

Lemma cnt_or p q l :
  (∀ x, x ∈ l → p x && q x = false) → cnt (λ x, p x || q x) l = (cnt p l + cnt q l)%nat.
Proof.
  induction l as [|x l IH]; intros Hd; [done|]. rewrite !cnt_cons, IH by (intros y Hy; apply Hd; by right).
  specialize (Hd x (list_elem_of_here _ _)). by destruct (p x), (q x); simpl in *; try lia.
Qed.

End cnt.

(** Those below [r] in the sequence to [n]. *)
Lemma cnt_below (p : nat → bool) r n :
  (r ≤ n)%nat → cnt (λ r', p r' && (r' <? r)%nat) (seq 0 n) = cnt p (seq 0 r).
Proof.
  intros Hr. replace n with (r + (n - r))%nat by lia. rewrite seq_app, cnt_app.
  rewrite (cnt_ext _ p (seq 0 r)) by (intros x Hx%elem_of_seq; rewrite (proj2 (Nat.ltb_lt _ _)) by lia; by rewrite andb_true_r).
  rewrite (cnt_none _ (seq (0 + r) (n - r))); [lia|].
  intros x Hx%elem_of_seq. rewrite (proj2 (Nat.ltb_ge _ _)) by lia. by rewrite andb_false_r.
Qed.

(** ** Nearest rows *)

Section nearest.
Context (n : nat) (eligible : nat → bool) (d : nat → nat).

(** Whether [r'] comes before [r]: it is nearer, or as near and earlier. *)
Definition closer (r r' : nat) : bool := eligible r' && ((d r' <? d r)%nat || ((d r' =? d r)%nat && (r' <? r)%nat)).

(** The eligible rows with fewer than [candidates] before them. *)
Definition nearest (candidates : Z) : list nat :=
  List.filter (λ r, eligible r && (Z.of_nat (cnt (closer r) (seq 0 n)) <? candidates)) (seq 0 n).

Definition nearer (t r : nat) : bool := eligible r && (d r <? t)%nat.
Definition at_distance (t r : nat) : bool := eligible r && (d r =? t)%nat.

(** What decides whether a row is taken by the threshold. *)
Lemma threshold_decides candidates t r :
  (r < n)%nat → eligible r = true →
  let below := Z.of_nat (cnt (nearer t) (seq 0 n)) in
  below < candidates → candidates ≤ below + Z.of_nat (cnt (at_distance t) (seq 0 n)) →
  (d r <? t)%nat || ((d r =? t)%nat && (Z.of_nat (cnt (at_distance t) (seq 0 r)) <? candidates - below))
  = (Z.of_nat (cnt (closer r) (seq 0 n)) <? candidates).
Proof.
  intros Hr He below Hlow Hhigh. subst below.
  assert (Hin : r ∈ seq 0 n) by (apply elem_of_seq; lia).
  destruct (Nat.ltb_spec (d r) t) as [Hlt|Hge]; simpl.
  { assert (cnt (closer r) (seq 0 n) < cnt (nearer t) (seq 0 n))%nat.
    { apply (cnt_lt _ _ _ r); [|done| |].
      - intros y _ (Hy & Hc)%andb_true_iff. unfold nearer. rewrite Hy. apply Nat.ltb_lt.
        apply orb_true_iff in Hc as [Hc%Nat.ltb_lt|(Hc%Nat.eqb_eq & _)%andb_true_iff]; lia.
      - unfold closer. rewrite He, !Nat.ltb_irrefl. simpl. by rewrite andb_false_r.
      - unfold nearer. rewrite He. by apply Nat.ltb_lt. }
    symmetry. apply Z.ltb_lt. lia. }
  destruct (Nat.eqb_spec (d r) t) as [Heq|Hne]; simpl.
  - assert (Hc : cnt (closer r) (seq 0 n) = (cnt (nearer t) (seq 0 n) + cnt (at_distance t) (seq 0 r))%nat).
    { rewrite <- (cnt_below (at_distance t) r n) by lia. rewrite <- cnt_or.
      - apply cnt_ext. intros y _. unfold closer, nearer, at_distance. rewrite Heq. by destruct (eligible y).
      - intros y _. unfold nearer, at_distance. destruct (eligible y), (Nat.ltb_spec (d y) t), (Nat.eqb_spec (d y) t); simpl; try done. lia. }
    rewrite Hc. zcases; lia.
  - assert (cnt (nearer t) (seq 0 n) + cnt (at_distance t) (seq 0 n) ≤ cnt (closer r) (seq 0 n))%nat.
    { rewrite <- cnt_or.
      - apply cnt_le. intros y _. unfold closer, nearer, at_distance. destruct (eligible y); [|done]. simpl.
        intros Hy. apply orb_true_iff. left. apply Nat.ltb_lt.
        apply orb_true_iff in Hy as [Hy%Nat.ltb_lt|Hy%Nat.eqb_eq]; lia.
      - intros y _. unfold nearer, at_distance. destruct (eligible y), (Nat.ltb_spec (d y) t), (Nat.eqb_spec (d y) t); simpl; try done. lia. }
    symmetry. apply Z.ltb_ge. lia.
Qed.

Context (mask : option (list bool)) (Hmask : ∀ r, (r < n)%nat → skipped mask r = negb (eligible r)).
Context (distance : list Z) (Hdist : ∀ r, (r < n)%nat → eligible r = true → distance !!! r = Z.of_nat (d r)).

Lemma take_loop_spec t tied k m :
  (k + m = n)%nat →
  take_loop mask distance (Z.of_nat t) (seq k m) (Z.max 0 (tied - Z.of_nat (cnt (at_distance t) (seq 0 k))))
  = List.filter (λ r, eligible r && ((d r <? t)%nat || ((d r =? t)%nat && (Z.of_nat (cnt (at_distance t) (seq 0 r)) <? tied)))) (seq k m).
Proof.
  revert k. induction m as [|m IH]; intros k Hk; [done|]. simpl. rewrite Hmask by lia.
  pose proof (IH (S k) ltac:(lia)) as IH'. rewrite seq_S, cnt_app, cnt_cons in IH'. simpl in IH'.
  unfold at_distance at 2 in IH'. rewrite Nat.add_0_r in IH'.
  destruct (eligible k) eqn:He; simpl in *.
  2:{ by rewrite Nat.add_0_r in IH'. }
  rewrite Hdist by (done || lia).
  replace (Z.of_nat (d k) <? Z.of_nat t) with (d k <? t)%nat by (destruct (Nat.ltb_spec (d k) t); zcases; done || lia).
  replace (Z.of_nat (d k) =? Z.of_nat t) with (d k =? t)%nat by (destruct (Nat.eqb_spec (d k) t); zcases; done || lia).
  destruct (Nat.ltb_spec (d k) t) as [Hlt|Hge]; simpl.
  - rewrite (proj2 (Nat.eqb_neq _ _)) in IH' by lia. simpl in IH'. rewrite Nat.add_0_r in IH'. by rewrite IH'.
  - destruct (Nat.eqb_spec (d k) t) as [Heq|Hne]; simpl in *.
    + destruct (Z.ltb_spec (Z.of_nat (cnt (at_distance t) (seq 0 k))) tied).
      * rewrite (proj2 (Z.ltb_lt _ _)) by lia. simpl. rewrite <- IH'. do 2 f_equal. lia.
      * rewrite (proj2 (Z.ltb_ge _ _)) by lia. simpl. rewrite <- IH'. f_equal. lia.
    + by rewrite Nat.add_0_r in IH'.
Qed.

Lemma taken_nearest candidates t :
  let below := Z.of_nat (cnt (nearer t) (seq 0 n)) in
  below < candidates → candidates ≤ below + Z.of_nat (cnt (at_distance t) (seq 0 n)) →
  take_loop mask distance (Z.of_nat t) (seq 0 n) (candidates - below) = nearest candidates.
Proof.
  intros below Hlow Hhigh. pose proof (take_loop_spec t (candidates - below) 0 n eq_refl) as Ht.
  change (cnt (at_distance t) (seq 0 0)) with 0%nat in Ht.
  rewrite (Z.max_r 0) in Ht by lia. rewrite Z.sub_0_r in Ht. rewrite Ht. unfold nearest.
  apply List.filter_ext_in. intros r Hr%list_elem_of_In%elem_of_seq. destruct (eligible r) eqn:He; [|done]. simpl.
  apply threshold_decides; [lia|done|done|done].
Qed.

(** ** The histogram *)

Lemma cnt_nearer_S t l : cnt (nearer (S t)) l = (cnt (nearer t) l + cnt (at_distance t) l)%nat.
Proof.
  rewrite <- cnt_or.
  - apply cnt_ext. intros r _. unfold nearer, at_distance. destruct (eligible r); [|done]. simpl.
    destruct (Nat.ltb_spec (d r) (S t)), (Nat.ltb_spec (d r) t), (Nat.eqb_spec (d r) t); simpl; done || lia.
  - intros r _. unfold nearer, at_distance.
    destruct (eligible r), (Nat.ltb_spec (d r) t), (Nat.eqb_spec (d r) t); simpl; try done. lia.
Qed.

Lemma threshold_loop_spec fuel histogram dims candidates t :
  (∀ i, (i ≤ dims)%nat → histogram !!! i = Z.of_nat (cnt (at_distance i) (seq 0 n))) →
  Z.of_nat (cnt (nearer t) (seq 0 n)) < candidates →
  candidates ≤ Z.of_nat (cnt (nearer (S dims)) (seq 0 n)) →
  (t + fuel = dims)%nat →
  ∃ t', threshold_loop fuel histogram candidates (Z.of_nat (cnt (nearer t) (seq 0 n))) t
      = (Z.of_nat (cnt (nearer t') (seq 0 n)), t') ∧
    Z.of_nat (cnt (nearer t') (seq 0 n)) < candidates ∧
    candidates ≤ Z.of_nat (cnt (nearer t') (seq 0 n)) + Z.of_nat (cnt (at_distance t') (seq 0 n)).
Proof.
  intros Hh. revert t. induction fuel as [|fuel IH]; intros t Hlow Hhigh Ht; simpl.
  - exists t. replace dims with t in Hhigh by lia. rewrite cnt_nearer_S in Hhigh. split; [done|]. lia.
  - rewrite Hh by lia. rewrite <- Nat2Z.inj_add, <- cnt_nearer_S.
    destruct (Z.ltb_spec (Z.of_nat (cnt (nearer (S t)) (seq 0 n))) candidates) as [Hlt|Hge].
    + apply IH; [done|done|lia].
    + exists t. split; [done|]. split; [done|]. by rewrite <- Nat2Z.inj_add, <- cnt_nearer_S.
Qed.

End nearest.
