(* ===== verification/VectorSearch.v ===== *)
(** * A search answers the best rows

    A corpus stands for the vectors added to it, and a search of it answers,
    unless a signal interrupts it, the best of its eligible rows, or of the
    nearest of them by sign bits, best first. *)

From S2P Require Import Prelude.
From S2P Require Import Lua.
From S2P Require Import Vector.
From S2P Require Import VectorHeap.
From S2P Require Import VectorBits.

Local Open Scope Z_scope.

Section search.
Context `{Numbers, Signals, LuaIntegers, LuaStrings, RawLen}.

(** ** A corpus and what was added to it *)

Record represents (c : corpus) (adds : list (Z * list float)) : Prop := {
  r_ids : c_ids c = adds.*1;
  r_data : c_data c = store_row (c_storage c) <$> adds.*2;
  r_bits : c_bits c = quantize <$> take (length (c_bits c)) adds.*2;
  r_built : (length (c_bits c) ≤ length adds)%nat;
  r_quantized : c_storage c ≠ F32 → length (c_bits c) = length adds;
  r_dims : Forall (λ v, length v = c_dims c) adds.*2;
  r_range : (1 ≤ c_dims c ≤ Z.to_nat MAX_DIMS)%nat;
  r_room : Z.of_nat (length adds) ≤ c_capacity c }.

Lemma r_count c adds : represents c adds → c_count c = length adds.
Proof. intros Hr. unfold c_count. by rewrite (r_ids _ _ Hr), length_fmap. Qed.

Lemma corpus_made dims name c : vector_corpus dims name = Answers c → represents c [].
Proof.
  unfold vector_corpus. destruct (lua_tointegerx dims) as [n|]; [|done].
  destruct ((1 <=? n) && (n <=? MAX_DIMS)) eqn:Hn; [|done]. apply andb_true_iff in Hn as [Hlow%Z.leb_le Hhigh%Z.leb_le].
  assert ((1 ≤ Z.to_nat n ≤ Z.to_nat MAX_DIMS)%nat) by lia.
  simpl. destruct (opt_string name); [|done]. repeat case_decide; intros [= <-]; split; simpl; done.
Qed.

Lemma length_floats n s : length (floats_of n s) = n.
Proof. revert s. induction n as [|n IH]; intros s; simpl; [done|by rewrite IH]. Qed.

Lemma check_floats_length dims arg v : check_floats dims arg = inl v → length v = dims ∧ Forall (λ x, is_finite x = true) v.
Proof.
  unfold check_floats. destruct (lua_tolstring arg) as [s|]; [|done]. destruct (negb _); [done|].
  destruct (forallb is_finite (floats_of dims s)) eqn:Hf; [|done]. intros [= <-].
  split; [apply length_floats|by apply forallb_Forall].
Qed.

Lemma reserve_room c c' adds : represents c adds → reserve c 1 = Some c' →
  represents c' adds ∧ Z.of_nat (length adds) + 1 ≤ c_capacity c' ∧ c_storage c' = c_storage c ∧ c_dims c' = c_dims c.
Proof.
  intros Hr. unfold reserve. rewrite (r_count _ _ Hr). destruct (Z.leb_spec 1 (c_capacity c - Z.of_nat (length adds))).
  - intros [= <-]. split; [done|]. split; [lia|done].
  - destruct (_ <? 1); [done|]. set (grown := if c_capacity c =? 0 then _ else _).
    set (room := if grown <? _ then _ else _). destruct (fits _ _); [|done]. intros [= <-].
    assert (Z.of_nat (length adds) + 1 ≤ room) by (unfold room; zcases; lia).
    split; [|done]. destruct Hr. split; simpl; try done. lia.
Qed.

Lemma corpus_added c adds id v c' :
  represents c adds → corpus_add c id v = Answers c' →
  ∃ i fs, lua_tointegerx id = Some i ∧ check_floats (c_dims c) v = inl fs ∧ represents c' (adds ++ [(i, fs)]) ∧
    c_storage c' = c_storage c ∧ c_dims c' = c_dims c.
Proof.
  intros Hr. unfold corpus_add. destruct (lua_tointegerx id) as [i|]; [|done].
  destruct (check_floats (c_dims c) v) as [fs|] eqn:Hfs; [|done]. destruct (bool_decide _ && _); [done|].
  destruct (reserve c 1) as [c1|] eqn:Hres; [|done]. intros [= <-]. exists i, fs. split; [done|]. split; [done|].
  apply check_floats_length in Hfs as [Hlen _]. destruct (reserve_room _ _ _ Hr Hres) as (Hr1 & Hroom & Hs & Hd).
  split; [|done]. destruct Hr1 as [Hi Hda Hb Hbl Hq Hdm Hrg Hrm].
  split; simpl; rewrite ?fmap_app, ?length_app; simpl; try done.
  - by rewrite Hi.
  - by rewrite Hda.
  - destruct (c_storage c1) eqn:Hst.
    1: by rewrite take_app_le by (rewrite length_fmap; lia).
    all: rewrite length_app, Hq by done; simpl; rewrite Hb at 1; rewrite Hq by done;
      rewrite !take_ge by (rewrite ?length_app, ?length_fmap; simpl; lia); by rewrite fmap_app.
  - destruct (c_storage c1) eqn:Hst; rewrite ?length_app; simpl; lia.
  - intros Hne. destruct (c_storage c1) eqn:Hst; [done| |]; rewrite length_app, Hq by done; done.
  - apply Forall_app. split; [done|]. constructor; [congruence|done].
  - lia.
Qed.

(** ** Loops a signal interrupts *)

Lemma each_row_spec {X} (f : nat → X → X) n row asked x :
  let '(asked', r) := each_row f n row asked x in
  (asked ≤ asked')%nat ∧
  match r with
  | Some y => y = foldl (λ x i, f i x) x (seq row n) ∧ ∀ i, (asked ≤ i < asked')%nat → cosmic_signal_caught i = false
  | None => ∃ i, (asked ≤ i < asked')%nat ∧ cosmic_signal_caught i = true
  end.
Proof.
  revert row asked x. induction n as [|n IH]; intros row asked x; simpl; [split; [done|split; [done|lia]]|].
  case_bool_decide.
  - destruct (cosmic_signal_caught asked) eqn:Hc; [split; [lia|exists asked; split; [lia|done]]|].
    specialize (IH (S row) (S asked) (f row x)). destruct (each_row _ _ _ _ _) as [asked' [y|]].
    + destruct IH as (Hle & Hy & Hno). split; [lia|]. split; [done|]. intros i Hi.
      destruct (decide (i = asked)) as [->|]; [done|]. apply Hno. lia.
    + destruct IH as (Hle & i & Hi & Hci). split; [lia|]. exists i. split; [lia|done].
  - specialize (IH (S row) asked (f row x)). destruct (each_row _ _ _ _ _) as [asked' [y|]]; done.
Qed.

Lemma foldl_snoc_seq (g : nat → bytes) l n k :
  foldl (λ (x : list bytes) i, x ++ [g i]) l (seq k n) = l ++ (g <$> seq k n).
Proof.
  revert l k. induction n as [|n IH]; intros l k; simpl; [by rewrite app_nil_r|]. rewrite IH. by rewrite <- app_assoc.
Qed.

Lemma ensured asked c adds :
  represents c adds →
  let '(asked', r) := ensure_bits asked c in
  (asked ≤ asked')%nat ∧
  match r with
  | Some c' => represents c' adds ∧ length (c_bits c') = length adds ∧ c_storage c' = c_storage c ∧ c_dims c' = c_dims c ∧
      (∀ i, (asked ≤ i < asked')%nat → cosmic_signal_caught i = false)
  | None => ∃ i, (asked ≤ i < asked')%nat ∧ cosmic_signal_caught i = true
  end.
Proof.
  intros Hr. unfold ensure_bits. rewrite (r_count _ _ Hr). case_bool_decide as Hb.
  - split; [done|]. split; [done|]. split; [done|]. split; [done|]. split; [done|lia].
  - set (f := λ i bits, bits ++ [quantize (row_floats (c_data c !!! i))]).
    pose proof (each_row_spec f (length adds - length (c_bits c)) (length (c_bits c)) asked (c_bits c)) as He.
    destruct (each_row f _ _ _ _) as [asked' [bits|]]; [|exact He]. destruct He as (Hle & -> & Hno).
    destruct Hr as [Hi Hda Hbi Hbl Hq Hdm Hrg Hrm].
    assert (Hst : c_storage c = F32) by (destruct (c_storage c) eqn:Hst; [done| |]; destruct Hb; by apply Hq).
    unfold f. rewrite foldl_snoc_seq.
    assert (Hall : c_bits c ++ ((λ i, quantize (row_floats (c_data c !!! i))) <$> seq (length (c_bits c)) (length adds - length (c_bits c)))
      = quantize <$> adds.*2).
    { rewrite <- (take_drop (length (c_bits c)) adds.*2) at 1. rewrite fmap_app, <- Hbi. f_equal.
      apply list_eq. intros i. rewrite !list_lookup_fmap, lookup_drop.
      destruct (decide (i < length adds - length (c_bits c))%nat) as [Hlt|Hge].
      - rewrite lookup_seq_lt by done. simpl. rewrite Hda, Hst.
        destruct (lookup_lt_is_Some_2 adds.*2 (length (c_bits c) + i)) as [v Hv]; [rewrite length_fmap; lia|].
        rewrite (list_lookup_total_correct _ _ (inl v)) by (by rewrite list_lookup_fmap, Hv). by rewrite Hv.
      - rewrite lookup_seq_ge by lia. rewrite lookup_ge_None_2 by (rewrite length_fmap; lia). done. }
    rewrite Hall. simpl. split; [done|]. split; [|split; [|done]].
    + split; simpl; rewrite ?length_fmap; try done. by rewrite take_ge by (rewrite length_fmap; lia).
    + simpl. by rewrite !length_fmap.
Qed.

(** ** What a search is to answer *)

Section spec.
Context (adds : list (Z * list float)) (allowed : option (list Z)) (q : list float) (m : metric).

Definition id_of (r : nat) : Z := adds.*1 !!! r.
Definition vector_of (r : nat) : list float := adds.*2 !!! r.

(** A row is eligible when no ids are given or its id is among them. *)
Definition eligible (r : nat) : bool :=
  match allowed with None => true | Some ids => bool_decide (id_of r ∈ ids) end.
Definition eligible_rows : list nat := List.filter eligible (seq 0 (length adds)).

(** The dimensions in which a row's signs are not the query's. *)
Definition sign_distance (r : nat) : nat := differing (above_zero <$> vector_of r) (above_zero <$> q).

(** The rows scored: all that are eligible, or the nearest of them. *)
Definition scored_rows (candidates : Z) : list nat :=
  if (0 <? candidates) && (candidates <? Z.of_nat (length eligible_rows))
  then nearest (length adds) eligible sign_distance candidates else eligible_rows.

(** A row's hit, unless its key is not a number. *)
Definition hit_of (s : storage) (r : nat) : option hit :=
  (λ k, Hit k r) <$> row_key (store_row s (vector_of r)) q m.

Definition shown (h : hit) : Z * key := (id_of (h_row h), score m (h_key h)).

(** The best [k] of some rows, best first: nothing left out is better. *)
Definition best_answer (s : storage) (rows : list nat) (k : Z) (l : list (Z * key)) : Prop :=
  ∃ hits out, l = shown <$> hits ∧ omap (hit_of s) rows ≡ₚ hits ++ out ∧ best_first adds.*1 hits ∧
    Z.of_nat (length hits) = k `min` Z.of_nat (length (omap (hit_of s) rows)) ∧
    ∀ x y, x ∈ out → y ∈ hits → better adds.*1 x y = false.

End spec.

(** What the argument of allowed ids is. *)
Definition allow_argument (h : heap) (arg : lua_value) : option (option (list Z)) :=
  match arg with
  | LNil => Some None
  | LTable a => Some <$> mapM lua_tointegerx (rawgeti (table_at h a) ∘ Z.of_nat <$> seq 1 (Z.to_nat (lua_rawlen (table_at h a))))
  | _ => None
  end.

Definition allow_length (h : heap) (arg : lua_value) : Z :=
  match arg with LTable a => lua_rawlen (table_at h a) | _ => 0 end.

(** A mask over the rows of the ids allowed. *)
Definition masks (adds : list (Z * list float)) (allowed : option (list Z)) (mask : option (list bool)) : Prop :=
  mask = (λ ids, (λ id, bool_decide (id ∈ ids)) <$> adds.*1) <$> allowed.

Lemma mask_made c adds h arg allowed :
  represents c adds → allow_argument h arg = Some allowed → allow_length h arg ≤ 2 ^ 62 →
  ∃ mask, mask_of h arg (c_ids c) = inl mask ∧ masks adds allowed mask.
Proof.
  intros Hr Ha Hlen. destruct arg; simpl in *; try done.
  - injection Ha as <-. by exists None.
  - rewrite allow_mask_spec by (rewrite length_fmap, length_seq; lia). rewrite (r_ids _ _ Hr).
    destruct (mapM _ _) as [ids|]; [|done]. injection Ha as <-. by eexists.
Qed.

Lemma masked adds allowed mask r :
  masks adds allowed mask → (r < length adds)%nat → skipped mask r = negb (eligible adds allowed r).
Proof.
  intros -> Hr. destruct allowed as [ids|]; [|done]. simpl. f_equal. apply list_lookup_total_correct.
  rewrite list_lookup_fmap. unfold id_of. by rewrite list_lookup_lookup_total_lt by (by rewrite length_fmap).
Qed.

Lemma mask_count adds allowed mask :
  masks adds allowed mask →
  match mask with Some mask => length (List.filter id mask) | None => length adds end = length (eligible_rows adds allowed).
Proof.
  intros ->. unfold eligible_rows. destruct allowed as [ids|]; simpl.
  - unfold eligible, id_of. generalize (adds.*1) (length_fmap fst adds). intros l Hl. rewrite <- Hl. clear.
    induction l as [|x l IH] using rev_ind; [done|].
    rewrite fmap_app, length_app, List.filter_app, length_app. simpl. rewrite Nat.add_1_r, seq_S, List.filter_app, length_app. simpl.
    rewrite lookup_total_app_r, Nat.sub_diag by lia. simpl. f_equal.
    + rewrite IH. f_equal. apply List.filter_ext_in. intros r Hr%list_elem_of_In%elem_of_seq. by rewrite lookup_total_app_l by lia.
    + by destruct (bool_decide (x ∈ ids)).
  - rewrite (List.filter_ext_in _ (λ _, true)) by done. induction (length adds) as [|n IH]; [done|].
    rewrite seq_S, List.filter_app, length_app. simpl. lia.
Qed.

(** ** The first pass *)

Lemma measured c adds allowed mask q n :
  represents c adds → length (c_bits c) = length adds → masks adds allowed mask → length q = c_dims c →
  Z.of_nat (length adds) < 2 ^ 32 → (n ≤ length adds)%nat →
  let '(distance, histogram) := foldl (λ s r, measure c (quantize q) mask r s)
    (replicate (length adds) 0, replicate (c_dims c + 1) 0) (seq 0 n) in
  length distance = length adds ∧ length histogram = (c_dims c + 1)%nat ∧
  (∀ r, (r < n)%nat → eligible adds allowed r = true → distance !!! r = Z.of_nat (sign_distance adds q r)) ∧
  (∀ t, (t ≤ c_dims c)%nat → histogram !!! t = Z.of_nat (cnt (at_distance (eligible adds allowed) (sign_distance adds q) t) (seq 0 n))).
Proof.
  intros Hr Hbits Hmask Hq Hsmall. induction n as [|n IH]; intros Hn.
  { simpl. rewrite !length_replicate. split; [done|]. split; [done|]. split; [lia|].
    intros t Ht. by rewrite lookup_total_replicate_2 by lia. }
  specialize (IH ltac:(lia)). rewrite seq_S, foldl_app. simpl foldl.
  destruct (foldl _ _ (seq 0 n)) as [distance histogram]. destruct IH as (Hld & Hlh & Hd & Hh).
  unfold measure. rewrite (masked adds allowed mask n Hmask ltac:(lia)).
  assert (Hcnt : ∀ t, cnt (at_distance (eligible adds allowed) (sign_distance adds q) t) (seq 0 n ++ [n])
    = (cnt (at_distance (eligible adds allowed) (sign_distance adds q) t) (seq 0 n)
      + Nat.b2n (at_distance (eligible adds allowed) (sign_distance adds q) t n))%nat).
  { intros t. apply cnt_snoc. }
  destruct (eligible adds allowed n) eqn:He; simpl.
  2:{ split; [done|]. split; [done|]. split.
      - intros r Hrn Her. apply Hd; [|done]. destruct (decide (r = n)) as [->|]; [congruence|lia].
      - intros t Ht. rewrite Hcnt. unfold at_distance at 2. rewrite He. simpl. rewrite Nat.add_0_r. by apply Hh. }
  assert (Hv : ∃ v, adds.*2 !! n = Some v ∧ length v = c_dims c).
  { destruct (lookup_lt_is_Some_2 adds.*2 n) as [v Hv]; [rewrite length_fmap; lia|]. exists v. split; [done|].
    exact (Forall_lookup_1 _ _ _ _ (r_dims _ _ Hr) Hv). }
  destruct Hv as (v & Hv & Hlv).
  assert (Hvn : vector_of adds n = v) by by apply list_lookup_total_correct.
  assert (Hham : hamming (c_bits c !!! n) (quantize q) = Z.of_nat (sign_distance adds q n)).
  { rewrite (list_lookup_total_correct _ _ (quantize v)).
    - unfold quantize, sign_distance. rewrite Hvn. apply hamming_signs. rewrite !length_fmap. congruence.
    - rewrite (r_bits _ _ Hr), Hbits, take_ge by (by rewrite length_fmap). by rewrite list_lookup_fmap, Hv. }
  rewrite Hham, Nat2Z.id.
  assert (Hbound : (sign_distance adds q n ≤ c_dims c)%nat).
  { unfold sign_distance. rewrite Hvn. etransitivity; [apply differing_bound|]. by rewrite length_fmap, Hlv. }
  pose proof (r_range _ _ Hr) as Hrange. change (Z.to_nat MAX_DIMS) with (Z.to_nat 16000) in Hrange.
  rewrite !length_insert. split; [done|]. split; [done|]. split.
  - intros r Hrn Her. destruct (decide (r = n)) as [->|].
    + rewrite list_lookup_total_insert_eq by lia. apply Z.mod_small. lia.
    + rewrite list_lookup_total_insert_ne by done. apply Hd; [lia|done].
  - intros t Ht. rewrite Hcnt. unfold at_distance at 2. rewrite He. simpl.
    destruct (decide (t = sign_distance adds q n)) as [->|].
    + rewrite list_lookup_total_insert_eq by lia. rewrite Hh, Nat.eqb_refl by done. simpl.
      pose proof (List.filter_length_le (at_distance (eligible adds allowed) (sign_distance adds q) (sign_distance adds q n)) (seq 0 n)) as Hle.
      rewrite length_seq in Hle. fold (cnt (at_distance (eligible adds allowed) (sign_distance adds q) (sign_distance adds q n)) (seq 0 n)) in Hle.
      unfold u32. rewrite Z.mod_small; lia.
    + rewrite list_lookup_total_insert_ne by done. rewrite (proj2 (Nat.eqb_neq _ _)) by done. simpl. rewrite Nat.add_0_r. by apply Hh.
Qed.

End search.
