(* ===== verification/VectorAnswers.v ===== *)
(** * What a search answers *)

From S2P Require Import Prelude.
From S2P Require Import Lua.
From S2P Require Import Vector.
From S2P Require Import VectorHeap.
From S2P Require Import VectorBits.
From S2P Require Import VectorSearch.

Local Open Scope Z_scope.

Section answers.
Context `{Numbers, Signals, LuaIntegers, LuaStrings, RawLen}.

Lemma data_row c adds r :
  represents c adds → (r < length adds)%nat → c_data c !!! r = store_row (c_storage c) (vector_of adds r).
Proof.
  intros Hr Hlt. apply list_lookup_total_correct. rewrite (r_data _ _ Hr), list_lookup_fmap. unfold vector_of.
  by rewrite list_lookup_lookup_total_lt by (by rewrite length_fmap).
Qed.

Lemma distance_bound c adds q r :
  represents c adds → (r < length adds)%nat → (sign_distance adds q r ≤ c_dims c)%nat.
Proof.
  intros Hr Hlt. unfold sign_distance. etransitivity; [apply differing_bound|]. rewrite length_fmap.
  destruct (lookup_lt_is_Some_2 adds.*2 r) as [v Hv]; [by rewrite length_fmap|]. unfold vector_of.
  rewrite (list_lookup_total_correct _ _ v Hv). by rewrite (Forall_lookup_1 _ _ _ _ (r_dims _ _ Hr) Hv).
Qed.

Lemma first_pass_nearest asked c adds allowed mask q candidates :
  represents c adds → length (c_bits c) = length adds → masks adds allowed mask → length q = c_dims c →
  Z.of_nat (length adds) < 2 ^ 32 → 0 < candidates ≤ Z.of_nat (length (eligible_rows adds allowed)) →
  let '(asked', r) := first_pass asked c q mask candidates in
  (asked ≤ asked')%nat ∧
  match r with
  | Some rows => rows = nearest (length adds) (eligible adds allowed) (sign_distance adds q) candidates ∧
      ∀ i, (asked ≤ i < asked')%nat → cosmic_signal_caught i = false
  | None => ∃ i, (asked ≤ i < asked')%nat ∧ cosmic_signal_caught i = true
  end.
Proof.
  intros Hr Hbits Hmask Hq Hsmall Hcand. unfold first_pass. rewrite (r_count _ _ Hr).
  pose proof (each_row_spec (measure c (quantize q) mask) (length adds) 0 asked
    (replicate (length adds) 0, replicate (c_dims c + 1) 0)) as He.
  destruct (each_row _ _ _ _ _) as [asked' [[distance histogram]|]]; [|exact He].
  destruct He as (Hle & Hfold & Hno). split; [done|].
  pose proof (measured c adds allowed mask q (length adds) Hr Hbits Hmask Hq Hsmall ltac:(lia)) as Hm.
  rewrite <- Hfold in Hm. destruct Hm as (_ & _ & Hd & Hh). simpl.
  set (E := eligible adds allowed) in *. set (D := sign_distance adds q) in *.
  assert (Hall : cnt (nearer E D (S (c_dims c))) (seq 0 (length adds)) = length (eligible_rows adds allowed)).
  { apply cnt_ext. intros r Hin%elem_of_seq. unfold nearer. fold E.
    rewrite (proj2 (Nat.ltb_lt _ _)); [by rewrite andb_true_r|].
    pose proof (distance_bound c adds q r Hr ltac:(lia)). fold D in H4. lia. }
  assert (Hnone : cnt (nearer E D 0) (seq 0 (length adds)) = 0%nat).
  { apply cnt_none. intros r _. unfold nearer. by rewrite andb_false_r. }
  destruct (threshold_loop_spec (length adds) E D (c_dims c) histogram (c_dims c) candidates 0) as (t & Hloop & Hlow & Hhigh);
    [exact Hh|rewrite Hnone; lia|rewrite Hall; lia|lia|].
  rewrite Hnone in Hloop. change (Z.of_nat 0) with 0 in Hloop. rewrite Hloop. split; [|done].
  apply taken_nearest; [|exact Hd|exact Hlow|exact Hhigh]. intros r. by apply masked.
Qed.

(** ** The rows scored *)

Section scored.
Context (adds : list (Z * list float)) (q : list float) (m : metric) (s : storage) (limit : nat).

Definition score_row (items : list hit) (r : nat) : list hit :=
  match hit_of adds q m s r with Some h => offer adds.*1 limit h items | None => items end.

Lemma score_rows_best rows items offered :
  best_of adds.*1 limit items offered →
  ∃ offered', best_of adds.*1 limit (foldl score_row items rows) offered' ∧
    offered' ≡ₚ omap (hit_of adds q m s) rows ++ offered.
Proof.
  revert items offered. induction rows as [|r rows IH]; intros items offered Hb; [by exists offered|].
  simpl. unfold score_row at 2. destruct (hit_of adds q m s r) as [h|].
  - destruct (IH _ _ (offer_best _ _ h _ _ Hb)) as (offered' & Hb' & Hp). exists offered'. split; [done|].
    rewrite Hp. by rewrite <- Permutation_middle.
  - by apply IH.
Qed.

Lemma scored_best rows k :
  0 ≤ k → Z.of_nat limit `min` Z.of_nat (length (omap (hit_of adds q m s) rows)) = k `min` Z.of_nat (length (omap (hit_of adds q m s) rows)) →
  let items := foldl score_row [] rows in
  best_answer adds q m s rows k (shown adds m <$> pop_loop adds.*1 (length items) items []).
Proof.
  intros Hk Hlimit items. destruct (score_rows_best rows [] [] (best_of_nil _ _)) as (offered & Hb & Hp).
  fold items in Hb. rewrite app_nil_r in Hp.
  destruct (popped_best _ _ _ _ Hb) as (Hs & Hlen & out & Hperm & Hout).
  exists (pop_loop adds.*1 (length items) items []), out. split; [done|]. split; [by rewrite <- Hp|]. split; [done|]. split.
  - rewrite Hlen, Hp. rewrite <- Hlimit. lia.
  - intros x y Hx Hy. by apply Hout.
Qed.

End scored.

Lemma foldl_places {X} (f : X → nat → X) (rows : list nat) x :
  foldl (λ x i, f x (rows !!! i)) x (seq 0 (length rows)) = foldl f x rows.
Proof.
  revert x. induction rows as [|r rows IH]; intros x; [done|]. simpl. rewrite <- IH.
  rewrite <- fmap_S_seq, foldl_fmap. done.
Qed.

Lemma foldl_skip {X} (p : nat → bool) (f : X → nat → X) rows x :
  foldl (λ x r, if p r then f x r else x) x rows = foldl f x (List.filter p rows).
Proof. revert x. induction rows as [|r rows IH]; intros x; simpl; [done|]. by destruct (p r); simpl. Qed.

Lemma foldl_ext_in {X Y} (f g : X → Y → X) l x : (∀ x y, y ∈ l → f x y = g x y) → foldl f x l = foldl g x l.
Proof.
  revert x. induction l as [|y l IH]; intros x Hfg; [done|]. simpl. rewrite Hfg by apply list_elem_of_here.
  apply IH. intros x' y' Hy. apply Hfg. by right.
Qed.

(** What the loop that scores makes, whichever rows it goes through. *)
Lemma considered c adds q m allowed mask rows limit :
  represents c adds → masks adds allowed mask →
  (match rows with Some rows => Forall (λ r, (r < length adds)%nat) rows | None => True end) →
  foldl (λ x i, consider c q m mask rows limit i x) []
    (seq 0 (match rows with Some rows => length rows | None => length adds end))
  = foldl (score_row adds q m (c_storage c) limit) [] (match rows with Some rows => rows | None => eligible_rows adds allowed end).
Proof.
  intros Hr Hmask Hrows.
  assert (Hrow : ∀ r items, (r < length adds)%nat →
    match row_key (c_data c !!! r) q m with Some k => offer (c_ids c) limit (Hit k r) items | None => items end
    = score_row adds q m (c_storage c) limit items r).
  { intros r items Hlt. unfold score_row, hit_of. rewrite (data_row _ _ _ Hr Hlt), (r_ids _ _ Hr). by destruct (row_key _ _ _). }
  unfold consider. destruct rows as [rows|].
  - rewrite <- (foldl_places (score_row _ _ _ _ _)). apply foldl_ext_in. intros x i Hi%elem_of_seq.
    rewrite bool_decide_eq_false_2 by done. simpl. apply Hrow. apply (Forall_lookup_1 _ _ i _ Hrows).
    apply list_lookup_lookup_total_lt. lia.
  - rewrite bool_decide_eq_true_2 by done. unfold eligible_rows. rewrite <- foldl_skip. apply foldl_ext_in.
    intros x r Hin%elem_of_seq. rewrite (masked adds allowed mask r Hmask) by lia. simpl.
    destruct (eligible adds allowed r); simpl; [apply Hrow; lia|done].
Qed.

(** What a call answers: it is interrupted exactly when a signal was caught. *)
Definition answers_best (adds : list (Z * list float)) (allowed : option (list Z)) (q : list float) (m : metric)
    (s : storage) (k candidates : Z) (asked asked' : nat) (a : answer (list (Z * key))) : Prop :=
  match a with
  | Raises _ => False
  | Refuses why => why = lit "interrupted" ∧ ∃ i, (asked ≤ i < asked')%nat ∧ cosmic_signal_caught i = true
  | Answers l =>
      (∀ i, (asked ≤ i < asked')%nat → cosmic_signal_caught i = false) ∧
      best_answer adds q m s (scored_rows adds allowed q candidates) k l
  end.

Lemma ranked_best asked c adds q m allowed mask rows k :
  represents c adds → masks adds allowed mask → 1 ≤ k →
  let R := match rows with Some rows => rows | None => eligible_rows adds allowed end in
  Forall (λ r, (r < length adds)%nat) R → (length R ≤ length (eligible_rows adds allowed))%nat →
  let n := length (eligible_rows adds allowed) in
  let limit := if k <? Z.of_nat n then Z.to_nat k else n in
  let '(asked', a) := ranked asked c q m mask rows limit in
  (asked ≤ asked')%nat ∧
  match a with
  | Raises _ => False
  | Refuses why => why = lit "interrupted" ∧ ∃ i, (asked ≤ i < asked')%nat ∧ cosmic_signal_caught i = true
  | Answers l => (∀ i, (asked ≤ i < asked')%nat → cosmic_signal_caught i = false) ∧ best_answer adds q m (c_storage c) R k l
  end.
Proof.
  intros Hr Hmask Hk R HR Hlen n limit. unfold ranked. rewrite (r_count _ _ Hr).
  set (count := match rows with Some rows => length rows | None => _ end).
  pose proof (each_row_spec (consider c q m mask rows limit) count 0 asked []) as He.
  destruct (each_row _ _ _ _ _) as [asked' [items|]]; [|exact (conj (proj1 He) (conj eq_refl (proj2 He)))].
  destruct He as (Hle & Hfold & Hno). split; [done|]. split; [done|].
  unfold count in Hfold. rewrite (considered c adds q m allowed mask rows limit Hr Hmask) in Hfold by (by destruct rows).
  rewrite (r_ids _ _ Hr), Hfold. apply scored_best; [lia|].
  pose proof (length_omap_le (hit_of adds q m (c_storage c)) R). unfold limit, n. fold R. zcases; lia.
Qed.

(** The nearest rows, as many as are asked for, are rows. *)
Lemma nearest_rows n E D candidates :
  Forall (λ r, (r < n)%nat) (nearest n E D candidates) ∧ (length (nearest n E D candidates) ≤ length (List.filter E (seq 0 n)))%nat.
Proof.
  split.
  - apply Forall_forall. intros r Hr. unfold nearest in Hr. apply list_elem_of_In, List.filter_In in Hr as [Hr _].
    apply list_elem_of_In, elem_of_seq in Hr. lia.
  - unfold nearest. apply cnt_le. intros r _ Hb. by apply andb_true_iff in Hb as [? _].
Qed.

Lemma eligible_rows_below adds allowed : Forall (λ r, (r < length adds)%nat) (eligible_rows adds allowed).
Proof.
  apply Forall_forall. intros r Hr. apply list_elem_of_In, List.filter_In in Hr as [Hr _].
  apply list_elem_of_In, elem_of_seq in Hr. lia.
Qed.

Lemma searched_best asked c adds q k m candidates allowed mask :
  represents c adds → masks adds allowed mask → length q = c_dims c → Z.of_nat (length adds) < 2 ^ 32 → 1 ≤ k →
  let '(asked', c', a) := searched asked c q k m candidates mask in
  represents c' adds ∧ (asked ≤ asked')%nat ∧ answers_best adds allowed q m (c_storage c) k candidates asked asked' a.
Proof.
  intros Hr Hmask Hq Hsmall Hk. unfold searched. rewrite (r_count _ _ Hr), (mask_count _ _ _ Hmask).
  unfold answers_best, scored_rows.
  destruct ((0 <? candidates) && (candidates <? Z.of_nat (length (eligible_rows adds allowed)))) eqn:Hc.
  - apply andb_true_iff in Hc as [Hpos%Z.ltb_lt Hfew%Z.ltb_lt].
    pose proof (ensured asked c adds Hr) as He. destruct (ensure_bits asked c) as [asked1 [c1|]].
    2:{ destruct He as [Hle Hi]. by split. }
    destruct He as (Hle & Hr1 & Hb1 & Hs1 & Hd1 & Hno1).
    pose proof (first_pass_nearest asked1 c1 adds allowed mask q candidates Hr1 Hb1 Hmask ltac:(congruence) Hsmall ltac:(lia)) as Hf.
    destruct (first_pass asked1 c1 q mask candidates) as [asked2 [rows|]].
    2:{ destruct Hf as [Hle2 (i & Hi & Hci)]. split; [done|]. split; [lia|]. split; [done|]. exists i. split; [lia|done]. }
    destruct Hf as (Hle2 & -> & Hno2).
    destruct (nearest_rows (length adds) (eligible adds allowed) (sign_distance adds q) candidates) as [Hn1 Hn2].
    pose proof (ranked_best asked2 c1 adds q m allowed mask (Some (nearest (length adds) (eligible adds allowed) (sign_distance adds q) candidates)) k
      Hr1 Hmask Hk Hn1 Hn2) as Hrank. simpl in Hrank.
    destruct (ranked _ _ _ _ _ _ _) as [asked3 a]. rewrite Hs1 in Hrank. destruct Hrank as [Hle3 Ha].
    split; [done|]. split; [lia|]. destruct a as [l|why|why]; [|destruct Ha as (-> & i & Hi & Hci)|done].
    + destruct Ha as [Hno3 Hbest]. split; [|done]. intros i Hi.
      destruct (decide (i < asked1)%nat); [apply Hno1; lia|]. destruct (decide (i < asked2)%nat); [apply Hno2; lia|apply Hno3; lia].
    + split; [done|]. exists i. split; [lia|done].
  - pose proof (ranked_best asked c adds q m allowed mask None k Hr Hmask Hk (eligible_rows_below _ _) ltac:(done)) as Hrank.
    simpl in Hrank. destruct (ranked _ _ _ _ _ _ _) as [asked3 a]. by split.
Qed.

(** What the corpora a program makes go through: making one, adding to it and
    searching it. *)
Inductive reaches : corpus → list (Z * list float) → Prop :=
  | reaches_corpus dims name c : vector_corpus dims name = Answers c → reaches c []
  | reaches_add c adds id v i fs c' :
      reaches c adds → lua_tointegerx id = Some i → check_floats (c_dims c) v = inl fs → corpus_add c id v = Answers c' →
      reaches c' (adds ++ [(i, fs)])
  | reaches_search c adds h asked q k name candidates allow :
      reaches c adds → Z.of_nat (length adds) < 2 ^ 32 → allow_length h allow ≤ 2 ^ 62 →
      reaches (corpus_search h asked c q k name candidates allow).1.2 adds.

(** Of a search whose arguments are refused nothing is changed. *)
Lemma search_represents h asked c adds q k name candidates allow :
  represents c adds → Z.of_nat (length adds) < 2 ^ 32 → allow_length h allow ≤ 2 ^ 62 →
  represents (corpus_search h asked c q k name candidates allow).1.2 adds.
Proof.
  intros Hr Hsmall Hlen. unfold corpus_search.
  destruct (check_floats (c_dims c) q) as [qv|] eqn:Hq; [|done]. destruct (lua_tointegerx k) as [kz|]; [|done].
  destruct (Z.ltb_spec kz 1); [done|]. destruct (lua_tolstring name) as [nm|]; [|done].
  destruct (metric_of nm) as [m|]; [|done]. destruct (candidates_of candidates) as [cz|]; [|done].
  destruct (mask_of h allow (c_ids c)) as [mask|] eqn:Hm; [|done].
  assert (Hallow : ∃ allowed, allow_argument h allow = Some allowed).
  { destruct allow; simpl in *; try done; [by eexists|].
    rewrite allow_mask_spec in Hm by (rewrite length_fmap, length_seq; lia). destruct (mapM _ _); [by eexists|done]. }
  destruct Hallow as [allowed Ha]. destruct (mask_made c adds h allow allowed Hr Ha Hlen) as (mask' & Hm' & Hmask).
  assert (mask' = mask) as -> by congruence.
  apply check_floats_length in Hq as [Hq _].
  pose proof (searched_best asked c adds qv kz m cz allowed mask Hr Hmask Hq Hsmall ltac:(lia)) as Hs.
  destruct (searched _ _ _ _ _ _ _) as [[asked' c'] a]. by destruct Hs.
Qed.

Lemma reaches_represents c adds : reaches c adds → represents c adds.
Proof.
  induction 1 as [dims name c Hc|c adds id v i fs c' _ IH Hi Hfs Hadd|c adds h asked q k name candidates allow _ IH Hsmall Hlen].
  - by apply (corpus_made dims name).
  - destruct (corpus_added _ _ _ _ _ IH Hadd) as (i' & fs' & Hi' & Hfs' & Hr & _).
    assert (i' = i) as -> by congruence. by assert (fs' = fs) as -> by congruence.
  - by apply search_represents.
Qed.

End answers.

(** C22: Whatever was added to a corpus and searched in it before, a search whose
    arguments pass answers, best first, the best k by key and then id of the
    rows whose ids are allowed, or of as many of these as are asked for whose
    signs differ from the query's in the fewest dimensions, the earliest among
    equals; rows whose keys are not numbers apart, nothing left out is better
    than anything answered. It is interrupted exactly when a guard caught a
    signal, and the corpus still holds what was added. *)
Theorem search_answers_best `{Numbers, Signals, LuaIntegers, LuaStrings, RawLen} h asked c adds q qv k kz name nm m candidates cz allow allowed :
  reaches c adds → Z.of_nat (length adds) < 2 ^ 32 → allow_length h allow ≤ 2 ^ 62 →
  check_floats (c_dims c) q = inl qv → lua_tointegerx k = Some kz → 1 ≤ kz →
  lua_tolstring name = Some nm → metric_of nm = Some m → candidates_of candidates = inl cz →
  allow_argument h allow = Some allowed →
  let '(asked', c', a) := corpus_search h asked c q k name candidates allow in
  reaches c' adds ∧ (asked ≤ asked')%nat ∧ answers_best adds allowed qv m (c_storage c) kz cz asked asked' a.
Proof.
  intros Hreach Hsmall Hlen Hq Hk Hpos Hname Hm Hc Hallow. pose proof (reaches_represents _ _ Hreach) as Hr.
  pose proof (reaches_search c adds h asked q k name candidates allow Hreach Hsmall Hlen) as Hafter. revert Hafter.
  unfold corpus_search. rewrite Hq, Hk, Hname, Hm, Hc. rewrite (proj2 (Z.ltb_ge _ _)) by lia.
  destruct (mask_made c adds h allow allowed Hr Hallow Hlen) as (mask & -> & Hmask).
  apply check_floats_length in Hq as [Hq _].
  pose proof (searched_best asked c adds qv kz m cz allowed mask Hr Hmask Hq Hsmall Hpos) as Hs.
  destruct (searched _ _ _ _ _ _ _) as [[asked' c'] a]. intros Hafter. split; [exact Hafter|apply Hs].
Qed.

(** Three vectors of two dimensions, whose numbers are a byte each, ranked by
    the sum of products; no guard catches a signal. *)
Module Bytes.
Import Plain.

Definition signed (s : bytes) : Z := match s with b :: _ => if b <? 128 then b else b - 256 | [] => 0 end.
Definition product (v q : list Z) : Z := foldr (λ p t, p.1 * p.2 + t) 0 (zip v q).

#[local] Instance numbers : Numbers := {|
  float := Z; float_of := signed; is_finite := λ _, true; above_zero := λ x, 0 <? x; under_half_limit := λ _, true;
  stored := list Z; quantized_row := λ _ v, v; key := Z; key_none := 0; key_rank := λ k, k;
  row_key := λ r q _, Some (product (match r with inl v => v | inr v => v end) q); score := λ _ k, k |}.
#[local] Instance signals : Signals := λ _, false.

Definition vec (x y : Z) : lua_value := LString [x mod 256; 0; 0; 0; y mod 256; 0; 0; 0].
Definition ids : table := Table None [(LInt 1, LInt 7); (LInt 2, LInt 9); (LInt 3, LInt 5)].
Definition tables : heap := {[ 1%positive := ids ]}.
Definition floats (dims : nat) (v : lua_value) : list float := match check_floats dims v with inl fs => fs | inr _ => [] end.
Definition answered {X} (x : X) (a : answer X) : X := match a with Answers y => y | _ => x end.

Definition empty_corpus : corpus := Corpus 2 F32 0 [] [] [].
Definition c0 : corpus := answered empty_corpus (vector_corpus (LInt 2) LNil).
Definition c1 : corpus := answered c0 (corpus_add c0 (LInt 7) (vec 3 (-1))).
Definition c2 : corpus := answered c1 (corpus_add c1 (LInt 5) (vec 2 2)).
Definition c3 : corpus := answered c2 (corpus_add c2 (LInt 8) (vec 9 9)).
Definition adds : list (Z * list Z) := [(7, [3; -1]); (5, [2; 2]); (8, [9; 9])].

Lemma reaches_c3 : reaches c3 adds.
Proof.
  assert (H0 : reaches c0 []) by (apply (reaches_corpus (LInt 2) LNil); reflexivity).
  assert (H1 : reaches c1 [(7, [3; -1])]) by (apply (reaches_add c0 [] (LInt 7) (vec 3 (-1)) 7 [3; -1]); [exact H0| | | ]; reflexivity).
  assert (H2 : reaches c2 [(7, [3; -1]); (5, [2; 2])])
    by (apply (reaches_add c1 [(7, [3; -1])] (LInt 5) (vec 2 2) 5 [2; 2]); [exact H1| | | ]; reflexivity).
  apply (reaches_add c2 [(7, [3; -1]); (5, [2; 2])] (LInt 8) (vec 9 9) 8 [9; 9]); [exact H2| | | ]; reflexivity.
Qed.

Lemma search_answers_best_witness :
  (corpus_search tables 0 c3 (vec 1 1) (LInt 2) (LString (lit "inner_product")) (LInt 1) (LTable 1)).2 = Answers [(5, 4)] ∧
  let '(asked', c', a) := corpus_search tables 0 c3 (vec 1 1) (LInt 2) (LString (lit "inner_product")) (LInt 1) (LTable 1) in
  reaches c' adds ∧ (0 ≤ asked')%nat ∧ answers_best adds (Some [7; 9; 5]) [1; 1] INNER_PRODUCT (c_storage c3) 2 1 0 asked' a.
Proof.
  split; [vm_compute; reflexivity|].
  apply (search_answers_best tables 0 c3 adds (vec 1 1) [1; 1] (LInt 2) 2 (LString (lit "inner_product")) (lit "inner_product")
    INNER_PRODUCT (LInt 1) 1 (LTable 1) (Some [7; 9; 5])); try (vm_compute; reflexivity); try (vm_compute; discriminate).
  exact reaches_c3.
Defined.

End Bytes.
