(* ===== verification/Codecs.v ===== *)
(** * The codecs, step by step: [core/compress.c]

    The libraries' operations, a step of each format's decoder, and the loops
    over the encoders; before them, loops that end by themselves: a loop of
    the code is a function of its state that goes on or answers, run at most as
    many times as a binary number says, which a bound on the turns left shows
    to be enough. *)

From S2P Require Import Prelude.

Local Open Scope Z_scope.

Section until.
Context {S R : Type} (turn : S → S + R).

Definition then_ (f : S → S + R) (x : S + R) : S + R := match x with inl s => f s | inr r => inr r end.

(** Up to [p] turns. *)
Fixpoint until (p : positive) (s : S) : S + R :=
  match p with
  | xH => turn s
  | xO p => then_ (until p) (until p s)
  | xI p => then_ (until p) (then_ (until p) (turn s))
  end.

Fixpoint until_nat (n : nat) (s : S) : S + R :=
  match n with
  | O => inl s
  | Datatypes.S n => then_ (until_nat n) (turn s)
  end.

Lemma until_nat_add n m s : until_nat (n + m) s = then_ (until_nat m) (until_nat n s).
Proof. revert s. induction n as [|n IH]; intros s; simpl; [done|]. by destruct (turn s) as [s'|r]; simpl. Qed.

Lemma until_is_nat p s : until p s = until_nat (Pos.to_nat p) s.
Proof.
  revert s. induction p as [p IH|p IH|]; intros s; cbn [until].
  - replace (Pos.to_nat p~1) with (Datatypes.S (Pos.to_nat p + Pos.to_nat p)) by lia. simpl.
    destruct (turn s) as [s'|r]; simpl; [|done].
    rewrite until_nat_add, IH. destruct (until_nat _ s'); simpl; [apply IH|done].
  - replace (Pos.to_nat p~0) with (Pos.to_nat p + Pos.to_nat p)%nat by lia.
    rewrite until_nat_add, IH. destruct (until_nat _ s); simpl; [apply IH|done].
  - simpl. by destruct (turn s).
Qed.

(** Where each turn answers as [Q] says or leaves fewer turns, enough of them
    answer as [Q] says. *)
Lemma until_answers (I : nat → S → Prop) (Q : R → Prop) p n s :
  (∀ n s, I n s → match turn s with inl s' => ∃ m, (m < n)%nat ∧ I m s' | inr r => Q r end) →
  I n s → (n < Pos.to_nat p)%nat → ∃ r, until p s = inr r ∧ Q r.
Proof.
  intros Hturn HI Hn. rewrite until_is_nat. revert n s HI Hn. induction (Pos.to_nat p) as [|k IH]; intros n s HI Hn; [lia|].
  simpl. specialize (Hturn n s HI). destruct (turn s) as [s'|r]; simpl; [|by exists r].
  destruct Hturn as (m & Hm & HI'). apply (IH m); [done|lia].
Qed.

End until.

(** * The steps of a decoder: [core/compress.c]

    One member of compressed data decoded over several calls: the deflate body
    with the output held back, the gzip framing around it, and the loops over
    the bzip2, xz and zstd libraries. The libraries are parameters: a state, and
    a call that is offered input and room and answers its next state, how much
    it took, what it gave and a code. *)

(** ** The libraries *)

(** [bzlib], counting allocations asked for. *)
Class Bzlib := {
  bz_stream : Type;
  BZ2_bzDecompressInit : nat → option bz_stream;
  BZ2_bzDecompress : bz_stream → bytes → Z → bz_stream * nat * bytes * Z }.
Definition BZ_OK : Z := 0.
Definition BZ_STREAM_END : Z := 4.
Definition BZ_MEM_ERROR : Z := -3.

(** [liblzma]; a decoder begun again is given the one it was. *)
Class Lzma := {
  lzma_stream : Type;
  LZMA_STREAM_INIT : lzma_stream;
  lzma_stream_decoder : nat → lzma_stream → Z → lzma_stream * Z;
  lzma_code : lzma_stream → bytes → Z → lzma_stream * nat * bytes * Z;
  lzma_crc32 : bytes → Z → Z }.
Definition LZMA_OK : Z := 0.
Definition LZMA_STREAM_END : Z := 1.
Definition LZMA_MEM_ERROR : Z := 5.
Definition LZMA_MEMLIMIT_ERROR : Z := 6.
Definition LZMA_BUF_ERROR : Z := 10.

(** [zstd]: its results are a count or an error's code. *)
Record zstd_frame_header := FrameHeader { h_frame : bool; h_window : Z; h_content : Z }.
Inductive zstd_header := HError (code : Z) | HNeeds (n : Z) | HFrame (h : zstd_frame_header).
Class Zstd := {
  ZSTD_DCtx : Type;
  ZSTD_createDCtx : nat → Z → option ZSTD_DCtx;
  ZSTD_getFrameHeader : bytes → zstd_header;
  ZSTD_decompressStream : ZSTD_DCtx → bytes → Z → ZSTD_DCtx * nat * bytes * (Z + Z) }.
Definition ZSTD_error_memory_allocation : Z := 64.
Definition ZSTD_error_frameParameter_windowTooLarge : Z := 16.
Definition ZSTD_CONTENTSIZE_UNKNOWN : Z := 2 ^ 64 - 1.

(** [tinfl], which reads the window and is given room in it from an offset. *)
Class Tinfl := {
  tinfl_decompressor : Type;
  tinfl_init : tinfl_decompressor;
  tinfl_decompress : bool → tinfl_decompressor → bytes → bytes → Z → Z → tinfl_decompressor * nat * bytes * Z }.
Definition TINFL_STATUS_DONE : Z := 0.
Definition TINFL_STATUS_NEEDS_MORE_INPUT : Z := 1.
Definition TINFL_STATUS_HAS_MORE_OUTPUT : Z := 2.
Definition TINFL_LZ_DICT_SIZE : Z := 32768.

(** ** Steps *)

Definition CODEC_SLICE : Z := Z.shiftl 1 16.
Definition UINT_MAX : Z := 2 ^ 32 - 1.

(** What one step of a member's decoder ended on. *)
Inductive step := STEP_ERROR (why : bytes) | STEP_INPUT | STEP_FULL | STEP_END.

(** A step's answer: how it ended, the codec's state, the input not consumed
    and the output. *)
Record stepped (X : Type) := Stepped { s_step : step; s_state : X; s_input : bytes; s_out : bytes }.
Arguments Stepped {X}.
Arguments s_step {X}.
Arguments s_state {X}.
Arguments s_input {X}.
Arguments s_out {X}.

(** ** bzip2 and xz *)

Section bzip2.
Context `{Bzlib}.

Definition bz2_turn (budget : Z) (s : bz_stream * bytes * bytes) : (bz_stream * bytes * bytes) + stepped bz_stream :=
  let '(bz, p, out) := s in
  let room := budget - Z.of_nat (length out) in
  if room =? 0 then inr (Stepped STEP_FULL bz p out)
  else
    let offered := if Z.of_nat (length p) <? UINT_MAX then p else take (Z.to_nat UINT_MAX) p in
    let out_take := if room <? CODEC_SLICE then room else CODEC_SLICE in
    let '(bz, used, produced, rc) := BZ2_bzDecompress bz offered out_take in
    let p := drop used p in
    let out := out ++ produced in
    if rc =? BZ_STREAM_END then inr (Stepped STEP_END bz p out)
    else if negb (rc =? BZ_OK) then inr (Stepped (STEP_ERROR (lit "corrupt bzip2 data")) bz p out)
    else if bool_decide (p = []) && (Z.of_nat (length produced) <? out_take) then inr (Stepped STEP_INPUT bz p out)
    else inl (bz, p, out).

(** Each turn takes input or fills its room. *)
Definition bz2_step (bz : bz_stream) (p : bytes) (budget : Z) : option (stepped bz_stream) :=
  match until (bz2_turn budget) (Z.to_pos (Z.of_nat (length p) + budget + 2)) (bz, p, []) with
  | inr r => Some r
  | inl _ => None
  end.

End bzip2.

Section xz.
Context `{Lzma}.

Definition xz_turn (budget : Z) (s : lzma_stream * bytes * bytes) : (lzma_stream * bytes * bytes) + stepped lzma_stream :=
  let '(z, p, out) := s in
  let room := budget - Z.of_nat (length out) in
  if room =? 0 then inr (Stepped STEP_FULL z p out)
  else
    let out_take := if room <? CODEC_SLICE then room else CODEC_SLICE in
    let '(z, used, produced, rc) := lzma_code z p out_take in
    let p := drop used p in
    let out := out ++ produced in
    if rc =? LZMA_STREAM_END then inr (Stepped STEP_END z p out)
    else if (rc =? LZMA_BUF_ERROR) && bool_decide (p = []) then inr (Stepped STEP_INPUT z p out)
    else if negb (rc =? LZMA_OK) then
      let why := if rc =? LZMA_MEMLIMIT_ERROR then lit "xz memory limit exceeded"
                 else if rc =? LZMA_MEM_ERROR then lit "out of memory" else lit "corrupt xz data" in
      inr (Stepped (STEP_ERROR why) z p out)
    else if bool_decide (p = []) && (Z.of_nat (length produced) <? out_take) then inr (Stepped STEP_INPUT z p out)
    else inl (z, p, out).

Definition xz_step (z : lzma_stream) (p : bytes) (budget : Z) : option (stepped lzma_stream) :=
  match until (xz_turn budget) (Z.to_pos (Z.of_nat (length p) + budget + 2)) (z, p, []) with
  | inr r => Some r
  | inl _ => None
  end.

End xz.

(** ** zstd *)

Section zstd.
Context `{Zstd}.

Definition zstd_why (code : Z) : bytes :=
  if code =? ZSTD_error_memory_allocation then lit "out of memory"
  else if code =? ZSTD_error_frameParameter_windowTooLarge then lit "zstd window larger than the limit"
  else lit "corrupt zstd data".

(** The decoder's context and what is known of the current frame. *)
Record zstd_state := ZstdState {
  zd : ZSTD_DCtx; zwindow : Z; zhdr_ok : bool; zdrain : bool; zsize : Z; zmade : Z }.

Definition with_frame (h : zstd_frame_header) (z : zstd_state) : zstd_state :=
  ZstdState (zd z) (zwindow z) true (zdrain z) (if h_frame h then h_content h else ZSTD_CONTENTSIZE_UNKNOWN) 0.
Definition with_drain (drain : bool) (z : zstd_state) : zstd_state :=
  ZstdState (zd z) (zwindow z) (zhdr_ok z) drain (zsize z) (zmade z).
Definition with_made (d : ZSTD_DCtx) (made : Z) (z : zstd_state) : zstd_state :=
  ZstdState d (zwindow z) (zhdr_ok z) (zdrain z) (zsize z) made.

Definition zstd_turn (budget : Z) (s : zstd_state * bytes * bytes) : (zstd_state * bytes * bytes) + stepped zstd_state :=
  let '(z, p, out) := s in
  let room := budget - Z.of_nat (length out) in
  if room =? 0 then inr (Stepped STEP_FULL (with_drain true z) p out)
  else
    let out_take := if room <? CODEC_SLICE then room else CODEC_SLICE in
    let '(d, used, produced, rc) := ZSTD_decompressStream (zd z) p out_take in
    let p := drop used p in
    let out := out ++ produced in
    let z := with_made d (u64 (zmade z + Z.of_nat (length produced))) z in
    match rc with
    | inr code => inr (Stepped (STEP_ERROR (zstd_why code)) z p out)
    | inl hint =>
        if hint =? 0 then
          if negb (zsize z =? ZSTD_CONTENTSIZE_UNKNOWN) && negb (zmade z =? zsize z)
          then inr (Stepped (STEP_ERROR (lit "corrupt zstd data")) z p out)
          else inr (Stepped STEP_END z p out)
        else if bool_decide (p = []) && (Z.of_nat (length produced) <? out_take) then inr (Stepped STEP_INPUT z p out)
        else inl (z, p, out)
    end.

Definition zstd_body (z : zstd_state) (p : bytes) (budget : Z) : option (stepped zstd_state) :=
  match until (zstd_turn budget) (Z.to_pos (Z.of_nat (length p) + budget + 2)) (with_drain false z, p, []) with
  | inr r => Some r
  | inl _ => None
  end.

Definition zstd_step (z : zstd_state) (p : bytes) (budget : Z) : option (stepped zstd_state) :=
  if bool_decide (p = []) && negb (zdrain z) then Some (Stepped STEP_INPUT z p [])
  else if zhdr_ok z then zstd_body z p budget
  else
    match ZSTD_getFrameHeader p with
    | HError code => Some (Stepped (STEP_ERROR (zstd_why code)) z p [])
    | HNeeds _ => Some (Stepped STEP_INPUT z p [])
    | HFrame h =>
        if h_frame h && (zwindow z <? h_window h)
        then Some (Stepped (STEP_ERROR (lit "zstd window larger than the limit")) z p [])
        else zstd_body (with_frame h z) p budget
    end.

End zstd.

(** ** Deflate and gzip *)

Inductive stream_format := FMT_RAW | FMT_ZLIB | FMT_GZIP.

#[export] Instance stream_format_eq_dec : EqDecision stream_format.
Proof. solve_decision. Defined.

Inductive gzip_state := GZ_FIXED | GZ_XLEN | GZ_EXTRA | GZ_NAME | GZ_COMMENT | GZ_HCRC | GZ_BODY | GZ_TRAILER.

Definition GZ_FHCRC : Z := 0x02.
Definition GZ_FEXTRA : Z := 0x04.
Definition GZ_FNAME : Z := 0x08.
Definition GZ_FCOMMENT : Z := 0x10.

Definition DEFLATE_MAX_RATIO : Z := 1032.

Definition le32 (p : bytes) : Z :=
  Z.lor (Z.lor (Z.lor (p !!! 0%nat) (Z.shiftl (p !!! 1%nat) 8)) (Z.shiftl (p !!! 2%nat) 16)) (Z.shiftl (p !!! 3%nat) 24).

(** A deflate body under way. *)
Record body_state `{Tinfl} := Body {
  tinfl : tinfl_decompressor; dict : bytes; dict_ofs : Z; held_ofs : Z; held_len : Z; body_done : bool;
  crc : Z; isize : Z; in_total : Z; out_total : Z }.
Arguments Body {_}.

(** A gzip member's framing: [field] holds the bytes collected of one. *)
Record inflate_state `{Tinfl} := Inflate {
  body : body_state; gstate : gzip_state; field : bytes; flg : Z; extra_remaining : Z }.
Arguments Inflate {_}.

Section inflate.
Context `{Tinfl, Lzma}.

Definition with_held (ofs len : Z) (f : body_state) : body_state :=
  Body (tinfl f) (dict f) (dict_ofs f) ofs len (body_done f) (crc f) (isize f) (in_total f) (out_total f).

(** What is held goes out, as far as there is room. *)
Definition flush_held (budget : Z) (f : body_state) (out : bytes) : body_state * bytes :=
  if 0 <? held_len f then
    let room := budget - Z.of_nat (length out) in
    let k := if held_len f <? room then held_len f else room in
    (with_held (held_ofs f + k) (held_len f - k) f, out ++ take (Z.to_nat k) (drop (Z.to_nat (held_ofs f)) (dict f)))
  else (f, out).

(** The bytes put in the window. *)
Definition splice (ofs : Z) (produced dict : bytes) : bytes :=
  take (Z.to_nat ofs) dict ++ produced ++ drop (Z.to_nat ofs + length produced) dict.

(** What a call of [tinfl] that gave [produced] leaves. *)
Definition with_call (format : stream_format) (t : tinfl_decompressor) (used : nat) (produced : bytes) (done_ : bool) (f : body_state) : body_state :=
  let n := Z.of_nat (length produced) in
  Body t (splice (dict_ofs f) produced (dict f)) (Z.land (dict_ofs f + n) (TINFL_LZ_DICT_SIZE - 1))
    (if 0 <? n then dict_ofs f else held_ofs f) (if 0 <? n then n else held_len f) done_
    (if bool_decide (format = FMT_GZIP) && (0 <? n) then lzma_crc32 produced (crc f) else crc f)
    (if bool_decide (format = FMT_GZIP) then u32 (isize f + n) else isize f)
    (u64 (in_total f + Z.of_nat used)) (u64 (out_total f + n)).

Definition inflate_turn (format : stream_format) (budget : Z) (s : body_state * bytes * bool * bytes) :
    (body_state * bytes * bool * bytes) + stepped body_state :=
  let '(f, p, starved, out) := s in
  let '(f, out) := flush_held budget f out in
  if 0 <? held_len f then inr (Stepped STEP_FULL f p out)
  else if body_done f then inr (Stepped STEP_END f p out)
  else if starved then inr (Stepped STEP_INPUT f p out)
  else
    let '(t, used, produced, status) :=
      tinfl_decompress (bool_decide (format = FMT_ZLIB)) (tinfl f) p (dict f) (dict_ofs f) (TINFL_LZ_DICT_SIZE - dict_ofs f) in
    let p := drop used p in
    let f := with_call format t used produced (status =? TINFL_STATUS_DONE) f in
    if u64 (DEFLATE_MAX_RATIO * (in_total f + 8) + TINFL_LZ_DICT_SIZE) <? out_total f
    then inr (Stepped (STEP_ERROR (lit "corrupt compressed data (more output than deflate codes in its input)")) f p out)
    else if status =? TINFL_STATUS_DONE then inl (f, p, false, out)
    else if status =? TINFL_STATUS_NEEDS_MORE_INPUT then inl (f, p, true, out)
    else if negb (status =? TINFL_STATUS_HAS_MORE_OUTPUT) then inr (Stepped (STEP_ERROR (lit "corrupt compressed data")) f p out)
    else inl (f, p, false, out).

(** Each turn but the last two gives output. *)
Definition inflate_step (format : stream_format) (f : body_state) (p : bytes) (budget : Z) : option (stepped body_state) :=
  match until (inflate_turn format budget) (Z.to_pos (budget + 4)) (f, p, false, []) with
  | inr r => Some r
  | inl _ => None
  end.

Definition inflate_start_body (f : body_state) : body_state :=
  Body tinfl_init (dict f) (dict_ofs f) (held_ofs f) (held_len f) false 0 0 0 0.

Definition with_gstate (g : gzip_state) (f : inflate_state) : inflate_state :=
  Inflate (body f) g (field f) (flg f) (extra_remaining f).
Definition with_field (fl : bytes) (f : inflate_state) : inflate_state :=
  Inflate (body f) (gstate f) fl (flg f) (extra_remaining f).
Definition with_flg (flg_ : Z) (f : inflate_state) : inflate_state :=
  Inflate (body f) (gstate f) (field f) flg_ (extra_remaining f).
Definition with_extra (n : Z) (f : inflate_state) : inflate_state :=
  Inflate (body f) (gstate f) (field f) (flg f) n.
Definition with_body (b : body_state) (f : inflate_state) : inflate_state :=
  Inflate b (gstate f) (field f) (flg f) (extra_remaining f).

(** Whether the field holds all of what it needs, and the input left. *)
Definition gzip_collect (f : inflate_state) (p : bytes) (need : nat) : bool * inflate_state * bytes :=
  let k := (need - length (field f))%nat in
  let field_ := field f ++ take k p in
  (bool_decide (length field_ = need), with_field field_ f, drop k p).

Definition gzip_next (f : inflate_state) : inflate_state :=
  let f := with_field [] f in
  if negb (Z.land (flg f) GZ_FEXTRA =? 0) then with_gstate GZ_XLEN f
  else if negb (Z.land (flg f) GZ_FNAME =? 0) then with_gstate GZ_NAME f
  else if negb (Z.land (flg f) GZ_FCOMMENT =? 0) then with_gstate GZ_COMMENT f
  else if negb (Z.land (flg f) GZ_FHCRC =? 0) then with_gstate GZ_HCRC f
  else with_body (inflate_start_body (body f)) (with_gstate GZ_BODY f).

(** The bytes after the first NUL. *)
Fixpoint after_nul (p : bytes) : option bytes :=
  match p with
  | [] => None
  | b :: p => if b =? 0 then Some p else after_nul p
  end.

(** A part of the header done: its flag is cleared. *)
Definition part_done (flag : Z) (f : inflate_state) : inflate_state := gzip_next (with_flg (Z.ldiff (flg f) flag) f).

Definition gzip_turn (budget : Z) (s : inflate_state * bytes * bytes) : option ((inflate_state * bytes * bytes) + stepped inflate_state) :=
  let '(f, p, out) := s in
  let starved f p := Some (inr (Stepped STEP_INPUT f p out)) in
  match gstate f with
  | GZ_FIXED =>
      let '(full, f, p) := gzip_collect f p 10 in
      if negb full then starved f p
      else if negb (field f !!! 2%nat =? 8) then Some (inr (Stepped (STEP_ERROR (lit "unsupported gzip compression method")) f p out))
      else Some (inl (gzip_next (with_flg (field f !!! 3%nat) f), p, out))
  | GZ_XLEN =>
      let '(full, f, p) := gzip_collect f p 2 in
      if negb full then starved f p
      else Some (inl (with_gstate GZ_EXTRA (with_extra (Z.lor (field f !!! 0%nat) (Z.shiftl (field f !!! 1%nat) 8)) f), p, out))
  | GZ_EXTRA =>
      let n := Z.of_nat (length p) in
      let k := if n <? extra_remaining f then n else extra_remaining f in
      let f := with_extra (extra_remaining f - k) f in
      let p := drop (Z.to_nat k) p in
      if 0 <? extra_remaining f then starved f p else Some (inl (part_done GZ_FEXTRA f, p, out))
  | GZ_NAME | GZ_COMMENT =>
      match after_nul p with
      | None => starved f []
      | Some p => Some (inl (part_done (match gstate f with GZ_NAME => GZ_FNAME | _ => GZ_FCOMMENT end) f, p, out))
      end
  | GZ_HCRC =>
      let '(full, f, p) := gzip_collect f p 2 in
      if negb full then starved f p else Some (inl (part_done GZ_FHCRC f, p, out))
  | GZ_BODY =>
      r ← inflate_step FMT_GZIP (body f) p (budget - Z.of_nat (length out));
      let f := with_body (s_state r) f in
      match s_step r with
      | STEP_END => Some (inl (with_gstate GZ_TRAILER (with_field [] f), s_input r, out ++ s_out r))
      | stop => Some (inr (Stepped stop f (s_input r) (out ++ s_out r)))
      end
  | GZ_TRAILER =>
      let '(full, f, p) := gzip_collect f p 8 in
      if negb full then starved f p
      else if negb (le32 (field f) =? crc (body f)) then Some (inr (Stepped (STEP_ERROR (lit "gzip CRC-32 mismatch")) f p out))
      else if negb (le32 (drop 4 (field f)) =? isize (body f)) then Some (inr (Stepped (STEP_ERROR (lit "gzip size mismatch")) f p out))
      else Some (inr (Stepped STEP_END f p out))
  end.

(** The member's parts in turn: at most eight are left. *)
Fixpoint gzip_loop (fuel : nat) (budget : Z) (s : inflate_state * bytes * bytes) : option (stepped inflate_state) :=
  match fuel with
  | O => None
  | S fuel =>
      next ← gzip_turn budget s;
      match next with
      | inl s => gzip_loop fuel budget s
      | inr r => Some r
      end
  end.

Definition gzip_step (f : inflate_state) (p : bytes) (budget : Z) : option (stepped inflate_state) := gzip_loop 9 budget (f, p, []).

End inflate.

(** * The loops over the encoders: [core/compress.c]

    Each offers the library the input and an empty buffer again and again and
    adds what it gives. The libraries are parameters; [_owes] is how many bytes
    one still has to give for the input and flush asked of it, which bounds the
    turns of a loop. *)

Class Encoders := {
  tdefl_compressor : Type;
  tdefl_init : bool → Z → tdefl_compressor;
  tdefl_compress : tdefl_compressor → bytes → bool → Z → tdefl_compressor * nat * bytes * Z;
  tdefl_owes : tdefl_compressor → bytes → bool → Z;
  ZSTD_CCtx : Type;
  ZSTD_createCCtx : nat → Z → option Z → option ZSTD_CCtx;
  ZSTD_compressStream2 : ZSTD_CCtx → bytes → bool → Z → ZSTD_CCtx * nat * bytes * (Z + Z);
  ZSTD_getErrorName : Z → bytes;
  ZSTD_owes : ZSTD_CCtx → bytes → bool → Z;
  lzma_encoder : Type;
  lzma_easy_encoder : nat → Z → lzma_encoder * Z;
  lzma_encode : lzma_encoder → bytes → bool → Z → lzma_encoder * nat * bytes * Z;
  lzma_owes : lzma_encoder → bytes → bool → Z;
  bz_encoder : Type;
  BZ2_bzCompressInit : nat → Z → option bz_encoder;
  BZ2_bzCompress : bz_encoder → bytes → bool → Z → bz_encoder * nat * bytes * Z;
  bz_owes : bz_encoder → bytes → bool → Z }.

Definition TDEFL_STATUS_OKAY : Z := 0.
Definition TDEFL_STATUS_DONE : Z := 1.
Definition BZ_RUN_OK : Z := 1.
Definition BZ_FINISH_OK : Z := 3.
Definition BZ_PARAM_ERROR : Z := -2.

(** What a loop over an encoder makes: its state, the output, and why it
    failed. *)
Definition chunked (X : Type) : Type := X * bytes * option bytes.

Section encoders.
Context `{Encoders}.

Definition run_turns {S R} (turn : S → S + R) (owed offered : Z) (s : S) : option R :=
  match until turn (Z.to_pos (owed + offered + 2)) s with
  | inr r => Some r
  | inl _ => None
  end.

Definition deflate_turn (finish : bool) (s : tdefl_compressor * bytes * bytes) : (tdefl_compressor * bytes * bytes) + chunked tdefl_compressor :=
  let '(d, data, out) := s in
  let '(d, used, produced, status) := tdefl_compress d data finish 8192 in
  let data := drop used data in
  let out := out ++ produced in
  if negb (status =? TDEFL_STATUS_OKAY) then inr (d, out, None)
  else if bool_decide (data = []) && (Z.of_nat (length produced) <? 8192) then inr (d, out, None)
  else inl (d, data, out).

Definition deflate_chunk (d : tdefl_compressor) (data : bytes) (finish : bool) : option (chunked tdefl_compressor) :=
  run_turns (deflate_turn finish) (tdefl_owes d data finish) (Z.of_nat (length data)) (d, data, []).

Definition zstd_chunk_turn (finish : bool) (s : ZSTD_CCtx * bytes * bytes) : (ZSTD_CCtx * bytes * bytes) + chunked ZSTD_CCtx :=
  let '(c, data, out) := s in
  let '(c, used, produced, rc) := ZSTD_compressStream2 c data finish CODEC_SLICE in
  let data := drop used data in
  let out := out ++ produced in
  match rc with
  | inr code =>
      inr (c, out, Some (if code =? ZSTD_error_memory_allocation then lit "out of memory" else ZSTD_getErrorName code))
  | inl hint =>
      if (if finish then hint =? 0 else bool_decide (data = []) && (Z.of_nat (length produced) <? CODEC_SLICE))
      then inr (c, out, None) else inl (c, data, out)
  end.

Definition zstd_chunk (c : ZSTD_CCtx) (data : bytes) (finish : bool) : option (chunked ZSTD_CCtx) :=
  run_turns (zstd_chunk_turn finish) (ZSTD_owes c data finish) (Z.of_nat (length data)) (c, data, []).

Definition xz_chunk_turn (finish : bool) (s : lzma_encoder * bytes * bytes) : (lzma_encoder * bytes * bytes) + chunked lzma_encoder :=
  let '(z, data, out) := s in
  let '(z, used, produced, rc) := lzma_encode z data finish CODEC_SLICE in
  let data := drop used data in
  let out := out ++ produced in
  if rc =? LZMA_STREAM_END then inr (z, out, None)
  else if negb (rc =? LZMA_OK)
  then inr (z, out, Some (if rc =? LZMA_MEM_ERROR then lit "out of memory" else lit "xz encoder failed"))
  else if negb finish && bool_decide (data = []) && negb (CODEC_SLICE - Z.of_nat (length produced) =? 0) then inr (z, out, None)
  else inl (z, data, out).

Definition xz_chunk (z : lzma_encoder) (data : bytes) (finish : bool) : option (chunked lzma_encoder) :=
  if negb finish && bool_decide (data = []) then Some (z, [], None)
  else run_turns (xz_chunk_turn finish) (lzma_owes z data finish) (Z.of_nat (length data)) (z, data, []).

Definition bz2_chunk_turn (finish : bool) (s : bz_encoder * bytes * bytes) : (bz_encoder * bytes * bytes) + chunked bz_encoder :=
  let '(bz, data, out) := s in
  let offered := if Z.of_nat (length data) <? UINT_MAX then data else take (Z.to_nat UINT_MAX) data in
  let '(bz, used, produced, rc) := BZ2_bzCompress bz offered finish CODEC_SLICE in
  let data := drop used data in
  let out := out ++ produced in
  if rc =? BZ_STREAM_END then inr (bz, out, None)
  else if (rc =? BZ_PARAM_ERROR) && negb finish && bool_decide (data = []) && bool_decide (produced = []) then inr (bz, out, None)
  else if negb (rc =? BZ_RUN_OK) && negb (rc =? BZ_FINISH_OK)
  then inr (bz, out, Some (if rc =? BZ_MEM_ERROR then lit "out of memory" else lit "bzip2 encoder failure"))
  else if negb finish && bool_decide (data = []) && (Z.of_nat (length produced) <? CODEC_SLICE) then inr (bz, out, None)
  else inl (bz, data, out).

Definition bz2_chunk (bz : bz_encoder) (data : bytes) (finish : bool) : option (chunked bz_encoder) :=
  if negb finish && bool_decide (data = []) then Some (bz, [], None)
  else run_turns (bz2_chunk_turn finish) (bz_owes bz data finish) (Z.of_nat (length data)) (bz, data, []).

End encoders.
