(* ===== verification/Compress.v ===== *)
(** * Compression streams: [core/compress.c]

    A stream that encodes or decodes a chunk at a time: the members of the data
    a decoder is fed, what it keeps of its input, and the calls that update it,
    finish it and close it. *)

From S2P Require Import Prelude.
From S2P Require Import Lua.
From S2P Require Import Codecs.

Local Open Scope Z_scope.

Definition DEFAULT_MAX_OUT : Z := Z.shiftl 1 20.
Definition DEFAULT_XZ_MEMLIMIT : Z := Z.shiftl 256 20.
Definition DEFAULT_ZSTD_WINDOW : Z := Z.shiftl 1 27.
Definition MAX_ZSTD_LEVEL : Z := 19.
Definition DEFAULT_ZSTD_LEVEL : Z := 3.
Definition MAX_XZ_PRESET : Z := 9.
Definition DEFAULT_XZ_PRESET : Z := 6.
Definition MAX_BZ2_LEVEL : Z := 9.
Definition DEFAULT_BZ2_LEVEL : Z := 9.
Definition MZ_DEFAULT_LEVEL : Z := 6.
Definition LZMA_PRESET_EXTREME : Z := Z.shiftl 1 31.
Definition ZSTD_WINDOWLOG_MIN : Z := 10.
Definition ZSTD_WINDOWLOG_MAX : Z := 31.
Definition SIZE_MAX : Z := 2 ^ 64 - 1.

Inductive stream_op := OP_INFLATE | OP_DEFLATE | OP_BZ2 | OP_XZ | OP_ZSTD | OP_ZSTD_ENCODE | OP_XZ_ENCODE | OP_BZ2_ENCODE.
Inductive phase := PH_BETWEEN | PH_MEMBER | PH_TRAILING.

#[export] Instance stream_op_eq_dec : EqDecision stream_op.
Proof. solve_decision. Defined.
#[export] Instance phase_eq_dec : EqDecision phase.
Proof. solve_decision. Defined.

(** Whether the allocator grants a block, by the number of times it was
    asked. *)
Class Memory := { can_allocate : nat → Z → bool; inflate_size : Z; deflate_size : Z }.

(** A block of bytes that grows. *)
Record buffer := Buffer { b_data : bytes; b_cap : Z }.
Definition no_buffer : buffer := Buffer [] 0.

(** The codec a stream holds, of those it may have. *)
Inductive codec_state `{Bzlib, Lzma, Zstd, Tinfl, Encoders} :=
  | Inflater (f : inflate_state) | Bz2Decoder (bz : option bz_stream) | XzDecoder (z : option lzma_stream) | ZstdDecoder (z : zstd_state)
  | Deflater (d : tdefl_compressor) | ZstdEncoder (c : ZSTD_CCtx) | XzEncoder (z : lzma_encoder) | Bz2Encoder (bz : bz_encoder)
  | Released.

Record stream `{Bzlib, Lzma, Zstd, Tinfl, Encoders} := Stream {
  op : stream_op; format : stream_format; finished : bool; ended : bool; more : bool;
  ph : phase; members : Z; padding : Z; memlimit : Z;
  in_ : buffer; in_pos : Z; rest : buffer; codec : codec_state;
  wrote_header : bool; enc_crc : Z; enc_isize : Z; asks : nat }.
Arguments Stream {_ _ _ _ _}.

Section stream.
Context `{Bzlib, Lzma, Zstd, Tinfl, Encoders, Memory, LuaStrings, LuaIntegers}.

Definition with_finished (b : bool) (s : stream) : stream :=
  Stream (op s) (format s) b (ended s) (more s) (ph s) (members s) (padding s) (memlimit s) (in_ s) (in_pos s) (rest s) (codec s)
    (wrote_header s) (enc_crc s) (enc_isize s) (asks s).
Definition with_more (b : bool) (s : stream) : stream :=
  Stream (op s) (format s) (finished s) (ended s) b (ph s) (members s) (padding s) (memlimit s) (in_ s) (in_pos s) (rest s) (codec s)
    (wrote_header s) (enc_crc s) (enc_isize s) (asks s).
Definition with_ended (s : stream) : stream :=
  Stream (op s) (format s) (finished s) true (more s) (ph s) (members s) (padding s) (memlimit s) (in_ s) (in_pos s) (rest s) (codec s)
    (wrote_header s) (enc_crc s) (enc_isize s) (asks s).
Definition with_ph (p : phase) (s : stream) : stream :=
  Stream (op s) (format s) (finished s) (ended s) (more s) p (members s) (padding s) (memlimit s) (in_ s) (in_pos s) (rest s) (codec s)
    (wrote_header s) (enc_crc s) (enc_isize s) (asks s).
Definition with_members (n : Z) (s : stream) : stream :=
  Stream (op s) (format s) (finished s) (ended s) (more s) (ph s) n (padding s) (memlimit s) (in_ s) (in_pos s) (rest s) (codec s)
    (wrote_header s) (enc_crc s) (enc_isize s) (asks s).
Definition with_padding (n : Z) (s : stream) : stream :=
  Stream (op s) (format s) (finished s) (ended s) (more s) (ph s) (members s) n (memlimit s) (in_ s) (in_pos s) (rest s) (codec s)
    (wrote_header s) (enc_crc s) (enc_isize s) (asks s).
Definition with_in (b : buffer) (pos : Z) (s : stream) : stream :=
  Stream (op s) (format s) (finished s) (ended s) (more s) (ph s) (members s) (padding s) (memlimit s) b pos (rest s) (codec s)
    (wrote_header s) (enc_crc s) (enc_isize s) (asks s).
Definition with_rest (b : buffer) (s : stream) : stream :=
  Stream (op s) (format s) (finished s) (ended s) (more s) (ph s) (members s) (padding s) (memlimit s) (in_ s) (in_pos s) b (codec s)
    (wrote_header s) (enc_crc s) (enc_isize s) (asks s).
Definition with_codec (c : codec_state) (s : stream) : stream :=
  Stream (op s) (format s) (finished s) (ended s) (more s) (ph s) (members s) (padding s) (memlimit s) (in_ s) (in_pos s) (rest s) c
    (wrote_header s) (enc_crc s) (enc_isize s) (asks s).
Definition with_encoded (header : bool) (crc_ isize_ : Z) (s : stream) : stream :=
  Stream (op s) (format s) (finished s) (ended s) (more s) (ph s) (members s) (padding s) (memlimit s) (in_ s) (in_pos s) (rest s) (codec s)
    header crc_ isize_ (asks s).
Definition asked_more (s : stream) : stream :=
  Stream (op s) (format s) (finished s) (ended s) (more s) (ph s) (members s) (padding s) (memlimit s) (in_ s) (in_pos s) (rest s) (codec s)
    (wrote_header s) (enc_crc s) (enc_isize s) (S (asks s)).

(** The loop that doubles a block's room. *)
Fixpoint room_loop (fuel : nat) (room need : Z) : Z :=
  match fuel with
  | O => room
  | S fuel => if room <? need then room_loop fuel (if SIZE_MAX / 2 <? room then need else room * 2) need else room
  end.

(** The grown block, or [None], and whether the allocator was asked. *)
Definition bytes_append (asked : nat) (b : buffer) (data : bytes) : option buffer * bool :=
  let len := Z.of_nat (length (b_data b)) in
  let n := Z.of_nat (length data) in
  if n =? 0 then (Some b, false)
  else if SIZE_MAX - len <? n then (None, false)
  else if b_cap b <? len + n then
    let room := room_loop 64 (if b_cap b =? 0 then 256 else b_cap b) (len + n) in
    if can_allocate asked room then (Some (Buffer (b_data b ++ data) room), true) else (None, true)
  else (Some (Buffer (b_data b ++ data) (b_cap b)), false).

(** The stream after an append, and whether it was made. *)
Definition rest_append (data : bytes) (s : stream) : stream * bool :=
  match bytes_append (asks s) (rest s) data with
  | (Some b, asked) => (with_rest b (if asked then asked_more s else s), true)
  | (None, asked) => (if asked then asked_more s else s, false)
  end.

Definition in_append (data : bytes) (s : stream) : stream * bool :=
  match bytes_append (asks s) (in_ s) data with
  | (Some b, asked) => (with_in b (in_pos s) (if asked then asked_more s else s), true)
  | (None, asked) => (if asked then asked_more s else s, false)
  end.

(** The codec's state is freed; [rest] stays. *)
Definition release (s : stream) : stream := with_codec Released (with_in no_buffer 0 (with_more false s)).

(** What a method answers, and the stream after it. *)
Definition fail (s : stream) (msg : bytes) : stream * answer bytes :=
  (release (with_more false (with_finished true s)), Refuses (lit "compress: " ++ msg)).

(** ** Members *)

Definition zstd_frame_magic : bytes := [0x28; 0xb5; 0x2f; 0xfd].
Definition zstd_skippable_magic : bytes := [0x50; 0x2a; 0x4d; 0x18].

(** [None] is too few bytes to tell. *)
Fixpoint zstd_magic_loop (k : nat) (p : bytes) (frame_ok skip_ok : bool) : option bool :=
  if bool_decide (k = 4)%nat then Some (frame_ok || skip_ok)
  else
    match p with
    | [] => if frame_ok || skip_ok then None else Some false
    | b :: p =>
        zstd_magic_loop (S k) p (frame_ok && (b =? zstd_frame_magic !!! k))
          (skip_ok && (if bool_decide (k = 0)%nat then Z.land b 0xf0 =? zstd_skippable_magic !!! k else b =? zstd_skippable_magic !!! k))
    end.
Definition zstd_magic (p : bytes) : option bool := zstd_magic_loop 0 p true true.

(** The loop over a magic's bytes, each given by what it takes. *)
Fixpoint magic_loop (magic : list (Z → bool)) (p : bytes) : option bool :=
  match magic, p with
  | [], _ => Some true
  | _ :: _, [] => None
  | ok :: magic, b :: p => if ok b then magic_loop magic p else Some false
  end.

Definition magic_of (o : stream_op) : list (Z → bool) :=
  match o with
  | OP_BZ2 => [Z.eqb 0x42; Z.eqb 0x5a; Z.eqb 0x68; λ b, (0x31 <=? b) && (b <=? 0x39)]
  | OP_XZ => [Z.eqb 0xfd; Z.eqb 0x37; Z.eqb 0x7a; Z.eqb 0x58; Z.eqb 0x5a; Z.eqb 0]
  | _ => [Z.eqb 0x1f; Z.eqb 0x8b]
  end.

Definition magic_match (o : stream_op) (p : bytes) : option bool :=
  if decide (o = OP_ZSTD) then zstd_magic p else magic_loop (magic_of o) p.

Definition with_hdr_ok (b : bool) (z : zstd_state) : zstd_state := ZstdState (zd z) (zwindow z) b (zdrain z) (zsize z) (zmade z).

Definition start_member (s : stream) : stream + bytes :=
  match codec s with
  | Inflater f => inl (with_codec (Inflater (with_field [] (with_gstate GZ_FIXED f))) s)
  | Bz2Decoder _ =>
      match BZ2_bzDecompressInit (asks s) with
      | Some bz => inl (asked_more (with_codec (Bz2Decoder (Some bz)) s))
      | None => inr (lit "cannot start the bzip2 decoder")
      end
  | ZstdDecoder z => inl (with_codec (ZstdDecoder (with_hdr_ok false z)) s)
  | XzDecoder z =>
      let '(z, rc) := lzma_stream_decoder (asks s) (default LZMA_STREAM_INIT z) (memlimit s) in
      if rc =? LZMA_OK then inl (asked_more (with_codec (XzDecoder (Some z)) s))
      else inr (if rc =? LZMA_MEM_ERROR then lit "out of memory" else lit "cannot start the xz decoder")
  | _ => inl s
  end.

Definition restate {X Y} (f : X → Y) (r : stepped X) : stepped Y := Stepped (s_step r) (f (s_state r)) (s_input r) (s_out r).

(** A step of the member's decoder; a bzip2 decoder is ended with its
    member. *)
Definition member_step (s : stream) (p : bytes) (budget : Z) : option (stepped codec_state) :=
  match codec s with
  | Bz2Decoder (Some bz) =>
      r ← bz2_step bz p budget;
      Some (match s_step r with STEP_END => Stepped STEP_END (Bz2Decoder None) (s_input r) (s_out r) | _ => restate (λ bz, Bz2Decoder (Some bz)) r end)
  | XzDecoder (Some z) => restate (λ z, XzDecoder (Some z)) <$> xz_step z p budget
  | ZstdDecoder z => restate ZstdDecoder <$> zstd_step z p budget
  | Inflater f =>
      if decide (format s = FMT_GZIP) then restate Inflater <$> gzip_step f p budget
      else restate (λ b, Inflater (with_body b f)) <$> inflate_step (format s) (body f) p budget
  | _ => None
  end.

Definition not_a_stream (o : stream_op) : bytes :=
  match o with
  | OP_BZ2 => lit "not a bzip2 stream" | OP_XZ => lit "not an xz stream" | OP_ZSTD => lit "not a zstd stream"
  | _ => lit "not a gzip stream"
  end.

Definition truncated (s : stream) : bytes :=
  match op s with
  | OP_BZ2 => lit "truncated bzip2 stream" | OP_XZ => lit "truncated xz stream" | OP_ZSTD => lit "truncated zstd stream"
  | _ => if decide (format s = FMT_GZIP) then lit "truncated gzip stream" else lit "truncated compressed stream"
  end.

(** The loop that puts NULs that were no padding at the front of [rest], four
    at a time. *)
Fixpoint zeros_loop (fuel : nat) (left_ : Z) (s : stream) : stream * bool :=
  match fuel with
  | O => (s, true)
  | S fuel =>
      if 0 <? left_ then
        let '(s, made) := rest_append (replicate (Z.to_nat (if left_ <? 4 then left_ else 4)) 0) s in
        if made then zeros_loop fuel (left_ - 4) s else (s, false)
      else (s, true)
  end.

Definition enter_trailing (s : stream) : stream * bool :=
  let '(s, made) := if negb (padding s mod 4 =? 0) then zeros_loop (Z.to_nat (padding s)) (padding s) s else (s, true) in
  if made then (with_ended (with_ph PH_TRAILING (with_padding 0 s)), true) else (s, false).

(** What [decode] leaves: the stream, the input it did not take and the
    output; or why it failed. *)
Inductive decoded := Decoded (s : stream) (p out : bytes) | Failed (s : stream) (why : bytes).

Definition oom : bytes := lit "out of memory".

(** One turn; [None] where a step would not end. *)
Definition decode_turn (at_end : bool) (budget : Z) (st : stream * bytes * bytes) : (stream * bytes * bytes) + option decoded :=
  let '(s, p, out) := st in
  match ph s with
  | PH_TRAILING =>
      match rest_append p s with
      | (s, true) => inr (Some (Decoded s [] out))
      | (s, false) => inr (Some (Failed s oom))
      end
  | PH_MEMBER =>
      match member_step s p (budget - Z.of_nat (length out)) with
      | None => inr None
      | Some r =>
          let s := with_codec (s_state r) s in
          let p := s_input r in
          let out := out ++ s_out r in
          match s_step r with
          | STEP_ERROR why => inr (Some (Failed s why))
          | STEP_END =>
              let s := with_members (members s + 1) s in
              if bool_decide (op s = OP_INFLATE) && negb (bool_decide (format s = FMT_GZIP)) then
                match enter_trailing s with
                | (s, true) => inl (s, p, out)
                | (s, false) => inr (Some (Failed s oom))
                end
              else inl (with_ph PH_BETWEEN s, p, out)
          | STEP_FULL => inr (Some (Decoded (with_more true s) p out))
          | STEP_INPUT => inr (Some (Decoded s p out))
          end
      end
  | PH_BETWEEN =>
      match p with
      | [] => inr (Some (Decoded s [] out))
      | b :: after =>
          if bool_decide (op s = OP_XZ) && (0 <? members s) && (b =? 0)
          then inl (with_padding (padding s + 1) s, after, out)
          else
            let m := magic_match (op s) p in
            if bool_decide (m = None) && negb at_end then inr (Some (Decoded s p out))
            else if negb (bool_decide (m = Some true)) then
              if members s =? 0 then inr (Some (Failed s (if bool_decide (m = None) then truncated s else not_a_stream (op s))))
              else
                match enter_trailing s with
                | (s, true) => inl (s, p, out)
                | (s, false) => inr (Some (Failed s oom))
                end
            else if negb (padding s mod 4 =? 0) then inr (Some (Failed s (lit "corrupt xz stream padding")))
            else
              match start_member (with_padding 0 s) with
              | inl s => inl (with_ph PH_MEMBER s, p, out)
              | inr why => inr (Some (Failed (with_padding 0 s) why))
              end
      end
  end.

(** A turn takes input, or moves on towards one that does or ends. *)
Definition decode (s : stream) (p : bytes) (at_end : bool) (budget : Z) : option decoded :=
  match until (decode_turn at_end budget) (Z.to_pos (2 * Z.of_nat (length p) + 4)) (with_more false s, p, []) with
  | inr r => r
  | inl _ => None
  end.

(** ** Constructors *)

Definition new_stream (o : stream_op) (f : stream_format) (c : codec_state) (ph_ : phase) (memlimit_ : Z) (asked : nat) : stream :=
  Stream o f false false false ph_ 0 0 memlimit_ no_buffer 0 no_buffer c false 0 0 asked.

Definition format_named (arg : lua_value) : stream_format + bytes :=
  match lua_tolstring arg with
  | None => inr (lit "string expected")
  | Some name =>
      let name := c_string name in
      if decide (name = lit "raw") then inl FMT_RAW
      else if decide (name = lit "zlib") then inl FMT_ZLIB
      else if decide (name = lit "gzip") then inl FMT_GZIP
      else inr (lit "invalid option '" ++ name ++ lit "'")
  end.

Definition out_of_memory : answer stream := Refuses (lit "compress: out of memory").

Definition empty_body : body_state :=
  Body tinfl_init (replicate (Z.to_nat TINFL_LZ_DICT_SIZE) 0) 0 0 0 false 0 0 0 0.

Definition inflater (format_ : lua_value) : answer stream :=
  match format_named format_ with
  | inr why => Raises why
  | inl fmt =>
      if negb (can_allocate 0 inflate_size) then out_of_memory
      else
        let f := Inflate empty_body GZ_FIXED [] 0 0 in
        Answers (if decide (fmt = FMT_GZIP) then new_stream OP_INFLATE fmt (Inflater f) PH_BETWEEN 0 1
                 else new_stream OP_INFLATE fmt (Inflater (with_body (inflate_start_body (body f)) f)) PH_MEMBER 0 1)
  end.

Definition deflater (format_ level : lua_value) : answer stream :=
  match format_named format_ with
  | inr why => Raises why
  | inl fmt =>
      match opt_integer level MZ_DEFAULT_LEVEL with
      | None => Raises (lit "number expected")
      | Some level =>
          if negb ((0 <=? level) && (level <=? 10)) then Raises (lit "level must be 0 to 10")
          else if negb (can_allocate 0 deflate_size) then out_of_memory
          else Answers (new_stream OP_DEFLATE fmt (Deflater (tdefl_init (bool_decide (fmt = FMT_ZLIB)) level)) PH_BETWEEN 0 1)
      end
  end.

Definition xz_decoder (limit : lua_value) : answer stream :=
  match opt_integer limit DEFAULT_XZ_MEMLIMIT with
  | None => Raises (lit "number expected")
  | Some limit =>
      if negb (0 <? limit) then Raises (lit "the memory limit must be positive")
      else if negb (can_allocate 0 CODEC_SLICE) then out_of_memory
      else Answers (new_stream OP_XZ FMT_RAW (XzDecoder None) PH_BETWEEN limit 1)
  end.

Definition bz2_decoder : answer stream :=
  if negb (can_allocate 0 CODEC_SLICE) then out_of_memory
  else Answers (new_stream OP_BZ2 FMT_RAW (Bz2Decoder None) PH_BETWEEN 0 1).

(** The loop to the least window log that holds [max_window]. *)
Fixpoint log_loop (fuel : nat) (log max_window : Z) : Z :=
  match fuel with
  | O => log
  | S fuel => if (log <? ZSTD_WINDOWLOG_MAX) && (Z.shiftl 1 log <? max_window) then log_loop fuel (log + 1) max_window else log
  end.
Definition window_log (max_window : Z) : Z := log_loop 32 ZSTD_WINDOWLOG_MIN max_window.

Definition zstd_decoder (max_window : lua_value) : answer stream :=
  match opt_integer max_window DEFAULT_ZSTD_WINDOW with
  | None => Raises (lit "number expected")
  | Some max_window =>
      if max_window <? Z.shiftl 1 ZSTD_WINDOWLOG_MIN then Raises (lit "the window limit must be at least 1024")
      else if negb (can_allocate 0 CODEC_SLICE) then out_of_memory
      else
        match ZSTD_createDCtx 1 (window_log max_window) with
        | None => out_of_memory
        | Some d => Answers (new_stream OP_ZSTD FMT_RAW (ZstdDecoder (ZstdState d max_window false false 0 0)) PH_BETWEEN 0 2)
        end
  end.

Definition bz2_encoder (level : lua_value) : answer stream :=
  match cosmic_optint level DEFAULT_BZ2_LEVEL with
  | inr why => Raises why
  | inl level =>
      if negb ((1 <=? level) && (level <=? MAX_BZ2_LEVEL)) then Raises (lit "level must be 1 to 9")
      else if negb (can_allocate 0 CODEC_SLICE) then out_of_memory
      else
        match BZ2_bzCompressInit 1 level with
        | None => out_of_memory
        | Some bz => Answers (new_stream OP_BZ2_ENCODE FMT_RAW (Bz2Encoder bz) PH_BETWEEN 0 2)
        end
  end.

Definition zstd_encoder (level size : lua_value) : answer stream :=
  match cosmic_optint level DEFAULT_ZSTD_LEVEL with
  | inr why => Raises why
  | inl level =>
      if negb ((1 <=? level) && (level <=? MAX_ZSTD_LEVEL)) then Raises (lit "level must be 1 to 19")
      else
        let start pledged :=
          if negb (can_allocate 0 CODEC_SLICE) then out_of_memory
          else
            match ZSTD_createCCtx 1 level pledged with
            | None => out_of_memory
            | Some c => Answers (new_stream OP_ZSTD_ENCODE FMT_RAW (ZstdEncoder c) PH_BETWEEN 0 2)
            end in
        if decide (size = LNil) then start None
        else
          match lua_tointegerx size with
          | None => Raises (lit "number expected")
          | Some size => if size <? 0 then Raises (lit "size must not be negative") else start (Some size)
          end
  end.

Definition xz_encoder (preset extreme : lua_value) : answer stream :=
  match cosmic_optint preset DEFAULT_XZ_PRESET with
  | inr why => Raises why
  | inl preset =>
      if negb ((0 <=? preset) && (preset <=? MAX_XZ_PRESET)) then Raises (lit "preset must be 0 to 9")
      else if negb (can_allocate 0 CODEC_SLICE) then out_of_memory
      else
        let flags := if to_boolean extreme then Z.lor preset LZMA_PRESET_EXTREME else preset in
        let '(z, rc) := lzma_easy_encoder 1 flags in
        if rc =? LZMA_OK then Answers (new_stream OP_XZ_ENCODE FMT_RAW (XzEncoder z) PH_BETWEEN 0 2)
        else Refuses (if rc =? LZMA_MEM_ERROR then lit "compress: out of memory" else lit "compress: cannot start the xz encoder")
  end.

(** ** Methods *)

Definition is_finished : bytes := lit "compress: the stream is finished".

Definition gzip_header : bytes := [0x1f; 0x8b; 8; 0; 0; 0; 0; 0; 0; 255].

(** The header, once, of a gzip stream. *)
Definition gzip_write_header (s : stream) : stream * bytes :=
  if negb (bool_decide (format s = FMT_GZIP)) || wrote_header s then (s, [])
  else (with_encoded true (enc_crc s) (enc_isize s) s, gzip_header).

Definition push_u32le (v : Z) : bytes := [u8 v; u8 (Z.shiftr v 8); u8 (Z.shiftr v 16); u8 (Z.shiftr v 24)].

(** An encoder's loop over its codec. *)
Definition encode_chunk (s : stream) (data : bytes) (finish : bool) : option (stream * bytes * option bytes) :=
  match codec s with
  | Deflater d => '(d, out, why) ← deflate_chunk d data finish; Some (with_codec (Deflater d) s, out, why)
  | ZstdEncoder c => '(c, out, why) ← zstd_chunk c data finish; Some (with_codec (ZstdEncoder c) s, out, why)
  | XzEncoder z => '(z, out, why) ← xz_chunk z data finish; Some (with_codec (XzEncoder z) s, out, why)
  | Bz2Encoder bz => '(bz, out, why) ← bz2_chunk bz data finish; Some (with_codec (Bz2Encoder bz) s, out, why)
  | _ => None
  end.

Definition is_encoder (o : stream_op) : bool :=
  match o with OP_DEFLATE | OP_ZSTD_ENCODE | OP_XZ_ENCODE | OP_BZ2_ENCODE => true | _ => false end.

Definition encoder_update (s : stream) (data : bytes) : option (stream * answer bytes) :=
  let '(s, head) := if decide (op s = OP_DEFLATE) then gzip_write_header s else (s, []) in
  let s := if decide (op s = OP_DEFLATE)
           then with_encoded (wrote_header s) (lzma_crc32 data (enc_crc s)) (u32 (enc_isize s + Z.of_nat (length data))) s else s in
  '(s, out, why) ← encode_chunk s data false;
  Some (match why with
        | Some why => fail s why
        | None => (with_finished false s, Answers (head ++ out))
        end).

(** What is kept of the input an update did not take. *)
Definition keep_input (backlog : bool) (data : bytes) (used : Z) (s : stream) : stream * bool :=
  if backlog then
    let pos := in_pos s + used in
    let len := Z.of_nat (length (b_data (in_ s))) in
    if pos =? len then (with_in (Buffer [] (b_cap (in_ s))) 0 s, true)
    else if len / 2 <? pos then (with_in (Buffer (drop (Z.to_nat pos) (b_data (in_ s))) (b_cap (in_ s))) 0 s, true)
    else (with_in (in_ s) pos s, true)
  else if used <? Z.of_nat (length data) then
    in_append (drop (Z.to_nat used) data) (with_in (Buffer [] (b_cap (in_ s))) 0 s)
  else (s, true).

Definition decoder_update (s : stream) (data : bytes) (max : Z) : option (stream * answer bytes) :=
  let backlog := in_pos s <? Z.of_nat (length (b_data (in_ s))) in
  match (if backlog then in_append data s else (s, true)) with
  | (s, false) => Some (fail s oom)
  | (s, true) =>
      let p := if backlog then drop (Z.to_nat (in_pos s)) (b_data (in_ s)) else data in
      r ← decode s p false max;
      Some (match r with
            | Failed s why => fail s why
            | Decoded s left_ out =>
                match keep_input backlog data (Z.of_nat (length p) - Z.of_nat (length left_)) s with
                | (s, false) => fail s oom
                | (s, true) => (with_finished false s, Answers out)
                end
            end)
  end.

Definition stream_update (s : stream) (chunk max : lua_value) : option (stream * answer bytes) :=
  if finished s then Some (s, Raises is_finished)
  else
    match lua_tolstring chunk with
    | None => Some (s, Raises (lit "string expected"))
    | Some data =>
        match opt_integer max DEFAULT_MAX_OUT with
        | None => Some (s, Raises (lit "number expected"))
        | Some max =>
            if negb (0 <? max) then Some (s, Raises (lit "the output limit must be positive"))
            else
              let s := with_finished true s in
              if is_encoder (op s) then encoder_update s data else decoder_update s data max
        end
    end.

Definition pending_output : bytes :=
  lit "compress: the stream has pending output: drain it with update(" ++ [0x22; 0x22]
  ++ lit ") while pending() before finish".

Definition encoder_finish (s : stream) : option (stream * answer bytes) :=
  let '(s, head) := if decide (op s = OP_DEFLATE) then gzip_write_header s else (s, []) in
  '(s, out, why) ← encode_chunk s [] true;
  Some (match why with
        | Some why => fail s why
        | None =>
            let tail_ := if bool_decide (op s = OP_DEFLATE) && bool_decide (format s = FMT_GZIP)
                         then push_u32le (enc_crc s) ++ push_u32le (enc_isize s) else [] in
            (release s, Answers (head ++ out ++ tail_))
        end).

Definition decoder_finish (s : stream) : option (stream * answer bytes) :=
  r ← decode s (drop (Z.to_nat (in_pos s)) (b_data (in_ s))) true SIZE_MAX;
  Some (match r with
        | Failed s why => fail s why
        | Decoded s _ out =>
            match ph s with
            | PH_MEMBER => fail s (truncated s)
            | PH_BETWEEN =>
                if members s =? 0 then fail s (truncated s)
                else
                  match enter_trailing s with
                  | (s, false) => fail s oom
                  | (s, true) => (release s, Answers out)
                  end
            | PH_TRAILING => (release s, Answers out)
            end
        end).

Definition stream_finish (s : stream) : option (stream * answer bytes) :=
  if finished s then Some (s, Raises is_finished)
  else if more s then Some (s, Raises pending_output)
  else
    let s := with_finished true s in
    if is_encoder (op s) then encoder_finish s else decoder_finish s.

Definition stream_done (s : stream) : bool := ended s.
Definition stream_pending (s : stream) : bool := more s.
Definition stream_rest (s : stream) : bytes := b_data (rest s).
Definition stream_close (s : stream) : stream := release (with_finished true s).
Definition stream_gc (s : stream) : stream := with_rest no_buffer (release (with_finished true s)).

Definition compress_crc32 (data crc_ : lua_value) : answer Z :=
  match lua_tolstring data with
  | None => Raises (lit "string expected")
  | Some data =>
      match opt_integer crc_ 0 with
      | None => Raises (lit "number expected")
      | Some crc_ =>
          if negb ((0 <=? crc_) && (crc_ <=? 0xffffffff)) then Raises (lit "a CRC-32 is 0 to 0xffffffff")
          else Answers (lzma_crc32 data crc_)
      end
  end.

End stream.
