(* ===== verification/CompressSteps.v ===== *)
(** * What the codecs promise, and their steps

    A codec's state stands for what it will make of all the input still to
    come: the output and the input after the member's end, or nothing where the
    data is corrupt or cut short. The laws say of each library's call that it
    moves along that meaning, whatever it is offered at a time, and that it
    takes its input or fills its room. The steps of a decoder then end, keep to
    their budget and move along the meaning too. *)

From S2P Require Import Prelude.
From S2P Require Import Codecs.

Local Open Scope Z_scope.

(** What data decodes to: the output and the bytes after its end. *)
Abbreviation outcome := (option (bytes * bytes)).

(** Output that goes before. *)
Definition pre (o : bytes) (m : outcome) : outcome := (λ r, (o ++ r.1, r.2)) <$> m.

Lemma pre_nil m : pre [] m = m.
Proof. by destruct m as [[]|]. Qed.

Lemma pre_pre a b m : pre a (pre b m) = pre (a ++ b) m.
Proof. destruct m as [[]|]; simpl; [by rewrite app_assoc|done]. Qed.

Lemma pre_some a o r : pre a (Some (o, r)) = Some (a ++ o, r).
Proof. done. Qed.

(** ** Calls *)

Section calls.
Context {X : Type} (meaning : X → bytes → outcome).

(** A call that goes on. *)
Record gives (c : X) (input : bytes) (room : Z) (c' : X) (used : nat) (produced : bytes) : Prop := {
  gives_used : (used ≤ length input)%nat;
  gives_room : Z.of_nat (length produced) ≤ room;
  gives_meaning w : meaning c (input ++ w) = pre produced (meaning c' (drop used input ++ w));
  gives_all : Z.of_nat (length produced) < room → used = length input ∧ meaning c' [] = None }.

(** A call that ends the member. *)
Record ends (c : X) (input : bytes) (room : Z) (used : nat) (produced : bytes) : Prop := {
  ends_used : (used ≤ length input)%nat;
  ends_room : Z.of_nat (length produced) ≤ room;
  ends_meaning w : meaning c (input ++ w) = Some (produced, drop used input ++ w) }.

Definition refuses (c : X) (input : bytes) : Prop := ∀ w, meaning c (input ++ w) = None.

End calls.

(** ** Steps *)

(** A step that ends within its budget and moves along the meaning. [g] is
    what the stream gave out before and [fed] bounds what it was fed; the state
    and the input left are [ok] for them, or [over] at a member's end; where
    memory is [plenty], the step fails only where the meaning does. *)
Record step_ok {X} (meaning : X → bytes → outcome) (ok over : bytes → Z → X → bytes → Prop) (plenty : Prop)
    (g : bytes) (fed : Z) (c : X) (p : bytes) (budget : Z) (r : stepped X) : Prop := {
  step_budget : Z.of_nat (length (s_out r)) ≤ budget;
  step_input : (length (s_input r) ≤ length p)%nat;
  step_moves : match s_step r with
    | STEP_END => over (g ++ s_out r) fed (s_state r) (s_input r) ∧ ∀ w, meaning c (p ++ w) = Some (s_out r, s_input r ++ w)
    | STEP_INPUT => ok (g ++ s_out r) fed (s_state r) (s_input r) ∧
        (∀ w, meaning c (p ++ w) = pre (s_out r) (meaning (s_state r) (s_input r ++ w))) ∧ meaning (s_state r) (s_input r) = None
    | STEP_FULL => ok (g ++ s_out r) fed (s_state r) (s_input r) ∧
        (∀ w, meaning c (p ++ w) = pre (s_out r) (meaning (s_state r) (s_input r ++ w))) ∧ Z.of_nat (length (s_out r)) = budget
    | STEP_ERROR _ => plenty → refuses meaning c p
    end }.

(** Nothing to keep to. *)
Definition any {X} (g : bytes) (fed : Z) (c : X) (p : bytes) : Prop := True.

(** What a loop over a codec's calls keeps to: [n] bounds its turns. *)
Record moved {X} (meaning : X → bytes → outcome) (c : X) (p : bytes) (budget : Z) (n : nat) (c' : X) (p' out : bytes) : Prop := {
  moved_budget : Z.of_nat (length out) ≤ budget;
  moved_input : (length p' ≤ length p)%nat;
  moved_meaning w : meaning c (p ++ w) = pre out (meaning c' (p' ++ w));
  moved_left : Z.of_nat n = Z.of_nat (length p') + (budget - Z.of_nat (length out)) }.

Section loop.
Context {X : Type} (meaning : X → bytes → outcome).

Lemma moved_start c p budget : 0 ≤ budget → moved meaning c p budget (length p + Z.to_nat budget) c p [].
Proof. intros Hb. split; simpl; [done|done|intros w; by rewrite pre_nil|lia]. Qed.

(** The room a turn offers. *)
Definition turn_room (budget : Z) (out : bytes) : Z :=
  let room := budget - Z.of_nat (length out) in if room <? CODEC_SLICE then room else CODEC_SLICE.

Lemma turn_room_pos budget out :
  Z.of_nat (length out) ≤ budget → budget - Z.of_nat (length out) ≠ 0 →
  0 < turn_room budget out ≤ CODEC_SLICE ∧ turn_room budget out ≤ budget - Z.of_nat (length out).
Proof. intros Hb Hr. unfold turn_room, CODEC_SLICE. simpl. change (Z.shiftl 1 16) with 65536. zcases; lia. Qed.

(** A call offered [offered], of which [rest_] is not, that goes on. *)
Lemma moved_gives c0 p0 budget n c p out offered rest_ c' used produced :
  moved meaning c0 p0 budget n c p out → budget - Z.of_nat (length out) ≠ 0 →
  p = offered ++ rest_ → gives meaning c offered (turn_room budget out) c' used produced →
  moved meaning c0 p0 budget (length (drop used p) + Z.to_nat (budget - Z.of_nat (length (out ++ produced)))) c' (drop used p) (out ++ produced) ∧
  (Z.of_nat (length produced) < turn_room budget out → rest_ = [] → drop used p = [] ∧ meaning c' [] = None) ∧
  (¬ (drop used p = [] ∧ Z.of_nat (length produced) < turn_room budget out) →
   (rest_ = [] ∨ (0 < length offered)%nat) →
   (length (drop used p) + Z.to_nat (budget - Z.of_nat (length (out ++ produced))) < n)%nat).
Proof.
  intros Hm Hroom -> Hg. destruct Hm as [Hb Hi Hmean Hn]. destruct Hg as [Hu Hr Hgm Hall].
  destruct (turn_room_pos budget out Hb Hroom) as [Htr1 Htr2].
  assert (Hdrop : drop used (offered ++ rest_) = drop used offered ++ rest_) by (apply drop_app_le; done).
  rewrite Hdrop. rewrite length_app in Hi, Hn.
  split; [|split].
  - split.
    + rewrite length_app. lia.
    + rewrite length_app, length_drop. lia.
    + intros w. rewrite Hmean, <- app_assoc, Hgm, pre_pre. by rewrite <- app_assoc.
    + rewrite !length_app in *. lia.
  - intros Hlt ->. destruct (Hall Hlt) as [-> Hnone]. rewrite drop_all. done.
  - intros Hnot Hoff. rewrite !length_app, length_drop. destruct (Z.lt_ge_cases (Z.of_nat (length produced)) (turn_room budget out)) as [Hlt|Hge].
    + destruct (Hall Hlt) as [-> _]. destruct Hoff as [->|Hpos]; [|lia].
      exfalso. apply Hnot. rewrite drop_all, app_nil_r. done.
    + lia.
Qed.

End loop.

(** ** bzip2 *)

Class BzlibLaws `{Bzlib} := {
  bz_meaning : bz_stream → bytes → outcome;
  bz2_member : bytes → outcome;
  bz_start n bz w : BZ2_bzDecompressInit n = Some bz → bz_meaning bz w = bz2_member w;
  bz_call bz input room bz' used produced rc :
    0 < room ≤ CODEC_SLICE → Z.of_nat (length input) ≤ UINT_MAX → BZ2_bzDecompress bz input room = (bz', used, produced, rc) →
    (rc = BZ_STREAM_END ∧ ends bz_meaning bz input room used produced) ∨
    (rc = BZ_OK ∧ gives bz_meaning bz input room bz' used produced) ∨
    (rc ≠ BZ_STREAM_END ∧ rc ≠ BZ_OK ∧ (length produced ≤ Z.to_nat room)%nat ∧ (rc ≠ BZ_MEM_ERROR → refuses bz_meaning bz input));
  bz2_member_takes w out rest : bz2_member w = Some (out, rest) → (length rest < length w)%nat }.

(** Where the library is never short of memory. *)
Definition bz_plenty `{Bzlib} : Prop :=
  (∀ n, is_Some (BZ2_bzDecompressInit n)) ∧ ∀ bz input room, (BZ2_bzDecompress bz input room).2 ≠ BZ_MEM_ERROR.

Section bzip2.
Context `{BzlibLaws}.

Lemma bz2_turn_moves g fed bz0 p0 budget n bz p out :
  moved bz_meaning bz0 p0 budget n bz p out →
  match bz2_turn budget (bz, p, out) with
  | inl (bz', p', out') => ∃ m, (m < n)%nat ∧ moved bz_meaning bz0 p0 budget m bz' p' out'
  | inr r => step_ok bz_meaning any any bz_plenty g fed bz0 p0 budget r
  end.
Proof.
  intros Hm. pose proof Hm as [Hb Hi Hmean Hn]. unfold bz2_turn. fold (turn_room budget out).
  destruct (Z.eqb_spec (budget - Z.of_nat (length out)) 0) as [Hz|Hz].
  { split; simpl; [done|done|]. split; [done|]. split; [done|lia]. }
  destruct (turn_room_pos budget out Hb Hz) as [Htr1 Htr2].
  set (offered := if Z.of_nat (length p) <? UINT_MAX then p else take (Z.to_nat UINT_MAX) p).
  set (rest_ := if Z.of_nat (length p) <? UINT_MAX then [] else drop (Z.to_nat UINT_MAX) p).
  assert (Hp : p = offered ++ rest_) by (unfold offered, rest_; zcases; [by rewrite app_nil_r|by rewrite take_drop]).
  assert (Hoff : Z.of_nat (length offered) ≤ UINT_MAX ∧ (rest_ = [] ∨ (0 < length offered)%nat)).
  { unfold offered, rest_. assert (0 < UINT_MAX) by (by vm_compute). zcases; [split; [lia|by left]|].
    rewrite length_take. split; [lia|right; lia]. }
  destruct (BZ2_bzDecompress bz offered (turn_room budget out)) as [[[bz' used] produced] rc] eqn:Hcall.
  destruct (bz_call _ _ _ _ _ _ _ Htr1 (proj1 Hoff) Hcall) as [[-> He]|[[-> Hg]|(H1 & H2 & Hl & Hrefuse)]].
  - change (BZ_STREAM_END =? BZ_STREAM_END) with true. destruct He as [Hu Hr He].
    split; simpl; [rewrite length_app; lia|rewrite length_drop; lia|]. split; [done|]. intros w.
    rewrite Hmean, Hp, <- app_assoc, He. simpl. rewrite drop_app_le by done. by rewrite <- app_assoc.
  - change (BZ_OK =? BZ_STREAM_END) with false. change (BZ_OK =? BZ_OK) with true. cbn [negb].
    destruct (moved_gives _ _ _ _ _ _ _ _ _ _ _ _ _ Hm Hz Hp Hg) as (Hm' & Hdone & Hless).
    destruct (bool_decide (drop used p = []) && (Z.of_nat (length produced) <? turn_room budget out)) eqn:Hstop.
    + apply andb_true_iff in Hstop as [Hnil%bool_decide_eq_true Hlt%Z.ltb_lt].
      destruct Hm' as [Hb' Hi' Hmean' _]. split; simpl; [done|done|]. split; [done|]. split; [done|].
      destruct Hg as [Hu _ _ Hall]. destruct (Hall Hlt) as [_ Hnone]. rewrite Hnil. exact Hnone.
    + eexists. split; [|exact Hm']. apply Hless; [|apply Hoff]. intros [Hnil Hlt].
      apply andb_false_iff in Hstop as [?%bool_decide_eq_false|?%Z.ltb_ge]; [done|lia].
  - rewrite (proj2 (Z.eqb_neq _ _) H1), (proj2 (Z.eqb_neq _ _) H2). cbn [negb].
    split; simpl; [rewrite length_app; lia|rewrite length_drop; lia|]. intros [_ Hmem] w.
    rewrite Hmean, Hp, <- app_assoc. rewrite (Hrefuse); [done|]. pose proof (Hmem bz offered (turn_room budget out)) as Hne.
    by rewrite Hcall in Hne.
Qed.

(** A step of the decoder ends and moves along its meaning. *)
Lemma bz2_step_ok g fed bz p budget :
  0 ≤ budget → ∃ r, bz2_step bz p budget = Some r ∧ step_ok bz_meaning any any bz_plenty g fed bz p budget r.
Proof.
  intros Hb. unfold bz2_step.
  destruct (until_answers (bz2_turn budget) (λ n s, moved bz_meaning bz p budget n s.1.1 s.1.2 s.2)
    (step_ok bz_meaning any any bz_plenty g fed bz p budget) (Z.to_pos (Z.of_nat (length p) + budget + 2))
    (length p + Z.to_nat budget) (bz, p, [])) as (r & -> & Hr).
  - intros n [[bz' p'] out'] Hm. simpl in Hm. pose proof (bz2_turn_moves g fed _ _ _ _ _ _ _ Hm) as Ht.
    by destruct (bz2_turn budget (bz', p', out')) as [[[? ?] ?]|].
  - by apply moved_start.
  - lia.
  - by exists r.
Qed.

End bzip2.

(** ** xz *)

Class LzmaLaws `{Lzma} := {
  lzma_meaning : lzma_stream → bytes → outcome;
  xz_member : Z → bytes → outcome;
  lzma_start n z limit z' w : lzma_stream_decoder n z limit = (z', LZMA_OK) → lzma_meaning z' w = xz_member limit w;
  lzma_call z input room z' used produced rc :
    0 < room ≤ CODEC_SLICE → lzma_code z input room = (z', used, produced, rc) →
    (rc = LZMA_STREAM_END ∧ ends lzma_meaning z input room used produced) ∨
    (rc = LZMA_OK ∧ gives lzma_meaning z input room z' used produced) ∨
    (rc = LZMA_BUF_ERROR ∧ input = [] ∧ produced = [] ∧ (∀ w, lzma_meaning z w = lzma_meaning z' w) ∧ lzma_meaning z' [] = None) ∨
    (rc ≠ LZMA_STREAM_END ∧ rc ≠ LZMA_OK ∧ rc ≠ LZMA_BUF_ERROR ∧ (length produced ≤ Z.to_nat room)%nat ∧
      (rc ≠ LZMA_MEM_ERROR → refuses lzma_meaning z input));
  xz_member_takes limit w out rest : xz_member limit w = Some (out, rest) → (length rest < length w)%nat;
  lzma_crc32_app a b c : lzma_crc32 (a ++ b) c = lzma_crc32 b (lzma_crc32 a c);
  lzma_crc32_nil c : lzma_crc32 [] c = c;
  lzma_crc32_range p c : 0 ≤ c < 2 ^ 32 → 0 ≤ lzma_crc32 p c < 2 ^ 32 }.

Definition lzma_plenty `{Lzma} : Prop :=
  (∀ n z limit, (lzma_stream_decoder n z limit).2 = LZMA_OK) ∧ ∀ z input room, (lzma_code z input room).2 ≠ LZMA_MEM_ERROR.

Section xz.
Context `{LzmaLaws}.

Lemma xz_turn_moves g fed z0 p0 budget n z p out :
  moved lzma_meaning z0 p0 budget n z p out →
  match xz_turn budget (z, p, out) with
  | inl (z', p', out') => ∃ m, (m < n)%nat ∧ moved lzma_meaning z0 p0 budget m z' p' out'
  | inr r => step_ok lzma_meaning any any lzma_plenty g fed z0 p0 budget r
  end.
Proof.
  intros Hm. pose proof Hm as [Hb Hi Hmean Hn]. unfold xz_turn. fold (turn_room budget out).
  destruct (Z.eqb_spec (budget - Z.of_nat (length out)) 0) as [Hz|Hz].
  { split; simpl; [done|done|]. split; [done|]. split; [done|lia]. }
  destruct (turn_room_pos budget out Hb Hz) as [Htr1 Htr2].
  destruct (lzma_code z p (turn_room budget out)) as [[[z' used] produced] rc] eqn:Hcall.
  destruct (lzma_call _ _ _ _ _ _ _ Htr1 Hcall) as [[-> He]|[[-> Hg]|[(-> & -> & -> & Hsame & Hnone)|(H1 & H2 & H3 & Hl & Hrefuse)]]].
  - change (LZMA_STREAM_END =? LZMA_STREAM_END) with true. destruct He as [Hu Hr He].
    split; simpl; [rewrite length_app; lia|rewrite length_drop; lia|]. split; [done|]. intros w. rewrite Hmean, He. done.
  - change (LZMA_OK =? LZMA_STREAM_END) with false. change (LZMA_OK =? LZMA_BUF_ERROR) with false.
    change (LZMA_OK =? LZMA_OK) with true. cbn [negb andb].
    destruct (moved_gives _ _ _ _ _ _ _ _ p [] _ _ _ Hm Hz (eq_sym (app_nil_r p)) Hg) as (Hm' & Hdone & Hless).
    destruct (bool_decide (drop used p = []) && (Z.of_nat (length produced) <? turn_room budget out)) eqn:Hstop.
    + apply andb_true_iff in Hstop as [Hnil%bool_decide_eq_true Hlt%Z.ltb_lt].
      destruct Hm' as [Hb' Hi' Hmean' _]. split; simpl; [done|done|]. split; [done|]. split; [done|].
      rewrite Hnil. by apply Hdone.
    + eexists. split; [|exact Hm']. apply Hless; [|by left]. intros [Hnil Hlt].
      apply andb_false_iff in Hstop as [?%bool_decide_eq_false|?%Z.ltb_ge]; [done|lia].
  - rewrite drop_nil, app_nil_r. change (LZMA_BUF_ERROR =? LZMA_STREAM_END) with false.
    change (LZMA_BUF_ERROR =? LZMA_BUF_ERROR) with true. rewrite bool_decide_eq_true_2 by done. cbn [andb].
    split; simpl; [done|lia|]. split; [done|]. split; [|done]. intros w. by rewrite Hmean, Hsame.
  - rewrite (proj2 (Z.eqb_neq _ _) H1), (proj2 (Z.eqb_neq _ _) H2), (proj2 (Z.eqb_neq _ _) H3). cbn [negb andb].
    split; simpl; [rewrite length_app; lia|rewrite length_drop; lia|]. intros [_ Hmem] w.
    rewrite Hmean, Hrefuse; [done|]. pose proof (Hmem z p (turn_room budget out)) as Hne. by rewrite Hcall in Hne.
Qed.

Lemma xz_step_ok g fed z p budget :
  0 ≤ budget → ∃ r, xz_step z p budget = Some r ∧ step_ok lzma_meaning any any lzma_plenty g fed z p budget r.
Proof.
  intros Hb. unfold xz_step.
  destruct (until_answers (xz_turn budget) (λ n s, moved lzma_meaning z p budget n s.1.1 s.1.2 s.2)
    (step_ok lzma_meaning any any lzma_plenty g fed z p budget) (Z.to_pos (Z.of_nat (length p) + budget + 2))
    (length p + Z.to_nat budget) (z, p, [])) as (r & -> & Hr).
  - intros n [[z' p'] out'] Hm. simpl in Hm. pose proof (xz_turn_moves g fed _ _ _ _ _ _ _ Hm) as Ht.
    by destruct (xz_turn budget (z', p', out')) as [[[? ?] ?]|].
  - by apply moved_start.
  - lia.
  - by exists r.
Qed.

End xz.

(** * The zstd step

    The header of a frame is judged from the bytes at hand, however they were
    split, and the content size it declares is the frame's. *)

(** A context is called with input, or right after it filled its room
    ([zstd_drains]): given nothing and holding nothing, zstd may give up. *)
Class ZstdLaws `{Zstd} := {
  zstd_meaning : ZSTD_DCtx → bytes → outcome;
  zstd_frame : Z → bytes → outcome;
  zstd_ready : ZSTD_DCtx → Prop;
  zstd_drains : ZSTD_DCtx → Prop;
  zstd_log : ZSTD_DCtx → Z;
  zstd_create n log d : ZSTD_createDCtx n log = Some d → zstd_ready d ∧ zstd_log d = log;
  zstd_frame_ready d w : zstd_ready d → zstd_meaning d w = zstd_frame (zstd_log d) w;
  zstd_call d input room d' used produced rc :
    0 < room ≤ CODEC_SLICE → input ≠ [] ∨ zstd_drains d → ZSTD_decompressStream d input room = (d', used, produced, rc) →
    zstd_log d' = zstd_log d ∧
    match rc with
    | inl hint =>
        if hint =? 0 then ends zstd_meaning d input room used produced ∧ zstd_ready d'
        else gives zstd_meaning d input room d' used produced ∧ (Z.of_nat (length produced) = room → zstd_drains d')
    | inr code =>
        (length produced ≤ Z.to_nat room)%nat ∧ (code ≠ ZSTD_error_memory_allocation → refuses zstd_meaning d input)
    end;
  zstd_frame_takes log w out rest : zstd_frame log w = Some (out, rest) → (length rest < length w)%nat;
  zstd_header_none : ∃ n, ZSTD_getFrameHeader [] = HNeeds n;
  zstd_header_frame p h w : ZSTD_getFrameHeader p = HFrame h → ZSTD_getFrameHeader (p ++ w) = HFrame h;
  zstd_header_error p code w : ZSTD_getFrameHeader p = HError code → ZSTD_getFrameHeader (p ++ w) = HError code }.

Definition zstd_plenty `{Zstd} : Prop :=
  (∀ n log, is_Some (ZSTD_createDCtx n log)) ∧
  ∀ d input room, (ZSTD_decompressStream d input room).2 ≠ inr ZSTD_error_memory_allocation.

(** A frame is of the size it declares. *)
Definition sized (size made : Z) (m : outcome) : outcome :=
  match m with
  | Some (out, rest) =>
      if (size =? ZSTD_CONTENTSIZE_UNKNOWN) || (u64 (made + Z.of_nat (length out)) =? size) then Some (out, rest) else None
  | None => None
  end.

Lemma sized_pre size made o m : sized size made (pre o m) = pre o (sized size (u64 (made + Z.of_nat (length o))) m).
Proof.
  destruct m as [[out rest]|]; [|done]. simpl. rewrite length_app.
  assert (Hu : u64 (u64 (made + Z.of_nat (length o)) + Z.of_nat (length out)) = u64 (made + Z.of_nat (length o + length out))).
  { unfold u64. rewrite Zplus_mod_idemp_l. f_equal. lia. }
  rewrite Hu. by destruct (_ || _).
Qed.

Section zstd.
Context `{ZstdLaws}.

(** What a header allows of a frame that decodes so. *)
Definition framed (window : Z) (w : bytes) (m : outcome) : outcome :=
  match ZSTD_getFrameHeader w with
  | HFrame h =>
      if h_frame h && (window <? h_window h) then None
      else sized (if h_frame h then h_content h else ZSTD_CONTENTSIZE_UNKNOWN) 0 m
  | _ => None
  end.

(** One frame of all the input there is. *)
Definition zstd_member (log window : Z) (w : bytes) : outcome := framed window w (zstd_frame log w).

Definition z_meaning (z : zstd_state) (w : bytes) : outcome :=
  if zhdr_ok z then sized (zsize z) (zmade z) (zstd_meaning (zd z) w) else framed (zwindow z) w (zstd_meaning (zd z) w).

(** The state with the input left to it. *)
Record zok (log window : Z) (g : bytes) (fed : Z) (z : zstd_state) (p : bytes) : Prop := {
  zok_window : zwindow z = window;
  zok_log : zstd_log (zd z) = log;
  zok_waits : zdrain z = false → zhdr_ok z = true → zstd_meaning (zd z) [] = None;
  zok_drains : zdrain z = true → p ≠ [] ∨ zstd_drains (zd z) }.

Record zover (log window : Z) (g : bytes) (fed : Z) (z : zstd_state) (p : bytes) : Prop := {
  zover_window : zwindow z = window;
  zover_log : zstd_log (zd z) = log;
  zover_drain : zdrain z = false;
  zover_ready : zstd_ready (zd z) }.

Lemma zok_more log window g fed fed' z p w : zok log window g fed z p → zok log window g fed' z (p ++ w).
Proof. intros [H1 H2 H3 H4]. split; try done. intros Hd. destruct (H4 Hd) as [Hp|?]; [left; by destruct p|by right]. Qed.

Lemma z_gives z p room d' used produced :
  zhdr_ok z = true → gives zstd_meaning (zd z) p room d' used produced →
  gives z_meaning z p room (with_made d' (u64 (zmade z + Z.of_nat (length produced))) z) used produced.
Proof.
  intros Hok [Hu Hr Hm Hall]. split; try done.
  - intros w. unfold z_meaning. simpl. rewrite Hok, Hm, sized_pre. done.
  - intros Hlt. destruct (Hall Hlt) as [-> Hnone]. split; [done|]. unfold z_meaning. simpl. by rewrite Hok, Hnone.
Qed.

(** The loop's state. *)
Definition zloop (log window : Z) (z : zstd_state) (p : bytes) : Prop :=
  zhdr_ok z = true ∧ zwindow z = window ∧ zstd_log (zd z) = log ∧ zdrain z = false ∧ (p ≠ [] ∨ zstd_drains (zd z)).

Lemma zstd_turn_moves log window g fed z0 p0 budget n z p out :
  zloop log window z p → moved z_meaning z0 p0 budget n z p out →
  match zstd_turn budget (z, p, out) with
  | inl (z', p', out') => ∃ m, (m < n)%nat ∧ zloop log window z' p' ∧ moved z_meaning z0 p0 budget m z' p' out'
  | inr r => step_ok z_meaning (zok log window) (zover log window) zstd_plenty g fed z0 p0 budget r
  end.
Proof.
  intros (Hok & Hwin & Hlog & Hdrain & Hcan) Hm. pose proof Hm as [Hb Hi Hmean Hn]. unfold zstd_turn. fold (turn_room budget out).
  destruct (Z.eqb_spec (budget - Z.of_nat (length out)) 0) as [Hz|Hz].
  { split; simpl; [done|done|]. split; [by split|]. split; [|lia]. intros w. rewrite Hmean. unfold z_meaning. simpl. by rewrite Hok. }
  destruct (turn_room_pos budget out Hb Hz) as [Htr1 Htr2].
  destruct (ZSTD_decompressStream (zd z) p (turn_room budget out)) as [[[d' used] produced] rc] eqn:Hcall.
  destruct (zstd_call _ _ _ _ _ _ _ Htr1 Hcan Hcall) as [Hlog' Hrc].
  destruct rc as [hint|code].
  - destruct (hint =? 0).
    + destruct Hrc as [[Hu Hr He] Hready]. simpl.
      assert (Hall : ∀ w, z_meaning z0 (p0 ++ w)
        = pre out (sized (zsize z) (zmade z) (Some (produced, drop used p ++ w)))).
      { intros w. rewrite Hmean. unfold z_meaning at 1. by rewrite Hok, He. }
      unfold sized in Hall. destruct (zsize z =? ZSTD_CONTENTSIZE_UNKNOWN) eqn:Hun; simpl in *.
      * split; simpl; [rewrite length_app; lia|rewrite length_drop; lia|]. split; [|exact Hall].
        split; simpl; congruence || done.
      * destruct (u64 (zmade z + Z.of_nat (length produced)) =? zsize z) eqn:Heq; simpl in *.
        -- split; simpl; [rewrite length_app; lia|rewrite length_drop; lia|]. split; [|exact Hall].
           split; simpl; congruence || done.
        -- split; simpl; [rewrite length_app; lia|rewrite length_drop; lia|]. intros _ w. by rewrite Hall.
    + destruct Hrc as [Hg Hfull]. pose proof (z_gives _ _ _ _ _ _ Hok Hg) as Hg'.
      set (z' := with_made d' _ z) in *.
      destruct (moved_gives _ _ _ _ _ _ _ _ p [] _ _ _ Hm Hz (eq_sym (app_nil_r p)) Hg') as (Hm' & Hdone & Hless).
      destruct (bool_decide (drop used p = []) && (Z.of_nat (length produced) <? turn_room budget out)) eqn:Hstop.
      * apply andb_true_iff in Hstop as [Hnil%bool_decide_eq_true Hlt%Z.ltb_lt].
        destruct Hm' as [Hb' Hi' Hmean' _]. destruct Hg as [_ _ _ Hall]. destruct (Hall Hlt) as [_ Hnone].
        split; simpl; [done|done|]. split; [split; simpl; congruence|]. split; [exact Hmean'|]. rewrite Hnil. by apply Hdone.
      * destruct Hg as [Hu Hr _ _].
        assert (Hnot : ¬ (drop used p = [] ∧ Z.of_nat (length produced) < turn_room budget out)).
        { intros [Hnil Hlt]. apply andb_false_iff in Hstop as [?%bool_decide_eq_false|?%Z.ltb_ge]; [done|lia]. }
        eexists. split; [|split; [|exact Hm']]; [apply Hless; [exact Hnot|by left]|].
        split; [done|]. split; [done|]. split; [simpl; congruence|]. split; [done|]. simpl.
        destruct (decide (drop used p = [])) as [Hnil|]; [|by left]. right. apply Hfull.
        destruct (Z.lt_ge_cases (Z.of_nat (length produced)) (turn_room budget out)); [|lia]. by destruct Hnot.
  - destruct Hrc as [Hl Hrefuse]. split; simpl; [rewrite length_app; lia|rewrite length_drop; lia|].
    intros [_ Hmem] w. rewrite Hmean. unfold z_meaning at 1. rewrite Hok, Hrefuse; [done|].
    pose proof (Hmem (zd z) p (turn_room budget out)) as Hne. rewrite Hcall in Hne. simpl in Hne. congruence.
Qed.

Lemma zstd_body_ok log window g fed z p budget :
  0 ≤ budget → zhdr_ok z = true → zwindow z = window → zstd_log (zd z) = log → p ≠ [] ∨ zstd_drains (zd z) →
  ∃ r, zstd_body z p budget = Some r ∧ step_ok z_meaning (zok log window) (zover log window) zstd_plenty g fed z p budget r.
Proof.
  intros Hb Hok Hwin Hlog Hcan. unfold zstd_body.
  destruct (until_answers (zstd_turn budget) (λ n s, zloop log window s.1.1 s.1.2 ∧ moved z_meaning z p budget n s.1.1 s.1.2 s.2)
    (step_ok z_meaning (zok log window) (zover log window) zstd_plenty g fed z p budget) (Z.to_pos (Z.of_nat (length p) + budget + 2))
    (length p + Z.to_nat budget) (with_drain false z, p, [])) as (r & -> & Hr).
  - intros n [[z' p'] out'] [Hl Hm]. simpl in Hl, Hm. pose proof (zstd_turn_moves _ _ g fed _ _ _ _ _ _ _ Hl Hm) as Ht.
    by destruct (zstd_turn budget (z', p', out')) as [[[? ?] ?]|].
  - split; [by repeat split|]. destruct (moved_start z_meaning z p budget Hb) as [H1 H2 H3 H4]. by split.
  - lia.
  - by exists r.
Qed.

Lemma zstd_step_ok log window g fed z p budget :
  0 ≤ budget → zok log window g fed z p →
  ∃ r, zstd_step z p budget = Some r ∧ step_ok z_meaning (zok log window) (zover log window) zstd_plenty g fed z p budget r.
Proof.
  intros Hb Hz. pose proof Hz as [Hwin Hlog Hwait Hdrain]. unfold zstd_step.
  destruct (bool_decide (p = []) && negb (zdrain z)) eqn:Hquiet.
  { apply andb_true_iff in Hquiet as [->%bool_decide_eq_true Hd%negb_true_iff].
    eexists. split; [done|]. split; simpl; [done|done|]. split; [by destruct Hz|]. split; [intros w; by rewrite pre_nil|].
    unfold z_meaning. destruct (zhdr_ok z) eqn:Hok; [by rewrite Hwait|]. unfold framed.
    by destruct zstd_header_none as [n ->]. }
  assert (Hcan : p ≠ [] ∨ zstd_drains (zd z)).
  { destruct (decide (p = [])) as [->|]; [|by left]. apply Hdrain. by destruct (zdrain z). }
  destruct (zhdr_ok z) eqn:Hok; [by apply zstd_body_ok|].
  destruct (ZSTD_getFrameHeader p) as [code|k|h] eqn:Hhead.
  - eexists. split; [done|]. split; simpl; [done|done|]. intros _ w. unfold z_meaning, framed.
    by rewrite Hok, (zstd_header_error _ _ _ Hhead).
  - eexists. split; [done|]. split; simpl; [done|done|]. split; [by destruct Hz|]. split; [intros w; by rewrite pre_nil|].
    unfold z_meaning, framed. by rewrite Hok, Hhead.
  - destruct (h_frame h && (zwindow z <? h_window h)) eqn:Hbig.
    { eexists. split; [done|]. split; simpl; [done|done|]. intros _ w. unfold z_meaning, framed.
      by rewrite Hok, (zstd_header_frame _ _ _ Hhead), Hbig. }
    destruct (zstd_body_ok log window g fed (with_frame h z) p budget Hb eq_refl Hwin Hlog Hcan) as (r & -> & Hr).
    exists r. split; [done|].
    assert (Hsame : ∀ w, z_meaning z (p ++ w) = z_meaning (with_frame h z) (p ++ w)).
    { intros w. unfold z_meaning, framed. simpl. by rewrite Hok, (zstd_header_frame _ _ _ Hhead), Hbig. }
    destruct Hr as [H1 H2 H3]. split; [done|done|]. unfold refuses in *.
    destruct (s_step r); [intros Hpl w; rewrite Hsame; by apply H3| | |];
      (destruct H3 as [Hst H3]; split; [done|]; try (destruct H3 as [H3 H4]; split; [|done]); intros w; by rewrite Hsame).
Qed.

End zstd.
