(* ===== verification/CompressInflate.v ===== *)
(** * The deflate body

    Output [tinfl] put in the window is held until it has gone out, so a body
    gives exactly what it decodes to however little room there is, and its
    checksum and length are of exactly that. *)

From S2P Require Import Prelude.
From S2P Require Import Codecs.
From S2P Require Import CompressSteps.

Local Open Scope Z_scope.

(** ** The window *)

(** A window and where it is written next. *)
Definition put1 (w : bytes * Z) (b : Z) : bytes * Z := (<[Z.to_nat w.2 := b]> w.1, Z.land (w.2 + 1) (TINFL_LZ_DICT_SIZE - 1)).

(** The window after some output. *)
Definition window (g : bytes) : bytes * Z := foldl put1 (replicate (Z.to_nat TINFL_LZ_DICT_SIZE) 0, 0) g.

Lemma land_dict x : Z.land x (TINFL_LZ_DICT_SIZE - 1) = x mod TINFL_LZ_DICT_SIZE.
Proof. by apply (land_low x 15). Qed.

Lemma dict_size : TINFL_LZ_DICT_SIZE = 32768.
Proof. done. Qed.

#[local] Opaque TINFL_LZ_DICT_SIZE.

Lemma window_bounds g : Z.of_nat (length (window g).1) = TINFL_LZ_DICT_SIZE ∧ 0 ≤ (window g).2 < TINFL_LZ_DICT_SIZE.
Proof.
  unfold window. induction g as [|b g IH] using rev_ind.
  - simpl. rewrite length_replicate, dict_size. lia.
  - rewrite foldl_snoc. simpl. rewrite length_insert. split; [apply IH|]. rewrite land_dict. apply Z.mod_pos_bound. by rewrite dict_size.
Qed.

Lemma splice_insert ofs b o (d : bytes) :
  0 ≤ ofs → ofs + 1 + Z.of_nat (length o) ≤ Z.of_nat (length d) →
  splice ofs (b :: o) d = splice (ofs + 1) o (<[Z.to_nat ofs := b]> d).
Proof.
  intros Hofs Hlen. unfold splice. replace (Z.to_nat (ofs + 1)) with (S (Z.to_nat ofs)) by lia.
  rewrite insert_take_drop by lia. set (n := Z.to_nat ofs).
  assert (Ht : length (take n d) = n) by (rewrite length_take; lia).
  rewrite take_app_ge by lia. rewrite Ht. replace (S n - n)%nat with 1%nat by lia. simpl.
  rewrite drop_app_ge by lia. rewrite Ht. replace (S (n + length o) - n)%nat with (S (length o)) by lia. simpl.
  rewrite drop_drop. replace (n + S (length o))%nat with (S n + length o)%nat by lia. rewrite <- app_assoc. done.
Qed.

(** A call's output is put in the window all at once. *)
Lemma splice_puts o w :
  0 ≤ w.2 < TINFL_LZ_DICT_SIZE → Z.of_nat (length w.1) = TINFL_LZ_DICT_SIZE →
  w.2 + Z.of_nat (length o) ≤ TINFL_LZ_DICT_SIZE →
  (splice w.2 o w.1, Z.land (w.2 + Z.of_nat (length o)) (TINFL_LZ_DICT_SIZE - 1)) = foldl put1 w o.
Proof.
  revert w. induction o as [|b o IH]; intros [d ofs] Hofs Hlen Hfit; simpl in *.
  - unfold splice. simpl. rewrite Nat.add_0_r, take_drop, land_dict. f_equal. rewrite Z.add_0_r. by apply Z.mod_small.
  - rewrite splice_insert by lia. rewrite Nat2Z.inj_succ.
    destruct (decide (ofs + 1 = TINFL_LZ_DICT_SIZE)) as [Hend|].
    + assert (o = []) as -> by (destruct o; [done|simpl in *; lia]). simpl. unfold put1. simpl.
      rewrite Hend. f_equal.
      * unfold splice. simpl. rewrite Nat.add_0_r, take_drop. done.
      * do 2 f_equal. lia.
    + rewrite <- IH; simpl.
      * unfold put1. simpl. rewrite !land_dict. rewrite (Z.mod_small (ofs + 1)) by lia. do 2 f_equal. lia.
      * rewrite land_dict, Z.mod_small by lia. lia.
      * by rewrite length_insert.
      * rewrite land_dict, Z.mod_small by lia. lia.
Qed.

(** ** What tinfl promises *)

(** What a decoder decodes to depends on the window it is given; the output
    it gives is never more than deflate codes in its input. *)
Class TinflLaws `{Tinfl} := {
  tinfl_meaning : bool → tinfl_decompressor → bytes * Z → bytes → outcome;
  taken : tinfl_decompressor → Z;
  given : tinfl_decompressor → Z;
  tinfl_fresh : taken tinfl_init = 0 ∧ given tinfl_init = 0;
  tinfl_call z t input w t' used produced status :
    0 ≤ w.2 < TINFL_LZ_DICT_SIZE → Z.of_nat (length w.1) = TINFL_LZ_DICT_SIZE →
    tinfl_decompress z t input w.1 w.2 (TINFL_LZ_DICT_SIZE - w.2) = (t', used, produced, status) →
    (used ≤ length input)%nat ∧ Z.of_nat (length produced) ≤ TINFL_LZ_DICT_SIZE - w.2 ∧
    taken t' = taken t + Z.of_nat used ∧ given t' = given t + Z.of_nat (length produced) ∧
    ((status = TINFL_STATUS_DONE ∧ ∀ v, tinfl_meaning z t w (input ++ v) = Some (produced, drop used input ++ v)) ∨
     (status = TINFL_STATUS_NEEDS_MORE_INPUT ∧ used = length input ∧ tinfl_meaning z t' (foldl put1 w produced) [] = None ∧
       ∀ v, tinfl_meaning z t w (input ++ v) = pre produced (tinfl_meaning z t' (foldl put1 w produced) v)) ∨
     (status = TINFL_STATUS_HAS_MORE_OUTPUT ∧ Z.of_nat (length produced) = TINFL_LZ_DICT_SIZE - w.2 ∧
       ∀ v, tinfl_meaning z t w (input ++ v) = pre produced (tinfl_meaning z t' (foldl put1 w produced) (drop used input ++ v))) ∨
     (status ≠ TINFL_STATUS_DONE ∧ status ≠ TINFL_STATUS_NEEDS_MORE_INPUT ∧ status ≠ TINFL_STATUS_HAS_MORE_OUTPUT ∧
       ∀ v, tinfl_meaning z t w (input ++ v) = None)) ∧
    (status = TINFL_STATUS_DONE ∨ status = TINFL_STATUS_NEEDS_MORE_INPUT ∨ status = TINFL_STATUS_HAS_MORE_OUTPUT →
      given t' ≤ DEFLATE_MAX_RATIO * (taken t' + 8) + TINFL_LZ_DICT_SIZE) }.

(** The most a stream may be fed for the counts never to wrap. *)
Definition FED_MAX : Z := 2 ^ 53.

Section inflate.
Context `{TinflLaws, LzmaLaws}.
Context (format : stream_format).
Let zlib : bool := bool_decide (format = FMT_ZLIB).

Definition held (f : body_state) : bytes := take (Z.to_nat (held_len f)) (drop (Z.to_nat (held_ofs f)) (dict f)).

Definition add_crc (o : bytes) (c : Z) : Z := if bool_decide (format = FMT_GZIP) then lzma_crc32 o c else c.
Definition add_size (o : bytes) (n : Z) : Z := if bool_decide (format = FMT_GZIP) then u32 (n + Z.of_nat (length o)) else n.

(** The body's state when [g] went out before and [p] is left of what it was
    fed, at most [fed] bytes in all. *)
Record body_ok (g : bytes) (fed : Z) (f : body_state) (p : bytes) : Prop := {
  bo_window : (dict f, dict_ofs f) = window (g ++ held f);
  bo_held : 0 ≤ held_ofs f ∧ 0 ≤ held_len f ∧ held_ofs f + held_len f ≤ TINFL_LZ_DICT_SIZE;
  bo_taken : in_total f = taken (tinfl f) ∧ 0 ≤ in_total f ∧ in_total f + Z.of_nat (length p) ≤ fed;
  bo_given : out_total f = given (tinfl f) ∧ 0 ≤ out_total f ≤ DEFLATE_MAX_RATIO * (in_total f + 8) + TINFL_LZ_DICT_SIZE;
  bo_size : u32 (isize f) = isize f }.

(** What the body decodes to, then [K] of its checksum and length. *)
Definition body_meaning (K : Z → Z → bytes → outcome) (f : body_state) (w : bytes) : outcome :=
  match (if body_done f then Some ([], w) else tinfl_meaning zlib (tinfl f) (dict f, dict_ofs f) w) with
  | Some (o, r) => pre (held f ++ o) (K (add_crc o (crc f)) (add_size o (isize f)) r)
  | None => None
  end.

Lemma add_crc_app a b c : add_crc (a ++ b) c = add_crc b (add_crc a c).
Proof. unfold add_crc. case_bool_decide; [apply lzma_crc32_app|done]. Qed.

Lemma add_size_app a b n : add_size (a ++ b) n = add_size b (add_size a n).
Proof.
  unfold add_size. case_bool_decide; [|done]. rewrite length_app. unfold u32.
  rewrite Zplus_mod_idemp_l. f_equal. lia.
Qed.

Lemma add_crc_nil c : add_crc [] c = c.
Proof. unfold add_crc. case_bool_decide; [apply lzma_crc32_nil|done]. Qed.

Lemma add_size_nil n : u32 n = n → add_size [] n = n.
Proof. unfold add_size. intros Hn. case_bool_decide; [by rewrite Z.add_0_r|done]. Qed.

Lemma length_held f : Z.of_nat (length (dict f)) = TINFL_LZ_DICT_SIZE → 0 ≤ held_ofs f ∧ 0 ≤ held_len f ∧ held_ofs f + held_len f ≤ TINFL_LZ_DICT_SIZE →
  Z.of_nat (length (held f)) = held_len f.
Proof. intros Hd Hh. unfold held. rewrite length_take, length_drop. lia. Qed.

(** What is held goes out as far as there is room. *)
Lemma flush_held_ok K g fed f p budget out f' out' :
  body_ok (g ++ out) fed f p → Z.of_nat (length out) ≤ budget → flush_held budget f out = (f', out') →
  ∃ o, out' = out ++ o ∧ Z.of_nat (length out') ≤ budget ∧ body_ok (g ++ out') fed f' p ∧
    (∀ w, body_meaning K f w = pre o (body_meaning K f' w)) ∧
    body_done f' = body_done f ∧ tinfl f' = tinfl f ∧ (dict f', dict_ofs f') = (dict f, dict_ofs f) ∧
    held_len f' = held_len f - Z.of_nat (length o) ∧
    (held_len f' ≠ 0 → Z.of_nat (length out') = budget).
Proof.
  intros Hok Hb. pose proof Hok as [Hw Hh Ht Hg Hs].
  assert (Hdict : Z.of_nat (length (dict f)) = TINFL_LZ_DICT_SIZE).
  { change (dict f) with (dict f, dict_ofs f).1. rewrite Hw. apply window_bounds. }
  unfold flush_held. destruct (Z.ltb_spec 0 (held_len f)) as [Hpos|Hzero].
  2:{ intros [= <- <-]. exists []. rewrite app_nil_r. split; [done|]. split; [done|]. split; [done|].
      split; [intros w; by rewrite pre_nil|]. split; [done|]. split; [done|]. split; [done|]. simpl. lia. }
  set (k := if held_len f <? budget - Z.of_nat (length out) then held_len f else budget - Z.of_nat (length out)).
  assert (Hk : 0 ≤ k ≤ held_len f ∧ Z.of_nat (length out) + k ≤ budget ∧ (k ≠ held_len f → Z.of_nat (length out) + k = budget))
    by (unfold k; zcases; lia).
  intros [= <- <-]. set (o := take (Z.to_nat k) (drop (Z.to_nat (held_ofs f)) (dict f))).
  assert (Ho : Z.of_nat (length o) = k) by (unfold o; rewrite length_take, length_drop; lia).
  assert (Hsplit : held f = o ++ held (with_held (held_ofs f + k) (held_len f - k) f)).
  { unfold held, o. simpl. replace (Z.to_nat (held_len f)) with (Z.to_nat k + Z.to_nat (held_len f - k))%nat by lia.
    rewrite <- take_take_drop. f_equal. f_equal. rewrite drop_drop. f_equal. lia. }
  exists o. split; [done|]. split; [rewrite length_app; lia|]. split; [|split; [|split; [done|split; [done|split; [done|]]]]].
  - split; simpl; try done; [|lia]. rewrite Hw, Hsplit. f_equal. by rewrite !app_assoc.
  - intros w. unfold body_meaning. simpl. destruct (if body_done f then _ else _) as [[o' r]|]; [|done].
    rewrite pre_pre, Hsplit. by rewrite app_assoc.
  - simpl. rewrite length_app. lia.
Qed.

(** ** A call *)

Lemma splice_held ofs (o d : bytes) :
  0 ≤ ofs → ofs + Z.of_nat (length o) ≤ Z.of_nat (length d) →
  take (length o) (drop (Z.to_nat ofs) (splice ofs o d)) = o.
Proof.
  intros Hofs Hlen. unfold splice. assert (Ht : length (take (Z.to_nat ofs) d) = Z.to_nat ofs) by (rewrite length_take; lia).
  rewrite <- Ht at 1. rewrite drop_app_length. by rewrite take_app_length.
Qed.

Section call.
Context (g : bytes) (fed : Z) (f : body_state) (p : bytes) (Hok : body_ok g fed f p) (Hfed : fed < FED_MAX) (Hheld : held_len f = 0).
Context (t : tinfl_decompressor) (used : nat) (produced : bytes) (done_ : bool).
Context (Hused : (used ≤ length p)%nat) (Hroom : Z.of_nat (length produced) ≤ TINFL_LZ_DICT_SIZE - dict_ofs f).
Context (Htaken : taken t = taken (tinfl f) + Z.of_nat used) (Hgiven : given t = given (tinfl f) + Z.of_nat (length produced)).
Let f' := with_call format t used produced done_ f.

Lemma call_window : Z.of_nat (length (dict f)) = TINFL_LZ_DICT_SIZE ∧ 0 ≤ dict_ofs f < TINFL_LZ_DICT_SIZE ∧ (dict f, dict_ofs f) = window g.
Proof.
  pose proof (bo_window _ _ _ _ Hok) as Hw. unfold held in Hw. rewrite Hheld in Hw. simpl in Hw. rewrite take_0, app_nil_r in Hw.
  pose proof (window_bounds g) as [Hb1 Hb2]. rewrite <- Hw in Hb1, Hb2. simpl in *. done.
Qed.

Lemma call_held : held f' = produced.
Proof.
  destruct call_window as (Hd & Ho & _). unfold held, f', with_call. simpl.
  destruct (Z.ltb_spec 0 (Z.of_nat (length produced))) as [Hpos|Hzero].
  - rewrite Nat2Z.id. apply splice_held; lia.
  - rewrite Hheld. simpl. rewrite take_0. by destruct produced; [|simpl in Hzero; lia].
Qed.

Lemma call_next : (dict f', dict_ofs f') = window (g ++ produced).
Proof.
  destruct call_window as (Hd & Ho & Hw). unfold f', with_call. simpl.
  transitivity (foldl put1 (dict f, dict_ofs f) produced).
  - apply (splice_puts produced (dict f, dict_ofs f)); simpl; [done|done|lia].
  - rewrite Hw. unfold window. by rewrite foldl_app.
Qed.

Lemma call_ok : given t ≤ DEFLATE_MAX_RATIO * (taken t + 8) + TINFL_LZ_DICT_SIZE → body_ok g fed f' (drop used p).
Proof.
  intros Hratio. destruct call_window as (Hd & Ho & _). destruct Hok as [_ Hh (Ht1 & Ht2 & Ht3) (Hg1 & Hg2) Hs].
  unfold FED_MAX in Hfed. change (2 ^ 53) with 9007199254740992 in Hfed.
  assert (Hin : in_total f' = taken t) by (unfold f', with_call, u64; simpl; rewrite Z.mod_small; lia).
  assert (Hout : out_total f' = given t).
  { unfold f', with_call, u64. simpl. rewrite Z.mod_small; [lia|]. unfold DEFLATE_MAX_RATIO in *. rewrite dict_size in *. lia. }
  split.
  - rewrite call_held. apply call_next.
  - unfold f', with_call. simpl. destruct (Z.ltb_spec 0 (Z.of_nat (length produced))); simpl; lia.
  - rewrite Hin. split; [done|]. rewrite length_drop. lia.
  - rewrite Hout, Hin. split; [done|lia].
  - unfold f', with_call. simpl. case_bool_decide; [|done]. unfold u32. by rewrite Z.mod_mod.
Qed.

Lemma call_sums : crc f' = add_crc produced (crc f) ∧ isize f' = add_size produced (isize f).
Proof.
  unfold f', with_call, add_crc, add_size. simpl. case_bool_decide; [|done]. split; [|done].
  destruct (Z.ltb_spec 0 (Z.of_nat (length produced))); [done|]. destruct produced; [by rewrite lzma_crc32_nil|simpl in *; lia].
Qed.

(** What it decodes to after a call is what follows what the call gave. *)
Lemma call_meaning K w v :
  body_done f = false →
  tinfl_meaning zlib (tinfl f) (dict f, dict_ofs f) w
  = (if done_ then Some (produced, v) else pre produced (tinfl_meaning zlib t (foldl put1 (dict f, dict_ofs f) produced) v)) →
  u32 (isize f') = isize f' →
  body_meaning K f w = body_meaning K f' v.
Proof.
  intros Hdone Hmean Hsize. unfold body_meaning. rewrite Hdone, Hmean, call_held.
  destruct call_sums as [Hc Hn]. pose proof call_next as Hnext. destruct call_window as (_ & _ & Hw).
  change (body_done f') with done_. change (tinfl f') with t.
  assert (Hempty : held f = []) by (unfold held; rewrite Hheld; apply take_0). rewrite Hempty.
  destruct done_.
  - rewrite app_nil_r, add_crc_nil, add_size_nil by done. by rewrite Hc, Hn.
  - rewrite Hnext, Hw. unfold window at 1. rewrite <- foldl_app.
    fold (window (g ++ produced)). destruct (tinfl_meaning _ _ (window (g ++ produced)) v) as [[o r]|]; [|done].
    rewrite Hc, Hn, <- add_crc_app, <- add_size_app. done.
Qed.

End call.

(** ** A step *)

(** What a step over the body comes to. *)
Record body_stepped (K : Z → Z → bytes → outcome) (g : bytes) (fed : Z) (f : body_state) (p : bytes) (budget : Z) (r : stepped body_state) : Prop := {
  bs_budget : Z.of_nat (length (s_out r)) ≤ budget;
  bs_input : (length (s_input r) ≤ length p)%nat;
  bs_moves : match s_step r with
    | STEP_END => body_ok (g ++ s_out r) fed (s_state r) (s_input r) ∧ held_len (s_state r) = 0 ∧
        ∀ w, body_meaning K f (p ++ w) = pre (s_out r) (K (crc (s_state r)) (isize (s_state r)) (s_input r ++ w))
    | STEP_INPUT => body_ok (g ++ s_out r) fed (s_state r) (s_input r) ∧ s_input r = [] ∧
        (∀ w, body_meaning K f (p ++ w) = pre (s_out r) (body_meaning K (s_state r) (s_input r ++ w))) ∧
        body_meaning K (s_state r) [] = None
    | STEP_FULL => body_ok (g ++ s_out r) fed (s_state r) (s_input r) ∧
        (∀ w, body_meaning K f (p ++ w) = pre (s_out r) (body_meaning K (s_state r) (s_input r ++ w))) ∧
        Z.of_nat (length (s_out r)) = budget
    | STEP_ERROR _ => refuses (body_meaning K) f p
    end }.

Definition turns_left (budget : Z) (f : body_state) (starved : bool) (out : bytes) : Z :=
  budget - Z.of_nat (length out) + (if held_len f =? 0 then 1 else 0) + (if body_done f || starved then 0 else 2).

(** The loop's invariant; [n] bounds the turns left. *)
Record turning (K : Z → Z → bytes → outcome) (g : bytes) (fed : Z) (f0 : body_state) (p0 : bytes) (budget : Z) (n : nat)
    (f : body_state) (p : bytes) (starved : bool) (out : bytes) : Prop := {
  tu_budget : Z.of_nat (length out) ≤ budget;
  tu_input : (length p ≤ length p0)%nat;
  tu_meaning w : body_meaning K f0 (p0 ++ w) = pre out (body_meaning K f (p ++ w));
  tu_ok : body_ok (g ++ out) fed f p;
  tu_starved : starved = true → p = [] ∧ body_done f = false ∧ tinfl_meaning zlib (tinfl f) (dict f, dict_ofs f) [] = None;
  tu_left : n = Z.to_nat (turns_left budget f starved out) }.

Lemma inflate_turn_moves K g fed f0 p0 budget n f p starved out :
  fed < FED_MAX → turning K g fed f0 p0 budget n f p starved out →
  match inflate_turn format budget (f, p, starved, out) with
  | inl (f', p', starved', out') => ∃ m, (m < n)%nat ∧ turning K g fed f0 p0 budget m f' p' starved' out'
  | inr r => body_stepped K g fed f0 p0 budget r
  end.
Proof.
  intros Hfed [Hb Hi Hmean Hok Hst Hn]. unfold inflate_turn.
  destruct (flush_held budget f out) as [f1 out1] eqn:Hflush.
  destruct (flush_held_ok K g fed f p budget out f1 out1 Hok Hb Hflush) as (o & -> & Hb1 & Hok1 & Hm1 & Hdone & Ht & Hd & Hlen & Hfull).
  assert (Hmean1 : ∀ w, body_meaning K f0 (p0 ++ w) = pre (out ++ o) (body_meaning K f1 (p ++ w))).
  { intros w. rewrite Hmean, Hm1. apply pre_pre. }
  pose proof (bo_held _ _ _ _ Hok1) as (_ & Hpos & _).
  destruct (Z.ltb_spec 0 (held_len f1)) as [Hheld|Hheld].
  { split; simpl; [done|done|]. split; [done|]. split; [done|]. apply Hfull. lia. }
  assert (Hz : held_len f1 = 0) by lia.
  assert (Hempty : held f1 = []) by (unfold held; rewrite Hz; apply take_0).
  destruct (body_done f1) eqn:Hdone1.
  { split; simpl; [done|done|]. split; [done|]. split; [done|]. intros w. rewrite Hmean1. unfold body_meaning at 1.
    rewrite Hdone1, Hempty. simpl. rewrite pre_nil, add_crc_nil, add_size_nil by apply Hok1. done. }
  destruct starved.
  { destruct (Hst eq_refl) as (-> & _ & Hnone). split; simpl; [done|done|]. split; [done|]. split; [done|]. split; [done|].
    unfold body_meaning. by rewrite Hdone1, Ht, Hd, Hnone. }
  pose proof (call_window _ _ _ _ Hok1 Hz) as (Hdl & Hdo & Hw).
  destruct (tinfl_decompress _ (tinfl f1) p (dict f1) (dict_ofs f1) _) as [[[t used] produced] status] eqn:Hcall.
  destruct (tinfl_call zlib (tinfl f1) p (dict f1, dict_ofs f1) t used produced status Hdo Hdl Hcall)
    as (Hused & Hroom & Htaken & Hgiven & Hstatus & Hratio).
  set (f2 := with_call format t used produced (status =? TINFL_STATUS_DONE) f1).
  assert (Hleft : turns_left budget f false out = budget - Z.of_nat (length out) + (if held_len f =? 0 then 1 else 0) + 2).
  { unfold turns_left. by rewrite <- Hdone, orb_false_r. }
  rewrite length_app in Hb1.
  assert (Hflushed : Z.of_nat (length o) = held_len f) by lia.
  assert (Hgoing : status = TINFL_STATUS_DONE ∨ status = TINFL_STATUS_NEEDS_MORE_INPUT ∨ status = TINFL_STATUS_HAS_MORE_OUTPUT →
    body_ok (g ++ out ++ o) fed f2 (drop used p) ∧
    (u64 (DEFLATE_MAX_RATIO * (in_total f2 + 8) + TINFL_LZ_DICT_SIZE) <? out_total f2) = false).
  { intros Hs. pose proof (call_ok _ _ _ _ Hok1 Hfed Hz t used produced (status =? TINFL_STATUS_DONE) Hused Hroom Htaken Hgiven (Hratio Hs)) as Hok2.
    fold f2 in Hok2. split; [exact Hok2|]. apply Z.ltb_ge.
    destruct (bo_given _ _ _ _ Hok2) as [_ [_ Hle]]. destruct (bo_taken _ _ _ _ Hok2) as (_ & Hin0 & Hfd).
    unfold u64. rewrite Z.mod_small; [exact Hle|]. unfold FED_MAX in Hfed. change (2 ^ 53) with 9007199254740992 in Hfed.
    unfold DEFLATE_MAX_RATIO. rewrite dict_size. lia. }
  assert (Hheld2 : held_len f2 = Z.of_nat (length produced)).
  { unfold f2, with_call. simpl. destruct (Z.ltb_spec 0 (Z.of_nat (length produced))); lia. }
  assert (Hin2 : (length (drop used p) ≤ length p0)%nat) by (rewrite length_drop; lia).
  assert (Hsmaller : ∀ starved, body_done f2 || starved = true ∨ 0 < held_len f2 →
    (Z.to_nat (turns_left budget f2 starved (out ++ o)) < n)%nat).
  { intros starved Hcase. rewrite Hn, Hleft. unfold turns_left. rewrite length_app. destruct (body_done f2 || starved); zcases; lia. }
  destruct Hstatus as [[Hs Hmeans]|[(Hs & Hall & Hnone & Hmeans)|[(Hs & Hfilled & Hmeans)|(Hs1 & Hs2 & Hs3 & Hmeans)]]].
  - destruct (Hgoing (or_introl Hs)) as [Hok2 ->]. rewrite (proj2 (Z.eqb_eq status TINFL_STATUS_DONE) Hs).
    assert (Hdn : body_done f2 = true) by (unfold f2; simpl; by rewrite Hs).
    eexists. split; [|split; [rewrite length_app; lia|exact Hin2| |exact Hok2|done|reflexivity]].
    + apply Hsmaller. left. by rewrite Hdn.
    + intros w. rewrite Hmean1. f_equal.
      apply (call_meaning _ _ _ _ Hok1 Hz t used produced _ Hused Hroom Hgiven K _ _ Hdone1); [|apply Hok2]. rewrite Hs. apply Hmeans.
  - destruct (Hgoing (or_intror (or_introl Hs))) as [Hok2 ->]. rewrite (proj2 (Z.eqb_neq status TINFL_STATUS_DONE)) by (by rewrite Hs).
    rewrite (proj2 (Z.eqb_eq status TINFL_STATUS_NEEDS_MORE_INPUT) Hs).
    assert (Hdn : body_done f2 = false) by (unfold f2; simpl; by rewrite Hs).
    eexists. split; [|split; [rewrite length_app; lia|exact Hin2| |exact Hok2| |reflexivity]].
    + apply Hsmaller. left. by rewrite Hdn.
    + intros w. rewrite Hmean1. f_equal.
      apply (call_meaning _ _ _ _ Hok1 Hz t used produced _ Hused Hroom Hgiven K _ _ Hdone1); [|apply Hok2]. rewrite Hs. simpl.
      rewrite Hmeans, Hall, drop_all. done.
    + intros _. split; [by rewrite Hall, drop_all|]. split; [exact Hdn|]. change (tinfl f2) with t.
      unfold f2. rewrite (call_next _ _ _ _ Hok1 Hz t used produced (status =? TINFL_STATUS_DONE) Hused Hroom). rewrite Hw in Hnone. rewrite <- Hnone. f_equal.
      unfold window. by rewrite foldl_app.
  - destruct (Hgoing (or_intror (or_intror Hs))) as [Hok2 ->]. rewrite (proj2 (Z.eqb_neq status TINFL_STATUS_DONE)), (proj2 (Z.eqb_neq status TINFL_STATUS_NEEDS_MORE_INPUT)) by (by rewrite Hs).
    rewrite (proj2 (Z.eqb_eq status TINFL_STATUS_HAS_MORE_OUTPUT) Hs). cbn [negb].
    eexists. split; [|split; [rewrite length_app; lia|exact Hin2| |exact Hok2|done|reflexivity]].
    + apply Hsmaller. right. simpl in Hfilled. lia.
    + intros w. rewrite Hmean1. f_equal.
      apply (call_meaning _ _ _ _ Hok1 Hz t used produced _ Hused Hroom Hgiven K _ _ Hdone1); [|apply Hok2]. rewrite Hs. apply Hmeans.
  - assert (Hrefuse : refuses (body_meaning K) f0 p0).
    { intros w. rewrite Hmean1. unfold body_meaning. rewrite Hdone1, Hmeans. done. }
    destruct (_ <? out_total f2); [split; simpl; [rewrite length_app; lia|exact Hin2|exact Hrefuse]|].
    rewrite (proj2 (Z.eqb_neq _ _) Hs1), (proj2 (Z.eqb_neq _ _) Hs2), (proj2 (Z.eqb_neq _ _) Hs3). cbn [negb].
    split; simpl; [rewrite length_app; lia|exact Hin2|exact Hrefuse].
Qed.

Lemma inflate_step_ok K g fed f p budget :
  0 ≤ budget → fed < FED_MAX → body_ok g fed f p →
  ∃ r, inflate_step format f p budget = Some r ∧ body_stepped K g fed f p budget r.
Proof.
  intros Hb Hfed Hok. unfold inflate_step.
  destruct (until_answers (inflate_turn format budget)
    (λ n s, turning K g fed f p budget n s.1.1.1 s.1.1.2 s.1.2 s.2) (body_stepped K g fed f p budget) (Z.to_pos (budget + 4))
    (Z.to_nat (turns_left budget f false [])) (f, p, false, [])) as (r & -> & Hr).
  - intros n [[[f' p'] starved'] out'] Hm. simpl in Hm. pose proof (inflate_turn_moves _ _ _ _ _ _ _ _ _ _ _ Hfed Hm) as Ht.
    by destruct (inflate_turn format budget (f', p', starved', out')) as [[[[? ?] ?] ?]|].
  - split; simpl; try done. + intros w. by rewrite pre_nil. + by rewrite app_nil_r.
  - unfold turns_left. simpl. zcases; destruct (_ || _); lia.
  - by exists r.
Qed.

End inflate.
