(* ===== verification/CompressGzip.v ===== *)
(** * The gzip framing

    A member's header is read past part by part, however it is split, and the
    member ends only where its trailer agrees with what the body gave. *)

From S2P Require Import Prelude.
From S2P Require Import Codecs.
From S2P Require Import CompressSteps.
From S2P Require Import CompressInflate.

Local Open Scope Z_scope.

#[local] Arguments Z.testbit : simpl never.

(** ** RFC 1952 *)

(** The optional parts a header's flags name, in order. *)
Definition parts_of (flg_ : Z) : list gzip_state :=
  (if Z.testbit flg_ 2 then [GZ_XLEN] else []) ++ (if Z.testbit flg_ 3 then [GZ_NAME] else []) ++
  (if Z.testbit flg_ 4 then [GZ_COMMENT] else []) ++ (if Z.testbit flg_ 1 then [GZ_HCRC] else []).

(** What follows [n] bytes. *)
Definition after (n : Z) (w : bytes) : option bytes :=
  if Z.of_nat (length w) <? n then None else Some (drop (Z.to_nat n) w).

(** What follows a part. *)
Definition skip (part : gzip_state) (w : bytes) : option bytes :=
  match part with
  | GZ_XLEN => if Z.of_nat (length w) <? 2 then None else after (Z.lor (w !!! 0%nat) (Z.shiftl (w !!! 1%nat) 8)) (drop 2 w)
  | GZ_NAME | GZ_COMMENT => after_nul w
  | GZ_HCRC => after 2 w
  | _ => Some w
  end.

Fixpoint skips (parts : list gzip_state) (w : bytes) : option bytes :=
  match parts with
  | [] => Some w
  | part :: parts => w ← skip part w; skips parts w
  end.

(** The trailer: the checksum and the length. *)
Definition trailer (c n : Z) (w : bytes) : outcome :=
  if Z.of_nat (length w) <? 8 then None
  else if (le32 (take 8 w) =? c) && (le32 (drop 4 (take 8 w)) =? n) then Some ([], drop 8 w) else None.

(** What follows the header. *)
Definition gzip_header_end (w : bytes) : option bytes :=
  if Z.of_nat (length w) <? 10 then None
  else if w !!! 2%nat =? 8 then skips (parts_of (w !!! 3%nat)) (drop 10 w) else None.

Section gzip.
Context `{TinflLaws, LzmaLaws}.

(** A member whose body is decoded with a window. *)
Definition gzip_member (win : bytes * Z) (w : bytes) : outcome :=
  w ← gzip_header_end w;
  match tinfl_meaning false tinfl_init win w with
  | Some (o, r) => pre o (trailer (lzma_crc32 o 0) (u32 (Z.of_nat (length o))) r)
  | None => None
  end.

(** ** The state's meaning *)

#[local] Abbreviation bodies := (body_meaning FMT_GZIP trailer).

Definition gz_meaning (f : inflate_state) (w : bytes) : outcome :=
  let then_parts rest_ := (w ← skips (tail (parts_of (flg f))) rest_; bodies (inflate_start_body (body f)) w) in
  match gstate f with
  | GZ_FIXED => w ← gzip_header_end (field f ++ w); bodies (inflate_start_body (body f)) w
  | GZ_XLEN => w ← skip GZ_XLEN (field f ++ w); then_parts w
  | GZ_EXTRA => w ← after (extra_remaining f) w; then_parts w
  | GZ_NAME | GZ_COMMENT => w ← after_nul w; then_parts w
  | GZ_HCRC => w ← after 2 (field f ++ w); then_parts w
  | GZ_BODY => bodies (body f) w
  | GZ_TRAILER => trailer (crc (body f)) (isize (body f)) (field f ++ w)
  end.

(** Between bodies nothing is held, and the window is of what went out. *)
Record still (g : bytes) (fed : Z) (f : inflate_state) (p : bytes) : Prop := {
  still_window : (dict (body f), dict_ofs (body f)) = window g;
  still_held : 0 ≤ held_ofs (body f) ≤ TINFL_LZ_DICT_SIZE ∧ held_len (body f) = 0;
  still_fed : Z.of_nat (length p) ≤ fed }.

(** How much of the field may be had, and which part the flags are at. *)
Definition field_room (s : gzip_state) : nat :=
  match s with GZ_FIXED => 10 | GZ_XLEN | GZ_HCRC => 2 | GZ_TRAILER => 8 | _ => 0 end.
Definition part_at (s : gzip_state) : option gzip_state :=
  match s with GZ_XLEN | GZ_EXTRA => Some GZ_XLEN | GZ_NAME => Some GZ_NAME | GZ_COMMENT => Some GZ_COMMENT | GZ_HCRC => Some GZ_HCRC | _ => None end.

Record gz_ok (g : bytes) (fed : Z) (f : inflate_state) (p : bytes) : Prop := {
  gz_state : match gstate f with GZ_BODY => body_ok g fed (body f) p | _ => still g fed f p end;
  gz_field : gstate f ≠ GZ_EXTRA → gstate f ≠ GZ_NAME → gstate f ≠ GZ_COMMENT → gstate f ≠ GZ_BODY → (length (field f) ≤ field_room (gstate f))%nat;
  gz_part : ∀ s, part_at (gstate f) = Some s → head (parts_of (flg f)) = Some s }.

(** ** Parts *)

Lemma flag_bit x k : 0 ≤ k → negb (Z.land x (2 ^ k) =? 0) = Z.testbit x k.
Proof.
  intros Hk. destruct (Z.testbit x k) eqn:Hb.
  - apply negb_true_iff, Z.eqb_neq. intros Hz. assert (Hbit : Z.testbit (Z.land x (2 ^ k)) k = false) by (rewrite Hz; apply Z.bits_0).
    rewrite Z.land_spec, Hb, Z.pow2_bits_true in Hbit by done. done.
  - apply negb_false_iff, Z.eqb_eq, Z.bits_inj'. intros i Hi. rewrite Z.land_spec, Z.bits_0, Z.pow2_bits_eqb by done.
    destruct (Z.eqb_spec k i) as [<-|]; [by rewrite Hb|by rewrite andb_false_r].
Qed.

Lemma gzip_next_state f :
  gzip_next f = match parts_of (flg f) with
    | [] => with_body (inflate_start_body (body f)) (with_gstate GZ_BODY (with_field [] f))
    | s :: _ => with_gstate s (with_field [] f)
    end.
Proof.
  unfold gzip_next, parts_of. simpl. change GZ_FEXTRA with (2 ^ 2). change GZ_FNAME with (2 ^ 3).
  change GZ_FCOMMENT with (2 ^ 4). change GZ_FHCRC with (2 ^ 1). rewrite !flag_bit by lia.
  by destruct (Z.testbit (flg f) 2), (Z.testbit (flg f) 3), (Z.testbit (flg f) 4), (Z.testbit (flg f) 1).
Qed.

(** The flag of a part. *)
Definition flag_of (s : gzip_state) : Z :=
  match s with GZ_XLEN => GZ_FEXTRA | GZ_NAME => GZ_FNAME | GZ_COMMENT => GZ_FCOMMENT | _ => GZ_FHCRC end.

(** A part done is the first taken off. *)
Lemma parts_done s flg_ : head (parts_of flg_) = Some s → parts_of (Z.ldiff flg_ (flag_of s)) = tail (parts_of flg_).
Proof.
  assert (Hbits : ∀ k i, 0 ≤ k → 0 ≤ i → Z.testbit (Z.ldiff flg_ (2 ^ k)) i = Z.testbit flg_ i && negb (k =? i)).
  { intros k i Hk Hi. by rewrite Z.ldiff_spec, Z.pow2_bits_eqb. }
  unfold parts_of.
  destruct (Z.testbit flg_ 2) eqn:E2, (Z.testbit flg_ 3) eqn:E3, (Z.testbit flg_ 4) eqn:E4, (Z.testbit flg_ 1) eqn:E1;
    simpl; intros [= <-]; unfold flag_of;
    [change GZ_FEXTRA with (2 ^ 2)..|change GZ_FNAME with (2 ^ 3)|change GZ_FNAME with (2 ^ 3)|change GZ_FNAME with (2 ^ 3)|change GZ_FNAME with (2 ^ 3)
     |change GZ_FCOMMENT with (2 ^ 4)|change GZ_FCOMMENT with (2 ^ 4)|change GZ_FHCRC with (2 ^ 1)];
    rewrite !Hbits, E2, E3, E4, E1 by lia; reflexivity.
Qed.

(** The parts after the first come later. *)
Definition rank (s : gzip_state) : nat :=
  match s with
  | GZ_FIXED => 8 | GZ_XLEN => 7 | GZ_EXTRA => 6 | GZ_NAME => 5 | GZ_COMMENT => 4 | GZ_HCRC => 3 | GZ_BODY => 2 | GZ_TRAILER => 1
  end.

Lemma parts_later s flg_ :
  head (parts_of flg_) = Some s →
  match parts_of (Z.ldiff flg_ (flag_of s)) with [] => True | s' :: _ => (rank s' < rank s)%nat ∧ (s = GZ_XLEN → rank s' < 6)%nat end.
Proof.
  intros Hs. rewrite parts_done by done. revert Hs. unfold parts_of.
  destruct (Z.testbit flg_ 2), (Z.testbit flg_ 3), (Z.testbit flg_ 4), (Z.testbit flg_ 1); simpl; intros [= <-]; simpl; try done; split; intros; lia || done.
Qed.

Lemma parts_ranks flg_ : match parts_of flg_ with [] => True | s :: _ => (2 < rank s < 8)%nat ∧ part_at s = Some s ∧ s ≠ GZ_BODY end.
Proof.
  unfold parts_of. destruct (Z.testbit flg_ 2), (Z.testbit flg_ 3), (Z.testbit flg_ 4), (Z.testbit flg_ 1); simpl; try done; split; (lia || done).
Qed.

(** What moving to the next part comes to. *)
Lemma start_body_ok g fed f p : still g fed f p → body_ok g fed (inflate_start_body (body f)) p.
Proof.
  intros [Hw [Hh Hl] Hp]. destruct tinfl_fresh as [Ht Hg]. split; simpl.
  - unfold held. simpl. rewrite Hl. by rewrite take_0, app_nil_r.
  - lia.
  - rewrite Ht. lia.
  - rewrite Hg. unfold DEFLATE_MAX_RATIO. rewrite dict_size. lia.
  - done.
Qed.

Lemma gzip_next_ok g fed f p : still g fed f p → gz_ok g fed (gzip_next f) p.
Proof.
  intros Hst. rewrite gzip_next_state. pose proof (parts_ranks (flg f)) as Hr.
  destruct (parts_of (flg f)) as [|s parts] eqn:Hparts.
  - split; simpl; [by apply start_body_ok|done|done].
  - destruct Hr as (Hrank & Hat & Hb). split; simpl.
    + destruct s; try done; destruct Hst; by split.
    + intros; lia.
    + intros s' Hs'. rewrite Hat in Hs'. injection Hs' as <-. by rewrite Hparts.
Qed.

Lemma gzip_next_meaning f w :
  gz_meaning (gzip_next f) w = (w ← skips (parts_of (flg f)) w; bodies (inflate_start_body (body f)) w).
Proof.
  rewrite gzip_next_state. pose proof (parts_ranks (flg f)) as Hr.
  destruct (parts_of (flg f)) as [|s parts] eqn:Hparts; [done|].
  destruct Hr as (Hrank & Hat & Hb). unfold gz_meaning. simpl. rewrite Hparts. simpl.
  destruct s; simpl in *; try done; try lia; by rewrite ?option_bind_assoc.
Qed.

(** A part done, the header goes on with the next. *)
Lemma part_done_ok g fed f p s :
  still g fed f p → head (parts_of (flg f)) = Some s →
  gz_ok g fed (part_done (flag_of s) f) p ∧ (rank (gstate (part_done (flag_of s) f)) < rank s)%nat ∧
  (s = GZ_XLEN → (rank (gstate (part_done (flag_of s) f)) < 6)%nat) ∧
  ∀ w, gz_meaning (part_done (flag_of s) f) w = (w ← skips (tail (parts_of (flg f))) w; bodies (inflate_start_body (body f)) w).
Proof.
  intros Hst Hs. unfold part_done. set (f' := with_flg _ f). assert (Hst' : still g fed f' p) by (by destruct Hst; split).
  split; [by apply gzip_next_ok|]. split; [|split].
  - rewrite gzip_next_state. pose proof (parts_later s (flg f) Hs) as Hl. simpl.
    pose proof (parts_ranks (flg f)) as Hr. destruct (parts_of (flg f)) as [|s' ?]; [done|]. injection Hs as ->.
    destruct (parts_of (Z.ldiff _ _)); simpl; [lia|apply Hl].
  - intros ->. rewrite gzip_next_state. pose proof (parts_later GZ_XLEN (flg f) Hs) as Hl. simpl in *.
    destruct (parts_of (Z.ldiff _ _)); simpl; [lia|by apply Hl].
  - intros w. rewrite gzip_next_meaning. simpl. by rewrite parts_done.
Qed.

(** ** Collecting *)

Lemma gzip_collect_ok f p need full f' p' :
  gzip_collect f p need = (full, f', p') → (length (field f) ≤ need)%nat →
  ∃ c, f' = with_field c f ∧ c ++ p' = field f ++ p ∧ (length c ≤ need)%nat ∧ (length p' ≤ length p)%nat ∧
    full = bool_decide (length c = need) ∧ (full = false → p' = [] ∧ (length c < need)%nat).
Proof.
  unfold gzip_collect. intros [= <- <- <-] Hlen. eexists. split; [done|]. split; [by rewrite <- app_assoc, take_drop|].
  rewrite length_app, length_take, length_drop. split; [lia|]. split; [lia|]. split; [done|].
  intros Hf%bool_decide_eq_false. split; [apply nil_length_inv; rewrite length_drop|]; lia.
Qed.

Lemma after_app n p w : Z.of_nat (length p) ≤ n → after n (p ++ w) = after (n - Z.of_nat (length p)) w.
Proof.
  intros Hn. unfold after. rewrite length_app. rewrite drop_app_ge by lia.
  replace (Z.to_nat n - length p)%nat with (Z.to_nat (n - Z.of_nat (length p))) by lia. zcases; done || lia.
Qed.

Lemma after_some n p w : n ≤ Z.of_nat (length p) → after n (p ++ w) = Some (drop (Z.to_nat n) p ++ w).
Proof. intros Hn. unfold after. rewrite length_app. rewrite drop_app_le by lia. zcases; [lia|done]. Qed.

Lemma after_nul_app p w : after_nul (p ++ w) = match after_nul p with Some v => Some (v ++ w) | None => after_nul w end.
Proof. induction p as [|b p IH]; simpl; [done|]. by destruct (b =? 0). Qed.

(** ** A turn *)

(** The loop's invariant. *)
Record gturning (g : bytes) (fed : Z) (f0 : inflate_state) (p0 : bytes) (budget : Z) (f : inflate_state) (p out : bytes) : Prop := {
  gt_budget : Z.of_nat (length out) ≤ budget;
  gt_input : (length p ≤ length p0)%nat;
  gt_meaning w : gz_meaning f0 (p0 ++ w) = pre out (gz_meaning f (p ++ w));
  gt_ok : gz_ok (g ++ out) fed f p }.

Definition gz_over (g : bytes) (fed : Z) (f : inflate_state) (p : bytes) : Prop := still g fed f p.

Abbreviation turned g fed f0 p0 budget n x := (∃ y, x = Some y ∧ match y with
  | inl (f', p', out') => (rank (gstate f') < n)%nat ∧ gturning g fed f0 p0 budget f' p' out'
  | inr r => step_ok gz_meaning gz_ok gz_over True g fed f0 p0 budget r
  end).

Section turn.
Context (g : bytes) (fed : Z) (f0 : inflate_state) (p0 : bytes) (budget : Z) (f : inflate_state) (p out : bytes).
Context (Hfed : fed < FED_MAX) (Hturn : gturning g fed f0 p0 budget f p out).

Lemma still_less g' f' p' : still g' fed f p → (length p' ≤ length p)%nat → body f' = body f → still g' fed f' p'.
Proof. intros [Hw Hh Hl] Hp Hb. split; rewrite ?Hb; [done|done|lia]. Qed.

(** A turn that ends for want of input. *)
Lemma turn_starved f' p' :
  gz_ok (g ++ out) fed f' p' → (length p' ≤ length p)%nat →
  (∀ w, gz_meaning f (p ++ w) = gz_meaning f' (p' ++ w)) → gz_meaning f' p' = None →
  step_ok gz_meaning gz_ok gz_over True g fed f0 p0 budget (Stepped STEP_INPUT f' p' out).
Proof.
  destruct Hturn as [Hb Hi Hm Hok]. intros Hok' Hp Hmean Hnone. split; simpl; [done|lia|]. split; [done|]. split; [|done].
  intros w. by rewrite Hm, Hmean.
Qed.

(** A turn that goes on. *)
Lemma turn_goes s f' p' :
  gstate f = s → gz_ok (g ++ out) fed f' p' → (length p' ≤ length p)%nat → (rank (gstate f') < rank s)%nat →
  (∀ w, gz_meaning f (p ++ w) = gz_meaning f' (p' ++ w)) →
  (rank (gstate f') < rank s)%nat ∧ gturning g fed f0 p0 budget f' p' out.
Proof.
  destruct Hturn as [Hb Hi Hm Hok]. intros Hs Hok' Hp Hr Hmean. split; [done|]. split; [done|lia| |done].
  intros w. by rewrite Hm, Hmean.
Qed.

(** A turn that fails. *)
Lemma turn_fails why f' p' :
  (length p' ≤ length p)%nat → (∀ w, gz_meaning f (p ++ w) = None) →
  step_ok gz_meaning gz_ok gz_over True g fed f0 p0 budget (Stepped (STEP_ERROR why) f' p' out).
Proof.
  destruct Hturn as [Hb Hi Hm Hok]. intros Hp Hnone. split; simpl; [done|lia|]. intros _ w. by rewrite Hm, Hnone.
Qed.

Lemma turn_fixed : gstate f = GZ_FIXED → turned g fed f0 p0 budget (rank (gstate f)) (gzip_turn budget (f, p, out)).
Proof.
  intros Hg. destruct (gt_ok _ _ _ _ _ _ _ _ Hturn) as [Hst Hfl Hpart]. rewrite Hg in Hst, Hfl. simpl in Hfl.
  unfold gzip_turn. rewrite Hg. destruct (gzip_collect f p 10) as [[full f1] p1] eqn:Hcol.
  destruct (gzip_collect_ok _ _ _ _ _ _ Hcol) as (c & -> & Hc & Hlen & Hp & Hfull & Hnot); [by apply Hfl|].
  assert (Hmean : ∀ w, gz_meaning f (p ++ w) = gz_meaning (with_field c f) (p1 ++ w)).
  { intros w. unfold gz_meaning. simpl. rewrite Hg. by rewrite !app_assoc, Hc. }
  destruct full; cbn [negb].
  - symmetry in Hfull. apply bool_decide_eq_true in Hfull. simpl field.
    assert (Hhead : ∀ w, gz_meaning f (p ++ w) = if c !!! 2%nat =? 8
      then (w ← skips (parts_of (c !!! 3%nat)) (p1 ++ w); bodies (inflate_start_body (body f)) w) else None).
    { intros w. rewrite Hmean. unfold gz_meaning. simpl. rewrite Hg. unfold gzip_header_end. rewrite length_app.
      rewrite (proj2 (Z.ltb_ge _ _)) by lia. rewrite !lookup_total_app_l by lia. rewrite <- Hfull, drop_app_length. by destruct (_ =? 8). }
    destruct (c !!! 2%nat =? 8); cbn [negb]; eexists; (split; [done|]); cbv beta iota.
    + apply turn_goes; [exact Hg|apply gzip_next_ok; by apply (still_less _ _ _ Hst)|done| |].
      * rewrite gzip_next_state. pose proof (parts_ranks (c !!! 3%nat)) as Hr. simpl.
        destruct (parts_of (c !!! 3%nat)); simpl; lia.
      * intros w. by rewrite Hhead, gzip_next_meaning.
    + by apply turn_fails.
  - destruct (Hnot eq_refl) as [-> Hshort]. eexists. split; [done|]. apply turn_starved; [|done|done|].
    + split; simpl; rewrite ?Hg; simpl; try done. by apply (still_less _ _ _ Hst).
    + unfold gz_meaning. simpl. rewrite Hg. unfold gzip_header_end. rewrite app_nil_r. by rewrite (proj2 (Z.ltb_lt _ _)) by lia.
Qed.

(** The bytes of a field collected, whichever it is. *)
Lemma collected need full f1 p1 :
  gzip_collect f p need = (full, f1, p1) → (length (field f) ≤ need)%nat →
  ∃ c, f1 = with_field c f ∧ (length p1 ≤ length p)%nat ∧ (length c ≤ need)%nat ∧
    (∀ w, field f ++ p ++ w = c ++ p1 ++ w) ∧ full = bool_decide (length c = need) ∧
    (full = false → p1 = [] ∧ (length c < need)%nat).
Proof.
  intros Hcol Hl. destruct (gzip_collect_ok _ _ _ _ _ _ Hcol Hl) as (c & -> & Hc & Hlen & Hp & Hfull & Hnot).
  exists c. split; [done|]. split; [done|]. split; [done|]. split; [|done]. intros w. by rewrite !app_assoc, Hc.
Qed.

Lemma turn_xlen : gstate f = GZ_XLEN → turned g fed f0 p0 budget (rank GZ_XLEN) (gzip_turn budget (f, p, out)).
Proof.
  intros Hg. destruct (gt_ok _ _ _ _ _ _ _ _ Hturn) as [Hst Hfl Hpart]. rewrite Hg in Hst, Hfl, Hpart. simpl in Hfl, Hpart.
  unfold gzip_turn. rewrite Hg. destruct (gzip_collect f p 2) as [[full f1] p1] eqn:Hcol.
  destruct (collected _ _ _ _ Hcol) as (c & -> & Hp & Hlen & Hc & Hfull & Hnot); [by apply Hfl|].
  destruct full; cbn [negb]; eexists; (split; [done|]); cbv beta iota.
  - symmetry in Hfull. apply bool_decide_eq_true in Hfull. apply turn_goes; [exact Hg| |done|simpl; lia|].
    + split; simpl; [by apply (still_less _ _ _ Hst)|done|exact Hpart].
    + intros w. unfold gz_meaning. simpl. rewrite Hg, Hc, length_app. rewrite (proj2 (Z.ltb_ge _ _)) by lia.
      rewrite !lookup_total_app_l by lia. by rewrite <- Hfull, drop_app_length.
  - destruct (Hnot eq_refl) as [-> Hshort]. apply turn_starved; [|done| |].
    + split; simpl; rewrite ?Hg; simpl; [by apply (still_less _ _ _ Hst)|lia|exact Hpart].
    + intros w. unfold gz_meaning. simpl. by rewrite Hg, Hc.
    + unfold gz_meaning. simpl. rewrite Hg, app_nil_r. by rewrite (proj2 (Z.ltb_lt _ _)) by lia.
Qed.

Lemma turn_extra : gstate f = GZ_EXTRA → turned g fed f0 p0 budget (rank GZ_EXTRA) (gzip_turn budget (f, p, out)).
Proof.
  intros Hg. destruct (gt_ok _ _ _ _ _ _ _ _ Hturn) as [Hst _ Hpart]. rewrite Hg in Hst, Hpart. simpl in Hpart.
  unfold gzip_turn. rewrite Hg.
  assert (Hmean : ∀ w, gz_meaning f w = (w ← after (extra_remaining f) w; w ← skips (tail (parts_of (flg f))) w; bodies (inflate_start_body (body f)) w))
    by (intros w; unfold gz_meaning; by rewrite Hg).
  destruct (Z.ltb_spec (Z.of_nat (length p)) (extra_remaining f)) as [Hlt|Hge]; simpl extra_remaining.
  - rewrite (proj2 (Z.ltb_lt _ _)) by lia. rewrite Nat2Z.id, drop_all. eexists. split; [done|]. apply turn_starved.
    + split; simpl; rewrite ?Hg; simpl; [|done|exact Hpart]. by apply (still_less _ _ _ Hst); [simpl; lia|].
    + simpl. lia.
    + intros w. rewrite Hmean, after_app by lia. unfold gz_meaning. simpl. by rewrite Hg.
    + unfold gz_meaning. simpl. rewrite Hg. unfold after. by rewrite (proj2 (Z.ltb_lt _ _)) by (simpl; lia).
  - rewrite (proj2 (Z.ltb_ge _ _)) by lia. eexists. split; [done|]. cbv beta iota.
    set (p1 := drop _ p). assert (Hp : (length p1 ≤ length p)%nat) by (unfold p1; rewrite length_drop; lia).
    destruct (part_done_ok (g ++ out) fed (with_extra (extra_remaining f - extra_remaining f) f) p1 GZ_XLEN) as (Hok & _ & Hrank & Hdone);
      [by apply (still_less _ _ _ Hst)|by apply Hpart|].
    change (flag_of GZ_XLEN) with GZ_FEXTRA in *. apply turn_goes; [exact Hg|exact Hok|exact Hp|by apply Hrank|].
    intros w. rewrite Hdone, Hmean, after_some by lia. done.
Qed.

Lemma turn_text s : s = GZ_NAME ∨ s = GZ_COMMENT → gstate f = s → turned g fed f0 p0 budget (rank s) (gzip_turn budget (f, p, out)).
Proof.
  intros Hs Hg. destruct (gt_ok _ _ _ _ _ _ _ _ Hturn) as [Hst _ Hpart].
  assert (Hat : part_at (gstate f) = Some s) by (destruct Hs; subst s; rewrite Hg; by subst).
  assert (Hst' : still (g ++ out) fed f p) by (destruct Hs; subst s; rewrite Hg in Hst; by subst).
  assert (Hmean : ∀ w, gz_meaning f w = (w ← after_nul w; w ← skips (tail (parts_of (flg f))) w; bodies (inflate_start_body (body f)) w))
    by (intros w; unfold gz_meaning; destruct Hs; subst s; by rewrite Hg).
  assert (Hflag : match gstate f with GZ_NAME => GZ_FNAME | _ => GZ_FCOMMENT end = flag_of s) by (destruct Hs; subst s; by rewrite Hg).
  assert (Hturn_text : gzip_turn budget (f, p, out) = match after_nul p with
    | None => Some (inr (Stepped STEP_INPUT f [] out)) | Some p => Some (inl (part_done (flag_of s) f, p, out)) end).
  { unfold gzip_turn. rewrite Hflag. destruct Hs; subst s; by rewrite Hg. }
  rewrite Hturn_text. destruct (after_nul p) as [p1|] eqn:Hnul; eexists; (split; [done|]); cbv beta iota.
  - assert (Hp : (length p1 ≤ length p)%nat).
    { clear -Hnul. induction p as [|b q IH]; [done|]. simpl in Hnul. destruct (b =? 0); [injection Hnul as ->; simpl; lia|].
      specialize (IH Hnul). simpl. lia. }
    destruct (part_done_ok (g ++ out) fed f p1 s) as (Hok & Hrank & _ & Hdone); [by apply (still_less _ _ _ Hst')|by apply Hpart|].
    apply turn_goes; [exact Hg|exact Hok|exact Hp|exact Hrank|]. intros w. by rewrite Hdone, Hmean, after_nul_app, Hnul.
  - apply turn_starved; [|simpl; lia| |].
    + destruct (gt_ok _ _ _ _ _ _ _ _ Hturn) as [_ Hfl _]. split; [|exact Hfl|exact Hpart].
      assert (still (g ++ out) fed f []) by (apply (still_less _ _ _ Hst'); simpl; [lia|done]). destruct Hs; subst s; by rewrite Hg.
    + intros w. by rewrite !Hmean, after_nul_app, Hnul.
    + by rewrite Hmean.
Qed.

Lemma turn_hcrc : gstate f = GZ_HCRC → turned g fed f0 p0 budget (rank GZ_HCRC) (gzip_turn budget (f, p, out)).
Proof.
  intros Hg. destruct (gt_ok _ _ _ _ _ _ _ _ Hturn) as [Hst Hfl Hpart]. rewrite Hg in Hst, Hfl, Hpart. simpl in Hfl, Hpart.
  unfold gzip_turn. rewrite Hg. destruct (gzip_collect f p 2) as [[full f1] p1] eqn:Hcol.
  destruct (collected _ _ _ _ Hcol) as (c & -> & Hp & Hlen & Hc & Hfull & Hnot); [by apply Hfl|].
  destruct full; cbn [negb]; eexists; (split; [done|]); cbv beta iota.
  - symmetry in Hfull. apply bool_decide_eq_true in Hfull.
    destruct (part_done_ok (g ++ out) fed (with_field c f) p1 GZ_HCRC) as (Hok & Hrank & _ & Hdone);
      [by apply (still_less _ _ _ Hst)|by apply Hpart|].
    change (flag_of GZ_HCRC) with GZ_FHCRC in *. apply turn_goes; [exact Hg|exact Hok|exact Hp|exact Hrank|].
    intros w. rewrite Hdone. unfold gz_meaning. rewrite Hg, Hc, after_some by lia.
    change (Z.to_nat 2) with 2%nat. rewrite <- Hfull, drop_all. done.
  - destruct (Hnot eq_refl) as [-> Hshort]. apply turn_starved; [|done| |].
    + split; simpl; rewrite ?Hg; simpl; [by apply (still_less _ _ _ Hst)|lia|exact Hpart].
    + intros w. unfold gz_meaning. simpl. by rewrite Hg, Hc.
    + unfold gz_meaning. simpl. rewrite Hg, app_nil_r. unfold after. by rewrite (proj2 (Z.ltb_lt _ _)) by lia.
Qed.

Lemma turn_trailer : gstate f = GZ_TRAILER → turned g fed f0 p0 budget (rank GZ_TRAILER) (gzip_turn budget (f, p, out)).
Proof.
  intros Hg. destruct (gt_ok _ _ _ _ _ _ _ _ Hturn) as [Hst Hfl Hpart]. rewrite Hg in Hst, Hfl. simpl in Hfl.
  unfold gzip_turn. rewrite Hg. destruct (gzip_collect f p 8) as [[full f1] p1] eqn:Hcol.
  destruct (collected _ _ _ _ Hcol) as (c & -> & Hp & Hlen & Hc & Hfull & Hnot); [by apply Hfl|].
  destruct full; cbn [negb].
  - symmetry in Hfull. apply bool_decide_eq_true in Hfull. simpl field. simpl body.
    assert (Hmean : ∀ w, gz_meaning f (p ++ w) = if (le32 c =? crc (body f)) && (le32 (drop 4 c) =? isize (body f)) then Some ([], p1 ++ w) else None).
    { intros w. unfold gz_meaning. rewrite Hg, Hc. unfold trailer. rewrite length_app. rewrite (proj2 (Z.ltb_ge _ _)) by lia.
      assert (Ht : take 8 (c ++ p1 ++ w) = c) by (rewrite <- Hfull; apply take_app_length).
      assert (Hd : drop 8 (c ++ p1 ++ w) = p1 ++ w) by (rewrite <- Hfull; apply drop_app_length). by rewrite Ht, Hd. }
    destruct (le32 c =? crc (body f)); cbn [negb]; [|eexists; split; [done|]; by apply turn_fails].
    destruct (le32 (drop 4 c) =? isize (body f)); cbn [negb]; [|eexists; split; [done|]; by apply turn_fails].
    eexists. split; [done|]. destruct Hturn as [Hb Hi Hm _]. split; simpl; [done|lia|]. split.
    + by apply (still_less _ _ _ Hst).
    + intros w. rewrite Hm, Hmean. simpl. by rewrite app_nil_r.
  - destruct (Hnot eq_refl) as [-> Hshort]. eexists. split; [done|]. cbv beta iota. apply turn_starved; [|done| |].
    + split; simpl; rewrite ?Hg; simpl; [by apply (still_less _ _ _ Hst)|lia|done].
    + intros w. unfold gz_meaning. simpl. by rewrite Hg, Hc.
    + unfold gz_meaning. simpl. rewrite Hg, app_nil_r. unfold trailer. by rewrite (proj2 (Z.ltb_lt _ _)) by lia.
Qed.

Lemma turn_body : gstate f = GZ_BODY → turned g fed f0 p0 budget (rank GZ_BODY) (gzip_turn budget (f, p, out)).
Proof.
  intros Hg. pose proof Hturn as [Hb Hi Hm [Hst Hfl Hpart]]. rewrite Hg in Hst, Hpart. unfold gzip_turn. rewrite Hg.
  destruct (inflate_step_ok FMT_GZIP trailer (g ++ out) fed (body f) p (budget - Z.of_nat (length out))) as (r & -> & Hr); [lia|done|done|].
  destruct Hr as [Hrb Hri Hrm]. simpl.
  assert (Hmean : ∀ w, gz_meaning f w = bodies (body f) w) by (intros w; unfold gz_meaning; by rewrite Hg).
  assert (Hout : Z.of_nat (length (out ++ s_out r)) ≤ budget) by (rewrite length_app; lia).
  assert (Hstate : ∀ b v, body_ok (g ++ out ++ s_out r) fed b v → gz_ok (g ++ out ++ s_out r) fed (with_body b f) v).
  { intros b v Hbo. split; simpl; rewrite ?Hg; simpl; done. }
  rewrite <- app_assoc in Hrm.
  destruct (s_step r) as [why| | |] eqn:Hstep; eexists; (split; [done|]); cbv beta iota.
  - split; simpl; [done|lia|]. intros _ w. by rewrite Hm, Hmean, Hrm.
  - destruct Hrm as (Hbo & Hnil & Hmn & Hnone). split; simpl; [done|lia|]. split; [by apply Hstate|]. split.
    + intros w. rewrite Hm, Hmean, Hmn, pre_pre. unfold gz_meaning. simpl. by rewrite Hg.
    + unfold gz_meaning. simpl. by rewrite Hg, Hnil.
  - destruct Hrm as (Hbo & Hmn & Hfull). split; simpl; [done|lia|]. split; [by apply Hstate|]. split.
    + intros w. rewrite Hm, Hmean, Hmn, pre_pre. unfold gz_meaning. simpl. by rewrite Hg.
    + rewrite length_app. lia.
  - destruct Hrm as (Hbo & Hz & Hmn). split; [simpl; lia|]. split; simpl; [done|lia| |].
    + intros w. rewrite Hm, Hmean, Hmn, pre_pre. done.
    + destruct Hbo as [Hw Hh Ht _ _]. split; simpl; [|lia|done]. unfold held in Hw. rewrite Hz in Hw. simpl in Hw.
      rewrite take_0, app_nil_r in Hw. split; simpl; [exact Hw|lia|lia].
Qed.

Lemma gzip_turn_ok : turned g fed f0 p0 budget (rank (gstate f)) (gzip_turn budget (f, p, out)).
Proof.
  destruct (gstate f) eqn:Hg.
  - rewrite <- Hg. by apply turn_fixed. - by apply turn_xlen. - by apply turn_extra. - apply turn_text; [by left|done].
  - apply turn_text; [by right|done]. - by apply turn_hcrc. - by apply turn_body. - by apply turn_trailer.
Qed.

End turn.

Lemma gzip_loop_ok fuel g fed f0 p0 budget f p out :
  fed < FED_MAX → gturning g fed f0 p0 budget f p out → (rank (gstate f) ≤ fuel)%nat →
  ∃ r, gzip_loop fuel budget (f, p, out) = Some r ∧ step_ok gz_meaning gz_ok gz_over True g fed f0 p0 budget r.
Proof.
  intros Hfed. revert f p out. induction fuel as [|fuel IH]; intros f p out Ht Hr; [destruct (gstate f); simpl in Hr; lia|].
  destruct (gzip_turn_ok g fed f0 p0 budget f p out Hfed Ht) as ([[[f' p'] out']|r] & Heq & Hy); cbn [gzip_loop]; rewrite Heq; simpl.
  - destruct Hy as [Hlt Ht']. apply IH; [exact Ht'|lia].
  - by exists r.
Qed.

Lemma gzip_step_ok g fed f p budget :
  0 ≤ budget → fed < FED_MAX → gz_ok g fed f p →
  ∃ r, gzip_step f p budget = Some r ∧ step_ok gz_meaning gz_ok gz_over True g fed f p budget r.
Proof.
  intros Hb Hfed Hok. apply gzip_loop_ok; [done| |destruct (gstate f); simpl; lia].
  split; simpl; [done|done| |by rewrite app_nil_r]. intros w. by rewrite pre_nil.
Qed.

(** A member begun afresh is one of the window so far. *)
Lemma gz_fresh g fed f p w :
  still g fed f p → gz_meaning (with_field [] (with_gstate GZ_FIXED f)) w = gzip_member (window g) w.
Proof.
  intros [Hw [Hh Hl] _]. unfold gz_meaning, gzip_member. simpl. destruct (gzip_header_end w) as [v|]; [|done]. simpl.
  unfold body_meaning. simpl. unfold held. simpl. rewrite Hl, Hw.
  destruct (tinfl_meaning _ _ _ v) as [[o r]|]; [|done]. unfold add_crc, add_size. simpl. done.
Qed.

End gzip.
