(* ===== verification/CompressDecode.v ===== *)
(** * What data decodes to

    What a decoder's data decodes to as a whole: a member, and after it another
    where the format's magic follows, until the data ends or bytes that are none
    follow; that a step consumes its input, and that any codec's steps decode
    as its meaning says. *)

From S2P Require Import Prelude.
From S2P Require Import Lua.
From S2P Require Import Codecs.
From S2P Require Import Compress.
From S2P Require Import CompressSteps.
From S2P Require Import CompressInflate.
From S2P Require Import CompressGzip.

Local Open Scope Z_scope.

(** What a decoder was made as. *)
Record kind := Kind { k_op : stream_op; k_format : stream_format; k_memlimit : Z; k_log : Z; k_window : Z }.

Section members.
Context `{BzlibLaws, LzmaLaws, ZstdLaws, TinflLaws, Encoders, Memory}.

Definition plenty : Prop := bz_plenty ∧ lzma_plenty ∧ zstd_plenty ∧ ∀ n k, can_allocate n k = true.

(** Raw deflate and zlib are one member, whatever follows. *)
Definition single (k : kind) : bool := bool_decide (k_op k = OP_INFLATE) && negb (bool_decide (k_format k = FMT_GZIP)).

(** A member of all the input there is, after [g] was decoded. *)
Definition member (k : kind) (g w : bytes) : outcome :=
  match k_op k with
  | OP_BZ2 => bz2_member w
  | OP_XZ => xz_member (k_memlimit k) w
  | OP_ZSTD => zstd_member (k_log k) (k_window k) w
  | _ => gzip_member (window g) w
  end.

(** NULs that are no whole number of words are no padding. *)
Definition stray (pad : Z) : bytes := if pad mod 4 =? 0 then [] else replicate (Z.to_nat pad) 0.

Fixpoint between_loop (k : kind) (fuel : nat) (first : bool) (pad : Z) (g w : bytes) : outcome :=
  match fuel with
  | O => None
  | S fuel =>
      match w with
      | [] => if first then None else Some ([], stray pad)
      | b :: t =>
          if bool_decide (k_op k = OP_XZ) && negb first && (b =? 0) then between_loop k fuel first (pad + 1) g t
          else
            match magic_match (k_op k) w with
            | Some true =>
                if negb (pad mod 4 =? 0) then None
                else
                  match member k g w with
                  | Some (o, r) => pre o (between_loop k fuel false 0 (g ++ o) r)
                  | None => None
                  end
            | _ => if first then None else Some ([], stray pad ++ w)
            end
      end
  end.

(** What is left of the data decodes to, between members. *)
Definition between (k : kind) (first : bool) (pad : Z) (g w : bytes) : outcome := between_loop k (S (length w)) first pad g w.

(** What the data of a decoder decodes to. *)
Definition decodes (k : kind) (w : bytes) : outcome :=
  if single k then tinfl_meaning (bool_decide (k_format k = FMT_ZLIB)) tinfl_init (window []) w
  else between k true 0 [] w.

Lemma after_shorter n w v : after n w = Some v → (length v ≤ length w)%nat.
Proof. unfold after. destruct (_ <? n); [done|]. intros [= <-]. rewrite length_drop. lia. Qed.

Lemma after_nul_shorter w v : after_nul w = Some v → (length v ≤ length w)%nat.
Proof.
  revert v. induction w as [|b w IH]; intros v; simpl; [done|]. destruct (b =? 0); [intros [= <-]; lia|].
  intros Hv. specialize (IH v Hv). lia.
Qed.

Lemma skip_shorter s w v : skip s w = Some v → (length v ≤ length w)%nat.
Proof.
  destruct s; simpl; try (intros [= <-]; lia); try apply after_nul_shorter; try apply after_shorter.
  destruct (_ <? 2); [done|]. intros Hv%after_shorter. rewrite length_drop in Hv. lia.
Qed.

Lemma skips_shorter parts w v : skips parts w = Some v → (length v ≤ length w)%nat.
Proof.
  revert w. induction parts as [|s parts IH]; intros w; simpl; [intros [= <-]; lia|].
  destruct (skip s w) as [u|] eqn:Hu; simpl; [|done]. intros Hv%IH. apply skip_shorter in Hu. lia.
Qed.

(** A deflate body is at least a byte. *)
Class TinflShorter : Prop :=
  tinfl_shorter z win w o r : tinfl_meaning z tinfl_init win w = Some (o, r) → (length r < length w)%nat.

Lemma gzip_member_takes `{TinflShorter} win w o r : gzip_member win w = Some (o, r) → (length r < length w)%nat.
Proof.
  unfold gzip_member, gzip_header_end. destruct (Z.ltb_spec (Z.of_nat (length w)) 10) as [|Hlen]; [done|]. simpl.
  destruct (w !!! 2%nat =? 8); [|done]. destruct (skips _ (drop 10 w)) as [v|] eqn:Hv; simpl; [|done].
  apply skips_shorter in Hv. rewrite length_drop in Hv.
  destruct (tinfl_meaning _ _ win v) as [[o' r']|] eqn:Ht; [|done]. apply tinfl_shorter in Ht.
  unfold trailer. destruct (_ <? 8); [done|]. destruct (_ && _); [|done]. simpl. intros [= <- <-]. rewrite length_drop. lia.
Qed.

Lemma zstd_member_takes log win w o r : zstd_member log win w = Some (o, r) → (length r < length w)%nat.
Proof.
  unfold zstd_member, framed, sized. destruct (ZSTD_getFrameHeader w); try done. destruct (_ && _); [done|].
  destruct (zstd_frame log w) as [[o' r']|] eqn:Hf; [|done]. apply zstd_frame_takes in Hf. destruct (_ || _); [|done]. by intros [= <- <-].
Qed.

Context `{!TinflShorter}.

Lemma member_takes k g w o r : member k g w = Some (o, r) → (length r < length w)%nat.
Proof.
  unfold member. destruct (k_op k);
    first [apply bz2_member_takes|apply xz_member_takes|apply zstd_member_takes|apply gzip_member_takes].
Qed.

Lemma between_fuel k fuel first pad g w :
  (length w < fuel)%nat → between_loop k fuel first pad g w = between k first pad g w.
Proof.
  unfold between. remember (length w) as n eqn:Hn. revert fuel first pad g w Hn.
  induction (lt_wf n) as [n _ IH]. intros fuel first pad g w -> Hf. destruct fuel as [|fuel]; [lia|].
  destruct w as [|b t]; [done|]. cbn [between_loop length].
  destruct (_ && _ && _); [apply (IH (length t)); simpl in *; lia || done|].
  destruct (magic_match _ _) as [[|]|]; try done. destruct (negb _); [done|].
  destruct (member k g (b :: t)) as [[o r]|] eqn:Hm; [|done]. apply member_takes in Hm. simpl in Hm, Hf. f_equal.
  assert (Hr : (length r < length (b :: t))%nat) by (simpl; lia).
  assert (Hrf : (length r < fuel)%nat) by lia.
  exact (eq_trans (IH (length r) Hr fuel false 0 (g ++ o) r eq_refl Hrf) (eq_sym (IH (length r) Hr (S (length t)) false 0 (g ++ o) r eq_refl Hm))).
Qed.

(** The data between members, unfolded. *)
Lemma between_unfold k first pad g w :
  between k first pad g w =
  match w with
  | [] => if first then None else Some ([], stray pad)
  | b :: t =>
      if bool_decide (k_op k = OP_XZ) && negb first && (b =? 0) then between k first (pad + 1) g t
      else
        match magic_match (k_op k) w with
        | Some true =>
            if negb (pad mod 4 =? 0) then None
            else match member k g w with Some (o, r) => pre o (between k false 0 (g ++ o) r) | None => None end
        | _ => if first then None else Some ([], stray pad ++ w)
        end
  end.
Proof.
  unfold between at 1. cbn [between_loop]. destruct w as [|b t]; [done|].
  destruct (_ && _ && _); [by apply between_fuel; simpl; lia|].
  destruct (magic_match _ _) as [[|]|]; try done. destruct (negb _); [done|].
  destruct (member k g (b :: t)) as [[o r]|] eqn:Hm; [|done]. apply member_takes in Hm. f_equal. by apply between_fuel.
Qed.

(** ** The magic *)

Lemma magic_loop_app magic p w b : magic_loop magic p = Some b → magic_loop magic (p ++ w) = Some b.
Proof.
  revert p. induction magic as [|ok magic IH]; intros [|x p]; simpl; try done. destruct (ok x); [apply IH|done].
Qed.

Lemma zstd_magic_none k w : zstd_magic_loop k w false false = Some false.
Proof. revert k. induction w as [|x w IH]; intros k; simpl; case_bool_decide; [done|done|done|apply IH]. Qed.

Lemma zstd_magic_app k p f s w b : zstd_magic_loop k p f s = Some b → zstd_magic_loop k (p ++ w) f s = Some b.
Proof.
  revert k f s. induction p as [|x p IH]; intros k f s; simpl; (case_bool_decide; [|]).
  - intros [= <-]. destruct w; simpl; by rewrite bool_decide_eq_true_2.
  - destruct (f || s) eqn:Hfs; [done|]. apply orb_false_iff in Hfs as [-> ->]. intros [= <-]. apply zstd_magic_none.
  - done.
  - apply IH.
Qed.

(** More bytes do not change what a magic is taken for. *)
Lemma magic_match_app o p w b : magic_match o p = Some b → magic_match o (p ++ w) = Some b.
Proof. unfold magic_match. case_decide; [apply zstd_magic_app|apply magic_loop_app]. Qed.

End members.

(** * What a step leaves of its input

    It is always the end of it, whatever the libraries answer. *)

(** What each turn keeps, the answer has. *)
Lemma until_keeps {S R} (turn : S → S + R) (I : S → Prop) (Q : R → Prop) p s r :
  (∀ s, I s → match turn s with inl s' => I s' | inr r => Q r end) → I s → until turn p s = inr r → Q r.
Proof.
  intros Hturn. rewrite until_is_nat. revert s. induction (Pos.to_nat p) as [|n IH]; intros s HI; simpl; [done|].
  specialize (Hturn s HI). destruct (turn s) as [s'|r']; simpl; [by apply IH|]. by intros [= <-].
Qed.

Lemma suffix_drop n (p q : bytes) : p `suffix_of` q → drop n p `suffix_of` q.
Proof. intros Hp. etrans; [|exact Hp]. exists (take n p). by rewrite take_drop. Qed.

Lemma suffix_is_drop (p q : bytes) : p `suffix_of` q → p = drop (length q - length p) q.
Proof. intros [k ->]. rewrite length_app, Nat.add_sub, drop_app_length. done. Qed.

Create HintDb ends.
#[export] Hint Resolve suffix_drop suffix_nil : ends.
#[export] Hint Extern 0 (?p `suffix_of` ?p) => reflexivity : ends.

(** Every way through a turn leaves an end of the input. *)
Ltac by_ends := intros; repeat (case_match; simplify_eq); simpl in *; simplify_option_eq; eauto with ends.

Section suffix.
Context `{Bzlib, Lzma, Zstd, Tinfl, Encoders, Memory}.

Lemma bz2_step_suffix bz p budget r : bz2_step bz p budget = Some r → s_input r `suffix_of` p.
Proof.
  unfold bz2_step. destruct (until _ _ _) as [|r'] eqn:Hu; [done|]. intros [= <-].
  apply (until_keeps _ (λ s, s.1.2 `suffix_of` p) (λ r, s_input r `suffix_of` p) _ _ _) in Hu; [done| |done]. intros [[bz' q] out] Hq. simpl in Hq.
  unfold bz2_turn. destruct (BZ2_bzDecompress _ _ _) as [[[bz'' used] produced] rc]. by_ends.
Qed.

Lemma xz_step_suffix z p budget r : xz_step z p budget = Some r → s_input r `suffix_of` p.
Proof.
  unfold xz_step. destruct (until _ _ _) as [|r'] eqn:Hu; [done|]. intros [= <-].
  apply (until_keeps _ (λ s, s.1.2 `suffix_of` p) (λ r, s_input r `suffix_of` p) _ _ _) in Hu; [done| |done]. intros [[bz' q] out] Hq. simpl in Hq.
  unfold xz_turn. destruct (lzma_code _ _ _) as [[[bz'' used] produced] rc]. by_ends.
Qed.

Lemma zstd_body_suffix z p budget r : zstd_body z p budget = Some r → s_input r `suffix_of` p.
Proof.
  unfold zstd_body. destruct (until _ _ _) as [|r'] eqn:Hu; [done|]. intros [= <-].
  apply (until_keeps _ (λ s, s.1.2 `suffix_of` p) (λ r, s_input r `suffix_of` p) _ _ _) in Hu; [done| |done]. intros [[z' q] out] Hq. simpl in Hq.
  unfold zstd_turn. destruct (ZSTD_decompressStream _ _ _) as [[[d used] produced] rc]. by_ends.
Qed.

Lemma zstd_step_suffix z p budget r : zstd_step z p budget = Some r → s_input r `suffix_of` p.
Proof.
  unfold zstd_step. case_match; [by intros [= <-]|]. case_match; [apply zstd_body_suffix|].
  case_match; try (by intros [= <-]). case_match; [by intros [= <-]|apply zstd_body_suffix].
Qed.

Lemma inflate_step_suffix fmt f p budget r : inflate_step fmt f p budget = Some r → s_input r `suffix_of` p.
Proof.
  unfold inflate_step. destruct (until _ _ _) as [|r'] eqn:Hu; [done|]. intros [= <-].
  apply (until_keeps _ (λ s, s.1.1.2 `suffix_of` p) (λ r, s_input r `suffix_of` p) _ _ _) in Hu; [done| |done]. intros [[[f' q] starved] out] Hq. simpl in Hq.
  unfold inflate_turn. destruct (flush_held _ _ _) as [f1 out1].
  destruct (tinfl_decompress _ _ _ _ _ _) as [[[t used] produced] status]. by_ends.
Qed.

Lemma after_nul_suffix p q : after_nul p = Some q → q `suffix_of` p.
Proof. revert q. induction p as [|b p IH]; intros q; simpl; [done|]. case_match; intros Hq; [simplify_eq|apply IH in Hq]; by apply suffix_cons_r. Qed.

Lemma gzip_turn_suffix budget f p out x :
  gzip_turn budget (f, p, out) = Some x →
  match x with inl (_, p', _) => p' `suffix_of` p | inr r => s_input r `suffix_of` p end.
Proof.
  assert (Hc : ∀ need full f' p', gzip_collect f p need = (full, f', p') → p' `suffix_of` p)
    by (unfold gzip_collect; intros; simplify_eq; auto with ends).
  unfold gzip_turn. destruct (gstate f).
  1,2,6,8: destruct (gzip_collect f p _) as [[full f'] p'] eqn:Hg; apply Hc in Hg; by_ends.
  - by_ends.
  - destruct (after_nul p) as [q|] eqn:Hq; intros; simplify_eq; [by apply after_nul_suffix|apply suffix_nil].
  - destruct (after_nul p) as [q|] eqn:Hq; intros; simplify_eq; [by apply after_nul_suffix|apply suffix_nil].
  - destruct (inflate_step _ _ _ _) as [r|] eqn:Hr; simpl; [|done]. apply inflate_step_suffix in Hr. by_ends.
Qed.

Lemma gzip_loop_suffix fuel budget f p out r : gzip_loop fuel budget (f, p, out) = Some r → s_input r `suffix_of` p.
Proof.
  revert f p out. induction fuel as [|fuel IH]; intros f p out; cbn [gzip_loop]; [done|].
  destruct (gzip_turn budget (f, p, out)) as [x|] eqn:Hx; simpl; [|done]. apply gzip_turn_suffix in Hx.
  destruct x as [[[f' p'] out']|r']; [|by intros [= <-]]. intros Hr%IH. by etrans.
Qed.

(** Whatever the codec. *)
Lemma member_step_suffix s p budget r : member_step s p budget = Some r → s_input r `suffix_of` p.
Proof.
  unfold member_step, gzip_step. destruct (codec s) as [f|[bz|]|[z|]|z| | | | | ]; try done.
  - case_decide; intros (r' & Hr & ->)%fmap_Some; [by apply gzip_loop_suffix in Hr|by apply inflate_step_suffix in Hr].
  - destruct (bz2_step bz p budget) as [r'|] eqn:Hr; simpl; [|done]. apply bz2_step_suffix in Hr. by_ends.
  - intros (r' & Hr & ->)%fmap_Some. by apply xz_step_suffix in Hr.
  - intros (r' & Hr & ->)%fmap_Some. by apply zstd_step_suffix in Hr.
Qed.

End suffix.

(** * Decoding, whatever the codec

    A stream stands for what is left of its data to decode, in the phase it is
    in; [decode] ends and moves along that, and within its budget. *)

(** A step's codec seen as another. *)
Lemma step_ok_restate {X Y} (h : X → Y) m ok over (P : Prop) m' ok' over' (P' : Prop) g fed c p budget r :
  (∀ x w, m' (h x) w = m x w) → (∀ g x p, ok g fed x p → ok' g fed (h x) p) → (∀ g x p, over g fed x p → over' g fed (h x) p) →
  (P' → P) → step_ok m ok over P g fed c p budget r → step_ok m' ok' over' P' g fed (h c) p budget (restate h r).
Proof.
  intros Hm Hok Hover HP [Hb Hi Hmv]. split; [done|done|]. unfold refuses in *. simpl. destruct (s_step r).
  - intros Hp w. rewrite Hm. by apply Hmv, HP.
  - destruct Hmv as (H1 & H2 & H3). split; [auto|]. split; [|by rewrite Hm]. intros w. by rewrite !Hm.
  - destruct Hmv as (H1 & H2 & H3). split; [auto|]. split; [|done]. intros w. by rewrite !Hm.
  - destruct Hmv as (H1 & H2). split; [auto|]. intros w. by rewrite Hm.
Qed.

Section decode.
Context `{BzlibLaws, LzmaLaws, ZstdLaws, TinflLaws, Encoders, Memory, !TinflShorter}.
Context (k : kind).

(** ** The codec of a member *)

(** A body by itself is followed by nothing of its own. *)
Definition bare (c n : Z) (w : bytes) : outcome := Some ([], w).

Definition codec_meaning (c : codec_state) (w : bytes) : outcome :=
  match c with
  | Inflater f => if decide (k_format k = FMT_GZIP) then gz_meaning f w else body_meaning (k_format k) bare (body f) w
  | Bz2Decoder (Some bz) => bz_meaning bz w
  | XzDecoder (Some z) => lzma_meaning z w
  | ZstdDecoder z => z_meaning z w
  | _ => None
  end.

(** The codec during a member. *)
Definition codec_ok (g : bytes) (fed : Z) (c : codec_state) (p : bytes) : Prop :=
  match k_op k, c with
  | OP_INFLATE, Inflater f => if decide (k_format k = FMT_GZIP) then gz_ok g fed f p else body_ok g fed (body f) p
  | OP_BZ2, Bz2Decoder (Some _) => True
  | OP_XZ, XzDecoder (Some _) => True
  | OP_ZSTD, ZstdDecoder z => zok (k_log k) (k_window k) g fed z p
  | _, _ => False
  end.

(** The codec between members. *)
Definition codec_over (g : bytes) (fed : Z) (c : codec_state) (p : bytes) : Prop :=
  match k_op k, c with
  | OP_INFLATE, Inflater f => if decide (k_format k = FMT_GZIP) then still g fed f p else True
  | OP_BZ2, Bz2Decoder _ => True
  | OP_XZ, XzDecoder _ => True
  | OP_ZSTD, ZstdDecoder z => zover (k_log k) (k_window k) g fed z p
  | _, _ => False
  end.

Lemma body_step_ok g fed f p budget r :
  body_stepped (k_format k) bare g fed f p budget r →
  step_ok (body_meaning (k_format k) bare) body_ok any True g fed f p budget r.
Proof.
  intros [Hb Hi Hmv]. split; [done|done|]. destruct (s_step r).
  - done.
  - destruct Hmv as (E1 & E2 & E3 & E4). split; [done|]. split; [done|]. by rewrite E2.
  - done.
  - destruct Hmv as (E1 & E2 & E3). split; [done|]. intros w. rewrite E3. unfold bare. by rewrite pre_some, app_nil_r.
Qed.

(** Each decoder's step, the stream's. *)
Lemma member_step_ok g fed s p budget :
  0 ≤ budget → fed < FED_MAX → format s = k_format k → codec_ok g fed (codec s) p →
  ∃ r, member_step s p budget = Some r ∧ step_ok codec_meaning codec_ok codec_over plenty g fed (codec s) p budget r.
Proof.
  intros Hb Hfed Hfmt Hok. unfold member_step. rewrite Hfmt. unfold codec_ok in Hok.
  destruct (k_op k) eqn:Hop, (codec s) as [f|[bz|]|[z|]|z| | | | | ] eqn:Hc; try done.
  - case_decide as Hg.
    + destruct (gzip_step_ok g fed f p budget Hb Hfed Hok) as (r & -> & Hr). simpl. eexists. split; [done|].
      revert Hr. apply step_ok_restate; unfold codec_meaning, codec_ok, codec_over; rewrite ?Hop; intros; by rewrite ?decide_True.
    + destruct (inflate_step_ok (k_format k) bare g fed (body f) p budget Hb Hfed Hok) as (r & -> & Hr). simpl. eexists. split; [done|].
      replace (Inflater f) with (Inflater (with_body (body f) f)) by (by destruct f).
      apply body_step_ok in Hr. revert Hr.
      apply (step_ok_restate (λ b, Inflater (with_body b f))); unfold codec_meaning, codec_ok, codec_over; rewrite ?Hop; intros; by rewrite ?decide_False.
  - destruct (bz2_step_ok g fed bz p budget Hb) as (r & -> & Hr). simpl. eexists. split; [done|].
    destruct r as [st bz' p' out]. destruct Hr as [E1 E2 Hmv]. simpl in *.
    destruct st; (split; [done|done|]); simpl; unfold codec_ok, codec_over; rewrite ?Hop; try done.
    intros HP. apply Hmv, HP.
  - destruct (xz_step_ok g fed z p budget Hb) as (r & -> & Hr). simpl. eexists. split; [done|].
    revert Hr. apply (step_ok_restate (λ z, XzDecoder (Some z))); unfold codec_meaning, codec_ok, codec_over; rewrite ?Hop; try done. intros HP. apply HP.
  - destruct (zstd_step_ok (k_log k) (k_window k) g fed z p budget Hb Hok) as (r & -> & Hr). simpl. eexists. split; [done|].
    revert Hr. apply step_ok_restate; unfold codec_meaning, codec_ok, codec_over; rewrite ?Hop; try done. intros HP. apply HP.
Qed.

(** A codec begun again stands for a member. *)
Lemma start_member_ok g fed s p :
  op s = k_op k → memlimit s = k_memlimit k → single k = false → codec_over g fed (codec s) p →
  match start_member s with
  | inl s' => ∃ c, (s' = with_codec c s ∨ s' = asked_more (with_codec c s)) ∧ codec_ok g fed c p ∧ ∀ w, codec_meaning c w = member k g w
  | inr _ => plenty → False
  end.
Proof.
  intros Hop Hmem Hsingle Hover. unfold start_member, codec_over in *. unfold single in Hsingle.
  destruct (k_op k) eqn:Hk, (codec s) as [f|bz|z|z| | | | | ] eqn:Hc; try done.
  - apply andb_false_iff in Hsingle as [[]%bool_decide_eq_false|Hf%negb_false_iff%bool_decide_eq_true]; [done|].
    rewrite decide_True in Hover by done. eexists. split; [by left|]. unfold codec_ok, codec_meaning, member. rewrite Hk.
    rewrite decide_True by done. split; [|intros w; rewrite decide_True by done; by apply (gz_fresh g fed f p)].
    split; simpl; [|lia|done]. destruct Hover; by split.
  - destruct (BZ2_bzDecompressInit (asks s)) as [bz'|] eqn:Hi.
    + eexists. split; [by right|]. unfold codec_ok, codec_meaning, member. rewrite Hk. split; [done|]. intros w. by apply (bz_start (asks s)).
    + intros (HP & _). destruct HP as [HP _]. destruct (HP (asks s)) as [? Hs]. by rewrite Hs in Hi.
  - destruct (lzma_stream_decoder _ _ _) as [z' rc] eqn:Hi. destruct (Z.eqb_spec rc LZMA_OK) as [->|Hrc].
    + eexists. split; [by right|]. unfold codec_ok, codec_meaning, member. rewrite Hk. split; [done|]. intros w.
      rewrite <- Hmem. by apply (lzma_start (asks s) (default LZMA_STREAM_INIT z)).
    + intros (_ & HP & _). destruct HP as [HP _]. specialize (HP (asks s) (default LZMA_STREAM_INIT z) (memlimit s)). by rewrite Hi in HP.
  - eexists. split; [by left|]. unfold codec_ok, codec_meaning, member. rewrite Hk. destruct Hover as [Hw Hl Hd Hr].
    split; [split; simpl; try done; by rewrite Hd|]. intros w. unfold z_meaning, zstd_member. simpl. rewrite Hw. f_equal.
    rewrite <- Hl. by apply zstd_frame_ready.
Qed.

(** More input comes. *)
Lemma codec_ok_fed g fed c p v : codec_ok g fed c p → codec_ok g (fed + Z.of_nat (length v)) c (p ++ v).
Proof.
  unfold codec_ok. destruct (k_op k), c as [f|[bz|]|[z|]|z| | | | | ]; try done; [|by apply zok_more].
  assert (Hbody : ∀ b, body_ok g fed b p → body_ok g (fed + Z.of_nat (length v)) b (p ++ v)).
  { intros b [Ew Eh (Et & Ea & Eb) Eg Es]. split; try done. split; [done|]. split; [done|]. rewrite length_app. lia. }
  case_decide; [|by apply Hbody]. intros [Es Ef Ep]. split; [|done|done].
  destruct (gstate f); try (by apply Hbody); destruct Es as [Ew Eh El]; split; try done; rewrite length_app; lia.
Qed.

Lemma codec_over_fed g fed fed' c p p' : codec_over g fed c p → Z.of_nat (length p') ≤ fed' → codec_over g fed' c p'.
Proof.
  unfold codec_over. destruct (k_op k), c as [f|[bz|]|[z|]|z| | | | | ]; try done.
  - case_decide; [|done]. intros [Ew Eh El] Hp. by split.
  - intros [Ew El Ed Er] _. by split.
Qed.

(** ** The stream *)

(** What follows what a member decodes to. *)
Definition member_then (g : bytes) (m : outcome) : outcome :=
  match m with
  | Some (o, r) => pre o (if single k then Some ([], r) else between k false 0 (g ++ o) r)
  | None => None
  end.

Lemma member_then_pre g o m : member_then g (pre o m) = pre o (member_then (g ++ o) m).
Proof. destruct m as [[o' r]|]; simpl; [|done]. by rewrite pre_pre, app_assoc. Qed.

(** What the rest of the data decodes to, [g] gone out. *)
Definition stream_meaning (g : bytes) (s : stream) (w : bytes) : outcome :=
  match ph s with
  | PH_TRAILING => Some ([], b_data (rest s) ++ w)
  | PH_BETWEEN => between k (members s =? 0) (padding s) g w
  | PH_MEMBER => member_then g (codec_meaning (codec s) w)
  end.

(** The stream when [g] went out, [p] is left of what it was fed, and it was
    fed at most [fed] bytes. *)
Record stream_ok (g : bytes) (fed : Z) (s : stream) (p : bytes) : Prop := {
  ok_op : op s = k_op k;
  ok_format : format s = k_format k;
  ok_memlimit : memlimit s = k_memlimit k;
  ok_counts : 0 ≤ members s ∧ 0 ≤ padding s;
  ok_ended : ended s = true → ph s = PH_TRAILING;
  ok_fed : Z.of_nat (length (b_data (rest s))) + padding s + Z.of_nat (length p) ≤ fed;
  ok_phase : match ph s with
    | PH_TRAILING => padding s = 0
    | PH_BETWEEN => b_data (rest s) = [] ∧ single k = false ∧ codec_over g fed (codec s) p
    | PH_MEMBER => b_data (rest s) = [] ∧ padding s = 0 ∧ codec_ok g fed (codec s) p
    end }.

(** ** Appending *)

#[local] Opaque room_loop.

Lemma bytes_append_data asked b data b' n : bytes_append asked b data = (Some b', n) → b_data b' = b_data b ++ data.
Proof.
  unfold bytes_append. destruct (Z.eqb_spec (Z.of_nat (length data)) 0) as [Hz|_].
  { intros [= <- _]. destruct data; [by rewrite app_nil_r|done]. }
  case_match; [done|]. case_match; [case_match; [|done]|]; intros Hb'; injection Hb' as <- _; reflexivity.
Qed.

Lemma bytes_append_made asked b data n :
  bytes_append asked b data = (None, n) → plenty → Z.of_nat (length (b_data b) + length data) ≤ SIZE_MAX → False.
Proof.
  unfold bytes_append. case_match; [done|]. destruct (Z.ltb_spec (SIZE_MAX - Z.of_nat (length (b_data b))) (Z.of_nat (length data))); [lia|].
  case_match; [|done]. intros Hn (_ & _ & _ & Hmem). rewrite Hmem in Hn. done.
Qed.

(** What appends to [rest] leave. *)
Definition frame (s : stream) :=
  (op s, format s, memlimit s, members s, (finished s, more s, in_ s, in_pos s), (ended s, ph s, padding s, codec s)).
Definition pushed (s : stream) (v : bytes) (s' : stream) : Prop := frame s' = frame s ∧ b_data (rest s') = b_data (rest s) ++ v.

Lemma rest_append_ok data s s' (made : bool) :
  rest_append data s = (s', made) →
  if made then pushed s data s' else plenty → Z.of_nat (length (b_data (rest s))) + Z.of_nat (length data) ≤ SIZE_MAX → False.
Proof.
  unfold rest_append. destruct (bytes_append _ _ _) as [[b|] n] eqn:Hb; intros Hs; injection Hs as <- <-.
  - apply bytes_append_data in Hb. by destruct n.
  - intros HP Hl. eapply bytes_append_made; [done|done|lia].
Qed.

Lemma zeros_loop_ok fuel left_ s s' (made : bool) :
  zeros_loop fuel left_ s = (s', made) → left_ ≤ Z.of_nat fuel →
  if made then pushed s (replicate (Z.to_nat left_) 0) s'
  else plenty → Z.of_nat (length (b_data (rest s))) + Z.max 0 left_ ≤ SIZE_MAX → False.
Proof.
  revert left_ s. induction fuel as [|fuel IH]; intros left_ s; cbn [zeros_loop].
  { intros Hs Hl. injection Hs as <- <-. replace (Z.to_nat left_) with 0%nat by lia. split; [done|]. simpl. by rewrite app_nil_r. }
  destruct (Z.ltb_spec 0 left_) as [Hpos|Hz]; intros Hs Hl.
  2:{ injection Hs as <- <-. replace (Z.to_nat left_) with 0%nat by lia. split; [done|]. simpl. by rewrite app_nil_r. }
  set (m := if left_ <? 4 then left_ else 4) in *. assert (Hm : 0 < m ≤ left_ ∧ (left_ < 4 → m = left_) ∧ (4 ≤ left_ → m = 4)) by (subst m; zcases; lia).
  destruct (rest_append _ s) as [s1 made1] eqn:Ha. apply rest_append_ok in Ha. rewrite length_replicate in Ha.
  destruct made1.
  - destruct Ha as [Hf1 Hr1]. specialize (IH (left_ - 4) s1 Hs ltac:(lia)). destruct made.
    + destruct IH as [Hf2 Hr2]. split; [by etrans|]. rewrite Hr2, Hr1, <- app_assoc, <- replicate_add. do 2 f_equal. lia.
    + intros HP Hl'. apply IH; [done|]. rewrite Hr1, length_app, length_replicate. lia.
  - injection Hs as <- <-. intros HP Hl'. apply Ha; [done|lia].
Qed.

(** The bytes that are no member: what follows them is only kept. *)
Lemma enter_trailing_ok s s' (made : bool) :
  enter_trailing s = (s', made) → 0 ≤ padding s →
  if made then pushed (with_ended (with_ph PH_TRAILING (with_padding 0 s))) (stray (padding s)) s'
  else plenty → Z.of_nat (length (b_data (rest s))) + padding s ≤ SIZE_MAX → False.
Proof.
  unfold enter_trailing, stray. intros Hs Hp. destruct (padding s mod 4 =? 0).
  - cbn [negb] in Hs. injection Hs as <- <-. split; [done|]. simpl. by rewrite app_nil_r.
  - cbn [negb] in Hs. destruct (zeros_loop _ _ s) as [s1 made1] eqn:Hz. apply zeros_loop_ok in Hz; [|lia]. destruct made1.
    + injection Hs as <- <-. destruct Hz as [Hf Hr]. split; [|by simpl]. unfold frame in *. simpl. congruence.
    + injection Hs as <- <-. intros HP Hl. apply Hz; [done|lia].
Qed.

(** ** Turns *)

Section turn.
Context (g : bytes) (fed : Z) (s0 : stream) (p0 : bytes) (budget : Z) (at_end : bool).
Context (Hfed : fed < FED_MAX).

(** How many turns are left: a member just begun takes some of its input. *)
Definition turns (n : nat) (g' : bytes) (s : stream) (p : bytes) : Prop :=
  match ph s with
  | PH_TRAILING => n = (2 * length p)%nat
  | PH_BETWEEN => n = (2 * length p + 1)%nat
  | PH_MEMBER => n = (2 * length p + 2)%nat ∨ n = (2 * length p)%nat ∧ ∀ w, codec_meaning (codec s) w = member k g' w
  end.

(** The loop's invariant. Where the data is at its end, no more is to come. *)
Record decoding (n : nat) (s : stream) (p out : bytes) : Prop := {
  de_budget : Z.of_nat (length out) ≤ budget;
  de_suffix : p `suffix_of` p0;
  de_meaning w : (at_end = true → w = []) → stream_meaning g s0 (p0 ++ w) = pre out (stream_meaning (g ++ out) s (p ++ w));
  de_ok : stream_ok (g ++ out) fed s p;
  de_same : (in_ s, in_pos s, finished s, more s) = (in_ s0, in_pos s0, finished s0, false);
  de_turns : turns n (g ++ out) s p }.

(** What it comes to: unless output is left for want of room, all there is of
    it went out. *)
Definition decode_ok (d : decoded) : Prop :=
  match d with
  | Decoded s p out =>
      Z.of_nat (length out) ≤ budget ∧ p `suffix_of` p0 ∧
      (∀ w, (at_end = true → w = []) → stream_meaning g s0 (p0 ++ w) = pre out (stream_meaning (g ++ out) s (p ++ w))) ∧
      stream_ok (g ++ out) fed s p ∧ (in_ s, in_pos s, finished s) = (in_ s0, in_pos s0, finished s0) ∧
      (more s = true → Z.of_nat (length out) = budget) ∧
      (more s = false → ∀ o r, stream_meaning (g ++ out) s p = Some (o, r) → o = [] ∧ ph s ≠ PH_MEMBER) ∧
      (ph s = PH_TRAILING → p = []) ∧ (at_end = true → ph s = PH_BETWEEN → p = [])
  | Failed _ _ => plenty → ∀ w, (at_end = true → w = []) → stream_meaning g s0 (p0 ++ w) = None
  end.

(** A turn's end. *)
Definition turned (n : nat) (x : (stream * bytes * bytes) + option decoded) : Prop :=
  match x with
  | inl (s, p, out) => ∃ m, (m < n)%nat ∧ decoding m s p out
  | inr d => ∃ d', d = Some d' ∧ decode_ok d'
  end.

Context (n : nat) (s : stream) (p out : bytes) (Hde : decoding n s p out).

Lemma turn_trailing : ph s = PH_TRAILING → turned n (decode_turn at_end budget (s, p, out)).
Proof.
  intros Hph. destruct Hde as [Hb Hs Hm Hok Hsame Ht]. destruct Hok as [E1 E2 E3 E4 Eend E5 E6]. rewrite Hph in E6.
  unfold decode_turn. rewrite Hph. destruct (rest_append p s) as [s1 made] eqn:Ha. apply rest_append_ok in Ha.
  assert (HM : FED_MAX < SIZE_MAX) by done. destruct made; (eexists; split; [done|]).
  - destruct Ha as [Hf Hr]. unfold frame in Hf. simplify_eq. simpl in *.
    assert (Hph1 : ph s1 = PH_TRAILING) by congruence.
    split; [done|]. split; [apply suffix_nil|]. split; [|split; [|split; [congruence|split; [congruence|split]]]].
    + intros w Hw. rewrite Hm by done. unfold stream_meaning. rewrite Hph, Hph1, Hr, app_assoc. done.
    + split; try congruence; [|by rewrite Hph1; congruence]. rewrite Hr, length_app. simpl. lia.
    + unfold stream_meaning. rewrite Hph1. intros _ o r [= <- _]. done.
    + done.
  - intros HP w Hw. exfalso. apply Ha; [done|lia].
Qed.

Lemma end_turns (r : stepped codec_state) :
  ph s = PH_MEMBER → s_step r = STEP_END → (length (s_input r) ≤ length p)%nat →
  (∀ w, codec_meaning (codec s) (p ++ w) = Some (s_out r, s_input r ++ w)) → (2 * length (s_input r) + 1 < n)%nat.
Proof.
  intros Hph Hend Hl Hm. pose proof (de_turns _ _ _ _ Hde) as Ht. unfold turns in Ht. rewrite Hph in Ht.
  destruct Ht as [->|[-> Hfresh]]; [lia|]. specialize (Hm []). rewrite !app_nil_r, Hfresh in Hm. apply member_takes in Hm. lia.
Qed.

(** The codec of a member moves on. *)
Lemma member_moves (r : stepped codec_state) w :
  ph s = PH_MEMBER → (at_end = true → w = []) →
  codec_meaning (codec s) (p ++ w) = pre (s_out r) (codec_meaning (s_state r) (s_input r ++ w)) →
  stream_meaning g s0 (p0 ++ w)
  = pre (out ++ s_out r) (member_then (g ++ out ++ s_out r) (codec_meaning (s_state r) (s_input r ++ w))).
Proof.
  intros Hph Hw Hc. rewrite (de_meaning _ _ _ _ Hde) by done. unfold stream_meaning at 1. rewrite Hph, Hc.
  by rewrite member_then_pre, pre_pre, <- app_assoc.
Qed.

Lemma turn_member : ph s = PH_MEMBER → turned n (decode_turn at_end budget (s, p, out)).
Proof.
  intros Hph. pose proof Hde as [Hb Hs Hm Hok Hsame Ht]. pose proof Hok as [E1 E2 E3 E4 Eend E5 E6]. rewrite Hph in E6.
  destruct E6 as (Erest & Epad & Ecodec). assert (HM : FED_MAX < SIZE_MAX) by done.
  destruct (member_step_ok (g ++ out) fed s p (budget - Z.of_nat (length out)) ltac:(lia) Hfed E2 Ecodec) as (r & Hr & Hstep).
  unfold decode_turn. rewrite Hph, Hr. apply member_step_suffix in Hr. pose proof (step_budget _ _ _ _ _ _ _ _ _ _ Hstep) as Hbr.
  pose proof (step_input _ _ _ _ _ _ _ _ _ _ Hstep) as Hir. pose proof (step_moves _ _ _ _ _ _ _ _ _ _ Hstep) as Hmv.
  rewrite <- app_assoc in Hmv.
  assert (Hsuf : s_input r `suffix_of` p0) by (by etrans). clear Hstep.
  destruct (s_step r) eqn:Hst.
  - eexists. split; [done|]. intros HP w Hw. rewrite Hm by done. unfold stream_meaning. rewrite Hph. by rewrite Hmv.
  - destruct Hmv as (Hc & Hmean & Hnone). eexists. split; [done|]. unfold decode_ok.
    split; [rewrite length_app; lia|]. split; [done|]. split; [|split; [|split; [|split; [|split]]]].
    + intros w Hw. unfold stream_meaning at 2. simpl. rewrite Hph. by apply member_moves.
    + split; simpl; try done; [lia|]. by rewrite Hph.
    + simpl. congruence.
    + simpl. congruence.
    + intros _ o v. unfold stream_meaning. simpl. by rewrite Hph, Hnone.
    + split; simpl; congruence.
  - destruct Hmv as (Hc & Hmean & Hfull). eexists. split; [done|]. unfold decode_ok.
    split; [rewrite length_app; lia|]. split; [done|]. split; [|split; [|split; [|split; [|split]]]].
    + intros w Hw. unfold stream_meaning at 2. simpl. rewrite Hph. by apply member_moves.
    + split; simpl; try done; [lia|]. by rewrite Hph.
    + simpl. congruence.
    + intros _. rewrite length_app. lia.
    + done.
    + split; simpl; congruence.
  - destruct Hmv as (Hc & Hmean). pose proof (end_turns r Hph Hst Hir Hmean) as Hn.
    assert (Hall : ∀ w, (at_end = true → w = []) → stream_meaning g s0 (p0 ++ w)
      = pre (out ++ s_out r) (if single k then Some ([], s_input r ++ w) else between k false 0 (g ++ out ++ s_out r) (s_input r ++ w))).
    { intros w Hw. rewrite Hm by done. unfold stream_meaning. rewrite Hph, Hmean. cbn [member_then].
      by rewrite pre_pre, <- app_assoc. }
    replace (bool_decide (op _ = OP_INFLATE) && _) with (single k) by (unfold single; simpl; by rewrite E1, E2).
    destruct (single k) eqn:Hsingle.
    + destruct (enter_trailing _) as [s1 made] eqn:He. apply enter_trailing_ok in He; [|simpl; lia]. destruct made.
      * destruct He as [Hf Hrest]. unfold frame in Hf. simpl in Hf, Hrest. simplify_eq. rewrite Erest, Epad in Hrest. simpl in Hrest.
        exists (2 * length (s_input r))%nat. split; [lia|].
        assert (Hph1 : ph s1 = PH_TRAILING) by congruence. assert (Hpad1 : padding s1 = 0) by congruence.
        split; [rewrite length_app; lia|done| |split; try congruence|simpl; congruence|unfold turns; by rewrite Hph1].
        -- intros w Hw. rewrite Hall by done. unfold stream_meaning. by rewrite Hph1, Hrest.
        -- split; [|lia]. replace (members s1) with (members s + 1) by congruence. lia.
        -- rewrite Hrest, Hpad1. simpl. lia.
        -- by rewrite Hph1.
      * eexists. split; [done|]. intros HP w Hw. exfalso. apply He; [done|]. simpl. rewrite Erest. simpl. lia.
    + exists (2 * length (s_input r) + 1)%nat. split; [done|].
      split; [rewrite length_app; lia|done| |split; simpl; try done; first [lia|intros He%Eend; congruence]|simpl; congruence|done].
      intros w Hw. rewrite Hall by done. unfold stream_meaning. simpl. rewrite (proj2 (Z.eqb_neq _ _)) by lia. by rewrite Epad.
Qed.

(** Bytes that are no member end the data. *)
Lemma turn_leaves why :
  ph s = PH_BETWEEN →
  (∀ w, (at_end = true → w = []) → between k (members s =? 0) (padding s) (g ++ out) (p ++ w)
    = if members s =? 0 then None else Some ([], stray (padding s) ++ p ++ w)) →
  turned n (if members s =? 0 then inr (Some (Failed s why))
    else match enter_trailing s with (s', true) => inl (s', p, out) | (s', false) => inr (Some (Failed s' oom)) end).
Proof.
  intros Hph Hleft. pose proof Hde as [Hb Hs Hm Hok Hsame Ht]. pose proof Hok as [E1 E2 E3 E4 Eend E5 E6]. rewrite Hph in E6.
  destruct E6 as (Erest & Esingle & Ecodec). assert (HM : FED_MAX < SIZE_MAX) by done.
  unfold turns in Ht. rewrite Hph in Ht. unfold stream_meaning at 2 in Hm. rewrite Hph in Hm.
  destruct (members s =? 0).
  { eexists. split; [done|]. intros _ w Hw. by rewrite Hm, Hleft. }
  destruct (enter_trailing s) as [s1 made] eqn:He. apply enter_trailing_ok in He; [|lia]. destruct made.
  - destruct He as [Hf Hrest]. unfold frame in Hf. simpl in Hf, Hrest. rewrite Erest in Hrest. simpl in Hrest.
    assert (Hph1 : ph s1 = PH_TRAILING) by congruence. assert (Hpad1 : padding s1 = 0) by congruence.
    assert (Hmem1 : members s1 = members s) by congruence.
    exists (2 * length p)%nat. split; [lia|]. split; [done|done| |split; try congruence|congruence|unfold turns; by rewrite Hph1].
    + intros w Hw. rewrite Hm, Hleft by done. unfold stream_meaning. by rewrite Hph1, Hrest.
    + rewrite Hmem1, Hpad1. lia.
    + rewrite Hrest, Hpad1. unfold stray. case_match; [simpl; lia|rewrite length_replicate; lia].
    + by rewrite Hph1.
  - eexists. split; [done|]. intros HP w Hw. exfalso. apply He; [done|]. rewrite Erest. simpl. lia.
Qed.

(** A member begins where its magic is. *)
Lemma turn_starts :
  ph s = PH_BETWEEN →
  (∀ w, between k (members s =? 0) (padding s) (g ++ out) (p ++ w)
    = if negb (padding s mod 4 =? 0) then None else member_then (g ++ out) (member k (g ++ out) (p ++ w))) →
  turned n (if negb (padding s mod 4 =? 0) then inr (Some (Failed s (lit "corrupt xz stream padding")))
    else match start_member (with_padding 0 s) with
    | inl s' => inl (with_ph PH_MEMBER s', p, out)
    | inr why => inr (Some (Failed (with_padding 0 s) why))
    end).
Proof.
  intros Hph Hstart. pose proof Hde as [Hb Hs Hm Hok Hsame Ht]. pose proof Hok as [E1 E2 E3 E4 Eend E5 E6]. rewrite Hph in E6.
  destruct E6 as (Erest & Esingle & Ecodec). unfold turns in Ht. rewrite Hph in Ht. unfold stream_meaning at 2 in Hm. rewrite Hph in Hm.
  destruct (negb _).
  { eexists. split; [done|]. intros _ w Hw. by rewrite Hm, Hstart. }
  pose proof (start_member_ok (g ++ out) fed (with_padding 0 s) p E1 E3 Esingle Ecodec) as Hc.
  destruct (start_member (with_padding 0 s)) as [s1|why].
  - destruct Hc as (c & Hs1 & Hcok & Hfresh). exists (2 * length p)%nat. split; [lia|].
    assert (Hcodec : codec s1 = c) by (by destruct Hs1 as [->| ->]).
    split; [done|done| |split|destruct Hs1 as [->| ->]; simpl; congruence|right; split; [done|by rewrite <- Hcodec in Hfresh]].
    + intros w Hw. rewrite Hm, Hstart by done. unfold stream_meaning. simpl. by rewrite Hcodec, Hfresh.
    + by destruct Hs1 as [->| ->].
    + by destruct Hs1 as [->| ->].
    + by destruct Hs1 as [->| ->].
    + destruct Hs1 as [->| ->]; simpl; lia.
    + destruct Hs1 as [->| ->]; simpl; intros He%Eend; congruence.
    + destruct Hs1 as [->| ->]; simpl; lia.
    + destruct Hs1 as [->| ->]; simpl; done.
  - eexists. split; [done|]. intros HP. by destruct Hc.
Qed.

(** Between members, of what the data looks like. *)
Lemma turn_between : ph s = PH_BETWEEN → turned n (decode_turn at_end budget (s, p, out)).
Proof.
  intros Hph. pose proof turn_starts as Hstarts. pose proof turn_leaves as Hleaves.
  pose proof Hde as [Hb Hs Hm Hok Hsame Ht]. pose proof Hok as [E1 E2 E3 E4 Eend E5 E6]. rewrite Hph in E6.
  destruct E6 as (Erest & Esingle & Ecodec). assert (HM : FED_MAX < SIZE_MAX) by done.
  unfold turns in Ht. rewrite Hph in Ht. subst n. unfold stream_meaning at 2 in Hm. rewrite Hph in Hm.
  assert (Hstay : p = [] ∨ at_end = false → (∀ o r, between k (members s =? 0) (padding s) (g ++ out) p = Some (o, r) → o = []) →
    decode_ok (Decoded s p out)).
  { intros Hend Hsettled. split; [done|]. split; [done|]. unfold stream_meaning at 2 3. rewrite Hph.
    split; [done|]. split; [done|]. split; [congruence|]. split; [congruence|].
    split; [intros _ o r Ho; split; [by eapply Hsettled|congruence]|]. split; destruct Hend; congruence. }
  unfold decode_turn. rewrite Hph. destruct p as [|b t] eqn:Hp.
  { eexists. split; [done|]. apply Hstay; [by left|]. intros o r. rewrite between_unfold. destruct (members s =? 0); [done|]. by intros [= <- _]. }
  assert (Hfirst : (0 <? members s) = negb (members s =? 0)) by (zcases; done || lia).
  rewrite E1, Hfirst. destruct (bool_decide (k_op k = OP_XZ) && negb (members s =? 0) && (b =? 0)) eqn:Hnul.
  { exists (2 * length t + 1)%nat. split; [simpl; lia|]. split; [done| | |split; simpl; try done|simpl; congruence|unfold turns; simpl; by rewrite Hph].
    - etrans; [|exact Hs]. by apply suffix_cons_r.
    - intros w Hw. rewrite Hm by done. unfold stream_meaning. simpl. rewrite Hph. simpl. rewrite between_unfold. by rewrite Hnul.
    - lia.
    - simpl in E5. lia.
    - rewrite Hph. split; [done|]. split; [done|]. eapply codec_over_fed; [done|]. simpl in E5. lia. }
  assert (Hun : ∀ v, between k (members s =? 0) (padding s) (g ++ out) ((b :: t) ++ v) =
    match magic_match (k_op k) ((b :: t) ++ v) with
    | Some true => if negb (padding s mod 4 =? 0) then None
        else match member k (g ++ out) ((b :: t) ++ v) with Some (o, r) => pre o (between k false 0 ((g ++ out) ++ o) r) | None => None end
    | _ => if members s =? 0 then None else Some ([], stray (padding s) ++ (b :: t) ++ v)
    end) by (intros v; rewrite between_unfold; simpl; by rewrite Hnul).
  rewrite <- Hp in *. clear b t Hp Hnul Hfirst.
  destruct (magic_match (k_op k) p) as [[|]|] eqn:Hmagic; simpl.
  - apply Hstarts; [done|]. intros w. rewrite Hun, (magic_match_app _ _ _ _ Hmagic). unfold member_then. by rewrite Esingle.
  - apply (Hleaves _ Hph). intros w _. by rewrite Hun, (magic_match_app _ _ _ _ Hmagic).
  - destruct at_end eqn:Hend; simpl.
    + apply (Hleaves _ Hph). intros w Hw. rewrite Hun, Hw, app_nil_r by done. by rewrite Hmagic.
    + eexists. split; [done|]. apply Hstay; [by right|]. intros o r. specialize (Hun []). rewrite app_nil_r, Hmagic in Hun. rewrite Hun.
      destruct (members s =? 0); [done|]. by intros [= <- _].
Qed.

(** Every turn. *)
Lemma decode_turn_ok : turned n (decode_turn at_end budget (s, p, out)).
Proof. destruct (ph s) eqn:Hph; [by apply turn_between|by apply turn_member|by apply turn_trailing]. Qed.

End turn.

(** A decoding ends, within its budget, and moves along the meaning. *)
Lemma decode_ends g fed s p budget at_end :
  0 ≤ budget → fed < FED_MAX → stream_ok g fed s p →
  ∃ d, decode s p at_end budget = Some d ∧ decode_ok g fed s p budget at_end d.
Proof.
  intros Hb Hfed Hok. unfold decode.
  set (n := match ph s with PH_TRAILING => 2 * length p | PH_BETWEEN => 2 * length p + 1 | PH_MEMBER => 2 * length p + 2 end%nat).
  destruct (until_answers (decode_turn at_end budget) (λ n x, decoding g fed s p budget at_end n x.1.1 x.1.2 x.2)
    (λ d, ∃ d', d = Some d' ∧ decode_ok g fed s p budget at_end d') (Z.to_pos (2 * Z.of_nat (length p) + 4)) n (with_more false s, p, []))
    as (d & -> & d' & -> & Hd).
  - intros m [[s1 p1] out1] Hde. simpl in Hde. pose proof (decode_turn_ok g fed s p budget at_end Hfed m s1 p1 out1 Hde) as Ht.
    unfold turned in Ht. by destruct (decode_turn at_end budget (s1, p1, out1)) as [[[s2 p2] out2]|].
  - simpl. destruct Hok as [E1 E2 E3 E4 Eend E5 E6]. split; simpl; [done|done| |by split; simpl; rewrite ?app_nil_r|done|].
    + intros w _. rewrite pre_nil, app_nil_r. done.
    + unfold turns. simpl. unfold n. destruct (ph s); [done|by left|done].
  - unfold n. destruct (ph s); lia.
  - by exists d'.
Qed.

End decode.
