(* ===== verification/CompressRoundTrip.v ===== *)
(** * What a deflater writes

    Its output over all its updates and its finish decodes to its input,
    whatever the format and the chunks. *)

From S2P Require Import Prelude.
From S2P Require Import Lua.
From S2P Require Import Codecs.
From S2P Require Import Compress.
From S2P Require Import CompressSteps.
From S2P Require Import CompressInflate.
From S2P Require Import CompressGzip.
From S2P Require Import CompressDecode.

Local Open Scope Z_scope.


(** What [tdefl] promises: it takes all its input or fills its room, and what
    it wrote when it is done decodes to what it read. *)
Class TdeflLaws `{TinflLaws, Encoders} := {
  tdefl_zlib : tdefl_compressor → bool;
  tdefl_read : tdefl_compressor → bytes;
  tdefl_wrote : tdefl_compressor → bytes;
  tdefl_ready : bool → tdefl_compressor → Prop;
  tdefl_new z level :
    let d := tdefl_init z level in tdefl_zlib d = z ∧ tdefl_read d = [] ∧ tdefl_wrote d = [] ∧ ∀ finish, tdefl_ready finish d;
  tdefl_owes_nonneg d p finish : 0 ≤ tdefl_owes d p finish;
  tdefl_call d p finish room d' used produced status :
    0 < room → tdefl_ready finish d → tdefl_compress d p finish room = (d', used, produced, status) →
    (used ≤ length p)%nat ∧ Z.of_nat (length produced) ≤ room ∧ tdefl_zlib d' = tdefl_zlib d ∧
    tdefl_read d' = tdefl_read d ++ take used p ∧ tdefl_wrote d' = tdefl_wrote d ++ produced ∧
    tdefl_owes d' (drop used p) finish + Z.of_nat (length produced) ≤ tdefl_owes d p finish ∧
    (status = TDEFL_STATUS_OKAY ∧ (finish = false → ∀ b, tdefl_ready b d') ∧ tdefl_ready finish d' ∧
       (Z.of_nat (length produced) < room → finish = false ∧ used = length p) ∨
     status = TDEFL_STATUS_DONE ∧ finish = true ∧ used = length p ∧
       ∀ win v, tinfl_meaning (tdefl_zlib d) tinfl_init win (tdefl_wrote d' ++ v) = Some (tdefl_read d', v)) }.

Section round_trip.
Context `{BzlibLaws, LzmaLaws, ZstdLaws, TdeflLaws, Memory, LuaStringsLaws, LuaIntegers, !TinflShorter}.

(** What a loop over the compressor leaves. *)
Definition chunk_ok (d : tdefl_compressor) (p : bytes) (finish : bool) (r : chunked tdefl_compressor) : Prop :=
  let '(d', out, why) := r in
  why = None ∧ tdefl_zlib d' = tdefl_zlib d ∧ tdefl_read d' = tdefl_read d ++ p ∧ tdefl_wrote d' = tdefl_wrote d ++ out ∧
  if finish then ∀ win v, tinfl_meaning (tdefl_zlib d) tinfl_init win (tdefl_wrote d' ++ v) = Some (tdefl_read d', v)
  else ∀ b, tdefl_ready b d'.

Lemma deflate_chunk_ok d p (finish : bool) :
  tdefl_ready finish d → ∃ r, deflate_chunk d p finish = Some r ∧ chunk_ok d p finish r.
Proof.
  intros Hready. unfold deflate_chunk, run_turns. pose proof (tdefl_owes_nonneg d p finish) as Howes.
  set (I := λ (n : nat) (x : tdefl_compressor * bytes * bytes), let '(d1, p1, out1) := x in
    Z.of_nat n = tdefl_owes d1 p1 finish ∧ tdefl_zlib d1 = tdefl_zlib d ∧ tdefl_read d1 ++ p1 = tdefl_read d ++ p ∧
    tdefl_wrote d1 = tdefl_wrote d ++ out1 ∧ tdefl_ready finish d1).
  destruct (until_answers (deflate_turn finish) I (chunk_ok d p finish)
    (Z.to_pos (tdefl_owes d p finish + Z.of_nat (length p) + 2)) (Z.to_nat (tdefl_owes d p finish)) (d, p, [])) as (r & -> & Hr).
  - intros n [[d1 p1] out1] (Hn & Hz & Hread & Hwrote & Hrdy). unfold deflate_turn.
    destruct (tdefl_compress d1 p1 finish 8192) as [[[d2 used] produced] status] eqn:Hc.
    apply tdefl_call in Hc as (Hu & Hroom & Hz2 & Hread2 & Hwrote2 & Howes2 & Hst); [|done|done].
    pose proof (tdefl_owes_nonneg d2 (drop used p1) finish) as Howes3.
    assert (Hread3 : tdefl_read d2 ++ drop used p1 = tdefl_read d ++ p) by (rewrite Hread2, <- app_assoc, take_drop; done).
    assert (Hwrote3 : tdefl_wrote d2 = tdefl_wrote d ++ out1 ++ produced) by (by rewrite Hwrote2, Hwrote, app_assoc).
    destruct Hst as [(-> & Hboth & Hrdy2 & Hshort)|(-> & -> & -> & Hdone)].
    + change (TDEFL_STATUS_OKAY =? TDEFL_STATUS_OKAY) with true. cbn [negb].
      destruct (Z.ltb_spec (Z.of_nat (length produced)) 8192) as [Hlt|Hge]; rewrite ?andb_true_r, ?andb_false_r.
      * destruct (Hshort Hlt) as [-> ->]. rewrite drop_all in *. rewrite bool_decide_eq_true_2 by done. rewrite app_nil_r in Hread3.
        split_and!; [done|congruence|done|done|by apply Hboth].
      * exists (Z.to_nat (tdefl_owes d2 (drop used p1) finish)). split; [lia|]. split_and!; [lia|congruence|done|done|done].
    + change (TDEFL_STATUS_DONE =? TDEFL_STATUS_OKAY) with false. cbn [negb]. rewrite drop_all, app_nil_r in Hread3.
      split_and!; [done|congruence|done|done|]. rewrite Hz in Hdone. exact Hdone.
  - unfold I. split_and!; [lia|done|done|by rewrite app_nil_r|done].
  - lia.
  - by exists r.
Qed.

(** ** The stream *)

(** A deflater that was given [data] and wrote [g]. *)
Record writing (fmt : stream_format) (data g : bytes) (s : stream) (d : tdefl_compressor) : Prop := {
  wr_op : op s = OP_DEFLATE;
  wr_format : format s = fmt;
  wr_open : finished s = false ∧ more s = false;
  wr_codec : codec s = Deflater d;
  wr_ready : ∀ b, tdefl_ready b d;
  wr_zlib : tdefl_zlib d = bool_decide (fmt = FMT_ZLIB);
  wr_read : tdefl_read d = data;
  wr_wrote : g = (if bool_decide (fmt = FMT_GZIP) && wrote_header s then gzip_header else []) ++ tdefl_wrote d;
  wr_header : fmt = FMT_GZIP → wrote_header s = false → tdefl_wrote d = [];
  wr_sums : enc_crc s = lzma_crc32 data 0 ∧ enc_isize s = u32 (Z.of_nat (length data)) }.

Lemma deflater_writes name level fmt lvl :
  format_named name = inl fmt → opt_integer level MZ_DEFAULT_LEVEL = Some lvl → 0 ≤ lvl ≤ 10 → (∀ n k, can_allocate n k = true) →
  ∃ s, deflater name level = Answers s ∧ ∃ d, writing fmt [] [] s d.
Proof.
  intros Hn Hl Hb Hmem. unfold deflater. rewrite Hn, Hl, Hmem. rewrite (proj2 (Z.leb_le 0 lvl)), (proj2 (Z.leb_le lvl 10)) by lia. cbn [negb andb].
  destruct (tdefl_new (bool_decide (fmt = FMT_ZLIB)) lvl) as (Hz & Hr & Hw & Hrdy). eexists. split; [reflexivity|]. eexists.
  split; simpl; try done; [by rewrite Hw, andb_false_r|]. by rewrite lzma_crc32_nil.
Qed.

(** What a header call leaves: the header has gone out once there is output. *)
Lemma header_written fmt data g s d :
  writing fmt data g s d →
  let '(s', head) := gzip_write_header (with_finished true s) in
  writing fmt data (g ++ head) (with_finished false s') d ∧ (fmt = FMT_GZIP → wrote_header s' = true).
Proof.
  intros [E1 E2 [E3 E3'] E4 E5 E6 E7 E8 E9 E10]. unfold gzip_write_header.
  change (format (with_finished true s)) with (format s). change (wrote_header (with_finished true s)) with (wrote_header s). rewrite E2.
  destruct (negb (bool_decide (fmt = FMT_GZIP)) || wrote_header s) eqn:Hh.
  - split; [by split; rewrite ?app_nil_r|]. intros ->. by rewrite bool_decide_eq_true_2 in Hh.
  - apply orb_false_iff in Hh as [Hg Hw]. apply negb_false_iff in Hg. split; [|done].
    split; simpl; try done. rewrite E8, Hw, Hg. simpl. apply bool_decide_eq_true in Hg. by rewrite E9.
Qed.

Lemma update_writes fmt data g s d v :
  writing fmt data g s d →
  ∃ s' out, stream_update s (LString v) LNil = Some (s', Answers out) ∧ ∃ d', writing fmt (data ++ v) (g ++ out) s' d'.
Proof.
  intros Hw. pose proof Hw as [E1 E2 [E3 E3'] _ _ _ _ _ _ _]. unfold stream_update. rewrite E3, tolstring_string. simpl.
  rewrite E1. simpl. unfold encoder_update. change (op (with_finished true s)) with (op s). rewrite decide_True by done.
  pose proof (header_written _ _ _ _ _ Hw) as Hw'.
  destruct (gzip_write_header (with_finished true s)) as [s1 head]. destruct Hw' as ([F1 F2 F3 F4 F5 F6 F7 F8 F9 F10] & G3). simpl in F1.
  rewrite F1, decide_True by done. unfold encode_chunk. simpl in *. rewrite F4.
  destruct (deflate_chunk_ok d v false (F5 false)) as ([[d' out] why] & -> & -> & K1 & K2 & K3 & K4). simpl.
  eexists _, _. split; [reflexivity|]. exists d'. split; simpl; try done.
  - congruence.
  - by rewrite K2, F7.
  - rewrite app_assoc, F8, K3. by rewrite app_assoc.
  - intros Hg Hnot. by rewrite G3 in Hnot.
  - destruct F10 as [-> ->]. rewrite lzma_crc32_app. split; [done|]. rewrite length_app. unfold u32. rewrite Zplus_mod_idemp_l. f_equal. lia.
Qed.

(** ** The trailer *)

Lemma le32_push v w : 0 ≤ v < 2 ^ 32 → le32 (push_u32le v ++ w) = v.
Proof.
  intros Hv. unfold le32, push_u32le. simpl. unfold u8. rewrite !Z.shiftr_div_pow2, !Z.shiftl_mul_pow2 by lia.
  change (2 ^ 8) with 256. change (2 ^ 16) with 65536. change (2 ^ 24) with 16777216. change (2 ^ 32) with 4294967296 in Hv.
  rewrite (Z.lor_comm (v mod 256)), (Z.lor_comm (Z.lor _ (v mod 256))), (Z.lor_comm (Z.lor _ (Z.lor _ _))).
  rewrite (lor_low (_ * 256) _ 8) by zdiv. rewrite (lor_low (_ * 65536) _ 16) by zdiv. rewrite (lor_low _ _ 24) by zdiv. zdiv.
Qed.

(** What a whole gzip member is read as. *)
Lemma gzip_member_whole win body_ o :
  (∀ v, tinfl_meaning false tinfl_init win (body_ ++ v) = Some (o, v)) →
  gzip_member win (gzip_header ++ body_ ++ push_u32le (lzma_crc32 o 0) ++ push_u32le (u32 (Z.of_nat (length o)))) = Some (o, []).
Proof.
  intros Hbody. set (c := lzma_crc32 o 0). set (n := u32 (Z.of_nat (length o))).
  assert (Hend : gzip_header_end (gzip_header ++ body_ ++ push_u32le c ++ push_u32le n) = Some (body_ ++ push_u32le c ++ push_u32le n)).
  { unfold gzip_header_end. rewrite (proj2 (Z.ltb_ge _ _)) by (rewrite length_app; simpl; lia). reflexivity. }
  unfold gzip_member. rewrite Hend. cbn [mbind option_bind]. rewrite Hbody. fold c n. unfold trailer.
  change (Z.of_nat (length (push_u32le c ++ push_u32le n)) <? 8) with false.
  change (take 8 (push_u32le c ++ push_u32le n)) with (push_u32le c ++ push_u32le n).
  change (drop 4 (push_u32le c ++ push_u32le n)) with (push_u32le n ++ []). change (drop 8 (push_u32le c ++ push_u32le n)) with (@nil Z).
  rewrite !le32_push; [|apply Z.mod_pos_bound; lia|by apply lzma_crc32_range]. rewrite !Z.eqb_refl. simpl. by rewrite app_nil_r.
Qed.

(** Nothing follows it. *)
Lemma gzip_decodes k g o :
  k_op k = OP_INFLATE → k_format k = FMT_GZIP → gzip_member (window []) (gzip_header ++ g) = Some (o, []) → decodes k (gzip_header ++ g) = Some (o, []).
Proof.
  intros Hop Hf Hg. unfold decodes, single. rewrite Hop, Hf. change (bool_decide (OP_INFLATE = OP_INFLATE) && negb (bool_decide (FMT_GZIP = FMT_GZIP))) with false.
  rewrite between_unfold, Hop. change (gzip_header ++ g) with (0x1f :: 0x8b :: [8; 0; 0; 0; 0; 0; 0; 255] ++ g) at 1.
  change (magic_match OP_INFLATE (gzip_header ++ g)) with (Some true). unfold member. rewrite Hop, Hg.
  rewrite between_unfold. simpl. by rewrite app_nil_r.
Qed.

(** ** A whole run *)

(** The stream after updates with [chunks], and all they gave. *)
Fixpoint updates (s : stream) (chunks : list bytes) : option (stream * bytes) :=
  match chunks with
  | [] => Some (s, [])
  | v :: chunks =>
      match stream_update s (LString v) LNil with
      | Some (s, Answers out) => '(s, more_) ← updates s chunks; Some (s, out ++ more_)
      | _ => None
      end
  end.

(** All a stream gives for its input. *)
Definition encode_all (s : stream) (chunks : list bytes) : option bytes :=
  '(s, out) ← updates s chunks;
  match stream_finish s with Some (_, Answers last_) => Some (out ++ last_) | _ => None end.

Lemma updates_write fmt data g s d chunks :
  writing fmt data g s d → ∃ s' out, updates s chunks = Some (s', out) ∧ ∃ d', writing fmt (data ++ concat chunks) (g ++ out) s' d'.
Proof.
  revert data g s d. induction chunks as [|v chunks IH]; intros data g s d Hw; cbn [updates concat].
  { eexists _, _. split; [done|]. exists d. by rewrite !app_nil_r. }
  destruct (update_writes _ _ _ _ _ v Hw) as (s1 & out & -> & d1 & Hw1). destruct (IH _ _ _ _ Hw1) as (s2 & more_ & -> & d2 & Hw2).
  eexists _, _. split; [reflexivity|]. exists d2. by rewrite !app_assoc in *.
Qed.

Lemma finish_writes fmt data g s d :
  writing fmt data g s d →
  ∃ s' last_, stream_finish s = Some (s', Answers last_) ∧ decodes (Kind OP_INFLATE fmt 0 0 0) (g ++ last_) = Some (data, []).
Proof.
  intros Hw. pose proof Hw as [E1 E2 [E3 E3'] _ _ _ _ _ _ _]. unfold stream_finish. rewrite E3, E3'.
  change (op (with_finished true s)) with (op s). rewrite E1. cbn [is_encoder]. unfold encoder_finish.
  change (op (with_finished true s)) with (op s). rewrite decide_True by done.
  pose proof (header_written _ _ _ _ _ Hw) as Hw'.
  destruct (gzip_write_header (with_finished true s)) as [s1 head]. destruct Hw' as ([F1 F2 F3 F4 F5 F6 F7 F8 F9 F10] & G3).
  unfold encode_chunk. simpl in F1, F2, F4, F8, F10. rewrite F4.
  destruct (deflate_chunk_ok d [] true (F5 true)) as ([[d' out] why] & -> & -> & K1 & K2 & K3 & K4). cbn [mbind option_bind].
  eexists _, _. split; [reflexivity|]. rewrite app_nil_r, F7 in K2. rewrite F6, K2 in K4.
  change (op (with_codec _ s1)) with (op s1). change (format (with_codec _ s1)) with (format s1). rewrite F1, F2.
  change (bool_decide (OP_DEFLATE = OP_DEFLATE)) with true. rewrite app_assoc, F8. destruct F10 as [F10 F11].
  cbn [andb enc_crc enc_isize with_codec]. rewrite F10, F11. destruct (bool_decide (fmt = FMT_GZIP)) eqn:Hg.
  - apply bool_decide_eq_true in Hg. rewrite (G3 Hg), Hg in *. cbn [andb].
    replace ((gzip_header ++ _) ++ _) with (gzip_header ++ tdefl_wrote d' ++ push_u32le (lzma_crc32 data 0) ++ push_u32le (u32 (Z.of_nat (length data))))
      by (rewrite K3, <- !app_assoc; done).
    apply gzip_decodes; [done|done|]. apply gzip_member_whole. intros v. apply K4.
  - cbn [andb]. rewrite app_nil_r. simpl. rewrite <- K3. unfold decodes, single. cbn [k_op k_format]. rewrite Hg.
    specialize (K4 (window []) []). rewrite app_nil_r in K4. exact K4.
Qed.

(** C25: Whatever the format, the level and the chunks, what a deflater gives
    for its input, its updates and its finish together, decodes to exactly
    that input with nothing left over: the updates and the finish never
    refuse, and of gzip the header is written once and the trailer is of all
    the input. *)
Theorem deflater_round_trip name level fmt lvl chunks :
  format_named name = inl fmt → opt_integer level MZ_DEFAULT_LEVEL = Some lvl → 0 ≤ lvl ≤ 10 → (∀ n k, can_allocate n k = true) →
  ∃ s out, deflater name level = Answers s ∧ encode_all s chunks = Some out ∧
    decodes (Kind OP_INFLATE fmt 0 0 0) out = Some (concat chunks, []).
Proof.
  intros Hn Hl Hb Hmem. destruct (deflater_writes _ _ _ _ Hn Hl Hb Hmem) as (s & Hs & d & Hw). exists s.
  destruct (updates_write _ _ _ _ _ chunks Hw) as (s1 & out & Hu & d1 & Hw1). destruct (finish_writes _ _ _ _ _ Hw1) as (s2 & last_ & Hf & Hd).
  exists (out ++ last_). split; [done|]. unfold encode_all. rewrite Hu. simpl. rewrite Hf. done.
Qed.

End round_trip.
