(* ===== verification/CompressStreams.v ===== *)
(** * Streams that decode

    A decoder fed its data in any chunks, with any limits on its output, gives
    out what the data decodes to as a whole. *)

From S2P Require Import Prelude.
From S2P Require Import Lua.
From S2P Require Import Codecs.
From S2P Require Import Compress.
From S2P Require Import CompressSteps.
From S2P Require Import CompressInflate.
From S2P Require Import CompressGzip.
From S2P Require Import CompressDecode.

Local Open Scope Z_scope.

Section streams.
Context `{BzlibLaws, LzmaLaws, ZstdLaws, TinflLaws, Encoders, Memory, LuaStrings, LuaIntegers, !TinflShorter}.

(** A decoder new made. *)
Inductive made : kind → stream → Prop :=
  | made_inflater name fmt s : format_named name = inl fmt → inflater name = Answers s → made (Kind OP_INFLATE fmt 0 0 0) s
  | made_bz2 s : bz2_decoder = Answers s → made (Kind OP_BZ2 FMT_RAW 0 0 0) s
  | made_xz arg limit s :
      opt_integer arg DEFAULT_XZ_MEMLIMIT = Some limit → xz_decoder arg = Answers s → made (Kind OP_XZ FMT_RAW limit 0 0) s
  | made_zstd arg limit s :
      opt_integer arg DEFAULT_ZSTD_WINDOW = Some limit → zstd_decoder arg = Answers s →
      made (Kind OP_ZSTD FMT_RAW 0 (window_log limit) limit) s.

(** A decoder that was fed [data] and gave out [g]. *)
Inductive reached (k : kind) : bytes → bytes → stream → Prop :=
  | reached_made s : made k s → reached k [] [] s
  | reached_update data g s chunk v max s' out :
      reached k data g s → lua_tolstring chunk = Some v → Z.of_nat (length (data ++ v)) < FED_MAX →
      stream_update s chunk max = Some (s', Answers out) → reached k (data ++ v) (g ++ out) s'.

(** What a decoder keeps of its input. *)
Definition kept (s : stream) : bytes := drop (Z.to_nat (in_pos s)) (b_data (in_ s)).

(** ** The invariant *)

Record live (k : kind) (data g : bytes) (s : stream) : Prop := {
  live_finished : finished s = false;
  live_decoder : is_encoder (k_op k) = false;
  live_ok : stream_ok k g (Z.of_nat (length data)) s (kept s);
  live_meaning w : decodes k (data ++ w) = pre g (stream_meaning k g s (kept s ++ w));
  live_in : 0 ≤ in_pos s ≤ Z.of_nat (length (b_data (in_ s))) ∧ Z.of_nat (length (b_data (in_ s))) ≤ Z.of_nat (length data);
  live_all : more s = false → ∀ o r, stream_meaning k g s (kept s) = Some (o, r) → o = [];
  live_trailing : ph s = PH_TRAILING → kept s = [] }.

(** What the invariant is of. *)
Definition core (s : stream) := (op s, format s, memlimit s, members s, padding s, rest s, (ph s, codec s, ended s)).

Lemma core_ok k g fed s s' p : core s' = core s → stream_ok k g fed s p → stream_ok k g fed s' p.
Proof.
  unfold core. intros Hc [E1 E2 E3 E4 Eend E5 E6]. injection Hc as C1 C2 C3 C4 C5 C6 C7 C8 C9.
  split; by rewrite ?C1, ?C2, ?C3, ?C4, ?C5, ?C6, ?C7, ?C8, ?C9.
Qed.

Lemma core_meaning k g s s' w : core s' = core s → stream_meaning k g s' w = stream_meaning k g s w.
Proof. unfold core, stream_meaning. intros Hc. injection Hc as C1 C2 C3 C4 C5 C6 C7 C8 C9. by rewrite C4, C5, C6, C7, C8. Qed.

Lemma stream_ok_fed k g fed s p v : stream_ok k g fed s p → stream_ok k g (fed + Z.of_nat (length v)) s (p ++ v).
Proof.
  intros [E1 E2 E3 E4 Eend E5 E6]. split; try done; [rewrite length_app; lia|]. destruct (ph s).
  - destruct E6 as (? & ? & Ec). split; [done|]. split; [done|]. eapply codec_over_fed; [done|]. rewrite length_app. lia.
  - destruct E6 as (? & ? & Ec). split; [done|]. split; [done|]. by apply codec_ok_fed.
  - done.
Qed.

(** ** New decoders *)

Lemma decodes_members k w : single k = false → decodes k w = between k true 0 [] w.
Proof. unfold decodes. by intros ->. Qed.

Lemma new_live k c asked :
  is_encoder (k_op k) = false → single k = false → codec_over k [] 0 c [] →
  live k [] [] (new_stream (k_op k) (k_format k) c PH_BETWEEN (k_memlimit k) asked).
Proof.
  intros Henc Hsingle Hc. split; simpl; try done.
  - intros w. by rewrite pre_nil, decodes_members.
Qed.

#[local] Opaque TINFL_LZ_DICT_SIZE log_loop.

(** A body not begun. *)
Lemma empty_body_held : held (inflate_start_body empty_body) = [].
Proof. reflexivity. Qed.
Lemma empty_body_window : (dict (inflate_start_body empty_body), dict_ofs (inflate_start_body empty_body)) = window [].
Proof. reflexivity. Qed.
Lemma window_size : 0 ≤ TINFL_LZ_DICT_SIZE ∧ 0 ≤ DEFLATE_MAX_RATIO * 8 + TINFL_LZ_DICT_SIZE.
Proof. rewrite dict_size. unfold DEFLATE_MAX_RATIO. lia. Qed.

Lemma empty_still : still [] 0 (Inflate empty_body GZ_FIXED [] 0 0) [].
Proof. pose proof window_size. split; [reflexivity|simpl; lia|simpl; lia]. Qed.

Lemma empty_body_ok : body_ok [] 0 (inflate_start_body empty_body) [].
Proof. exact (start_body_ok [] 0 (Inflate empty_body GZ_FIXED [] 0 0) [] empty_still). Qed.

Lemma raw_live fmt asked :
  fmt ≠ FMT_GZIP →
  live (Kind OP_INFLATE fmt 0 0 0) [] []
    (new_stream OP_INFLATE fmt (Inflater (with_body (inflate_start_body empty_body) (Inflate empty_body GZ_FIXED [] 0 0))) PH_MEMBER 0 asked).
Proof.
  intros Hg. set (k := Kind OP_INFLATE fmt 0 0 0). set (b := inflate_start_body empty_body).
  assert (Hsingle : single k = true) by (unfold single; simpl; by rewrite bool_decide_eq_false_2).
  assert (Hmeaning : ∀ w, body_meaning fmt bare b w = tinfl_meaning (bool_decide (fmt = FMT_ZLIB)) tinfl_init (window []) w).
  { intros w. unfold body_meaning. rewrite (empty_body_window : (dict b, dict_ofs b) = _). change (body_done b) with false. change (tinfl b) with tinfl_init.
    cbv beta iota. destruct (tinfl_meaning _ _ _ w) as [[o r]|]; [|done]. unfold bare. by rewrite (empty_body_held : held b = _), pre_some, app_nil_r. }
  split; [done|done| | |cbn; lia| |done].
  - split; [reflexivity|reflexivity|reflexivity|cbn; lia|done|apply Z.leb_le; reflexivity|]. split; [done|]. split; [done|]. unfold codec_ok. cbn [k k_op k_format codec new_stream].
    rewrite decide_False by done. apply empty_body_ok.
  - intros w. rewrite pre_nil. unfold decodes, stream_meaning, member_then. rewrite Hsingle. cbn [ph new_stream kept codec codec_meaning k_format k].
    rewrite decide_False by done. rewrite Hmeaning. cbn. destruct (tinfl_meaning _ _ _ _) as [[o r]|]; [|done]. cbn. by rewrite app_nil_r.
  - intros _ o r. unfold stream_meaning, member_then. cbn [ph new_stream kept codec codec_meaning k_format k].
    rewrite decide_False by done. rewrite Hmeaning. destruct (tinfl_meaning _ _ _ _) as [[o' r']|] eqn:Ht; [|done].
    apply tinfl_shorter in Ht. destruct (Nat.nlt_0_r _ Ht).
Qed.

Lemma made_live k s : made k s → live k [] [] s.
Proof.
  intros Hm. destruct Hm as [name fmt s Hname Hs|s Hs|arg limit s Harg Hs|arg limit s Harg Hs].
  - unfold inflater in Hs. rewrite Hname in Hs. destruct (negb _); [done|].
    case_decide as Hg; injection Hs as <-; [|by apply raw_live].
    apply (new_live (Kind OP_INFLATE fmt 0 0 0)); [reflexivity|unfold single; simpl; by rewrite bool_decide_eq_true_2|].
    unfold codec_over. cbn [k_op k_format]. rewrite decide_True by done. apply empty_still.
  - unfold bz2_decoder in Hs. destruct (negb _); [done|]. injection Hs as <-. apply (new_live (Kind OP_BZ2 FMT_RAW 0 0 0)); [reflexivity|reflexivity|exact I].
  - unfold xz_decoder in Hs. rewrite Harg in Hs. destruct (negb _); [done|]. destruct (negb _); [done|]. injection Hs as <-.
    apply (new_live (Kind OP_XZ FMT_RAW limit 0 0)); [reflexivity|reflexivity|exact I].
  - unfold zstd_decoder in Hs. rewrite Harg in Hs. destruct (_ <? _); [done|]. destruct (negb _); [done|].
    destruct (ZSTD_createDCtx _ _) as [d|] eqn:Hd; [|done]. injection Hs as <-. apply zstd_create in Hd as [Hr Hl].
    apply (new_live (Kind OP_ZSTD FMT_RAW 0 (window_log limit) limit)); [reflexivity|reflexivity|].
    split; [reflexivity|exact Hl|reflexivity|exact Hr].
Qed.

(** ** Input kept *)

Lemma in_append_ok data s s' (made_ : bool) :
  in_append data s = (s', made_) →
  if made_ then b_data (in_ s') = b_data (in_ s) ++ data ∧
    (core s', in_pos s', finished s', more s') = (core s, in_pos s, finished s, more s)
  else plenty → Z.of_nat (length (b_data (in_ s))) + Z.of_nat (length data) ≤ SIZE_MAX → False.
Proof.
  unfold in_append. destruct (bytes_append _ _ _) as [[b|] n] eqn:Hb; intros Hs; injection Hs as <- <-.
  - apply bytes_append_data in Hb. by destruct n.
  - intros HP Hl. eapply bytes_append_made; [done|done|lia].
Qed.

(** The input [decode] was given: what was kept and the chunk. *)
Lemma kept_app s v : 0 ≤ in_pos s ≤ Z.of_nat (length (b_data (in_ s))) →
  drop (Z.to_nat (in_pos s)) (b_data (in_ s) ++ v) = kept s ++ v.
Proof. intros Hp. unfold kept. apply drop_app_le. lia. Qed.

(** What it did not take is kept. *)
Lemma keep_input_ok backlog v used p q s s' (made_ : bool) :
  keep_input backlog v used s = (s', made_) →
  0 ≤ in_pos s ≤ Z.of_nat (length (b_data (in_ s))) →
  p = (if backlog then kept s else v) → (backlog = false → kept s = []) → 0 ≤ used ≤ Z.of_nat (length p) → q = drop (Z.to_nat used) p →
  if made_ then kept s' = q ∧ (core s', finished s', more s') = (core s, finished s, more s) ∧
    0 ≤ in_pos s' ≤ Z.of_nat (length (b_data (in_ s'))) ∧
    Z.of_nat (length (b_data (in_ s'))) ≤ Z.max (Z.of_nat (length (b_data (in_ s)))) (Z.of_nat (length v))
  else plenty → Z.of_nat (length v) ≤ SIZE_MAX → False.
Proof.
  intros Hk Hp -> Hnone Hu ->. unfold keep_input in Hk. destruct backlog.
  - assert (Hd : drop (Z.to_nat used) (kept s) = drop (Z.to_nat (in_pos s + used)) (b_data (in_ s))).
    { unfold kept. rewrite drop_drop. f_equal. lia. }
    unfold kept in Hu. rewrite length_drop in Hu. rewrite Hd. zcases_in Hk; injection Hk as <- <-; unfold kept; simpl;
      (split; [first [reflexivity|symmetry; apply drop_ge; lia]|split; [reflexivity|rewrite ?length_drop; simpl; lia]]).
  - specialize (Hnone eq_refl). zcases_in Hk.
    + apply in_append_ok in Hk. rewrite length_drop in Hk. destruct made_; [|intros HP Hl; apply Hk; [done|simpl; lia]].
      destruct Hk as [Hdata Hsame]. apply pair_equal_spec in Hsame as [[[Hc Hpos]%pair_equal_spec Hf]%pair_equal_spec Hm].
      unfold kept. rewrite Hdata, Hpos, Hc, Hf, Hm. split; [reflexivity|]. split; [reflexivity|]. simpl. rewrite length_drop. lia.
    + injection Hk as <- <-. split; [|split; [done|lia]]. rewrite Hnone. symmetry. apply drop_ge. lia.
Qed.

(** ** An update *)

(** The stream an update decodes with, and the input it is given. *)
Lemma update_input s v (backlog := in_pos s <? Z.of_nat (length (b_data (in_ s)))) s1 (made_ : bool) :
  (if backlog then in_append v s else (s, true)) = (s1, made_) →
  0 ≤ in_pos s ≤ Z.of_nat (length (b_data (in_ s))) →
  if made_ then
    core s1 = core s ∧ in_pos s1 = in_pos s ∧ b_data (in_ s1) = b_data (in_ s) ++ (if backlog then v else []) ∧
    (if backlog then drop (Z.to_nat (in_pos s1)) (b_data (in_ s1)) else v) = kept s ++ v ∧ (backlog = false → kept s = [])
  else plenty → Z.of_nat (length (b_data (in_ s))) + Z.of_nat (length v) ≤ SIZE_MAX → False.
Proof.
  intros Ha Hp. assert (Hb : backlog = false → kept s = []).
  { intros Hb%Z.ltb_ge. apply drop_ge. lia. }
  destruct backlog.
  - apply in_append_ok in Ha. destruct made_; [|exact Ha]. destruct Ha as [Hd Hs].
    apply pair_equal_spec in Hs as [[[Hc Hpos]%pair_equal_spec Hf]%pair_equal_spec Hm].
    split; [exact Hc|]. split; [exact Hpos|]. split; [exact Hd|]. split; [|exact Hb]. rewrite Hd, Hpos. by apply kept_app.
  - injection Ha as <- <-. rewrite Hb, app_nil_r by done. done.
Qed.

Lemma update_live k data g s v max :
  live k data g s → Z.of_nat (length (data ++ v)) < FED_MAX → 0 < max →
  ∃ s' a, decoder_update (with_finished true s) v max = Some (s', a) ∧
    match a with
    | Answers out => live k (data ++ v) (g ++ out) s' ∧ Z.of_nat (length out) ≤ max ∧ (more s' = true → Z.of_nat (length out) = max)
    | Refuses _ => plenty → ∀ w, decodes k ((data ++ v) ++ w) = None
    | Raises _ => False
    end.
Proof.
  intros [Hfin Hdec Hok Hmean Hin Hall Htr] Hfed Hmax. rewrite length_app in Hfed. assert (HM : FED_MAX < SIZE_MAX) by done.
  unfold decoder_update. change (in_pos (with_finished true s)) with (in_pos s). change (in_ (with_finished true s)) with (in_ s).
  destruct (if _ : bool then in_append _ _ else _) as [s1 made1] eqn:Ha.
  pose proof (update_input (with_finished true s) v s1 made1 Ha (proj1 Hin)) as Hu. destruct made1.
  2:{ eexists _, _. split; [reflexivity|]. cbn. intros HP w. exfalso. apply Hu; [done|simpl; lia]. }
  change (in_pos (with_finished true s)) with (in_pos s) in Hu. change (in_ (with_finished true s)) with (in_ s) in Hu.
  change (kept (with_finished true s)) with (kept s) in Hu. set (backlog := in_pos s <? Z.of_nat (length (b_data (in_ s)))) in *.
  destruct Hu as (Hc1 & Hpos1 & Hdata1 & -> & Hnone).
  assert (Hok1 : stream_ok k g (Z.of_nat (length (data ++ v))) s1 (kept s ++ v)).
  { eapply core_ok; [exact Hc1|]. apply (core_ok _ _ _ s); [done|]. rewrite length_app, Nat2Z.inj_add. by apply stream_ok_fed. }
  destruct (decode_ends k g (Z.of_nat (length (data ++ v))) s1 (kept s ++ v) max false ltac:(lia) ltac:(rewrite length_app; lia) Hok1) as (d & -> & Hd).
  assert (Hm1 : ∀ w, decodes k ((data ++ v) ++ w) = pre g (stream_meaning k g s1 ((kept s ++ v) ++ w))).
  { intros w. rewrite <- !app_assoc, Hmean. f_equal. symmetry. by apply core_meaning. }
  simpl. destruct d as [s2 q out|s2 why].
  - destruct Hd as (Hb & Hsuf & Hmv & Hok2 & Hsame & Hfull & Hset & Htr2 & _). apply pair_equal_spec in Hsame as [[Hin2 Hpos2]%pair_equal_spec _].
    assert (Hkept2 : kept s2 = if backlog then kept s ++ v else []).
    { unfold kept at 1. rewrite Hin2, Hpos2, Hpos1, Hdata1. destruct backlog; [exact (kept_app _ _ (proj1 Hin))|]. rewrite app_nil_r. by apply Hnone. }
    destruct (keep_input _ _ _ s2) as [s3 made3] eqn:Hk. pose proof (suffix_length _ _ Hsuf) as Hq.
    apply (keep_input_ok _ _ _ (kept s ++ v) q) in Hk.
    + destruct made3.
      * destruct Hk as (Hk3 & Hsame3 & Hin3 & Hlen3). apply pair_equal_spec in Hsame3 as [[Hc3 Hf3]%pair_equal_spec Hm3].
        assert (Hph3 : ph s3 = ph s2) by (unfold core in Hc3; congruence).
        eexists _, _. split; [reflexivity|]. cbn iota. split; [|split; [done|simpl; by rewrite Hm3]].
        split; [done|done| | | | |]; change (kept (with_finished false s3)) with (kept s3); rewrite ?Hk3.
        -- eapply core_ok; [exact Hc3|done].
        -- intros w. rewrite Hm1, (Hmv w), pre_pre by done. f_equal. symmetry. by apply core_meaning.
        -- simpl. split; [done|]. rewrite Hin2, Hdata1 in Hlen3. rewrite length_app in *. destruct backlog; simpl in *; lia.
        -- simpl. rewrite Hm3. intros Hmore o r Ho. apply (Hset Hmore o r (eq_trans (eq_sym (core_meaning _ _ _ _ _ Hc3)) Ho)).
        -- simpl. rewrite Hph3. done.
      * eexists _, _. split; [reflexivity|]. cbn. intros HP w. exfalso. apply Hk; [done|lia].
    + rewrite Hin2, Hpos2, Hpos1, Hdata1, length_app. lia.
    + rewrite Hkept2. destruct backlog; [done|]. by rewrite Hnone.
    + intros Hbl. by rewrite Hkept2, Hbl.
    + lia.
    + rewrite (suffix_is_drop _ _ Hsuf) at 1. f_equal. lia.
  - eexists _, _. split; [reflexivity|]. cbn. intros HP w. by rewrite Hm1, (Hd HP w).
Qed.

(** ** The end *)

Lemma finish_live k data g s :
  live k data g s → Z.of_nat (length data) < FED_MAX → more s = false →
  ∃ s' a, decoder_finish (with_finished true s) = Some (s', a) ∧ finished s' = true ∧
    match a with
    | Answers out => decodes k data = Some (g ++ out, stream_rest s')
    | Refuses _ => plenty → decodes k data = None
    | Raises _ => False
    end.
Proof.
  intros [Hfin Hdec Hok Hmean Hin Hall Htr] Hfed Hmore. assert (HM : FED_MAX < SIZE_MAX) by done.
  unfold decoder_finish. change (drop _ _) with (kept s).
  assert (Hok1 : stream_ok k g (Z.of_nat (length data)) (with_finished true s) (kept s)) by (by apply (core_ok _ _ _ s)).
  destruct (decode_ends k g _ _ _ SIZE_MAX true ltac:(done) Hfed Hok1) as (d & -> & Hd). simpl.
  assert (Hm0 : decodes k data = pre g (stream_meaning k g s (kept s))) by (rewrite <- (app_nil_r data), Hmean; by rewrite app_nil_r).
  destruct d as [s1 q out|s1 why].
  2:{ eexists _, _. split; [reflexivity|]. split; [done|]. cbn. intros HP. rewrite Hm0. specialize (Hd HP [] (λ _, eq_refl)).
      rewrite app_nil_r in Hd. change (stream_meaning k g s (kept s)) with (stream_meaning k g (with_finished true s) (kept s)). by rewrite Hd. }
  destruct Hd as (Hb & Hsuf & Hmv & Hok2 & Hsame & Hfull & Hset & Htr2 & Hbet). specialize (Hmv [] (λ _, eq_refl)).
  rewrite !app_nil_r in Hmv. change (stream_meaning k g (with_finished true s) (kept s)) with (stream_meaning k g s (kept s)) in Hmv.
  assert (Hm1 : decodes k data = pre (g ++ out) (stream_meaning k (g ++ out) s1 q)) by (by rewrite Hm0, Hmv, pre_pre).
  pose proof (ok_phase _ _ _ _ _ Hok2) as Hphase. destruct Hok2 as [_ _ _ Hcount _ Hf2 _].
  destruct (ph s1) eqn:Hph.
  - rewrite Hbet in * by done. destruct Hphase as (Hrest & _). unfold stream_meaning in Hm1. rewrite Hph, between_unfold in Hm1.
    destruct (members s1 =? 0) eqn:Hmem.
    { eexists _, _. split; [reflexivity|]. done. }
    destruct (enter_trailing s1) as [s2 made2] eqn:He. apply enter_trailing_ok in He; [|lia]. destruct made2.
    + eexists _, _. split; [reflexivity|]. destruct He as [Hframe Hr].
      split; [unfold frame in Hframe; simpl in *; congruence|]. rewrite Hm1. unfold stream_rest. simpl. rewrite Hr. simpl. by rewrite Hrest, !app_nil_r.
    + eexists _, _. split; [reflexivity|]. split; [done|]. cbn. intros HP. exfalso. apply He; [done|lia].
  - eexists _, _. split; [reflexivity|]. split; [done|]. cbn. intros _. rewrite Hm1.
    destruct (stream_meaning k (g ++ out) s1 q) as [[o r]|] eqn:Ho; [|done]. exfalso.
    destruct (more s1) eqn:Hms.
    + specialize (Hfull eq_refl). pose proof (Hall Hmore (out ++ o) r Hmv) as Hnil.
      destruct out; [discriminate Hfull|done].
    + by destruct (Hset eq_refl o r eq_refl).
  - rewrite Htr2 in * by done. eexists _, _. split; [reflexivity|]. split; [simpl in *; congruence|].
    rewrite Hm1. unfold stream_meaning, stream_rest. rewrite Hph. simpl. by rewrite !app_nil_r.
Qed.

(** ** Every decoder *)

Lemma reached_live k data g s : reached k data g s → live k data g s.
Proof.
  induction 1 as [s Hm|data g s chunk v max s' out Hr IH Hv Hfed Hup]; [by apply made_live|].
  pose proof IH as [Hfin Hdec Hok _ _ _ _]. unfold stream_update in Hup. rewrite Hfin, Hv in Hup.
  destruct (opt_integer max DEFAULT_MAX_OUT) as [m|]; [|done]. destruct (Z.ltb_spec 0 m) as [Hpos|]; [|done]. simpl in Hup.
  change (op (with_finished true s)) with (op s) in Hup. rewrite (ok_op _ _ _ _ _ Hok), Hdec in Hup.
  destruct (update_live k data g s v m IH Hfed Hpos) as (s1 & a & Hup' & Ha). rewrite Hup' in Hup. injection Hup as -> ->. apply Ha.
Qed.

(** C23: A decoder that was fed some data, in any chunks and with any limits on
    its output, answers one chunk more with no more than the limit of what all
    of it decodes to: with exactly the limit where it says output is pending,
    and otherwise with all that is left of it; once it is done the bytes after
    are its rest. It refuses only data that, whatever follows, decodes to
    nothing, unless memory is short. *)
Theorem update_streams k data g s chunk v max m :
  reached k data g s → lua_tolstring chunk = Some v → opt_integer max DEFAULT_MAX_OUT = Some m → 0 < m →
  Z.of_nat (length (data ++ v)) < FED_MAX →
  ∃ s' a, stream_update s chunk max = Some (s', a) ∧
    match a with
    | Answers out =>
        Z.of_nat (length out) ≤ m ∧
        (∀ w o r, decodes k ((data ++ v) ++ w) = Some (o, r) → (g ++ out) `prefix_of` o) ∧
        (stream_pending s' = true → Z.of_nat (length out) = m) ∧
        (stream_pending s' = false → ∀ o r, decodes k (data ++ v) = Some (o, r) → o = g ++ out) ∧
        (stream_done s' = true → ∀ w, decodes k ((data ++ v) ++ w) = Some (g ++ out, stream_rest s' ++ w))
    | Refuses _ => plenty → ∀ w, decodes k ((data ++ v) ++ w) = None
    | Raises _ => False
    end.
Proof.
  intros Hr Hv Hm Hpos Hfed. apply reached_live in Hr. pose proof Hr as [Hfin Hdec Hok _ _ _ _].
  destruct (update_live k data g s v m Hr Hfed Hpos) as (s' & a & Hup & Ha). exists s', a.
  unfold stream_update. rewrite Hfin, Hv, Hm, (proj2 (Z.ltb_lt 0 m) Hpos). cbn [negb].
  change (op (with_finished true s)) with (op s). rewrite (ok_op _ _ _ _ _ Hok), Hdec. split; [exact Hup|].
  destruct a as [out| |]; [|done..]. destruct Ha as ([_ _ Hok' Hmean Hin Hall Htr] & Hb & Hfull).
  split; [done|]. split; [|split; [done|split]].
  - intros w o r. rewrite Hmean. destruct (stream_meaning k (g ++ out) s' (kept s' ++ w)) as [[o' r']|]; [|done]. intros [= <- _]. by exists o'.
  - intros Hmore o r. specialize (Hmean []). rewrite !app_nil_r in Hmean. rewrite Hmean. specialize (Hall Hmore).
    destruct (stream_meaning k (g ++ out) s' (kept s')) as [[o' r']|]; [|done].
    intros [= <- _]. by rewrite (Hall o' r' eq_refl), app_nil_r.
  - intros Hend w. pose proof (ok_ended _ _ _ _ _ Hok' Hend) as Hph. rewrite Hmean, Htr by done. unfold stream_meaning. rewrite Hph.
    simpl. by rewrite app_nil_r.
Qed.

(** C24: Finishing a decoder that has no output pending answers where the data
    it was fed decodes to something, which is exactly what it gave out in all
    and the bytes it keeps as its rest; it refuses only data that decodes to
    nothing, unless memory is short, and it is finished either way. With
    output pending it only raises an error. *)
Theorem finish_streams k data g s :
  reached k data g s → Z.of_nat (length data) < FED_MAX →
  ∃ s' a, stream_finish s = Some (s', a) ∧
    if stream_pending s then s' = s ∧ a = Raises pending_output
    else finished s' = true ∧
      match a with
      | Answers out => decodes k data = Some (g ++ out, stream_rest s')
      | Refuses _ => plenty → decodes k data = None
      | Raises _ => False
      end.
Proof.
  intros Hr Hfed. apply reached_live in Hr. pose proof Hr as [Hfin Hdec Hok _ _ _ _].
  unfold stream_finish, stream_pending. rewrite Hfin. destruct (more s) eqn:Hmore; [by eexists _, _|].
  change (op (with_finished true s)) with (op s). rewrite (ok_op _ _ _ _ _ Hok), Hdec.
  by apply finish_live.
Qed.

End streams.
