(* ===== verification/CompressWitness.v ===== *)
(** * Codecs that keep their promises

    One small format behind every library: a member's bytes up to a NUL are its
    output, those from 256 on standing for 0 on, and 255 is corrupt. With it a
    decoder and a deflater are run. *)

From S2P Require Import Prelude.
From S2P Require Import Lua.
From S2P Require Import Codecs.
From S2P Require Import Compress.
From S2P Require Import CompressSteps.
From S2P Require Import CompressInflate.
From S2P Require Import CompressGzip.
From S2P Require Import CompressDecode.
From S2P Require Import CompressRoundTrip.
From S2P Require Import CompressStreams.

Local Open Scope Z_scope.

Module NulEnded.

#[local] Obligation Tactic := idtac.

(** ** The format *)

Definition shift (b : Z) : Z := if 0 <=? b then b + 256 else b.
Definition unshift (b : Z) : Z := if 256 <=? b then b - 256 else b.

Fixpoint text (w : bytes) : outcome :=
  match w with
  | [] => None
  | b :: w => if b =? 0 then Some ([], w) else if b =? 255 then None else pre [unshift b] (text w)
  end.

Inductive stop := Ended | Corrupt | More.

Fixpoint text_call (w : bytes) (room : nat) : nat * bytes * stop :=
  match w with
  | [] => (0%nat, [], More)
  | b :: w =>
      if b =? 0 then (1%nat, [], Ended)
      else if b =? 255 then (1%nat, [], Corrupt)
      else match room with
           | O => (0%nat, [], More)
           | S room => let '(n, o, c) := text_call w room in (S n, unshift b :: o, c)
           end
  end.

Lemma text_call_ok w room n o c :
  text_call w room = (n, o, c) →
  (n ≤ length w)%nat ∧ (length o ≤ room)%nat ∧ (length o ≤ n)%nat ∧
  match c with
  | Ended => ∀ v, text (w ++ v) = Some (o, drop n w ++ v)
  | Corrupt => ∀ v, text (w ++ v) = None
  | More => (∀ v, text (w ++ v) = pre o (text (drop n w ++ v))) ∧ (n < length w → length o = room)%nat
  end.
Proof.
  revert room n o. induction w as [|b w IH]; intros room n o; simpl.
  { intros [= <- <- <-]. do 3 (split; [simpl; lia|]). split; [intros v; by rewrite pre_nil|simpl; lia]. }
  destruct (b =? 0) eqn:E0; [intros [= <- <- <-]; do 3 (split; [simpl; lia|]); done|].
  destruct (b =? 255) eqn:E1; [intros [= <- <- <-]; do 3 (split; [simpl; lia|]); done|].
  destruct room as [|room].
  { intros [= <- <- <-]. do 3 (split; [simpl; lia|]). split; [|done]. intros v. simpl. by rewrite E0, E1, pre_nil. }
  destruct (text_call w room) as [[n' o'] c'] eqn:Hc. intros [= <- <- <-].
  destruct (IH _ _ _ Hc) as (IH1 & IH2 & IH3 & IH4). do 3 (split; [simpl; lia|]). destruct c'.
  - intros v. by rewrite IH4.
  - intros v. by rewrite IH4.
  - destruct IH4 as [IH4 IH5]. split; [intros v; by rewrite IH4, pre_pre|simpl; lia].
Qed.

Lemma text_shorter w o r : text w = Some (o, r) → (length r < length w)%nat.
Proof.
  revert o. induction w as [|b w IH]; intros o; simpl; [done|]. destruct (b =? 0); [intros [= <- <-]; lia|].
  destruct (b =? 255); [done|]. destruct (text w) as [[o' r']|]; simpl; [|done]. intros [= <- <-]. specialize (IH o' eq_refl). lia.
Qed.

(** What [shift] makes is read back. *)
Lemma text_shift p v : text ((shift <$> p) ++ 0 :: v) = Some (p, v).
Proof.
  induction p as [|b p IH]; [done|]. rewrite fmap_cons. cbn [app text].
  assert (unshift (shift b) = b ∧ shift b ≠ 0 ∧ shift b ≠ 255) as (-> & H1 & H2).
  { unfold unshift, shift. destruct (Z.leb_spec 0 b); zcases; lia. }
  rewrite (proj2 (Z.eqb_neq _ _) H1), (proj2 (Z.eqb_neq _ _) H2). by rewrite IH.
Qed.

(** A call with room, of a codec without a state. *)
Lemma text_gives {X} (x y : X) input room n o c :
  0 < room → text_call input (Z.to_nat room) = (n, o, c) →
  match c with
  | Ended => ends (λ _, text) x input room n o
  | Corrupt => refuses (λ _, text) x input
  | More => gives (λ _, text) x input room y n o
  end ∧ (length o ≤ Z.to_nat room)%nat.
Proof.
  intros Hr Hc. apply text_call_ok in Hc as (H1 & H2 & H3 & H4). split; [|done]. destruct c.
  - split; [done|lia|done].
  - exact H4.
  - destruct H4 as [H4 H5]. split; [done|lia|done|]. intros Hlt. split; [lia|done].
Qed.

(** ** The libraries *)

#[export] Instance bzlib : Bzlib := {
  bz_stream := unit;
  BZ2_bzDecompressInit _ := Some tt;
  BZ2_bzDecompress _ input room := let '(n, o, c) := text_call input (Z.to_nat room) in
    (tt, n, o, match c with Ended => BZ_STREAM_END | Corrupt => -4 | More => BZ_OK end) }.

#[export] Program Instance bzlib_laws : BzlibLaws := { bz_meaning _ := text; bz2_member := text }.
Next Obligation. done. Qed.
Next Obligation.
  intros [] input room [] used produced rc Hr _ Hc. simpl in Hc. destruct (text_call input (Z.to_nat room)) as [[n o] c] eqn:Ht.
  injection Hc as <- <- <-. apply (text_gives tt tt) in Ht as [Ht Hl]; [|lia]. destruct c; [by left|right; right|by right; left].
  by split_and!.
Qed.
Next Obligation. apply text_shorter. Qed.

#[export] Instance lzma : Lzma := {
  lzma_stream := unit;
  LZMA_STREAM_INIT := tt;
  lzma_stream_decoder _ _ _ := (tt, LZMA_OK);
  lzma_code _ input room := let '(n, o, c) := text_call input (Z.to_nat room) in
    (tt, n, o, match c with Ended => LZMA_STREAM_END | Corrupt => 9 | More => LZMA_OK end);
  lzma_crc32 p c := foldl (λ c b, u32 (c + b)) c p }.

#[export] Program Instance lzma_laws : LzmaLaws := { lzma_meaning _ := text; xz_member _ := text }.
Next Obligation. done. Qed.
Next Obligation.
  intros [] input room [] used produced rc Hr Hc. simpl in Hc. destruct (text_call input (Z.to_nat room)) as [[n o] c] eqn:Ht.
  injection Hc as <- <- <-. apply (text_gives tt tt) in Ht as [Ht Hl]; [|lia]. destruct c; [by left|right; right; right|by right; left].
  by split_and!.
Qed.
Next Obligation. intros x w o r. apply text_shorter. Qed.
Next Obligation. intros a b c. apply foldl_app. Qed.
Next Obligation. done. Qed.
Next Obligation.
  intros p. simpl. induction p as [|b p IH]; intros c Hc; simpl; [done|]. apply IH. unfold u32. by apply Z.mod_pos_bound.
Qed.

#[export] Instance zstd : Zstd := {
  ZSTD_DCtx := Z;
  ZSTD_createDCtx _ log := Some log;
  ZSTD_getFrameHeader p := match p with [] => HNeeds 1 | _ => HFrame (FrameHeader false 0 0) end;
  ZSTD_decompressStream d input room := let '(n, o, c) := text_call input (Z.to_nat room) in
    (d, n, o, match c with Ended => inl 0 | Corrupt => inr 20 | More => inl 1 end) }.

#[export] Program Instance zstd_laws : ZstdLaws := {
  zstd_meaning _ := text; zstd_frame _ := text; zstd_ready _ := True; zstd_drains _ := True; zstd_log d := d }.
Next Obligation. by intros n log d [= ->]. Qed.
Next Obligation. done. Qed.
Next Obligation.
  intros d input room d' used produced rc Hr _ Hc. simpl in Hc. destruct (text_call input (Z.to_nat room)) as [[n o] c] eqn:Ht.
  injection Hc as <- <- <- <-. apply (text_gives d d) in Ht as [Ht Hl]; [|lia]. split; [done|]. destruct c; simpl; by split.
Qed.
Next Obligation. intros x w o r. apply text_shorter. Qed.
Next Obligation. by exists 1. Qed.
Next Obligation. by intros [|b p] h w. Qed.
Next Obligation. by intros [|b p] h w. Qed.

(** The state counts what was given and what was taken besides. *)
#[export] Instance tinfl_ : Tinfl := {
  tinfl_decompressor := N * N;
  tinfl_init := (0, 0)%N;
  tinfl_decompress _ t input _ _ room := let '(n, o, c) := text_call input (Z.to_nat room) in
    ((t.1 + N.of_nat (length o), t.2 + N.of_nat (n - length o))%N, n, o,
     match c with
     | Ended => TINFL_STATUS_DONE
     | Corrupt => -1
     | More => if Z.of_nat (length o) =? room then TINFL_STATUS_HAS_MORE_OUTPUT else TINFL_STATUS_NEEDS_MORE_INPUT
     end) }.

#[export] Program Instance tinfl_laws : TinflLaws := {
  tinfl_meaning _ _ _ := text; taken t := Z.of_N t.1 + Z.of_N t.2; given t := Z.of_N t.1 }.
Next Obligation. done. Qed.
Next Obligation.
  intros z t input w t' used produced status Hw Hl Hc. simpl in Hc.
  destruct (text_call input (Z.to_nat (TINFL_LZ_DICT_SIZE - w.2))) as [[n o] c] eqn:Ht. injection Hc as <- <- <- <-.
  pose proof (text_call_ok _ _ _ _ _ Ht) as (H1 & H2 & H3 & H4). split_and!; [done|lia|simpl; lia|simpl; lia| |].
  - destruct c.
    + left. by split.
    + right; right; right. by split_and!.
    + destruct H4 as [H4 H5]. destruct (Z.eqb_spec (Z.of_nat (length o)) (TINFL_LZ_DICT_SIZE - w.2)) as [Heq|Hne].
      * right; right; left. by split_and!.
      * right; left. assert (n = length input) as -> by lia. split_and!; [done..|]. intros v. by rewrite H4, drop_all.
  - intros _. simpl. rewrite dict_size. unfold DEFLATE_MAX_RATIO. lia.
Qed.

#[export] Instance tinfl_shorter_ : TinflShorter.
Proof. intros z win w o r. apply text_shorter. Qed.

(** A compressor's state: its format, what it read and wrote, and whether it
    is done. *)
Definition tdefl_step (d : bool * bytes * bytes * bool) (p : bytes) (finish : bool) (room : Z) : bool * bytes * bytes * bool * nat * bytes * Z :=
  let '(z, read, wrote, _) := d in
  let k := Z.to_nat room in
  let o := (shift <$> take k p) ++ (if finish && bool_decide (length p < k)%nat then [0] else []) in
  let is_done := finish && bool_decide (length p < k)%nat in
  (z, read ++ take k p, wrote ++ o, is_done, length (take k p), o, if is_done then TDEFL_STATUS_DONE else TDEFL_STATUS_OKAY).

(** The encoders copy, and end what they are told to. *)
#[export] Instance encoders : Encoders := {
  tdefl_compressor := bool * bytes * bytes * bool;
  tdefl_init z _ := (z, [], [], false);
  tdefl_compress := tdefl_step;
  tdefl_owes d p finish := Z.of_nat (length p) + (if finish && negb d.2 then 1 else 0);
  ZSTD_CCtx := unit;
  ZSTD_createCCtx _ _ _ := Some tt;
  ZSTD_compressStream2 _ p finish room := let k := Z.to_nat room in (tt, length (take k p), take k p, inl (Z.of_nat (length (drop k p))));
  ZSTD_getErrorName _ := [];
  ZSTD_owes _ p _ := Z.of_nat (length p);
  lzma_encoder := unit;
  lzma_easy_encoder _ _ := (tt, LZMA_OK);
  lzma_encode _ p finish room := let k := Z.to_nat room in
    (tt, length (take k p), take k p, if finish && bool_decide (drop k p = []) then LZMA_STREAM_END else LZMA_OK);
  lzma_owes _ p _ := Z.of_nat (length p);
  bz_encoder := unit;
  BZ2_bzCompressInit _ _ := Some tt;
  BZ2_bzCompress _ p finish room := let k := Z.to_nat room in
    (tt, length (take k p), take k p, if finish && bool_decide (drop k p = []) then BZ_STREAM_END else BZ_RUN_OK);
  bz_owes _ p _ := Z.of_nat (length p) }.

#[export] Program Instance tdefl_laws : TdeflLaws := {
  tdefl_zlib d := d.1.1.1; tdefl_read d := d.1.1.2; tdefl_wrote d := d.1.2;
  tdefl_ready _ d := d.2 = false ∧ d.1.2 = shift <$> d.1.1.2 }.
Next Obligation. done. Qed.
Next Obligation. intros d p finish. simpl. destruct (_ && _); lia. Qed.
Next Obligation.
  intros [[[z read] wrote] dn] p finish room d' used produced status Hr [Hdn Hw] Hc. simpl in Hdn, Hw. subst dn wrote.
  simpl in Hc. injection Hc as <- <- <- <-. cbn [fst snd negb]. set (k := Z.to_nat room).
  assert (Hlen : (length (take k p) ≤ length p)%nat ∧ (length (take k p) ≤ k)%nat ∧ (length p < k → take k p = p)%nat ∧ (k ≤ length p → length (take k p) = k)%nat).
  { rewrite length_take. split_and!; [lia..|intros Hl; apply take_ge; lia|lia]. }
  destruct Hlen as (L1 & L2 & L3 & L4).
  assert (Htake : take (length (take k p)) p = take k p) by (destruct (Nat.le_ge_cases k (length p)); [by rewrite L4|by rewrite !take_ge by (rewrite ?take_ge by done; done)]).
  split; [exact L1|]. rewrite Htake. destruct (finish && bool_decide (length p < k)%nat) eqn:Hd.
  - apply andb_true_iff in Hd as [-> Hlt%bool_decide_eq_true]. rewrite (L3 Hlt), drop_all, length_app, length_fmap. simpl.
    split; [lia|]. do 3 (split; [done|]). split; [lia|]. right. split; [done|]. split; [done|]. split; [done|].
    intros win v. rewrite <- !app_assoc, app_assoc, <- fmap_app. apply text_shift.
  - rewrite app_nil_r. simpl. rewrite length_drop, length_fmap. split; [lia|]. do 3 (split; [done|]). split; [destruct finish; simpl; lia|].
    left. split; [done|]. rewrite fmap_app. split; [done|]. split; [done|]. intros Hl.
    assert (Hlt : (length p < k)%nat) by (destruct (decide (length p < k)%nat); [done|]; lia).
    rewrite bool_decide_eq_true_2, andb_true_r in Hd by done. split; [done|]. by rewrite L3.
Qed.

#[export] Instance memory : Memory := { can_allocate _ _ := true; inflate_size := 43000; deflate_size := 320000 }.

End NulEnded.

(** ** A run *)

Module Run.
Import Plain NulEnded.

Definition bz2 : kind := Kind OP_BZ2 FMT_RAW 0 0 0.
Definition start : stream := new_stream OP_BZ2 FMT_RAW (Bz2Decoder None) PH_BETWEEN 0 1.

(** The stream after a chunk, and what it gave. *)
Definition fed (s : stream) (v : bytes) (max : Z) : stream * bytes :=
  match stream_update s (LString v) (LInt max) with
  | Some (s', Answers out) => (s', out)
  | _ => (s, [])
  end.

Definition given_out (s : stream) (v : bytes) (max : Z) : option bytes :=
  match stream_update s (LString v) (LInt max) with
  | Some (_, Answers out) => Some out
  | _ => None
  end.

Lemma fed_update s v max out :
  given_out s v max = Some out → stream_update s (LString v) (LInt max) = Some ((fed s v max).1, Answers out).
Proof. unfold given_out, fed. destruct (stream_update _ _ _) as [[s' [o| |]]|]; [|done..]. by intros [= ->]. Qed.

(** A magic cut short, and then a member cut short by the limit. *)
Definition first : stream * bytes := fed start (lit "BZ") 4.
Definition second : stream * bytes := fed (first.1) (lit "h9hello" ++ [0] ++ lit "rest") 4.

Lemma first_reached : reached bz2 (lit "BZ") [] (first.1).
Proof.
  apply (reached_update bz2 [] [] start (LString (lit "BZ")) (lit "BZ") (LInt 4) _ []).
  - by apply reached_made, made_bz2.
  - reflexivity.
  - by vm_compute.
  - apply fed_update. vm_compute. reflexivity.
Qed.

Lemma second_reached : reached bz2 (lit "BZ" ++ lit "h9hello" ++ [0] ++ lit "rest") (lit "BZh9") (second.1).
Proof.
  apply (reached_update bz2 (lit "BZ") [] (first.1) (LString (lit "h9hello" ++ [0] ++ lit "rest")) _ (LInt 4) _ (lit "BZh9")).
  - apply first_reached.
  - reflexivity.
  - by vm_compute.
  - apply fed_update. vm_compute. reflexivity.
Qed.

Definition third : stream * bytes := fed (second.1) [] 100.

Lemma third_reached : reached bz2 (lit "BZ" ++ lit "h9hello" ++ [0] ++ lit "rest") (lit "BZh9hello") (third.1).
Proof.
  apply (reached_update bz2 (lit "BZ" ++ lit "h9hello" ++ [0] ++ lit "rest") (lit "BZh9") (second.1) (LString []) [] (LInt 100) _ (lit "hello")).
  - apply second_reached.
  - reflexivity.
  - by vm_compute.
  - apply fed_update. vm_compute. reflexivity.
Qed.

(** The magic's end and a member come in one chunk, of which four bytes go
    out. *)
Lemma update_streams_witness :
  reached bz2 (lit "BZ") [] (first.1) ∧
  stream_update (first.1) (LString (lit "h9hello" ++ [0] ++ lit "rest")) (LInt 4) = Some (second.1, Answers (lit "BZh9")) ∧
  stream_pending (second.1) = true ∧
  ∃ s' a, stream_update (first.1) (LString (lit "h9hello" ++ [0] ++ lit "rest")) (LInt 4) = Some (s', a) ∧
    match a with
    | Answers out => ∀ w o r, decodes bz2 ((lit "BZ" ++ lit "h9hello" ++ [0] ++ lit "rest") ++ w) = Some (o, r) → out `prefix_of` o
    | _ => True
    end.
Proof.
  split; [apply first_reached|]. split; [apply fed_update; vm_compute; reflexivity|]. split; [vm_compute; reflexivity|].
  destruct (update_streams bz2 (lit "BZ") [] (first.1) (LString (lit "h9hello" ++ [0] ++ lit "rest")) (lit "h9hello" ++ [0] ++ lit "rest") (LInt 4) 4
    first_reached eq_refl eq_refl eq_refl ltac:(by vm_compute)) as (s' & a & Hup & Ha).
  exists s', a. split; [exact Hup|]. destruct a; [apply Ha|exact I..].
Defined.

(** What a finish leaves as the rest. *)
Definition finishes (s : stream) : option bytes :=
  match stream_finish s with Some (s', Answers []) => Some (stream_rest s') | _ => None end.

(** All of it gone out, the stream is finished. *)
Lemma finish_streams_witness :
  reached bz2 (lit "BZ" ++ lit "h9hello" ++ [0] ++ lit "rest") (lit "BZh9hello") (third.1) ∧
  stream_pending (third.1) = false ∧
  decodes bz2 (lit "BZ" ++ lit "h9hello" ++ [0] ++ lit "rest") = Some (lit "BZh9hello", lit "rest") ∧
  finishes (third.1) = Some (lit "rest") ∧
  ∃ s' a, stream_finish (third.1) = Some (s', a) ∧ finished s' = true.
Proof.
  split; [apply third_reached|]. split; [vm_compute; reflexivity|]. split; [vm_compute; reflexivity|].
  split; [vm_compute; reflexivity|].
  destruct (finish_streams bz2 _ _ (third.1) third_reached ltac:(by vm_compute)) as (s' & a & Hfin & Hends).
  exists s', a. split; [exact Hfin|]. change (stream_pending (third.1)) with (more (third.1)) in Hends.
  assert (Hmore : more (third.1) = false) by (vm_compute; reflexivity). rewrite Hmore in Hends. apply Hends.
Defined.

(** Two chunks of a gzip stream, NULs among them. *)
Lemma deflater_round_trip_witness :
  format_named (LString (lit "gzip")) = inl FMT_GZIP ∧
  (∃ s, deflater (LString (lit "gzip")) (LInt 9) = Answers s ∧
     encode_all s [lit "ab"; [0; 255]] = Some (gzip_header ++ [353; 354; 256; 511; 0] ++ push_u32le 450 ++ push_u32le 4)) ∧
  ∃ s out, deflater (LString (lit "gzip")) (LInt 9) = Answers s ∧ encode_all s [lit "ab"; [0; 255]] = Some out ∧
    decodes (Kind OP_INFLATE FMT_GZIP 0 0 0) out = Some (lit "ab" ++ [0; 255], []).
Proof.
  split; [reflexivity|]. split; [eexists; split; [reflexivity|vm_compute; reflexivity]|].
  apply (deflater_round_trip (LString (lit "gzip")) (LInt 9) FMT_GZIP 9 [lit "ab"; [0; 255]]);
    [reflexivity|reflexivity|split; discriminate|intros n k; reflexivity].
Defined.

End Run.
