(* ===== verification/CompressOnce.v ===== *)
(** * Raw deflate at once: [core/compress.c]

    [cosmic_inflate_raw] and [cosmic_deflate_raw], which the store and SQL
    use: the whole of a stream into one growing block, no longer than a limit,
    and the whole of a text out of miniz's callbacks.  miniz's decompressor,
    in the mode that writes to one block, and its compressor are parameters. *)

From S2P Require Import Prelude.
From S2P Require Import Codecs.
From S2P Require Import Compress.
From S2P Require Import CompressDecode.

Local Open Scope Z_scope.

(** ** miniz *)

Definition TINFL_STATUS_FAILED_CANNOT_MAKE_PROGRESS : Z := -4.

(** What a compressor does: it puts a piece of the stream, going on with
    whether that was kept, or is over. *)
Inductive putting := Put (data : bytes) (k : bool → putting) | Over (status : Z).

(** A call is given the input left, the output so far and the room after it,
    and answers the input it used, what it wrote and its status. *)
Class Miniz := {
  tinfl_whole : Type;
  tinfl_whole_size : Z;
  tinfl_whole_init : tinfl_whole;
  tinfl_whole_call : tinfl_whole → bytes → bytes → Z → tinfl_whole * nat * bytes * Z;
  tdefl_whole : bytes → putting }.

(** ** The code *)

Definition no_memory : bytes := lit "not enough memory".
Definition followed : bytes := lit "the deflate stream is followed by more bytes".
Definition cut_short : bytes := lit "truncated deflate stream".
Definition damaged : bytes := lit "the deflate stream is damaged".
Definition over_limit : bytes := lit "the deflate stream decodes to more than the limit".

Section once.
Context `{Miniz, Memory}.

(** The room of the next block, of a stream of [len] bytes. *)
Definition next_room (max len cap : Z) : Z :=
  let room := if max / 2 <? cap then max else cap * 2 in
  let room := if cap =? 0 then (if max / 4 <? len then max else len * 4) else room in
  let room := if room <? 128 then 128 else room in
  if max <? room then max else room.

(** The loop: the text or why not; [None] were it to go on after the fuel. *)
Fixpoint inflate_loop (fuel : nat) (max len : Z) (asks : nat) (d : tinfl_whole) (input out : bytes) (cap : Z) : option (bytes + bytes) * nat :=
  match fuel with
  | O => (None, asks)
  | S fuel =>
      let '(d, used, produced, status) := tinfl_whole_call d input out (cap - Z.of_nat (length out)) in
      let input := drop used input in
      let out := out ++ produced in
      if status =? TINFL_STATUS_DONE then
        if negb (bool_decide (input = [])) then (Some (inr followed), asks)
        else if cap =? 0 then (Some (if can_allocate asks 1 then inl out else inr no_memory), S asks)
        else (Some (inl out), asks)
      else if negb (status =? TINFL_STATUS_HAS_MORE_OUTPUT) then
        (Some (inr (if (status =? TINFL_STATUS_FAILED_CANNOT_MAKE_PROGRESS) || (status =? TINFL_STATUS_NEEDS_MORE_INPUT)
                    then cut_short else damaged)), asks)
      else if max <=? cap then (Some (inr over_limit), asks)
      else
        let room := next_room max len cap in
        if can_allocate asks (room + 1) then inflate_loop fuel max len (S asks) d input out room
        else (Some (inr no_memory), S asks)
  end.

(** Enough for a block that doubles up to half of [SIZE_MAX]. *)
Definition inflate_turns : nat := 66.

Definition cosmic_inflate_raw (data : bytes) (max : Z) (asks : nat) : option (bytes + bytes) * nat :=
  let max := if SIZE_MAX / 2 <? max then SIZE_MAX / 2 else max in
  if can_allocate asks tinfl_whole_size then inflate_loop inflate_turns max (Z.of_nat (length data)) (S asks) tinfl_whole_init data [] 0
  else (Some (inr no_memory), S asks).

(** [put_bytes], at each piece. *)
Fixpoint put_all (p : putting) (b : buffer) (asks : nat) : buffer * Z * nat :=
  match p with
  | Over status => (b, status, asks)
  | Put data k =>
      match bytes_append asks b data with
      | (Some b, asked) => put_all (k true) b (if asked then S asks else asks)
      | (None, asked) => put_all (k false) b (if asked then S asks else asks)
      end
  end.

(** [None] where there was no memory or the compressor failed. *)
Definition cosmic_deflate_raw (data : bytes) (asks : nat) : option bytes * nat :=
  if can_allocate asks deflate_size then
    let '(b, status, asks) := put_all (tdefl_whole data) (Buffer [] 0) (S asks) in
    (if negb (status =? TDEFL_STATUS_DONE) || (b_cap b =? 0) then None else Some (b_data b), asks)
  else (None, S asks).

End once.

(** ** What miniz promises *)

(** What a stream is: a text and what follows its end, or where it stops
    short or is damaged what it holds before. *)
Inductive whole := Ends (o r : bytes) | Short (o : bytes) | Damaged (o : bytes).
Definition before (p : bytes) (w : whole) : whole :=
  match w with Ends o r => Ends (p ++ o) r | Short o => Short (p ++ o) | Damaged o => Damaged (p ++ o) end.

(** A stream with nothing left that does not end. *)
Definition stuck (w : whole) : Prop := w = Short [] ∨ w = Damaged [].

(** One that is damaged where all before it finds room. *)
Definition damaged_within (room : Z) (w : whole) : Prop := ∃ o, w = Damaged o ∧ Z.of_nat (length o) ≤ room.

(** A compressor a piece of whose stream was not kept fails. *)
Fixpoint fails (p : putting) : Prop :=
  match p with Over status => status ≠ TDEFL_STATUS_DONE | Put _ k => ∀ b, fails (k b) end.

(** One each of whose pieces is kept writes a stream of the text. *)
Fixpoint compresses (stream : bytes → whole) (text wrote : bytes) (p : putting) : Prop :=
  match p with
  | Over status => status = TDEFL_STATUS_DONE ∧ wrote ≠ [] ∧ stream wrote = Ends text []
  | Put data k => Z.of_nat (length (wrote ++ data)) ≤ SIZE_MAX / 2 ∧ compresses stream text (wrote ++ data) (k true) ∧ fails (k false)
  end.

(** More output is said to come only with the room full.  It comes, but for
    a stored block that stops short with the room ([tinfl_decompress] looks for
    room before it looks for input) and for a damaged stream, whose bad code
    may be read as bytes that are not there until there is room for two. *)
Class MinizLaws `{Miniz} := {
  stream : bytes → whole;
  whole_left : tinfl_whole → bytes → bytes → whole;
  whole_init w : whole_left tinfl_whole_init [] w = stream w;
  whole_call d input out room d' used produced status :
    0 ≤ room → tinfl_whole_call d input out room = (d', used, produced, status) →
    let left := whole_left d out input in
    let left' := whole_left d' (out ++ produced) (drop used input) in
    Z.of_nat (length produced) ≤ room ∧
    ((status = TINFL_STATUS_DONE ∧ left = Ends produced (drop used input)) ∨
     (status = TINFL_STATUS_HAS_MORE_OUTPUT ∧ Z.of_nat (length produced) = room ∧
       (left = before produced left' ∧ (∀ r, left' ≠ Ends [] r) ∨ damaged_within room left ∧ left' = Damaged [])) ∨
     ((status = TINFL_STATUS_FAILED_CANNOT_MAKE_PROGRESS ∨ status = TINFL_STATUS_NEEDS_MORE_INPUT) ∧
       (left = Short produced ∨ damaged_within room left)) ∨
     (status ≠ TINFL_STATUS_DONE ∧ status ≠ TINFL_STATUS_HAS_MORE_OUTPUT ∧ status ≠ TINFL_STATUS_FAILED_CANNOT_MAKE_PROGRESS ∧
       status ≠ TINFL_STATUS_NEEDS_MORE_INPUT ∧ damaged_within room left));
  tdefl_law text : Z.of_nat (length text) ≤ SIZE_MAX / 4 → compresses stream text [] (tdefl_whole text) }.

Section correct.
Context `{MinizLaws, Memory}.

(** What decoding a stream within a limit may answer.  Where the text ends
    the stream, that or that it is too long; where the stream stops short or
    is damaged, which of the refusals, or with the limit met exactly by what
    is there, one of them. *)
Definition answers_within (max : Z) (w : whole) (a : bytes + bytes) : Prop :=
  match w with
  | Ends o r =>
      a = if max <? Z.of_nat (length o) then inr over_limit else if bool_decide (r = []) then inl o else inr followed
  | Short o =>
      a = inr over_limit ∧ max ≤ Z.of_nat (length o) ∨ a = inr cut_short ∧ Z.of_nat (length o) ≤ max
  | Damaged o =>
      a = inr over_limit ∨ (a = inr damaged ∨ a = inr cut_short) ∧ Z.of_nat (length o) ≤ max
  end.

Definition starved : Prop := ∃ n size, can_allocate n size = false.

Lemma before_app p q w : before p (before q w) = before (p ++ q) w.
Proof. by destruct w; simpl; rewrite app_assoc. Qed.

(** The limit is passed where the room was as much and more was to come. *)
Lemma over_limit_answers max out produced w w' room :
  room = max - Z.of_nat (length out) → Z.of_nat (length produced) = room →
  w = before produced w' ∧ (∀ r, w' ≠ Ends [] r) ∨ damaged_within room w ∧ w' = Damaged [] →
  answers_within max (before out w) (inr over_limit).
Proof.
  intros Hroom Hp [[-> Hne]|[(o & -> & Ho) _]]; [|by left].
  destruct w' as [o r|o|o]; simpl; rewrite ?length_app; [|left; split; [done|lia]|by left].
  destruct o as [|x o]; [by destruct (Hne r)|]. rewrite (proj2 (Z.ltb_lt _ _)); [done|]. simpl. lia.
Qed.

(** An answer for what is left later is one for what was. *)
Lemma answers_later max out produced w w' room a :
  Z.of_nat (length out) + room ≤ max → Z.of_nat (length produced) = room →
  w = before produced w' ∧ (∀ r, w' ≠ Ends [] r) ∨ damaged_within room w ∧ w' = Damaged [] →
  answers_within max (before (out ++ produced) w') a → answers_within max (before out w) a.
Proof.
  intros Hroom Hp [[-> _]|[(o & -> & Ho) ->]]; [by rewrite before_app|]. simpl. rewrite app_nil_r, !length_app.
  intros [->|[Ha _]]; [by left|]. right. split; [done|lia].
Qed.

Lemma next_room_spec max len cap :
  0 ≤ cap < max → 0 ≤ len →
  let room := next_room max len cap in cap < room ≤ max ∧ (0 < cap → room = max ∨ cap * 2 ≤ room).
Proof.
  intros Hc Hl. unfold next_room. pose proof (Z.div_mod max 2 ltac:(lia)). pose proof (Z.mod_pos_bound max 2 ltac:(lia)).
  pose proof (Z.div_mod max 4 ltac:(lia)). pose proof (Z.mod_pos_bound max 4 ltac:(lia)).
  destruct (Z.ltb_spec (max / 2) cap), (Z.eqb_spec cap 0), (Z.ltb_spec (max / 4) len);
    repeat match goal with |- context [?a <? ?b] => destruct (Z.ltb_spec a b) end; lia.
Qed.

(** The loop ends within its fuel, with the answer. *)
Lemma inflate_loop_spec fuel max len asks d input out cap :
  0 ≤ len → 0 ≤ cap ≤ max → Z.of_nat (length out) ≤ cap → (0 < fuel)%nat →
  (cap = 0 → max ≤ 2 ^ Z.of_nat (fuel - 2)) → (0 < cap → max ≤ cap * 2 ^ Z.of_nat (fuel - 1)) → (cap = 0 → (1 < fuel)%nat) →
  ∃ a, (inflate_loop fuel max len asks d input out cap).1 = Some a ∧
    (answers_within max (before out (whole_left d out input)) a ∨ a = inr no_memory ∧ starved).
Proof.
  intros Hlen. revert asks d input out cap. induction fuel as [|fuel IH]; intros asks d input out cap Hc Ho Hf F1 F2 F3; [lia|]. simpl.
  destruct (tinfl_whole_call d input out (cap - Z.of_nat (length out))) as [[[d' used] produced] status] eqn:E.
  assert (0 ≤ cap - Z.of_nat (length out)) as Hroom by lia.
  destruct (whole_call _ _ _ _ _ _ _ _ Hroom E) as (Hp & Hcases).
  assert (Z.of_nat (length (out ++ produced)) ≤ max) as Hop by (rewrite length_app; lia).
  destruct Hcases as [[-> Hw]|[(-> & Hfull & Hw)|[[Hst Hw]|(S1 & S2 & S3 & S4 & Hw)]]].
  - rewrite Z.eqb_refl, Hw. simpl. destruct (Z.ltb_spec max (Z.of_nat (length (out ++ produced)))); [lia|].
    case_bool_decide as Er; simpl; [|eexists; split; [done|by left]].
    destruct (cap =? 0); simpl; [|eexists; split; [done|by left]].
    destruct (can_allocate asks 1) eqn:Ea; eexists; (split; [done|]); [by left|right]. split; [done|]. by exists asks, 1.
  - simpl. destruct (Z.leb_spec max cap) as [Hm|Hm].
    + eexists. split; [done|]. left. eapply over_limit_answers; [|exact Hfull|exact Hw]. lia.
    + destruct (next_room_spec max len cap ltac:(lia) Hlen) as [R1 R2].
      destruct (can_allocate asks (next_room max len cap + 1)) eqn:Ea; [|eexists; split; [done|]; right; split; [done|]; by eexists _, _].
      edestruct (IH (S asks) d' (drop used input) (out ++ produced) (next_room max len cap)) as (a & Ha & Hans); cycle -1.
      { exists a. split; [exact Ha|]. destruct Hans as [Hans|]; [left|by right].
        eapply (answers_later max out produced); [|exact Hfull|exact Hw|exact Hans]. lia. }
      * lia.
      * rewrite length_app. lia.
      * destruct (decide (cap = 0)) as [Hz|Hz]; [specialize (F3 Hz); lia|]. destruct fuel; [|lia]. simpl in F2. specialize (F2 ltac:(lia)). lia.
      * lia.
      * intros _. destruct (decide (cap = 0)) as [Hz|Hz].
        -- specialize (F1 Hz). specialize (F3 Hz). replace (fuel - 1)%nat with (S fuel - 2)%nat by lia. nia.
        -- specialize (F2 ltac:(lia)). destruct (R2 ltac:(lia)) as [->|Hd]; [|].
           ++ assert (1 ≤ 2 ^ Z.of_nat (fuel - 1)) by (pose proof (Z.pow_pos_nonneg 2 (Z.of_nat (fuel - 1))); lia). nia.
           ++ destruct fuel as [|fuel]; [simpl in *; lia|]. replace (S (S fuel) - 1)%nat with (S fuel) in F2 by lia.
              replace (S fuel - 1)%nat with fuel by lia. rewrite Nat2Z.inj_succ, Z.pow_succ_r in F2 by lia. nia.
      * lia.
  - assert ((status =? TINFL_STATUS_DONE) = false ∧ (status =? TINFL_STATUS_HAS_MORE_OUTPUT) = false) as [-> ->] by (by destruct Hst; subst).
    assert ((status =? TINFL_STATUS_FAILED_CANNOT_MAKE_PROGRESS) || (status =? TINFL_STATUS_NEEDS_MORE_INPUT) = true) as -> by (by destruct Hst; subst).
    simpl. eexists. split; [done|]. left. destruct Hw as [->|(o & -> & Hfit)]; simpl; right.
    + by split.
    + split; [by right|]. rewrite length_app. lia.
  - rewrite !(proj2 (Z.eqb_neq _ _)) by done. simpl. eexists. split; [done|]. left. destruct Hw as (o & -> & Hfit). simpl.
    right. split; [by left|]. rewrite length_app. lia.
Qed.

Lemma inflate_raw_ends data max asks :
  0 ≤ max →
  ∃ a, (cosmic_inflate_raw data max asks).1 = Some a ∧
    (answers_within (Z.min max (SIZE_MAX / 2)) (stream data) a ∨ a = inr no_memory ∧ starved).
Proof.
  intros Hm. unfold cosmic_inflate_raw.
  assert ((if SIZE_MAX / 2 <? max then SIZE_MAX / 2 else max) = Z.min max (SIZE_MAX / 2)) as -> by (destruct (Z.ltb_spec (SIZE_MAX / 2) max); lia).
  assert (0 ≤ Z.min max (SIZE_MAX / 2) ≤ 2 ^ 64) as [Hn Hx] by (change (SIZE_MAX / 2) with 9223372036854775807; lia).
  destruct (can_allocate asks tinfl_whole_size) eqn:Ea; [|eexists; split; [done|]; right; split; [done|]; by eexists _, _].
  destruct (inflate_loop_spec inflate_turns (Z.min max (SIZE_MAX / 2)) (Z.of_nat (length data)) (S asks) tinfl_whole_init data [] 0) as (a & E & Hs);
    [lia|lia|done|unfold inflate_turns; lia|intros _; exact Hx|lia|intros _; unfold inflate_turns; lia|].
  exists a. split; [done|]. destruct Hs as [Hs|]; [left|by right]. rewrite whole_init in Hs. by destruct (stream data).
Qed.

(** C32: for any stream and limit a raw inflate ends, and answers the text the
    stream decodes to where it ends with it and is no longer than the limit;
    that it is followed by more, or is longer than the limit, where it is; one
    of the refusals where it stops short or is damaged, the limit's wherever
    what comes before is past it; or that there was no memory, where an
    allocation was refused. *)
Theorem inflate_raw_decodes data max asks :
  0 ≤ max →
  ∃ a, (cosmic_inflate_raw data max asks).1 = Some a ∧
    (answers_within (Z.min max (SIZE_MAX / 2)) (stream data) a ∨ a = inr no_memory ∧ starved).
Proof. apply inflate_raw_ends. Qed.

(** *** The compressor *)

Lemma put_all_fails p b asks : fails p → (put_all p b asks).1.2 ≠ TDEFL_STATUS_DONE.
Proof.
  revert b asks. induction p as [data k IH|status]; intros b asks Hf; simpl in *; [|done].
  destruct (bytes_append asks b data) as [[b'|] asked]; by apply IH.
Qed.

Lemma put_all_spec text p b asks b' status n :
  compresses stream text (b_data b) p → put_all p b asks = (b', status, n) → status = TDEFL_STATUS_DONE → stream (b_data b') = Ends text [].
Proof.
  revert b asks. induction p as [data k IH|st]; intros b asks Hc; simpl in *.
  - destruct Hc as (_ & Hk & Hf). destruct (bytes_append asks b data) as [[b1|] asked] eqn:E.
    + apply bytes_append_data in E. apply IH. by rewrite E.
    + intros Hp Hs. pose proof (put_all_fails _ b (if asked then S asks else asks) Hf) as Hn. by rewrite Hp in Hn.
  - intros [= <- <- <-] _. apply Hc.
Qed.

Lemma room_positive fuel room need : 0 < room → 0 < room_loop fuel room need.
Proof.
  revert room. induction fuel as [|fuel IH]; intros room Hr; simpl; [done|]. destruct (Z.ltb_spec room need); [|done].
  apply IH. case_match; lia.
Qed.

#[local] Opaque room_loop.

(** Where nothing is refused every piece is kept. *)
Lemma put_all_kept text p b asks :
  ¬ starved → compresses stream text (b_data b) p → 0 ≤ b_cap b → (b_cap b = 0 → b_data b = []) →
  ∃ b' n, put_all p b asks = (b', TDEFL_STATUS_DONE, n) ∧ b_cap b' ≠ 0.
Proof.
  intros Hs. revert b asks. induction p as [data k IH|st]; intros b asks Hc Hz0 Hb; simpl in *.
  - destruct Hc as (Hl & Hk & _). rewrite length_app in Hl. unfold bytes_append.
    destruct (Z.eqb_spec (Z.of_nat (length data)) 0) as [Hz|Hz].
    { apply IH; [|done|done]. destruct data; [by rewrite app_nil_r in Hk|done]. }
    destruct (Z.ltb_spec (SIZE_MAX - Z.of_nat (length (b_data b))) (Z.of_nat (length data))) as [Hx|_].
    { change (SIZE_MAX / 2) with 9223372036854775807 in Hl. change SIZE_MAX with 18446744073709551615 in Hx. lia. }
    destruct (Z.ltb_spec (b_cap b) (Z.of_nat (length (b_data b)) + Z.of_nat (length data))) as [Hg|Hg].
    + destruct (can_allocate asks _) eqn:Ea; [|destruct Hs; by eexists _, _].
      assert (0 < room_loop 64 (if b_cap b =? 0 then 256 else b_cap b) (Z.of_nat (length (b_data b)) + Z.of_nat (length data))) as Hr
        by (apply room_positive; destruct (Z.eqb_spec (b_cap b) 0); lia).
      apply IH; simpl; [done|lia|lia].
    + apply IH; simpl; [done|done|]. intros Hz'. specialize (Hb Hz'). rewrite Hb in Hg. simpl in Hg. lia.
  - destruct Hc as (-> & Hw & _). eexists _, _. split; [done|]. intros Hz. by apply Hw, Hb.
Qed.

(** What a text is deflated to inflates to it, with any limit it is within;
    and where no allocation is refused both are made. *)
Theorem deflate_raw_round_trip text max asks asks' :
  Z.of_nat (length text) ≤ SIZE_MAX / 4 → Z.of_nat (length text) ≤ max →
  (∀ wire, (cosmic_deflate_raw text asks).1 = Some wire →
     (cosmic_inflate_raw wire max asks').1 = Some (inl text) ∨ (cosmic_inflate_raw wire max asks').1 = Some (inr no_memory) ∧ starved) ∧
  (¬ starved → is_Some (cosmic_deflate_raw text asks).1).
Proof.
  intros Ht Hm. pose proof (tdefl_law text Ht) as Hc. unfold cosmic_deflate_raw. split.
  - intros wire. destruct (can_allocate asks deflate_size); [|done].
    destruct (put_all (tdefl_whole text) (Buffer [] 0) (S asks)) as [[b status] n] eqn:E. simpl.
    destruct (Z.eqb_spec status TDEFL_STATUS_DONE) as [Hst|]; simpl; [|done]. destruct (b_cap b =? 0); [done|]. intros [= <-].
    pose proof (put_all_spec text _ (Buffer [] 0) _ _ _ _ Hc E Hst) as Hw.
    destruct (inflate_raw_ends (b_data b) max asks') as (a & -> & Ha); [lia|]. destruct Ha as [Ha|[-> ?]]; [left|by right].
    rewrite Hw in Ha. simpl in Ha. rewrite Ha. change (SIZE_MAX / 4) with 4611686018427387903 in Ht. change (SIZE_MAX / 2) with 9223372036854775807.
    destruct (Z.ltb_spec (Z.min max 9223372036854775807) (Z.of_nat (length text))); [lia|done].
  - intros Hs. destruct (can_allocate asks deflate_size) eqn:Ea; [|destruct Hs; by eexists _, _].
    destruct (put_all_kept text (tdefl_whole text) (Buffer [] 0) (S asks) Hs Hc) as (b & n & -> & Hb); [done|done|].
    simpl. destruct (Z.eqb_spec (b_cap b) 0); [done|]. by eexists.
Qed.

End correct.

(** ** A miniz the laws hold of *)

Module Stored.

(** A stream is a length and that many bytes. *)
Definition left_of (n : nat) (input : bytes) : whole :=
  if (n <=? length input)%nat then Ends (take n input) (drop n input) else Short input.
Definition stored (w : bytes) : whole :=
  match w with [] => Short [] | n :: w => if n <? 0 then Damaged [] else left_of (Z.to_nat n) w end.

(** What is written of [n] bytes left, the room looked for before the input. *)
Definition some_more (n : nat) (input : bytes) (room : Z) (used : nat) : option nat * nat * bytes * Z :=
  let p := Nat.min (Nat.min n (length input)) (Z.to_nat room) in
  (Some (n - p)%nat, (used + p)%nat, take p input,
   if (p =? n)%nat then TINFL_STATUS_DONE
   else if Z.of_nat p =? room then TINFL_STATUS_HAS_MORE_OUTPUT else TINFL_STATUS_FAILED_CANNOT_MAKE_PROGRESS).

#[export] Instance miniz : Miniz := {
  tinfl_whole := option nat;
  tinfl_whole_size := 11000;
  tinfl_whole_init := None;
  tinfl_whole_call d input _ room :=
    match d, input with
    | None, [] => (None, 0%nat, [], TINFL_STATUS_FAILED_CANNOT_MAKE_PROGRESS)
    | None, n :: input => if n <? 0 then (None, 0%nat, [], -1) else some_more (Z.to_nat n) input room 1
    | Some n, input => some_more n input room 0
    end;
  tdefl_whole text := Put (Z.of_nat (length text) :: text) (λ b, Over (if b then TDEFL_STATUS_DONE else -2)) }.

Definition left_after (d : option nat) (input : bytes) : whole := match d with None => stored input | Some n => left_of n input end.

Lemma some_more_spec n pre input room d used produced status :
  0 ≤ room → some_more n input room (length pre) = (d, used, produced, status) →
  let left' := left_after d (drop used (pre ++ input)) in
  Z.of_nat (length produced) ≤ room ∧
  ((status = TINFL_STATUS_DONE ∧ left_of n input = Ends produced (drop used (pre ++ input))) ∨
   (status = TINFL_STATUS_HAS_MORE_OUTPUT ∧ Z.of_nat (length produced) = room ∧
     left_of n input = before produced left' ∧ (∀ r, left' ≠ Ends [] r)) ∨
   (status = TINFL_STATUS_FAILED_CANNOT_MAKE_PROGRESS ∧ left_of n input = Short produced)).
Proof.
  intros Hr. unfold some_more. set (p := Nat.min (Nat.min n (length input)) (Z.to_nat room)).
  intros [= <- <- <- <-]. rewrite length_take. split; [lia|]. rewrite drop_app_add. unfold left_of, left_after, left_of.
  destruct (Nat.eqb_spec p n) as [Hn|Hn]; [left; split; [done|]|right].
  { destruct (Nat.leb_spec n (length input)); [by rewrite Hn|lia]. }
  destruct (Z.eqb_spec (Z.of_nat p) room) as [Hi|Hi]; [left|right].
  - split; [done|]. split; [lia|]. rewrite length_drop.
    destruct (Nat.leb_spec n (length input)), (Nat.leb_spec (n - p) (length input - p)); try lia; simpl.
    + split; [|intros r E; apply (f_equal length) in E || injection E as E _; apply (f_equal length) in E; rewrite length_take, length_drop in E; simpl in E; lia].
      f_equal; [rewrite take_take_drop; f_equal; lia|rewrite drop_drop; f_equal; lia].
    + split; [by rewrite take_drop|done].
  - split; [done|]. destruct (Nat.leb_spec n (length input)); [lia|]. rewrite take_ge by lia. done.
Qed.

#[local] Obligation Tactic := idtac.
#[export] Program Instance miniz_laws : MinizLaws := {
  stream := stored;
  whole_left d _ input := left_after d input }.
Next Obligation. done. Qed.
Next Obligation.
  intros [n|] input out room d used produced status Hr Hc; simpl in *.
  - destruct (some_more_spec n [] input room d used produced status Hr Hc) as (S1 & S2). split; [done|]. tauto.
  - destruct input as [|n input]; [injection Hc as <- <- <- <-; split; [done|]; right; right; left; split; [by left|by left]|].
    simpl. destruct (n <? 0).
    { injection Hc as <- <- <- <-. split; [done|]. right; right; right. split_and!; [done..|]. by exists []. }
    destruct (some_more_spec (Z.to_nat n) [n] input room d used produced status Hr Hc) as (S1 & S2). split; [done|]. tauto.
Qed.
Next Obligation.
  intros text Ht. simpl. rewrite (proj2 (Z.ltb_ge _ _)) by lia. rewrite Nat2Z.id. change (SIZE_MAX / 4) with 4611686018427387903 in Ht.
  change (SIZE_MAX / 2) with 9223372036854775807. split; [lia|]. split; [|done]. split; [done|]. split; [done|].
  unfold left_of. by rewrite Nat.leb_refl, firstn_all, drop_all.
Qed.

#[export] Instance memory : Memory := {| can_allocate _ _ := true; inflate_size := 43000; deflate_size := 320000 |}.

Lemma inflate_raw_decodes_witness :
  stream [2; 7; 8] = Ends [7; 8] [] ∧ (cosmic_inflate_raw [2; 7; 8] 2 0).1 = Some (inl [7; 8]) ∧
  stream [3; 7; 8] = Short [7; 8] ∧ (cosmic_inflate_raw [3; 7; 8] 2 0).1 = Some (inr over_limit).
Proof.
  assert (0 ≤ 2) as Hm by lia. split; [reflexivity|]. split; [|split; [reflexivity|vm_compute; reflexivity]].
  destruct (inflate_raw_decodes [2; 7; 8] 2 0 Hm) as (a & Ha & [E|(_ & n & size & E)]); [|discriminate E].
  rewrite Ha. f_equal. exact E.
Defined.

Lemma deflate_raw_round_trip_witness :
  (cosmic_deflate_raw [7; 8; 9] 0).1 = Some [3; 7; 8; 9] ∧ (cosmic_inflate_raw [3; 7; 8; 9] 3 0).1 = Some (inl [7; 8; 9]).
Proof.
  assert ((cosmic_deflate_raw [7; 8; 9] 0).1 = Some [3; 7; 8; 9]) as Hw by (vm_compute; reflexivity). split; [exact Hw|].
  assert (Z.of_nat (length [7; 8; 9]) ≤ SIZE_MAX / 4) as H1 by (vm_compute; discriminate).
  assert (Z.of_nat (length [7; 8; 9]) ≤ 3) as H2 by (vm_compute; discriminate).
  destruct (proj1 (deflate_raw_round_trip [7; 8; 9] 3 0 0 H1 H2) _ Hw) as [E|(_ & n & size & E)]; [exact E|discriminate E].
Defined.

End Stored.
