(* ===== verification/Startup.v ===== *)
(** * The start of a program: [core/startup.c]

    What a launcher hands a process through its environment, the environment
    cleared of it, and the adoption of the artifact, its core and the core's
    stamp, with the descriptors that are opened and closed on the way.  The
    files the descriptors and paths reach, the clock and the identity compiled
    in are parameters. *)

From S2P Require Import Prelude.
From S2P Require Import Texts.
From S2P Require Import Lua.
From S2P Require Import ReadAt.
From S2P Require Import Portable.
From S2P Require Import Crypto.

Local Open Scope Z_scope.

(** ** The world of a start *)

(** [struct stat]. *)
Record stat := Stat { st_dev : Z; st_ino : Z; st_regular : bool; st_size : Z; st_mtime : Z; st_ctime : Z }.

(** What one process finds: the identity compiled in, the file each descriptor
    is open on, the files at paths, the path [/proc/self/exe] links to and the
    descriptors opened on it, the clock, and what the calls that read and
    replace a stamp's file come to: the descriptor an existing file opens as,
    whether it reads, the descriptor and name a temporary is made with among
    the files there are, how much of it is written, and whether its closing,
    renaming and unlinking succeed. *)
Class World := {
  COSMIC_TARGET_ID : Z;
  COSMIC_CONFIGURATION_ID : Z;
  file : Z → Kernel;
  fstat_fd : Z → option stat;
  stat_at : bytes → option stat;
  lstat_at : bytes → option stat;
  open_readonly : bytes → Z;
  proc_self_exe : option bytes;
  open_self : nat → Z;
  time_now : option Z;
  open_nofollow : bytes → Z;
  read_works : Z → bool;
  mkstemp : bytes → gmap bytes bytes → Z * bytes;
  write_count : Z → bytes → Z;
  close_works : Z → bool;
  rename_works : bytes → bytes → bool;
  unlink_works : bytes → bool;
  set_cloexec : Z → bool }.

(** ** The launcher's environment *)

Definition PREFIX : bytes := lit "COSMIC_PORTABLE_".
Definition CACHE : bytes := lit "COSMIC_PORTABLE_CACHE".

Definition portable_environment : list bytes :=
  (λ name, lit name) <$> ["COSMIC_PORTABLE_ARTIFACT_FD"; "COSMIC_PORTABLE_CORE_FD"; "COSMIC_PORTABLE_TARGET_ID";
    "COSMIC_PORTABLE_CONFIGURATION_ID"; "COSMIC_PORTABLE_CORE_OFFSET"; "COSMIC_PORTABLE_CORE_LENGTH"; "COSMIC_PORTABLE_CORE_SHA256"]%string.

(** An entry of the environment at its first [=], where it has one. *)
Fixpoint cut_at_equals (entry : bytes) : option (bytes * bytes) :=
  match entry with
  | [] => None
  | c :: entry => if c =? 0x3d then Some ([], entry) else prod_map (cons c) id <$> cut_at_equals entry
  end.

(** [getenv]: the first entry of the name. *)
Fixpoint getenv (name : bytes) (env : list bytes) : option bytes :=
  match env with
  | [] => None
  | entry :: env =>
      match cut_at_equals entry with
      | Some (n, value) => if bool_decide (n = name) then Some value else getenv name env
      | None => getenv name env
      end
  end.

(** [unsetenv]: every entry of the name goes. *)
Definition unsetenv (name : bytes) (env : list bytes) : list bytes :=
  filter (λ entry, fst <$> cut_at_equals entry ≠ Some name) env.

Definition begins (p s : bytes) : bool := bool_decide (take (length p) s = p).

(** The name of an entry that is reserved and not kept. *)
Definition reserved_name (keep : list bytes) (entry : bytes) : option bytes :=
  if negb (begins PREFIX entry) then None
  else
    match cut_at_equals entry with
    | None => None
    | Some (name, _) => if bool_decide (name = CACHE) || bool_decide (name ∈ keep) then None else Some name
    end.

(** The inner loop: the first such. *)
Fixpoint first_reserved (keep env : list bytes) : option bytes :=
  match env with
  | [] => None
  | entry :: env => match reserved_name keep entry with Some name => Some name | None => first_reserved keep env end
  end.

(** The outer loop: whether all are cleared, and what is left; the [n]th name
    has no memory where [short n]. *)
Fixpoint clear_loop (short : nat → bool) (keep : list bytes) (fuel n : nat) (env : list bytes) : option bool * list bytes :=
  match first_reserved keep env with
  | None => (Some true, env)
  | Some name =>
      match fuel with
      | O => (None, env)
      | S fuel => if short n then (Some false, env) else clear_loop short keep fuel (S n) (unsetenv name env)
      end
  end.

(** Each turn clears an entry. *)
Definition cosmic_environment_clear_reserved (short : nat → bool) (keep env : list bytes) : option bool * list bytes :=
  clear_loop short keep (length env) 0 env.

Definition cosmic_startup_has_private_environment (env : list bytes) : bool :=
  existsb (λ name, bool_decide (is_Some (getenv name env))) portable_environment.

(** ** Its fields *)

(** The loop of [decimal]. *)
Fixpoint decimal_loop (text : bytes) (maximum value digits : Z) : option Z :=
  match text with
  | [] => Some value
  | c :: text =>
      if (c <? 0x30) || (0x39 <? c) || (20 <? digits + 1) then None
      else
        let digit := c - 0x30 in
        if (maximum - digit) / 10 <? value then None else decimal_loop text maximum (value * 10 + digit) (digits + 1)
  end.

Definition decimal_field (text : option bytes) (maximum : Z) : option Z :=
  match text with None | Some [] => None | Some text => decimal_loop text maximum 0 0 end.

Definition hex_half (c : Z) : option Z :=
  if (0x30 <=? c) && (c <=? 0x39) then Some (c - 0x30)
  else if (0x61 <=? c) && (c <=? 0x66) then Some (c - 0x61 + 10)
  else if (0x41 <=? c) && (c <=? 0x46) then Some (c - 0x41 + 10)
  else None.

(** The loop of [hex_digest]: the bytes written and the text after them, were
    all of them. *)
Fixpoint hex_pairs (n : nat) (text : bytes) : bytes * option bytes :=
  match n with
  | O => ([], Some text)
  | S n =>
      match text with
      | hi :: lo :: text =>
          match hex_half hi, hex_half lo with
          | Some h, Some l => let '(out, rest) := hex_pairs n text in (h * 16 + l :: out, rest)
          | _, _ => ([], None)
          end
      | _ => ([], None)
      end
  end.

(** Whether the text is a digest's, and what [out] then holds. *)
Definition hex_digest (text : option bytes) (out : bytes) : bool * bytes :=
  match text with
  | None => (false, out)
  | Some text => let '(got, rest) := hex_pairs 32 text in (bool_decide (rest = Some []), got ++ drop (length got) out)
  end.

(** ** A startup *)

Inductive startup_kind := COSMIC_STARTUP_NATIVE | COSMIC_STARTUP_PORTABLE | COSMIC_STARTUP_HOST | COSMIC_STARTUP_DATABASE.
#[export] Instance startup_kind_eq_dec : EqDecision startup_kind.
Proof. solve_decision. Defined.

Record startup := Startup {
  su_kind : startup_kind; su_artifact_path : option bytes; su_database_path : option bytes; su_names_descriptor : bool;
  su_by_path : bool; su_artifact_fd : Z; su_core_fd : Z; su_target_id : Z; su_configuration_id : Z;
  su_core_offset : Z; su_core_length : Z; su_core_sha256 : bytes; su_contract_error : option bytes }.

Definition compiled_startup (kind : startup_kind) (path : option bytes) : startup :=
  Startup kind path None false false (-1) (-1) 0 0 0 0 (replicate 32 0) None.

Definition with_error (why : option bytes) (s : startup) : startup :=
  Startup (su_kind s) (su_artifact_path s) (su_database_path s) (su_names_descriptor s) (su_by_path s) (su_artifact_fd s) (su_core_fd s)
    (su_target_id s) (su_configuration_id s) (su_core_offset s) (su_core_length s) (su_core_sha256 s) why.

Definition INT_MAX : Z := 2 ^ 31 - 1.
Definition UINT32_MAX : Z := 2 ^ 32 - 1.
Definition UINT64_MAX : Z := 2 ^ 64 - 1.

Section environment.
Context (short : nat → bool) (keep : list bytes).

(** A startup with the environment cleared after it. *)
Definition clearing (s : startup) (env : list bytes) : startup * list bytes :=
  match cosmic_environment_clear_reserved short keep env with
  | (Some true, env) => (s, env)
  | (_, env) => (with_error (Some (lit "reserved portable environment cannot be cleared")) s, env)
  end.

Definition cosmic_startup_native (env : list bytes) : startup * list bytes :=
  clearing (compiled_startup COSMIC_STARTUP_NATIVE None) env.

Definition cosmic_startup_host (fd : Z) (path : bytes) (env : list bytes) : startup * list bytes :=
  let '(s, env) := cosmic_startup_native env in
  (Startup COSMIC_STARTUP_HOST (Some path) None false false fd (-1) 0 0 0 0 (replicate 32 0) (su_contract_error s), env).

Definition cosmic_startup_database (path : option bytes) (env : list bytes) : startup * list bytes :=
  let '(s, env) := cosmic_startup_native env in
  (Startup COSMIC_STARTUP_DATABASE None path false false (-1) (-1) 0 0 0 0 (replicate 32 0) (su_contract_error s), env).

(** The fields a launcher set, or the first that is wrong. *)
Definition portable_fields (path : option bytes) (values : list (option bytes)) : startup :=
  let s := compiled_startup COSMIC_STARTUP_PORTABLE path in
  let refuse why := with_error (Some why) s in
  let value n := default None (values !! n) in
  let by_path := bool_decide (value 0%nat = None) && bool_decide (value 1%nat = None) in
  let descriptor n := match decimal_field (value n) INT_MAX with Some fd => if fd <? 3 then None else Some fd | None => None end in
  let positive n maximum := match decimal_field (value n) maximum with Some 0 => None | v => v end in
  match (if by_path then Some (-1) else descriptor 0%nat) with
  | None => refuse (lit "portable artifact descriptor field is invalid")
  | Some artifact_fd =>
      match (if by_path then Some (-1) else descriptor 1%nat) with
      | None => refuse (lit "portable core descriptor field is invalid")
      | Some core_fd =>
          if negb by_path && (artifact_fd =? core_fd) then refuse (lit "portable descriptor fields are equal")
          else
            match positive 2%nat UINT32_MAX, positive 3%nat UINT32_MAX, decimal_field (value 4%nat) UINT64_MAX, positive 5%nat UINT64_MAX with
            | None, _, _, _ => refuse (lit "portable launcher target field is invalid")
            | _, None, _, _ => refuse (lit "portable launcher configuration field is invalid")
            | _, _, None, _ => refuse (lit "portable launcher core offset is invalid")
            | _, _, _, None => refuse (lit "portable launcher core length is invalid")
            | Some target, Some configuration, Some offset, Some length_ =>
                let '(whole, sha256) := hex_digest (value 6%nat) (replicate 32 0) in
                if whole : bool
                then Startup COSMIC_STARTUP_PORTABLE path None false by_path artifact_fd core_fd target configuration offset length_ sha256 None
                else Startup COSMIC_STARTUP_PORTABLE path None false false (-1) (-1) 0 0 0 0 sha256
                       (Some (lit "portable launcher core digest is invalid"))
            end
      end
  end.

Definition cosmic_startup_portable (path : option bytes) (env : list bytes) : startup * list bytes :=
  clearing (portable_fields path ((λ name, getenv name env) <$> portable_environment)) env.

End environment.

Definition named (path : option bytes) : bool := match path with None | Some [] => false | Some _ => true end.

Definition cosmic_startup_validate (s : startup) : option bytes :=
  if bool_decide (su_kind s = COSMIC_STARTUP_DATABASE) && negb (named (su_database_path s)) then Some (lit "--database names no database")
  else if negb (bool_decide (su_kind s = COSMIC_STARTUP_DATABASE)) && negb (bool_decide (su_kind s = COSMIC_STARTUP_NATIVE))
          && negb (named (su_artifact_path s)) then Some (lit "portable startup names no artifact")
  else su_contract_error s.

(** ** The core's digest *)

(** Whether the selected core's range hashes to its digest, once and
    remembered; none were it not to end. *)
Definition cosmic_artifact_core_matches `{Psa, Kernel} (a : option artifact) (turn : nat) : option bool * option artifact * nat :=
  match a with
  | None => (Some false, None, turn)
  | Some a =>
      if a_fd a <? 0 then (Some false, Some a, turn)
      else if a_core_checked a =? 0 then
        let e := selected (a_portable a) in
        let '(matches_, turn) :=
          if codec e =? COSMIC_PORTABLE_CODEC_RAW then cosmic_sha256_range_matches (offset e) (core_length e) (sha256 e) turn
          else (Some false, turn) in
        match matches_ with
        | None => (None, Some a, turn)
        | Some b =>
            let checked := if b : bool then 1 else -1 in
            (Some b, Some (Artifact (a_logical_path a) (a_fd a) (a_device a) (a_inode a) (a_file_size a)
                             (a_portable a) (a_host a) (a_split a) checked), turn)
        end
      else (Some (a_core_checked a =? 1), Some a, turn)
  end.

(** ** Stamps *)

(** What a start leaves besides its answer: the descriptors it opened, those
    it closed, how often it opened itself, and the files of the cache, the
    stamps and temporaries it writes. *)
Record adopting := Adopting { ad_opened : list Z; ad_closed : list Z; ad_selves : nat; ad_files : gmap bytes bytes }.

Definition with_closed (l : list Z) (s : adopting) : adopting := Adopting (ad_opened s) l (ad_selves s) (ad_files s).
Definition with_files (m : gmap bytes bytes) (s : adopting) : adopting := Adopting (ad_opened s) (ad_closed s) (ad_selves s) m.

(** A descriptor opened, and closed, where it is one. *)
Definition opening (fd : Z) (s : adopting) : adopting :=
  Adopting (if 0 <=? fd then fd :: ad_opened s else ad_opened s) (ad_closed s) (ad_selves s) (ad_files s).
Definition closing (fd : Z) (s : adopting) : adopting := if 0 <=? fd then with_closed (fd :: ad_closed s) s else s.

Definition COSMIC_ARTIFACT_PATH_CAPACITY : Z := 4096.

(** A part of an adoption: a value, the reason it fails, or no end. *)
Inductive outcome (A : Type) := Adopts (a : A) | Fails (why : bytes) | Never.
Arguments Adopts {A}.
Arguments Fails {A}.
Arguments Never {A}.

Section adopt.
Context `{World, Psa, Build}.

Definition cosmic_executable_path (room : Z) : option bytes :=
  match proc_self_exe with Some path => if room <=? Z.of_nat (length path) then None else Some path | None => None end.

Definition stamp_line (core : stat) : bytes :=
  take 95 (decimal (st_size core) ++ lit "|" ++ decimal (st_ino core) ++ lit "|" ++ decimal (st_mtime core) ++ lit "|"
           ++ decimal (st_ctime core) ++ [0x0a]).

(** [strrchr] of a slash: what is before and after the last. *)
Fixpoint last_slash (path : bytes) : option (bytes * bytes) :=
  match path with
  | [] => None
  | c :: path =>
      match last_slash path with
      | Some (before, after) => Some (c :: before, after)
      | None => if c =? 0x2f then Some ([], path) else None
      end
  end.

(** The name a launcher gives an entry's core. *)
Definition stamp_key_front (e : entry) : bytes :=
  lit "core-" ++ decimal (target_id e) ++ lit "-" ++ decimal (configuration_id e) ++ lit "-" ++ decimal (core_length e) ++ lit "-".
Definition stamp_key (e : entry) : bytes := stamp_key_front e ++ cosmic_hex (sha256 e).

Definition STAMP_ROOM : Z := COSMIC_ARTIFACT_PATH_CAPACITY + 160.

(** The stamp's path and its directory. *)
Definition stamp_path (e : entry) (core : stat) : option (bytes * bytes) :=
  match cosmic_executable_path COSMIC_ARTIFACT_PATH_CAPACITY with
  | None => None
  | Some core_path =>
      match last_slash core_path with
      | None | Some ([], _) => None
      | Some (directory, name) =>
          if 64 + 2 * COSMIC_PORTABLE_SHA256_LENGTH <=? Z.of_nat (length (stamp_key_front e)) + 2 * COSMIC_PORTABLE_SHA256_LENGTH then None
          else if negb (bool_decide (name = stamp_key e)) then None
          else
            match lstat_at core_path with
            | None => None
            | Some at_path =>
                if negb (st_dev at_path =? st_dev core) || negb (st_ino at_path =? st_ino core) then None
                else
                  let path := directory ++ lit "/.verified-" ++ stamp_key e in
                  if STAMP_ROOM <=? Z.of_nat (length path) then None
                  else if COSMIC_ARTIFACT_PATH_CAPACITY <=? Z.of_nat (length directory) then None
                  else Some (path, directory)
            end
      end
  end.

(** Whether the file at the path is the core's line, read through a descriptor
    of its own. *)
Definition stamp_holds (path : bytes) (core : stat) (s : adopting) : bool * adopting :=
  let fd := match ad_files s !! path with Some _ => open_nofollow path | None => -1 end in
  let s := opening fd s in
  if fd <? 0 then (false, s)
  else
    let found := if read_works fd then take 95 (default [] (ad_files s !! path)) else [] in
    let s := closing fd s in
    if bool_decide (found = []) then (false, s) else (bool_decide (c_string found = stamp_line core), s).

(** A stamp replaced by way of a temporary, were the core's file not changed
    within the second. *)
Definition stamp_write (path directory : bytes) (core : stat) (s : adopting) : adopting :=
  match time_now with
  | None => s
  | Some now =>
      if (now <=? st_ctime core) || (now <=? st_mtime core) then s
      else
        let line := stamp_line core in
        let template := directory ++ lit "/.verified.XXXXXX" in
        if COSMIC_ARTIFACT_PATH_CAPACITY + 32 <=? Z.of_nat (length template) then s
        else
          let '(fd, temporary) := mkstemp template (ad_files s) in
          if fd <? 0 then s
          else
            let s := opening fd s in
            let count := write_count fd line in
            let s := with_files (<[temporary := take (Z.to_nat count) line]> (ad_files s)) s in
            let written := (count =? Z.of_nat (length line)) in
            let s := closing fd s in
            let written := if close_works fd then written else false in
            if written && rename_works temporary path
            then with_files (<[path := default [] (ad_files s !! temporary)]> (delete temporary (ad_files s))) s
            else if unlink_works temporary then with_files (delete temporary (ad_files s)) s
            else s
  end.

(** ** Adoption *)

Definition fail_adoption {A} (a : artifact) (core_fd physical_fd : Z) (why : bytes) (s : adopting) : outcome A * adopting :=
  (Fails why, closing (a_fd a) (closing core_fd (closing physical_fd s))).

(** [cosmic_executable_fd], the next time it is called. *)
Definition cosmic_executable_fd (s : adopting) : Z * adopting :=
  let fd := open_self (ad_selves s) in
  let s := opening fd s in
  (fd, Adopting (ad_opened s) (ad_closed s) (S (ad_selves s)) (ad_files s)).

Definition adopt_database (s : adopting) : outcome artifact * adopting :=
  let '(core_fd, s) := cosmic_executable_fd s in
  if core_fd <? 0 then fail_adoption cosmic_artifact_init (-1) (-1) (lit "the running core cannot be opened") s
  else
    match fstat_fd core_fd with
    | Some st =>
        if negb (st_regular st) || (st_size st <=? 0)
        then fail_adoption cosmic_artifact_init core_fd (-1) (lit "the running core is not a regular file") s
        else
          let e := Entry COSMIC_TARGET_ID COSMIC_CONFIGURATION_ID COSMIC_PORTABLE_KIND_CORE COSMIC_PORTABLE_CODEC_RAW
                     0 (st_size st) (replicate 32 0) (st_size st) (replicate 32 0) in
          (Adopts (Artifact [] core_fd (st_dev st) (st_ino st) (st_size st) (Portable 0 0 0 0 0 0 [] e) 1 1 0), s)
    | None => fail_adoption cosmic_artifact_init core_fd (-1) (lit "the running core is not a regular file") s
    end.

Definition absolute (path : bytes) : bool := match path with c :: _ => c =? 0x2f | [] => false end.
Definition too_long (path : bytes) : bool := COSMIC_ARTIFACT_PATH_CAPACITY <=? Z.of_nat (length path).

Definition adopt_host (fd : Z) (path : bytes) (s : adopting) : outcome artifact * adopting :=
  if negb (absolute path) || too_long path
  then fail_adoption cosmic_artifact_init (-1) (-1) (lit "host program path is not absolute, or too long") s
  else
    let a := Artifact path fd 0 0 0 zero_portable 1 0 0 in
    match fstat_fd fd with
    | Some st =>
        if negb (st_regular st) then fail_adoption a (-1) (-1) (lit "host program is not a regular file") s
        else
          match @cosmic_host_decode (file fd) COSMIC_TARGET_ID COSMIC_CONFIGURATION_ID 0 with
          | (true, p, _) => (Adopts (Artifact path fd (st_dev st) (st_ino st) (st_size st) p 1 0 0), s)
          | (false, _, why) => fail_adoption a (-1) (-1) (default (lit "host program is invalid") why) s
          end
    | None => fail_adoption a (-1) (-1) (lit "host program is not a regular file") s
    end.

(** What the launcher says of the core it chose against the manifest's. *)
Definition launcher_differs (su : startup) (e : entry) : option bytes :=
  if negb (su_target_id su =? COSMIC_TARGET_ID) then Some (lit "launcher target differs from compiled target")
  else if negb (su_configuration_id su =? COSMIC_CONFIGURATION_ID) then Some (lit "launcher configuration differs from compiled configuration")
  else if negb (target_id e =? su_target_id su) || negb (configuration_id e =? su_configuration_id su)
  then Some (lit "selected manifest identity differs from launcher")
  else if negb (offset e =? su_core_offset su) then Some (lit "selected core offset differs from launcher")
  else if negb (core_length e =? su_core_length su) then Some (lit "selected core length differs from launcher")
  else if negb (bool_decide (sha256 e = su_core_sha256 su)) then Some (lit "selected core digest differs from launcher")
  else None.

Definition core_corrupt : bytes :=
  match cosmic_executable_path COSMIC_ARTIFACT_PATH_CAPACITY with
  | Some path => take (Z.to_nat (COSMIC_ARTIFACT_PATH_CAPACITY + 95))
                   (lit "executing core digest differs from manifest; remove " ++ path ++ lit " to extract it again")
  | None => lit "executing core digest differs from manifest; remove the cached core to extract it again"
  end.

(** The core's digest, or a stamp that says it was hashed. *)
Definition adopt_core (a : artifact) (core_fd : Z) (s : adopting) : outcome stat * adopting :=
  let e := selected (a_portable a) in
  match (if core_fd <? 0 then None else fstat_fd core_fd) with
  | None => fail_adoption a core_fd (-1) (lit "retained core descriptor is not a regular file") s
  | Some core =>
      if negb (st_regular core) || (st_size core <? 0) then fail_adoption a core_fd (-1) (lit "retained core descriptor is not a regular file") s
      else if negb (st_size core =? core_length e) then fail_adoption a core_fd (-1) (lit "executing core length differs from manifest") s
      else
        let stamped := stamp_path e core in
        let '(fresh, s) := match stamped with Some (path, _) => stamp_holds path core s | None => (false, s) end in
        if fresh then (Adopts core, s)
        else
          match (@cosmic_sha256_range_matches _ (file core_fd) 0 (core_length e) (sha256 e) 0).1 with
          | None => (Never, s)
          | Some false => fail_adoption a core_fd (-1) core_corrupt s
          | Some true => (Adopts core, match stamped with Some (path, directory) => stamp_write path directory core s | None => s end)
          end
  end.

(** The core's file is the one this process runs. *)
Definition adopt_physical (a : artifact) (core_fd : Z) (core : stat) (s : adopting) : outcome artifact * adopting :=
  let '(physical_fd, s) := cosmic_executable_fd s in
  match (if physical_fd <? 0 then None else fstat_fd physical_fd) with
  | None => fail_adoption a core_fd physical_fd (lit "physical executable identity is unavailable") s
  | Some physical =>
      if negb (st_dev physical =? st_dev core) || negb (st_ino physical =? st_ino core)
      then fail_adoption a core_fd physical_fd (lit "physical executable differs from retained core") s
      else
        let s := closing core_fd (closing physical_fd s) in
        if negb (set_cloexec (a_fd a)) then fail_adoption a (-1) (-1) (lit "cannot mark retained artifact close-on-exec") s
        else (Adopts (Artifact (a_logical_path a) (a_fd a) (a_device a) (a_inode a) (a_file_size a) (a_portable a) (a_host a) (a_split a) 1), s)
  end.

(** The manifest and the core it selects, of an artifact that is open. *)
Definition adopt_artifact (su : startup) (path : bytes) (artifact_fd core_fd : Z) (s : adopting) : outcome artifact * adopting :=
  let a := Artifact path artifact_fd 0 0 0 zero_portable 0 0 0 in
  match (if artifact_fd <? 0 then None else fstat_fd artifact_fd) with
  | None => fail_adoption a core_fd (-1) (lit "retained artifact descriptor is not a regular file") s
  | Some st =>
      if negb (st_regular st) || (st_size st <? 0) then fail_adoption a core_fd (-1) (lit "retained artifact descriptor is not a regular file") s
      else if su_names_descriptor su
              && negb (match stat_at path with Some at_path => (st_dev at_path =? st_dev st) && (st_ino at_path =? st_ino st) | None => false end)
      then fail_adoption a core_fd (-1) (lit "portable artifact path does not name the retained artifact (a #! line cut short?)") s
      else
        match @cosmic_portable_decode (file artifact_fd) _ COSMIC_TARGET_ID COSMIC_CONFIGURATION_ID 0 with
        | (false, _, why) => fail_adoption a core_fd (-1) (default (lit "portable artifact is invalid") why) s
        | (true, p, _) =>
            let a := Artifact path artifact_fd (st_dev st) (st_ino st) (st_size st) p 0 0 0 in
            match launcher_differs su (selected p) with
            | Some why => fail_adoption a core_fd (-1) why s
            | None =>
                match adopt_core a core_fd s with
                | (Adopts core, s) => adopt_physical a core_fd core s
                | (Fails why, s) => (Fails why, s)
                | (Never, s) => (Never, s)
                end
            end
        end
  end.

Definition adopt_portable (su : startup) (path : bytes) (s : adopting) : outcome artifact * adopting :=
  let core_fd := su_core_fd su in
  if negb (absolute path) then fail_adoption cosmic_artifact_init core_fd (-1) (lit "portable artifact path is not absolute") s
  else if too_long path then fail_adoption cosmic_artifact_init core_fd (-1) (lit "portable artifact path is too long") s
  else if su_by_path su then
    let artifact_fd := open_readonly path in
    let s := opening artifact_fd s in
    if artifact_fd <? 0 then fail_adoption cosmic_artifact_init (-1) (-1) (lit "portable artifact path cannot be opened") s
    else
      let '(core_fd, s) := cosmic_executable_fd s in
      if core_fd <? 0 then fail_adoption cosmic_artifact_init (-1) (-1) (lit "the running core cannot be opened") (closing artifact_fd s)
      else adopt_artifact su path artifact_fd core_fd s
  else adopt_artifact su path (su_artifact_fd su) core_fd s.

(** The artifact, none where it fails. *)
Definition cosmic_startup_adopt (su : startup) (s : adopting) : outcome artifact * adopting :=
  let path := default [] (su_artifact_path su) in
  match su_kind su with
  | COSMIC_STARTUP_NATIVE => (Adopts cosmic_artifact_init, s)
  | COSMIC_STARTUP_DATABASE => adopt_database s
  | COSMIC_STARTUP_HOST => adopt_host (su_artifact_fd su) path s
  | COSMIC_STARTUP_PORTABLE => adopt_portable su path s
  end.

(** ** A core run against a database *)

Definition with_digests (stored core : bytes) (a : artifact) : artifact :=
  let p := a_portable a in
  let e := selected p in
  let e := Entry (target_id e) (configuration_id e) (kind e) (codec e) (offset e) (stored_length e) stored (core_length e) core in
  Artifact (a_logical_path a) (a_fd a) (a_device a) (a_inode a) (a_file_size a)
    (Portable (prefix_length p) (manifest_offset p) (manifest_length p) (database_offset p) (database_length p) (entry_count p) (entries p) e)
    (a_host a) (a_split a) (a_core_checked a).

Definition with_checked (checked : Z) (a : artifact) : artifact :=
  Artifact (a_logical_path a) (a_fd a) (a_device a) (a_inode a) (a_file_size a) (a_portable a) (a_host a) (a_split a) checked.
Definition with_path (path : bytes) (a : artifact) : artifact :=
  Artifact path (a_fd a) (a_device a) (a_inode a) (a_file_size a) (a_portable a) (a_host a) (a_split a) (a_core_checked a).

(** What it comes to, and the artifact as it is left. *)
Definition cosmic_database_bind (a : artifact) (path : bytes) (recorded : option bytes) (s : adopting) : outcome unit * artifact * adopting :=
  if too_long path then (Fails (lit "the path is too long"), a, s)
  else
    match recorded with
    | None => (Fails (lit "it records no core_sha256, so it is not a database written for a core"), a, s)
    | Some _ =>
        let '(whole, sha) := hex_digest recorded (sha256 (selected (a_portable a))) in
        if negb whole
        then (Fails (lit "it records a core_sha256 that is not a sha256 in hex"), with_digests (stored_sha256 (selected (a_portable a))) sha a, s)
        else
          let a := with_digests sha sha a in
          let core := fstat_fd (a_fd a) in
          let stamped := match core with Some core => stamp_path (selected (a_portable a)) core | None => None end in
          let '(fresh, s) := match core, stamped with Some core, Some (path, _) => stamp_holds path core s | _, _ => (false, s) end in
          let a := if fresh then with_checked 1 a else a in
          match @cosmic_artifact_core_matches _ (file (a_fd a)) (Some a) 0 with
          | (Some true, Some a, _) =>
              (Adopts (), with_path path a,
               match core, stamped with
               | Some core, Some (path, directory) => if fresh then s else stamp_write path directory core s
               | _, _ => s
               end)
          | (Some _, checked, _) => (Fails (lit "it was written for another core than this one: its core_sha256 differs from this core's digest"), default a checked, s)
          | (None, _, _) => (Never, a, s)
          end
    end.

End adopt.
