(* ===== verification/StartupCorrect.v ===== *)
(** * What a start holds to

    The environment is cleared of what is reserved and of nothing else, the
    launcher's fields are read back, and no descriptor is left open. *)

From S2P Require Import Prelude.
From S2P Require Import Texts.
From S2P Require Import JsonNumber.
From S2P Require Import JsonCanonical.
From S2P Require Import Lua.
From S2P Require Import ReadAt.
From S2P Require Import Portable.
From S2P Require Import PortableSpec.
From S2P Require Import PortableTheorems.
From S2P Require Import Crypto.
From S2P Require Import CryptoCorrect.
From S2P Require Import Startup.

Local Open Scope Z_scope.

(** ** The environment *)

Lemma filter_every {A} (P : A → Prop) `{∀ x, Decision (P x)} l : Forall P l → filter P l = l.
Proof. induction 1 as [|x l Hx _ IH]; [done|]. rewrite filter_cons_True by done. by rewrite IH. Qed.

Lemma cut_at_equals_some entry name value :
  cut_at_equals entry = Some (name, value) → entry = name ++ 0x3d :: value ∧ 0x3d ∉ name.
Proof.
  revert name. induction entry as [|c entry IH]; intros name; simpl; [done|]. destruct (Z.eqb_spec c 0x3d) as [->|Hc].
  - intros [= <- <-]. split; [done|]. apply not_elem_of_nil.
  - destruct (cut_at_equals entry) as [[n v]|]; [|done]. intros [= <- <-].
    destruct (IH n eq_refl) as [-> Hn]. split; [done|]. apply not_elem_of_cons. auto.
Qed.

Lemma begins_before p name rest : 0x3d ∉ p → 0x3d ∉ name → begins p (name ++ 0x3d :: rest) = begins p name.
Proof.
  intros Hp Hn. unfold begins. apply bool_decide_ext. destruct (Nat.le_gt_cases (length p) (length name)) as [Hl|Hl].
  - by rewrite take_app_le.
  - split; intros Ht; exfalso.
    + apply Hp. rewrite <-Ht, take_app_ge by lia. destruct (length p - length name)%nat eqn:E; [lia|]. simpl. set_solver.
    + apply (f_equal length) in Ht. rewrite length_take in Ht. lia.
Qed.

(** Whether an entry is reserved is a matter of its name. *)
Lemma reserved_by_name keep entry name :
  reserved_name keep entry = Some name ↔
  fst <$> cut_at_equals entry = Some name ∧ begins PREFIX name = true ∧ name ≠ CACHE ∧ name ∉ keep.
Proof.
  unfold reserved_name. destruct (cut_at_equals entry) as [[n v]|] eqn:E; simpl.
  - apply cut_at_equals_some in E as [-> Hn]. rewrite begins_before; [|by apply (bool_decide_unpack _)|done].
    destruct (begins PREFIX n) eqn:Eb; simpl; [|split; [done|intros ([= ->] & ? & _); congruence]].
    case_bool_decide as Hc; simpl; [split; [done|intros ([= ->] & _ & ? & _); congruence]|].
    case_bool_decide as Hk; [split; [done|intros ([= ->] & _ & _ & ?); congruence]|]. split; [by intros [= ->]|by intros (? & _)].
  - destruct (negb _); split; [done|by intros [? _]|done|by intros [? _]].
Qed.

Lemma first_reserved_none keep env : first_reserved keep env = None → Forall (λ e, reserved_name keep e = None) env.
Proof.
  induction env as [|e env IH]; simpl; [constructor|]. destruct (reserved_name keep e) eqn:E; [done|]. intros Hf.
  constructor; [done|by apply IH].
Qed.

Lemma first_reserved_some keep env name :
  first_reserved keep env = Some name → ∃ entry, entry ∈ env ∧ reserved_name keep entry = Some name.
Proof.
  induction env as [|e env IH]; simpl; [done|]. destruct (reserved_name keep e) eqn:E.
  - intros [= <-]. exists e. split; [by left|done].
  - intros Hf. destruct (IH Hf) as (x & Hx & Hr). exists x. split; [by right|done].
Qed.

Abbreviation unreserved keep := (λ e, reserved_name keep e = None).

Lemma clear_loop_clears short keep fuel n env :
  (length env ≤ fuel)%nat →
  ∃ b env', clear_loop short keep fuel n env = (Some b, env') ∧ filter (unreserved keep) env' = filter (unreserved keep) env
    ∧ (b = true → env' = filter (unreserved keep) env) ∧ (b = false → ∃ k, short k = true).
Proof.
  revert n env. induction fuel as [|fuel IH]; intros n env Hl; simpl;
    (destruct (first_reserved keep env) as [name|] eqn:E;
     [apply first_reserved_some in E as (x & Hx & Hr)
     |apply first_reserved_none in E; exists true, env; split; [done|]; split; [done|]; split; [|done]; intros _; symmetry; by apply filter_every]).
  - apply length_zero_iff_nil in Hl || (destruct env; [|simpl in Hl; lia]). set_solver.
  - destruct (short n) eqn:Es; [exists false, env; split; [done|]; split; [done|]; split; [done|]; intros _; by exists n|].
    assert (filter (unreserved keep) (unsetenv name env) = filter (unreserved keep) env) as Hf.
    { unfold unsetenv. rewrite list_filter_filter. apply list_filter_iff. intros e. split; [tauto|]. intros He. split; [done|].
      intros Hn. apply reserved_by_name in Hr as (_ & Hr). rewrite (proj2 (reserved_by_name keep e name)) in He; [done|]. by split. }
    destruct (IH (S n) (unsetenv name env)) as (b & env' & E1 & E2 & E3 & E4).
    { assert (length (unsetenv name env) < length env)%nat; [|lia]. apply (length_filter_lt _ _ x); [done|].
      apply reserved_by_name in Hr as [Hr _]. by intros Hn. }
    exists b, env'. rewrite <-Hf. auto.
Qed.

(** The environment a program finds is cleared of every name under the
    launcher's reserved prefix but the cache's and those kept, and of no other
    entry, in whatever order they stand; it always ends, and says it could not
    only where it had no memory. *)
Theorem reserved_names_are_cleared short keep env :
  ∃ b env', cosmic_environment_clear_reserved short keep env = (Some b, env')
    ∧ filter (unreserved keep) env' = filter (unreserved keep) env
    ∧ (b = true → env' = filter (unreserved keep) env) ∧ (b = false → ∃ k, short k = true).
Proof. by apply clear_loop_clears. Qed.

(** ** The launcher's fields *)

Lemma digits_value_grows v ds : 0 ≤ v → Forall digit ds → v ≤ digits_value v ds.
Proof.
  intros Hv Hd. revert v Hv. induction Hd as [|d ds Hd _ IH]; intros v Hv; [simpl; lia|]. unfold digit in Hd.
  change (digits_value v (d :: ds)) with (digits_value (v * 10 + (d - 0x30)) ds).
  pose proof (IH (v * 10 + (d - 0x30))). lia.
Qed.

Lemma decimal_loop_exact text maximum value digits v :
  0 ≤ value ≤ maximum →
  decimal_loop text maximum value digits = Some v ↔
  Forall digit text ∧ (text = [] ∨ digits + Z.of_nat (length text) ≤ 20) ∧ v = digits_value value text ∧ v ≤ maximum.
Proof.
  revert value digits. induction text as [|c text IH]; intros value digits Hv.
  { simpl. split; [intros [= <-]; split_and!; [constructor|by left|done|lia]|by intros (_ & _ & -> & _)]. }
  cbn [decimal_loop length]. rewrite Forall_cons.
  change (digits_value value (c :: text)) with (digits_value (value * 10 + (c - 0x30)) text).
  destruct (Z.ltb_spec c 0x30); cbn [orb]; [split; [done|unfold digit; lia]|].
  destruct (Z.ltb_spec 0x39 c); cbn [orb]; [split; [done|unfold digit; lia]|].
  destruct (Z.ltb_spec 20 (digits + 1)); [split; [done|intros (_ & [?|?] & _); [done|lia]]|].
  pose proof (Z.div_mod (maximum - (c - 0x30)) 10 ltac:(lia)). pose proof (Z.mod_pos_bound (maximum - (c - 0x30)) 10 ltac:(lia)).
  destruct (Z.ltb_spec ((maximum - (c - 0x30)) / 10) value) as [Hbig|Hsmall].
  - split; [done|]. intros ([_ Hd] & _ & -> & Hle). pose proof (digits_value_grows (value * 10 + (c - 0x30)) text ltac:(lia) Hd). lia.
  - rewrite IH by lia. unfold digit at 2. split.
    + intros (Hd & Hl & Hx & Hle). split; [split; [lia|done]|]. split; [|done]. right. destruct Hl as [->|?]; simpl; lia.
    + intros ([_ Hd] & [?|Hl] & Hx & Hle); [done|]. split; [done|]. split; [|done]. right. lia.
Qed.

(** The fields are read exactly where they are short enough decimals within
    the maximum. *)
Lemma decimal_field_exact text maximum v :
  0 ≤ maximum →
  decimal_field (Some text) maximum = Some v ↔
  Forall digit text ∧ (1 ≤ length text ≤ 20)%nat ∧ v = digits_value 0 text ∧ v ≤ maximum.
Proof.
  intros Hm. destruct text as [|c text]; [split; [done|simpl; lia]|]. cbn [decimal_field]. rewrite decimal_loop_exact by lia.
  split.
  - intros (Hd & [?|Hl] & Hv & Hle); [done|]. split; [done|]. split; [simpl in *; lia|done].
  - intros (Hd & Hl & Hv & Hle). split; [done|]. split; [right; simpl in *; lia|done].
Qed.

Lemma decimal_field_reads n maximum : 0 ≤ n ≤ maximum → maximum < 2 ^ 64 → decimal_field (Some (decimal n)) maximum = Some n.
Proof.
  intros Hn Hm. apply decimal_field_exact; [lia|]. split; [apply decimal_digits; lia|]. split; [|rewrite decimal_value by lia; lia].
  pose proof (decimal_length n ltac:(lia)). destruct (decimal n) eqn:E; [by apply decimal_nonempty in E|simpl in *; lia].
Qed.

Lemma hex_half_digit d : 0 ≤ d < 16 → hex_half (hex_digit d) = Some d.
Proof. intros Hd. unfold hex_half, hex_digit. zcases; simpl; f_equal; lia. Qed.

Lemma hex_pairs_reads bs rest : all_bytes bs → hex_pairs (length bs) (cosmic_hex bs ++ rest) = (bs, Some rest).
Proof.
  induction 1 as [|b bs Hb _ IH]; [done|]. unfold is_byte in Hb. cbn [length hex_pairs cosmic_hex mbind list_bind app].
  rewrite Z.shiftr_div_pow2 by lia. change 15 with (Z.ones 4). rewrite Z.land_ones by lia. change (2 ^ 4) with 16.
  rewrite !hex_half_digit by (split; [apply Z.div_pos || apply Z.mod_pos_bound|apply Z.div_lt_upper_bound || apply Z.mod_pos_bound]; lia).
  change (bs ≫= _) with (cosmic_hex bs). rewrite IH. f_equal. f_equal. rewrite Z.mul_comm, <-Z.div_mod; lia.
Qed.

Lemma cosmic_hex_inj a b : all_bytes a → all_bytes b → length a = length b → cosmic_hex a = cosmic_hex b → a = b.
Proof.
  intros Ha Hb Hl E. pose proof (hex_pairs_reads a [] Ha) as Ea. rewrite E, Hl, hex_pairs_reads in Ea by done. by injection Ea.
Qed.

Lemma hex_digest_reads sha out : all_bytes sha → length sha = 32%nat → length out = 32%nat → hex_digest (Some (cosmic_hex sha)) out = (true, sha).
Proof.
  intros Hs Hl Ho. unfold hex_digest. pose proof (hex_pairs_reads sha [] Hs) as E. rewrite app_nil_r, Hl in E. rewrite E.
  rewrite drop_ge by lia. by rewrite app_nil_r.
Qed.

(** What was read is 32 bytes. *)
Lemma hex_pairs_bytes n text : all_bytes (hex_pairs n text).1 ∧ ((hex_pairs n text).2 ≠ None → length (hex_pairs n text).1 = n).
Proof.
  revert text. induction n as [|n IH]; intros text; [done|]. cbn [hex_pairs]. destruct text as [|hi [|lo text]]; [done|done|].
  assert (∀ c d, hex_half c = Some d → 0 ≤ d < 16) as Hd.
  { intros c d. unfold hex_half. zcases; simpl; intros E; simplify_eq; lia. }
  destruct (hex_half hi) as [h|] eqn:Eh; [|done]. destruct (hex_half lo) as [l|] eqn:El; [|done].
  apply Hd in Eh, El. specialize (IH text). destruct (hex_pairs n text) as [out rest]. simpl in *. destruct IH as [IH1 IH2]. split.
  - constructor; [unfold is_byte; lia|done].
  - intros Hr. by rewrite IH2.
Qed.

Lemma hex_digest_bytes text out sha : length out = 32%nat → hex_digest text out = (true, sha) → all_bytes sha ∧ length sha = 32%nat.
Proof.
  intros Ho. unfold hex_digest. destruct text as [text|]; [|done]. pose proof (hex_pairs_bytes 32 text) as [Hb Hl].
  destruct (hex_pairs 32 text) as [got rest]. simpl in *. case_bool_decide as Er; [|done]. intros [= <-]. subst rest.
  rewrite drop_ge by (rewrite Ho, Hl by done; lia). rewrite app_nil_r. split; [done|by apply Hl].
Qed.

#[local] Arguments decimal_field : simpl never.
#[local] Arguments hex_digest : simpl never.

(** A launch: the descriptors handed on, or none, and the core chosen. *)
Record launch := Launch { l_handed : option (Z * Z); l_target : Z; l_configuration : Z; l_offset : Z; l_length : Z; l_sha256 : bytes }.

Definition launch_ok (l : launch) : Prop :=
  match l_handed l with Some (a, c) => 3 ≤ a ≤ INT_MAX ∧ 3 ≤ c ≤ INT_MAX ∧ a ≠ c | None => True end
  ∧ 0 < l_target l ≤ UINT32_MAX ∧ 0 < l_configuration l ≤ UINT32_MAX ∧ 0 ≤ l_offset l ≤ UINT64_MAX ∧ 0 < l_length l ≤ UINT64_MAX
  ∧ all_bytes (l_sha256 l) ∧ length (l_sha256 l) = 32%nat.

(** The values a launcher sets for it, each a name's. *)
Definition launch_values (l : launch) : list (option bytes) :=
  match l_handed l with Some (a, c) => [Some (decimal a); Some (decimal c)] | None => [None; None] end
  ++ [Some (decimal (l_target l)); Some (decimal (l_configuration l)); Some (decimal (l_offset l)); Some (decimal (l_length l));
      Some (cosmic_hex (l_sha256 l))].

Definition launched (path : option bytes) (l : launch) : startup :=
  Startup COSMIC_STARTUP_PORTABLE path None false (bool_decide (l_handed l = None))
    (match l_handed l with Some (a, _) => a | None => -1 end) (match l_handed l with Some (_, c) => c | None => -1 end)
    (l_target l) (l_configuration l) (l_offset l) (l_length l) (l_sha256 l) None.

Lemma portable_fields_read path l : launch_ok l → portable_fields path (launch_values l) = launched path l.
Proof.
  intros (Hh & Ht & Hc & Ho & Hl & Hs & Hsl). unfold UINT32_MAX, UINT64_MAX, INT_MAX in *.
  unfold portable_fields, launch_values, launched. destruct (l_handed l) as [[a c]|]; simpl.
  - rewrite !decimal_field_reads by (unfold UINT32_MAX, UINT64_MAX, INT_MAX; lia).
    rewrite !(proj2 (Z.ltb_ge _ 3)) by lia. rewrite (proj2 (Z.eqb_neq a c)) by tauto.
    destruct (l_target l), (l_configuration l), (l_length l); try lia. by rewrite hex_digest_reads.
  - rewrite !decimal_field_reads by (unfold UINT32_MAX, UINT64_MAX, INT_MAX; lia).
    destruct (l_target l), (l_configuration l), (l_length l); try lia. by rewrite hex_digest_reads.
Qed.

(** C40: a start reads back the launch its launcher wrote in the environment, in
    whatever order and among whatever else, with the descriptors handed or
    none; and clears what was reserved, or says it cannot. *)
Theorem launches_read_back short keep path l env :
  launch_ok l → (λ name, getenv name env) <$> portable_environment = launch_values l →
  ∃ s env', cosmic_startup_portable short keep path env = (s, env')
    ∧ (su_contract_error s = None → s = launched path l ∧ env' = filter (unreserved keep) env)
    ∧ (su_contract_error s ≠ None → ∃ k, short k = true).
Proof.
  intros Hl He. unfold cosmic_startup_portable, clearing. rewrite He, portable_fields_read by done.
  destruct (clear_loop_clears short keep (length env) 0 env ltac:(done)) as (b & env' & E & _ & Ht & Hf).
  unfold cosmic_environment_clear_reserved. rewrite E. destruct b; eexists _, env'; (split; [done|]).
  - split; [intros _; split; [done|by apply Ht]|done].
  - split; [done|]. intros _. by apply Hf.
Qed.

(** ** Descriptors *)

Section descriptors.
Context `{World, Psa, Build}.

(** What a startup was handed. *)
Definition handed (su : startup) : list Z :=
  match su_kind su with
  | COSMIC_STARTUP_PORTABLE => if su_by_path su then [] else [su_artifact_fd su; su_core_fd su]
  | COSMIC_STARTUP_HOST => [su_artifact_fd su]
  | _ => []
  end.

(** The descriptor left of an adoption: the artifact's, or of a failure the
    artifact's that was handed with a path that is refused. *)
Definition refused_path (su : startup) : bool := let path := default [] (su_artifact_path su) in negb (absolute path) || too_long path.

Definition kept (su : startup) (r : outcome artifact) : list Z :=
  match r with
  | Adopts a => if bool_decide (su_kind su = COSMIC_STARTUP_NATIVE) then [] else [a_fd a]
  | _ => if refused_path su
         then match su_kind su with
              | COSMIC_STARTUP_PORTABLE => if su_by_path su then [] else [su_artifact_fd su]
              | COSMIC_STARTUP_HOST => [su_artifact_fd su]
              | _ => []
              end
         else []
  end.

(** From [s] to [s'], of the descriptors [l] and those opened, those closed and
    [kept] are all. *)
Definition accounts (l : list Z) (s s' : adopting) (kept : list Z) : Prop :=
  ∃ opened closed, ad_opened s' = opened ++ ad_opened s ∧ ad_closed s' = closed ++ ad_closed s ∧ l ++ opened ≡ₚ closed ++ kept.

Lemma accounts_here l s : accounts l s s l.
Proof. exists [], []. by rewrite app_nil_r. Qed.

Lemma accounts_closing l s s' kept fd : accounts l s s' (fd :: kept) → 0 ≤ fd → accounts l s (closing fd s') kept.
Proof.
  intros (o & c & E1 & E2 & E3) Hfd. unfold closing. rewrite (proj2 (Z.leb_le 0 fd)) by done. exists o, (fd :: c). simpl.
  split; [done|]. split; [by rewrite E2|]. rewrite E3. by rewrite Permutation_middle.
Qed.

Lemma closing_none fd s : fd < 0 → closing fd s = s.
Proof. intros Hfd. unfold closing. by rewrite (proj2 (Z.leb_gt 0 fd)). Qed.

Lemma accounts_opening l s s' kept fd : accounts l s s' kept → 0 ≤ fd → accounts l s (opening fd s') (fd :: kept).
Proof.
  intros (o & c & E1 & E2 & E3) Hfd. unfold opening. rewrite (proj2 (Z.leb_le 0 fd)) by done. exists (fd :: o), c. simpl.
  split; [by rewrite E1|]. split; [done|]. rewrite <-!Permutation_middle. by rewrite E3.
Qed.

Lemma accounts_self l s s' kept :
  accounts l s s' kept → let '(fd, s2) := cosmic_executable_fd s' in accounts l s s2 (if 0 <=? fd then fd :: kept else kept).
Proof.
  intros Ha. unfold cosmic_executable_fd. destruct (Z.leb_spec 0 (open_self (ad_selves s'))) as [Hfd|Hfd].
  - by apply (accounts_opening _ _ _ _ _ Ha) in Hfd.
  - unfold opening. rewrite (proj2 (Z.leb_gt 0 _)) by done. done.
Qed.

Lemma accounts_files l s s' kept m : accounts l s s' kept → accounts l s (with_files m s') kept.
Proof. done. Qed.

Lemma accounts_swap l s s' a b kept : accounts l s s' (a :: b :: kept) → accounts l s s' (b :: a :: kept).
Proof. intros (o & c & E1 & E2 & E3). exists o, c. split; [done|]. split; [done|]. by rewrite E3, (Permutation_swap a b). Qed.

(** What is opened on the way and closed. *)
Lemma accounts_open_close l s s' m kept fd :
  accounts l s s' kept → 0 ≤ fd → accounts l s (closing fd (with_files m (opening fd s'))) kept.
Proof. intros Hs Hfd. apply accounts_closing; [|done]. by apply accounts_files, accounts_opening. Qed.

Lemma opening_none fd s : fd < 0 → opening fd s = s.
Proof. intros Hfd. unfold opening. rewrite (proj2 (Z.leb_gt 0 fd)) by done. by destruct s. Qed.

Lemma stamp_holds_accounts l s s' kept path core :
  accounts l s s' kept → accounts l s (stamp_holds path core s').2 kept.
Proof.
  intros Hs. unfold stamp_holds. set (fd := match ad_files s' !! path with Some _ => _ | None => _ end). cbv zeta.
  destruct (Z.ltb_spec fd 0) as [Hfd|Hfd]; [cbn [snd]; by rewrite opening_none|].
  pose proof (accounts_open_close l s s' (ad_files s') kept fd Hs Hfd) as Hk. by case_bool_decide.
Qed.

Lemma stamp_write_accounts l s s' kept path directory core :
  accounts l s s' kept → accounts l s (stamp_write path directory core s') kept.
Proof.
  intros Hs. unfold stamp_write. destruct time_now; [|done]. destruct (_ || _); [done|]. cbv zeta. destruct (_ <=? _); [done|].
  destruct (mkstemp _ _) as [fd temporary]. destruct (Z.ltb_spec fd 0) as [|Hfd]; [done|].
  pose proof (λ m, accounts_open_close l s s' m kept fd Hs Hfd) as Hk.
  destruct (_ && _); [apply accounts_files, Hk|]. destruct (unlink_works _); [apply accounts_files, Hk|apply Hk].
Qed.

(** A failure that closes what is held, and no more. *)
Lemma fail_accounts {A} l s s' a core_fd physical_fd why :
  accounts l s s' ((if 0 <=? physical_fd then [physical_fd] else []) ++ (if 0 <=? core_fd then [core_fd] else [])
                   ++ (if 0 <=? a_fd a then [a_fd a] else [])) →
  ∃ s2, fail_adoption a core_fd physical_fd why s' = (@Fails A why, s2) ∧ accounts l s s2 [].
Proof.
  intros Ha. eexists. split; [done|].
  assert (∀ fd x k, accounts l s x ((if 0 <=? fd then [fd] else []) ++ k) → accounts l s (closing fd x) k) as Hc.
  { intros fd x k. destruct (Z.leb_spec 0 fd); [|by rewrite closing_none]. intros. by apply accounts_closing. }
  apply Hc. rewrite app_nil_r. by apply Hc, Hc.
Qed.

(** What holds of the descriptors where a part of an adoption ends. *)
Definition ends {A} (l : list Z) (s : adopting) (held : list Z) (x : outcome A * adopting) : Prop :=
  match x.1 with Adopts _ => accounts l s x.2 held | Fails _ => accounts l s x.2 [] | Never => True end.

Lemma fail_ends {A} l s s' a core_fd physical_fd why held :
  accounts l s s' ((if 0 <=? physical_fd then [physical_fd] else []) ++ (if 0 <=? core_fd then [core_fd] else [])
                   ++ (if 0 <=? a_fd a then [a_fd a] else [])) →
  ends l s held (@fail_adoption A a core_fd physical_fd why s').
Proof. intros Ha. destruct (@fail_accounts A l s s' a core_fd physical_fd why Ha) as (s2 & E & E2). by rewrite E. Qed.

(** Whether a core's stamp holds, where it has one. *)
Lemma stamped_accounts l s s' kept core (stamped : option (bytes * bytes)) :
  accounts l s s' kept →
  accounts l s (match stamped with Some (path, _) => stamp_holds path core s' | None => (false, s') end).2 kept.
Proof. intros Hs. destruct stamped as [[path directory]|]; [by apply stamp_holds_accounts|done]. Qed.

Lemma adopt_core_ends l s s' a core_fd :
  0 ≤ core_fd → 0 ≤ a_fd a → accounts l s s' [core_fd; a_fd a] → ends l s [core_fd; a_fd a] (adopt_core a core_fd s').
Proof.
  intros Hc Ha Hs. assert (∀ why x, accounts l s x [core_fd; a_fd a] → ends l s [core_fd; a_fd a] (@fail_adoption stat a core_fd (-1) why x)) as Hf.
  { intros why x Hx. apply fail_ends. by rewrite (proj2 (Z.leb_le 0 core_fd)), (proj2 (Z.leb_le 0 (a_fd a))). }
  unfold adopt_core. destruct (if core_fd <? 0 then _ else _) as [core|]; [|by apply Hf]. destruct (_ || _); [by apply Hf|].
  destruct (negb _); [by apply Hf|]. cbv zeta. pose proof (stamped_accounts l s s' _ core (stamp_path (selected (a_portable a)) core) Hs) as Hx.
  destruct (match stamp_path _ _ with Some _ => _ | None => _ end) as [[] s2]; [done|]. cbn [snd] in Hx.
  destruct (cosmic_sha256_range_matches _ _ _ _).1 as [[]|]; [|by apply Hf|done].
  destruct (stamp_path _ _) as [[path directory]|]; [|done]. by apply stamp_write_accounts.
Qed.

(** A binding leaves no descriptor, however it ends. *)
Lemma bind_accounts l s s' kept a path recorded :
  accounts l s s' kept → accounts l s (cosmic_database_bind a path recorded s').2 kept.
Proof.
  intros Hs. unfold cosmic_database_bind. destruct (too_long path); [done|]. destruct recorded as [recorded|]; [|done].
  destruct (hex_digest _ _) as [[] sha]; [|done]. cbn [negb]. cbv zeta. set (a1 := with_digests sha sha a).
  destruct (fstat_fd (a_fd a1)) as [core|].
  - pose proof (stamped_accounts l s s' _ core (stamp_path (selected (a_portable a1)) core) Hs) as Hx.
    destruct (match stamp_path _ _ with Some _ => _ | None => _ end) as [fresh s2]. cbn [snd] in Hx.
    destruct (cosmic_artifact_core_matches _ _) as [[[[]|] [b|]] turn]; try done.
    destruct (stamp_path _ _) as [[file_ directory]|]; [|done]. destruct fresh; [done|]. by apply stamp_write_accounts.
  - by destruct (cosmic_artifact_core_matches _ _) as [[[[]|] [b|]] turn].
Qed.

Lemma adopt_physical_ends l s s' a core_fd core :
  0 ≤ core_fd → 0 ≤ a_fd a → accounts l s s' [core_fd; a_fd a] → ends l s [a_fd a] (adopt_physical a core_fd core s').
Proof.
  intros Hc Ha Hs. unfold adopt_physical. pose proof (accounts_self _ _ _ _ Hs) as Hp. destruct (cosmic_executable_fd s') as [fd s2].
  assert (∀ why, ends l s [a_fd a] (@fail_adoption artifact a core_fd fd why s2)) as Hf.
  { intros why. apply fail_ends. rewrite (proj2 (Z.leb_le 0 core_fd)), (proj2 (Z.leb_le 0 (a_fd a))) by done. by destruct (0 <=? fd). }
  destruct (Z.ltb_spec fd 0) as [Hfd|Hfd]; [apply Hf|]. destruct (fstat_fd fd) as [physical|]; [|apply Hf]. destruct (_ || _); [apply Hf|].
  rewrite (proj2 (Z.leb_le 0 fd)) in Hp by done. assert (accounts l s (closing core_fd (closing fd s2)) [a_fd a]) as Hk.
  { apply accounts_closing; [|done]. by apply accounts_closing. }
  cbv zeta. destruct (negb _); [|done]. apply fail_ends. by rewrite (proj2 (Z.leb_le 0 (a_fd a))).
Qed.

Lemma adopt_artifact_ends l s s' su path artifact_fd core_fd :
  0 ≤ core_fd → 0 ≤ artifact_fd → accounts l s s' [core_fd; artifact_fd] →
  match (adopt_artifact su path artifact_fd core_fd s').1 with Adopts a => a_fd a = artifact_fd | _ => True end
  ∧ ends l s [artifact_fd] (adopt_artifact su path artifact_fd core_fd s').
Proof.
  intros Hc Ha Hs.
  assert (∀ a why, a_fd a = artifact_fd → match (@fail_adoption artifact a core_fd (-1) why s').1 with Adopts a => a_fd a = artifact_fd | _ => True end
    ∧ ends l s [artifact_fd] (@fail_adoption artifact a core_fd (-1) why s')) as Hf.
  { intros a why <-. split; [done|]. apply fail_ends. by rewrite (proj2 (Z.leb_le 0 core_fd)), (proj2 (Z.leb_le 0 (a_fd a))). }
  unfold adopt_artifact. destruct (if artifact_fd <? 0 then _ else _) as [st|]; [|by apply Hf]. destruct (_ || _); [by apply Hf|].
  destruct (_ && _); [by apply Hf|]. destruct (cosmic_portable_decode _ _ _) as [[[] p] why]; [|by apply Hf].
  destruct (launcher_differs _ _); [by apply Hf|]. cbv zeta. set (a := Artifact _ _ _ _ _ _ _ _ _).
  pose proof (adopt_core_ends l s s' a core_fd Hc Ha Hs) as He. destruct (adopt_core a core_fd s') as [[core|w|] s2]; [|done|done].
  pose proof (adopt_physical_ends l s s2 a core_fd core Hc Ha He) as Hp. split; [|exact Hp].
  unfold adopt_physical. destruct (cosmic_executable_fd s2) as [fd s3]. destruct (if fd <? 0 then _ else _); [|done].
  destruct (_ || _); [done|]. cbv zeta. by destruct (negb _).
Qed.

(** The end of an adoption whose path is let through. *)
Definition closes (su : startup) (s : adopting) (x : outcome artifact * adopting) : Prop :=
  x.1 ≠ Never → accounts (handed su) s x.2 (kept su x.1).

Lemma ends_closes su s fd x :
  su_kind su ≠ COSMIC_STARTUP_NATIVE → (refused_path su = true → ¬ ∃ why, x.1 = Fails why) →
  match x.1 with Adopts a => a_fd a = fd | _ => True end → ends (handed su) s [fd] x → closes su s x.
Proof.
  intros Hk Hp Ha He Hn. unfold ends, kept in *. destruct x as [[a|why|] s']; simpl in *; [| |done].
  - rewrite bool_decide_false by done. by rewrite Ha.
  - destruct (refused_path su); [|done]. exfalso. apply Hp; [done|]. by exists why.
Qed.

Lemma adopt_database_closes su s : su_kind su = COSMIC_STARTUP_DATABASE → closes su s (adopt_database s).
Proof.
  intros Hk Hn. pose proof (accounts_self [] s s [] (accounts_here [] s)) as Hp. unfold adopt_database in *.
  assert (handed su = []) as -> by (unfold handed; by rewrite Hk).
  assert (∀ why, kept su (Fails why) = []) as Hf by (intros why; unfold kept; rewrite Hk; by destruct (refused_path su)).
  destruct (cosmic_executable_fd s) as [fd s2]. destruct (Z.ltb_spec fd 0) as [Hfd|Hfd]; unfold fail_adoption;
    cbn [fst snd a_fd cosmic_artifact_init]; rewrite ?(closing_none (-1)) by done.
  - rewrite Hf. by rewrite (proj2 (Z.leb_gt 0 fd)) in Hp.
  - rewrite (proj2 (Z.leb_le 0 fd)) in Hp by done.
    destruct (fstat_fd fd) as [st|]; [destruct (_ || _)|]; cbn [fst snd]; rewrite ?Hf, ?(closing_none (-1)) by done; [by apply accounts_closing| |by apply accounts_closing].
    unfold kept. by rewrite Hk.
Qed.

Lemma adopt_host_closes su s path :
  su_kind su = COSMIC_STARTUP_HOST → path = default [] (su_artifact_path su) → 0 ≤ su_artifact_fd su →
  closes su s (adopt_host (su_artifact_fd su) path s).
Proof.
  intros Hk -> Hfd Hn. unfold kept, refused_path, handed, adopt_host in *. rewrite Hk in *.
  destruct (negb (absolute _) || too_long _); [apply accounts_here|].
  assert (accounts [su_artifact_fd su] s (closing (su_artifact_fd su) s) []) as Hc by (apply accounts_closing; [apply accounts_here|done]).
  destruct (fstat_fd _) as [st|]; [|exact Hc]. destruct (negb _); [exact Hc|].
  destruct (cosmic_host_decode _ _ _) as [[[] p] why]; [apply accounts_here|exact Hc].
Qed.

Lemma refused_portable su s :
  refused_path su = true →
  ∃ why, adopt_portable su (default [] (su_artifact_path su)) s = fail_adoption cosmic_artifact_init (su_core_fd su) (-1) why s.
Proof.
  unfold refused_path, adopt_portable. destruct (absolute _); simpl; [|by eexists]. intros ->. by eexists.
Qed.

Lemma adopt_portable_closes su s :
  su_kind su = COSMIC_STARTUP_PORTABLE → Forall (λ fd, 0 ≤ fd) (handed su) → (su_by_path su = true → su_core_fd su < 0) →
  closes su s (adopt_portable su (default [] (su_artifact_path su)) s).
Proof.
  intros Hk Hh Hby. assert (su_kind su ≠ COSMIC_STARTUP_NATIVE) as Hk' by congruence. destruct (refused_path su) eqn:Ep.
  - destruct (refused_portable su s Ep) as [why ->]. intros _. unfold fail_adoption, kept, handed in *. rewrite Ep, Hk in *.
    cbn [fst snd a_fd cosmic_artifact_init]. rewrite (closing_none (-1)) by done. rewrite (closing_none (-1)) by done.
    destruct (su_by_path su); [rewrite closing_none by auto; apply accounts_here|]. apply Forall_cons in Hh as [Ha Hh]. apply Forall_cons in Hh as [Hc _].
    apply accounts_closing; [|done]. apply accounts_swap, accounts_here.
  - pose proof Ep as Ep'. unfold refused_path in Ep'. apply orb_false_elim in Ep' as [Ea%negb_false_iff El]. unfold adopt_portable. rewrite Ea, El. cbn [negb].
    set (path := default [] (su_artifact_path su)) in *. destruct (su_by_path su) eqn:Eb.
    + assert (handed su = []) as Eh by (unfold handed; by rewrite Hk, Eb). cbv zeta.
      destruct (Z.ltb_spec (open_readonly path) 0) as [Hfd|Hfd].
      { intros _. unfold fail_adoption, kept. rewrite Ep, Eh. cbn [fst snd a_fd cosmic_artifact_init].
        rewrite !closing_none by done. unfold opening. rewrite (proj2 (Z.leb_gt 0 _)) by done. by exists [], []. }
      pose proof (accounts_opening _ _ _ _ (open_readonly path) (accounts_here [] s) Hfd) as Ho.
      pose proof (accounts_self _ _ _ _ Ho) as Hp. destruct (cosmic_executable_fd _) as [core_fd s2].
      destruct (Z.ltb_spec core_fd 0) as [Hc|Hc].
      * intros _. unfold fail_adoption, kept. rewrite Ep, Eh. cbn [fst snd a_fd cosmic_artifact_init].
        rewrite !(closing_none (-1)) by done. rewrite (proj2 (Z.leb_gt 0 core_fd)) in Hp by done. by apply accounts_closing.
      * rewrite (proj2 (Z.leb_le 0 core_fd)) in Hp by done.
        destruct (adopt_artifact_ends [] s s2 su path (open_readonly path) core_fd Hc Hfd Hp) as [E1 E2].
        apply (ends_closes _ _ (open_readonly path)); [done|by rewrite Ep|done|by rewrite Eh].
    + assert (handed su = [su_artifact_fd su; su_core_fd su]) as Eh by (unfold handed; by rewrite Hk, Eb).
      rewrite Eh in Hh. apply Forall_cons in Hh as [Ha Hh]. apply Forall_cons in Hh as [Hc _].
      destruct (adopt_artifact_ends (handed su) s s su path (su_artifact_fd su) (su_core_fd su) Hc Ha) as [E1 E2].
      { rewrite Eh. apply accounts_swap, accounts_here. }
      apply (ends_closes _ _ (su_artifact_fd su)); [done|by rewrite Ep|done|done].
Qed.

(** C39: an adoption leaves no descriptor open but the artifact's: of those it
    was handed and those it opened, its own file's, its artifact's, a stamp's
    and a temporary's, each has been closed once when it fails, and when it
    succeeds all but the one the artifact holds. The one exception is an
    artifact handed with a path that is refused, which is left open. And the
    binding of a core to a database leaves none it opened. *)
Theorem adoption_closes_descriptors su s r s' :
  Forall (λ fd, 0 ≤ fd) (handed su) → (su_by_path su = true → su_core_fd su < 0) →
  cosmic_startup_adopt su s = (r, s') → r ≠ Never →
  accounts (handed su) s s' (kept su r)
  ∧ ∀ a path recorded, accounts (handed su) s (cosmic_database_bind a path recorded s').2 (kept su r).
Proof.
  intros Hh Hby E Hr. cut (closes su s (r, s')); [intros Hc; specialize (Hc Hr); split; [done|by intros; apply bind_accounts]|]. rewrite <-E. unfold cosmic_startup_adopt.
  destruct (su_kind su) eqn:Ek.
  - intros _. unfold handed, kept. rewrite Ek. apply accounts_here.
  - by apply adopt_portable_closes.
  - apply adopt_host_closes; [done|done|]. unfold handed in Hh. rewrite Ek in Hh. by apply Forall_cons in Hh as [Hh _].
  - by apply adopt_database_closes.
Qed.

End descriptors.

