(* ===== verification/StartupStamps.v ===== *)
(** * Cores known by their stamps: [core/startup.c]

    What a stamp is of, which process wrote it, and so what is known of the
    core a start adopts or binds to a database: over any sequence of processes
    that share a launcher's cache. *)

From stdpp Require Import pretty.
From S2P Require Import Prelude.
From S2P Require Import Texts.
From S2P Require Import JsonNumber.
From S2P Require Import JsonCanonical.
From S2P Require Import Lua.
From S2P Require Import ReadAt.
From S2P Require Import Portable.
From S2P Require Import PortableSpec.
From S2P Require Import PortableTheorems.
From S2P Require Import Crypto.
From S2P Require Import CryptoCorrect.
From S2P Require Import Startup.
From S2P Require Import StartupCorrect.

Local Open Scope Z_scope.

(** ** Stamps *)

Lemma last_slash_spec path before after : last_slash path = Some (before, after) → path = before ++ 0x2f :: after ∧ 0x2f ∉ after.
Proof.
  revert before after. induction path as [|c path IH]; intros before after; simpl; [done|].
  destruct (last_slash path) as [[b a]|] eqn:E.
  - intros [= <- <-]. destruct (IH b a eq_refl) as [-> Ha]. done.
  - destruct (Z.eqb_spec c 0x2f) as [->|]; [|done]. intros [= <- <-]. split; [done|]. clear IH.
    induction path as [|d path IH]; [apply not_elem_of_nil|]. simpl in E. destruct (last_slash path) as [[? ?]|]; [done|].
    destruct (Z.eqb_spec d 0x2f); [done|]. apply not_elem_of_cons. auto.
Qed.

(** What follows the last slash is one thing. *)
Lemma after_last_slash a b c d : a ++ 0x2f :: b = c ++ 0x2f :: d → 0x2f ∉ b → 0x2f ∉ d → b = d.
Proof.
  revert c. induction a as [|x a IH]; intros [|y c]; simpl; intros E Hb Hd; simplify_eq; [done|..|by eapply IH].
  - set_solver.
  - set_solver.
Qed.

Lemma cosmic_hex_length bs : length (cosmic_hex bs) = (2 * length bs)%nat.
Proof.
  induction bs as [|b bs IH]; [done|]. change (cosmic_hex (b :: bs)) with ([hex_digit (Z.shiftr b 4); hex_digit (Z.land b 15)] ++ cosmic_hex bs).
  rewrite length_app, IH. simpl. lia.
Qed.

Lemma c_string_whole s : Forall (λ c, c ≠ 0) s → c_string s = s.
Proof. induction 1 as [|c s Hc _ IH]; [done|]. simpl. by rewrite (proj2 (Z.eqb_neq c 0) Hc), IH. Qed.

Lemma stamp_line_plain core : c_string (take 95 (stamp_line core)) = stamp_line core.
Proof.
  unfold stamp_line. rewrite take_take, Nat.min_id. apply c_string_whole. apply Forall_take.
  assert (∀ n, Forall (λ c, c ≠ 0) (decimal n)) as Hd.
  { intros n. eapply Forall_impl; [apply decimal_bytes|]. intros c [Hc| ->]; [unfold digit in Hc; lia|done]. }
  rewrite !Forall_app. repeat split; try apply Hd; by repeat constructor.
Qed.

(** The fields of a [struct stat], at their widths. *)
Definition stat_fits (st : stat) : Prop :=
  0 ≤ st_size st < 2 ^ 63 ∧ 0 ≤ st_ino st < 2 ^ 64 ∧ - 2 ^ 63 ≤ st_mtime st < 2 ^ 63 ∧ - 2 ^ 63 ≤ st_ctime st < 2 ^ 63.

(** A file that is as it was when it had another's size, inode and times. *)
Definition unchanged (a b : stat) : Prop :=
  st_size a = st_size b ∧ st_ino a = st_ino b ∧ st_mtime a = st_mtime b ∧ st_ctime a = st_ctime b.

Lemma lit_inj s t : lit s = lit t → s = t.
Proof.
  revert t. induction s as [|c s IH]; intros [|d t]; try done. rewrite !lit_cons. intros [= Hc Ht]. f_equal; [|by apply IH].
  apply N2Z.inj in Hc. by rewrite <-(Ascii.ascii_N_embedding c), <-(Ascii.ascii_N_embedding d), Hc.
Qed.

Lemma decimal_inj a b : decimal a = decimal b → a = b.
Proof. unfold decimal. intros E%lit_inj. by apply (inj pretty) in E. Qed.

Lemma decimal_short n : - 2 ^ 63 ≤ n < 2 ^ 64 → (length (decimal n) ≤ 21)%nat.
Proof.
  intros Hn. destruct (Z.ltb_spec n 0) as [Hneg|Hpos]; [|pose proof (decimal_length n); lia].
  assert (decimal n = 0x2d :: decimal (- n)) as -> by (by destruct n).
  pose proof (decimal_length (- n)). simpl. lia.
Qed.

Lemma bar_splits a b x y : 0x7c ∉ a → 0x7c ∉ b → a ++ 0x7c :: x = b ++ 0x7c :: y → a = b ∧ x = y.
Proof.
  revert b. induction a as [|c a IH]; intros [|d b] Ha Hb; simpl.
  - by intros [= ->].
  - intros [= E _]. destruct Hb. rewrite <-E. by left.
  - intros [= E _]. destruct Ha. rewrite E. by left.
  - rewrite not_elem_of_cons in Ha, Hb. intros [= -> E]. apply IH in E as [-> ->]; tauto.
Qed.

Lemma no_bar n : 0x7c ∉ decimal n.
Proof.
  intros Hin. pose proof (decimal_bytes n) as Hd. rewrite Forall_forall in Hd. destruct (Hd _ Hin) as [Hx|Hx]; [unfold digit in Hx; lia|done].
Qed.

(** A line is of one size, inode and times. *)
Lemma stamp_line_unchanged a b : stat_fits a → stat_fits b → stamp_line a = stamp_line b → unchanged a b.
Proof.
  assert (∀ st, stat_fits st → stamp_line st
    = decimal (st_size st) ++ 0x7c :: decimal (st_ino st) ++ 0x7c :: decimal (st_mtime st) ++ 0x7c :: decimal (st_ctime st) ++ [0x0a]) as Hl.
  { intros st (H1 & H2 & H3 & H4). unfold stamp_line. change (lit "|") with [0x7c]. rewrite take_ge; [done|]. rewrite !length_app. simpl.
    pose proof (decimal_short (st_size st)). pose proof (decimal_short (st_ino st)).
    pose proof (decimal_short (st_mtime st)). pose proof (decimal_short (st_ctime st)). lia. }
  intros Ha Hb. rewrite (Hl a Ha), (Hl b Hb). clear Hl. intros E.
  apply bar_splits in E as [E1%decimal_inj E]; [|apply no_bar..].
  apply bar_splits in E as [E2%decimal_inj E]; [|apply no_bar..].
  apply bar_splits in E as [E3%decimal_inj E]; [|apply no_bar..].
  apply app_inj_tail in E as [E4%decimal_inj _]. done.
Qed.

(** A stamp's path, whoever's it is. *)
Definition stamp_name (path : bytes) : Prop := ∃ directory name, path = directory ++ lit "/.verified-" ++ name ∧ 0x2f ∉ name.

Lemma stamp_path_shape `{World} e core path directory :
  stamp_path e core = Some (path, directory) → path = directory ++ lit "/.verified-" ++ stamp_key e ∧ 0x2f ∉ stamp_key e.
Proof.
  unfold stamp_path. destruct (cosmic_executable_path _) as [core_path|]; [|done].
  destruct (last_slash core_path) as [[[|c d] name]|] eqn:El; [done| |done]. destruct (_ <=? _); [done|].
  case_bool_decide as Ename; [|done]. cbn [negb].
  destruct (lstat_at core_path); [|done]. destruct (_ || _); [done|]. destruct (_ <=? _); [done|]. destruct (_ <=? _); [done|].
  intros [= <- <-]. apply last_slash_spec in El as [_ Hn]. split; [done|]. by rewrite <-Ename.
Qed.

Lemma stamp_path_name `{World} e core path directory : stamp_path e core = Some (path, directory) → stamp_name path.
Proof. intros [-> Hk]%stamp_path_shape. by eexists _, _. Qed.

(** It names its core's digest. *)
Lemma stamp_path_digest (W1 : World) e1 core1 directory1 (W2 : World) e2 core2 directory2 path :
  @stamp_path W1 e1 core1 = Some (path, directory1) → @stamp_path W2 e2 core2 = Some (path, directory2) →
  all_bytes (sha256 e1) → all_bytes (sha256 e2) → length (sha256 e1) = 32%nat → length (sha256 e2) = 32%nat → sha256 e1 = sha256 e2.
Proof.
  intros [E1 _]%stamp_path_shape [E2 _]%stamp_path_shape Hb1 Hb2 Hl1 Hl2. apply cosmic_hex_inj; [done|done|congruence|].
  unfold stamp_key in *. rewrite !app_assoc in E1, E2. rewrite E1 in E2.
  apply app_inj_2 in E2 as [_ E]; [done|]. rewrite !cosmic_hex_length. lia.
Qed.

(** A temporary is no stamp. *)
Lemma temporary_no_stamp directory suffix : 0x2f ∉ suffix → ¬ stamp_name (directory ++ lit "/.verified." ++ suffix).
Proof.
  intros Hs (d & name & E & Hn).
  assert (∀ t, lit "/.verified." ++ t = 0x2f :: lit ".verified." ++ t) as E1 by done.
  assert (∀ t, lit "/.verified-" ++ t = 0x2f :: lit ".verified-" ++ t) as E2 by done.
  rewrite E1, E2 in E. apply after_last_slash in E; [by vm_compute in E| |].
  - apply not_elem_of_app. split; [|done]. by apply (bool_decide_unpack _).
  - apply not_elem_of_app. split; [|done]. by apply (bool_decide_unpack _).
Qed.

(** ** The processes that ran *)

(** What is documented of a process's files: they are what they are all along,
    a regular file's size is that of its bytes, the fields of a [struct stat]
    have their widths, and [mkstemp] puts six characters of a name for the
    template's. *)
Class WorldLaws `{World} (contents : Z → bytes) := {
  file_laws : ∀ fd, @KernelLaws (file fd) (contents fd);
  fstat_whole : ∀ fd st, fstat_fd fd = Some st → st_regular st = true → st_size st = Z.of_nat (length (contents fd));
  fstat_fits : ∀ fd st, fstat_fd fd = Some st → stat_fits st;
  mkstemp_name : ∀ directory files fd name, mkstemp (directory ++ lit "/.verified.XXXXXX") files = (fd, name) → 0 ≤ fd →
    ∃ suffix, name = directory ++ lit "/.verified." ++ suffix ∧ 0x2f ∉ suffix }.

(** One process: its world, the start it makes, and of a core run against a
    database the path it is bound to and what that records. *)
Record starting := Starting {
  p_world : World; p_contents : Z → bytes; p_startup : startup; p_bound : bytes * option bytes }.

(** A process's state before its start. *)
Definition begun (files : gmap bytes bytes) : adopting := Adopting [] [] 0 files.

Section processes.
Context `{PsaLaws hash, Build}.
Context (mask_fits : 0 ≤ COSMIC_PORTABLE_REQUIRED_TARGET_MASK < 2 ^ 64).

(** What it leaves of the cache's files. *)
Definition files_left (P : starting) (files : gmap bytes bytes) : gmap bytes bytes :=
  let adopted := @cosmic_startup_adopt (p_world P) _ _ (p_startup P) (begun files) in
  match adopted with
  | (Adopts a, s) =>
      if bool_decide (su_kind (p_startup P) = COSMIC_STARTUP_DATABASE)
      then ad_files (@cosmic_database_bind (p_world P) _ a (p_bound P).1 (p_bound P).2 s).2
      else ad_files s
  | (_, s) => ad_files s
  end.

(** The processes that ran, the last first, over a cache that had no stamps,
    and the files they leave where any may have been removed between. *)
Inductive history : list starting → gmap bytes bytes → Prop :=
  | history_none files : (∀ path, stamp_name path → files !! path = None) → history [] files
  | history_run ps files P : history ps files → @WorldLaws (p_world P) (p_contents P) → history (P :: ps) (files_left P files)
  | history_removed ps files files' : history ps files → files' ⊆ files → history ps files'.

(** The descriptors a start has of the core, of the file that runs and of the
    artifact. *)
Definition core_descriptor `{World} (su : startup) : Z :=
  match su_kind su with
  | COSMIC_STARTUP_PORTABLE => if su_by_path su then open_self 0 else su_core_fd su
  | _ => open_self 0
  end.
Definition physical_descriptor `{World} (su : startup) : Z := open_self (if su_by_path su then 1%nat else 0%nat).
Definition artifact_descriptor `{World} (su : startup) : Z :=
  if su_by_path su then open_readonly (default [] (su_artifact_path su)) else su_artifact_fd su.

(** A start of the world wrote the line at the path: the file it had of its
    core hashed to the digest of the entry the path is of, had the line's size,
    inode and times, and was last changed in a second before. *)
Definition wrote_stamp `{World} (contents : Z → bytes) (su : startup) (path line : bytes) : Prop :=
  ∃ e core directory now,
    fstat_fd (core_descriptor su) = Some core ∧ st_regular core = true ∧ stamp_path e core = Some (path, directory)
    ∧ line = stamp_line core ∧ all_bytes (sha256 e) ∧ length (sha256 e) = 32%nat
    ∧ sha256 e = hash PSA_ALG_SHA_256 (contents (core_descriptor su))
    ∧ time_now = Some now ∧ st_mtime core < now ∧ st_ctime core < now.

(** A process hashed the file it had of its core, which was one of the same
    size, inode and times, changed in a second before, to the digest. *)
Definition hashed_by (P : starting) (core : stat) (sha : bytes) : Prop :=
  let fd := @core_descriptor (p_world P) (p_startup P) in
  ∃ core' now,
    @fstat_fd (p_world P) fd = Some core' ∧ st_regular core' = true ∧ unchanged core' core ∧ sha = hash PSA_ALG_SHA_256 (p_contents P fd)
    ∧ @time_now (p_world P) = Some now ∧ st_mtime core' < now ∧ st_ctime core' < now.

(** A core is known to have a digest: its bytes have it, or the stamp of its
    entry is its line, which a process wrote that hashed it. *)
Definition known `{World} (ps : list starting) (files : gmap bytes bytes) (content : bytes) (e : entry) (core : stat) : Prop :=
  sha256 e = hash PSA_ALG_SHA_256 content
  ∨ ∃ path directory, stamp_path e core = Some (path, directory) ∧ files !! path = Some (stamp_line core)
      ∧ ∃ P, P ∈ ps ∧ hashed_by P core (sha256 e).

Section process.
Context `{W : World} (contents : Z → bytes) `{!WorldLaws contents}.

(** From [s] to [s'] the stamps are as they were, or written by the start. *)
Definition grows (su : startup) (s s' : adopting) : Prop :=
  ∀ path, stamp_name path →
    ad_files s' !! path = ad_files s !! path ∨ ∃ line, ad_files s' !! path = Some line ∧ wrote_stamp contents su path line.

Lemma grows_same su s s' : ad_files s' = ad_files s → grows su s s'.
Proof. intros E path _. left. by rewrite E. Qed.

Lemma closing_same fd s : ad_files (closing fd s) = ad_files s ∧ ad_selves (closing fd s) = ad_selves s.
Proof. unfold closing. by destruct (0 <=? fd). Qed.

Lemma closing_files fd s : ad_files (closing fd s) = ad_files s.
Proof. apply closing_same. Qed.

Lemma stamp_holds_same path core s :
  ad_files (stamp_holds path core s).2 = ad_files s ∧ ad_selves (stamp_holds path core s).2 = ad_selves s.
Proof.
  unfold stamp_holds. set (fd := match ad_files s !! path with Some _ => _ | None => _ end). cbv zeta. destruct (fd <? 0); [done|].
  destruct (closing_same fd (opening fd s)) as [E1 E2].
  split; (destruct (bool_decide (_ = [])); [|]); assumption.
Qed.

(** A stamp that holds is the core's line. *)
Lemma stamp_holds_line path core s :
  (stamp_holds path core s).1 = true → ∃ found, ad_files s !! path = Some found ∧ c_string (take 95 found) = stamp_line core.
Proof.
  unfold stamp_holds. cbv zeta. set (fd := match ad_files s !! path with Some _ => _ | None => _ end).
  destruct (fd <? 0) eqn:Efd; [done|]. destruct (ad_files s !! path) as [found|] eqn:Ef; [|done].
  change (ad_files (opening fd s)) with (ad_files s). rewrite Ef. cbn [from_option].
  destruct (read_works fd); [|by rewrite bool_decide_true]. destruct (bool_decide (take 95 _ = [])); [done|]. cbn [fst].
  intros E%bool_decide_eq_true. by exists found.
Qed.

Lemma stamp_write_selves path directory core s : ad_selves (stamp_write path directory core s) = ad_selves s.
Proof.
  unfold stamp_write. destruct time_now; [|done]. destruct (_ || _); [done|]. cbv zeta. destruct (_ <=? _); [done|].
  destruct (mkstemp _ _) as [fd temporary]. destruct (fd <? 0); [done|]. assert (∀ m, ad_selves (closing fd (with_files m (opening fd s))) = ad_selves s) as Hk.
  { intros m. by rewrite (proj2 (closing_same _ _)). }
  destruct (_ && _); [apply Hk|]. destruct (unlink_works _); apply Hk.
Qed.

(** A stamp written is the core's line, whole, and no other changes. *)
Lemma stamp_write_line path directory core s p :
  stamp_name p →
  ad_files (stamp_write path directory core s) !! p = ad_files s !! p
  ∨ p = path ∧ ad_files (stamp_write path directory core s) !! p = Some (stamp_line core)
    ∧ ∃ now, time_now = Some now ∧ st_mtime core < now ∧ st_ctime core < now.
Proof.
  intros Hp. unfold stamp_write. destruct time_now as [now|]; [|by left].
  destruct ((now <=? st_ctime core) || (now <=? st_mtime core)) eqn:En; [by left|]. apply orb_false_elim in En as [E1%Z.leb_gt E2%Z.leb_gt].
  cbv zeta. destruct (_ <=? _); [by left|]. destruct (mkstemp _ _) as [fd temporary] eqn:Em. destruct (Z.ltb_spec fd 0) as [|Hfd]; [by left|].
  destruct (mkstemp_name _ _ _ _ Em Hfd) as (suffix & -> & Hs). set (temporary := directory ++ lit "/.verified." ++ suffix).
  assert (temporary ≠ p) as Ht by (intros <-; by apply (temporary_no_stamp directory suffix)).
  rewrite !closing_files. cbn [ad_files with_files opening]. destruct (write_count fd (stamp_line core) =? _) eqn:Ew.
  - apply Z.eqb_eq in Ew. rewrite Ew, Nat2Z.id, firstn_all, lookup_insert_eq. cbn [from_option].
    destruct (close_works fd); cbn [andb]; [destruct (rename_works _ _)|].
    + destruct (decide (p = path)) as [->|Hne].
      * right. split; [done|]. split; [cbn [ad_files with_files]; by rewrite lookup_insert_eq|]. by exists now.
      * left. cbn [ad_files with_files]. rewrite lookup_insert_ne by done. by rewrite lookup_delete_ne, lookup_insert_ne.
    + left. destruct (unlink_works _); cbn [ad_files with_files]; rewrite ?closing_files; cbn [ad_files with_files]; by rewrite ?lookup_delete_ne, lookup_insert_ne.
    + left. destruct (unlink_works _); cbn [ad_files with_files]; rewrite ?closing_files; cbn [ad_files with_files]; by rewrite ?lookup_delete_ne, lookup_insert_ne.
  - left. destruct (close_works fd); cbn [andb]; destruct (unlink_works _); cbn [ad_files with_files]; rewrite ?closing_files; cbn [ad_files with_files];
      by rewrite ?lookup_delete_ne, lookup_insert_ne.
Qed.

Lemma stamp_write_grows su s e core path directory :
  fstat_fd (core_descriptor su) = Some core → st_regular core = true → stamp_path e core = Some (path, directory) →
  all_bytes (sha256 e) → length (sha256 e) = 32%nat → sha256 e = hash PSA_ALG_SHA_256 (contents (core_descriptor su)) →
  grows su s (stamp_write path directory core s).
Proof.
  intros Hf Hr Hp Hb Hl Hd p Hn. destruct (stamp_write_line path directory core s p Hn) as [E|(-> & E & now & Et)]; [by left|].
  right. exists (stamp_line core). split; [done|]. by exists e, core, directory, now.
Qed.

(** *** A core checked *)

(** The whole of a file that has the length asked for. *)
Lemma range_whole fd st want turn turn' :
  fstat_fd fd = Some st → st_regular st = true →
  @cosmic_sha256_range_matches _ (file fd) 0 (st_size st) want turn = (Some true, turn') →
  want = hash PSA_ALG_SHA_256 (contents fd).
Proof.
  intros Hf Hr E. pose proof (fstat_whole _ _ Hf Hr) as Hsize. pose proof (file_laws fd) as laws.
  assert (0 ≤ st_size st) as Hs by lia. destruct (range_matches_sound _ _ _ _ _ (Z.le_refl 0) Hs E) as [-> _]. f_equal. unfold slice.
  rewrite take_ge; [done|]. rewrite length_drop. lia.
Qed.

(** Its stamp is its line. *)
Definition stamped_in (files : gmap bytes bytes) (e : entry) (core : stat) : Prop :=
  ∃ path directory found, stamp_path e core = Some (path, directory) ∧ files !! path = Some found ∧ c_string (take 95 found) = stamp_line core.

(** Whether its stamp holds, where it has one. *)
Lemma stamped_spec e core s fresh s2 :
  (match stamp_path e core with Some (path, _) => stamp_holds path core s | None => (false, s) end) = (fresh, s2) →
  ad_files s2 = ad_files s ∧ ad_selves s2 = ad_selves s ∧ (fresh = true → stamped_in (ad_files s) e core).
Proof.
  destruct (stamp_path e core) as [[path directory]|] eqn:Ep; [|by intros [= <- <-]]. intros E.
  pose proof (stamp_holds_same path core s) as [E1 E2]. pose proof (stamp_holds_line path core s) as E3. rewrite E in E1, E2, E3.
  split; [done|]. split; [done|]. intros ->. destruct (E3 eq_refl) as (found & F1 & F2). by exists path, directory, found.
Qed.

Lemma adopt_core_checks su a s core s' :
  let e := selected (a_portable a) in
  let fd := core_descriptor su in
  all_bytes (sha256 e) → length (sha256 e) = 32%nat →
  adopt_core a fd s = (Adopts core, s') →
  fstat_fd fd = Some core ∧ st_regular core = true ∧ st_size core = core_length e
  ∧ grows su s s' ∧ ad_selves s' = ad_selves s
  ∧ (sha256 e = hash PSA_ALG_SHA_256 (contents fd) ∨ stamped_in (ad_files s) e core).
Proof.
  intros e fd Hb Hl. unfold adopt_core. fold e. destruct (Z.ltb_spec fd 0) as [|Hfd]; [done|].
  destruct (fstat_fd fd) as [st|] eqn:Ef; [|done]. destruct (negb (st_regular st) || (st_size st <? 0)) eqn:Er; [done|].
  apply orb_false_elim in Er as [Er%negb_false_iff _]. destruct (Z.eqb_spec (st_size st) (core_length e)) as [El|]; [|done]. cbv zeta. cbn [negb].
  destruct (match stamp_path e st with Some _ => _ | None => _ end) as [fresh s2] eqn:Es. apply stamped_spec in Es as (F1 & F2 & F3).
  destruct fresh.
  { intros [= <- <-]. split_and!; [done..|by apply grows_same|done|right; by apply F3]. }
  destruct (cosmic_sha256_range_matches _ _ _ _) as [[[]|] turn] eqn:Em; [|done|done]. intros [= <- <-].
  rewrite <-El in Em. pose proof (range_whole _ _ _ _ _ Ef Er Em) as Hd.
  assert (∀ p directory, stamp_path e st = Some (p, directory) → grows su s (stamp_write p directory st s2)) as Hg.
  { intros p directory Ep q Hq. rewrite <-F1. by apply (stamp_write_grows su s2 e st p directory). }
  destruct (stamp_path e st) as [[path directory]|] eqn:Ep; (split_and!; [done..| | |by left]).
  - by apply Hg.
  - by rewrite stamp_write_selves.
  - by apply grows_same.
  - done.
Qed.

(** A part of an adoption that leaves the files, and what holds of what it
    adopts. *)
Definition keeps {A} (s : adopting) (P : A → Prop) (x : outcome A * adopting) : Prop :=
  ad_files x.2 = ad_files s ∧ match x.1 with Adopts a => P a | _ => True end.

Lemma fail_keeps {A} (P : A → Prop) s s' a core_fd physical_fd why :
  ad_files s' = ad_files s → keeps s P (fail_adoption a core_fd physical_fd why s').
Proof. intros Hs. split; [|done]. simpl. by rewrite !closing_files. Qed.

Lemma adopt_core_fails a core_fd s : (∀ core, (adopt_core a core_fd s).1 ≠ Adopts core) → ad_files (adopt_core a core_fd s).2 = ad_files s.
Proof.
  unfold adopt_core. intros Hn. assert (∀ why x, ad_files x = ad_files s → ad_files (@fail_adoption stat a core_fd (-1) why x).2 = ad_files s) as Hf.
  { intros why x Hx. by apply (fail_keeps (λ _ : stat, True)). }
  destruct (if core_fd <? 0 then _ else _) as [core|]; [|by apply Hf]. destruct (_ || _); [by apply Hf|]. destruct (negb _); [by apply Hf|].
  cbv zeta in *. destruct (match stamp_path _ _ with Some _ => _ | None => _ end) as [fresh s2] eqn:Es. apply stamped_spec in Es as (F1 & _).
  destruct fresh; [done|].
  destruct (cosmic_sha256_range_matches _ _ _ _).1 as [[]|]; [|by apply Hf|done]. by destruct (Hn core).
Qed.

(** The file that runs is the core's. *)
Definition runs_core (physical_fd : Z) (core : stat) : Prop :=
  ∃ physical, fstat_fd physical_fd = Some physical ∧ st_dev physical = st_dev core ∧ st_ino physical = st_ino core.

Lemma adopt_physical_keeps a core_fd core s :
  keeps s (λ b, a_fd b = a_fd a ∧ a_portable b = a_portable a ∧ a_core_checked b = 1 ∧ runs_core (open_self (ad_selves s)) core)
    (adopt_physical a core_fd core s).
Proof.
  unfold adopt_physical, cosmic_executable_fd. cbv zeta. set (fd := open_self (ad_selves s)).
  destruct (fd <? 0); [by apply fail_keeps|]. destruct (fstat_fd fd) as [physical|] eqn:Ef; [|by apply fail_keeps].
  destruct (Z.eqb_spec (st_dev physical) (st_dev core)); [|by apply fail_keeps].
  destruct (Z.eqb_spec (st_ino physical) (st_ino core)); [|by apply fail_keeps]. cbn [negb orb].
  destruct (negb _); [apply fail_keeps; by rewrite !closing_files|]. split; simpl; [by rewrite !closing_files|].
  split_and!; [done..|by exists physical].
Qed.

(** *** A portable start *)

(** The digests of a manifest's entries are bytes. *)
Lemma entry_digest_bytes magic first content front p e :
  framed magic first content front p → all_bytes content → e ∈ entries p → all_bytes (sha256 e) ∧ length (sha256 e) = 32%nat.
Proof.
  intros Hf Hc He. destruct (fr_content _ _ _ _ _ Hf) as (database & -> & _ & _). apply Forall_app in Hc as [_ Hc].
  apply Forall_app in Hc as [Hc _]. unfold manifest_bytes in Hc. apply Forall_app in Hc as [_ Hc]. apply Forall_app in Hc as [Hc _].
  destruct (fr_entries _ _ _ _ _ Hf) as (_ & _ & Hfits & _). rewrite Forall_forall in Hfits. apply Hfits in He as Hfit.
  split; [|by apply Hfit].
  rewrite Forall_forall in Hc. apply Forall_forall. intros b Hb. apply Hc.
  apply list_elem_of_bind. exists e. split; [|done]. unfold entry_bytes. rewrite !elem_of_app. tauto.
Qed.

Lemma manifest_decoded fd p why :
  @cosmic_portable_decode (file fd) _ COSMIC_TARGET_ID COSMIC_CONFIGURATION_ID 0 = (true, p, why) →
  ∃ q e, runs_as (content := contents fd) COSMIC_TARGET_ID COSMIC_CONFIGURATION_ID q e ∧ p = select q e
    ∧ all_bytes (sha256 e) ∧ length (sha256 e) = 32%nat.
Proof.
  intros E. pose proof (file_laws fd) as laws.
  destruct (@portable_decode_exact (file fd) _ laws _ mask_fits COSMIC_TARGET_ID COSMIC_CONFIGURATION_ID 0) as (_ & Hd & _).
  destruct (Hd _ _ E) as (q & e & Hq & ->). exists q, e. split; [done|]. split; [done|].
  destruct Hq as (_ & _ & (shell & cores & area & _ & _ & _ & _ & _ & _ & Hf) & He & _).
  exact (entry_digest_bytes _ _ _ _ _ _ Hf (@content_bytes _ _ laws) He).
Qed.

(** The launcher's choice, and this program. *)
Definition chosen (su : startup) (e : entry) : Prop :=
  su_target_id su = COSMIC_TARGET_ID ∧ su_configuration_id su = COSMIC_CONFIGURATION_ID
  ∧ target_id e = su_target_id su ∧ configuration_id e = su_configuration_id su
  ∧ offset e = su_core_offset su ∧ core_length e = su_core_length su ∧ sha256 e = su_core_sha256 su.

Lemma launcher_agrees su e : launcher_differs su e = None → chosen su e.
Proof.
  unfold launcher_differs, chosen.
  repeat match goal with |- context [?x =? ?y] => destruct (Z.eqb_spec x y); cbn [negb orb]; [|done] end.
  by case_bool_decide.
Qed.

(** What an adoption comes to. *)
Definition portable_core (files : gmap bytes bytes) (su : startup) (artifact_fd physical_fd : Z) (a : artifact) : Prop :=
  ∃ q e core,
    runs_as (content := contents artifact_fd) COSMIC_TARGET_ID COSMIC_CONFIGURATION_ID q e ∧ a_portable a = select q e ∧ chosen su e
    ∧ a_fd a = artifact_fd ∧ a_core_checked a = 1
    ∧ fstat_fd (core_descriptor su) = Some core ∧ st_regular core = true ∧ st_size core = core_length e ∧ runs_core physical_fd core
    ∧ (sha256 e = hash PSA_ALG_SHA_256 (contents (core_descriptor su)) ∨ stamped_in files e core).

(** The stamps that are there or are written, and what is adopted. *)
Definition sound {A} (su : startup) (s : adopting) (P : A → Prop) (x : outcome A * adopting) : Prop :=
  grows su s x.2 ∧ match x.1 with Adopts a => P a | _ => True end.

Lemma keeps_sound {A} su s (P : A → Prop) x : keeps s P x → sound su s P x.
Proof. intros [E Hx]. split; [by apply grows_same|done]. Qed.

Lemma adopt_artifact_adopts su path artifact_fd s :
  sound su s (portable_core (ad_files s) su artifact_fd (open_self (ad_selves s))) (adopt_artifact su path artifact_fd (core_descriptor su) s).
Proof.
  set (P := portable_core _ _ _ _). assert (∀ a why, sound su s P (fail_adoption a (core_descriptor su) (-1) why s)) as Hf.
  { intros a why. by apply keeps_sound, fail_keeps. }
  unfold adopt_artifact. destruct (if artifact_fd <? 0 then _ else _) as [st|]; [|apply Hf]. destruct (_ || _); [apply Hf|].
  destruct (_ && _); [apply Hf|].
  destruct (@cosmic_portable_decode (file artifact_fd) _ _ _ _) as [[[] p] why] eqn:Ed; [|apply Hf].
  destruct (manifest_decoded _ _ _ Ed) as (q & e & Hq & -> & Hb & Hl). cbn [selected select].
  destruct (launcher_differs su e) eqn:Edif; [apply Hf|]. apply launcher_agrees in Edif. cbv zeta. set (a := Artifact _ _ _ _ _ _ _ _ _).
  pose proof (adopt_core_fails a (core_descriptor su) s) as Hc. destruct (adopt_core a (core_descriptor su) s) as [[core|w|] s2] eqn:Ec;
    [|by apply keeps_sound; split; [apply Hc|]..].
  destruct (adopt_core_checks su a s core s2 Hb Hl Ec) as (F1 & F2 & F3 & F4 & F5 & F6).
  destruct (adopt_physical_keeps a (core_descriptor su) core s2) as [E1 E2]. split.
  - intros p Hp. rewrite E1. by apply F4.
  - destruct (adopt_physical a (core_descriptor su) core s2).1 as [b| |]; [|done..]. destruct E2 as (G1 & G2 & G3 & G4).
    rewrite F5 in G4. exists q, e, core. by split_and!.
Qed.

Lemma sound_from {A} su s s' (P : A → Prop) x : ad_files s' = ad_files s → sound su s' P x → sound su s P x.
Proof. intros E [Hg Hx]. split; [|done]. intros p Hp. rewrite <-E. by apply Hg. Qed.

Lemma adopt_portable_sound su files :
  su_kind su = COSMIC_STARTUP_PORTABLE →
  sound su (begun files) (portable_core files su (artifact_descriptor su) (physical_descriptor su))
    (adopt_portable su (default [] (su_artifact_path su)) (begun files)).
Proof.
  intros Hk. set (P := portable_core _ _ _ _). set (path := default [] (su_artifact_path su)).
  assert (∀ a c why x, ad_files x = files → sound su (begun files) P (fail_adoption a c (-1) why x)) as Hf.
  { intros a c why x Ex. by apply keeps_sound, fail_keeps. }
  unfold adopt_portable. destruct (negb _); [by apply Hf|]. destruct (too_long _); [by apply Hf|].
  assert (core_descriptor su = if su_by_path su then open_self 0 else su_core_fd su) as Ec by (unfold core_descriptor; by rewrite Hk).
  destruct (su_by_path su) eqn:Eb.
  - cbv zeta. destruct (_ <? 0); [by apply Hf|]. unfold cosmic_executable_fd. cbn [ad_selves opening begun]. cbv zeta.
    destruct (_ <? 0); [apply Hf; by rewrite closing_files|]. rewrite <-Ec. set (s2 := Adopting _ _ _ _).
    apply (sound_from _ _ s2); [done|]. pose proof (adopt_artifact_adopts su path (open_readonly path) s2) as Ha.
    unfold P, artifact_descriptor, physical_descriptor. rewrite Eb. exact Ha.
  - rewrite <-Ec. pose proof (adopt_artifact_adopts su path (su_artifact_fd su) (begun files)) as Ha.
    unfold P, artifact_descriptor, physical_descriptor. rewrite Eb. exact Ha.
Qed.

(** *** The other starts *)

Lemma adopt_host_keeps fd path s : keeps s (λ _, True) (adopt_host fd path s).
Proof.
  unfold adopt_host. destruct (_ || _); [by apply fail_keeps|]. cbv zeta. destruct (fstat_fd fd); [|by apply fail_keeps].
  destruct (negb _); [by apply fail_keeps|]. destruct (cosmic_host_decode _ _ _) as [[[] p] why]; [done|by apply fail_keeps].
Qed.

Lemma adopt_database_keeps files :
  keeps (begun files)
    (λ a, a_fd a = open_self 0 ∧ ∃ core, fstat_fd (open_self 0) = Some core ∧ st_regular core = true ∧ a_core_checked a = 0
       ∧ offset (selected (a_portable a)) = 0 ∧ core_length (selected (a_portable a)) = st_size core
       ∧ sha256 (selected (a_portable a)) = replicate 32 0)
    (adopt_database (begun files)).
Proof.
  unfold adopt_database, cosmic_executable_fd. cbn [ad_selves begun]. cbv zeta. destruct (_ <? 0); [by apply fail_keeps|].
  destruct (fstat_fd _) as [core|] eqn:E; [|by apply fail_keeps]. destruct (st_regular core) eqn:Er; [|by apply fail_keeps].
  destruct (_ <=? _); [by apply fail_keeps|]. split; [done|]. split; [done|]. exists core. by split_and!.
Qed.

(** *** A core bound *)

(** A check of the core that passes, its bytes where it was made now. *)
Lemma core_matched_now fd a core b turn :
  cosmic_artifact_core_matches (H0 := file fd) (Some a) 0 = (Some true, b, turn) →
  fstat_fd fd = Some core → st_regular core = true →
  offset (selected (a_portable a)) = 0 → core_length (selected (a_portable a)) = st_size core →
  b = Some (with_checked 1 a) ∧ (a_core_checked a = 0 → sha256 (selected (a_portable a)) = hash PSA_ALG_SHA_256 (contents fd)).
Proof.
  unfold cosmic_artifact_core_matches. intros E Hf Hr Ho Hl. destruct (a_fd a <? 0); [done|]. destruct (Z.eqb_spec (a_core_checked a) 0) as [Hc|Hc].
  - cbv zeta in E. destruct (codec _ =? _); [|done]. rewrite Ho, Hl in E.
    destruct (cosmic_sha256_range_matches _ _ _ _) as [[[]|] t] eqn:Em; [|done|done]. injection E as <- <-. split; [done|]. intros _.
    by eapply range_whole.
  - injection E as Hb <- <-. apply Z.eqb_eq in Hb. split; [|done]. by destruct a; simpl in *; subst.
Qed.

(** What a binding comes to. *)
Definition bound_core (files : gmap bytes bytes) (su : startup) (path : bytes) (recorded : option bytes) (a : artifact) : Prop :=
  ∃ core, fstat_fd (core_descriptor su) = Some core ∧ st_regular core = true
    ∧ hex_digest recorded (replicate 32 0) = (true, sha256 (selected (a_portable a)))
    ∧ core_length (selected (a_portable a)) = st_size core
    ∧ a_logical_path a = path ∧ a_fd a = core_descriptor su
    ∧ (sha256 (selected (a_portable a)) = hash PSA_ALG_SHA_256 (contents (core_descriptor su)) ∨ stamped_in files (selected (a_portable a)) core)
    ∧ all_bytes (sha256 (selected (a_portable a))) ∧ length (sha256 (selected (a_portable a))) = 32%nat.

Lemma bind_sound su files a s1 path recorded :
  su_kind su = COSMIC_STARTUP_DATABASE → adopt_database (begun files) = (Adopts a, s1) →
  let x := cosmic_database_bind a path recorded s1 in
  grows su (begun files) x.2 ∧ match x.1.1 with Adopts _ => bound_core files su path recorded x.1.2 | _ => True end.
Proof.
  intros Hk E. pose proof (adopt_database_keeps files) as [K Ka]. rewrite E in K, Ka. cbn [fst snd] in K, Ka.
  destruct Ka as (Hfd & core & Hf & Hr & Hch & Ho & Hlen & Hz). assert (core_descriptor su = open_self 0) as Hcd by (unfold core_descriptor; by rewrite Hk).
  rewrite <-Hcd in Hfd, Hf. cbv zeta. assert (∀ s2, ad_files s2 = ad_files s1 → grows su (begun files) s2) as Hsame.
  { intros s2 E2. apply grows_same. by rewrite E2, K. }
  unfold cosmic_database_bind. destruct (too_long path); [split; [by apply Hsame|done]|].
  destruct recorded as [recorded|]; [|split; [by apply Hsame|done]].
  rewrite Hz. destruct (hex_digest (Some recorded) (replicate 32 0)) as [whole sha] eqn:Eh. destruct whole; [|split; [by apply Hsame|done]]. cbn [negb].
  pose proof (hex_digest_bytes (Some recorded) (replicate 32 0) sha eq_refl Eh) as [Hb Hl]. cbv zeta.
  set (a1 := with_digests sha sha a). change (a_fd a1) with (a_fd a). rewrite Hfd, Hf.
  destruct (match stamp_path _ _ with Some _ => _ | None => _ end) as [fresh s2] eqn:Es. apply stamped_spec in Es as (F1 & F2 & F3).
  set (a2 := if fresh then with_checked 1 a1 else a1). assert (a_fd a2 = core_descriptor su) as -> by (unfold a2; by destruct fresh).
  assert (selected (a_portable a2) = selected (a_portable a1) ∧ (fresh = false → a_core_checked a2 = 0)) as [Esel Hchk].
  { unfold a2. by destruct fresh. }
  destruct (cosmic_artifact_core_matches (Some a2) 0) as [[[[]|] [b|]] turn] eqn:Em; try (split; [by apply Hsame|done]).
  destruct (core_matched_now _ _ core _ _ Em Hf Hr) as [[= ->] Hnow]; [by rewrite Esel|by rewrite Esel|]. cbn [fst snd].
  rewrite Esel in Hnow. split.
  - destruct (stamp_path (selected (a_portable a1)) core) as [[file_ directory]|] eqn:Ep; [|by apply Hsame]. destruct fresh; [by apply Hsame|].
    intros p Hp. rewrite <-K, <-F1. apply (stamp_write_grows su s2 (selected (a_portable a1)) core file_ directory); try done.
    by apply Hnow, Hchk.
  - exists core. change (selected (a_portable (with_path path (with_checked 1 a2)))) with (selected (a_portable a2)). rewrite Esel.
    split_and!; try done; [unfold a2; by destruct fresh|]. destruct fresh; [right|left; by apply Hnow, Hchk].
    rewrite K in F3. by apply F3.
Qed.

(** *** A process *)

Lemma adopt_sound su files :
  sound su (begun files) (λ a, su_kind su = COSMIC_STARTUP_PORTABLE → portable_core files su (artifact_descriptor su) (physical_descriptor su) a)
    (cosmic_startup_adopt su (begun files)).
Proof.
  unfold cosmic_startup_adopt. destruct (su_kind su) eqn:Ek.
  - split; [by apply grows_same|done].
  - destruct (adopt_portable_sound su files Ek) as [K1 K2]. split; [done|]. by destruct (adopt_portable _ _ _).1.
  - destruct (adopt_host_keeps (su_artifact_fd su) (default [] (su_artifact_path su)) (begun files)) as [K _].
    split; [by apply grows_same|]. by destruct (adopt_host _ _ _).1.
  - destruct (adopt_database_keeps files) as [K _]. split; [by apply grows_same|]. by destruct (adopt_database _).1.
Qed.

Lemma files_left_grows su bound files path :
  stamp_name path →
  files_left (Starting W contents su bound) files !! path = files !! path
  ∨ ∃ line, files_left (Starting W contents su bound) files !! path = Some line ∧ wrote_stamp contents su path line.
Proof.
  intros Hp. destruct (adopt_sound su files) as [Hg _]. unfold files_left. cbn [p_world p_contents p_startup p_bound].
  destruct (cosmic_startup_adopt su (begun files)) as [[a|why|] s] eqn:E; [|by apply Hg..]. case_bool_decide as Hk; [|by apply Hg].
  unfold cosmic_startup_adopt in E. rewrite Hk in E. by apply (bind_sound su files a s bound.1 bound.2 Hk E).
Qed.

End process.

(** Every stamp there is was written by a process that ran. *)
Lemma history_stamped ps files path line :
  history ps files → stamp_name path → files !! path = Some line →
  ∃ P, P ∈ ps ∧ @WorldLaws (p_world P) (p_contents P) ∧ @wrote_stamp (p_world P) (p_contents P) (p_startup P) path line.
Proof.
  intros Hh Hp. revert line. induction Hh as [files Hnone|ps files P Hh IH laws|ps files files' Hh IH Hsub]; intros line Hl.
  - by rewrite Hnone in Hl.
  - destruct P as [W contents su bound]. destruct (@files_left_grows W contents laws su bound files path Hp) as [E|(line' & E & Hw)]; rewrite E in Hl.
    + destruct (IH line Hl) as (P & HP & Hx). exists P. split; [by right|done].
    + injection Hl as ->. exists (Starting W contents su bound). split; [by left|]. by split.
  - apply IH. by eapply lookup_weaken.
Qed.

Section started.
Context `{W : World} (contents : Z → bytes) `{!WorldLaws contents}.

(** A stamp that is a core's line is one a process wrote that hashed it. *)
Lemma stamped_known ps files e core fd :
  history ps files → fstat_fd fd = Some core → all_bytes (sha256 e) → length (sha256 e) = 32%nat → stamped_in files e core →
  ∃ path directory, stamp_path e core = Some (path, directory) ∧ files !! path = Some (stamp_line core)
    ∧ ∃ P, P ∈ ps ∧ hashed_by P core (sha256 e).
Proof.
  intros Hh Hf Hb Hl (path & directory & found & Hp & Hfound & Hline).
  destruct (history_stamped _ _ _ _ Hh (stamp_path_name _ _ _ _ Hp) Hfound) as (P & HP & laws & e' & core' & d' & now & F1 & F2 & F3 & -> & F5 & F6 & F7 & F8).
  rewrite stamp_line_plain in Hline. exists path, directory. split; [done|]. split; [by rewrite <-Hline|]. exists P. split; [done|].
  exists core', now. split; [done|]. split; [done|]. split.
  - apply stamp_line_unchanged; [by eapply (@fstat_fits _ _ laws)|by eapply fstat_fits|done].
  - rewrite <-F7. split; [|done]. exact (stamp_path_digest W e core directory (p_world P) e' core' d' path Hp F3 Hb F5 Hl F6).
Qed.

(** What an adopted core is. *)
Definition adopted (ps : list starting) (files : gmap bytes bytes) (su : startup) (a : artifact) : Prop :=
  ∃ q e core,
    runs_as (content := contents (artifact_descriptor su)) COSMIC_TARGET_ID COSMIC_CONFIGURATION_ID q e
    ∧ a_portable a = select q e ∧ a_fd a = artifact_descriptor su ∧ a_core_checked a = 1 ∧ chosen su e
    ∧ fstat_fd (core_descriptor su) = Some core ∧ st_regular core = true
    ∧ core_length e = Z.of_nat (length (contents (core_descriptor su)))
    ∧ known ps files (contents (core_descriptor su)) e core
    ∧ runs_core (physical_descriptor su) core.

(** C37: a portable start goes on only with the core its artifact carries for
    the identity compiled in and its launcher chose. The artifact, that of the
    descriptor handed or the path opened, is one of the format and its core
    the launcher's; the core's descriptor is of a file of that length which is
    the one the process runs, by device and inode; and its digest is the one
    chosen, computed now, or, where the stamp of the entry in the cache is the
    line of that file's size, inode and times, computed by a process that ran
    before, of a file with that size, inode and times, last changed in a
    second before. *)
Theorem adopted_cores_are_checked ps files su a s' :
  history ps files → su_kind su = COSMIC_STARTUP_PORTABLE → cosmic_startup_adopt su (begun files) = (Adopts a, s') →
  adopted ps files su a.
Proof.
  intros Hh Hk E. destruct (adopt_sound contents su files) as [_ Ha]. rewrite E in Ha.
  destruct (Ha Hk) as (q & e & core & F1 & F2 & F3 & F4 & F5 & F6 & F7 & F8 & F9 & F10). exists q, e, core.
  assert (all_bytes (sha256 e) ∧ length (sha256 e) = 32%nat) as [Hb Hl].
  { pose proof (file_laws (artifact_descriptor su)) as laws. destruct F1 as (_ & _ & (shell & cores & area & _ & _ & _ & _ & _ & _ & Hf) & He & _).
    exact (entry_digest_bytes _ _ _ _ _ _ Hf (@content_bytes _ _ laws) He). }
  split_and!; try done.
  - rewrite <-F8. by apply fstat_whole.
  - destruct F10 as [Hd|Hs]; [by left|right]. by eapply stamped_known.
Qed.

(** C38: a core run against a database is bound to it only where the digest the
    database records is that of the whole of the file of the descriptor the
    start opened on itself, computed now, or, of a cache's entry whose stamp
    is the line of that file's size, inode and times, computed by a process
    that ran before, of a file with that size, inode and times, last changed
    in a second before. *)
Theorem bound_cores_are_recorded ps files su a s1 path recorded a' s2 :
  history ps files → su_kind su = COSMIC_STARTUP_DATABASE → cosmic_startup_adopt su (begun files) = (Adopts a, s1) →
  cosmic_database_bind a path recorded s1 = (Adopts (), a', s2) →
  let e := selected (a_portable a') in
  hex_digest recorded (replicate 32 0) = (true, sha256 e) ∧ a_logical_path a' = path ∧ a_fd a' = core_descriptor su
  ∧ ∃ core, fstat_fd (core_descriptor su) = Some core ∧ st_regular core = true
      ∧ core_length e = Z.of_nat (length (contents (core_descriptor su)))
      ∧ known ps files (contents (core_descriptor su)) e core.
Proof.
  intros Hh Hk E Eb. unfold cosmic_startup_adopt in E. rewrite Hk in E. destruct (bind_sound contents su files a s1 path recorded Hk E) as [_ Hx].
  rewrite Eb in Hx. destruct Hx as (core & F1 & F2 & F3 & F4 & F5 & F6 & F7 & F8 & F9). cbn [fst snd] in *.
  split_and!; [done..|]. exists core. split_and!; try done.
  - rewrite F4. by apply fstat_whole.
  - destruct F7 as [Hd|Hs]; [by left|right]. by eapply stamped_known.
Qed.

End started.

End processes.

(** ** A start from a launcher's cache *)

Module Cached.
Import Sums.

(** The core's file, in the cache under its name; the artifact is that of
    [PortableTheorems.v]. *)
Definition core_file : bytes := [1; 2; 253].
Definition contents (fd : Z) : bytes := if fd =? 3 then portable_file else core_file.
Definition core_stat : stat := Stat 1 20 true 3 5 5.

#[export] Instance world : World := {
  COSMIC_TARGET_ID := 1;
  COSMIC_CONFIGURATION_ID := 5;
  file fd := Disk.kernel (contents fd);
  fstat_fd fd := Some (Stat 1 (if fd =? 3 then 10 else 20) true (Z.of_nat (length (contents fd))) 5 5);
  stat_at _ := None;
  lstat_at _ := Some core_stat;
  open_readonly _ := -1;
  proc_self_exe := Some (lit "/cache/" ++ stamp_key (core_at 16384));
  open_self n := Z.of_nat (n + 5);
  time_now := Some 9;
  open_nofollow _ := 7;
  read_works _ := true;
  mkstemp template _ := (8, take (length template - 6) template ++ lit "a1b2c3");
  write_count _ line := Z.of_nat (length line);
  close_works _ := true;
  rename_works _ _ := true;
  unlink_works _ := true;
  set_cloexec _ := true }.

#[export] Instance world_laws : WorldLaws contents.
Proof.
  split.
  - intros fd. cbn [file world]. unfold contents. destruct (fd =? 3); [exact portable_laws|].
    apply Disk.kernel_laws; [by repeat constructor|by vm_compute].
  - intros fd st E _. apply (f_equal (option_map st_size)) in E. cbn [fstat_fd world option_map st_size] in E. by injection E.
  - intros fd st E. assert (0 ≤ Z.of_nat (length (contents fd)) < 2 ^ 63) as Hl.
    { unfold contents. destruct (fd =? 3); split; [discriminate|reflexivity|discriminate|reflexivity]. }
    revert E. cbn [fstat_fd world]. generalize dependent (Z.of_nat (length (contents fd))). intros n Hl [= <-].
    unfold stat_fits. cbn [st_size st_ino st_mtime st_ctime]. destruct (fd =? 3); lia.
  - intros directory files fd name E _. exists (lit "a1b2c3"). split; [|by apply (bool_decide_unpack _)].
    injection E as <- <-. rewrite length_app. change (length (lit "/.verified.XXXXXX")) with 17%nat.
    replace (length directory + 17 - 6)%nat with (length directory + 11)%nat by lia. by rewrite take_app_add, <-app_assoc.
Qed.

Definition a_launch : launch := Launch (Some (3, 4)) 1 5 16384 3 PortableTheorems.digest.
Definition a_startup : startup := launched (Some (lit "/bin/cosmic")) a_launch.
Definition the_stamp : bytes := lit "/cache/.verified-" ++ stamp_key (core_at 16384).

Lemma a_launch_ok : launch_ok a_launch.
Proof. unfold launch_ok. simpl. split_and!; try done; by apply Forall_replicate. Qed.

(** The environment the launcher leaves, with two names of others'. *)
Definition environment : list bytes :=
  [lit "COSMIC_PORTABLE_CACHE=/cache"; lit "COSMIC_PORTABLE_CORE_FD=4"; lit "COSMIC_PORTABLE_ARTIFACT_FD=3"; lit "PATH=/bin";
   lit "COSMIC_PORTABLE_TARGET_ID=1"; lit "COSMIC_PORTABLE_CONFIGURATION_ID=5"; lit "COSMIC_PORTABLE_CORE_OFFSET=16384";
   lit "COSMIC_PORTABLE_CORE_LENGTH=3"; lit "COSMIC_PORTABLE_CORE_SHA256=" ++ cosmic_hex PortableTheorems.digest].

Lemma launches_read_back_witness :
  cosmic_startup_portable (λ _, false) [] (Some (lit "/bin/cosmic")) environment
  = (a_startup, [lit "COSMIC_PORTABLE_CACHE=/cache"; lit "PATH=/bin"]).
Proof.
  assert ((λ name, getenv name environment) <$> portable_environment = launch_values a_launch) as He by (vm_compute; reflexivity).
  destruct (launches_read_back (λ _, false) [] (Some (lit "/bin/cosmic")) a_launch environment a_launch_ok He) as (s & env' & E & Hok & Hno).
  rewrite E. destruct (su_contract_error s) as [why|] eqn:Es; [destruct Hno as [k Hk]; [discriminate|discriminate Hk]|].
  destruct (Hok eq_refl) as [-> ->]. vm_compute. reflexivity.
Defined.

(** A first start hashes the core and leaves its stamp; a second finds it. *)
Definition first : starting := Starting world contents a_startup ([], None).
Definition stamped : gmap bytes bytes := {[the_stamp := lit "3|20|5|5" ++ [0x0a]]}.

(** What a start came to, checked by computing it. *)
Definition adopts (x : outcome artifact * adopting) (fd : Z) (files : gmap bytes bytes) (opened closed : list Z) : bool :=
  match x with
  | (Adopts a, s) => bool_decide (a_fd a = fd) && bool_decide (ad_files s = files) && bool_decide (ad_opened s = opened)
                     && bool_decide (ad_closed s = closed)
  | _ => false
  end.

Lemma adopts_spec x fd files opened closed :
  adopts x fd files opened closed = true →
  ∃ a s, x = (Adopts a, s) ∧ a_fd a = fd ∧ ad_files s = files ∧ ad_opened s = opened ∧ ad_closed s = closed.
Proof.
  destruct x as [[a|why|] s]; [|done..]. simpl. rewrite !andb_true_iff, !bool_decide_eq_true. intros (((E1 & E2) & E3) & E4). by exists a, s.
Qed.

Abbreviation first_start := (cosmic_startup_adopt (H0 := Sums.psa) (H1 := build) a_startup (begun ∅)).
Abbreviation second_start := (cosmic_startup_adopt (H0 := Sums.psa) (H1 := build) a_startup (begun stamped)).

Lemma first_adopts : adopts first_start 3 stamped [5; 8] [4; 5; 8] = true.
Proof. vm_compute. reflexivity. Qed.

Lemma second_adopts : adopts second_start 3 stamped [5; 7] [4; 5; 7] = true.
Proof. vm_compute. reflexivity. Qed.

Lemma first_stamps : files_left (H := Sums.psa) (H1 := build) first ∅ = stamped.
Proof.
  destruct (adopts_spec _ _ _ _ _ first_adopts) as (a & s & E & _ & Hf & _). unfold files_left.
  cbn [p_world p_startup first]. rewrite E. exact Hf.
Qed.

Lemma one_ran : history (H := Sums.psa) (H1 := build) [first] stamped.
Proof. rewrite <-first_stamps. apply history_run; [by apply history_none|exact world_laws]. Qed.

Lemma mask_small : 0 ≤ @COSMIC_PORTABLE_REQUIRED_TARGET_MASK build < 2 ^ 64.
Proof. split; [discriminate|reflexivity]. Qed.

Lemma adopted_cores_are_checked_witness :
  ∃ a s, second_start = (Adopts a, s) ∧ ad_opened s = [5; 7]
    ∧ adopted (hash := Sums.digest) (H1 := build) contents [first] stamped a_startup a.
Proof.
  destruct (adopts_spec _ _ _ _ _ second_adopts) as (a & s & E & _ & _ & Ho & _). exists a, s. split; [exact E|]. split; [exact Ho|].
  exact (adopted_cores_are_checked mask_small contents [first] stamped a_startup a s one_ran eq_refl E).
Defined.

(** The first start, which writes a temporary. *)
Lemma adoption_closes_descriptors_witness :
  ∃ a s, first_start = (Adopts a, s) ∧ ad_opened s = [5; 8] ∧ ad_closed s = [4; 5; 8] ∧ accounts [3; 4] (begun ∅) s [3].
Proof.
  destruct (adopts_spec _ _ _ _ _ first_adopts) as (a & s & E & Ha & _ & Ho & Hc).
  exists a, s. split; [exact E|]. split; [exact Ho|]. split; [exact Hc|].
  assert (Forall (λ fd, 0 ≤ fd) (handed a_startup)) as Hh by (constructor; [discriminate|constructor; [discriminate|constructor]]).
  assert (Adopts a ≠ Never) as Hn by discriminate. assert (su_by_path a_startup = true → su_core_fd a_startup < 0) as Hby by discriminate.
  pose proof (proj1 (adoption_closes_descriptors a_startup (begun ∅) _ s Hh Hby E Hn)) as Hk. change (accounts [3; 4] (begun ∅) s [a_fd a]) in Hk.
  rewrite Ha in Hk. exact Hk.
Defined.

(** A core run against a database that records its digest. *)
Definition database_startup : startup := Startup COSMIC_STARTUP_DATABASE None (Some (lit "/data")) false false (-1) (-1) 0 0 0 0 (replicate 32 0) None.

Abbreviation database_start := (cosmic_startup_adopt (H0 := Sums.psa) (H1 := build) database_startup (begun ∅)).

(** What it is bound to. *)
Abbreviation bind_recorded a s := (cosmic_database_bind (H0 := Sums.psa) a (lit "/data") (Some (cosmic_hex PortableTheorems.digest)) s).
Definition binds : bool :=
  match database_start with (Adopts a, s) => match bind_recorded a s with (Adopts (), _, _) => true | _ => false end | _ => false end.

Lemma database_binds : binds = true.
Proof. vm_compute. reflexivity. Qed.

Lemma binds_spec : ∃ a s1 a' s2, database_start = (Adopts a, s1) ∧ bind_recorded a s1 = (Adopts (), a', s2).
Proof.
  pose proof database_binds as E. unfold binds in E. destruct database_start as [[a|why|] s1]; [|discriminate E..].
  destruct (bind_recorded a s1) as [[[[]|why|] a'] s2] eqn:Eb; [|discriminate E..]. by exists a, s1, a', s2.
Qed.

Lemma bound_cores_are_recorded_witness :
  ∃ a s1 a' s2, database_start = (Adopts a, s1) ∧ bind_recorded a s1 = (Adopts (), a', s2)
    ∧ a_logical_path a' = lit "/data" ∧ a_fd a' = 5
    ∧ known (hash := Sums.digest) [] ∅ core_file (selected (a_portable a')) core_stat.
Proof.
  destruct binds_spec as (a & s1 & a' & s2 & E & Eb). exists a, s1, a', s2. split; [exact E|]. split; [exact Eb|].
  assert (history (H := Sums.psa) (H1 := build) [] ∅) as Hh by (by apply history_none).
  destruct (bound_cores_are_recorded mask_small contents [] ∅ database_startup a s1 _ _ a' s2 Hh eq_refl E Eb) as (_ & F1 & F2 & core & F3 & _ & _ & F4).
  split; [exact F1|]. split; [exact F2|]. injection F3 as <-. exact F4.
Defined.

End Cached.
