(* ===== verification/Store.v ===== *)
(** * The store: [core/store.c]

    The list of databases [require] searches, the last of which is the running
    binary's own; what its searcher answers and which module is handed a raw
    table of the runtime; the metadata, the zones and the parts of the artifact
    that are read through it.  SQLite, by the rows a query steps through, Lua's
    loading of a chunk, the kernel and the allocator are parameters. *)

From S2P Require Import Prelude.
From S2P Require Import Texts.
From S2P Require Import Lua.
From S2P Require Import ReadAt.
From S2P Require Import Portable.
From S2P Require Import Crypto.
From S2P Require Import Startup.
From S2P Require Import Codecs.
From S2P Require Import Compress.
From S2P Require Import CompressOnce.

Local Open Scope Z_scope.

(** ** SQLite and the rest *)

Definition SQLITE_OK : Z := 0.
Definition SQLITE_NOMEM : Z := 7.
Definition SQLITE_ROW : Z := 100.
Definition SQLITE_DONE : Z := 101.

(** A connection. *)
Abbreviation database := positive.

(** A column of a row: NULL, bytes, or bytes there was no memory for. *)
Inductive column := Null | Held (b : bytes) | Unheld.

(** A statement bound and stepped to its end: what [sqlite3_prepare_v2]
    answers, the rows, and what the step after the last of them answers. *)
Record statement := Statement { s_prepared : Z; s_rows : list (list column); s_end : Z }.

Class Databases := {
  query : database → bytes → list bytes → statement;
  sqlite3_open_readonly : nat → bytes → option database * Z;
  sqlite3_set_authorizer : database → Z;
  cosmic_sqlite_functions : database → Z;
  sqlite3_errmsg : database → bytes;
  sqlite3_errstr : Z → bytes;
  sqlite3_db_filename : database → option bytes;
  sqlite3_limit_length : database → Z;
  luaL_loadbufferx : bytes → bytes → lua_value + bytes;
  removed_message : bytes → option bytes;
  raw_opened : bytes → lua_value;
  COSMIC_TARGET_NAME : bytes;
  running_executable : option Kernel;
  file_identity : bytes → option (Z * Z);
  descriptor_identity : Z → option (Z * Z);
  descriptor_mode : Z → option Z }.

Definition out_of_memory (rc : Z) : bool := Z.land rc 0xff =? SQLITE_NOMEM.

(** ** The raw values *)

(** A raw value's name, whether [open] builds it, and whether [require]
    answers it by its name. *)
Record raw_value := RawValue { rv_raw : bytes; rv_open : bool; rv_plain : bool }.

Definition raw_values : list raw_value := [
  RawValue (lit "cosmic.internal.store") false false;
  RawValue (lit "cosmic.internal.debug") false false;
  RawValue (lit "cosmic.internal.sqlite") true true;
  RawValue (lit "cosmic.internal.hash") true true;
  RawValue (lit "cosmic.internal.html") true true;
  RawValue (lit "cosmic.internal.vector") true true;
  RawValue (lit "cosmic.internal.process") true true;
  RawValue (lit "cosmic.internal.compress") true true;
  RawValue (lit "cosmic.internal.http") true true;
  RawValue (lit "cosmic.internal.socket") true true;
  RawValue (lit "cosmic.internal.json") true true;
  RawValue (lit "cosmic.internal.xml") true true;
  RawValue (lit "cosmic.internal.budget") true false;
  RawValue (lit "cosmic.internal.assertions") true false ].

(** A wrapper and the raw value it is handed. *)
Definition raw_modules : list (bytes * bytes) := [
  (lit "cosmic.store", lit "cosmic.internal.store");
  (lit "build.artifact", lit "cosmic.internal.store");
  (lit "build.test_worker", lit "cosmic.internal.store");
  (lit "cosmic.coverage", lit "cosmic.internal.debug");
  (lit "build.coverage_hits", lit "cosmic.internal.debug");
  (lit "build.fuzz", lit "cosmic.internal.budget");
  (lit "build.assertions", lit "cosmic.internal.assertions") ].

Definition reserved_build : list bytes := [lit "build.confine"; lit "build.digest"].

Definition starts (p s : bytes) : bool := bool_decide (take (length p) s = p).

Definition names_plain_raw (name : bytes) : bool := existsb (λ v, rv_plain v && bool_decide (name = rv_raw v)) raw_values.

Definition names_reserved (name : bytes) : bool :=
  starts (lit "cosmic.") name || existsb (λ r, bool_decide (name = r)) reserved_build
  || existsb (λ m : bytes * bytes, bool_decide (name = m.1)) raw_modules.

Definition names_trusted_kind (name : bytes) (kind : option bytes) : bool :=
  (starts (lit "cosmic.") name || starts (lit "build.") name)
  && match kind with Some kind => bool_decide (kind = lit "module") || bool_decide (kind = lit "main") | None => false end.

(** [removed_names]'s table of libraries, and the words for one of them. *)
Definition removed_libraries : list bytes := [lit "io"; lit "os"; lit "debug"].

(** ** The state *)

Record store := Store {
  st_list : list database; st_set_aside : bool; st_raw : gmap bytes lua_value; st_artifact : option artifact;
  st_opens : nat; st_closed : list database; st_asks : nat; st_turn : nat }.

Definition with_list (l : list database) (s : store) : store :=
  Store l (st_set_aside s) (st_raw s) (st_artifact s) (st_opens s) (st_closed s) (st_asks s) (st_turn s).
Definition with_set_aside (b : bool) (s : store) : store :=
  Store (st_list s) b (st_raw s) (st_artifact s) (st_opens s) (st_closed s) (st_asks s) (st_turn s).
Definition with_raw (r : gmap bytes lua_value) (s : store) : store :=
  Store (st_list s) (st_set_aside s) r (st_artifact s) (st_opens s) (st_closed s) (st_asks s) (st_turn s).
Definition with_artifact (a : option artifact) (s : store) : store :=
  Store (st_list s) (st_set_aside s) (st_raw s) a (st_opens s) (st_closed s) (st_asks s) (st_turn s).
Definition with_opened (n : nat) (closed : list database) (s : store) : store :=
  Store (st_list s) (st_set_aside s) (st_raw s) (st_artifact s) n closed (st_asks s) (st_turn s).
Definition with_store_asks (n : nat) (s : store) : store :=
  Store (st_list s) (st_set_aside s) (st_raw s) (st_artifact s) (st_opens s) (st_closed s) n (st_turn s).
Definition with_turn (n : nat) (s : store) : store :=
  Store (st_list s) (st_set_aside s) (st_raw s) (st_artifact s) (st_opens s) (st_closed s) (st_asks s) n.

(** What a call comes to: a value, an error raised, the process ended for a
    database it cannot read, or no end. *)
Inductive result (A : Type) := Gives (a : A) | Throws (message : bytes) | Dies | Hangs.
Arguments Gives {A}.
Arguments Throws {A}.
Arguments Dies {A}.
Arguments Hangs {A}.

Definition io (A : Type) : Type := store → result A * store.

#[export] Instance store_ret : MRet io := λ A a s, (Gives a, s).
#[export] Instance store_bind : MBind io := λ A B f m s,
  match m s with
  | (Gives a, s) => f a s
  | (Throws w, s) => (Throws w, s)
  | (Dies, s) => (Dies, s)
  | (Hangs, s) => (Hangs, s)
  end.

Definition throw {A} (w : bytes) : io A := λ s, (Throws w, s).
Definition die {A} : io A := λ s, (Dies, s).
Definition looking {A} (f : store → A) : io A := λ s, (Gives (f s), s).

Section store.
Context `{Databases, Miniz, Memory, Psa, Kernel}.

Definition no_store_memory {A} : io A := throw (lit "not enough memory").

(** ** Modules *)

(** A prepare or a step that failed. *)
Definition unreadable {A} (rc : Z) : io A := if out_of_memory rc then no_store_memory else die.

(** The first row of a statement, where it has one. *)
Definition first_row (t : statement) : io (option (list column)) :=
  if negb (s_prepared t =? SQLITE_OK) then unreadable (s_prepared t)
  else match s_rows t with
    | row :: _ => mret (Some row)
    | [] => if s_end t =? SQLITE_DONE then mret None else unreadable (s_end t)
    end.

(** A column's bytes, and its text. *)
Definition column_blob (c : option column) : io bytes :=
  match c with Some (Held b) => mret b | Some Unheld => no_store_memory | _ => mret [] end.
Definition column_text (c : option column) : option bytes := match c with Some (Held b) => Some (c_string b) | _ => None end.

Definition inflate_limit (db : database) : Z := u64 (sqlite3_limit_length db).

(** [cosmic_inflate_raw] of a database's stream. *)
Definition inflating (db : database) (stream : bytes) : io (bytes + bytes) := λ s,
  match cosmic_inflate_raw stream (inflate_limit db) (st_asks s) with
  | (Some a, n) => (Gives a, with_store_asks n s)
  | (None, n) => (Hangs, with_store_asks n s)
  end.

Definition module_query : bytes := lit "SELECT bytecode, kind FROM main.modules WHERE path = ?1".

(** A module's chunk and whether it is trusted, or [None]. *)
Definition load_from (db : database) (name : bytes) (is_binary : bool) : io (option (lua_value * bool)) :=
  row ← first_row (query db module_query [name]);
  match row with
  | None => mret None
  | Some row =>
      code ← column_blob (row !! 0%nat);
      let trusted := is_binary && names_trusted_kind name (column_text (row !! 1%nat)) in
      code ← inflating db code;
      match code with
      | inr why => if bool_decide (why = no_memory) then no_store_memory
                   else throw (lit "bad bytecode of module '" ++ name ++ lit "': " ++ why)
      | inl code =>
          match luaL_loadbufferx code (take 255 (lit "@" ++ name)) with
          | inr message => throw message
          | inl chunk => mret (Some (chunk, trusted))
          end
      end
  end.

(** The list numbered, the last being the binary's, in the order it is
    searched. *)
Definition in_order (reserved : bool) (l : list database) : list (database * bool) :=
  let numbered := imap (λ i db, (db, bool_decide (S i = length l))) l in
  if reserved then reverse numbered else numbered.

Fixpoint search (name : bytes) (l : list (database * bool)) : io (option (lua_value * bool)) :=
  match l with
  | [] => mret None
  | (db, is_binary) :: l => r ← load_from db name is_binary; match r with Some x => mret (Some x) | None => search name l end
  end.

Definition wrapper_raw (raws : gmap bytes lua_value) (name : bytes) : option lua_value :=
  foldr (λ m r, if bool_decide (name = m.1) then match raws !! m.2 with Some v => Some v | None => r end else r) None raw_modules.

(** [cosmic_surface_push_removed_library]. *)
Definition removed_library (name : bytes) : option bytes :=
  if bool_decide (name ∈ removed_libraries) then Some (default (name ++ lit " is not available") (removed_message name)) else None.

(** What the searcher answers: a raw value under its name, a chunk and what it
    is handed, or why there is none. *)
Inductive found := Plain (v : lua_value) | Loaded (chunk extra : lua_value) | Missing (why : bytes).

Definition store_searcher (name : bytes) : io found :=
  raws ← looking st_raw;
  match (if names_plain_raw name then raws !! name else None) with
  | Some v => mret (Plain v)
  | None =>
      l ← looking st_list;
      r ← search name (in_order (names_reserved name) l);
      match r with
      | Some (chunk, trusted) => mret (Loaded chunk (match (if trusted : bool then wrapper_raw raws name else None) with Some v => v | None => LString name end))
      | None =>
          mret (Missing ([0x0a; 0x09] ++ lit "no module '" ++ name ++ lit "' in the store"
                         ++ match removed_library name with Some words => [0x0a; 0x09] ++ words | None => [] end))
      end
  end.

(** ** Attaching *)

Inductive action := SQLITE_SELECT | SQLITE_READ | SQLITE_FUNCTION | SQLITE_RECURSIVE | SQLITE_PRAGMA | OtherAction (n : Z).

(** Whether a store's connection may do what a statement asks. *)
Definition reads_only (a : action) (first second : option bytes) : bool :=
  match a with
  | SQLITE_SELECT | SQLITE_READ | SQLITE_FUNCTION | SQLITE_RECURSIVE => true
  | SQLITE_PRAGMA => bool_decide (second = None) && bool_decide (first = Some (lit "data_version"))
  | OtherAction _ => false
  end.

Definition store_attach (path : bytes) : io (unit + bytes) := λ s,
  if st_set_aside s then (Throws (lit "a database cannot be attached while the others are set aside"), s)
  else
    let '(db, rc) := sqlite3_open_readonly (st_opens s) path in
    let s := with_opened (S (st_opens s)) (st_closed s) s in
    let rc := match db with Some db => if rc =? SQLITE_OK then sqlite3_set_authorizer db else rc | None => rc end in
    let rc := match db with Some db => if rc =? SQLITE_OK then cosmic_sqlite_functions db else rc | None => rc end in
    match db with
    | None => (Gives (inr (sqlite3_errstr rc)), s)
    | Some db =>
        if negb (rc =? SQLITE_OK) then (Gives (inr (sqlite3_errmsg db)), with_opened (st_opens s) (db :: st_closed s) s)
        else (Gives (inl ()), with_list (db :: st_list s) s)
    end.

(** ** Looking up *)

Definition lookup_row (db : database) (sql key : bytes) : io (option bytes) :=
  row ← first_row (query db sql [key]);
  match row with None => mret None | Some row => b ← column_blob (row !! 0%nat); mret (Some b) end.

(** The first of the databases that has a row. *)
Fixpoint lookup_first (l : list database) (sql key : bytes) : io (option (database * bytes)) :=
  match l with
  | [] => mret None
  | db :: l => r ← lookup_row db sql key; match r with Some b => mret (Some (db, b)) | None => lookup_first l sql key end
  end.

Definition store_bytecode (name : bytes) : io (bytes + bytes) :=
  l ← looking st_list;
  r ← lookup_first l (lit "SELECT bytecode FROM main.modules WHERE path = ?1") name;
  match r with
  | None => mret (inr (lit "no module '" ++ name ++ lit "' in the store"))
  | Some (db, stream) =>
      text ← inflating db stream;
      mret (match text with inl t => inl t | inr why => inr (lit "the bytecode of '" ++ name ++ lit "': " ++ why) end)
  end.

Definition binary_database (l : list database) : option database := last l.

(** The loop over the two tables of sources. *)
Fixpoint source_from (db : database) (name : bytes) (queries : list bytes) : io (option (bytes + bytes)) :=
  match queries with
  | [] => mret None
  | sql :: queries =>
      r ← lookup_row db sql name;
      match r with
      | None => source_from db name queries
      | Some [] => mret (Some (inr (lit "the source of '" ++ name ++ lit "' is withheld: the store carries the module without its source; a test that reads it declares `Test.policy { store_text = true }`")))
      | Some stream =>
          text ← inflating db stream;
          mret (Some (match text with inl t => inl t | inr why => inr (lit "the source of '" ++ name ++ lit "' in the binary: " ++ why) end))
      end
  end.

Definition store_source (name : bytes) : io (bytes + bytes) :=
  l ← looking st_list;
  r ← match binary_database l with
      | Some db => source_from db name [lit "SELECT source FROM main.decls WHERE path = ?1"; lit "SELECT source FROM main.modules WHERE path = ?1"]
      | None => mret None
      end;
  mret (match r with Some a => a | None => inr (lit "no module '" ++ name ++ lit "' in the binary") end).

(** ** Metadata *)

Definition meta_query : bytes := lit "SELECT value FROM main.meta WHERE key = ?1".
Definition database_meta (db : database) (key : bytes) : io (option bytes) := lookup_row db meta_query key.

Definition push_binary_meta (key : bytes) : io (option bytes) :=
  l ← looking st_list;
  match binary_database l with Some db => database_meta db key | None => mret None end.

(** [cosmic_artifact_core_matches] of the store's artifact. *)
Definition core_matches : io bool := λ s,
  match cosmic_artifact_core_matches (st_artifact s) (st_turn s) with
  | (Some b, a, turn) => (Gives b, with_turn turn (with_artifact a s))
  | (None, a, turn) => (Hangs, with_turn turn (with_artifact a s))
  end.

Definition big_endian_32 (v : Z) : bytes := (λ i, Z.land (Z.shiftr v i) 255) <$> [24; 16; 8; 0].
Definition big_endian_64 (v : Z) : bytes := (λ i, Z.land (Z.shiftr v (56 - 8 * i)) 255) <$> [0; 1; 2; 3; 4; 5; 6; 7].

Definition runtime_domain : bytes := lit "cosmic-runtime-v2" ++ [0].
Definition runtime_encoding (target configuration : Z) (core basis : bytes) : bytes :=
  runtime_domain ++ big_endian_32 target ++ big_endian_32 configuration ++ core ++ big_endian_64 (Z.of_nat (length basis)) ++ basis.

Definition runtime_fixed : Z := Z.of_nat (length runtime_domain) + 4 + 4 + COSMIC_PORTABLE_SHA256_LENGTH + 8.

(** The encoding is allocated and hashed. *)
Definition runtime_digest (a : artifact) (basis : bytes) : io (option bytes) := λ s,
  let e := selected (a_portable a) in
  let made := can_allocate (st_asks s) (runtime_fixed + Z.of_nat (length basis)) in
  let s := with_store_asks (S (st_asks s)) s in
  if negb made then (Throws (lit "runtime identity: out of memory"), s)
  else
    let '(status, digest) := cosmic_digest (lit "sha256") (runtime_encoding (target_id e) (configuration_id e) (sha256 e) basis) in
    (Gives (if negb (status =? 0) || negb (Z.of_nat (length digest) =? COSMIC_PORTABLE_SHA256_LENGTH) then None
            else Some (cosmic_hex digest)), s).

Definition push_portable_runtime (a : artifact) : io (option bytes) :=
  basis ← push_binary_meta (lit "runtime_basis");
  match basis with
  | None | Some [] => mret None
  | Some basis => if SIZE_MAX - runtime_fixed <? Z.of_nat (length basis) then mret None else runtime_digest a basis
  end.

(** The artifact, where one is retained. *)
Definition retained (s : store) : option artifact :=
  match st_artifact s with Some a => if a_fd a <? 0 then None else Some a | None => None end.

Definition runtime_keys : list bytes := [lit "host"; lit "host_image"; lit "runtime"; lit "runtime_basis"; lit "artifact"].

Fixpoint meta_first (l : list database) (key : bytes) : io (option bytes) :=
  match l with
  | [] => mret None
  | db :: l => r ← database_meta db key; match r with Some b => mret (Some b) | None => meta_first l key end
  end.

Definition store_meta (key : bytes) : io (option bytes) :=
  a ← looking retained;
  if bool_decide (key = lit "runtime_context") then
    mret (match a with
          | None => None
          | Some a => Some (if negb (a_split a =? 0) then lit "database-v1" else if negb (a_host a =? 0) then lit "host-v1" else lit "portable-v1")
          end)
  else if bool_decide (key = lit "ca_roots_default") then push_binary_meta key
  else if bool_decide (key ∈ runtime_keys) then
    match a with
    | None => mret None
    | Some a =>
        if bool_decide (key = lit "host") then mret (Some COSMIC_TARGET_NAME)
        else
          same ← (if bool_decide (key = lit "host_image") || bool_decide (key = lit "runtime") then core_matches else mret true);
          if negb same then mret None
          else if bool_decide (key = lit "host_image") then mret (Some (cosmic_hex (sha256 (selected (a_portable a)))))
          else if bool_decide (key = lit "runtime") then push_portable_runtime a
          else if bool_decide (key = lit "runtime_basis") then push_binary_meta (lit "runtime_basis")
          else mret (Some (a_logical_path a))
    end
  else
    l ← looking st_list;
    meta_first l key.

(** ** Setting the others aside *)

(** [store_alone] of a function, which may call back into the store; what it
    returns is dropped.  The list is put back slot by slot. *)
Definition store_alone {E} (f : store → (unit + E) * store) (s : store) : result (unit + E) * store :=
  if st_set_aside s then (Throws (lit "the attached databases are already set aside"), s)
  else if 2 ^ 31 - 1 <? Z.of_nat (length (st_list s)) then (Throws (lit "too many databases attached"), s)
  else
    let saved := st_list s in
    let '(status, s) := f (with_set_aside true (with_list (match binary_database saved with Some db => [db] | None => [] end) s)) in
    (Gives status, with_list (saved ++ drop (length saved) (st_list s)) (with_set_aside false s)).

(** ** Zones and imports *)

(** A list of texts, a row with none being skipped. *)
Fixpoint texts_of (rows : list (list column)) : io (list bytes) :=
  match rows with
  | [] => mret []
  | row :: rows =>
      match row !! 0%nat with
      | Some (Held b) => l ← texts_of rows; mret (c_string b :: l)
      | Some Unheld => no_store_memory
      | _ => texts_of rows
      end
  end.

Definition no_database : bytes := lit "the running binary has no database".

Definition zones_failed {A} (db : database) (rc : Z) : io (A + bytes) :=
  if out_of_memory rc then no_store_memory else mret (inr (lit "the binary's zones: " ++ sqlite3_errmsg db)).

Definition store_requires (name : bytes) : io (list bytes + bytes) :=
  l ← looking st_list;
  match binary_database l with
  | None => mret (inr no_database)
  | Some db =>
      let t := query db (lit "SELECT requires FROM main.imports WHERE path = ?1 ORDER BY requires") [name] in
      if negb (s_prepared t =? SQLITE_OK) then unreadable (s_prepared t)
      else
        names ← texts_of (s_rows t);
        if negb (s_end t =? SQLITE_DONE) then unreadable (s_end t) else mret (inl names)
  end.

Definition store_zoneinfo (name : bytes) : io (bytes + bytes) :=
  l ← looking st_list;
  match binary_database l with
  | None => mret (inr no_database)
  | Some db =>
      let t := query db (lit "SELECT data FROM main.zoneinfo WHERE name = ?1") [name] in
      if negb (s_prepared t =? SQLITE_OK) then zones_failed db (s_prepared t)
      else
        match s_rows t with
        | row :: _ => b ← column_blob (row !! 0%nat); mret (inl b)
        | [] => if s_end t =? SQLITE_DONE then mret (inr (lit "the binary carries no zone " ++ name)) else zones_failed db (s_end t)
        end
  end.

Definition store_zone_names : io (list bytes + bytes) :=
  l ← looking st_list;
  match binary_database l with
  | None => mret (inr no_database)
  | Some db =>
      let t := query db (lit "SELECT name FROM main.zoneinfo") [] in
      if negb (s_prepared t =? SQLITE_OK) then zones_failed db (s_prepared t)
      else
        names ← texts_of (s_rows t);
        if negb (s_end t =? SQLITE_DONE) then zones_failed db (s_end t) else mret (inl names)
  end.

(** ** The artifact's parts *)

(** The loop over the stored ranges: the first whose digest differs. *)
Fixpoint ranges_check (i : Z) (l : list entry) : io (option bytes) :=
  match l with
  | [] => mret None
  | e :: l => λ s,
      match cosmic_sha256_range_matches (offset e) (stored_length e) (stored_sha256 e) (st_turn s) with
      | (None, turn) => (Hangs, with_turn turn s)
      | (Some true, turn) => ranges_check (i + 1) l (with_turn turn s)
      | (Some false, turn) => (Gives (Some (lit "retained portable range " ++ decimal i ++ lit " digest differs from manifest")), with_turn turn s)
      end
  end.

Definition artifact_bytes (a : artifact) (len off : Z) : io (option bytes) := λ s,
  let '(b, turn) := cosmic_artifact_read (Some a) len off (st_turn s) in (Gives b, with_turn turn s).

Definition store_trusted_prefix : io (bytes + bytes) :=
  a ← looking retained;
  match a with
  | None => mret (inr (lit "no retained portable artifact"))
  | Some a =>
      if negb (a_host a =? 0) then
        mret (inr (lit "a host program or a core run against a database carries only its own core, not the portable prefix a portable program is made from"))
      else if SIZE_MAX <? prefix_length (a_portable a) then mret (inr (lit "retained portable prefix is too large"))
      else
        why ← ranges_check 1 (entries (a_portable a));
        match why with
        | Some why => mret (inr why)
        | None =>
            b ← artifact_bytes a (prefix_length (a_portable a)) 0;
            mret (match b with Some b => inl b | None => inr (lit "retained portable prefix cannot be read") end)
        end
  end.

(** The running executable's bytes, a regular file of the core's length. *)
Definition read_running_core (e : entry) : option bytes :=
  exe ← running_executable;
  '(regular, size) ← @fstat exe;
  if negb regular || negb (size =? core_length e) then None else (@cosmic_read_at exe (core_length e) 0 0%nat).1.

(** The running core: its bytes, target, configuration and digest. *)
Record core := Core { k_bytes : bytes; k_target_id : Z; k_configuration_id : Z; k_digest : bytes }.

Definition core_differs : bytes := lit "running core's digest differs from its manifest".

Definition store_trusted_core : io (core + bytes) :=
  a ← looking retained;
  match a with
  | None => mret (inr (lit "no retained artifact to take a core from"))
  | Some a =>
      let e := selected (a_portable a) in
      if SIZE_MAX <? core_length e then mret (inr (lit "running core is too large"))
      else
        same ← core_matches;
        if negb same then mret (inr core_differs)
        else
          let raw := Portable.codec e =? COSMIC_PORTABLE_CODEC_RAW in
          b ← (if raw then artifact_bytes a (core_length e) (offset e) else mret (read_running_core e));
          match b with
          | None => mret (inr (lit "running core cannot be read"))
          | Some b =>
              let '(status, digest) := cosmic_digest (lit "sha256") b in
              mret (if negb raw && (negb (status =? 0) || negb (Z.of_nat (length digest) =? COSMIC_PORTABLE_SHA256_LENGTH) || negb (bool_decide (digest = sha256 e)))
                    then inr core_differs
                    else inl (Core b (target_id e) (configuration_id e) (sha256 e)))
          end
  end.

(** ** The files held open *)

(** A database's file, its log and its shared memory; whether the runtime only
    reads it. *)
Definition parts : list (bytes * bool) := [([], true); (lit "-wal", true); (lit "-shm", false)].

Definition file_of (db : database) : option bytes := match sqlite3_db_filename db with Some (c :: name) => Some (c :: name) | _ => None end.

Definition store_paths (s : store) : list bytes := omap file_of (st_list s) ≫= λ name, (λ p : bytes * bool, name ++ p.1) <$> parts.

Definition PATH_MAX : Z := 4096.

Definition cosmic_store_holds_descriptor (fd : Z) (s : store) : bool :=
  match retained s with Some a => fd =? a_fd a | None => false end ||
  match descriptor_mode fd, descriptor_identity fd with
  | Some mode, Some held =>
      existsb (λ name, existsb (λ p : bytes * bool,
        negb (p.2 && negb (Z.land mode 3 =? 0)) && (Z.of_nat (length (name ++ p.1)) <? PATH_MAX)
        && bool_decide (file_identity (name ++ p.1) = Some held)) parts) (omap file_of (st_list s))
  | _, _ => false
  end.

(** ** Installing *)

Definition cosmic_store_set_raw (name : bytes) (v : lua_value) (s : store) : store := with_raw (<[name := v]> (st_raw s)) s.

(** The store of a binary's database, its own table the raw store. *)
Definition cosmic_store_install (binary : option database) (a : option artifact) (table : lua_value) : store :=
  cosmic_store_set_raw (lit "cosmic.internal.store") table
    (Store (match binary with Some db => [db] | None => [] end) false ∅ a 0 [] 0 0).

Definition cosmic_store_open_raw (s : store) : store :=
  foldl (λ s v, if rv_open v then cosmic_store_set_raw (rv_raw v) (raw_opened (rv_raw v)) s else s) s raw_values.

(** The entries [package.preload] gains. *)
Definition cosmic_store_preload_raw (s : store) : list (bytes * lua_value) :=
  omap (λ v, (λ x, (rv_raw v, x)) <$> st_raw s !! rv_raw v) raw_values.

(** The value for C, where it fits with its NUL; an error is none. *)
Definition cosmic_store_meta (key : bytes) (size : Z) : io (option bytes) := λ s,
  if size =? 0 then (Gives None, s)
  else
    match store_meta key s with
    | (Gives (Some v), s) => (Gives (if Z.of_nat (length v) <? size then Some v else None), s)
    | (Gives None, s) | (Throws _, s) => (Gives None, s)
    | (Dies, s) => (Dies, s)
    | (Hangs, s) => (Hangs, s)
    end.

End store.
