(* ===== verification/StoreCorrect.v ===== *)
(** * The store holds what it promises

    Whatever is attached to a store and however its calls interleave, the
    binary's own database stays the one that answers for the runtime, raw
    values reach trusted chunks alone, setting the others aside is undone, and
    what is read of the artifact is what its manifest names. *)

From S2P Require Import Prelude.
From S2P Require Import Texts.
From S2P Require Import Lua.
From S2P Require Import ReadAt.
From S2P Require Import Portable.
From S2P Require Import Crypto.
From S2P Require Import Startup.
From S2P Require Import CryptoCorrect.
From S2P Require Import Codecs.
From S2P Require Import Compress.
From S2P Require Import CompressOnce.
From S2P Require Import Store.

Local Open Scope Z_scope.

Section frame.
Context `{Databases, Miniz, Memory, Psa, Kernel}.

(** ** What only reads *)

Definition unmoved (s s' : store) : Prop := st_list s' = st_list s ∧ st_set_aside s' = st_set_aside s ∧ st_raw s' = st_raw s.

(** A call that leaves the list, whether it is set aside, and the raw
    values. *)
Definition quiet {A} (m : io A) : Prop := ∀ s, unmoved s (m s).2.

Lemma unmoved_trans s1 s2 s3 : unmoved s1 s2 → unmoved s2 s3 → unmoved s1 s3.
Proof. intros (E1 & E2 & E3) (F1 & F2 & F3). repeat split; congruence. Qed.

Lemma quiet_ret {A} (a : A) : quiet (mret a).
Proof. done. Qed.

Lemma quiet_bind {A B} (m : io A) (f : A → io B) : quiet m → (∀ a, quiet (f a)) → quiet (m ≫= f).
Proof.
  intros Hm Hf s. unfold mbind, store_bind. specialize (Hm s). destruct (m s) as [[a|w| |] s1]; try done.
  simpl in Hm. apply (unmoved_trans _ s1); [done|apply Hf].
Qed.

Lemma quiet_reading {A} (f : store → A) : quiet (looking f).
Proof. done. Qed.
Lemma quiet_throw {A} w : quiet (throw w : io A).
Proof. done. Qed.
Lemma quiet_die {A} : quiet (die : io A).
Proof. done. Qed.
Lemma quiet_unreadable {A} rc : quiet (unreadable rc : io A).
Proof. unfold unreadable. by destruct (out_of_memory rc). Qed.
Lemma quiet_inflating db w : quiet (inflating db w).
Proof. intros s. unfold inflating. by destruct (cosmic_inflate_raw _ _ _) as [[a|] n]. Qed.
Lemma quiet_core_matches : quiet core_matches.
Proof. intros s. unfold core_matches. by destruct (cosmic_artifact_core_matches _ _) as [[[b|] a] turn]. Qed.
Lemma quiet_artifact_bytes a len off : quiet (artifact_bytes a len off).
Proof. intros s. unfold artifact_bytes. by destruct (cosmic_artifact_read _ _ _ _). Qed.
Lemma quiet_runtime_digest a b : quiet (runtime_digest a b).
Proof. intros s. unfold runtime_digest. cbv zeta. destruct (negb _); [done|]. by destruct (cosmic_digest _ _). Qed.

Create HintDb quiet.
#[local] Hint Resolve @quiet_ret @quiet_reading @quiet_throw @quiet_die @quiet_unreadable quiet_inflating quiet_core_matches
  quiet_artifact_bytes quiet_runtime_digest : quiet.

(** Through a call's binds and cases. *)
Ltac quieten :=
  repeat first
    [ progress eauto with quiet
    | apply quiet_bind; [|intros ?]
    | case_match ].

Lemma quiet_first_row t : quiet (first_row t).
Proof. unfold first_row. quieten. Qed.
Lemma quiet_column_blob c : quiet (column_blob c).
Proof. unfold column_blob, no_store_memory. quieten. Qed.
#[local] Hint Resolve quiet_first_row quiet_column_blob : quiet.

Lemma quiet_load_from db name b : quiet (load_from db name b).
Proof. unfold load_from, no_store_memory. quieten. Qed.
Lemma quiet_lookup_row db sql key : quiet (lookup_row db sql key).
Proof. unfold lookup_row. quieten. Qed.
#[local] Hint Resolve quiet_load_from quiet_lookup_row : quiet.

Lemma quiet_search name l : quiet (search name l).
Proof. induction l as [|[db b] l IH]; simpl; quieten. Qed.
Lemma quiet_lookup_first l sql key : quiet (lookup_first l sql key).
Proof. induction l as [|db l IH]; simpl; quieten. Qed.
Lemma quiet_meta_first l key : quiet (meta_first l key).
Proof. induction l as [|db l IH]; simpl; unfold database_meta; quieten. Qed.
Lemma quiet_binary_meta key : quiet (push_binary_meta key).
Proof. unfold push_binary_meta, database_meta. quieten. Qed.
#[local] Hint Resolve quiet_search quiet_lookup_first quiet_meta_first quiet_binary_meta : quiet.

Lemma quiet_store_searcher name : quiet (store_searcher name).
Proof. unfold store_searcher. quieten. Qed.
Lemma quiet_store_meta key : quiet (store_meta key).
Proof. unfold store_meta, push_portable_runtime. quieten. Qed.
Lemma quiet_ranges_check i l : quiet (ranges_check i l).
Proof.
  revert i. induction l as [|e l IH]; intros i; simpl; [eauto with quiet|]. intros s.
  destruct (cosmic_sha256_range_matches _ _ _ _) as [[[]|] turn]; [|done|done].
  pose proof (IH (i + 1) (with_turn turn s)) as Hq. by apply (unmoved_trans _ (with_turn turn s)).
Qed.
#[local] Hint Resolve quiet_ranges_check : quiet.
Lemma quiet_store_trusted_prefix : quiet store_trusted_prefix.
Proof. unfold store_trusted_prefix. quieten. Qed.
Lemma quiet_store_trusted_core : quiet store_trusted_core.
Proof. unfold store_trusted_core. quieten. Qed.

(** ** Runs *)

(** Whatever uses the store: calls that only read, databases attached, and
    functions called with the others set aside, which use it in turn. *)
Inductive acts (s : store) : store → Prop :=
  | acts_here : acts s s
  | acts_reads {A} s' (m : io A) : acts s s' → quiet m → acts s (m s').2
  | acts_attach s' path : acts s s' → acts s (store_attach path s').2
  | acts_alone {E} s' (f : store → (unit + E) * store) : acts s s' → (∀ x, acts x (f x).2) → acts s (store_alone f s').2.

(** Set aside, the list stays as it is. *)
Lemma acts_aside s s' : acts s s' → st_set_aside s = true → unmoved s s'.
Proof.
  induction 1 as [s|s A s' m _ IH Hm|s s' path _ IH|s E s' f _ IH _ _]; intros Hs; [done| | |].
  - apply (unmoved_trans _ s'); [by apply IH|apply Hm].
  - apply (unmoved_trans _ s'); [by apply IH|]. unfold store_attach. destruct (IH Hs) as (_ & -> & _). by rewrite Hs.
  - apply (unmoved_trans _ s'); [by apply IH|]. unfold store_alone. destruct (IH Hs) as (_ & -> & _). by rewrite Hs.
Qed.

(** The databases searched where the others are set aside. *)
Definition binary_alone (l : list database) : list database := match binary_database l with Some db => [db] | None => [] end.

Definition aside (s : store) : store := with_set_aside true (with_list (binary_alone (st_list s)) s).

Lemma binary_alone_short l : (length (binary_alone l) ≤ length l)%nat.
Proof. unfold binary_alone, binary_database. destruct l as [|db l]; [done|]. destruct (last (db :: l)); simpl; lia. Qed.

Lemma store_alone_list {E} (f : store → (unit + E) * store) s :
  (∀ x, acts x (f x).2) → st_set_aside s = false → Z.of_nat (length (st_list s)) ≤ 2 ^ 31 - 1 →
  ∃ s', store_alone f s = (Gives (f (aside s)).1, s') ∧ unmoved s s' ∧ st_artifact s' = st_artifact (f (aside s)).2.
Proof.
  intros Hf Hs Hl. unfold store_alone. rewrite Hs. destruct (Z.ltb_spec (2 ^ 31 - 1) (Z.of_nat (length (st_list s)))); [lia|].
  fold (binary_alone (st_list s)). fold (aside s). pose proof (acts_aside (aside s) _ (Hf (aside s)) eq_refl) as (E1 & E2 & E3).
  destruct (f (aside s)) as [status s1]. simpl in *. eexists. split; [done|]. split; [|done]. repeat split; simpl; [|done|done].
  rewrite E1, drop_ge; [by rewrite app_nil_r|apply binary_alone_short].
Qed.

(** Elsewhere it only grows in front. *)
Definition grown (s s' : store) : Prop :=
  st_set_aside s' = st_set_aside s ∧ st_raw s' = st_raw s ∧ ∃ l, st_list s' = l ++ st_list s.

Lemma grown_unmoved s1 s2 s3 : grown s1 s2 → unmoved s2 s3 → grown s1 s3.
Proof. intros (E1 & E2 & l & E3) (F1 & F2 & F3). repeat split; [congruence..|]. exists l. congruence. Qed.

Lemma acts_grown s s' : acts s s' → grown s s'.
Proof.
  induction 1 as [s|s A s' m _ IH Hm|s s' path _ IH|s E s' f _ IH Hf _].
  - repeat split. by exists [].
  - by apply (grown_unmoved _ s').
  - unfold store_attach. destruct (st_set_aside s'); [done|]. destruct IH as (E1 & E2 & l & E3).
    destruct (sqlite3_open_readonly _ _) as [[db|] rc]; simpl; [|by repeat split; [..|exists l]].
    destruct (negb _); simpl; [by repeat split; [..|exists l]|]. repeat split; [done..|]. exists (db :: l). simpl. by rewrite E3.
  - destruct (st_set_aside s') eqn:Es.
    { unfold store_alone. rewrite Es. done. }
    destruct (Z.ltb_spec (2 ^ 31 - 1) (Z.of_nat (length (st_list s')))) as [Hl|Hl].
    { unfold store_alone. rewrite Es. by rewrite (proj2 (Z.ltb_lt _ _)). }
    destruct (store_alone_list f s' Hf Es Hl) as (s1 & E1 & E2 & _). rewrite E1. by apply (grown_unmoved _ s').
Qed.

(** C34: a function called with the attached databases set aside finds the
    binary's own alone at whatever state it comes to, itself calling anything
    of the store; and when it is over, returned or raised, every database is
    where it was, whatever it did. *)
Theorem set_aside_is_put_back {E} (f : store → (unit + E) * store) s :
  (∀ x, acts x (f x).2) → st_set_aside s = false → Z.of_nat (length (st_list s)) ≤ 2 ^ 31 - 1 →
  (∀ x, acts (aside s) x → st_list x = binary_alone (st_list s)) ∧
  ∃ s', store_alone f s = (Gives (f (aside s)).1, s') ∧ st_list s' = st_list s ∧ st_set_aside s' = false.
Proof.
  intros Hf Hs Hl. split.
  - intros x Hx. apply (acts_aside _ _ Hx eq_refl).
  - destruct (store_alone_list f s Hf Hs Hl) as (s' & E1 & (E2 & E3 & _) & _). exists s'. split; [done|]. split; [done|]. congruence.
Qed.

(** ** Modules *)

(** What a database answered of a module, at some time. *)
Definition carries (db : database) (name : bytes) (is_binary : bool) (r : option (lua_value * bool)) : Prop :=
  ∃ x y, load_from db name is_binary x = (Gives r, y).

Lemma search_found name l s chunk trusted s' :
  search name l s = (Gives (Some (chunk, trusted)), s') →
  ∃ l1 db b l2, l = l1 ++ (db, b) :: l2 ∧ carries db name b (Some (chunk, trusted)) ∧ Forall (λ x, carries x.1 name x.2 None) l1.
Proof.
  revert s. induction l as [|[db b] l IH]; intros s; simpl; [done|]. unfold mbind, store_bind.
  destruct (load_from db name b s) as [[[x|]|w| |] s1] eqn:E; try done.
  - intros [= -> <-]. exists [], db, b, l. split; [done|]. split; [by exists s, s1|done].
  - intros Hs. destruct (IH _ Hs) as (l1 & db' & b' & l2 & -> & K1 & K2). exists ((db, b) :: l1), db', b', l2.
    split; [done|]. split; [done|]. constructor; [by exists s, s1|done].
Qed.

Lemma search_missed name l s s' : search name l s = (Gives None, s') → Forall (λ x, carries x.1 name x.2 None) l.
Proof.
  revert s. induction l as [|[db b] l IH]; intros s; simpl; [done|]. unfold mbind, store_bind.
  destruct (load_from db name b s) as [[[x|]|w| |] s1] eqn:E; try done. intros Hs. constructor; [by exists s, s1|by apply (IH s1)].
Qed.

(** Only the binary's chunks are trusted. *)
Lemma load_from_trusted db name b chunk x y :
  load_from db name b x = (Gives (Some (chunk, true)), y) → b = true ∧ (starts (lit "cosmic.") name || starts (lit "build.") name) = true.
Proof.
  unfold load_from, mbind, store_bind. destruct (first_row _ x) as [[[row|]|w| |] s1]; try done.
  destruct (column_blob _ s1) as [[code|w| |] s2]; try done. destruct (inflating db code s2) as [[[text|why]|w| |] s3]; try done.
  - destruct (luaL_loadbufferx _ _); [|done]. intros [= _ Ht _]. apply andb_prop in Ht as [-> Ht]. split; [done|].
    unfold names_trusted_kind in Ht. by apply andb_prop in Ht as [-> _].
  - by destruct (bool_decide _).
Qed.

Lemma wrapper_raw_row raws name v : wrapper_raw raws name = Some v → ∃ raw, (name, raw) ∈ raw_modules ∧ raws !! raw = Some v.
Proof.
  unfold wrapper_raw. induction raw_modules as [|[w raw] l IH]; simpl; [done|]. case_bool_decide as E.
  - destruct (raws !! raw) as [x|] eqn:Er.
    + intros [= ->]. exists raw. subst. split; [apply list_elem_of_here|done].
    + intros Hf. destruct (IH Hf) as (r & K1 & K2). exists r. split; [by apply list_elem_of_further|done].
  - intros Hf. destruct (IH Hf) as (r & K1 & K2). exists r. split; [by apply list_elem_of_further|done].
Qed.

(** In whatever order, the binary's alone is searched as the binary's. *)
Lemma in_order_binary reserved l binary db :
  (db, true) ∈ in_order reserved (l ++ [binary]) → db = binary.
Proof.
  intros Hin. assert ((db, true) ∈ imap (λ i db, (db, bool_decide (S i = length (l ++ [binary])))) (l ++ [binary])) as Hin'.
  { unfold in_order in Hin. destruct reserved; [by rewrite elem_of_reverse in Hin|done]. }
  apply elem_of_lookup_imap in Hin' as (i & x & [= -> Hb] & Hi). symmetry in Hb. apply bool_decide_eq_true in Hb.
  rewrite length_app in Hb. simpl in Hb. apply lookup_snoc_Some in Hi as [[Hlt _]|[_ ->]]; [lia|done].
Qed.

Lemma in_order_last reserved l binary : (binary, true) ∈ in_order reserved (l ++ [binary]).
Proof.
  assert ((binary, true) ∈ imap (λ i db, (db, bool_decide (S i = length (l ++ [binary])))) (l ++ [binary])) as Hin.
  { apply elem_of_lookup_imap. exists (length l), binary. split.
    - rewrite bool_decide_true; [done|]. rewrite length_app. simpl. lia.
    - by apply list_lookup_middle. }
  unfold in_order. destruct reserved; [by rewrite elem_of_reverse|done].
Qed.

(** A reserved name is asked of the binary first. *)
Lemma in_order_reserved l binary : ∃ l', in_order true (l ++ [binary]) = (binary, true) :: l'.
Proof.
  unfold in_order. rewrite imap_app, reverse_app. simpl. eexists. rewrite bool_decide_true; [done|].
  rewrite length_app. simpl. lia.
Qed.

(** C33: the runtime's raw tables reach no code but the binary's own. Whatever
    databases were attached to a store made from the binary's, and whatever
    its calls came to, a module the searcher answers is handed its name; a raw
    table is handed to one of the wrappers that are listed for it, and only
    where the binary's own database gave the chunk, as a module or a main of
    its own namespaces. A name that is a raw value's is answered by that value.
    A reserved name has been asked of the binary before any other database,
    and a name that is missing is one the binary does not carry. *)
Theorem raw_values_reach_trusted binary s0 s name r s' :
  st_list s0 = [binary] → acts s0 s → store_searcher name s = (Gives r, s') →
  match r with
  | Plain v => names_plain_raw name = true ∧ st_raw s0 !! name = Some v
  | Loaded chunk extra =>
      (extra = LString name
       ∨ (starts (lit "cosmic.") name || starts (lit "build.") name) = true ∧ carries binary name true (Some (chunk, true))
         ∧ ∃ raw, (name, raw) ∈ raw_modules ∧ st_raw s0 !! raw = Some extra)
      ∧ (names_reserved name = true → (∃ t, carries binary name true (Some (chunk, t))) ∨ carries binary name true None)
  | Missing _ => carries binary name true None
  end.
Proof.
  intros E0 Ha. destruct (acts_grown _ _ Ha) as (_ & Er & l & El). rewrite E0 in El.
  unfold store_searcher, looking, mbind, store_bind. rewrite Er.
  destruct (if names_plain_raw name then st_raw s0 !! name else None) as [v|] eqn:Ep.
  { intros [= <- _]. by destruct (names_plain_raw name). }
  rewrite El. destruct (search _ _ s) as [[[[chunk trusted]|]|w| |] s1] eqn:Es; try done; intros [= <- _].
  - apply search_found in Es as (l1 & db & b & l2 & E1 & Hc & Hn). split.
    + destruct trusted; [|by left]. destruct (wrapper_raw _ name) as [v|] eqn:Ew; [right|by left].
      pose proof Hc as (x & y & Hx). apply load_from_trusted in Hx as [-> Hx].
      assert (db = binary) as ->. { apply (in_order_binary (names_reserved name) l). rewrite E1. set_solver. }
      split; [done|]. split; [done|]. by apply wrapper_raw_row.
    + intros Hr. rewrite Hr in E1. destruct (in_order_reserved l binary) as [l' El']. rewrite El' in E1.
      destruct l1 as [|x l1]; simplify_eq/=; [left; by exists trusted|right; by inversion Hn].
  - apply search_missed in Es. rewrite Forall_forall in Es. exact (Es _ (in_order_last (names_reserved name) l binary)).
Qed.

(** ** Metadata *)

(** A call to which only the last of the list matters, which it leaves. *)
Definition blind {A} (m : io A) : Prop := ∀ s l l', binary_database l = binary_database l' →
  ∃ r s1, m (with_list l s) = (r, with_list l s1) ∧ m (with_list l' s) = (r, with_list l' s1).

Lemma blind_ret {A} (a : A) : blind (mret a).
Proof. intros s l l' _. by exists (Gives a), s. Qed.
Lemma blind_throw {A} w : blind (throw w : io A).
Proof. intros s l l' _. by eexists _, s. Qed.
Lemma blind_unreadable {A} rc : blind (unreadable rc : io A).
Proof. unfold unreadable. destruct (out_of_memory rc); intros s l l' _; by eexists _, s. Qed.

Lemma blind_bind {A B} (m : io A) (f : A → io B) : blind m → (∀ a, blind (f a)) → blind (m ≫= f).
Proof.
  intros Hm Hf s l l' El. unfold mbind, store_bind. destruct (Hm s l l' El) as ([a|w| |] & s1 & -> & ->).
  - by apply Hf.
  - by eexists _, s1.
  - by eexists _, s1.
  - by eexists _, s1.
Qed.

Lemma blind_retained : blind (looking retained).
Proof. intros s l l' _. by eexists _, s. Qed.
Lemma blind_core_matches : blind core_matches.
Proof.
  intros s l l' _. unfold core_matches. simpl. destruct (cosmic_artifact_core_matches _ _) as [[[b|] a] turn];
    by eexists _, (with_turn turn (with_artifact a s)).
Qed.
Lemma blind_runtime_digest a b : blind (runtime_digest a b).
Proof.
  intros s l l' _. unfold runtime_digest. simpl. destruct (negb _); [by eexists _, (with_store_asks _ s)|].
  destruct (cosmic_digest _ _). by eexists _, (with_store_asks _ s).
Qed.

#[local] Hint Resolve @blind_ret @blind_throw @blind_unreadable blind_retained blind_core_matches blind_runtime_digest : quiet.

Lemma blind_lookup_row db sql key : blind (lookup_row db sql key).
Proof.
  unfold lookup_row, first_row, column_blob, no_store_memory.
  repeat first [progress eauto with quiet|apply blind_bind; [|intros ?]|case_match].
Qed.

Lemma blind_binary_meta key : blind (push_binary_meta key).
Proof.
  intros s l l' El. unfold push_binary_meta, mbind, store_bind, looking. simpl. rewrite El.
  destruct (binary_database l') as [db|] eqn:E'; [|by eexists _, s].
  apply (blind_lookup_row db meta_query key s l l'). congruence.
Qed.
#[local] Hint Resolve blind_binary_meta : quiet.

(** C35: what says which runtime this is cannot be spoken for by a database a
    program attaches: the values of the binary's keys, from the host's name to
    the runtime's identity and the default roots, are the same, errors
    included, whatever other databases are in the list. *)
Theorem runtime_values_are_the_binarys key s l l' :
  key ∈ lit "runtime_context" :: lit "ca_roots_default" :: runtime_keys → binary_database l = binary_database l' →
  (store_meta key (with_list l s)).1 = (store_meta key (with_list l' s)).1.
Proof.
  intros Hk El. cut (blind (store_meta key)). { intros Hb. by destruct (Hb s l l' El) as (r & s1 & -> & ->). }
  unfold store_meta, push_portable_runtime. apply blind_bind; [apply blind_retained|]. intros a.
  case_bool_decide; [eauto with quiet|]. case_bool_decide; [eauto with quiet|]. apply elem_of_cons in Hk as [?|Hk]; [done|].
  apply elem_of_cons in Hk as [?|Hk]; [done|]. rewrite (bool_decide_true _ Hk).
  repeat first [progress eauto with quiet|apply blind_bind; [|intros ?]|case_match].
Qed.

End frame.

(** ** The artifact *)

Section artifact.
Context `{Databases, Miniz, Memory, PsaLaws digest, KernelLaws content}.

Lemma ranges_checked l i s s' :
  Forall (λ e, 0 ≤ offset e ∧ 0 ≤ stored_length e) l → ranges_check i l s = (Gives None, s') →
  Forall (λ e, stored_sha256 e = digest PSA_ALG_SHA_256 (slice content (offset e) (stored_length e))) l ∧ st_artifact s' = st_artifact s.
Proof.
  intros Hl. revert i s. induction Hl as [|e l [Ho Hs] Hl IH]; intros i s; simpl.
  { by intros [= <-]. }
  destruct (cosmic_sha256_range_matches _ _ _ _) as [[[]|] turn] eqn:E; try done. intros Hr.
  destruct (IH _ _ Hr) as [IH1 IH2]. split; [|by rewrite IH2]. constructor; [by eapply range_matches_sound|done].
Qed.

(** C: the prefix of the artifact a program is made from is given only whole
    and only where every stored range its manifest lists has the digest the
    manifest records for it, whatever was interrupted or came short while it
    was read; a host program's, or one run against a database, is not given. *)
Theorem trusted_prefix_is_checked s a b s' :
  retained s = Some a → 0 ≤ prefix_length (a_portable a) →
  Forall (λ e, 0 ≤ offset e ∧ 0 ≤ stored_length e) (entries (a_portable a)) →
  store_trusted_prefix s = (Gives (inl b), s') →
  a_host a = 0 ∧ b = slice content 0 (prefix_length (a_portable a))
  ∧ (0 < prefix_length (a_portable a) → prefix_length (a_portable a) ≤ Z.of_nat (length content))
  ∧ Forall (λ e, stored_sha256 e = digest PSA_ALG_SHA_256 (slice content (offset e) (stored_length e))) (entries (a_portable a)).
Proof.
  intros Hr Hp He. unfold store_trusted_prefix, looking, mbind, store_bind. rewrite Hr.
  destruct (Z.eqb_spec (a_host a) 0) as [Hh|]; simpl; [|done]. destruct (_ <? _); [done|].
  destruct (ranges_check _ _ s) as [[[why|]|w| |] s1] eqn:E; try done. apply ranges_checked in E as [E _]; [|done].
  unfold artifact_bytes. destruct (cosmic_artifact_read _ _ _ _) as [[bs|] turn] eqn:Eb; [|done]. intros [= <- _].
  unfold cosmic_artifact_read in Eb. destruct (0 <=? a_fd a); [|done]. apply read_at_sound in Eb as [-> Eb]; [|done..].
  split; [done|]. split; [done|]. split; [|done]. lia.
Qed.

(** What the check of the core leaves. *)
Lemma core_matched s a s' :
  retained s = Some a → core_matches s = (Gives true, s') →
  0 ≤ offset (selected (a_portable a)) → 0 ≤ core_length (selected (a_portable a)) →
  a_core_checked a = 1
  ∨ a_core_checked a = 0 ∧ Portable.codec (selected (a_portable a)) = COSMIC_PORTABLE_CODEC_RAW
    ∧ sha256 (selected (a_portable a))
      = digest PSA_ALG_SHA_256 (slice content (offset (selected (a_portable a))) (core_length (selected (a_portable a)))).
Proof.
  unfold retained, core_matches, cosmic_artifact_core_matches. destruct (st_artifact s) as [a'|]; [|done]. destruct (a_fd a' <? 0); [done|].
  intros [= ->]. destruct (Z.eqb_spec (a_core_checked a) 0) as [Z0|Z0].
  - cbv zeta. destruct (Z.eqb_spec (Portable.codec (selected (a_portable a))) COSMIC_PORTABLE_CODEC_RAW) as [Hc|Hc]; [|done].
    destruct (cosmic_sha256_range_matches _ _ _ _) as [[[]|] turn] eqn:E; try done. intros _ Ho Hl. right.
    split; [done|]. split; [done|]. by eapply range_matches_sound.
  - intros [= Hb _] _ _. left. by apply Z.eqb_eq.
Qed.

(** C36: the running core's bytes are given with the digest its manifest records
    and are the bytes of that digest: for a compressed entry always, whatever
    became of the file since the start; for a raw one, which are the bytes of
    its range of the artifact, wherever that range itself is what the check
    was made of. *)
Theorem trusted_core_is_checked s a k s' :
  retained s = Some a → 0 ≤ offset (selected (a_portable a)) → 0 ≤ core_length (selected (a_portable a)) →
  store_trusted_core s = (Gives (inl k), s') →
  let e := selected (a_portable a) in
  k_digest k = sha256 e ∧ k_target_id k = target_id e ∧ k_configuration_id k = configuration_id e
  ∧ (Portable.codec e = COSMIC_PORTABLE_CODEC_RAW → k_bytes k = slice content (offset e) (core_length e))
  ∧ (Portable.codec e ≠ COSMIC_PORTABLE_CODEC_RAW ∨ a_core_checked a = 0 → sha256 e = digest PSA_ALG_SHA_256 (k_bytes k)).
Proof.
  intros Hr Ho Hl. unfold store_trusted_core, looking, mbind, store_bind. rewrite Hr. destruct (_ <? _); [done|].
  destruct (core_matches s) as [[[]|w| |] s1] eqn:Em; try done.
  pose proof (core_matched _ _ _ Hr Em Ho Hl) as Hm. cbn [negb].
  destruct (Z.eqb_spec (Portable.codec (selected (a_portable a))) COSMIC_PORTABLE_CODEC_RAW) as [Hc|Hc].
  - unfold artifact_bytes. destruct (cosmic_artifact_read _ _ _ _) as [[bs|] turn] eqn:Eb; [|done].
    unfold cosmic_artifact_read in Eb. destruct (0 <=? a_fd a); [|done]. apply read_at_sound in Eb as [-> _]; [|done..].
    destruct (cosmic_digest _ _). intros [= <- _]. simpl. do 4 (split; [done|]). intros [?|E0]; [done|].
    destruct Hm as [E1|(_ & _ & Hm)]; [congruence|done].
  - destruct (read_running_core _) as [bs|]; [|done]. simpl. destruct (cosmic_digest _ _) as [status out] eqn:Ed.
    destruct (_ || _) eqn:Eo; [done|]. intros [= <- _]. simpl. do 4 (split; [done|]). intros _.
    apply orb_false_elim in Eo as [Eo Eb%negb_false_iff]. apply bool_decide_eq_true in Eb as <-.
    apply orb_false_elim in Eo as [Eo%negb_false_iff%Z.eqb_eq _]. subst status. by eapply compute_digest.
Qed.

End artifact.

(** ** A binary and a database beside it *)

Module Beside.
Import Stored Sums.

Definition content : bytes := replicate 3000 7.
Definition core_bytes : bytes := replicate 2000 9.

(** Database 1 is the binary's; it carries [cosmic.store], as database 2 claims
    to. A chunk is its text. The running executable is the core. *)
#[export] Instance databases : Databases := {
  query db sql args :=
    if bool_decide (sql = module_query ∧ args = [lit "cosmic.store"])
    then Statement SQLITE_OK [[Held (if bool_decide (db = 1%positive) then [2; 1; 1] else [2; 6; 6]); Held (lit "module")]] SQLITE_DONE
    else if bool_decide (sql = meta_query ∧ args = [lit "ca_roots_default"])
    then Statement SQLITE_OK [[Held (if bool_decide (db = 1%positive) then lit "yes" else lit "no")]] SQLITE_DONE
    else Statement SQLITE_OK [] SQLITE_DONE;
  sqlite3_open_readonly n _ := (Some (Pos.of_nat (n + 2)), SQLITE_OK);
  sqlite3_set_authorizer _ := SQLITE_OK;
  cosmic_sqlite_functions _ := SQLITE_OK;
  sqlite3_errmsg _ := lit "error";
  sqlite3_errstr _ := lit "error";
  sqlite3_db_filename _ := None;
  sqlite3_limit_length _ := 1000;
  luaL_loadbufferx code _ := inl (LString code);
  removed_message _ := None;
  raw_opened _ := LTable 1;
  COSMIC_TARGET_NAME := lit "host";
  running_executable := Some (Disk.kernel core_bytes);
  file_identity _ := None;
  descriptor_identity _ := None;
  descriptor_mode _ := None }.

#[export] Instance content_kernel : Kernel := Disk.kernel content.
#[export] Instance content_laws : KernelLaws content.
Proof. apply Disk.kernel_laws; [by apply Forall_replicate|by vm_compute]. Defined.

(** An entry of the artifact, its bytes from 100, of a codec and its core. *)
Definition an_entry (c : Z) (core : bytes) : entry :=
  Entry 1 1 1 c 100 2500 (Sums.digest PSA_ALG_SHA_256 (replicate 2500 7)) (Z.of_nat (length core)) (Sums.digest PSA_ALG_SHA_256 core).

Definition an_artifact (c checked : Z) (core : bytes) : artifact :=
  Artifact (lit "/bin/cosmic") 5 0 0 0 (Portable 3000 0 0 0 0 1 [an_entry c core] (an_entry c core)) 0 0 checked.

Lemma entry_places c core : 0 ≤ offset (an_entry c core) ∧ 0 ≤ stored_length (an_entry c core).
Proof. unfold an_entry. cbn [offset stored_length]. lia. Qed.

Definition installed (a : artifact) : store := cosmic_store_install (Some 1%positive) (Some a) (LTable 2).
Definition start : store := installed (an_artifact 0 0 (replicate 2500 7)).
Definition attached : store := (store_attach (lit "other.db") start).2.

(** A function that attaches, which it may not, and looks for a module. *)
Definition tries (s : store) : (unit + unit) * store :=
  (inl (), (store_searcher (lit "cosmic.store") (store_attach (lit "third.db") s).2).2).

Lemma tries_acts x : acts x (tries x).2.
Proof. apply acts_reads; [|apply quiet_store_searcher]. apply acts_attach, acts_here. Qed.

Lemma set_aside_is_put_back_witness :
  st_list attached = [2%positive; 1%positive] ∧
  ∃ s', store_alone tries attached = (Gives (inl ()), s') ∧ st_list s' = [2%positive; 1%positive] ∧ st_set_aside s' = false.
Proof.
  split; [by vm_compute|]. destruct (set_aside_is_put_back tries attached tries_acts) as [_ Hp]; [done|by vm_compute|].
  destruct Hp as (s' & E1 & E2 & E3). exists s'. split; [exact E1|]. split; [rewrite E2; by vm_compute|done].
Defined.

Lemma raw_values_reach_trusted_witness :
  (store_searcher (lit "cosmic.store") attached).1 = Gives (Loaded (LString [1; 1]) (LTable 2)) ∧
  ∃ raw, (lit "cosmic.store", raw) ∈ raw_modules ∧ st_raw start !! raw = Some (LTable 2).
Proof.
  assert ((store_searcher (lit "cosmic.store") attached).1 = Gives (Loaded (LString [1; 1]) (LTable 2))) as Hr by (vm_compute; reflexivity).
  split; [exact Hr|]. destruct (store_searcher (lit "cosmic.store") attached) as [r s'] eqn:E. simpl in Hr. subst r.
  destruct (raw_values_reach_trusted 1%positive start attached (lit "cosmic.store") _ s' eq_refl (acts_attach _ _ _ (acts_here _)) E)
    as [[Hx|(_ & _ & Hx)] _]; [discriminate Hx|exact Hx].
Defined.

Lemma runtime_values_are_the_binarys_witness :
  (store_meta (lit "ca_roots_default") (with_list [2%positive; 1%positive] start)).1 = Gives (Some (lit "yes")).
Proof.
  rewrite (runtime_values_are_the_binarys (lit "ca_roots_default") start [2%positive; 1%positive] [1%positive]).
  - vm_compute. reflexivity.
  - apply list_elem_of_further, list_elem_of_here.
  - reflexivity.
Defined.

Lemma trusted_prefix_is_checked_witness :
  (store_trusted_prefix start).1 = Gives (inl content) ∧ slice content 0 3000 = content.
Proof.
  assert ((store_trusted_prefix start).1 = Gives (inl content)) as Hr by (vm_compute; reflexivity). split; [exact Hr|].
  destruct (store_trusted_prefix start) as [r s'] eqn:E. simpl in Hr. subst r.
  destruct (trusted_prefix_is_checked start (an_artifact 0 0 (replicate 2500 7)) content s') as (_ & Hc & _);
    [reflexivity|discriminate| |exact E|].
  - exact (List.Forall_cons _ _ _ (entry_places 0 (replicate 2500 7)) (List.Forall_nil _)).
  - symmetry. exact Hc.
Defined.

(** The core of a compressed entry, read from the executable. *)
Definition compressed : store := installed (an_artifact 1 1 core_bytes).

Lemma trusted_core_is_checked_witness :
  (store_trusted_core compressed).1 = Gives (inl (Core core_bytes 1 1 (Sums.digest PSA_ALG_SHA_256 core_bytes))).
Proof.
  assert ((store_trusted_core compressed).1 = Gives (inl (Core core_bytes 1 1 (Sums.digest PSA_ALG_SHA_256 core_bytes)))) as Hr
    by (vm_compute; reflexivity).
  destruct (store_trusted_core compressed) as [r s'] eqn:E. simpl in Hr. subst r.
  destruct (trusted_core_is_checked compressed (an_artifact 1 1 core_bytes) (Core core_bytes 1 1 (Sums.digest PSA_ALG_SHA_256 core_bytes)) s') as (Hd & _);
    [reflexivity|discriminate|discriminate|exact E|]. exact (f_equal (λ d, @Gives (core + bytes) (inl (Core core_bytes 1 1 d))) Hd).
Defined.

(** A raw entry's range is not hashed where the start has hashed the core it
    runs from elsewhere: what is given then need not have the digest it is
    given with. *)
Example raw_core_unhashed :
  let a := an_artifact 0 1 (replicate 2500 8) in
  (store_trusted_core (installed a)).1
  = Gives (inl (Core (replicate 2500 7) 1 1 (Sums.digest PSA_ALG_SHA_256 (replicate 2500 8))))
  ∧ Sums.digest PSA_ALG_SHA_256 (replicate 2500 7) ≠ Sums.digest PSA_ALG_SHA_256 (replicate 2500 8).
Proof. split; [vm_compute; reflexivity|]. vm_compute. discriminate. Qed.

End Beside.
