(* ===== verification/HttpTrust.v ===== *)
(** * The roots a transfer trusts: [core/http.c]

    The trust store read once from the binary's database and from
    [$SSL_CERT_FILE], and what a certificate of a verified chain is refused
    for: Mozilla's OneCRL, and a root's distrust date. The database, mbedtls
    and the file are parameters. *)

From S2P Require Import Prelude.
From S2P Require Import Texts.
From S2P Require Import Lua.

Local Open Scope Z_scope.

(** A root with a distrust date, [YYYYMMDDHHMMSS] in UTC. *)
Record distrusted := Distrusted { d_der : bytes; d_label : bytes; d_after : bytes }.

(** A certificate OneCRL revokes. *)
Record revoked := Revoked { r_by_key : bool; r_name : bytes; r_value : bytes }.

Record date := Date { year : Z; mon : Z; day : Z; hour : Z; min : Z; sec : Z }.

(** What mbedtls reads of a certificate. *)
Record certificate := Certificate {
  c_raw : bytes; c_issuer : bytes; c_serial : bytes; c_subject : bytes; c_key : bytes; c_from : date; c_worded : option bytes }.

(** ** The libraries *)

(** What a read of the certificate file answers. *)
Inductive cert_read := Got (data : bytes) | Interrupted | Over.

(** [database] is whether the store holds any; a query's rows, and the code
    its last step answers. *)
Class Authorities := {
  database : bool;
  ca_roots : option (list (bytes * option bytes * option bytes) * Z);
  ca_revoked : option (list (option bytes * bytes * bytes) * Z);
  crt_parse_der : bytes → Z;
  crt_parse : bytes → list bytes;
  psa_sha256 : bytes → option bytes;
  SSL_CERT_FILE : option bytes;
  cert_file_size : bytes → option Z;
  cert_file_read : bytes → nat → Z → cert_read;
  curl_global_init : bool;
  curl_multi_init : bool }.

Definition SQLITE_DONE : Z := 101.
Definition MBEDTLS_ERR_X509_ALLOC_FAILED : Z := -0x2880.
Definition MBEDTLS_X509_BADCERT_REVOKED : Z := 0x10.
Definition MBEDTLS_X509_BADCERT_OTHER : Z := 0x0100.

(** ** The store *)

Record trust := Trust {
  roots : list bytes; carried_roots : Z; distrusted_roots : list distrusted; revoked_ones : list revoked;
  roots_ready : bool; curl_ready : bool; shared_multi : bool; trust_asks : nat }.

Definition new_trust : trust := Trust [] 0 [] [] false false false 0.

Definition with_roots (l : list bytes) (n : Z) (s : trust) : trust :=
  Trust l n (distrusted_roots s) (revoked_ones s) (roots_ready s) (curl_ready s) (shared_multi s) (trust_asks s).
Definition with_distrusted (l : list distrusted) (s : trust) : trust :=
  Trust (roots s) (carried_roots s) l (revoked_ones s) (roots_ready s) (curl_ready s) (shared_multi s) (trust_asks s).
Definition with_revoked (l : list revoked) (s : trust) : trust :=
  Trust (roots s) (carried_roots s) (distrusted_roots s) l (roots_ready s) (curl_ready s) (shared_multi s) (trust_asks s).
Definition with_readiness (r c m : bool) (s : trust) : trust :=
  Trust (roots s) (carried_roots s) (distrusted_roots s) (revoked_ones s) r c m (trust_asks s).
Definition trust_asked (n : nat) (s : trust) : trust :=
  Trust (roots s) (carried_roots s) (distrusted_roots s) (revoked_ones s) (roots_ready s) (curl_ready s) (shared_multi s) (trust_asks s + n).

(** The store, the allocator having been asked by others meanwhile. *)
Definition trust_at (n : nat) (s : trust) : trust :=
  Trust (roots s) (carried_roots s) (distrusted_roots s) (revoked_ones s) (roots_ready s) (curl_ready s) (shared_multi s) n.

Section store.
Context `{Authorities, Allocator}.

Definition no_memory_roots : bytes := lit "no memory for the CA roots".
Definition read_failed : bytes := lit "no CA roots: reading the binary's database failed".

(** A row's root kept where it names a date; why it could not be. *)
Definition keep_distrusted (der : bytes) (after label : option bytes) (s : trust) : trust * option bytes :=
  match after with
  | None | Some [] => (s, None)
  | Some after =>
      if negb (bool_decide (length after = 14%nat)) || negb (forallb (λ c, (0x30 <=? c) && (c <=? 0x39)) after)
      then (s, Some (lit "no CA roots: a root's distrust date is not YYYYMMDDHHMMSS"))
      else if refused (trust_asks s) then (trust_asked 1 s, Some no_memory_roots)
      else if refused (S (trust_asks s)) then (trust_asked 2 s, Some no_memory_roots)
      else (trust_asked 2 (with_distrusted (distrusted_roots s ++ [Distrusted der (take 95 (default [] label)) after]) s), None)
  end.

(** The loop over [ca_roots], counting those mbedtls reads. *)
Fixpoint roots_loop (rows : list (bytes * option bytes * option bytes)) (trusted : Z) (s : trust) : trust * Z * option bytes :=
  match rows with
  | [] => (s, trusted, None)
  | (der, after, label) :: rows =>
      if bool_decide (der = []) then roots_loop rows trusted s
      else
        let parsed := crt_parse_der der in
        if parsed =? 0 then
          match keep_distrusted der after label (with_roots (roots s ++ [der]) (carried_roots s) s) with
          | (s, Some why) => (s, trusted + 1, Some why)
          | (s, None) => roots_loop rows (trusted + 1) s
          end
        else if parsed =? MBEDTLS_ERR_X509_ALLOC_FAILED then (s, trusted, Some no_memory_roots)
        else roots_loop rows trusted s
  end.

Definition no_memory_revoked : bytes := lit "no memory for the revoked certificates".

(** The loop over [ca_revoked]. *)
Fixpoint revoked_loop (rows : list (option bytes * bytes * bytes)) (s : trust) : trust * option bytes :=
  match rows with
  | [] => (s, None)
  | (kind, name, value) :: rows =>
      let by_key := bool_decide (kind = Some (lit "key")) in
      if negb by_key && negb (bool_decide (kind = Some (lit "serial"))) || bool_decide (name = []) || bool_decide (value = [])
      then (s, Some (lit "no revoked certificates: a row of ca_revoked is of no kind this reads"))
      else if refused (trust_asks s) then (trust_asked 1 s, Some no_memory_revoked)
      else if refused (S (trust_asks s)) then (trust_asked 2 s, Some no_memory_revoked)
      else revoked_loop rows (trust_asked 2 (with_revoked (revoked_ones s ++ [Revoked by_key name value]) s))
  end.

Definition load_revoked (s : trust) : trust * option bytes :=
  match ca_revoked with
  | None => (s, Some (lit "no revoked certificates: the binary's database has no ca_revoked table"))
  | Some (rows, rc) =>
      match revoked_loop rows s with
      | (s, Some why) => (s, Some why)
      | (s, None) => (s, if negb (rc =? SQLITE_DONE) then Some read_failed else None)
      end
  end.

(** The loop that reads the file as far as it goes; [None] while reads keep
    being interrupted past the fuel. *)
Fixpoint cert_loop (fuel turn : nat) (path : bytes) (size : Z) (text : bytes) : option bytes :=
  match fuel with
  | O => None
  | S fuel =>
      if Z.of_nat (length text) <? size then
        match cert_file_read path turn (size - Z.of_nat (length text)) with
        | Interrupted => cert_loop fuel (S turn) path size text
        | Over | Got [] => Some text
        | Got data => cert_loop fuel (S turn) path size (text ++ data)
        end
      else Some text
  end.

(** The file's certificates added; false where there was no memory. *)
Definition add_cert_file (fuel : nat) (s : trust) : option (trust * bool) :=
  match SSL_CERT_FILE with
  | None | Some [] => Some (s, true)
  | Some path =>
      match cert_file_size path with
      | None => Some (s, true)
      | Some size =>
          if size <=? 0 then Some (s, true)
          else if refused (trust_asks s) then Some (trust_asked 1 s, false)
          else
            text ← cert_loop fuel 0 path size [];
            Some (trust_asked 1 (with_roots (roots s ++ crt_parse text) (carried_roots s) s), true)
      end
  end.

(** Where anything failed nothing is kept. *)
Definition load_roots (fuel : nat) (s : trust) : option (trust * option bytes) :=
  if negb database then Some (s, Some (lit "no CA roots: this binary carries no database"))
  else
    match ca_roots with
    | None => Some (s, Some (lit "no CA roots: the binary's database has no ca_roots table"))
    | Some (rows, rc) =>
        let '(s, trusted, why) := roots_loop rows 0 (with_roots [] (carried_roots s) s) in
        let why := match why with None => if negb (rc =? SQLITE_DONE) then Some read_failed else None | _ => why end in
        let why := match why with
          | None => if trusted =? 0 then Some (lit "no CA roots: the binary's database holds none; `cosmic refresh cacert --binary <this program> -o <copy>` writes a copy that has them") else None
          | _ => why
          end in
        let s := with_roots (roots s) trusted s in
        let '(s, why) := match why with None => load_revoked s | _ => (s, why) end in
        '(s, why) ← match why with
          | None => '(s, made) ← add_cert_file fuel s; Some (s, if made : bool then None else Some (lit "no memory for $SSL_CERT_FILE"))
          | _ => Some (s, why)
          end;
        Some (match why with
              | Some why => (with_roots [] (carried_roots s) (with_distrusted [] (with_revoked [] s)), Some why)
              | None => (with_readiness true (curl_ready s) (shared_multi s) s, None)
              end)
    end.

(** Each piece is made once. *)
Definition http_ready (fuel : nat) (s : trust) : option (trust * option bytes) :=
  if shared_multi s then Some (s, None)
  else if negb (curl_ready s) && negb curl_global_init then Some (s, Some (lit "curl_global_init failed"))
  else
    let s := with_readiness (roots_ready s) true (shared_multi s) s in
    '(s, why) ← (if roots_ready s then Some (s, None) else load_roots fuel s);
    Some (match why with
          | Some why => (s, Some why)
          | None => if curl_multi_init then (with_readiness (roots_ready s) (curl_ready s) true s, None) else (s, Some (lit "curl_multi_init failed"))
          end).

(** The roots the binary carries, and those the file added. *)
Definition http_roots (fuel : nat) (s : trust) : option (trust * answer (list bytes * list bytes)) :=
  '(s, why) ← http_ready fuel s;
  Some (s, match why with
    | Some why => Refuses why
    | None => let all := List.filter (λ der, negb (bool_decide (der = []))) (roots s) in
        Answers (take (Z.to_nat (carried_roots s)) all, drop (Z.to_nat (carried_roots s)) all)
    end).

(** ** Verifying a chain *)

(** The loop over OneCRL; [hash] is the key's once it was hashed. *)
Fixpoint revoked_by (l : list revoked) (crt : certificate) (hash : option bytes) : bool :=
  match l with
  | [] => false
  | one :: l =>
      if negb (r_by_key one) then
        if bool_decide (c_issuer crt = r_name one) && bool_decide (c_serial crt = r_value one) then true else revoked_by l crt hash
      else if bool_decide (c_subject crt = r_name one) then
        match (match hash with Some h => Some h | None => psa_sha256 (c_key crt) end) with
        | None => true
        | Some h => if bool_decide (length (r_value one) = 32%nat) && bool_decide (h = r_value one) then true else revoked_by l crt (Some h)
        end
      else revoked_by l crt hash
  end.

Definition is_revoked (s : trust) (crt : certificate) : bool := revoked_by (revoked_ones s) crt None.

(** [snprintf]'s "%0*d" of a number that is not negative. *)
Fixpoint fixed_digits (w : nat) (n : Z) : bytes :=
  match w with O => [] | S w => fixed_digits w (n / 10) ++ [0x30 + n mod 10] end.
Definition padded (w : nat) (n : Z) : bytes := if n <? 10 ^ Z.of_nat w then fixed_digits w n else decimal n.

Definition issued (d : date) : bytes :=
  padded 4 (year d) ++ padded 2 (mon d) ++ padded 2 (day d) ++ padded 2 (hour d) ++ padded 2 (min d) ++ padded 2 (sec d).

(** [strcmp] of texts, up to its sign. *)
Fixpoint strcmp (a b : bytes) : Z :=
  match a, b with
  | [], [] => 0
  | [], _ :: _ => -1
  | _ :: _, [] => 1
  | x :: a, y :: b => if x =? y then strcmp a b else if x <? y then -1 else 1
  end.

(** What a certificate is refused for, and what is noted on the transfer: the
    subject revoked and the root distrusted. *)
Record notes := Notes { n_revoked : bytes; n_distrusted : option distrusted }.

Definition distrusted_as (s : trust) (crt : certificate) : option distrusted :=
  List.find (λ one, bool_decide (c_raw crt = d_der one)) (distrusted_roots s).

(** A certificate at a depth of the chain, [chain_root] being what was met
    before; the transfer's notes where there is one. *)
Definition cosmic_tls_distrust (s : trust) (chain_root : option distrusted) (t : option notes) (crt : certificate) (depth : Z) :
    Z * option distrusted * option notes :=
  let hit := negb (bool_decide (revoked_ones s = [])) && is_revoked s crt in
  let t := if hit then
      (λ t, if bool_decide (n_revoked t = [])
            then Notes (default (lit "(a subject mbedtls cannot word)") (c_worded crt)) (n_distrusted t) else t) <$> t
    else t in
  let flags := if hit then MBEDTLS_X509_BADCERT_REVOKED else 0 in
  let met := distrusted_as s crt in
  if 0 <? depth then (flags, match met with Some _ => met | None => chain_root end, t)
  else
    let root := match met with Some _ => met | None => chain_root end in
    match root with
    | None => (flags, None, t)
    | Some one =>
        if strcmp (issued (c_from crt)) (d_after one) <=? 0 then (flags, None, t)
        else (Z.lor flags MBEDTLS_X509_BADCERT_OTHER, None, (λ t, Notes (n_revoked t) (Some one)) <$> t)
    end.

End store.
