(* ===== verification/Http.v ===== *)
(** * HTTP transfers: [core/http.c]

    A transfer's buffer between curl, which hands it a body a piece at a time
    and is paused while too much of it is unread, and the reads that take it.
    curl is a parameter: what it is asked answers its next state, and where it
    calls back it is a tree of the calls it makes, each continued by what the
    callback answered. The transport the tests script is left out. *)

From S2P Require Import Prelude.
From S2P Require Import Lua.
From S2P Require Import HttpTrust.

Local Open Scope Z_scope.

Definition BODY_PAUSE_THRESHOLD : Z := 1024 * 1024.
Definition CURL_WRITEFUNC_PAUSE : Z := 0x10000001.
Definition CURLE_OK : Z := 0.
Definition CURLM_OK : Z := 0.
Definition CURLE_COULDNT_CONNECT : Z := 7.
Definition CURLE_PEER_FAILED_VERIFICATION : Z := 60.

(** ** curl *)

(** A transfer, which curl calls back with. *)
Abbreviation tid := positive.

(** What curl does before it answers: a header line or a piece of a body is
    handed over, or a certificate of a server's chain is asked about, and the
    callback's answer says how it goes on. *)
Inductive callbacks (C A : Type) :=
  | Return (a : A)
  | OnHeader (c : C) (t : tid) (line : bytes) (k : Z → callbacks C A)
  | OnBody (c : C) (t : tid) (data : bytes) (k : Z → callbacks C A)
  | OnVerify (t : tid) (crt : certificate) (depth : Z) (k : Z → callbacks C A).
Arguments Return {C A}.
Arguments OnHeader {C A}.
Arguments OnBody {C A}.
Arguments OnVerify {C A}.

(** What an option of an easy handle is set to. *)
Inductive setting := SLong (z : Z) | SText (s : bytes) | SBlob (s : bytes) | SList (l : list bytes) | SSelf | SCallback (name : string).

Class Curl := {
  curl : Type;
  curl_easy_init : curl → tid → option curl;
  curl_easy_setopt : curl → tid → string → setting → curl * Z;
  curl_multi_add_handle : curl → tid → curl * Z;
  curl_multi_remove_handle : curl → tid → curl;
  curl_multi_poll : curl → curl * Z;
  curl_multi_perform : curl → callbacks curl (curl * Z);
  curl_multi_info_read : curl → list (tid * Z) * curl;
  curl_easy_pause : curl → tid → callbacks curl curl;
  response_code : curl → tid → Z;
  effective_url : curl → tid → option bytes;
  response_headers : curl → tid → list (bytes * bytes);
  location : curl → tid → option bytes;
  error_buffer : curl → tid → bytes;
  curl_easy_strerror : Z → bytes;
  curl_multi_strerror : Z → bytes }.

(** ** Transfers *)

Record transfer := Transfer {
  t_easy : bool; t_request_headers : list bytes;
  t_body : bytes; t_body_cap : Z;
  t_ready : bool; t_headed : bool; t_follow : bool; t_paused : bool; t_done : bool; t_closed : bool;
  t_distrusted : option distrusted; t_revoked : bytes; t_chosen : bool; t_result : Z }.

Definition new_transfer : transfer := Transfer false [] [] 0 false false false false false false None [] false 0.

Definition with_easy (b : bool) (t : transfer) : transfer :=
  Transfer b (t_request_headers t) (t_body t) (t_body_cap t) (t_ready t) (t_headed t) (t_follow t) (t_paused t) (t_done t) (t_closed t)
    (t_distrusted t) (t_revoked t) (t_chosen t) (t_result t).
Definition with_headers (l : list bytes) (t : transfer) : transfer :=
  Transfer (t_easy t) l (t_body t) (t_body_cap t) (t_ready t) (t_headed t) (t_follow t) (t_paused t) (t_done t) (t_closed t)
    (t_distrusted t) (t_revoked t) (t_chosen t) (t_result t).
Definition with_body (b : bytes) (cap : Z) (t : transfer) : transfer :=
  Transfer (t_easy t) (t_request_headers t) b cap (t_ready t) (t_headed t) (t_follow t) (t_paused t) (t_done t) (t_closed t)
    (t_distrusted t) (t_revoked t) (t_chosen t) (t_result t).
Definition with_ready (headed : bool) (t : transfer) : transfer :=
  Transfer (t_easy t) (t_request_headers t) (t_body t) (t_body_cap t) true headed (t_follow t) (t_paused t) (t_done t) (t_closed t)
    (t_distrusted t) (t_revoked t) (t_chosen t) (t_result t).
Definition with_paused (b : bool) (t : transfer) : transfer :=
  Transfer (t_easy t) (t_request_headers t) (t_body t) (t_body_cap t) (t_ready t) (t_headed t) (t_follow t) b (t_done t) (t_closed t)
    (t_distrusted t) (t_revoked t) (t_chosen t) (t_result t).
Definition with_done (result : Z) (t : transfer) : transfer :=
  Transfer (t_easy t) (t_request_headers t) (t_body t) (t_body_cap t) true (t_headed t) (t_follow t) (t_paused t) true (t_closed t)
    (t_distrusted t) (t_revoked t) (t_chosen t) result.
Definition with_closed (t : transfer) : transfer :=
  Transfer (t_easy t) (t_request_headers t) (t_body t) (t_body_cap t) (t_ready t) (t_headed t) (t_follow t) (t_paused t) (t_done t) true
    (t_distrusted t) (t_revoked t) (t_chosen t) (t_result t).
Definition with_choice (follow chosen : bool) (t : transfer) : transfer :=
  Transfer (t_easy t) (t_request_headers t) (t_body t) (t_body_cap t) (t_ready t) (t_headed t) follow (t_paused t) (t_done t) (t_closed t)
    (t_distrusted t) (t_revoked t) chosen (t_result t).

Definition with_notes (n : notes) (t : transfer) : transfer :=
  Transfer (t_easy t) (t_request_headers t) (t_body t) (t_body_cap t) (t_ready t) (t_headed t) (t_follow t) (t_paused t) (t_done t) (t_closed t)
    (n_distrusted n) (n_revoked n) (t_chosen t) (t_result t).

(** The process: curl, the transfers, the trust store and the root of the chain
    being verified, and how often the allocator and the guard were asked. *)
Record http `{Curl} := Http {
  h_curl : curl; h_transfers : gmap tid transfer; h_trust : trust; h_chain_root : option distrusted; h_asks : nat; h_signals : nat }.
Arguments Http {_}.

Section http.
Context `{Curl, Allocator, Signals, LuaIntegers, Authorities}.

Definition put_curl (c : curl) (h : http) : http := Http c (h_transfers h) (h_trust h) (h_chain_root h) (h_asks h) (h_signals h).
Definition put_transfers (ts : gmap tid transfer) (h : http) : http := Http (h_curl h) ts (h_trust h) (h_chain_root h) (h_asks h) (h_signals h).
Definition put_transfer (i : tid) (t : transfer) (h : http) : http := put_transfers (<[i := t]> (h_transfers h)) h.
Definition put_trust (s : trust) (h : http) : http := Http (h_curl h) (h_transfers h) s (h_chain_root h) (h_asks h) (h_signals h).
Definition put_chain_root (r : option distrusted) (h : http) : http := Http (h_curl h) (h_transfers h) (h_trust h) r (h_asks h) (h_signals h).
Definition with_asks (n : nat) (h : http) : http := Http (h_curl h) (h_transfers h) (h_trust h) (h_chain_root h) n (h_signals h).
Definition asked (h : http) : http := with_asks (S (h_asks h)) h.
Definition looked (h : http) : http := Http (h_curl h) (h_transfers h) (h_trust h) (h_chain_root h) (h_asks h) (S (h_signals h)).

(** ** Callbacks *)

(** The loop that doubles a body's room; 64 doublings pass any [size_t]. *)
Fixpoint want_loop (fuel : nat) (want need : Z) : Z :=
  match fuel with
  | O => want
  | S fuel => if want <? need then want_loop fuel (want * 2) need else want
  end.

(** The transfer after a piece of its body, what curl is answered, and whether
    the allocator was asked. *)
Definition write_cb (asks : nat) (t : transfer) (ptr : bytes) : transfer * Z * bool :=
  let len := Z.of_nat (length ptr) in
  let body_len := Z.of_nat (length (t_body t)) in
  if BODY_PAUSE_THRESHOLD <=? body_len then (with_paused true t, CURL_WRITEFUNC_PAUSE, false)
  else
    let append cap := with_ready (t_headed t) (with_body (t_body t ++ ptr) cap t) in
    if t_body_cap t <? body_len + len then
      let want := want_loop 64 (if t_body_cap t =? 0 then 16384 else t_body_cap t * 2) (body_len + len) in
      if refused asks then (t, 0, true) else (append want, len, true)
    else (append (t_body_cap t), len, false).

Definition blank_line (line : bytes) : bool := bool_decide (line = [0x0d; 0x0a]) || bool_decide (line = [0x0a]).

Definition header_cb (c : curl) (i : tid) (t : transfer) (line : bytes) : transfer * Z :=
  let len := Z.of_nat (length line) in
  if t_ready t || negb (blank_line line) then (t, len)
  else
    let status := response_code c i in
    if (100 <=? status) && (status <? 200) then (t, len)
    else if t_follow t && (300 <=? status) && (status <? 400)
            && match location c i with Some (_ :: _) => true | _ => false end
    then (t, len)
    else (with_ready true t, len).

(** A certificate asked about: the flags it gets, and what is noted on the
    transfer, where there is one. *)
Definition verify_cb (i : tid) (crt : certificate) (depth : Z) (h : http) : Z * http :=
  let t := h_transfers h !! i in
  let '(flags, root, n) := cosmic_tls_distrust (h_trust h) (h_chain_root h) ((λ t, Notes (t_revoked t) (t_distrusted t)) <$> t) crt depth in
  let h := put_chain_root root h in
  (flags, match t, n with Some t, Some n => put_transfer i (with_notes n t) h | _, _ => h end).

(** curl's calls, answered in turn; [None] where it calls back for a transfer
    there is not. *)
Fixpoint called {A} (r : callbacks curl A) (h : http) : option (A * http) :=
  match r with
  | Return a => Some (a, h)
  | OnHeader c i line k =>
      match h_transfers h !! i with
      | None => None
      | Some t => let '(t, n) := header_cb c i t line in called (k n) (put_transfer i t h)
      end
  | OnBody c i data k =>
      match h_transfers h !! i with
      | None => None
      | Some t =>
          let '(t, n, grew) := write_cb (h_asks h) t data in
          called (k n) (put_transfer i t (if grew : bool then asked h else h))
      end
  | OnVerify i crt depth k => let '(flags, h) := verify_cb i crt depth h in called (k flags) h
  end.

(** ** The pump *)

(** A failed call of the multi handle: its name and its code. *)
Definition trouble : Type := bytes * Z.

(** The messages read until there is none. *)
Fixpoint finish_all (messages : list (tid * Z)) (h : http) : option http :=
  match messages with
  | [] => Some h
  | (i, result) :: messages => t ← h_transfers h !! i; finish_all messages (put_transfer i (with_done result t) h)
  end.

Definition pump_once (h : http) : option (http * option trouble) :=
  let '(c, mc) := curl_multi_poll (h_curl h) in
  let h := put_curl c h in
  if negb (mc =? CURLM_OK) then Some (h, Some (lit "curl_multi_poll", mc))
  else
    '((c, mc), h) ← called (curl_multi_perform c) h;
    let h := put_curl c h in
    if negb (mc =? CURLM_OK) then Some (h, Some (lit "curl_multi_perform", mc))
    else
      let '(messages, c) := curl_multi_info_read c in
      h ← finish_all messages (put_curl c h);
      Some (h, None).

(** The flag is cleared first: curl may call back, and be paused again, from
    inside. *)
Definition resume (i : tid) (h : http) : option http :=
  t ← h_transfers h !! i;
  if negb (t_paused t) || negb (t_easy t) then Some h
  else
    let h := put_transfer i (with_paused false t) h in
    '(c, h) ← called (curl_easy_pause (h_curl h) i) h;
    Some (put_curl c h).

(** ** Messages *)

Definition is_space (b : Z) : bool := (b =? 0x20) || ((9 <=? b) && (b <=? 13)).

(** The loop over the spaces at a message's end. *)
Definition trim_end (s : bytes) : bytes :=
  rev ((fix skip (s : bytes) := match s with b :: s' => if is_space b then skip s' else s | [] => [] end) (rev s)).

Definition transfer_error (h : http) (i : tid) (t : transfer) : bytes :=
  let errbuf := c_string (error_buffer (h_curl h) i) in
  if bool_decide (errbuf = []) then curl_easy_strerror (t_result t) else trim_end errbuf.

Definition not_signed : bytes := lit "certificate is not correctly signed by the trusted CA".

(** [strstr]. *)
Fixpoint holds_text (s p : bytes) : bool :=
  bool_decide (take (length p) s = p) || match s with [] => false | _ :: s => holds_text s p end.

Definition STALE_ROOTS : bytes :=
  lit "the CA roots this binary carries may not include this peer's: $SSL_CERT_FILE names more to trust, and `cosmic refresh cacert --binary <this program> -o <copy>` writes a copy with newer ones (`--cacert <pem>` reads them from a file)".
Definition CHOSEN_ROOTS : bytes :=
  lit "the CA roots this request trusts do not include this peer's: by default it trusts only the minimal roots, and COSMIC_CA_ROOTS=mozilla, `cosmic build --roots mozilla` or opts.roots = " ++ [0x22] ++ lit "mozilla" ++ [0x22]
  ++ lit " trusts every root this binary carries; opts.ca or $SSL_CERT_FILE trusts one more".

Definition push_transfer_error (h : http) (i : tid) (t : transfer) : bytes :=
  let message := transfer_error h i t in
  let unverified := t_result t =? CURLE_PEER_FAILED_VERIFICATION in
  if unverified && negb (bool_decide (c_string (t_revoked t) = [])) then
    message ++ lit "; the certificate " ++ c_string (t_revoked t) ++ lit " is revoked by Mozilla's OneCRL"
  else
    match t_distrusted t with
    | Some root =>
        if unverified then
          message ++ lit "; the CA root " ++ [0x22] ++ d_label root ++ [0x22] ++ lit " is trusted for no server certificate issued after "
          ++ d_after root ++ lit " UTC, as Mozilla's root store says, and this one was"
        else message
    | None =>
        if unverified && holds_text message not_signed then message ++ lit "; " ++ (if t_chosen t then CHOSEN_ROOTS else STALE_ROOTS)
        else message
    end.

Definition transfer_code (result : Z) : bytes :=
  if result =? CURLE_COULDNT_CONNECT then lit "couldnt_connect" else lit "failed".

Definition multi_message (why : trouble) : bytes := why.1 ++ lit ": " ++ curl_multi_strerror why.2.

(** ** Methods *)

Definition transfer_release (i : tid) (t : transfer) (h : http) : http :=
  let h := if t_easy t then put_curl (curl_multi_remove_handle (h_curl h) i) h else h in
  put_transfer i (with_closed (with_body [] 0 (with_headers [] (with_easy false t)))) h.

Definition is_closed : bytes := lit "http: the response is closed".

(** [read]'s wait: [None] while it goes on after as many turns as [fuel]. *)
Fixpoint read_wait (fuel : nat) (i : tid) (h : http) : option (http * option bytes) :=
  match fuel with
  | O => None
  | S fuel =>
      t ← h_transfers h !! i;
      if bool_decide (t_body t = []) && negb (t_done t) then
        if cosmic_signal_caught (h_signals h) then Some (looked h, Some (lit "interrupted"))
        else
          '(h, why) ← pump_once (looked h);
          match why with
          | Some why => Some (h, Some (multi_message why))
          | None => read_wait fuel i h
          end
      else Some (h, None)
  end.

(** What a read takes of the buffer, and the resumption that follows. *)
Definition read_take (max_bytes : Z) (i : tid) (h : http) : option (http * answer (option bytes)) :=
  t ← h_transfers h !! i;
  let body_len := Z.of_nat (length (t_body t)) in
  let n := Z.to_nat (if max_bytes <? body_len then max_bytes else body_len) in
  let h := put_transfer i (with_body (drop n (t_body t)) (t_body_cap t) t) h in
  h ← (if Z.of_nat (length (drop n (t_body t))) <? BODY_PAUSE_THRESHOLD then resume i h else Some h);
  Some (h, Answers (Some (take n (t_body t)))).

(** A chunk of the body; [Answers None] is its clean end. *)
Definition handle_read (fuel : nat) (max : lua_value) (i : tid) (h : http) : option (http * answer (option bytes)) :=
  t ← h_transfers h !! i;
  if t_closed t then Some (h, Raises is_closed)
  else
    match opt_integer max 65536 with
    | None => Some (h, Raises (lit "number expected"))
    | Some max_bytes =>
        if max_bytes <=? 0 then Some (h, Raises (lit "http: read's max_bytes must be positive"))
        else if bool_decide (t_body t = []) then
          h ← resume i h;
          '(h, why) ← read_wait fuel i h;
          match why with
          | Some why => Some (h, Refuses why)
          | None =>
              t ← h_transfers h !! i;
              if bool_decide (t_body t = []) then
                Some (h, if negb (t_result t =? CURLE_OK) then Refuses (push_transfer_error h i t) else Answers None)
              else read_take max_bytes i h
          end
        else read_take max_bytes i h
    end.

Definition handle_status (i : tid) (h : http) : option (answer Z) :=
  t ← h_transfers h !! i; Some (if t_closed t then Raises is_closed else Answers (response_code (h_curl h) i)).
Definition handle_url (i : tid) (h : http) : option (answer bytes) :=
  t ← h_transfers h !! i; Some (if t_closed t then Raises is_closed else Answers (default [] (effective_url (h_curl h) i))).
Definition handle_close (i : tid) (h : http) : option http :=
  t ← h_transfers h !! i; Some (transfer_release i t h).

(** *** Headers *)

Definition lowered (b : Z) : Z := if (0x41 <=? b) && (b <=? 0x5a) then b + 32 else b.

(** A name met before is joined on. *)
Definition add_header (m : gmap bytes bytes) (nv : bytes * bytes) : gmap bytes bytes :=
  let name := lowered <$> c_string nv.1 in
  let value := c_string nv.2 in
  match m !! name with
  | None => <[name := value]> m
  | Some before => <[name := before ++ (if bool_decide (name = lit "set-cookie") then [0x0a] else lit ", ") ++ value]> m
  end.

Definition handle_headers (i : tid) (h : http) : option (answer (gmap bytes bytes)) :=
  t ← h_transfers h !! i;
  Some (if t_closed t then Raises is_closed else Answers (foldl add_header ∅ (response_headers (h_curl h) i))).

End http.

(** * Opening a transfer: [core/http.c], [http_open]

    The options' shapes, each of which raises, what they say, which is refused,
    the settings curl is given, and the wait until the final response's headers
    are known. *)

Definition DEFAULT_CONNECT_TIMEOUT_MS : Z := 30000.
Definition DEFAULT_LOW_SPEED_BYTES : Z := 1.
Definition DEFAULT_LOW_SPEED_SECONDS : Z := 60.
Definition MAX_REDIRECTS : Z := 0x7fff.
Definition MAX_LOW_SPEED_SECONDS : Z := 65535.
Definition LONG_MAX : Z := 2 ^ 63 - 1.

(** ** What may be sent *)

(** The loops over a name's and a value's bytes. *)
Fixpoint name_problem (name : bytes) : option bytes :=
  match name with
  | [] => None
  | c :: name =>
      if (c =? 0x0d) || (c =? 0x0a) then Some (lit "a header name must not contain CR or LF")
      else if c =? 0 then Some (lit "a header name must not contain a NUL byte")
      else if c =? 0x3a then Some (lit "a header name must not contain ':'")
      else name_problem name
  end.
Fixpoint value_problem (value : bytes) : option bytes :=
  match value with
  | [] => None
  | c :: value =>
      if (c =? 0x0d) || (c =? 0x0a) then Some (lit "a header value must not contain CR or LF")
      else if c =? 0 then Some (lit "a header value must not contain a NUL byte")
      else value_problem value
  end.

Definition header_problem (name value : bytes) : option bytes :=
  if bool_decide (name = []) then Some (lit "a header name is empty")
  else match name_problem name with Some why => Some why | None => value_problem value end.

Definition is_alnum (c : Z) : bool :=
  (0x30 <=? c) && (c <=? 0x39) || (0x41 <=? c) && (c <=? 0x5a) || (0x61 <=? c) && (c <=? 0x7a).

Definition is_token (method : bytes) : bool :=
  negb (bool_decide (method = []))
  && forallb (λ c, negb (c =? 0) && (is_alnum c || bool_decide (c ∈ lit "!#$%&'*+-.^_`|~"))) method.

(** ** Options *)

(** An option read, or the error raised. *)
Definition option_ (A : Type) : Type := A + bytes.
Definition then_option {A B} (x : option_ A) (f : A → option_ B) : option_ B := match x with inl a => f a | inr why => inr why end.
Notation "'let?' x := e 'in' f" := (then_option e (λ x, f)) (at level 10, x pattern, e at level 100, f at level 200).

Definition bad_option {A} (key want : bytes) : option_ A := inr (lit "http: opts." ++ key ++ lit " must be " ++ want).

Section open.
Context `{Curl, Allocator, Signals, LuaIntegers, LuaStrings, LuaFields, RawLen, Authorities}.

Section options.
Context (lua : heap) (opts : lua_value).

(** An option; where none are given there is an empty table. *)
Definition field (key : bytes) : lua_value := match opts with LNil => LNil | _ => lua_getfield lua opts key end.

Definition opt_string (key : bytes) : option_ (option bytes) :=
  match field key with
  | LNil => inl None
  | LString s => inl (Some s)
  | _ => bad_option key (lit "a string")
  end.

Definition opt_table (key : bytes) : option_ (option table) :=
  match field key with
  | LNil => inl None
  | LTable a => inl (Some (table_at lua a))
  | _ => bad_option key (lit "a table")
  end.

Definition opt_integer (key : bytes) (fallback max : Z) : option_ Z :=
  match field key with
  | LNil => inl fallback
  | LInt _ | LFloat _ =>
      match lua_tointegerx (field key) with
      | None => bad_option key (lit "an integer")
      | Some v =>
          if (v <? 0) || (max <? v) then inr (lit "http: opts." ++ key ++ lit " must be between 0 and " ++ Texts.decimal max)
          else inl v
      end
  | _ => bad_option key (lit "an integer")
  end.

Definition opt_boolean (key : bytes) (fallback : bool) : option_ bool :=
  match field key with
  | LNil => inl fallback
  | LBool b => inl b
  | _ => bad_option key (lit "a boolean")
  end.

Definition protocols_want : bytes :=
  lit "a list of one or more of " ++ [0x22] ++ lit "http" ++ [0x22] ++ lit " and " ++ [0x22] ++ lit "https" ++ [0x22].

(** The loop over the list: whether "http" and "https" were met. *)
Fixpoint protocols_loop (entries : list lua_value) (http_ https_ : bool) : option_ (bool * bool) :=
  match entries with
  | [] => inl (http_, https_)
  | e :: entries =>
      if decide (e = LString (lit "http")) then protocols_loop entries true https_
      else if decide (e = LString (lit "https")) then protocols_loop entries http_ true
      else bad_option (lit "redirect_protocols") protocols_want
  end.

Definition opt_redirect_protocols : option_ bytes :=
  match field (lit "redirect_protocols") with
  | LNil => inl (lit "http,https")
  | LTable a =>
      let list_ := table_at lua a in
      match protocols_loop (rawgeti list_ <$> seqZ 1 (lua_rawlen list_)) false false with
      | inr why => inr why
      | inl (true, true) => inl (lit "http,https")
      | inl (true, false) => inl (lit "http")
      | inl (false, true) => inl (lit "https")
      | inl (false, false) => bad_option (lit "redirect_protocols") protocols_want
      end
  | _ => bad_option (lit "redirect_protocols") protocols_want
  end.

(** The loop over a table's pairs. *)
Definition is_string (v : lua_value) : bool := match v with LString _ => true | _ => false end.
Definition headers_check (t : table) : option_ () :=
  if forallb (λ kv, is_string kv.1 && is_string kv.2) (t_pairs t) then inl ()
  else bad_option (lit "headers") (lit "a table mapping strings to strings").

Definition script_check (t : table) : option_ () :=
  if forallb (λ i, is_string (rawgeti t i)) (seqZ 1 (lua_rawlen t)) then inl ()
  else bad_option (lit "script") (lit "a list of strings").

End options.

(** One [open]'s settings. *)
Record request := Request {
  r_url : bytes; r_method : option bytes; r_body : option bytes; r_headers : option table; r_script : option table;
  r_unix_socket : option bytes; r_ca_blob : option bytes; r_pin : option bytes; r_follow : bool; r_verbose : bool;
  r_redirect_protocols : bytes; r_max_redirects : Z; r_connect_timeout_ms : Z; r_timeout_ms : Z;
  r_low_speed_bytes : Z; r_low_speed_seconds : Z }.

(** A check that was passed, or was not made. *)
Definition when {A} (x : option A) (check : A → option_ ()) : option_ () := match x with Some a => check a | None => inl () end.

(** Every option's shape, in the order they are read. *)
Definition read_request (lua : heap) (url opts : lua_value) : option_ request :=
  match lua_tolstring url with
   | None => inr (lit "string expected")
   | Some url =>
       let? _ := (match opts with LNil | LTable _ => inl () | _ => inr (lit "table expected") end) in
       let? method := opt_string lua opts (lit "method") in
       let? body := opt_string lua opts (lit "body") in
       let? headers := opt_table lua opts (lit "headers") in
       let? _ := when headers headers_check in
       let? script := opt_table lua opts (lit "script") in
       let? _ := when script script_check in
       let? unix_socket := opt_string lua opts (lit "unix_socket") in
       let? ca_blob := opt_string lua opts (lit "ca_blob") in
       let? pin := opt_string lua opts (lit "pin") in
       let? follow := opt_boolean lua opts (lit "follow") true in
       let? verbose := opt_boolean lua opts (lit "verbose") false in
       let? protocols := opt_redirect_protocols lua opts in
       let? max_redirects := opt_integer lua opts (lit "max_redirects") 10 MAX_REDIRECTS in
       let? connect_timeout := opt_integer lua opts (lit "connect_timeout_ms") DEFAULT_CONNECT_TIMEOUT_MS LONG_MAX in
       let? timeout := opt_integer lua opts (lit "timeout_ms") 0 LONG_MAX in
       let? speed := opt_integer lua opts (lit "low_speed_bytes") DEFAULT_LOW_SPEED_BYTES LONG_MAX in
       let? seconds := opt_integer lua opts (lit "low_speed_seconds") DEFAULT_LOW_SPEED_SECONDS MAX_LOW_SPEED_SECONDS in
       inl (Request url method body headers script unix_socket ca_blob pin follow verbose protocols max_redirects
              connect_timeout timeout speed seconds)
   end.

(** The headers, which the check has shown to be strings. *)
Definition text_of (v : lua_value) : bytes := match v with LString s => s | _ => [] end.
Definition headers_of (t : table) : list (bytes * bytes) := (λ kv, (text_of kv.1, text_of kv.2)) <$> t_pairs t.

(** The loop over the headers: the first that cannot be sent. *)
Fixpoint headers_problem (l : list (bytes * bytes)) : option bytes :=
  match l with
  | [] => None
  | (name, value) :: l =>
      match header_problem name value with
      | Some why => Some (lit "invalid header " ++ name ++ lit ": " ++ why)
      | None => headers_problem l
      end
  end.

Definition has_nul (s : bytes) : bool := bool_decide (0 ∈ s).

(** What the options say that cannot be sent as given. *)
Definition request_problem (r : request) : option bytes :=
  if match r_method r with Some m => negb (is_token m) | None => false end then Some (lit "invalid method: must be an HTTP token")
  else if has_nul (r_url r) then Some (lit "invalid url: contains a NUL byte")
  else if bool_decide (r_unix_socket r = Some []) then Some (lit "invalid unix_socket: empty")
  else if match r_unix_socket r with Some s => has_nul s | None => false end then Some (lit "invalid unix_socket: contains a NUL byte")
  else if bool_decide (r_ca_blob r = Some []) then Some (lit "invalid ca_blob: empty")
  else if match r_pin r with Some s => bool_decide (s = []) || has_nul s | None => false end then Some (lit "invalid pin: empty or contains a NUL byte")
  else match r_headers r with Some t => headers_problem (headers_of t) | None => None end.

(** ** The settings *)

Definition CURLFOLLOW_OBEYCODE : Z := 2.
Definition CURL_REDIR_POST_301 : Z := 1.
Definition CURL_REDIR_POST_302 : Z := 2.

Definition set_method (r : request) : list (string * setting) :=
  if bool_decide (r_method r = Some (lit "HEAD")) then [("CURLOPT_NOBODY"%string, SLong 1)]
  else
    match r_body r with
    | Some body => [("CURLOPT_POSTFIELDSIZE_LARGE"%string, SLong (Z.of_nat (length body))); ("CURLOPT_POSTFIELDS"%string, SText body)]
    | None =>
        if bool_decide (r_method r = Some (lit "POST"))
        then [("CURLOPT_POSTFIELDSIZE_LARGE"%string, SLong 0); ("CURLOPT_POSTFIELDS"%string, SText [])] else []
    end ++
    match r_method r with
    | Some method =>
        if negb (bool_decide (method = lit "POST")) && negb (bool_decide (method = lit "GET"))
        then [("CURLOPT_CUSTOMREQUEST"%string, SText method); ("CURLOPT_POSTREDIR"%string, SLong (Z.lor CURL_REDIR_POST_301 CURL_REDIR_POST_302))]
        else []
    | None => []
    end.

Definition configure (r : request) : list (string * setting) :=
  [("CURLOPT_PRIVATE", SSelf); ("CURLOPT_URL", SText (r_url r)); ("CURLOPT_PROTOCOLS_STR", SText (lit "http,https"));
   ("CURLOPT_REDIR_PROTOCOLS_STR", SText (r_redirect_protocols r)); ("CURLOPT_NOSIGNAL", SLong 1);
   ("CURLOPT_FOLLOWLOCATION", SLong (if r_follow r then CURLFOLLOW_OBEYCODE else 0)); ("CURLOPT_MAXREDIRS", SLong (r_max_redirects r));
   ("CURLOPT_WRITEFUNCTION", SCallback "write_cb"); ("CURLOPT_WRITEDATA", SSelf);
   ("CURLOPT_HEADERFUNCTION", SCallback "header_cb"); ("CURLOPT_HEADERDATA", SSelf); ("CURLOPT_SUPPRESS_CONNECT_HEADERS", SLong 1);
   ("CURLOPT_ERRORBUFFER", SSelf); ("CURLOPT_CONNECTTIMEOUT_MS", SLong (r_connect_timeout_ms r)); ("CURLOPT_TIMEOUT_MS", SLong (r_timeout_ms r));
   ("CURLOPT_LOW_SPEED_LIMIT", SLong (r_low_speed_bytes r)); ("CURLOPT_LOW_SPEED_TIME", SLong (r_low_speed_seconds r));
   ("CURLOPT_VERBOSE", SLong (if r_verbose r then 1 else 0)); ("CURLOPT_USERAGENT", SText (lit "cosmic"))]%string ++
  match r_ca_blob r with
  | Some blob => [("CURLOPT_CAINFO_BLOB", SBlob blob); ("CURLOPT_PROXY_CAINFO_BLOB", SBlob blob)]%string
  | None => [("CURLOPT_SSL_CTX_FUNCTION", SCallback "use_roots")]%string
  end ++
  match r_pin r with Some pin => [("CURLOPT_PINNEDPUBLICKEY"%string, SText pin)] | None => [] end ++
  match r_unix_socket r with Some path => [("CURLOPT_UNIX_SOCKET_PATH"%string, SText path)] | None => [] end ++
  set_method r.

Definition configure_script (connect_to : list bytes) : list (string * setting) :=
  [("CURLOPT_OPENSOCKETFUNCTION", SCallback "script_socket"); ("CURLOPT_OPENSOCKETDATA", SSelf); ("CURLOPT_SOCKOPTFUNCTION", SCallback "script_sockopt");
   ("CURLOPT_CONNECT_TO", SList connect_to); ("CURLOPT_PROXY", SText []); ("CURLOPT_PROTOCOLS_STR", SText (lit "http,https"));
   ("CURLOPT_FRESH_CONNECT", SLong 1); ("CURLOPT_FORBID_REUSE", SLong 1)]%string.

(** The options set one after another, up to the first curl refuses. *)
Fixpoint set_all (i : tid) (l : list (string * setting)) (c : curl) : curl * option trouble :=
  match l with
  | [] => (c, None)
  | (name, value) :: l =>
      let '(c, rc) := curl_easy_setopt c i name value in
      if rc =? CURLE_OK then set_all i l c else (c, Some (lit name, rc))
  end.

Definition setopt_message (why : trouble) : bytes := lit "curl_easy_setopt(" ++ why.1 ++ lit "): " ++ curl_easy_strerror why.2.

(** ** Opening *)

(** The header lines: each is allocated, and then the list's entry. *)
Fixpoint headers_build (l : list (bytes * bytes)) (lines : list bytes) (asks : nat) : list bytes * nat * option bytes :=
  match l with
  | [] => (lines, asks, None)
  | (name, value) :: l =>
      if refused asks then (lines, S asks, Some (lit "no memory for the request headers"))
      else if refused (S asks) then (lines, S (S asks), Some (lit "curl_slist_append failed for the request headers"))
      else headers_build l (lines ++ [name ++ lit ": " ++ value]) (S (S asks))
  end.

(** The script's blocks: itself, its connections, and each reply. *)
Fixpoint any_refused (asks : nat) (n : nat) : nat * bool :=
  match n with
  | O => (asks, false)
  | S n => if refused asks then (S asks, true) else any_refused (S asks) n
  end.

(** What [open] answers: the handle, nil and a message, that and a code, or
    an error raised. *)
Inductive opened := Opened (i : tid) | Declined (why : bytes) | Broken (why code : bytes) | Misused (why : bytes).

Definition drop_transfer (i : tid) (h : http) : http :=
  match h_transfers h !! i with Some t => transfer_release i t h | None => h end.

(** The wait until the transfer is ready. *)
Fixpoint open_wait (fuel : nat) (i : tid) (h : http) : option (http * option bytes) :=
  match fuel with
  | O => None
  | S fuel =>
      t ← h_transfers h !! i;
      if t_ready t then Some (h, None)
      else if cosmic_signal_caught (h_signals h) then Some (looked h, Some (lit "interrupted"))
      else
        '(h, why) ← pump_once (looked h);
        match why with
        | Some why => Some (h, Some (multi_message why))
        | None => open_wait fuel i h
        end
  end.

(** The easy handle made and given its options, headers and script, and added
    to the multi handle; or why not. *)
Definition prepare (i : tid) (r : request) (h : http) : http * option bytes :=
  match curl_easy_init (h_curl h) i with
  | None => (h, Some (lit "curl_easy_init failed"))
  | Some c =>
      let h := put_transfer i (with_choice (r_follow r) (negb (bool_decide (r_ca_blob r = None))) (with_easy true new_transfer)) (put_curl c h) in
      let '(c, why) := set_all i (configure r) (h_curl h) in
      let h := put_curl c h in
      match why with
      | Some why => (h, Some (setopt_message why))
      | None =>
          let '(lines, asks, why) := headers_build (match r_headers r with Some t => headers_of t | None => [] end) [] (h_asks h) in
          let t := default new_transfer (h_transfers h !! i) in
          let h := with_asks asks (put_transfer i (with_headers lines t) h) in
          match why with
          | Some why => (h, Some why)
          | None =>
              let '(c, why) := set_all i (if bool_decide (lines = []) then [] else [("CURLOPT_HTTPHEADER"%string, SList lines)]) (h_curl h) in
              let h := put_curl c h in
              match why with
              | Some why => (h, Some (setopt_message why))
              | None =>
                  let '(h, why) :=
                    match r_script r with
                    | None => (h, None)
                    | Some script =>
                        let '(asks, short) := any_refused (h_asks h) (2 + Z.to_nat (lua_rawlen script)) in
                        let h := with_asks asks h in
                        if short then (h, Some (lit "no memory for the script"))
                        else
                          let failed := refused (h_asks h) in
                          let h := asked h in
                          if failed then (h, Some (lit "curl_slist_append failed for the script"))
                          else
                            let '(c, why) := set_all i (configure_script [lit "::127.0.0.1:"]) (h_curl h) in
                            (put_curl c h, setopt_message <$> why)
                    end in
                  match why with
                  | Some why => (h, Some why)
                  | None =>
                      let '(c, mc) := curl_multi_add_handle (h_curl h) i in
                      (put_curl c h, if mc =? CURLM_OK then None else Some (multi_message (lit "curl_multi_add_handle", mc)))
                  end
              end
          end
      end
  end.

(** [open]; [i] is the handle it makes, a new one. *)
Definition http_open (fuel : nat) (lua : heap) (url opts : lua_value) (i : tid) (h : http) : option (http * opened) :=
  match read_request lua url opts with
  | inr why => Some (h, Misused why)
  | inl r =>
      match request_problem r with
      | Some why => Some (h, Declined why)
      | None =>
          '(s, why) ← http_ready fuel (trust_at (h_asks h) (h_trust h));
          let h := with_asks (trust_asks s) (put_trust s h) in
          match why with
          | Some why => Some (h, Declined why)
          | None =>
              let '(h, why) := prepare i r (put_transfer i new_transfer h) in
              match why with
              | Some why => Some (drop_transfer i h, Declined why)
              | None =>
                  '(h, why) ← open_wait fuel i h;
                  match why with
                  | Some why => Some (drop_transfer i h, Declined why)
                  | None =>
                      t ← h_transfers h !! i;
                      if t_done t && negb (t_result t =? CURLE_OK) && negb (t_headed t) && bool_decide (t_body t = [])
                      then Some (drop_transfer i h, Broken (push_transfer_error h i t) (transfer_code (t_result t)))
                      else Some (h, Opened i)
                  end
              end
          end
      end
  end.

End open.
