(* ===== verification/HttpCorrect.v ===== *)
(** * What a transfer's reads give

    However many transfers share the multi handle and however their opens,
    reads and closes interleave, each one's reads give its body in order, the
    pause flag is curl's own pause, and a paused transfer has the threshold's
    bytes unread. *)

From stdpp Require Import functions.

From stdpp Require Import functions.

From S2P Require Import Prelude.
From S2P Require Import Lua.
From S2P Require Import HttpTrust.
From S2P Require Import Http.

Local Open Scope Z_scope.

(** ** What curl promises *)

Definition CURL_MAX_WRITE_SIZE : Z := 16384.

(** What curl holds of a transfer: the body it is still to hand over, whether
    the transfer was cut short, whether it is paused, whether it is on the
    multi handle, and whether the message that it is over was read. *)
Record flow := Flow { fl_rest : bytes; fl_broken : bool; fl_stuck : bool; fl_in : bool; fl_over : bool }.

Definition no_flow : flow := Flow [] false false false false.
Definition unstuck (f : flow) : flow := Flow (fl_rest f) (fl_broken f) false (fl_in f) (fl_over f).
Definition ended (f : flow) : flow := Flow (fl_rest f) (fl_broken f) (fl_stuck f) (fl_in f) true.

(** A transfer that may have failed meanwhile: of its body only a part still
    comes. *)
Definition cut (f' f : flow) : Prop :=
  f' = f ∨ fl_over f = false ∧ f' = Flow (fl_rest f') true (fl_stuck f) (fl_in f) false ∧ fl_rest f' `prefix_of` fl_rest f.

Section promises.
Context `{Curl} (coming : curl → tid → flow).

(** curl's calls, where [g] is what it holds of each transfer: a piece of body
    taken is gone, one refused with a pause is handed over again, and any other
    answer ends the transfer. *)
Fixpoint valid {A} (state : A → curl) (g : tid → flow) (r : callbacks curl A) : Prop :=
  match r with
  | Return a => ∀ i, cut (coming (state a) i) (g i)
  | OnHeader _ i line k => fl_in (g i) = true ∧ valid state g (k (Z.of_nat (length line)))
  | OnBody _ i data k =>
      ∃ rest_, fl_in (g i) = true ∧ fl_over (g i) = false ∧ fl_stuck (g i) = false ∧ fl_rest (g i) = data ++ rest_ ∧
        Z.of_nat (length data) ≤ CURL_MAX_WRITE_SIZE ∧
        valid state (<[i := Flow rest_ (fl_broken (g i)) false true false]> g) (k (Z.of_nat (length data))) ∧
        valid state (<[i := Flow (data ++ rest_) (fl_broken (g i)) true true false]> g) (k CURL_WRITEFUNC_PAUSE) ∧
        (data ≠ [] → valid state (<[i := Flow [] true false true false]> g) (k 0))
  | OnVerify _ _ _ k => ∀ flags, valid state g (k flags)
  end.

End promises.

(** [server] is the body the peer sends each transfer, which is added once. A
    message that a transfer is over comes once, after all that is handed over of
    its body, and is no success where the transfer was cut short. *)
Class CurlLaws `{Curl} := {
  server : tid → bytes;
  coming : curl → tid → flow;
  init_law c i c' j : curl_easy_init c i = Some c' → fl_in (coming c i) = false → coming c' j = if decide (j = i) then no_flow else coming c j;
  setopt_law c i name value j : coming (curl_easy_setopt c i name value).1 j = coming c j;
  add_law c i c' mc j :
    curl_multi_add_handle c i = (c', mc) → coming c i = no_flow →
    coming c' j = if decide (j = i ∧ mc = CURLM_OK) then Flow (server i) false false true false else coming c j;
  remove_law c i j : coming (curl_multi_remove_handle c i) j = if decide (j = i) then no_flow else coming c j;
  poll_law c j : cut (coming (curl_multi_poll c).1 j) (coming c j);
  perform_law c : valid coming fst (coming c) (curl_multi_perform c);
  info_law c messages c' : curl_multi_info_read c = (messages, c') →
    NoDup messages.*1 ∧
    (∀ j, coming c' j = if decide (j ∈ messages.*1) then ended (coming c j) else coming c j) ∧
    ∀ i result, (i, result) ∈ messages →
      fl_in (coming c i) = true ∧ fl_over (coming c i) = false ∧ fl_rest (coming c i) = [] ∧
      (fl_broken (coming c i) = true → result ≠ CURLE_OK);
  pause_law c i : fl_in (coming c i) = true → valid coming id (<[i := unstuck (coming c i)]> (coming c)) (curl_easy_pause c i) }.

Section correct.
Context `{CurlLaws, Allocator, Signals, LuaIntegers, LuaStrings, LuaFields, RawLen, Authorities}.

(** ** The invariant *)

(** A transfer on the multi handle, of whose body [whole] the reads gave
    [taken]. *)
Record flowing (whole taken : bytes) (t : transfer) (f : flow) : Prop := {
  fw_prefix : (taken ++ t_body t ++ fl_rest f) `prefix_of` whole;
  fw_exact : fl_broken f = false → taken ++ t_body t ++ fl_rest f = whole;
  fw_paused : t_paused t = fl_stuck f;
  fw_full : t_paused t = true → BODY_PAUSE_THRESHOLD ≤ Z.of_nat (length (t_body t));
  fw_bound : Z.of_nat (length (t_body t)) < BODY_PAUSE_THRESHOLD + CURL_MAX_WRITE_SIZE;
  fw_room : Z.of_nat (length (t_body t)) ≤ t_body_cap t;
  fw_over : t_done t = fl_over f;
  fw_result : t_done t = true → fl_rest f = [] ∧ (fl_broken f = true → t_result t ≠ CURLE_OK) }.

(** Every transfer, with what curl holds of each. *)
Record flows (taken : tid → bytes) (g : tid → flow) (ts : gmap tid transfer) : Prop := {
  fs_known i : fl_in (g i) = true → is_Some (ts !! i);
  fs_new i : ts !! i = None → taken i = [];
  fs_prefix i : taken i `prefix_of` server i;
  fs_closed i t : ts !! i = Some t → t_closed t = negb (t_easy t);
  fs_each i t : ts !! i = Some t → fl_in (g i) = t_easy t ∧ (t_easy t = true → flowing (server i) (taken i) t (g i)) }.

Definition going (taken : tid → bytes) (h : http) : Prop := flows taken (coming (h_curl h)) (h_transfers h).

Lemma cut_in f f' : cut f' f → fl_in f' = fl_in f.
Proof. intros [->|(_ & -> & _)]; done. Qed.

Lemma flowing_cut w o t f f' : cut f' f → flowing w o t f → flowing w o t f'.
Proof.
  intros [->|(E1 & E2 & E3)] Hf; [done|]. destruct Hf as [F1 F2 F3 F4 F5 F6 F7 F8].
  rewrite E2. split; simpl; try done.
  - etrans; [|exact F1]. by do 2 apply prefix_app.
  - congruence.
  - intros Hd. congruence.
Qed.

Lemma flows_cut o g g' ts : (∀ j, cut (g' j) (g j)) → flows o g ts → flows o g' ts.
Proof.
  intros Hc [F1 F2 F3 F4 F5]. split; try done.
  - intros i Hi. apply F1. by rewrite <- (cut_in _ _ (Hc i)).
  - intros i t Ht. destruct (F5 i t Ht) as [F6 F7]. split; [by rewrite (cut_in _ _ (Hc i))|].
    intros Ht'. apply (flowing_cut _ _ _ (g i)); auto.
Qed.

Lemma flows_same o g g' ts : (∀ j, g' j = g j) → flows o g ts → flows o g' ts.
Proof. intros Hg. apply flows_cut. intros j. left. apply Hg. Qed.

(** One transfer changed, with what curl holds of it and what was given. *)
Lemma flows_put o o' g g' ts i t t' :
  flows o g ts → ts !! i = Some t →
  (∀ j, j ≠ i → g' j = g j) → (∀ j, j ≠ i → o' j = o j) →
  t_closed t' = negb (t_easy t') → fl_in (g' i) = t_easy t' → o' i `prefix_of` server i →
  (t_easy t' = true → flowing (server i) (o' i) t' (g' i)) →
  flows o' g' (<[i := t']> ts).
Proof.
  intros [F1 F2 F3 F4 F5] Ht Hg Ho E1 E2 E3 E4. split.
  - intros j Hj. destruct (decide (j = i)) as [->|Hn]; [by rewrite lookup_insert_eq|].
    rewrite lookup_insert_ne by done. apply F1. by rewrite <- Hg.
  - intros j. destruct (decide (j = i)) as [->|Hn]; [by rewrite lookup_insert_eq|].
    rewrite lookup_insert_ne by done. rewrite Ho by done. apply F2.
  - intros j. destruct (decide (j = i)) as [->|Hn]; [done|]. rewrite Ho by done. apply F3.
  - intros j u. destruct (decide (j = i)) as [->|Hn]; [rewrite lookup_insert_eq; by intros [= <-]|].
    rewrite lookup_insert_ne by done. apply F4.
  - intros j u. destruct (decide (j = i)) as [->|Hn]; [rewrite lookup_insert_eq; by intros [= <-]|].
    rewrite lookup_insert_ne by done. rewrite Hg, Ho by done. apply F5.
Qed.

(** ** The callbacks *)

Lemma want_loop_enough fuel want need : 0 < want → need ≤ want * 2 ^ Z.of_nat fuel → need ≤ want_loop fuel want need.
Proof.
  revert want. induction fuel as [|fuel IH]; intros want Hw Hn; simpl; [lia|].
  destruct (Z.ltb_spec want need); [|lia]. apply IH; [lia|].
  rewrite Nat2Z.inj_succ, Z.pow_succ_r in Hn by lia. lia.
Qed.

(** The room a piece asks for is enough. *)
Lemma want_enough cap need : 0 ≤ cap → need ≤ BODY_PAUSE_THRESHOLD + 2 * CURL_MAX_WRITE_SIZE →
  need ≤ want_loop 64 (if cap =? 0 then 16384 else cap * 2) need.
Proof.
  intros Hc Hn. assert (1 ≤ (if cap =? 0 then 16384 else cap * 2)) by (destruct (Z.eqb_spec cap 0); lia).
  apply want_loop_enough; [lia|]. etrans; [exact Hn|]. transitivity (1 * 2 ^ Z.of_nat 64); [vm_compute; congruence|].
  apply Z.mul_le_mono_nonneg_r; [apply Z.pow_nonneg; lia|done].
Qed.

(** What a piece of body does to a transfer: it is kept, or refused with a
    pause, or there was no memory for it. *)
Inductive taking (f : flow) (data rest_ : bytes) : Z → flow → Prop :=
  | taking_all : taking f data rest_ (Z.of_nat (length data)) (Flow rest_ (fl_broken f) false true false)
  | taking_none : taking f data rest_ CURL_WRITEFUNC_PAUSE (Flow (data ++ rest_) (fl_broken f) true true false)
  | taking_failed : data ≠ [] → taking f data rest_ 0 (Flow [] true false true false).

Lemma write_cb_flow w o t f asks data rest_ :
  flowing w o t f → fl_over f = false → fl_stuck f = false → fl_rest f = data ++ rest_ → Z.of_nat (length data) ≤ CURL_MAX_WRITE_SIZE →
  ∃ t' n grew f', write_cb asks t data = (t', n, grew) ∧ taking f data rest_ n f' ∧ flowing w o t' f' ∧
    t_easy t' = t_easy t ∧ t_closed t' = t_closed t.
Proof.
  intros [F1 F2 F3 F4 F5 F6 F7 F8] Ho Hs Hr Hl. unfold write_cb.
  destruct (Z.leb_spec BODY_PAUSE_THRESHOLD (Z.of_nat (length (t_body t)))) as [Hb|Hb].
  { eexists _, _, _, _. split; [done|]. split; [apply taking_none|]. rewrite Hr in F1, F2. split; [|done].
    split; simpl; try done; congruence. }
  assert (∀ cap, Z.of_nat (length (t_body t)) + Z.of_nat (length data) ≤ cap →
    flowing w o (with_ready (t_headed t) (with_body (t_body t ++ data) cap t)) (Flow rest_ (fl_broken f) false true false)) as Happ.
  { intros cap Hc. rewrite Hr in F1, F2. split; simpl; rewrite ?length_app, <- ?app_assoc; try done; try congruence; try lia. }
  destruct (Z.ltb_spec (t_body_cap t) (Z.of_nat (length (t_body t)) + Z.of_nat (length data))) as [Hc|Hc].
  - destruct (refused asks).
    + destruct (decide (data = [])) as [->|Hd].
      * eexists _, _, _, _. split; [done|]. split; [apply taking_all|]. split; [|done].
        split; simpl in *; rewrite ?Hr in *; simpl in *; try done; try congruence.
      * eexists _, _, _, _. split; [done|]. split; [by apply taking_failed|]. split; [|done].
        split; simpl; try done; try congruence.
        rewrite app_nil_r. etrans; [|exact F1]. rewrite app_assoc. by apply prefix_app_r.
    + eexists _, _, _, _. split; [done|]. split; [apply taking_all|]. split; [|done].
      apply Happ, want_enough; [lia|]. lia.
  - eexists _, _, _, _. split; [done|]. split; [apply taking_all|]. split; [|done]. by apply Happ.
Qed.

Lemma header_cb_flow w o t f c i line t' n : flowing w o t f → header_cb c i t line = (t', n) →
  flowing w o t' f ∧ n = Z.of_nat (length line) ∧ t_easy t' = t_easy t ∧ t_closed t' = t_closed t.
Proof.
  intros [F1 F2 F3 F4 F5 F6 F7 F8]. unfold header_cb. repeat case_match; intros [= <- <-]; (split; [split; simpl; done|done]).
Qed.

Lemma put_flow (g : tid → flow) i f j : j ≠ i → (<[i := f]> g) j = g j.
Proof. intros Hj. by apply fn_lookup_insert_ne. Qed.

Lemma flowing_notes w o t f n : flowing w o t f → flowing w o (with_notes n t) f.
Proof. intros [F1 F2 F3 F4 F5 F6 F7 F8]. by split. Qed.

Lemma verify_cb_flows o g i crt depth h flags h' :
  flows o g (h_transfers h) → verify_cb i crt depth h = (flags, h') → flows o g (h_transfers h') ∧ h_signals h' = h_signals h.
Proof.
  intros Hf. unfold verify_cb. destruct (cosmic_tls_distrust _ _ _ _ _) as [[fl root] n].
  destruct (h_transfers h !! i) as [t|] eqn:Ht; [|by intros [= _ <-]]. destruct n as [n|]; intros [= _ <-]; [|done].
  split; [|done]. simpl. destruct (fs_each _ _ _ Hf _ _ Ht) as [E1 E2].
  eapply flows_put; [exact Hf|exact Ht|done|done|exact (fs_closed _ _ _ Hf i t Ht)|exact E1|by apply Hf|].
  intros He. by apply flowing_notes, E2.
Qed.

(** Every call back is answered, and keeps the invariant. *)
Lemma called_going {A} (state : A → curl) o (r : callbacks curl A) g h :
  valid coming state g r → flows o g (h_transfers h) →
  ∃ a h', called r h = Some (a, h') ∧ flows o (coming (state a)) (h_transfers h') ∧ h_signals h' = h_signals h ∧
    ∀ j, fl_in (coming (state a) j) = fl_in (g j).
Proof.
  revert g h. induction r as [a|c i line k IH|c i data k IH|i crt depth k IH]; intros g h Hv Hf; simpl in *.
  - eexists _, _. split; [done|]. split; [apply (flows_cut _ _ _ _ Hv Hf)|]. split; [done|].
    intros j. apply cut_in, Hv.
  - destruct Hv as [Hin Hv]. destruct (fs_known _ _ _ Hf _ Hin) as [t Ht]. rewrite Ht.
    destruct (header_cb c i t line) as [t' n] eqn:E. destruct (fs_each _ _ _ Hf _ _ Ht) as [E1 E2].
    rewrite Hin in E1. destruct (header_cb_flow _ _ _ _ _ _ _ _ _ (E2 (eq_sym E1)) E) as (E3 & -> & E4 & E5).
    apply (IH _ g (put_transfer i t' h)); [done|]. simpl.
    eapply flows_put; [exact Hf|exact Ht|done|done| | | |].
    + rewrite E4, E5. by apply (fs_closed _ _ _ Hf i).
    + congruence.
    + by apply Hf.
    + done.
  - destruct Hv as (rest_ & Hin & Ho & Hs & Hr & Hl & Hv1 & Hv2 & Hv3). destruct (fs_known _ _ _ Hf _ Hin) as [t Ht]. rewrite Ht.
    destruct (fs_each _ _ _ Hf _ _ Ht) as [E1 E2]. rewrite Hin in E1.
    destruct (write_cb_flow _ _ _ _ (h_asks h) data rest_ (E2 (eq_sym E1)) Ho Hs Hr Hl) as (t' & n & grew & f' & -> & Htk & E3 & E4 & E5).
    edestruct (IH n (<[i := f']> g) (put_transfer i t' (if grew then asked h else h))) as (a & h' & E6 & E7 & E8 & E9).
    + inversion Htk; subst; auto.
    + assert (h_transfers (if grew then asked h else h) = h_transfers h) as Eh by by destruct grew. simpl. rewrite Eh.
      eapply flows_put; [exact Hf|exact Ht| |done| | | |].
      * intros j Hj. by apply put_flow.
      * rewrite E4, E5. by apply (fs_closed _ _ _ Hf i).
      * rewrite fn_lookup_insert. inversion Htk; subst; simpl; congruence.
      * by apply Hf.
      * intros _. by rewrite fn_lookup_insert.
    + exists a, h'. split; [done|]. split; [done|]. split; [rewrite E8; by destruct grew|].
      intros j. rewrite E9. destruct (decide (j = i)) as [->|Hj]; [|by rewrite put_flow].
      rewrite fn_lookup_insert. inversion Htk; subst; simpl; congruence.
  - destruct (verify_cb i crt depth h) as [flags h1] eqn:E. destruct (verify_cb_flows _ _ _ _ _ _ _ _ Hf E) as [E1 <-].
    by apply (IH flags g h1).
Qed.

(** ** The pump *)

Lemma finish_all_going o messages g h :
  NoDup messages.*1 → flows o g (h_transfers h) →
  (∀ i result, (i, result) ∈ messages →
    fl_in (g i) = true ∧ fl_over (g i) = false ∧ fl_rest (g i) = [] ∧ (fl_broken (g i) = true → result ≠ CURLE_OK)) →
  ∃ h', finish_all messages h = Some h' ∧ h_curl h' = h_curl h ∧ h_signals h' = h_signals h ∧
    flows o (λ j, if decide (j ∈ messages.*1) then ended (g j) else g j) (h_transfers h').
Proof.
  revert g h. induction messages as [|[i result] messages IH]; intros g h Hd Hf Hm; simpl in *.
  - exists h. split; [done|]. split; [done|]. split; [done|]. by apply (flows_same _ g).
  - apply NoDup_cons in Hd as [Hi Hd]. destruct (Hm i result ltac:(apply list_elem_of_here)) as (M1 & M2 & M3 & M4).
    destruct (fs_known _ _ _ Hf _ M1) as [t Ht]. rewrite Ht. simpl.
    destruct (fs_each _ _ _ Hf _ _ Ht) as [E1 E2]. rewrite M1 in E1. destruct (E2 (eq_sym E1)) as [F1 F2 F3 F4 F5 F6 F7 F8].
    destruct (IH (<[i := ended (g i)]> g) (put_transfer i (with_done result t) h)) as (h' & E3 & E4 & E5 & E6).
    + done.
    + eapply flows_put; [exact Hf|exact Ht| |done| | | |].
      * intros j Hj. by apply put_flow.
      * exact (fs_closed _ _ _ Hf i t Ht).
      * rewrite fn_lookup_insert. simpl. congruence.
      * by apply Hf.
      * intros _. rewrite fn_lookup_insert. split; simpl; done.
    + intros j result' Hj. assert (j ≠ i) as Hn.
      { intros ->. apply Hi. apply list_elem_of_fmap. by exists (i, result'). }
      rewrite put_flow by done. apply Hm. by apply list_elem_of_further.
    + exists h'. split; [done|]. split; [done|]. split; [done|]. revert E6. apply flows_same. intros j.
      destruct (decide (j = i)) as [->|Hn].
      * rewrite decide_True by apply list_elem_of_here. rewrite decide_False by done. by rewrite fn_lookup_insert.
      * rewrite put_flow by done. apply decide_ext. rewrite elem_of_cons. clear -Hn. tauto.
Qed.

Definition same_in (h h' : http) : Prop := ∀ j, fl_in (coming (h_curl h') j) = fl_in (coming (h_curl h) j).

(** A turn of the pump is always made, and keeps the invariant. *)
Lemma pump_once_going o h : going o h →
  ∃ h' why, pump_once h = Some (h', why) ∧ going o h' ∧ h_signals h' = h_signals h ∧ same_in h h'.
Proof.
  intros Hg. unfold pump_once. pose proof (poll_law (h_curl h)) as Hp. destruct (curl_multi_poll (h_curl h)) as [c mc]. simpl in Hp.
  assert (flows o (coming c) (h_transfers h)) as Hc by (by apply (flows_cut _ _ _ _ Hp)).
  assert (same_in h (put_curl c h)) as Hi by (intros j; by apply cut_in).
  destruct (negb (mc =? CURLM_OK)); [by eexists _, _|].
  destruct (called_going fst o (curl_multi_perform c) (coming c) (put_curl c h) (perform_law c) Hc) as ([c1 mc1] & h1 & E1 & E2 & E3 & E4).
  rewrite E1. simpl in *. assert (same_in h (put_curl c1 h1)) as Hi1.
  { intros j. etrans; [apply E4|apply Hi]. }
  destruct (negb (mc1 =? CURLM_OK)); [by eexists _, _|].
  destruct (curl_multi_info_read c1) as [messages c2] eqn:E5. destruct (info_law _ _ _ E5) as (L1 & L2 & L3).
  destruct (finish_all_going o messages (coming c1) (put_curl c2 (put_curl c1 h1)) L1 E2 L3) as (h2 & E6 & E7 & E8 & E9).
  rewrite E6. simpl in *. eexists _, _. split; [done|]. split; [|split].
  - unfold going. rewrite E7. apply (flows_same _ _ _ _ L2 E9).
  - congruence.
  - intros j. rewrite E7, L2. etrans; [|apply Hi1]. by destruct (decide (j ∈ messages.*1)).
Qed.

Lemma looked_going o h : going o h → going o (looked h).
Proof. done. Qed.

Lemma unpaused_same t : t_paused t = false → with_paused false t = t.
Proof. destruct t. unfold with_paused. simpl. by intros ->. Qed.

(** A transfer resumed, whose flag may be set with little unread. *)
Lemma resume_going o i t h :
  h_transfers h !! i = Some t → t_easy t = true → t_paused t = fl_stuck (coming (h_curl h) i) → fl_in (coming (h_curl h) i) = true →
  flows o (<[i := unstuck (coming (h_curl h) i)]> (coming (h_curl h))) (<[i := with_paused false t]> (h_transfers h)) →
  ∃ h', resume i h = Some h' ∧ going o h' ∧ h_signals h' = h_signals h ∧ same_in h h'.
Proof.
  intros Ht He Hp Hi Hf. unfold resume. rewrite Ht. simpl. rewrite He. destruct (t_paused t) eqn:Et; simpl.
  - destruct (called_going id o (curl_easy_pause (h_curl h) i) _ (put_transfer i (with_paused false t) h) (pause_law _ _ Hi) Hf)
      as (c & h' & E1 & E2 & E3 & E4).
    rewrite E1. simpl. eexists. split; [done|]. split; [done|]. split; [done|]. intros j. simpl. etrans; [apply E4|].
    destruct (decide (j = i)) as [->|Hj]; [by rewrite fn_lookup_insert|by rewrite put_flow].
  - exists h. split; [done|]. split; [|done]. unfold going. rewrite <- (insert_id (h_transfers h) i t Ht).
    rewrite (unpaused_same _ Et) in Hf.
    revert Hf. apply flows_same. intros j. destruct (decide (j = i)) as [->|Hj]; [|by rewrite put_flow].
    rewrite fn_lookup_insert. unfold unstuck. rewrite Hp. by destruct (coming (h_curl h) i).
Qed.

(** ** Reads *)

Definition alive (i : tid) (h : http) : Prop := fl_in (coming (h_curl h) i) = true.

Lemma alive_look o i h : going o h → alive i h →
  ∃ t, h_transfers h !! i = Some t ∧ t_easy t = true ∧ t_closed t = false ∧ flowing (server i) (o i) t (coming (h_curl h) i).
Proof.
  intros Hg Ha. destruct (fs_known _ _ _ Hg _ Ha) as [t Ht]. destruct (fs_each _ _ _ Hg _ _ Ht) as [E1 E2].
  unfold alive in Ha. rewrite Ha in E1. exists t. split; [done|]. split; [done|]. split; [|auto].
  by rewrite (fs_closed _ _ _ Hg _ _ Ht), <- E1.
Qed.

(** A handle that is not closed is on the multi handle. *)
Lemma open_alive o i t h : going o h → h_transfers h !! i = Some t → t_closed t = false → alive i h.
Proof.
  intros Hg Ht Hc. pose proof (fs_closed _ _ _ Hg _ _ Ht) as E. destruct (fs_each _ _ _ Hg _ _ Ht) as [E1 _].
  unfold alive. rewrite E1. rewrite Hc in E. by destruct (t_easy t).
Qed.

Definition more (i : tid) (b : bytes) (o : tid → bytes) : tid → bytes := λ j, if decide (j = i) then o i ++ b else o j.

Lemma more_nothing o i h : going o h → going (more i [] o) h.
Proof.
  assert (∀ j, more i [] o j = o j) as E by (intros j; unfold more; case_decide; subst; by rewrite ?app_nil_r).
  intros [F1 F2 F3 F4 F5]. split; try done.
  - intros j. rewrite E. apply F2.
  - intros j. rewrite E. apply F3.
  - intros j. rewrite E. apply F5.
Qed.

(** [n] bytes taken of a transfer that is resumed where less than the
    threshold is left. *)
Lemma take_going o i t n h :
  going o h → h_transfers h !! i = Some t → alive i h →
  let t' := with_body (drop n (t_body t)) (t_body_cap t) t in
  ∃ h', (if Z.of_nat (length (drop n (t_body t))) <? BODY_PAUSE_THRESHOLD then resume i (put_transfer i t' h) else Some (put_transfer i t' h)) = Some h' ∧
    going (more i (take n (t_body t)) o) h' ∧ h_signals h' = h_signals h ∧ same_in h h'.
Proof.
  intros Hg Ht Ha t'. destruct (alive_look _ _ _ Hg Ha) as (u & Hu & E1 & E2 & [F1 F2 F3 F4 F5 F6 F7 F8]).
  simplify_eq. assert (more i (take n (t_body t)) o i = o i ++ take n (t_body t)) as Ei by (unfold more; by rewrite decide_True).
  assert (∀ j, j ≠ i → more i (take n (t_body t)) o j = o j) as Ej by (intros j Hj; unfold more; by rewrite decide_False).
  assert ((o i ++ take n (t_body t)) ++ drop n (t_body t) ++ fl_rest (coming (h_curl h) i) = o i ++ t_body t ++ fl_rest (coming (h_curl h) i)) as Eb.
  { rewrite <- app_assoc. f_equal. by rewrite app_assoc, take_drop. }
  assert (length (drop n (t_body t)) ≤ length (t_body t))%nat as Hl by (rewrite length_drop; lia).
  assert ((o i ++ take n (t_body t)) `prefix_of` server i) as Hp.
  { etrans; [|exact F1]. rewrite <- Eb. by apply prefix_app_r. }
  assert (∀ p f, p = fl_stuck f → fl_rest f = fl_rest (coming (h_curl h) i) → fl_broken f = fl_broken (coming (h_curl h) i) →
    fl_over f = fl_over (coming (h_curl h) i) → (p = true → BODY_PAUSE_THRESHOLD ≤ Z.of_nat (length (drop n (t_body t)))) →
    flowing (server i) (more i (take n (t_body t)) o i) (with_paused p t') f) as Hfl.
  { intros p f P1 P2 P3 P4 P5. rewrite Ei. split; simpl; rewrite ?P2, ?P3, ?Eb; try done; try lia. congruence. }
  destruct (Z.ltb_spec (Z.of_nat (length (drop n (t_body t)))) BODY_PAUSE_THRESHOLD) as [Hb|Hb].
  - apply (resume_going _ i t' (put_transfer i t' h)); simpl; [by rewrite lookup_insert_eq|done|done|done|].
    rewrite insert_insert_eq. eapply flows_put; [exact Hg|exact Ht| | | | | |].
    + intros j Hj. by apply put_flow.
    + exact Ej.
    + simpl. by rewrite E1, E2.
    + rewrite fn_lookup_insert. simpl. rewrite E1. exact Ha.
    + by rewrite Ei.
    + intros _. rewrite fn_lookup_insert. by apply Hfl.
  - eexists. split; [done|]. split; [|done]. unfold going. simpl. eapply flows_put; [exact Hg|exact Ht|done|exact Ej| | | |].
    + simpl. by rewrite E1, E2.
    + simpl. by rewrite E1.
    + by rewrite Ei.
    + intros _. replace t' with (with_paused (t_paused t) t') by (by destruct t). by apply Hfl.
Qed.

Lemma resume_alive o i h : going o h → alive i h →
  ∃ h', resume i h = Some h' ∧ going o h' ∧ h_signals h' = h_signals h ∧ same_in h h'.
Proof.
  intros Hg Ha. destruct (alive_look _ _ _ Hg Ha) as (t & Ht & E1 & E2 & [F1 F2 F3 F4 F5 F6 F7 F8]).
  apply (resume_going _ i t); try done. eapply flows_put; [exact Hg|exact Ht| |done| | | |].
  - intros j Hj. by apply put_flow.
  - simpl. by rewrite E1, E2.
  - rewrite fn_lookup_insert. simpl. by rewrite E1.
  - by apply Hg.
  - intros _. rewrite fn_lookup_insert. by split.
Qed.

Lemma same_in_trans h1 h2 h3 : same_in h1 h2 → same_in h2 h3 → same_in h1 h3.
Proof. intros E1 E2 j. by rewrite E2. Qed.

Lemma same_in_alive i h h' : same_in h h' → alive i h → alive i h'.
Proof. intros E. unfold alive. by rewrite E. Qed.

(** What the wait ends with. *)
Lemma read_wait_going o fuel i h h' why :
  going o h → alive i h → read_wait fuel i h = Some (h', why) →
  going o h' ∧ same_in h h' ∧
  (why = None → ∃ t, h_transfers h' !! i = Some t ∧ (t_body t = [] → t_done t = true)).
Proof.
  revert h. induction fuel as [|fuel IH]; intros h Hg Ha; simpl; [done|].
  destruct (alive_look _ _ _ Hg Ha) as (t & Ht & _). rewrite Ht. simpl.
  destruct (bool_decide (t_body t = []) && negb (t_done t)) eqn:E.
  - destruct (cosmic_signal_caught (h_signals h)); [by intros [= <- <-]|].
    destruct (pump_once_going o (looked h) Hg) as (h1 & why1 & E1 & E2 & E3 & E4). rewrite E1. simpl.
    destruct why1 as [why1|]; [by intros [= <- <-]|]. intros Hr.
    destruct (IH h1 E2 (same_in_alive _ _ _ E4 Ha) Hr) as (E5 & E6 & E7). split; [done|]. split; [|done].
    by apply (same_in_trans _ h1).
  - intros [= <- <-]. split; [done|]. split; [done|]. intros _. exists t. split; [done|]. intros Hb.
    rewrite bool_decide_eq_true_2 in E by done. by destruct (t_done t).
Qed.

(** A signal caught ends it. *)
Lemma read_wait_ends o fuel n i h :
  going o h → alive i h → (n < fuel)%nat → cosmic_signal_caught (h_signals h + n) = true → is_Some (read_wait fuel i h).
Proof.
  revert n h. induction fuel as [|fuel IH]; intros n h Hg Ha Hn Hs; [lia|]. simpl.
  destruct (alive_look _ _ _ Hg Ha) as (t & Ht & _). rewrite Ht. simpl.
  destruct (bool_decide (t_body t = []) && negb (t_done t)); [|by eexists].
  destruct (cosmic_signal_caught (h_signals h)) eqn:Ec; [by eexists|].
  destruct (pump_once_going o (looked h) Hg) as (h1 & why1 & E1 & E2 & E3 & E4). rewrite E1. simpl.
  destruct why1 as [why1|]; [by eexists|]. destruct n as [|n]; [rewrite Nat.add_0_r in Hs; congruence|].
  apply (IH n); [done|by apply (same_in_alive _ _ _ E4)|lia|]. rewrite E3. rewrite Nat.add_succ_r in Hs. exact Hs.
Qed.

Definition chunk (a : answer (option bytes)) : bytes := match a with Answers (Some b) => b | _ => [] end.

(** A read of part of the buffer. *)
Lemma read_take_going o max_bytes i t h :
  going o h → h_transfers h !! i = Some t → alive i h → 0 < max_bytes → t_body t ≠ [] →
  ∃ h' b, read_take max_bytes i h = Some (h', Answers (Some b)) ∧ b ≠ [] ∧ Z.of_nat (length b) ≤ max_bytes ∧
    going (more i b o) h' ∧ same_in h h'.
Proof.
  intros Hg Ht Ha Hm Hb. unfold read_take. rewrite Ht. simpl.
  set (n := Z.to_nat (if max_bytes <? Z.of_nat (length (t_body t)) then max_bytes else Z.of_nat (length (t_body t)))).
  assert (0 < length (t_body t))%nat as Hl by (destruct (t_body t); [done|simpl; lia]).
  assert ((1 ≤ n ≤ length (t_body t))%nat ∧ Z.of_nat n ≤ max_bytes) as [Hn Hn'].
  { unfold n. destruct (Z.ltb_spec max_bytes (Z.of_nat (length (t_body t)))); lia. }
  destruct (take_going o i t n h Hg Ht Ha) as (h' & E1 & E2 & E3 & E4). cbv zeta in E1. rewrite E1. simpl.
  exists h', (take n (t_body t)). split; [done|]. split; [|split; [rewrite length_take; lia|done]].
  intros E. apply (f_equal length) in E. rewrite length_take in E. simpl in E. lia.
Qed.

(** What a read answers: a chunk that is the next of the body, its end, why
    there is none, or a misuse. *)
Definition answered (o : tid → bytes) (max : lua_value) (i : tid) (a : answer (option bytes)) : Prop :=
  match a with
  | Answers (Some b) => b ≠ [] ∧ ∃ max_bytes, Lua.opt_integer max 65536 = Some max_bytes ∧ Z.of_nat (length b) ≤ max_bytes
  | Answers None => o i = server i
  | _ => True
  end.

Lemma read_take_answered o max max_bytes i t h h' a :
  going o h → h_transfers h !! i = Some t → alive i h → Lua.opt_integer max 65536 = Some max_bytes → 0 < max_bytes → t_body t ≠ [] →
  read_take max_bytes i h = Some (h', a) → going (more i (chunk a) o) h' ∧ answered o max i a ∧ same_in h h'.
Proof.
  intros Hg Ht Ha Ho Hm Hb. destruct (read_take_going _ _ _ _ _ Hg Ht Ha Hm Hb) as (h1 & b & -> & E1 & E2 & E3 & E4).
  intros [= <- <-]. split; [done|]. split; [|done]. split; [done|]. by exists max_bytes.
Qed.

Lemma handle_read_going o fuel max i h h' a :
  going o h → handle_read fuel max i h = Some (h', a) → going (more i (chunk a) o) h' ∧ answered o max i a ∧ same_in h h'.
Proof.
  intros Hg. unfold handle_read. destruct (h_transfers h !! i) as [t|] eqn:Ht; simpl; [|done].
  assert (∀ w, Some (h, Raises w) = Some (h', a) → going (more i (chunk a) o) h' ∧ answered o max i a ∧ same_in h h') as Hr.
  { intros w [= <- <-]. split; [by apply more_nothing|done]. }
  destruct (t_closed t) eqn:Hc; [apply Hr|]. destruct (Lua.opt_integer max 65536) as [max_bytes|] eqn:Ho; [|apply Hr].
  destruct (Z.leb_spec max_bytes 0) as [Hm|Hm]; [apply Hr|]. clear Hr.
  pose proof (open_alive _ _ _ _ Hg Ht Hc) as Ha.
  destruct (bool_decide (t_body t = [])) eqn:Hb.
  - destruct (resume_alive _ _ _ Hg Ha) as (h1 & -> & G1 & _ & S1). simpl.
    pose proof (same_in_alive _ _ _ S1 Ha) as A1.
    destruct (read_wait fuel i h1) as [[h2 why]|] eqn:Hw; simpl; [|done].
    destruct (read_wait_going _ _ _ _ _ _ G1 A1 Hw) as (G2 & S2 & W).
    pose proof (same_in_trans _ _ _ S1 S2) as S12. pose proof (same_in_alive _ _ _ S2 A1) as A2.
    destruct why as [why|]; [intros [= <- <-]; split; [by apply more_nothing|done]|].
    destruct (W eq_refl) as (u & Hu & Hd). rewrite Hu. simpl. destruct (bool_decide (u.(t_body) = [])) eqn:Hub.
    + apply bool_decide_eq_true in Hub. destruct (alive_look _ _ _ G2 A2) as (u' & Hu' & _ & _ & [F1 F2 F3 F4 F5 F6 F7 F8]).
      simplify_eq. destruct (F8 (Hd Hub)) as [F9 F10].
      destruct (Z.eqb_spec (t_result u) CURLE_OK) as [Hok|Hok]; simpl; intros [= <- <-].
      * split; [by apply more_nothing|]. split; [|done]. simpl. rewrite <- F2; [by rewrite Hub, F9, !app_nil_r|].
        destruct (fl_broken (coming (h_curl h2) i)); [|done]. by destruct (F10 eq_refl).
      * split; [by apply more_nothing|done].
    + intros Hr. apply bool_decide_eq_false in Hub.
      destruct (read_take_answered _ _ _ _ _ _ _ _ G2 Hu A2 Ho Hm Hub Hr) as (R1 & R2 & R3). split; [done|]. split; [done|].
      by apply (same_in_trans _ h2).
  - apply bool_decide_eq_false in Hb. by apply (read_take_answered _ _ max_bytes _ t).
Qed.

(** A signal caught ends a read. *)
Lemma handle_read_ends o fuel n max i t h :
  going o h → h_transfers h !! i = Some t → (n < fuel)%nat → cosmic_signal_caught (h_signals h + n) = true → is_Some (handle_read fuel max i h).
Proof.
  intros Hg Ht Hn Hs. unfold handle_read. rewrite Ht. simpl. destruct (t_closed t) eqn:Hc; [by eexists|].
  destruct (Lua.opt_integer max 65536) as [max_bytes|]; [|by eexists]. destruct (Z.leb_spec max_bytes 0) as [Hm|Hm]; [by eexists|].
  pose proof (open_alive _ _ _ _ Hg Ht Hc) as Ha. destruct (bool_decide (t_body t = [])) eqn:Hb.
  - destruct (resume_alive _ _ _ Hg Ha) as (h1 & -> & G1 & E & S1). simpl. pose proof (same_in_alive _ _ _ S1 Ha) as A1.
    rewrite <- E in Hs. destruct (read_wait_ends _ _ _ _ _ G1 A1 Hn Hs) as [[h2 why] Hw]. rewrite Hw. simpl.
    destruct why as [why|]; [by eexists|]. destruct (read_wait_going _ _ _ _ _ _ G1 A1 Hw) as (G2 & S2 & W).
    destruct (W eq_refl) as (u & Hu & _). rewrite Hu. simpl. destruct (bool_decide (t_body u = [])) eqn:Hub; [by eexists|].
    apply bool_decide_eq_false in Hub.
    destruct (read_take_going _ _ _ _ _ G2 Hu (same_in_alive _ _ _ S2 A1) Hm Hub) as (h3 & b & -> & _). by eexists.
  - apply bool_decide_eq_false in Hb. destruct (read_take_going _ _ _ _ _ Hg Ht Ha Hm Hb) as (h3 & b & -> & _). by eexists.
Qed.

End correct.
