(* ===== verification/HttpTheorems.v ===== *)
(** * Every run of transfers

    Opens, reads and closes in any order and of any number of transfers: each
    one's reads give its body in order, the end is answered only at its end,
    backpressure is kept, and a signal ends whatever waits. *)

From stdpp Require Import functions.

From S2P Require Import Prelude.
From S2P Require Import Lua.
From S2P Require Import HttpTrust.
From S2P Require Import Http.
From S2P Require Import HttpCorrect.

Local Open Scope Z_scope.

(** The reads of a run, each with its handle and what it answered. *)
Abbreviation reads := (list (tid * answer (option bytes))).

Section runs.
Context `{CurlLaws, Allocator, Signals, LuaIntegers, LuaStrings, LuaFields, RawLen, Authorities}.

(** ** Closing *)

Lemma transfer_release_going o i t h :
  going o h → h_transfers h !! i = Some t → going o (transfer_release i t h).
Proof.
  intros Hg Ht. destruct (fs_each _ _ _ Hg _ _ Ht) as [E1 _]. unfold transfer_release, going.
  destruct (t_easy t) eqn:Et; simpl; (eapply flows_put; [exact Hg|exact Ht| |done|done| |by apply Hg|done]).
  - intros j Hj. by rewrite remove_law, decide_False.
  - simpl. by rewrite remove_law, decide_True.
  - done.
  - exact E1.
Qed.

(** ** Opening *)

(** A handle being opened, beside the transfers there are. *)
Definition apart (o : tid → bytes) (i : tid) (h : http) : Prop :=
  flows o (coming (h_curl h)) (delete i (h_transfers h)) ∧
  ∃ t, h_transfers h !! i = Some t ∧ t_closed t = false ∧ (t_easy t = false → fl_in (coming (h_curl h) i) = false).

(** One that curl knows and the multi handle does not. *)
Definition blank (t : transfer) : Prop :=
  t_easy t = true ∧ t_closed t = false ∧ t_body t = [] ∧ t_body_cap t = 0 ∧ t_paused t = false ∧ t_done t = false.
Definition begun (o : tid → bytes) (i : tid) (h : http) : Prop :=
  flows o (coming (h_curl h)) (delete i (h_transfers h)) ∧
  (∃ t, h_transfers h !! i = Some t ∧ blank t) ∧ coming (h_curl h) i = no_flow.

Lemma begun_apart o i h : begun o i h → apart o i h.
Proof. intros (B1 & (t & B2 & B3 & B4 & _) & B5). split; [done|]. exists t. split; [done|]. split; [done|]. congruence. Qed.

(** The transfer put back among the others. *)
Lemma flows_join o g g' ts i t :
  flows o g (delete i ts) → (∀ j, j ≠ i → g' j = g j) → t_closed t = negb (t_easy t) → fl_in (g' i) = t_easy t →
  (t_easy t = true → flowing (server i) [] t (g' i)) → flows o g' (<[i := t]> ts).
Proof.
  intros [F1 F2 F3 F4 F5] Hg E1 E2 E3. assert (o i = []) as Eo by (apply F2, lookup_delete_eq). split.
  - intros j Hj. destruct (decide (j = i)) as [->|Hn]; [by rewrite lookup_insert_eq|]. rewrite lookup_insert_ne by done.
    rewrite Hg in Hj by done. destruct (F1 _ Hj) as [u Hu]. rewrite lookup_delete_ne in Hu by done. by exists u.
  - intros j. destruct (decide (j = i)) as [->|Hn]; [by rewrite lookup_insert_eq|]. rewrite lookup_insert_ne by done.
    intros Hu. apply F2. by rewrite lookup_delete_ne.
  - done.
  - intros j u. destruct (decide (j = i)) as [->|Hn]; [rewrite lookup_insert_eq; by intros [= <-]|]. rewrite lookup_insert_ne by done.
    intros Hu. apply (F4 j). by rewrite lookup_delete_ne.
  - intros j u. destruct (decide (j = i)) as [->|Hn]; [rewrite lookup_insert_eq, Eo; by intros [= <-]|]. rewrite lookup_insert_ne by done.
    intros Hu. rewrite Hg by done. apply F5. by rewrite lookup_delete_ne.
Qed.

Lemma drop_apart o i h : apart o i h → going o (drop_transfer i h).
Proof.
  intros (B1 & t & B2 & B3 & B4). unfold drop_transfer. rewrite B2. unfold transfer_release, going.
  destruct (t_easy t) eqn:Et; simpl; (eapply flows_join; [exact B1| |done| |done]).
  - intros j Hj. by rewrite remove_law, decide_False.
  - simpl. by rewrite remove_law, decide_True.
  - done.
  - by apply B4.
Qed.

Lemma drop_going o i h : going o h → going o (drop_transfer i h).
Proof. intros Hg. unfold drop_transfer. destruct (h_transfers h !! i) as [t|] eqn:Ht; [by apply transfer_release_going|done]. Qed.

Lemma begun_curl o i h c : begun o i h → (∀ j, coming c j = coming (h_curl h) j) → begun o i (put_curl c h).
Proof.
  intros (B1 & B2 & B3) Hc. split; [by apply (flows_same _ _ _ _ Hc)|]. split; [done|]. simpl. by rewrite Hc.
Qed.

Lemma begun_put o i h t : begun o i h → blank t → begun o i (put_transfer i t h).
Proof.
  intros (B1 & B2 & B3) Ht. split; [simpl; by rewrite delete_insert_eq|]. split; [|done]. exists t. split; [apply lookup_insert_eq|done].
Qed.

Lemma set_all_coming i l c c' why : set_all i l c = (c', why) → ∀ j, coming c' j = coming c j.
Proof.
  revert c. induction l as [|[name value] l IH]; intros c; simpl; [by intros [= <- <-]|].
  destruct (curl_easy_setopt c i name value) as [c1 rc] eqn:E. pose proof (λ j, setopt_law c i name value j) as L. rewrite E in L. simpl in L.
  destruct (rc =? CURLE_OK); [|by intros [= <- <-]]. intros Hs j. by rewrite (IH _ Hs).
Qed.

(** Options set on a handle being opened. *)
Lemma begun_set o i l h c why : begun o i h → set_all i l (h_curl h) = (c, why) → begun o i (put_curl c h).
Proof. intros Hb Hs. apply begun_curl; [done|]. by apply (set_all_coming i l _ _ why). Qed.

(** Added to the multi handle, the transfer runs. *)
Lemma begun_added o i h c mc : begun o i h → curl_multi_add_handle (h_curl h) i = (c, mc) →
  if mc =? CURLM_OK then going o (put_curl c h) ∧ alive i (put_curl c h) else apart o i (put_curl c h).
Proof.
  intros Hb Ha. pose proof Hb as (B1 & (t & B2 & T1 & T2 & T3 & T4 & T5 & T6) & B3).
  pose proof (λ j, add_law _ _ _ _ j Ha B3) as L. destruct (Z.eqb_spec mc CURLM_OK) as [Hm|Hm].
  - assert (coming c i = Flow (server i) false false true false) as Ei by (rewrite L, decide_True; done).
    assert (going o (put_curl c h)) as Hg; [|split; [done|unfold alive; simpl; by rewrite Ei]].
    unfold going. simpl. rewrite <- (insert_id (h_transfers h) i t B2). eapply flows_join; [exact B1| | | |].
    + intros j Hj. rewrite L, decide_False; [done|]. intros [? _]. done.
    + by rewrite T1, T2.
    + by rewrite Ei, T1.
    + intros _. rewrite Ei. split; simpl; rewrite ?T3, ?T4, ?T5, ?T6; done.
  - apply begun_apart, begun_curl; [done|]. intros j. rewrite L, decide_False; [done|]. by intros [_ ?].
Qed.

Lemma new_apart o i h : going o h → h_transfers h !! i = None → apart o i (put_transfer i new_transfer h).
Proof.
  intros Hg Hn. split; [simpl; rewrite delete_insert_id by done; exact Hg|].
  exists new_transfer. split; [apply lookup_insert_eq|]. split; [done|]. intros _. simpl.
  destruct (fl_in (coming (h_curl h) i)) eqn:E; [|done]. destruct (fs_known _ _ _ Hg _ E) as [t Ht]. congruence.
Qed.

(** curl's handle made for a transfer. *)
Lemma apart_init o i h c t : apart o i h → curl_easy_init (h_curl h) i = Some c → h_transfers h !! i = Some new_transfer →
  blank t → begun o i (put_transfer i t (put_curl c h)).
Proof.
  intros (A1 & u & A2 & _ & A3) Hi Hn Ht. simplify_eq. pose proof (λ j, init_law _ _ _ j Hi (A3 eq_refl)) as L.
  split; [|split; [|simpl; by rewrite L, decide_True]].
  - simpl. rewrite delete_insert_eq. destruct A1 as [F1 F2 F3 F4 F5]. split; try done.
    + intros j. rewrite L. case_decide; [done|]. apply F1.
    + intros j w Hw. rewrite L. case_decide as Hj; [subst; by rewrite lookup_delete_eq in Hw|by apply F5].
  - exists t. split; [apply lookup_insert_eq|done].
Qed.

(** Where [prepare] fails the handle is still apart; else the transfer runs. *)
Lemma prepare_going o i r h h' why :
  going o h → h_transfers h !! i = None → prepare i r (put_transfer i new_transfer h) = (h', why) →
  match why with Some _ => apart o i h' | None => going o h' ∧ alive i h' end.
Proof.
  intros Hg Hn. pose proof (new_apart _ _ _ Hg Hn) as Ha. unfold prepare.
  destruct (curl_easy_init (h_curl (put_transfer i new_transfer h)) i) as [c0|] eqn:Hi; [|by intros [= <- <-]].
  set (t0 := with_choice _ _ _). set (h0 := put_transfer i t0 (put_curl c0 _)).
  assert (begun o i h0) as B0 by (apply apart_init; [done|done|apply lookup_insert_eq|done]).
  destruct (set_all i (configure r) (h_curl h0)) as [c1 w1] eqn:E1. pose proof (begun_set _ _ _ _ _ _ B0 E1) as B1.
  destruct w1 as [w1|]; [intros [= <- <-]; by apply begun_apart|].
  destruct (headers_build _ _ _) as [[lines asks] w2].
  set (h2 := with_asks asks (put_transfer i _ _)).
  assert (begun o i h2) as B2.
  { apply (begun_put o i (put_curl c1 h0)); [done|]. destruct B1 as (_ & (t & B3 & B4) & _). rewrite B3. exact B4. }
  destruct w2 as [w2|]; [intros [= <- <-]; by apply begun_apart|].
  destruct (set_all i (if bool_decide (lines = []) then _ else _) (h_curl h2)) as [c3 w3] eqn:E3. pose proof (begun_set _ _ _ _ _ _ B2 E3) as B3.
  destruct w3 as [w3|]; [intros [= <- <-]; by apply begun_apart|].
  match goal with |- (let '(h, why) := ?x in _) = _ → _ => destruct x as [h4 w4] eqn:E4 end.
  assert (begun o i h4) as B4.
  { destruct (r_script r) as [script|]; [|by injection E4 as <- <-].
    destruct (any_refused _ _) as [n short] eqn:En. destruct short; [by injection E4 as <- <-|]. cbv zeta in E4.
    destruct (refused _); [by injection E4 as <- <-|].
    destruct (set_all i (configure_script _) _) as [c5 w5] eqn:E5. injection E4 as <- <-. by apply (begun_set o i _ _ _ _ B3 E5). }
  destruct w4 as [w4|]; [intros [= <- <-]; by apply begun_apart|].
  destruct (curl_multi_add_handle (h_curl h4) i) as [c6 mc] eqn:E6. pose proof (begun_added _ _ _ _ _ B4 E6) as B6.
  intros [= <- <-]. by destruct (mc =? CURLM_OK).
Qed.

(** What the wait for the headers ends with. *)
Lemma open_wait_going o fuel i h h' why :
  going o h → alive i h → open_wait fuel i h = Some (h', why) → going o h' ∧ alive i h'.
Proof.
  revert h. induction fuel as [|fuel IH]; intros h Hg Ha; simpl; [done|].
  destruct (alive_look _ _ _ Hg Ha) as (t & Ht & _). rewrite Ht. simpl. destruct (t_ready t); [by intros [= <- <-]|].
  destruct (cosmic_signal_caught (h_signals h)); [by intros [= <- <-]|].
  destruct (pump_once_going o (looked h) Hg) as (h1 & why1 & E1 & E2 & E3 & E4). rewrite E1. simpl.
  pose proof (same_in_alive i _ _ E4 Ha) as A1. destruct why1 as [why1|]; [by intros [= <- <-]|]. by apply IH.
Qed.

Lemma open_wait_ends o fuel n i h :
  going o h → alive i h → (n < fuel)%nat → cosmic_signal_caught (h_signals h + n) = true → is_Some (open_wait fuel i h).
Proof.
  revert n h. induction fuel as [|fuel IH]; intros n h Hg Ha Hn Hs; [lia|]. simpl.
  destruct (alive_look _ _ _ Hg Ha) as (t & Ht & _). rewrite Ht. simpl. destruct (t_ready t); [by eexists|].
  destruct (cosmic_signal_caught (h_signals h)) eqn:Ec; [by eexists|].
  destruct (pump_once_going o (looked h) Hg) as (h1 & why1 & E1 & E2 & E3 & E4). rewrite E1. simpl.
  destruct why1 as [why1|]; [by eexists|]. destruct n as [|n]; [rewrite Nat.add_0_r in Hs; congruence|].
  apply (IH n); [done|by apply (same_in_alive _ _ _ E4)|lia|]. rewrite E3. rewrite Nat.add_succ_r in Hs. exact Hs.
Qed.

Lemma http_open_going o fuel lua url opts i h h' x :
  going o h → h_transfers h !! i = None → http_open fuel lua url opts i h = Some (h', x) → going o h'.
Proof.
  intros Hg Hn. unfold http_open. destruct (read_request lua url opts) as [r|why]; [|by intros [= <- <-]].
  destruct (request_problem r); [by intros [= <- <-]|]. destruct (http_ready fuel _) as [[s1 why]|]; simpl; [|done].
  destruct why; [by intros [= <- <-]|]. set (h0 := with_asks (trust_asks s1) (put_trust s1 h)).
  destruct (prepare i r (put_transfer i new_transfer h0)) as [h1 w1] eqn:E1. pose proof (prepare_going o i r h0 _ _ Hg Hn E1) as P.
  destruct w1 as [w1|]; [intros [= <- <-]; by apply drop_apart|]. destruct P as [P1 P2].
  destruct (open_wait fuel i h1) as [[h2 w2]|] eqn:E2; simpl; [|done]. destruct (open_wait_going _ _ _ _ _ _ P1 P2 E2) as [P3 P4].
  destruct w2 as [w2|]; [intros [= <- <-]; by apply drop_going|]. destruct (alive_look _ _ _ P3 P4) as (t & Ht & _). rewrite Ht. simpl.
  destruct (_ && _); [intros [= <- <-]; by apply drop_going|by intros [= <- <-]].
Qed.

Lemma prepare_signals i r h : h_signals (prepare i r h).1 = h_signals h.
Proof.
  unfold prepare. destruct (curl_easy_init _ _); [|done]. cbv zeta.
  destruct (set_all i (configure r) _) as [c1 w1]. destruct w1; [done|].
  destruct (headers_build _ _ _) as [[lines asks] w2]. destruct w2; [done|].
  destruct (set_all i (if bool_decide (lines = []) then _ else _) _) as [c3 w3]. destruct w3; [done|].
  destruct (r_script r) as [script|].
  - destruct (any_refused _ _) as [n short]. destruct short; [done|]. destruct (refused _); [done|].
    destruct (set_all i (configure_script _) _) as [c5 w5]. destruct w5; simpl; [done|]. by destruct (curl_multi_add_handle _ _).
  - simpl. by destruct (curl_multi_add_handle _ _).
Qed.

Lemma http_open_ends o fuel n lua url opts i h :
  going o h → h_transfers h !! i = None → is_Some (http_ready fuel (trust_at (h_asks h) (h_trust h))) → (n < fuel)%nat → cosmic_signal_caught (h_signals h + n) = true →
  is_Some (http_open fuel lua url opts i h).
Proof.
  intros Hg Hn [[s1 why] Hr] Hf Hs. unfold http_open. destruct (read_request lua url opts) as [r|]; [|by eexists].
  destruct (request_problem r); [by eexists|]. rewrite Hr. simpl. destruct why; [by eexists|]. set (h0 := with_asks (trust_asks s1) (put_trust s1 h)).
  destruct (prepare i r (put_transfer i new_transfer h0)) as [h1 w1] eqn:E1. pose proof (prepare_going o i r h0 _ _ Hg Hn E1) as P.
  destruct w1; [by eexists|]. destruct P as [P1 P2]. pose proof (prepare_signals i r (put_transfer i new_transfer h0)) as E. rewrite E1 in E. simpl in E.
  rewrite <- E in Hs. destruct (open_wait_ends _ _ _ _ _ P1 P2 Hf Hs) as [[h2 w2] Hw]. rewrite Hw. simpl.
  destruct w2; [by eexists|]. destruct (open_wait_going _ _ _ _ _ _ P1 P2 Hw) as [P3 P4].
  destruct (alive_look _ _ _ P3 P4) as (t & Ht & _). rewrite Ht. simpl. destruct (_ && _); by eexists.
Qed.

(** ** Runs *)

(** Any operation on any handle, at any time; a handle is new where it is
    opened. *)
Inductive ran : reads → http → Prop :=
  | ran_start h : h_transfers h = ∅ → (∀ i, fl_in (coming (h_curl h) i) = false) → ran [] h
  | ran_open l h fuel lua url opts i h' x :
      ran l h → h_transfers h !! i = None → http_open fuel lua url opts i h = Some (h', x) → ran l h'
  | ran_read l h fuel max i h' a : ran l h → handle_read fuel max i h = Some (h', a) → ran (l ++ [(i, a)]) h'
  | ran_close l h i h' : ran l h → handle_close i h = Some h' → ran l h'.

(** What a run's reads gave of a handle's body. *)
Definition given (i : tid) (l : reads) : bytes := concat ((λ e : tid * answer (option bytes), if decide (e.1 = i) then chunk e.2 else []) <$> l).

Lemma given_snoc i l j a : given j (l ++ [(i, a)]) = more i (chunk a) (λ j, given j l) j.
Proof.
  unfold given, more. rewrite fmap_app, concat_app. simpl. rewrite app_nil_r.
  destruct (decide (i = j)) as [->|Hn]; [by rewrite decide_True|]. rewrite decide_False by done. by rewrite app_nil_r.
Qed.

Lemma going_given o o' h : (∀ j, o' j = o j) → going o h → going o' h.
Proof.
  intros E [F1 F2 F3 F4 F5]. split; try done.
  - intros j. rewrite E. apply F2.
  - intros j. rewrite E. apply F3.
  - intros j. rewrite E. apply F5.
Qed.

Lemma ran_going l h : ran l h → going (λ i, given i l) h.
Proof.
  induction 1 as [h Ht Hi|l h fuel lua url opts i h' x _ IH Hn Ho|l h fuel max i h' a _ IH Hr|l h i h' _ IH Hc].
  - split; intros i; rewrite ?Ht; try done; [by rewrite Hi|apply prefix_nil].
  - by apply (http_open_going _ _ _ _ _ _ _ _ _ IH Hn Ho).
  - destruct (handle_read_going _ _ _ _ _ _ _ IH Hr) as [G _]. revert G. apply going_given. intros j. exact (given_snoc i l j a).
  - unfold handle_close in Hc. destruct (h_transfers h !! i) as [t|] eqn:Ht; [|done]. injection Hc as <-.
    by apply transfer_release_going.
Qed.

Lemma ran_ended l h i : ran l h → (i, Answers None) ∈ l → given i l = server i.
Proof.
  induction 1 as [h Ht Hi|l h fuel lua url opts j h' x _ IH Hn Ho|l h fuel max j h' a Hl IH Hr|l h j h' _ IH Hc]; try done.
  - by intros ?%not_elem_of_nil.
  - pose proof (ran_going _ _ Hl) as G. destruct (handle_read_going _ _ _ _ _ _ _ G Hr) as (G' & A & _).
    pose proof (fs_prefix _ _ _ G' i) as P. rewrite given_snoc. intros [Hin|Hin]%elem_of_app.
    + specialize (IH Hin). revert P. unfold more. case_decide as E; subst; [|done]. rewrite IH.
      intros [k Hk]. rewrite <- app_assoc in Hk. apply (f_equal length) in Hk. rewrite !length_app in Hk.
      destruct (chunk a); [apply app_nil_r|simpl in Hk; lia].
    + apply list_elem_of_singleton in Hin as [= <- <-]. simpl in *. unfold more. rewrite decide_True by done. by rewrite app_nil_r.
Qed.

(** C27: however opens, reads and closes of however many transfers interleave,
    what the reads of one gave is the first part of the body its server sends,
    in order, and all of it once a read answered the body's end. *)
Theorem reads_give_the_body l h i :
  ran l h → given i l `prefix_of` server i ∧ ((i, Answers None) ∈ l → given i l = server i).
Proof. intros Hr. split; [apply (fs_prefix _ _ _ (ran_going _ _ Hr))|by apply (ran_ended _ h)]. Qed.

(** C28: of a handle that is open, the flag is set just where curl holds the
    transfer paused, a paused one has the threshold's bytes to be read, and the
    unread bytes are within the room and less than one write over the
    threshold. *)
Theorem paused_only_while_full l h i t :
  ran l h → h_transfers h !! i = Some t → t_closed t = false →
  t_paused t = fl_stuck (coming (h_curl h) i) ∧
  (t_paused t = true → BODY_PAUSE_THRESHOLD ≤ Z.of_nat (length (t_body t))) ∧
  Z.of_nat (length (t_body t)) < BODY_PAUSE_THRESHOLD + CURL_MAX_WRITE_SIZE ∧ Z.of_nat (length (t_body t)) ≤ t_body_cap t.
Proof.
  intros Hr Ht Hc. pose proof (ran_going _ _ Hr) as G. destruct (alive_look _ _ _ G (open_alive _ _ _ _ G Ht Hc)) as (u & Hu & _ & _ & [F1 F2 F3 F4 F5 F6 F7 F8]).
  simplify_eq. done.
Qed.

(** C29: a signal caught ends every wait: a read of any handle answers, and an
    open, where the trust store can be made, within as many turns of the pump
    as the guard was asked before. *)
Theorem a_signal_ends_waits l h i fuel n max lua url opts :
  ran l h → (n < fuel)%nat → cosmic_signal_caught (h_signals h + n) = true →
  (is_Some (h_transfers h !! i) → is_Some (handle_read fuel max i h)) ∧
  (h_transfers h !! i = None → is_Some (http_ready fuel (trust_at (h_asks h) (h_trust h))) → is_Some (http_open fuel lua url opts i h)).
Proof.
  intros Hr Hn Hs. pose proof (ran_going _ _ Hr) as G. split.
  - intros [t Ht]. by apply (handle_read_ends _ _ n _ _ t _ G).
  - intros Ht Hf. by apply (http_open_ends _ _ n _ _ _ _ _ G).
Qed.

End runs.

(** ** A curl the laws hold of *)

Module Wire.

(** The one transfer of handle 1: "hello", handed over three bytes at a time. *)
Definition hello : bytes := [0x68; 0x65; 0x6c; 0x6c; 0x6f].
Record wire := Wire { w_flow : flow; w_headed : bool }.

Definition handed (rest_ data : bytes) (n : Z) : flow :=
  if n =? CURL_WRITEFUNC_PAUSE then Flow (data ++ rest_) false true true false
  else if n =? Z.of_nat (length data) then Flow rest_ false false true false else Flow [] true false true false.

Lemma handed_all rest_ data : (length data ≤ 3)%nat → handed rest_ data (Z.of_nat (length data)) = Flow rest_ false false true false.
Proof. intros Hl. unfold handed, CURL_WRITEFUNC_PAUSE. rewrite Z.eqb_refl. destruct (Z.eqb_spec (Z.of_nat (length data)) 0x10000001); [lia|done]. Qed.

#[export] Instance curl_ : Curl := {
  curl := wire;
  curl_easy_init _ i := if decide (i = 1%positive) then Some (Wire no_flow false) else None;
  curl_easy_setopt c _ _ _ := (c, CURLE_OK);
  curl_multi_add_handle c i := if decide (i = 1%positive) then (Wire (Flow hello false false true false) false, CURLM_OK) else (c, 1);
  curl_multi_remove_handle c i := if decide (i = 1%positive) then Wire no_flow false else c;
  curl_multi_poll c := (c, CURLM_OK);
  curl_multi_perform c :=
    let f := w_flow c in
    if negb (fl_in f) || fl_over f || fl_stuck f || fl_broken f then Return (c, CURLM_OK)
    else if negb (w_headed c) then OnHeader c 1%positive [0x0d; 0x0a] (λ _, Return (Wire f true, CURLM_OK))
    else match fl_rest f with
      | [] => Return (c, CURLM_OK)
      | _ => OnBody c 1%positive (take 3 (fl_rest f)) (λ n, Return (Wire (handed (drop 3 (fl_rest f)) (take 3 (fl_rest f)) n) true, CURLM_OK))
      end;
  curl_multi_info_read c :=
    let f := w_flow c in
    if fl_in f && negb (fl_over f) && bool_decide (fl_rest f = [])
    then ([(1%positive, if fl_broken f then 23 else CURLE_OK)], Wire (ended f) (w_headed c)) else ([], c);
  curl_easy_pause c i := Return (if decide (i = 1%positive) then Wire (unstuck (w_flow c)) (w_headed c) else c);
  response_code _ _ := 200;
  effective_url _ _ := None;
  response_headers _ _ := [];
  location _ _ := None;
  error_buffer _ _ := [];
  curl_easy_strerror _ := [];
  curl_multi_strerror _ := [] }.

#[local] Obligation Tactic := idtac.
#[export] Program Instance curl_laws : CurlLaws := {
  server i := if decide (i = 1%positive) then hello else [];
  coming c i := if decide (i = 1%positive) then w_flow c else no_flow }.
Next Obligation. intros c i c' j. simpl. case_decide; [|done]. intros [= <-] _. subst. by repeat case_decide. Qed.
Next Obligation. done. Qed.
Next Obligation.
  intros c i c' mc j. simpl. case_decide as Hi; intros [= <- <-] Hn.
  - subst. destruct (decide (j = 1%positive)); [by rewrite decide_True|rewrite decide_False; [done|by intros [? _]]].
  - rewrite (decide_False (P := j = i ∧ 1 = CURLM_OK)); [done|by intros [_ ?]].
Qed.
Next Obligation. intros c i j. simpl. repeat case_decide; simpl; congruence. Qed.
Next Obligation. intros c j. by left. Qed.
Next Obligation.
  intros [f hd]. simpl. destruct f as [rest_ [] [] [] []]; simpl; try (by left).
  destruct hd; simpl.
  - destruct rest_ as [|b rest_]; simpl; [by left|]. exists (drop 2 rest_).
    split; [done|]. split; [done|]. split; [done|]. split; [by rewrite <- (take_drop 2 rest_) at 1|].
    split; [rewrite length_take; unfold CURL_MAX_WRITE_SIZE; lia|].
    assert (length (take 2 rest_) ≤ 2)%nat as Hl by (rewrite length_take; lia).
    split; [|split].
    + intros i. left. case_decide as Hi; subst; [|rewrite put_flow by done; by rewrite decide_False]. rewrite fn_lookup_insert.
      apply (handed_all (drop 2 rest_) (b :: take 2 rest_)). simpl. lia.
    + intros i. left. case_decide as Hi; subst; [|rewrite put_flow by done; by rewrite decide_False]. by rewrite fn_lookup_insert.
    + intros _ i. left. case_decide as Hi; subst; [|rewrite put_flow by done; by rewrite decide_False]. rewrite fn_lookup_insert. done.
  - split; [done|]. intros i. by left.
Qed.
Next Obligation.
  intros [f hd] messages c'. simpl. destruct (fl_in f && negb (fl_over f) && bool_decide (fl_rest f = [])) eqn:E; intros [= <- <-].
  - apply andb_prop in E as [[E1 E2%negb_true_iff]%andb_prop E3%bool_decide_eq_true].
    split; [apply NoDup_singleton|]. split.
    + intros j. simpl. case_decide as Hj; subst; [by rewrite decide_True by apply list_elem_of_here|].
      rewrite decide_False; [done|]. by intros ?%list_elem_of_singleton.
    + intros i result [= -> ->]%list_elem_of_singleton. rewrite decide_True by done. split; [done|]. split; [done|]. split; [done|].
      by intros ->.
  - split; [apply NoDup_nil; done|]. split; [done|]. by intros i result ?%not_elem_of_nil.
Qed.
Next Obligation.
  intros c i. simpl. case_decide as Hi; [|done]. subst. intros _ j. left. unfold id.
  case_decide as Hj; subst; [by rewrite fn_lookup_insert|]. rewrite put_flow by done. by rewrite decide_False.
Qed.

#[export] Instance store : Authorities := {
  database := true;
  ca_roots := Some ([([1], None, None)], SQLITE_DONE);
  ca_revoked := Some ([], SQLITE_DONE);
  crt_parse_der _ := 0;
  crt_parse _ := [];
  psa_sha256 _ := None;
  SSL_CERT_FILE := None;
  cert_file_size _ := None;
  cert_file_read _ _ _ := Over;
  curl_global_init := true;
  curl_multi_init := true }.
#[export] Instance no_fields : LuaFields := λ _ _ _, LNil.
#[export] Instance memory : Allocator := λ _, false.
#[export] Instance signals : Signals := λ n, (20 <=? n)%nat.

(** *** A run *)

Import Lua.Plain.

Definition start : http := Http (Wire no_flow false) ∅ new_trust None 0 0.
Definition url : lua_value := LString (lit "http://a/").
Definition after_open : http := match http_open 9 ∅ url LNil 1 start with Some (h, _) => h | None => start end.
Definition read_of (h : http) : option (http * answer (option bytes)) := handle_read 9 (LInt 2) 1 h.
Definition after_read (h : http) : http := match read_of h with Some (h, _) => h | None => h end.

Lemma opened_ : http_open 9 ∅ url LNil 1 start = Some (after_open, Opened 1).
Proof. vm_compute. reflexivity. Qed.

Lemma ran_opened : ran [] after_open.
Proof. eapply (ran_open [] start); [apply ran_start; [done|intros i; simpl; by case_decide]|done|exact opened_]. Qed.

Lemma read_step l h a : ran l h → read_of h = Some (after_read h, a) → ran (l ++ [(1%positive, a)]) (after_read h).
Proof. intros Hr E. by apply (ran_read l h 9 (LInt 2)). Qed.

Definition trace : reads :=
  [(1%positive, Answers (Some [0x68; 0x65])); (1%positive, Answers (Some [0x6c])); (1%positive, Answers (Some [0x6c; 0x6f]));
   (1%positive, Answers None)].

Lemma ran_trace : ran trace (after_read (after_read (after_read (after_read after_open)))).
Proof.
  apply (read_step [_; _; _]); [|vm_compute; reflexivity]. apply (read_step [_; _]); [|vm_compute; reflexivity].
  apply (read_step [_]); [|vm_compute; reflexivity]. apply (read_step []); [exact ran_opened|vm_compute; reflexivity].
Qed.

Lemma reads_give_the_body_witness :
  ran trace (after_read (after_read (after_read (after_read after_open)))) ∧ (1%positive, Answers None) ∈ trace ∧ given 1 trace = hello.
Proof.
  split; [exact ran_trace|]. assert ((1%positive, Answers None) ∈ trace) as Hin by (do 3 apply list_elem_of_further; apply list_elem_of_here).
  split; [exact Hin|]. exact (proj2 (reads_give_the_body trace _ 1 ran_trace) Hin).
Defined.

Lemma paused_only_while_full_witness :
  match h_transfers after_open !! 1%positive with
  | Some t => t_closed t = false ∧ Z.of_nat (length (t_body t)) < BODY_PAUSE_THRESHOLD + CURL_MAX_WRITE_SIZE
  | None => False
  end.
Proof.
  destruct (h_transfers after_open !! 1%positive) as [t|] eqn:E; [|vm_compute in E; discriminate E].
  assert (t_closed t = false) as Hc by (vm_compute in E; injection E as <-; reflexivity). split; [exact Hc|].
  exact (proj1 (proj2 (proj2 (paused_only_while_full [] after_open 1 t ran_opened E Hc)))).
Defined.

Lemma a_signal_ends_waits_witness :
  (cosmic_signal_caught (h_signals after_open + 20) = true) ∧
  is_Some (handle_read 30 LNil 1 after_open) ∧ is_Some (http_open 30 ∅ url LNil 2 after_open).
Proof.
  assert (cosmic_signal_caught (h_signals after_open + 20) = true) as Hs by (vm_compute; reflexivity).
  split; [exact Hs|]. split.
  - apply (proj1 (a_signal_ends_waits [] after_open 1 30 20 LNil ∅ url LNil ran_opened ltac:(lia) Hs)).
    eexists. vm_compute. reflexivity.
  - apply (proj2 (a_signal_ends_waits [] after_open 2 30 20 LNil ∅ url LNil ran_opened ltac:(lia) Hs)); [vm_compute; reflexivity|].
    eexists. vm_compute. reflexivity.
Defined.

End Wire.
