(* ===== verification/HttpSafety.v ===== *)
(** * What a transfer trusts, and what it sends

    The trust store is whole or empty, a certificate is refused for OneCRL and
    for its root's date just as the store says, and a request carries only the
    header lines it was given. *)

From S2P Require Import Prelude.
From S2P Require Import Texts.
From S2P Require Import Lua.
From S2P Require Import HttpTrust.
From S2P Require Import Http.

Local Open Scope Z_scope.

Section trust.
Context `{Authorities, Allocator}.

(** ** The store *)

(** The root a row carries, where mbedtls reads it, and its distrust date. *)
Definition root_of (row : bytes * option bytes * option bytes) : option bytes :=
  let '(der, _, _) := row in if bool_decide (der = []) then None else if crt_parse_der der =? 0 then Some der else None.
Definition dated (row : bytes * option bytes * option bytes) : option distrusted :=
  let '(der, after, label) := row in
  match root_of row, after with
  | Some der, Some (a :: after) => Some (Distrusted der (take 95 (default [] label)) (a :: after))
  | _, _ => None
  end.
Definition revoked_row (row : option bytes * bytes * bytes) : revoked :=
  let '(kind, name, value) := row in Revoked (bool_decide (kind = Some (lit "key"))) name value.

Definition digits (s : bytes) : Prop := Forall (λ c, 0x30 ≤ c ≤ 0x39) s.
Definition date_text (one : distrusted) : Prop := length (d_after one) = 14%nat ∧ digits (d_after one).

(** A store made from every row of both tables. *)
Definition loaded (s : trust) : Prop :=
  ∃ rows revoked_rows file,
    ca_roots = Some (rows, SQLITE_DONE) ∧ ca_revoked = Some (revoked_rows, SQLITE_DONE) ∧
    omap root_of rows ≠ [] ∧ roots s = omap root_of rows ++ file ∧ carried_roots s = Z.of_nat (length (omap root_of rows)) ∧
    distrusted_roots s = omap dated rows ∧ revoked_ones s = revoked_row <$> revoked_rows ∧ Forall date_text (distrusted_roots s).

Definition same_readiness (s s' : trust) : Prop :=
  roots_ready s' = roots_ready s ∧ curl_ready s' = curl_ready s ∧ shared_multi s' = shared_multi s.

Lemma keep_distrusted_spec der after label s s' why :
  keep_distrusted der after label s = (s', why) →
  same_readiness s s' ∧ roots s' = roots s ∧ revoked_ones s' = revoked_ones s ∧
  (why = None → ∃ l, distrusted_roots s' = distrusted_roots s ++ l ∧ Forall date_text l ∧
     l = match after with Some (a :: after) => [Distrusted der (take 95 (default [] label)) (a :: after)] | _ => [] end).
Proof.
  unfold keep_distrusted. destruct after as [[|a after]|];
    [intros [= <- <-]; repeat split; intros _; exists []; by rewrite app_nil_r| |
     intros [= <- <-]; repeat split; intros _; exists []; by rewrite app_nil_r].
  destruct (negb (bool_decide (length (a :: after) = 14%nat)) || negb (forallb (λ c, (0x30 <=? c) && (c <=? 0x39)) (a :: after))) eqn:E;
    [by intros [= <- <-]|]. apply orb_false_iff in E as [E1%negb_false_iff E2%negb_false_iff].
  destruct (refused (trust_asks s)); [by intros [= <- <-]|]. destruct (refused _); [by intros [= <- <-]|].
  intros [= <- <-]. repeat split. intros _. eexists. split; [done|]. split; [|done]. apply Forall_singleton.
  split; [by apply bool_decide_eq_true in E1|]. apply Forall_forall. intros c Hc.
  rewrite forallb_forall in E2. apply list_elem_of_In, E2 in Hc. lia.
Qed.

Lemma roots_loop_spec rows n s s' m why :
  roots_loop rows n s = (s', m, why) →
  same_readiness s s' ∧ revoked_ones s' = revoked_ones s ∧
  (why = None → roots s' = roots s ++ omap root_of rows ∧ m = n + Z.of_nat (length (omap root_of rows)) ∧
     distrusted_roots s' = distrusted_roots s ++ omap dated rows ∧ Forall date_text (omap dated rows)).
Proof.
  revert n s. induction rows as [|[[der after] label] rows IH]; intros n s.
  { intros [= <- <- <-]. repeat split; simpl; rewrite ?app_nil_r; try done. lia. }
  cbn [roots_loop]. destruct (bool_decide (der = [])) eqn:E1.
  { intros Hr. destruct (IH _ _ Hr) as (R1 & R2 & R3). split; [done|]. split; [done|]. intros Hw. simpl. by rewrite E1; apply R3. }
  destruct (crt_parse_der der =? 0) eqn:E2.
  - destruct (keep_distrusted der after label _) as [s1 w1] eqn:Ek. destruct (keep_distrusted_spec _ _ _ _ _ _ Ek) as (K1 & K2 & K3 & K4).
    destruct w1 as [w1|]; [by intros [= <- <- <-]|]. destruct (K4 eq_refl) as (l & K5 & K6 & K7).
    intros Hr. destruct (IH _ _ Hr) as ((R1 & R1' & R1'') & R2 & R3). destruct K1 as (K1 & K1' & K1''). simpl in K1, K1', K1'', K2, K3, K5. split; [by repeat split; congruence|].
    split; [congruence|]. intros Hw. destruct (R3 Hw) as (R4 & R5 & R6 & R7).
    assert (omap root_of ((der, after, label) :: rows) = der :: omap root_of rows) as Er by (simpl; by rewrite E1, E2).
    rewrite Er, R4, R6, K2, K5. split; [by rewrite <- app_assoc|]. split; [cbn [length]; lia|]. rewrite <- app_assoc, K7. simpl. rewrite E1, E2.
    destruct after as [[|a after]|]; split; try done. apply Forall_cons. subst l. split; [by inversion K6|done].
  - destruct (crt_parse_der der =? MBEDTLS_ERR_X509_ALLOC_FAILED); [by intros [= <- <- <-]|].
    intros Hr. destruct (IH _ _ Hr) as (R1 & R2 & R3). split; [done|]. split; [done|]. intros Hw. simpl. rewrite E1, E2. by apply R3.
Qed.

Lemma revoked_loop_spec rows s s' why :
  revoked_loop rows s = (s', why) →
  same_readiness s s' ∧ roots s' = roots s ∧ carried_roots s' = carried_roots s ∧ distrusted_roots s' = distrusted_roots s ∧
  (why = None → revoked_ones s' = revoked_ones s ++ (revoked_row <$> rows)).
Proof.
  revert s. induction rows as [|[[kind name] value] rows IH]; intros s.
  { intros [= <- <-]. repeat split. simpl. by rewrite app_nil_r. }
  cbn [revoked_loop]. destruct (_ || _ || _); [by intros [= <- <-]|].
  destruct (refused (trust_asks s)); [by intros [= <- <-]|]. destruct (refused _); [by intros [= <- <-]|].
  intros Hr. destruct (IH _ Hr) as (R1 & R2 & R3 & R4 & R5). repeat (split; [done|]). intros Hw. rewrite (R5 Hw). simpl. by rewrite <- app_assoc.
Qed.

Definition empty_store (s : trust) : Prop := roots s = [] ∧ distrusted_roots s = [] ∧ revoked_ones s = [].
Definition kept (s : trust) : Prop :=
  (shared_multi s = true → roots_ready s = true) ∧ if roots_ready s then loaded s else empty_store s.

Lemma load_revoked_spec s s' why :
  load_revoked s = (s', why) →
  same_readiness s s' ∧ roots s' = roots s ∧ carried_roots s' = carried_roots s ∧ distrusted_roots s' = distrusted_roots s ∧
  (why = None → ∃ rows, ca_revoked = Some (rows, SQLITE_DONE) ∧ revoked_ones s' = revoked_ones s ++ (revoked_row <$> rows)).
Proof.
  unfold load_revoked. destruct ca_revoked as [[rows rc]|]; [|by intros [= <- <-]].
  destruct (revoked_loop rows s) as [s1 w1] eqn:E. destruct (revoked_loop_spec _ _ _ _ E) as (R1 & R2 & R3 & R4 & R5).
  destruct w1 as [w1|]; intros [= <- <-]; repeat (split; [done|]); [done|].
  destruct (Z.eqb_spec rc SQLITE_DONE) as [->|]; [|done]. intros _. exists rows. split; [done|]. by apply R5.
Qed.

Lemma add_cert_file_spec fuel s s' b :
  add_cert_file fuel s = Some (s', b) →
  same_readiness s s' ∧ carried_roots s' = carried_roots s ∧ distrusted_roots s' = distrusted_roots s ∧
  revoked_ones s' = revoked_ones s ∧ ∃ file, roots s' = roots s ++ file.
Proof.
  assert (∃ file, roots s = roots s ++ file) as Hs by (exists []; by rewrite app_nil_r).
  unfold add_cert_file. destruct SSL_CERT_FILE as [[|c path]|]; [by intros [= <- <-]| |by intros [= <- <-]].
  destruct (cert_file_size (c :: path)) as [size|]; [|by intros [= <- <-]].
  destruct (size <=? 0); [by intros [= <- <-]|].
  destruct (refused _); [by intros [= <- <-]|].
  destruct (cert_loop fuel 0 (c :: path) size []) as [text|]; simpl; [|done]. intros [= <- <-]. repeat split. by exists (crt_parse text).
Qed.

(** Where loading fails nothing is kept, and the store is as it was for a
    later attempt. *)
Lemma load_roots_spec fuel s s' why :
  empty_store s → load_roots fuel s = Some (s', why) →
  curl_ready s' = curl_ready s ∧ shared_multi s' = shared_multi s ∧
  match why with Some _ => roots_ready s' = roots_ready s ∧ empty_store s' | None => roots_ready s' = true ∧ loaded s' end.
Proof.
  intros (S1 & S2 & S3). unfold load_roots. destruct database; simpl; [|by intros [= <- <-]].
  destruct ca_roots as [[rows rc]|] eqn:Eq; [|by intros [= <- <-]].
  destruct (roots_loop rows 0 _) as [[s1 m] w1] eqn:E1. destruct (roots_loop_spec _ _ _ _ _ _ E1) as ((R1 & R1' & R1'') & R2 & R3). simpl in *.
  set (w2 := match w1 with None => if negb (rc =? SQLITE_DONE) then Some read_failed else None | _ => w1 end).
  set (w3 := match w2 with None => if m =? 0 then _ else _ | _ => w2 end).
  assert (w3 = None → w1 = None ∧ rc = SQLITE_DONE ∧ m ≠ 0) as Hw.
  { unfold w3, w2. destruct w1; [done|]. destruct (Z.eqb_spec rc SQLITE_DONE); simpl; [|done]. by destruct (Z.eqb_spec m 0). }
  clearbody w3. clear w2. destruct w3 as [w3|]; simpl; [intros [= <- <-]; by repeat split|].
  destruct (Hw eq_refl) as (-> & -> & Hm). destruct (R3 eq_refl) as (R4 & R5 & R6 & R7).
  destruct (load_revoked _) as [s2 w4] eqn:E2. destruct (load_revoked_spec _ _ _ E2) as ((L1 & L1' & L1'') & L2 & L3 & L4 & L5). simpl in *.
  destruct w4 as [w4|]; simpl; [intros [= <- <-]; repeat split; simpl; congruence|].
  destruct (add_cert_file fuel s2) as [[s3 made]|] eqn:E3; simpl; [|done].
  destruct (add_cert_file_spec _ _ _ _ E3) as ((A1 & A1' & A1'') & A2 & A3 & A4 & file & A5).
  destruct made; simpl; intros [= <- <-]; simpl; (split; [congruence|]; split; [congruence|]); [|split; [congruence|done]].
  split; [done|]. destruct (L5 eq_refl) as (rrows & L6 & L7). exists rows, rrows, file. simpl.
  split; [done|]. split; [done|]. split; [intros En; apply Hm; rewrite R5, En; done|].
  rewrite A2, A3, A4, A5, L2, L3, L4, L7, R4, R6, R2, S2, S3. simpl. repeat split; done.
Qed.

Lemma http_ready_kept fuel s s' why :
  kept s → http_ready fuel s = Some (s', why) → kept s' ∧ (why = None → roots_ready s' = true).
Proof.
  intros [K1 K2]. unfold http_ready. destruct (shared_multi s) eqn:Em; [intros [= <- <-]; split; [split; [intros _; by apply K1|done]|intros _; by apply K1]|].
  destruct (_ && _); [intros [= <- <-]; split; [split; [by rewrite Em|done]|done]|].
  destruct (roots_ready s) eqn:Er; simpl.
  - intros Hw. injection Hw as Hw. destruct curl_multi_init; injection Hw as <- <-; simpl;
      (split; [split; simpl; [done|by rewrite ?Er]|done]).
  - destruct (load_roots fuel _) as [[s1 w1]|] eqn:El; simpl; [|done].
    destruct (load_roots_spec _ (with_readiness false true false s) _ _ K2 El) as (L1 & L2 & L3). simpl in *. intros Hw. injection Hw as Hw.
    destruct w1 as [w1|].
    + injection Hw as <- <-. destruct L3 as [L3 L4]. split; [|done]. split; [congruence|]. by rewrite L3.
    + destruct L3 as [L3 L4]. destruct curl_multi_init; injection Hw as <- <-; simpl;
        (split; [split; simpl; [done|by rewrite L3]|done]).
Qed.

(** The store as any attempts to make it leave it, whatever else asks the
    allocator between them. *)
Inductive readied : trust → Prop :=
  | readied_new : readied new_trust
  | readied_wait s n : readied s → readied (trust_at n s)
  | readied_step s fuel s' why : readied s → http_ready fuel s = Some (s', why) → readied s'.

Lemma readied_kept s : readied s → kept s.
Proof. induction 1 as [|s n _ IH|s fuel s' why _ IH Hr]; [by repeat split|done|]. by apply (http_ready_kept fuel s s' why). Qed.

(** C30: whatever failed before, a store that transfers use holds every root the
    database carries that parses, with the date of each that has one, and every
    certificate OneCRL revokes; and one that was not made whole holds
    nothing. *)
Theorem the_store_is_whole_or_empty s :
  readied s → (shared_multi s = true → roots_ready s = true) ∧ if roots_ready s then loaded s else empty_store s.
Proof. apply readied_kept. Qed.

(** ** Revocation *)

(** A row of OneCRL names a certificate; a key that cannot be hashed counts as
    named. *)
Definition revokes (one : revoked) (crt : certificate) : Prop :=
  if r_by_key one
  then c_subject crt = r_name one ∧
    match psa_sha256 (c_key crt) with Some hash => length (r_value one) = 32%nat ∧ hash = r_value one | None => True end
  else c_issuer crt = r_name one ∧ c_serial crt = r_value one.

(** A certificate is revoked just where a row names it. *)
Lemma is_revoked_iff s crt :
  is_revoked s crt = true ↔
  ∃ one, one ∈ revoked_ones s ∧ revokes one crt.
Proof.
  unfold is_revoked. assert (∀ l hash, (∀ h, hash = Some h → psa_sha256 (c_key crt) = Some h) →
    revoked_by l crt hash = true ↔ ∃ one, one ∈ l ∧ revokes one crt) as Hl; [|by apply Hl].
  induction l as [|one l IH]; intros hash Hh; simpl; [split; [done|]; by intros (one & ?%not_elem_of_nil & _)|].
  assert ((∃ x, x ∈ one :: l ∧ revokes x crt) ↔ revokes one crt ∨ ∃ x, x ∈ l ∧ revokes x crt) as ->.
  { split; [intros (x & [->|Hx]%elem_of_cons & Hr); [by left|right; by exists x]|].
    intros [Hr|(x & Hx & Hr)]; [exists one|exists x]; split; try done; [apply list_elem_of_here|by apply list_elem_of_further]. }
  unfold revokes at 1. destruct (r_by_key one); simpl.
  - case_bool_decide as Es; [|rewrite IH by done; tauto].
    assert (match hash with Some h => Some h | None => psa_sha256 (c_key crt) end = psa_sha256 (c_key crt)) as ->
      by (destruct hash as [h|]; [by rewrite (Hh h)|done]).
    destruct (psa_sha256 (c_key crt)) as [h|] eqn:Ep; [|tauto].
    case_bool_decide as E1; simpl; [case_bool_decide as E2; [tauto|]|]; (rewrite IH by congruence; tauto).
  - case_bool_decide as E1; simpl; [case_bool_decide as E2; [tauto|]|]; (rewrite IH by done; tauto).
Qed.


(** ** Dates *)

(** The number a text of digits writes. *)
Definition value (s : bytes) : Z := foldr (λ c k n, k (n * 10 + (c - 0x30))) id s 0.

Lemma value_from s n : foldr (λ c k n, k (n * 10 + (c - 0x30))) id s n = n * 10 ^ Z.of_nat (length s) + value s.
Proof.
  unfold value. revert n. induction s as [|c s IH]; intros n; [unfold id; simpl; lia|]. cbn [foldr length].
  rewrite (IH (n * 10 + _)), (IH (0 * 10 + _)), Nat2Z.inj_succ, Z.pow_succ_r by lia. ring.
Qed.

Lemma value_cons c s : value (c :: s) = (c - 0x30) * 10 ^ Z.of_nat (length s) + value s.
Proof. unfold value at 1. cbn [foldr]. rewrite value_from. lia. Qed.

Lemma value_app a b : value (a ++ b) = value a * 10 ^ Z.of_nat (length b) + value b.
Proof.
  induction a as [|c a IH]; [simpl; unfold value at 2; unfold id; simpl; lia|]. cbn [app]. rewrite !value_cons, IH, length_app, Nat2Z.inj_add, Z.pow_add_r by lia. ring.
Qed.

Lemma value_bound s : digits s → 0 ≤ value s < 10 ^ Z.of_nat (length s).
Proof.
  induction 1 as [|c s Hc Hs IH]; [unfold value, id; simpl; lia|]. rewrite value_cons. cbn [length].
  rewrite Nat2Z.inj_succ, Z.pow_succ_r by lia. nia.
Qed.

(** Texts of as many digits compare as the numbers they write. *)
Lemma strcmp_value a b : length a = length b → digits a → digits b → strcmp a b ≤ 0 ↔ value a ≤ value b.
Proof.
  intros Hl Ha. revert b Hl. induction Ha as [|x a Hx Ha IH]; intros [|y b] Hl Hb; try done.
  inversion Hb as [|? ? Hy Hb']; subst. injection Hl as Hl. pose proof (value_bound a Ha) as Ba. pose proof (value_bound b Hb') as Bb.
  rewrite !value_cons, Hl. rewrite Hl in Ba. simpl. specialize (IH b Hl Hb').
  set (p := 10 ^ Z.of_nat (length b)) in *.
  destruct (Z.eqb_spec x y) as [->|Hn]; [lia|]. destruct (Z.ltb_spec x y); split; nia.
Qed.

Lemma fixed_digits_spec w n : 0 ≤ n < 10 ^ Z.of_nat w →
  length (fixed_digits w n) = w ∧ digits (fixed_digits w n) ∧ value (fixed_digits w n) = n.
Proof.
  revert n. induction w as [|w IH]; intros n Hn; [simpl in *; repeat split; [apply Forall_nil; done|unfold value, id; simpl; lia]|].
  rewrite Nat2Z.inj_succ, Z.pow_succ_r in Hn by lia. cbn [fixed_digits].
  pose proof (Z.div_mod n 10 ltac:(lia)) as Hd. pose proof (Z.mod_pos_bound n 10 ltac:(lia)) as Hm.
  destruct (IH (n / 10)) as (E1 & E2 & E3); [split; [apply Z.div_pos; lia|apply Z.div_lt_upper_bound; lia]|].
  rewrite length_app, E1, value_app, E3. split; [simpl; lia|]. split.
  - apply Forall_app. split; [done|]. apply Forall_singleton. lia.
  - unfold value, id. simpl. lia.
Qed.

(** The date as one number. *)
Definition date_fits (d : date) : Prop :=
  0 ≤ year d < 10000 ∧ 0 ≤ mon d < 100 ∧ 0 ≤ day d < 100 ∧ 0 ≤ hour d < 100 ∧ 0 ≤ min d < 100 ∧ 0 ≤ sec d < 100.
Definition stamp (d : date) : Z := ((((year d * 100 + mon d) * 100 + day d) * 100 + hour d) * 100 + min d) * 100 + sec d.

Lemma padded_spec w n : 0 ≤ n < 10 ^ Z.of_nat w → length (padded w n) = w ∧ digits (padded w n) ∧ value (padded w n) = n.
Proof. intros Hn. unfold padded. destruct (Z.ltb_spec n (10 ^ Z.of_nat w)); [by apply fixed_digits_spec|lia]. Qed.

Lemma issued_spec d : date_fits d → length (issued d) = 14%nat ∧ digits (issued d) ∧ value (issued d) = stamp d.
Proof.
  intros (H1 & H2 & H3 & H4 & H5 & H6). unfold issued, stamp.
  destruct (padded_spec 4 (year d)) as (L1 & D1 & V1); [done|]. destruct (padded_spec 2 (mon d)) as (L2 & D2 & V2); [done|].
  destruct (padded_spec 2 (day d)) as (L3 & D3 & V3); [done|]. destruct (padded_spec 2 (hour d)) as (L4 & D4 & V4); [done|].
  destruct (padded_spec 2 (min d)) as (L5 & D5 & V5); [done|]. destruct (padded_spec 2 (sec d)) as (L6 & D6 & V6); [done|].
  rewrite !length_app, L1, L2, L3, L4, L5, L6. split; [done|]. split; [repeat (apply Forall_app; split; [done|]); done|].
  rewrite !value_app, !length_app, L2, L3, L4, L5, L6, V1, V2, V3, V4, V5, V6. cbn. lia.
Qed.

(** ** A chain *)

(** The chain's certificates but the server's, the root first. *)
Fixpoint verify_parents (s : trust) (root : option distrusted) (t : option notes) (l : list certificate) : option distrusted * option notes :=
  match l with
  | [] => (root, t)
  | crt :: l => let '(_, root, t) := cosmic_tls_distrust s root t crt (1 + Z.of_nat (length l)) in verify_parents s root t l
  end.

Lemma verify_parents_root s root t l :
  (verify_parents s root t l).1 = match last (omap (distrusted_as s) l) with Some one => Some one | None => root end.
Proof.
  revert root t. induction l as [|crt l IH]; intros root t; [done|]. cbn [verify_parents]. unfold cosmic_tls_distrust.
  destruct (Z.ltb_spec 0 (1 + Z.of_nat (length l))); [|lia]. rewrite IH. simpl. destruct (distrusted_as s crt) as [one|]; simpl; [|done].
  rewrite last_cons. by destruct (last _).
Qed.

Lemma distrusted_as_in s crt one : distrusted_as s crt = Some one → one ∈ distrusted_roots s.
Proof. unfold distrusted_as. intros Hf. apply find_some in Hf as [Hf _]. by apply list_elem_of_In. Qed.

Lemma flag_bits (hit : bool) : let flags := if hit then MBEDTLS_X509_BADCERT_REVOKED else 0 in
  Z.testbit flags 8 = false ∧ Z.testbit flags 4 = hit ∧
  Z.testbit (Z.lor flags MBEDTLS_X509_BADCERT_OTHER) 8 = true ∧ Z.testbit (Z.lor flags MBEDTLS_X509_BADCERT_OTHER) 4 = hit.
Proof. by destruct hit. Qed.

(** C31: the server's certificate, met after the rest of its chain from the root
    on, is refused for a distrusted root just where the one of its chain
    nearest it that Mozilla gives a date has one before the certificate's own,
    and as revoked just where a row of OneCRL names it, by its issuer and serial
    or by its subject and its key's hash; and nothing of the chain is left for
    the next. *)
Theorem a_chain_is_held_to_its_roots_date s t parents leaf :
  readied s → date_fits (c_from leaf) →
  let '(root, t) := verify_parents s None t parents in
  let '(flags, root, _) := cosmic_tls_distrust s root t leaf 0 in
  root = None ∧ (Z.testbit flags 4 = true ↔ ∃ one, one ∈ revoked_ones s ∧ revokes one leaf) ∧
  (Z.testbit flags 8 = true ↔ ∃ one, last (omap (distrusted_as s) (parents ++ [leaf])) = Some one ∧ value (d_after one) < stamp (c_from leaf)).
Proof.
  intros Hs Hd. pose proof (verify_parents_root s None t parents) as Hr. destruct (verify_parents s None t parents) as [root t1]. simpl in Hr.
  assert (∀ one, one ∈ distrusted_roots s → date_text one) as Hk.
  { apply Forall_forall. destruct (readied_kept s Hs) as [_ K]. destruct (roots_ready s).
    - by destruct K as (rows & rrows & file & _ & _ & _ & _ & _ & _ & _ & K).
    - destruct K as (_ & -> & _). by apply Forall_nil. }
  unfold cosmic_tls_distrust. cbn [Z.ltb Z.compare]. rewrite omap_app.
  assert (last (omap (distrusted_as s) parents ++ omap (distrusted_as s) [leaf]) =
    match distrusted_as s leaf with Some one => Some one | None => root end) as ->.
  { rewrite Hr. simpl. destruct (distrusted_as s leaf); [by rewrite last_snoc|]. rewrite app_nil_r. by destruct (last _). }
  assert (∀ one, match distrusted_as s leaf with Some one => Some one | None => root end = Some one → date_text one) as Ht.
  { intros one Ho. apply Hk. destruct (distrusted_as s leaf) eqn:E; [injection Ho as ->; by apply (distrusted_as_in s leaf)|].
    subst root. destruct (last (omap (distrusted_as s) parents)) as [x|] eqn:El; [|done]. injection Ho as ->.
    apply last_Some in El as [l' El]. assert (one ∈ omap (distrusted_as s) parents) as Hin by (rewrite El; apply elem_of_app; right; apply list_elem_of_here).
    apply list_elem_of_omap in Hin as (crt & _ & Hc). by apply (distrusted_as_in s crt). }
  assert (negb (bool_decide (revoked_ones s = [])) && is_revoked s leaf = is_revoked s leaf) as ->.
  { case_bool_decide as E; [|done]. unfold is_revoked. by rewrite E. }
  destruct (flag_bits (is_revoked s leaf)) as (B1 & B2 & B3 & B4). pose proof (is_revoked_iff s leaf) as Hv.
  assert (match distrusted_as s leaf with Some _ => distrusted_as s leaf | None => root end =
    match distrusted_as s leaf with Some one => Some one | None => root end) as -> by (by destruct (distrusted_as s leaf)).
  destruct (match distrusted_as s leaf with Some one => Some one | None => root end) as [one|] eqn:Eo.
  - destruct (Ht one eq_refl) as [T1 T2]. destruct (issued_spec _ Hd) as (I1 & I2 & I3).
    pose proof (strcmp_value (issued (c_from leaf)) (d_after one) ltac:(congruence) I2 T2) as Hc. rewrite I3 in Hc.
    destruct (Z.leb_spec (strcmp (issued (c_from leaf)) (d_after one)) 0); cbv beta iota zeta; (split; [done|]; split; [by rewrite ?B2, ?B4|]); rewrite ?B1, ?B3.
    + split; [done|]. intros (x & [= <-] & Hx). lia.
    + split; [intros _; exists one; split; [done|lia]|done].
  - cbv beta iota zeta. split; [done|]. split; [by rewrite B2|]. rewrite B1. split; [done|]. by intros (x & ? & _).
Qed.

End trust.

(** ** What is sent *)

Section sent.
Context `{Curl, Allocator, Signals, LuaIntegers, LuaStrings, LuaFields, RawLen, Authorities}.

(** Bytes that end a header line or a C string. *)
Definition clean (s : bytes) : Prop := (0x0d ∉ s) ∧ (0x0a ∉ s) ∧ (0 ∉ s).

Lemma clean_cons c s : clean (c :: s) ↔ c ≠ 0x0d ∧ c ≠ 0x0a ∧ c ≠ 0 ∧ clean s.
Proof.
  unfold clean. rewrite !not_elem_of_cons. intuition congruence. Qed.

Lemma clean_app a b : clean (a ++ b) ↔ clean a ∧ clean b.
Proof. unfold clean. rewrite !not_elem_of_app. tauto. Qed.

Lemma value_problem_iff s : value_problem s = None ↔ clean s.
Proof.
  induction s as [|c s IH]; [split; [|done]; repeat split; apply not_elem_of_nil|]. rewrite clean_cons, <- IH. simpl.
  destruct (Z.eqb_spec c 0x0d), (Z.eqb_spec c 0x0a), (Z.eqb_spec c 0); simpl; clear IH; intuition congruence.
Qed.

Lemma name_problem_iff s : name_problem s = None ↔ clean s ∧ 0x3a ∉ s.
Proof.
  induction s as [|c s IH]; [split; [|done]; repeat split; apply not_elem_of_nil|]. rewrite clean_cons, not_elem_of_cons. simpl.
  destruct (Z.eqb_spec c 0x0d), (Z.eqb_spec c 0x0a), (Z.eqb_spec c 0), (Z.eqb_spec c 0x3a); simpl; rewrite ?IH; clear IH; intuition congruence.
Qed.

Lemma header_problem_iff name v : header_problem name v = None ↔ name ≠ [] ∧ clean name ∧ (0x3a ∉ name) ∧ clean v.
Proof.
  unfold header_problem. case_bool_decide as E; [intuition congruence|]. rewrite <- (value_problem_iff v). destruct (name_problem_iff name) as [N1 N2].
  destruct (name_problem name) as [w|].
  2: { destruct (N1 eq_refl) as [Hc Hn]. split; [|by intros (_ & _ & _ & Hv)]. intros Hv. split; [done|]. split; [done|]. by split. }
  split; [done|]. intros (_ & Hc & Hn & _). by rewrite N2.
Qed.

(** A line that is one header. *)
Definition header_line (name v line : bytes) : Prop :=
  line = name ++ lit ": " ++ v ∧ name ≠ [] ∧ (0x3a ∉ name) ∧ clean line.

Lemma headers_build_lines l lines asks lines' asks' :
  headers_problem l = None → headers_build l lines asks = (lines', asks', None) →
  ∃ new, lines' = lines ++ new ∧ Forall2 (λ nv line, header_line nv.1 nv.2 line) l new.
Proof.
  revert lines asks. induction l as [|[name v] l IH]; intros lines asks; simpl.
  { intros _ [= <- _]. exists []. split; [by rewrite app_nil_r|done]. }
  destruct (header_problem name v) eqn:Eh; [done|]. apply header_problem_iff in Eh as (E1 & E2 & E3 & E4).
  intros Hp. destruct (refused asks); [done|]. destruct (refused (S asks)); [done|]. intros Hb.
  destruct (IH _ _ Hp Hb) as (new & -> & Hn). eexists (_ :: new). split; [by rewrite <- app_assoc|]. constructor; [|done].
  split; [done|]. split; [done|]. split; [done|]. simpl. apply clean_app. split; [done|]. by rewrite !clean_cons.
Qed.

(** The header lines of a request that is made are its headers', one for
    each and in order: a name and a value put nothing else on the wire, for
    neither holds what ends a line. *)
Theorem requests_carry_only_their_headers r t asks lines asks' :
  request_problem r = None → r_headers r = Some t → headers_build (headers_of t) [] asks = (lines, asks', None) →
  Forall2 (λ nv line, header_line nv.1 nv.2 line) (headers_of t) lines.
Proof.
  intros Hr Ht Hb. assert (headers_problem (headers_of t) = None) as Hp.
  { unfold request_problem in Hr. rewrite Ht in Hr. repeat (case_match; [done|]). done. }
  by destruct (headers_build_lines _ _ _ _ _ Hp Hb) as (new & -> & Hn).
Qed.

End sent.

(** ** A store and a request *)

Module Held.

Import Lua.Plain.

Definition date_of_root : bytes := lit "20240101000000".
Definition root_crt : certificate := Certificate [1; 2] [7] [8] [7] [9] (Date 2010 1 1 0 0 0) None.
Definition leaf_crt : certificate := Certificate [3] [7] [5] [6] [9] (Date 2024 6 1 12 0 0) None.

#[export] Instance rows : Authorities := {
  database := true;
  ca_roots := Some ([([1; 2], Some date_of_root, Some (lit "A root")); ([4], None, None)], SQLITE_DONE);
  ca_revoked := Some ([(Some (lit "serial"), [7], [5])], SQLITE_DONE);
  crt_parse_der _ := 0;
  crt_parse _ := [];
  psa_sha256 _ := None;
  SSL_CERT_FILE := None;
  cert_file_size _ := None;
  cert_file_read _ _ _ := Over;
  curl_global_init := true;
  curl_multi_init := true }.
#[export] Instance memory : Allocator := λ _, false.

Definition made : trust := match http_ready 1 new_trust with Some (s, _) => s | None => new_trust end.

Lemma readied_made : readied made.
Proof. apply (readied_step new_trust 1 made None); [apply readied_new|vm_compute; reflexivity]. Qed.

Lemma the_store_is_whole_or_empty_witness : roots_ready made = true ∧ loaded made.
Proof.
  pose proof (proj2 (the_store_is_whole_or_empty made readied_made)) as Hl.
  assert (roots_ready made = true) as Hr by (vm_compute; reflexivity). split; [exact Hr|]. exact Hl.
Defined.

Lemma a_chain_is_held_to_its_roots_date_witness :
  date_fits (c_from leaf_crt) ∧ verify_parents made None None [root_crt] = (distrusted_as made root_crt, None) ∧
  Z.testbit (cosmic_tls_distrust made (distrusted_as made root_crt) None leaf_crt 0).1.1 8 = true.
Proof.
  assert (date_fits (c_from leaf_crt)) as Hd by (repeat split; simpl; lia). split; [exact Hd|].
  pose proof (a_chain_is_held_to_its_roots_date made None [root_crt] leaf_crt readied_made Hd) as H.
  assert (verify_parents made None None [root_crt] = (distrusted_as made root_crt, None)) as E by (vm_compute; reflexivity).
  rewrite E in H. split; [exact E|]. destruct (cosmic_tls_distrust made (distrusted_as made root_crt) None leaf_crt 0) as [[flags root] t].
  apply (proj2 (proj2 H)). eexists. split; [vm_compute; reflexivity|vm_compute; reflexivity].
Defined.

Definition accepted : table := Table None [(LString (lit "accept"), LString (lit "text/plain"))].
Definition asking : request :=
  Request (lit "http://a/") None None (Some accepted) None None None None true false (lit "http") 10 30000 0 1 60.

Lemma requests_carry_only_their_headers_witness :
  request_problem asking = None ∧
  Forall2 (λ nv line, header_line nv.1 nv.2 line) (headers_of accepted) [lit "accept: text/plain"].
Proof.
  assert (request_problem asking = None) as Hp by (vm_compute; reflexivity). split; [exact Hp|].
  apply (requests_carry_only_their_headers asking accepted 0 _ 2 Hp); vm_compute; reflexivity.
Defined.

End Held.
