(* ===== verification/Xml.v ===== *)
(** * The XML parser: [core/xml.c]

    A parser over expat, which is a parameter: its handlers turn what expat
    hands over into events, character data joined, and a failure finishes it. *)

From S2P Require Import Prelude.
From S2P Require Import Texts.
From S2P Require Import Lua.

Local Open Scope Z_scope.

Definition DEFAULT_MAX_TEXT : Z := Z.shiftl 64 20.
Definition PIECE : Z := Z.shiftl 16 20.
Definition SIZE_MAX : Z := 2 ^ 64 - 1.
Definition XML_ERROR_NO_MEMORY : Z := 1.

(** ** Expat *)

Inductive kind := START | END | TEXT | COMMENT | INSTRUCTION.

Definition kind_names (k : kind) : bytes :=
  match k with
  | START => lit "start" | END => lit "end" | TEXT => lit "text" | COMMENT => lit "comment"
  | INSTRUCTION => lit "instruction"
  end.

(** What expat calls a handler with, and the line and column it is at. *)
Inductive callback :=
  | OnStart (name : bytes) (attributes : list (bytes * bytes))
  | OnEnd (name : bytes)
  | OnText (s : bytes)
  | OnComment (text : bytes)
  | OnInstruction (target text : bytes).

Definition place : Type := Z * Z.

(** Expat: a parser, the calls it makes over a piece of the input, in order,
    and whether it took it; where an error is; and how many calls more come
    once [XML_StopParser] was called. *)
Class Expat := {
  XML_Parser : Type;
  XML_ParserCreate : bool → bool → option XML_Parser;
  XML_Parse : XML_Parser → bytes → bool → list (callback * place) * bool * XML_Parser;
  XML_GetError : XML_Parser → Z * place;
  XML_ErrorString : Z → bytes;
  calls_after_stop : XML_Parser → nat }.

(** Lua and the allocator, by the number of times they were asked: what an
    append raises, whether a finalizer it ran closed the parser, and whether
    a block can grow. *)
Class Heap := {
  append_raises : nat → option bytes;
  append_closes : nat → bool;
  can_grow : nat → Z → bool }.

(** ** The parser *)

(** An event as Lua sees it. *)
Record event := Event {
  e_kind : kind; e_name : option bytes; e_attributes : option (gmap bytes bytes); e_text : option bytes }.

(** [events] is the table of the call under way, [status] what its last
    append raised. *)
Record parser `{Expat} := Parser {
  xml : option XML_Parser; in_call : bool; events : list event; local_names : bool; status : option bytes;
  text : bytes; cap : Z; max_text : Z; text_place : place; too_long : bool; out_of_memory : bool;
  closing : bool; asked_times : nat }.

Section parser.
Context `{Expat, Heap, LuaStrings, LuaIntegers}.

Definition with_text (t : bytes) (p : parser) : parser :=
  Parser _ (xml p) (in_call p) (events p) (local_names p) (status p) t (cap p) (max_text p) (text_place p)
    (too_long p) (out_of_memory p) (closing p) (asked_times p).
Definition with_xml (x : option XML_Parser) (p : parser) : parser :=
  Parser _ x (in_call p) (events p) (local_names p) (status p) (text p) (cap p) (max_text p) (text_place p)
    (too_long p) (out_of_memory p) (closing p) (asked_times p).
Definition with_place (at_ : place) (p : parser) : parser :=
  Parser _ (xml p) (in_call p) (events p) (local_names p) (status p) (text p) (cap p) (max_text p) at_
    (too_long p) (out_of_memory p) (closing p) (asked_times p).
Definition with_too_long (p : parser) : parser :=
  Parser _ (xml p) (in_call p) (events p) (local_names p) (status p) (text p) (cap p) (max_text p) (text_place p)
    true (out_of_memory p) (closing p) (asked_times p).
(** After the block was asked to grow to [cap_]. *)
Definition with_block (cap_ : Z) (grown : bool) (p : parser) : parser :=
  Parser _ (xml p) (in_call p) (events p) (local_names p) (status p) (text p) (if grown then cap_ else cap p) (max_text p)
    (text_place p) (too_long p) (out_of_memory p || negb grown) (closing p) (S (asked_times p)).
(** After an append. *)
Definition with_append (e : event) (p : parser) : parser :=
  let raised := append_raises (asked_times p) in
  Parser _ (xml p) (in_call p) (match raised with None => events p ++ [e] | Some _ => events p end) (local_names p)
    raised (text p) (cap p) (max_text p) (text_place p) (too_long p) (out_of_memory p)
    (closing p || append_closes (asked_times p)) (S (asked_times p)).

Definition release (p : parser) : parser :=
  Parser _ None (in_call p) (events p) (local_names p) (status p) [] 0 (max_text p) (text_place p) (too_long p)
    (out_of_memory p) (closing p) (asked_times p).

(** What follows the last brace of a name, and the name. *)
Fixpoint after_brace (name : bytes) : option bytes :=
  match name with
  | [] => None
  | c :: rest =>
      match after_brace rest with
      | Some found => Some found
      | None => if c =? 0x7d then Some rest else None
      end
  end.

Definition push_name (local : bool) (name : bytes) : bytes :=
  match after_brace name with
  | None => name
  | Some rest => if local then rest else 0x7b :: name
  end.

(** The event [append_event] makes of what expat hands over. *)
Definition append_event (local : bool) (k : kind) (name : option bytes) (attributes : option (list (bytes * bytes)))
    (text_ : option bytes) : event :=
  Event k (push_name local <$> name)
    ((λ l, foldl (λ m a, <[push_name local a.1 := a.2]> m) ∅ l) <$> attributes) text_.

(** Whether expat is told to stop goes with the parser. *)
Definition deliver (e : event) (p : parser) : parser * bool :=
  if bool_decide (status p ≠ None) || out_of_memory p || too_long p then (p, false)
  else
    let p := with_append e p in
    (p, bool_decide (status p ≠ None)).

Definition flush_text (p : parser) : parser * bool :=
  if bool_decide (text p = []) then (p, false)
  else
    let '(p, stop) := deliver (append_event (local_names p) TEXT None None (Some (text p))) p in
    (with_text [] p, stop).

(** A handler's flush and its event. *)
Definition on_event (k : kind) (name : option bytes) (attributes : option (list (bytes * bytes))) (text_ : option bytes)
    (p : parser) : parser * bool :=
  let '(p, stop) := flush_text p in
  let '(p, stop') := deliver (append_event (local_names p) k name attributes text_) p in
  (p, stop || stop').

(** The loop that doubles the block: at most [fuel] times. *)
Fixpoint grow_loop (fuel : nat) (cap_ len n : Z) : Z :=
  match fuel with
  | O => cap_
  | S fuel => if cap_ - len <? n then grow_loop fuel (if SIZE_MAX / 2 <? cap_ then SIZE_MAX else cap_ * 2) len n else cap_
  end.

Definition on_text (s : bytes) (at_ : place) (p : parser) : parser * bool :=
  if out_of_memory p || too_long p || bool_decide (s = []) then (p, false)
  else
    let n := Z.of_nat (length s) in
    let len := Z.of_nat (length (text p)) in
    let p := if bool_decide (text p = []) then with_place at_ p else p in
    if max_text p - len <? n then (with_too_long p, true)
    else
      let '(p, stop) :=
        if cap p - len <? n then
          let cap_ := grow_loop 64 (if cap p <? 256 then 256 else cap p) len n in
          let grown := can_grow (asked_times p) cap_ in
          (with_block cap_ grown p, negb grown)
        else (p, false) in
      if stop then (p, true) else (with_text (text p ++ s) p, false).

Definition handle (c : callback * place) (p : parser) : parser * bool :=
  match c with
  | (OnStart name attributes, _) => on_event START (Some name) (Some attributes) None p
  | (OnEnd name, _) => on_event END (Some name) None None p
  | (OnText s, at_) => on_text s at_ p
  | (OnComment s, _) => on_event COMMENT None None (Some s) p
  | (OnInstruction target s, _) => on_event INSTRUCTION (Some target) None (Some s) p
  end.

(** Expat's calls of a piece, until one stops it and [after] more. *)
Fixpoint run_calls (after : nat) (cs : list (callback * place)) (p : parser) : parser * bool :=
  match cs with
  | [] => (p, false)
  | c :: cs =>
      let '(p, stop) := handle c p in
      if stop then (foldl (λ p c, (handle c p).1) p (take after cs), true) else run_calls after cs p
  end.

(** [XML_Parse] with the handlers set. *)
Definition xml_parse (x : XML_Parser) (s : bytes) (final : bool) (p : parser) : parser * bool :=
  let '(cs, ok, x') := XML_Parse x s final in
  let '(p, stopped) := run_calls (calls_after_stop x) cs p in
  (with_xml (Some x') p, ok && negb stopped).

(** How much of what is left a piece takes. *)
Definition piece_length (s : bytes) : nat :=
  let len := Z.of_nat (length s) in
  Z.to_nat (if len <? PIECE then len else PIECE).

(** The loop over the pieces of a chunk. *)
Fixpoint parse_loop (fuel : nat) (x : XML_Parser) (s : bytes) (final : bool) (p : parser) : parser * bool :=
  match fuel with
  | O => (p, false)
  | S fuel =>
      let rest := drop (piece_length s) s in
      let '(p, ok) := xml_parse x (take (piece_length s) s) (final && bool_decide (rest = [])) p in
      if negb ok then (p, false)
      else if bool_decide (rest = []) then
        (p, bool_decide (status p = None) && negb (out_of_memory p) && negb (too_long p))
      else match xml p with Some x => parse_loop fuel x rest final p | None => (p, false) end
  end.

(** Each piece takes a byte at least. *)
Definition parse (s : bytes) (final : bool) (p : parser) : parser * bool :=
  match xml p with
  | Some x => parse_loop (S (length s)) x s final p
  | None => (p, false)
  end.

(** What a call answers: events, nil and why, or a raise. *)
Inductive answered := Answers (l : list event) | Refuses (why : bytes) | Raises (why : bytes).

Definition xml_out_of_memory : bytes := lit "xml: out of memory".

Definition at_place (at_ : place) : bytes :=
  lit "xml: line " ++ decimal (s64 at_.1) ++ lit ", column " ++ decimal (s64 (s64 at_.2 + 1)) ++ lit ": ".

Definition answer (p : parser) (parsed : bool) : answered * parser :=
  let p := Parser _ (xml p) false (events p) (local_names p) (status p) (text p) (cap p) (max_text p) (text_place p)
             (too_long p) (out_of_memory p) (closing p) (asked_times p) in
  match status p with
  | Some why => (Raises why, release p)
  | None =>
      if out_of_memory p then (Refuses xml_out_of_memory, release p)
      else if too_long p then
        (Refuses (at_place (text_place p) ++ lit "a run of text is longer than " ++ decimal (max_text p) ++ lit " bytes"),
         release p)
      else if negb parsed then
        match xml p with
        | Some x =>
            let '(code, at_) := XML_GetError x in
            (Refuses (if code =? XML_ERROR_NO_MEMORY then xml_out_of_memory else at_place at_ ++ XML_ErrorString code),
             release p)
        | None => (Refuses xml_out_of_memory, release p)
        end
      else (Answers (events p), if closing p then release p else p)
  end.

(** Why a parser takes no call. *)
Definition check_open (p : parser) : option bytes :=
  if in_call p then Some (lit "xml: the parser is in use")
  else if bool_decide (xml p = None) || closing p then Some (lit "xml: the parser is finished")
  else None.

Definition begin (p : parser) : parser :=
  Parser _ (xml p) true [] (local_names p) None (text p) (cap p) (max_text p) (text_place p) (too_long p)
    (out_of_memory p) (closing p) (asked_times p).

Definition parser_feed (chunk : lua_value) (p : parser) : answered * parser :=
  match check_open p with
  | Some why => (Raises why, p)
  | None =>
      match lua_tolstring chunk with
      | None => (Raises (lit "string expected, got " ++ type_name chunk), p)
      | Some s =>
          let '(p, parsed) := parse s false (begin p) in
          answer p parsed
      end
  end.

Definition parser_finish (p : parser) : answered * parser :=
  match check_open p with
  | Some why => (Raises why, p)
  | None =>
      let '(p, parsed) := parse [] true (begin p) in
      let '(p, parsed) :=
        if parsed then let p := (flush_text p).1 in (p, bool_decide (status p = None)) else (p, false) in
      let '(a, p) := answer p parsed in
      (a, release p)
  end.

Definition parser_close (p : parser) : parser :=
  if in_call p
  then Parser _ (xml p) (in_call p) (events p) (local_names p) (status p) (text p) (cap p) (max_text p) (text_place p)
         (too_long p) (out_of_memory p) true (asked_times p)
  else release p.

(** A parser, or the message in its stead. *)
Definition xml_parser (namespaces eager max_text_ local_names_ : lua_value) : parser + bytes :=
  match opt_integer max_text_ DEFAULT_MAX_TEXT with
  | None => inr (lit "number expected, got " ++ type_name max_text_)
  | Some max_text_ =>
      if max_text_ <? 1 then inr (lit "xml: max_text must be at least 1")
      else
        match XML_ParserCreate (to_boolean namespaces || to_boolean local_names_) (to_boolean eager) with
        | None => inr xml_out_of_memory
        | Some x => inl (Parser _ (Some x) false [] (to_boolean local_names_) None [] 0 max_text_ (0, 0) false false false 0)
        end
  end.

End parser.
