(* ===== verification/XmlCorrect.v ===== *)
(** * What the XML parser answers

    The events of a document are those of expat's calls over its pieces, each
    longest run of character data as one event, wherever the chunks end; and
    a parser that failed or finished takes no other call. *)

From S2P Require Import Prelude.
From S2P Require Import Texts.
From S2P Require Import Lua.
From S2P Require Import Xml.

Local Open Scope Z_scope.

(** ** The events of expat's calls *)

Definition text_event (t : bytes) : list event :=
  if bool_decide (t = []) then [] else [Event TEXT None None (Some t)].

(** The event a call other than of text is. *)
Definition own_event (local : bool) (c : callback) : option event :=
  match c with
  | OnStart name attributes => Some (append_event local START (Some name) (Some attributes) None)
  | OnEnd name => Some (append_event local END (Some name) None None)
  | OnText _ => None
  | OnComment s => Some (append_event local COMMENT None None (Some s))
  | OnInstruction target s => Some (append_event local INSTRUCTION (Some target) None (Some s))
  end.

(** The calls' events, the text before them being [pending]. *)
Fixpoint joined (local : bool) (pending : bytes) (cs : list callback) : list event :=
  match cs with
  | [] => text_event pending
  | OnText s :: cs => joined local (pending ++ s) cs
  | c :: cs => text_event pending ++ option_list (own_event local c) ++ joined local [] cs
  end.

Section expat.
Context `{Expat}.

(** Expat's calls over the pieces of a chunk, if it took them. *)
Fixpoint piece_calls (fuel : nat) (x : XML_Parser) (s : bytes) (final : bool) : option (list callback * XML_Parser) :=
  match fuel with
  | O => None
  | S fuel =>
      let rest := drop (piece_length s) s in
      let '(cs, ok, x) := XML_Parse x (take (piece_length s) s) (final && bool_decide (rest = [])) in
      if negb ok then None
      else if bool_decide (rest = []) then Some (cs.*1, x)
      else '(cs', x) ← piece_calls fuel x rest final; Some (cs.*1 ++ cs', x)
  end.

Definition chunk_calls (x : XML_Parser) (s : bytes) (final : bool) : option (list callback * XML_Parser) :=
  piece_calls (S (length s)) x s final.

(** Over a document's chunks and its end. *)
Fixpoint document_calls (x : XML_Parser) (chunks : list bytes) : option (list callback) :=
  match chunks with
  | [] => fst <$> chunk_calls x [] true
  | s :: chunks =>
      '(cs, x) ← chunk_calls x s false;
      cs' ← document_calls x chunks;
      Some (cs ++ cs')
  end.

End expat.

(** ** The handlers *)

Section handlers.
Context `{Expat, Heap, LuaStrings, LuaIntegers}.

(** A parser that has not failed. *)
Definition well (p : parser) : Prop :=
  status p = None ∧ out_of_memory p = false ∧ too_long p = false ∧ Z.of_nat (length (text p)) ≤ max_text p.

(** What a call adds: its events, and the text held back. *)
Definition adds (cs : list callback) (p q : parser) : Prop :=
  well q ∧ xml q = xml p ∧ in_call q = in_call p ∧ local_names q = local_names p ∧ max_text q = max_text p ∧
  ∃ l, events q = events p ++ l ∧
    Forall (λ e, e_kind e = TEXT → ∃ t, e_text e = Some t ∧ 0 < Z.of_nat (length t) ≤ max_text p) l ∧
    ∀ rest, joined (local_names p) (text p) (cs ++ rest) = l ++ joined (local_names p) (text q) rest.

Lemma adds_nil p : well p → adds [] p p.
Proof. intros Hp. split_and!; [done..|]. exists []. by rewrite app_nil_r. Qed.

Lemma adds_app a b p q r : adds a p q → adds b q r → adds (a ++ b) p r.
Proof.
  intros (_ & Hx & Hi & Hl & Hm & l & He & Hf & Hj) (Hr & Hx' & Hi' & Hl' & Hm' & l' & He' & Hf' & Hj').
  split_and!; [done|congruence..|]. exists (l ++ l'). split_and!.
  - by rewrite He', He, app_assoc.
  - apply Forall_app. split; [done|]. by rewrite <-Hm.
  - intros rest. rewrite <-app_assoc, Hj, <-Hl, Hj', app_assoc. by rewrite Hl.
Qed.

Lemma deliver_ok e p :
  well p → (deliver e p).2 = false →
  let q := (deliver e p).1 in
  well q ∧ xml q = xml p ∧ in_call q = in_call p ∧ local_names q = local_names p ∧ max_text q = max_text p ∧
  text q = text p ∧ events q = events p ++ [e].
Proof.
  intros (Hs & Ho & Ht & Hlen). unfold deliver. rewrite Hs, Ho, Ht. cbn [orb].
  rewrite bool_decide_eq_false_2 by (by intros Hn). cbn [fst snd with_append status].
  destruct (append_raises (asked_times p)) as [why|] eqn:Er; [by rewrite bool_decide_eq_true_2|].
  intros _. cbn. rewrite Er. unfold well. cbn. by rewrite Er, Ho, Ht.
Qed.

Lemma flush_text_ok p :
  well p → (flush_text p).2 = false →
  let q := (flush_text p).1 in
  well q ∧ xml q = xml p ∧ in_call q = in_call p ∧ local_names q = local_names p ∧ max_text q = max_text p ∧
  text q = [] ∧ events q = events p ++ text_event (text p).
Proof.
  intros Hp. unfold flush_text, text_event. case_bool_decide as Ht.
  { intros _. cbn. rewrite app_nil_r. by split_and!. }
  pose proof (deliver_ok (append_event (local_names p) TEXT None None (Some (text p))) p Hp) as Hd.
  destruct (deliver _ p) as [q stop]. cbn [fst snd] in *. intros Hstop.
  destruct (Hd Hstop) as ((? & ? & ? & ?) & Hx & Hi & Hl & Hm & Htx & He). cbn.
  split_and!; try done. unfold well. cbn. split_and!; [done..|]. lia.
Qed.

Lemma text_events_ok p l :
  well p → Forall (λ e, e_kind e = TEXT → False) l →
  Forall (λ e, e_kind e = TEXT → ∃ t, e_text e = Some t ∧ 0 < Z.of_nat (length t) ≤ max_text p) (text_event (text p) ++ l).
Proof.
  intros (_ & _ & _ & Hlen) Hl. apply Forall_app. split.
  - unfold text_event. case_bool_decide as Ht; constructor; [|done]. intros _. exists (text p). split; [done|].
    destruct (text p); [done|]. cbn [length] in *. lia.
  - eapply Forall_impl; [exact Hl|]. by intros e He ?%He.
Qed.

Lemma on_event_ok c k name attributes text_ p :
  own_event (local_names p) c = Some (append_event (local_names p) k name attributes text_) → k ≠ TEXT →
  well p → (on_event k name attributes text_ p).2 = false → adds [c] p (on_event k name attributes text_ p).1.
Proof.
  intros Hc Hk Hp. unfold on_event. pose proof (flush_text_ok p Hp) as Hf. destruct (flush_text p) as [q stop].
  cbn [fst snd] in Hf. pose proof (deliver_ok (append_event (local_names q) k name attributes text_) q) as Hd.
  destruct (deliver _ q) as [r stop'] eqn:Er. cbn [fst snd] in *. intros [-> ->]%orb_false_iff.
  destruct (Hf eq_refl) as (Hq & Hx & Hi & Hl & Hm & Ht & He). destruct (Hd Hq eq_refl) as (Hr & Hx' & Hi' & Hl' & Hm' & Ht' & He').
  split_and!; [done|congruence..|]. exists (text_event (text p) ++ [append_event (local_names p) k name attributes text_]).
  split_and!.
  - by rewrite He', He, Hl, app_assoc.
  - apply text_events_ok; [done|]. by constructor.
  - intros rest. rewrite Ht', Ht, <-app_assoc. destruct c; cbn [app joined]; rewrite ?Hc; done.
Qed.

Lemma on_text_ok s at_ p :
  well p → (on_text s at_ p).2 = false → adds [OnText s] p (on_text s at_ p).1.
Proof.
  intros (Hs & Ho & Ht & Hlen). unfold on_text. rewrite Ho, Ht. cbn [orb].
  assert (∀ q, well q → xml q = xml p → in_call q = in_call p → local_names q = local_names p → max_text q = max_text p →
    text q = text p ++ s → events q = events p → adds [OnText s] p q) as Hadds.
  { intros q Hq Hx Hi Hl Hm Htx He. split_and!; [done..|]. exists []. rewrite He, app_nil_r, Htx. by split_and!. }
  case_bool_decide as Hnil.
  { intros _. subst s. apply Hadds; try done. by rewrite app_nil_r. }
  set (p1 := if bool_decide (text p = []) then with_place at_ p else p).
  assert (xml p1 = xml p ∧ in_call p1 = in_call p ∧ local_names p1 = local_names p ∧ max_text p1 = max_text p ∧
    text p1 = text p ∧ events p1 = events p ∧ status p1 = None ∧ out_of_memory p1 = false ∧ too_long p1 = false)
    as (Hx & Hi & Hl & Hm & Htx & He & Hs1 & Ho1 & Ht1).
  { unfold p1. by destruct (bool_decide _). }
  rewrite Hm. destruct (Z.ltb_spec (max_text p - Z.of_nat (length (text p))) (Z.of_nat (length s))) as [|Hfit]; [done|].
  assert (∀ q, xml q = xml p1 → in_call q = in_call p1 → local_names q = local_names p1 → max_text q = max_text p1 →
    text q = text p1 → events q = events p1 → status q = None → out_of_memory q = false → too_long q = false →
    adds [OnText s] p (with_text (text q ++ s) q)) as Hend.
  { intros q ???? Htq ????. apply Hadds; cbn; try congruence. unfold well. cbn. split_and!; [done..|].
    rewrite length_app, Htq, Htx. lia. }
  destruct (cap p1 - _ <? _).
  - set (cap_ := grow_loop _ _ _ _). destruct (can_grow (asked_times p1) cap_) eqn:Eg; cbn [negb]; [|done].
    intros _. apply Hend; try done. cbn. by rewrite Ho1.
  - intros _. by apply Hend.
Qed.

Lemma handle_ok c p : well p → (handle c p).2 = false → adds [c.1] p (handle c p).1.
Proof.
  intros Hp. destruct c as [[name attributes|name|s|s|target s] at_]; cbn [handle fst].
  1-2,4-5: by apply on_event_ok.
  by apply on_text_ok.
Qed.

Lemma run_calls_ok after cs p : well p → (run_calls after cs p).2 = false → adds (cs.*1) p (run_calls after cs p).1.
Proof.
  revert p. induction cs as [|c cs IH]; intros p Hp; cbn [run_calls].
  - intros _. by apply adds_nil.
  - pose proof (handle_ok c p Hp) as Hc. destruct (handle c p) as [q stop]. cbn [fst snd] in Hc.
    destruct stop; [done|]. intros Hrun. eapply (adds_app [c.1]); [by apply Hc|]. apply IH; [|done].
    by apply Hc.
Qed.

(** ** Calls *)

Lemma well_xml x p : well p → well (with_xml x p).
Proof. done. Qed.

(** What a chunk adds, the parser's expat apart. *)
Definition adds_chunk (x : option XML_Parser) (cs : list callback) (p q : parser) : Prop :=
  xml q = x ∧ adds cs p (with_xml (xml p) q).

Lemma parse_loop_ok fuel x s final p :
  well p → xml p = Some x → (parse_loop fuel x s final p).2 = true →
  ∃ cs x', piece_calls fuel x s final = Some (cs, x') ∧ adds_chunk (Some x') cs p (parse_loop fuel x s final p).1.
Proof.
  revert x s p. induction fuel as [|fuel IH]; intros x s p Hp Hx; [done|]. cbn [parse_loop piece_calls].
  set (rest := drop (piece_length s) s). unfold xml_parse.
  destruct (XML_Parse x _ _) as [[cs ok] x']. pose proof (run_calls_ok (calls_after_stop x) cs p Hp) as Hrun.
  destruct (run_calls _ cs p) as [q stopped]. cbn [fst snd] in Hrun.
  destruct ok; [|done]. destruct stopped; [done|]. cbn [andb negb]. specialize (Hrun eq_refl).
  case_bool_decide as Hrest.
  - intros _. exists (cs.*1), x'. split; [done|]. split; [done|]. cbn [fst].
    destruct Hrun as (Hq & Hxq & Hrun). split; [done|]. split; [done|]. exact Hrun.
  - cbn [xml with_xml]. intros Hloop. destruct (IH x' rest (with_xml (Some x') q)) as (cs' & x'' & Hcalls & Hx'' & Hadds);
      [apply Hrun|done|done|].
    exists (cs.*1 ++ cs'), x''. split; [by rewrite Hcalls|]. split; [done|]. eapply adds_app; [exact Hrun|].
    destruct Hrun as (_ & Hxq & _). destruct Hadds as (Hq' & _ & Hadds). split; [done|]. split; [by rewrite Hxq|]. exact Hadds.
Qed.

(** A parser between two calls, that has read some of a document. *)
Definition open (x : XML_Parser) (p : parser) : Prop := well p ∧ xml p = Some x ∧ in_call p = false ∧ closing p = false.

Lemma parse_ok x s final p :
  open x p → (parse s final (begin p)).2 = true →
  ∃ cs x', chunk_calls x s final = Some (cs, x') ∧ adds_chunk (Some x') cs (begin p) (parse s final (begin p)).1.
Proof.
  intros ((Hs & Ho & Ht & Hlen) & Hx & _ & _) Hparse. unfold parse in *. cbn [xml begin] in *. rewrite Hx in *.
  by apply parse_loop_ok.
Qed.

Lemma answer_events p parsed l q :
  answer p parsed = (Answers l, q) →
  parsed = true ∧ l = events p ∧ status p = None ∧ out_of_memory p = false ∧ too_long p = false ∧
  (closing p = true ∧ xml q = None ∨
   closing p = false ∧ xml q = xml p ∧ text q = text p ∧ in_call q = false ∧ closing q = false ∧ local_names q = local_names p
   ∧ max_text q = max_text p ∧ status q = None ∧ out_of_memory q = false ∧ too_long q = false).
Proof.
  unfold answer. cbn [status out_of_memory too_long xml events closing].
  destruct (status p); [done|]. destruct (out_of_memory p); [done|]. destruct (too_long p); [done|].
  destruct parsed; cbn [negb]; [|by destruct (xml p) as [x|]; [destruct (XML_GetError x)|]].
  destruct (closing p); intros [= <- <-]; split_and!; try done; [by left|by right].
Qed.

Lemma feed_ok x s p l q :
  open x p → lua_tolstring (LString s) = Some s → parser_feed (LString s) p = (Answers l, q) → check_open q = None →
  ∃ cs x', chunk_calls x s false = Some (cs, x') ∧ open x' q ∧ local_names q = local_names p ∧ max_text q = max_text p ∧
    Forall (λ e, e_kind e = TEXT → ∃ t, e_text e = Some t ∧ 0 < Z.of_nat (length t) ≤ max_text p) l ∧
    ∀ rest, joined (local_names p) (text p) (cs ++ rest) = l ++ joined (local_names p) (text q) rest.
Proof.
  intros Hopen Hs. unfold parser_feed. pose proof Hopen as (_ & Hx & Hi & Hc).
  assert (check_open p = None) as ->.
  { unfold check_open. rewrite Hi, Hc, Hx. by rewrite bool_decide_eq_false_2. }
  rewrite Hs. pose proof (parse_ok x s false p Hopen) as Hparse. destruct (parse s false (begin p)) as [r parsed].
  cbn [fst snd] in Hparse. intros (-> & Hl & _ & _ & _ & Hq)%answer_events Hcheck.
  destruct (Hparse eq_refl) as (cs & x' & Hcalls & Hxr & Hr & _ & Hir & Hlr & Hmr & l' & He & Hf & Hj).
  cbn [events begin text local_names max_text with_xml app in_call] in *. subst l. rewrite <-He in Hf, Hj.
  destruct Hq as [(_ & Hxq)|(Hcl & Hxq & Htq & Hiq & Hcq & Hlq & Hmq & Hsq & Hoq & Htl)].
  { unfold check_open in Hcheck. rewrite Hxq, bool_decide_eq_true_2 in Hcheck by done. by destruct (in_call q). }
  exists cs, x'. split; [done|]. split.
  { split_and!; [|congruence|done..]. destruct Hr as (_ & _ & _ & Hlen). cbn in Hlen. split_and!; [done..|].
    by rewrite Htq, Hmq. }
  split; [congruence|]. split; [congruence|]. split; [done|]. intros rest. rewrite Htq. apply Hj.
Qed.

Lemma finish_ok x p l q :
  open x p → parser_finish p = (Answers l, q) →
  ∃ cs x', chunk_calls x [] true = Some (cs, x') ∧
    Forall (λ e, e_kind e = TEXT → ∃ t, e_text e = Some t ∧ 0 < Z.of_nat (length t) ≤ max_text p) l ∧
    l = joined (local_names p) (text p) cs.
Proof.
  intros Hopen. unfold parser_finish. pose proof Hopen as (_ & Hx & Hi & Hc).
  assert (check_open p = None) as ->.
  { unfold check_open. rewrite Hi, Hc, Hx. by rewrite bool_decide_eq_false_2. }
  pose proof (parse_ok x [] true p Hopen) as Hparse. destruct (parse [] true (begin p)) as [r parsed].
  cbn [fst snd] in Hparse. destruct parsed; [|].
  2: { destruct (answer r false) as [a q'] eqn:Ea. intros [= -> <-]. by apply answer_events in Ea as [? _]. }
  destruct (Hparse eq_refl) as (cs & x' & Hcalls & Hxr & Hr & _ & Hir & Hlr & Hmr & l' & He & Hf & Hj).
  cbn [events begin text local_names max_text with_xml app in_call] in *.
  assert (well r) as Hwell by exact Hr. pose proof (flush_text_ok r Hwell) as Hflush.
  destruct (flush_text r) as [r' stop] eqn:Ef. cbn [fst snd] in *.
  destruct (answer r' _) as [a q'] eqn:Ea. intros [= -> <-]. apply answer_events in Ea as (Hst & -> & _).
  assert (stop = false) as ->.
  { apply bool_decide_eq_true in Hst. unfold flush_text, deliver in Ef. destruct Hwell as (Hs & Ho & Ht & _).
    destruct (bool_decide (text r = [])); [by injection Ef as _ <-|]. rewrite Hs, Ho, Ht in Ef. cbn [orb] in Ef.
    rewrite bool_decide_eq_false_2 in Ef by (by intros Hn). injection Ef as <- <-. cbn in *.
    rewrite bool_decide_eq_false_2; [done|]. by rewrite Hst; intros Hn. }
  destruct (Hflush eq_refl) as (_ & _ & _ & _ & _ & _ & He'). exists cs, x'. split; [done|].
  rewrite He', He. split.
  - apply Forall_app. split; [done|]. rewrite <-Hmr. rewrite <-(app_nil_r (text_event _)). by apply text_events_ok.
  - specialize (Hj []). rewrite app_nil_r in Hj. by rewrite Hj.
Qed.

(** A document read: its chunks fed one after another, and its end; the
    events of every call, where every call answers them. *)
Fixpoint read_chunks (chunks : list bytes) (p : parser) : option (list event) :=
  match chunks with
  | [] => match parser_finish p with (Answers l, _) => Some l | _ => None end
  | s :: chunks =>
      match parser_feed (LString s) p with
      | (Answers l, p) => l' ← read_chunks chunks p; Some (l ++ l')
      | _ => None
      end
  end.

Lemma read_chunks_ok x chunks p l :
  (∀ s, lua_tolstring (LString s) = Some s) → open x p → read_chunks chunks p = Some l →
  ∃ cs, document_calls x chunks = Some cs ∧ l = joined (local_names p) (text p) cs ∧
    Forall (λ e, e_kind e = TEXT → ∃ t, e_text e = Some t ∧ 0 < Z.of_nat (length t) ≤ max_text p) l.
Proof.
  intros Hstr. revert x p l. induction chunks as [|s chunks IH]; intros x p l Hopen; cbn [read_chunks document_calls].
  - destruct (parser_finish p) as [[l'|?|?] q] eqn:Ef; try done. intros [= <-].
    destruct (finish_ok x p l' q Hopen Ef) as (cs & x' & -> & Hf & Hl). by exists cs.
  - destruct (parser_feed (LString s) p) as [[l1|?|?] q] eqn:Ef; try done.
    destruct (read_chunks chunks q) as [l2|] eqn:Er; [|done]. intros [= <-].
    assert (check_open q = None) as Hcheck.
    { destruct chunks as [|s' chunks]; cbn [read_chunks] in Er.
      - unfold parser_finish in Er. by destruct (check_open q).
      - unfold parser_feed in Er. by destruct (check_open q). }
    destruct (feed_ok x s p l1 q Hopen (Hstr s) Ef Hcheck) as (cs & x' & -> & Hopen' & Hlq & Hmq & Hf & Hj).
    destruct (IH x' q l2 Hopen' Er) as (cs' & Hd & -> & Hf'). exists (cs ++ cs'). cbn. rewrite Hd.
    split; [done|]. rewrite Hlq in *. split; [by rewrite Hj|]. apply Forall_app. split; [done|]. by rewrite <-Hmq.
Qed.

(** ** A document that is read *)

(** Every run of character data is within the limit. *)
Fixpoint fits (limit : Z) (pending : bytes) (cs : list callback) : Prop :=
  match cs with
  | [] => True
  | OnText s :: cs => Z.of_nat (length (pending ++ s)) ≤ limit ∧ fits limit (pending ++ s) cs
  | _ :: cs => fits limit [] cs
  end.

Context (Hquiet : ∀ n, append_raises n = None ∧ append_closes n = false) (Hgrow : ∀ n c, can_grow n c = true).

Lemma deliver_fits e p : well p → (deliver e p).2 = false ∧ closing (deliver e p).1 = closing p.
Proof.
  intros (Hs & Ho & Ht & _). unfold deliver. rewrite Hs, Ho, Ht. cbn [orb].
  rewrite bool_decide_eq_false_2 by (by intros Hn). destruct (Hquiet (asked_times p)) as [Hr Hc].
  unfold with_append. rewrite Hr, Hc. cbn. by rewrite orb_false_r.
Qed.

Lemma flush_fits p : well p → (flush_text p).2 = false ∧ closing (flush_text p).1 = closing p.
Proof.
  intros Hp. unfold flush_text. case_bool_decide; [done|].
  pose proof (deliver_fits (append_event (local_names p) TEXT None None (Some (text p))) p Hp) as Hd.
  by destruct (deliver _ p).
Qed.

Lemma on_event_fits k name attributes text_ p :
  well p → (on_event k name attributes text_ p).2 = false ∧ closing (on_event k name attributes text_ p).1 = closing p.
Proof.
  intros Hp. unfold on_event. pose proof (flush_fits p Hp) as [Hf Hc]. pose proof (flush_text_ok p Hp Hf) as [Hq _].
  destruct (flush_text p) as [q stop]. cbn [fst snd] in *.
  pose proof (deliver_fits (append_event (local_names q) k name attributes text_) q Hq) as [Hd Hdc].
  destruct (deliver _ q) as [r stop']. cbn [fst snd] in *. rewrite Hf, Hd. split; [done|congruence].
Qed.

Lemma on_text_fits s at_ p :
  well p → Z.of_nat (length (text p ++ s)) ≤ max_text p →
  (on_text s at_ p).2 = false ∧ closing (on_text s at_ p).1 = closing p.
Proof.
  intros (Hs & Ho & Ht & _) Hfit. unfold on_text. rewrite Ho, Ht. cbn [orb]. case_bool_decide; [done|].
  set (p1 := if bool_decide (text p = []) then with_place at_ p else p).
  assert (max_text p1 = max_text p ∧ closing p1 = closing p) as [Hm Hc] by (unfold p1; by destruct (bool_decide _)).
  rewrite Hm, length_app in *. destruct (Z.ltb_spec (max_text p - Z.of_nat (length (text p))) (Z.of_nat (length s))); [lia|].
  destruct (cap p1 - _ <? _); rewrite ?Hgrow; by split.
Qed.

(** The text held back after a call. *)
Lemma handle_text c p :
  well p → (handle c p).2 = false → text (handle c p).1 = match c.1 with OnText s => text p ++ s | _ => [] end.
Proof.
  intros Hp. assert (∀ k name attributes text_, (on_event k name attributes text_ p).2 = false →
    text (on_event k name attributes text_ p).1 = []) as Hevent.
  { intros k name attributes text_. unfold on_event. pose proof (flush_fits p Hp) as [Hf _].
    destruct (flush_text_ok p Hp Hf) as (Hq & _ & _ & _ & _ & Ht & _). destruct (flush_text p) as [q stop]. cbn [fst snd] in *.
    pose proof (deliver_ok (append_event (local_names q) k name attributes text_) q Hq) as Hd.
    destruct (deliver _ q) as [r stop']. cbn [fst snd] in *. subst stop. intros Hstop.
    destruct (Hd Hstop) as (_ & _ & _ & _ & _ & Htr & _). congruence. }
  destruct c as [[name attributes|name|s|s|target s] at_]; cbn [handle fst]; try by apply Hevent.
  unfold on_text. destruct Hp as (_ & Ho & Ht & _). rewrite Ho, Ht. cbn [orb]. case_bool_decide as Hnil.
  { intros _. by rewrite Hnil, app_nil_r. }
  set (p1 := if bool_decide (text p = []) then with_place at_ p else p).
  assert (text p1 = text p) as Htx by (unfold p1; by destruct (bool_decide _)).
  destruct (_ <? _); [done|]. destruct (cap p1 - _ <? _).
  - destruct (negb _); [done|]. intros _. cbn. by rewrite Htx.
  - intros _. cbn. by rewrite Htx.
Qed.

Lemma run_calls_fits after cs rest p :
  well p → fits (max_text p) (text p) (cs.*1 ++ rest) →
  (run_calls after cs p).2 = false ∧ closing (run_calls after cs p).1 = closing p ∧
  fits (max_text p) (text (run_calls after cs p).1) rest.
Proof.
  revert p. induction cs as [|c cs IH]; intros p Hp Hfit; cbn [run_calls]; [done|].
  assert ((handle c p).2 = false ∧ closing (handle c p).1 = closing p) as [Hstop Hclosing].
  { destruct c as [[name attributes|name|s|s|target s] at_]; cbn [handle]; try by apply on_event_fits.
    apply on_text_fits; [done|]. by destruct Hfit. }
  pose proof (handle_ok c p Hp Hstop) as (Hq & _ & _ & _ & Hm & _).
  assert (fits (max_text p) (text (handle c p).1) (cs.*1 ++ rest)) as Hfit'.
  { rewrite handle_text by done. destruct c as [[name attributes|name|s|s|target s] at_]; first [exact Hfit|exact (proj2 Hfit)]. }
  rewrite <-Hm in Hfit'. pose proof (IH _ Hq Hfit') as Hrest. rewrite Hm, Hclosing in Hrest.
  destruct (handle c p) as [q stop]. cbn [fst snd] in *. by rewrite Hstop.
Qed.

Lemma parse_loop_fits fuel x s final p cs x' rest :
  well p → piece_calls fuel x s final = Some (cs, x') → fits (max_text p) (text p) (cs ++ rest) →
  let r := parse_loop fuel x s final p in
  r.2 = true ∧ closing r.1 = closing p ∧ fits (max_text p) (text r.1) rest.
Proof.
  revert x s p cs. induction fuel as [|fuel IH]; intros x s p cs Hp; [done|]. cbn [parse_loop piece_calls].
  set (left_ := drop (piece_length s) s). unfold xml_parse.
  destruct (XML_Parse x _ _) as [[calls ok] x1]. destruct ok; [cbn [negb]|done].
  case_bool_decide as Hleft; [|destruct (piece_calls fuel x1 left_ final) as [[cs' x2]|] eqn:Ecalls; [|done]].
  - intros [= <- <-] Hfit. destruct (run_calls_fits (calls_after_stop x) calls rest p Hp Hfit) as (Hstop & Hc & Hf).
    pose proof (run_calls_ok _ _ _ Hp Hstop) as ((Hs & Ho & Ht & _) & _).
    destruct (run_calls _ calls p) as [q stopped]. cbn [fst snd] in *. rewrite Hstop. cbn [andb negb with_xml].
    cbn. rewrite Hs, Ho, Ht. by split_and!.
  - intros [= <- <-] Hfit. rewrite <-app_assoc in Hfit.
    destruct (run_calls_fits (calls_after_stop x) calls (cs' ++ rest) p Hp Hfit) as (Hstop & Hc & Hf).
    pose proof (run_calls_ok _ _ _ Hp Hstop) as (Hq & _ & _ & _ & Hm & _).
    destruct (run_calls _ calls p) as [q stopped]. cbn [fst snd] in *. rewrite Hstop. cbn [andb negb xml with_xml].
    rewrite <-Hm in Hf. destruct (IH x1 left_ (with_xml (Some x1) q) cs' Hq Ecalls Hf) as (Hr & Hrc & Hrf).
    split_and!; [done|by rewrite Hrc|by rewrite <-Hm].
Qed.

Lemma open_check x p : open x p → check_open p = None.
Proof. intros (_ & Hx & Hi & Hc). unfold check_open. rewrite Hi, Hc, Hx. by rewrite bool_decide_eq_false_2. Qed.

(** A call over a chunk answers events. *)
Lemma answer_well p : well p → answer p true = (Answers (events p), (answer p true).2).
Proof. intros (Hs & Ho & Ht & _). unfold answer. cbn. by rewrite Hs, Ho, Ht. Qed.

Lemma feed_fits x s p cs x' rest :
  open x p → lua_tolstring (LString s) = Some s → chunk_calls x s false = Some (cs, x') →
  fits (max_text p) (text p) (cs ++ rest) →
  ∃ l q, parser_feed (LString s) p = (Answers l, q) ∧ check_open q = None ∧ fits (max_text p) (text q) rest.
Proof.
  intros Hopen Hs Hcalls Hfit. unfold parser_feed. rewrite (open_check _ _ Hopen), Hs.
  pose proof Hopen as (Hp & Hx & Hi & Hc).
  destruct (parse_loop_fits (S (length s)) x s false (begin p) cs x' rest) as (Hr & Hrc & Hrf); [by destruct Hp as (_ & ? & ? & ?)|done|done|].
  assert (parse s false (begin p) = parse_loop (S (length s)) x s false (begin p)) as Hparse.
  { unfold parse. cbn [xml begin]. by rewrite Hx. }
  rewrite <-Hparse in *. destruct (parse_ok x s false p Hopen Hr) as (cs' & x2 & _ & Hxr & Hwell & _).
  destruct (parse s false (begin p)) as [r parsed]. cbn [fst snd] in *. subst parsed.
  rewrite answer_well by done. eexists _, _. split; [done|]. unfold answer. destruct Hwell as (Hst & Ho & Ht & _).
  cbn in Hst, Ho, Ht. cbn. rewrite Hst, Ho, Ht. cbn in Hrc. rewrite Hrc, Hc. cbn. unfold check_open. cbn.
  rewrite Hxr, bool_decide_eq_false_2 by done. done.
Qed.

Lemma finish_fits x p cs x' :
  open x p → chunk_calls x [] true = Some (cs, x') → fits (max_text p) (text p) cs →
  ∃ l q, parser_finish p = (Answers l, q).
Proof.
  intros Hopen Hcalls Hfit. unfold parser_finish. rewrite (open_check _ _ Hopen). pose proof Hopen as (Hp & Hx & Hi & Hc).
  destruct (parse_loop_fits 1 x [] true (begin p) cs x' []) as (Hr & _); [by destruct Hp as (_ & ? & ? & ?)|done|by rewrite app_nil_r|].
  assert (parse [] true (begin p) = parse_loop 1 x [] true (begin p)) as Hparse.
  { unfold parse. cbn [xml begin]. by rewrite Hx. }
  rewrite <-Hparse in *. destruct (parse_ok x [] true p Hopen Hr) as (cs' & x2 & _ & Hxr & Hwell & _).
  destruct (parse [] true (begin p)) as [r parsed]. cbn [fst snd] in *. subst parsed.
  assert (well r) as Hwr by exact Hwell. pose proof (flush_fits r Hwr) as [Hf _].
  destruct (flush_text_ok r Hwr Hf) as ((Hst & Hrest) & _). rewrite Hst.
  rewrite bool_decide_eq_true_2 by done. rewrite answer_well by done. by eexists _, _.
Qed.

Lemma read_chunks_fits x chunks p cs :
  (∀ s, lua_tolstring (LString s) = Some s) → open x p → document_calls x chunks = Some cs →
  fits (max_text p) (text p) cs → is_Some (read_chunks chunks p).
Proof.
  intros Hstr. revert x p cs. induction chunks as [|s chunks IH]; intros x p cs Hopen; cbn [read_chunks document_calls].
  - destruct (chunk_calls x [] true) as [[cs' x']|] eqn:Ec; [|done]. intros [= <-] Hfit.
    destruct (finish_fits x p cs' x' Hopen Ec Hfit) as (l & q & ->). by eexists.
  - destruct (chunk_calls x s false) as [[cs1 x1]|] eqn:Ec; [|done]. csimpl.
    destruct (document_calls x1 chunks) as [cs2|] eqn:Ed; [|done]. csimpl. intros [= <-] Hfit.
    destruct (feed_fits x s p cs1 x1 cs2 Hopen (Hstr s) Ec Hfit) as (l & q & Hfeed & Hcheck & Hrest). rewrite Hfeed.
    destruct (feed_ok x s p l q Hopen (Hstr s) Hfeed Hcheck) as (cs' & x' & Hcalls & Hq & _ & Hm & _ & _).
    rewrite Ec in Hcalls. injection Hcalls as <- <-. rewrite <-Hm in Hrest.
    destruct (IH x1 q cs2 Hq Ed Hrest) as [l' ->]. by eexists.
Qed.

End handlers.

(** C26: the events of a document, whatever chunks it comes in, are those of
    the calls expat makes over it, each longest run of character data joined
    into one event; so two readings whose calls join alike answer the same
    events, and no text is empty or longer than the parser's limit. A document
    that expat takes is read, where no run is too long, no append raises or
    closes the parser and memory does not run out. *)
Theorem document_events `{Expat, Heap, LuaStrings, !LuaStringsLaws, LuaIntegers}
    namespaces eager max_text_ local_names_ p chunks x cs :
  xml_parser namespaces eager max_text_ local_names_ = inl p →
  XML_ParserCreate (to_boolean namespaces || to_boolean local_names_) (to_boolean eager) = Some x →
  (∀ l, read_chunks chunks p = Some l →
     ∃ cs, document_calls x chunks = Some cs ∧ l = joined (to_boolean local_names_) [] cs ∧
       Forall (λ e, e_kind e = TEXT → ∃ t, e_text e = Some t ∧ 0 < Z.of_nat (length t) ≤ max_text p) l) ∧
  (document_calls x chunks = Some cs → fits (max_text p) [] cs →
     (∀ n, append_raises n = None ∧ append_closes n = false) → (∀ n c, can_grow n c = true) →
     read_chunks chunks p = Some (joined (to_boolean local_names_) [] cs)).
Proof.
  unfold xml_parser. destruct (opt_integer _ _) as [m|]; [|done]. destruct (Z.ltb_spec m 1); [done|].
  intros Hp Hx. rewrite Hx in Hp. injection Hp as <-. set (p := Parser _ _ _ _ _ _ _ _ _ _ _ _ _ _).
  assert (open x p) as Hopen by (split_and!; [split_and!; cbn; [done..|lia]|done..]). split.
  - intros l Hl. exact (read_chunks_ok x chunks p l tolstring_string Hopen Hl).
  - intros Hcs Hfit Hquiet Hgrow.
    destruct (read_chunks_fits Hquiet Hgrow x chunks p cs tolstring_string Hopen Hcs Hfit) as [l Hl]. rewrite Hl.
    destruct (read_chunks_ok x chunks p l tolstring_string Hopen Hl) as (cs' & Hcs' & -> & _).
    rewrite Hcs in Hcs'. by injection Hcs' as <-.
Qed.

(** ** After a failure *)

(** a call that does not answer events, its argument apart, and the call
    that ends the document leave the parser finished, its text freed, so that
    every other call raises that it is; and a run of text past the limit is
    refused at the line and column where it began, with nothing more read. *)
Theorem failure_finishes `{Expat, Heap, LuaStrings, LuaIntegers} chunk s p :
  lua_tolstring chunk = Some s → check_open p = None →
  (∀ a q, parser_feed chunk p = (a, q) →
     (∃ l, a = Answers l) ∨
     xml q = None ∧ text q = [] ∧ ∀ chunk', parser_feed chunk' q = (Raises (lit "xml: the parser is finished"), q)) ∧
  (∀ a q, parser_finish p = (a, q) →
     xml q = None ∧ text q = [] ∧ ∀ chunk', parser_feed chunk' q = (Raises (lit "xml: the parser is finished"), q)) ∧
  (∀ r parsed, status r = None → out_of_memory r = false → too_long r = true →
     answer r parsed
     = (Refuses (at_place (text_place r) ++ lit "a run of text is longer than " ++ decimal (max_text r) ++ lit " bytes"),
        (answer r parsed).2)).
Proof.
  intros Hs Hopen.
  assert (∀ q : parser, xml q = None → in_call q = false → ∀ chunk', parser_feed chunk' q = (Raises (lit "xml: the parser is finished"), q)) as Hfin.
  { intros q Hx Hi chunk'. unfold parser_feed, check_open. by rewrite Hi, Hx, bool_decide_eq_true_2. }
  assert (∀ r parsed, (∃ l, (answer r parsed).1 = Answers l) ∨
    xml (answer r parsed).2 = None ∧ text (answer r parsed).2 = [] ∧ in_call (answer r parsed).2 = false) as Hanswer.
  { intros r parsed. unfold answer. cbn [status out_of_memory too_long xml events closing].
    destruct (status r); [by right|]. destruct (out_of_memory r); [by right|]. destruct (too_long r); [by right|].
    destruct parsed; cbn [negb]; [left; by eexists|]. right. destruct (xml r) as [x|]; [|done]. by destruct (XML_GetError x). }
  split_and!.
  - intros a q. unfold parser_feed. rewrite Hopen, Hs. destruct (parse s false (begin p)) as [r parsed].
    intros Ha. destruct (Hanswer r parsed) as [(l & Hl)|(Hx & Ht & Hi)]; rewrite Ha in *; cbn [fst snd] in *; [by left; exists l|].
    right. split_and!; [done..|by apply Hfin].
  - intros a q. unfold parser_finish. rewrite Hopen. destruct (parse [] true (begin p)) as [r parsed].
    destruct (if parsed then _ else _) as [r' parsed']. destruct (answer r' parsed') as [a' q'] eqn:Ea. intros [= -> <-].
    split_and!; [done..|]. intros chunk'. apply Hfin; [done|]. change (in_call q' = false).
    unfold answer in Ea. cbn [status out_of_memory too_long xml events closing] in Ea.
    destruct (status r'); [by injection Ea as _ <-|]. destruct (out_of_memory r'); [by injection Ea as _ <-|].
    destruct (too_long r'); [by injection Ea as _ <-|]. destruct (negb parsed').
    + destruct (xml r') as [x|]; [destruct (XML_GetError x)|]; by injection Ea as _ <-.
    + injection Ea as _ <-. by destruct (closing r').
  - intros r parsed Hst Hom Hl. unfold answer. cbn [status out_of_memory too_long text_place max_text]. by rewrite Hst, Hom, Hl.
Qed.

(** ** One expat *)

Module Echo.
Import Plain.

(** Everything is character data, a piece of it at a time. *)
#[export] Instance expat : Expat := {
  XML_Parser := unit;
  XML_ParserCreate _ _ := Some ();
  XML_Parse _ s _ := (if bool_decide (s = []) then [] else [(OnText s, (1, 0))], true, ());
  XML_GetError _ := (0, (1, 0));
  XML_ErrorString _ := [];
  calls_after_stop _ := 0%nat }.

#[export] Instance quiet : Heap := {
  append_raises _ := None; append_closes _ := false; can_grow _ _ := true }.

Definition echo (limit : Z) : parser := Parser _ (Some ()) false [] false None [] 0 limit (0, 0) false false false 0.

Lemma document_events_witness :
  read_chunks [lit "ab"; lit "c"] (echo 8) = Some [Event TEXT None None (Some (lit "abc"))].
Proof.
  assert (xml_parser LNil LNil (LInt 8) LNil = inl (echo 8)) as Hp by (by vm_compute).
  destruct (document_events (H := expat) (H0 := quiet) _ _ _ _ _ [lit "ab"; lit "c"] () [OnText (lit "ab"); OnText (lit "c")] Hp eq_refl) as [_ Hreads].
  apply Hreads; [reflexivity| |by split|reflexivity].
  split; [vm_compute; discriminate|split; [vm_compute; discriminate|exact I]].
Defined.

Lemma failure_finishes_witness :
  ∃ why q, parser_feed (LString (lit "abc")) (echo 2) = (Refuses why, q) ∧
    parser_feed (LString (lit "d")) q = (Raises (lit "xml: the parser is finished"), q).
Proof.
  destruct (parser_feed (LString (lit "abc")) (echo 2)) as [[l|why|why] q] eqn:Ef; [by vm_compute in Ef| |by vm_compute in Ef].
  exists why, q. split; [done|].
  destruct (failure_finishes (LString (lit "abc")) (lit "abc") (echo 2)) as (Hfeed & _); [done|done|].
  destruct (Hfeed _ _ Ef) as [[l Hl]|(_ & _ & Hall)]; [done|]. apply Hall.
Defined.

End Echo.
