(* ===== verification/Bpf.v ===== *)
(** * Running a filter by what is left of it

    A classic BPF program jumps forward alone, so what it answers from an
    instruction on depends on the instructions from there on.  [outcome] is
    [run] of [PromisesRun.v] seen so: one equation for each instruction, by
    which a program is read section by section. *)

From S2P Require Import Prelude.
From S2P Require Import Promises.
From S2P Require Import PromisesRun.

Local Open Scope Z_scope.

Section outcome.
Context (d : seccomp_data).

Fixpoint exec (fuel : nat) (l : list cosmic_insn) (a : Z) : option Z :=
  match fuel, l with
  | S fuel, i :: l =>
      let op := insn_code i in
      let operand := insn_k i in
      if op =? 0x20 then a ← word d operand; exec fuel l a
      else if op =? 0x54 then exec fuel l (Z.land a operand)
      else if op =? 0x05 then exec fuel (drop (Z.to_nat operand) l) a
      else if op =? 0x15 then exec fuel (drop (taken (a =? operand) i) l) a
      else if op =? 0x25 then exec fuel (drop (taken (operand <? a) i) l) a
      else if op =? 0x35 then exec fuel (drop (taken (operand <=? a) i) l) a
      else if op =? 0x45 then exec fuel (drop (taken (negb (Z.land a operand =? 0)) i) l) a
      else if op =? 0x06 then Some operand
      else None
  | _, _ => None
  end.

Lemma run_exec fuel l a pc : run fuel l d a pc = exec fuel (drop pc l) a.
Proof.
  revert a pc. induction fuel as [|fuel IH]; intros a pc; [done|]. simpl.
  destruct (l !! pc) as [i|] eqn:Hpc; simpl.
  2: { rewrite drop_ge; [done|]. by apply lookup_ge_None. }
  rewrite (drop_S l i pc Hpc), !Nat.add_1_r.
  rewrite !IH, !drop_drop. repeat case_match; try done.
  by destruct (word d (insn_k i)); simpl.
Qed.

(** As many steps as instructions are enough. *)
Lemma exec_more n fuel l a : (length l ≤ n)%nat → (length l ≤ fuel)%nat → exec fuel l a = exec n l a.
Proof.
  revert fuel l a. induction n as [|n IH]; intros fuel l a Hn Hf.
  { destruct l; [|simpl in Hn; lia]. by destruct fuel. }
  destruct l as [|i l]; [by destruct fuel|]. destruct fuel as [|fuel]; [simpl in Hf; lia|]. simpl in *.
  assert (∀ k a, exec fuel (drop k l) a = exec n (drop k l) a) as Hk.
  { intros k a'. apply IH; rewrite length_drop; lia. }
  pose proof (λ a, Hk 0%nat a) as H0. setoid_rewrite drop_0 in H0.
  repeat case_match; rewrite ?H0, ?Hk; try done. by destruct (word d _); simpl.
Qed.

Definition outcome (l : list cosmic_insn) (a : Z) : option Z := exec (length l) l a.

Lemma outcome_drop k l a : exec (length l) (drop k l) a = outcome (drop k l) a.
Proof. apply exec_more; [done|]. rewrite length_drop. lia. Qed.

Lemma outcome_verdict l : verdict l d = outcome l 0.
Proof. unfold verdict. by rewrite run_exec, drop_0. Qed.

Lemma outcome_load t f k l a : outcome (Insn 0x20 t f k :: l) a = (a ← word d k; outcome l a).
Proof. done. Qed.

Lemma outcome_and t f k l a : outcome (Insn 0x54 t f k :: l) a = outcome l (Z.land a k).
Proof. done. Qed.

Lemma outcome_jump t f k l a : outcome (Insn 0x05 t f k :: l) a = outcome (drop (Z.to_nat k) l) a.
Proof. apply outcome_drop. Qed.

Lemma outcome_eq t f k l a : outcome (Insn 0x15 t f k :: l) a = outcome (drop (Z.to_nat (if a =? k then t else f)) l) a.
Proof. apply outcome_drop. Qed.

Lemma outcome_at_least t f k l a :
  outcome (Insn 0x35 t f k :: l) a = outcome (drop (Z.to_nat (if k <=? a then t else f)) l) a.
Proof. apply outcome_drop. Qed.

Lemma outcome_return t f k l a : outcome (Insn 0x06 t f k :: l) a = Some k.
Proof. done. Qed.

End outcome.

Create Rewrite HintDb bpf.
#[export] Hint Rewrite outcome_load outcome_and outcome_jump outcome_eq outcome_at_least outcome_return : bpf.

(** The words of an argument. *)
Definition argument (d : seccomp_data) (n : nat) : Z := default 0 (d_args d !! n).

Lemma word_low d n : (n < 6)%nat → word d (16 + 8 * Z.of_nat n) = Some (low d n).
Proof. intros Hn. do 6 (destruct n as [|n]; [done|]). lia. Qed.

Lemma word_high d n : (n < 6)%nat → word d (16 + 8 * Z.of_nat n + 4) = Some (high d n).
Proof. intros Hn. do 6 (destruct n as [|n]; [done|]). lia. Qed.

Lemma low_high d n :
  0 ≤ argument d n < 2 ^ 64 → argument d n = high d n * 2 ^ 32 + low d n ∧ 0 ≤ low d n < 2 ^ 32 ∧ 0 ≤ high d n < 2 ^ 32.
Proof.
  intros Ha. unfold high, low. fold (argument d n).
  rewrite !(land_low _ 32) by done. rewrite Z.shiftr_div_pow2 by done. zdiv.
Qed.
