(* ===== verification/Connector.v ===== *)
(** * The connector's filter: [core/connector.c]

    The program that holds the sandbox's connector to its calls: a read and
    replies on its control, sockets of TCP, and connects to the slots of its
    table and of its scratch page alone. *)

From S2P Require Import Prelude.
From S2P Require Import Promises.

Local Open Scope Z_scope.

Definition CONNECTOR_ENDPOINTS : Z := 128.
Definition CONNECTOR_TABLE_BYTES : Z := 33554432.
Definition CONNECTOR_STRIDE : Z := 128.
Definition CONNECTOR_INSNS : nat := Z.to_nat 4096.
Definition CONNECTOR_ALLOW : Z := 0x7fff0000.
Definition CONNECTOR_KILL : Z := 0x80000000.
Definition EPERM : Z := 1.
Definition CONNECTOR_REFUSE : Z := Z.lor 0x00050000 EPERM.
Definition UINT32_MAX : Z := 0xffffffff.

Definition CONNECTOR_STRIDE_V4 : Z := 16.
Definition CONNECTOR_STRIDE_V6 : Z := 32.

(** [sizeof(struct sockaddr_in)] and [sizeof(struct sockaddr_in6)]. *)
Definition V4_SIZE : Z := 16.
Definition V6_SIZE : Z := 28.

Definition connector_stride (length_ : Z) : Z :=
  if length_ =? V6_SIZE then CONNECTOR_STRIDE_V6 else CONNECTOR_STRIDE_V4.

(** [struct connector_insn] is laid out as the promises' instruction. *)
Abbreviation connector_insn := cosmic_insn.

Record connector_range := Range { r_base : Z; r_slots : Z; r_length : Z }.

(** The instructions that fit, and how many were asked for. *)
Record connector_code := Code { insns : list connector_insn; used : nat }.

Record connector_numbers := Numbers {
  n_audit : Z; n_read : Z; n_write : Z; n_close : Z; n_poll : Z; n_ppoll : Z; n_clock : Z; n_exit : Z;
  n_exit_group : Z; n_socket : Z; n_connect : Z; n_getsockopt : Z; n_sendmsg : Z }.

Definition connector_x86 : connector_numbers :=
  Numbers 0xc000003e 0 1 3 7 271 228 60 231 41 42 55 46.
Definition connector_arm : connector_numbers :=
  Numbers 0xc00000b7 63 64 57 UINT32_MAX 73 113 93 94 198 203 209 211.

Definition connector_emit (code : connector_code) (op jt jf k : Z) : connector_code :=
  Code (if bool_decide (used code < CONNECTOR_INSNS)%nat then insns code ++ [Insn op jt jf k] else insns code)
       (S (used code)).

Definition connector_load (code : connector_code) (argument : Z) (high : bool) : connector_code :=
  connector_emit code 0x20 0 0 (16 + 8 * argument + (if high then 4 else 0)).

Definition connector_equal (code : connector_code) (argument value : Z) : connector_code :=
  let code := connector_load code argument true in
  let code := connector_emit code 0x15 1 0 0 in
  let code := connector_emit code 0x06 0 0 CONNECTOR_REFUSE in
  let code := connector_load code argument false in
  let code := connector_emit code 0x15 1 0 value in
  connector_emit code 0x06 0 0 CONNECTOR_REFUSE.

Definition connector_return (code : connector_code) (value : Z) : connector_code :=
  connector_emit code 0x06 0 0 value.

Definition connector_dispatch (code : connector_code) (number : Z) : connector_code * nat :=
  let code := connector_emit code 0x15 0 1 number in
  let jump := used code in
  let code := connector_emit code 0x05 0 0 0 in
  (code, jump).

Definition connector_target (code : connector_code) (jump : nat) : connector_code :=
  if bool_decide (jump < CONNECTOR_INSNS)%nat
  then Code (alter (λ i, with_k i (u32 (Z.of_nat (used code) - Z.of_nat jump - 1))) jump (insns code)) (used code)
  else code.

Definition connector_fd (code : connector_code) (fd : Z) : connector_code :=
  let code := connector_equal code 0 (u32 fd) in
  connector_return code CONNECTOR_ALLOW.

(** The body of the loop over the simple calls. *)
Definition connector_simple (code : connector_code) (number : Z) : connector_code :=
  if number =? UINT32_MAX then code
  else
    let code := connector_emit code 0x15 0 1 number in
    connector_return code CONNECTOR_ALLOW.

(** The body of the loop over the ranges. *)
Definition connector_range_code (code : connector_code) (range : connector_range) : connector_code :=
  let base := r_base range in
  let stride := connector_stride (r_length range) in
  let end_ := u64 (base + r_slots range * stride) in
  let code := connector_load code 1 true in
  let code := connector_emit code 0x15 0 10 (u32 (Z.shiftr base 32)) in
  let code := connector_load code 1 false in
  let code := connector_emit code 0x35 0 8 (u32 base) in
  let code := connector_emit code 0x35 7 0 (u32 end_) in
  let code := connector_emit code 0x54 0 0 (u32 (stride - 1)) in
  let code := connector_emit code 0x15 0 5 0 in
  let code := connector_load code 2 true in
  let code := connector_emit code 0x15 0 3 0 in
  let code := connector_load code 2 false in
  let code := connector_emit code 0x15 0 1 (r_length range) in
  connector_return code CONNECTOR_ALLOW.

(** [connector_program] down to the loop over the ranges. *)
Definition connector_calls (numbers : connector_numbers) (control status : Z) : connector_code :=
  let code := Code [] 0 in
  let code := connector_emit code 0x20 0 0 4 in
  let code := connector_emit code 0x15 1 0 (n_audit numbers) in
  let code := connector_return code CONNECTOR_KILL in
  let code := connector_emit code 0x20 0 0 0 in
  let code := foldl connector_simple code
    [n_poll numbers; n_ppoll numbers; n_clock numbers; n_exit numbers; n_exit_group numbers] in
  let '(code, reading) := connector_dispatch code (n_read numbers) in
  let '(code, writing) := connector_dispatch code (n_write numbers) in
  let '(code, closing) := connector_dispatch code (n_close numbers) in
  let '(code, creating) := connector_dispatch code (n_socket numbers) in
  let '(code, connecting) := connector_dispatch code (n_connect numbers) in
  let '(code, checking) := connector_dispatch code (n_getsockopt numbers) in
  let '(code, sending) := connector_dispatch code (n_sendmsg numbers) in
  let code := connector_return code CONNECTOR_REFUSE in
  let code := connector_target code reading in
  let code := connector_fd code control in
  let code := connector_target code writing in
  let code := connector_load code 0 true in
  let code := connector_emit code 0x15 1 0 0 in
  let code := connector_return code CONNECTOR_REFUSE in
  let code := connector_load code 0 false in
  let code := connector_emit code 0x15 2 0 (u32 control) in
  let code := connector_emit code 0x15 1 0 (u32 status) in
  let code := connector_return code CONNECTOR_REFUSE in
  let code := connector_return code CONNECTOR_ALLOW in
  let code := connector_target code closing in
  let code := connector_load code 0 false in
  let code := connector_emit code 0x15 0 1 (u32 control) in
  let code := connector_return code CONNECTOR_KILL in
  let code := connector_return code CONNECTOR_ALLOW in
  let code := connector_target code creating in
  let code := connector_load code 0 true in
  let code := connector_emit code 0x15 1 0 0 in
  let code := connector_return code CONNECTOR_REFUSE in
  let code := connector_load code 0 false in
  let code := connector_emit code 0x15 2 0 2 in
  let code := connector_emit code 0x15 1 0 10 in
  let code := connector_return code CONNECTOR_REFUSE in
  let code := connector_equal code 1 (Z.lor 1 (Z.lor 0x800 0x80000)) in
  let code := connector_equal code 2 6 in
  let code := connector_return code CONNECTOR_ALLOW in
  let code := connector_target code checking in
  let code := connector_equal code 1 1 in
  let code := connector_equal code 2 4 in
  let code := connector_return code CONNECTOR_ALLOW in
  let code := connector_target code sending in
  let code := connector_equal code 2 0x4000 in
  let code := connector_fd code control in
  connector_target code connecting.

(** The code built, and its length, 0 where it did not fit. *)
Definition connector_program (numbers : connector_numbers) (ranges : list connector_range) (control status : Z) :
    connector_code * nat :=
  let code := connector_calls numbers control status in
  let code := foldl connector_range_code code ranges in
  let code := connector_return code CONNECTOR_REFUSE in
  (code, if bool_decide (used code ≤ CONNECTOR_INSNS)%nat then used code else 0%nat).
