(* ===== verification/ConnectorFilter.v ===== *)
(** * What the connector's filter allows

    The policy the connector is held to, over calls and whole arguments, and
    that the program written decides every call as it does. *)

From S2P Require Import Prelude.
From S2P Require Import Promises.
From S2P Require Import PromisesRun.
From S2P Require Import Bpf.
From S2P Require Import Connector.

Local Open Scope Z_scope.

(** ** The policy *)

(** A call's data as the kernel gives it: six arguments of 64 bits. *)
Definition data_ok (d : seccomp_data) : Prop := ∀ n, 0 ≤ argument d n < 2 ^ 64.

Lemma data_ok_args d : Forall (λ v, 0 ≤ v < 2 ^ 64) (d_args d) → data_ok d.
Proof.
  intros Hall n. unfold argument. destruct (d_args d !! n) as [v|] eqn:E; simpl; [|lia].
  by apply (Forall_lookup_1 _ _ _ _ Hall E).
Qed.

(** A range as the connector lays them out: of IPv4 or IPv6 addresses, on a
    multiple of its slots' size, with no multiple of 4 GiB in it. *)
Record range_ok (r : connector_range) : Prop := {
  ok_length : r_length r = V4_SIZE ∨ r_length r = V6_SIZE;
  ok_base : 0 < r_base r < 2 ^ 64;
  ok_slots : 1 ≤ r_slots r ≤ 65535;
  ok_aligned : r_base r mod connector_stride (r_length r) = 0;
  ok_within : r_base r / 2 ^ 32 = (r_base r + r_slots r * connector_stride (r_length r)) / 2 ^ 32 }.

(** The addresses of a range: the starts of its slots, at its length. *)
Definition slot_of (r : connector_range) (pointer length_ : Z) : bool :=
  let stride := connector_stride (r_length r) in
  (r_base r <=? pointer) && (pointer <? r_base r + r_slots r * stride)
  && ((pointer - r_base r) mod stride =? 0) && (length_ =? r_length r).

Definition connector_policy (numbers : connector_numbers) (ranges : list connector_range) (control status : Z)
    (d : seccomp_data) : Z :=
  let number := Z.land (d_number d) 0xffffffff in
  let allow (b : bool) := if b then CONNECTOR_ALLOW else CONNECTOR_REFUSE in
  if negb (d_arch d =? n_audit numbers) then CONNECTOR_KILL
  else if existsb (λ n, negb (n =? UINT32_MAX) && (number =? n))
            [n_poll numbers; n_ppoll numbers; n_clock numbers; n_exit numbers; n_exit_group numbers]
  then CONNECTOR_ALLOW
  else if number =? n_read numbers then allow (argument d 0 =? u32 control)
  else if number =? n_write numbers then allow ((argument d 0 =? u32 control) || (argument d 0 =? u32 status))
  else if number =? n_close numbers then
    if low d 0 =? u32 control then CONNECTOR_KILL else CONNECTOR_ALLOW
  else if number =? n_socket numbers then
    allow (((argument d 0 =? 2) || (argument d 0 =? 10)) && (argument d 1 =? 0x80801) && (argument d 2 =? 6))
  else if number =? n_connect numbers then
    allow (existsb (λ r, slot_of r (argument d 1) (argument d 2)) ranges)
  else if number =? n_getsockopt numbers then allow ((argument d 1 =? 1) && (argument d 2 =? 4))
  else if number =? n_sendmsg numbers then allow ((argument d 2 =? 0x4000) && (argument d 0 =? u32 control))
  else CONNECTOR_REFUSE.

(** ** The program's parts *)

Definition x86_calls (control status : Z) : list connector_insn :=
  Eval cbv -[u32] in insns (connector_calls connector_x86 control status).
Definition arm_calls (control status : Z) : list connector_insn :=
  Eval cbv -[u32] in insns (connector_calls connector_arm control status).

Definition range_insns (r : connector_range) : list connector_insn :=
  let stride := connector_stride (r_length r) in
  [Insn 0x20 0 0 28; Insn 0x15 0 10 (u32 (Z.shiftr (r_base r) 32));
   Insn 0x20 0 0 24; Insn 0x35 0 8 (u32 (r_base r)); Insn 0x35 7 0 (u32 (u64 (r_base r + r_slots r * stride)));
   Insn 0x54 0 0 (u32 (stride - 1)); Insn 0x15 0 5 0;
   Insn 0x20 0 0 36; Insn 0x15 0 3 0; Insn 0x20 0 0 32; Insn 0x15 0 1 (r_length r);
   Insn 0x06 0 0 CONNECTOR_ALLOW].

Lemma x86_calls_code control status :
  connector_calls connector_x86 control status = Code (x86_calls control status) 94.
Proof. reflexivity. Qed.

Lemma arm_calls_code control status :
  connector_calls connector_arm control status = Code (arm_calls control status) 92.
Proof. reflexivity. Qed.

Lemma emit_fits l op jt jf k :
  (length l < CONNECTOR_INSNS)%nat →
  connector_emit (Code l (length l)) op jt jf k = Code (l ++ [Insn op jt jf k]) (length (l ++ [Insn op jt jf k])).
Proof.
  intros Hl. unfold connector_emit. cbn [used insns]. rewrite bool_decide_eq_true_2 by done.
  f_equal. rewrite length_app. simpl. lia.
Qed.


Lemma range_code_fits l r :
  (length l + 12 ≤ CONNECTOR_INSNS)%nat →
  connector_range_code (Code l (length l)) r = Code (l ++ range_insns r) (length (l ++ range_insns r)).
Proof.
  intros Hl. unfold connector_range_code, connector_load, connector_return.
  rewrite !emit_fits by (rewrite ?length_app; cbn [length]; lia). rewrite <-!app_assoc. done.
Qed.

Lemma ranges_fit l ranges :
  (length l + 12 * length ranges ≤ CONNECTOR_INSNS)%nat →
  foldl connector_range_code (Code l (length l)) ranges
  = Code (l ++ (ranges ≫= range_insns)) (length (l ++ (ranges ≫= range_insns))).
Proof.
  revert l. induction ranges as [|r ranges IH]; intros l Hl; csimpl; [by rewrite app_nil_r|].
  simpl in Hl. rewrite range_code_fits by lia. rewrite IH by (rewrite length_app; cbn [length range_insns]; lia).
  by rewrite <-app_assoc.
Qed.

(** ** Running them *)

(** Takes a jump whose distance is known. *)
Ltac bpf_drop :=
  match goal with
  | |- context [drop (Z.to_nat ?k) _] =>
      let n := eval vm_compute in (Z.to_nat k) in change (Z.to_nat k) with n
  end; cbn [skipn].

Section running.
Context (d : seccomp_data) (Hd : data_ok d).

(** A whole argument is its two words. *)
Lemma argument_eq n v : 0 ≤ v < 2 ^ 32 → (argument d n =? v) = (high d n =? 0) && (low d n =? v).
Proof.
  intros Hv. destruct (low_high d n (Hd n)) as (Ha & Hl & Hh). rewrite Ha. clear Ha.
  revert Hl Hh. generalize (low d n), (high d n). intros l h Hl Hh.
  destruct (Z.eqb_spec h 0), (Z.eqb_spec l v); cbn [andb]; zcases; lia.
Qed.

(** A pointer is a slot's by its two words. *)
Lemma slot_words (base end_ stride h l : Z) :
  stride = 16 ∨ stride = 32 → base mod stride = 0 → base / 2 ^ 32 = end_ / 2 ^ 32 → 0 ≤ l < 2 ^ 32 →
  (base <=? h * 2 ^ 32 + l) && (h * 2 ^ 32 + l <? end_) && ((h * 2 ^ 32 + l - base) mod stride =? 0)
  = (h =? base / 2 ^ 32) && (base mod 2 ^ 32 <=? l) && negb (end_ mod 2 ^ 32 <=? l) && (l mod stride =? 0).
Proof.
  intros Hs Hal Hin Hl.
  assert ((h * 2 ^ 32 + l - base) mod stride = l mod stride) as -> by (destruct Hs as [-> | ->]; zdiv).
  destruct (l mod stride =? 0); [|by rewrite !andb_false_r]. rewrite !andb_true_r. clear Hs Hal.
  zcases; cbn [andb negb]; try done; exfalso; zdiv.
Qed.

Lemma mask_stride l stride : stride = 16 ∨ stride = 32 → Z.land l (u32 (stride - 1)) = l mod stride.
Proof. intros [-> | ->]; [by apply (land_low _ 4)|by apply (land_low _ 5)]. Qed.

(** The instructions for a slot of a range let it through and send
    everything else on. *)
Lemma range_outcome r rest a v :
  range_ok r → (∀ a, outcome d rest a = v) →
  outcome d (range_insns r ++ rest) a
  = if slot_of r (argument d 1) (argument d 2) then Some CONNECTOR_ALLOW else v.
Proof.
  intros [Hlen Hb Hs Hal Hin] Hrest. destruct (low_high d 1%nat (Hd 1%nat)) as (Ha & Hl & Hh).
  unfold slot_of. rewrite argument_eq by (destruct Hlen as [-> | ->]; by vm_compute). rewrite Ha.
  set (stride := connector_stride (r_length r)) in *.
  assert (stride = 16 ∨ stride = 32) as Hstride by (unfold stride; destruct Hlen as [-> | ->]; [by left|by right]).
  rewrite slot_words by done. unfold range_insns. fold stride. cbn [app].
  assert (u32 (Z.shiftr (r_base r) 32) = r_base r / 2 ^ 32) as ->.
  { unfold u32. rewrite Z.shiftr_div_pow2 by done. apply Z.mod_small. zdiv. }
  assert (u64 (r_base r + r_slots r * stride) = r_base r + r_slots r * stride) as ->.
  { unfold u64. apply Z.mod_small. destruct Hstride as [-> | ->]; zdiv. }
  rewrite outcome_load. change (word d 28) with (Some (high d 1)). cbn [mbind option_bind].
  rewrite outcome_eq. destruct (high d 1 =? r_base r / 2 ^ 32); [|apply Hrest]. bpf_drop.
  rewrite outcome_load. change (word d 24) with (Some (low d 1)). cbn [mbind option_bind].
  rewrite outcome_at_least. change (u32 (r_base r)) with (r_base r mod 2 ^ 32).
  destruct (r_base r mod 2 ^ 32 <=? low d 1); [|apply Hrest]. bpf_drop.
  rewrite outcome_at_least. change (u32 ?x) with (x mod 2 ^ 32) at 1.
  destruct ((r_base r + r_slots r * stride) mod 2 ^ 32 <=? low d 1); [apply Hrest|]. bpf_drop.
  rewrite outcome_and, mask_stride by done.
  rewrite outcome_eq. destruct (low d 1 mod stride =? 0); [|apply Hrest]. bpf_drop.
  rewrite outcome_load. change (word d 36) with (Some (high d 2)). cbn [mbind option_bind].
  rewrite outcome_eq. destruct (high d 2 =? 0); [|apply Hrest]. bpf_drop.
  rewrite outcome_load. change (word d 32) with (Some (low d 2)). cbn [mbind option_bind].
  rewrite outcome_eq. destruct (low d 2 =? r_length r); [|apply Hrest]. bpf_drop. apply outcome_return.
Qed.

Lemma ranges_outcome ranges a :
  Forall range_ok ranges →
  outcome d ((ranges ≫= range_insns) ++ [Insn 0x06 0 0 CONNECTOR_REFUSE]) a
  = Some (if existsb (λ r, slot_of r (argument d 1) (argument d 2)) ranges
          then CONNECTOR_ALLOW else CONNECTOR_REFUSE).
Proof.
  intros Hr. revert a. induction Hr as [|r ranges Hr Hall IH]; intros a; [apply outcome_return|].
  rewrite bind_cons, <-app_assoc. rewrite (range_outcome _ _ _ _ Hr IH). cbn [existsb]. by destruct (slot_of r _ _).
Qed.

(** One instruction of the fixed part, decided as a comparison known or both
    ways. *)
Ltac bpf_step :=
  first
  [ rewrite outcome_return
  | rewrite outcome_load;
    lazymatch goal with |- context [word d ?k] =>
      let v := lazymatch k with
        | 0 => constr:(Z.land (d_number d) 0xffffffff) | 4 => constr:(d_arch d)
        | 16 => constr:(low d 0) | 20 => constr:(high d 0) | 24 => constr:(low d 1)
        | 28 => constr:(high d 1) | 32 => constr:(low d 2) | 36 => constr:(high d 2)
        end in change (word d k) with (Some v)
    end;
    cbn [mbind option_bind]
  | rewrite outcome_jump; bpf_drop
  | rewrite outcome_eq;
    match goal with
    | H : (?x =? ?y) = _ |- context [Z.to_nat (if ?x =? ?y then _ else _)] => rewrite H
    | |- context [Z.to_nat (if ?x =? ?y then _ else _)] => destruct (x =? y) eqn:?
    end; bpf_drop ].

(** The fixed part of either architecture's program, run to its end. *)
Ltac bpf_calls Hrest calls numbers :=
  unfold connector_policy; cbv zeta;
  rewrite !(argument_eq _ (u32 _)) by (by apply Z.mod_pos_bound);
  rewrite !argument_eq by (by vm_compute); unfold calls; cbn [app];
  cbn [n_audit n_read n_write n_close n_poll n_ppoll n_clock n_exit n_exit_group n_socket n_connect n_getsockopt
       n_sendmsg numbers existsb];
  try change (negb (UINT32_MAX =? UINT32_MAX)) with false;
  change (negb (_ =? UINT32_MAX)) with true; cbn [andb orb];
  repeat bpf_step; first [done|apply Hrest].

Section calls.
Context (rest : list connector_insn) (ranges : list connector_range).
Context (Hrest : ∀ a, outcome d rest a = Some (if existsb (λ r, slot_of r (argument d 1) (argument d 2)) ranges
                                               then CONNECTOR_ALLOW else CONNECTOR_REFUSE)).

Lemma x86_outcome control status a :
  outcome d (x86_calls control status ++ rest) a = Some (connector_policy connector_x86 ranges control status d).
Proof. bpf_calls Hrest x86_calls connector_x86. Qed.

Lemma arm_outcome control status a :
  outcome d (arm_calls control status ++ rest) a = Some (connector_policy connector_arm ranges control status d).
Proof. bpf_calls Hrest arm_calls connector_arm. Qed.

End calls.
End running.

(** Most ranges a connector has: its table's and its scratch slots. *)
Definition MOST_RANGES : nat := 130.

Lemma program_insns numbers ranges control status calls :
  connector_calls numbers control status = Code calls (length calls) →
  (length calls ≤ 94)%nat → (length ranges ≤ MOST_RANGES)%nat →
  let l := calls ++ (ranges ≫= range_insns) ++ [Insn 0x06 0 0 CONNECTOR_REFUSE] in
  connector_program numbers ranges control status = (Code l (length l), length l) ∧
  (0 < length l ≤ CONNECTOR_INSNS)%nat.
Proof.
  intros Hcalls Hlen Hr l. unfold MOST_RANGES in Hr.
  assert (Z.of_nat CONNECTOR_INSNS = 4096) as Hmax by (by vm_compute).
  assert (∀ rs, length (rs ≫= range_insns) = 12 * length rs)%nat as Hlens.
  { clear. induction rs as [|r rs IH]; [done|]. rewrite bind_cons, length_app, IH. cbn [length range_insns]. lia. }
  assert (0 < length l ≤ CONNECTOR_INSNS)%nat as Hl.
  { unfold l. rewrite !length_app, Hlens. cbn [length]. lia. }
  split; [|done]. unfold connector_program. rewrite Hcalls.
  rewrite ranges_fit by lia. unfold connector_return. rewrite emit_fits by (rewrite length_app, Hlens; lia).
  cbn [used]. rewrite <-app_assoc. fold l. rewrite bool_decide_eq_true_2 by lia. done.
Qed.

(** A connect is let through to the slots alone. *)
Lemma policy_connect numbers ranges control status d :
  numbers = connector_x86 ∨ numbers = connector_arm → Z.land (d_number d) 0xffffffff = n_connect numbers →
  connector_policy numbers ranges control status d = CONNECTOR_ALLOW →
  ∃ r, r ∈ ranges ∧ slot_of r (argument d 1) (argument d 2) = true.
Proof.
  intros Hn Hcall. unfold connector_policy. rewrite Hcall. cbv zeta. destruct (negb _); [by intros ?|].
  destruct (existsb (λ r, slot_of r (argument d 1) (argument d 2)) ranges) eqn:E.
  - apply existsb_exists in E as (r & Hr%list_elem_of_In & Hslot). by exists r.
  - destruct Hn as [-> | ->]; by cbn.
Qed.

(** The program fits and answers as the policy. *)
Lemma program_decides numbers ranges control status d :
  numbers = connector_x86 ∨ numbers = connector_arm →
  Forall range_ok ranges → (length ranges ≤ MOST_RANGES)%nat → data_ok d →
  let '(code, n) := connector_program numbers ranges control status in
  n = length (insns code) ∧ (0 < n ≤ CONNECTOR_INSNS)%nat ∧
  verdict (insns code) d = Some (connector_policy numbers ranges control status d).
Proof.
  intros [-> | ->] Hr Hlen Hd.
  - destruct (program_insns _ _ _ _ _ (x86_calls_code control status) ltac:(done) Hlen) as [-> Hl].
    split_and!; [done|lia|lia|]. rewrite outcome_verdict. apply x86_outcome; [done|]. intros a. by apply ranges_outcome.
  - destruct (program_insns _ _ _ _ _ (arm_calls_code control status) ltac:(simpl; lia) Hlen) as [-> Hl].
    split_and!; [done|lia|lia|]. rewrite outcome_verdict. apply arm_outcome; [done|]. intros a. by apply ranges_outcome.
Qed.

(** The program written for either architecture, whatever descriptors it
    is given and for as many ranges as a connector has, is no longer than the
    kernel takes and answers every call as the connector's policy does. *)
Theorem connector_program_decides_policy numbers ranges control status d :
  numbers = connector_x86 ∨ numbers = connector_arm →
  Forall range_ok ranges → (length ranges ≤ MOST_RANGES)%nat → data_ok d →
  let '(code, n) := connector_program numbers ranges control status in
  n = length (insns code) ∧ (0 < n ≤ CONNECTOR_INSNS)%nat ∧
  verdict (insns code) d = Some (connector_policy numbers ranges control status d).
Proof. apply program_decides. Qed.

(** A descriptor's call as the kernel lays its arguments out. *)
Definition connect_call (pointer length_ : Z) : seccomp_data :=
  Data 42 0xc000003e [5; pointer; length_; 0; 0; 0].

Lemma connector_program_decides_policy_witness :
  let ranges := [Range 0x7f0000001000 2 V4_SIZE; Range 0x7f0000002000 1 V6_SIZE] in
  let '(code, _) := connector_program connector_x86 ranges 3 4 in
  verdict (insns code) (connect_call 0x7f0000001010 V4_SIZE) = Some CONNECTOR_ALLOW.
Proof.
  intros ranges.
  assert (data_ok (connect_call 0x7f0000001010 V4_SIZE)) as Hd.
  { apply data_ok_args. repeat (apply Forall_cons; split; [by vm_compute|]). by apply Forall_nil. }
  assert (Forall range_ok ranges) as Hr.
  { apply Forall_cons; split; [|apply Forall_singleton].
    - split; [by left|by vm_compute..].
    - split; [by right|by vm_compute..]. }
  destruct (connector_program connector_x86 ranges 3 4) as [code n] eqn:E.
  pose proof (connector_program_decides_policy connector_x86 ranges 3 4 (connect_call 0x7f0000001010 V4_SIZE)
    (or_introl eq_refl) Hr ltac:(simpl; unfold MOST_RANGES; lia) Hd) as Hp.
  rewrite E in Hp. destruct Hp as (_ & _ & ->). by vm_compute.
Defined.
