(* ===== verification/NumericHost.v ===== *)
(** * Numeric hosts: [cosmic_numeric_host] of [core/socket.c]

    The screen of an address's text before libc's parser: libcs differ on
    leading zeros and scopes, so four decimal octets with no leading zero are
    required, or hexadecimal digits and colons. *)

From S2P Require Import Prelude.
From S2P Require Import Texts.

Local Open Scope Z_scope.

Definition DOT : Z := 0x2e.
Definition COLON : Z := 0x3a.
Definition octet_digit (c : Z) : bool := (0x30 <=? c) && (c <=? 0x39).

(** The loop over the bytes: whether there was a colon, and what follows the
    last; [None] for a byte that no address has. *)
Fixpoint host_bytes (host v4 : bytes) (ipv6 : bool) : option (bool * bytes) :=
  match host with
  | [] => Some (ipv6, v4)
  | c :: host =>
      if c =? COLON then host_bytes host host true
      else if negb (c =? DOT) && negb (octet_digit c) && negb ((0x61 <=? c) && (c <=? 0x66))
              && negb ((0x41 <=? c) && (c <=? 0x46))
      then None
      else host_bytes host v4 ipv6
  end.

(** The loop over an octet's digits: how many, their value and what is left;
    [None] for a fourth digit. *)
Fixpoint octet_loop (count : nat) (value : Z) (at_ : bytes) : option (nat * Z * bytes) :=
  match at_ with
  | c :: rest =>
      if octet_digit c then
        if bool_decide (3 ≤ count)%nat then None else octet_loop (S count) (value * 10 + (c - 0x30)) rest
      else Some (count, value, at_)
  | [] => Some (count, value, [])
  end.

(** The loop over the octets, of which each turn takes a byte at least. *)
Fixpoint octets_loop (fuel : nat) (octets : Z) (at_ : bytes) : bool :=
  match fuel, at_ with
  | S fuel, first :: _ =>
      match octet_loop 0 0 at_ with
      | None => false
      | Some (count, value, rest) =>
          if bool_decide (count = 0)%nat || (255 <? value) || bool_decide (1 < count)%nat && (first =? 0x30) then false
          else
            let octets := octets + 1 in
            match rest with
            | [] => octets =? 4
            | c :: rest =>
                if negb (c =? DOT) || bool_decide (rest = []) then false else octets_loop fuel octets rest
            end
      end
  | _, _ => false
  end.

Definition memchr (c : Z) (s : bytes) : bool := existsb (Z.eqb c) s.

Definition cosmic_numeric_host (host : bytes) : bool :=
  match host_bytes host host false with
  | None => false
  | Some (ipv6, v4) =>
      if ipv6 && negb (memchr DOT v4) then negb (memchr DOT host)
      else octets_loop (length v4) 0 v4
  end.

(** ** What it takes *)

Definition octet (n : Z) : Prop := 0 ≤ n ≤ 255.

(** An IPv4 address as it is printed. *)
Definition dotted (a b c d : Z) : bytes :=
  decimal a ++ DOT :: decimal b ++ DOT :: decimal c ++ DOT :: decimal d.

(** What stops the digits of an octet. *)
Definition stops (rest : bytes) : Prop := match rest with c :: _ => octet_digit c = false | [] => True end.

Lemma octet_loop_stops count value rest : stops rest → octet_loop count value rest = Some (count, value, rest).
Proof. destruct rest as [|c rest]; simpl; [done|]. by intros ->. Qed.

(** Every octet printed is read back. *)
Definition octet_reads (n : Z) : bool :=
  match decimal n with
  | [a] => octet_digit a && (a - 0x30 =? n)
  | [a; b] => octet_digit a && octet_digit b && negb (a =? 0x30) && ((a - 0x30) * 10 + (b - 0x30) =? n)
  | [a; b; c] => octet_digit a && octet_digit b && octet_digit c && negb (a =? 0x30)
                 && (((a - 0x30) * 10 + (b - 0x30)) * 10 + (c - 0x30) =? n)
  | _ => false
  end.

Lemma octet_decimal n rest :
  octet n → stops rest →
  ∃ first text, decimal n = first :: text ∧
    octet_loop 0 0 (decimal n ++ rest) = Some (length (decimal n), n, rest) ∧
    ((1 < length (decimal n))%nat → first ≠ 0x30) ∧ Forall (λ c, octet_digit c = true) (decimal n).
Proof.
  intros Hn Hrest.
  assert (octet_reads n = true) as Hr by (apply byte_check; [by vm_compute|unfold octet, is_byte in *; lia]).
  unfold octet_reads in Hr. destruct (decimal n) as [|a [|b [|c [|? ?]]]]; try done;
    rewrite ?andb_true_iff, ?negb_true_iff, ?Z.eqb_eq, ?Z.eqb_neq in Hr; destruct_and? Hr;
    eexists _, _; (split; [reflexivity|]); cbn [app octet_loop length];
    repeat match goal with H : octet_digit _ = true |- _ => rewrite H end;
    rewrite !bool_decide_eq_false_2 by lia; rewrite octet_loop_stops by done.
  all: split_and!; [repeat f_equal; lia|simpl; intros; lia || done|by repeat constructor].
Qed.

(** The digits of an octet. *)
Definition octet_digits (n : Z) : bytes :=
  if n <? 10 then [0x30 + n]
  else if n <? 100 then [0x30 + n / 10; 0x30 + n mod 10]
  else [0x30 + n / 100; 0x30 + n / 10 mod 10; 0x30 + n mod 10].

Lemma decimal_octet n : octet n → decimal n = octet_digits n.
Proof.
  intros Hn. apply (bool_decide_unpack _), Is_true_true.
  revert n Hn. assert (∀ n, is_byte n → bool_decide (decimal n = octet_digits n) = true) as Hall.
  { apply byte_check. by vm_compute. }
  intros n Hn. apply Hall. unfold octet, is_byte in *. lia.
Qed.

Lemma digit_bounds c : octet_digit c = true → 0 ≤ c - 0x30 ≤ 9.
Proof. unfold octet_digit. rewrite andb_true_iff, !Z.leb_le. lia. Qed.

Definition digits_value (value : Z) (ds : bytes) : Z := foldl (λ v c, v * 10 + (c - 0x30)) value ds.

Lemma octet_loop_split at_ count value count' value' rest :
  (count ≤ 3)%nat → octet_loop count value at_ = Some (count', value', rest) →
  ∃ ds, at_ = ds ++ rest ∧ Forall (λ c, octet_digit c = true) ds ∧ count' = (count + length ds)%nat ∧
    (count' ≤ 3)%nat ∧ value' = digits_value value ds ∧ stops rest.
Proof.
  revert count value. induction at_ as [|c at_ IH]; intros count value Hc; cbn [octet_loop].
  - intros [= <- <- <-]. exists []. rewrite Nat.add_0_r. by split_and!.
  - destruct (octet_digit c) eqn:Hd.
    + case_bool_decide; [done|]. intros (ds & -> & Hds & -> & Hle & -> & Hs)%IH; [|lia].
      exists (c :: ds). split_and!; [done|by constructor|simpl; lia|done..].
    + intros [= <- <- <-]. exists []. rewrite Nat.add_0_r. by split_and!.
Qed.

(** Digits that are an octet's are those it is printed with. *)
Lemma octet_loop_inv first tail count value rest :
  octet_loop 0 0 (first :: tail) = Some (count, value, rest) → count ≠ 0%nat → value ≤ 255 →
  ((1 < count)%nat → first ≠ 0x30) →
  octet value ∧ first :: tail = decimal value ++ rest ∧ stops rest.
Proof.
  intros (ds & Hat & Hds & -> & Hle & -> & Hs)%octet_loop_split Hcount Hvalue Hzero; [|lia].
  destruct ds as [|a ds]; [done|]. injection Hat as -> ->.
  apply Forall_cons in Hds as [Ha%digit_bounds Hds].
  assert (octet (digits_value 0 (a :: ds)) ∧ a :: ds = octet_digits (digits_value 0 (a :: ds))) as [Ho Hd].
  2: { split_and!; [done| |done]. by rewrite decimal_octet, <-Hd. }
  unfold octet, octet_digits. destruct ds as [|b [|c [|? ?]]]; cbn [digits_value foldl length] in *; [..|lia].
  - split; [lia|]. ztest. f_equal. lia.
  - apply Forall_cons in Hds as [Hb%digit_bounds _]. specialize (Hzero ltac:(lia)).
    split; [lia|]. ztest. f_equal; [zdiv|]. f_equal. zdiv.
  - apply Forall_cons in Hds as [Hb%digit_bounds [Hc%digit_bounds _]%Forall_cons]. specialize (Hzero ltac:(lia)).
    split; [lia|]. ztest. f_equal; [zdiv|]. f_equal; [zdiv|]. f_equal. zdiv.
Qed.

(** One turn of the loop over the octets. *)
Lemma octets_loop_turn fuel octets at_ :
  octets_loop (S fuel) octets at_ = true ↔
  ∃ n rest, octet n ∧ at_ = decimal n ++ rest ∧ stops rest ∧
    match rest with
    | [] => octets = 3
    | c :: rest => c = DOT ∧ rest ≠ [] ∧ octets_loop fuel (octets + 1) rest = true
    end.
Proof.
  split.
  - destruct at_ as [|first tail]; [done|]. cbn [octets_loop].
    destruct (octet_loop 0 0 (first :: tail)) as [[[count value] rest]|] eqn:E; [|done].
    destruct (_ || _) eqn:Ebad; [done|].
    apply orb_false_iff in Ebad as [[Hc%bool_decide_eq_false Hv%Z.ltb_ge]%orb_false_iff Hz].
    apply octet_loop_inv in E as (Ho & -> & Hs); [|done|done|].
    2: { intros Hcount ->. by rewrite bool_decide_eq_true_2 in Hz by done. }
    intros Hrest. exists value, rest. split_and!; [done..|]. destruct rest as [|c rest].
    + apply Z.eqb_eq in Hrest. lia.
    + destruct (_ || _) eqn:Ec; [done|]. apply orb_false_iff in Ec as [Ec%negb_false_iff%Z.eqb_eq Er%bool_decide_eq_false].
      done.
  - intros (n & rest & Ho & -> & Hs & Hrest).
    destruct (octet_decimal n rest Ho Hs) as (first & text & Hd & Hloop & Hzero & _).
    rewrite Hd in *. cbn [app octets_loop] in *. rewrite Hloop.
    rewrite (bool_decide_eq_false_2 (length (first :: text) = 0%nat)) by done.
    rewrite (proj2 (Z.ltb_ge 255 n)) by (unfold octet in Ho; lia). cbn [orb].
    assert (bool_decide (1 < length (first :: text))%nat && (first =? 0x30) = false) as ->.
    { case_bool_decide; [|done]. by rewrite (proj2 (Z.eqb_neq _ _)) by auto. }
    destruct rest as [|c rest]; [by apply Z.eqb_eq; lia|].
    destruct Hrest as (-> & Hr & Hrest). by rewrite (bool_decide_eq_false_2 (rest = [])).
Qed.

Lemma octets_loop_next fuel octets n rest :
  octet n → rest ≠ [] → octets_loop fuel (octets + 1) rest = true →
  octets_loop (S fuel) octets (decimal n ++ DOT :: rest) = true.
Proof. intros Hn Hr Hl. apply octets_loop_turn. by exists n, (DOT :: rest). Qed.

Lemma octets_loop_few fuel octets at_ : octets_loop fuel octets at_ = true → octets ≤ 3.
Proof.
  revert octets at_. induction fuel as [|fuel IH]; intros octets at_; [done|].
  rewrite octets_loop_turn. intros (n & rest & _ & _ & _ & Hrest). destruct rest as [|c rest]; [lia|].
  destruct Hrest as (_ & _ & Hrest%IH). lia.
Qed.

Lemma octets_loop_dotted at_ :
  octets_loop (length at_) 0 at_ = true ↔ ∃ a b c d, octet a ∧ octet b ∧ octet c ∧ octet d ∧ at_ = dotted a b c d.
Proof.
  split.
  - generalize (length at_). intros fuel.
    assert (∀ fuel k at_, octets_loop fuel k at_ = true → k < 3 →
      ∃ n rest fuel', octet n ∧ at_ = decimal n ++ DOT :: rest ∧ octets_loop fuel' (k + 1) rest = true) as Hmid.
    { intros [|f] k s Hs Hk; [done|]. apply octets_loop_turn in Hs as (n & rest & Hn & -> & _ & Hrest).
      destruct rest as [|c rest]; [lia|]. destruct Hrest as (-> & _ & Hrest). by exists n, rest, f. }
    intros (a & ra & fa & Ha & -> & Hra)%Hmid; [|lia]. apply Hmid in Hra as (b & rb & fb & Hb & -> & Hrb); [|lia].
    apply Hmid in Hrb as (c & rc & fc & Hc & -> & Hrc); [|lia].
    destruct fc as [|fc]; [done|]. apply octets_loop_turn in Hrc as (d & rest & Hd & -> & _ & Hrest).
    exists a, b, c, d. split_and!; [done..|]. unfold dotted. destruct rest as [|x rest]; [by rewrite app_nil_r|].
    destruct Hrest as (_ & _ & Hrest%octets_loop_few). lia.
  - intros (a & b & c & d & Ha & Hb & Hc & Hd & ->).
    assert (∀ n, octet n → decimal n ≠ []) as Hne.
    { intros n Hn. destruct (octet_decimal n [] Hn I) as (first & text & -> & _). done. }
    assert (4 ≤ length (dotted a b c d))%nat as Hlen.
    { unfold dotted. rewrite length_app. cbn [length]. rewrite length_app. cbn [length]. rewrite length_app.
      cbn [length]. pose proof (Hne d Hd). destruct (decimal d); [done|]. simpl. lia. }
    assert (octets_loop (S (S (S (S (length (dotted a b c d) - 4))))) 0 (dotted a b c d) = true) as Hloop.
    2: { by replace (length (dotted a b c d)) with (S (S (S (S (length (dotted a b c d) - 4))))) by lia. }
    generalize (length (dotted a b c d) - 4)%nat. intros fuel. unfold dotted.
    apply octets_loop_next; [done|by intros [_ ?]%app_eq_nil|].
    apply octets_loop_next; [done|by intros [_ ?]%app_eq_nil|]. apply octets_loop_next; [done|by apply Hne|].
    apply octets_loop_turn. exists d, []. rewrite app_nil_r. by split_and!.
Qed.

(** ** The screen *)

Definition host_byte (c : Z) : bool :=
  (c =? COLON) || (c =? DOT) || octet_digit c || ((0x61 <=? c) && (c <=? 0x66)) || ((0x41 <=? c) && (c <=? 0x46)).

Lemma octet_host_bytes n : octet n → forallb host_byte (decimal n) = true.
Proof.
  intros Hn. revert n Hn. assert (∀ n, is_byte n → forallb host_byte (decimal n) = true) as Hall.
  { apply byte_check. by vm_compute. }
  intros n Hn. apply Hall. unfold octet, is_byte in *. lia.
Qed.

Lemma host_byte_taken c :
  (c =? COLON) = false →
  negb (c =? DOT) && negb (octet_digit c) && negb ((0x61 <=? c) && (c <=? 0x66)) && negb ((0x41 <=? c) && (c <=? 0x46))
  = negb (host_byte c).
Proof. intros Hc. unfold host_byte. rewrite Hc. by rewrite !negb_orb. Qed.

(** The loop's answer: [None] for a byte no address has. *)
Lemma host_bytes_plain host v4 ipv6 :
  memchr COLON host = false →
  host_bytes host v4 ipv6 = if forallb host_byte host then Some (ipv6, v4) else None.
Proof.
  induction host as [|c host IH]; [done|]. cbn [forallb memchr existsb host_bytes].
  intros [Hcolon Hno]%orb_false_iff. rewrite Z.eqb_sym in Hcolon. rewrite Hcolon, host_byte_taken by done.
  rewrite IH by done. by destruct (host_byte c).
Qed.

Lemma host_bytes_colon pre host v4 ipv6 :
  memchr COLON host = false →
  host_bytes (pre ++ COLON :: host) v4 ipv6 = if forallb host_byte (pre ++ host) then Some (true, host) else None.
Proof.
  intros Hno. revert v4 ipv6. induction pre as [|c pre IH]; intros v4 ipv6; cbn [app host_bytes forallb].
  - by apply host_bytes_plain.
  - destruct (c =? COLON) eqn:Ec.
    + apply Z.eqb_eq in Ec as ->. apply IH.
    + rewrite host_byte_taken, IH by done. by destruct (host_byte c).
Qed.

(** The screen takes a text with no colon exactly where it is four octets
    as they are printed, with no zero before a digit; and one with colons
    exactly where it is of hexadecimal digits and colons alone, or ends, past
    its last colon, in four such octets. *)
Theorem numeric_host_grammar pre v4 :
  memchr COLON v4 = false →
  let quad s := ∃ a b c d, octet a ∧ octet b ∧ octet c ∧ octet d ∧ s = dotted a b c d in
  (cosmic_numeric_host v4 = true ↔ quad v4) ∧
  (cosmic_numeric_host (pre ++ COLON :: v4) = true ↔
     forallb host_byte pre = true ∧
     (memchr DOT pre = false ∧ memchr DOT v4 = false ∧ forallb host_byte v4 = true ∨ quad v4)).
Proof.
  intros Hno quad. unfold cosmic_numeric_host.
  assert (∀ s, quad s → memchr COLON s = false → forallb host_byte s = true ∧ memchr DOT s = true) as Hquad.
  { intros s (a & b & c & d & Ha & Hb & Hc & Hd & ->) _. split.
    - unfold dotted. rewrite !forallb_app. cbn [forallb]. rewrite !forallb_app. cbn [forallb]. rewrite !forallb_app.
      cbn [forallb]. rewrite !octet_host_bytes by done. done.
    - unfold dotted, memchr. rewrite existsb_app. cbn [existsb]. by rewrite Z.eqb_refl, orb_true_r. }
  assert (octets_loop (length v4) 0 v4 = true ↔ quad v4) as Hdotted by apply octets_loop_dotted.
  split.
  - rewrite host_bytes_plain by done. cbn [andb].
    destruct (forallb host_byte v4) eqn:Hall; [done|]. split; [done|]. intros Hq.
    destruct (Hquad v4 Hq Hno). congruence.
  - rewrite host_bytes_colon by done. rewrite forallb_app.
    destruct (forallb host_byte pre); [|by split; [|intros [? _]]]. cbn [andb].
    assert (memchr DOT (pre ++ COLON :: v4) = memchr DOT pre || memchr DOT v4) as ->.
    { unfold memchr. by rewrite existsb_app. }
    destruct (forallb host_byte v4) eqn:Hall.
    2: { split; [done|]. intros [_ [(_ & _ & [=])|Hq]]. destruct (Hquad v4 Hq Hno). congruence. }
    cbn [andb]. destruct (memchr DOT v4) eqn:Hdot; cbn [negb].
    + rewrite Hdotted. split; [by auto|]. by intros [_ [(_ & ? & _)|?]].
    + rewrite orb_false_r. split; [intros ?%negb_true_iff; by auto|]. intros [_ [(-> & _)|Hq]]; [done|].
      destruct (Hquad v4 Hq Hno). congruence.
Qed.

Lemma numeric_host_grammar_witness :
  cosmic_numeric_host (lit "10.0.0.255") = true ∧ cosmic_numeric_host (lit "010.0.0.1") = false ∧
  cosmic_numeric_host (lit "::ffff:10.0.0.255") = true.
Proof.
  split; [|split; [by vm_compute|]].
  - destruct (numeric_host_grammar [] (lit "10.0.0.255") eq_refl) as [[_ Htakes] _].
    apply Htakes. exists 10, 0, 0, 255. unfold octet. split_and!; first [lia|done].
  - destruct (numeric_host_grammar (lit "::ffff") (lit "10.0.0.255") eq_refl) as [_ [_ Htakes]].
    apply Htakes. split; [done|]. right. exists 10, 0, 0, 255. unfold octet. split_and!; first [lia|done].
Defined.
