(* ===== verification/ConnectorPlan.v ===== *)
(** * The connector's addresses: [core/connector.c]

    The endpoints a caller approves, the table of socket addresses written
    from them in one immutable mapping, the scratch page of a public
    connector, and the lists it refuses addresses by. *)

From S2P Require Import Prelude.
From S2P Require Import Texts.
From S2P Require Import Lua.
From S2P Require Import NumericHost.
From S2P Require Import Connector.

Local Open Scope Z_scope.

(** ** The kernel and libc *)

(** [inet_pton] of an IPv4 and of an IPv6 address's text. *)
Class InetPton := { inet_pton4 : bytes → option bytes; inet_pton6 : bytes → option bytes }.

Class InetPtonLaws `{InetPton} := {
  pton4_bytes : ∀ s a, inet_pton4 s = Some a → length a = 4%nat ∧ all_bytes a;
  pton6_bytes : ∀ s a, inet_pton6 s = Some a → length a = 16%nat ∧ all_bytes a }.

(** [sysconf(_SC_PAGESIZE)], where a mapping of some bytes of zeros is
    placed or its errno, and [mprotect]'s errno, 0 where it succeeds. *)
Class Mapping := { page_size : Z; mmap : Z → Z + Z; mprotect : Z → Z → Z }.

Definition AF_INET : Z := 2.
Definition AF_INET6 : Z := 10.
Definition EINVAL : Z := 22.
Definition EOVERFLOW : Z := 75.

(** Two bytes in the network's order. *)
Definition htons (port : Z) : bytes := [port / 256; port mod 256].

(** [struct sockaddr_in] and [struct sockaddr_in6]: the family in the
    machine's order, the port in the network's. *)
Definition sockaddr_in (port : Z) (address : bytes) : bytes :=
  [AF_INET; 0] ++ htons port ++ address ++ replicate 8 0.
Definition sockaddr_in6 (port : Z) (address : bytes) : bytes :=
  [AF_INET6; 0] ++ htons port ++ replicate 4 0 ++ address ++ replicate 4 0.

(** ** Endpoints *)

(** The address's own bytes, its slots and its length. *)
Record connector_endpoint := Endpoint { e_address : bytes; e_slots : Z; e_length : Z }.

Definition not_numeric : bytes := lit "an endpoint host must be a numeric IPv4 or IPv6 address".
Definition too_many : bytes := lit "endpoints must hold 1 through 128 numeric TCP endpoints".

(** [used] rounded up to [stride]. *)
Definition round_up (used stride : Z) : Z := (used + stride - 1) / stride * stride.

Section endpoints.
Context `{LuaStrings, LuaIntegers, RawLen, LuaFields, InetPton}.

(** [cosmic_checkint]. *)
Definition cosmic_checkint (v : lua_value) : Z + bytes :=
  match lua_tointegerx v with
  | None => inr (lit "number expected")
  | Some value => if (- 2 ^ 31 <=? value) && (value <=? 2 ^ 31 - 1) then inl value else inr (lit "does not fit in an int")
  end.

(** The endpoint a table is, without its slot count. *)
Definition connector_endpoint_of (h : heap) (item : lua_value) : connector_endpoint + bytes :=
  match lua_tolstring (lua_getfield h item (lit "host")) with
  | None => inr (lit "string expected")
  | Some host =>
      if bool_decide (length (c_string host) ≠ length host) then inr (lit "an endpoint host has a NUL")
      else if negb (cosmic_numeric_host host) then inr not_numeric
      else
        let v4 := if memchr COLON host then None else inet_pton4 host in
        let v6 := inet_pton6 host in
        match v4, v6 with
        | None, None => inr not_numeric
        | _, _ =>
            match cosmic_checkint (lua_getfield h item (lit "port")) with
            | inr why => inr why
            | inl port =>
                if (port <? 0) || (65535 <? port) then inr (lit "an endpoint port must be 0 through 65535")
                else
                  let slots := if port =? 0 then 65535 else 1 in
                  match v4, v6 with
                  | Some a, _ => inl (Endpoint (sockaddr_in port a) slots V4_SIZE)
                  | None, Some a => inl (Endpoint (sockaddr_in6 port a) slots V6_SIZE)
                  | None, None => inr not_numeric
                  end
            end
        end
  end.

(** The loop over the list's items, [bytes_] being what the tables take. *)
Fixpoint endpoints_loop (h : heap) (items : list lua_value) (bytes_ : Z) : list connector_endpoint + bytes :=
  match items with
  | [] => inl []
  | LTable a :: items =>
      match connector_endpoint_of h (LTable a) with
      | inr why => inr why
      | inl e =>
          let stride := connector_stride (e_length e) in
          let bytes_ := round_up bytes_ stride + e_slots e * stride in
          if CONNECTOR_TABLE_BYTES <? bytes_ then inr (lit "endpoint port tables exceed 32 MiB")
          else
            match endpoints_loop h items bytes_ with
            | inl es => inl (e :: es)
            | inr why => inr why
            end
      end
  | v :: _ => inr (lit "table expected, got " ++ type_name v)
  end.

Definition connector_endpoints (h : heap) (argument : lua_value) (list_ empty : bool) : list connector_endpoint + bytes :=
  match argument with
  | LTable a =>
      let count := if list_ then lua_rawlen (table_at h a) else 1 in
      if (count =? 0) && negb empty || (CONNECTOR_ENDPOINTS <? count) then inr too_many
      else
        let items := if list_ then (λ i, rawgeti (table_at h a) i) <$> seqZ 1 count else [argument] in
        endpoints_loop h items 0
  | v => inr (lit "table expected, got " ++ type_name v)
  end.

End endpoints.

(** ** The table *)

(** [connector_map]: where the table is, on one side of a multiple of 4 GiB;
    the rest of the span is unmapped. *)
Definition connector_map `{Mapping} (bytes_ : Z) : Z + Z :=
  let span := 2 * bytes_ in
  match mmap span with
  | inr errno => inr errno
  | inl start =>
      let boundary := u64 (Z.lor start UINT32_MAX + 1) in
      if boundary =? 0 then inr EOVERFLOW
      else inl (if start + bytes_ <? boundary then start else boundary)
  end.

(** [memcpy] into a mapping, [at_] from its start. *)
Definition put_bytes (memory : bytes) (at_ : Z) (bs : bytes) : bytes :=
  take (Z.to_nat at_) memory ++ bs ++ drop (Z.to_nat at_ + length bs) memory.

(** The loop over an endpoint's slots from the [j]th on. *)
Fixpoint slots_loop (e : connector_endpoint) (count : nat) (j offset : Z) (memory : bytes) : bytes :=
  match count with
  | O => memory
  | S count =>
      let slot := offset + j * connector_stride (e_length e) in
      let memory := put_bytes memory slot (e_address e) in
      let memory := if 1 <? e_slots e then put_bytes memory (slot + 2) (htons (u32 (j + 1) mod 2 ^ 16)) else memory in
      slots_loop e count (j + 1) offset memory
  end.

(** The loop over the endpoints: the ranges and the memory, or the errno. *)
Fixpoint table_loop (base0 offset : Z) (memory : bytes) (endpoints : list connector_endpoint) :
    list connector_range * bytes + Z :=
  match endpoints with
  | [] => inl ([], memory)
  | e :: endpoints =>
      let stride := connector_stride (e_length e) in
      let offset := round_up offset stride in
      let base := base0 + offset in
      let end_ := base + e_slots e * stride in
      if negb (Z.shiftr base 32 =? Z.shiftr end_ 32) then inr EOVERFLOW
      else
        let memory := slots_loop e (Z.to_nat (e_slots e)) 0 offset memory in
        match table_loop base0 (offset + e_slots e * stride) memory endpoints with
        | inl (ranges, memory) => inl (Range base (e_slots e) (e_length e) :: ranges, memory)
        | inr errno => inr errno
        end
  end.

(** The bytes the endpoints take. *)
Definition table_used (used : Z) (endpoints : list connector_endpoint) : Z :=
  foldl (λ used e, round_up used (connector_stride (e_length e)) + e_slots e * connector_stride (e_length e))
    used endpoints.

(** What [connector_table] leaves in the plan: the ranges, where the table
    is, and what it holds. *)
Record connector_held := Held { h_ranges : list connector_range; h_memory : Z; h_bytes : bytes }.

Definition connector_table `{Mapping} (endpoints : list connector_endpoint) : connector_held + Z :=
  let used := table_used 0 endpoints in
  if used =? 0 then inl (Held [] 0 [])
  else if page_size <=? 0 then inr EINVAL
  else
    let bytes_ := round_up used page_size in
    match connector_map bytes_ with
    | inr errno => inr errno
    | inl base =>
        match table_loop base 0 (replicate (Z.to_nat bytes_) 0) endpoints with
        | inr errno => inr errno
        | inl (ranges, memory) =>
            let failed := mprotect base bytes_ in
            if failed =? 0 then inl (Held ranges base memory) else inr failed
        end
    end.

(** The number of scratch slots, and the ranges [connector_scratch] adds. *)
Definition CONNECTOR_SCRATCH : Z := 2.

Definition connector_scratch `{Mapping} (ranges : list connector_range) : list connector_range * Z + Z :=
  if page_size <? 2 * CONNECTOR_STRIDE then inr EINVAL
  else
    match mmap page_size with
    | inr errno => inr errno
    | inl base => inl (ranges ++ [Range base 1 V4_SIZE; Range (base + CONNECTOR_STRIDE) 1 V6_SIZE], base)
    end.
