(* ===== verification/ConnectorTable.v ===== *)
(** * What the connector's table holds

    The table lies on one side of a multiple of 4 GiB, its ranges are ones
    the filter can express, and each slot holds the address of an endpoint
    that was approved: so a connect the filter lets through goes to one. *)

From S2P Require Import Prelude.
From S2P Require Import Texts.
From S2P Require Import Lua.
From S2P Require Import Promises.
From S2P Require Import PromisesRun.
From S2P Require Import ReadAt.
From S2P Require Import NumericHost.
From S2P Require Import Bpf.
From S2P Require Import Connector.
From S2P Require Import ConnectorFilter.
From S2P Require Import ConnectorPlan.

Local Open Scope Z_scope.

(** ** Bytes written in place *)

Lemma put_lookup memory at_ bs i :
  0 ≤ at_ → at_ + Z.of_nat (length bs) ≤ Z.of_nat (length memory) →
  put_bytes memory at_ bs !! i
  = if bool_decide (Z.to_nat at_ ≤ i < Z.to_nat at_ + length bs)%nat then bs !! (i - Z.to_nat at_)%nat
    else memory !! i.
Proof.
  intros Hat Hfit. unfold put_bytes. assert (length (take (Z.to_nat at_) memory) = Z.to_nat at_) as Hlen.
  { rewrite length_take. lia. }
  case_bool_decide as Hin.
  - rewrite lookup_app_r, lookup_app_l by lia. by rewrite Hlen.
  - destruct (decide (i < Z.to_nat at_)%nat).
    + rewrite lookup_app_l, lookup_take_lt by lia. done.
    + rewrite !lookup_app_r, lookup_drop by lia. f_equal. lia.
Qed.

Lemma put_length memory at_ bs :
  0 ≤ at_ → at_ + Z.of_nat (length bs) ≤ Z.of_nat (length memory) →
  length (put_bytes memory at_ bs) = length memory.
Proof. intros. unfold put_bytes. rewrite !length_app, length_take, length_drop. lia. Qed.

Lemma slice_lookup content o n i :
  slice content o n !! i = if bool_decide (i < Z.to_nat n)%nat then content !! (Z.to_nat o + i)%nat else None.
Proof.
  unfold slice. case_bool_decide; [by rewrite lookup_take_lt, lookup_drop by lia|by rewrite lookup_take_ge by lia].
Qed.

(** What is read elsewhere is what was there. *)
Lemma slice_put_other memory at_ bs o n :
  0 ≤ at_ → at_ + Z.of_nat (length bs) ≤ Z.of_nat (length memory) → 0 ≤ o → 0 ≤ n →
  o + n ≤ at_ ∨ at_ + Z.of_nat (length bs) ≤ o →
  slice (put_bytes memory at_ bs) o n = slice memory o n.
Proof.
  intros Hat Hfit Ho Hn Hout. apply list_eq. intros i. rewrite !slice_lookup. case_bool_decide; [|done].
  rewrite put_lookup by done. rewrite bool_decide_eq_false_2 by lia. done.
Qed.

(** What is read around it is what was there, written in place. *)
Lemma slice_put_around memory at_ bs o n :
  0 ≤ at_ → at_ + Z.of_nat (length bs) ≤ Z.of_nat (length memory) →
  0 ≤ o ≤ at_ → at_ + Z.of_nat (length bs) ≤ o + n → o + n ≤ Z.of_nat (length memory) →
  slice (put_bytes memory at_ bs) o n = put_bytes (slice memory o n) (at_ - o) bs.
Proof.
  intros Hat Hfit Ho Hin Hn. apply list_eq. intros i.
  assert (length (slice memory o n) = Z.to_nat n) as Hlen.
  { unfold slice. rewrite length_take, length_drop. lia. }
  rewrite put_lookup by (rewrite ?Hlen; lia). rewrite !slice_lookup.
  case_bool_decide as Hi.
  - rewrite put_lookup by done. destruct (decide (Z.to_nat at_ ≤ Z.to_nat o + i < Z.to_nat at_ + length bs)%nat) as [H|H].
    + rewrite !bool_decide_eq_true_2 by lia. f_equal. lia.
    + rewrite !bool_decide_eq_false_2 by lia. done.
  - rewrite bool_decide_eq_false_2 by lia. done.
Qed.

Lemma put_whole old bs : length old = length bs → put_bytes old 0 bs = bs.
Proof.
  intros Hlen. unfold put_bytes. simpl. rewrite <-Hlen, drop_all. apply app_nil_r.
Qed.

(** ** The endpoints *)

(** An endpoint as the connector reads it: an IPv4 or an IPv6 address, at
    one port or, for port 0, at all. *)
Definition endpoint_at (e : connector_endpoint) (port : Z) (sockaddr : Z → bytes) : Prop :=
  0 ≤ port ≤ 65535 ∧ e_address e = sockaddr port ∧ e_slots e = (if port =? 0 then 65535 else 1) ∧
  ((∃ a, length a = 4%nat ∧ sockaddr = (λ p, sockaddr_in p a) ∧ e_length e = V4_SIZE) ∨
   (∃ a, length a = 16%nat ∧ sockaddr = (λ p, sockaddr_in6 p a) ∧ e_length e = V6_SIZE)).

Definition endpoint_ok (e : connector_endpoint) : Prop := ∃ port sockaddr, endpoint_at e port sockaddr.

(** The socket addresses an endpoint approves. *)
Definition approved (e : connector_endpoint) (address : bytes) : Prop :=
  ∃ port sockaddr p, endpoint_at e port sockaddr ∧ 1 ≤ p ≤ 65535 ∧ (port = 0 ∨ p = port) ∧ address = sockaddr p.

(** What slot [j] is to hold. *)
Definition slot_address (e : connector_endpoint) (j : Z) : bytes :=
  if 1 <? e_slots e then put_bytes (e_address e) 2 (htons (u32 (j + 1) mod 2 ^ 16)) else e_address e.

Lemma endpoint_lengths e :
  endpoint_ok e →
  Z.of_nat (length (e_address e)) = e_length e ∧ 16 ≤ e_length e ≤ connector_stride (e_length e) ∧
  (e_length e = V4_SIZE ∧ connector_stride (e_length e) = 16 ∨ e_length e = V6_SIZE ∧ connector_stride (e_length e) = 32) ∧
  1 ≤ e_slots e ≤ 65535.
Proof.
  intros (port & sockaddr & Hport & Ha & Hs & Hfam).
  assert (1 ≤ e_slots e ≤ 65535) as Hslots by (rewrite Hs; destruct (port =? 0); lia).
  destruct Hfam as [(a & Hlen & -> & Hl)|(a & Hlen & -> & Hl)]; rewrite Ha, Hl;
    
    unfold sockaddr_in, sockaddr_in6; rewrite !length_app, Hlen; (split; [done|]); (split; [by vm_compute|]);
    (split; [first [by left|by right]|done]).
Qed.

Lemma slot_approved e j : endpoint_ok e → 0 ≤ j < e_slots e → approved e (slot_address e j).
Proof.
  intros (port & sockaddr & He) Hj. exists port, sockaddr. pose proof He as (Hport & Ha & Hs & Hfam).
  unfold slot_address. rewrite Ha. destruct (Z.eqb_spec port 0) as [->|Hne].
  - exists (j + 1). cbn in Hs. rewrite Hs in Hj. rewrite Hs. split_and!; [done|lia|lia|by left|].
    unfold u32. rewrite (Z.mod_small (j + 1) (2 ^ 32)), (Z.mod_small (j + 1) (2 ^ 16)) by lia.
    destruct Hfam as [(a & Hlen & -> & Hl)|(a & Hlen & -> & Hl)]; reflexivity.
  - exists port. rewrite Hs. split_and!; [done|lia|lia|by right|done].
Qed.

Lemma slot_address_length e j : endpoint_ok e → Z.of_nat (length (slot_address e j)) = e_length e.
Proof.
  intros He. destruct (endpoint_lengths e He) as (Hl & Hb & _ & _). unfold slot_address.
  destruct (1 <? e_slots e); [|done]. rewrite put_length; [done|lia|]. change (length (htons _)) with 2%nat. lia.
Qed.

(** The bytes the tables take are counted as the endpoints are read. *)
Lemma endpoints_loop_ok `{LuaStrings, LuaIntegers, RawLen, LuaFields, InetPton, !InetPtonLaws} h items bytes_ es :
  endpoints_loop h items bytes_ = inl es →
  length es = length items ∧ Forall endpoint_ok es ∧ (bytes_ ≤ CONNECTOR_TABLE_BYTES → table_used bytes_ es ≤ CONNECTOR_TABLE_BYTES).
Proof.
  revert bytes_ es. induction items as [|item items IH]; intros bytes_ es; cbn [endpoints_loop].
  { intros [= <-]. by split_and!. }
  destruct item as [| | | | | |a|]; try done.
  destruct (connector_endpoint_of h (LTable a)) as [e|] eqn:Ee; [|done].
  destruct (Z.ltb_spec CONNECTOR_TABLE_BYTES (round_up bytes_ (connector_stride (e_length e)) + e_slots e * connector_stride (e_length e))); [done|].
  destruct (endpoints_loop _ _ _) as [es'|] eqn:Eloop; [|done]. intros [= <-].
  apply IH in Eloop as (Hlen & Hok & Hused). split_and!; [simpl; lia| |intros _; by apply Hused].
  constructor; [|done]. clear IH Hlen Hok Hused. unfold connector_endpoint_of in Ee.
  destruct (lua_tolstring _) as [host|]; [|done]. case_bool_decide; [done|].
  destruct (cosmic_numeric_host host); [cbn [negb] in Ee|done].
  destruct (if memchr COLON host then None else inet_pton4 host) as [v4|] eqn:E4.
  - destruct (memchr COLON host); [done|]. apply pton4_bytes in E4 as [E4 _].
    destruct (cosmic_checkint _) as [port|]; [|done].
    destruct ((port <? 0) || (65535 <? port)) eqn:Ep; [done|]. injection Ee as <-.
    apply orb_false_iff in Ep as [?%Z.ltb_ge ?%Z.ltb_ge]. exists port, (λ p, sockaddr_in p v4).
    split_and!; [done..|left; by exists v4].
  - destruct (inet_pton6 host) as [v6|] eqn:E6; [|done]. apply pton6_bytes in E6 as [E6 _].
    destruct (cosmic_checkint _) as [port|]; [|done].
    destruct ((port <? 0) || (65535 <? port)) eqn:Ep; [done|]. injection Ee as <-.
    apply orb_false_iff in Ep as [?%Z.ltb_ge ?%Z.ltb_ge]. exists port, (λ p, sockaddr_in6 p v6).
    split_and!; [done..|right; by exists v6].
Qed.

Lemma connector_endpoints_ok `{LuaStrings, LuaIntegers, RawLen, LuaFields, InetPton, !InetPtonLaws} h argument_ empty es :
  connector_endpoints h argument_ true empty = inl es →
  Forall endpoint_ok es ∧ table_used 0 es ≤ CONNECTOR_TABLE_BYTES ∧ Z.of_nat (length es) ≤ CONNECTOR_ENDPOINTS.
Proof.
  unfold connector_endpoints. destruct argument_ as [| | | | | |a|]; try done.
  destruct (_ || _) eqn:Ecount; [done|]. apply orb_false_iff in Ecount as [_ Ecount%Z.ltb_ge].
  intros (Hl & Hok & Hused)%endpoints_loop_ok. split_and!; [done|by apply Hused|].
  rewrite Hl, length_fmap, length_seqZ. unfold CONNECTOR_ENDPOINTS in *. lia.
Qed.

(** ** The mapping *)

(** What [mmap(2)] says of the pages of a mapping, where user mappings lie,
    and what the pages' size is. *)
Class MappingLaws `{Mapping} := {
  page_law : ∃ k, 12 ≤ k ≤ 16 ∧ page_size = 2 ^ k;
  mmap_law : ∀ span start, 0 < span → mmap span = inl start →
    0 < start ∧ start mod page_size = 0 ∧ start + span ≤ 2 ^ 47 }.

Lemma round_up_spec n s : 0 < s → n ≤ round_up n s < n + s ∧ round_up n s mod s = 0.
Proof. intros Hs. unfold round_up. split; [|by apply Z.mod_mul; lia]. zdiv. Qed.

Lemma mod_divides n m k : 0 < m → 0 < k → m mod k = 0 → n mod m = 0 → n mod k = 0.
Proof.
  intros Hm Hk [q Hq]%Z.mod_divide [r Hr]%Z.mod_divide; [|lia..]. apply Z.mod_divide; [lia|].
  exists (r * q). rewrite Hr, Hq. lia.
Qed.

Section mapped.
Context `{Hmap : Mapping, !MappingLaws}.

Lemma page_multiple : 4096 ≤ page_size ≤ 65536 ∧ page_size mod 32 = 0 ∧ 2 ^ 32 mod page_size = 0.
Proof.
  destruct page_law as (k & Hk & ->).
  assert (2 ^ 12 ≤ 2 ^ k ≤ 2 ^ 16) by (split; apply Z.pow_le_mono_r; lia).
  assert (∀ m, m ≤ k → 2 ^ k mod 2 ^ m = 0 ∨ m < 0) as Hpow.
  { intros m Hm. destruct (decide (0 ≤ m)); [left|lia]. replace k with (k - m + m) by lia.
    rewrite Z.pow_add_r by lia. apply Z.mod_mul. lia. }
  split_and!; [lia..| |].
  - destruct (Hpow 5); [lia|done|lia].
  - replace 32 with (32 - k + k) by lia. rewrite Z.pow_add_r by lia. apply Z.mod_mul. lia.
Qed.

Lemma boundary_is start :
  0 ≤ start < 2 ^ 47 → u64 (Z.lor start UINT32_MAX + 1) = (start / 2 ^ 32 + 1) * 2 ^ 32.
Proof.
  intros Hs. assert (Z.lor start UINT32_MAX = start / 2 ^ 32 * 2 ^ 32 + UINT32_MAX) as ->.
  { rewrite <-(lor_add _ _ 32) by (unfold UINT32_MAX; lia). apply Z.bits_inj'. intros i Hi.
    rewrite !Z.lor_spec. destruct (Z_lt_le_dec i 32) as [Hlt|Hge].
    - change UINT32_MAX with (Z.ones 32). rewrite Z.ones_spec_low by lia. by rewrite !orb_true_r.
    - rewrite Z.mul_pow2_bits, Z.div_pow2_bits by lia. do 2 f_equal. lia. }
  unfold u64, UINT32_MAX. rewrite Z.mod_small; zdiv.
Qed.

Lemma connector_map_ok bytes_ :
  0 < bytes_ < 2 ^ 32 →
  match connector_map bytes_ with
  | inr errno => mmap (2 * bytes_) = inr errno
  | inl base => 0 < base ∧ base + bytes_ ≤ 2 ^ 47 ∧ base mod page_size = 0 ∧ base / 2 ^ 32 = (base + bytes_) / 2 ^ 32
  end.
Proof.
  intros Hb. unfold connector_map. destruct (mmap (2 * bytes_)) as [start|errno] eqn:Em; [|done].
  destruct (mmap_law (2 * bytes_) start ltac:(lia) Em) as (Hs & Hal & Hfit). destruct page_multiple as (Hp & _ & Hp32).
  rewrite boundary_is by lia. rewrite (proj2 (Z.eqb_neq _ 0)) by zdiv.
  destruct (Z.ltb_spec (start + bytes_) ((start / 2 ^ 32 + 1) * 2 ^ 32)).
  - split_and!; [done|lia|done|zdiv].
  - split_and!; [zdiv|zdiv| |zdiv].
    apply (mod_divides _ (2 ^ 32)); [lia|lia|done|]. apply Z.mod_mul. lia.
Qed.

End mapped.

(** ** The slots *)

(** Bytes before a place are left alone. *)
Definition kept_below (at_ : Z) (old new : bytes) : Prop :=
  ∀ o n, 0 ≤ o → 0 ≤ n → o + n ≤ at_ → slice new o n = slice old o n.

#[local] Instance kept_below_trans at_ : Transitive (kept_below at_).
Proof. intros a b c Hab Hbc o n Ho Hn Hon. by rewrite (Hbc o n), (Hab o n). Qed.

Lemma kept_below_le a b old new : a ≤ b → kept_below b old new → kept_below a old new.
Proof. intros Hab Hk o n Ho Hn Hon. apply Hk; lia. Qed.

(** One slot written. *)
Definition slot_put (e : connector_endpoint) (j slot : Z) (memory : bytes) : bytes :=
  let memory := put_bytes memory slot (e_address e) in
  if 1 <? e_slots e then put_bytes memory (slot + 2) (htons (u32 (j + 1) mod 2 ^ 16)) else memory.

Lemma slot_put_ok e j slot memory :
  endpoint_ok e → 0 ≤ slot → slot + e_length e ≤ Z.of_nat (length memory) →
  let new := slot_put e j slot memory in
  length new = length memory ∧ kept_below slot memory new ∧ slice new slot (e_length e) = slot_address e j.
Proof.
  intros He Hslot Hfit. destruct (endpoint_lengths e He) as (Hlen & Hb & _ & _).
  assert (length (put_bytes memory slot (e_address e)) = length memory) as Hl by (apply put_length; lia).
  assert (kept_below slot memory (put_bytes memory slot (e_address e))) as Hk.
  { intros o n Ho Hn Hon. apply slice_put_other; lia. }
  assert (slice (put_bytes memory slot (e_address e)) slot (e_length e) = e_address e) as Hsl.
  { rewrite slice_put_around by lia. rewrite Z.sub_diag. apply put_whole. rewrite slice_length; lia. }
  unfold slot_put, slot_address. cbv zeta. destruct (1 <? e_slots e); [|by split_and!].
  assert (length (htons (u32 (j + 1) mod 2 ^ 16)) = 2%nat) as Hport by done. split_and!.
  - rewrite put_length; rewrite ?Hport; lia.
  - etrans; [done|]. intros o n Ho Hn Hon. apply slice_put_other; rewrite ?Hport; lia.
  - rewrite slice_put_around by (rewrite ?Hport; lia). rewrite Hsl. f_equal. lia.
Qed.

Lemma slots_loop_ok e count j offset memory :
  endpoint_ok e → 0 ≤ j → j + Z.of_nat count = e_slots e → 0 ≤ offset →
  offset + e_slots e * connector_stride (e_length e) ≤ Z.of_nat (length memory) →
  let stride := connector_stride (e_length e) in
  let new := slots_loop e count j offset memory in
  length new = length memory ∧ kept_below (offset + j * stride) memory new ∧
  ∀ i, j ≤ i < e_slots e → slice new (offset + i * stride) (e_length e) = slot_address e i.
Proof.
  intros He. destruct (endpoint_lengths e He) as (_ & Hb & Hst & _).
  revert j memory. induction count as [|count IH]; intros j memory Hj Hcount Ho Hfit stride new.
  { split_and!; [done|by intros ?|lia]. }
  change new with (slots_loop e count (j + 1) offset (slot_put e j (offset + j * stride) memory)). clear new.
  fold stride in Hb, Hst, Hfit.
  assert (0 < stride ∧ (j + 1) * stride ≤ e_slots e * stride) as [Hpos Hmul].
  { split; [lia|]. apply Z.mul_le_mono_nonneg_r; lia. }
  assert (0 ≤ j * stride) by (by apply Z.mul_nonneg_nonneg; lia).
  destruct (slot_put_ok e j (offset + j * stride) memory) as (Hl & Hk & Hs); [done|lia|lia|].
  destruct (IH (j + 1) (slot_put e j (offset + j * stride) memory)) as (Hl' & Hk' & Hs'); [lia..| |].
  { rewrite Hl. fold stride. lia. }
  fold stride in Hk', Hs'. split_and!; [congruence| |].
  - etrans; [done|]. eapply kept_below_le; [|done]. lia.
  - intros i Hi. destruct (decide (i = j)) as [->|Hne]; [|apply Hs'; lia].
    rewrite <-Hs. apply Hk'; lia.
Qed.

(** ** The table *)

(** What a range's slots hold, the table's memory being [memory] at [base0]. *)
Definition range_holds (base0 : Z) (memory : bytes) (e : connector_endpoint) (r : connector_range) : Prop :=
  range_ok r ∧ r_length r = e_length e ∧ r_slots r = e_slots e ∧ base0 ≤ r_base r ∧
  r_base r + r_slots r * connector_stride (r_length r) ≤ base0 + Z.of_nat (length memory) ∧
  ∀ j, 0 ≤ j < e_slots e →
    slice memory (r_base r + j * connector_stride (r_length r) - base0) (e_length e) = slot_address e j.

Lemma table_used_grows used es : Forall endpoint_ok es → used ≤ table_used used es.
Proof.
  intros Hes. revert used. induction Hes as [|e es He _ IH]; intros used; [done|].
  destruct (endpoint_lengths e He) as (_ & _ & Hst & Hs). etrans; [|apply IH].
  destruct (round_up_spec used (connector_stride (e_length e))) as [? _]; [lia|].
  cbv beta. destruct Hst as [[_ Hst]|[_ Hst]]; rewrite Hst in *; lia.
Qed.

Lemma same_block base0 bytes_ x y :
  base0 / 2 ^ 32 = (base0 + bytes_) / 2 ^ 32 → base0 ≤ x → x ≤ y → y ≤ base0 + bytes_ → x / 2 ^ 32 = y / 2 ^ 32.
Proof. intros. zdiv. Qed.

Lemma table_loop_ok base0 offset memory es :
  Forall endpoint_ok es → 0 < base0 → base0 + Z.of_nat (length memory) ≤ 2 ^ 47 → base0 mod 32 = 0 →
  base0 / 2 ^ 32 = (base0 + Z.of_nat (length memory)) / 2 ^ 32 → 0 ≤ offset →
  table_used offset es ≤ Z.of_nat (length memory) →
  ∃ ranges new, table_loop base0 offset memory es = inl (ranges, new) ∧
    length new = length memory ∧ kept_below offset memory new ∧ Forall2 (range_holds base0 new) es ranges.
Proof.
  intros Hes Hbase Htop Hal Hin. revert offset memory Htop Hin.
  induction Hes as [|e es He Hes IH]; intros offset memory Htop Hin Ho Hused; cbn [table_loop].
  { exists [], memory. by split_and!. }
  destruct (endpoint_lengths e He) as (_ & Hlen & Hst & Hslots).
  set (stride := connector_stride (e_length e)) in *. set (offset' := round_up offset stride).
  assert (table_used offset (e :: es) = table_used (offset' + e_slots e * stride) es) as Hcons by done.
  rewrite Hcons in Hused.
  destruct (round_up_spec offset stride) as [Hoff Hmod]; [lia|]. fold offset' in Hoff, Hmod.
  pose proof (table_used_grows (offset' + e_slots e * stride) es Hes) as Hgrow.
  assert (0 < e_slots e * stride) by (apply Z.mul_pos_pos; lia).
  assert ((base0 + offset') / 2 ^ 32 = (base0 + offset' + e_slots e * stride) / 2 ^ 32) as Hblock.
  { eapply same_block; [exact Hin|lia..]. }
  rewrite !Z.shiftr_div_pow2, (proj2 (Z.eqb_eq _ _) Hblock) by done. cbn [negb].
  destruct (slots_loop_ok e (Z.to_nat (e_slots e)) 0 offset' memory) as (Hl & Hk & Hs); [done|lia|lia|lia|fold stride; lia|].
  fold stride in Hk, Hs. set (mid := slots_loop e _ 0 offset' memory) in *.
  destruct (IH (offset' + e_slots e * stride) mid) as (ranges & new & -> & Hl' & Hk' & Hr); [rewrite Hl; done..|lia|rewrite Hl; lia|].
  exists (Range (base0 + offset') (e_slots e) (e_length e) :: ranges), new. split_and!; [done|congruence| |].
  - etrans; [eapply kept_below_le; [|exact Hk]; lia|]. eapply kept_below_le; [|exact Hk']. lia.
  - constructor; [|done]. unfold range_holds. cbn [r_base r_slots r_length]. fold stride. split_and!; try done; [|lia..|].
    + constructor; cbn [r_base r_slots r_length]; fold stride; [destruct Hst as [[? _]|[? _]]; auto|lia|done| |done].
      destruct Hst as [[_ Hst]|[_ Hst]]; rewrite Hst in *; zdiv.
    + intros j Hj. replace (base0 + offset' + j * stride - base0) with (offset' + j * stride) by lia.
      rewrite <-(Hs j) by lia. assert ((j + 1) * stride ≤ e_slots e * stride) by (apply Z.mul_le_mono_nonneg_r; lia).
      apply Hk'; [|lia..]. apply Z.add_nonneg_nonneg; [lia|]. apply Z.mul_nonneg_nonneg; lia.
Qed.

Section table.
Context `{Hmap : Mapping, !MappingLaws}.

Lemma connector_table_ok es :
  Forall endpoint_ok es → table_used 0 es ≤ CONNECTOR_TABLE_BYTES →
  match connector_table es with
  | inl held => Forall2 (range_holds (h_memory held) (h_bytes held)) es (h_ranges held)
  | inr errno => (∃ span, mmap span = inr errno) ∨ (∃ base span, errno ≠ 0 ∧ mprotect base span = errno)
  end.
Proof.
  intros Hes Hused. unfold connector_table.
  assert (0 ≤ table_used 0 es) as Hpos by (by apply table_used_grows).
  destruct (Z.eqb_spec (table_used 0 es) 0) as [Hz|Hz].
  { destruct Hes as [|e es He Hes]; [constructor|]. exfalso.
    destruct (endpoint_lengths e He) as (_ & _ & Hst & Hs).
    pose proof (table_used_grows (round_up 0 (connector_stride (e_length e)) + e_slots e * connector_stride (e_length e)) es Hes) as Hg.
    destruct (round_up_spec 0 (connector_stride (e_length e))) as [? _]; [lia|].
    change (table_used 0 (e :: es))
      with (table_used (round_up 0 (connector_stride (e_length e)) + e_slots e * connector_stride (e_length e)) es) in Hz.
    destruct Hst as [[_ Hst]|[_ Hst]]; rewrite Hst in *; lia. }
  destruct page_multiple as (Hp & Hp32 & _). rewrite (proj2 (Z.leb_gt page_size 0)) by lia.
  destruct (round_up_spec (table_used 0 es) page_size) as [Hr _]; [lia|].
  set (bytes_ := round_up (table_used 0 es) page_size) in *. unfold CONNECTOR_TABLE_BYTES in Hused.
  pose proof (connector_map_ok bytes_ ltac:(lia)) as Hm. destruct (connector_map bytes_) as [base|errno]; [|by left; exists (2 * bytes_)].
  destruct Hm as (Hb & Htop & Hal & Hblock).
  assert (Z.of_nat (length (replicate (Z.to_nat bytes_) 0)) = bytes_) as Hlen by (rewrite length_replicate; lia).
  destruct (table_loop_ok base 0 (replicate (Z.to_nat bytes_) 0) es) as (ranges & new & -> & _ & _ & Hranges);
    rewrite ?Hlen; [done|lia|lia|by apply (mod_divides _ page_size); lia|done|lia|lia|].
  destruct (Z.eqb_spec (mprotect base bytes_) 0); [done|]. right. by exists base, bytes_.
Qed.

(** A slot the filter lets through is one of the range's. *)
Lemma slot_of_index r pointer length_ :
  range_ok r → slot_of r pointer length_ = true →
  ∃ j, 0 ≤ j < r_slots r ∧ pointer = r_base r + j * connector_stride (r_length r) ∧ length_ = r_length r.
Proof.
  intros [Hlen _ _ _ _] Hslot. unfold slot_of in Hslot.
  rewrite !andb_true_iff, Z.leb_le, Z.ltb_lt, !Z.eqb_eq in Hslot. destruct Hslot as (((Hlo & Hhi) & Hmod) & Hl).
  assert (0 < connector_stride (r_length r)) as Hs by (destruct Hlen as [-> | ->]; by vm_compute).
  revert Hhi Hmod Hs. generalize (connector_stride (r_length r)). intros s Hhi Hmod Hs.
  exists ((pointer - r_base r) / s). split_and!; [apply Z.div_pos; lia|apply Z.div_lt_upper_bound; lia| |done].
  apply Z.div_exact in Hmod; lia.
Qed.

(** A connect to one of the table's ranges goes to an approved address. *)
Lemma table_slot held es r pointer length_ :
  Forall endpoint_ok es → Forall2 (range_holds (h_memory held) (h_bytes held)) es (h_ranges held) →
  r ∈ h_ranges held → slot_of r pointer length_ = true →
  ∃ e, e ∈ es ∧ approved e (slice (h_bytes held) (pointer - h_memory held) length_).
Proof.
  intros Hok Htable [i Hi]%list_elem_of_lookup Hslot.
  destruct (Forall2_lookup_r _ _ _ _ _ Htable Hi) as (e & He & Hrange).
  destruct Hrange as (Hrok & Hrl & Hrs & _ & _ & Hholds).
  apply slot_of_index in Hslot as (j & Hj & -> & ->); [|done]. exists e. split; [by eapply list_elem_of_lookup_2|].
  rewrite Hrl at 2. rewrite Hholds by lia. apply slot_approved; [|lia]. by eapply Forall_lookup.
Qed.

Lemma table_ranges_ok held es :
  Forall2 (range_holds (h_memory held) (h_bytes held)) es (h_ranges held) → Forall range_ok (h_ranges held).
Proof.
  intros Htable. apply Forall_forall. intros r [i Hi]%list_elem_of_lookup.
  destruct (Forall2_lookup_r _ _ _ _ _ Htable Hi) as (e & _ & He). apply He.
Qed.

End table.

(** ** One kernel *)

Module Straddling.

(** Two addresses' texts, fields read as they are, and a kernel whose
    mappings start a page below a multiple of 4 GiB. *)
#[export] Instance pton : InetPton := {
  inet_pton4 s := if bool_decide (s = lit "10.0.0.1") then Some [10; 0; 0; 1] else None;
  inet_pton6 s := if bool_decide (s = lit "::1") then Some (replicate 15 0 ++ [1]) else None }.

#[export] Instance pton_laws : InetPtonLaws.
Proof.
  split; intros s a; simpl; case_bool_decide; intros [= <-];
    (split; [done|]); repeat (apply Forall_cons; split; [by vm_compute|]); by apply Forall_nil.
Qed.

#[export] Instance fields : LuaFields :=
  λ h v k, match v with LTable a => rawget (table_at h a) (LString k) | _ => LNil end.

#[export] Instance mapping : Mapping := {
  page_size := 4096;
  mmap span := if span <=? 2 ^ 40 then inl (0x7eff00000000 - 4096) else inr 12;
  mprotect _ _ := 0 }.

#[export] Instance mapping_laws : MappingLaws.
Proof.
  split; [by exists 12|]. intros span start Hspan. simpl. destruct (Z.leb_spec span (2 ^ 40)); [|done].
  intros [= <-]. split_and!; [done|done|lia].
Qed.

Definition two : heap :=
  <[1%positive := Table None [(LInt 1, LTable 2); (LInt 2, LTable 3)]]>
  (<[2%positive := Table None [(LString (lit "host"), LString (lit "10.0.0.1")); (LString (lit "port"), LInt 80)]]>
  (<[3%positive := Table None [(LString (lit "host"), LString (lit "::1")); (LString (lit "port"), LInt 443)]]> ∅)).

Definition two_endpoints : list connector_endpoint :=
  [Endpoint (sockaddr_in 80 [10; 0; 0; 1]) 1 V4_SIZE; Endpoint (sockaddr_in6 443 (replicate 15 0 ++ [1])) 1 V6_SIZE].

End Straddling.
