(* ===== verification/ConnectorPublic.v ===== *)
(** * A public connector's lists: [core/connector.c]

    The addresses and prefixes a public connector refuses, as its caller's
    lists spell them, and whether it may connect to an address. *)

From S2P Require Import Prelude.
From S2P Require Import Texts.
From S2P Require Import ReadAt.
From S2P Require Import Lua.
From S2P Require Import NumericHost.
From S2P Require Import ConnectorPlan.
From S2P Require Import ConnectorTable.

Local Open Scope Z_scope.

(** ** The lists *)

Definition CONNECTOR_DENY : Z := 128.
Definition CONNECTOR_OWN : Z := 256.
Definition SLASH : Z := 0x2f.

(** Sixteen bytes, how many are the address's, and how many bits are held. *)
Record connector_prefix := Prefix { p_bytes : bytes; p_length : Z; p_bits : Z }.

Record connector_public := Public { deny : list connector_prefix; own : list connector_prefix; enabled : bool }.

(** The first bytes of an IPv4-mapped address. *)
Definition mapped : bytes := replicate 10 0 ++ [0xff; 0xff].

Definition connector_address `{InetPton} (text : bytes) (reduce : bool) : option connector_prefix :=
  if negb (cosmic_numeric_host text) then None
  else if negb (memchr COLON text) then
    a ← inet_pton4 text; Some (Prefix (a ++ replicate 12 0) 4 32)
  else
    a ← inet_pton6 text;
    Some (if reduce && bool_decide (take 12 a = mapped)
          then Prefix (take 4 (drop 12 a) ++ replicate 12 0) 4 32
          else Prefix a 16 128).

(** The loop over the digits of a prefix's length. *)
Fixpoint bits_loop (bits : Z) (digits : bytes) : option Z :=
  match digits with
  | [] => Some bits
  | digit :: digits => if octet_digit digit then bits_loop (bits * 10 + (digit - 0x30)) digits else None
  end.

Definition parse_prefix `{InetPton} (text : bytes) (cidr : bool) : option connector_prefix :=
  if cidr then
    match span (λ c, negb (c =? SLASH)) text with
    | (host, _ :: digits) =>
        if bool_decide (digits = []) || bool_decide (3 < length digits)%nat then None
        else if bool_decide (head digits = Some 0x30) && bool_decide (tail digits ≠ []) then None
        else
          bits ← bits_loop 0 digits;
          p ← connector_address host false;
          if p_length p * 8 <? bits then None else Some (Prefix (p_bytes p) (p_length p) bits)
    | _ => None
    end
  else connector_address text true.

Section lists.
Context `{LuaStrings, RawLen, LuaFields, InetPton}.

(** The loop over a list's entries. *)
Fixpoint prefixes_loop (items : list lua_value) (cidr : bool) : list connector_prefix + bytes :=
  match items with
  | [] => inl []
  | item :: items =>
      match lua_tolstring item with
      | None => inr (lit "string expected, got " ++ type_name item)
      | Some text =>
          if bool_decide (64 ≤ length text)%nat || bool_decide (length (c_string text) ≠ length text)
          then inr (lit "a public entry is not an address")
          else
            match parse_prefix text cidr with
            | None =>
                inr (if cidr then lit "a deny entry must be a numeric address and prefix length, as 10.0.0.0/8"
                     else lit "an own entry must be a numeric address")
            | Some p =>
                match prefixes_loop items cidr with
                | inl ps => inl (p :: ps)
                | inr why => inr why
                end
            end
      end
  end.

(** A list's entries. *)
Definition entries (h : heap) (list_ : lua_value) : list lua_value :=
  match list_ with
  | LTable a => (λ i, rawgeti (table_at h a) i) <$> seqZ 1 (lua_rawlen (table_at h a))
  | _ => []
  end.

Definition connector_prefixes (h : heap) (list_ : lua_value) (cidr : bool) (limit : Z) : list connector_prefix + bytes :=
  match list_ with
  | LTable a =>
      if limit <? lua_rawlen (table_at h a) then inr (lit "a public list holds too many entries")
      else prefixes_loop (entries h list_) cidr
  | _ => inr (if cidr then lit "public needs a deny list" else lit "public's own must be a list")
  end.

Definition connector_public_read (h : heap) (argument_ : lua_value) : connector_public + bytes :=
  match argument_ with
  | LTable _ =>
      match connector_prefixes h (lua_getfield h argument_ (lit "deny")) true CONNECTOR_DENY with
      | inr why => inr why
      | inl denies =>
          let own_ := lua_getfield h argument_ (lit "own") in
          if bool_decide (own_ = LNil) then inl (Public denies [] true)
          else
            match connector_prefixes h own_ false CONNECTOR_OWN with
            | inr why => inr why
            | inl owns => inl (Public denies owns true)
            end
      end
  | v => inr (lit "table expected, got " ++ type_name v)
  end.

End lists.

(** ** The decision *)

Definition connector_within (prefix : connector_prefix) (address : bytes) (length_ : Z) : bool :=
  if negb (p_length prefix =? length_) then false
  else
    let whole := Z.to_nat (p_bits prefix / 8) in
    let rest := p_bits prefix mod 8 in
    if negb (bool_decide (take whole (p_bytes prefix) = take whole address)) then false
    else if rest =? 0 then true
    else
      let mask := u8 (Z.shiftl 0xff (8 - rest)) in
      Z.land (Z.lxor (p_bytes prefix !!! whole) (address !!! whole)) mask =? 0.

Definition connector_public_allowed (pub : connector_public) (address : bytes) (length_ : Z) : bool :=
  if (length_ =? 16) && negb (Z.land (address !!! 0%nat) 0xe0 =? 0x20) then false
  else if existsb (λ p, connector_within p address length_) (deny pub) then false
  else negb (existsb (λ p, connector_within p address length_) (own pub)).

(** * Whom a public connector refuses

    An entry of its lists is an address, or one with the length of a prefix;
    an address is refused exactly where its leading bits are a deny entry's,
    where it is one of the connector's own, or where it is an IPv6 address
    that is no global unicast one. *)

(** ** Whether a prefix holds an address *)

(** A prefix as a list's entry makes it: an address's bytes, padded. *)
Definition prefix_of (a : bytes) (bits : Z) : connector_prefix :=
  Prefix (a ++ replicate (16 - length a) 0) (Z.of_nat (length a)) bits.

Lemma mask_bits x y rest :
  is_byte x → is_byte y → 0 < rest < 8 →
  (Z.land (Z.lxor x y) (u8 (Z.shiftl 0xff (8 - rest))) =? 0) = (x / 2 ^ (8 - rest) =? y / 2 ^ (8 - rest)).
Proof.
  intros Hx Hy Hr. rewrite <-!Z.shiftr_div_pow2 by lia.
  assert (∀ z, is_byte z → eqb (Z.land z (u8 (Z.shiftl 0xff (8 - rest))) =? 0) (Z.shiftr z (8 - rest) =? 0) = true) as Hz.
  { apply byte_check.
    assert (rest = 1 ∨ rest = 2 ∨ rest = 3 ∨ rest = 4 ∨ rest = 5 ∨ rest = 6 ∨ rest = 7) as Hcases by lia.
    destruct_or! Hcases; subst; by vm_compute. }
  rewrite (eqb_prop _ _ (Hz _ (lxor_byte _ _ Hx Hy))), Z.shiftr_lxor.
  apply eq_true_iff_eq. rewrite !Z.eqb_eq. apply Z.lxor_eq_0_iff.
Qed.

Lemma within_leading a bits address :
  all_bytes a → all_bytes address → (length a ≤ 16)%nat → 0 ≤ bits ≤ 8 * Z.of_nat (length a) →
  connector_within (prefix_of a bits) address (Z.of_nat (length address)) = true ↔
  length a = length address ∧ leading bits a = leading bits address.
Proof.
  intros Ha Hb Hlen Hbits. unfold connector_within. cbn [p_length p_bits p_bytes prefix_of].
  destruct (Z.eqb_spec (Z.of_nat (length a)) (Z.of_nat (length address))) as [Hl%Nat2Z.inj|Hne]; cbn [negb].
  2: { split; [done|]. intros [Hl _]. by rewrite Hl in Hne. }
  set (whole := Z.to_nat (bits / 8)). set (rest := bits mod 8).
  assert (bits = 8 * Z.of_nat whole + rest ∧ 0 ≤ rest < 8 ∧ (whole ≤ length a)%nat) as (Hsplit & Hrest & Hwhole).
  { unfold whole, rest. split_and!; zdiv. }
  rewrite take_app_le by done. clearbody whole rest. subst bits.
  assert (length (take whole a) = whole ∧ length (take whole address) = whole) as [Hta Htb].
  { rewrite !length_take. lia. }
  assert (be_value (take whole a) = be_value (take whole address) ↔ take whole a = take whole address) as Hinj.
  { split; [|by intros ->]. intros Hv. apply be_value_inj in Hv; [done|by apply Forall_take..|congruence]. }
  destruct (Z.eqb_spec rest 0) as [->|Hne].
  - rewrite Z.add_0_r.
    pose proof (leading_bytes (take whole a) (drop whole a) (Forall_drop _ _ _ Ha)) as Hla.
    pose proof (leading_bytes (take whole address) (drop whole address) (Forall_drop _ _ _ Hb)) as Hlb.
    rewrite take_drop, Hta in Hla. rewrite take_drop, Htb in Hlb. rewrite Hla, Hlb, Hinj.
    case_bool_decide; cbn [negb]; split; [done..|]. by intros [_ ?].
  - destruct (lookup_lt_is_Some_2 a whole ltac:(lia)) as [x Hx].
    destruct (lookup_lt_is_Some_2 address whole ltac:(lia)) as [y Hy].
    assert ((a ++ replicate (16 - length a) 0) !!! whole = x) as ->.
    { apply list_lookup_total_correct. by rewrite lookup_app_l by lia. }
    rewrite (list_lookup_total_correct _ _ _ Hy).
    pose proof (Forall_lookup_1 _ _ _ _ Ha Hx) as Hxb. pose proof (Forall_lookup_1 _ _ _ _ Hb Hy) as Hyb.
    rewrite mask_bits by (done || lia).
    pose proof (leading_split (take whole a) x (drop (S whole) a) rest ltac:(lia) Hxb (Forall_drop _ _ _ Ha)) as Hla.
    pose proof (leading_split (take whole address) y (drop (S whole) address) rest ltac:(lia) Hyb (Forall_drop _ _ _ Hb)) as Hlb.
    rewrite Hta, take_drop_middle in Hla by done. rewrite Htb, take_drop_middle in Hlb by done. rewrite Hla, Hlb.
    assert (∀ z, is_byte z → 0 ≤ z / 2 ^ (8 - rest) < 2 ^ rest) as Hsmall.
    { intros z Hz. unfold is_byte in Hz. assert (2 ^ rest * 2 ^ (8 - rest) = 256) as Hp.
      { rewrite <-Z.pow_add_r by lia. by replace (rest + (8 - rest)) with 8 by lia. }
      split; [apply Z.div_pos; lia|]. apply Z.div_lt_upper_bound; lia. }
    pose proof (Hsmall x Hxb). pose proof (Hsmall y Hyb). clear Hla Hlb Hsmall.
    revert Hinj. case_bool_decide as Heq; cbn [negb]; intros Hinj; rewrite ?Z.eqb_eq.
    + rewrite Heq. split; [intros ->; done|]. intros [_ Hv]. lia.
    + split; [done|]. intros [_ Hv]. exfalso. apply Heq, Hinj. clear Hinj. nia.
Qed.

(** ** The entries' texts *)

(** A numeric address's bytes. *)
Definition numeric_address `{InetPton} (text : bytes) : option bytes :=
  if cosmic_numeric_host text then if memchr COLON text then inet_pton6 text else inet_pton4 text else None.

Lemma bits_loop_octet count bits digits value count' :
  octet_loop count bits digits = Some (count', value, []) →
  bits_loop bits digits = Some value.
Proof.
  revert count bits. induction digits as [|c digits IH]; intros count bits; cbn [octet_loop bits_loop].
  - by intros [= _ <-].
  - destruct (octet_digit c); [|by intros [= _ _ ?]]. case_bool_decide; [done|]. apply IH.
Qed.

Lemma octet_bits_loop count bits digits value :
  bits_loop bits digits = Some value → (count + length digits ≤ 3)%nat →
  octet_loop count bits digits = Some ((count + length digits)%nat, value, []).
Proof.
  revert count bits. induction digits as [|c digits IH]; intros count bits; cbn [octet_loop bits_loop length].
  - intros [= <-]. by rewrite Nat.add_0_r.
  - destruct (octet_digit c); [|done]. intros Hb Hc. rewrite bool_decide_eq_false_2 by lia.
    rewrite (IH _ _ Hb) by lia. do 3 f_equal. lia.
Qed.

Lemma octet_length n : octet n → (1 ≤ length (decimal n) ≤ 3)%nat ∧ (head (decimal n) = Some 0x30 → tail (decimal n) = []).
Proof.
  intros Hn. rewrite decimal_octet by done. unfold octet in Hn. unfold octet_digits.
  destruct (Z.ltb_spec n 10); [simpl; split; [lia|done]|].
  destruct (Z.ltb_spec n 100); simpl; (split; [lia|]); intros [= ?]; exfalso; zdiv.
Qed.

(** A prefix's length is written as it is printed. *)
Lemma prefix_digits digits bits :
  bits ≤ 255 →
  (bool_decide (digits = []) || bool_decide (3 < length digits)%nat = false ∧
   bool_decide (head digits = Some 0x30) && bool_decide (tail digits ≠ []) = false ∧
   bits_loop 0 digits = Some bits) ↔ digits = decimal bits ∧ 0 ≤ bits.
Proof.
  intros Hbits. split.
  - intros ([Hne%bool_decide_eq_false Hlen%bool_decide_eq_false]%orb_false_iff & Hzero & Hloop).
    apply (octet_bits_loop 0) in Hloop; [|lia]. destruct digits as [|first rest]; [done|].
    apply octet_loop_inv in Hloop as (Ho & Hd & _); [|simpl; lia|done|].
    + rewrite app_nil_r in Hd. unfold octet in Ho. split; [done|lia].
    + intros Hcount ->. destruct rest as [|c rest]; [simpl in Hcount; lia|].
      by rewrite !bool_decide_eq_true_2 in Hzero by done.
  - intros [-> Hpos]. assert (octet bits) as Ho by (unfold octet; lia).
    destruct (octet_length bits Ho) as [Hlen Hzero]. split_and!.
    + rewrite !bool_decide_eq_false_2; [done|lia|]. intros E. rewrite E in Hlen. simpl in Hlen. lia.
    + case_bool_decide as Hh; [|done]. rewrite bool_decide_eq_false_2; [done|]. intros Ht. by apply Ht, Hzero.
    + destruct (octet_decimal bits [] Ho I) as (first & text & _ & Hl & _ & _). rewrite app_nil_r in Hl.
      by apply bits_loop_octet in Hl.
Qed.

Section entries.
Context `{InetPton, !InetPtonLaws}.

Lemma numeric_address_bytes text a : numeric_address text = Some a → all_bytes a ∧ (length a = 4 ∨ length a = 16)%nat.
Proof.
  unfold numeric_address. destruct (cosmic_numeric_host text); [|done].
  destruct (memchr COLON text); [intros [? ?]%pton6_bytes|intros [? ?]%pton4_bytes]; auto.
Qed.

Lemma connector_address_numeric text :
  connector_address text false = (λ a, prefix_of a (8 * Z.of_nat (length a))) <$> numeric_address text.
Proof.
  unfold connector_address, numeric_address. destruct (cosmic_numeric_host text); [|done]. cbn [negb].
  destruct (memchr COLON text); cbn [negb].
  - destruct (inet_pton6 text) as [a|] eqn:E; [|done]. apply pton6_bytes in E as [E _]. csimpl.
    unfold prefix_of. rewrite E. cbn [Nat.sub replicate]. by rewrite app_nil_r.
  - destruct (inet_pton4 text) as [a|] eqn:E; [|done]. apply pton4_bytes in E as [E _]. csimpl.
    unfold prefix_of. by rewrite E.
Qed.

Lemma host_no_slash text : cosmic_numeric_host text = true → forallb (λ c, negb (c =? SLASH)) text = true.
Proof.
  unfold cosmic_numeric_host. intros Hn. assert (∃ r, host_bytes text text false = Some r) as [r Hr].
  { destruct (host_bytes text text false) as [r|]; [by exists r|done]. }
  clear Hn. revert Hr. generalize text at 2, false. revert r.
  induction text as [|c text IH]; intros r v4 ipv6; [done|]. cbn [host_bytes forallb].
  destruct (c =? COLON) eqn:Ec.
  - apply Z.eqb_eq in Ec as ->. intros Hr. by rewrite (IH _ _ _ Hr).
  - destruct (negb (c =? DOT) && _ && _ && _) eqn:Et; [done|]. intros Hr. rewrite (IH _ _ _ Hr), andb_true_r.
    apply negb_true_iff, Z.eqb_neq. intros ->. by vm_compute in Et.
Qed.

(** A deny entry is an address, a slash and the length of the prefix. *)
Lemma parse_prefix_cidr text p :
  parse_prefix text true = Some p ↔
  ∃ host bits a, text = host ++ SLASH :: decimal bits ∧ numeric_address host = Some a ∧
    0 ≤ bits ≤ 8 * Z.of_nat (length a) ∧ p = prefix_of a bits.
Proof.
  split.
  - unfold parse_prefix. destruct (span _ text) as [host [|slash digits]] eqn:Es; [done|].
    destruct (bool_decide (digits = []) || _) eqn:E1; [done|].
    destruct (bool_decide (head digits = _) && _) eqn:E2; [done|].
    destruct (bits_loop 0 digits) as [bits|] eqn:E3; [|done]. cbn [mbind option_bind].
    rewrite connector_address_numeric. destruct (numeric_address host) as [a|] eqn:Ea; [|done]. csimpl.
    destruct (Z.ltb_spec (Z.of_nat (length a) * 8) bits) as [|Hbits]; [done|]. intros [= <-].
    destruct (numeric_address_bytes _ _ Ea) as [_ Hlen].
    destruct (proj1 (prefix_digits digits bits ltac:(lia))) as [-> Hpos]; [done|].
    exists host, bits, a. split_and!; [|done|done|lia|done].
    clear -Es. revert host Es. induction text as [|c text IH]; intros host; simpl; [done|].
    destruct (Z.eqb_spec c SLASH) as [->|]; cbn [negb]; [by intros [= <- <- <-]|].
    destruct (span _ text) as [x y]. intros [= <- ->]. simpl. f_equal. by apply IH.
  - intros (host & bits & a & -> & Ha & Hbits & ->). unfold parse_prefix.
    destruct (numeric_address_bytes _ _ Ha) as [_ Hlen].
    rewrite span_app; [|apply host_no_slash; unfold numeric_address in Ha; by destruct (cosmic_numeric_host host)|done].
    destruct (proj2 (prefix_digits (decimal bits) bits ltac:(lia))) as (-> & -> & ->); [split; [done|lia]|].
    csimpl. rewrite connector_address_numeric, Ha. csimpl. rewrite (proj2 (Z.ltb_ge _ _)) by lia. done.
Qed.

(** An own entry is an address, an IPv4-mapped one the IPv4 one in it. *)
Lemma parse_prefix_own text p :
  parse_prefix text false = Some p →
  ∃ a b, numeric_address text = Some a ∧ p = prefix_of b (8 * Z.of_nat (length b)) ∧ all_bytes b ∧
    (length b = 4 ∨ length b = 16)%nat ∧ (a = b ∧ (length a = 16%nat → take 12 a ≠ mapped) ∨ length a = 16%nat ∧ a = mapped ++ b).
Proof.
  unfold parse_prefix, connector_address, numeric_address. destruct (cosmic_numeric_host text); [cbn [negb]|done].
  destruct (memchr COLON text); cbn [negb].
  - destruct (inet_pton6 text) as [a|] eqn:E; [|done]. apply pton6_bytes in E as [E Hb]. cbn [mbind option_bind andb].
    case_bool_decide as Hm; intros [= <-].
    + exists a, (drop 12 a). assert (length (drop 12 a) = 4%nat) as Hl by (rewrite length_drop; lia).
      split_and!; [done| |by apply Forall_drop|by left|right; split; [done|by rewrite <-Hm, take_drop]].
      unfold prefix_of. rewrite Hl, take_ge by lia. done.
    + exists a, a. split_and!; [done| |done|by right|by left].
      unfold prefix_of. rewrite E. cbn [Nat.sub replicate]. by rewrite app_nil_r.
  - destruct (inet_pton4 text) as [a|] eqn:E; [|done]. apply pton4_bytes in E as [E Hb]. csimpl. intros [= <-].
    exists a, a. split_and!; [done| |done|by left|left; split; [done|by rewrite E]].
    unfold prefix_of. by rewrite E.
Qed.

End entries.

(** ** The decision *)

(** A deny entry's text refuses an address of its family with its leading
    bits. *)
Definition denies `{InetPton} (text address : bytes) : Prop :=
  ∃ host bits a, text = host ++ SLASH :: decimal bits ∧ numeric_address host = Some a ∧
    0 ≤ bits ≤ 8 * Z.of_nat (length a) ∧ length a = length address ∧ leading bits a = leading bits address.

(** An own entry's text refuses its address, an IPv4-mapped one the IPv4
    address too. *)
Definition owns `{InetPton} (text address : bytes) : Prop :=
  ∃ a, numeric_address text = Some a ∧ (address = a ∨ a = mapped ++ address).

(** Global unicast: 2000::/3. *)
Definition unicast (address : bytes) : Prop := length address = 16%nat → leading 3 address = 1.

Section decision.
Context `{LuaStrings, RawLen, LuaFields, Hpton : InetPton, !InetPtonLaws}.

Lemma prefixes_loop_texts items cidr ps :
  prefixes_loop items cidr = inl ps → Forall2 (λ text p, parse_prefix text cidr = Some p) (omap lua_tolstring items) ps.
Proof.
  revert ps. induction items as [|item items IH]; intros ps; cbn [prefixes_loop]; [by intros [= <-]|].
  change (omap lua_tolstring (item :: items))
    with (match lua_tolstring item with Some s => s :: omap lua_tolstring items | None => omap lua_tolstring items end).
  destruct (lua_tolstring item) as [text|]; [|done]. destruct (_ || _); [done|].
  destruct (parse_prefix text cidr) as [p|] eqn:Ep; [|done].
  destruct (prefixes_loop items cidr) as [ps'|]; [|done]. intros [= <-]. constructor; [done|by apply IH].
Qed.

Lemma connector_prefixes_texts h list_ cidr limit ps :
  connector_prefixes h list_ cidr limit = inl ps →
  Forall2 (λ text p, parse_prefix text cidr = Some p) (omap lua_tolstring (entries h list_)) ps.
Proof.
  unfold connector_prefixes. destruct list_; try done. destruct (_ <? _); [done|]. apply prefixes_loop_texts.
Qed.

(** Some prefix of a list holds an address where some entry's text does. *)
Lemma existsb_texts (texts : list bytes) (ps : list connector_prefix) (P : bytes → Prop) (f : connector_prefix → bool) cidr :
  Forall2 (λ text p, parse_prefix text cidr = Some p) texts ps →
  (∀ text p, parse_prefix text cidr = Some p → f p = true ↔ P text) →
  existsb f ps = false ↔ ∀ text, text ∈ texts → ¬ P text.
Proof.
  intros Hall Hf. induction Hall as [|text p texts ps Hp Hall IH]; cbn [existsb].
  - split; [|done]. intros _ text Ht. by apply not_elem_of_nil in Ht.
  - rewrite orb_false_iff, IH. setoid_rewrite elem_of_cons. rewrite <-not_true_iff_false, (Hf _ _ Hp). split.
    + intros [? ?] t [->|?]; by auto.
    + intros Ht. split; [by apply Ht; left|]. intros t ?. apply Ht. by right.
Qed.

Lemma top_bits address :
  all_bytes address → (0 < length address)%nat →
  (Z.land (address !!! 0%nat) 0xe0 =? 0x20) = true ↔ leading 3 address = 1.
Proof.
  intros Hb Hl. destruct address as [|x address]; [done|]. apply Forall_cons in Hb as [Hx Hb].
  pose proof (leading_split [] x address 3 ltac:(lia) Hx Hb) as Hlead.
  change (8 * Z.of_nat (length []) + 3) with 3 in Hlead. change ([] ++ x :: address) with (x :: address) in Hlead.
  rewrite Hlead. change (be_value []) with 0. change ((x :: address) !!! 0%nat) with x. clear Hlead.
  assert (∀ x, is_byte x → eqb (Z.land x 0xe0 =? 0x20) (x / 2 ^ 5 =? 1) = true) as Htop.
  { apply byte_check. by vm_compute. }
  rewrite (eqb_prop _ _ (Htop x Hx)), Z.eqb_eq. change (8 - 3) with 5. lia.
Qed.

Lemma deny_entry text p address :
  all_bytes address → parse_prefix text true = Some p →
  connector_within p address (Z.of_nat (length address)) = true ↔ denies text address.
Proof.
  intros Hb (host & bits & b & -> & Hnum & Hbits & ->)%parse_prefix_cidr.
  destruct (numeric_address_bytes _ _ Hnum) as [Hbb Hbl]. rewrite within_leading by (done || lia). split.
  - intros [Hl Hlead]. by exists host, bits, b.
  - intros (host' & bits' & b' & Htext & Hnum' & Hbits' & Hl & Hlead).
    assert (parse_prefix (host ++ SLASH :: decimal bits) true = Some (prefix_of b bits)) as Hp.
    { apply parse_prefix_cidr. by exists host, bits, b. }
    assert (parse_prefix (host ++ SLASH :: decimal bits) true = Some (prefix_of b' bits')) as Hp'.
    { apply parse_prefix_cidr. exists host', bits', b'. split_and!; (done || lia). }
    rewrite Hp in Hp'. injection Hp' as Hpad Hlens Hbb'. apply Nat2Z.inj in Hlens. rewrite Hbb'.
    apply app_inj_1 in Hpad as [-> _]; done.
Qed.

(** Two addresses of one family are one where all their bits are. *)
Lemma leading_whole a b :
  all_bytes a → all_bytes b →
  length a = length b ∧ leading (8 * Z.of_nat (length a)) a = leading (8 * Z.of_nat (length a)) b ↔ a = b.
Proof.
  intros Ha Hb. split; [|by intros ->]. intros [Hl Hlead]. apply be_value_inj; [done..|].
  unfold leading in Hlead. by rewrite <-Hl, Z.sub_diag, !Z.div_1_r in Hlead.
Qed.

Lemma own_entry text p address :
  all_bytes address → unicast address → parse_prefix text false = Some p →
  connector_within p address (Z.of_nat (length address)) = true ↔ owns text address.
Proof.
  intros Hb Hu (b & c & Hnum & -> & Hcb & Hcl & Hmap)%parse_prefix_own.
  rewrite within_leading, leading_whole by (done || lia). split.
  - intros ->. exists b. split; [done|]. destruct Hmap as [[-> _]|[_ ->]]; by auto.
  - intros (b' & Hnum' & Ha). rewrite Hnum in Hnum'. injection Hnum' as <-.
    destruct Hmap as [[-> Hnot]|[Hbl Hmap]].
    + destruct Ha as [->|Ha]; [done|]. exfalso. apply Hnot; rewrite Ha; [|done].
      rewrite length_app. change (length mapped) with 12%nat. apply (f_equal length) in Ha.
      rewrite length_app in Ha. change (length mapped) with 12%nat in Ha. lia.
    + destruct Ha as [->|Ha]; [|rewrite Hmap in Ha; by apply app_inv_head in Ha].
      exfalso. specialize (Hu Hbl). apply (top_bits b) in Hu; [|done|lia].
      rewrite Hmap in Hu. by vm_compute in Hu.
Qed.

(** C20: a public connector given its lists may connect to an address of four
    or sixteen bytes exactly where it is global unicast, if IPv6, shares with
    no deny entry of its family the leading bits the entry says, and is no
    own entry's address, an IPv4-mapped entry standing for the IPv4 address
    in it. *)
Theorem public_decision h argument_ pub address :
  connector_public_read h argument_ = inl pub →
  all_bytes address → length address = 4%nat ∨ length address = 16%nat →
  let texts name := omap lua_tolstring (entries h (lua_getfield h argument_ (lit name))) in
  enabled pub = true ∧
  (connector_public_allowed pub address (Z.of_nat (length address)) = true ↔
     unicast address ∧ (∀ text, text ∈ texts "deny" → ¬ denies text address)
     ∧ (∀ text, text ∈ texts "own" → ¬ owns text address)).
Proof.
  intros Hread Hb Hlen texts. unfold connector_public_read in Hread. destruct argument_ as [| | | | | |a|]; try done.
  destruct (connector_prefixes h _ true CONNECTOR_DENY) as [denies_|] eqn:Ed; [|done].
  apply connector_prefixes_texts in Ed. fold (texts "deny"%string) in Ed.
  assert (enabled pub = true ∧ deny pub = denies_ ∧
    Forall2 (λ text p, parse_prefix text false = Some p) (texts "own"%string) (own pub)) as (Hen & Hdeny & Hown).
  { case_bool_decide as Eo.
    - injection Hread as <-. unfold texts. rewrite Eo. by split_and!.
    - destruct (connector_prefixes h _ false CONNECTOR_OWN) as [owns_|] eqn:Eown; [|done].
      injection Hread as <-. apply connector_prefixes_texts in Eown. by split_and!. }
  split; [done|]. subst denies_. clear Hread. unfold connector_public_allowed.
  assert ((Z.of_nat (length address) =? 16) && negb (Z.land (address !!! 0%nat) 0xe0 =? 0x20) = false ↔ unicast address) as Huni.
  { rewrite andb_false_iff, negb_false_iff, Z.eqb_neq, top_bits by (done || lia). unfold unicast.
    split; [intros [?|?]; [lia|done]|]. intros Hu. destruct Hlen as [Hl|Hl]; [left; lia|right; by apply Hu]. }
  pose proof (existsb_texts _ _ (λ text, denies text address)
    (λ p, connector_within p address (Z.of_nat (length address))) true Ed (λ text p, deny_entry text p address Hb)) as Hd.
  assert (unicast address → existsb (λ p, connector_within p address (Z.of_nat (length address))) (own pub) = false
          ↔ ∀ text, text ∈ texts "own"%string → ¬ owns text address) as Ho.
  { intros Hu. apply (existsb_texts _ _ _ _ false Hown). intros text p. by apply own_entry. }
  destruct (_ && _) eqn:Eu.
  { split; [done|]. intros [Hu _]. apply Huni in Hu. congruence. }
  destruct (existsb (λ p, connector_within p address (Z.of_nat (length address))) (deny pub)) eqn:Edeny.
  { split; [done|]. intros (_ & Hx & _). apply Hd in Hx. congruence. }
  rewrite negb_true_iff, Ho by (by apply Huni).
  split; [intros Hx; split; [by apply Huni|split; [by apply Hd|done]]|by intros (_ & _ & ?)].
Qed.

End decision.

(** ** One caller's lists *)

Module Lists.
Import Plain Straddling.

Definition lists : heap :=
  <[1%positive := Table None [(LString (lit "deny"), LTable 2); (LString (lit "own"), LTable 3)]]>
  (<[2%positive := Table None [(LInt 1, LString (lit "10.0.0.1/8"))]]>
  (<[3%positive := Table None [(LInt 1, LString (lit "::1"))]]> ∅)).

Definition pub : connector_public :=
  Public [prefix_of [10; 0; 0; 1] 8] [prefix_of (replicate 15 0 ++ [1]) 128] true.

Lemma public_decision_witness :
  connector_public_read lists (LTable 1) = inl pub ∧ ¬ connector_public_allowed pub [10; 9; 9; 9] 4 = true.
Proof.
  assert (connector_public_read lists (LTable 1) = inl pub) as Hread by (by vm_compute). split; [done|].
  destruct (public_decision lists (LTable 1) pub [10; 9; 9; 9] Hread) as [_ Hallowed];
    [repeat (apply Forall_cons; split; [by vm_compute|]); by apply Forall_nil|by left|].
  intros Ha. apply Hallowed in Ha as (_ & Hdeny & _). apply (Hdeny (lit "10.0.0.1/8")); [by apply list_elem_of_here|].
  exists (lit "10.0.0.1"), 8, [10; 0; 0; 1]. split_and!; done.
Defined.

End Lists.
