(* ===== verification/ConnectorServe.v ===== *)
(** * The connector's serving loop: [core/connector.c]

    The process that serves a connector's requests: the calls it makes of
    the kernel, each answered by an oracle, the connects it makes, its
    replies, and a turn of its loop. *)

From S2P Require Import Prelude.
From S2P Require Import ReadAt.
From S2P Require Import Connector.
From S2P Require Import ConnectorPlan.
From S2P Require Import ConnectorPublic.

Local Open Scope Z_scope.

Definition CONNECTOR_HELLO : Z := 0x434e4302.
Definition CONNECTOR_REQUEST_BYTES : Z := 36.
Definition CONNECTOR_FLIGHT : nat := Z.to_nat 64.
Definition CONNECTOR_DENIED : Z := 0x10000.
Definition CONNECTOR_BUSY : Z := 0x10001.
Definition CONNECTOR_PUBLIC : Z := 0xffffffff.

Definition EINTR : Z := 4.
Definition EIO : Z := 5.
Definition EPIPE : Z := 32.
Definition ETIMEDOUT : Z := 110.
Definition EINPROGRESS : Z := 115.

Definition POLLIN : Z := 1.
Definition POLLERR : Z := 8.
Definition POLLHUP : Z := 16.
Definition POLLNVAL : Z := 32.

(** ** The kernel *)

(** What each call answers, by the number of calls before it: a value or an
    errno; [socket] given the sockets open. [connect] answers an errno, 0 for none; [clock_gettime] seconds
    and nanoseconds; [ppoll] the entries' [revents]; and a writing call is
    interrupted at most [patience] times in a row. *)
Class Net := {
  socket : nat → list Z → Z → Z + Z;
  connect : nat → Z → bytes → Z;
  write : nat → bytes → Z + Z;
  sendmsg : nat → Z → Z + Z;
  read : nat → Z → bytes + Z;
  ppoll : nat → list Z → option Z → list Z + Z;
  getsockopt : nat → Z → Z + Z;
  clock_gettime : nat → option (Z * Z);
  patience : nat }.

(** ** The process *)

Record connector_flight := Flight { f_fd : Z; f_tag : Z; f_deadline : Z }.

(** What the control's stream carries back: bytes, and descriptors each
    passed beside a marker. *)
Inductive item := Byte (b : Z) | Marker (fd : Z).

(** What the process is started with. *)
Record connector_plan := Plan { table : connector_held; pub : connector_public; timeout : Z; control : Z }.

(** What it holds, [struct connector_serving] and the scratch page, and what
    it has done: the calls made, the bytes read and sent on its control, the
    sockets open and the addresses connected. *)
Record process := Process {
  flight : list connector_flight; held : bytes; scratch : bytes;
  calls : nat; taken : bytes; sent : list item; sockets : list Z; made : list bytes }.

Definition with_flight (l : list connector_flight) (p : process) : process :=
  Process l (held p) (scratch p) (calls p) (taken p) (sent p) (sockets p) (made p).
Definition with_held (bs : bytes) (p : process) : process :=
  Process (flight p) bs (scratch p) (calls p) (taken p) (sent p) (sockets p) (made p).
Definition with_scratch (bs : bytes) (p : process) : process :=
  Process (flight p) (held p) bs (calls p) (taken p) (sent p) (sockets p) (made p).
(** After another call. *)
Definition called (read_ : bytes) (sent_ : list item) (sockets_ : list Z) (made_ : list bytes) (p : process) : process :=
  Process (flight p) (held p) (scratch p) (S (calls p)) (taken p ++ read_) (sent p ++ sent_) sockets_ (made p ++ made_).

(** The process may end, or wait for a call interrupted for ever. *)
Inductive stop := Exits | Waits.

Definition M (A : Type) : Type := process → (A + stop) * process.

#[export] Instance M_ret : MRet M := λ A a p, (inl a, p).
#[export] Instance M_bind : MBind M := λ A B f m p,
  match m p with
  | (inl a, p) => f a p
  | (inr s, p) => (inr s, p)
  end.

Definition gets {A} (f : process → A) : M A := λ p, (inl (f p), p).
Definition modify (f : process → process) : M unit := λ p, (inl (), f p).
Definition exit : M unit := λ p, (inr Exits, p).
Definition wait_more {A} : M A := λ p, (inr Waits, p).

Section serving.
Context `{Net}.

Definition sys_socket (family : Z) : M (Z + Z) := λ p,
  let r := socket (calls p) (sockets p) family in
  (inl r, called [] [] (match r with inl fd => sockets p ++ [fd] | inr _ => sockets p end) [] p).

Definition sys_connect (fd : Z) (address : bytes) : M Z := λ p,
  (inl (connect (calls p) fd address), called [] [] (sockets p) [address] p).

Definition sys_close (fd : Z) : M unit := λ p, (inl (), called [] [] (filter (.≠ fd) (sockets p)) [] p).

Definition sys_write (bs : bytes) : M (Z + Z) := λ p,
  let r := write (calls p) bs in
  (inl r, called [] (match r with inl n => Byte <$> take (Z.to_nat n) bs | inr _ => [] end) (sockets p) [] p).

Definition sys_sendmsg (fd : Z) : M (Z + Z) := λ p,
  let r := sendmsg (calls p) fd in
  (inl r, called [] (match r with inl 1 => [Marker fd] | _ => [] end) (sockets p) [] p).

Definition sys_read (n : Z) : M (bytes + Z) := λ p,
  let r := read (calls p) n in
  (inl r, called (match r with inl bs => bs | inr _ => [] end) [] (sockets p) [] p).

Definition sys_ppoll (fds : list Z) (left_ : option Z) : M (list Z + Z) := λ p,
  (inl (ppoll (calls p) fds left_), called [] [] (sockets p) [] p).

Definition sys_getsockopt (fd : Z) : M (Z + Z) := λ p,
  (inl (getsockopt (calls p) fd), called [] [] (sockets p) [] p).

(** The monotonic clock in milliseconds, or -1. *)
Definition connector_now : M Z := λ p,
  (inl match clock_gettime (calls p) with
       | Some (tv_sec, tv_nsec) => tv_sec * 1000 + tv_nsec / 1000000
       | None => -1
       end, called [] [] (sockets p) [] p).

(** ** Replies *)

(** [connector_whole], writing: [fuel] bounds the calls. *)
Fixpoint whole_loop (fuel : nat) (bs : bytes) : M Z :=
  match bs, fuel with
  | [], _ => mret 0
  | _, O => wait_more
  | _, S fuel =>
      got ← sys_write bs;
      match got with
      | inr errno => if errno =? EINTR then whole_loop fuel bs else mret errno
      | inl n => if n =? 0 then mret EPIPE else whole_loop fuel (drop (Z.to_nat n) bs)
      end
  end.

(** Each byte may be written alone, after [patience] calls. *)
Definition connector_whole (bs : bytes) : M Z := whole_loop (S patience * S (length bs)) bs.

Fixpoint sendmsg_loop (fuel : nat) (fd : Z) : M Z :=
  match fuel with
  | O => wait_more
  | S fuel =>
      got ← sys_sendmsg fd;
      match got with
      | inr errno => if errno =? EINTR then sendmsg_loop fuel fd else mret errno
      | inl n => mret (if n =? 1 then 0 else EIO)
      end
  end.

Definition connector_reply (tag failure fd : Z) : M Z :=
  trouble ← connector_whole (be 4 tag ++ be 4 (u32 failure));
  if negb (trouble =? 0) || negb (failure =? 0) || (fd <? 0) then mret trouble
  else sendmsg_loop (S patience) fd.

(** ** Connects *)

(** A socket address's family and port. *)
Definition sa_family (address : bytes) : Z := address !!! 0%nat + 256 * address !!! 1%nat.
Definition ntohs_port (address : bytes) : Z := address !!! 2%nat * 256 + address !!! 3%nat.

(** The failure and the socket, -1 for none. *)
Definition connector_begin (address : bytes) : M (Z * Z) :=
  made ← sys_socket (sa_family address);
  match made with
  | inr errno => mret (errno, -1)
  | inl fd =>
      failure ← sys_connect fd address;
      if failure =? 0 then mret (0, fd)
      else if (failure =? EINPROGRESS) || (failure =? EINTR) then mret (EINPROGRESS, fd)
      else sys_close fd;; mret (failure, -1)
  end.

Record connector_request := Request { q_tag : Z; q_index : Z; q_port : Z; q_wait : Z; q_family : Z; q_address : bytes }.

Definition connector_decode (bs : bytes) : connector_request :=
  let word (i : nat) := be_value (take 4 (drop (4 * i) bs)) in
  Request (word 0%nat) (word 1%nat) (word 2%nat) (word 3%nat) (word 4%nat) (take 16 (drop 20 bs)).

Definition connector_connect (plan : connector_plan) (request : connector_request) (room : bool) : M (Z * Z) :=
  if negb (q_family request =? 0) then mret (EINVAL, -1)
  else if negb (forallb (Z.eqb 0) (q_address request)) then mret (EINVAL, -1)
  else
    let index := q_index request in
    let port := q_port request in
    if (index <? 1) || (Z.of_nat (length (h_ranges (table plan))) <? index) || (port <? 1) || (65535 <? port)
    then mret (EPERM, -1)
    else
      match h_ranges (table plan) !! Z.to_nat (index - 1) with
      | None => mret (EPERM, -1)
      | Some range =>
          let at_ := r_base range + (if 1 <? r_slots range then (port - 1) * connector_stride (r_length range) else 0) in
          let address := slice (h_bytes (table plan)) (at_ - h_memory (table plan)) (r_length range) in
          if negb (ntohs_port address =? port) then mret (EPERM, -1)
          else if negb room then mret (CONNECTOR_BUSY, -1)
          else connector_begin address
      end.

Definition connector_public_connect (plan : connector_plan) (request : connector_request) (room : bool) : M (Z * Z) :=
  if negb (enabled (pub plan)) then mret (EPERM, -1)
  else
    let length_ := if q_family request =? 4 then 4 else if q_family request =? 6 then 16 else 0 in
    if (length_ =? 0) || (65535 <? q_port request) then mret (EINVAL, -1)
    else if negb (forallb (Z.eqb 0) (drop (Z.to_nat length_) (q_address request))) then mret (EINVAL, -1)
    else if negb (connector_public_allowed (pub plan) (take (Z.to_nat length_) (q_address request)) length_)
    then mret (CONNECTOR_DENIED, -1)
    else if q_port request =? 0 then mret (0, -1)
    else if negb room then mret (CONNECTOR_BUSY, -1)
    else
      let slot := if length_ =? 16 then CONNECTOR_STRIDE else 0 in
      modify (λ p, with_scratch (put_bytes (scratch p) slot (replicate (Z.to_nat CONNECTOR_STRIDE) 0)) p);;
      let '(address, size) :=
        if length_ =? 4 then (sockaddr_in (q_port request) (take 4 (q_address request)), V4_SIZE)
        else (sockaddr_in6 (q_port request) (q_address request), V6_SIZE) in
      modify (λ p, with_scratch (put_bytes (scratch p) slot address) p);;
      page ← gets scratch; connector_begin (slice page slot size).

(** ** Serving *)

Definition connector_serve (plan : connector_plan) (whole : bytes) : M unit :=
  let request := connector_decode whole in
  room ← gets (λ p, bool_decide (length (flight p) < CONNECTOR_FLIGHT)%nat);
  '(failure, fd) ← (if q_index request =? CONNECTOR_PUBLIC then connector_public_connect plan request room
                    else connector_connect plan request room);
  let finish (failure fd : Z) :=
    trouble ← connector_reply (q_tag request) failure fd;
    (if 0 <=? fd then sys_close fd else mret ());;
    if negb (trouble =? 0) then exit else mret () in
  if failure =? EINPROGRESS then
    now ← connector_now;
    if 0 <=? now then
      let wait := if (q_wait request =? 0) || (u32 (timeout plan) <? q_wait request) then u32 (timeout plan)
                  else q_wait request in
      modify (λ p, with_flight (flight p ++ [Flight fd (q_tag request) (now + wait)]) p)
    else sys_close fd;; finish EIO (-1)
  else finish failure fd.

(** The last connect takes the settled one's place. *)
Definition swap_out (at_ : nat) (l : list connector_flight) : list connector_flight :=
  match last l with
  | Some f => removelast (<[at_ := f]> l)
  | None => l
  end.

Definition connector_settle (at_ : nat) (f : connector_flight) (failure : Z) : M unit :=
  modify (λ p, with_flight (swap_out at_ (flight p)) p);;
  trouble ← connector_reply (f_tag f) failure (if failure =? 0 then f_fd f else -1);
  sys_close (f_fd f);;
  if negb (trouble =? 0) then exit else mret ().

(** The loop over the connects in flight, downward from the [i]th, each with
    its entry's [revents]. *)
Fixpoint settle_loop (revents : list Z) (now : Z) (i : nat) : M unit :=
  match i with
  | O => mret ()
  | S i =>
      f ← gets (λ p, flight p !! i);
      match f with
      | None => mret ()
      | Some f =>
          if negb (revents !!! i =? 0) then
            failure ← sys_getsockopt (f_fd f);
            connector_settle i f (match failure with inl failure => failure | inr errno => errno end)
          else if (now <? 0) || (f_deadline f <=? now) then
            connector_settle i f (if now <? 0 then EIO else ETIMEDOUT)
          else mret ()
      end;;
      settle_loop revents now i
  end.

(** The soonest deadline, or -1. *)
Definition nearest (l : list connector_flight) : Z :=
  foldl (λ soonest f, if (soonest <? 0) || (f_deadline f <? soonest) then f_deadline f else soonest) (-1) l.

(** The milliseconds [ppoll] may wait, none for ever. *)
Definition poll_left (soonest now : Z) : option Z :=
  if soonest <? 0 then None else Some (if (0 <=? now) && (now <? soonest) then soonest - now else 0).

(** The read of the rest of a request, and the request it makes whole. *)
Definition connector_take (plan : connector_plan) : M unit :=
  room ← gets (λ p, CONNECTOR_REQUEST_BYTES - Z.of_nat (length (held p)));
  got ← sys_read room;
  match got with
  | inr errno => if errno =? EINTR then mret () else exit
  | inl [] => exit
  | inl bs =>
      modify (λ p, with_held (held p ++ bs) p);;
      whole ← gets held;
      if Z.of_nat (length whole) =? CONNECTOR_REQUEST_BYTES
      then modify (with_held []);; connector_serve plan whole
      else mret ()
  end.

Definition connector_turn (plan : connector_plan) : M unit :=
  l ← gets flight;
  before ← connector_now;
  ready ← sys_ppoll (control plan :: (f_fd <$> l)) (poll_left (nearest l) before);
  match ready with
  | inr errno => if errno =? EINTR then mret () else exit
  | inl revents =>
      let first := head revents in
      let first := default 0 first in
      if negb (Z.land first (Z.lor POLLERR POLLNVAL) =? 0) then exit
      else
        now ← connector_now;
        settle_loop (tail revents) now (length l);;
        if negb (Z.land first (Z.lor POLLIN POLLHUP) =? 0) then connector_take plan else mret ()
  end.

Fixpoint connector_turns (plan : connector_plan) (n : nat) : M unit :=
  match n with
  | O => mret ()
  | S n => connector_turn plan;; connector_turns plan n
  end.

(** [connector_loop], its first [n] turns. *)
Definition connector_loop (plan : connector_plan) (n : nat) : M unit :=
  trouble ← connector_whole (be 4 CONNECTOR_HELLO);
  if negb (trouble =? 0) then exit else connector_turns plan n.

End serving.
