(* ===== verification/ConnectorServeCorrect.v ===== *)
(** * What the connector's loop keeps

    Every request read whole is answered once or is among the connects in
    flight; every socket open is one of theirs; every connect made was to an
    address that was approved; and what is overdue at a turn is answered. *)

From S2P Require Import Prelude.
From S2P Require Import ReadAt.
From S2P Require Import Connector.
From S2P Require Import ConnectorPlan.
From S2P Require Import ConnectorTable.
From S2P Require Import ConnectorPublic.
From S2P Require Import ConnectorServe.

Local Open Scope Z_scope.

(** ** The process's computations *)

(** What holds of an end and the process then. *)
Definition ends {A} (m : M A) (p : process) (Q : A + stop → process → Prop) : Prop := Q (m p).1 (m p).2.

(** The end is a value, or the process's own. *)
Definition value {A} (safe : process → Prop) (Q : A → process → Prop) : A + stop → process → Prop :=
  λ r p, safe p ∧ match r with inl a => Q a p | inr Exits => True | inr Waits => False end.

Lemma ends_bind {A B} (m : M A) (f : A → M B) p safe (Q : A → process → Prop) (R : B → process → Prop) :
  ends m p (value safe Q) → (∀ a q, safe q → Q a q → ends (f a) q (value safe R)) → ends (m ≫= f) p (value safe R).
Proof.
  unfold ends, mbind, M_bind. destruct (m p) as [[a|s] q]; intros [Hs Hm] Hf; cbn in *; [by apply Hf|by destruct s].
Qed.

Lemma ends_ret {A} (a : A) p (Q : A + stop → process → Prop) : Q (inl a) p → ends (mret a) p Q.
Proof. done. Qed.

Lemma ends_run {A B} (m : M A) (f : A → M B) p a q (Q : B + stop → process → Prop) :
  m p = (inl a, q) → ends (f a) q Q → ends (m ≫= f) p Q.
Proof. unfold ends, mbind, M_bind. by intros ->. Qed.

Lemma ends_weaken {A} (m : M A) p safe (Q R : A → process → Prop) :
  ends m p (value safe Q) → (∀ a q, safe q → Q a q → R a q) → ends m p (value safe R).
Proof.
  unfold ends, value. intros [Hs Hm] Hw. split; [done|]. destruct (m p).1 as [a|[]]; [by apply Hw|done..].
Qed.

(** Takes a step that always has a value. *)
Ltac step := eapply ends_run; [reflexivity|]; cbv beta.

(** ** The kernel's calls *)

(** What the manual pages say: a new socket is a descriptor that is not open,
    no errno is 0, a socket is not made with [EINPROGRESS], a call writes or
    reads no more than it is asked to, and is not interrupted for ever. *)
Class NetLaws `{Net} := {
  socket_new : ∀ n open_ family fd, socket n open_ family = inl fd → 0 ≤ fd ∧ fd ∉ open_;
  socket_errno : ∀ n open_ family e, socket n open_ family = inr e → e ≠ 0 ∧ e ≠ EINPROGRESS;
  write_some : ∀ n bs k, write n bs = inl k → 0 ≤ k ≤ Z.of_nat (length bs);
  write_errno : ∀ n bs e, write n bs = inr e → e ≠ 0;
  write_patience : ∀ n, ∃ k, (k ≤ patience)%nat ∧ ∀ bs, write (n + k) bs ≠ inr EINTR;
  sendmsg_some : ∀ n fd k, sendmsg n fd = inl k → 0 ≤ k ≤ 1;
  sendmsg_errno : ∀ n fd e, sendmsg n fd = inr e → e ≠ 0;
  sendmsg_patience : ∀ n, ∃ k, (k ≤ patience)%nat ∧ ∀ fd, sendmsg (n + k) fd ≠ inr EINTR;
  read_some : ∀ n k bs, 0 < k → read n k = inl bs → Z.of_nat (length bs) ≤ k ∧ all_bytes bs }.

(** ** Replies *)

Record reply := Reply { r_tag : Z; r_failure : Z; r_passed : option Z }.

Definition reply_items (r : reply) : list item :=
  (Byte <$> be 4 (r_tag r) ++ be 4 (u32 (r_failure r))) ++ match r_passed r with Some fd => [Marker fd] | None => [] end.

(** The process but for the calls made and the items sent. *)
Definition sends (items : list item) (p q : process) : Prop :=
  flight q = flight p ∧ held q = held p ∧ scratch q = scratch p ∧ taken q = taken p ∧ sockets q = sockets p ∧
  made q = made p ∧ sent q = sent p ++ items ∧ (calls p ≤ calls q)%nat.

Lemma sends_trans a b p q r : sends a p q → sends b q r → sends (a ++ b) p r.
Proof.
  unfold sends. intros (? & ? & ? & ? & ? & ? & Hq & ?) (? & ? & ? & ? & ? & ? & Hr & ?).
  split_and!; try congruence; [|lia]. by rewrite Hr, Hq, app_assoc.
Qed.

Lemma sends_called items p : sends items p (called [] items (sockets p) [] p).
Proof. unfold sends, called. cbn. rewrite !app_nil_r. split_and!; try done. lia. Qed.

Section replies.
Context `{Hnet : Net, !NetLaws}.

Lemma whole_loop_ends fuel bs k p :
  (k ≤ patience)%nat → (∀ bs, write (calls p + k) bs ≠ inr EINTR) → (S patience * length bs + k < fuel)%nat →
  ∃ trouble q items, whole_loop fuel bs p = (inl trouble, q) ∧ sends items p q ∧ (trouble = 0 → items = Byte <$> bs).
Proof.
  revert bs k p. induction fuel as [|fuel IH]; intros bs k p Hk Hw Hfuel; [lia|].
  destruct bs as [|b bs]; cbn [whole_loop].
  { exists 0, p, []. split_and!; [done| |done]. unfold sends. rewrite app_nil_r. split_and!; done || lia. }
  unfold mbind, M_bind, sys_write. set (new := write (calls p) (b :: bs)).
  destruct new as [n|errno] eqn:En; unfold new in En; clear new; cbn match.
  - destruct (write_some _ _ _ En) as [Hn0 Hn]. destruct (Z.eqb_spec n 0) as [->|Hne].
    { eexists _, _, _. split_and!; [done|apply sends_called|done]. }
    destruct (write_patience (S (calls p))) as (k' & Hk' & Hw').
    destruct (IH (drop (Z.to_nat n) (b :: bs)) k' (called [] (Byte <$> take (Z.to_nat n) (b :: bs)) (sockets p) [] p))
      as (trouble & q & items & -> & Hs & Hall); [done|done|rewrite length_drop; nia|].
    eexists _, _, _. split_and!; [done|eapply sends_trans; [apply sends_called|done]|].
    intros Ht. rewrite (Hall Ht), <-fmap_app, take_drop. done.
  - destruct (Z.eqb_spec errno EINTR) as [->|Hne].
    + destruct k as [|k]; [rewrite Nat.add_0_r in Hw; by destruct (Hw (b :: bs))|].
      destruct (IH (b :: bs) k (called [] [] (sockets p) [] p)) as (trouble & q & items & -> & Hs & Hall); [lia| |lia|].
      { intros bs'. cbn [calls called]. replace (S (calls p) + k)%nat with (calls p + S k)%nat by lia. apply Hw. }
      eexists _, _, _. split_and!; [done|eapply sends_trans; [apply sends_called|done]|done].
    + eexists _, _, _. split_and!; [done|apply sends_called|]. intros ->. by destruct (write_errno _ _ _ En).
Qed.

Lemma connector_whole_ends bs p :
  ∃ trouble q items, connector_whole bs p = (inl trouble, q) ∧ sends items p q ∧ (trouble = 0 → items = Byte <$> bs).
Proof.
  destruct (write_patience (calls p)) as (k & Hk & Hw). eapply whole_loop_ends; [done|done|]. lia.
Qed.

Lemma sendmsg_loop_ends fuel fd k p :
  (k < fuel)%nat → (∀ fd, sendmsg (calls p + k) fd ≠ inr EINTR) →
  ∃ trouble q items, sendmsg_loop fuel fd p = (inl trouble, q) ∧ sends items p q ∧ (trouble = 0 → items = [Marker fd]).
Proof.
  revert k p. induction fuel as [|fuel IH]; intros k p Hk Hw; [lia|]. cbn [sendmsg_loop].
  unfold mbind, M_bind, sys_sendmsg. destruct (sendmsg (calls p) fd) as [n|errno] eqn:En.
  - destruct (sendmsg_some _ _ _ En) as [Hn0 Hn]. assert (n = 0 ∨ n = 1) as [-> | ->] by lia.
    + eexists _, _, _. split_and!; [done|apply sends_called|done].
    + eexists _, _, _. split_and!; [done|apply sends_called|done].
  - destruct (Z.eqb_spec errno EINTR) as [->|Hne].
    + destruct k as [|k]; [rewrite Nat.add_0_r in Hw; by destruct (Hw fd)|].
      destruct (IH k (called [] [] (sockets p) [] p)) as (trouble & q & items & -> & Hs & Hall); [lia| |].
      { intros fd'. cbn [calls called]. replace (S (calls p) + k)%nat with (calls p + S k)%nat by lia. apply Hw. }
      eexists _, _, _. split_and!; [done|eapply sends_trans; [apply sends_called|done]|done].
    + eexists _, _, _. split_and!; [done|apply sends_called|]. intros ->. by destruct (sendmsg_errno _ _ _ En).
Qed.

(** A reply is written whole where it is written without trouble. *)
Lemma connector_reply_ends tag failure fd p :
  ∃ trouble q items, connector_reply tag failure fd p = (inl trouble, q) ∧ sends items p q ∧
    (trouble = 0 → items = reply_items (Reply tag failure (if (failure =? 0) && (0 <=? fd) then Some fd else None))).
Proof.
  unfold connector_reply. unfold mbind, M_bind.
  destruct (connector_whole_ends (be 4 tag ++ be 4 (u32 failure)) p) as (trouble & q & items & -> & Hs & Hall).
  unfold reply_items. cbn [r_tag r_failure r_passed].
  destruct (Z.eqb_spec trouble 0) as [->|Hne]; cbn [negb orb].
  2: { eexists _, _, _. by split_and!. }
  destruct (Z.eqb_spec failure 0) as [->|Hne]; cbn [negb orb andb].
  2: { eexists _, _, _. split_and!; [done..|]. intros _. by rewrite app_nil_r, (Hall eq_refl). }
  rewrite Z.leb_antisym. destruct (fd <? 0); cbn [negb].
  { eexists _, _, _. split_and!; [done..|]. intros _. by rewrite app_nil_r, (Hall eq_refl). }
  destruct (sendmsg_patience (calls q)) as (k & Hk & Hw).
  destruct (sendmsg_loop_ends (S patience) fd k q) as (trouble & r & items' & -> & Hs' & Hall'); [lia|done|].
  eexists _, _, _. split_and!; [done|by eapply sends_trans|]. intros Ht. by rewrite (Hall eq_refl), (Hall' Ht).
Qed.

End replies.

(** ** Connects *)

(** The process but for its sockets, the scratch page and the addresses
    connected: a failure with no socket, or a new one, connected or
    connecting. *)
Record connects (addresses : list bytes) (p q : process) (r : Z * Z) : Prop := {
  c_flight : flight q = flight p;
  c_held : held q = held p;
  c_taken : taken q = taken p;
  c_sent : sent q = sent p;
  c_scratch : length (scratch q) = length (scratch p);
  c_made : made q = made p ++ addresses;
  c_calls : (calls p ≤ calls q)%nat;
  c_socket : r.2 = -1 ∧ r.1 ≠ EINPROGRESS ∧ sockets q = sockets p ∨
    0 ≤ r.2 ∧ (r.2 ∉ sockets p) ∧ sockets q = sockets p ++ [r.2] ∧ (r.1 = 0 ∨ r.1 = EINPROGRESS) }.

Lemma connects_none p failure : failure ≠ EINPROGRESS → connects [] p p (failure, -1).
Proof. intros Hf. split; rewrite ?app_nil_r; try done. by left. Qed.

(** The scratch page may be written first. *)
Lemma connects_scratch addresses p q r page :
  length page = length (scratch p) → connects addresses (with_scratch page p) q r → connects addresses p q r.
Proof. intros Hl []. split; cbn in *; try done. congruence. Qed.

Lemma filter_none (l : list Z) fd : fd ∉ l → filter (.≠ fd) l = l.
Proof. intros Hfd. apply filter_keep, Forall_forall. by intros x Hx ->. Qed.

Lemma filter_last (l : list Z) fd : fd ∉ l → filter (.≠ fd) (l ++ [fd]) = l.
Proof.
  intros Hfd. rewrite filter_app, (filter_none l) by done. rewrite filter_cons_False by (intros Hn; by apply Hn).
  by rewrite filter_nil, app_nil_r.
Qed.

Section connecting.
Context `{Hnet : Net, !NetLaws}.

Lemma connector_begin_ends address p :
  ∃ r q addresses, connector_begin address p = (inl r, q) ∧ connects addresses p q r ∧ Forall (.= address) addresses.
Proof.
  unfold connector_begin, mbind, M_bind, sys_socket.
  destruct (socket (calls p) (sockets p) (sa_family address)) as [fd|errno] eqn:Es.
  - destruct (socket_new _ _ _ _ Es) as [Hfd Hnew]. unfold sys_connect. set (new := connect _ _ _). cbn match.
    exists (if new =? 0 then (0, fd) else if (new =? EINPROGRESS) || (new =? EINTR) then (EINPROGRESS, fd) else (new, -1)).
    destruct (Z.eqb_spec new 0) as [Hz|Hz]; [|destruct (_ || _) eqn:Eo].
    1-2: eexists _, [address]; (split; [done|split; [|by repeat constructor]]);
      (split; cbn; rewrite ?app_nil_r; [done..|lia|right; by auto]).
    apply orb_false_iff in Eo as [Eo%Z.eqb_neq _].
    eexists _, [address]. split; [done|split; [|by repeat constructor]].
    split; cbn; rewrite ?app_nil_r; [done..|lia|]. left. split_and!; [done..|by apply filter_last].
  - destruct (socket_errno _ _ _ _ Es) as [_ He]. eexists _, _, []. split; [done|split; [|done]].
    split; cbn; rewrite ?app_nil_r; [done..|lia|by left].
Qed.

(** ** Requests *)

Section plan.
Context (plan : connector_plan) (es : list connector_endpoint).

(** The address a request asks to be connected to, which was approved. *)
Definition asked (request : connector_request) (address : bytes) : Prop :=
  (∃ e, es !! Z.to_nat (q_index request - 1) = Some e ∧ approved e address ∧ ntohs_port address = q_port request) ∨
  q_index request = CONNECTOR_PUBLIC ∧ enabled (pub plan) = true ∧ 1 ≤ q_port request ≤ 65535 ∧
  (q_family request = 4 ∧ address = sockaddr_in (q_port request) (take 4 (q_address request)) ∧
     connector_public_allowed (pub plan) (take 4 (q_address request)) 4 = true ∨
   q_family request = 6 ∧ address = sockaddr_in6 (q_port request) (q_address request) ∧
     connector_public_allowed (pub plan) (q_address request) 16 = true).

(** What the plan's table holds, and its scratch page's length. *)
Record plan_ok : Prop := {
  plan_endpoints : Forall endpoint_ok es;
  plan_table : Forall2 (range_holds (h_memory (table plan)) (h_bytes (table plan))) es (h_ranges (table plan));
  plan_timeout : 1 ≤ timeout plan ≤ 60000 }.

Context (Hplan : plan_ok).

Lemma connector_connect_ends request room p :
  ∃ r q addresses, connector_connect plan request room p = (inl r, q) ∧ connects addresses p q r ∧
    Forall (asked request) addresses ∧ (r.1 = EINPROGRESS → room = true).
Proof.
  assert (∀ failure, failure ≠ EINPROGRESS →
    ∃ r q addresses, mret (M := M) (failure, -1) p = (inl r, q) ∧ connects addresses p q r ∧
      Forall (asked request) addresses ∧ (r.1 = EINPROGRESS → room = true)) as Hnone.
  { intros failure Hf. eexists _, _, []. split; [done|]. split; [by apply connects_none|]. by split. }
  unfold connector_connect. destruct (negb (q_family request =? 0)); [by apply Hnone|].
  destruct (negb (forallb _ _)); [by apply Hnone|]. destruct (_ || (65535 <? q_port request)) eqn:Ebad; [by apply Hnone|].
  destruct (h_ranges (table plan) !! _) as [range|] eqn:Er; [|by apply Hnone].
  destruct (negb (ntohs_port _ =? _)) eqn:Eport; [by apply Hnone|].
  apply negb_false_iff, Z.eqb_eq in Eport.
  destruct (negb room) eqn:Eroom; [by apply Hnone|]. apply negb_false_iff in Eroom as ->.
  revert Eport. set (address := slice _ _ _). intros Eport.
  destruct (connector_begin_ends address p) as (r & q & addresses & -> & Hc & Ha).
  exists r, q, addresses. split_and!; [done..| |done]. eapply Forall_impl; [exact Ha|]. intros a ->. left.
  rewrite !orb_false_iff, !Z.ltb_ge in Ebad. destruct Ebad as (((Hi & _) & Hp1) & Hp2).
  destruct (Forall2_lookup_r _ _ _ _ _ (plan_table Hplan) Er) as (e & He & _ & Hlen & Hslots & _ & _ & Hholds).
  exists e. split_and!; [done| |done].
  assert (endpoint_ok e) as Hok by (eapply Forall_lookup_1; [apply Hplan|done]).
  assert (∃ j, 0 ≤ j < e_slots e ∧ address = slot_address e j) as (j & Hj & ->); [|by apply slot_approved].
  pose proof Hok as (port & sockaddr & _ & _ & Hs & _). unfold address. rewrite Hslots.
  destruct (Z.ltb_spec 1 (e_slots e)) as [Hmany|Hone].
  - exists (q_port request - 1). split; [destruct (port =? 0); lia|]. rewrite Hlen at 2. apply Hholds.
    destruct (port =? 0); lia.
  - exists 0. split; [destruct (port =? 0); lia|]. rewrite Hlen. rewrite <-(Hholds 0), Hlen by (destruct (port =? 0); lia).
    f_equal; lia.
Qed.

(** An address written in a slot of the scratch page is what is connected. *)
Lemma scratch_address page slot address size :
  0 ≤ slot → slot + CONNECTOR_STRIDE ≤ Z.of_nat (length page) →
  Z.of_nat (length address) = size → size ≤ CONNECTOR_STRIDE →
  let written := put_bytes (put_bytes page slot (replicate (Z.to_nat CONNECTOR_STRIDE) 0)) slot address in
  length written = length page ∧ slice written slot size = address.
Proof.
  intros Hslot Hfit Hlen Hsize written. unfold CONNECTOR_STRIDE in *.
  assert (length (put_bytes page slot (replicate (Z.to_nat 128) 0)) = length page) as Hl.
  { apply put_length; rewrite ?length_replicate; lia. }
  split; [unfold written; rewrite put_length; lia|].
  unfold written. rewrite slice_put_around by lia. rewrite Z.sub_diag. apply put_whole. rewrite slice_length; lia.
Qed.

Lemma connector_public_connect_ends request room p :
  (enabled (pub plan) = true → 2 * CONNECTOR_STRIDE ≤ Z.of_nat (length (scratch p))) →
  q_index request = CONNECTOR_PUBLIC → 0 ≤ q_port request → length (q_address request) = 16%nat →
  ∃ r q addresses, connector_public_connect plan request room p = (inl r, q) ∧ connects addresses p q r ∧
    Forall (asked request) addresses ∧ (r.1 = EINPROGRESS → room = true).
Proof.
  intros Hscratch Hindex Hport Hlen.
  assert (∀ failure, failure ≠ EINPROGRESS →
    ∃ r q addresses, mret (M := M) (failure, -1) p = (inl r, q) ∧ connects addresses p q r ∧
      Forall (asked request) addresses ∧ (r.1 = EINPROGRESS → room = true)) as Hnone.
  { intros failure Hf. eexists _, _, []. split; [done|]. split; [by apply connects_none|]. by split. }
  unfold connector_public_connect. destruct (enabled (pub plan)) eqn:Een; [cbn [negb]|by apply Hnone].
  specialize (Hscratch eq_refl).
  set (length_ := if q_family request =? 4 then 4 else if q_family request =? 6 then 16 else 0).
  destruct ((length_ =? 0) || (65535 <? q_port request)) eqn:Ebad; [by apply Hnone|].
  apply orb_false_iff in Ebad as [Elen%Z.eqb_neq Eport%Z.ltb_ge].
  destruct (negb (forallb _ _)); [by apply Hnone|].
  destruct (connector_public_allowed _ _ _) eqn:Eallowed; [cbn [negb]|by apply Hnone].
  destruct (Z.eqb_spec (q_port request) 0); [by apply Hnone|]. destruct room; [cbn [negb]|by apply Hnone].
  assert (q_family request = 4 ∧ length_ = 4 ∨ q_family request = 6 ∧ length_ = 16) as Hfam.
  { revert Elen. unfold length_. destruct (Z.eqb_spec (q_family request) 4); [by left|].
    destruct (Z.eqb_spec (q_family request) 6); [by right|done]. }
  set (address := if length_ =? 4 then sockaddr_in (q_port request) (take 4 (q_address request))
                  else sockaddr_in6 (q_port request) (q_address request)).
  set (size := if length_ =? 4 then V4_SIZE else V6_SIZE). set (slot := if length_ =? 16 then CONNECTOR_STRIDE else 0).
  assert (asked request address) as Hasked.
  { right. split_and!; [done..|lia|lia|]. unfold address. destruct Hfam as [[Hf Hl]|[Hf Hl]]; rewrite Hl in *.
    - left. by split_and!.
    - right. rewrite take_ge in Eallowed by (rewrite Hlen; done). by split_and!. }
  destruct (scratch_address (scratch p) slot address size) as [Hl Hs];
    [unfold slot; by destruct Hfam as [[_ ->]|[_ ->]]|unfold slot; destruct Hfam as [[_ ->]|[_ ->]]; cbn; unfold CONNECTOR_STRIDE in *; lia| |unfold size; by destruct Hfam as [[_ ->]|[_ ->]]|].
  { unfold address, size, sockaddr_in, sockaddr_in6. destruct Hfam as [[_ ->]|[_ ->]]; cbn [Z.eqb Pos.eqb];
      rewrite !length_app, ?length_take, Hlen; done. }
  set (page := put_bytes (put_bytes (scratch p) slot _) slot address) in *.
  assert (∃ r q addresses, connector_begin (slice page slot size) (with_scratch page p) = (inl r, q) ∧ connects addresses p q r ∧
    Forall (asked request) addresses ∧ (r.1 = EINPROGRESS → true = true)) as Hbegin.
  { rewrite Hs. destruct (connector_begin_ends address (with_scratch page p)) as (r & q & addresses & -> & Hc & Ha).
    exists r, q, addresses. split_and!; [done|by eapply connects_scratch| |done].
    eapply Forall_impl; [exact Ha|]. by intros a ->. }
  unfold mbind, M_bind, modify, gets. destruct (length_ =? 4) eqn:E4; exact Hbegin.
Qed.

End plan.
End connecting.
