(* ===== verification/ConnectorServeTheorems.v ===== *)
(** * The connector's loop, turn by turn

    What every turn of the loop keeps, from the process's start on, and what
    is answered in time. *)

From S2P Require Import Prelude.
From S2P Require Import ReadAt.
From S2P Require Import Lua.
From S2P Require Import Connector.
From S2P Require Import ConnectorPlan.
From S2P Require Import ConnectorTable.
From S2P Require Import ConnectorPublic.
From S2P Require Import ConnectorServe.
From S2P Require Import ConnectorServeCorrect.

Local Open Scope Z_scope.

(** ** The invariant *)

(** The clock's milliseconds. *)
Definition milliseconds (t : Z * Z) : Z := t.1 * 1000 + t.2 / 1000000.

(** A connect is given up at a time set from a reading of the clock. *)
Definition timed `{Net} (plan : connector_plan) (n : nat) (f : connector_flight) : Prop :=
  ∃ m t, (m < n)%nat ∧ clock_gettime m = Some t ∧ 0 ≤ milliseconds t < f_deadline f ∧
    f_deadline f ≤ milliseconds t + timeout plan.

(** The requests read whole, with those of [pending] still to be answered and
    the sockets of [extra] to be closed. *)
Record keeping `{Net} (plan : connector_plan) (es : list connector_endpoint) (requests : list bytes)
    (replies : list reply) (pending extra : list Z) (p : process) : Prop := {
  k_taken : taken p = concat requests ++ held p;
  k_requests : Forall (λ w, Z.of_nat (length w) = CONNECTOR_REQUEST_BYTES) requests;
  k_held : Z.of_nat (length (held p)) < CONNECTOR_REQUEST_BYTES;
  k_sent : sent p = (Byte <$> be 4 CONNECTOR_HELLO) ++ (replies ≫= reply_items);
  k_tags : ((λ w, q_tag (connector_decode w)) <$> requests) ≡ₚ pending ++ (r_tag <$> replies) ++ (f_tag <$> flight p);
  k_flight : (length (flight p) ≤ CONNECTOR_FLIGHT)%nat;
  k_sockets : sockets p ≡ₚ extra ++ (f_fd <$> flight p);
  k_once : NoDup (sockets p);
  k_fds : Forall (λ fd, 0 ≤ fd) (sockets p);
  k_timed : Forall (timed plan (calls p)) (flight p);
  k_made : Forall (λ a, ∃ w, w ∈ requests ∧ asked plan es (connector_decode w) a) (made p);
  k_bytes : all_bytes (taken p);
  k_scratch : enabled (pub plan) = true → 2 * CONNECTOR_STRIDE ≤ Z.of_nat (length (scratch p)) }.

(** Between two steps: every request is answered or in flight, every socket
    a connect's in flight. *)
Definition kept `{Net} (plan : connector_plan) (es : list connector_endpoint) (p : process) : Prop :=
  ∃ requests replies, keeping plan es requests replies [] [] p.

(** At all times: every address connected to is one a request asked for. *)
Definition authorised `{Net} (plan : connector_plan) (es : list connector_endpoint) (p : process) : Prop :=
  ∃ requests rest, taken p = concat requests ++ rest ∧
    Forall (λ w, Z.of_nat (length w) = CONNECTOR_REQUEST_BYTES) requests ∧
    Forall (λ a, ∃ w, w ∈ requests ∧ asked plan es (connector_decode w) a) (made p).

Section loop.
Context `{Hnet : Net, !NetLaws} (plan : connector_plan) (es : list connector_endpoint) (Hplan : plan_ok plan es).

Abbreviation keeping := (keeping plan es).
Abbreviation authorised := (authorised plan es).
Abbreviation kept := (kept plan es).

(** A step's end: what is kept and [P], or the process's end. *)
Definition turns (P : process → Prop) : unit + stop → process → Prop := value authorised (λ _ q, kept q ∧ P q).

Lemma keeping_safe requests replies pending extra p : keeping requests replies pending extra p → authorised p.
Proof. intros []. by exists requests, (held p). Qed.

Lemma safe_same p q : taken q = taken p → made q = made p → authorised p → authorised q.
Proof. intros Ht Hm. intros (rs & rest & Hs). exists rs, rest. by rewrite Ht, Hm. Qed.

Lemma timed_later n m f : (n ≤ m)%nat → timed plan n f → timed plan m f.
Proof. intros Hnm (k & t & Hk & Ht). exists k, t. split; [lia|done]. Qed.

Lemma keeping_sent requests replies tag pending extra r items p q :
  keeping requests replies (tag :: pending) extra p → r_tag r = tag → items = reply_items r → sends items p q →
  keeping requests (replies ++ [r]) pending extra q.
Proof.
  intros [] Hr -> (Hf & Hh & Hsc & Ht & Hso & Hm & Hse & Hc).
  split; rewrite ?Hf, ?Hh, ?Hsc, ?Ht, ?Hso, ?Hm; try done.
  - rewrite Hse, k_sent0, bind_app, <-app_assoc. csimpl. by rewrite app_nil_r.
  - rewrite k_tags0, fmap_app, <-Hr. csimpl. rewrite <-!app_assoc. by solve_Permutation.
  - eapply Forall_impl; [exact k_timed0|]. intros f. by apply timed_later.
Qed.

Lemma keeping_closed requests replies pending fd extra p :
  keeping requests replies pending (fd :: extra) p →
  keeping requests replies pending extra (called [] [] (filter (.≠ fd) (sockets p)) [] p).
Proof.
  intros []. split; cbn; rewrite ?app_nil_r; try done.
  - assert (NoDup (fd :: extra ++ (f_fd <$> flight p))) as [Hfd _]%NoDup_cons by by rewrite <-k_sockets0.
    rewrite k_sockets0. cbn [app]. rewrite filter_cons_False by (intros Hn; by apply Hn). by rewrite filter_none.
  - by apply NoDup_filter.
  - rewrite Forall_forall in k_fds0 |- *. intros fd' [_ Hin]%list_elem_of_filter. by apply k_fds0.
  - eapply Forall_impl; [exact k_timed0|]. intros f. apply timed_later. lia.
Qed.

(** A request's reply, and its socket closed. *)
Lemma finish_turns requests replies tag failure fd closing p (P : process → Prop) :
  keeping requests replies [tag] (option_list closing) p →
  (∀ q, flight q = flight p → (calls p ≤ calls q)%nat → P q) →
  ends (trouble ← connector_reply tag failure fd;
        match closing with Some c => sys_close c | None => mret () end;;
        (if negb (trouble =? 0) then exit else mret ())) p (turns P).
Proof.
  intros Hk HP. destruct (connector_reply_ends tag failure fd p) as (trouble & q & items & Hrun & Hs & Hall).
  eapply ends_run; [done|]. pose proof (keeping_safe _ _ _ _ _ Hk) as Hsafe.
  pose proof Hs as (Hf & _ & _ & Ht & _ & Hm & _ & Hc).
  destruct (Z.eqb_spec trouble 0) as [Hz|Hz]; cbn [negb].
  - specialize (Hall Hz). eapply keeping_sent in Hk; [|shelve|exact Hall|exact Hs]. Unshelve. all: [> |done]. clear Hall.
    destruct closing as [c|]; cbn [option_list] in Hk; (eapply ends_run; [reflexivity|]).
    + apply ends_ret. split; [by eapply keeping_safe, keeping_closed|]. split; [|apply HP; cbn; [done|lia]].
      by eexists _, _; apply keeping_closed.
    + apply ends_ret. split; [by eapply keeping_safe|]. split; [by eexists _, _|by apply HP].
  - assert (∀ r, taken r = taken q → made r = made q → authorised r) as Hend.
    { intros r Htr Hmr. by eapply (safe_same p); [congruence..|]. }
    destruct closing as [c|]; (eapply ends_run; [reflexivity|]);
      (split; [apply Hend; cbn; by rewrite ?app_nil_r|done]).
Qed.

(** ** A request *)

(** The connects in flight are those that were, or given up later. *)
Definition newer (p q : process) : Prop :=
  ∀ f, f ∈ flight q → f ∈ flight p ∨
    ∃ m t, (calls p ≤ m)%nat ∧ clock_gettime m = Some t ∧ milliseconds t < f_deadline f.

Lemma newer_same p q : flight q = flight p → newer p q.
Proof. intros Hf f. rewrite Hf. by left. Qed.

(** What a request's bytes decode to. *)
Lemma decode_bounds w :
  Z.of_nat (length w) = CONNECTOR_REQUEST_BYTES → all_bytes w →
  let q := connector_decode w in
  0 ≤ q_port q ∧ 0 ≤ q_wait q < 2 ^ 32 ∧ length (q_address q) = 16%nat.
Proof.
  intros Hl Hb q. unfold CONNECTOR_REQUEST_BYTES in Hl.
  assert (∀ i, 0 ≤ be_value (take 4 (drop i w)) < 256 ^ 4) as Hword.
  { intros i. destruct (be_value_bounds (take 4 (drop i w))) as [Hlo Hhi]; [by apply Forall_take, Forall_drop|].
    split; [done|]. eapply Z.lt_le_trans; [exact Hhi|]. apply Z.pow_le_mono_r; [lia|]. rewrite length_take. lia. }
  split_and!; [apply (Hword 8%nat)|apply (Hword 12%nat)|apply (Hword 12%nat)|].
  cbn. rewrite length_take, length_drop. lia.
Qed.

(** The socket a connect leaves. *)
Definition left_open (r : Z * Z) : option Z := if 0 <=? r.2 then Some r.2 else None.

Lemma keeping_connects requests replies tag addresses p q r :
  keeping requests replies [tag] [] p → connects addresses p q r →
  Forall (λ a, ∃ w, w ∈ requests ∧ asked plan es (connector_decode w) a) addresses →
  keeping requests replies [tag] (option_list (left_open r)) q.
Proof.
  intros [] [] Ha. split; rewrite ?c_flight, ?c_held, ?c_taken, ?c_sent, ?c_scratch; try done.
  - unfold left_open. destruct c_socket as [(-> & _ & ->)|(Hfd & _ & -> & _)]; [done|].
    rewrite (proj2 (Z.leb_le 0 r.2)), k_sockets0 by done. cbn [option_list app]. by rewrite Permutation_app_comm.
  - destruct c_socket as [(_ & _ & ->)|(_ & Hnew & -> & _)]; [done|].
    apply NoDup_app. split_and!; [done| |apply NoDup_singleton]. intros x Hx ->%list_elem_of_singleton. done.
  - destruct c_socket as [(_ & _ & ->)|(Hfd & _ & -> & _)]; [done|]. apply Forall_app. split; [done|]. by constructor.
  - eapply Forall_impl; [exact k_timed0|]. intros f. by apply timed_later.
  - rewrite c_made. by apply Forall_app.
Qed.

Lemma connect_any w requests replies p :
  let request := connector_decode w in
  keeping requests replies [q_tag request] [] p → w ∈ requests → Z.of_nat (length w) = CONNECTOR_REQUEST_BYTES → all_bytes w →
  let room := bool_decide (length (flight p) < CONNECTOR_FLIGHT)%nat in
  ∃ r q, (if q_index request =? CONNECTOR_PUBLIC then connector_public_connect plan request room
          else connector_connect plan request room) p = (inl r, q) ∧
    keeping requests replies [q_tag request] (option_list (left_open r)) q ∧ flight q = flight p ∧ (calls p ≤ calls q)%nat ∧
    (r.1 = EINPROGRESS → 0 ≤ r.2 ∧ (length (flight q) < CONNECTOR_FLIGHT)%nat).
Proof.
  intros request Hk Hw Hlen Hb room. destruct (decode_bounds w Hlen Hb) as (Hport & _ & Haddr). fold request in Hport, Haddr.
  assert (∃ r q addresses, (if q_index request =? CONNECTOR_PUBLIC then connector_public_connect plan request room
      else connector_connect plan request room) p = (inl r, q) ∧ connects addresses p q r ∧
      Forall (asked plan es request) addresses ∧ (r.1 = EINPROGRESS → room = true)) as (r & q & addresses & -> & Hc & Ha & Hroom).
  { destruct (Z.eqb_spec (q_index request) CONNECTOR_PUBLIC).
    - apply connector_public_connect_ends; try done. apply Hk.
    - by apply connector_connect_ends. }
  exists r, q. split_and!; [done| |apply Hc|apply Hc|].
  - eapply keeping_connects; [done..|]. eapply Forall_impl; [exact Ha|]. intros a Hasked. by exists w.
  - intros Hf. pose proof (Hroom Hf) as Hfits%bool_decide_eq_true. rewrite (c_flight _ _ _ _ Hc).
    destruct (c_socket _ _ _ _ Hc) as [(_ & Hne & _)|(? & _)]; done.
Qed.

(** A connect that has begun joins those in flight. *)
Lemma keeping_joined requests replies tag fd t wait p :
  keeping requests replies [tag] [fd] p → (length (flight p) < CONNECTOR_FLIGHT)%nat →
  clock_gettime (calls p) = Some t → 0 ≤ milliseconds t → 1 ≤ wait ≤ timeout plan →
  keeping requests replies [] []
    (with_flight (flight p ++ [Flight fd tag (milliseconds t + wait)]) (called [] [] (sockets p) [] p)).
Proof.
  intros [] Hroom Ht Ht0 Hwait. split; cbn; rewrite ?app_nil_r; try done.
  - rewrite k_tags0, fmap_app. csimpl. by solve_Permutation.
  - rewrite length_app. cbn [length]. lia.
  - rewrite k_sockets0, fmap_app. csimpl. by rewrite Permutation_app_comm.
  - apply Forall_app. split; [eapply Forall_impl; [exact k_timed0|]; intros f; apply timed_later; lia|].
    apply Forall_singleton. exists (calls p), t. cbn [f_deadline]. split_and!; (done || lia).
Qed.

Lemma serve_turns w requests replies p :
  keeping requests replies [q_tag (connector_decode w)] [] p → w ∈ requests →
  Z.of_nat (length w) = CONNECTOR_REQUEST_BYTES → all_bytes w →
  ends (connector_serve plan w) p (turns (newer p)).
Proof.
  intros Hk Hw Hlen Hb. unfold connector_serve. cbv zeta. eapply ends_run; [reflexivity|]. cbv beta.
  destruct (connect_any w requests replies p Hk Hw Hlen Hb) as (r & q & Hrun & Hq & Hf & Hc & Hgo).
  eapply ends_run; [exact Hrun|]. clear Hrun. destruct r as [failure fd]. cbn [fst snd] in Hgo.
  destruct (Z.eqb_spec failure EINPROGRESS) as [Hin|Hin].
  - destruct (Hgo Hin) as [Hfd Hroom]. unfold left_open in Hq. cbn [snd] in Hq.
    rewrite (proj2 (Z.leb_le 0 fd)) in Hq by done. cbn [option_list] in Hq.
    eapply ends_run; [reflexivity|]. destruct (clock_gettime (calls q)) as [[s ns]|] eqn:Et.
    + destruct (Z.leb_spec 0 (s * 1000 + ns / 1000000)).
      * destruct (decode_bounds w Hlen Hb) as (_ & Hwait & _). pose proof (plan_timeout _ _ Hplan) as Hto.
        assert (u32 (timeout plan) = timeout plan) as Hu by (unfold u32; apply Z.mod_small; lia). rewrite Hu.
        set (wait := if _ || _ then _ else _). assert (1 ≤ wait ≤ timeout plan) as Hw'.
        { unfold wait. destruct (Z.eqb_spec (q_wait (connector_decode w)) 0); [cbn [orb]; lia|].
          destruct (Z.ltb_spec (timeout plan) (q_wait (connector_decode w))); cbn [orb]; lia. }
        pose proof (keeping_joined _ _ _ _ (s, ns) wait q Hq Hroom Et ltac:(done) Hw') as Hjoin.
        split; [by eapply keeping_safe|]. split; [by eexists _, _|]. intros f. cbn. rewrite elem_of_app, Hf.
        intros [Hold| ->%list_elem_of_singleton]; [by left|right]. exists (calls q), (s, ns). split_and!; [done|done|].
        cbn [f_deadline]. unfold milliseconds in *. cbn [fst snd] in *. lia.
      * eapply ends_run; [reflexivity|]. apply (finish_turns requests replies _ EIO (-1) None).
        -- apply keeping_closed. split; cbn; rewrite ?app_nil_r; try apply Hq.
           eapply Forall_impl; [apply Hq|]. intros f. apply timed_later. lia.
        -- intros r Hr _. apply newer_same. rewrite Hr. cbn. done.
    + cbn match. eapply ends_run; [reflexivity|]. apply (finish_turns requests replies _ EIO (-1) None).
      * apply keeping_closed. split; cbn; rewrite ?app_nil_r; try apply Hq.
        eapply Forall_impl; [apply Hq|]. intros f. apply timed_later. lia.
      * intros r Hr _. apply newer_same. rewrite Hr. cbn. done.
  - assert (∀ P, ends (trouble ← connector_reply (q_tag (connector_decode w)) failure fd;
        match left_open (failure, fd) with Some c => sys_close c | None => mret () end;;
        (if negb (trouble =? 0) then exit else mret ())) q P →
      ends (trouble ← connector_reply (q_tag (connector_decode w)) failure fd;
        (if 0 <=? fd then sys_close fd else mret ());;
        (if negb (trouble =? 0) then exit else mret ())) q P) as Hsame.
    { intros P. unfold left_open. cbn [snd]. by destruct (0 <=? fd). }
    apply Hsame. eapply finish_turns; [exact Hq|]. intros r Hr _. apply newer_same. congruence.
Qed.

(** ** What is overdue *)

Lemma swap_out_snoc i l x : swap_out i (l ++ [x]) = <[i := x]> l.
Proof.
  unfold swap_out. rewrite last_snoc. destruct (decide (i < length l)%nat) as [Hlt|Hge].
  - rewrite insert_app_l by done. apply removelast_last.
  - rewrite (list_insert_ge l) by lia. destruct (decide (i = length l)) as [->|].
    + replace (length l) with (length l + 0)%nat at 1 by lia. rewrite insert_app_r. cbn. apply removelast_last.
    + rewrite list_insert_ge by (rewrite length_app; cbn [length]; lia). apply removelast_last.
Qed.

Lemma swap_out_perm i l f : l !! i = Some f → f :: swap_out i l ≡ₚ l.
Proof.
  destruct l as [|x l' _] using rev_ind; [done|]. rewrite swap_out_snoc.
  destruct (decide (i < length l')%nat) as [Hlt|Hge].
  - rewrite lookup_app_l by done. intros Hi. rewrite <-(take_drop_middle l' i f Hi) at 2.
    rewrite (insert_take_drop l' i x) by done. by solve_Permutation.
  - rewrite list_insert_ge by lia. intros Hi. apply lookup_lt_Some in Hi as Hlen. rewrite length_app in Hlen.
    cbn [length] in Hlen. assert (i = length l') as -> by lia. rewrite list_lookup_middle in Hi by done.
    injection Hi as ->. by solve_Permutation.
Qed.

Lemma swap_out_before i j l : (j < i)%nat → (i < length l)%nat → swap_out i l !! j = l !! j.
Proof.
  destruct l as [|x l' _] using rev_ind; [cbn; lia|]. rewrite swap_out_snoc, length_app. cbn [length]. intros Hj Hi.
  rewrite list_lookup_insert_ne, lookup_app_l by lia. done.
Qed.

(** What took the place was looked at before. *)
Lemma swap_out_after i j l g : swap_out i l !! j = Some g → (i ≤ j)%nat → ∃ k, (i < k)%nat ∧ l !! k = Some g.
Proof.
  destruct l as [|x l' _] using rev_ind; [done|]. rewrite swap_out_snoc. intros Hg Hj.
  apply list_lookup_insert_Some in Hg as [(-> & -> & Hlt)|[Hne Hg]].
  - exists (length l'). split; [done|by apply list_lookup_middle].
  - exists j. split; [lia|]. by apply lookup_app_l_Some.
Qed.

Lemma settle_turns i f failure p :
  kept p → flight p !! i = Some f →
  ends (connector_settle i f failure) p (turns (λ q, flight q = swap_out i (flight p) ∧ (calls p ≤ calls q)%nat)).
Proof.
  intros (requests & replies & []) Hf. pose proof (swap_out_perm i (flight p) f Hf) as Hperm.
  unfold connector_settle. eapply ends_run; [reflexivity|].
  apply (finish_turns requests replies _ _ _ (Some (f_fd f))); [|by cbn].
  split; cbn; try done.
  - rewrite k_tags0, <-(fmap_Permutation f_tag _ _ Hperm). csimpl. by solve_Permutation.
  - apply Permutation_length in Hperm. cbn [length] in Hperm. lia.
  - by rewrite k_sockets0, <-(fmap_Permutation f_fd _ _ Hperm).
  - assert (Forall (timed plan (calls p)) (f :: swap_out i (flight p))) as Hall by (by rewrite Hperm).
    by apply Forall_cons in Hall as [_ ?].
Qed.

(** A connect the clock has not come to the deadline of. *)
Definition waits (now : Z) (f : connector_flight) : Prop := 0 ≤ now < f_deadline f.

Lemma settle_loop_turns revents now i p :
  kept p → (i ≤ length (flight p))%nat → (∀ j g, (i ≤ j)%nat → flight p !! j = Some g → waits now g) →
  ends (settle_loop revents now i) p
    (turns (λ q, (calls p ≤ calls q)%nat ∧ ∀ g, g ∈ flight q → g ∈ flight p ∧ waits now g)).
Proof.
  revert p. induction i as [|i IH]; intros p Hk Hi Hdone.
  { split; [by destruct Hk as (? & ? & ?%keeping_safe)|]. split; [done|]. split; [done|].
    intros g Hg. split; [done|]. apply list_elem_of_lookup in Hg as [j Hj]. apply (Hdone j); [lia|done]. }
  cbn [settle_loop]. eapply ends_run; [reflexivity|]. cbv beta.
  destruct (lookup_lt_is_Some_2 (flight p) i ltac:(lia)) as [f Hf]. rewrite Hf.
  eapply (ends_bind _ _ _ _ (λ _ q, kept q ∧ (calls p ≤ calls q)%nat ∧ (i ≤ length (flight q))%nat ∧
    (∀ j g, (i ≤ j)%nat → flight q !! j = Some g → waits now g) ∧ flight q ⊆ flight p)).
  - assert (∀ failure r, kept r → flight r = flight p → (calls p ≤ calls r)%nat →
      ends (connector_settle i f failure) r (value authorised (λ _ q, kept q ∧ (calls p ≤ calls q)%nat ∧ (i ≤ length (flight q))%nat ∧
        (∀ j g, (i ≤ j)%nat → flight q !! j = Some g → waits now g) ∧ flight q ⊆ flight p))) as Hsettle.
    { intros failure r Hr Hfl Hc. eapply ends_weaken; [apply settle_turns; [done|by rewrite Hfl]|].
      intros [] q _ (Hq & Hq' & Hcq). rewrite Hfl in Hq'. split; [done|]. rewrite Hq'.
      pose proof (swap_out_perm i (flight p) f Hf) as Hperm. split_and!; [lia| | |].
      - apply Permutation_length in Hperm. cbn [length] in Hperm. lia.
      - intros j g Hj Hg. apply swap_out_after in Hg as (k & Hk' & Hg); [|done]. by apply (Hdone k).
      - intros g Hg. rewrite <-Hperm. by apply list_elem_of_further. }
    destruct (negb (_ =? 0)); [|destruct ((now <? 0) || (f_deadline f <=? now)) eqn:Eover].
    + eapply ends_run; [reflexivity|]. apply Hsettle; [|done|by apply Nat.le_succ_diag_r].
      destruct Hk as (requests & replies & []). exists requests, replies. split; cbn; rewrite ?app_nil_r; try done.
      eapply Forall_impl; [done|]. intros g. apply timed_later. lia.
    + by apply Hsettle.
    + apply orb_false_iff in Eover as [?%Z.ltb_ge ?%Z.leb_gt].
      apply ends_ret. split; [by destruct Hk as (? & ? & ?%keeping_safe)|]. split_and!; [done|done|lia| |done].
      intros j g Hj Hg. destruct (decide (j = i)) as [->|]; [|apply (Hdone j); [lia|done]].
      rewrite Hf in Hg. injection Hg as <-. by split.
  - intros [] q _ (Hq & Hc & Hlen & Hdone' & Hsub). eapply ends_weaken; [by apply IH|].
    intros [] r _ (Hr & Hcr & Hw). split; [done|]. split; [lia|]. intros g Hg. destruct (Hw g Hg) as [Hgq Hgw].
    split; [by apply Hsub|done].
Qed.

(** ** A turn *)

Lemma keeping_called requests replies p :
  keeping requests replies [] [] p → keeping requests replies [] [] (called [] [] (sockets p) [] p).
Proof.
  intros []. split; cbn; rewrite ?app_nil_r; try done.
  eapply Forall_impl; [done|]. intros g. apply timed_later. lia.
Qed.

Lemma kept_called p : kept p → kept (called [] [] (sockets p) [] p).
Proof. intros (requests & replies & Hk). exists requests, replies. by apply keeping_called. Qed.

Lemma kept_safe p : kept p → authorised p.
Proof. by intros (requests & replies & Hk%keeping_safe). Qed.

Lemma newer_trans p q r : flight q = flight p → (calls p ≤ calls q)%nat → newer q r → newer p r.
Proof.
  intros Hf Hc Hn f Hin. destruct (Hn f Hin) as [?|(m & t & Hm & ?)]; [left; by rewrite <-Hf|right].
  exists m, t. split; [lia|done].
Qed.

(** What is read goes to the request, which may be whole then. *)
Lemma keeping_read requests replies bs p :
  keeping requests replies [] [] p → all_bytes bs →
  let p' := with_held (held p ++ bs) (called bs [] (sockets p) [] p) in
  Z.of_nat (length (held p ++ bs)) ≤ CONNECTOR_REQUEST_BYTES →
  if Z.of_nat (length (held p ++ bs)) =? CONNECTOR_REQUEST_BYTES
  then keeping (requests ++ [held p ++ bs]) replies [q_tag (connector_decode (held p ++ bs))] [] (with_held [] p')
  else keeping requests replies [] [] p'.
Proof.
  intros [] Hb p' Hfit. assert (all_bytes (taken p ++ bs)) by (by apply Forall_app).
  assert (Forall (timed plan (S (calls p))) (flight p)).
  { eapply Forall_impl; [done|]. intros g. apply timed_later. lia. }
  destruct (Z.eqb_spec (Z.of_nat (length (held p ++ bs))) CONNECTOR_REQUEST_BYTES) as [Hw|Hw].
  - split; cbn; rewrite ?app_nil_r; try done.
    + rewrite k_taken0, concat_app. cbn. by rewrite app_nil_r, app_assoc.
    + apply Forall_app. split; [done|by apply Forall_singleton].
    + rewrite fmap_app, k_tags0. csimpl. by solve_Permutation.
    + eapply Forall_impl; [done|]. intros a (w & ? & ?). exists w. split; [apply elem_of_app; by left|done].
  - split; cbn; rewrite ?app_nil_r; try done.
    + by rewrite k_taken0, app_assoc.
    + lia.
Qed.

Lemma take_turns p : kept p → ends (connector_take plan) p (turns (newer p)).
Proof.
  intros Hk. pose proof Hk as (requests & replies & Hkeep). unfold connector_take. eapply ends_run; [reflexivity|].
  eapply ends_run; [reflexivity|]. pose proof (k_held _ _ _ _ _ _ _ Hkeep) as Hheld.
  set (n := CONNECTOR_REQUEST_BYTES - Z.of_nat (length (held p))) in *.
  destruct (read (calls p) n) as [bs|errno] eqn:Er.
  2: { destruct (errno =? EINTR).
       - apply ends_ret. split; [by apply kept_safe, kept_called|]. split; [by apply kept_called|by apply newer_same].
       - split; [by apply kept_safe, kept_called|done]. }
  assert (0 < n) as Hn by (unfold n; lia). destruct (read_some _ _ _ Hn Er) as [Hlen Hb]. destruct bs as [|b bs].
  { split; [by apply kept_safe, kept_called|done]. }
  eapply ends_run; [reflexivity|]. eapply ends_run; [reflexivity|]. cbn [held with_held called].
  set (bs' := b :: bs) in *. pose proof (keeping_read requests replies bs' p Hkeep Hb) as Hread. cbv zeta in Hread.
  destruct (Z.eqb_spec (Z.of_nat (length (held p ++ bs'))) CONNECTOR_REQUEST_BYTES) as [Hw|Hw].
  - specialize (Hread ltac:(lia)). eapply ends_run; [reflexivity|]. eapply ends_weaken.
    + eapply serve_turns; [exact Hread|apply elem_of_app; right; by apply list_elem_of_singleton|done|].
      apply Forall_app. split; [|done]. destruct Hkeep. rewrite k_taken0 in k_bytes0. by apply Forall_app in k_bytes0 as [_ ?].
    + intros [] q _ [Hq Hnew]. split; [done|]. eapply newer_trans; [|..|exact Hnew]; [done|]. cbn. lia.
  - specialize (Hread ltac:(rewrite length_app; lia)). apply ends_ret. split; [by eapply keeping_safe|].
    split; [by eexists _, _|by apply newer_same].
Qed.

(** No connect is left that was overdue at every reading of the clock. *)
Definition in_time (p q : process) : Prop :=
  (∃ n fds left_, (calls p ≤ n)%nat ∧ ppoll n fds left_ = inr EINTR) ∨
  ∀ d, (∀ n t, (calls p ≤ n)%nat → clock_gettime n = Some t → d ≤ milliseconds t) → ∀ f, f ∈ flight q → d < f_deadline f.

Lemma turn_turns p : kept p → ends (connector_turn plan) p (turns (in_time p)).
Proof.
  intros Hk. unfold connector_turn. eapply ends_run; [reflexivity|]. eapply ends_run; [reflexivity|].
  apply kept_called in Hk as Hk1. set (p1 := called [] [] (sockets p) [] p) in *.
  eapply ends_run; [reflexivity|]. apply kept_called in Hk1 as Hk2. set (p2 := called [] [] (sockets p1) [] p1) in *.
  cbv beta. set (left_ := poll_left _ _).
  destruct (ppoll (calls p1) (control plan :: (f_fd <$> flight p)) left_) as [revents|errno] eqn:Ep.
  2: { destruct (Z.eqb_spec errno EINTR) as [->|].
       - apply ends_ret. split; [by apply kept_safe|]. split; [done|]. left.
         exists (calls p1), (control plan :: (f_fd <$> flight p)), left_. split; [apply Nat.le_succ_diag_r|done].
       - split; [by apply kept_safe|done]. }
  destruct (negb _); [by split; [apply kept_safe|]|]. eapply ends_run; [reflexivity|]. cbv beta.
  apply kept_called in Hk2 as Hk3. set (p3 := called [] [] (sockets p2) [] p2) in *. set (now := match clock_gettime _ with Some _ => _ | None => _ end).
  assert (calls p3 = S (S (S (calls p))) ∧ flight p3 = flight p) as [Hc3 Hf3] by done.
  assert (∀ d g, (∀ n t, (calls p ≤ n)%nat → clock_gettime n = Some t → d ≤ milliseconds t) → waits now g → d < f_deadline g) as Hwaits.
  { intros d g Hd [Hnow Hg]. unfold now in *. destruct (clock_gettime (calls p2)) as [[s ns]|] eqn:Et; [|lia].
    apply Hd in Et; [unfold milliseconds in Et; cbn in Et; lia|]. cbn. lia. }
  eapply ends_bind.
  - apply (settle_loop_turns _ now (length (flight p)) p3); [done|by rewrite Hf3|].
    intros j g Hj Hg. rewrite Hf3 in Hg. apply lookup_lt_Some in Hg. lia.
  - intros [] q _ (Hq & Hc & Hg). destruct (negb _).
    + eapply ends_weaken; [by apply take_turns|]. intros [] r _ [Hr Hn]. split; [done|]. right. intros d Hd f Hin.
      destruct (Hn f Hin) as [Hold|(m & t & Hm & Ht & Hlt)]; [eapply Hwaits; [done|by apply Hg]|].
      apply Hd in Ht; [lia|lia].
    + apply ends_ret. split; [by apply kept_safe|]. split; [done|]. right. intros d Hd f Hin.
      eapply Hwaits; [done|by apply Hg].
Qed.

Lemma turns_turns n p : kept p → ends (connector_turns plan n) p (turns (λ _, True)).
Proof.
  revert p. induction n as [|n IH]; intros p Hk; cbn [connector_turns].
  - apply ends_ret. split; [by apply kept_safe|done].
  - eapply ends_bind; [by apply turn_turns|]. intros [] q _ [Hq _]. by apply IH.
Qed.

(** The process as it starts. *)
Definition starting (page : bytes) : process := Process [] [] page 0 [] [] [] [].

Lemma loop_turns n page :
  (enabled (pub plan) = true → 2 * CONNECTOR_STRIDE ≤ Z.of_nat (length page)) →
  ends (connector_loop plan n) (starting page) (turns (λ _, True)).
Proof.
  intros Hpage. unfold connector_loop.
  destruct (connector_whole_ends (be 4 CONNECTOR_HELLO) (starting page)) as (trouble & q & items & Hrun & Hs & Hall).
  eapply ends_run; [exact Hrun|]. destruct Hs as (Hf & Hh & Hsc & Ht & Hso & Hm & Hse & Hc).
  destruct (Z.eqb_spec trouble 0) as [Hz|Hz]; cbn [negb].
  - apply turns_turns. exists [], []. split; rewrite ?Hf, ?Hh, ?Hsc, ?Ht, ?Hso, ?Hm; cbn; try done; try by constructor.
    + by rewrite Hse, (Hall Hz).
    + lia.
  - split; [|done]. exists [], []. cbn. by rewrite Ht, Hm.
Qed.

Lemma nearest_spec l :
  Forall (λ f, 0 ≤ f_deadline f) l → (l = [] ∧ nearest l = -1) ∨ 0 ≤ nearest l ∧ Forall (λ f, nearest l ≤ f_deadline f) l.
Proof.
  unfold nearest. induction l as [|f l IH] using rev_ind; [by left|]. intros [Hl Hf]%Forall_app.
  apply Forall_cons in Hf as [Hf _]. right. rewrite foldl_app. cbn [foldl]. set (soonest := foldl _ (-1) l) in *.
  destruct (IH Hl) as [[-> Hs]|[Hs Hall]].
  - rewrite Hs. change (-1 <? 0) with true. cbn [orb app]. split; [lia|]. constructor; [lia|done].
  - rewrite (proj2 (Z.ltb_ge soonest 0)) by done. cbn [orb]. destruct (Z.ltb_spec (f_deadline f) soonest).
    + split; [done|]. apply Forall_app. split; [|constructor; [lia|done]].
      eapply Forall_impl; [exact Hall|]. cbn. lia.
    + split; [done|]. apply Forall_app. split; [done|]. constructor; [lia|done].
Qed.

End loop.

Lemma plan_is_ok `{LuaStrings, LuaIntegers, RawLen, LuaFields, InetPton, !InetPtonLaws, Mapping, !MappingLaws}
    h argument_ empty es plan :
  connector_endpoints h argument_ true empty = inl es → connector_table es = inl (table plan) →
  1 ≤ timeout plan ≤ 60000 → plan_ok plan es.
Proof.
  intros (Hok & Hused & _)%connector_endpoints_ok Ht Hto. pose proof (connector_table_ok es Hok Hused) as Hall.
  rewrite Ht in Hall. by split.
Qed.

(** ** The properties *)

Section properties.
Context `{LuaStrings, LuaIntegers, RawLen, LuaFields, Hpton : InetPton, !InetPtonLaws, Hmap : Mapping, !MappingLaws}.
Context `{Hnet : Net, !NetLaws}.

(** C17: a connector that has served any number of turns has neither lost a
    request nor answered one twice, whatever the stream's pieces, the
    connects' ends and the interruptions are: the tags of the requests read
    whole are those of the replies sent whole, in the order they ended, and
    of the connects in flight, 64 at most; and its open sockets are exactly
    the connects'. A call interrupted again and again holds it up no longer
    than the kernel's patience. *)
Theorem requests_answered_once h argument_ empty es plan page n :
  connector_endpoints h argument_ true empty = inl es → connector_table es = inl (table plan) →
  1 ≤ timeout plan ≤ 60000 → (enabled (pub plan) = true → 2 * CONNECTOR_STRIDE ≤ Z.of_nat (length page)) →
  match connector_loop plan n (starting page) with
  | (inl _, p) =>
      ∃ requests replies,
        taken p = concat requests ++ held p ∧ Forall (λ w, Z.of_nat (length w) = CONNECTOR_REQUEST_BYTES) requests ∧
        Z.of_nat (length (held p)) < CONNECTOR_REQUEST_BYTES ∧
        sent p = (Byte <$> be 4 CONNECTOR_HELLO) ++ (replies ≫= reply_items) ∧
        (λ w, q_tag (connector_decode w)) <$> requests ≡ₚ (r_tag <$> replies) ++ (f_tag <$> flight p) ∧
        (length (flight p) ≤ CONNECTOR_FLIGHT)%nat ∧ sockets p ≡ₚ f_fd <$> flight p ∧ NoDup (sockets p)
  | (inr Exits, _) => True
  | (inr Waits, _) => False
  end.
Proof.
  intros Hes Ht Hto Hpage. pose proof (loop_turns plan es (plan_is_ok _ _ _ _ _ Hes Ht Hto) n page Hpage) as [_ Hend].
  destruct (connector_loop plan n (starting page)) as [[[]|[]] p]; [|done..].
  destruct Hend as [(requests & replies & []) _]. exists requests, replies. by split_and!.
Qed.

(** C19: whenever the connector is looked at, serving or ended, every address
    it has connected a socket to is the one that a request it had read asked
    for: a slot of the request's endpoint, approved and at the request's
    port, or, in a public connector, the request's own address at its port,
    which the lists let through. *)
Theorem connects_authorised h argument_ empty es plan page n :
  connector_endpoints h argument_ true empty = inl es → connector_table es = inl (table plan) →
  1 ≤ timeout plan ≤ 60000 → (enabled (pub plan) = true → 2 * CONNECTOR_STRIDE ≤ Z.of_nat (length page)) →
  let p := (connector_loop plan n (starting page)).2 in
  ∃ requests rest, taken p = concat requests ++ rest ∧
    Forall (λ w, Z.of_nat (length w) = CONNECTOR_REQUEST_BYTES) requests ∧
    Forall (λ a, ∃ w, w ∈ requests ∧ asked plan es (connector_decode w) a) (made p).
Proof.
  intros Hes Ht Hto Hpage. apply (loop_turns plan es (plan_is_ok _ _ _ _ _ Hes Ht Hto) n page Hpage).
Qed.

(** C18: a request is answered in time. Whenever a turn of the loop is not cut
    short by a signal, every request whose deadline the clock had come to by
    then has been answered, each connect still in flight being due at most
    the connector's timeout after a reading of the clock; and the wait for
    the kernel ends no later than the soonest deadline. *)
Theorem overdue_connects_answered h argument_ empty es plan page n p q d :
  connector_endpoints h argument_ true empty = inl es → connector_table es = inl (table plan) →
  1 ≤ timeout plan ≤ 60000 → (enabled (pub plan) = true → 2 * CONNECTOR_STRIDE ≤ Z.of_nat (length page)) →
  connector_loop plan n (starting page) = (inl (), p) → connector_turn plan p = (inl (), q) →
  (∀ m fds left_, (calls p ≤ m)%nat → ppoll m fds left_ ≠ inr EINTR) →
  (∀ m t, (calls p ≤ m)%nat → clock_gettime m = Some t → d ≤ milliseconds t) →
  (∃ requests replies, taken q = concat requests ++ held q ∧
     sent q = (Byte <$> be 4 CONNECTOR_HELLO) ++ (replies ≫= reply_items) ∧
     (λ w, q_tag (connector_decode w)) <$> requests ≡ₚ (r_tag <$> replies) ++ (f_tag <$> flight q)) ∧
  Forall (λ f, d < f_deadline f ∧ timed plan (calls q) f) (flight q) ∧
  ∀ f now, f ∈ flight p → 0 ≤ now →
    ∃ t, poll_left (nearest (flight p)) now = Some t ∧ 0 ≤ t ∧ now + t ≤ Z.max now (f_deadline f).
Proof.
  intros Hes Ht Hto Hpage Hloop Hturn Hppoll Hclock.
  pose proof (plan_is_ok _ _ _ _ _ Hes Ht Hto) as Hplan.
  pose proof (loop_turns plan es Hplan n page Hpage) as [_ Hp]. rewrite Hloop in Hp. cbn in Hp. destruct Hp as [Hp _].
  pose proof (turn_turns plan es Hplan p Hp) as [_ Hq]. rewrite Hturn in Hq. cbn in Hq. destruct Hq as [Hq Hin].
  destruct Hq as (requests & replies & []). split; [|split].
  - exists requests, replies. by split_and!.
  - destruct Hin as [(m & fds & left_ & Hm & Hintr)|Hin]; [by apply Hppoll in Hintr|].
    rewrite Forall_forall in k_timed0 |- *. intros f Hf. split; [by apply (Hin d)|by apply k_timed0].
  - intros f now Hf Hnow. destruct Hp as (requests' & replies' & [????????? Htimed ???]).
    destruct (nearest_spec (flight p)) as [[Hnil _]|[Hn0 Hall]].
    + eapply Forall_impl; [exact Htimed|]. intros g (m & t & _ & _ & ? & _). lia.
    + rewrite Hnil in Hf. by apply not_elem_of_nil in Hf.
    + rewrite Forall_forall in Hall. specialize (Hall f Hf). unfold poll_left.
      rewrite (proj2 (Z.ltb_ge _ 0)), (proj2 (Z.leb_le 0 now)) by done. eexists. split; [done|]. cbn [andb].
      destruct (Z.ltb_spec now (nearest (flight p))); lia.
Qed.

End properties.

(** * One connector served

    A kernel whose clock counts the calls, whose connects never end, and
    whose stream asks for one endpoint again and again. *)

Import Plain Straddling.

(** The second endpoint, by a tag of 7. *)
Definition one_request : bytes :=
  be 4 7 ++ be 4 2 ++ be 4 443 ++ be 4 0 ++ be 4 0 ++ replicate 16 0.

#[export] Instance counting_net : Net := {
  socket _ open_ _ := inl (1 + foldr Z.max 4 open_);
  connect _ _ _ := EINPROGRESS;
  write _ bs := inl (Z.of_nat (length bs));
  sendmsg _ _ := inl 1;
  read _ n := inl (if n =? 36 then one_request else []);
  ppoll _ _ _ := inl [POLLIN];
  getsockopt _ _ := inl 0;
  clock_gettime n := Some (Z.of_nat n, 0);
  patience := 0 }.

Lemma one_request_bytes : all_bytes one_request.
Proof. unfold one_request. rewrite !Forall_app. split_and!; try apply be_bytes. by apply Forall_replicate. Qed.

Lemma foldr_max l x : x ∈ l → x ≤ foldr Z.max 4 l.
Proof. induction l as [|y l IH]; [by intros ?%not_elem_of_nil|]. intros [->|Hx]%elem_of_cons; cbn; [lia|]. specialize (IH Hx). lia. Qed.

Lemma foldr_max_four l : 4 ≤ foldr Z.max 4 l.
Proof. induction l as [|y l IH]; cbn; lia. Qed.

#[export] Instance counting_laws : NetLaws.
Proof.
  split; cbn; try done.
  - intros n open_ _ fd [= <-]. split; [pose proof (foldr_max_four open_); lia|].
    intros Hin%foldr_max. lia.
  - intros n bs k [= <-]. lia.
  - intros n. by exists 0%nat.
  - intros _ _ k [= <-]. lia.
  - intros n. by exists 0%nat.
  - intros _ k bs Hk [= <-]. destruct (Z.eqb_spec k 36) as [->|]; [split; [by vm_compute|apply one_request_bytes]|].
    cbn. split; [lia|done].
Qed.

Definition two_plan : connector_plan :=
  Plan match connector_table two_endpoints with inl held => held | inr _ => Held [] 0 [] end (Public [] [] false) 3000 3.

Lemma two_plan_table :
  connector_endpoints two (LTable 1) true false = inl two_endpoints ∧ connector_table two_endpoints = inl (table two_plan).
Proof. split; by vm_compute. Qed.

Lemma two_plan_timeout : 1 ≤ timeout two_plan ≤ 60000.
Proof. change (1 ≤ 3000 ≤ 60000). lia. Qed.

Lemma two_plan_page : enabled (pub two_plan) = true → 2 * CONNECTOR_STRIDE ≤ Z.of_nat (length (@nil Z)).
Proof. intros He. change (false = true) in He. discriminate. Qed.

Definition after (n : nat) : process := (connector_loop two_plan n (starting [])).2.

Lemma requests_answered_once_witness :
  (connector_loop two_plan 3 (starting [])).1 = inl () ∧
  ∃ requests replies, taken (after 3) = concat requests ++ held (after 3) ∧
    (λ w, q_tag (connector_decode w)) <$> requests ≡ₚ (r_tag <$> replies) ++ (f_tag <$> flight (after 3)).
Proof.
  assert ((connector_loop two_plan 3 (starting [])).1 = inl ()) as Hend by (by vm_compute). split; [done|].
  destruct two_plan_table as [Hes Ht].
  pose proof (requests_answered_once two (LTable 1) false two_endpoints two_plan [] 3 Hes Ht two_plan_timeout two_plan_page) as Hall.
  unfold after. destruct (connector_loop two_plan 3 (starting [])) as [[[]|s] p]; [|done].
  destruct Hall as (requests & replies & Htaken & _ & _ & _ & Htags & _). by exists requests, replies.
Defined.

Lemma connects_authorised_witness :
  made (after 2) ≠ [] ∧
  ∃ requests : list bytes, Forall (λ a, ∃ w, w ∈ requests ∧ asked two_plan two_endpoints (connector_decode w) a) (made (after 2)).
Proof.
  split; [by vm_compute|]. destruct two_plan_table as [Hes Ht].
  destruct (connects_authorised two (LTable 1) false two_endpoints two_plan [] 2 Hes Ht two_plan_timeout two_plan_page)
    as (requests & rest & _ & _ & Hmade). by exists requests.
Defined.

Lemma overdue_connects_answered_witness :
  f_deadline <$> flight (after 1) = [10000] ∧
  ∃ q, connector_turn two_plan (after 1) = (inl (), q) ∧ Forall (λ f, 8000 < f_deadline f) (flight q).
Proof.
  split; [by vm_compute|]. destruct two_plan_table as [Hes Ht].
  assert (connector_loop two_plan 1 (starting []) = (inl (), after 1)) as Hloop by (by vm_compute).
  assert ((connector_turn two_plan (after 1)).1 = inl ()) as Hr by (by vm_compute).
  destruct (connector_turn two_plan (after 1)) as [r q] eqn:Hturn. cbn in Hr. subst r.
  exists q. split; [done|].
  assert (calls (after 1) = 8%nat) as Hcalls by (by vm_compute).
  destruct (overdue_connects_answered two (LTable 1) false two_endpoints two_plan [] 1 (after 1) q 8000 Hes Ht
    two_plan_timeout two_plan_page Hloop Hturn) as (_ & Hall & _); [done| |].
  - intros m t Hm [= <-]. unfold milliseconds. cbn [fst snd]. change (0 / 1000000) with 0. rewrite Hcalls in Hm. lia.
  - eapply Forall_impl; [exact Hall|]. by intros f [? _].
Defined.
