(* ===== verification/ConnectorEntry.v ===== *)
(** * The connector's doors: [core/connector.c]

    The calls Lua makes: a filter for either architecture as text, and the
    arguments of a connector and what it is prepared with. *)

From S2P Require Import Prelude.
From S2P Require Import Texts.
From S2P Require Import Lua.
From S2P Require Import Promises.
From S2P Require Import PromisesRun.
From S2P Require Import Bpf.
From S2P Require Import Connector.
From S2P Require Import ConnectorFilter.
From S2P Require Import ConnectorPlan.
From S2P Require Import ConnectorTable.
From S2P Require Import ConnectorPublic.
From S2P Require Import ConnectorServe.
From S2P Require Import ReadAt.

Local Open Scope Z_scope.

(** ** Descriptors *)

(** The descriptor a portable start retains on the artifact, if it did. *)
Class Artifact := artifact_fd : option Z.

(** What the kernel says of a control's descriptor: its peer's family, its
    kind, its flags, or an errno. *)
Class Control := {
  getpeername : Z → Z + Z;
  socket_kind : Z → Z + Z;
  fcntl_flags : Z → Z + Z }.

Definition AF_UNIX : Z := 1.
Definition SOCK_STREAM : Z := 1.
Definition O_NONBLOCK : Z := 0x800.
Definition EBADF : Z := 9.

Section doors.
Context `{LuaStrings, LuaIntegers, RawLen, LuaFields, InetPton, Artifact}.

Definition cosmic_argfd (fd : Z) : option bytes :=
  if bool_decide (artifact_fd = Some fd)
  then Some (lit "is this program's retained artifact descriptor, through which every module it carries could be read")
  else None.

Definition cosmic_checkfd (v : lua_value) : Z + bytes :=
  match cosmic_checkint v with
  | inr why => inr why
  | inl fd => match cosmic_argfd fd with Some why => inr why | None => inl fd end
  end.

(** ** The filter as text *)

(** A range read out of a table. *)
Definition connector_range_of (h : heap) (item : lua_value) : connector_range + bytes :=
  match item with
  | LTable _ =>
      match lua_tointegerx (lua_getfield h item (lit "base")) with
      | None => inr (lit "number expected")
      | Some base =>
          match cosmic_checkint (lua_getfield h item (lit "slots")) with
          | inr why => inr why
          | inl each =>
              match cosmic_checkint (lua_getfield h item (lit "length")) with
              | inr why => inr why
              | inl length_ =>
                  if negb (length_ =? 16) && negb (length_ =? 28) then inr (lit "a range is invalid")
                  else
                    let stride := connector_stride length_ in
                    if (base <=? 0) || negb (Z.land base (stride - 1) =? 0) || (each <? 1) || (65535 <? each)
                    then inr (lit "a range is invalid")
                    else
                      let end_ := u64 (base + each * stride) in
                      if negb (Z.shiftr base 32 =? Z.shiftr end_ 32)
                      then inr (lit "a range crosses a 32-bit boundary")
                      else inl (Range base each length_)
              end
          end
      end
  | v => inr (lit "table expected, got " ++ type_name v)
  end.

(** The loop over the ranges, [bytes_] being what their slots take. *)
Fixpoint ranges_loop (h : heap) (items : list lua_value) (bytes_ : Z) : list connector_range + bytes :=
  match items with
  | [] => inl []
  | item :: items =>
      match connector_range_of h item with
      | inr why => inr why
      | inl r =>
          let bytes_ := bytes_ + r_slots r * connector_stride (r_length r) in
          if CONNECTOR_TABLE_BYTES <? bytes_ then inr (lit "ranges exceed 32 MiB")
          else
            match ranges_loop h items bytes_ with
            | inl rs => inl (r :: rs)
            | inr why => inr why
            end
      end
  end.

(** An instruction's bytes: [struct connector_insn] in memory. *)
Definition insn_bytes (i : connector_insn) : bytes :=
  [insn_code i mod 256; insn_code i / 256; insn_jt i; insn_jf i;
   insn_k i mod 256; insn_k i / 256 mod 256; insn_k i / 65536 mod 256; insn_k i / 16777216].

Definition connector_filter (h : heap) (architecture ranges_ control_ status_ : lua_value) : bytes + bytes :=
  match lua_tolstring architecture with
  | None => inr (lit "string expected, got " ++ type_name architecture)
  | Some text =>
      let numbers :=
        if bool_decide (c_string text = lit "x86_64") then Some connector_x86
        else if bool_decide (c_string text = lit "aarch64") then Some connector_arm
        else None in
      match numbers, ranges_ with
      | None, _ => inr (lit "architecture must be x86_64 or aarch64")
      | Some numbers, LTable a =>
          let count := lua_rawlen (table_at h a) in
          if (count =? 0) || (CONNECTOR_ENDPOINTS <? count) then inr (lit "ranges must hold 1 through 128 entries")
          else
            match ranges_loop h ((λ i, rawgeti (table_at h a) i) <$> seqZ 1 count) 0 with
            | inr why => inr why
            | inl ranges =>
                match cosmic_checkfd control_, cosmic_checkfd status_ with
                | inr why, _ => inr why
                | _, inr why => inr why
                | inl control, inl status =>
                    let '(code, length_) := connector_program numbers ranges control status in
                    if bool_decide (length_ = 0)%nat then inr (lit "connector filter exceeds the kernel limit")
                    else inl (take length_ (insns code) ≫= insn_bytes)
                end
            end
      | Some _, v => inr (lit "table expected, got " ++ type_name v)
      end
  end.

(** ** A connector's start *)

(** The errno a control is refused with, 0 for none. *)
Definition connector_control `{Control} (fd : Z) : Z :=
  if fd <? 0 then EBADF
  else
    match getpeername fd with
    | inr errno => errno
    | inl family =>
        if negb (family =? AF_UNIX) then EINVAL
        else
          match socket_kind fd with
          | inr errno => errno
          | inl kind =>
              if negb (kind =? SOCK_STREAM) then EINVAL
              else
                match fcntl_flags fd with
                | inr errno => errno
                | inl flags => if negb (Z.land flags O_NONBLOCK =? 0) then EINVAL else 0
                end
          end
    end.

(** The plan, the ranges its filter accepts and the scratch page's place, or
    an errno. *)
Definition connector_prepare `{Control, Mapping} (endpoints : list connector_endpoint) (pub_ : connector_public)
    (control_ timeout_ : Z) : connector_plan * list connector_range * option Z + Z :=
  let trouble := connector_control control_ in
  if negb (trouble =? 0) then inr trouble
  else
    match connector_table endpoints with
    | inr trouble => inr trouble
    | inl held =>
        let plan := Plan held pub_ timeout_ control_ in
        if enabled pub_ then
          match connector_scratch (h_ranges held) with
          | inr trouble => inr trouble
          | inl (ranges, base) => inl (plan, ranges, Some base)
          end
        else inl (plan, h_ranges held, None)
    end.

(** [connector_start]'s arguments: the endpoints, the lists, the control and
    the timeout. *)
Definition start_arguments (h : heap) (endpoints_ control_ timeout_ public_ : lua_value) :
    list connector_endpoint * connector_public * Z * Z + bytes :=
  match (if bool_decide (public_ = LNil) then inl (Public [] [] false) else connector_public_read h public_) with
  | inr why => inr why
  | inl pub =>
      match connector_endpoints h endpoints_ true (enabled pub) with
      | inr why => inr why
      | inl endpoints =>
          match cosmic_checkfd control_, cosmic_checkint timeout_ with
          | inr why, _ => inr why
          | _, inr why => inr why
          | inl control, inl timeout =>
              if (timeout <? 1) || (60000 <? timeout) then inr (lit "timeout must be 1 through 60000 milliseconds")
              else inl (endpoints, pub, control, timeout)
          end
      end
  end.

End doors.

(** * What a connector's filter lets it connect to

    From the arguments Lua gives: the ranges are ones the filter can express,
    the filter's text is the program, and a connect it lets through goes to an
    approved endpoint's address or to a scratch slot. *)

(** ** What is prepared *)

(** The scratch page's two slots. *)
Definition scratch_slot (base pointer length_ : Z) : Prop :=
  pointer = base ∧ length_ = V4_SIZE ∨ pointer = base + CONNECTOR_STRIDE ∧ length_ = V6_SIZE.

Section prepared.
Context `{LuaStrings, LuaIntegers, RawLen, LuaFields, Hpton : InetPton, !InetPtonLaws}.
Context `{Hartifact : Artifact, Hcontrol : Control, Hmap : Mapping, !MappingLaws}.

Lemma scratch_ranges_ok base :
  mmap page_size = inl base → range_ok (Range base 1 V4_SIZE) ∧ range_ok (Range (base + CONNECTOR_STRIDE) 1 V6_SIZE).
Proof.
  intros Hm. destruct page_multiple as (Hp & Hp32 & Hblock).
  assert (0 < page_size) as Hp0 by lia. destruct (mmap_law page_size base Hp0 Hm) as (Hb & Hal & Htop).
  assert (base mod 32 = 0) by (apply (mod_divides _ page_size); lia).
  assert (base / 2 ^ 32 = (base + page_size - 1) / 2 ^ 32) as Hin.
  { apply Z.mod_divide in Hblock as [k Hk]; [|lia]. apply Z.mod_divide in Hal as [m Hm']; [|lia].
    rewrite Hm', Hk. replace (m * page_size + page_size - 1) with (page_size - 1 + m * page_size) by lia.
    rewrite (Z.mul_comm k), <-!Z.div_div by nia.
    by rewrite Z.div_mul, Z.div_add, (Z.div_small (page_size - 1)) by lia. }
  assert (∀ n, 0 ≤ n < page_size → (base + n) / 2 ^ 32 = base / 2 ^ 32) as Hblk.
  { intros n Hn. symmetry. eapply (same_block base (page_size - 1)); [|lia..]. by rewrite Z.add_sub_assoc. }
  unfold CONNECTOR_STRIDE. split; split; cbn [r_base r_slots r_length]; try (by left || by right); try lia.
  - change (connector_stride V4_SIZE) with 16. zdiv.
  - change (1 * connector_stride V4_SIZE) with 16. by rewrite Hblk by lia.
  - change (connector_stride V6_SIZE) with 32. zdiv.
  - change (1 * connector_stride V6_SIZE) with 32. rewrite <-Z.add_assoc. by rewrite !Hblk by lia.
Qed.

Lemma scratch_slot_of base pointer length_ r :
  r = Range base 1 V4_SIZE ∨ r = Range (base + CONNECTOR_STRIDE) 1 V6_SIZE → range_ok r →
  slot_of r pointer length_ = true → scratch_slot base pointer length_.
Proof.
  intros Hr Hok Hslot. apply slot_of_index in Hslot as (j & Hj & -> & ->); [|done].
  destruct Hr as [-> | ->]; cbn [r_base r_slots r_length] in *; [left|right]; (split; [|done]);
    replace j with 0 by lia; lia.
Qed.

(** C16: a connector started with arguments that pass is prepared, unless its
    control is no blocking stream of the machine's own or the kernel refuses
    it memory; and then a connect its filter lets through points at the whole
    socket address of an endpoint that was approved, at its port or, for
    port 0, at one of all, or, in a public connector, at one of the two
    slots of its scratch page, at that slot's length. *)
Theorem connect_reaches_approved h endpoints_ control_ timeout_ public_ es pub_ control timeout :
  start_arguments h endpoints_ control_ timeout_ public_ = inl (es, pub_, control, timeout) →
  match connector_prepare es pub_ control timeout with
  | inr errno =>
      errno ≠ 0 ∧ connector_control control = errno ∨ (∃ span, mmap span = inr errno)
      ∨ (∃ base span, errno ≠ 0 ∧ mprotect base span = errno)
  | inl (plan, ranges, page) =>
      ∀ numbers status d,
        numbers = connector_x86 ∨ numbers = connector_arm → data_ok d →
        Z.land (d_number d) 0xffffffff = n_connect numbers →
        verdict (insns (connector_program numbers ranges control status).1) d = Some CONNECTOR_ALLOW →
        (∃ e, e ∈ es ∧ approved e (slice (h_bytes (table plan)) (argument d 1 - h_memory (table plan)) (argument d 2)))
        ∨ enabled pub_ = true ∧ ∃ base, page = Some base ∧ scratch_slot base (argument d 1) (argument d 2)
  end.
Proof.
  intros Hargs. assert (∃ empty, connector_endpoints h endpoints_ true empty = inl es) as [empty Hes].
  { unfold start_arguments in Hargs. destruct (if bool_decide (public_ = LNil) then _ else _) as [p|]; [|done].
    exists (enabled p). destruct (connector_endpoints _ _ _ _) as [es'|]; [|done].
    destruct (cosmic_checkfd control_), (cosmic_checkint timeout_) as [t|]; try done. destruct (_ || _); [done|].
    by injection Hargs as <-. }
  apply connector_endpoints_ok in Hes as (Hok & Hused & Hlen). unfold CONNECTOR_ENDPOINTS in Hlen.
  unfold connector_prepare. destruct (Z.eqb_spec (connector_control control) 0); [|by left]. cbn [negb].
  pose proof (connector_table_ok es Hok Hused) as Htable. destruct (connector_table es) as [held|errno]; [|by right].
  pose proof (Forall2_length _ _ _ Htable) as Hl. pose proof (table_ranges_ok _ _ Htable) as Hranges.
  assert (∀ ranges numbers status d, numbers = connector_x86 ∨ numbers = connector_arm → data_ok d →
    Z.land (d_number d) 0xffffffff = n_connect numbers → Forall range_ok ranges → (length ranges ≤ MOST_RANGES)%nat →
    verdict (insns (connector_program numbers ranges control status).1) d = Some CONNECTOR_ALLOW →
    ∃ r, r ∈ ranges ∧ slot_of r (argument d 1) (argument d 2) = true) as Hslots.
  { intros ranges numbers status d Hn Hd Hcall Hrs Hfew Hv.
    pose proof (program_decides numbers ranges control status d Hn Hrs Hfew Hd) as Hp.
    destruct (connector_program _ _ _ _) as [code n]. destruct Hp as (_ & _ & Hp). cbn [fst] in Hv.
    rewrite Hp in Hv. injection Hv as Hv. by eapply policy_connect. }
  destruct (enabled pub_) eqn:Epub.
  - unfold connector_scratch. destruct page_multiple as (Hp & _ & _). unfold CONNECTOR_STRIDE at 1.
    rewrite (proj2 (Z.ltb_ge _ _)) by lia. destruct (mmap page_size) as [base|errno] eqn:Em; [|by right; left; exists page_size].
    destruct (scratch_ranges_ok base Em) as [Hok4 Hok6]. intros numbers status d Hn Hd Hcall Hv.
    apply Hslots in Hv as (r & Hr & Hslot); [|done..| |].
    + apply elem_of_app in Hr as [Hr|Hr].
      * left. cbn [table]. by eapply table_slot.
      * right. split; [done|]. exists base. split; [done|]. rewrite !elem_of_cons in Hr.
        destruct Hr as [->|[->|Hr]]; [| |by apply not_elem_of_nil in Hr].
        -- exact (scratch_slot_of base _ _ _ (or_introl eq_refl) Hok4 Hslot).
        -- exact (scratch_slot_of base _ _ _ (or_intror eq_refl) Hok6 Hslot).
    + apply Forall_app. split; [done|]. apply Forall_cons. split; [done|]. by apply Forall_cons.
    + rewrite length_app. cbn [length]. unfold MOST_RANGES. lia.
  - intros numbers status d Hn Hd Hcall Hv. left. cbn [table].
    apply Hslots in Hv as (r & Hr & Hslot); [by eapply table_slot|done..|]. unfold MOST_RANGES. lia.
Qed.

End prepared.

(** ** The filter's text *)

(** The instructions a text is, as [seccomp(2)] reads them. *)
Fixpoint read_insns (text : bytes) : list connector_insn :=
  match text with
  | a :: b :: jt :: jf :: k0 :: k1 :: k2 :: k3 :: text =>
      Insn (a + 256 * b) jt jf (k0 + 256 * k1 + 65536 * k2 + 16777216 * k3) :: read_insns text
  | _ => []
  end.

(** An instruction's fields fit their widths. *)
Definition insn_ok (i : connector_insn) : Prop := 0 ≤ insn_k i < 2 ^ 32.

Lemma read_insn_bytes i rest : insn_ok i → read_insns (insn_bytes i ++ rest) = i :: read_insns rest.
Proof.
  intros Hi. destruct i as [code jt jf k]. unfold insn_ok in Hi. cbn [insn_k] in Hi.
  unfold insn_bytes. cbn [app read_insns insn_code insn_jt insn_jf insn_k]. do 2 f_equal; zdiv.
Qed.

Lemma read_insns_bytes l : Forall insn_ok l → read_insns (l ≫= insn_bytes) = l.
Proof. induction 1 as [|i l Hi _ IH]; [done|]. rewrite bind_cons, read_insn_bytes by done. by rewrite IH. Qed.

Lemma u32_insn op jt jf x : insn_ok (Insn op jt jf (u32 x)).
Proof. unfold insn_ok. apply Z.mod_pos_bound. lia. Qed.

Ltac insns_ok := repeat (apply Forall_cons; split; [first [apply u32_insn|by vm_compute]|]); by apply Forall_nil.

Lemma calls_ok numbers control status :
  numbers = connector_x86 ∨ numbers = connector_arm → Forall insn_ok (insns (connector_calls numbers control status)).
Proof.
  intros [-> | ->].
  - rewrite x86_calls_code. unfold x86_calls. cbn [insns]. insns_ok.
  - rewrite arm_calls_code. unfold arm_calls. cbn [insns]. insns_ok.
Qed.

Lemma ranges_insns_ok ranges : Forall range_ok ranges → Forall insn_ok (ranges ≫= range_insns).
Proof.
  induction 1 as [|r ranges Hr _ IH]; [done|]. rewrite bind_cons. apply Forall_app. split; [|done].
  unfold range_insns. destruct (ok_length _ Hr) as [-> | ->]; insns_ok.
Qed.

Lemma insns_text_length (l : list connector_insn) : length (l ≫= insn_bytes) = (8 * length l)%nat.
Proof. induction l as [|i l IH]; [done|]. rewrite bind_cons, length_app, IH. cbn [length insn_bytes]. lia. Qed.

(** The program is whole, and its fields fit. *)
Lemma program_ok numbers ranges control status :
  numbers = connector_x86 ∨ numbers = connector_arm → Forall range_ok ranges → (length ranges ≤ MOST_RANGES)%nat →
  ∃ l, connector_program numbers ranges control status = (Code l (length l), length l) ∧
    (0 < length l ≤ CONNECTOR_INSNS)%nat ∧ Forall insn_ok l.
Proof.
  intros Hn Hr Hlen. pose proof (calls_ok numbers control status Hn) as Hcalls. pose proof (ranges_insns_ok ranges Hr) as Hrs.
  assert (∃ calls, connector_calls numbers control status = Code calls (length calls) ∧ (length calls ≤ 94)%nat) as (calls & Hc & Hl).
  { destruct Hn as [-> | ->].
    - exists (x86_calls control status). split; [apply x86_calls_code|done].
    - exists (arm_calls control status). split; [apply arm_calls_code|]. cbn. lia. }
  destruct (program_insns _ ranges _ _ _ Hc Hl Hlen) as [Hp Hfit]. rewrite Hc in Hcalls. cbn [insns] in Hcalls.
  eexists. split; [exact Hp|]. split; [done|]. rewrite !Forall_app. split_and!; [done..|]. insns_ok.
Qed.

(** Lua's integers are of 64 bits. *)
Class LuaIntegersWidth `{LuaIntegers} := integer_width : ∀ v z, lua_tointegerx v = Some z → - 2 ^ 63 ≤ z < 2 ^ 63.

Section text.
Context `{LuaStrings, Hint : LuaIntegers, !LuaIntegersWidth, RawLen, LuaFields, Hartifact : Artifact}.

Lemma connector_range_of_ok h item r : connector_range_of h item = inl r → range_ok r.
Proof.
  unfold connector_range_of. destruct item as [| | | | | |a|]; try done.
  destruct (lua_tointegerx _) as [base|] eqn:Eb; [|done]. apply integer_width in Eb.
  destruct (cosmic_checkint _) as [each|]; [|done]. destruct (cosmic_checkint _) as [length_|]; [|done].
  destruct (negb (length_ =? 16) && negb (length_ =? 28)) eqn:El; [done|].
  destruct (_ || (65535 <? each)) eqn:Ebad; [done|]. rewrite !orb_false_iff, Z.leb_gt, !Z.ltb_ge, negb_false_iff, Z.eqb_eq in Ebad.
  destruct Ebad as (((Hbase & Hmask) & Heach) & Hmost).
  assert ((length_ = V4_SIZE ∧ connector_stride length_ = 16) ∨ (length_ = V6_SIZE ∧ connector_stride length_ = 32)) as Hst.
  { apply andb_false_iff in El as [El|El]; apply negb_false_iff, Z.eqb_eq in El as ->; auto. }
  assert (u64 (base + each * connector_stride length_) = base + each * connector_stride length_) as ->.
  { unfold u64. apply Z.mod_small. destruct Hst as [[_ ->]|[_ ->]]; lia. }
  rewrite !Z.shiftr_div_pow2 by done.
  destruct (Z.eqb_spec (base / 2 ^ 32) ((base + each * connector_stride length_) / 2 ^ 32)) as [Hin|]; [|done].
  intros [= <-]. split; cbn [r_base r_slots r_length]; [by destruct Hst as [[-> _]|[-> _]]; auto|lia|lia| |done].
  destruct Hst as [[_ Hs]|[_ Hs]]; rewrite Hs in *;
    [rewrite (land_low base 4 (16 - 1)) in Hmask by done|rewrite (land_low base 5 (32 - 1)) in Hmask by done]; done.
Qed.

(** A range as its entry's fields give it. *)
Definition range_read (h : heap) (item : lua_value) (r : connector_range) : Prop :=
  (∃ a, item = LTable a) ∧ lua_tointegerx (lua_getfield h item (lit "base")) = Some (r_base r) ∧
  cosmic_checkint (lua_getfield h item (lit "slots")) = inl (r_slots r) ∧
  cosmic_checkint (lua_getfield h item (lit "length")) = inl (r_length r).

(** The bytes the slots of ranges take. *)
Definition ranges_bytes (rs : list connector_range) : Z :=
  foldr Z.add 0 ((λ r, r_slots r * connector_stride (r_length r)) <$> rs).

(** The ranges of a table: one for each of its entries in their order, each
    as its fields give it and one the filter can express, and no more of
    them than the connector lays out. *)
Definition ranges_given (h : heap) (ranges_ : lua_value) (rs : list connector_range) : Prop :=
  ∃ a, ranges_ = LTable a ∧ lua_rawlen (table_at h a) ≠ 0 ∧ length rs = Z.to_nat (lua_rawlen (table_at h a)) ∧
    (∀ i r, rs !! i = Some r → range_read h (rawgeti (table_at h a) (Z.of_nat i + 1)) r) ∧
    Forall range_ok rs ∧ Z.of_nat (length rs) ≤ CONNECTOR_ENDPOINTS ∧ ranges_bytes rs ≤ CONNECTOR_TABLE_BYTES.

Lemma connector_range_of_read h item r : connector_range_of h item = inl r → range_read h item r.
Proof.
  unfold connector_range_of, range_read. destruct item as [| | | | | |a|]; try done.
  destruct (lua_tointegerx _) as [base|]; [|done]. destruct (cosmic_checkint _) as [each|]; [|done].
  destruct (cosmic_checkint _) as [length_|]; [|done].
  repeat (case_match; [done|]). intros [= <-]. by eauto 6.
Qed.

Lemma ranges_loop_ok h items bytes_ rs :
  0 ≤ bytes_ ≤ CONNECTOR_TABLE_BYTES → ranges_loop h items bytes_ = inl rs →
  Forall range_ok rs ∧ Forall2 (range_read h) items rs ∧ bytes_ + ranges_bytes rs ≤ CONNECTOR_TABLE_BYTES.
Proof.
  revert bytes_ rs. induction items as [|item items IH]; intros bytes_ rs Hb; cbn [ranges_loop].
  { intros [= <-]. split_and!; [by constructor..|]. unfold ranges_bytes. simpl. lia. }
  destruct (connector_range_of h item) as [r|] eqn:Er; [|done]. destruct (Z.ltb_spec CONNECTOR_TABLE_BYTES (bytes_ + r_slots r * connector_stride (r_length r))) as [|Hfit]; [done|].
  destruct (ranges_loop _ _ _) as [rs'|] eqn:El; [|done]. intros [= <-].
  pose proof (connector_range_of_ok _ _ _ Er) as Hok.
  assert (0 ≤ r_slots r * connector_stride (r_length r)) as Hpos.
  { destruct Hok as [[-> | ->] _ [Hs _] _ _]; [change (connector_stride V4_SIZE) with 16|change (connector_stride V6_SIZE) with 32]; lia. }
  apply IH in El as (Hall & Hread & Hsum); [|lia]. split_and!.
  - by constructor.
  - constructor; [by apply connector_range_of_read|done].
  - unfold ranges_bytes in *. csimpl. lia.
Qed.

(** C21: the text [connector_filter] answers is instructions that decide every
    call as the policy of the architecture, the ranges its table gives, entry
    by entry, and the descriptors given does; and it is never too long for
    the kernel. *)
Theorem filter_text_decides h architecture ranges_ control_ status_ text :
  connector_filter h architecture ranges_ control_ status_ = inl text →
  ∃ name numbers ranges control status,
    lua_tolstring architecture = Some name ∧
    (c_string name = lit "x86_64" ∧ numbers = connector_x86 ∨ c_string name = lit "aarch64" ∧ numbers = connector_arm) ∧
    ranges_given h ranges_ ranges ∧ cosmic_checkfd control_ = inl control ∧ cosmic_checkfd status_ = inl status ∧
    (length text ≤ 8 * CONNECTOR_INSNS)%nat ∧
    ∀ d, data_ok d → verdict (read_insns text) d = Some (connector_policy numbers ranges control status d).
Proof.
  unfold connector_filter. destruct (lua_tolstring architecture) as [name|]; [|done].
  set (named := if bool_decide _ then _ else _).
  assert (∀ numbers, named = Some numbers →
    c_string name = lit "x86_64" ∧ numbers = connector_x86 ∨ c_string name = lit "aarch64" ∧ numbers = connector_arm) as Hnamed.
  { intros numbers. unfold named. case_bool_decide; [intros [= <-]; by left|]. case_bool_decide; [intros [= <-]; by right|done]. }
  destruct named as [numbers|]; [|done]. specialize (Hnamed numbers eq_refl).
  assert (numbers = connector_x86 ∨ numbers = connector_arm) as Hn by (destruct Hnamed as [[_ ->]|[_ ->]]; auto).
  destruct ranges_ as [| | | | | |a|]; try done.
  destruct (_ || _) eqn:Ecount; [done|]. apply orb_false_iff in Ecount as [Ezero%Z.eqb_neq Ecount%Z.ltb_ge]. unfold CONNECTOR_ENDPOINTS in Ecount.
  destruct (ranges_loop _ _ _) as [ranges|] eqn:El; [|done]. apply ranges_loop_ok in El as (Hr & Hread & Hbytes); [|done].
  apply Forall2_length in Hread as Hlen. rewrite length_fmap, length_seqZ in Hlen.
  assert (ranges_given h (LTable a) ranges) as Hgiven.
  { exists a. split; [done|]. split; [done|]. split; [lia|]. split_and!; [|done|unfold CONNECTOR_ENDPOINTS; lia|done].
    intros i r Hi. eapply Forall2_lookup_r in Hi as (item & Hitem & Hr'); [|exact Hread].
    apply list_lookup_fmap_Some in Hitem as (z & -> & Hz). apply lookup_seqZ in Hz as [-> _]. by rewrite Z.add_comm. }
  destruct (cosmic_checkfd control_) as [control|]; [|by destruct (cosmic_checkfd status_)].
  destruct (cosmic_checkfd status_) as [status|]; [|done].
  destruct (program_ok numbers ranges control status Hn Hr) as (l & Hprogram & Hl & Hok); [unfold MOST_RANGES; lia|].
  pose proof (program_decides numbers ranges control status) as Hdecides. rewrite Hprogram in *.
  rewrite bool_decide_eq_false_2 by lia. cbn [insns]. rewrite take_ge by done. intros [= <-].
  exists name, numbers, ranges, control, status. split_and!; try done.
  - rewrite insns_text_length. lia.
  - intros d Hd. rewrite read_insns_bytes by done. apply Hdecides; [done..|unfold MOST_RANGES; lia|done].
Qed.

End text.

(** ** One start *)

Module Started.
Import Plain Straddling.

#[export] Instance no_artifact : Artifact := None.
#[export] Instance a_pair : Control := {
  getpeername _ := inl AF_UNIX; socket_kind _ := inl SOCK_STREAM; fcntl_flags _ := inl 2 }.

(** The second slot, past the boundary. *)
Definition second_slot : Z := 0x7eff00000020.

Lemma connect_reaches_approved_witness :
  ∃ plan ranges page,
    connector_prepare two_endpoints (Public [] [] false) 3 3000 = inl (plan, ranges, page) ∧
    verdict (insns (connector_program connector_x86 ranges 3 4).1) (connect_call second_slot V6_SIZE) = Some CONNECTOR_ALLOW ∧
    ∃ e, e ∈ two_endpoints ∧ approved e (slice (h_bytes (table plan)) (second_slot - h_memory (table plan)) V6_SIZE).
Proof.
  assert (start_arguments two (LTable 1) (LInt 3) (LInt 3000) LNil = inl (two_endpoints, Public [] [] false, 3, 3000)) as Hargs
    by (by vm_compute).
  pose proof (connect_reaches_approved _ _ _ _ _ _ _ _ _ Hargs) as Hreach.
  destruct (connector_prepare two_endpoints (Public [] [] false) 3 3000) as [[[plan ranges] page]|errno] eqn:Et;
    [|by vm_compute in Et].
  exists plan, ranges, page. split; [done|].
  assert (verdict (insns (connector_program connector_x86 ranges 3 4).1) (connect_call second_slot V6_SIZE)
          = Some CONNECTOR_ALLOW) as Hv by (vm_compute in Et; injection Et as <- <- <-; by vm_compute).
  split; [done|]. destruct (Hreach connector_x86 4 (connect_call second_slot V6_SIZE)) as [He|[He _]];
    [by left| |done|done|exact He|discriminate].
  apply data_ok_args. repeat (apply Forall_cons; split; [by vm_compute|]). by apply Forall_nil.
Defined.

(** Integers that fit alone. *)
Definition narrow : LuaIntegers :=
  λ v, match v with LInt z => if (- 2 ^ 63 <=? z) && (z <? 2 ^ 63) then Some z else None | _ => None end.

Lemma narrow_width : @LuaIntegersWidth narrow.
Proof.
  intros v z. unfold lua_tointegerx, narrow. destruct v; try done. destruct (_ && _) eqn:E; [|done]. intros [= <-].
  apply andb_true_iff in E as [?%Z.leb_le ?%Z.ltb_lt]. lia.
Qed.

(** One range of two slots. *)
Definition a_range : heap :=
  <[1%positive := Table None [(LInt 1, LTable 2)]]>
  (<[2%positive := Table None [(LString (lit "base"), LInt 4096); (LString (lit "slots"), LInt 2);
                               (LString (lit "length"), LInt 16)]]> ∅).

Lemma filter_text_decides_witness :
  ∃ text, connector_filter (H0 := narrow) a_range (LString (lit "aarch64")) (LTable 1) (LInt 3) (LInt 4) = inl text ∧
    ∀ d, data_ok d → verdict (read_insns text) d = Some (connector_policy connector_arm [Range 4096 2 16] 3 4 d).
Proof.
  destruct (connector_filter (H0 := narrow) a_range (LString (lit "aarch64")) (LTable 1) (LInt 3) (LInt 4)) as [text|why] eqn:E;
    [|by vm_compute in E].
  exists text. split; [done|].
  destruct (@filter_text_decides _ narrow narrow_width _ _ _ _ _ _ _ _ _ E)
    as (name & numbers & ranges & control & status & Hname & Hnumbers & Hgiven & Hcontrol & Hstatus & _ & Hd).
  injection Hname as <-. assert (numbers = connector_arm) as -> by (destruct Hnumbers as [[Hx _]|[_ ->]]; [discriminate Hx|done]).
  injection Hcontrol as <-. injection Hstatus as <-.
  assert (ranges = [Range 4096 2 16]) as ->; [|exact Hd].
  destruct Hgiven as (a & [= <-] & _ & Hlen & Hread & _). vm_compute in Hlen.
  destruct ranges as [|[base slots length_] [|r' ranges]]; [discriminate Hlen| |discriminate Hlen].
  destruct (Hread 0%nat _ eq_refl) as (_ & Hbase & Hslots & Hlength).
  vm_compute in Hbase, Hslots, Hlength. by injection Hbase as <-; injection Hslots as <-; injection Hlength as <-.
Defined.

End Started.
